(* ===== verification/_CoqProject ===== *)
-Q . S2P
Prelude.v
Types.v
Sha256.v
Target.v
Merkle.v
Params.v
Utxo.v
Keys.v
Script.v
TxValidation.v
Algorithms.v
Validation.v
Difficulty.v
Pow.v
TimeAdjust.v
BlockFiles.v
Store.v
Migrate.v
Chain.v
ChainProps.v
Heap.v
Mempool.v
MempoolProps.v
Base58.v
Protocol.v
Headers.v
Scheduler.v
Miner.v
Net.v
Peer.v
ManagerState.v
Manager.v
Sync.v
ManagerInv.v
ManagerProps.v
Relay.v
SyncProps.v
Aes.v
Wallet.v
WalletTx.v
WalletInv.v
WalletProps.v
WalletRestart.v
WalletSafety.v
RpcBase.v
RpcQuery.v
RpcWallet.v
RpcMining.v
RpcServer.v
Conf.v
Discovery.v
RpcInv.v
Node.v
RpcLimits.v
RpcProps.v
NodeProps.v
