(* ===== verification/Prelude.v ===== *)
(** * A verification of the Fairchain node

    Fairchain is a proof-of-work block chain node written in Go.  Blocks and
    transactions arrive from peers over a framed binary protocol; headers are
    collected first and the bodies are downloaded in order; each block is
    validated, connected to the set of unspent outputs and written to flat files
    and a key-value database; transactions that are not yet in a block wait in a
    pool, from which a miner takes the next block.  A peer-to-peer manager
    relays both between nodes and drives the synchronisation; a wallet holds the
    user's keys and builds payments; a server answers requests over HTTP and
    JSON-RPC.  This library models that core, component
    by component, as executable definitions translated from the sources under
    internal/, and proves the properties that make it correct.

    ** How the code is modelled

    A pure Go function is a Rocq function; a function that returns an error is a
    function into [res] (a value, an error, or a run-time panic: a slice or map
    access that Go would refuse is [Panic], not a default); a method that changes
    its receiver is a function of the state, written in the monad [proc] where it
    can also fail.  Machine integers are kept in [Z] with the wrap-around of
    their width written out ([u32], [u64], [i64]); Go [int] is unbounded where
    the value is a length or a count held in memory.  Maps are finite maps of
    stdpp, and the order of a [range] over a map is an argument of the operation,
    constrained in theorems to be a permutation of the entries.  Objects that are
    shared through pointers live in an object store (the pool entries of
    Mempool, the header nodes of Headers), so that aliasing is modelled.  Loops
    that are not structural carry fuel; the bound is stated at the definition
    and the theorems prove that it is enough (script execution, heap repairs,
    ancestor walks, locators, draining, base-58 digits).  Mutexes are left out:
    every exported method holds its lock for its whole body and is one step.

    What is not in the repository is a parameter with the documented behaviour
    that the proofs need as laws: secp256k1, ECDSA and RIPEMD-160 ([CryptoLib] in
    Keys), scrypt and Argon2 ([HashLib] in Algorithms), LevelDB ([LevelDB] in
    Store), hierarchical key derivation, mnemonics and the text of JSON ([HDLib]
    in Wallet, with the laws [WalletLaws] in WalletRestart), the readings of clocks (functions [nat -> Z], unconstrained) and the
    outcomes of system calls (an oracle in BlockFiles).  Every set of laws is
    shown satisfiable by an instance used in the witnesses.

    ** The files, in dependency order

    - Prelude: results, errors, machine integers, byte strings, readers, the
      state monad, and the tactics and hint databases of the development.
    - Types (internal/types): hashes, headers, transactions, blocks, variable
      length integers and their wire encoding: round trips, canonical encodings,
      sizes.
    - Sha256 (crypto/hash.go): SHA-256 after FIPS 180-4 and the hashes of
      headers and transactions.
    - Target (crypto/target.go): compact targets, work and the proof-of-work
      test against exact arithmetic.
    - Merkle (crypto/merkle.go): the tree root, its binding up to collisions and
      the duplicated last leaf.
    - Params (internal/params): networks, subsidy schedule and total issue,
      genesis blocks.
    - Utxo (internal/utxo): the set of unspent outputs; connecting a block
      refines an abstract ledger, disconnecting is its inverse.
    - Keys, Script (crypto/keys.go, crypto/signature.go, internal/script):
      script templates, signature hashes, the script interpreter; it terminates,
      and a P2PKH output is spent exactly by a key holder.
    - TxValidation, Validation (internal/consensus): validation of transactions
      and of block structure, median time, BIP34; validated blocks connect and
      create no money.
    - Algorithms, Difficulty, Pow (internal/algorithms, internal/difficulty,
      internal/consensus/pow): proof-of-work hashes, the four retargeting rules,
      and the engine that combines them.
    - TimeAdjust (internal/timeadjust): the network-adjusted clock.
    - BlockFiles, Store (internal/store): flat files over failing system calls,
      the block index and the chain state over LevelDB, behind the class
      [BlockStore] with laws that the implementation discharges.
    - Chain, ChainProps (internal/chain/chain.go): the chain manager over any
      [BlockStore] and any [Engine]: initialisation, block processing,
      reorganisation, orphans.
    - Heap (container/heap of the Go library), Mempool, MempoolProps
      (internal/mempool): the pool with its fee-ordered heap refines an abstract
      set of entries.
    - Base58 (crypto/base58.go): addresses and private key export.
    - Protocol (internal/protocol and the framing of internal/p2p/peer.go): every
      message and its delivery over a byte stream.
    - Headers (internal/chain/headers.go): the header index.
    - Scheduler (internal/p2p/scheduler.go): the block download scheduler.
    - Miner (internal/miner): selection of transactions, coinbase, nonce search.
    - Net, Peer (internal/p2p): addresses and their checks; peers with their
      send queues, sets of known hashes, scores and limits.
    - ManagerState, Manager, Sync (internal/p2p/manager.go): the state of the
      manager over the components it calls, the handler of every message, bans,
      connection slots, and the synchronisation state machine with its ticks.
    - ManagerInv, ManagerProps, Relay, SyncProps: the invariant of the manager
      under every event, and its theorems.
    - Aes (the ciphers of internal/wallet/hdwallet.go over FIPS 197): AES in CBC
      mode with PKCS 7 padding, and that decryption inverts encryption.
    - Wallet, WalletTx (internal/wallet): key derivation, the wallet file,
      encryption and locking, balances, coin selection, payments.
    - WalletInv, WalletProps, WalletRestart, WalletSafety: the invariant of the
      wallet under every operation, and its theorems.
    - RpcBase, RpcQuery, RpcWallet, RpcMining, RpcServer (internal/rpc): JSON
      values, requests and answers; the handlers that read the node, those of the
      wallet and those for miners; dispatch, batches, routes, authentication and
      the rate limit.  The state of the server holds the manager, with the chain
      and the pool, and the wallet.
    - Migrate (internal/node/migrate.go, internal/store/bolt.go; after Store): the
      migration of a legacy database to any [BlockStore], with bbolt as a parameter.
    - Conf, Discovery (internal/config, internal/p2p/discovery,
      internal/store/peerdump.go): the configuration file, the addresses a node
      starts with and the file it keeps them in.
    - Node (internal/node): the genesis block, the opening of a node with its
      cleanups, its start with the checks on the RPC server, the miner's switch
      and its blocks.
    - RpcInv, RpcLimits, RpcProps, NodeProps: every request keeps the invariant of
      the server, and the theorems about the server and the node.

    ** What the theorems show

    Money: a block that passes validation creates at most its subsidy
    ([no_inflation]), connection refines a ledger and is undone exactly by
    disconnection, the total issue is bounded.  Spending: scripts terminate, and
    pay-to-public-key-hash outputs are spent exactly with a signature of the key.
    Consensus: headers are accepted only with enough work at the difficulty the
    retargeting rule gives and within the time rules; header chains in the index
    are validated link by link and the chain with most work is chosen, the first
    seen winning ties.  Encoding: every message, block and stored record is
    decoded to what was encoded, and only canonical encodings are accepted.
    Resources: the orphan pool, the memory pool, the reorganisation depth, the
    download queues and the caches stay within their limits in every reachable
    state; the four retargeting rules are computed without overflow.  Failure: a
    reorganisation is tried on a copy of the UTXO set, an object beside the live
    one, and leaves the chain as it was when the trial fails; stored data survives later failing writes, no request is lost.  Progress:
    a download with an answering peer completes.

    Network: the manager's invariant holds after every message, tick and
    connection event; banned peers are not admitted; the headers that a node serves
    pass the checks of the one that asked for them, up to a limit per peer and the
    pruning of stale forks; transactions and blocks are
    announced to every peer that does not have them; the synchronisation moves
    only along its state machine.  Wallet: a payment that is built
    within the limits of size and amount is accepted by the transaction validation and pays what was asked, and it is built whenever
    the funds are there; the keys come back after a restart and after an
    encryption; a locked wallet does not sign, build payments or dump keys.  Server: a request without
    credentials, or with another method than POST, does not change the node (two
    paths apart); the rate limit is kept; a payment that is answered with a hash
    is in the pool and announced, and an error leaves nothing half done; a
    submitted block goes the way of a block from a peer.  Node: the components
    that share the chain, the pool and the wallet keep one invariant under every
    interleaving of requests, messages, timers and mined blocks; a server that
    other hosts can reach uses TLS and credentials; a migrated chain is read back
    as it was.

    Some theorems record where the code falls short of its intent: a failed write
    of the tip leaves the in-memory set one block ahead
    ([tip_write_failure_keeps_block]), and the scheduler's request counts drift
    when a block arrives from another peer ([foreign_delivery_miscounts]); a wallet
    file that cannot be read is replaced by a new wallet
    ([read_error_replaces_wallet]); locking and unlocking loses the mnemonic
    ([relock_loses_mnemonic]); after a block of minimum difficulty the templates
    of the server are rejected by its own engine ([template_bits]); an RPC address
    without a host passes for the loopback interface ([server_exposure]); a miner
    started with the node is not stopped by the switch ([mining_switch]); a locked
    wallet still hands out keys through its lookups ([locked_wallet_safe]); a peer
    that serves more than 100000 headers is banned ([headers_exchange]).

    ** Not modelled

    The goroutines, timers and sockets of the peer-to-peer manager, the listener
    of the RPC server and its TLS, the text of JSON, the report on peers and their
    traffic, the order of the node's shutdown, the old key store and the backup of
    the wallet file, the JSON configuration and the paths of the data directory,
    logging and metrics, the entry points under cmd/ and the graphical front end.  Log lines and counters that are only reported are left out of the
    modelled functions; quotients of floating point in answers of the server are
    kept as pairs of integers, without rounding. *)

From Stdlib Require Export ZArith Lia Bool.
From Stdlib Require Export Strings.Byte.
From stdpp Require Export base tactics numbers strings gmap list.

Global Open Scope Z_scope.

(** ** The prelude

    [res], the outcome of a Go call, with the monad operations of stdpp
    ([x ← m; k]); [error], Go's error values (formatted arguments are dropped,
    [%w] wrapping and the sentinel errors are kept); the conversions to the
    fixed-width integers; bytes, little- and big-endian encodings; [reader], an
    [io.Reader] over a byte string; [proc], calls that change a state; and the
    tactics and hint databases used by the component files. *)

(** ** Errors and results *)

(** Go error values.  [Errorf] is an error made by [fmt.Errorf] or
    [errors.New] without a wrapped cause, [Wrapf] one made with [%w];
    [Sentinel] is a package-level error variable compared with [errors.Is]. *)
Inductive error : Type :=
| Errorf (msg : string)
| Wrapf (msg : string) (cause : error)
| Sentinel (name : string).

#[export] Instance error_eq_dec : EqDecision error.
Proof. solve_decision. Defined.

(** [errors.Is(err, target)]: walk the chain of wrapped causes. *)
Fixpoint errors_Is (e target : error) : bool :=
  bool_decide (e = target) ||
  match e with
  | Wrapf _ c => errors_Is c target
  | _ => false
  end.

(** The outcome of a Go call that may fail or panic. *)
Inductive res (A : Type) : Type :=
| Ok (a : A)
| Err (e : error)
| Panic.
Arguments Ok {A} a.
Arguments Err {A} e.
Arguments Panic {A}.

#[export] Instance res_eq_dec {A} `{EqDecision A} : EqDecision (res A).
Proof. solve_decision. Defined.

#[export] Instance res_ret : MRet res := @Ok.
#[export] Instance res_bind : MBind res := λ A B f m,
  match m with
  | Ok a => f a
  | Err e => Err e
  | Panic => Panic
  end.
#[export] Instance res_fmap : FMap res := λ A B f m,
  match m with
  | Ok a => Ok (f a)
  | Err e => Err e
  | Panic => Panic
  end.

Definition is_ok {A} (m : res A) : bool :=
  match m with Ok _ => true | _ => false end.
Definition is_err {A} (m : res A) : bool :=
  match m with Err _ => true | _ => false end.

(** [if c { return err }] in the middle of a function. *)
Definition fail_if (c : bool) (e : error) : res () :=
  if c then Err e else Ok ().

(** [if err != nil { return fmt.Errorf("msg: %w", err) }]. *)
Definition wrap {A} (msg : string) (m : res A) : res A :=
  match m with
  | Err e => Err (Wrapf msg e)
  | _ => m
  end.

(** The [(value, err)] a third-party function returns. *)
Definition lib {A} (r : error + A) : res A :=
  match r with inl e => Err e | inr a => Ok a end.

(** A [for _, x := range l] loop whose body updates a state or returns. *)
Fixpoint foldM {S A} (f : S → A → res S) (s : S) (l : list A) : res S :=
  match l with
  | [] => Ok s
  | x :: l' => s' ← f s x; foldM f s' l'
  end.

(** A [for i, x := range l] loop: the body also gets the index. *)
Fixpoint foldiM_from {S A} (i : Z) (f : S → Z → A → res S) (s : S) (l : list A)
    : res S :=
  match l with
  | [] => Ok s
  | x :: l' => s' ← f s i x; foldiM_from (i + 1) f s' l'
  end.
Abbreviation foldiM := (foldiM_from 0).

Section res_lemmas.
Context {A B : Type}.
Implicit Types (m : res A) (f : A → res B).

Lemma bind_Ok f m b : (m ≫= f) = Ok b ↔ ∃ a, m = Ok a ∧ f a = Ok b.
Proof. destruct m; simpl; naive_solver. Qed.

Lemma fmap_Ok (g : A → B) m b : g <$> m = Ok b ↔ ∃ a, m = Ok a ∧ b = g a.
Proof. destruct m; simpl; naive_solver. Qed.

Lemma wrap_Ok msg m a : wrap msg m = Ok a ↔ m = Ok a.
Proof. destruct m; simpl; naive_solver. Qed.

Lemma fail_if_Ok c e u : fail_if c e = Ok u ↔ c = false.
Proof. destruct c, u; simpl; naive_solver. Qed.
End res_lemmas.

(** Turn an equation [m = Ok a] about a monadic computation into the equations
    of its steps. *)
Ltac res_inv :=
  repeat match goal with
  | H : Ok _ = Ok _ |- _ => injection H as H; try subst
  | H : Err _ = Ok _ |- _ => discriminate H
  | H : Panic = Ok _ |- _ => discriminate H
  | H : mret ?x = Ok ?y |- _ => change (Ok x = Ok y) in H
  | H : (_ ≫= _) = Ok _ |- _ =>
      apply bind_Ok in H; let x := fresh "x" in destruct H as (x & ? & H)
  | H : _ <$> _ = Ok _ |- _ =>
      apply fmap_Ok in H; let x := fresh "x" in destruct H as (x & H & ?)
  | H : wrap _ _ = Ok _ |- _ => apply wrap_Ok in H
  | H : fail_if _ _ = Ok _ |- _ => apply fail_if_Ok in H
  | x : () |- _ => destruct x
  | x : _ * _ |- _ => destruct x
  end; simplify_eq/=.

(** The same through the conditionals and matches between the steps. *)
Ltac res_cases :=
  res_inv;
  repeat (match goal with
          | H : (if ?b then _ else _) = Ok _ |- _ => destruct b eqn:?
          | H : (match ?x with _ => _ end) = Ok _ |- _ => destruct x eqn:?
          end; res_inv).

Section fold_lemmas.
Context {A S : Type}.

Lemma foldM_app (g : S → A → res S) s l1 l2 :
  foldM g s (l1 ++ l2) = (s' ← foldM g s l1; foldM g s' l2).
Proof.
  revert s. induction l1 as [|x l1 IH]; intros s; simpl; [done|].
  destruct (g s x); simpl; auto.
Qed.

(** The invariant rule for [foldM]; [P done s] speaks of the elements already
    consumed. *)
Lemma foldM_inv (P : list A → S → Prop) (g : S → A → res S) l s s' :
  P [] s →
  (∀ don x rest s1 s2, l = don ++ x :: rest → P don s1 →
     g s1 x = Ok s2 → P (don ++ [x]) s2) →
  foldM g s l = Ok s' → P l s'.
Proof.
  intros H0 Hstep.
  assert (∀ rest don s1, l = don ++ rest → P don s1 →
            foldM g s1 rest = Ok s' → P l s') as Hgen;
    [|intros; by eapply (Hgen l [])].
  induction rest as [|x rest IH]; intros don s1 Hl HP Hf; simpl in Hf.
  - rewrite app_nil_r in Hl. res_inv. done.
  - res_inv. eapply (IH (don ++ [x])); [|by eapply Hstep|done].
    by rewrite <-app_assoc.
Qed.

(** The same rule for a loop that carries its index. *)
Lemma foldiM_inv (P : list A → S → Prop) (g : S → Z → A → res S) l s s' :
  P [] s →
  (∀ don x rest s1 s2, l = don ++ x :: rest → P don s1 →
     g s1 (Z.of_nat (length don)) x = Ok s2 → P (don ++ [x]) s2) →
  foldiM g s l = Ok s' → P l s'.
Proof.
  intros H0 Hstep.
  assert (∀ rest don s1, l = don ++ rest → P don s1 →
    foldiM_from (Z.of_nat (length don)) g s1 rest = Ok s' → P l s') as Hgen;
    [|intros; by eapply (Hgen l [])].
  induction rest as [|x rest IH]; intros don s1 Hl HP Hf; simpl in Hf.
  - rewrite app_nil_r in Hl. res_inv. done.
  - res_inv. eapply (IH (don ++ [x])); [|by eapply Hstep|].
    + by rewrite <-app_assoc.
    + by rewrite length_app, Nat2Z.inj_add.
Qed.

(** A loop that has an always-possible step succeeds. *)
Lemma foldM_ok (P : list A → S → Prop) (g : S → A → res S) l s :
  P [] s →
  (∀ don x rest s1, l = don ++ x :: rest → P don s1 →
     ∃ s2, g s1 x = Ok s2 ∧ P (don ++ [x]) s2) →
  ∃ s', foldM g s l = Ok s' ∧ P l s'.
Proof.
  intros H0 Hstep.
  assert (∀ rest don s1, l = don ++ rest → P don s1 →
            ∃ s', foldM g s1 rest = Ok s' ∧ P l s') as Hgen;
    [|by eapply (Hgen l [])].
  induction rest as [|x rest IH]; intros don s1 Hl HP; simpl.
  - rewrite app_nil_r in Hl. subst. eauto.
  - edestruct Hstep as (s2 & -> & HP2); [done..|]. simpl.
    eapply (IH (don ++ [x])); [|done]. by rewrite <-app_assoc.
Qed.
End fold_lemmas.

Lemma lib_Ok {A} (r : error + A) a : lib r = Ok a ↔ r = inr a.
Proof. destruct r; naive_solver. Qed.

(** ** Absence of panics *)

Definition no_panic {A} (r : res A) : Prop := r ≠ Panic.

Lemma no_panic_bind {A B} (m : res A) (f : A → res B) :
  no_panic m → (∀ a, m = Ok a → no_panic (f a)) → no_panic (m ≫= f).
Proof. destruct m; cbn; intros Hm Hf; auto; done. Qed.

Lemma no_panic_fail_if c e : no_panic (fail_if c e).
Proof. by destruct c. Qed.

Lemma no_panic_wrap {A} msg (m : res A) : no_panic m → no_panic (wrap msg m).
Proof. by destruct m. Qed.

Lemma no_panic_lib {A} (r : error + A) : no_panic (lib r).
Proof. by destruct r. Qed.

Lemma no_panic_Ok {A} (a : A) : no_panic (Ok a).
Proof. done. Qed.

Lemma no_panic_Err {A} e : no_panic (@Err A e).
Proof. done. Qed.

Create HintDb np discriminated.
#[export] Hint Resolve no_panic_fail_if no_panic_wrap no_panic_lib no_panic_Ok no_panic_Err : np.

(** Walks through a monadic body, leaving the panic-prone leaves. *)
Ltac np_step :=
  repeat first
    [ progress auto with np
    | apply no_panic_bind; [|intros ? ?]
    | match goal with
      | |- no_panic (match ?x with _ => _ end) => destruct x eqn:?
      | |- no_panic (let '_ := ?x in _) => destruct x eqn:?
      end ].

(** ** Machine integers

    Values are integers in [Z]; an operation that can leave the range of its
    type is followed by the conversion to that type. *)
Definition u8 (z : Z) : Z := z mod 2 ^ 8.
Definition u16 (z : Z) : Z := z mod 2 ^ 16.
Definition u32 (z : Z) : Z := z mod 2 ^ 32.
Definition u64 (z : Z) : Z := z mod 2 ^ 64.
Definition i64 (z : Z) : Z := (z + 2 ^ 63) mod 2 ^ 64 - 2 ^ 63.

Definition is_u32 (z : Z) : Prop := 0 ≤ z < 2 ^ 32.
Definition is_u64 (z : Z) : Prop := 0 ≤ z < 2 ^ 64.
Definition is_i64 (z : Z) : Prop := - 2 ^ 63 ≤ z < 2 ^ 63.

#[export] Instance is_u32_dec z : Decision (is_u32 z).
Proof. unfold is_u32. apply _. Defined.
#[export] Instance is_u64_dec z : Decision (is_u64 z).
Proof. unfold is_u64. apply _. Defined.

(** [len(l)]. *)
Abbreviation len l := (Z.of_nat (length l)).

Create HintDb mach discriminated.

Lemma u32_range z : is_u32 (u32 z).
Proof. apply Z.mod_pos_bound. lia. Qed.
Lemma u64_range z : is_u64 (u64 z).
Proof. apply Z.mod_pos_bound. lia. Qed.
Lemma i64_range z : is_i64 (i64 z).
Proof. unfold is_i64, i64. pose proof (Z.mod_pos_bound (z + 2^63) (2^64)). lia. Qed.
Lemma u32_id z : is_u32 z → u32 z = z.
Proof. intros. by apply Z.mod_small. Qed.
Lemma u64_id z : is_u64 z → u64 z = z.
Proof. intros. by apply Z.mod_small. Qed.
Lemma i64_id z : is_i64 z → i64 z = z.
Proof. unfold is_i64, i64. intros. rewrite Z.mod_small; lia. Qed.

#[export] Hint Resolve u32_range u64_range i64_range : mach.

(** The overflow test [a+b < a] on [uint64]. *)
Lemma u64_add_overflow a b :
  is_u64 a → is_u64 b → (u64 (a + b) <? a) = (2 ^ 64 <=? a + b).
Proof.
  unfold is_u64, u64. intros.
  destruct (Z.leb_spec (2 ^ 64) (a + b)) as [Hle|Hlt].
  - replace ((a + b) mod 2 ^ 64) with (a + b - 2 ^ 64); [lia|].
    apply Z.mod_unique with 1; lia.
  - rewrite Z.mod_small; lia.
Qed.

(** *** Checked sums *)

Definition sumZ {A} (val : A → Z) (l : list A) : Z := foldr (λ x acc, val x + acc) 0 l.

Lemma sumZ_nonneg {A} (val : A → Z) l : Forall (λ x, 0 ≤ val x) l → 0 ≤ sumZ val l.
Proof. induction 1; simpl; lia. Qed.

Lemma sumZ_app {A} (val : A → Z) l1 l2 : sumZ val (l1 ++ l2) = sumZ val l1 + sumZ val l2.
Proof. induction l1; simpl; lia. Qed.

Lemma sumZ_perm {A} (f : A → Z) l l' : l ≡ₚ l' → sumZ f l = sumZ f l'.
Proof. unfold sumZ. induction 1; cbn; lia. Qed.

Lemma sumZ_fmap {A B} (f : B → Z) (g : A → B) l : sumZ f (g <$> l) = sumZ (λ x, f (g x)) l.
Proof. unfold sumZ. induction l as [|x l IH]; cbn; [done|]. by rewrite IH. Qed.

(** A loop that accumulates 64-bit values and returns when the sum wraps
    around computes the exact sum, if it is in range. *)
Lemma foldM_checked_sum {A} (val : A → Z) (ok : A → Prop) (step : Z → A → res Z) l t0 t :
  (∀ t x r, is_u64 t → is_u64 (val x) →
     step t x = Ok r ↔ r = t + val x ∧ r < 2 ^ 64 ∧ ok x) →
  Forall (λ x, is_u64 (val x)) l → is_u64 t0 →
  foldM step t0 l = Ok t ↔ t = t0 + sumZ val l ∧ t < 2 ^ 64 ∧ Forall ok l.
Proof.
  intros Hstep Hl. revert t0. induction Hl as [|x l Hx Hl IH]; intros t0 Ht0; cbn [foldM sumZ foldr].
  { unfold is_u64 in Ht0. split; [intros [= <-]; split_and!; [lia|lia|constructor]|].
    intros (-> & _). f_equal. lia. }
  assert (Hnn : 0 ≤ sumZ val l).
  { apply sumZ_nonneg. eapply Forall_impl; [done|]. by intros ? []. }
  unfold is_u64 in *. fold (sumZ val l). rewrite bind_Ok. split.
  - intros (t1 & (-> & Hlt & Hok)%Hstep & Hf); [|done..].
    apply IH in Hf as (-> & Hlt' & Hall); [|lia]. split_and!; [lia|done|by constructor].
  - intros (-> & Hlt & [Hok Hall]%Forall_cons). exists (t0 + val x).
    split; [apply Hstep; [done..|]; split_and!; [done|lia|done]|].
    apply IH; [lia|]. split_and!; [lia|done|done].
Qed.

(** ** Bytes and byte strings *)

Definition byte_to_Z (b : byte) : Z := Z.of_N (Byte.to_N b).
Definition Z_to_byte (z : Z) : byte := default x00 (Byte.of_N (Z.to_N (u8 z))).

Lemma byte_to_Z_range b : 0 ≤ byte_to_Z b < 256.
Proof. unfold byte_to_Z. pose proof (Byte.to_N_bounded b). lia. Qed.

Lemma byte_to_Z_to_byte z : byte_to_Z (Z_to_byte z) = u8 z.
Proof.
  unfold byte_to_Z, Z_to_byte.
  assert (0 ≤ u8 z < 256) by (apply Z.mod_pos_bound; lia).
  destruct (Byte.of_N (Z.to_N (u8 z))) as [b|] eqn:E; simpl.
  - apply Byte.to_of_N in E. lia.
  - apply Byte.of_N_None_iff in E. lia.
Qed.

Lemma Z_to_byte_to_Z b : Z_to_byte (byte_to_Z b) = b.
Proof.
  unfold byte_to_Z, Z_to_byte, u8. pose proof (Byte.to_N_bounded b).
  rewrite Z.mod_small by lia. by rewrite N2Z.id, Byte.of_to_N.
Qed.

#[export] Instance byte_to_Z_inj : Inj (=) (=) byte_to_Z.
Proof.
  intros a b H. rewrite <-(Z_to_byte_to_Z a), <-(Z_to_byte_to_Z b).
  by rewrite H.
Qed.

#[export] Instance byte_eq_dec : EqDecision byte := Byte.byte_eq_dec.
#[export] Instance byte_countable : Countable byte.
Proof.
  refine (inj_countable Byte.to_N Byte.of_N _). apply Byte.of_to_N.
Defined.

(** [binary.LittleEndian.PutUintN]: the [n] low bytes, least significant first. *)
Fixpoint le_encode (n : nat) (z : Z) : list byte :=
  match n with
  | O => []
  | S n' => Z_to_byte z :: le_encode n' (z / 256)
  end.

(** [binary.LittleEndian.UintN] of a whole slice. *)
Fixpoint le_decode (bs : list byte) : Z :=
  match bs with
  | [] => 0
  | b :: bs' => byte_to_Z b + 256 * le_decode bs'
  end.

Definition be_encode (n : nat) (z : Z) : list byte := reverse (le_encode n z).
Definition be_decode (bs : list byte) : Z := le_decode (reverse bs).

Lemma le_encode_length n z : length (le_encode n z) = n.
Proof. revert z. induction n; intros; simpl; auto. Qed.

Lemma pow256_succ n : 256 ^ Z.of_nat (S n) = 256 * 256 ^ Z.of_nat n.
Proof. rewrite Nat2Z.inj_succ, Z.pow_succ_r; lia. Qed.

Lemma le_decode_range bs : 0 ≤ le_decode bs < 256 ^ len bs.
Proof.
  induction bs as [|b bs IH]; cbn [le_decode length]; [lia|].
  rewrite pow256_succ. pose proof (byte_to_Z_range b). lia.
Qed.

Lemma le_decode_encode n z : le_decode (le_encode n z) = z mod 256 ^ Z.of_nat n.
Proof.
  revert z. induction n as [|n IH]; intros z; cbn [le_encode le_decode].
  - by rewrite Z.mod_1_r.
  - rewrite byte_to_Z_to_byte, IH, pow256_succ. unfold u8. change (2 ^ 8) with 256.
    rewrite Z.rem_mul_r; lia.
Qed.

Lemma le_decode_encode_id n z :
  0 ≤ z < 256 ^ Z.of_nat n → le_decode (le_encode n z) = z.
Proof. intros. rewrite le_decode_encode. by apply Z.mod_small. Qed.

Lemma le_encode_decode bs : le_encode (length bs) (le_decode bs) = bs.
Proof.
  induction bs as [|b bs IH]; cbn [le_encode le_decode length]; [done|].
  pose proof (byte_to_Z_range b). f_equal.
  - apply byte_to_Z_inj. rewrite byte_to_Z_to_byte. unfold u8.
    change (2 ^ 8) with 256. rewrite Z.mul_comm, Z_mod_plus_full.
    by apply Z.mod_small.
  - rewrite Z.mul_comm, Z.div_add, Z.div_small by lia. by rewrite Z.add_0_l.
Qed.

Lemma le_encode_decode' n bs : length bs = n → le_encode n (le_decode bs) = bs.
Proof. intros <-. apply le_encode_decode. Qed.

Lemma le_decode_inj bs1 bs2 :
  length bs1 = length bs2 → le_decode bs1 = le_decode bs2 → bs1 = bs2.
Proof.
  intros Hlen H. rewrite <-(le_encode_decode bs1), <-(le_encode_decode bs2).
  by rewrite Hlen, H.
Qed.

Lemma le_decode_app bs1 bs2 :
  le_decode (bs1 ++ bs2) = le_decode bs1 + 256 ^ len bs1 * le_decode bs2.
Proof.
  induction bs1 as [|b bs1 IH]; cbn [le_decode length app]; [lia|].
  rewrite pow256_succ, IH. lia.
Qed.

Lemma le_decode_singleton b : le_decode [b] = byte_to_Z b.
Proof. simpl. lia. Qed.

Lemma le_decode_zeros n : le_decode (replicate n x00) = 0.
Proof. induction n as [|n IH]; cbn [replicate le_decode]; [done|]. by rewrite IH. Qed.

Lemma be_encode_length n z : length (be_encode n z) = n.
Proof. unfold be_encode. by rewrite length_reverse, le_encode_length. Qed.

Lemma be_decode_encode n z : be_decode (be_encode n z) = z mod 256 ^ Z.of_nat n.
Proof. unfold be_decode, be_encode. by rewrite reverse_involutive, le_decode_encode. Qed.

Lemma be_decode_zeros n bs : be_decode (replicate n x00 ++ bs) = be_decode bs.
Proof. unfold be_decode. rewrite reverse_app, reverse_replicate, le_decode_app, le_decode_zeros. lia. Qed.

#[export] Hint Rewrite le_encode_length be_encode_length @length_app @length_take
  @length_drop @length_replicate : lens.

(** Lengths of concatenated encodings. *)
Ltac len_simpl := autorewrite with lens; simpl.

(** ** Readers: [io.Reader] over a byte string *)

Definition reader (A : Type) : Type := list byte → res (A * list byte).

#[export] Instance reader_ret : MRet reader := λ A a bs, Ok (a, bs).
#[export] Instance reader_bind : MBind reader := λ A B f r bs,
  match r bs with
  | Ok (a, bs') => f a bs'
  | Err e => Err e
  | Panic => Panic
  end.

Definition io_EOF : error := Sentinel "EOF".
Definition io_ErrUnexpectedEOF : error := Sentinel "unexpected EOF".

(** [io.ReadFull(r, buf)] with [len(buf) = n]. *)
Definition ReadFull (n : nat) : reader (list byte) := λ bs,
  if decide (n ≤ length bs)%nat then Ok (take n bs, drop n bs)
  else if decide (bs = []) then Err io_EOF
  else Err io_ErrUnexpectedEOF.

(** Leave the reader's monad with an error. *)
Definition read_fail {A} (e : error) : reader A := λ _, Err e.
Definition read_wrap {A} (msg : string) (r : reader A) : reader A :=
  λ bs, wrap msg (r bs).

(** [for i := 0; i < n; i++ { xs[i].Deserialize(r) }]. *)
Fixpoint read_n {A} (r : reader A) (n : nat) : reader (list A) :=
  match n with
  | O => mret []
  | S n' => x ← r; xs ← read_n r n'; mret (x :: xs)
  end.

(** A reader decodes the encoding [enc] when it returns the value and leaves
    the bytes that follow. *)
Definition decodes {A} (r : reader A) (enc : list byte) (a : A) : Prop :=
  ∀ rest, r (enc ++ rest) = Ok (a, rest).

(** A reader is canonical for [enc] on the values [P] when everything it
    accepts is the encoding of the value it returns. *)
Definition canonical {A} (r : reader A) (enc : A → list byte) (P : A → Prop) : Prop :=
  ∀ bs a rest, r bs = Ok (a, rest) → bs = enc a ++ rest ∧ P a.

Section reader_lemmas.
Context {A B : Type}.

Lemma reader_bind_Ok (r : reader A) (f : A → reader B) bs b rest :
  (r ≫= f) bs = Ok (b, rest) ↔
  ∃ a mid, r bs = Ok (a, mid) ∧ f a mid = Ok (b, rest).
Proof.
  unfold mbind, reader_bind. destruct (r bs) as [[a mid]| |]; naive_solver.
Qed.

Lemma read_wrap_Ok msg (r : reader A) bs x :
  read_wrap msg r bs = Ok x ↔ r bs = Ok x.
Proof. apply wrap_Ok. Qed.

Lemma ReadFull_app bs rest : ReadFull (length bs) (bs ++ rest) = Ok (bs, rest).
Proof.
  unfold ReadFull. rewrite length_app, decide_True by lia.
  by rewrite take_app_length, drop_app_length.
Qed.

Lemma ReadFull_Ok n bs x rest :
  ReadFull n bs = Ok (x, rest) ↔ bs = x ++ rest ∧ length x = n.
Proof.
  split.
  - unfold ReadFull. repeat case_decide; intros [= <- <-].
    rewrite take_drop, length_take. split; [done|lia].
  - intros [-> <-]. apply ReadFull_app.
Qed.

Lemma decodes_bind (r : reader A) (f : A → reader B) enc1 enc2 a b :
  decodes r enc1 a → decodes (f a) enc2 b → decodes (r ≫= f) (enc1 ++ enc2) b.
Proof.
  intros H1 H2 rest. rewrite <-app_assoc. unfold mbind, reader_bind.
  by rewrite H1, H2.
Qed.

(** The last read of a decoder. *)
Lemma decodes_bind_last (r : reader A) (f : A → reader B) enc a b :
  decodes r enc a → decodes (f a) [] b → decodes (r ≫= f) enc b.
Proof. intros H1 H2. rewrite <-(app_nil_r enc). by eapply decodes_bind. Qed.

Lemma decodes_ret (a : A) : decodes (mret a) [] a.
Proof. by intros rest. Qed.

Lemma decodes_wrap msg (r : reader A) enc a :
  decodes r enc a → decodes (read_wrap msg r) enc a.
Proof. intros H rest. unfold read_wrap. by rewrite H. Qed.

Lemma decodes_ReadFull n bs : length bs = n → decodes (ReadFull n) bs bs.
Proof. intros <- rest. apply ReadFull_app. Qed.

End reader_lemmas.

Section read_n_lemmas.
Context {A : Type}.

Lemma decodes_read_n (r : reader A) (enc : A → list byte) (P : A → Prop) l :
  (∀ a, P a → decodes r (enc a) a) → Forall P l →
  decodes (read_n r (length l)) (mjoin (enc <$> l)) l.
Proof.
  intros Hr Hl. induction Hl as [|a l Ha Hl IH]; [by intros rest|].
  intros rest. cbn [fmap list_fmap mjoin list_join length read_n].
  rewrite <-app_assoc. unfold mbind, reader_bind. rewrite Hr by done.
  fold (mjoin (enc <$> l)). by rewrite IH.
Qed.

Lemma canonical_read_n (r : reader A) (enc : A → list byte) (P : A → Prop) n :
  canonical r enc P →
  canonical (read_n r n) (λ l, mjoin (enc <$> l)) (λ l, length l = n ∧ Forall P l).
Proof.
  intros Hr. induction n as [|n IH]; intros bs l rest H.
  - injection H as <- <-. by repeat split.
  - cbn [read_n] in H. apply reader_bind_Ok in H as (a & mid & Ha & H).
    apply reader_bind_Ok in H as (l' & mid' & Hl & H). injection H as <- <-.
    apply Hr in Ha as [-> Ha]. apply IH in Hl as [-> [<- Hl]].
    simpl. rewrite <-app_assoc. repeat split; by constructor.
Qed.
End read_n_lemmas.

(** Invert a successful run of a reader step by step. *)
Ltac reader_inv :=
  repeat match goal with
  | H : (_ ≫= _) _ = Ok (_, _) |- _ =>
      apply reader_bind_Ok in H;
      let x := fresh "x" in let mid := fresh "mid" in
      destruct H as (x & mid & ? & H)
  | H : read_wrap _ _ _ = Ok _ |- _ => apply read_wrap_Ok in H
  | H : read_fail _ _ = Ok _ |- _ => discriminate H
  | H : (if _ <? _ then read_fail _ else _) _ = Ok _ |- _ =>
      let E := fresh "Hle" in
      destruct (_ <? _) eqn:E in H; [discriminate H|apply Z.ltb_ge in E]
  | H : ReadFull _ _ = Ok (_, _) |- _ => apply ReadFull_Ok in H as [-> ?]
  | H : mret _ _ = Ok (_, _) |- _ => injection H as ? ?; try subst
  end.

(** Prove that a reader decodes a concatenation of encodings. *)
Ltac decode_step :=
  match goal with
  | |- decodes (_ ≫= _) _ _ => eapply decodes_bind
  | |- decodes (read_wrap _ _) _ _ => apply decodes_wrap
  | |- decodes (ReadFull _) _ _ => apply decodes_ReadFull
  | |- decodes (mret _) _ _ => apply decodes_ret
  end.

(** Prove a closed decidable proposition by evaluating its decision. *)
Ltac by_decide :=
  match goal with |- ?P => apply (bool_decide_unpack P); vm_compute; exact I end.

(** ** Slices: [l[i:j]] with constant bounds inside the slice *)

Definition slice {A} (i j : nat) (l : list A) : list A := take (j - i) (drop i l).

Section slice_lemmas.
Context {A : Type}.
Implicit Types l a : list A.

Lemma slice_app_skip i j n a l :
  length a = n → (n ≤ i)%nat → slice i j (a ++ l) = slice (i - n) (j - n) l.
Proof.
  intros <- Hi. unfold slice. rewrite drop_app_ge by done. f_equal. lia.
Qed.

Lemma slice_app_take j a l : length a = j → slice 0 j (a ++ l) = a.
Proof. intros <-. unfold slice. rewrite Nat.sub_0_r. apply take_app_length. Qed.

Lemma slice_all j l : length l = j → slice 0 j l = l.
Proof. intros <-. unfold slice. rewrite Nat.sub_0_r. apply firstn_all. Qed.

Lemma slice_split i j k l :
  (i ≤ j ≤ k)%nat → slice i k l = slice i j l ++ slice j k l.
Proof.
  intros. unfold slice.
  replace (k - i)%nat with ((j - i) + (k - j))%nat by lia.
  rewrite <-take_take_drop, drop_drop. repeat f_equal. lia.
Qed.

Lemma slice_length i j l :
  (i ≤ j ≤ length l)%nat → length (slice i j l) = (j - i)%nat.
Proof. intros. unfold slice. rewrite length_take, length_drop. lia. Qed.

Lemma slice_le i j l : (length (slice i j l) ≤ j - i)%nat.
Proof. unfold slice. rewrite length_take. lia. Qed.
End slice_lemmas.

Global Opaque le_encode le_decode.
Arguments slice : simpl never.

(** ** Finite maps *)

Lemma foldl_delete_lookup {K V} `{Countable K} (pl : gmap K V) hs h :
  foldl (λ pl h, delete h pl) pl hs !! h = if decide (h ∈ hs) then None else pl !! h.
Proof.
  revert pl. induction hs as [|x hs IH]; intros pl; cbn [foldl].
  { rewrite decide_False; [done|apply not_elem_of_nil]. }
  rewrite IH. destruct (decide (h ∈ hs)) as [Hh|Hh]; [rewrite decide_True; [done|by right]|].
  destruct (decide (x = h)) as [->|Hne].
  - rewrite lookup_delete_eq, decide_True; [done|left].
  - rewrite lookup_delete_ne, decide_False; [done| |done]. rewrite elem_of_cons. naive_solver.
Qed.

(** The order of a Go [range] over a map is a permutation of its entries. *)
Lemma dom_range {K V} `{Countable K} (m : gmap K V) it :
  it ≡ₚ map_to_list m → dom m = list_to_set it.*1.
Proof. intros Hit. apply leibniz_equiv. by rewrite dom_alt, Hit. Qed.

Lemma range_delete_all {K V} `{Countable K} (m : gmap K V) it :
  it ≡ₚ map_to_list m → foldl (λ m h, delete h m) m it.*1 = ∅.
Proof.
  intros Hit. apply map_eq. intros h. rewrite foldl_delete_lookup, lookup_empty.
  destruct (decide (h ∈ it.*1)) as [|Hh]; [done|]. apply not_elem_of_dom.
  rewrite (dom_range m it) by done. by rewrite elem_of_list_to_set.
Qed.

(** ** Stateful calls

    A method that changes its receiver: the state it leaves is returned beside
    the outcome, also when the outcome is an error. *)
Definition proc (S A : Type) : Type := S → res A * S.

#[export] Instance proc_ret S : MRet (proc S) := λ A a s, (Ok a, s).
#[export] Instance proc_bind S : MBind (proc S) := λ A B f m s,
  match m s with
  | (Ok a, s') => f a s'
  | (Err e, s') => (Err e, s')
  | (Panic, s') => (Panic, s')
  end.

(** A call that does not touch the state, a read of it, an assignment. *)
Definition pure {S A} (r : res A) : proc S A := λ s, (r, s).
Definition gets {S A} (f : S → A) : proc S A := λ s, (Ok (f s), s).
Definition asks {S A} (f : S → res A) : proc S A := λ s, (f s, s).
Definition modify {S} (f : S → S) : proc S () := λ s, (Ok (), f s).

(** [return err] and [panic]. *)
Definition throw {S A} (e : error) : proc S A := λ s, (Err e, s).

(** [if err != nil { return fmt.Errorf("msg: %w", err) }]. *)
Definition pwrap {S A} (msg : string) (m : proc S A) : proc S A :=
  λ s, let '(r, s') := m s in (wrap msg r, s').

(** [if err := m(); err != nil { h(err) }]. *)
Definition catch {S A} (m : proc S A) (h : error → proc S A) : proc S A := λ s,
  match m s with
  | (Err e, s') => h e s'
  | rs => rs
  end.

(** [_ = m()]. *)
Definition ignore_err {S} (m : proc S ()) : proc S () := catch m (λ _, mret ()).

(** A call of a method of a component of the state. *)
Definition on {S T A} (get : S → T) (set : T → S → S) (m : proc T A) : proc S A :=
  λ s, let '(r, t) := m (get s) in (r, set t s).

Fixpoint foldP {S X A} (f : X → A → proc S X) (x : X) (l : list A) : proc S X :=
  match l with
  | [] => mret x
  | a :: l' => x' ← f x a; foldP f x' l'
  end.

(** One step of a method, on the state it runs in. *)
Lemma proc_bind_eq {S A B} (m : proc S A) (f : A → proc S B) s :
  (m ≫= f) s = match m s with
               | (Ok a, s') => f a s'
               | (Err e, s') => (Err e, s')
               | (Panic, s') => (Panic, s')
               end.
Proof. done. Qed.
Ltac proc_step := rewrite proc_bind_eq; cbn [pure gets asks modify throw fail_if wrap pwrap].

(** [steps R m]: every run of [m] relates the states before and after it by [R];
    for a preorder [R] this follows from the parts of [m]. *)
Definition steps {S A} (R : S → S → Prop) (m : proc S A) : Prop := ∀ s, R s (m s).2.

Create HintDb steps discriminated.

Section steps_lemmas.
Context {S : Type} (R : S → S → Prop) `{!PreOrder R}.

Lemma steps_ret {A} (a : A) : steps R (mret a).
Proof. intros s. simpl. reflexivity. Qed.

Lemma steps_pure {A} (r : res A) : steps R (pure r).
Proof. intros s. simpl. reflexivity. Qed.

Lemma steps_gets {A} (f : S → A) : steps R (gets f).
Proof. intros s. simpl. reflexivity. Qed.

Lemma steps_asks {A} (f : S → res A) : steps R (asks f).
Proof. intros s. simpl. reflexivity. Qed.

Lemma steps_throw {A} e : steps R (@throw S A e).
Proof. intros s. simpl. reflexivity. Qed.

Lemma steps_bind {A B} (m : proc S A) (f : A → proc S B) :
  steps R m → (∀ a, steps R (f a)) → steps R (m ≫= f).
Proof.
  intros Hm Hf s. specialize (Hm s). unfold mbind, proc_bind. destruct (m s) as [[a|e|] s'];
    simpl in *; [|done..]. etrans; [done|apply Hf].
Qed.

Lemma steps_pwrap {A} msg (m : proc S A) : steps R m → steps R (pwrap msg m).
Proof. intros Hm s. specialize (Hm s). unfold pwrap. by destruct (m s). Qed.

Lemma steps_catch {A} (m : proc S A) h : steps R m → (∀ e, steps R (h e)) → steps R (catch m h).
Proof.
  intros Hm Hh s. specialize (Hm s). unfold catch. destruct (m s) as [[a|e|] s']; simpl in *; [done| |done].
  etrans; [done|apply Hh].
Qed.

Lemma steps_ignore (m : proc S ()) : steps R m → steps R (ignore_err m).
Proof. intros Hm. apply steps_catch; [done|]. intros e. apply steps_ret. Qed.

Lemma steps_foldP {X A} (f : X → A → proc S X) l :
  (∀ x a, steps R (f x a)) → ∀ x, steps R (foldP f x l).
Proof.
  intros Hf. induction l as [|a l IH]; intros x; simpl; [apply steps_ret|].
  apply steps_bind; [done|]. intros x'. apply IH.
Qed.
End steps_lemmas.

#[export] Hint Resolve steps_ret steps_pure steps_gets steps_asks steps_throw : steps.

(** Walks through the body of a method, leaving its assignments and calls. *)
Ltac steps_walk :=
  repeat first
    [ progress eauto 3 with steps typeclass_instances
    | apply steps_bind; [apply _| |intros ?]
    | apply steps_pwrap
    | apply steps_ignore; [apply _|]
    | apply steps_catch; [apply _| |intros ?]
    | apply steps_foldP; [apply _|intros ? ?]
    | match goal with
      | |- steps _ (match ?x with _ => _ end) => destruct x eqn:?
      | |- steps _ (let '_ := ?x in _) => destruct x eqn:?
      end ].
