(* ===== verification/Types.v ===== *)
(** * internal/types: hashes, headers, transactions, blocks and their encoding

    Models hash.go, block.go and transaction.go.  A [Hash] is the list of its
    bytes (32 of them in a well-formed value), integers of the Go structs are
    in [Z] with their range stated by the well-formedness predicates.  Writers
    are the bytes they write ([sliceWriter] never fails); readers are the
    [reader] monad of the prelude. *)
From S2P Require Import Prelude.

(** ** Hash (hash.go) *)

Definition HashSize : nat := 32.
Abbreviation Hash := (list byte).
Definition ZeroHash : Hash := replicate HashSize x00.
Definition wf_hash (h : Hash) : Prop := length h = HashSize.

(** [HashFromBytes] panics on a slice of the wrong length. *)
Definition HashFromBytes (b : list byte) : res Hash :=
  if decide (length b = HashSize) then Ok b else Panic.

(** [encoding/hex]: lower-case digits when encoding, either case when decoding.
    Go strings are byte strings. *)
Definition hex_digit (n : Z) : byte :=
  if n <? 10 then Z_to_byte (48 + n) else Z_to_byte (87 + n).

Definition hex_value (c : byte) : option Z :=
  let z := byte_to_Z c in
  if (48 <=? z) && (z <=? 57) then Some (z - 48)
  else if (97 <=? z) && (z <=? 102) then Some (z - 87)
  else if (65 <=? z) && (z <=? 70) then Some (z - 55)
  else None.

Fixpoint hex_EncodeToString (bs : list byte) : list byte :=
  match bs with
  | [] => []
  | b :: bs' =>
      hex_digit (byte_to_Z b / 16) :: hex_digit (byte_to_Z b mod 16)
        :: hex_EncodeToString bs'
  end.

Fixpoint hex_DecodeString (s : list byte) : res (list byte) :=
  match s with
  | [] => Ok []
  | [c] => match hex_value c with
           | None => Err (Errorf "encoding/hex: invalid byte")
           | Some _ => Err (Errorf "encoding/hex: odd length hex string")
           end
  | c1 :: c2 :: s' =>
      match hex_value c1, hex_value c2 with
      | Some a, Some b =>
          bs ← hex_DecodeString s'; mret (Z_to_byte (16 * a + b) :: bs)
      | _, _ => Err (Errorf "encoding/hex: invalid byte")
      end
  end.

Definition HashFromHex (s : list byte) : res Hash :=
  b ← wrap "types: invalid hex hash" (hex_DecodeString s);
  _ ← fail_if (negb (bool_decide (length b = HashSize)))
              (Errorf "types: hex hash must be 32 bytes");
  HashFromBytes b.

Definition HashFromReverseHex (s : list byte) : res Hash :=
  b ← wrap "types: invalid hex hash" (hex_DecodeString s);
  _ ← fail_if (negb (bool_decide (length b = HashSize)))
              (Errorf "types: hex hash must be 32 bytes");
  HashFromBytes (reverse b).

Definition Hash_String (h : Hash) : list byte := hex_EncodeToString h.
Definition Hash_ReverseString (h : Hash) : list byte := hex_EncodeToString (reverse h).

Definition Hash_IsZero (h : Hash) : bool := bool_decide (h = ZeroHash).

(** [h[i]]; the index is a loop counter below [HashSize]. *)
Definition byte_at (h : list byte) (i : nat) : Z := byte_to_Z (nth i h x00).

(** The loop of [Less], from index [i-1] down to 0. *)
Fixpoint Hash_Less_loop (h other : Hash) (i : nat) : bool :=
  match i with
  | O => false
  | S i' =>
      if byte_at h i' <? byte_at other i' then true
      else if byte_at other i' <? byte_at h i' then false
      else Hash_Less_loop h other i'
  end.

Definition Hash_Less (h other : Hash) : bool := Hash_Less_loop h other HashSize.
Definition Hash_LessOrEqual (h other : Hash) : bool :=
  bool_decide (h = other) || Hash_Less h other.

(** ** Block header (block.go) *)

Definition BlockHeaderSize : nat := 80.

Record BlockHeader : Type := mkBlockHeader {
  hdr_Version : Z;
  hdr_PrevBlock : Hash;
  hdr_MerkleRoot : Hash;
  hdr_Timestamp : Z;
  hdr_Bits : Z;
  hdr_Nonce : Z
}.

#[export] Instance BlockHeader_eq_dec : EqDecision BlockHeader.
Proof. solve_decision. Defined.

Record wf_header (h : BlockHeader) : Prop := {
  wf_hdr_version : is_u32 (hdr_Version h);
  wf_hdr_prev : wf_hash (hdr_PrevBlock h);
  wf_hdr_merkle : wf_hash (hdr_MerkleRoot h);
  wf_hdr_time : is_u32 (hdr_Timestamp h);
  wf_hdr_bits : is_u32 (hdr_Bits h);
  wf_hdr_nonce : is_u32 (hdr_Nonce h)
}.

(** The 80 bytes written by [serializeInto]. *)
Definition BlockHeader_serializeInto (h : BlockHeader) : list byte :=
  le_encode 4 (hdr_Version h) ++ hdr_PrevBlock h ++ hdr_MerkleRoot h ++
  le_encode 4 (hdr_Timestamp h) ++ le_encode 4 (hdr_Bits h) ++
  le_encode 4 (hdr_Nonce h).

Definition BlockHeader_SerializeToBytes (h : BlockHeader) : list byte :=
  BlockHeader_serializeInto h.

(** [SerializeInto] overwrites the first 80 bytes of the buffer and panics when
    the buffer is shorter. *)
Definition BlockHeader_SerializeInto (h : BlockHeader) (buf : list byte)
    : res (list byte) :=
  if decide (length buf < BlockHeaderSize)%nat then Panic
  else Ok (BlockHeader_serializeInto h ++ drop BlockHeaderSize buf).

Definition BlockHeader_of_bytes (buf : list byte) : BlockHeader :=
  {| hdr_Version := le_decode (slice 0 4 buf);
     hdr_PrevBlock := slice 4 36 buf;
     hdr_MerkleRoot := slice 36 68 buf;
     hdr_Timestamp := le_decode (slice 68 72 buf);
     hdr_Bits := le_decode (slice 72 76 buf);
     hdr_Nonce := le_decode (slice 76 80 buf) |}.

Definition BlockHeader_Deserialize : reader BlockHeader :=
  buf ← read_wrap "read block header" (ReadFull BlockHeaderSize);
  mret (BlockHeader_of_bytes buf).

(** ** Transactions (transaction.go) *)

Record OutPoint : Type := mkOutPoint { op_Hash : Hash; op_Index : Z }.

#[export] Instance OutPoint_eq_dec : EqDecision OutPoint.
Proof. solve_decision. Defined.

Definition CoinbaseOutPoint : OutPoint := mkOutPoint ZeroHash 0xFFFFFFFF.

Record TxInput : Type := mkTxInput {
  in_PreviousOutPoint : OutPoint;
  in_SignatureScript : list byte;
  in_Sequence : Z
}.

Record TxOutput : Type := mkTxOutput {
  out_Value : Z;
  out_PkScript : list byte
}.

Record Transaction : Type := mkTransaction {
  tx_Version : Z;
  tx_Inputs : list TxInput;
  tx_Outputs : list TxOutput;
  tx_LockTime : Z
}.

#[export] Instance TxInput_eq_dec : EqDecision TxInput.
Proof. solve_decision. Defined.
#[export] Instance TxOutput_eq_dec : EqDecision TxOutput.
Proof. solve_decision. Defined.
#[export] Instance Transaction_eq_dec : EqDecision Transaction.
Proof. solve_decision. Defined.

Definition TxInput_IsCoinbase (i : TxInput) : bool :=
  Hash_IsZero (op_Hash (in_PreviousOutPoint i)) &&
  (op_Index (in_PreviousOutPoint i) =? 0xFFFFFFFF).

Definition Transaction_IsCoinbase (tx : Transaction) : bool :=
  match tx_Inputs tx with
  | [i] => TxInput_IsCoinbase i
  | _ => false
  end.

Definition MaxTxInputs : Z := 10000.
Definition MaxTxOutputs : Z := 10000.
Definition MaxScriptSize : Z := 10000.
Definition MaxBlockTxCount : Z := 50000.

(** *** Variable-length integers *)

(** The bytes [PutVarInt] writes; it returns their number. *)
Definition PutVarInt (val : Z) : list byte :=
  if val <? 0xFD then [Z_to_byte val]
  else if val <=? 0xFFFF then xfd :: le_encode 2 val
  else if val <=? 0xFFFFFFFF then xfe :: le_encode 4 val
  else xff :: le_encode 8 val.

Definition WriteVarInt (val : Z) : list byte := PutVarInt val.

Definition VarIntSize (val : Z) : Z :=
  if val <? 0xFD then 1
  else if val <=? 0xFFFF then 3
  else if val <=? 0xFFFFFFFF then 5
  else 9.

(** [ReadVarInt] rejects non-minimal encodings. *)
Definition ReadVarInt : reader Z :=
  d ← ReadFull 1;
  let disc := byte_at d 0 in
  if disc =? 0xFD then
    buf ← ReadFull 2;
    if le_decode buf <? 0xFD then read_fail (Errorf "non-canonical varint: 0xFD")
    else mret (le_decode buf)
  else if disc =? 0xFE then
    buf ← ReadFull 4;
    if le_decode buf <=? 0xFFFF then read_fail (Errorf "non-canonical varint: 0xFE")
    else mret (le_decode buf)
  else if disc =? 0xFF then
    buf ← ReadFull 8;
    if le_decode buf <=? 0xFFFFFFFF then read_fail (Errorf "non-canonical varint: 0xFF")
    else mret (le_decode buf)
  else mret disc.

Definition ReadVarIntFromBytes (data : list byte) : res Z :=
  match data with
  | [] => Err (Errorf "empty data for varint")
  | d :: _ =>
      let disc := byte_to_Z d in
      if disc =? 0xFD then
        if len data <? 3 then Err (Errorf "varint 0xFD needs 3 bytes") else
        let val := le_decode (slice 1 3 data) in
        if val <? 0xFD then Err (Errorf "non-canonical varint: 0xFD") else Ok val
      else if disc =? 0xFE then
        if len data <? 5 then Err (Errorf "varint 0xFE needs 5 bytes") else
        let val := le_decode (slice 1 5 data) in
        if val <=? 0xFFFF then Err (Errorf "non-canonical varint: 0xFE") else Ok val
      else if disc =? 0xFF then
        if len data <? 9 then Err (Errorf "varint 0xFF needs 9 bytes") else
        let val := le_decode (slice 1 9 data) in
        if val <=? 0xFFFFFFFF then Err (Errorf "non-canonical varint: 0xFF") else Ok val
      else Ok disc
  end.

(** *** Sizes *)

Definition TxInput_SerializeSize (i : TxInput) : Z :=
  36 + VarIntSize (len (in_SignatureScript i)) + len (in_SignatureScript i) + 4.

Definition TxOutput_SerializeSize (o : TxOutput) : Z :=
  8 + VarIntSize (len (out_PkScript o)) + len (out_PkScript o).

Definition Transaction_SerializeSize (tx : Transaction) : Z :=
  let n := 4 + VarIntSize (len (tx_Inputs tx)) in
  let n := foldl (λ n i, n + TxInput_SerializeSize i) n (tx_Inputs tx) in
  let n := n + VarIntSize (len (tx_Outputs tx)) in
  let n := foldl (λ n o, n + TxOutput_SerializeSize o) n (tx_Outputs tx) in
  n + 4.

(** *** Serialization *)

Definition TxInput_Serialize (i : TxInput) : list byte :=
  op_Hash (in_PreviousOutPoint i) ++ le_encode 4 (op_Index (in_PreviousOutPoint i)) ++
  WriteVarInt (len (in_SignatureScript i)) ++ in_SignatureScript i ++
  le_encode 4 (in_Sequence i).

Definition TxOutput_Serialize (o : TxOutput) : list byte :=
  le_encode 8 (out_Value o) ++ WriteVarInt (len (out_PkScript o)) ++ out_PkScript o.

Definition Transaction_Serialize (tx : Transaction) : list byte :=
  le_encode 4 (tx_Version tx) ++
  WriteVarInt (len (tx_Inputs tx)) ++ mjoin (TxInput_Serialize <$> tx_Inputs tx) ++
  WriteVarInt (len (tx_Outputs tx)) ++ mjoin (TxOutput_Serialize <$> tx_Outputs tx) ++
  le_encode 4 (tx_LockTime tx).

Definition Transaction_SerializeToBytes (tx : Transaction) : list byte :=
  Transaction_Serialize tx.

(** *** Deserialization *)

Definition TxInput_Deserialize : reader TxInput :=
  h ← ReadFull HashSize;
  buf ← ReadFull 4;
  scriptLen ← ReadVarInt;
  if MaxScriptSize <? scriptLen then
    read_fail (Errorf "signature script size exceeds max")
  else
    s ← ReadFull (Z.to_nat scriptLen);
    buf2 ← ReadFull 4;
    mret (mkTxInput (mkOutPoint h (le_decode buf)) s (le_decode buf2)).

Definition TxOutput_Deserialize : reader TxOutput :=
  buf ← ReadFull 8;
  scriptLen ← ReadVarInt;
  if MaxScriptSize <? scriptLen then
    read_fail (Errorf "pk script size exceeds max")
  else
    s ← ReadFull (Z.to_nat scriptLen);
    mret (mkTxOutput (le_decode buf) s).

Definition Transaction_Deserialize : reader Transaction :=
  buf ← read_wrap "read tx version" (ReadFull 4);
  inCount ← read_wrap "read input count" ReadVarInt;
  if MaxTxInputs <? inCount then read_fail (Errorf "tx input count exceeds max")
  else
    ins ← read_wrap "read input" (read_n TxInput_Deserialize (Z.to_nat inCount));
    outCount ← read_wrap "read output count" ReadVarInt;
    if MaxTxOutputs <? outCount then read_fail (Errorf "tx output count exceeds max")
    else
      outs ← read_wrap "read output" (read_n TxOutput_Deserialize (Z.to_nat outCount));
      buf2 ← read_wrap "read locktime" (ReadFull 4);
      mret (mkTransaction (le_decode buf) ins outs (le_decode buf2)).

(** ** Blocks (block.go) *)

Record Block : Type := mkBlock {
  blk_Header : BlockHeader;
  blk_Transactions : list Transaction
}.

#[export] Instance Block_eq_dec : EqDecision Block.
Proof. solve_decision. Defined.

Definition Block_Serialize (b : Block) : list byte :=
  BlockHeader_SerializeToBytes (blk_Header b) ++
  WriteVarInt (len (blk_Transactions b)) ++
  mjoin (Transaction_Serialize <$> blk_Transactions b).

Definition Block_SerializeToBytes (b : Block) : list byte := Block_Serialize b.

Definition Block_Deserialize : reader Block :=
  h ← BlockHeader_Deserialize;
  txCount ← read_wrap "read tx count" ReadVarInt;
  if MaxBlockTxCount <? txCount then read_fail (Errorf "block tx count exceeds max")
  else
    txs ← read_wrap "deserialize tx" (read_n Transaction_Deserialize (Z.to_nat txCount));
    mret (mkBlock h txs).

(** ** Well-formed values: the ranges of the Go types and the limits of the
    deserializers *)

Definition wf_outpoint (o : OutPoint) : Prop := wf_hash (op_Hash o) ∧ is_u32 (op_Index o).

Definition wf_script (s : list byte) : Prop := len s ≤ MaxScriptSize.

Definition wf_input (i : TxInput) : Prop :=
  wf_outpoint (in_PreviousOutPoint i) ∧ wf_script (in_SignatureScript i) ∧
  is_u32 (in_Sequence i).

Definition wf_output (o : TxOutput) : Prop :=
  is_u64 (out_Value o) ∧ wf_script (out_PkScript o).

Definition wf_tx (tx : Transaction) : Prop :=
  is_u32 (tx_Version tx) ∧
  len (tx_Inputs tx) ≤ MaxTxInputs ∧ Forall wf_input (tx_Inputs tx) ∧
  len (tx_Outputs tx) ≤ MaxTxOutputs ∧ Forall wf_output (tx_Outputs tx) ∧
  is_u32 (tx_LockTime tx).

Definition wf_block (b : Block) : Prop :=
  wf_header (blk_Header b) ∧
  len (blk_Transactions b) ≤ MaxBlockTxCount ∧ Forall wf_tx (blk_Transactions b).

#[export] Instance wf_hash_dec h : Decision (wf_hash h).
Proof. unfold wf_hash. apply _. Defined.
#[export] Instance wf_input_dec i : Decision (wf_input i).
Proof. unfold wf_input, wf_outpoint, wf_script. apply _. Defined.
#[export] Instance wf_output_dec o : Decision (wf_output o).
Proof. unfold wf_output, wf_script. apply _. Defined.
#[export] Instance wf_tx_dec tx : Decision (wf_tx tx).
Proof. unfold wf_tx. apply _. Defined.
#[export] Instance wf_header_dec h : Decision (wf_header h).
Proof.
  refine (cast_if (decide (is_u32 (hdr_Version h) ∧ wf_hash (hdr_PrevBlock h) ∧
    wf_hash (hdr_MerkleRoot h) ∧ is_u32 (hdr_Timestamp h) ∧ is_u32 (hdr_Bits h) ∧
    is_u32 (hdr_Nonce h)))); abstract (first [by destruct_and!; split|intros []; naive_solver]).
Defined.
#[export] Instance wf_block_dec b : Decision (wf_block b).
Proof. unfold wf_block. apply _. Defined.

(** ** Helper lemmas *)

Lemma le4_range bs : length bs = 4%nat → is_u32 (le_decode bs).
Proof. intros H. pose proof (le_decode_range bs) as Hr. by rewrite H in Hr. Qed.

Lemma le8_range bs : length bs = 8%nat → is_u64 (le_decode bs).
Proof. intros H. pose proof (le_decode_range bs) as Hr. by rewrite H in Hr. Qed.

Lemma VarInt_range bs : length bs = 2%nat → 0 ≤ le_decode bs < 65536.
Proof. intros H. pose proof (le_decode_range bs) as Hr. by rewrite H in Hr. Qed.

Lemma le4_decode_encode z : is_u32 z → le_decode (le_encode 4 z) = z.
Proof. exact (le_decode_encode_id 4 z). Qed.

Lemma le8_decode_encode z : is_u64 z → le_decode (le_encode 8 z) = z.
Proof. exact (le_decode_encode_id 8 z). Qed.

Lemma byte_disc d : d ≠ xfd → d ≠ xfe → d ≠ xff → byte_to_Z d < 0xFD.
Proof.
  intros H1 H2 H3. pose proof (byte_to_Z_range d).
  destruct (decide (byte_to_Z d < 0xFD)) as [|Hd]; [done|exfalso].
  assert (byte_to_Z d = byte_to_Z xfd ∨ byte_to_Z d = byte_to_Z xfe ∨
          byte_to_Z d = byte_to_Z xff) as Hc.
  { change (byte_to_Z xfd) with 253. change (byte_to_Z xfe) with 254.
    change (byte_to_Z xff) with 255. lia. }
  by destruct Hc as [Hc|[Hc|Hc]]; apply byte_to_Z_inj in Hc.
Qed.

Lemma VarIntSize_pos v : 0 < VarIntSize v.
Proof. unfold VarIntSize. repeat case_match; lia. Qed.

Lemma VarIntSize_ok val : VarIntSize val = len (PutVarInt val).
Proof. unfold VarIntSize, PutVarInt. by repeat case_match. Qed.

Lemma disc_cons (b : byte) bs rest : (b :: bs) ++ rest = [b] ++ (bs ++ rest).
Proof. done. Qed.

Lemma ReadVarInt_decodes val : is_u64 val → decodes ReadVarInt (PutVarInt val) val.
Proof.
  unfold is_u64, PutVarInt, ReadVarInt. intros Hv rest.
  destruct (Z.ltb_spec val 0xFD) as [H1|H1];
    [|destruct (Z.leb_spec val 0xFFFF) as [H2|H2];
      [|destruct (Z.leb_spec val 0xFFFFFFFF) as [H3|H3]]].
  all: unfold mbind, reader_bind.
  - rewrite (decodes_ReadFull 1 [Z_to_byte val] eq_refl). unfold byte_at.
    cbn [nth]. rewrite byte_to_Z_to_byte. unfold u8. rewrite Z.mod_small by lia.
    by rewrite !(proj2 (Z.eqb_neq _ _)) by lia.
  - rewrite disc_cons, (decodes_ReadFull 1 [xfd] eq_refl).
    change (byte_at [xfd] 0) with 253. cbn [Z.eqb Pos.eqb].
    rewrite (decodes_ReadFull 2 _ (le_encode_length 2 val)).
    rewrite le_decode_encode_id by (simpl; lia).
    by rewrite (proj2 (Z.ltb_ge _ _)) by lia.
  - rewrite disc_cons, (decodes_ReadFull 1 [xfe] eq_refl).
    change (byte_at [xfe] 0) with 254. cbn [Z.eqb Pos.eqb].
    rewrite (decodes_ReadFull 4 _ (le_encode_length 4 val)).
    rewrite le_decode_encode_id by (simpl; lia).
    by rewrite (proj2 (Z.leb_gt _ _)) by lia.
  - rewrite disc_cons, (decodes_ReadFull 1 [xff] eq_refl).
    change (byte_at [xff] 0) with 255. cbn [Z.eqb Pos.eqb].
    rewrite (decodes_ReadFull 8 _ (le_encode_length 8 val)).
    rewrite le_decode_encode_id by (simpl; lia).
    by rewrite (proj2 (Z.leb_gt _ _)) by lia.
Qed.

Lemma PutVarInt_fd buf :
  length buf = 2%nat → 0xFD ≤ le_decode buf → PutVarInt (le_decode buf) = xfd :: buf.
Proof.
  intros Hl Hv. pose proof (VarInt_range _ Hl). unfold PutVarInt.
  rewrite (proj2 (Z.ltb_ge _ _)), (proj2 (Z.leb_le _ _)) by lia.
  by rewrite le_encode_decode'.
Qed.

Lemma PutVarInt_fe buf :
  length buf = 4%nat → 0xFFFF < le_decode buf → PutVarInt (le_decode buf) = xfe :: buf.
Proof.
  intros Hl Hv. pose proof (le4_range _ Hl) as Hr. unfold is_u32 in Hr. unfold PutVarInt.
  rewrite (proj2 (Z.ltb_ge _ _)), (proj2 (Z.leb_gt _ _)), (proj2 (Z.leb_le _ _)) by lia.
  by rewrite le_encode_decode'.
Qed.

Lemma PutVarInt_ff buf :
  length buf = 8%nat → 0xFFFFFFFF < le_decode buf →
  PutVarInt (le_decode buf) = xff :: buf.
Proof.
  intros Hl Hv. unfold PutVarInt.
  rewrite (proj2 (Z.ltb_ge _ _)), (proj2 (Z.leb_gt _ _)), (proj2 (Z.leb_gt _ _)) by lia.
  by rewrite le_encode_decode'.
Qed.

Lemma ReadVarInt_canonical : canonical ReadVarInt PutVarInt is_u64.
Proof.
  intros bs val rest H. unfold ReadVarInt in H.
  apply reader_bind_Ok in H as (d & mid & Hd & H). reader_inv.
  destruct d as [|b [|]]; try discriminate. unfold byte_at in H. cbn [nth] in H.
  destruct (Z.eqb_spec (byte_to_Z b) 0xFD) as [E1|E1];
    [|destruct (Z.eqb_spec (byte_to_Z b) 0xFE) as [E2|E2];
      [|destruct (Z.eqb_spec (byte_to_Z b) 0xFF) as [E3|E3]]].
  - apply (byte_to_Z_inj b xfd) in E1 as ->.
    apply reader_bind_Ok in H as (buf & ? & ? & H). reader_inv.
    rewrite PutVarInt_fd by (done || lia).
    pose proof (VarInt_range buf). unfold is_u64. split; [done|lia].
  - apply (byte_to_Z_inj b xfe) in E2 as ->.
    apply reader_bind_Ok in H as (buf & ? & ? & H). reader_inv.
    destruct (Z.leb_spec (le_decode buf) 0xFFFF); reader_inv.
    rewrite PutVarInt_fe by (done || lia).
    pose proof (le4_range buf) as Hr. unfold is_u32 in Hr. unfold is_u64.
    split; [done|lia].
  - apply (byte_to_Z_inj b xff) in E3 as ->.
    apply reader_bind_Ok in H as (buf & ? & ? & H). reader_inv.
    destruct (Z.leb_spec (le_decode buf) 0xFFFFFFFF); reader_inv.
    rewrite PutVarInt_ff by (done || lia). by auto using le8_range.
  - reader_inv. pose proof (byte_to_Z_range b). unfold PutVarInt.
    assert (byte_to_Z b < 0xFD) by (apply byte_disc; congruence || (intros ->; done)).
    rewrite (proj2 (Z.ltb_lt _ _)) by done. rewrite Z_to_byte_to_Z.
    unfold is_u64. split; [done|lia].
Qed.

(** *** Headers *)

Lemma BlockHeader_length h :
  wf_header h → length (BlockHeader_serializeInto h) = BlockHeaderSize.
Proof.
  intros [_ Hp Hm _ _ _]. unfold BlockHeader_serializeInto. len_simpl.
  by rewrite Hp, Hm.
Qed.

Lemma BlockHeader_of_serialized h :
  wf_header h → BlockHeader_of_bytes (BlockHeader_serializeInto h) = h.
Proof.
  intros [Hv Hp Hm Ht Hb Hn]. unfold BlockHeader_of_bytes, BlockHeader_serializeInto.
  unfold wf_hash, HashSize in *. destruct h as [v p m t b n].
  cbn [hdr_Version hdr_PrevBlock hdr_MerkleRoot hdr_Timestamp hdr_Bits hdr_Nonce] in *.
  f_equal.
  1: rewrite slice_app_take by apply le_encode_length; by apply le4_decode_encode.
  all: rewrite (slice_app_skip _ _ 4) by (apply le_encode_length || lia); cbn [Nat.sub].
  1: by rewrite slice_app_take.
  all: rewrite (slice_app_skip _ _ 32) by (assumption || lia); cbn [Nat.sub].
  1: by rewrite slice_app_take.
  all: rewrite (slice_app_skip _ _ 32) by (assumption || lia); cbn [Nat.sub].
  1: rewrite slice_app_take by apply le_encode_length; by apply le4_decode_encode.
  all: rewrite (slice_app_skip _ _ 4) by (apply le_encode_length || lia); cbn [Nat.sub].
  1: rewrite slice_app_take by apply le_encode_length; by apply le4_decode_encode.
  all: rewrite (slice_app_skip _ _ 4) by (apply le_encode_length || lia); cbn [Nat.sub].
  rewrite slice_all by apply le_encode_length. by apply le4_decode_encode.
Qed.

Lemma BlockHeader_serialize_of_bytes buf :
  length buf = BlockHeaderSize →
  BlockHeader_serializeInto (BlockHeader_of_bytes buf) = buf ∧
  wf_header (BlockHeader_of_bytes buf).
Proof.
  unfold BlockHeaderSize. intros Hl.
  unfold BlockHeader_serializeInto, BlockHeader_of_bytes.
  cbn [hdr_Version hdr_PrevBlock hdr_MerkleRoot hdr_Timestamp hdr_Bits hdr_Nonce]. split.
  - rewrite !le_encode_decode' by (rewrite slice_length; lia).
    rewrite <-!slice_split by lia. by apply slice_all.
  - split; simpl; (apply le4_range || unfold wf_hash, HashSize);
      rewrite slice_length; lia.
Qed.

Lemma BlockHeader_decodes h :
  wf_header h → decodes BlockHeader_Deserialize (BlockHeader_SerializeToBytes h) h.
Proof.
  intros Hh. unfold BlockHeader_Deserialize, BlockHeader_SerializeToBytes.
  eapply decodes_bind_last.
  - do 2 decode_step. by apply BlockHeader_length.
  - rewrite BlockHeader_of_serialized by done. decode_step.
Qed.

Lemma BlockHeader_canonical :
  canonical BlockHeader_Deserialize BlockHeader_SerializeToBytes wf_header.
Proof.
  intros bs h rest H. unfold BlockHeader_Deserialize in H. reader_inv.
  unfold BlockHeader_SerializeToBytes.
  match goal with H : length ?b = _ |- _ =>
    destruct (BlockHeader_serialize_of_bytes b H) as [-> ?] end.
  done.
Qed.

(** *** Inputs, outputs and transactions *)

Lemma len_u64 {A} (l : list A) m : len l ≤ m → m < 2 ^ 64 → is_u64 (len l).
Proof. unfold is_u64. lia. Qed.

Lemma TxInput_decodes i :
  wf_input i → decodes TxInput_Deserialize (TxInput_Serialize i) i.
Proof.
  intros ([Hh Hi] & Hs & Hq). unfold TxInput_Deserialize, TxInput_Serialize.
  unfold wf_script in Hs. decode_step; [by decode_step|].
  decode_step; [decode_step; apply le_encode_length|].
  decode_step; [apply ReadVarInt_decodes, (len_u64 _ MaxScriptSize); done|].
  rewrite (proj2 (Z.ltb_ge _ _)) by done. rewrite Nat2Z.id.
  decode_step; [by decode_step|]. eapply decodes_bind_last; [decode_step; apply le_encode_length|].
  rewrite !le4_decode_encode by done. by destruct i as [[] ? ?]; decode_step.
Qed.

Lemma TxInput_canonical : canonical TxInput_Deserialize TxInput_Serialize wf_input.
Proof.
  intros bs i rest H. unfold TxInput_Deserialize in H.
  reader_inv.
  match goal with H : ReadVarInt _ = _ |- _ =>
    apply ReadVarInt_canonical in H as [-> [? ?]] end.
  unfold TxInput_Serialize, wf_input, wf_outpoint, wf_script, wf_hash. simpl.
  match goal with H : length _ = Z.to_nat _ |- _ => rewrite H end.
  rewrite Z2Nat.id, !le_encode_decode' by done. unfold WriteVarInt.
  rewrite <-!app_assoc. repeat split; auto; by apply le4_range.
Qed.

Lemma TxOutput_decodes o :
  wf_output o → decodes TxOutput_Deserialize (TxOutput_Serialize o) o.
Proof.
  intros (Hv & Hs). unfold TxOutput_Deserialize, TxOutput_Serialize.
  unfold wf_script in Hs. decode_step; [decode_step; apply le_encode_length|].
  decode_step; [apply ReadVarInt_decodes, (len_u64 _ MaxScriptSize); done|].
  rewrite (proj2 (Z.ltb_ge _ _)) by done. rewrite Nat2Z.id.
  eapply decodes_bind_last; [by decode_step|].
  rewrite le8_decode_encode by done. by destruct o; decode_step.
Qed.

Lemma TxOutput_canonical : canonical TxOutput_Deserialize TxOutput_Serialize wf_output.
Proof.
  intros bs o rest H. unfold TxOutput_Deserialize in H.
  reader_inv.
  match goal with H : ReadVarInt _ = _ |- _ =>
    apply ReadVarInt_canonical in H as [-> [? ?]] end.
  unfold TxOutput_Serialize, wf_output, wf_script. simpl.
  match goal with H : length _ = Z.to_nat _ |- _ => rewrite H end.
  rewrite Z2Nat.id, !le_encode_decode' by done. unfold WriteVarInt.
  rewrite <-!app_assoc. split; [done|]. split; [by apply le8_range|done].
Qed.

Lemma Transaction_decodes tx :
  wf_tx tx → decodes Transaction_Deserialize (Transaction_Serialize tx) tx.
Proof.
  intros (Hv & Hin & Hins & Hout & Houts & Hlt).
  unfold Transaction_Deserialize, Transaction_Serialize.
  decode_step; [do 2 decode_step; apply le_encode_length|].
  decode_step; [decode_step; apply ReadVarInt_decodes, (len_u64 _ MaxTxInputs); done|].
  rewrite (proj2 (Z.ltb_ge _ _)) by done. rewrite Nat2Z.id.
  decode_step; [decode_step; by eapply decodes_read_n; [apply TxInput_decodes|]|].
  decode_step; [decode_step; apply ReadVarInt_decodes, (len_u64 _ MaxTxOutputs); done|].
  rewrite (proj2 (Z.ltb_ge _ _)) by done. rewrite Nat2Z.id.
  decode_step; [decode_step; by eapply decodes_read_n; [apply TxOutput_decodes|]|].
  eapply decodes_bind_last; [do 2 decode_step; apply le_encode_length|].
  rewrite !le4_decode_encode by done. by destruct tx; decode_step.
Qed.

Lemma Transaction_canonical :
  canonical Transaction_Deserialize Transaction_Serialize wf_tx.
Proof.
  intros bs tx rest H. unfold Transaction_Deserialize in H.
  reader_inv.
  repeat match goal with H : ReadVarInt _ = _ |- _ =>
    apply ReadVarInt_canonical in H as [-> [? ?]] end.
  repeat match goal with
  | H : read_n TxInput_Deserialize _ _ = _ |- _ =>
      apply (canonical_read_n _ _ _ _ TxInput_canonical) in H as [-> [? ?]]
  | H : read_n TxOutput_Deserialize _ _ = _ |- _ =>
      apply (canonical_read_n _ _ _ _ TxOutput_canonical) in H as [-> [? ?]]
  end.
  unfold Transaction_Serialize, wf_tx. simpl.
  repeat match goal with H : length _ = Z.to_nat _ |- _ => rewrite H end.
  rewrite !Z2Nat.id, !le_encode_decode' by done. unfold WriteVarInt.
  rewrite <-!app_assoc. repeat split; auto; by apply le4_range.
Qed.

(** *** Sizes *)

Lemma foldl_sum {A} (f : A → Z) n l :
  foldl (λ n x, n + f x) n l = n + foldr (λ x s, f x + s) 0 l.
Proof. revert n. induction l as [|x l IH]; intros n; simpl; [lia|]. rewrite IH. lia. Qed.

Lemma sum_len_mjoin {A} (enc : A → list byte) (f : A → Z) l :
  (∀ x, x ∈ l → f x = len (enc x)) →
  foldr (λ x s, f x + s) 0 l = len (mjoin (enc <$> l)).
Proof.
  intros H. induction l as [|x l IH]; [done|].
  cbn [foldr fmap list_fmap mjoin list_join]. rewrite length_app, Nat2Z.inj_add.
  rewrite H, IH by set_solver. done.
Qed.

(** *** Varints from slices *)

Lemma slice_cons_app {A} (b : A) bs rest n :
  length bs = n → slice 1 (S n) (b :: bs ++ rest) = bs.
Proof.
  intros <-. change (take (length bs - 0) (bs ++ rest) = bs).
  by rewrite Nat.sub_0_r, take_app_length.
Qed.

Lemma ReadVarIntFromBytes_complete val rest :
  is_u64 val → ReadVarIntFromBytes (PutVarInt val ++ rest) = Ok val.
Proof.
  intros Hv. unfold is_u64 in Hv. unfold PutVarInt.
  destruct (Z.ltb_spec val 0xFD);
    [|destruct (Z.leb_spec val 0xFFFF);
      [|destruct (Z.leb_spec val 0xFFFFFFFF)]];
    cbn [app ReadVarIntFromBytes].
  - rewrite byte_to_Z_to_byte. unfold u8. rewrite Z.mod_small by lia.
    by rewrite !(proj2 (Z.eqb_neq _ _)) by lia.
  - change (byte_to_Z xfd) with 0xFD. cbn [Z.eqb Pos.eqb length].
    rewrite length_app, le_encode_length, (proj2 (Z.ltb_ge _ _)) by lia.
    rewrite slice_cons_app by apply le_encode_length.
    rewrite le_decode_encode_id by (simpl; lia).
    by rewrite (proj2 (Z.ltb_ge _ _)) by lia.
  - change (byte_to_Z xfe) with 0xFE. cbn [Z.eqb Pos.eqb length].
    rewrite length_app, le_encode_length, (proj2 (Z.ltb_ge _ _)) by lia.
    rewrite slice_cons_app by apply le_encode_length.
    rewrite le_decode_encode_id by (simpl; lia).
    by rewrite (proj2 (Z.leb_gt _ _)) by lia.
  - change (byte_to_Z xff) with 0xFF. cbn [Z.eqb Pos.eqb length].
    rewrite length_app, le_encode_length, (proj2 (Z.ltb_ge _ _)) by lia.
    rewrite slice_cons_app by apply le_encode_length.
    rewrite le_decode_encode_id by (simpl; lia).
    by rewrite (proj2 (Z.leb_gt _ _)) by lia.
Qed.

Lemma cons_slice_split {A} (d : A) data n :
  (n ≤ length data)%nat → d :: data = (d :: slice 1 (S n) (d :: data)) ++ drop n data.
Proof.
  intros. change (d :: data = d :: (take (n - 0) data ++ drop n data)).
  by rewrite Nat.sub_0_r, take_drop.
Qed.

Lemma ReadVarIntFromBytes_sound data val :
  ReadVarIntFromBytes data = Ok val →
  ∃ rest, data = PutVarInt val ++ rest ∧ is_u64 val.
Proof.
  destruct data as [|d data]; [done|]. unfold ReadVarIntFromBytes.
  destruct (Z.eqb_spec (byte_to_Z d) 0xFD) as [E|E1];
    [|destruct (Z.eqb_spec (byte_to_Z d) 0xFE) as [E|E2];
      [|destruct (Z.eqb_spec (byte_to_Z d) 0xFF) as [E|E3]]].
  - destruct (Z.ltb_spec (len (d :: data)) 3) as [|Hl]; [done|]. simpl in Hl.
    destruct (Z.ltb_spec (le_decode (slice 1 3 (d :: data))) 0xFD); intros; res_inv.
    apply (byte_to_Z_inj d xfd) in E as ->.
    assert (length (slice 1 3 (xfd :: data)) = 2%nat) as Hs
      by (rewrite slice_length; simpl; lia).
    exists (drop 2 data). rewrite PutVarInt_fd by done.
    rewrite <-cons_slice_split by lia. split; [done|].
    pose proof (VarInt_range _ Hs). unfold is_u64. lia.
  - destruct (Z.ltb_spec (len (d :: data)) 5) as [|Hl]; [done|]. simpl in Hl.
    destruct (Z.leb_spec (le_decode (slice 1 5 (d :: data))) 0xFFFF); intros; res_inv.
    apply (byte_to_Z_inj d xfe) in E as ->.
    assert (length (slice 1 5 (xfe :: data)) = 4%nat) as Hs
      by (rewrite slice_length; simpl; lia).
    exists (drop 4 data). rewrite PutVarInt_fe by done.
    rewrite <-cons_slice_split by lia. split; [done|].
    pose proof (le4_range _ Hs) as Hr. unfold is_u32 in Hr. unfold is_u64. lia.
  - destruct (Z.ltb_spec (len (d :: data)) 9) as [|Hl]; [done|]. simpl in Hl.
    destruct (Z.leb_spec (le_decode (slice 1 9 (d :: data))) 0xFFFFFFFF); intros; res_inv.
    apply (byte_to_Z_inj d xff) in E as ->.
    assert (length (slice 1 9 (xff :: data)) = 8%nat) as Hs
      by (rewrite slice_length; simpl; lia).
    exists (drop 8 data). rewrite PutVarInt_ff by done.
    rewrite <-cons_slice_split by lia. split; [done|]. by apply le8_range.
  - intros; res_inv. exists data. pose proof (byte_to_Z_range d).
    assert (byte_to_Z d < 0xFD) by (apply byte_disc; intros ->; done).
    unfold PutVarInt. rewrite (proj2 (Z.ltb_lt _ _)) by done.
    rewrite Z_to_byte_to_Z. unfold is_u64. split; [done|lia].
Qed.

(** *** Comparison *)

Lemma le_decode_take_S h i :
  (i < length h)%nat →
  le_decode (take (S i) h) = le_decode (take i h) + 256 ^ Z.of_nat i * byte_at h i.
Proof.
  intros Hi. unfold byte_at.
  destruct (nth_lookup_or_length h i x00) as [Hn|]; [|lia].
  rewrite (take_S_r _ _ _ Hn), le_decode_app, length_take, Nat.min_l by lia.
  rewrite le_decode_singleton. done.
Qed.

Lemma Hash_Less_loop_lt h other i :
  (i ≤ length h)%nat → (i ≤ length other)%nat →
  Hash_Less_loop h other i = (le_decode (take i h) <? le_decode (take i other)).
Proof.
  intros Hh Ho. induction i as [|i IH]; [done|]. cbn [Hash_Less_loop].
  rewrite !le_decode_take_S, IH by lia.
  pose proof (le_decode_range (take i h)) as H1.
  pose proof (le_decode_range (take i other)) as H2.
  rewrite length_take, Nat.min_l in H1, H2 by lia.
  destruct (Z.ltb_spec (byte_at h i) (byte_at other i)).
  - symmetry. apply Z.ltb_lt. nia.
  - destruct (Z.ltb_spec (byte_at other i) (byte_at h i)).
    + symmetry. apply Z.ltb_ge. nia.
    + replace (byte_at other i) with (byte_at h i) by lia.
      apply eq_bool_prop_intro. rewrite !Is_true_true, !Z.ltb_lt. lia.
Qed.

Lemma Hash_Less_lt h other :
  wf_hash h → wf_hash other →
  Hash_Less h other = (le_decode h <? le_decode other).
Proof.
  intros Hh Ho. unfold Hash_Less. rewrite Hash_Less_loop_lt by (by rewrite ?Hh, ?Ho).
  by rewrite !take_ge by (by rewrite ?Hh, ?Ho).
Qed.

Lemma Hash_LessOrEqual_le h other :
  wf_hash h → wf_hash other →
  Hash_LessOrEqual h other = (le_decode h <=? le_decode other).
Proof.
  intros Hh Ho. unfold Hash_LessOrEqual. rewrite Hash_Less_lt by done.
  case_bool_decide as E; [subst; simpl; symmetry; by apply Z.leb_refl|]. simpl.
  assert (le_decode h ≠ le_decode other).
  { contradict E. apply le_decode_inj; [by rewrite Hh, Ho|done]. }
  destruct (Z.ltb_spec (le_decode h) (le_decode other)); symmetry;
    [apply Z.leb_le|apply Z.leb_gt]; lia.
Qed.

(** *** Hexadecimal *)

Lemma hex_value_digit n : 0 ≤ n < 16 → hex_value (hex_digit n) = Some n.
Proof.
  intros Hn. assert (n = 0 ∨ n = 1 ∨ n = 2 ∨ n = 3 ∨ n = 4 ∨ n = 5 ∨ n = 6 ∨ n = 7 ∨
    n = 8 ∨ n = 9 ∨ n = 10 ∨ n = 11 ∨ n = 12 ∨ n = 13 ∨ n = 14 ∨ n = 15) as Hc by lia.
  repeat destruct Hc as [->|Hc]; by subst.
Qed.

Lemma hex_decode_encode bs : hex_DecodeString (hex_EncodeToString bs) = Ok bs.
Proof.
  induction bs as [|b bs IH]; [done|].
  cbn [hex_EncodeToString hex_DecodeString]. pose proof (byte_to_Z_range b).
  pose proof (Z.mod_pos_bound (byte_to_Z b) 16).
  pose proof (Z.div_lt_upper_bound (byte_to_Z b) 16 16).
  pose proof (Z.div_pos (byte_to_Z b) 16).
  rewrite !hex_value_digit, IH by lia. simpl.
  by rewrite <-Z_div_mod_eq_full, Z_to_byte_to_Z.
Qed.

Lemma Block_decodes b rest :
  wf_block b → Block_Deserialize (Block_Serialize b ++ rest) = Ok (b, rest).
Proof.
  intros (Hh & Hn & Htx). revert rest. change (decodes Block_Deserialize (Block_Serialize b) b).
  unfold Block_Deserialize, Block_Serialize.
  decode_step; [by apply BlockHeader_decodes|].
  decode_step; [decode_step; apply ReadVarInt_decodes, (len_u64 _ MaxBlockTxCount); done|].
  rewrite (proj2 (Z.ltb_ge _ _)) by done. rewrite Nat2Z.id.
  eapply decodes_bind_last; [decode_step; by eapply decodes_read_n; [apply Transaction_decodes|]|].
  by destruct b; decode_step.
Qed.

(** ** Properties of the encoding *)

(** Deserializing the serialization of a well-formed block returns the block
    and leaves exactly the bytes that follow it. *)
Theorem Block_roundtrip b rest :
  wf_block b → Block_Deserialize (Block_Serialize b ++ rest) = Ok (b, rest).
Proof. apply Block_decodes. Qed.

(** C10: The wire encoding of blocks is canonical: whatever byte string
    [Block.Deserialize] accepts is the serialization of the block it returns,
    which is well formed.  Two encodings of one block therefore cannot exist. *)
Theorem Block_encoding_canonical bs b rest :
  Block_Deserialize bs = Ok (b, rest) → bs = Block_Serialize b ++ rest ∧ wf_block b.
Proof.
  unfold Block_Deserialize. intros H.
  reader_inv.
  match goal with H : BlockHeader_Deserialize _ = _ |- _ =>
    apply BlockHeader_canonical in H as [-> ?] end.
  match goal with H : ReadVarInt _ = _ |- _ =>
    apply ReadVarInt_canonical in H as [-> [? ?]] end.
  match goal with H : read_n Transaction_Deserialize _ _ = _ |- _ =>
    apply (canonical_read_n _ _ _ _ Transaction_canonical) in H as [-> [Hl ?]] end.
  unfold Block_Serialize, wf_block. simpl. rewrite Hl, Z2Nat.id by done.
  unfold WriteVarInt. rewrite <-!app_assoc. by split_and!.
Qed.

(** The size computed by [Transaction.SerializeSize] (and used to preallocate
    buffers, to bound transactions and to compute fee rates) is the length of
    the serialization, for every transaction whose outpoint hashes have 32
    bytes. *)
Theorem Transaction_SerializeSize_correct tx :
  Forall (λ i, wf_hash (op_Hash (in_PreviousOutPoint i))) (tx_Inputs tx) →
  Transaction_SerializeSize tx = len (Transaction_Serialize tx).
Proof.
  intros Hin. unfold Transaction_SerializeSize, Transaction_Serialize.
  rewrite !foldl_sum, !length_app, !VarIntSize_ok, !le_encode_length.
  rewrite (sum_len_mjoin TxInput_Serialize), (sum_len_mjoin TxOutput_Serialize).
  - unfold WriteVarInt. lia.
  - intros o _. unfold TxOutput_SerializeSize, TxOutput_Serialize.
    rewrite VarIntSize_ok, !length_app, le_encode_length. unfold WriteVarInt. lia.
  - intros i Hi. rewrite Forall_forall in Hin.
    unfold TxInput_SerializeSize, TxInput_Serialize.
    rewrite VarIntSize_ok, !length_app, !le_encode_length.
    rewrite (Hin i Hi). unfold WriteVarInt, HashSize. lia.
Qed.

(** [ReadVarIntFromBytes], the slice version, and [ReadVarInt], the reader
    version, agree: they accept the same inputs and return the same value (the
    error texts of truncated inputs differ). *)
Theorem ReadVarIntFromBytes_equiv data v :
  ReadVarIntFromBytes data = Ok v ↔ ∃ rest, ReadVarInt data = Ok (v, rest).
Proof.
  split.
  - intros H. apply ReadVarIntFromBytes_sound in H as (rest & -> & Hv).
    exists rest. by apply ReadVarInt_decodes.
  - intros [rest H]. apply ReadVarInt_canonical in H as [-> Hv].
    by apply ReadVarIntFromBytes_complete.
Qed.

(** [Hash.Less] compares hashes as 256-bit little-endian integers, and
    [Hash.LessOrEqual] is the corresponding order. *)
Theorem Hash_compare_correct h other :
  wf_hash h → wf_hash other →
  Hash_Less h other = (le_decode h <? le_decode other) ∧
  Hash_LessOrEqual h other = (le_decode h <=? le_decode other).
Proof.
  intros Hh Ho. rewrite Hash_LessOrEqual_le by done. split; [|done].
  by apply Hash_Less_lt.
Qed.

(** Parsing the printed form of a hash gives the hash back, in internal and in
    display byte order. *)
Theorem Hash_hex_roundtrip h :
  wf_hash h →
  HashFromHex (Hash_String h) = Ok h ∧
  HashFromReverseHex (Hash_ReverseString h) = Ok h.
Proof.
  intros Hh. unfold HashFromHex, HashFromReverseHex, Hash_String, Hash_ReverseString.
  rewrite !hex_decode_encode. cbn [wrap mbind res_bind].
  unfold wf_hash in Hh. rewrite length_reverse, !bool_decide_true by done. simpl.
  unfold HashFromBytes. by rewrite reverse_involutive, decide_True.
Qed.

(** ** Witnesses *)

(** A small block with a coinbase and a spending transaction. *)
Definition sample_coinbase : Transaction :=
  mkTransaction 1 [mkTxInput CoinbaseOutPoint [x01; x07] 0xFFFFFFFF]
    [mkTxOutput 5000000000 [x51]] 0.
Definition sample_spend : Transaction :=
  mkTransaction 1 [mkTxInput (mkOutPoint (replicate 32 x11) 3) [x51] 0xFFFFFFFE]
    [mkTxOutput 10 [x51]; mkTxOutput 20 (replicate 300 x00)] 0.
Definition sample_block : Block :=
  mkBlock (mkBlockHeader 1 ZeroHash (replicate 32 xab) 1774175035 0x1e7ce359 7)
    [sample_coinbase; sample_spend].

Lemma Block_roundtrip_witness :
  wf_block sample_block ∧
  Block_Deserialize (Block_Serialize sample_block ++ [x00]) = Ok (sample_block, [x00]).
Proof.
  assert (wf_block sample_block) as H.
  { by_decide. }
  split; [exact H|]. exact (Block_roundtrip sample_block [x00] H).
Defined.

Lemma Block_encoding_canonical_witness :
  Block_Serialize sample_block ++ [x00] = Block_Serialize sample_block ++ [x00] ∧
  wf_block sample_block.
Proof.
  refine (Block_encoding_canonical (Block_Serialize sample_block ++ [x00])
            sample_block [x00] _).
  vm_compute. reflexivity.
Defined.

Lemma Transaction_SerializeSize_correct_witness :
  Transaction_SerializeSize sample_spend = len (Transaction_Serialize sample_spend).
Proof.
  refine (Transaction_SerializeSize_correct sample_spend _).
  by_decide.
Defined.

Lemma Hash_compare_correct_witness :
  Hash_Less ZeroHash (replicate 32 x11) =
    (le_decode ZeroHash <? le_decode (replicate 32 x11)) ∧
  Hash_LessOrEqual ZeroHash (replicate 32 x11) =
    (le_decode ZeroHash <=? le_decode (replicate 32 x11)).
Proof. refine (Hash_compare_correct ZeroHash (replicate 32 x11) _ _); reflexivity. Defined.

Lemma Hash_hex_roundtrip_witness :
  HashFromHex (Hash_String (replicate 32 xa7)) = Ok (replicate 32 xa7) ∧
  HashFromReverseHex (Hash_ReverseString (replicate 32 xa7)) = Ok (replicate 32 xa7).
Proof. refine (Hash_hex_roundtrip (replicate 32 xa7) _); reflexivity. Defined.
