(* ===== verification/Sha256.v ===== *)
(** * crypto/sha256 and internal/crypto/hash.go

    [sha256.Sum256] of Go's standard library, written out after FIPS 180-4 on
    32-bit words in [Z], and the identity hashes built on it.  It is
    executable: the hard-coded genesis hashes of the networks are recomputed
    with it (file Params). *)
From S2P Require Import Prelude Types.

(** ** SHA-256 *)

(** FIPS 180-4 defines its constants from the first primes: the round constants
    are the first 32 bits of the fractional parts of their cube roots, the
    initial state that of the square roots of the first eight. *)
Definition is_prime (n : Z) : bool :=
  forallb (λ d, negb (n mod d =? 0)) (seqZ 2 (Z.sqrt n - 1)).

Definition small_primes : list Z :=
  List.filter is_prime (seqZ 2 310).

(** The integer cube root of [n], bit by bit from bit [k - 1] down. *)
Fixpoint cube_root (k : nat) (r n : Z) : Z :=
  match k with
  | O => r
  | S k' =>
      let r' := r + 2 ^ Z.of_nat k' in
      cube_root k' (if r' * r' * r' <=? n then r' else r) n
  end.

Definition sha256_k : list Z :=
  Eval vm_compute in
    map (λ p, cube_root 35 0 (p * 2 ^ 96) mod 2 ^ 32) small_primes.

Definition sha256_init : list Z :=
  Eval vm_compute in
    map (λ p, Z.sqrt (p * 2 ^ 64) mod 2 ^ 32) (take 8 small_primes).

(** The low 32 bits of a word sum. *)
Definition w32 (x : Z) : Z := Z.land x 0xffffffff.

Definition rotr (n x : Z) : Z := Z.lor (Z.shiftr x n) (w32 (Z.shiftl x (32 - n))).

Definition sigma0 (x : Z) : Z :=
  Z.lxor (rotr 7 x) (Z.lxor (rotr 18 x) (Z.shiftr x 3)).
Definition sigma1 (x : Z) : Z :=
  Z.lxor (rotr 17 x) (Z.lxor (rotr 19 x) (Z.shiftr x 10)).
Definition Sigma0 (x : Z) : Z := Z.lxor (rotr 2 x) (Z.lxor (rotr 13 x) (rotr 22 x)).
Definition Sigma1 (x : Z) : Z := Z.lxor (rotr 6 x) (Z.lxor (rotr 11 x) (rotr 25 x)).
Definition Ch (x y z : Z) : Z := Z.lxor z (Z.land x (Z.lxor y z)).
Definition Maj (x y z : Z) : Z := Z.lor (Z.land x y) (Z.land z (Z.lor x y)).

(** The message schedule, newest word first. *)
Fixpoint sha256_schedule (n : nat) (ws : list Z) : list Z :=
  match n with
  | O => ws
  | S n' =>
      let w := w32 (sigma1 (nth 1 ws 0) + nth 6 ws 0 + sigma0 (nth 14 ws 0) + nth 15 ws 0) in
      sha256_schedule n' (w :: ws)
  end.

Definition sha256_round (st : list Z) (kw : Z * Z) : list Z :=
  match st with
  | [a; b; c; d; e; f; g; h] =>
      let t1 := h + Sigma1 e + Ch e f g + fst kw + snd kw in
      let t2 := Sigma0 a + Maj a b c in
      [w32 (t1 + t2); a; b; c; w32 (d + t1); e; f; g]
  | _ => st
  end.

Fixpoint be_words (bs : list byte) : list Z :=
  match bs with
  | a :: b :: c :: d :: bs' =>
      (((byte_to_Z a * 256 + byte_to_Z b) * 256 + byte_to_Z c) * 256 + byte_to_Z d)
        :: be_words bs'
  | _ => []
  end.

Definition sha256_block (st : list Z) (block : list byte) : list Z :=
  let ws := reverse (sha256_schedule 48 (reverse (be_words block))) in
  zip_with (λ x y, w32 (x + y)) st (foldl sha256_round st (zip sha256_k ws)).

Fixpoint sha256_blocks (n : nat) (st : list Z) (bs : list byte) : list Z :=
  match n with
  | O => st
  | S n' => sha256_blocks n' (sha256_block st (take 64 bs)) (drop 64 bs)
  end.

(** Padding: 0x80, zeros up to 56 modulo 64, the bit length in 8 bytes. *)
Definition sha256_pad (bs : list byte) : list byte :=
  bs ++ [x80] ++ replicate (Z.to_nat ((55 - len bs) mod 64)) x00 ++
  be_encode 8 (8 * len bs).

Definition Sum256 (bs : list byte) : list byte :=
  let p := sha256_pad bs in
  mjoin (be_encode 4 <$> sha256_blocks (length p / 64) sha256_init p).

(** ** Hashes of the consensus layer (hash.go) *)

(** [HashFromBytes] cannot panic here: [Sum256] returns 32 bytes
    ([Sum256_length]). *)
Definition DoubleSHA256 (data : list byte) : Hash := Sum256 (Sum256 data).

Definition HashBlockHeader (h : BlockHeader) : Hash :=
  DoubleSHA256 (BlockHeader_SerializeToBytes h).

Definition HashTransaction (tx : Transaction) : Hash :=
  DoubleSHA256 (Transaction_SerializeToBytes tx).

(** ** Length of the digest *)

Lemma sha256_round_length st kw : length (sha256_round st kw) = length st.
Proof. unfold sha256_round. by repeat case_match. Qed.

Lemma sha256_rounds_length kws st : length (foldl sha256_round st kws) = length st.
Proof.
  revert st. induction kws as [|kw kws IH]; intros st; simpl; [done|].
  by rewrite IH, sha256_round_length.
Qed.

Lemma sha256_blocks_length n st bs : length (sha256_blocks n st bs) = length st.
Proof.
  revert st bs. induction n as [|n IH]; intros st bs; cbn [sha256_blocks]; [done|].
  rewrite IH. unfold sha256_block. by rewrite length_zip_with, sha256_rounds_length, Nat.min_id.
Qed.

Lemma Sum256_length bs : length (Sum256 bs) = HashSize.
Proof.
  unfold Sum256. pose proof (sha256_blocks_length (length (sha256_pad bs) / 64)
    sha256_init (sha256_pad bs)) as H.
  destruct (sha256_blocks _ _ _) as [|a [|b [|c [|d [|e [|f [|g [|h [|]]]]]]]]]; done.
Qed.

Lemma DoubleSHA256_wf data : wf_hash (DoubleSHA256 data).
Proof. apply Sum256_length. Qed.

#[export] Hint Resolve Sum256_length DoubleSHA256_wf : core.

(** Test vector of FIPS 180-4: SHA-256("abc"). *)
Example Sum256_abc :
  be_decode (Sum256 [x61; x62; x63]) =
  0xba7816bf8f01cfea414140de5dae2223b00361a396177a9cb410ff61f20015ad.
Proof. vm_compute. reflexivity. Qed.

Arguments HashBlockHeader : simpl never.
Arguments HashTransaction : simpl never.
Arguments DoubleSHA256 : simpl never.
