(* ===== verification/Target.v ===== *)
(** * internal/crypto/target.go: compact difficulty bits, targets and work

    [big.Int] values are integers in [Z]; [uint32] operations are followed by
    [u32] where they can wrap. *)
From S2P Require Import Prelude Types.

(** ** The code *)

Definition CompactToBig (compact : Z) : Z :=
  let mantissa := Z.land compact 0x007fffff in
  let negative := negb (Z.land compact 0x00800000 =? 0) in
  let exponent := Z.shiftr compact 24 in
  let overflow := negb (mantissa =? 0) &&
    ((34 <? exponent) || ((0xff <? mantissa) && (33 <? exponent)) ||
     ((0xffff <? mantissa) && (32 <? exponent))) in
  if negative || overflow then 0
  else if exponent <=? 3 then Z.shiftr mantissa (8 * (3 - exponent))
  else Z.shiftl mantissa (8 * (exponent - 3)).

(** [big.Int.BitLen]. *)
Definition BitLen (t : Z) : Z := if t =? 0 then 0 else Z.log2 (Z.abs t) + 1.

Definition BigToCompact (target : Z) : Z :=
  if target =? 0 then 0 else
  let negative := target <? 0 in
  let t := Z.abs target in
  let byteLen := u32 ((BitLen t + 7) / 8) in
  let compact :=
    if byteLen <=? 3 then u32 (Z.shiftl (u32 (u64 t)) (8 * (3 - byteLen)))
    else Z.land (u64 (Z.shiftr t (8 * (byteLen - 3)))) 0xffffff in
  let '(compact, byteLen) :=
    if negb (Z.land compact 0x00800000 =? 0)
    then (Z.shiftr compact 8, u32 (byteLen + 1)) else (compact, byteLen) in
  let compact := Z.lor compact (u32 (Z.shiftl byteLen 24)) in
  if negative then Z.lor compact 0x00800000 else compact.

(** [big.Int.Bytes]: the minimal big-endian bytes of the absolute value. *)
Definition big_Bytes (t : Z) : list byte :=
  be_encode (Z.to_nat ((BitLen t + 7) / 8)) (Z.abs t).

(** The copy loop writes [b] from its last byte into [h[0], h[1], ...] and stops
    at [HashSize]; the rest of [h] stays zero. *)
Definition CompactToHash (compact : Z) : Hash :=
  let b := big_Bytes (CompactToBig compact) in
  let low := take HashSize (reverse b) in
  low ++ replicate (HashSize - length low) x00.

Definition HashToBig (h : Hash) : Z := be_decode (reverse h).

Definition CalcWork (bits : Z) : Z :=
  let target := CompactToBig bits in
  if target <=? 0 then 0 else 2 ^ 256 / (target + 1).

Definition ValidateProofOfWork (headerHash : Hash) (bits : Z) : res () :=
  fail_if (negb (Hash_LessOrEqual headerHash (CompactToHash bits)))
          (Errorf "block hash exceeds target").

(** ** Closed forms *)

Lemma land_ones_mod z n : 0 ≤ n → Z.land z (2 ^ n - 1) = z mod 2 ^ n.
Proof. intros. rewrite <-Z.land_ones by done. by rewrite Z.ones_equiv, Z.sub_1_r. Qed.

Lemma land_bit23 z : 0 ≤ z → Z.land z 0x800000 = (if Z.testbit z 23 then 0x800000 else 0).
Proof.
  intros Hz. change 0x800000 with (2 ^ 23) at 1. apply Z.bits_inj'. intros n Hn.
  rewrite Z.land_spec, Z.pow2_bits_eqb by lia.
  destruct (Z.eqb_spec 23 n) as [<-|Hne].
  - rewrite andb_true_r. by destruct (Z.testbit z 23).
  - rewrite andb_false_r. destruct (Z.testbit z 23); [|by rewrite Z.bits_0].
    change 0x800000 with (2 ^ 23). rewrite Z.pow2_bits_eqb by lia.
    symmetry. by apply Z.eqb_neq.
Qed.

Lemma bit23_small z : 0 ≤ z < 2 ^ 23 → Z.testbit z 23 = false.
Proof.
  intros. destruct (decide (z = 0)) as [->|]; [by apply Z.bits_0|].
  apply Z.bits_above_log2; [lia|]. apply Z.log2_lt_pow2; lia.
Qed.

Lemma bit23_high z : 2 ^ 23 ≤ z < 2 ^ 24 → Z.testbit z 23 = true.
Proof.
  intros. assert (Z.log2 z = 23) as <-; [|by apply Z.bit_log2; lia].
  apply Z.log2_unique; simpl; lia.
Qed.

(** A compact value is [2^24 * exponent + mantissa]. *)
Lemma CompactToBig_eq e m :
  0 ≤ e < 256 → 0 ≤ m < 2 ^ 23 → m * 256 ^ e < 2 ^ 256 * 2 ^ 24 →
  CompactToBig (2 ^ 24 * e + m) = m * 256 ^ e / 2 ^ 24.
Proof.
  intros He Hm Hov. unfold CompactToBig.
  change 0x007fffff with (2 ^ 23 - 1). rewrite land_ones_mod by lia.
  replace ((2 ^ 24 * e + m) mod 2 ^ 23) with m
    by (apply Z.mod_unique with (2 * e); lia).
  rewrite land_bit23 by lia.
  replace (Z.testbit (2 ^ 24 * e + m) 23) with (Z.testbit m 23).
  2: { rewrite <-(Z.mod_pow2_bits_low (2 ^ 24 * e + m) 24 23) by lia. f_equal.
       apply Z.mod_unique with e; lia. }
  rewrite bit23_small by lia. rewrite Z.shiftr_div_pow2 by lia.
  replace ((2 ^ 24 * e + m) / 2 ^ 24) with e by (apply Z.div_unique with m; lia).
  assert (negb (m =? 0) && ((34 <? e) || ((0xff <? m) && (33 <? e)) ||
     ((0xffff <? m) && (32 <? e))) = false) as ->.
  { apply not_true_is_false. intros Ht.
    apply andb_true_iff in Ht as [Hm0 Ht]. apply negb_true_iff, Z.eqb_neq in Hm0.
    assert (2 ^ 256 * 2 ^ 24 ≤ m * 256 ^ e); [|lia].
    rewrite !orb_true_iff, !andb_true_iff, !Z.ltb_lt in Ht.
    destruct Ht as [[Ht|[Ht1 Ht2]]|[Ht1 Ht2]].
    - assert (256 ^ 35 ≤ 256 ^ e) by (apply Z.pow_le_mono_r; lia). nia.
    - assert (256 ^ 34 ≤ 256 ^ e) by (apply Z.pow_le_mono_r; lia). nia.
    - assert (256 ^ 33 ≤ 256 ^ e) by (apply Z.pow_le_mono_r; lia). nia. }
  simpl orb. cbv iota. destruct (Z.leb_spec e 3).
  - rewrite Z.shiftr_div_pow2 by lia.
    replace (2 ^ 24) with (256 ^ e * 2 ^ (8 * (3 - e))).
    2: { change 256 with (2 ^ 8). rewrite <-Z.pow_mul_r, <-Z.pow_add_r by lia. f_equal. lia. }
    rewrite (Z.mul_comm m), Z.div_mul_cancel_l; [done| |]; apply Z.pow_nonzero; lia.
  - rewrite Z.shiftl_mul_pow2 by lia.
    replace (256 ^ e) with (2 ^ (8 * (e - 3)) * 2 ^ 24).
    2: { change 256 with (2 ^ 8). rewrite <-Z.pow_mul_r, <-Z.pow_add_r by lia. f_equal. lia. }
    rewrite Z.mul_assoc, Z.div_mul by lia. done.
Qed.

(** Every compact value decodes into 256 bits. *)
Lemma CompactToBig_range compact :
  is_u32 compact → 0 ≤ CompactToBig compact < 2 ^ 256.
Proof.
  unfold is_u32. intros Hc.
  set (e := compact / 2 ^ 24). set (r := compact mod 2 ^ 24).
  assert (compact = 2 ^ 24 * e + r) as Hd by apply Z_div_mod_eq_full.
  assert (0 ≤ r < 2 ^ 24) as Hr by (apply Z.mod_pos_bound; lia).
  assert (0 ≤ e < 256) as He
    by (subst e; split; [apply Z.div_pos|apply Z.div_lt_upper_bound]; lia).
  destruct (decide (r < 2 ^ 23 ∧ r * 256 ^ e < 2 ^ 256 * 2 ^ 24)) as [[Hm Hov]|Hno].
  - rewrite Hd, CompactToBig_eq by lia. split.
    + apply Z.div_pos; [apply Z.mul_nonneg_nonneg; [lia|apply Z.pow_nonneg; lia]|lia].
    + apply Z.div_lt_upper_bound; lia.
  - unfold CompactToBig. change 0x007fffff with (2 ^ 23 - 1).
    rewrite land_ones_mod, land_bit23, Z.shiftr_div_pow2 by lia. fold e.
    destruct (decide (r < 2 ^ 23)) as [Hm|Hm].
    + replace (compact mod 2 ^ 23) with r by (apply Z.mod_unique with (2 * e); lia).
      match goal with |- context [if ?c then 0 else _] =>
        assert (c = true) as ->; [|lia] end.
      apply orb_true_iff; right. apply andb_true_iff. split.
      { apply negb_true_iff, Z.eqb_neq. intros ->. lia. }
      rewrite !orb_true_iff, !andb_true_iff, !Z.ltb_lt.
      destruct (decide (34 < e)); [lia|]. destruct (decide (e ≤ 32)).
      { assert (256 ^ e ≤ 256 ^ 32) by (apply Z.pow_le_mono_r; lia). nia. }
      assert (e = 33 ∨ e = 34) as [He'|He'] by lia; rewrite He' in *; simpl in *; lia.
    + replace (Z.testbit compact 23) with true; [simpl; lia|].
      rewrite <-(Z.mod_pow2_bits_low compact 24 23) by lia. fold r.
      symmetry. apply bit23_high. lia.
Qed.

(** The exponent [BigToCompact] chooses, as a function of the bit length. *)
Definition compact_exp (t : Z) : Z := BitLen t / 8 + 1.

Lemma BitLen_bounds t : 0 < t → 2 ^ (BitLen t - 1) ≤ t < 2 ^ BitLen t ∧ 0 < BitLen t.
Proof.
  intros Ht. unfold BitLen. rewrite (proj2 (Z.eqb_neq t 0)), Z.abs_eq by lia.
  pose proof (Z.log2_spec t Ht). pose proof (Z.log2_nonneg t).
  rewrite Z.add_simpl_r, <-Z.add_1_r in *. lia.
Qed.

Lemma BitLen_unique t n : 0 < n → 2 ^ (n - 1) ≤ t < 2 ^ n → BitLen t = n.
Proof.
  intros Hn Ht. pose proof (Z.pow_pos_nonneg 2 (n - 1)).
  unfold BitLen. rewrite (proj2 (Z.eqb_neq t 0)), Z.abs_eq by lia.
  rewrite (Z.log2_unique t (n - 1)); [lia..|].
  by replace (Z.succ (n - 1)) with n by lia.
Qed.

Lemma pow256 e : 0 ≤ e → 256 ^ e = 2 ^ (8 * e).
Proof. intros. change 256 with (2 ^ 8). by rewrite Z.pow_mul_r by lia. Qed.

(** The mantissa bounds that determine the exponent. *)
Lemma compact_exp_bounds t :
  0 < t →
  1 ≤ compact_exp t ∧
  2 ^ 15 * 256 ^ compact_exp t ≤ t * 2 ^ 24 < 2 ^ 23 * 256 ^ compact_exp t.
Proof.
  intros Ht. destruct (BitLen_bounds t Ht) as [Hb Hb0]. unfold compact_exp.
  set (n := BitLen t) in *. pose proof (Z.div_mod n 8). pose proof (Z.mod_pos_bound n 8).
  assert (0 ≤ n / 8) by (apply Z.div_pos; lia). rewrite pow256 by lia.
  rewrite <-!Z.pow_add_r by lia. split_and!; [lia|..].
  - transitivity (2 ^ (n - 1) * 2 ^ 24); [|nia]. rewrite <-Z.pow_add_r by lia.
    apply Z.pow_le_mono_r; lia.
  - apply Z.lt_le_trans with (2 ^ n * 2 ^ 24); [nia|]. rewrite <-Z.pow_add_r by lia.
    apply Z.pow_le_mono_r; lia.
Qed.

Lemma compact_exp_unique t e :
  0 < t → 1 ≤ e → 2 ^ 15 * 256 ^ e ≤ t * 2 ^ 24 < 2 ^ 23 * 256 ^ e → compact_exp t = e.
Proof.
  intros Ht He Hb. destruct (compact_exp_bounds t Ht) as [H1 H2].
  destruct (Z.lt_trichotomy (compact_exp t) e) as [Hlt|[Heq|Hlt]]; [|done|].
  - assert (256 ^ (compact_exp t + 1) ≤ 256 ^ e) by (apply Z.pow_le_mono_r; lia).
    rewrite Z.pow_add_r in H by lia. lia.
  - assert (256 ^ (e + 1) ≤ 256 ^ compact_exp t) by (apply Z.pow_le_mono_r; lia).
    rewrite Z.pow_add_r in H by lia. lia.
Qed.

Definition compact_mant (t : Z) : Z := t * 2 ^ 24 / 256 ^ compact_exp t.

Lemma compact_mant_bounds t : 0 < t → 2 ^ 15 ≤ compact_mant t < 2 ^ 23.
Proof.
  intros Ht. destruct (compact_exp_bounds t Ht) as [H1 H2]. unfold compact_mant.
  pose proof (Z.pow_pos_nonneg 256 (compact_exp t)).
  split; [apply Z.div_le_lower_bound|apply Z.div_lt_upper_bound]; lia.
Qed.

Lemma compact_exp_256 t : 0 < t < 2 ^ 256 → compact_exp t ≤ 33.
Proof.
  intros Ht. destruct (compact_exp_bounds t) as [H1 H2]; [lia|].
  destruct (decide (compact_exp t ≤ 33)); [done|exfalso].
  assert (256 ^ 34 ≤ 256 ^ compact_exp t) by (apply Z.pow_le_mono_r; lia). lia.
Qed.

Lemma lor_disjoint a b : 0 ≤ a < 2 ^ 24 → 0 ≤ b → Z.lor a (b * 2 ^ 24) = 2 ^ 24 * b + a.
Proof.
  intros Ha Hb.
  assert (Z.land a (b * 2 ^ 24) = 0) as H0.
  { apply Z.bits_inj'. intros n Hn. rewrite Z.land_spec, Z.bits_0.
    destruct (decide (n < 24)).
    - by rewrite Z.mul_pow2_bits_low, andb_false_r.
    - rewrite <-(Z.mod_small a (2 ^ 24)) by done.
      by rewrite Z.mod_pow2_bits_high by lia. }
  rewrite <-Z.lxor_lor, <-Z.add_nocarry_lxor by done. lia.
Qed.

(** The bytes [BigToCompact] extracts before it normalizes the sign bit. *)
Lemma compact_raw t n :
  0 < t < 2 ^ (8 * n) → 0 ≤ n < 256 →
  (if n <=? 3 then u32 (Z.shiftl (u32 (u64 t)) (8 * (3 - n)))
   else Z.land (u64 (Z.shiftr t (8 * (n - 3)))) 0xffffff) = t * 2 ^ 24 / 256 ^ n ∧
  t * 2 ^ 24 / 256 ^ n < 2 ^ 24.
Proof.
  intros Ht Hn. rewrite pow256 by lia. pose proof (Z.pow_pos_nonneg 2 (8 * n)).
  assert (t * 2 ^ 24 / 2 ^ (8 * n) < 2 ^ 24) as Hlt by (apply Z.div_lt_upper_bound; nia).
  assert (0 ≤ t * 2 ^ 24 / 2 ^ (8 * n)) by (apply Z.div_pos; lia).
  split; [|done]. destruct (Z.leb_spec n 3).
  - assert (2 ^ (8 * n) ≤ 2 ^ 24) by (apply Z.pow_le_mono_r; lia).
    rewrite u64_id, (u32_id t) by (unfold is_u64, is_u32; lia).
    rewrite Z.shiftl_mul_pow2 by lia.
    assert (2 ^ 24 = 2 ^ (8 * (3 - n)) * 2 ^ (8 * n)) as Hp
      by (rewrite <-Z.pow_add_r by lia; f_equal; lia).
    rewrite Hp, Z.mul_assoc, Z.div_mul in Hlt |- * by lia.
    apply u32_id. unfold is_u32. split; [|lia].
    apply Z.mul_nonneg_nonneg; [lia|apply Z.pow_nonneg; lia].
  - rewrite Z.shiftr_div_pow2 by lia.
    assert (2 ^ (8 * n) = 2 ^ (8 * (n - 3)) * 2 ^ 24) as Hp
      by (rewrite <-Z.pow_add_r by lia; f_equal; lia).
    assert (t * 2 ^ 24 / 2 ^ (8 * n) = t / 2 ^ (8 * (n - 3))) as Heq.
    { rewrite Hp. apply Z.div_mul_cancel_r; [apply Z.pow_nonzero; lia|lia]. }
    rewrite <-Heq, u64_id by (unfold is_u64; lia).
    change 0xffffff with (2 ^ 24 - 1). rewrite land_ones_mod by lia.
    by apply Z.mod_small.
Qed.

Lemma BigToCompact_eq t :
  0 < t < 2 ^ 256 → BigToCompact t = 2 ^ 24 * compact_exp t + compact_mant t.
Proof.
  intros Ht. destruct (BitLen_bounds t) as [Hb Hb0]; [lia|].
  pose proof (compact_exp_256 t Ht) as He. pose proof (compact_mant_bounds t) as Hm.
  unfold BigToCompact. rewrite (proj2 (Z.eqb_neq t 0)), Z.abs_eq by lia.
  rewrite (proj2 (Z.ltb_ge t 0)) by lia. cbv zeta.
  unfold compact_exp in *. set (bl := BitLen t) in *.
  pose proof (Z.div_mod bl 8). pose proof (Z.mod_pos_bound bl 8).
  assert (0 ≤ bl / 8) by (apply Z.div_pos; lia).
  set (n := (bl + 7) / 8).
  assert (bl mod 8 = 0 ∧ n = bl / 8 ∨ bl mod 8 ≠ 0 ∧ n = bl / 8 + 1) as Hn.
  { subst n. destruct (decide (bl mod 8 = 0)); [left|right]; (split; [done|]);
      symmetry; [apply Z.div_unique with 7|apply Z.div_unique with (bl mod 8 - 1)]; lia. }
  assert (0 ≤ n ≤ 33) as Hn' by lia. rewrite (u32_id n) by (unfold is_u32; lia).
  assert (0 < t < 2 ^ (8 * n)) as Htn.
  { split; [lia|]. apply Z.lt_le_trans with (2 ^ bl); [lia|]. apply Z.pow_le_mono_r; lia. }
  destruct (compact_raw t n Htn) as [-> Hc]; [lia|].
  assert (0 ≤ t * 2 ^ 24 / 256 ^ n) by (apply Z.div_pos; [|apply Z.pow_pos_nonneg]; lia).
  rewrite land_bit23 by done. destruct Hn as [[Hz Hn]|[Hz Hn]].
  - rewrite bit23_high.
    2: { split; [|done]. apply Z.div_le_lower_bound; [apply Z.pow_pos_nonneg; lia|].
         rewrite pow256 by lia. transitivity (2 ^ (bl - 1) * 2 ^ 24); [|nia].
         rewrite <-!Z.pow_add_r by lia. apply Z.pow_le_mono_r; lia. }
    cbn [negb Z.eqb]. rewrite (u32_id (n + 1)) by (unfold is_u32; lia).
    rewrite Z.shiftr_div_pow2, Z.div_div by (try apply Z.pow_pos_nonneg; lia).
    change (2 ^ 8) with (256 ^ 1). rewrite <-Z.pow_add_r, Hn by lia.
    unfold compact_mant, compact_exp in *. fold bl in Hm |- *.
    rewrite Z.shiftl_mul_pow2, u32_id by (unfold is_u32; lia).
    rewrite lor_disjoint; lia.
  - unfold compact_mant, compact_exp in *. fold bl in Hm |- *. rewrite <-Hn in *.
    rewrite bit23_small by lia. cbn [negb Z.eqb].
    rewrite Z.shiftl_mul_pow2, u32_id by (unfold is_u32; lia).
    rewrite lor_disjoint; lia.
Qed.

(** The rounding of [BigToCompact], in closed form. *)
Lemma CompactToBig_BigToCompact t :
  0 < t < 2 ^ 256 →
  CompactToBig (BigToCompact t) = compact_mant t * 256 ^ compact_exp t / 2 ^ 24.
Proof.
  intros Ht. rewrite BigToCompact_eq by done.
  pose proof (compact_mant_bounds t). destruct (compact_exp_bounds t) as [H1 H2]; [lia|].
  pose proof (compact_exp_256 t Ht).
  apply CompactToBig_eq; [lia..|]. unfold compact_mant.
  pose proof (Z.mul_div_le (t * 2 ^ 24) (256 ^ compact_exp t)).
  pose proof (Z.pow_pos_nonneg 256 (compact_exp t)). lia.
Qed.

(** When the exponent is at most 3 the compact form is exact; otherwise it drops
    the bytes below the three most significant ones. *)
Lemma compact_value_cases t :
  0 < t < 2 ^ 256 →
  (compact_exp t ≤ 3 ∧ CompactToBig (BigToCompact t) = t) ∨
  (3 < compact_exp t ∧
   CompactToBig (BigToCompact t) = compact_mant t * 256 ^ (compact_exp t - 3) ∧
   compact_mant t * 256 ^ (compact_exp t - 3) ≤ t
     < (compact_mant t + 1) * 256 ^ (compact_exp t - 3)).
Proof.
  intros Ht. rewrite CompactToBig_BigToCompact by done.
  destruct (compact_exp_bounds t) as [H1 H2]; [lia|]. unfold compact_mant.
  destruct (decide (compact_exp t ≤ 3)) as [He|He]; [left|right]; (split; [lia|]).
  - assert (2 ^ 24 = 256 ^ (3 - compact_exp t) * 256 ^ compact_exp t) as Hp.
    { rewrite <-Z.pow_add_r by lia. by replace (3 - compact_exp t + compact_exp t) with 3 by lia. }
    pose proof (Z.pow_pos_nonneg 256 (compact_exp t)).
    rewrite Hp, Z.mul_assoc, Z.div_mul, <-Z.mul_assoc, <-Hp, Z.div_mul by lia. done.
  - assert (256 ^ compact_exp t = 256 ^ (compact_exp t - 3) * 2 ^ 24) as Hp.
    { change (2 ^ 24) with (256 ^ 3). rewrite <-Z.pow_add_r by lia. f_equal. lia. }
    pose proof (Z.pow_pos_nonneg 256 (compact_exp t - 3)).
    rewrite Hp, Z.div_mul_cancel_r, Z.mul_assoc, Z.div_mul by lia.
    set (p := 256 ^ (compact_exp t - 3)) in *.
    pose proof (Z.mul_div_le t p). pose proof (Z.mul_succ_div_gt t p). lia.
Qed.

(** Rounding is downwards and loses less than one part in 2^15. *)
Lemma compact_rounds_down t :
  0 < t < 2 ^ 256 →
  0 < CompactToBig (BigToCompact t) ≤ t ∧
  2 ^ 15 * (t - CompactToBig (BigToCompact t)) ≤ CompactToBig (BigToCompact t).
Proof.
  intros Ht. destruct (compact_value_cases t Ht) as [[_ ->]|(He & -> & Hle)]; [lia|].
  pose proof (compact_mant_bounds t). pose proof (Z.pow_pos_nonneg 256 (compact_exp t - 3)).
  nia.
Qed.

Lemma BigToCompact_u32 t : 0 < t < 2 ^ 256 → is_u32 (BigToCompact t).
Proof.
  intros Ht. rewrite BigToCompact_eq by done. unfold is_u32.
  pose proof (compact_exp_256 t Ht). pose proof (compact_mant_bounds t).
  destruct (compact_exp_bounds t); lia.
Qed.

Lemma BigToCompact_idem t :
  0 < t < 2 ^ 256 → BigToCompact (CompactToBig (BigToCompact t)) = BigToCompact t.
Proof.
  intros Ht. destruct (compact_value_cases t Ht) as [[_ ->]|(He & Hv & Hle)]; [done|].
  destruct (compact_rounds_down t Ht) as [Hv' _]. rewrite Hv in *.
  pose proof (compact_mant_bounds t) as Hm.
  set (e := compact_exp t) in *. set (m := compact_mant t) in *.
  pose proof (Z.pow_pos_nonneg 256 (e - 3)).
  assert (256 ^ e = 256 ^ (e - 3) * 2 ^ 24) as Hp.
  { change (2 ^ 24) with (256 ^ 3). rewrite <-Z.pow_add_r by lia. f_equal. lia. }
  assert (compact_exp (m * 256 ^ (e - 3)) = e) as He'.
  { apply compact_exp_unique; [lia..|]. rewrite Hp. nia. }
  rewrite !BigToCompact_eq, He' by lia. unfold compact_mant at 1. rewrite He', Hp.
  rewrite <-Z.mul_assoc, Z.div_mul by nia. done.
Qed.

(** [CompactToHash] is the 32-byte little-endian form of the target. *)
Lemma CompactToHash_eq bits :
  is_u32 bits →
  wf_hash (CompactToHash bits) ∧ le_decode (CompactToHash bits) = CompactToBig bits.
Proof.
  intros Hb. pose proof (CompactToBig_range bits Hb) as Hr. unfold CompactToHash, big_Bytes.
  set (t := CompactToBig bits) in *. set (n := Z.to_nat ((BitLen t + 7) / 8)).
  unfold be_encode. rewrite reverse_involutive, Z.abs_eq by lia.
  assert (n ≤ 32)%nat as Hn.
  { subst n. destruct (decide (t = 0)) as [->|]; [by vm_compute; lia|].
    destruct (BitLen_bounds t) as [Hbl Hbl0]; [lia|].
    assert (BitLen t ≤ 256).
    { destruct (decide (BitLen t ≤ 256)); [done|exfalso].
      assert (2 ^ 256 ≤ 2 ^ (BitLen t - 1)) by (apply Z.pow_le_mono_r; lia). lia. }
    assert ((BitLen t + 7) / 8 < 33) by (apply Z.div_lt_upper_bound; lia). lia. }
  assert (0 ≤ t < 256 ^ Z.of_nat n) as Htn.
  { split; [lia|]. destruct (decide (t = 0)) as [->|]; [apply Z.pow_pos_nonneg; lia|].
    destruct (BitLen_bounds t) as [Hbl Hbl0]; [lia|]. rewrite pow256 by lia.
    apply Z.lt_le_trans with (2 ^ BitLen t); [lia|]. apply Z.pow_le_mono_r; [lia|].
    subst n. pose proof (Z.div_mod (BitLen t + 7) 8).
    pose proof (Z.mod_pos_bound (BitLen t + 7) 8).
    rewrite Z2Nat.id by (apply Z.div_pos; lia). lia. }
  rewrite take_ge by (rewrite le_encode_length; unfold HashSize; lia). split.
  - unfold wf_hash. rewrite length_app, length_replicate, le_encode_length. unfold HashSize. lia.
  - rewrite le_decode_app, le_decode_zeros, le_decode_encode_id by done. lia.
Qed.

(** ** Properties *)

(** Compact encoding of a 256-bit target rounds it down to at most the target,
    stays positive, loses less than 2^-15 of the value, fits 32 bits, and is a
    fixed point: encoding the decoded value gives the same bits. *)
Theorem compact_encoding_correct t :
  0 < t < 2 ^ 256 →
  is_u32 (BigToCompact t) ∧
  0 < CompactToBig (BigToCompact t) ≤ t ∧
  2 ^ 15 * (t - CompactToBig (BigToCompact t)) ≤ CompactToBig (BigToCompact t) ∧
  BigToCompact (CompactToBig (BigToCompact t)) = BigToCompact t.
Proof.
  intros Ht. destruct (compact_rounds_down t Ht). split_and!; try tauto.
  - by apply BigToCompact_u32.
  - by apply BigToCompact_idem.
Qed.

(** The proof-of-work check accepts a hash exactly when, read as a 256-bit
    little-endian integer, it does not exceed the target encoded by the bits;
    it never panics. *)
Theorem ValidateProofOfWork_correct h bits :
  wf_hash h → is_u32 bits →
  ValidateProofOfWork h bits =
    if HashToBig h <=? CompactToBig bits then Ok ()
    else Err (Errorf "block hash exceeds target").
Proof.
  intros Hh Hb. destruct (CompactToHash_eq bits Hb) as [Hw Ht].
  unfold ValidateProofOfWork, HashToBig, be_decode, fail_if. rewrite reverse_involutive.
  rewrite Hash_LessOrEqual_le by done. rewrite Ht. by destruct (_ <=? _).
Qed.

(** Work is antitone in the target: an easier (larger) target never counts for
    more work; the work of a positive target lies between 1 and 2^255 and that
    of a zero target is 0. *)
Theorem CalcWork_antitone bits1 bits2 :
  is_u32 bits1 → is_u32 bits2 → CompactToBig bits1 ≤ CompactToBig bits2 →
  (0 < CompactToBig bits1 → CalcWork bits2 ≤ CalcWork bits1) ∧
  0 ≤ CalcWork bits1 ≤ 2 ^ 255 ∧ (0 < CompactToBig bits1 ↔ 1 ≤ CalcWork bits1).
Proof.
  intros Hb1 Hb2 Hle. pose proof (CompactToBig_range _ Hb1). pose proof (CompactToBig_range _ Hb2).
  unfold CalcWork. destruct (Z.leb_spec (CompactToBig bits1) 0);
    destruct (Z.leb_spec (CompactToBig bits2) 0); split_and!; try lia.
  - intros. apply Z.div_le_compat_l; lia.
  - apply Z.div_pos; lia.
  - apply Z.div_le_upper_bound; lia.
  - split; [|lia]. intros _. apply Z.div_le_lower_bound; lia.
Qed.

(** ** Witnesses *)

Lemma compact_encoding_correct_witness :
  is_u32 (BigToCompact (2 ^ 235 + 12345)) ∧
  0 < CompactToBig (BigToCompact (2 ^ 235 + 12345)) ≤ 2 ^ 235 + 12345 ∧
  2 ^ 15 * (2 ^ 235 + 12345 - CompactToBig (BigToCompact (2 ^ 235 + 12345)))
    ≤ CompactToBig (BigToCompact (2 ^ 235 + 12345)) ∧
  BigToCompact (CompactToBig (BigToCompact (2 ^ 235 + 12345))) =
    BigToCompact (2 ^ 235 + 12345).
Proof. refine (compact_encoding_correct (2 ^ 235 + 12345) _). by_decide. Defined.

Lemma ValidateProofOfWork_correct_witness :
  ValidateProofOfWork (replicate 32 x11) 0x1e7ce359 =
    if HashToBig (replicate 32 x11) <=? CompactToBig 0x1e7ce359 then Ok ()
    else Err (Errorf "block hash exceeds target").
Proof.
  refine (ValidateProofOfWork_correct (replicate 32 x11) 0x1e7ce359 _ _); by_decide.
Defined.

Lemma CalcWork_antitone_witness :
  (0 < CompactToBig 0x1e7ce359 → CalcWork 0x1f7fffff ≤ CalcWork 0x1e7ce359) ∧
  0 ≤ CalcWork 0x1e7ce359 ≤ 2 ^ 255 ∧
  (0 < CompactToBig 0x1e7ce359 ↔ 1 ≤ CalcWork 0x1e7ce359).
Proof. refine (CalcWork_antitone 0x1e7ce359 0x1f7fffff _ _ _); by_decide. Defined.
