(* ===== verification/Merkle.v ===== *)
(** * internal/crypto/merkle.go: merkle roots

    The loop of [MerkleRoot] level by level, its equivalence with the recursive
    tree definition (node at height [h] and position [pos]), the
    last-element-duplication ambiguity of CVE-2012-2459 and the binding
    property that holds for lists without duplicates. *)
From S2P Require Import Prelude Types Sha256.

(** ** The code *)

(** [DoubleSHA256] of the 64 bytes of two hashes. *)
Definition merkle_pair (a b : Hash) : Hash := DoubleSHA256 (a ++ b).

(** [if len(level)%2 != 0 { level = append(level, level[len(level)-1]) }]. *)
Definition merkle_pad (level : list Hash) : list Hash :=
  if Nat.even (length level) then level
  else level ++ match last level with Some h => [h] | None => [] end.

(** The inner loop: hash consecutive pairs. *)
Fixpoint merkle_pairs (level : list Hash) : list Hash :=
  match level with
  | a :: b :: level' => merkle_pair a b :: merkle_pairs level'
  | _ => []
  end.

(** [for len(level) > 1]; a level shrinks to half its size (rounded up), so the
    number of hashes bounds the number of iterations. *)
Fixpoint merkle_loop (fuel : nat) (level : list Hash) : list Hash :=
  match fuel with
  | O => level
  | S fuel' =>
      if decide (1 < length level)%nat
      then merkle_loop fuel' (merkle_pairs (merkle_pad level))
      else level
  end.

Definition MerkleRoot (hashes : list Hash) : Hash :=
  match hashes with
  | [] => ZeroHash
  | _ => hd ZeroHash (merkle_loop (length hashes) hashes)
  end.

Definition ComputeMerkleRoot (txs : list Transaction) : Hash :=
  match txs with
  | [] => ZeroHash
  | _ => MerkleRoot (HashTransaction <$> txs)
  end.

(** ** One level at a time *)

(** The effect of padding and pairing, in one function. *)
Fixpoint merkle_step (level : list Hash) : list Hash :=
  match level with
  | [] => []
  | [a] => [merkle_pair a a]
  | a :: b :: level' => merkle_pair a b :: merkle_step level'
  end.

(** Induction on lists two elements at a time. *)
Lemma list_pair_ind {A} (P : list A → Prop) :
  P [] → (∀ a, P [a]) → (∀ a b l, P l → P (a :: b :: l)) → ∀ l, P l.
Proof.
  intros H0 H1 H2 l. cut (P l ∧ ∀ a, P (a :: l)); [tauto|].
  induction l as [|a l [IH IH']]; auto.
Qed.

Lemma merkle_pairs_pad level : merkle_pairs (merkle_pad level) = merkle_step level.
Proof.
  unfold merkle_pad. induction level as [|a|a b level IH] using list_pair_ind; [done..|].
  replace (Nat.even (length (a :: b :: level))) with (Nat.even (length level)) by done.
  cbn [merkle_step]. rewrite <-IH. destruct (Nat.even (length level)) eqn:E; [done|].
  destruct level; done.
Qed.

Lemma merkle_step_length level : length (merkle_step level) = ((length level + 1) / 2)%nat.
Proof.
  induction level as [|a|a b level IH] using list_pair_ind; [done..|].
  cbn [merkle_step length]. rewrite IH.
  replace (S (S (length level)) + 1)%nat with (1 * 2 + (length level + 1))%nat by lia.
  by rewrite Nat.div_add_l by lia.
Qed.

(** Every iteration of the loop shrinks the level. *)
Lemma merkle_step_shrinks level n :
  (1 < length level)%nat → (length level ≤ S n)%nat → (length (merkle_step level) ≤ n)%nat.
Proof.
  intros. rewrite merkle_step_length.
  assert ((length level + 1) / 2 < S n)%nat; [|lia].
  apply Nat.Div0.div_lt_upper_bound. lia.
Qed.

(** Position [i] of the next level, from positions [2i] and [2i+1]. *)
Lemma merkle_step_lookup level i a :
  level !! (2 * i)%nat = Some a →
  merkle_step level !! i = Some (merkle_pair a (default a (level !! (2 * i + 1)%nat))).
Proof.
  revert i. induction level as [|x|x y level IH] using list_pair_ind; intros i Ha; [done|..].
  - destruct i; [|done]. by injection Ha as ->.
  - destruct i as [|i]; [by injection Ha as ->|].
    replace (2 * S i)%nat with (S (S (2 * i)))%nat in * by lia.
    replace (S (S (2 * i)) + 1)%nat with (S (S (2 * i + 1))) by lia.
    simpl in *. by apply IH.
Qed.

(** The loop ends with a single hash. *)
Lemma merkle_loop_length fuel level :
  level ≠ [] → (length level ≤ fuel)%nat → length (merkle_loop fuel level) = 1%nat.
Proof.
  revert level. induction fuel as [|fuel IH]; intros level Hne Hf.
  { destruct level; simpl in *; [done|lia]. }
  cbn [merkle_loop]. case_decide as Hl.
  - rewrite merkle_pairs_pad. apply IH.
    + by destruct level as [|a [|b level]].
    + by apply merkle_step_shrinks.
  - destruct level; simpl in *; [done|lia].
Qed.

(** More fuel than hashes makes no difference. *)
Lemma merkle_loop_fuel fuel1 fuel2 level :
  (length level ≤ fuel1)%nat → (length level ≤ fuel2)%nat →
  merkle_loop fuel1 level = merkle_loop fuel2 level.
Proof.
  revert fuel2 level. induction fuel1 as [|fuel1 IH]; intros fuel2 level H1 H2.
  { destruct level; [|simpl in *; lia]. by destruct fuel2. }
  destruct fuel2 as [|fuel2]; [destruct level; [done|simpl in *; lia]|].
  cbn [merkle_loop]. case_decide as Hl; [|done]. rewrite merkle_pairs_pad.
  by apply IH; apply merkle_step_shrinks.
Qed.

Lemma merkle_loop_unfold fuel level :
  (1 < length level)%nat →
  merkle_loop (S fuel) level = merkle_loop fuel (merkle_step level).
Proof. intros. cbn [merkle_loop]. by rewrite decide_True, merkle_pairs_pad. Qed.

(** One unfolding of the root computation. *)
Lemma MerkleRoot_step level :
  (1 < length level)%nat → MerkleRoot level = MerkleRoot (merkle_step level).
Proof.
  intros Hl. destruct level as [|a [|b level]]; [simpl in *; lia..|].
  remember (a :: b :: level) as l eqn:El.
  assert (MerkleRoot l = hd ZeroHash (merkle_loop (length l) l)) as -> by by subst.
  assert (MerkleRoot (merkle_step l) =
          hd ZeroHash (merkle_loop (length (merkle_step l)) (merkle_step l))) as -> by by subst.
  replace (length l) with (S (S (length level))) by by subst.
  rewrite merkle_loop_unfold by done.
  rewrite (merkle_loop_fuel _ (length (merkle_step l))); [done| |done].
  apply merkle_step_shrinks; subst; simpl; lia.
Qed.

(** ** The tree definition *)

(** The node of the merkle tree at height [h] and position [pos] over the leaves:
    a missing right child is replaced by the left one. *)
Fixpoint merkle_node (leaves : list Hash) (h pos : nat) : option Hash :=
  match h with
  | O => leaves !! pos
  | S h' =>
      match merkle_node leaves h' (2 * pos) with
      | None => None
      | Some l => Some (merkle_pair l (default l (merkle_node leaves h' (2 * pos + 1))))
      end
  end.

(** The height of the root. *)
Definition merkle_height (leaves : list Hash) : nat := Nat.log2_up (length leaves).

Lemma merkle_step_lookup_None level i :
  level !! (2 * i)%nat = None → merkle_step level !! i = None.
Proof.
  intros H%lookup_ge_None_1. apply lookup_ge_None_2. rewrite merkle_step_length.
  assert ((length level + 1) / 2 < S i)%nat; [|lia].
  apply Nat.Div0.div_lt_upper_bound. lia.
Qed.

(** Raising the leaves by one level lowers the node height by one. *)
Lemma merkle_node_step leaves h pos :
  merkle_node leaves (S h) pos = merkle_node (merkle_step leaves) h pos.
Proof.
  revert pos. induction h as [|h IH]; intros pos.
  - cbn [merkle_node]. destruct (leaves !! (2 * pos)%nat) as [a|] eqn:E.
    + by rewrite (merkle_step_lookup _ _ _ E).
    + by rewrite merkle_step_lookup_None.
  - cbn [merkle_node] in *. by rewrite !IH.
Qed.

Lemma log2_up_half n : (1 < n)%nat → Nat.log2_up n = S (Nat.log2_up ((n + 1) / 2)).
Proof.
  intros Hn. pose proof (Nat.log2_up_spec n Hn) as Hs.
  pose proof (Nat.log2_up_pos n Hn).
  destruct (Nat.log2_up n) as [|d]; [lia|]. f_equal. symmetry. simpl in Hs.
  assert (2 ^ d < n ≤ 2 * 2 ^ d)%nat as Hb by lia.
  assert ((n + 1) / 2 < S (2 ^ d))%nat by (apply Nat.Div0.div_lt_upper_bound; lia).
  destruct d as [|d].
  - simpl in *. assert (n = 2%nat) as -> by lia. done.
  - apply Nat.log2_up_unique; [lia|]. split; [|lia]. cbn [Nat.pred].
    rewrite Nat.pow_succ_r' in *. apply Nat.div_le_lower_bound; lia.
Qed.

Lemma merkle_height_step leaves :
  (1 < length leaves)%nat → merkle_height leaves = S (merkle_height (merkle_step leaves)).
Proof. intros. unfold merkle_height. by rewrite merkle_step_length, log2_up_half. Qed.

(** *** Collisions *)

(** The strings hashed to compute a level and all levels above it. *)
Fixpoint merkle_inputs_level (level : list Hash) : list (list byte) :=
  match level with
  | [] => []
  | [a] => [a ++ a]
  | a :: b :: level' => (a ++ b) :: merkle_inputs_level level'
  end.

Fixpoint merkle_inputs (fuel : nat) (level : list Hash) : list (list byte) :=
  match fuel with
  | O => []
  | S fuel' =>
      if decide (1 < length level)%nat
      then merkle_inputs_level level ++ merkle_inputs fuel' (merkle_step level)
      else []
  end.

(** [DoubleSHA256] is injective on the given strings. *)
Definition collision_free (xs : list (list byte)) : Prop :=
  Forall (λ x, Forall (λ y, DoubleSHA256 x = DoubleSHA256 y → x = y) xs) xs.

#[export] Instance collision_free_dec xs : Decision (collision_free xs).
Proof. unfold collision_free. apply _. Defined.

Lemma collision_free_inj xs x y :
  collision_free xs → x ∈ xs → y ∈ xs → DoubleSHA256 x = DoubleSHA256 y → x = y.
Proof.
  unfold collision_free. rewrite Forall_forall. intros H Hx Hy.
  specialize (H x Hx). rewrite Forall_forall in H. auto.
Qed.

Lemma merkle_step_wf level : Forall wf_hash (merkle_step level).
Proof.
  induction level as [|a|a b level IH] using list_pair_ind; simpl;
    repeat constructor; auto; apply DoubleSHA256_wf.
Qed.

(** A root over 32-byte hashes has 32 bytes. *)
Lemma MerkleRoot_wf hs : Forall wf_hash hs → wf_hash (MerkleRoot hs).
Proof.
  intros Hhs. assert (Hloop : ∀ fuel l, Forall wf_hash l → wf_hash (hd ZeroHash (merkle_loop fuel l))).
  { induction fuel as [|fuel IH]; intros l Hl; cbn [merkle_loop]; [|case_decide; [|]].
    - destruct Hl; [by vm_compute|done].
    - rewrite merkle_pairs_pad. apply IH, merkle_step_wf.
    - destruct Hl; [by vm_compute|done]. }
  destruct hs; [by vm_compute|]. by apply Hloop.
Qed.

Section binding.
(** The strings hashed by either computation. *)
Context (xs : list (list byte)) (Hcf : collision_free xs).

Lemma merkle_step_elem level h :
  h ∈ merkle_step level → ∃ x, x ∈ merkle_inputs_level level ∧ h = DoubleSHA256 x.
Proof.
  induction level as [|a|a b level IH] using list_pair_ind; simpl.
  - by intros ?%not_elem_of_nil.
  - intros ->%list_elem_of_singleton. eexists; split; [by left|done].
  - intros [->|Hh]%elem_of_cons; [eexists; split; [by left|done]|].
    destruct (IH Hh) as (x & Hx & ->). exists x. split; [by right|done].
Qed.

Lemma pair_inj (a b a' b' : Hash) :
  wf_hash a → wf_hash a' → a ++ b = a' ++ b' → a = a' ∧ b = b'.
Proof. intros Ha Ha' H. by apply app_inj_1 in H; [|rewrite Ha, Ha']. Qed.

(** The first component of a hashed pair comes from the level. *)
Lemma merkle_inputs_level_elem level x :
  x ∈ merkle_inputs_level level → ∃ a b, x = a ++ b ∧ a ∈ level ∧ b ∈ level.
Proof.
  induction level as [|a|a b level IH] using list_pair_ind; simpl.
  - by intros ?%not_elem_of_nil.
  - intros ->%list_elem_of_singleton. exists a, a. set_solver.
  - intros [->|Hx]%elem_of_cons; [exists a, b; set_solver|].
    destruct (IH Hx) as (c & d & -> & ? & ?). exists c, d. set_solver.
Qed.

(** A level of distinct hashes is followed by a level of distinct hashes. *)
Lemma merkle_step_NoDup level :
  Forall wf_hash level → NoDup level → merkle_inputs_level level ⊆ xs →
  NoDup (merkle_step level).
Proof.
  induction level as [|a|a b level IH] using list_pair_ind; simpl;
    intros Hwf Hnd Hsub; [constructor|apply NoDup_singleton|].
  inversion Hwf as [|? ? Ha Hwf']; inversion Hwf' as [|? ? Hb Hwf'']; subst.
  apply NoDup_cons in Hnd as [Hna Hnd]. apply NoDup_cons in Hnd as [Hnb Hnd].
  constructor; [|apply IH; set_solver].
  intros (x & Hx & Heq)%merkle_step_elem.
  assert (a ++ b = x) as <- by (eapply collision_free_inj; [done|set_solver..|done]).
  apply merkle_inputs_level_elem in Hx as (c & d & Hcd & Hc & Hd).
  rewrite Forall_forall in Hwf''.
  apply pair_inj in Hcd as [-> ->]; [set_solver|done|by apply Hwf''].
Qed.

(** Levels of distinct hashes with the same successor are equal. *)
Lemma merkle_step_inj l1 l2 :
  Forall wf_hash l1 → Forall wf_hash l2 → NoDup l1 → NoDup l2 →
  merkle_inputs_level l1 ⊆ xs → merkle_inputs_level l2 ⊆ xs →
  merkle_step l1 = merkle_step l2 → l1 = l2.
Proof.
  revert l2. induction l1 as [|a|a b l1 IH] using list_pair_ind; intros l2 W1 W2 N1 N2 S1 S2 H.
  - by destruct l2 as [|? [|]].
  - destruct l2 as [|a' [|b' l2]]; [done|..]; simpl in *; simplify_list_eq.
    + assert (a ++ a = a' ++ a') as E
        by (eapply collision_free_inj; [done|set_solver..|done]).
      apply pair_inj in E as [-> _]; [done|by inversion W1|by inversion W2].
    + exfalso. assert (a ++ a = a' ++ b') as E
        by (eapply collision_free_inj; [done|set_solver..|done]).
      apply pair_inj in E as [-> ->]; [|by inversion W1|by inversion W2].
      apply NoDup_cons in N2 as [N2 _]. set_solver.
  - destruct l2 as [|a' [|b' l2]]; [done|..]; simpl in *; simplify_list_eq.
    + exfalso. assert (a ++ b = a' ++ a') as E
        by (eapply collision_free_inj; [done|set_solver..|done]).
      apply pair_inj in E as [-> ->]; [|by inversion W1|by inversion W2].
      apply NoDup_cons in N1 as [N1 _]. set_solver.
    + assert (a ++ b = a' ++ b') as E
        by (eapply collision_free_inj; [done|set_solver..|done]).
      apply pair_inj in E as [-> ->]; [|by inversion W1|by inversion W2].
      do 2 f_equal. apply NoDup_cons in N1 as [_ [_ N1]%NoDup_cons].
      apply NoDup_cons in N2 as [_ [_ N2]%NoDup_cons].
      apply IH; try done; try set_solver.
      * by inversion W1 as [|? ? ? [|]].
      * by inversion W2 as [|? ? ? [|]].
Qed.
End binding.

Lemma merkle_step_not_nil level : level ≠ [] → merkle_step level ≠ [].
Proof. by destruct level as [|a [|b level]]. Qed.

Lemma merkle_binding xs d l1 l2 :
  collision_free xs → merkle_height l1 = d → merkle_height l2 = d → l1 ≠ [] → l2 ≠ [] →
  Forall wf_hash l1 → Forall wf_hash l2 → NoDup l1 → NoDup l2 →
  merkle_inputs (length l1) l1 ⊆ xs → merkle_inputs (length l2) l2 ⊆ xs →
  MerkleRoot l1 = MerkleRoot l2 → l1 = l2.
Proof.
  intros Hcf. revert l1 l2.
  assert (∀ l, merkle_height l = O → l ≠ [] → ∃ a, l = [a]) as Hz.
  { intros [|a [|b l]] H; [done|by exists a|].
    rewrite merkle_height_step in H by (simpl; lia). done. }
  assert (∀ l k, merkle_height l = S k → (1 < length l)%nat) as Hs.
  { intros [|a [|b l]] k H; [done..|simpl; lia]. }
  assert (∀ f1 f2 l, (length l ≤ f1)%nat → (length l ≤ f2)%nat →
            merkle_inputs f1 l = merkle_inputs f2 l) as Hfuel.
  { induction f1 as [|f1 IH]; intros [|f2] l H1 H2; simpl; try done.
    - case_decide; [lia|done].
    - case_decide; [lia|done].
    - case_decide; [|done]. f_equal. by apply IH; apply merkle_step_shrinks. }
  assert (∀ l, (1 < length l)%nat → merkle_inputs (length l) l ⊆ xs →
            merkle_inputs_level l ⊆ xs ∧
            merkle_inputs (length (merkle_step l)) (merkle_step l) ⊆ xs) as Hsub.
  { intros l Hl H. destruct (length l) as [|n] eqn:El; [lia|]. cbn [merkle_inputs] in H.
    rewrite decide_True in H by lia. split; [set_solver|].
    rewrite (Hfuel _ n); [set_solver|done|]. apply merkle_step_shrinks; lia. }
  induction d as [|d IH]; intros l1 l2 D1 D2 E1 E2 W1 W2 N1 N2 S1 S2 HR.
  - destruct (Hz l1 D1 E1) as [a ->]. destruct (Hz l2 D2 E2) as [b ->].
    simpl in HR. by subst.
  - pose proof (Hs _ _ D1) as L1. pose proof (Hs _ _ D2) as L2.
    destruct (Hsub l1 L1 S1) as [A1 B1]. destruct (Hsub l2 L2 S2) as [A2 B2].
    rewrite MerkleRoot_step in HR by done. rewrite (MerkleRoot_step l2) in HR by done.
    rewrite merkle_height_step in D1, D2 by done.
    apply (merkle_step_inj xs); try done.
    apply IH; auto using merkle_step_wf, merkle_step_not_nil.
    + by eapply merkle_step_NoDup.
    + by eapply merkle_step_NoDup.
Qed.

(** ** Properties *)

(** The level-by-level loop computes the root of the merkle tree in which a
    node without right child is paired with itself: [MerkleRoot] of a non-empty
    list is the node at the tree's height and position 0.  In particular the
    loop ends with exactly one hash. *)
Theorem MerkleRoot_is_tree_root leaves :
  leaves ≠ [] →
  merkle_node leaves (merkle_height leaves) 0 = Some (MerkleRoot leaves) ∧
  length (merkle_loop (length leaves) leaves) = 1%nat.
Proof.
  intros Hne. split; [|by apply merkle_loop_length].
  remember (merkle_height leaves) as d eqn:Hd. revert leaves Hd Hne.
  induction d as [|d IH]; intros leaves Hd Hne.
  - destruct leaves as [|a [|b leaves]]; [done..|].
    rewrite merkle_height_step in Hd by (simpl; lia). done.
  - assert (1 < length leaves)%nat as Hl by (destruct leaves as [|a [|]]; simpl in *; done || lia).
    rewrite merkle_height_step in Hd by done. injection Hd as Hd.
    rewrite merkle_node_step, (MerkleRoot_step leaves) by done.
    apply IH; [done|by apply merkle_step_not_nil].
Qed.

(** CVE-2012-2459: appending a copy of the last hash to a list of odd length
    above one does not change the merkle root. *)
Theorem MerkleRoot_duplicate_last l h :
  Nat.odd (length (l ++ [h])) = true → l ≠ [] →
  MerkleRoot (l ++ [h; h]) = MerkleRoot (l ++ [h]).
Proof.
  intros Hodd Hne. rewrite (MerkleRoot_step (l ++ [h; h])), (MerkleRoot_step (l ++ [h])).
  2, 3: rewrite length_app; simpl; destruct l; simpl in *; done || lia.
  f_equal. rewrite <-!merkle_pairs_pad. unfold merkle_pad.
  rewrite last_snoc.
  assert (Nat.even (length (l ++ [h])) = false) as -> by by rewrite <-Nat.negb_odd, Hodd.
  replace (l ++ [h; h]) with ((l ++ [h]) ++ [h]) by by rewrite <-app_assoc.
  assert (Nat.even (length ((l ++ [h]) ++ [h])) = true) as ->; [|done].
  rewrite length_app, Nat.add_1_r, Nat.even_succ. exact Hodd.
Qed.

(** Binding: two lists of distinct transaction hashes of the same tree height
    and with the same root are equal, unless the two computations hash two
    different strings to the same value.  So once duplicates are rejected the
    ambiguity of CVE-2012-2459 is gone. *)
Theorem MerkleRoot_binding l1 l2 :
  l1 ≠ [] → l2 ≠ [] → Forall wf_hash l1 → Forall wf_hash l2 → NoDup l1 → NoDup l2 →
  merkle_height l1 = merkle_height l2 →
  collision_free (merkle_inputs (length l1) l1 ++ merkle_inputs (length l2) l2) →
  MerkleRoot l1 = MerkleRoot l2 → l1 = l2.
Proof.
  intros. eapply merkle_binding; try done; set_solver.
Qed.

(** ** Witnesses *)

Definition h_ (b : byte) : Hash := replicate 32 b.

Lemma MerkleRoot_is_tree_root_witness :
  merkle_node [h_ x01; h_ x02; h_ x03] (merkle_height [h_ x01; h_ x02; h_ x03]) 0
    = Some (MerkleRoot [h_ x01; h_ x02; h_ x03]) ∧
  length (merkle_loop (length [h_ x01; h_ x02; h_ x03]) [h_ x01; h_ x02; h_ x03]) = 1%nat.
Proof. refine (MerkleRoot_is_tree_root [h_ x01; h_ x02; h_ x03] _). discriminate. Defined.

Lemma MerkleRoot_duplicate_last_witness :
  MerkleRoot ([h_ x01; h_ x02] ++ [h_ x03; h_ x03]) = MerkleRoot ([h_ x01; h_ x02] ++ [h_ x03]).
Proof.
  refine (MerkleRoot_duplicate_last [h_ x01; h_ x02] (h_ x03) _ _);
    [reflexivity|discriminate].
Defined.

Lemma MerkleRoot_binding_witness : [h_ x01; h_ x02] = [h_ x01; h_ x02].
Proof.
  refine (MerkleRoot_binding [h_ x01; h_ x02] [h_ x01; h_ x02]
            _ _ _ _ _ _ eq_refl _ eq_refl); [discriminate|discriminate|by_decide..].
Defined.
