(* ===== verification/Params.v ===== *)
(** * internal/params: chain parameters, networks, subsidy and genesis

    Models params.go, networks.go and genesis.go.  A [time.Duration] is its
    number of nanoseconds; [seconds d] is [int64(d / time.Second)]. *)
From S2P Require Import Prelude Types Sha256 Merkle.

Definition time_Second : Z := 1000000000.
Definition time_Minute : Z := 60 * time_Second.
Definition time_Hour : Z := 60 * time_Minute.

(** Go integer division truncates towards zero. *)
Definition seconds (d : Z) : Z := Z.quot d time_Second.

(** ** ChainParams (params.go) *)

Record ChainParams : Type := mkChainParams {
  p_Name : string;
  p_DataDirName : string;
  p_NetworkMagic : list byte;
  p_DefaultPort : Z;
  p_AddressPrefix : byte;
  p_GenesisBlock : Block;
  p_GenesisHash : Hash;
  p_TargetBlockSpacing : Z;
  p_RetargetInterval : Z;
  p_TargetTimespan : Z;
  p_MaxTimeFutureDrift : Z;
  p_MinTimestampRule : string;
  p_InitialBits : Z;
  p_MinBits : Z;
  p_NoRetarget : bool;
  p_AllowMinDifficultyBlocks : bool;
  p_MaxBlockSize : Z;
  p_MaxBlockTxCount : Z;
  p_InitialSubsidy : Z;
  p_SubsidyHalvingInterval : Z;
  p_CoinbaseMaturity : Z;
  p_MaxReorgDepth : Z;
  p_MaxMempoolSize : Z;
  p_MinRelayTxFee : Z;
  p_MinRelayTxFeeRate : Z;
  p_MempoolExpiry : Z;
  p_SeedNodes : list string;
  p_ActivationHeights : gmap string Z
}.

Definition CalcSubsidy (p : ChainParams) (height : Z) : Z :=
  if p_SubsidyHalvingInterval p =? 0 then p_InitialSubsidy p
  else
    let halvings := height / p_SubsidyHalvingInterval p in
    if 64 <=? halvings then 0
    else Z.shiftr (p_InitialSubsidy p) halvings.

(** ** Constants (networks.go) *)

Definition MaxMoneyValue : Z := 2099999997690000.
Definition MaxTxSize : Z := 100000.
Definition TestnetPremineAmount : Z := MaxMoneyValue / 5.
Definition TestnetBurnScript : list byte :=
  String.list_byte_of_string "burn:testnet:premine:v1".

(** ** Genesis blocks (genesis.go) *)

Record GenesisConfig : Type := mkGenesisConfig {
  g_NetworkName : string;
  g_CoinbaseMessage : list byte;
  g_Timestamp : Z;
  g_Bits : Z;
  g_Version : Z;
  g_Reward : Z;
  g_RewardScript : list byte;
  g_ExtraOutputs : list TxOutput
}.

Definition BuildGenesisBlock (cfg : GenesisConfig) : Block :=
  let outputs := mkTxOutput (g_Reward cfg) (g_RewardScript cfg) :: g_ExtraOutputs cfg in
  let coinbaseTx :=
    mkTransaction 1
      [mkTxInput CoinbaseOutPoint (g_CoinbaseMessage cfg) 0xFFFFFFFF] outputs 0 in
  mkBlock (mkBlockHeader (g_Version cfg) ZeroHash ZeroHash (g_Timestamp cfg) (g_Bits cfg) 0)
    [coinbaseTx].

(** [InitGenesis] installs a mined genesis block. *)
Definition InitGenesis (p : ChainParams) (genesisBlock : Block) (genesisHash : Hash)
    : ChainParams :=
  {| p_Name := p_Name p; p_DataDirName := p_DataDirName p;
     p_NetworkMagic := p_NetworkMagic p; p_DefaultPort := p_DefaultPort p;
     p_AddressPrefix := p_AddressPrefix p;
     p_GenesisBlock := genesisBlock; p_GenesisHash := genesisHash;
     p_TargetBlockSpacing := p_TargetBlockSpacing p;
     p_RetargetInterval := p_RetargetInterval p;
     p_TargetTimespan := p_TargetTimespan p;
     p_MaxTimeFutureDrift := p_MaxTimeFutureDrift p;
     p_MinTimestampRule := p_MinTimestampRule p;
     p_InitialBits := p_InitialBits p; p_MinBits := p_MinBits p;
     p_NoRetarget := p_NoRetarget p;
     p_AllowMinDifficultyBlocks := p_AllowMinDifficultyBlocks p;
     p_MaxBlockSize := p_MaxBlockSize p; p_MaxBlockTxCount := p_MaxBlockTxCount p;
     p_InitialSubsidy := p_InitialSubsidy p;
     p_SubsidyHalvingInterval := p_SubsidyHalvingInterval p;
     p_CoinbaseMaturity := p_CoinbaseMaturity p; p_MaxReorgDepth := p_MaxReorgDepth p;
     p_MaxMempoolSize := p_MaxMempoolSize p; p_MinRelayTxFee := p_MinRelayTxFee p;
     p_MinRelayTxFeeRate := p_MinRelayTxFeeRate p; p_MempoolExpiry := p_MempoolExpiry p;
     p_SeedNodes := p_SeedNodes p; p_ActivationHeights := p_ActivationHeights p |}.

(** ** Networks (networks.go) *)

Definition genesis_message : list byte := String.list_byte_of_string "fairchain genesis".

Definition Mainnet : ChainParams :=
  {| p_Name := "mainnet";
     p_DataDirName := EmptyString;
     p_NetworkMagic := [xfa; x1c; xc0; x01];
     p_DefaultPort := 19333;
     p_AddressPrefix := x00;
     p_GenesisBlock :=
       mkBlock
         (mkBlockHeader 1 ZeroHash
            [xc6; xea; x1e; x0a; x6d; xea; x9b; x63; x63; xfa; x0d; xf0; xa0; x54; xf8; xbd;
             x59; x76; x65; xb8; x8c; x2c; x23; x59; x67; x21; xf4; x25; x2d; x06; xd5; x2f]
            1774175035 0x1e7ce359 2147491670)
         [mkTransaction 1 [mkTxInput CoinbaseOutPoint genesis_message 0xFFFFFFFF]
            [mkTxOutput 5000000000 [x00]] 0];
     p_GenesisHash :=
       [x56; xcf; xa4; x23; x98; xd0; x26; xb0; xe0; x7a; x27; x21; xc0; xe4; xbd; x9d;
        xe4; xdf; xfb; x52; x32; x62; xb1; x16; xcb; xa4; x5c; x3d; x5f; x67; x66; xed];
     p_TargetBlockSpacing := 10 * time_Minute;
     p_RetargetInterval := 144;
     p_TargetTimespan := 144 * 10 * time_Minute;
     p_MaxTimeFutureDrift := 2 * time_Hour;
     p_MinTimestampRule := "median-11";
     p_InitialBits := 0x1e7ce359;
     p_MinBits := 0x1f7fffff;
     p_NoRetarget := false;
     p_AllowMinDifficultyBlocks := false;
     p_MaxBlockSize := 1000000;
     p_MaxBlockTxCount := 10000;
     p_InitialSubsidy := 5000000000;
     p_SubsidyHalvingInterval := 210000;
     p_CoinbaseMaturity := 100;
     p_MaxReorgDepth := 288;
     p_MaxMempoolSize := 5000;
     p_MinRelayTxFee := 1000;
     p_MinRelayTxFeeRate := 1;
     p_MempoolExpiry := 336 * time_Hour;
     p_SeedNodes := ["45.32.196.26:19333"%string; "149.28.248.117:19333"%string;
                     "78.141.227.33:19333"%string; "45.63.16.42:19333"%string];
     p_ActivationHeights := {["locktime"%string := 1]} |}.

Definition Testnet : ChainParams :=
  {| p_Name := "testnet";
     p_DataDirName := "testnet0";
     p_NetworkMagic := [xfa; x1c; xc0; x02];
     p_DefaultPort := 19334;
     p_AddressPrefix := x6f;
     p_GenesisBlock :=
       mkBlock
         (mkBlockHeader 1 ZeroHash
            [x6a; xde; x73; x5c; xa4; x68; xa0; x80; x82; x9c; x27; x77; x5c; x87; x65; x99;
             x96; x8d; xfb; x47; xc3; xa4; xa7; xbf; xb3; x83; x0e; x8e; x0c; xe3; xdf; x29]
            1774176069 0x2000ea44 268435471)
         [mkTransaction 1 [mkTxInput CoinbaseOutPoint genesis_message 0xFFFFFFFF]
            [mkTxOutput 50000000 [x00]; mkTxOutput TestnetPremineAmount TestnetBurnScript] 0];
     p_GenesisHash :=
       [x73; xa3; xdb; x21; xb3; x51; xdc; xf3; x5d; x35; x1b; xc7; x37; x5e; xcb; xc8;
        xb0; x68; x8a; xfb; x71; xea; x45; x1e; xc5; x11; x59; x7c; x95; x71; x8f; x2a];
     p_TargetBlockSpacing := 5 * time_Second;
     p_RetargetInterval := 20;
     p_TargetTimespan := 20 * 5 * time_Second;
     p_MaxTimeFutureDrift := 2 * time_Minute;
     p_MinTimestampRule := "median-11";
     p_InitialBits := 0x2000ea44;
     p_MinBits := 0x207fffff;
     p_NoRetarget := false;
     p_AllowMinDifficultyBlocks := true;
     p_MaxBlockSize := 2000000;
     p_MaxBlockTxCount := 10000;
     p_InitialSubsidy := 50000000;
     p_SubsidyHalvingInterval := 21000000;
     p_CoinbaseMaturity := 10;
     p_MaxReorgDepth := 1000;
     p_MaxMempoolSize := 5000;
     p_MinRelayTxFee := 100;
     p_MinRelayTxFeeRate := 1;
     p_MempoolExpiry := 336 * time_Hour;
     p_SeedNodes := ["95.179.203.47:19334"%string; "207.246.117.14:19334"%string];
     p_ActivationHeights := {["locktime"%string := 1; "mindiffblocks"%string := 15000]} |}.

(** The zero value of [types.Block]: regtest sets its genesis at start-up. *)
Definition zero_Block : Block := mkBlock (mkBlockHeader 0 ZeroHash ZeroHash 0 0 0) [].

Definition Regtest : ChainParams :=
  {| p_Name := "regtest";
     p_DataDirName := "regtest";
     p_NetworkMagic := [xfa; x1c; xc0; xff];
     p_DefaultPort := 19444;
     p_AddressPrefix := x6f;
     p_GenesisBlock := zero_Block;
     p_GenesisHash := ZeroHash;
     p_TargetBlockSpacing := 1 * time_Second;
     p_RetargetInterval := 1;
     p_TargetTimespan := 1 * time_Second;
     p_MaxTimeFutureDrift := 10 * time_Minute;
     p_MinTimestampRule := "prev+1";
     p_InitialBits := 0x207fffff;
     p_MinBits := 0x207fffff;
     p_NoRetarget := true;
     p_AllowMinDifficultyBlocks := false;
     p_MaxBlockSize := 4000000;
     p_MaxBlockTxCount := 50000;
     p_InitialSubsidy := 5000000000;
     p_SubsidyHalvingInterval := 150;
     p_CoinbaseMaturity := 1;
     p_MaxReorgDepth := 0;
     p_MaxMempoolSize := 10000;
     p_MinRelayTxFee := 0;
     p_MinRelayTxFeeRate := 0;
     p_MempoolExpiry := 1 * time_Hour;
     p_SeedNodes := [];
     p_ActivationHeights := {["locktime"%string := 1]} |}.

Definition NetworkByName (name : string) : option ChainParams :=
  if bool_decide (name = "mainnet"%string) then Some Mainnet
  else if bool_decide (name = "testnet"%string) then Some Testnet
  else if bool_decide (name = "regtest"%string) then Some Regtest
  else None.

(** ** Subsidy *)

(** Sum of the subsidies of the first [n] heights. *)
Fixpoint total_issued (p : ChainParams) (n : nat) : Z :=
  match n with
  | O => 0
  | S n' => total_issued p n' + CalcSubsidy p (Z.of_nat n')
  end.

(** Sum of the subsidies of the first [k] eras, per height of an era. *)
Fixpoint era_sum (s : Z) (k : nat) : Z :=
  match k with
  | O => 0
  | S k' => era_sum s k' + Z.shiftr s (Z.of_nat k')
  end.

Lemma CalcSubsidy_range p h :
  0 ≤ p_InitialSubsidy p → 0 ≤ h → 0 ≤ p_SubsidyHalvingInterval p →
  0 ≤ CalcSubsidy p h ≤ p_InitialSubsidy p.
Proof.
  intros Hs Hh Hi. unfold CalcSubsidy. destruct (Z.eqb_spec (p_SubsidyHalvingInterval p) 0); [lia|].
  destruct (Z.leb_spec 64 (h / p_SubsidyHalvingInterval p)); [lia|].
  assert (0 ≤ h / p_SubsidyHalvingInterval p) by (apply Z.div_pos; lia).
  rewrite Z.shiftr_div_pow2 by done. pose proof (Z.pow_pos_nonneg 2 (h / p_SubsidyHalvingInterval p)).
  split; [apply Z.div_pos; lia|]. apply Z.div_le_upper_bound; nia.
Qed.

(** The issue up to height [n]: whole eras, and a part of the current one. *)
Lemma total_issued_eras p n :
  0 ≤ p_InitialSubsidy p → 0 < p_SubsidyHalvingInterval p →
  let i := p_SubsidyHalvingInterval p in
  let k := Z.to_nat (Z.of_nat n / i) in
  (k < 64)%nat →
  total_issued p n = i * era_sum (p_InitialSubsidy p) k +
                     (Z.of_nat n mod i) * Z.shiftr (p_InitialSubsidy p) (Z.of_nat k).
Proof.
  intros Hs Hi i k Hk. subst k. fold i in Hi. revert Hk.
  induction n as [|n IH]; intros Hk.
  { rewrite Z.div_0_l, Z.mod_0_l by lia. simpl. lia. }
  assert (0 ≤ Z.of_nat n / i) by (apply Z.div_pos; lia).
  assert (Z.of_nat n / i ≤ Z.of_nat (S n) / i) by (apply Z.div_le_mono; lia).
  cbn [total_issued]. rewrite IH by lia. unfold CalcSubsidy. fold i.
  rewrite (proj2 (Z.eqb_neq i 0)), (proj2 (Z.leb_gt _ _)) by lia.
  rewrite Z2Nat.id by done. pose proof (Z_div_mod_eq_full (Z.of_nat n) i).
  pose proof (Z.mod_pos_bound (Z.of_nat n) i Hi).
  destruct (decide (Z.of_nat n mod i = i - 1)) as [Hm|Hm].
  - assert (Z.of_nat (S n) / i = Z.of_nat n / i + 1) as ->
      by (symmetry; apply Z.div_unique with 0; lia).
    assert (Z.of_nat (S n) mod i = 0) as ->
      by (symmetry; apply Z.mod_unique with (Z.of_nat n / i + 1); lia).
    rewrite Z2Nat.inj_add by lia. rewrite Nat.add_1_r. cbn [era_sum].
    rewrite Z2Nat.id, Hm by done. lia.
  - assert (Z.of_nat (S n) / i = Z.of_nat n / i) as ->
      by (symmetry; apply Z.div_unique with (Z.of_nat n mod i + 1); lia).
    assert (Z.of_nat (S n) mod i = Z.of_nat n mod i + 1) as ->
      by (symmetry; apply Z.mod_unique with (Z.of_nat n / i); lia).
    rewrite Z2Nat.id by done. lia.
Qed.

Lemma era_sum_mono s k1 k2 : 0 ≤ s → (k1 ≤ k2)%nat → era_sum s k1 ≤ era_sum s k2.
Proof.
  intros Hs. induction 1 as [|k2 Hle IH]; [lia|]. cbn [era_sum].
  pose proof (proj2 (Z.shiftr_nonneg s (Z.of_nat k2)) Hs). lia.
Qed.

Lemma era_sum_S s k : era_sum s (S k) = era_sum s k + Z.shiftr s (Z.of_nat k).
Proof. done. Qed.

Lemma total_issued_bound p n :
  0 ≤ p_InitialSubsidy p → 0 < p_SubsidyHalvingInterval p →
  total_issued p n ≤ p_SubsidyHalvingInterval p * era_sum (p_InitialSubsidy p) 64.
Proof.
  intros Hs Hi. set (i := p_SubsidyHalvingInterval p) in *.
  remember (era_sum (p_InitialSubsidy p) 64) as E eqn:HE.
  assert (0 ≤ E) as HE0 by (subst E; apply (era_sum_mono _ 0 64 Hs); lia).
  induction n as [|n IH]; cbn [total_issued]; [by apply Z.mul_nonneg_nonneg; [apply Z.lt_le_incl|]|].
  assert (0 ≤ Z.of_nat n / i) by (apply Z.div_pos; lia).
  unfold CalcSubsidy. fold i. rewrite (proj2 (Z.eqb_neq i 0)) by lia. cbv zeta.
  destruct (Z.leb_spec 64 (Z.of_nat n / i)) as [Hk|Hk]; [lia|].
  rewrite total_issued_eras by (done || (fold i; lia)). fold i.
  pose proof (era_sum_mono (p_InitialSubsidy p) (S (Z.to_nat (Z.of_nat n / i))) 64 Hs) as Hm.
  rewrite era_sum_S, <-HE in Hm. rewrite Z2Nat.id in * by done.
  pose proof (Z.mod_pos_bound (Z.of_nat n) i Hi).
  pose proof (proj2 (Z.shiftr_nonneg (p_InitialSubsidy p) (Z.of_nat n / i)) Hs). nia.
Qed.

(** ** Properties *)

(** On every network the subsidies of all heights together never exceed
    [MaxMoneyValue], whatever the chain's length; on mainnet the bound is
    reached exactly once 64 halvings have passed. *)
Theorem total_issued_max p n :
  NetworkByName (p_Name p) = Some p →
  total_issued p n ≤ MaxMoneyValue ∧
  era_sum (p_InitialSubsidy Mainnet) 64 * p_SubsidyHalvingInterval Mainnet = MaxMoneyValue.
Proof.
  intros Hn. split; [|by vm_compute].
  assert (p = Mainnet ∨ p = Testnet ∨ p = Regtest) as Hc.
  { unfold NetworkByName in Hn. repeat case_bool_decide; simplify_eq; auto. }
  etransitivity; [apply total_issued_bound|];
    destruct Hc as [Hp|[Hp|Hp]]; subst p; vm_compute; congruence.
Qed.

(** The subsidy never grows with the height and stays between 0 and the initial
    subsidy. *)
Theorem CalcSubsidy_antitone p h1 h2 :
  0 ≤ p_InitialSubsidy p → 0 ≤ p_SubsidyHalvingInterval p → 0 ≤ h1 ≤ h2 →
  0 ≤ CalcSubsidy p h2 ≤ CalcSubsidy p h1 ∧ CalcSubsidy p h1 ≤ p_InitialSubsidy p.
Proof.
  intros Hs Hi Hh. pose proof (CalcSubsidy_range p h1). pose proof (CalcSubsidy_range p h2).
  split; [|lia]. split; [lia|]. unfold CalcSubsidy in *.
  destruct (Z.eqb_spec (p_SubsidyHalvingInterval p) 0); [lia|].
  assert (h1 / p_SubsidyHalvingInterval p ≤ h2 / p_SubsidyHalvingInterval p)
    by (apply Z.div_le_mono; lia).
  assert (0 ≤ h1 / p_SubsidyHalvingInterval p) by (apply Z.div_pos; lia).
  destruct (Z.leb_spec 64 (h1 / p_SubsidyHalvingInterval p));
    destruct (Z.leb_spec 64 (h2 / p_SubsidyHalvingInterval p)); try lia.
  rewrite !Z.shiftr_div_pow2 by lia. apply Z.div_le_compat_l; [done|].
  split; [apply Z.pow_pos_nonneg; lia|]. apply Z.pow_le_mono_r; lia.
Qed.

(** The hard-coded genesis blocks of mainnet and testnet are consistent: their
    header hashes to the declared genesis hash, commits to the merkle root of
    their transactions, and they are well-formed blocks that round-trip on the
    wire; the transaction is a coinbase paying the initial subsidy of height
    0. *)
Theorem genesis_blocks_consistent :
  Forall (λ p,
    HashBlockHeader (blk_Header (p_GenesisBlock p)) = p_GenesisHash p ∧
    ComputeMerkleRoot (blk_Transactions (p_GenesisBlock p)) =
      hdr_MerkleRoot (blk_Header (p_GenesisBlock p)) ∧
    wf_block (p_GenesisBlock p) ∧
    Block_Deserialize (Block_Serialize (p_GenesisBlock p)) = Ok (p_GenesisBlock p, []) ∧
    Forall (λ tx, Transaction_IsCoinbase tx = true ∧
      out_Value <$> head (tx_Outputs tx) = Some (CalcSubsidy p 0))
      (blk_Transactions (p_GenesisBlock p))) [Mainnet; Testnet].
Proof. by_decide. Qed.

(** ** Witnesses *)

Lemma total_issued_max_witness :
  total_issued Mainnet 1000 ≤ MaxMoneyValue ∧
  era_sum (p_InitialSubsidy Mainnet) 64 * p_SubsidyHalvingInterval Mainnet = MaxMoneyValue.
Proof. refine (total_issued_max Mainnet 1000 _). vm_compute. reflexivity. Defined.

Lemma CalcSubsidy_antitone_witness :
  0 ≤ CalcSubsidy Mainnet 500000 ≤ CalcSubsidy Mainnet 1 ∧
  CalcSubsidy Mainnet 1 ≤ p_InitialSubsidy Mainnet.
Proof.
  refine (CalcSubsidy_antitone Mainnet 1 500000 _ _ _);
    vm_compute; try split; discriminate.
Defined.
