(* ===== verification/Utxo.v ===== *)
(** * internal/utxo: the set of unspent outputs

    Models utxo.go: entries and undo data with their storage encodings, the
    in-memory set (a finite map from 36-byte keys), and the connection and
    disconnection of blocks.  [ConnectBlock] computes every change before it
    applies any; it is related to [apply_block], the abstract ledger in which a
    transaction removes its inputs and adds its outputs at once. *)
From S2P Require Import Prelude Types Sha256.

(** ** Entries *)

Record UtxoEntry : Type := mkUtxoEntry {
  ue_Value : Z;
  ue_PkScript : list byte;
  ue_Height : Z;
  ue_IsCoinbase : bool
}.

#[export] Instance UtxoEntry_eq_dec : EqDecision UtxoEntry.
Proof. solve_decision. Defined.

(** Format: value(8) height(4) flags(1) varint(len pkscript) pkscript. *)
Definition UtxoEntry_Serialize (e : UtxoEntry) : list byte :=
  le_encode 8 (ue_Value e) ++ le_encode 4 (ue_Height e) ++
  [if ue_IsCoinbase e then x01 else x00] ++
  PutVarInt (len (ue_PkScript e)) ++ ue_PkScript e.

(** [make] panics when the requested size exceeds the address space
    (the runtime's [maxAlloc], 2^48 on 64-bit platforms). *)
Definition maxAlloc : Z := 2 ^ 48.

(** The length test is done on [int]: [int(scriptLen)] is negative from 2^63
    on and [viSize+int(scriptLen)] can wrap. *)
Definition DeserializeUtxoEntry (data : list byte) : res UtxoEntry :=
  if len data <? 13 then Err (Errorf "utxo entry too short") else
  let value := le_decode (slice 0 8 data) in
  let height := le_decode (slice 8 12 data) in
  let isCoinbase := negb (Z.land (byte_at data 12) 1 =? 0) in
  let rest := drop 13 data in
  scriptLen ← wrap "read pkscript length" (ReadVarIntFromBytes rest);
  let viSize := VarIntSize scriptLen in
  if len rest <? i64 (viSize + i64 scriptLen) then Err (Errorf "utxo entry truncated")
  else if maxAlloc <? scriptLen then Panic
  else Ok (mkUtxoEntry value
             (slice (Z.to_nat viSize) (Z.to_nat (viSize + scriptLen)) rest)
             height isCoinbase).

Definition OutpointKey (txHash : Hash) (index : Z) : list byte :=
  txHash ++ le_encode 4 index.

Definition outpoint_key (o : OutPoint) : list byte := OutpointKey (op_Hash o) (op_Index o).

(** ** Undo data *)

Record SpentOutput : Type := mkSpentOutput {
  so_OutPoint : OutPoint;
  so_Entry : UtxoEntry
}.

#[export] Instance SpentOutput_eq_dec : EqDecision SpentOutput.
Proof. solve_decision. Defined.

(** [BlockUndoData] has the single field [SpentOutputs]. *)
Abbreviation BlockUndoData := (list SpentOutput).

Definition SpentOutput_Serialize (so : SpentOutput) : list byte :=
  op_Hash (so_OutPoint so) ++ le_encode 4 (op_Index (so_OutPoint so)) ++
  PutVarInt (len (UtxoEntry_Serialize (so_Entry so))) ++
  UtxoEntry_Serialize (so_Entry so).

Definition SerializeUndoData (undo : BlockUndoData) : list byte :=
  PutVarInt (len undo) ++ mjoin (SpentOutput_Serialize <$> undo).

(** The decoding loop: [n] entries left, [total] bytes in all, [rest] the bytes
    from the current [offset] on.  Each turn that does not return consumes at
    least 36 bytes, so the length of the data bounds the number of turns. *)
Fixpoint DeserializeUndoData_loop (fuel : nat) (n total : Z) (rest : list byte)
    : res BlockUndoData :=
  if n <=? 0 then Ok [] else
  match fuel with
  | O => Err (Errorf "undo data truncated at entry")
  | S fuel' =>
      if len rest <? 36 then Err (Errorf "undo data truncated at entry") else
      let op := mkOutPoint (slice 0 32 rest) (le_decode (slice 32 36 rest)) in
      let rest := drop 36 rest in
      entryLen ← wrap "read entry length" (ReadVarIntFromBytes rest);
      let viSize := VarIntSize entryLen in
      let rest := drop (Z.to_nat viSize) rest in
      let offset := total - len rest in
      let stop := i64 (offset + i64 entryLen) in
      if total <? stop then Err (Errorf "undo entry truncated")
      else if stop <? offset then Panic
      else
        entry ← wrap "deserialize undo entry"
                  (DeserializeUtxoEntry (take (Z.to_nat entryLen) rest));
        tail ← DeserializeUndoData_loop fuel' (n - 1) total (drop (Z.to_nat entryLen) rest);
        mret (mkSpentOutput op entry :: tail)
  end.

(** [make([]SpentOutput, 0, count)]: a [SpentOutput] takes 80 bytes. *)
Definition DeserializeUndoData (data : list byte) : res BlockUndoData :=
  match data with
  | [] => Ok []
  | _ =>
      count ← wrap "read undo count" (ReadVarIntFromBytes data);
      if maxAlloc <? 80 * count then Panic
      else DeserializeUndoData_loop (length data) count (len data)
             (drop (Z.to_nat (VarIntSize count)) data)
  end.

(** ** The set *)

Abbreviation UtxoSet := (gmap (list byte) UtxoEntry).

Definition NewSet : UtxoSet := ∅.
Definition Set_Get (s : UtxoSet) (txHash : Hash) (index : Z) : option UtxoEntry :=
  s !! OutpointKey txHash index.
Definition Set_Has (s : UtxoSet) (txHash : Hash) (index : Z) : bool :=
  bool_decide (is_Some (Set_Get s txHash index)).
Definition Set_Add (s : UtxoSet) (txHash : Hash) (index : Z) (entry : UtxoEntry) : UtxoSet :=
  <[OutpointKey txHash index := entry]> s.
Definition Set_Remove (s : UtxoSet) (txHash : Hash) (index : Z) : option UtxoEntry * UtxoSet :=
  let key := OutpointKey txHash index in (s !! key, delete key s).
Definition Set_Clear (s : UtxoSet) : UtxoSet := ∅.
Definition Set_Count (s : UtxoSet) : Z := Z.of_nat (size s).

(** [TotalValue] iterates over the map and returns the largest [uint64] as soon
    as an addition wraps. *)
Fixpoint TotalValue_loop (total : Z) (es : list UtxoEntry) : Z :=
  match es with
  | [] => total
  | e :: es' =>
      if u64 (total + ue_Value e) <? total then 2 ^ 64 - 1
      else TotalValue_loop (u64 (total + ue_Value e)) es'
  end.
Definition Set_TotalValue (s : UtxoSet) : Z := TotalValue_loop 0 (snd <$> map_to_list s).

(** [Entries] copies every entry. *)
Definition Set_Entries (s : UtxoSet) : UtxoSet := s.

(** [ForEach] calls [fn] on the hash and index read back from each key. *)
Definition Set_ForEach (s : UtxoSet) : list (Hash * Z * UtxoEntry) :=
  (λ ke, (slice 0 32 (fst ke), le_decode (slice 32 36 (fst ke)), snd ke)) <$> map_to_list s.

(** A key is made of the hash and the index that are read back from it. *)
Lemma key_split k : length k = 36%nat → OutpointKey (slice 0 32 k) (le_decode (slice 32 36 k)) = k.
Proof.
  intros Hk. unfold OutpointKey. rewrite le_encode_decode' by (by rewrite slice_length by lia).
  rewrite <- (slice_split 0 32 36) by lia. by apply slice_all.
Qed.

(** ** Connecting a block *)

(** The local variables of [ConnectBlock]. *)
Record connect_state : Type := mkConnectState {
  cs_undo : BlockUndoData;
  cs_toRemove : list (list byte);
  cs_toAdd : list (list byte * UtxoEntry);
  cs_spentInBlock : gset (list byte);
  cs_createdInBlock : UtxoSet
}.

(** [txHashes[txIdx]], or the hash computed on the fly when [txHashes] is nil. *)
Definition tx_hash_at (txHashes : option (list Hash)) (txIdx : Z) (tx : Transaction)
    : res Hash :=
  match txHashes with
  | None => Ok (HashTransaction tx)
  | Some hs => match hs !! Z.to_nat txIdx with Some h => Ok h | None => Panic end
  end.

(** One turn of the loop over the inputs of a transaction; [seenInTx] is the set
    of keys the transaction has used so far. *)
Definition connect_input (s : UtxoSet) (st : connect_state * gset (list byte)) (i : TxInput)
    : res (connect_state * gset (list byte)) :=
  let '(cs, seenInTx) := st in
  let key := outpoint_key (in_PreviousOutPoint i) in
  _ ← fail_if (bool_decide (key ∈ seenInTx)) (Errorf "tx has duplicate input");
  let seenInTx := {[key]} ∪ seenInTx in
  _ ← fail_if (bool_decide (key ∈ cs_spentInBlock cs))
              (Errorf "tx input references already-spent outpoint within block");
  let created := cs_createdInBlock cs !! key in
  let entry := match created with Some e => Some e | None => s !! key end in
  match entry with
  | None => Err (Errorf "tx input references missing UTXO")
  | Some entry =>
      Ok ({| cs_undo := cs_undo cs ++
               (match created with
                | Some _ => []
                | None => [mkSpentOutput (in_PreviousOutPoint i) entry]
                end);
             cs_toRemove := cs_toRemove cs ++ [key];
             cs_toAdd := cs_toAdd cs;
             cs_spentInBlock := {[key]} ∪ cs_spentInBlock cs;
             cs_createdInBlock := delete key (cs_createdInBlock cs) |}, seenInTx)
  end.

(** One turn of the loop over the outputs of a transaction. *)
Definition connect_output (txHash : Hash) (height : Z) (isCoinbase : bool)
    (cs : connect_state) (outIdx : Z) (out : TxOutput) : connect_state :=
  let key := OutpointKey txHash (u32 outIdx) in
  let entry := mkUtxoEntry (out_Value out) (out_PkScript out) height isCoinbase in
  {| cs_undo := cs_undo cs;
     cs_toRemove := cs_toRemove cs;
     cs_toAdd := cs_toAdd cs ++ [(key, entry)];
     cs_spentInBlock := cs_spentInBlock cs;
     cs_createdInBlock := <[key := entry]> (cs_createdInBlock cs) |}.

(** [for outIdx, out := range outs] without an early return. *)
Fixpoint range_outputs {S} (f : S → Z → TxOutput → S) (i : Z) (s : S) (outs : list TxOutput)
    : S :=
  match outs with
  | [] => s
  | o :: outs' => range_outputs f (i + 1) (f s i o) outs'
  end.

Definition connect_tx (s : UtxoSet) (height : Z) (txHashes : option (list Hash))
    (cs : connect_state) (txIdx : Z) (tx : Transaction) : res connect_state :=
  txHash ← tx_hash_at txHashes txIdx tx;
  cs ← (if Transaction_IsCoinbase tx then Ok cs
        else fst <$> foldM (connect_input s) (cs, ∅) (tx_Inputs tx));
  mret (range_outputs (connect_output txHash height (Transaction_IsCoinbase tx)) 0 cs
          (tx_Outputs tx)).

Definition connect_init : connect_state := mkConnectState [] [] [] ∅ ∅.

(** The final, atomic application of the collected changes. *)
Definition connect_apply (s : UtxoSet) (cs : connect_state) : UtxoSet :=
  let s := foldl (λ s key, delete key s) s (cs_toRemove cs) in
  foldl (λ s a, if bool_decide (fst a ∈ cs_spentInBlock cs) then s
                else <[fst a := snd a]> s) s (cs_toAdd cs).

(** Returns the undo data and the updated set; on an error the set is not
    changed. *)
Definition ConnectBlock (s : UtxoSet) (block : Block) (height : Z)
    (txHashes : option (list Hash)) : res (BlockUndoData * UtxoSet) :=
  cs ← foldiM (connect_tx s height txHashes) connect_init (blk_Transactions block);
  mret (cs_undo cs, connect_apply s cs).

(** ** Disconnecting a block *)

(** The keys of the outputs of a transaction. *)
Definition output_keys (txHash : Hash) (outs : list TxOutput) : list (list byte) :=
  (λ i, OutpointKey txHash (u32 (Z.of_nat i))) <$> seq 0 (length outs).

Definition DisconnectBlock (s : UtxoSet) (block : Block) (undo : BlockUndoData) : UtxoSet :=
  let toRemove :=
    mjoin ((λ tx, output_keys (HashTransaction tx) (tx_Outputs tx)) <$>
             reverse (blk_Transactions block)) in
  let s := foldl (λ s key, delete key s) s toRemove in
  foldl (λ s spent, <[outpoint_key (so_OutPoint spent) := so_Entry spent]> s) s undo.

(** ** Genesis *)

Definition isLegacyPlaceholder (pk : list byte) : bool :=
  bool_decide (pk = []) || bool_decide (pk = [x00]).

Definition ConnectGenesis_tx (s : UtxoSet) (tx : Transaction) : UtxoSet :=
  range_outputs (λ s outIdx out,
    if isLegacyPlaceholder (out_PkScript out) then s
    else Set_Add s (HashTransaction tx) (u32 outIdx)
           (mkUtxoEntry (out_Value out) (out_PkScript out) 0 (Transaction_IsCoinbase tx)))
    0 s (tx_Outputs tx).

Definition ConnectGenesis (s : UtxoSet) (block : Block) : UtxoSet :=
  foldl ConnectGenesis_tx s (blk_Transactions block).

(** ** The abstract ledger *)

(** Spending an output removes it; it must exist. *)
Definition spend (s : UtxoSet) (i : TxInput) : option UtxoSet :=
  let key := outpoint_key (in_PreviousOutPoint i) in
  match s !! key with
  | Some _ => Some (delete key s)
  | None => None
  end.

Fixpoint spend_all (s : UtxoSet) (ins : list TxInput) : option UtxoSet :=
  match ins with
  | [] => Some s
  | i :: ins' => match spend s i with Some s' => spend_all s' ins' | None => None end
  end.

Definition create (txHash : Hash) (height : Z) (isCoinbase : bool) (s : UtxoSet)
    (outIdx : Z) (out : TxOutput) : UtxoSet :=
  <[OutpointKey txHash (u32 outIdx) :=
      mkUtxoEntry (out_Value out) (out_PkScript out) height isCoinbase]> s.

Definition apply_tx (height : Z) (s : UtxoSet) (tx : Transaction) : option UtxoSet :=
  match (if Transaction_IsCoinbase tx then Some s else spend_all s (tx_Inputs tx)) with
  | Some s' => Some (range_outputs
      (create (HashTransaction tx) height (Transaction_IsCoinbase tx)) 0 s' (tx_Outputs tx))
  | None => None
  end.

Fixpoint apply_txs (height : Z) (s : UtxoSet) (txs : list Transaction) : option UtxoSet :=
  match txs with
  | [] => Some s
  | tx :: txs' =>
      match apply_tx height s tx with Some s' => apply_txs height s' txs' | None => None end
  end.

Definition apply_block (height : Z) (s : UtxoSet) (b : Block) : option UtxoSet :=
  apply_txs height s (blk_Transactions b).

(** The keys a block creates. *)
Definition tx_keys (tx : Transaction) : list (list byte) :=
  output_keys (HashTransaction tx) (tx_Outputs tx).
Definition created_keys (txs : list Transaction) : list (list byte) :=
  mjoin (tx_keys <$> txs).

(** The block's transaction identifiers are new: none of the keys it creates is
    in the set, and no key is created twice (BIP30/BIP34 ensure this on a
    chain without hash collisions). *)
Definition fresh_block (s : UtxoSet) (b : Block) : Prop :=
  NoDup (created_keys (blk_Transactions b)) ∧
  Forall (λ k, s !! k = None) (created_keys (blk_Transactions b)).

#[export] Instance fresh_block_dec s b : Decision (fresh_block s b).
Proof. unfold fresh_block. apply _. Defined.

(** ** Maps built by loops *)

Lemma lookup_foldl_delete (ks : list (list byte)) (s : UtxoSet) k :
  foldl (λ s key, delete key s) s ks !! k = if bool_decide (k ∈ ks) then None else s !! k.
Proof.
  revert s. induction ks as [|k' ks IH]; intros s; simpl; [done|]. rewrite IH.
  destruct (decide (k = k')) as [->|Hne].
  - rewrite lookup_delete_eq, (bool_decide_true (k' ∈ k' :: ks)) by set_solver.
    by case_bool_decide.
  - rewrite lookup_delete_ne by done.
    by rewrite (bool_decide_ext (k ∈ k' :: ks) (k ∈ ks)) by set_solver.
Qed.

(** The map of the last entry added for each key. *)
Definition add_map (adds : list (list byte * UtxoEntry)) : UtxoSet :=
  foldl (λ m a, <[fst a := snd a]> m) ∅ adds.

Lemma add_map_snoc adds k e : add_map (adds ++ [(k, e)]) = <[k := e]> (add_map adds).
Proof. unfold add_map. by rewrite foldl_app. Qed.

Lemma add_map_dom adds k : is_Some (add_map adds !! k) ↔ k ∈ adds.*1.
Proof.
  induction adds as [|[k' e] adds IH] using rev_ind.
  - change (add_map []) with (∅ : UtxoSet). rewrite lookup_empty.
    split; [by intros []|by intros ?%not_elem_of_nil].
  - rewrite add_map_snoc, fmap_app, elem_of_app, <-IH. simpl. rewrite list_elem_of_singleton.
    destruct (decide (k = k')) as [->|Hne].
    + rewrite lookup_insert_eq. split; eauto.
    + rewrite lookup_insert_ne by done. naive_solver.
Qed.

Lemma lookup_foldl_add (spent : gset (list byte)) (adds : list (list byte * UtxoEntry))
    (s : UtxoSet) (k : list byte) :
  foldl (λ s a, if bool_decide (fst a ∈ spent) then s else <[fst a := snd a]> s) s adds !! k =
  if bool_decide (k ∈ spent) then s !! k
  else match add_map adds !! k with Some e => Some e | None => s !! k end.
Proof.
  induction adds as [|[k' e] adds IH] using rev_ind; simpl.
  - change (add_map []) with (∅ : UtxoSet). rewrite lookup_empty. by case_bool_decide.
  - rewrite foldl_app, add_map_snoc. simpl. destruct (decide (k' ∈ spent)) as [Hk'|Hk'].
    + rewrite (bool_decide_true (k' ∈ spent)), IH by done. case_bool_decide; [done|].
      by rewrite lookup_insert_ne by (intros ->; done).
    + rewrite (bool_decide_false (k' ∈ spent)) by done. destruct (decide (k = k')) as [->|Hne].
      * rewrite !lookup_insert_eq. by rewrite bool_decide_false.
      * by rewrite !lookup_insert_ne, IH by done.
Qed.

(** ** Refinement of the abstract ledger *)

Section refinement.
Context (s : UtxoSet).

(** The local state of [ConnectBlock] represents the ledger state [cur]. *)
Record connect_inv (cs : connect_state) (cur : UtxoSet) : Prop := {
  ci_cur : ∀ k, cur !! k =
    match cs_createdInBlock cs !! k with
    | Some e => Some e
    | None => if bool_decide (k ∈ cs_spentInBlock cs) then None else s !! k
    end;
  ci_removed : ∀ k, k ∈ cs_toRemove cs ↔ k ∈ cs_spentInBlock cs;
  ci_unspent : ∀ k, k ∉ cs_spentInBlock cs →
    cs_createdInBlock cs !! k = add_map (cs_toAdd cs) !! k;
  ci_spent : ∀ k, k ∈ cs_spentInBlock cs → cs_createdInBlock cs !! k = None;
  ci_undo : ∀ so, so ∈ cs_undo cs → s !! outpoint_key (so_OutPoint so) = Some (so_Entry so);
  ci_undone : ∀ k, k ∈ cs_spentInBlock cs →
    k ∈ (cs_toAdd cs).*1 ∨ ∃ so, so ∈ cs_undo cs ∧ outpoint_key (so_OutPoint so) = k
}.

Lemma connect_inv_init : connect_inv connect_init s.
Proof.
  split; simpl; intros *.
  - rewrite lookup_empty. by rewrite bool_decide_false by set_solver.
  - set_solver.
  - by rewrite lookup_empty.
  - set_solver.
  - set_solver.
  - set_solver.
Qed.

(** What a result of the code has to do with a result of the ledger. *)
Definition simulates {A} (R : A → UtxoSet → Prop) (r : res A) (o : option UtxoSet) : Prop :=
  match r, o with
  | Ok a, Some cur => R a cur
  | Err _, None => True
  | _, _ => False
  end.

(** Spending [key] keeps the invariant, the undo log being extended exactly
    when the output comes from the set. *)
Lemma connect_inv_spend cs cur key ext :
  connect_inv cs cur → key ∉ cs_spentInBlock cs →
  (ext = [] ∧ is_Some (cs_createdInBlock cs !! key) ∨
   ∃ so, ext = [so] ∧ outpoint_key (so_OutPoint so) = key ∧ s !! key = Some (so_Entry so)) →
  connect_inv
    {| cs_undo := cs_undo cs ++ ext;
       cs_toRemove := cs_toRemove cs ++ [key];
       cs_toAdd := cs_toAdd cs;
       cs_spentInBlock := {[key]} ∪ cs_spentInBlock cs;
       cs_createdInBlock := delete key (cs_createdInBlock cs) |} (delete key cur).
Proof.
  intros [Hcur Hrem Huns Hsp Hundo Hundone] Hkb Hext.
  assert (∀ k, k ∈ ({[key]} ∪ cs_spentInBlock cs : gset (list byte)) ↔
               k = key ∨ k ∈ cs_spentInBlock cs) as Hin
    by (intros k; by rewrite elem_of_union, elem_of_singleton).
  split; simpl; intros k.
  - destruct (decide (k = key)) as [->|Hne].
    + rewrite !lookup_delete_eq, bool_decide_true; [done|apply Hin; auto].
    + rewrite !lookup_delete_ne, Hcur by done. case_match; [done|].
      erewrite bool_decide_ext; [done|]. rewrite Hin. naive_solver.
  - rewrite elem_of_app, list_elem_of_singleton, Hrem, Hin. tauto.
  - rewrite Hin. intros Hk. rewrite lookup_delete_ne by naive_solver. apply Huns. tauto.
  - rewrite Hin. intros Hk. destruct (decide (k = key)) as [->|Hne]; [apply lookup_delete_eq|].
    rewrite lookup_delete_ne by done. apply Hsp. tauto.
  - destruct Hext as [[-> _]|(so & -> & Hk & Hs)].
    + rewrite app_nil_r. apply Hundo.
    + rewrite elem_of_app, list_elem_of_singleton. intros [?| ->]; [by apply Hundo|].
      by rewrite Hk.
  - rewrite Hin. intros [->|Hk].
    + destruct Hext as [[-> Hc]|(so & -> & Hk & Hs)].
      * left. apply add_map_dom. by rewrite <-Huns.
      * right. exists so. rewrite elem_of_app, list_elem_of_singleton. auto.
    + destruct (Hundone k Hk) as [|(so & Hso & <-)]; [by left|].
      right. exists so. rewrite elem_of_app. auto.
Qed.

Lemma connect_input_sim cs seen cur i :
  connect_inv cs cur → (∀ k, k ∈ seen → k ∈ cs_spentInBlock cs) →
  simulates (λ st cur', connect_inv (fst st) cur' ∧
      (∀ k, k ∈ snd st → k ∈ cs_spentInBlock (fst st)) ∧
      cs_toAdd (fst st) = cs_toAdd cs)
    (connect_input s (cs, seen) i) (spend cur i).
Proof.
  intros Hinv Hseen. pose proof Hinv as [Hcur _ _ Hsp _ _]. unfold connect_input, spend.
  set (key := outpoint_key (in_PreviousOutPoint i)). rewrite Hcur.
  destruct (decide (key ∈ cs_spentInBlock cs)) as [Hkb|Hkb].
  { rewrite (bool_decide_true (key ∈ cs_spentInBlock cs)), Hsp by done.
    by destruct (bool_decide (key ∈ seen)). }
  rewrite (bool_decide_false (key ∈ seen)), (bool_decide_false (key ∈ cs_spentInBlock cs)) by auto.
  assert (∀ k, k ∈ ({[key]} ∪ seen : gset (list byte)) →
               k ∈ ({[key]} ∪ cs_spentInBlock cs : gset (list byte))) as Hseen'.
  { intros k. rewrite !elem_of_union. intros [|]; auto. }
  simpl. destruct (cs_createdInBlock cs !! key) as [e|] eqn:Hc;
    [|destruct (s !! key) as [e|] eqn:Hse; [|done]]; (split; [|by split]);
    apply connect_inv_spend; try done; rewrite ?Hc; eauto 6.
Qed.

Lemma connect_inputs_sim ins cs seen cur :
  connect_inv cs cur → (∀ k, k ∈ seen → k ∈ cs_spentInBlock cs) →
  simulates (λ st cur', connect_inv (fst st) cur' ∧ cs_toAdd (fst st) = cs_toAdd cs)
    (foldM (connect_input s) (cs, seen) ins) (spend_all cur ins).
Proof.
  revert cs seen cur. induction ins as [|i ins IH]; intros cs seen cur Hinv Hseen; [done|].
  cbn [foldM spend_all]. pose proof (connect_input_sim cs seen cur i Hinv Hseen) as Hi.
  destruct (connect_input s (cs, seen) i) as [[cs' seen']| |], (spend cur i) as [cur'|];
    try done. destruct Hi as (Hinv' & Hseen' & Hadd). simpl in *.
  specialize (IH cs' seen' cur' Hinv' Hseen'). by rewrite Hadd in IH.
Qed.

Lemma connect_output_inv txHash height cb cs cur i o :
  connect_inv cs cur →
  OutpointKey txHash (u32 i) ∉ (cs_toAdd cs).*1 → s !! OutpointKey txHash (u32 i) = None →
  connect_inv (connect_output txHash height cb cs i o) (create txHash height cb cur i o).
Proof.
  intros [Hcur Hrem Huns Hsp Hundo Hundone] Hnew Hs.
  unfold connect_output, create. set (key := OutpointKey txHash (u32 i)) in *.
  assert (key ∉ cs_spentInBlock cs) as Hk.
  { intros Hk. destruct (Hundone key Hk) as [|(so & Hso & Hkey)]; [done|].
    apply Hundo in Hso. by rewrite Hkey, Hs in Hso. }
  split; simpl; intros k.
  - destruct (decide (k = key)) as [->|Hne]; [by rewrite !lookup_insert_eq|].
    by rewrite !lookup_insert_ne by done.
  - apply Hrem.
  - intros Hk'. rewrite add_map_snoc. destruct (decide (k = key)) as [->|Hne];
      [by rewrite !lookup_insert_eq|]. rewrite !lookup_insert_ne by done. by apply Huns.
  - intros Hk'. rewrite lookup_insert_ne by (intros ->; done). by apply Hsp.
  - apply Hundo.
  - rewrite fmap_app, elem_of_app. intros [|]%Hundone; auto.
Qed.

(** The keys of the outputs from index [i] on. *)
Definition keys_from (txHash : Hash) (i : Z) (outs : list TxOutput) : list (list byte) :=
  (λ j, OutpointKey txHash (u32 (i + Z.of_nat j))) <$> seq 0 (length outs).

Lemma keys_from_cons txHash i o outs :
  keys_from txHash i (o :: outs) =
  OutpointKey txHash (u32 i) :: keys_from txHash (i + 1) outs.
Proof.
  unfold keys_from. cbn [length seq fmap list_fmap]. rewrite Z.add_0_r. f_equal.
  rewrite <-fmap_S_seq, <-list_fmap_compose. apply list_fmap_ext. intros j x _. simpl.
  do 2 f_equal. lia.
Qed.

Lemma connect_outputs_inv txHash height cb outs i cs cur :
  connect_inv cs cur →
  NoDup ((cs_toAdd cs).*1 ++ keys_from txHash i outs) →
  Forall (λ k, s !! k = None) (keys_from txHash i outs) →
  connect_inv (range_outputs (connect_output txHash height cb) i cs outs)
              (range_outputs (create txHash height cb) i cur outs) ∧
  (cs_toAdd (range_outputs (connect_output txHash height cb) i cs outs)).*1 =
    (cs_toAdd cs).*1 ++ keys_from txHash i outs.
Proof.
  revert i cs cur. induction outs as [|o outs IH]; intros i cs cur Hinv Hnd Hfr.
  { simpl. by rewrite app_nil_r. }
  rewrite keys_from_cons in *. inversion Hfr as [|? ? Hs Hfr']; subst.
  cbn [range_outputs].
  assert (OutpointKey txHash (u32 i) ∉ (cs_toAdd cs).*1) as Hnew.
  { intros Hin. apply NoDup_app in Hnd as (_ & Hnd & _). by apply (Hnd _ Hin); left. }
  destruct (IH (i + 1) (connect_output txHash height cb cs i o)
              (create txHash height cb cur i o)) as [Hinv' Hkeys].
  - by apply connect_output_inv.
  - simpl. by rewrite fmap_app, <-app_assoc.
  - done.
  - split; [done|]. rewrite Hkeys. simpl. by rewrite fmap_app, <-app_assoc.
Qed.

Lemma connect_tx_sim height cs cur i tx :
  connect_inv cs cur →
  NoDup ((cs_toAdd cs).*1 ++ tx_keys tx) → Forall (λ k, s !! k = None) (tx_keys tx) →
  simulates (λ cs' cur', connect_inv cs' cur' ∧
               (cs_toAdd cs').*1 = (cs_toAdd cs).*1 ++ tx_keys tx)
    (connect_tx s height None cs i tx) (apply_tx height cur tx).
Proof.
  intros Hinv Hnd Hfr. unfold connect_tx, apply_tx, tx_hash_at. simpl mbind.
  change (tx_keys tx) with (keys_from (HashTransaction tx) 0 (tx_Outputs tx)) in *.
  destruct (Transaction_IsCoinbase tx) eqn:Hcb; simpl.
  { by apply connect_outputs_inv. }
  assert (∀ k : list byte, k ∈ (∅ : gset (list byte)) → k ∈ cs_spentInBlock cs) as He
    by (intros k ?%elem_of_empty; done).
  pose proof (connect_inputs_sim (tx_Inputs tx) cs ∅ cur Hinv He) as Hsim.
  destruct (foldM _ _ _) as [[cs' seen']| |], (spend_all cur (tx_Inputs tx)) as [cur'|]; try done.
  destruct Hsim as [Hinv' Hadd]. simpl in *. rewrite <-Hadd in *.
  by apply connect_outputs_inv.
Qed.

Lemma connect_txs_sim height txs i cs cur :
  connect_inv cs cur →
  NoDup ((cs_toAdd cs).*1 ++ created_keys txs) →
  Forall (λ k, s !! k = None) (created_keys txs) →
  simulates (λ cs' cur', connect_inv cs' cur' ∧
               (cs_toAdd cs').*1 = (cs_toAdd cs).*1 ++ created_keys txs)
    (foldiM_from i (connect_tx s height None) cs txs) (apply_txs height cur txs).
Proof.
  revert i cs cur. induction txs as [|tx txs IH]; intros i cs cur Hinv Hnd Hfr.
  { simpl. by rewrite app_nil_r. }
  change (created_keys (tx :: txs)) with (tx_keys tx ++ created_keys txs) in *.
  apply Forall_app in Hfr as [Hfr1 Hfr2]. rewrite app_assoc in Hnd.
  cbn [foldiM_from apply_txs].
  assert (NoDup ((cs_toAdd cs).*1 ++ tx_keys tx)) as Hnd1 by by apply NoDup_app in Hnd as [? _].
  pose proof (connect_tx_sim height cs cur i tx Hinv Hnd1 Hfr1) as Hsim.
  destruct (connect_tx s height None cs i tx) as [cs'| |], (apply_tx height cur tx) as [cur'|];
    try done.
  destruct Hsim as [Hinv' Hadd]. simpl. rewrite <-Hadd in Hnd.
  specialize (IH (i + 1) cs' cur' Hinv' Hnd Hfr2). by rewrite Hadd, <-app_assoc in IH.
Qed.

(** The changes applied at the end are those of the ledger. *)
Lemma connect_apply_cur cs cur : connect_inv cs cur → connect_apply s cs = cur.
Proof.
  intros [Hcur Hrem Huns Hsp Hundo Hundone]. apply map_eq. intros k. unfold connect_apply.
  rewrite lookup_foldl_add, !lookup_foldl_delete, Hcur.
  rewrite (bool_decide_ext (k ∈ cs_toRemove cs) (k ∈ cs_spentInBlock cs)) by apply Hrem.
  case_bool_decide as Hk; [by rewrite Hsp|]. by rewrite Huns.
Qed.

Lemma ConnectBlock_sim block height :
  fresh_block s block →
  simulates (λ r cur', ∃ cs, connect_inv cs cur' ∧ fst r = cs_undo cs ∧ snd r = cur' ∧
               (cs_toAdd cs).*1 = created_keys (blk_Transactions block))
    (ConnectBlock s block height None) (apply_block height s block).
Proof.
  intros [Hnd Hfr]. unfold ConnectBlock, apply_block.
  pose proof (connect_txs_sim height (blk_Transactions block) 0 connect_init s
                connect_inv_init Hnd Hfr) as Hsim.
  destruct (foldiM _ _ _) as [cs| |], (apply_txs _ _ _) as [cur|]; try done.
  destruct Hsim as [Hinv Hadd]. simpl. exists cs. by erewrite connect_apply_cur.
Qed.
End refinement.

(** ** Storage encodings *)

Definition wf_entry (e : UtxoEntry) : Prop :=
  is_u64 (ue_Value e) ∧ is_u32 (ue_Height e) ∧ wf_script (ue_PkScript e).

Definition wf_spent (so : SpentOutput) : Prop :=
  wf_outpoint (so_OutPoint so) ∧ wf_entry (so_Entry so).

#[export] Instance wf_entry_dec e : Decision (wf_entry e).
Proof. unfold wf_entry, wf_script. apply _. Defined.
#[export] Instance wf_spent_dec so : Decision (wf_spent so).
Proof. unfold wf_spent, wf_outpoint. apply _. Defined.

Lemma UtxoEntry_Serialize_length e :
  len (UtxoEntry_Serialize e) = 13 + VarIntSize (len (ue_PkScript e)) + len (ue_PkScript e).
Proof.
  unfold UtxoEntry_Serialize. rewrite !length_app, !le_encode_length, VarIntSize_ok.
  simpl length. lia.
Qed.

Lemma VarIntSize_range v : 1 ≤ VarIntSize v ≤ 9.
Proof. unfold VarIntSize. repeat case_match; lia. Qed.

Lemma UtxoEntry_roundtrip e :
  wf_entry e → DeserializeUtxoEntry (UtxoEntry_Serialize e) = Ok e.
Proof.
  intros (Hv & Hh & Hs). pose proof (VarIntSize_range (len (ue_PkScript e))).
  pose proof (UtxoEntry_Serialize_length e). unfold wf_script, MaxScriptSize in Hs.
  unfold DeserializeUtxoEntry. rewrite (proj2 (Z.ltb_ge _ _)) by lia.
  set (n := len (ue_PkScript e)) in *.
  assert (drop 13 (UtxoEntry_Serialize e) = PutVarInt n ++ ue_PkScript e) as ->.
  { unfold UtxoEntry_Serialize. rewrite !app_assoc, <-app_assoc.
    apply drop_app_length'. rewrite !length_app, !le_encode_length. done. }
  rewrite ReadVarIntFromBytes_complete by (unfold is_u64; lia). cbn [wrap mbind res_bind].
  rewrite (i64_id n), i64_id by (unfold is_i64; lia).
  rewrite (proj2 (Z.ltb_ge _ _)) by (rewrite length_app, Nat2Z.inj_add, <-VarIntSize_ok; lia).
  rewrite (proj2 (Z.ltb_ge _ _)) by (unfold maxAlloc; lia).
  f_equal. destruct e as [v pk h c]. cbn [ue_Value ue_PkScript ue_Height ue_IsCoinbase] in *.
  unfold UtxoEntry_Serialize; cbn [ue_Value ue_PkScript ue_Height ue_IsCoinbase]. f_equal.
  - rewrite slice_app_take by apply le_encode_length. by apply le8_decode_encode.
  - rewrite VarIntSize_ok. rewrite (slice_app_skip _ _ (length (PutVarInt n))); [|done|lia].
    replace (_ - _)%nat with 0%nat by lia. apply slice_all. subst n. lia.
  - rewrite (slice_app_skip _ _ 8) by (apply le_encode_length || lia). cbn [Nat.sub].
    rewrite slice_app_take by apply le_encode_length. by apply le4_decode_encode.
  - unfold byte_at. rewrite app_nth2, le_encode_length by (rewrite le_encode_length; lia).
    rewrite app_nth2, le_encode_length by (rewrite le_encode_length; lia). by destruct c.
Qed.

Lemma SpentOutput_Serialize_length so :
  wf_spent so → (37 ≤ length (SpentOutput_Serialize so))%nat.
Proof.
  intros [[Hh _] _]. unfold SpentOutput_Serialize.
  rewrite !length_app, le_encode_length, Hh. unfold HashSize.
  pose proof (VarIntSize_range (len (UtxoEntry_Serialize (so_Entry so)))) as Hr.
  rewrite VarIntSize_ok in Hr. lia.
Qed.

(** The decoding loop inverts the encoding loop. *)
Lemma DeserializeUndoData_loop_ok undo fuel total rest :
  Forall wf_spent undo → (length undo ≤ fuel)%nat →
  rest = mjoin (SpentOutput_Serialize <$> undo) → len rest ≤ total < 2 ^ 62 →
  DeserializeUndoData_loop fuel (len undo) total rest = Ok undo.
Proof.
  intros Hwf. revert fuel rest. induction Hwf as [|so undo Hso Hwf IH]; intros fuel rest Hf -> Ht.
  { by destruct fuel. }
  destruct fuel as [|fuel]; [simpl in Hf; lia|]. cbn [fmap list_fmap mjoin list_join] in *.
  set (tl := mjoin (SpentOutput_Serialize <$> undo)) in *.
  pose proof (SpentOutput_Serialize_length so Hso) as Hlen.
  destruct so as [[h idx] e], Hso as [[Hh Hi] He]. cbn [op_Hash op_Index so_OutPoint so_Entry] in *.
  rewrite length_app, Nat2Z.inj_add in Ht.
  cbn [DeserializeUndoData_loop]. rewrite (proj2 (Z.leb_gt _ _)) by (simpl; lia).
  rewrite (proj2 (Z.ltb_ge _ _)) by (rewrite length_app; lia). cbv zeta.
  unfold SpentOutput_Serialize in *. cbn [op_Hash op_Index so_OutPoint so_Entry] in *.
  set (eb := UtxoEntry_Serialize e) in *. rewrite <-!app_assoc. unfold wf_hash, HashSize in Hh.
  pose proof (VarIntSize_range (len eb)). pose proof (UtxoEntry_Serialize_length e) as Heb.
  fold eb in Heb. destruct He as (Hv & Hht & Hs). unfold wf_script, MaxScriptSize in Hs.
  pose proof (VarIntSize_range (len (ue_PkScript e))).
  rewrite (slice_app_take 32), (slice_app_skip 32 36 32) by (done || lia). cbn [Nat.sub].
  rewrite slice_app_take by apply le_encode_length. rewrite le4_decode_encode by done.
  rewrite (app_assoc h), drop_app_length' by (by rewrite length_app, le_encode_length, Hh).
  rewrite ReadVarIntFromBytes_complete by (unfold is_u64; lia). cbn [wrap mbind res_bind].
  rewrite drop_app_length' by (rewrite VarIntSize_ok; lia).
  rewrite !length_app, !le_encode_length, Hh, !Nat2Z.inj_add in Ht.
  rewrite length_app, Nat2Z.inj_add.
  rewrite (i64_id (len eb)), i64_id by (unfold is_i64; lia).
  rewrite (proj2 (Z.ltb_ge _ _)), (proj2 (Z.ltb_ge _ _)) by lia. rewrite Nat2Z.id.
  rewrite take_app_length, drop_app_length. subst eb.
  rewrite UtxoEntry_roundtrip by done. cbn [wrap mbind res_bind].
  replace (len (_ :: undo) - 1) with (len undo) by (simpl; lia).
  rewrite IH; [done|simpl in Hf; lia|done|lia].
Qed.

Lemma undo_length_bound undo :
  Forall wf_spent undo → 37 * len undo ≤ len (mjoin (SpentOutput_Serialize <$> undo)).
Proof.
  induction 1 as [|so undo Hso Hwf IH]; [done|].
  change (mjoin (SpentOutput_Serialize <$> so :: undo)) with
    (SpentOutput_Serialize so ++ mjoin (SpentOutput_Serialize <$> undo)).
  rewrite length_app. pose proof (SpentOutput_Serialize_length so Hso). simpl length. lia.
Qed.

(** ** Totals *)

Definition utxo_total (s : UtxoSet) : Z := map_fold (λ _ e acc, ue_Value e + acc) 0 s.

Lemma utxo_total_insert s k e :
  s !! k = None → utxo_total (<[k := e]> s) = ue_Value e + utxo_total s.
Proof. intros. unfold utxo_total. rewrite map_fold_insert_L; [done| |done]. intros; lia. Qed.

Lemma utxo_total_delete s k e :
  s !! k = Some e → utxo_total s = ue_Value e + utxo_total (delete k s).
Proof.
  intros. unfold utxo_total.
  rewrite (map_fold_delete_L _ _ k e); [done| |done]. intros; lia.
Qed.

Lemma TotalValue_loop_correct es total :
  0 ≤ total → Forall (λ e, is_u64 (ue_Value e)) es → is_u64 total →
  TotalValue_loop total es =
    (let sum := total + foldr (λ e acc, ue_Value e + acc) 0 es in
     if sum <? 2 ^ 64 then sum else 2 ^ 64 - 1).
Proof.
  intros _ Hes. revert total. induction Hes as [|e es He Hes IH]; intros total Ht; cbv zeta in *.
  { simpl. rewrite Z.add_0_r. destruct (Z.ltb_spec total (2 ^ 64)); [done|]. unfold is_u64 in Ht. lia. }
  cbn [TotalValue_loop foldr]. rewrite u64_add_overflow by done.
  assert (0 ≤ foldr (λ e acc, ue_Value e + acc) 0 es).
  { clear IH. induction Hes as [|e' es He' _ IH]; simpl; [lia|]. unfold is_u64 in He'. lia. }
  unfold is_u64 in *. destruct (Z.leb_spec (2 ^ 64) (total + ue_Value e)) as [Hle|Hlt].
  - rewrite (proj2 (Z.ltb_ge _ _)) by lia. done.
  - rewrite u64_id by (unfold is_u64; lia). rewrite IH by lia. by rewrite Z.add_assoc.
Qed.

(** ** Restoring spent outputs *)

Definition undo_map (undo : BlockUndoData) : UtxoSet :=
  foldl (λ m so, <[outpoint_key (so_OutPoint so) := so_Entry so]> m) ∅ undo.

Lemma undo_map_snoc undo so :
  undo_map (undo ++ [so]) = <[outpoint_key (so_OutPoint so) := so_Entry so]> (undo_map undo).
Proof. unfold undo_map. by rewrite foldl_app. Qed.

Lemma lookup_foldl_restore (undo : BlockUndoData) (s : UtxoSet) (k : list byte) :
  foldl (λ s so, <[outpoint_key (so_OutPoint so) := so_Entry so]> s) s undo !! k =
  match undo_map undo !! k with Some e => Some e | None => s !! k end.
Proof.
  induction undo as [|so undo IH] using rev_ind.
  - change (undo_map []) with (∅ : UtxoSet). by rewrite lookup_empty.
  - rewrite foldl_app, undo_map_snoc. simpl.
    destruct (decide (k = outpoint_key (so_OutPoint so))) as [->|Hne].
    + by rewrite !lookup_insert_eq.
    + by rewrite !lookup_insert_ne, IH by done.
Qed.

Lemma undo_lookup_None undo k :
  ¬ (∃ so, so ∈ undo ∧ outpoint_key (so_OutPoint so) = k) → undo_map undo !! k = None.
Proof.
  induction undo as [|so undo IH] using rev_ind; intros Hno.
  - change (undo_map []) with (∅ : UtxoSet). apply lookup_empty.
  - rewrite undo_map_snoc, lookup_insert_ne.
    + apply IH. contradict Hno. destruct Hno as (so' & ? & ?). exists so'. set_solver.
    + intros Hk. apply Hno. exists so. set_solver.
Qed.

(** When the undo entries agree with the set they come from, looking one up gives
    that entry. *)
Lemma undo_lookup_Some (undo : BlockUndoData) (k : list byte) (s : UtxoSet) so :
  (∀ so, so ∈ undo → s !! outpoint_key (so_OutPoint so) = Some (so_Entry so)) →
  so ∈ undo → outpoint_key (so_OutPoint so) = k → undo_map undo !! k = Some (so_Entry so).
Proof.
  intros Hs Hso Hk. induction undo as [|so' undo IH] using rev_ind; [by apply not_elem_of_nil in Hso|].
  rewrite undo_map_snoc. destruct (decide (k = outpoint_key (so_OutPoint so'))) as [->|Hne].
  - rewrite lookup_insert_eq, <-!Hs; [by rewrite <-Hk|done|set_solver].
  - rewrite lookup_insert_ne by done. apply IH; [set_solver|].
    apply elem_of_app in Hso as [|Hso%list_elem_of_singleton]; [done|by subst].
Qed.

Lemma created_keys_reverse txs k :
  k ∈ mjoin ((λ tx, output_keys (HashTransaction tx) (tx_Outputs tx)) <$> reverse txs) ↔
  k ∈ created_keys txs.
Proof.
  unfold created_keys, tx_keys. rewrite !list_elem_of_join.
  setoid_rewrite list_elem_of_fmap. setoid_rewrite elem_of_reverse. done.
Qed.

(** ** Properties *)

(** C3: [ConnectBlock] implements the ledger: on a block with fresh transaction
    identifiers it succeeds exactly when every transaction, applied in order,
    spends existing outputs, and it then returns the ledger's set; it never
    panics.  Spending an output twice, in one transaction or in two, spending a
    missing one and in-block chaining are all covered. *)
Theorem ConnectBlock_refines_ledger s block height :
  fresh_block s block →
  match ConnectBlock s block height None with
  | Ok (_, s') => apply_block height s block = Some s'
  | Err _ => apply_block height s block = None
  | Panic => False
  end.
Proof.
  intros Hf. pose proof (ConnectBlock_sim s block height Hf) as Hsim.
  destruct (ConnectBlock s block height None) as [[undo s']| |],
    (apply_block height s block); try done. destruct Hsim as (cs & _ & _ & Heq & _).
  simpl in Heq. by subst.
Qed.

(** C4: Disconnecting a block with the undo data its connection produced restores
    the set exactly, when the outputs of the block are new: no output it creates
    has the outpoint of an entry of the set or of another output of the block. *)
Theorem DisconnectBlock_inverts_ConnectBlock s block height undo s' :
  fresh_block s block →
  ConnectBlock s block height None = Ok (undo, s') →
  DisconnectBlock s' block undo = s.
Proof.
  intros Hf Hc. pose proof (ConnectBlock_sim s block height Hf) as Hsim. rewrite Hc in Hsim.
  destruct (apply_block height s block) as [cur|]; [|done].
  destruct Hsim as (cs & [Hcur _ Huns Hsp Hundo Hundone] & Hu & Hs' & Hkeys).
  simpl in Hu, Hs'. subst undo s'. apply map_eq. intros k. unfold DisconnectBlock.
  rewrite lookup_foldl_restore, lookup_foldl_delete.
  destruct (decide (k ∈ (λ so, outpoint_key (so_OutPoint so)) <$> cs_undo cs))
    as [(so & Hk & Hso)%list_elem_of_fmap|Hno].
  { rewrite (undo_lookup_Some _ _ s so) by done. by rewrite Hk, Hundo. }
  rewrite undo_lookup_None.
  2: { contradict Hno. apply list_elem_of_fmap. naive_solver. }
  rewrite (bool_decide_ext _ (k ∈ created_keys (blk_Transactions block))).
  2: { by rewrite created_keys_reverse. }
  case_bool_decide as Hck.
  - destruct Hf as [_ Hf]. rewrite Forall_forall in Hf. by rewrite Hf.
  - rewrite Hcur. rewrite <-Hkeys in Hck.
    assert (k ∉ cs_spentInBlock cs) as Hns.
    { intros Hk. destruct (Hundone k Hk) as [|(so & ? & ?)]; [done|].
      apply Hno, list_elem_of_fmap. eauto. }
    rewrite Huns, bool_decide_false by done.
    destruct (add_map (cs_toAdd cs) !! k) eqn:Ha; [|done].
    exfalso. apply Hck, add_map_dom. by rewrite Ha.
Qed.

(** Undo data written to disk is read back unchanged. *)
Theorem UndoData_roundtrip undo :
  Forall wf_spent undo → len (SerializeUndoData undo) < 2 ^ 40 →
  DeserializeUndoData (SerializeUndoData undo) = Ok undo.
Proof.
  intros Hwf Hl. pose proof (undo_length_bound undo Hwf) as Hb.
  unfold SerializeUndoData in *. rewrite length_app, Nat2Z.inj_add in Hl.
  unfold DeserializeUndoData.
  destruct (PutVarInt (len undo) ++ mjoin (SpentOutput_Serialize <$> undo)) as [|b bs] eqn:E.
  { exfalso. apply (f_equal length) in E. rewrite length_app in E.
    pose proof (VarIntSize_range (len undo)) as Hr. rewrite VarIntSize_ok in Hr. simpl in E. lia. }
  rewrite <-E. rewrite ReadVarIntFromBytes_complete by (unfold is_u64; lia).
  cbn [wrap mbind res_bind]. rewrite (proj2 (Z.ltb_ge _ _)) by (unfold maxAlloc; lia).
  rewrite drop_app_length' by (rewrite VarIntSize_ok; lia).
  apply DeserializeUndoData_loop_ok; try done; rewrite ?length_app; lia.
Qed.

(** The total returned by [TotalValue] is the sum of all values, or the largest
    [uint64] when that sum does not fit 64 bits. *)
Theorem TotalValue_correct s :
  map_Forall (λ _ e, is_u64 (ue_Value e)) s →
  Set_TotalValue s = if utxo_total s <? 2 ^ 64 then utxo_total s else 2 ^ 64 - 1.
Proof.
  intros Hs. unfold Set_TotalValue. rewrite TotalValue_loop_correct; [|lia| |unfold is_u64; lia].
  - cbv zeta. rewrite Z.add_0_l. unfold utxo_total. rewrite map_fold_foldr.
    generalize (map_to_list s). intros l.
    assert (foldr (λ e acc, ue_Value e + acc) 0 l.*2 =
            foldr (uncurry (λ (_ : list byte) e acc, ue_Value e + acc)) 0 l) as ->; [|done].
    induction l as [|[k e] l IH]; [done|]. simpl. f_equal. exact IH.
  - apply Forall_forall. intros e ([k e'] & -> & Hin)%list_elem_of_fmap.
    apply elem_of_map_to_list in Hin. by apply Hs in Hin.
Qed.

(** A stored script length from 2^63 - 9 on passes the length test, which is done
    on a wrapped [int], and the decoder panics instead of reporting truncated
    data; every smaller length is handled without a panic. *)
Theorem DeserializeUtxoEntry_panics_iff data n :
  13 ≤ len data < 2 ^ 40 → ReadVarIntFromBytes (drop 13 data) = Ok n →
  (DeserializeUtxoEntry data = Panic ↔ 2 ^ 63 - 9 ≤ n).
Proof.
  intros Hl Hn. unfold DeserializeUtxoEntry. rewrite (proj2 (Z.ltb_ge _ _)) by lia.
  rewrite Hn. cbn [wrap mbind res_bind].
  apply ReadVarIntFromBytes_sound in Hn as (rest & Hd & Hu). unfold is_u64 in Hu.
  assert (len (drop 13 data) < 2 ^ 40) by (rewrite length_drop; lia).
  pose proof (VarIntSize_range n). unfold maxAlloc.
  destruct (decide (n < 2 ^ 63 - 9)) as [Hs|Hs].
  - rewrite (i64_id n), i64_id by (unfold is_i64; lia).
    destruct (Z.ltb_spec (len (drop 13 data)) (VarIntSize n + n)); [naive_solver lia|].
    rewrite (proj2 (Z.ltb_ge _ _)) by lia. naive_solver lia.
  - assert (VarIntSize n = 9) as -> by (unfold VarIntSize; repeat case_match; lia).
    assert (i64 (9 + i64 n) < 10) as Hi.
    { unfold i64. destruct (decide (n < 2 ^ 63)).
      - rewrite (Z.mod_small (n + _)) by lia.
        assert ((9 + (n + 2 ^ 63 - 2 ^ 63) + 2 ^ 63) mod 2 ^ 64 = 9 + n + 2 ^ 63 - 2 ^ 64) as ->.
        { symmetry. apply Z.mod_unique with 1; lia. } lia.
      - assert ((n + 2 ^ 63) mod 2 ^ 64 = n - 2 ^ 63) as ->.
        { symmetry. apply Z.mod_unique with 1; lia. }
        destruct (decide (n = 2 ^ 64 - 1)); [subst; vm_compute; congruence|].
        rewrite Z.mod_small by lia. lia. }
    assert (9 ≤ len (drop 13 data)).
    { rewrite Hd, length_app, Nat2Z.inj_add, <-VarIntSize_ok.
      assert (VarIntSize n = 9) as -> by (unfold VarIntSize; repeat case_match; lia). lia. }
    rewrite (proj2 (Z.ltb_ge _ _)) by lia. rewrite (proj2 (Z.ltb_lt _ _)) by lia.
    split; [lia|done].
Qed.

(** ** Witnesses *)

(** A block that spends one stored output, in-block chaining included. *)
Definition w_hash : Hash := replicate 32 x11.
Definition w_entry : UtxoEntry := mkUtxoEntry 5000 [x51] 1 false.
Definition w_set : UtxoSet := {[ OutpointKey w_hash 0 := w_entry ]}.
Definition w_coinbase : Transaction :=
  mkTransaction 1 [mkTxInput CoinbaseOutPoint [x01; x07] 0xFFFFFFFF] [mkTxOutput 50 [x51]] 0.
Definition w_spend : Transaction :=
  mkTransaction 1 [mkTxInput (mkOutPoint w_hash 0) [] 0xFFFFFFFF]
    [mkTxOutput 3000 [x51]; mkTxOutput 1000 [x51]] 0.
Definition w_chain : Transaction :=
  mkTransaction 1 [mkTxInput (mkOutPoint (HashTransaction w_spend) 0) [] 0xFFFFFFFF]
    [mkTxOutput 2500 [x51]] 0.
Definition w_block : Block :=
  mkBlock (mkBlockHeader 1 ZeroHash ZeroHash 0 0 0) [w_coinbase; w_spend; w_chain].

Lemma ConnectBlock_refines_ledger_witness :
  match ConnectBlock w_set w_block 7 None with
  | Ok (_, s') => apply_block 7 w_set w_block = Some s'
  | Err _ => apply_block 7 w_set w_block = None
  | Panic => False
  end ∧ is_ok (ConnectBlock w_set w_block 7 None) = true.
Proof.
  split; [|vm_compute; reflexivity].
  refine (ConnectBlock_refines_ledger w_set w_block 7 _). by_decide.
Defined.

Definition w_connected : UtxoSet :=
  match ConnectBlock w_set w_block 7 None with Ok (_, s') => s' | _ => ∅ end.

Lemma DisconnectBlock_inverts_ConnectBlock_witness :
  DisconnectBlock w_connected w_block [mkSpentOutput (mkOutPoint w_hash 0) w_entry] = w_set.
Proof.
  apply (DisconnectBlock_inverts_ConnectBlock w_set w_block 7
           [mkSpentOutput (mkOutPoint w_hash 0) w_entry] w_connected); by_decide.
Defined.

Lemma UndoData_roundtrip_witness :
  DeserializeUndoData (SerializeUndoData [mkSpentOutput (mkOutPoint w_hash 0) w_entry])
    = Ok [mkSpentOutput (mkOutPoint w_hash 0) w_entry].
Proof.
  refine (UndoData_roundtrip [mkSpentOutput (mkOutPoint w_hash 0) w_entry] _ _); by_decide.
Defined.

Lemma TotalValue_correct_witness :
  Set_TotalValue w_set = if utxo_total w_set <? 2 ^ 64 then utxo_total w_set else 2 ^ 64 - 1.
Proof. refine (TotalValue_correct w_set _). by_decide. Defined.

Lemma DeserializeUtxoEntry_panics_iff_witness :
  DeserializeUtxoEntry (replicate 13 x00 ++ [xff] ++ le_encode 8 (2 ^ 63)) = Panic ↔
  2 ^ 63 - 9 ≤ 2 ^ 63.
Proof.
  refine (DeserializeUtxoEntry_panics_iff
            (replicate 13 x00 ++ [xff] ++ le_encode 8 (2 ^ 63)) (2 ^ 63) _ _);
    [by_decide|vm_compute; reflexivity].
Defined.
