(* ===== verification/Keys.v ===== *)
(** * internal/crypto/keys.go and internal/crypto/signature.go

    Public key hashes, the P2PKH script template, and the signature hash a
    transaction input is signed over.

    secp256k1, ECDSA and RIPEMD-160 come from third-party packages
    (github.com/decred/dcrd, golang.org/x/crypto): they are the operations of
    the class [CryptoLib].  What the code relies on of them is the separate
    class [CryptoLaws]; only the statements about signing mention it. *)
From S2P Require Import Prelude Types Sha256 Merkle.

Class CryptoLib := {
  Signature : Type;
  PublicKey : Type;
  PrivateKey : Type;
  ripemd160_Sum : list byte → list byte;
  ParseDERSignature : list byte → error + Signature;
  ParsePubKey : list byte → error + PublicKey;
  Signature_Verify : Signature → list byte → PublicKey → bool;
  Signature_Serialize : Signature → list byte;
  ecdsa_Sign : PrivateKey → list byte → Signature;
  secp256k1_PrivKeyFromBytes : list byte → PrivateKey;
  PrivateKey_PubKey : PrivateKey → PublicKey;
  PublicKey_SerializeCompressed : PublicKey → list byte;
}.

(** The documented behaviour of the packages: a signature made with a key
    verifies under its public key, serialized signatures and compressed public
    keys parse back, a DER signature has at most 72 bytes and a compressed
    key has 33. *)
Class CryptoLaws (L : CryptoLib) : Prop := {
  sign_verifies k h :
    length h = 32%nat → Signature_Verify (ecdsa_Sign k h) h (PrivateKey_PubKey k) = true;
  sig_parses k h :
    ParseDERSignature (Signature_Serialize (ecdsa_Sign k h)) = inr (ecdsa_Sign k h);
  sig_length k h :
    (1 ≤ length (Signature_Serialize (ecdsa_Sign k h)) ≤ 72)%nat;
  pubkey_parses p : ParsePubKey (PublicKey_SerializeCompressed p) = inr p;
  pubkey_length p : length (PublicKey_SerializeCompressed p) = 33%nat;
}.

Definition PrivKeySize : Z := 32.
Definition CompressedPubSize : Z := 33.
Definition PubKeyHashSize : nat := 20.
Definition SigHashAll : byte := x01.

Section keys.
Context `{L : CryptoLib}.

Definition PrivKeyFromBytes (b : list byte) : res PrivateKey :=
  _ ← fail_if (negb (len b =? PrivKeySize)) (Errorf "private key must be %d bytes, got %d");
  Ok (secp256k1_PrivKeyFromBytes b).

Definition PubKeyFromBytes (b : list byte) : res PublicKey :=
  _ ← fail_if (negb (len b =? CompressedPubSize))
        (Errorf "compressed pubkey must be %d bytes, got %d");
  lib (ParsePubKey b).

(** [copy(out[:], rip.Sum(nil))] into a zeroed 20-byte array. *)
Definition Hash160 (data : list byte) : list byte :=
  take PubKeyHashSize (ripemd160_Sum (Sum256 data) ++ replicate PubKeyHashSize x00).

Definition PubKeyHash (compressedPubKey : list byte) : list byte := Hash160 compressedPubKey.

End keys.

(** The array argument has 20 bytes. *)
Definition MakeP2PKHScript (pubKeyHash : list byte) : list byte :=
  [x76; xa9; x14] ++ pubKeyHash ++ [x88; xac].

Definition MakeP2PKHScriptFromPubKey `{CryptoLib} (compressedPubKey : list byte) : list byte :=
  MakeP2PKHScript (PubKeyHash compressedPubKey).

(** [byte(len(x))] keeps the low eight bits. *)
Definition MakeP2PKHSignatureScript (sig compressedPubKey : list byte) : list byte :=
  [Z_to_byte (len sig)] ++ sig ++ [Z_to_byte (len compressedPubKey)] ++ compressedPubKey.

Definition IsP2PKHScript (script : list byte) : bool :=
  (len script =? 25)
  && bool_decide (script !! 0%nat = Some x76) && bool_decide (script !! 1%nat = Some xa9)
  && bool_decide (script !! 2%nat = Some x14) && bool_decide (script !! 23%nat = Some x88)
  && bool_decide (script !! 24%nat = Some xac).

Definition ExtractP2PKHHash (script : list byte) : option (list byte) :=
  if negb (IsP2PKHScript script) then None else Some (slice 3 23 script).

Definition IsUnspendableScript (script : list byte) : bool :=
  match script with
  | [] => true
  | b :: _ => bool_decide (b = x6a)
  end.

Definition MakeOpReturnScript (data : list byte) : list byte :=
  let data := if 80 <? len data then take 80 data else data in
  [x6a; Z_to_byte (len data)] ++ data.

(** ** The signature hash *)

(** The copy of [tx] that is hashed: every signature script is emptied, the
    one of the signed input is replaced by [subscript]. *)
Fixpoint sighash_inputs (i inputIdx : Z) (subscript : list byte) (ins : list TxInput)
    : list TxInput :=
  match ins with
  | [] => []
  | x :: ins' =>
      mkTxInput (in_PreviousOutPoint x) (if i =? inputIdx then subscript else []) (in_Sequence x)
        :: sighash_inputs (i + 1) inputIdx subscript ins'
  end.

Definition sighash_copy (tx : Transaction) (inputIdx : Z) (subscript : list byte)
    : Transaction :=
  mkTransaction (tx_Version tx) (sighash_inputs 0 inputIdx subscript (tx_Inputs tx))
    (tx_Outputs tx) (tx_LockTime tx).

Definition sighash_preimage (tx : Transaction) (inputIdx : Z) (subscript : list byte)
    : list byte :=
  Transaction_SerializeToBytes (sighash_copy tx inputIdx subscript)
    ++ [SigHashAll; x00; x00; x00].

Definition ComputeSigHash (tx : Transaction) (inputIdx : Z) (subscript : list byte)
    : res Hash :=
  _ ← fail_if ((inputIdx <? 0) || (len (tx_Inputs tx) <=? inputIdx))
        (Errorf "input index %d out of range [0, %d)");
  Ok (DoubleSHA256 (sighash_preimage tx inputIdx subscript)).

(** ** Signing and verifying *)

Section signatures.
Context `{L : CryptoLib}.

Definition SignTransaction (tx : Transaction) (inputIdx : Z) (subscript : list byte)
    (privKey : PrivateKey) : res (list byte) :=
  sigHash ← wrap "compute sighash" (ComputeSigHash tx inputIdx subscript);
  Ok (Signature_Serialize (ecdsa_Sign privKey sigHash) ++ [SigHashAll]).

Definition VerifySignature (tx : Transaction) (inputIdx : Z)
    (subscript sigWithHashType : list byte) (pubKey : PublicKey) : res () :=
  _ ← fail_if (len sigWithHashType <? 2) (Errorf "signature too short: %d bytes");
  let hashType := last sigWithHashType in
  _ ← fail_if (negb (bool_decide (hashType = Some SigHashAll)))
        (Errorf "unsupported sighash type");
  let derSig := take (length sigWithHashType - 1) sigWithHashType in
  sig ← wrap "parse DER signature" (lib (ParseDERSignature derSig));
  sigHash ← wrap "compute sighash" (ComputeSigHash tx inputIdx subscript);
  fail_if (negb (Signature_Verify sig sigHash pubKey)) (Errorf "signature verification failed").

Definition SignInput (tx : Transaction) (inputIdx : Z) (prevPkScript : list byte)
    (privKey : PrivateKey) : res (list byte) :=
  sig ← SignTransaction tx inputIdx prevPkScript privKey;
  Ok (MakeP2PKHSignatureScript sig (PublicKey_SerializeCompressed (PrivateKey_PubKey privKey))).

End signatures.

(** ** Lemmas *)

Lemma Hash160_length `{CryptoLib} data : length (Hash160 data) = PubKeyHashSize.
Proof.
  unfold Hash160. rewrite length_take, length_app, length_replicate. lia.
Qed.

Lemma IsP2PKHScript_inv script :
  IsP2PKHScript script = true ↔
  ∃ h, length h = PubKeyHashSize ∧ script = MakeP2PKHScript h.
Proof.
  unfold IsP2PKHScript, MakeP2PKHScript, PubKeyHashSize.
  rewrite !andb_true_iff, !bool_decide_eq_true, Z.eqb_eq. split.
  - intros [[[[[Hl H0] H1] H2] H23] H24].
    destruct script as [|a0 [|a1 [|a2 t]]]; try done. simpl in H0, H1, H2. simplify_eq.
    exists (take 20 t). simpl in Hl. split; [rewrite length_take; lia|].
    rewrite <- (take_drop 20 t) at 1. do 3 f_equal.
    change (t !! 20%nat = Some x88) in H23. change (t !! 21%nat = Some xac) in H24.
    rewrite (drop_S _ _ _ H23), (drop_S _ _ _ H24), drop_ge by lia. done.
  - intros (h & Hl & ->). rewrite !length_app, Hl. repeat split_and; try done.
    all: by rewrite lookup_app_r, lookup_app_r, Hl by (rewrite ?Hl; simpl; lia).
Qed.

Lemma P2PKH_length h : length h = PubKeyHashSize → length (MakeP2PKHScript h) = 25%nat.
Proof. unfold MakeP2PKHScript. intros Hl. by rewrite !length_app, Hl. Qed.

Lemma ComputeSigHash_Ok tx i s h :
  ComputeSigHash tx i s = Ok h ↔
  0 ≤ i < len (tx_Inputs tx) ∧ h = DoubleSHA256 (sighash_preimage tx i s).
Proof.
  unfold ComputeSigHash.
  destruct (Z.ltb_spec i 0), (Z.leb_spec (len (tx_Inputs tx)) i);
    cbn [orb fail_if mbind res_bind]; generalize (DoubleSHA256 (sighash_preimage tx i s));
    intros d; split; intros Hx; try done; try (destruct Hx as [Hr ->]; first [done|lia]).
  injection Hx as ->. done.
Qed.

(** The transaction with every signature script removed. *)
Definition unsigned (tx : Transaction) : Transaction := sighash_copy tx (-1) [].

Lemma sighash_inputs_wf i idx s ins :
  wf_script s → Forall wf_input ins → Forall wf_input (sighash_inputs i idx s ins).
Proof.
  intros Hs Hins. revert i. induction Hins as [|x ins (Ho & _ & Hq) _ IH]; intros i; simpl;
    constructor; auto. repeat split; try apply Ho; try apply Hq. simpl.
  destruct (_ =? _); [done|]. unfold wf_script, MaxScriptSize. simpl. lia.
Qed.

Lemma sighash_inputs_length i idx s ins : length (sighash_inputs i idx s ins) = length ins.
Proof. revert i. induction ins; intros i; simpl; auto. Qed.

Lemma sighash_copy_wf tx idx s : wf_tx tx → wf_script s → wf_tx (sighash_copy tx idx s).
Proof.
  intros (Hv & Hn & Hins & Hm & Houts & Hl) Hs. repeat split; simpl; try apply Hv; try apply Hl; auto.
  - by rewrite sighash_inputs_length.
  - by apply sighash_inputs_wf.
Qed.

Lemma sighash_inputs_past i idx s ins :
  idx < i → 0 ≤ i → sighash_inputs i idx s ins = sighash_inputs i (-1) [] ins.
Proof.
  revert i. induction ins as [|x ins IH]; intros i Hi H0; simpl; [done|].
  rewrite (IH (i + 1)) by lia. by rewrite !(proj2 (Z.eqb_neq i _)) by lia.
Qed.

Lemma sighash_inputs_strip i idx s ins :
  0 ≤ i → sighash_inputs i (-1) [] (sighash_inputs i idx s ins) = sighash_inputs i (-1) [] ins.
Proof.
  revert i. induction ins as [|x ins IH]; intros i Hi; simpl; [done|].
  by rewrite IH, (proj2 (Z.eqb_neq i (-1))) by lia.
Qed.

(** The inputs of the copy determine the signed index and the subscript. *)
Lemma sighash_inputs_inj ins1 ins2 i idx1 idx2 s1 s2 :
  s1 ≠ [] → s2 ≠ [] → i ≤ idx1 < i + len ins1 → i ≤ idx2 → 0 ≤ i →
  sighash_inputs i idx1 s1 ins1 = sighash_inputs i idx2 s2 ins2 → idx1 = idx2 ∧ s1 = s2.
Proof.
  intros Hs1 Hs2. revert ins2 i. induction ins1 as [|x ins1 IH]; intros ins2 i Hi1 Hi2 H0 Heq;
    simpl in *; [lia|].
  destruct ins2 as [|y ins2]; simpl in *; [done|].
  injection Heq as _ Hsc _ Hrest.
  destruct (Z.eqb_spec i idx1), (Z.eqb_spec i idx2); try congruence.
  - split; congruence.
  - apply (IH ins2 (i + 1)); auto; lia.
Qed.

Lemma sighash_preimage_inj tx1 tx2 i1 i2 s1 s2 :
  wf_tx tx1 → wf_tx tx2 → wf_script s1 → wf_script s2 →
  sighash_preimage tx1 i1 s1 = sighash_preimage tx2 i2 s2 →
  sighash_copy tx1 i1 s1 = sighash_copy tx2 i2 s2.
Proof.
  intros H1 H2 Hs1 Hs2 Heq.
  pose proof (Transaction_decodes _ (sighash_copy_wf tx1 i1 s1 H1 Hs1) [SigHashAll; x00; x00; x00]) as D1.
  pose proof (Transaction_decodes _ (sighash_copy_wf tx2 i2 s2 H2 Hs2) [SigHashAll; x00; x00; x00]) as D2.
  unfold sighash_preimage, Transaction_SerializeToBytes in Heq. rewrite Heq, D2 in D1. congruence.
Qed.

Lemma unsigned_copy tx i s : unsigned (sighash_copy tx i s) = unsigned tx.
Proof.
  unfold unsigned, sighash_copy at 1; simpl. rewrite sighash_inputs_strip by lia. done.
Qed.

(** The copy only depends on the transaction without its signature scripts. *)
Lemma sighash_copy_unsigned tx i s : sighash_copy (unsigned tx) i s = sighash_copy tx i s.
Proof.
  unfold unsigned, sighash_copy; simpl. f_equal.
  cut (∀ j k, sighash_inputs j i s (sighash_inputs k (-1) [] (tx_Inputs tx))
              = sighash_inputs j i s (tx_Inputs tx)); [auto|].
  induction (tx_Inputs tx) as [|x ins IH]; intros j k; simpl; [done|]. by rewrite IH.
Qed.

(** ** Properties *)

(** A signature hash commits to the transaction: for well-formed transactions
    and non-empty subscripts, two successful [ComputeSigHash] calls agree exactly
    when they sign the same input index and subscript of transactions that
    differ at most in their signature scripts, as long as the two preimages are
    not a collision of the hash. *)
Theorem ComputeSigHash_commits tx1 tx2 i1 i2 s1 s2 h1 h2 :
  wf_tx tx1 → wf_tx tx2 → wf_script s1 → wf_script s2 → s1 ≠ [] → s2 ≠ [] →
  ComputeSigHash tx1 i1 s1 = Ok h1 → ComputeSigHash tx2 i2 s2 = Ok h2 →
  collision_free [sighash_preimage tx1 i1 s1; sighash_preimage tx2 i2 s2] →
  h1 = h2 ↔ i1 = i2 ∧ s1 = s2 ∧ unsigned tx1 = unsigned tx2.
Proof.
  intros W1 W2 Ws1 Ws2 N1 N2 [R1 ->]%ComputeSigHash_Ok [R2 ->]%ComputeSigHash_Ok Hcf. split.
  - intros Heq%(collision_free_inj _ _ _ Hcf); [|set_solver..]. apply sighash_preimage_inj in Heq; [|done..].
    pose proof Heq as Hin%(f_equal tx_Inputs).
    destruct (sighash_inputs_inj (tx_Inputs tx1) (tx_Inputs tx2) 0 i1 i2 s1 s2 N1 N2
      ltac:(lia) ltac:(lia) ltac:(lia) Hin) as [-> ->].
    split_and!; [done..|]. by rewrite <- (unsigned_copy tx1 i2 s2), Heq, unsigned_copy.
  - intros (-> & -> & Hu). unfold sighash_preimage.
    by rewrite <- (sighash_copy_unsigned tx1), Hu, sighash_copy_unsigned.
Qed.

(** P2PKH scripts: the template has 25 bytes, [IsP2PKHScript] recognises exactly
    the scripts the template makes of a 20-byte hash, and [ExtractP2PKHHash]
    returns the hash of those and nothing for any other script. *)
Theorem P2PKH_template script h :
  ExtractP2PKHHash script = Some h ↔ length h = PubKeyHashSize ∧ script = MakeP2PKHScript h.
Proof.
  unfold ExtractP2PKHHash. destruct (IsP2PKHScript script) eqn:E; simpl.
  - apply IsP2PKHScript_inv in E as (h' & Hl & ->).
    assert (Hx : slice 3 23 (MakeP2PKHScript h') = h').
    { unfold MakeP2PKHScript. rewrite (slice_app_skip 3 23 3) by done.
      by apply slice_app_take. }
    rewrite Hx. split; [naive_solver|]. intros [Hl' Heq]. f_equal.
    assert (length (h' ++ [x88; xac]) = length (h ++ [x88; xac])) as _ by (rewrite !length_app; lia).
    unfold MakeP2PKHScript in Heq. simplify_list_eq. done.
  - split; [done|]. intros H%(ex_intro (λ h, length h = PubKeyHashSize ∧ script = MakeP2PKHScript h) h).
    apply IsP2PKHScript_inv in H. congruence.
Qed.

(** ** Witnesses *)

Lemma ComputeSigHash_commits_witness :
  (∃ h1 h2, ComputeSigHash sample_spend 0 [x51] = Ok h1 ∧
            ComputeSigHash sample_spend 0 [x52] = Ok h2 ∧ h1 ≠ h2).
Proof.
  eexists _, _. split; [reflexivity|]. split; [reflexivity|]. intros Heq.
  refine (_ (proj1 (ComputeSigHash_commits sample_spend sample_spend 0 0 [x51] [x52] _ _
            _ _ _ _ _ _ eq_refl eq_refl _) Heq)).
  - by intros (_ & [=] & _).
  - by_decide.
  - by_decide.
  - by_decide.
  - by_decide.
  - done.
  - done.
  - by_decide.
Defined.
