(* ===== verification/Script.v ===== *)
(** * internal/script/script.go

    The script interpreter that authorizes a spend: [execute] runs one script
    on a stack of byte strings, [Verify] runs the signature script and then
    the output script and requires one true element.

    The Go loop [for pos < len(script)] is [exec_loop], with as much fuel as the
    script has bytes; running out of fuel, like an index outside the script,
    is [Panic], and [Verify_no_panic] shows that neither happens.  The stack is
    the list of the items with the top first. *)
From S2P Require Import Prelude Types Sha256 Merkle Params Keys.

Definition OpFalse : Z := 0x00.
Definition OpPushData1 : Z := 0x4c.
Definition OpPushData2 : Z := 0x4d.
Definition Op1 : Z := 0x51.
Definition OpDup : Z := 0x76.
Definition OpHash160 : Z := 0xa9.
Definition OpEqual : Z := 0x87.
Definition OpEqualVerify : Z := 0x88.
Definition OpCheckSig : Z := 0xac.
Definition OpReturn : Z := 0x6a.

Definition maxStackSize : Z := 1000.
Definition maxScriptSize : Z := 10000.
Definition maxOpsPerScript : Z := 201.
Definition maxStackElemSize : Z := 520.

(** ** The stack *)

Definition stack : Type := list (list byte).
Definition stack_push (s : stack) (data : list byte) : stack := data :: s.
Definition stack_pop (s : stack) : list byte * stack :=
  match s with [] => ([], []) | top :: s' => (top, s') end.
Definition stack_peek (s : stack) : list byte :=
  match s with [] => [] | top :: _ => top end.
Definition stack_size (s : stack) : Z := len s.

Fixpoint bytesEqual_loop (a b : list byte) : bool :=
  match a, b with
  | x :: a', y :: b' => if negb (bool_decide (x = y)) then false else bytesEqual_loop a' b'
  | _, _ => true
  end.
Definition bytesEqual (a b : list byte) : bool :=
  if negb (len a =? len b) then false else bytesEqual_loop a b.

(** The loop of [isTrue] at index [i] of a string of length [n]. *)
Fixpoint isTrue_loop (i n : Z) (data : list byte) : bool :=
  match data with
  | [] => false
  | b :: data' =>
      if negb (bool_decide (b = x00)) then
        if (i =? n - 1) && bool_decide (b = x80) then false else true
      else isTrue_loop (i + 1) n data'
  end.
Definition isTrue (data : list byte) : bool := isTrue_loop 0 (len data) data.

(** [script[pos]]. *)
Definition byte_index (script : list byte) (pos : nat) : res Z :=
  match script !! pos with Some b => Ok (byte_to_Z b) | None => Panic end.

(** [script[pos:pos']]: bounds outside the script panic (a slice expression may
    reach into the capacity behind the length, on which nothing relies). *)
Definition byte_slice (script : list byte) (pos pos' : nat) : res (list byte) :=
  if bool_decide (pos ≤ pos' ∧ pos' ≤ length script)%nat then Ok (slice pos pos' script) else Panic.

(** ** The engine *)

Section engine.
Context `{L : CryptoLib}.
(** The fields of [engine] that no operation changes. *)
Context (tx : Transaction) (inputIdx : Z) (pkScript : list byte).

(** The tail of the three push cases: [n] bytes from [pos]. *)
Definition exec_push (script : list byte) (pos : nat) (n : Z) (s : stack)
    (short long : error) : res (nat * stack) :=
  _ ← fail_if (len script <? Z.of_nat pos + n) short;
  _ ← fail_if (maxStackElemSize <? n) long;
  let pos' := (pos + Z.to_nat n)%nat in
  data ← byte_slice script pos pos';
  Ok (pos', stack_push s data).

(** OP_CHECKSIG on the popped key and signature.  [Ok false] is the [continue]
    after an empty signature, which skips the stack size check. *)
Definition exec_checksig (pubKeyBytes sigBytes : list byte) : res bool :=
  if len sigBytes =? 0 then Ok false else
  _ ← fail_if (len sigBytes <? 2)
        (Errorf "OP_CHECKSIG: non-empty signature failed validation (NULLFAIL)");
  hashType ← byte_index sigBytes (length sigBytes - 1);
  _ ← fail_if (negb (hashType =? byte_to_Z SigHashAll))
        (Errorf "OP_CHECKSIG: unsupported hash type 0x%02x (NULLFAIL)");
  derSig ← byte_slice sigBytes 0 (length sigBytes - 1);
  sig ← wrap "OP_CHECKSIG: invalid DER signature (NULLFAIL)" (lib (ParseDERSignature derSig));
  pubKey ← wrap "OP_CHECKSIG: invalid public key (NULLFAIL)" (lib (ParsePubKey pubKeyBytes));
  sigHash ← wrap "OP_CHECKSIG: sighash computation failed" (ComputeSigHash tx inputIdx pkScript);
  _ ← fail_if (negb (Signature_Verify sig sigHash pubKey))
        (Errorf "OP_CHECKSIG: signature verification failed (NULLFAIL)");
  Ok true.

(** The [switch]: the new position and stack, and whether the stack size is
    checked afterwards. *)
Definition exec_op (script : list byte) (op : Z) (pos : nat) (s : stack)
    : res (nat * stack * bool) :=
  if op =? OpFalse then Ok (pos, stack_push s [], true)
  else if (0x01 <=? op) && (op <=? 0x4b) then
    '(pos, s) ← exec_push script pos op s
                  (Errorf "push %d bytes: script too short at offset %d")
                  (Errorf "push size %d exceeds maximum element size %d");
    Ok (pos, s, true)
  else if op =? OpPushData1 then
    _ ← fail_if (len script <=? Z.of_nat pos) (Errorf "OP_PUSHDATA1: missing length byte");
    n ← byte_index script pos;
    '(pos, s) ← exec_push script (pos + 1) n s
                  (Errorf "OP_PUSHDATA1: script too short")
                  (Errorf "OP_PUSHDATA1: push size %d exceeds maximum element size %d");
    Ok (pos, s, true)
  else if op =? OpPushData2 then
    _ ← fail_if (len script <? Z.of_nat pos + 2) (Errorf "OP_PUSHDATA2: missing length bytes");
    b0 ← byte_index script pos;
    b1 ← byte_index script (pos + 1);
    let n := Z.lor b0 (Z.shiftl b1 8) in
    '(pos, s) ← exec_push script (pos + 2) n s
                  (Errorf "OP_PUSHDATA2: script too short")
                  (Errorf "OP_PUSHDATA2: push size %d exceeds maximum element size %d");
    Ok (pos, s, true)
  else if op =? Op1 then Ok (pos, stack_push s [x01], true)
  else if op =? OpDup then
    _ ← fail_if (stack_size s <? 1) (Errorf "OP_DUP: stack underflow");
    Ok (pos, stack_push s (stack_peek s), true)
  else if op =? OpHash160 then
    _ ← fail_if (stack_size s <? 1) (Errorf "OP_HASH160: stack underflow");
    let (data, s) := stack_pop s in
    Ok (pos, stack_push s (Hash160 data), true)
  else if op =? OpEqual then
    _ ← fail_if (stack_size s <? 2) (Errorf "OP_EQUAL: stack underflow");
    let (b, s) := stack_pop s in
    let (a, s) := stack_pop s in
    Ok (pos, stack_push s (if bytesEqual a b then [x01] else []), true)
  else if op =? OpEqualVerify then
    _ ← fail_if (stack_size s <? 2) (Errorf "OP_EQUALVERIFY: stack underflow");
    let (b, s) := stack_pop s in
    let (a, s) := stack_pop s in
    _ ← fail_if (negb (bytesEqual a b)) (Errorf "OP_EQUALVERIFY: values not equal");
    Ok (pos, s, true)
  else if op =? OpCheckSig then
    _ ← fail_if (stack_size s <? 2) (Errorf "OP_CHECKSIG: stack underflow");
    let (pubKeyBytes, s) := stack_pop s in
    let (sigBytes, s) := stack_pop s in
    ok ← exec_checksig pubKeyBytes sigBytes;
    if ok : bool then Ok (pos, stack_push s [x01], true)
    else Ok (pos, stack_push s [], false)
  else if op =? OpReturn then Err (Errorf "OP_RETURN: script is unspendable")
  else Err (Errorf "unsupported opcode 0x%02x at offset %d").

(** The body of the loop. *)
Definition exec_step (script : list byte) (st : nat * Z * stack) : res (nat * Z * stack) :=
  let '(pos, numOps, s) := st in
  op ← byte_index script pos;
  let pos := (pos + 1)%nat in
  let numOps := if OpPushData2 <? op then numOps + 1 else numOps in
  _ ← fail_if ((OpPushData2 <? op) && (maxOpsPerScript <? numOps))
        (Errorf "exceeded maximum opcode count (%d)");
  '(pos, s, check) ← exec_op script op pos s;
  _ ← fail_if (check && (maxStackSize <? stack_size s)) (Errorf "stack overflow: %d items");
  Ok (pos, numOps, s).

Fixpoint exec_loop (fuel : nat) (script : list byte) (st : nat * Z * stack) : res stack :=
  if Z.of_nat st.1.1 <? len script then
    match fuel with
    | O => Panic
    | S fuel' => st' ← exec_step script st; exec_loop fuel' script st'
    end
  else Ok st.2.

Definition execute (s : stack) (script : list byte) : res stack :=
  _ ← fail_if (maxScriptSize <? len script) (Errorf "script size %d exceeds maximum %d");
  exec_loop (length script) script (0%nat, 0, s).

End engine.

Definition Verify `{CryptoLib} (sigScript pkScript : list byte) (tx : Transaction)
    (inputIdx : Z) : res () :=
  _ ← fail_if (len pkScript =? 0) (Errorf "empty pkScript");
  op ← byte_index pkScript 0;
  _ ← fail_if (op =? OpReturn) (Errorf "OP_RETURN output is unspendable");
  s ← wrap "sigScript execution" (execute tx inputIdx pkScript [] sigScript);
  s ← wrap "pkScript execution" (execute tx inputIdx pkScript s pkScript);
  _ ← fail_if (stack_size s =? 0) (Errorf "script evaluated to empty stack");
  _ ← fail_if (negb (isTrue (stack_peek s))) (Errorf "script evaluated to false");
  fail_if (negb (stack_size s =? 1)) (Errorf "cleanstack violation").

Definition IsStandardScript (pkScript : list byte) : bool :=
  if IsP2PKHScript pkScript then true
  else match pkScript with
       | b :: _ => if byte_to_Z b =? OpReturn then true else false
       | [] => false
       end.

Definition IsLegacyUnvalidatedScript (pkScript : list byte) : bool := false.

(** ** Termination and absence of panics *)

Lemma no_panic_ComputeSigHash tx i s : no_panic (ComputeSigHash tx i s).
Proof. apply no_panic_bind; [apply no_panic_fail_if|intros; apply no_panic_Ok]. Qed.

Lemma no_panic_byte_index script pos :
  (pos < length script)%nat → no_panic (byte_index script pos).
Proof. intros [b Hb]%lookup_lt_is_Some_2. unfold byte_index. by rewrite Hb. Qed.

Lemma byte_index_nonneg script pos n : byte_index script pos = Ok n → 0 ≤ n.
Proof. unfold byte_index. destruct (script !! pos) as [b|]; [|done]. intros [= <-]. apply byte_to_Z_range. Qed.

Lemma byte_slice_Ok script pos pos' data :
  byte_slice script pos pos' = Ok data ↔ (pos ≤ pos' ≤ length script)%nat ∧ data = slice pos pos' script.
Proof. unfold byte_slice. case_bool_decide; naive_solver. Qed.

Lemma no_panic_byte_slice script pos pos' :
  (pos ≤ pos' ≤ length script)%nat → no_panic (byte_slice script pos pos').
Proof. intros Hp. unfold byte_slice. by rewrite bool_decide_true. Qed.

#[export] Hint Resolve no_panic_ComputeSigHash : np.

Section engine_lemmas.
Context `{L : CryptoLib}.
Context (tx : Transaction) (inputIdx : Z) (pkScript : list byte).

Lemma exec_checksig_no_panic pk sig : no_panic (exec_checksig tx inputIdx pkScript pk sig).
Proof.
  unfold exec_checksig. np_step; res_inv; rewrite ?Z.eqb_neq in *.
  - apply no_panic_byte_index. destruct sig; cbn in *; lia.
  - apply no_panic_byte_slice. lia.
Qed.

Lemma exec_op_no_panic script op pos s : no_panic (exec_op tx inputIdx pkScript script op pos s).
Proof.
  pose proof exec_checksig_no_panic as Hc. unfold exec_op. np_step; res_inv;
    repeat match goal with H : byte_index _ _ = Ok _ |- _ => apply byte_index_nonneg in H end;
    first [apply no_panic_byte_slice|apply no_panic_byte_index];
    rewrite ?Z.leb_gt, ?Z.ltb_ge, ?andb_true_iff, ?Z.leb_le in *; lia.
Qed.

Lemma exec_op_pos script op pos s pos' s' c :
  exec_op tx inputIdx pkScript script op pos s = Ok (pos', s', c) → (pos ≤ pos')%nat.
Proof.
  unfold exec_op, exec_push, stack_pop. intros H. res_cases; lia.
Qed.

Lemma exec_step_pos script pos n s pos' n' s' :
  exec_step tx inputIdx pkScript script (pos, n, s) = Ok (pos', n', s') → (pos < pos')%nat.
Proof.
  unfold exec_step. intros H. res_inv.
  match goal with Hx : exec_op _ _ _ _ _ _ _ = Ok _ |- _ => apply exec_op_pos in Hx end. lia.
Qed.

Lemma exec_step_no_panic script st :
  (st.1.1 < length script)%nat → no_panic (exec_step tx inputIdx pkScript script st).
Proof.
  destruct st as [[pos n] s]. simpl. intros Hp. unfold exec_step.
  pose proof exec_op_no_panic as Ho. pose proof (no_panic_byte_index script pos Hp). np_step.
Qed.

(** The fuel that [execute] gives is enough: each step moves the position
    forward. *)
Lemma exec_loop_no_panic fuel script st :
  (length script ≤ fuel + st.1.1)%nat → no_panic (exec_loop tx inputIdx pkScript fuel script st).
Proof.
  revert st. induction fuel as [|fuel IH]; intros st Hf; simpl; destruct (Z.ltb_spec (Z.of_nat st.1.1) (len script)); try done.
  - lia.
  - apply no_panic_bind; [apply exec_step_no_panic; lia|]. intros st' Hst.
    apply IH. destruct st as [[pos n] s], st' as [[pos' n'] s']. apply exec_step_pos in Hst.
    simpl in *. lia.
Qed.

Lemma execute_no_panic s script : no_panic (execute tx inputIdx pkScript s script).
Proof. unfold execute. np_step. apply exec_loop_no_panic. simpl. lia. Qed.

(** ** The limits on the stack *)

(** At most 1000 elements of at most 520 bytes. *)
Definition stack_bounded (s : stack) : Prop :=
  stack_size s ≤ maxStackSize ∧ Forall (λ x, len x ≤ maxStackElemSize) s.

Lemma exec_op_elems script op pos s pos' s' c :
  exec_op tx inputIdx pkScript script op pos s = Ok (pos', s', c) →
  Forall (λ x, len x ≤ maxStackElemSize) s →
  Forall (λ x, len x ≤ maxStackElemSize) s' ∧ (c = false → stack_size s' ≤ stack_size s).
Proof.
  unfold exec_op, exec_push, stack_push, stack_size, maxStackElemSize. intros H Hs.
  destruct s as [|a [|b s2]]; cbn [stack_pop stack_peek] in H; res_cases;
    decompose_Forall_hyps; (split; [|done || (simpl; lia)]); repeat constructor; simpl; auto; try lia.
  all: try (rewrite Hash160_length; unfold PubKeyHashSize; lia).
  all: try (destruct (bytesEqual _ _); simpl; lia).
  all: match goal with H : byte_slice _ _ _ = Ok _ |- _ => apply byte_slice_Ok in H as [_ ->] end;
    etrans; [apply inj_le, slice_le|]; rewrite ?Z.ltb_ge in *; lia.
Qed.

Lemma exec_step_bounded script st st' :
  exec_step tx inputIdx pkScript script st = Ok st' → stack_bounded st.2 → stack_bounded st'.2.
Proof.
  destruct st as [[pos n] s]. unfold exec_step. intros H [Hn Hs]. res_inv.
  match goal with
  | Ho : exec_op _ _ _ _ _ _ _ = Ok (_, _, ?c) |- _ => apply exec_op_elems in Ho as [He Hc]; [|done];
      destruct c; split; simpl in *; rewrite ?Z.ltb_ge in *; auto
  end. etrans; [by apply Hc|done].
Qed.

Lemma exec_loop_bounded fuel script st s' :
  exec_loop tx inputIdx pkScript fuel script st = Ok s' → stack_bounded st.2 → stack_bounded s'.
Proof.
  revert st. induction fuel as [|fuel IH]; intros st H Hb; cbn [exec_loop] in H;
    destruct (_ <? _) in H; try done; [by simplify_eq|..|by simplify_eq].
  apply bind_Ok in H as (st' & Hst & H). eapply IH; [done|]. by eapply exec_step_bounded.
Qed.

Lemma execute_bounded s script s' :
  execute tx inputIdx pkScript s script = Ok s' → stack_bounded s → stack_bounded s'.
Proof. unfold execute. intros H Hb. res_inv. by eapply exec_loop_bounded. Qed.

(** The states between two operations of a run. *)
Definition exec_reaches (script : list byte) : relation (nat * Z * stack) :=
  rtc (λ st st', exec_step tx inputIdx pkScript script st = Ok st').

Lemma exec_op_end script op pos s pos' s' c :
  exec_op tx inputIdx pkScript script op pos s = Ok (pos', s', c) → (pos ≤ length script)%nat → (pos' ≤ length script)%nat.
Proof.
  unfold exec_op, exec_push, stack_pop. intros H Hp. res_cases;
    repeat match goal with H : byte_slice _ _ _ = Ok _ |- _ => apply byte_slice_Ok in H as [? _] end; lia.
Qed.

Definition exec_state_ok (script : list byte) (st : nat * Z * stack) : Prop :=
  (st.1.1 ≤ length script)%nat ∧ 0 ≤ st.1.2 ≤ maxOpsPerScript ∧ stack_bounded st.2.

Lemma exec_step_ok script st st' :
  exec_step tx inputIdx pkScript script st = Ok st' → exec_state_ok script st → exec_state_ok script st'.
Proof.
  intros Hx (Hp & Hn & Hs). pose proof (exec_step_bounded _ _ _ Hx Hs) as Hs'. revert Hx.
  destruct st as [[pos n] s]. unfold exec_step. intros Hx. res_inv. unfold byte_index in *.
  destruct (script !! pos) as [byte|] eqn:Hb; [|done]. apply lookup_lt_Some in Hb. split_and!; cbn in *; [|..|done].
  - eapply exec_op_end; [done|lia].
  - destruct (_ <? _); lia.
  - destruct (OpPushData2 <? x); cbn in *; rewrite ?Z.ltb_ge in *; lia.
Qed.

Lemma exec_reaches_ok script st st' :
  exec_reaches script st st' → exec_state_ok script st → exec_state_ok script st'.
Proof. induction 1; eauto using exec_step_ok. Qed.

Lemma exec_loop_reaches fuel script st s' :
  exec_loop tx inputIdx pkScript fuel script st = Ok s' → exec_state_ok script st →
  ∃ n, exec_reaches script st (length script, n, s').
Proof.
  revert st. induction fuel as [|fuel IH]; intros st Hx Hok; cbn [exec_loop] in Hx;
    destruct (Z.ltb_spec (Z.of_nat st.1.1) (len script)); try done.
  1,3: exists st.1.2; injection Hx as <-; destruct st as [[pos n] s], Hok as [Hp _]; cbn in *;
    replace (length script) with pos by lia; apply rtc_refl.
  apply bind_Ok in Hx as (st' & Hst & Hx). destruct (IH st' Hx ltac:(by eapply exec_step_ok)) as [n Hn].
  exists n. by eapply rtc_l.
Qed.

(** ** The P2PKH template *)

Lemma bytesEqual_eq a b : bytesEqual a b = true ↔ a = b.
Proof.
  unfold bytesEqual. destruct (Z.eqb_spec (len a) (len b)) as [Hl|Hl]; simpl.
  - revert b Hl. induction a as [|x a IH]; intros [|y b] Hl; simpl in *; try done.
    destruct (decide (x = y)) as [->|Hn].
    + rewrite bool_decide_true by done. simpl. rewrite IH by lia. naive_solver.
    + rewrite bool_decide_false by done. naive_solver.
  - split; [done|]. by intros ->.
Qed.

(** One round of the loop, as long as the opcode count is within its limit. *)
Lemma exec_loop_round fuel script pos n s b :
  script !! pos = Some b → n < maxOpsPerScript →
  exec_loop tx inputIdx pkScript (S fuel) script (pos, n, s) =
    ('(pos', s', check) ← exec_op tx inputIdx pkScript script (byte_to_Z b) (pos + 1) s;
     _ ← fail_if (check && (maxStackSize <? stack_size s')) (Errorf "stack overflow: %d items");
     exec_loop tx inputIdx pkScript fuel script
       (pos', if OpPushData2 <? byte_to_Z b then n + 1 else n, s')).
Proof.
  intros Hb Hn. assert (Hp := lookup_lt_Some _ _ _ Hb).
  cbn [exec_loop fst]. rewrite (proj2 (Z.ltb_lt _ _)) by lia.
  unfold exec_step, byte_index. rewrite Hb. cbn [mbind res_bind].
  assert ((OpPushData2 <? byte_to_Z b) && (maxOpsPerScript <?
           (if OpPushData2 <? byte_to_Z b then n + 1 else n)) = false) as ->.
  { destruct (_ <? byte_to_Z b); [apply Z.ltb_ge; lia|done]. }
  cbn [fail_if mbind res_bind].
  destruct (exec_op _ _ _ _ _ _ _) as [[[p' s'] c]| |]; cbn [mbind res_bind]; [|done..].
  by destruct (fail_if _ _).
Qed.

Lemma exec_loop_done fuel script st :
  st.1.1 = length script → exec_loop tx inputIdx pkScript fuel script st = Ok st.2.
Proof. intros Hst. destruct fuel; cbn [exec_loop]; by rewrite Hst, Z.ltb_irrefl. Qed.

(** The operations of the template that cannot fail on a large enough stack. *)
Lemma exec_op_dup script pos x s :
  exec_op tx inputIdx pkScript script (byte_to_Z x76) pos (x :: s) = Ok (pos, x :: x :: s, true).
Proof. cbn -[Z.ltb Z.of_nat stack_size]. by rewrite (proj2 (Z.ltb_ge _ _)) by (unfold stack_size; cbn [length]; lia). Qed.

Lemma exec_op_hash160 script pos x s :
  exec_op tx inputIdx pkScript script (byte_to_Z xa9) pos (x :: s)
  = Ok (pos, Hash160 x :: s, true).
Proof.
  cbn -[Z.ltb Z.of_nat stack_size Hash160]. by rewrite (proj2 (Z.ltb_ge _ _)) by (unfold stack_size; cbn [length]; lia).
Qed.

Lemma exec_op_equalverify script pos b a s :
  exec_op tx inputIdx pkScript script (byte_to_Z x88) pos (b :: a :: s) =
    (_ ← fail_if (negb (bytesEqual a b)) (Errorf "OP_EQUALVERIFY: values not equal");
     Ok (pos, s, true)).
Proof.
  cbn -[Z.ltb Z.of_nat stack_size bytesEqual]. by rewrite (proj2 (Z.ltb_ge _ _)) by (unfold stack_size; cbn [length]; lia).
Qed.

Lemma exec_op_checksig script pos pk sig s :
  exec_op tx inputIdx pkScript script (byte_to_Z xac) pos (pk :: sig :: s) =
    (ok ← exec_checksig tx inputIdx pkScript pk sig;
     Ok (pos, (if ok : bool then [x01] else []) :: s, ok)).
Proof.
  cbn -[Z.ltb Z.of_nat stack_size exec_checksig].
  rewrite (proj2 (Z.ltb_ge _ _)) by (unfold stack_size; cbn [length]; lia). cbn -[exec_checksig].
  destruct (exec_checksig _ _ _ _ _) as [[]| |]; done.
Qed.

Lemma exec_op_push script (b : byte) pos s n :
  byte_to_Z b = Z.of_nat n → (1 ≤ n ≤ 75)%nat → (pos + n ≤ length script)%nat →
  exec_op tx inputIdx pkScript script (byte_to_Z b) pos s
  = Ok ((pos + n)%nat, slice pos (pos + n) script :: s, true).
Proof.
  intros -> Hn Hl. unfold exec_op, exec_push, OpFalse.
  rewrite (proj2 (Z.eqb_neq _ _)), (proj2 (Z.leb_le 1 _)), (proj2 (Z.leb_le _ 0x4b)) by lia.
  cbn [andb]. rewrite !(proj2 (Z.ltb_ge _ _))
    by (unfold maxStackElemSize; lia).
  cbn [fail_if mbind res_bind]. rewrite Nat2Z.id. unfold byte_slice. by rewrite bool_decide_true by lia.
Qed.

(** The template up to OP_EQUALVERIFY on a non-empty stack: the key hashes to
    the expected value and is left on the stack. *)
Lemma p2pkh_hash_check h pk s0 :
  length h = PubKeyHashSize →
  execute tx inputIdx pkScript (pk :: s0) (MakeP2PKHScript h) =
    (_ ← fail_if (998 <? len s0) (Errorf "stack overflow: %d items");
     _ ← fail_if (997 <? len s0) (Errorf "stack overflow: %d items");
     _ ← fail_if (negb (bytesEqual (Hash160 pk) h)) (Errorf "OP_EQUALVERIFY: values not equal");
     exec_loop tx inputIdx pkScript 21 (MakeP2PKHScript h) (24%nat, 3, pk :: s0)).
Proof.
  intros Hl. set (script := MakeP2PKHScript h).
  assert (Hs : length script = 25%nat) by by apply P2PKH_length.
  assert (Hla : script !! 23%nat = Some x88).
  { unfold script, MakeP2PKHScript. rewrite app_assoc, lookup_app_r; rewrite length_app, Hl; done || (unfold PubKeyHashSize; simpl; lia). }
  assert (Hsl : slice 3 23 script = h).
  { unfold script, MakeP2PKHScript. rewrite (slice_app_skip 3 23 3) by done. by apply slice_app_take. }
  assert (Hchk : ∀ s k, stack_size s = len s0 + k →
            (maxStackSize <? stack_size s) = (1000 - k <? len s0)).
  { intros s k Hk. rewrite Hk. unfold maxStackSize. destruct (Z.ltb_spec 1000 (len s0 + k)); lia. }
  unfold execute. rewrite Hs.
  replace (maxScriptSize <? Z.of_nat 25) with false by done. cbn [fail_if mbind res_bind].
  rewrite (exec_loop_round _ _ _ _ _ x76), exec_op_dup by done. cbn [mbind res_bind andb].
  rewrite (Hchk _ 2) by (unfold stack_size; simpl; lia). change (1000 - 2) with 998.
  destruct (Z.ltb_spec 998 (len s0)); [done|]. cbn [fail_if mbind res_bind].
  rewrite (exec_loop_round _ _ _ _ _ xa9), exec_op_hash160 by done. cbn [mbind res_bind andb].
  rewrite (Hchk _ 2), (proj2 (Z.ltb_ge (1000 - 2) (len s0))) by (unfold stack_size; simpl; lia).
  cbn [fail_if mbind res_bind].
  rewrite (exec_loop_round _ _ _ _ _ x14), (exec_op_push _ _ _ _ 20) by (done || lia).
  cbn [mbind res_bind andb]. rewrite (Hchk _ 3) by (unfold stack_size; simpl; lia).
  change (1000 - 3) with 997. destruct (Z.ltb_spec 997 (len s0)); [done|].
  cbn [fail_if mbind res_bind]. change (0 + 1 + 1 + 1)%nat with 3%nat.
  change (3 + 20)%nat with 23%nat. rewrite Hsl.
  rewrite (exec_loop_round _ _ _ _ _ x88), exec_op_equalverify by done.
  destruct (bytesEqual _ _); [|done]. cbn [fail_if negb mbind res_bind andb].
  rewrite (Hchk _ 1), (proj2 (Z.ltb_ge (1000 - 1) (len s0))) by (unfold stack_size; simpl; lia).
  done.
Qed.

(** The template runs to the end exactly on a stack with a key of the right
    hash above a signature that OP_CHECKSIG accepts (or that is empty). *)
Lemma p2pkh_execute h s s' :
  length h = PubKeyHashSize →
  execute tx inputIdx pkScript s (MakeP2PKHScript h) = Ok s' ↔
  ∃ pk sig rest ok, s = pk :: sig :: rest ∧ len rest ≤ 996 ∧ Hash160 pk = h ∧
    exec_checksig tx inputIdx pkScript pk sig = Ok ok ∧
    s' = (if ok : bool then [x01] else []) :: rest.
Proof.
  intros Hl. assert (Hs := P2PKH_length h Hl).
  assert (Hla : MakeP2PKHScript h !! 24%nat = Some xac).
  { unfold MakeP2PKHScript. rewrite app_assoc, lookup_app_r; rewrite length_app, Hl; done || (unfold PubKeyHashSize; simpl; lia). }
  destruct s as [|pk [|sig rest]].
  - unfold execute. rewrite Hs. cbn. naive_solver.
  - rewrite p2pkh_hash_check by done. split; [|naive_solver]. cbn [length fail_if mbind res_bind].
    destruct (bytesEqual _ _); [|done]. cbn [negb fail_if mbind res_bind Z.ltb].
    rewrite (exec_loop_round _ _ _ _ _ xac) by done. done.
  - rewrite p2pkh_hash_check, (exec_loop_round _ _ _ _ _ xac), exec_op_checksig by done.
    assert (Hb := bytesEqual_eq (Hash160 pk) h).
    destruct (Z.ltb_spec 998 (len (sig :: rest))), (Z.ltb_spec 997 (len (sig :: rest)));
      cbn [fail_if mbind res_bind]; try (simpl in *; naive_solver lia).
    destruct (bytesEqual _ _); [|naive_solver]. cbn [negb fail_if mbind res_bind].
    destruct (exec_checksig _ _ _ _ _) as [ok| |] eqn:Hc; cbn [mbind res_bind];
      [|by split; [done|intros (? & ? & ? & ? & ? & _ & _ & ? & _); simplify_eq; congruence]..].
    rewrite (proj2 (Z.ltb_ge maxStackSize _)) by (unfold stack_size, maxStackSize; simpl in *; lia).
    rewrite andb_false_r. cbn [fail_if mbind res_bind]. rewrite exec_loop_done by done. split.
    + intros [= <-]. exists pk, sig, rest, ok. simpl in *. naive_solver lia.
    + intros (? & ? & ? & ? & ? & _ & _ & Hc' & ->). simplify_eq. rewrite Hc in Hc'. by simplify_eq.
Qed.

(** The hash type and the signature of a non-empty string. *)
Lemma sig_parts sig : sig ≠ [] → ∃ b, last sig = Some b ∧ byte_index sig (length sig - 1) = Ok (byte_to_Z b) ∧
  byte_slice sig 0 (length sig - 1) = Ok (take (length sig - 1) sig).
Proof.
  intros Hs. destruct (last sig) as [b|] eqn:Hb; [|by apply last_None in Hb]. exists b. split; [done|].
  rewrite last_lookup in Hb. replace (pred (length sig)) with (length sig - 1)%nat in Hb by lia. split.
  - unfold byte_index. by rewrite Hb.
  - apply byte_slice_Ok. split; [lia|]. unfold slice. by rewrite drop_0, Nat.sub_0_r.
Qed.

(** OP_CHECKSIG accepts what [crypto.VerifySignature] accepts. *)
Lemma exec_checksig_true pk sig :
  exec_checksig tx inputIdx pkScript pk sig = Ok true ↔
  ∃ pub, ParsePubKey pk = inr pub ∧ VerifySignature tx inputIdx pkScript sig pub = Ok ().
Proof.
  unfold exec_checksig, VerifySignature.
  destruct (Z.eqb_spec (len sig) 0) as [Hz|Hz].
  { split; [done|]. intros (pub & _ & H). rewrite (proj2 (Z.ltb_lt _ _)) in H by lia. done. }
  destruct (sig_parts sig) as (b & Hlast & Hbyte & Hder); [by destruct sig|]. rewrite Hlast, Hbyte.
  assert ((byte_to_Z b =? byte_to_Z SigHashAll) = bool_decide (Some b = Some SigHashAll)) as Htype.
  { destruct (decide (b = SigHashAll)) as [->|Hne]; [by rewrite Z.eqb_refl, bool_decide_true|].
    rewrite bool_decide_false by congruence. apply Z.eqb_neq. intros Hb%byte_to_Z_inj. done. }
  destruct (_ <? 2); cbn [fail_if mbind res_bind]; [naive_solver|]. rewrite Htype.
  destruct (bool_decide (Some b = _)); cbn [fail_if negb mbind res_bind]; [|naive_solver].
  rewrite Hder. cbn. destruct (ParseDERSignature _) as [|sg]; cbn; [naive_solver|].
  destruct (ParsePubKey _) as [|pub]; cbn; [naive_solver|].
  destruct (ComputeSigHash _ _ _) as [sh| |]; cbn; [|naive_solver..].
  split.
  - destruct (Signature_Verify sg sh pub) eqn:Hv; [|done]. intros _. exists pub. by rewrite Hv.
  - intros (pub' & [= ->] & H). by destruct (Signature_Verify sg sh pub').
Qed.

Lemma exec_checksig_false pk sig :
  exec_checksig tx inputIdx pkScript pk sig = Ok false → sig = [].
Proof.
  unfold exec_checksig. destruct (Z.eqb_spec (len sig) 0) as [Hz|Hz]; [by destruct sig|].
  intros H. res_inv.
Qed.

(** Two direct pushes, the form of a P2PKH signature script. *)
Lemma execute_two_pushes a b :
  (1 ≤ length a ≤ 75)%nat → (1 ≤ length b ≤ 75)%nat →
  execute tx inputIdx pkScript [] (MakeP2PKHSignatureScript a b) = Ok [b; a].
Proof.
  intros Ha Hb. set (script := MakeP2PKHSignatureScript a b).
  assert (Hz : ∀ n, (1 ≤ n ≤ 75)%nat → byte_to_Z (Z_to_byte (Z.of_nat n)) = Z.of_nat n).
  { intros n Hn. rewrite byte_to_Z_to_byte. apply Z.mod_small. lia. }
  assert (Hs : length script = S (length a + S (length b))).
  { unfold script, MakeP2PKHSignatureScript. rewrite !length_app. simpl. lia. }
  unfold execute. rewrite (proj2 (Z.ltb_ge _ _)) by (unfold maxScriptSize; lia).
  rewrite Hs. cbn [fail_if mbind res_bind].
  rewrite (exec_loop_round _ _ _ _ _ (Z_to_byte (len a))) by done.
  rewrite (exec_op_push _ _ _ _ (length a)) by (auto; lia). cbn [mbind res_bind andb].
  change (maxStackSize <? stack_size [_]) with false. cbn [fail_if mbind res_bind].
  destruct (length a + S (length b))%nat as [|fuel] eqn:Hfuel; [lia|].
  rewrite (exec_loop_round _ _ _ _ _ (Z_to_byte (len b))).
  2:{ unfold script, MakeP2PKHSignatureScript. rewrite app_assoc, lookup_app_r; rewrite !length_app; simpl; [|lia].
      by rewrite Nat.sub_diag. }
  2:{ by destruct (_ <? byte_to_Z _). }
  rewrite (exec_op_push _ _ _ _ (length b)) by (auto; lia). cbn [mbind res_bind andb].
  change (maxStackSize <? stack_size [_; _]) with false. cbn [fail_if mbind res_bind].
  rewrite exec_loop_done by (cbn [fst snd]; lia). cbn [snd]. f_equal.
  unfold script, MakeP2PKHSignatureScript. f_equal; [|f_equal].
  - rewrite !app_assoc. rewrite (slice_app_skip _ _ (1 + length a + 1)) by (rewrite ?length_app; simpl; lia).
    match goal with |- slice ?i _ _ = _ => replace i with 0%nat by lia end. apply slice_all. lia.
  - rewrite (slice_app_skip _ _ 1) by (simpl; lia). apply slice_app_take. lia.
Qed.
End engine_lemmas.

(** ** Spending pay-to-public-key-hash outputs *)

Lemma P2PKH_spends `{CryptoLib} sigScript h tx inputIdx :
  length h = PubKeyHashSize →
  Verify sigScript (MakeP2PKHScript h) tx inputIdx = Ok () ↔
  ∃ pk sig pub,
    execute tx inputIdx (MakeP2PKHScript h) [] sigScript = Ok [pk; sig] ∧
    Hash160 pk = h ∧ ParsePubKey pk = inr pub ∧
    VerifySignature tx inputIdx (MakeP2PKHScript h) sig pub = Ok ().
Proof.
  intros Hl. unfold Verify. rewrite (P2PKH_length h Hl).
  change (byte_index (MakeP2PKHScript h) 0) with (Ok OpDup). cbn [mbind res_bind Z.eqb fail_if].
  change (OpDup =? OpReturn) with false. cbn [fail_if mbind res_bind].
  split.
  - intros Hv. res_inv.
    match goal with H : execute _ _ _ _ (MakeP2PKHScript h) = Ok _ |- _ =>
      apply p2pkh_execute in H as (pk & sig & rest & ok & -> & _ & Hh & Hc & ->); [|done] end.
    destruct ok; [|done]. apply exec_checksig_true in Hc as (pub & Hpub & Hsig).
    destruct rest as [|? rest].
    { by exists pk, sig, pub. }
    match goal with H : negb (stack_size _ =? 1) = false |- _ =>
      apply negb_false_iff, Z.eqb_eq in H; unfold stack_size in H; simpl in H; lia end.
  - intros (pk & sig & pub & -> & Hh & Hpub & Hsig). cbn [wrap mbind res_bind].
    rewrite (proj2 (p2pkh_execute tx inputIdx (MakeP2PKHScript h) h [pk; sig] [[x01]] Hl)); [done|].
    exists pk, sig, [], true. split_and!; try done. apply exec_checksig_true. eauto.
Qed.

(** The signature script of the owner is accepted. *)
Lemma SignInput_verifies `{L : CryptoLib, !CryptoLaws L} tx tx' inputIdx key sigScript :
  let pkScript := MakeP2PKHScriptFromPubKey
                    (PublicKey_SerializeCompressed (PrivateKey_PubKey key)) in
  SignInput tx inputIdx pkScript key = Ok sigScript → unsigned tx' = unsigned tx →
  Verify sigScript pkScript tx' inputIdx = Ok ().
Proof.
  intros pkScript Hs. unfold SignInput, SignTransaction in Hs. res_inv. intros Hu.
  set (pub := PrivateKey_PubKey key) in *.
  match goal with H : ComputeSigHash _ _ _ = Ok ?x |- _ =>
    apply ComputeSigHash_Ok in H as [Hi ->] end.
  set (h := DoubleSHA256 _). set (sg := ecdsa_Sign key h).
  assert (Hh : DoubleSHA256 (sighash_preimage tx' inputIdx pkScript) = h).
  { unfold h, sighash_preimage. by rewrite <- (sighash_copy_unsigned tx'), Hu, sighash_copy_unsigned. }
  assert (Hn : length (tx_Inputs tx') = length (tx_Inputs tx)).
  { apply (f_equal (λ t, length (tx_Inputs t))) in Hu. simpl in Hu.
    by rewrite !sighash_inputs_length in Hu. }
  pose proof (sig_length key h) as Hsl. pose proof (pubkey_length pub) as Hpl.
  apply P2PKH_spends; [apply Hash160_length|].
  eexists _, _, pub. split_and!; [apply execute_two_pushes; [|lia]|done|apply pubkey_parses|].
  { rewrite length_app. simpl. fold sg in Hsl |- *. lia. }
  unfold VerifySignature. fold sg. rewrite (proj2 (Z.ltb_ge _ _)), last_snoc, bool_decide_true
    by (done || (rewrite length_app; simpl; fold sg in Hsl; lia)).
  cbn [fail_if negb mbind res_bind]. rewrite length_app, Nat.add_sub, take_app_length.
  unfold sg. rewrite sig_parses. cbn [lib wrap mbind res_bind].
  change (MakeP2PKHScript _) with pkScript.
  rewrite (proj2 (ComputeSigHash_Ok tx' inputIdx pkScript h)) by (split; [lia|done]).
  cbn [wrap mbind res_bind]. unfold pub.
  rewrite sign_verifies; [done|apply DoubleSHA256_wf].
Qed.

(** ** Properties *)

(** C38: The interpreter always returns: for every signature script, output script,
    transaction and input index, [Verify] ends without running out of its
    fuel and without indexing or slicing outside a script or a signature.  A run that
    succeeds goes from the start to the end of its script, and in every state
    between two of its operations, also of a run that fails later, the position is
    within the script, at most 201 operations are counted, and the stack has at most
    1000 elements of at most 520 bytes when it had so at the start. *)
Theorem Verify_total `{CryptoLib} sigScript pkScript tx inputIdx :
  no_panic (Verify sigScript pkScript tx inputIdx) ∧
  ∀ s script, stack_bounded s →
    (∀ s', execute tx inputIdx pkScript s script = Ok s' →
       stack_bounded s' ∧ ∃ n, exec_reaches tx inputIdx pkScript script (0%nat, 0, s) (length script, n, s')) ∧
    (∀ pos n s', exec_reaches tx inputIdx pkScript script (0%nat, 0, s) (pos, n, s') →
       (pos ≤ length script)%nat ∧ 0 ≤ n ≤ maxOpsPerScript ∧ stack_bounded s').
Proof.
  split.
  - unfold Verify. pose proof execute_no_panic as He. np_step.
    all: try (apply no_panic_wrap, He). apply no_panic_byte_index. res_inv.
    destruct pkScript; simpl in *; [done|lia].
  - intros s script Hb. assert (exec_state_ok script (0%nat, 0, s)) as Hok by (split_and!; try done; cbn; lia). split.
    + intros s' Hx. split; [by eapply execute_bounded|]. unfold execute in Hx. res_inv. by eapply exec_loop_reaches.
    + intros pos n s' Hr. exact (exec_reaches_ok _ _ _ _ _ _ Hr Hok).
Qed.

(** C2: A P2PKH output is spendable exactly by its owner's signature: whatever the
    signature script is, [Verify] accepts it for the template of a key hash if
    and only if it leaves just a signature and a public key, the key hashes to
    the expected value, and [crypto.VerifySignature] accepts the signature
    under that key for this input of this transaction. *)
Theorem P2PKH_spend_iff `{CryptoLib} sigScript h tx inputIdx :
  length h = PubKeyHashSize →
  Verify sigScript (MakeP2PKHScript h) tx inputIdx = Ok () ↔
  ∃ pk sig pub,
    execute tx inputIdx (MakeP2PKHScript h) [] sigScript = Ok [pk; sig] ∧
    Hash160 pk = h ∧ ParsePubKey pk = inr pub ∧
    VerifySignature tx inputIdx (MakeP2PKHScript h) sig pub = Ok ().
Proof. apply P2PKH_spends. Qed.


(** Signing works: the signature script [SignInput] makes for an input that
    spends the owner's P2PKH output is accepted by [Verify], in every
    transaction that differs from the signed one only in its signature
    scripts. *)
Theorem SignInput_spends `{L : CryptoLib, !CryptoLaws L} tx tx' inputIdx key sigScript :
  let pkScript := MakeP2PKHScriptFromPubKey
                    (PublicKey_SerializeCompressed (PrivateKey_PubKey key)) in
  SignInput tx inputIdx pkScript key = Ok sigScript → unsigned tx' = unsigned tx →
  Verify sigScript pkScript tx' inputIdx = Ok ().
Proof. apply SignInput_verifies. Qed.

(** Some outputs can be spent by nobody: for every signature script and
    transaction, [Verify] returns an error for each script that
    [crypto.IsUnspendableScript] reports, for the placeholder script of the
    genesis outputs and for the burn script of the testnet premine. *)
Theorem unspendable_outputs `{CryptoLib} sigScript pkScript tx inputIdx :
  IsUnspendableScript pkScript = true ∨ pkScript = [x00] ∨ pkScript = TestnetBurnScript →
  Verify sigScript pkScript tx inputIdx ≠ Ok ().
Proof.
  intros Hpk Hv. unfold Verify in Hv. res_inv.
  match goal with H : execute _ _ _ ?s pkScript = Ok _ |- _ =>
    rename H into Hx; rename s into s0 end.
  destruct Hpk as [Hun | [-> | ->]].
  - destruct pkScript as [|b pkScript]; [done|]. apply bool_decide_eq_true in Hun as ->.
    unfold byte_index in *. by simplify_eq/=.
  - unfold execute in Hx. cbn [length fail_if mbind res_bind] in Hx.
    change (maxScriptSize <? Z.of_nat 1) with false in Hx. cbn [fail_if mbind res_bind] in Hx.
    rewrite (exec_loop_round _ _ _ _ _ _ _ _ x00) in Hx by done.
    change (exec_op _ _ _ _ _ _ _) with (Ok (1%nat, stack_push s0 [], true)) in Hx.
    cbn [mbind res_bind] in Hx. res_inv.
  - unfold execute in Hx.
    change (maxScriptSize <? len TestnetBurnScript) with false in Hx. cbn [fail_if mbind res_bind] in Hx.
    change (length TestnetBurnScript) with 23%nat in Hx.
    by rewrite (exec_loop_round _ _ _ _ _ _ _ _ x62) in Hx by done.
Qed.

(** ** Witnesses *)

(** A concrete instance of the cryptographic packages: a key is a byte, its
    public key the byte repeated, a signature the signed hash and the key. *)
Definition toy_pubkey (k : byte) : list byte := x02 :: replicate 32 k.

#[local] Instance toy_lib : CryptoLib := {|
  Signature := list byte * byte;
  PublicKey := byte;
  PrivateKey := byte;
  ripemd160_Sum := take 20;
  ParseDERSignature := λ b,
    match b with x30 :: k :: h => inr (h, k) | _ => inl (Errorf "not DER") end;
  ParsePubKey := λ b,
    match b with
    | _ :: k :: _ => if decide (b = toy_pubkey k) then inr k else inl (Errorf "not a key")
    | _ => inl (Errorf "not a key")
    end;
  Signature_Verify := λ s h p, bool_decide (s = (h, p));
  Signature_Serialize := λ s, x30 :: s.2 :: take 32 s.1;
  ecdsa_Sign := λ k h, (take 32 h, k);
  secp256k1_PrivKeyFromBytes := λ b, default x00 (head b);
  PrivateKey_PubKey := λ k, k;
  PublicKey_SerializeCompressed := toy_pubkey;
|}.

Lemma toy_laws : CryptoLaws toy_lib.
Proof.
  split; cbn [Signature_Verify ecdsa_Sign PrivateKey_PubKey ParseDERSignature Signature_Serialize
              ParsePubKey PublicKey_SerializeCompressed toy_lib fst snd]; intros.
  - apply bool_decide_eq_true. f_equal. apply take_ge. lia.
  - by rewrite take_take.
  - cbn [length]. rewrite !length_take. lia.
  - unfold toy_pubkey. cbn [replicate]. by rewrite decide_True.
  - unfold toy_pubkey. by rewrite length_cons, length_replicate.
Qed.

Definition toy_pkScript : list byte := MakeP2PKHScriptFromPubKey (toy_pubkey x07).
Definition toy_sigScript : list byte :=
  match SignInput sample_spend 0 toy_pkScript x07 with Ok s => s | _ => [] end.
Definition toy_signed : Transaction :=
  mkTransaction 1 [mkTxInput (mkOutPoint (replicate 32 x11) 3) toy_sigScript 0xFFFFFFFE]
    [mkTxOutput 10 [x51]; mkTxOutput 20 (replicate 300 x00)] 0.

Lemma SignInput_spends_witness :
  Verify toy_sigScript toy_pkScript toy_signed 0 = Ok ().
Proof.
  refine (@SignInput_spends toy_lib toy_laws sample_spend toy_signed 0 x07 toy_sigScript _ _).
  - by_decide.
  - by_decide.
Defined.

Lemma P2PKH_spend_iff_witness :
  ¬ Verify (MakeP2PKHSignatureScript [x30; x01] (toy_pubkey x08)) toy_pkScript toy_signed 0 = Ok ().
Proof.
  intros Hv. refine (_ (proj1 (P2PKH_spend_iff _ (Hash160 (toy_pubkey x07)) _ _ _) Hv)).
  - intros (pk & sig & pub & He & Hh & _).
    rewrite execute_two_pushes in He by (cbn; lia). injection He as <- <-.
    revert Hh. by vm_compute.
  - by_decide.
Defined.

Lemma unspendable_outputs_witness :
  Verify [x51] TestnetBurnScript sample_spend 0 ≠ Ok ().
Proof. apply (unspendable_outputs [x51] TestnetBurnScript sample_spend 0). by right; right. Defined.
