(* ===== verification/TxValidation.v ===== *)
(** * internal/consensus/txvalidation.go

    The contextual checks on transactions: lock times, the inputs of a block
    against the set of unspent outputs ([ValidateTransactionInputs]), the
    admission check of a single transaction ([ValidateSingleTransaction]) and
    its fee.  Script execution is the interpreter of file Script. *)
From S2P Require Import Prelude Types Sha256 Merkle Params Utxo Keys Script.

Definition SequenceLockTimeDisableFlag : Z := Z.shiftl 1 31.
Definition SequenceLockTimeTypeFlag : Z := Z.shiftl 1 22.
Definition SequenceLockTimeMask : Z := 0x0000ffff.
Definition lockTimeThreshold : Z := 500000000.

(** ** Lock times *)

Definition CheckTransactionFinality (tx : Transaction) (blockHeight blockMedianTime : Z)
    : res () :=
  if tx_LockTime tx =? 0 then Ok ()
  else if forallb (λ i, in_Sequence i =? 0xFFFFFFFF) (tx_Inputs tx) then Ok ()
  else if tx_LockTime tx <? lockTimeThreshold then
    fail_if (blockHeight <=? tx_LockTime tx)
      (Errorf "transaction locktime %d not satisfied (block height %d)")
  else
    fail_if (blockMedianTime <=? tx_LockTime tx)
      (Errorf "transaction locktime %d not satisfied (median time %d)").

(** One turn of the loop of [CheckSequenceLocks]. *)
Definition check_sequence_lock (utxoSet : UtxoSet) (blockHeight : Z) (_ : ()) (i : TxInput)
    : res () :=
  if negb (Z.land (in_Sequence i) SequenceLockTimeDisableFlag =? 0) then Ok ()
  else if bool_decide (in_PreviousOutPoint i = CoinbaseOutPoint) then Ok ()
  else
    match utxoSet !! outpoint_key (in_PreviousOutPoint i) with
    | None => Err (Errorf "tx input %d: cannot verify relative locktime")
    | Some entry =>
        if negb (Z.land (in_Sequence i) SequenceLockTimeTypeFlag =? 0) then
          Err (Errorf "tx input %d: time-based relative locktimes (BIP68) are not yet supported")
        else
          let requiredBlocks := Z.land (in_Sequence i) SequenceLockTimeMask in
          _ ← fail_if (blockHeight <? ue_Height entry)
                (Errorf "tx input %d: block height %d < UTXO height %d");
          let confirmations := blockHeight - ue_Height entry in
          fail_if (confirmations <? requiredBlocks)
            (Errorf "tx input %d: relative locktime requires %d confirmations, have %d")
    end.

Definition CheckSequenceLocks (tx : Transaction) (blockHeight blockMedianTime : Z)
    (utxoSet : UtxoSet) : res () :=
  foldM (check_sequence_lock utxoSet blockHeight) () (tx_Inputs tx).

(** The lock time rules, from their activation height on. *)
Definition check_locks (p : ChainParams) (tx : Transaction) (height medianTime : Z)
    (utxoSet : UtxoSet) : res () :=
  match p_ActivationHeights p !! "locktime" with
  | Some locktimeHeight =>
      if locktimeHeight <=? height then
        _ ← wrap "tx" (CheckTransactionFinality tx height medianTime);
        wrap "tx" (CheckSequenceLocks tx height medianTime utxoSet)
      else Ok ()
  | None => Ok ()
  end.

(** ** The checks both validators share *)

(** Coinbase maturity of a resolved entry. *)
Definition check_maturity (height : Z) (p : ChainParams) (entry : UtxoEntry) : res () :=
  if ue_IsCoinbase entry then
    _ ← fail_if (height <? ue_Height entry)
          (Errorf "tx input: coinbase cannot be spent at this height");
    let maturityDepth := height - ue_Height entry in
    fail_if (maturityDepth <? p_CoinbaseMaturity p)
      (Errorf "tx input: coinbase output not mature")
  else Ok ().

(** Adding the value of an entry to [totalIn]. *)
Definition add_input_value (totalIn : Z) (entry : UtxoEntry) : res Z :=
  _ ← fail_if (u64 (totalIn + ue_Value entry) <? totalIn)
        (Errorf "tx: input value overflow at input %d");
  _ ← fail_if (MaxMoneyValue <? ue_Value entry)
        (Errorf "tx input %d: input value %d exceeds max money %d");
  let totalIn := u64 (totalIn + ue_Value entry) in
  _ ← fail_if (MaxMoneyValue <? totalIn)
        (Errorf "tx: cumulative input value %d exceeds max money %d");
  Ok totalIn.

(** One turn of the loop over the outputs. *)
Definition add_output_value (totalOut : Z) (out : TxOutput) : res Z :=
  _ ← fail_if (out_Value out =? 0) (Errorf "tx output %d: zero value not allowed");
  _ ← fail_if (MaxMoneyValue <? out_Value out)
        (Errorf "tx output %d: value %d exceeds max money %d");
  _ ← fail_if (u64 (totalOut + out_Value out) <? totalOut)
        (Errorf "tx output %d: value overflow");
  Ok (u64 (totalOut + out_Value out)).

Definition check_outputs (tx : Transaction) (totalIn : Z) : res Z :=
  totalOut ← foldM add_output_value 0 (tx_Outputs tx);
  _ ← fail_if (MaxMoneyValue <? totalOut)
        (Errorf "tx: total output value %d exceeds max money %d");
  _ ← fail_if (totalIn <? totalOut) (Errorf "tx: input value %d < output value %d");
  Ok totalOut.

(** The loop that runs the scripts on the resolved entries. *)
Definition check_script `{CryptoLib} (tx : Transaction) (resolved : list (option UtxoEntry))
    (_ : ()) (inIdx : Z) (i : TxInput) : res () :=
  match resolved !! Z.to_nat inIdx with
  | None => Panic
  | Some None => Ok ()
  | Some (Some entry) =>
      if IsLegacyUnvalidatedScript (ue_PkScript entry) then Ok ()
      else wrap "tx input %d: script validation failed"
             (Verify (in_SignatureScript i) (ue_PkScript entry) tx inIdx)
  end.

Definition check_scripts `{CryptoLib} (tx : Transaction) (resolved : list (option UtxoEntry))
    : res () :=
  foldiM (check_script tx resolved) () (tx_Inputs tx).

(** ** Validating the transactions of a block *)

(** The maps that live for the whole block, and the fees so far. *)
Record validate_state : Type := mkValidateState {
  vs_spentInBlock : gset (list byte);
  vs_createdInBlock : UtxoSet;
  vs_totalFees : Z
}.

(** The variables of one transaction. *)
Record input_state : Type := mkInputState {
  is_seenInputs : gset (list byte);
  is_resolved : list (option UtxoEntry);
  is_totalIn : Z
}.

Definition validate_input (s : UtxoSet) (height : Z) (p : ChainParams)
    (st : validate_state * input_state) (inIdx : Z) (i : TxInput)
    : res (validate_state * input_state) :=
  let '(vs, ist) := st in
  let opKey := outpoint_key (in_PreviousOutPoint i) in
  _ ← fail_if (bool_decide (opKey ∈ is_seenInputs ist))
        (Errorf "tx input: duplicate input within transaction");
  _ ← fail_if (bool_decide (opKey ∈ vs_spentInBlock vs))
        (Errorf "tx input: double-spend within block");
  match (match vs_createdInBlock vs !! opKey with Some e => Some e | None => s !! opKey end) with
  | None => Err (Errorf "tx input: references missing UTXO")
  | Some entry =>
      _ ← check_maturity height p entry;
      totalIn ← add_input_value (is_totalIn ist) entry;
      Ok (mkValidateState ({[opKey]} ∪ vs_spentInBlock vs) (delete opKey (vs_createdInBlock vs))
            (vs_totalFees vs),
          mkInputState ({[opKey]} ∪ is_seenInputs ist)
            (<[Z.to_nat inIdx := Some entry]> (is_resolved ist)) totalIn)
  end.

(** Registering the outputs of a transaction. *)
Definition register_outputs (txHash : Hash) (height : Z) (isCoinbase : bool)
    (created : UtxoSet) (outs : list TxOutput) : UtxoSet :=
  range_outputs (λ created outIdx out,
    <[OutpointKey txHash (u32 outIdx) :=
        mkUtxoEntry (out_Value out) (out_PkScript out) height isCoinbase]> created)
    0 created outs.

Section validators.
Context `{L : CryptoLib}.

Definition validate_coinbase (height : Z) (txHashes : option (list Hash))
    (vs : validate_state) (txIdx : Z) (tx : Transaction) : res validate_state :=
  _ ← foldM (λ _ out, fail_if (out_Value out =? 0)
               (Errorf "coinbase output %d: zero value not allowed")) () (tx_Outputs tx);
  cbHash ← tx_hash_at txHashes txIdx tx;
  Ok (mkValidateState (vs_spentInBlock vs)
        (register_outputs cbHash height true (vs_createdInBlock vs) (tx_Outputs tx))
        (vs_totalFees vs)).

Definition validate_spend (s : UtxoSet) (height : Z) (p : ChainParams) (medianTime : Z)
    (txHashes : option (list Hash)) (vs : validate_state) (txIdx : Z) (tx : Transaction)
    : res validate_state :=
  _ ← fail_if (len (tx_Inputs tx) =? 0) (Errorf "tx %d: non-coinbase transaction has no inputs");
  _ ← fail_if (len (tx_Outputs tx) =? 0) (Errorf "tx %d: transaction has no outputs");
  _ ← fail_if (MaxTxSize <? Transaction_SerializeSize tx)
        (Errorf "tx %d: serialized size %d exceeds maximum %d bytes");
  txHash ← tx_hash_at txHashes txIdx tx;
  '(vs, ist) ← foldiM (validate_input s height p)
                 (vs, mkInputState ∅ (replicate (length (tx_Inputs tx)) None) 0) (tx_Inputs tx);
  totalOut ← check_outputs tx (is_totalIn ist);
  let created := register_outputs txHash height false (vs_createdInBlock vs) (tx_Outputs tx) in
  _ ← check_scripts tx (is_resolved ist);
  _ ← check_locks p tx height medianTime s;
  let fee := u64 (is_totalIn ist - totalOut) in
  _ ← fail_if (u64 (vs_totalFees vs + fee) <? vs_totalFees vs)
        (Errorf "total fees overflow at tx %d");
  Ok (mkValidateState (vs_spentInBlock vs) created (u64 (vs_totalFees vs + fee))).

Definition validate_tx (s : UtxoSet) (height : Z) (p : ChainParams) (medianTime : Z)
    (txHashes : option (list Hash)) (vs : validate_state) (txIdx : Z) (tx : Transaction)
    : res validate_state :=
  if Transaction_IsCoinbase tx then validate_coinbase height txHashes vs txIdx tx
  else validate_spend s height p medianTime txHashes vs txIdx tx.

(** One turn of the sum of the coinbase outputs, also in the structural check. *)
Definition add_coinbase_value (coinbaseValue : Z) (out : TxOutput) : res Z :=
  _ ← fail_if (u64 (coinbaseValue + out_Value out) <? coinbaseValue)
        (Errorf "coinbase output %d: value accumulation overflow");
  Ok (u64 (coinbaseValue + out_Value out)).

Definition ValidateTransactionInputs (block : Block) (utxoSet : UtxoSet) (height : Z)
    (p : ChainParams) (medianTimePast : Z) (txHashes : option (list Hash)) : res Z :=
  vs ← foldiM (validate_tx utxoSet height p medianTimePast txHashes)
         (mkValidateState ∅ ∅ 0) (blk_Transactions block);
  let totalFees := vs_totalFees vs in
  let subsidy := CalcSubsidy p height in
  let maxCoinbase := u64 (subsidy + totalFees) in
  _ ← fail_if (maxCoinbase <? subsidy) (Errorf "subsidy + fees overflow");
  match blk_Transactions block with
  | [] => Panic
  | cb :: _ =>
      coinbaseValue ← foldM add_coinbase_value 0 (tx_Outputs cb);
      _ ← fail_if (maxCoinbase <? coinbaseValue) (Errorf "coinbase value exceeds subsidy+fees");
      Ok totalFees
  end.

(** ** Validating a single transaction *)

Definition validate_single_input (utxoSet : UtxoSet) (supplementalUtxos : option UtxoSet)
    (spendHeight : Z) (p : ChainParams) (ist : input_state) (inIdx : Z) (i : TxInput)
    : res input_state :=
  let opKey := outpoint_key (in_PreviousOutPoint i) in
  _ ← fail_if (bool_decide (opKey ∈ is_seenInputs ist)) (Errorf "tx input: duplicate input");
  let entry := match utxoSet !! opKey with
               | Some e => Some e
               | None => match supplementalUtxos with Some m => m !! opKey | None => None end
               end in
  match entry with
  | None => Err (Errorf "tx input: references missing UTXO")
  | Some entry =>
      _ ← check_maturity spendHeight p entry;
      totalIn ← add_input_value (is_totalIn ist) entry;
      Ok (mkInputState ({[opKey]} ∪ is_seenInputs ist)
            (<[Z.to_nat inIdx := Some entry]> (is_resolved ist)) totalIn)
  end.

(** [now] is [time.Now().Unix()]. *)
Definition ValidateSingleTransaction (tx : Transaction) (utxoSet : UtxoSet) (tipHeight : Z)
    (p : ChainParams) (supplementalUtxos : option UtxoSet) (now : Z) : res Z :=
  _ ← fail_if (Transaction_IsCoinbase tx)
        (Errorf "coinbase transactions cannot be validated individually");
  _ ← fail_if (len (tx_Inputs tx) =? 0) (Errorf "transaction has no inputs");
  _ ← fail_if (len (tx_Outputs tx) =? 0) (Errorf "transaction has no outputs");
  _ ← fail_if (MaxTxSize <? Transaction_SerializeSize tx)
        (Errorf "transaction size %d exceeds maximum %d bytes");
  let spendHeight := u32 (tipHeight + 1) in
  ist ← foldiM (validate_single_input utxoSet supplementalUtxos spendHeight p)
          (mkInputState ∅ (replicate (length (tx_Inputs tx)) None) 0) (tx_Inputs tx);
  totalOut ← check_outputs tx (is_totalIn ist);
  _ ← check_scripts tx (is_resolved ist);
  _ ← check_locks p tx spendHeight (u32 now) utxoSet;
  Ok (u64 (is_totalIn ist - totalOut)).
End validators.

(** ** Fees *)

Definition fee_add_input (utxoSet : UtxoSet) (totalIn : Z) (i : TxInput) : res Z :=
  match utxoSet !! outpoint_key (in_PreviousOutPoint i) with
  | None => Err (Errorf "input %d: references missing UTXO")
  | Some entry =>
      let prev := totalIn in
      let totalIn := u64 (totalIn + ue_Value entry) in
      _ ← fail_if (totalIn <? prev) (Errorf "input value overflow at input %d");
      Ok totalIn
  end.

Definition fee_add_output (totalOut : Z) (out : TxOutput) : res Z :=
  let prev := totalOut in
  let totalOut := u64 (totalOut + out_Value out) in
  _ ← fail_if (totalOut <? prev) (Errorf "output value overflow at output %d");
  Ok totalOut.

Definition CalcTxFee (tx : Transaction) (utxoSet : UtxoSet) : res Z :=
  if Transaction_IsCoinbase tx then Ok 0 else
  totalIn ← foldM (fee_add_input utxoSet) 0 (tx_Inputs tx);
  totalOut ← foldM fee_add_output 0 (tx_Outputs tx);
  _ ← fail_if (totalIn <? totalOut) (Errorf "input value %d < output value %d");
  Ok (u64 (totalIn - totalOut)).

(** ** What the validators promise *)

Definition input_key (i : TxInput) : list byte := outpoint_key (in_PreviousOutPoint i).
Definition in_total (es : list UtxoEntry) : Z := sumZ ue_Value es.
Definition out_total (outs : list TxOutput) : Z := sumZ out_Value outs.

Definition mature (height : Z) (p : ChainParams) (e : UtxoEntry) : Prop :=
  ue_IsCoinbase e = true →
  ue_Height e ≤ height ∧ p_CoinbaseMaturity p ≤ height - ue_Height e.

(** An input whose relative lock is enabled spends an output of the set that
    has enough confirmations. *)
Definition sequence_lock_met (utxoSet : UtxoSet) (height : Z) (i : TxInput) : Prop :=
  Z.land (in_Sequence i) SequenceLockTimeDisableFlag = 0 →
  in_PreviousOutPoint i ≠ CoinbaseOutPoint →
  ∃ e, utxoSet !! input_key i = Some e ∧
    Z.land (in_Sequence i) SequenceLockTimeTypeFlag = 0 ∧ ue_Height e ≤ height ∧
    Z.land (in_Sequence i) SequenceLockTimeMask ≤ height - ue_Height e.

Definition final_at (tx : Transaction) (height medianTime : Z) : Prop :=
  tx_LockTime tx = 0 ∨ Forall (λ i, in_Sequence i = 0xFFFFFFFF) (tx_Inputs tx) ∨
  (if decide (tx_LockTime tx < lockTimeThreshold) then tx_LockTime tx < height
   else tx_LockTime tx < medianTime).

(** The lock time rules, when they are active. *)
Definition locks_met (p : ChainParams) (tx : Transaction) (height medianTime : Z)
    (utxoSet : UtxoSet) : Prop :=
  ∀ h, p_ActivationHeights p !! "locktime" = Some h → h ≤ height →
    final_at tx height medianTime ∧ Forall (sequence_lock_met utxoSet height) (tx_Inputs tx).

(** A transaction that spends the entries [es] and pays [fee]: the entries are
    those of distinct outpoints, mature, and their scripts accept; no value is
    created; amounts stay within the money supply. *)
Record valid_spend `{CryptoLib} (lookup : list byte → option UtxoEntry) (height : Z)
    (p : ChainParams) (tx : Transaction) (es : list UtxoEntry) (fee : Z) : Prop := {
  sp_inputs : tx_Inputs tx ≠ [];
  sp_outputs : tx_Outputs tx ≠ [];
  sp_size : Transaction_SerializeSize tx ≤ MaxTxSize;
  sp_distinct : NoDup (input_key <$> tx_Inputs tx);
  sp_entries : Forall2 (λ i e, lookup (input_key i) = Some e) (tx_Inputs tx) es;
  sp_mature : Forall (mature height p) es;
  sp_in_range : in_total es ≤ MaxMoneyValue;
  sp_positive : Forall (λ o, 0 < out_Value o) (tx_Outputs tx);
  sp_conserves : in_total es = out_total (tx_Outputs tx) + fee;
  sp_fee : 0 ≤ fee;
  sp_scripts : ∀ (j : nat) i e, tx_Inputs tx !! j = Some i → es !! j = Some e →
    Verify (in_SignatureScript i) (ue_PkScript e) tx (Z.of_nat j) = Ok ()
}.

Definition u64_entries (s : UtxoSet) : Prop := map_Forall (λ _ e, is_u64 (ue_Value e)) s.
Definition u64_outputs (outs : list TxOutput) : Prop := Forall (λ o, is_u64 (out_Value o)) outs.

#[export] Instance u64_entries_dec s : Decision (u64_entries s).
Proof. unfold u64_entries. apply _. Defined.

(** *** The shared checks *)

Lemma check_maturity_Ok height p e : check_maturity height p e = Ok () ↔ mature height p e.
Proof.
  unfold check_maturity, mature. destruct (ue_IsCoinbase e); [|naive_solver].
  destruct (Z.ltb_spec height (ue_Height e)); cbn [fail_if mbind res_bind].
  { split; [done|]. intros []; [done|lia]. }
  destruct (Z.ltb_spec (height - ue_Height e) (p_CoinbaseMaturity p)); cbn [fail_if];
    (split; [try done|intros []; [done|try done; lia]]).
Qed.

Lemma add_input_value_Ok totalIn e t :
  is_u64 (ue_Value e) → is_u64 totalIn →
  add_input_value totalIn e = Ok t ↔ t = totalIn + ue_Value e ∧ t ≤ MaxMoneyValue.
Proof.
  intros Hv Ht. unfold add_input_value. rewrite u64_add_overflow by done.
  unfold is_u64, MaxMoneyValue in *.
  destruct (Z.leb_spec (2 ^ 64) (totalIn + ue_Value e)); cbn [fail_if mbind res_bind].
  { split; [done|lia]. }
  rewrite u64_id by (unfold is_u64; lia).
  destruct (Z.ltb_spec 2099999997690000 (ue_Value e)); cbn [fail_if mbind res_bind].
  { split; [done|lia]. }
  destruct (Z.ltb_spec 2099999997690000 (totalIn + ue_Value e)); cbn [fail_if mbind res_bind].
  { split; [done|lia]. }
  split; [intros [= <-]; lia|intros [-> _]; done].
Qed.

Lemma out_total_nonneg outs : u64_outputs outs → 0 ≤ out_total outs.
Proof. intros Ho. apply sumZ_nonneg. eapply Forall_impl; [done|]. by intros ? []. Qed.

Lemma add_output_value_Ok t o r :
  is_u64 t → is_u64 (out_Value o) →
  add_output_value t o = Ok r ↔
  r = t + out_Value o ∧ r < 2 ^ 64 ∧ 0 < out_Value o ≤ MaxMoneyValue.
Proof.
  intros Ht Ho. unfold add_output_value. rewrite u64_add_overflow by done.
  unfold is_u64, MaxMoneyValue in *.
  destruct (Z.eqb_spec (out_Value o) 0); cbn [fail_if mbind res_bind]; [split; [done|lia]|].
  destruct (Z.ltb_spec 2099999997690000 (out_Value o)); cbn [fail_if mbind res_bind];
    [split; [done|lia]|].
  destruct (Z.leb_spec (2 ^ 64) (t + out_Value o)); cbn [fail_if mbind res_bind];
    [split; [done|lia]|].
  rewrite u64_id by (unfold is_u64; lia). split; [intros [= <-]; lia|by intros [-> _]].
Qed.

Lemma check_outputs_Ok tx totalIn t :
  u64_outputs (tx_Outputs tx) →
  check_outputs tx totalIn = Ok t ↔
  t = out_total (tx_Outputs tx) ∧ Forall (λ o, 0 < out_Value o) (tx_Outputs tx) ∧
  t ≤ MaxMoneyValue ∧ t ≤ totalIn.
Proof.
  intros Ho. unfold check_outputs. rewrite bind_Ok.
  setoid_rewrite (foldM_checked_sum out_Value (λ o, 0 < out_Value o ≤ MaxMoneyValue));
    [|apply add_output_value_Ok|done|done].
  fold (out_total (tx_Outputs tx)). split.
  - intros (x & (-> & Hlt & Hall) & H). res_inv. rewrite Z.ltb_ge in *.
    split_and!; [lia| |lia|lia]. eapply Forall_impl; [done|]. simpl. lia.
  - intros (-> & Hall & Hm & Hin). exists (out_total (tx_Outputs tx)).
    rewrite !(proj2 (Z.ltb_ge _ _)) by lia. split_and!; [done|unfold MaxMoneyValue in Hm; lia| |done].
    clear Hin. unfold out_total in Hm. induction Hall as [|o outs Hpos Hall IH]; constructor; simpl in Hm.
    + split; [done|]. apply Forall_cons in Ho as [_ Ho]. pose proof (out_total_nonneg outs Ho).
      unfold out_total in *. lia.
    + apply Forall_cons in Ho as [Ho1 Ho]. apply IH; [done|]. unfold is_u64 in Ho1. lia.
Qed.

Lemma CheckTransactionFinality_Ok tx h m :
  CheckTransactionFinality tx h m = Ok () ↔ final_at tx h m.
Proof.
  unfold CheckTransactionFinality, final_at.
  destruct (Z.eqb_spec (tx_LockTime tx) 0) as [H0|H0]; [tauto|].
  destruct (forallb _ _) eqn:Hf.
  { split; [|done]. intros _. right; left. rewrite Forall_forall. intros i Hi.
    rewrite forallb_forall in Hf. apply Z.eqb_eq, Hf. by apply list_elem_of_In. }
  assert (¬ Forall (λ i, in_Sequence i = 0xFFFFFFFF) (tx_Inputs tx)) as Hnf.
  { intros Hall. apply not_true_iff_false in Hf. apply Hf, forallb_forall. intros i Hi.
    rewrite Forall_forall in Hall. by apply Z.eqb_eq, Hall, list_elem_of_In. }
  destruct (decide (tx_LockTime tx < lockTimeThreshold)) as [Hl|Hl];
    [rewrite (proj2 (Z.ltb_lt _ _)) by done|rewrite (proj2 (Z.ltb_ge _ _)) by lia];
    rewrite fail_if_Ok, Z.leb_gt; tauto.
Qed.

Lemma check_sequence_lock_Ok s h u i :
  check_sequence_lock s h u i = Ok () ↔ sequence_lock_met s h i.
Proof.
  unfold check_sequence_lock, sequence_lock_met, input_key.
  destruct (Z.eqb_spec (Z.land (in_Sequence i) SequenceLockTimeDisableFlag) 0); simpl; [|tauto].
  destruct (decide (in_PreviousOutPoint i = CoinbaseOutPoint));
    [rewrite bool_decide_true by done; tauto|rewrite bool_decide_false by done].
  destruct (s !! _) as [en|]; [|naive_solver].
  destruct (Z.eqb_spec (Z.land (in_Sequence i) SequenceLockTimeTypeFlag) 0); simpl; [|naive_solver].
  destruct (Z.ltb_spec h (ue_Height en)); simpl.
  { split; [done|]. intros []; [done..|]. naive_solver lia. }
  rewrite fail_if_Ok, Z.ltb_ge. split; [eauto 6|]. intros []; [done..|]. naive_solver.
Qed.

Lemma foldM_unit_Ok {A} (step : () → A → res ()) (P : A → Prop) l :
  (∀ u x, step u x = Ok () ↔ P x) → foldM step () l = Ok () ↔ Forall P l.
Proof.
  intros Hs. induction l as [|x l IH]; cbn [foldM]; [by split|].
  rewrite Forall_cons, bind_Ok. split.
  - intros ([] & ?%Hs & ?). tauto.
  - intros [Hx Hl]. exists (). by rewrite Hs, IH.
Qed.

Lemma check_locks_Ok p tx h m s : check_locks p tx h m s = Ok () ↔ locks_met p tx h m s.
Proof.
  unfold check_locks, locks_met. destruct (p_ActivationHeights p !! "locktime") as [lh|]; [|naive_solver].
  destruct (Z.leb_spec lh h) as [Hle|Hle]; [|naive_solver lia].
  rewrite bind_Ok. setoid_rewrite wrap_Ok. unfold CheckSequenceLocks.
  setoid_rewrite (foldM_unit_Ok _ _ _ (check_sequence_lock_Ok s h)). split.
  - intros ([] & ?%CheckTransactionFinality_Ok & ?) h' [= <-] _. done.
  - intros H. destruct (H lh) as [? ?]; [done..|]. exists (). by rewrite CheckTransactionFinality_Ok.
Qed.

Lemma check_script_Ok `{CryptoLib} tx es u k i e :
  es !! k = Some e →
  check_script tx (Some <$> es) u (Z.of_nat k) i = Ok () ↔
  Verify (in_SignatureScript i) (ue_PkScript e) tx (Z.of_nat k) = Ok ().
Proof.
  intros He. unfold check_script. rewrite Nat2Z.id, list_lookup_fmap, He. apply wrap_Ok.
Qed.

(** The script loop, when every entry is resolved. *)
Lemma check_scripts_Ok `{CryptoLib} tx es :
  length es = length (tx_Inputs tx) →
  check_scripts tx (Some <$> es) = Ok () ↔
  ∀ (j : nat) i e, tx_Inputs tx !! j = Some i → es !! j = Some e →
    Verify (in_SignatureScript i) (ue_PkScript e) tx (Z.of_nat j) = Ok ().
Proof.
  intros Hl. assert (Hgen : ∀ ins k, drop k (tx_Inputs tx) = ins →
    foldiM_from (Z.of_nat k) (check_script tx (Some <$> es)) () ins = Ok () ↔
    ∀ (j : nat) i e, (k ≤ j)%nat → tx_Inputs tx !! j = Some i → es !! j = Some e →
      Verify (in_SignatureScript i) (ue_PkScript e) tx (Z.of_nat j) = Ok ()).
  { induction ins as [|i ins IH]; intros k Hk; cbn [foldiM_from].
    - split; [|done]. intros _ j i e Hj Hi He. apply lookup_lt_Some in Hi.
      apply (f_equal length) in Hk. rewrite length_drop in Hk. simpl in Hk. lia.
    - assert (Hi : tx_Inputs tx !! k = Some i) by by rewrite <- (Nat.add_0_r k), <- lookup_drop, Hk.
      destruct (lookup_lt_is_Some_2 es k) as [e He].
      { apply lookup_lt_Some in Hi. lia. }
      assert (Hk' : drop (S k) (tx_Inputs tx) = ins).
      { rewrite (drop_S _ _ _ Hi) in Hk. by injection Hk. }
      specialize (IH (S k) Hk'). rewrite Nat2Z.inj_succ in IH. unfold Z.succ in IH.
      rewrite bind_Ok. split.
      + intros ([] & Hv%(check_script_Ok _ _ _ _ _ _ He) & Hrest) j i' e' Hj Hi' He'.
        destruct (decide (j = k)) as [->|]; [congruence|].
        apply IH with (j := j); [done|lia|done..].
      + intros Hall. exists (). split; [by apply (check_script_Ok _ _ _ _ _ _ He), Hall|].
        apply IH. intros j i' e' Hj. apply Hall. lia. }
  unfold check_scripts. change 0 with (Z.of_nat 0). rewrite (Hgen (tx_Inputs tx)) by apply drop_0.
  split; intros Hx j i e; [intros; eapply Hx; [lia|done..]|intros _; apply Hx].
Qed.

(** *** The single-transaction input loop *)

(** The lookup of [ValidateSingleTransaction]: the set, then the supplement. *)
Definition lookup_with (s : UtxoSet) (sup : option UtxoSet) (k : list byte) : option UtxoEntry :=
  match s !! k with
  | Some e => Some e
  | None => match sup with Some m => m !! k | None => None end
  end.

(** The facts the input loops establish about the inputs [ins]. *)
Record inputs_ok (lookup : list byte → option UtxoEntry) (height : Z) (p : ChainParams)
    (seen : gset (list byte)) (ins : list TxInput) (es : list UtxoEntry) : Prop := {
  io_entries : Forall2 (λ i e, lookup (input_key i) = Some e) ins es;
  io_distinct : NoDup (input_key <$> ins);
  io_unseen : ∀ k, k ∈ input_key <$> ins → k ∉ seen;
  io_mature : Forall (mature height p) es
}.

Lemma inputs_ok_nil lookup height p seen : inputs_ok lookup height p seen [] [].
Proof. split; simpl; try constructor. by intros k ?%not_elem_of_nil. Qed.

Lemma inputs_ok_cons lookup lookup' height p seen i ins e es :
  (∀ k, k ≠ input_key i → lookup' k = lookup k) →
  (input_key i ∉ seen ∧ lookup (input_key i) = Some e ∧ mature height p e) ∧
  inputs_ok lookup' height p ({[input_key i]} ∪ seen) ins es ↔
  inputs_ok lookup height p seen (i :: ins) (e :: es).
Proof.
  intros Hl. split.
  - intros [(Hs & He & Hm) [Hent Hnd Hun Hmat]].
    assert (Hni : input_key i ∉ input_key <$> ins).
    { intros Hin. apply (Hun _ Hin). set_solver. }
    split; [constructor; [done|]|by constructor| |by constructor].
    + assert (Hne : Forall (λ i', input_key i' ≠ input_key i) ins).
      { apply Forall_forall. intros i' Hi' Heq. apply Hni. apply list_elem_of_fmap. eauto. }
      clear -Hent Hl Hne. induction Hent; constructor; apply Forall_cons in Hne as [? ?]; auto.
      by rewrite <- Hl.
    + intros k. cbn [fmap list_fmap]. rewrite elem_of_cons. intros [->|Hk]; [done|].
      specialize (Hun k Hk). set_solver.
  - intros [Hent Hnd Hun Hmat]. inversion Hent as [|? ? ? ? He Hent']; subst.
    apply NoDup_cons in Hnd as [Hni Hnd]. apply Forall_cons in Hmat as [Hm Hmat].
    split; [split_and!; [apply Hun; set_solver|done|done]|]. split; [|done| |done].
    + assert (Hne : Forall (λ i', input_key i' ≠ input_key i) ins).
      { apply Forall_forall. intros i' Hi' Heq. apply Hni. apply list_elem_of_fmap. eauto. }
      clear -Hent' Hl Hne. induction Hent'; constructor; apply Forall_cons in Hne as [? ?]; auto.
      by rewrite Hl.
    + intros k Hk. specialize (Hun k ltac:(set_solver)). rewrite elem_of_union, elem_of_singleton.
      intros [->|?]; done.
Qed.

Lemma resolved_extend {A} k (r : list (option A)) (x : A) (l : list A) n :
  length r = (k + S n)%nat →
  take (S k) (<[k := Some x]> r) ++ (Some <$> l) = take k r ++ (Some <$> x :: l).
Proof.
  intros Hl. rewrite (take_S_r _ _ (Some x)) by (rewrite list_lookup_insert_eq; [done|lia]).
  rewrite take_insert_ge by lia. by rewrite <- app_assoc.
Qed.

(** The state after an input that resolves to [e]. *)
Definition input_next (ist : input_state) (k : nat) (key : list byte) (e : UtxoEntry) : input_state :=
  mkInputState ({[key]} ∪ is_seenInputs ist) (<[k := Some e]> (is_resolved ist))
    (is_totalIn ist + ue_Value e).

Lemma single_input_Ok s sup height p ist k i ist1 :
  (∀ key e, lookup_with s sup key = Some e → is_u64 (ue_Value e)) →
  is_u64 (is_totalIn ist) →
  validate_single_input s sup height p ist (Z.of_nat k) i = Ok ist1 ↔
  ∃ e, (input_key i ∉ is_seenInputs ist ∧ lookup_with s sup (input_key i) = Some e ∧
        mature height p e) ∧
    is_totalIn ist + ue_Value e ≤ MaxMoneyValue ∧ ist1 = input_next ist k (input_key i) e.
Proof.
  intros Hu Ht. unfold validate_single_input. fold (input_key i).
  change (match s !! input_key i with Some e => Some e | None => _ end)
    with (lookup_with s sup (input_key i)).
  destruct (decide (input_key i ∈ is_seenInputs ist)) as [Hin|Hin];
    [rewrite bool_decide_true by done; naive_solver|rewrite bool_decide_false by done].
  cbn [fail_if mbind res_bind]. destruct (lookup_with s sup (input_key i)) as [e|] eqn:He;
    [|naive_solver]. apply Hu in He. rewrite Nat2Z.id. rewrite bind_Ok. split.
  - intros ([] & Hm%check_maturity_Ok & H). res_inv.
    match goal with H : add_input_value _ _ = Ok _ |- _ =>
      apply add_input_value_Ok in H as [-> ?]; [|done..] end. by exists e.
  - intros (e' & (_ & [= <-] & Hm) & Hle & ->). exists (). split; [by apply check_maturity_Ok|].
    by rewrite (proj2 (add_input_value_Ok (is_totalIn ist) e _ He Ht) (conj eq_refl Hle)).
Qed.

Lemma single_inputs_Ok s sup height p ins k ist ist' :
  (∀ key e, lookup_with s sup key = Some e → is_u64 (ue_Value e)) →
  is_u64 (is_totalIn ist) → is_totalIn ist ≤ MaxMoneyValue →
  length (is_resolved ist) = (k + length ins)%nat →
  foldiM_from (Z.of_nat k) (validate_single_input s sup height p) ist ins = Ok ist' ↔
  ∃ es, inputs_ok (lookup_with s sup) height p (is_seenInputs ist) ins es ∧
    is_totalIn ist' = is_totalIn ist + in_total es ∧ is_totalIn ist' ≤ MaxMoneyValue ∧
    is_resolved ist' = take k (is_resolved ist) ++ (Some <$> es) ∧
    is_seenInputs ist' = foldl (λ seen i, {[input_key i]} ∪ seen) (is_seenInputs ist) ins.
Proof.
  intros Hu. revert k ist. induction ins as [|i ins IH]; intros k ist Ht Hm Hl; cbn [foldiM_from].
  { rewrite Nat.add_0_r in Hl. assert (Htk : take k (is_resolved ist) = is_resolved ist)
      by (apply take_ge; lia). split.
    - intros [= <-]. exists []. split_and!; [apply inputs_ok_nil|simpl; lia|done| |done].
      by rewrite Htk, app_nil_r.
    - intros (es & [Hent _ _ _] & Ht' & _ & Hr & Hs). inversion Hent; subst es.
      rewrite Htk, app_nil_r in Hr. destruct ist, ist'; simpl in *. repeat f_equal; done || lia. }
  replace (Z.of_nat k + 1) with (Z.of_nat (S k)) by lia. rewrite bind_Ok.
  setoid_rewrite single_input_Ok; [|done|done].
  assert (Hside : ∀ e, lookup_with s sup (input_key i) = Some e →
    is_totalIn ist + ue_Value e ≤ MaxMoneyValue →
    is_u64 (is_totalIn (input_next ist k (input_key i) e)) ∧
    length (is_resolved (input_next ist k (input_key i) e)) = (S k + length ins)%nat).
  { intros e He Hle. simpl. rewrite length_insert. simpl in Hl.
    apply Hu in He. unfold is_u64, MaxMoneyValue in *. lia. }
  split.
  - intros (ist1 & (e & Hi & Hle & ->) & Hrest). destruct (Hside e) as [Hs1 Hs2]; [apply Hi|done|].
    apply IH in Hrest as (es & Hok & Ht' & Hm' & Hr & Hs); [|done..].
    exists (e :: es). split_and!; [by eapply inputs_ok_cons| |done| |done].
    + simpl in *. lia.
    + rewrite Hr. eapply resolved_extend. simpl in Hl. done.
  - intros (es & Hok & Ht' & Hm' & Hr & Hs).
    pose proof (io_entries _ _ _ _ _ _ Hok) as Hent. inversion Hent as [|? e ? es' He Hent']; subst es.
    apply (inputs_ok_cons _ (lookup_with s sup)) in Hok as [Hi Hok]; [|done].
    assert (0 ≤ in_total es').
    { apply sumZ_nonneg. clear -Hent' Hu. induction Hent' as [|? ? ? ? Hx ? IH]; constructor; [|done].
      apply Hu in Hx. by destruct Hx. }
    change (in_total (e :: es')) with (ue_Value e + in_total es') in Ht'.
    destruct (Hside e He) as [Hs1 Hs2]; [lia|].
    eexists. split; [exists e; split; [exact Hi|split; [lia|done]]|]. apply IH; [done|simpl; lia|done|].
    exists es'. split_and!; [done|simpl; lia|done| |done].
    rewrite Hr. symmetry. eapply resolved_extend. simpl in Hl. done.
Qed.

Lemma wf_tx_outputs tx : wf_tx tx → u64_outputs (tx_Outputs tx).
Proof. intros (_ & _ & _ & _ & Ho & _). eapply Forall_impl; [done|]. by intros ? []. Qed.

Lemma len_zero {A} (l : list A) : (len l =? 0) = false ↔ l ≠ [].
Proof. rewrite Z.eqb_neq. destruct l; simpl; [naive_solver|]. split; [done|lia]. Qed.

(** The output total is bounded by the input total. *)
Lemma valid_spend_intro `{CryptoLib} lookup height p tx es :
  u64_outputs (tx_Outputs tx) →
  tx_Inputs tx ≠ [] → tx_Outputs tx ≠ [] → Transaction_SerializeSize tx ≤ MaxTxSize →
  inputs_ok lookup height p ∅ (tx_Inputs tx) es → in_total es ≤ MaxMoneyValue →
  check_outputs tx (in_total es) = Ok (out_total (tx_Outputs tx)) →
  check_scripts tx (Some <$> es) = Ok () →
  valid_spend lookup height p tx es (in_total es - out_total (tx_Outputs tx)).
Proof.
  intros Hu Hi Ho Hsz [Hent Hnd _ Hm] Hr (_ & Hpos & _ & Hle)%check_outputs_Ok Hs; [|done].
  split; try done; [lia..|]. apply check_scripts_Ok; [|done]. symmetry. by eapply Forall2_length.
Qed.

Lemma fee_u64 a b : 0 ≤ b ≤ a → a ≤ MaxMoneyValue → u64 (a - b) = a - b.
Proof. unfold MaxMoneyValue. intros. apply u64_id. unfold is_u64. lia. Qed.

Lemma ValidateSingleTransaction_Ok `{CryptoLib} tx s tipHeight p sup now fee :
  (∀ k e, lookup_with s sup k = Some e → is_u64 (ue_Value e)) → wf_tx tx →
  ValidateSingleTransaction tx s tipHeight p sup now = Ok fee ↔
  Transaction_IsCoinbase tx = false ∧
  (∃ es, valid_spend (lookup_with s sup) (u32 (tipHeight + 1)) p tx es fee) ∧
  locks_met p tx (u32 (tipHeight + 1)) (u32 now) s.
Proof.
  intros Hu Hwf. assert (Ho := wf_tx_outputs tx Hwf). assert (Hnn := out_total_nonneg _ Ho).
  unfold ValidateSingleTransaction. set (h := u32 (tipHeight + 1)).
  set (ist0 := mkInputState ∅ (replicate (length (tx_Inputs tx)) None) 0).
  assert (Hloop : ∀ ist, foldiM (validate_single_input s sup h p) ist0 (tx_Inputs tx) = Ok ist ↔ _)
    by (intros ist; apply (single_inputs_Ok s sup h p (tx_Inputs tx) 0 ist0 ist Hu); simpl;
        [done|done|apply length_replicate]).
  split.
  - intros Hv. res_inv. repeat rewrite len_zero in *. rewrite Z.ltb_ge in *.
    match goal with H : foldiM _ _ _ = Ok _ |- _ =>
      apply Hloop in H as (es & Hok & Ht & Hm & Hr & _) end. rewrite Z.add_0_l in Ht.
    simpl in Hr. rewrite Ht, Hr in *. match goal with H : check_outputs _ _ = Ok _ |- _ =>
      rename H into Hco end. pose proof Hco as (-> & _ & _ & Hle)%check_outputs_Ok; [|done].
    rewrite fee_u64 by lia. split_and!; [done| |by apply check_locks_Ok].
    exists es. by apply valid_spend_intro.
  - intros (Hcb & (es & [Hi Hout Hsz Hnd Hent Hmat Hrange Hpos Hcons Hfee Hscr]) & Hlk).
    rewrite Hcb, !(proj2 (len_zero _)), (proj2 (Z.ltb_ge _ _)) by done. cbn [fail_if mbind res_bind].
    rewrite (proj2 (Hloop (mkInputState (foldl (λ seen i, {[input_key i]} ∪ seen) ∅ (tx_Inputs tx))
               (Some <$> es) (in_total es)))).
    2:{ exists es. split_and!; [split; [done|done|set_solver|done]|done|done|done|done]. }
    cbn [mbind res_bind is_totalIn is_resolved].
    rewrite (proj2 (check_outputs_Ok tx (in_total es) _ Ho)) by (split_and!; [done|done|lia|lia]).
    cbn [mbind res_bind]. rewrite (proj2 (check_scripts_Ok tx es (eq_sym (Forall2_length _ _ _ Hent)))) by done.
    cbn [mbind res_bind]. rewrite (proj2 (check_locks_Ok p tx h (u32 now) s)) by done.
    cbn [mbind res_bind]. f_equal. rewrite fee_u64 by lia. lia.
Qed.

Lemma fee_inputs_Ok s ins es t :
  u64_entries s → Forall2 (λ i e, s !! input_key i = Some e) ins es →
  in_total es < 2 ^ 64 →
  foldM (fee_add_input s) 0 ins = Ok t ↔ t = in_total es.
Proof.
  intros Hu Hent Hlt. set (val i := default 0 (ue_Value <$> s !! input_key i)).
  assert (Hval : ∀ i, is_u64 (val i)).
  { intros i. unfold val. destruct (s !! input_key i) as [e|] eqn:He; [|done]. by apply Hu in He. }
  assert (Hsum : sumZ val ins = in_total es ∧ Forall (λ i, is_Some (s !! input_key i)) ins).
  { clear Hlt. induction Hent as [|i e ins es He _ [IH1 IH2]]; [by split|].
    split; [|constructor; [by eexists|done]]. simpl. rewrite IH1. unfold val. by rewrite He. }
  rewrite (foldM_checked_sum val (λ i, is_Some (s !! input_key i))).
  - destruct Hsum as [-> Hall]. split; [by intros (-> & _); lia|]. intros ->. split_and!; [lia|done|done].
  - intros t' i r Ht' _. unfold fee_add_input. fold (input_key i).
    specialize (Hval i). unfold val in *. destruct (s !! input_key i) as [e|] eqn:He; simpl in *.
    + rewrite u64_add_overflow by done. unfold is_u64 in *.
      destruct (Z.leb_spec (2 ^ 64) (t' + ue_Value e)); cbn [fail_if mbind res_bind];
        [split; [done|lia]|].
      rewrite u64_id by (unfold is_u64; lia).
      split; [intros [= <-]; split_and!; [done|lia|eauto]|by intros (-> & _)].
    + split; [done|]. by intros (_ & _ & []).
  - by apply Forall_forall.
  - done.
Qed.

Lemma fee_outputs_Ok outs t :
  u64_outputs outs → out_total outs < 2 ^ 64 →
  foldM fee_add_output 0 outs = Ok t ↔ t = out_total outs.
Proof.
  intros Ho Hlt. rewrite (foldM_checked_sum out_Value (λ _, True)).
  - fold (out_total outs). split; [by intros (-> & _); lia|].
    intros ->. split_and!; [lia|done|by apply Forall_forall].
  - intros t' o r Ht' Hv. unfold fee_add_output. rewrite u64_add_overflow by done.
    unfold is_u64 in *.
    destruct (Z.leb_spec (2 ^ 64) (t' + out_Value o)); cbn [fail_if mbind res_bind];
      [split; [done|lia]|].
    rewrite u64_id by (unfold is_u64; lia). split; [intros [= <-]; split_and!; done || lia|by intros (-> & _)].
  - done.
  - done.
Qed.

(** *** The block loop and the ledger *)

(** The view of the chain state that [ValidateTransactionInputs] keeps: outputs
    created in the block over the set less the outputs spent in the block. *)
Definition view (s : UtxoSet) (vs : validate_state) (cur : UtxoSet) : Prop :=
  ∀ k, cur !! k =
    match vs_createdInBlock vs !! k with
    | Some e => Some e
    | None => if bool_decide (k ∈ vs_spentInBlock vs) then None else s !! k
    end.

Lemma view_init s : view s (mkValidateState ∅ ∅ 0) s.
Proof. intros k. simpl. rewrite lookup_empty. by rewrite bool_decide_false by set_solver. Qed.

Lemma view_spend s vs cur key fees :
  view s vs cur →
  view s (mkValidateState ({[key]} ∪ vs_spentInBlock vs) (delete key (vs_createdInBlock vs)) fees)
    (delete key cur).
Proof.
  intros Hv k. simpl. destruct (decide (k = key)) as [->|Hne].
  - rewrite !lookup_delete_eq. by rewrite bool_decide_true by set_solver.
  - rewrite !lookup_delete_ne, Hv by done.
    by rewrite (bool_decide_ext (k ∈ {[key]} ∪ vs_spentInBlock vs) (k ∈ vs_spentInBlock vs))
      by set_solver.
Qed.

Lemma view_fees s vs cur fees :
  view s vs cur → view s (mkValidateState (vs_spentInBlock vs) (vs_createdInBlock vs) fees) cur.
Proof. done. Qed.

Lemma view_register s vs cur txHash height cb outs fees :
  view s vs cur →
  view s (mkValidateState (vs_spentInBlock vs)
            (register_outputs txHash height cb (vs_createdInBlock vs) outs) fees)
    (range_outputs (create txHash height cb) 0 cur outs).
Proof.
  unfold register_outputs. generalize 0 as i. destruct vs as [spent created fees0]. simpl.
  revert created cur. induction outs as [|o outs IH]; intros created cur i Hv; cbn [range_outputs];
    [done|].
  apply IH. intros k. unfold create. simpl.
  destruct (decide (k = OutpointKey txHash (u32 i))) as [->|Hne].
  - by rewrite !lookup_insert_eq.
  - rewrite !lookup_insert_ne by done. apply Hv.
Qed.

Lemma validate_input_Ok s height p vs ist k i vs' ist' cur :
  view s vs cur → u64_entries cur → is_u64 (is_totalIn ist) →
  validate_input s height p (vs, ist) (Z.of_nat k) i = Ok (vs', ist') →
  ∃ e, (input_key i ∉ is_seenInputs ist ∧ cur !! input_key i = Some e ∧ mature height p e) ∧
    is_totalIn ist + ue_Value e ≤ MaxMoneyValue ∧ ist' = input_next ist k (input_key i) e ∧
    vs_totalFees vs' = vs_totalFees vs ∧ view s vs' (delete (input_key i) cur).
Proof.
  intros Hv Hu Ht. unfold validate_input. fold (input_key i).
  destruct (bool_decide_reflect (input_key i ∈ is_seenInputs ist)) as [Hin|Hin]; [by cbn|].
  destruct (bool_decide_reflect (input_key i ∈ vs_spentInBlock vs)) as [Hsp|Hsp]; [by cbn|].
  cbn [fail_if mbind res_bind].
  assert (Hl : (match vs_createdInBlock vs !! input_key i with Some e => Some e
                | None => s !! input_key i end) = cur !! input_key i).
  { rewrite (Hv (input_key i)). by rewrite bool_decide_false. }
  rewrite Hl. destruct (cur !! input_key i) as [e|] eqn:He; [|done]. intros H. rewrite Nat2Z.id in H. res_inv.
  match goal with H : check_maturity _ _ _ = Ok _ |- _ => apply check_maturity_Ok in H end.
  match goal with H : add_input_value _ _ = Ok _ |- _ =>
    apply add_input_value_Ok in H as [-> ?]; [|by apply Hu in He|done] end.
  exists e. split_and!; try done. by apply view_spend.
Qed.

Lemma utxo_total_insert_le s k e :
  u64_entries s → utxo_total (<[k := e]> s) ≤ ue_Value e + utxo_total s.
Proof.
  intros Hu. destruct (s !! k) as [e'|] eqn:Hk.
  - rewrite <- insert_delete_eq, utxo_total_insert by apply lookup_delete_eq.
    rewrite (utxo_total_delete s k e' Hk). apply Hu in Hk. unfold is_u64 in Hk. lia.
  - rewrite utxo_total_insert by done. lia.
Qed.

Lemma u64_entries_delete s k : u64_entries s → u64_entries (delete k s).
Proof. intros Hu. by apply map_Forall_delete. Qed.

Lemma create_outputs_total txHash height cb outs i s :
  u64_entries s → u64_outputs outs →
  u64_entries (range_outputs (create txHash height cb) i s outs) ∧
  utxo_total (range_outputs (create txHash height cb) i s outs) ≤ utxo_total s + out_total outs.
Proof.
  intros Hs Ho. revert i s Hs. induction Ho as [|o outs Ho _ IH]; intros i s Hs; cbn [range_outputs].
  { split; [done|]. simpl. lia. }
  destruct (IH (i + 1) (create txHash height cb s i o)) as [Hu Ht].
  - by apply map_Forall_insert_2.
  - split; [done|]. etrans; [exact Ht|]. unfold create.
    pose proof (utxo_total_insert_le s (OutpointKey txHash (u32 i))
      (mkUtxoEntry (out_Value o) (out_PkScript o) height cb) Hs) as Hle. simpl in *. lia.
Qed.

Lemma validate_inputs_Ok s height p ins k vs ist vs' ist' cur :
  view s vs cur → u64_entries cur → is_u64 (is_totalIn ist) → is_totalIn ist ≤ MaxMoneyValue →
  length (is_resolved ist) = (k + length ins)%nat →
  foldiM_from (Z.of_nat k) (validate_input s height p) (vs, ist) ins = Ok (vs', ist') →
  ∃ es cur', inputs_ok (λ key, cur !! key) height p (is_seenInputs ist) ins es ∧
    is_totalIn ist' = is_totalIn ist + in_total es ∧ is_totalIn ist' ≤ MaxMoneyValue ∧
    is_resolved ist' = take k (is_resolved ist) ++ (Some <$> es) ∧
    vs_totalFees vs' = vs_totalFees vs ∧ spend_all cur ins = Some cur' ∧ view s vs' cur' ∧
    u64_entries cur' ∧ utxo_total cur = utxo_total cur' + in_total es.
Proof.
  revert k vs ist cur. induction ins as [|i ins IH]; intros k vs ist cur Hv Hu Ht Hm Hl;
    cbn [foldiM_from].
  { intros [= <- <-]. exists [], cur. rewrite Nat.add_0_r in Hl.
    split_and!; try done; [apply inputs_ok_nil|simpl; lia| |simpl; lia].
    by rewrite app_nil_r, take_ge by lia. }
  replace (Z.of_nat k + 1) with (Z.of_nat (S k)) by lia.
  intros ([vs1 ist1] & Hi & Hrest)%bind_Ok.
  apply (validate_input_Ok _ _ _ _ _ _ _ _ _ cur) in Hi
    as (e & (Hseen & He & Hmat) & Hle & -> & Hf & Hv1); [|done..].
  assert (Hue := Hu _ _ He). simpl in Hue.
  apply (IH (S k) _ _ (delete (input_key i) cur)) in Hrest
    as (es & cur' & Hok & Ht' & Hm' & Hr & Hf' & Hsp & Hv' & Hu' & Htot); simpl;
    [|done|by apply u64_entries_delete|unfold is_u64, MaxMoneyValue in *; lia|done
     |rewrite length_insert; simpl in Hl; lia].
  exists (e :: es), cur'. split_and!; try done.
  - apply (inputs_ok_cons _ (λ key, delete (input_key i) cur !! key)); [|by split].
    intros key Hne. by rewrite lookup_delete_ne.
  - simpl in *. lia.
  - rewrite Hr. eapply resolved_extend. simpl in Hl. done.
  - congruence.
  - unfold spend. fold (input_key i). by rewrite He.
  - rewrite (utxo_total_delete cur _ e He), Htot. simpl. unfold in_total. simpl. lia.
Qed.

Section block_validation.
Context `{L : CryptoLib}.
Context (s : UtxoSet) (height : Z) (p : ChainParams) (medianTime : Z).

(** The transactions of a block applied one after the other to the ledger, each
    spend being valid in the state it applies to. *)
Inductive valid_txs : UtxoSet → list Transaction → Z → UtxoSet → Prop :=
| valid_nil cur : valid_txs cur [] 0 cur
| valid_coinbase cur cur' cur'' tx txs fees :
    Transaction_IsCoinbase tx = true → Forall (λ o, out_Value o ≠ 0) (tx_Outputs tx) →
    apply_tx height cur tx = Some cur' → valid_txs cur' txs fees cur'' →
    valid_txs cur (tx :: txs) fees cur''
| valid_cons cur cur' cur'' tx txs es fee fees :
    Transaction_IsCoinbase tx = false →
    valid_spend (λ k, cur !! k) height p tx es fee →
    locks_met p tx height medianTime s →
    apply_tx height cur tx = Some cur' → valid_txs cur' txs fees cur'' →
    valid_txs cur (tx :: txs) (fee + fees) cur''.

Lemma validate_spend_Ok vs i tx vs' cur :
  view s vs cur → u64_entries cur → is_u64 (vs_totalFees vs) → wf_tx tx →
  Transaction_IsCoinbase tx = false →
  validate_spend s height p medianTime None vs i tx = Ok vs' →
  ∃ es fee cur', valid_spend (λ k, cur !! k) height p tx es fee ∧
    locks_met p tx height medianTime s ∧ apply_tx height cur tx = Some cur' ∧
    view s vs' cur' ∧ u64_entries cur' ∧ is_u64 (vs_totalFees vs') ∧
    vs_totalFees vs' = vs_totalFees vs + fee ∧
    utxo_total cur' + fee ≤ utxo_total cur.
Proof.
  intros Hv Hu Hf Hwf Hcb. assert (Ho := wf_tx_outputs tx Hwf). assert (Hnn := out_total_nonneg _ Ho).
  unfold validate_spend, tx_hash_at. intros H. res_inv. repeat rewrite len_zero in *.
  rewrite Z.ltb_ge in *.
  match goal with H : foldiM_from 0 _ _ _ = Ok (?v, ?j) |- _ =>
    apply (validate_inputs_Ok _ _ _ _ 0 _ _ _ _ cur) in H
      as (es & cur' & Hok & Ht & Hm & Hr & Hfe & Hsp & Hv' & Hu' & Htot);
    [|done|done|done|done|simpl; by rewrite length_replicate] end.
  cbn [is_totalIn is_resolved take] in Ht, Hr. rewrite Z.add_0_l in Ht. simpl in Hr. rewrite Ht, Hr in *.
  match goal with H : check_outputs _ _ = Ok _ |- _ => rename H into Hco end.
  pose proof Hco as (-> & _ & _ & Hle)%check_outputs_Ok; [|done].
  rewrite Hfe in *. rewrite fee_u64 in * by lia.
  set (fee := in_total es - out_total (tx_Outputs tx)) in *.
  assert (Hfee : is_u64 fee) by (unfold is_u64, MaxMoneyValue in *; lia).
  match goal with H : vs_totalFees vs ≤ u64 _ |- _ =>
    apply Z.ltb_ge in H; rewrite u64_add_overflow in H by done; apply Z.leb_gt in H end.
  destruct (create_outputs_total (HashTransaction tx) height false (tx_Outputs tx) 0 cur' Hu' Ho)
    as [Hu'' Htot'].
  exists es, fee, (range_outputs (create (HashTransaction tx) height false) 0 cur' (tx_Outputs tx)).
  assert (Hsum : is_u64 (vs_totalFees vs + fee)) by (unfold is_u64 in *; lia).
  split_and!; [by apply valid_spend_intro|by apply check_locks_Ok| |by apply view_register|done
    |by rewrite u64_id|by apply u64_id|lia].
  unfold apply_tx. by rewrite Hcb, Hsp.
Qed.

(** The outputs of the coinbase transactions of a list. *)
Definition coinbase_total (txs : list Transaction) : Z :=
  sumZ (λ tx, if Transaction_IsCoinbase tx then out_total (tx_Outputs tx) else 0) txs.

Lemma validate_coinbase_Ok vs i tx vs' cur :
  view s vs cur → u64_entries cur → wf_tx tx → Transaction_IsCoinbase tx = true →
  validate_coinbase height None vs i tx = Ok vs' →
  ∃ cur', Forall (λ o, out_Value o ≠ 0) (tx_Outputs tx) ∧ apply_tx height cur tx = Some cur' ∧
    view s vs' cur' ∧ u64_entries cur' ∧ vs_totalFees vs' = vs_totalFees vs ∧
    utxo_total cur' ≤ utxo_total cur + out_total (tx_Outputs tx).
Proof.
  intros Hv Hu Hwf Hcb H. unfold validate_coinbase, tx_hash_at in H. res_inv.
  match goal with H : foldM _ _ _ = Ok _ |- _ => rename H into Hnz end.
  assert (Hz : ∀ (u : ()) o, fail_if (out_Value o =? 0)
     (Errorf "coinbase output %d: zero value not allowed") = Ok () ↔ out_Value o ≠ 0).
  { intros _ o. by rewrite fail_if_Ok, Z.eqb_neq. }
  apply (foldM_unit_Ok _ _ _ Hz) in Hnz.
  destruct (create_outputs_total (HashTransaction tx) height true (tx_Outputs tx) 0 cur Hu
              (wf_tx_outputs tx Hwf)) as [Hu' Ht].
  exists (range_outputs (create (HashTransaction tx) height true) 0 cur (tx_Outputs tx)).
  split_and!; [done| |by apply view_register|done|done|done].
  unfold apply_tx. by rewrite Hcb.
Qed.

Lemma validate_txs_Ok txs i vs vs' cur :
  view s vs cur → u64_entries cur → is_u64 (vs_totalFees vs) → Forall wf_tx txs →
  foldiM_from i (validate_tx s height p medianTime None) vs txs = Ok vs' →
  ∃ fees cur', valid_txs cur txs fees cur' ∧ is_u64 (vs_totalFees vs') ∧
    vs_totalFees vs' = vs_totalFees vs + fees ∧
    utxo_total cur' + fees ≤ utxo_total cur + coinbase_total txs.
Proof.
  intros Hv Hu Hf Hwf. revert i vs cur Hv Hu Hf.
  induction Hwf as [|tx txs Hwf _ IH]; intros i vs cur Hv Hu Hf; cbn [foldiM_from].
  { intros [= <-]. exists 0, cur. split_and!; [constructor|done|lia|simpl; lia]. }
  intros (vs1 & H1 & Hrest)%bind_Ok. unfold validate_tx in H1.
  change (coinbase_total (tx :: txs)) with
    ((if Transaction_IsCoinbase tx then out_total (tx_Outputs tx) else 0) + coinbase_total txs).
  destruct (Transaction_IsCoinbase tx) eqn:Hcb.
  - apply (validate_coinbase_Ok _ _ _ _ cur) in H1 as (cur1 & Hnz & Hap & Hv1 & Hu1 & Hf1 & Ht1); [|done..].
    rewrite <- Hf1 in Hf. destruct (IH _ _ cur1 Hv1 Hu1 Hf Hrest) as (fees & cur' & Hvt & Hf' & Hfe & Ht').
    exists fees, cur'. split_and!; [by eapply valid_coinbase|done|lia|lia].
  - apply (validate_spend_Ok _ _ _ _ cur) in H1
      as (es & fee & cur1 & Hsp & Hlk & Hap & Hv1 & Hu1 & Hf1 & Hfe1 & Ht1); [|done..].
    destruct (IH _ _ cur1 Hv1 Hu1 Hf1 Hrest) as (fees & cur' & Hvt & Hf' & Hfe & Ht').
    exists (fee + fees), cur'. split_and!; [by eapply valid_cons|done|lia|lia].
Qed.

Lemma valid_txs_apply cur txs fees cur' :
  valid_txs cur txs fees cur' → apply_txs height cur txs = Some cur'.
Proof. induction 1 as [|???????? Ha ? IH|????????? ?? Ha ? IH]; cbn [apply_txs]; [done|by rewrite Ha..]. Qed.
End block_validation.

(** The hash cache is transparent. *)
Lemma foldiM_ext {S A} (f g : S → Z → A → res S) l i st :
  (∀ st (j : nat) x, l !! j = Some x → f st (i + Z.of_nat j) x = g st (i + Z.of_nat j) x) →
  foldiM_from i f st l = foldiM_from i g st l.
Proof.
  revert i st. induction l as [|x l IH]; intros i st Hfg; cbn [foldiM_from]; [done|].
  pose proof (Hfg st 0%nat x eq_refl) as H0. rewrite Z.add_0_r in H0. rewrite H0.
  destruct (g st i x) as [st'| |]; cbn; [|done..]. apply IH. intros st1 j y Hj.
  replace (i + 1 + Z.of_nat j) with (i + Z.of_nat (Datatypes.S j)) by lia. by apply Hfg.
Qed.

Lemma coinbase_sum_Ok outs v :
  u64_outputs outs →
  foldM add_coinbase_value 0 outs = Ok v ↔ v = out_total outs ∧ v < 2 ^ 64.
Proof.
  intros Ho. rewrite (foldM_checked_sum out_Value (λ _, True)).
  - fold (out_total outs). rewrite Z.add_0_l. split; [tauto|]. intros [? ?].
    split_and!; [done..|by apply Forall_forall].
  - intros t o r Ht Hv. unfold add_coinbase_value. rewrite u64_add_overflow by done.
    unfold is_u64 in *.
    destruct (Z.leb_spec (2 ^ 64) (t + out_Value o)); cbn [fail_if mbind res_bind];
      [split; [done|lia]|].
    rewrite u64_id by (unfold is_u64; lia).
    split; [intros [= <-]; split_and!; done || lia|by intros (-> & _)].
  - done.
  - done.
Qed.

Lemma ValidateTransactionInputs_ledger `{CryptoLib} b s height p m fees :
  u64_entries s → wf_block b → is_u64 (CalcSubsidy p height) →
  ValidateTransactionInputs b s height p m None = Ok fees →
  ∃ cb rest s', blk_Transactions b = cb :: rest ∧
    valid_txs s height p m s (cb :: rest) fees s' ∧
    out_total (tx_Outputs cb) ≤ CalcSubsidy p height + fees ∧
    utxo_total s' + fees ≤ utxo_total s + coinbase_total (cb :: rest).
Proof.
  intros Hu (_ & _ & Hwf) Hsub Hval. unfold ValidateTransactionInputs in Hval.
  apply bind_Ok in Hval as (vs & Hvs & Hval).
  apply (validate_txs_Ok s height p m _ _ _ _ s) in Hvs as (fees' & s' & Hvt & Hf & Hfe & Ht);
    [|apply view_init|done|done|done]. rewrite Z.add_0_l in Hfe. cbn [vs_totalFees] in Hfe.
  subst fees'. res_inv. rewrite u64_add_overflow in * by done.
  match goal with Hx : (2 ^ 64 <=? _) = false |- _ => apply Z.leb_gt in Hx; rename Hx into Hlt end.
  destruct (blk_Transactions b) as [|cb rest]; [done|]. res_inv.
  match goal with Hx : foldM add_coinbase_value _ _ = Ok _ |- _ =>
    apply coinbase_sum_Ok in Hx as [-> _];
      [|apply wf_tx_outputs; by apply Forall_cons in Hwf as [? _]] end.
  rewrite u64_id in * by (unfold is_u64 in *; lia).
  rewrite Z.ltb_ge in *. exists cb, rest, s'. done.
Qed.

(** *** The block loop and [ConnectBlock] *)

(** The validator and the state update keep the same two maps. *)
Definition same_maps (vs : validate_state) (cs : connect_state) : Prop :=
  vs_spentInBlock vs = cs_spentInBlock cs ∧ vs_createdInBlock vs = cs_createdInBlock cs.

Lemma validate_input_connect s height p vs ist k i vs' ist' cs :
  same_maps vs cs →
  validate_input s height p (vs, ist) k i = Ok (vs', ist') →
  ∃ cs', connect_input s (cs, is_seenInputs ist) i = Ok (cs', is_seenInputs ist') ∧
    same_maps vs' cs'.
Proof.
  intros [Hs Hc]. unfold validate_input, connect_input. rewrite Hs, Hc.
  destruct (bool_decide (_ ∈ is_seenInputs ist)); [by cbn|].
  destruct (bool_decide (_ ∈ cs_spentInBlock cs)); [by cbn|].
  cbn [fail_if mbind res_bind]. destruct (match _ with Some e => Some e | None => _ end); [|done].
  intros H. res_inv. eexists. by split.
Qed.

Lemma validate_inputs_connect s height p ins k vs ist vs' ist' cs :
  same_maps vs cs →
  foldiM_from k (validate_input s height p) (vs, ist) ins = Ok (vs', ist') →
  ∃ cs', foldM (connect_input s) (cs, is_seenInputs ist) ins = Ok (cs', is_seenInputs ist') ∧
    same_maps vs' cs'.
Proof.
  revert k vs ist cs. induction ins as [|i ins IH]; intros k vs ist cs Hm; cbn [foldiM_from foldM].
  { intros [= <- <-]. by eexists. }
  intros ([vs1 ist1] & H1 & Hrest)%bind_Ok.
  apply (validate_input_connect _ _ _ _ _ _ _ _ _ cs) in H1 as (cs1 & -> & Hm1); [|done].
  cbn [mbind res_bind]. by eapply IH.
Qed.

Lemma register_connect txHash height cb outs i created cs :
  created = cs_createdInBlock cs →
  let cs' := range_outputs (connect_output txHash height cb) i cs outs in
  cs_spentInBlock cs' = cs_spentInBlock cs ∧
  range_outputs (λ created outIdx out,
    <[OutpointKey txHash (u32 outIdx) :=
        mkUtxoEntry (out_Value out) (out_PkScript out) height cb]> created) i created outs
  = cs_createdInBlock cs'.
Proof.
  revert i created cs. induction outs as [|o outs IH]; intros i created cs Hc; simpl; [done|].
  edestruct IH as [Hs Hr]; [|split; [rewrite Hs; done|exact Hr]]. simpl. by rewrite Hc.
Qed.

Lemma validate_tx_connect `{CryptoLib} s height p m txHashes vs i tx vs' cs :
  same_maps vs cs → validate_tx s height p m txHashes vs i tx = Ok vs' →
  ∃ cs', connect_tx s height txHashes cs i tx = Ok cs' ∧ same_maps vs' cs'.
Proof.
  intros Hm Hv. unfold validate_tx in Hv. unfold connect_tx.
  destruct (Transaction_IsCoinbase tx).
  - unfold validate_coinbase in Hv. res_inv.
    match goal with Hx : tx_hash_at _ _ _ = Ok _ |- _ => rewrite Hx end. cbn [mbind res_bind mret res_ret].
    eexists. split; [done|]. destruct Hm as [Hs Hc].
    destruct (register_connect x0 height true (tx_Outputs tx) 0 _ cs Hc) as [Hs' Hc'].
    split; [by rewrite Hs, Hs'|exact Hc'].
  - unfold validate_spend in Hv. res_inv.
    match goal with Hx : tx_hash_at _ _ _ = Ok _ |- _ => rewrite Hx end.
    match goal with Hx : foldiM_from 0 _ _ _ = Ok _ |- _ =>
      apply (validate_inputs_connect _ _ _ _ _ _ _ _ _ cs) in Hx as (cs1 & Hcs1 & Hs & Hc); [|done] end.
    cbn [mbind res_bind is_seenInputs] in *. rewrite Hcs1. eexists. split; [done|].
    destruct (register_connect x2 height false (tx_Outputs tx) 0 _ cs1 Hc) as [Hs' Hc'].
    split; [simpl; by rewrite Hs, Hs'|exact Hc'].
Qed.

Lemma validate_txs_connect `{CryptoLib} s height p m txHashes txs i vs vs' cs :
  same_maps vs cs →
  foldiM_from i (validate_tx s height p m txHashes) vs txs = Ok vs' →
  ∃ cs', foldiM_from i (connect_tx s height txHashes) cs txs = Ok cs' ∧ same_maps vs' cs'.
Proof.
  revert i vs cs. induction txs as [|tx txs IH]; intros i vs cs Hm; cbn [foldiM_from].
  { intros [= <-]. by exists cs. }
  intros (vs1 & H1 & Hrest)%bind_Ok.
  apply (validate_tx_connect _ _ _ _ _ _ _ _ _ cs) in H1 as (cs1 & -> & Hm1); [|done].
  cbn [mbind res_bind]. by eapply IH.
Qed.

Lemma tx_hash_at_cache txs (j : nat) tx :
  txs !! j = Some tx →
  tx_hash_at (Some (HashTransaction <$> txs)) (Z.of_nat j) tx = tx_hash_at None (Z.of_nat j) tx.
Proof. intros Hj. unfold tx_hash_at. by rewrite Nat2Z.id, list_lookup_fmap, Hj. Qed.

(** ** Properties *)

(** C6: Mempool admission, exactly: [ValidateSingleTransaction] accepts a
    well-formed transaction with a fee if and only if the transaction is not a
    coinbase and spends distinct, existing and mature outputs whose scripts
    accept it, within the money supply, with inputs covering the outputs plus
    that fee, and its lock times are met at the next height. *)
Theorem ValidateSingleTransaction_correct `{CryptoLib} tx s tipHeight p sup now fee :
  (∀ k e, lookup_with s sup k = Some e → is_u64 (ue_Value e)) → wf_tx tx →
  ValidateSingleTransaction tx s tipHeight p sup now = Ok fee ↔
  Transaction_IsCoinbase tx = false ∧
  (∃ es, valid_spend (lookup_with s sup) (u32 (tipHeight + 1)) p tx es fee) ∧
  locks_met p tx (u32 (tipHeight + 1)) (u32 now) s.
Proof. apply ValidateSingleTransaction_Ok. Qed.

(** The fee is the same everywhere: [CalcTxFee] returns the fee that
    [ValidateSingleTransaction] computed for a transaction it accepted. *)
Theorem CalcTxFee_agrees `{CryptoLib} tx s tipHeight p now fee :
  u64_entries s → wf_tx tx →
  ValidateSingleTransaction tx s tipHeight p None now = Ok fee → CalcTxFee tx s = Ok fee.
Proof.
  intros Hu Hwf (Hcb & (es & Hsp) & _)%ValidateSingleTransaction_Ok; [|..|done].
  2:{ intros k e. unfold lookup_with. destruct (s !! k) eqn:Hk; [|done]. intros [= <-]. by apply Hu in Hk. }
  destruct Hsp as [_ _ _ _ Hent _ Hrange _ Hcons Hfee _].
  assert (Hent' : Forall2 (λ i e, s !! input_key i = Some e) (tx_Inputs tx) es).
  { eapply Forall2_impl; [done|]. intros i e. unfold lookup_with. by destruct (s !! input_key i). }
  assert (Ho := wf_tx_outputs tx Hwf). assert (Hnn := out_total_nonneg _ Ho).
  unfold CalcTxFee. rewrite Hcb. unfold MaxMoneyValue in Hrange.
  rewrite (proj2 (fee_inputs_Ok s (tx_Inputs tx) es _ Hu Hent' ltac:(lia)) eq_refl).
  cbn [mbind res_bind].
  rewrite (proj2 (fee_outputs_Ok (tx_Outputs tx) _ Ho ltac:(lia)) eq_refl). cbn [mbind res_bind].
  rewrite (proj2 (Z.ltb_ge _ _)) by lia. cbn [fail_if mbind res_bind].
  rewrite fee_u64 by (unfold MaxMoneyValue; lia). f_equal. lia.
Qed.

(** C5: Block validation is sound: when [ValidateTransactionInputs] accepts a
    well-formed block, its transactions apply one after the other to the
    ledger, every non-coinbase one being a valid spend in the state before it
    with its lock times met, the returned fees are their fees, and the first
    transaction claims at most the subsidy plus these fees. *)
Theorem ValidateTransactionInputs_sound `{CryptoLib} b s height p m fees :
  u64_entries s → wf_block b → is_u64 (CalcSubsidy p height) →
  ValidateTransactionInputs b s height p m None = Ok fees →
  ∃ cb rest s', blk_Transactions b = cb :: rest ∧
    valid_txs s height p m s (cb :: rest) fees s' ∧ apply_block height s b = Some s' ∧
    out_total (tx_Outputs cb) ≤ CalcSubsidy p height + fees.
Proof.
  intros Hu Hwf Hsub Hval.
  destruct (ValidateTransactionInputs_ledger b s height p m fees Hu Hwf Hsub Hval)
    as (cb & rest & s' & Hb & Hvt & Hcb & _).
  exists cb, rest, s'. split_and!; try done. unfold apply_block. rewrite Hb.
  by eapply valid_txs_apply.
Qed.

(** C7: A validated block connects: whatever the set, the height and the cached
    hashes are, when [ValidateTransactionInputs] accepts a block,
    [Set.ConnectBlock] with the same arguments does not fail. *)
Theorem validated_block_connects `{CryptoLib} b s height p m txHashes fees :
  ValidateTransactionInputs b s height p m txHashes = Ok fees →
  is_ok (ConnectBlock s b height txHashes) = true.
Proof.
  unfold ValidateTransactionInputs, ConnectBlock. intros (vs & Hvs & _)%bind_Ok.
  apply (validate_txs_connect _ _ _ _ _ _ _ _ _ connect_init) in Hvs as (cs & -> & _);
    [done|by split].
Qed.

(** The cache of transaction hashes is transparent: with the block's own hashes
    precomputed, [ValidateTransactionInputs] and [ConnectBlock] return what
    they return when they hash on the fly. *)
Theorem txHashes_cache_equiv `{CryptoLib} b s height p m :
  let txHashes := Some (HashTransaction <$> blk_Transactions b) in
  ValidateTransactionInputs b s height p m txHashes =
    ValidateTransactionInputs b s height p m None ∧
  ConnectBlock s b height txHashes = ConnectBlock s b height None.
Proof.
  intros txHashes. unfold ValidateTransactionInputs, ConnectBlock. split; f_equal;
    apply foldiM_ext; intros st j tx Hj; rewrite Z.add_0_l.
  - unfold validate_tx, validate_coinbase, validate_spend, txHashes.
    by rewrite (tx_hash_at_cache _ _ _ Hj).
  - unfold connect_tx, txHashes. by rewrite (tx_hash_at_cache _ _ _ Hj).
Qed.

(** ** Witnesses *)

(** A set with one output anyone can spend, and a block at height 1 that spends
    it with a fee of 10. *)
Definition v_set : UtxoSet :=
  {[ OutpointKey (replicate 32 x11) 3 := mkUtxoEntry 50 [x51] 0 false ]}.
Definition v_spend : Transaction :=
  mkTransaction 1 [mkTxInput (mkOutPoint (replicate 32 x11) 3) [] 0xFFFFFFFF]
    [mkTxOutput 40 [x51]] 0.
Definition v_coinbase : Transaction :=
  mkTransaction 1 [mkTxInput CoinbaseOutPoint [x01; x01] 0xFFFFFFFF]
    [mkTxOutput 60 [x51]] 0.
Definition v_header : BlockHeader :=
  mkBlockHeader 1 ZeroHash (MerkleRoot [HashTransaction v_coinbase; HashTransaction v_spend])
    1774175100 0x207fffff 0.
Definition v_block : Block := mkBlock v_header [v_coinbase; v_spend].

Lemma v_lookup_u64 k e : lookup_with v_set None k = Some e → is_u64 (ue_Value e).
Proof.
  unfold lookup_with, v_set. destruct (_ !! k) eqn:Hk; [|done]. intros [= <-].
  apply lookup_singleton_Some in Hk as [_ <-]. done.
Qed.

Lemma ValidateSingleTransaction_correct_witness :
  ∃ es, valid_spend (H := toy_lib) (lookup_with v_set None) 1 Regtest v_spend es 10.
Proof.
  refine (proj1 (proj2 (proj1 (@ValidateSingleTransaction_correct toy_lib v_spend v_set 0 Regtest
            None 1774175100 10 v_lookup_u64 _) _))).
  - by_decide.
  - by_decide.
Defined.

Lemma CalcTxFee_agrees_witness : CalcTxFee v_spend v_set = Ok 10.
Proof.
  refine (@CalcTxFee_agrees toy_lib v_spend v_set 0 Regtest 1774175100 10 _ _ _).
  - by_decide.
  - by_decide.
  - by_decide.
Defined.

Lemma ValidateTransactionInputs_sound_witness :
  ∃ cb rest s', blk_Transactions v_block = cb :: rest ∧
    valid_txs (L := toy_lib) v_set 1 Regtest 0 v_set (cb :: rest) 10 s' ∧
    apply_block 1 v_set v_block = Some s' ∧
    out_total (tx_Outputs cb) ≤ CalcSubsidy Regtest 1 + 10.
Proof.
  refine (@ValidateTransactionInputs_sound toy_lib v_block v_set 1 Regtest 0 10 _ _ _ _).
  - by_decide.
  - by_decide.
  - by_decide.
  - by_decide.
Defined.

Lemma validated_block_connects_witness :
  is_ok (ConnectBlock v_set v_block 1 None) = true.
Proof.
  refine (@validated_block_connects toy_lib v_block v_set 1 Regtest 0 None 10 _). by_decide.
Defined.
