(* ===== verification/Algorithms.v ===== *)
(** * internal/algorithms

    The proof-of-work hashes behind the interface [Hasher] (hasher.go).
    sha256d and sha256mem are this repository's code; scrypt and argon2id call
    golang.org/x/crypto, whose functions are the operations of [HashLib].

    sha256mem fills a scratchpad taken from a [sync.Pool]: the buffer holds
    what the previous hash left in it, so it is an argument of the model. *)
From S2P Require Import Prelude Types Sha256.

Record Hasher : Type := mkHasher {
  h_PoWHash : list byte → res Hash;
  h_Name : string
}.

(** ** sha256d.go *)

Definition sha256d_PoWHash (data : list byte) : res Hash :=
  HashFromBytes (Sum256 (Sum256 data)).
Definition sha256d_Hasher : Hasher := mkHasher sha256d_PoWHash "sha256d".

(** ** sha256mem.go *)

Definition Slots : Z := 2097152.
Definition HardenInterval : Z := 128.
Definition MixRounds : Z := 32768.

(** [binary.LittleEndian.Uint32(b[off:])]. *)
Definition uint32_at (b : list byte) (off : nat) : Z := le_decode (slice off (off + 4) b).

(** One word of [arxFill]. *)
Definition arx_word (src : list byte) (index : Z) (w : nat) : list byte :=
  let v := uint32_at src (w * 4) in
  let v := Z.lxor v (u32 (index + Z.of_nat w)) in
  let v := Z.lor (u32 (Z.shiftl v 13)) (Z.shiftr v 19) in
  le_encode 4 (u32 (v + uint32_at src (w * 4))).

Definition arxFill (src : list byte) (index : Z) : list byte :=
  mjoin (arx_word src index <$> seq 0 8).

Section sha256mem.
(** The number of slots and of mixing rounds; the code has the constants. *)
Context (slots rounds : nat).

(** The fill loop with [n] turns left, at index [i]. *)
Fixpoint fill_loop (n i : nat) (mem : list (list byte)) : res (list (list byte)) :=
  match n with
  | O => Ok mem
  | S n' =>
      match mem !! (i - 1)%nat with
      | None => Panic
      | Some prev =>
          let x := if Z.of_nat i mod HardenInterval =? 0 then Sum256 prev
                   else arxFill prev (u32 (Z.of_nat i)) in
          fill_loop n' (S i) (<[i := x]> mem)
      end
  end.

(** A mixing pass; [off i] is where round [i] reads its index. *)
Fixpoint mix_loop (n i : nat) (off : nat → nat) (acc : list byte) (mem : list (list byte))
    : res (list byte) :=
  match n with
  | O => Ok acc
  | S n' =>
      let idx := uint32_at acc (off i) mod Z.of_nat slots in
      match mem !! Z.to_nat idx with
      | None => Panic
      | Some m => mix_loop n' (S i) off (Sum256 (acc ++ m)) mem
      end
  end.

Definition mixPassA (acc : list byte) (mem : list (list byte)) : res (list byte) :=
  mix_loop rounds 0 (λ _, 0%nat) acc mem.
Definition mixPassB (acc : list byte) (mem : list (list byte)) : res (list byte) :=
  mix_loop rounds 0 (λ i, (i mod 7 * 4)%nat) acc mem.

(** [buf] is the buffer the pool returns. *)
Definition sha256mem_PoWHash_with (buf : list (list byte)) (data : list byte) : res Hash :=
  let seed := Sum256 data in
  mem ← fill_loop (slots - 1) 1 (<[0%nat := seed]> buf);
  match mem !! (slots - 1)%nat with
  | None => Panic
  | Some acc =>
      acc ← mixPassA acc mem;
      acc ← mixPassB acc mem;
      Ok (Sum256 acc)
  end.
End sha256mem.

Definition sha256mem_PoWHash (buf : list (list byte)) : list byte → res Hash :=
  sha256mem_PoWHash_with (Z.to_nat Slots) (Z.to_nat MixRounds) buf.
Definition sha256mem_Hasher (buf : list (list byte)) : Hasher :=
  mkHasher (sha256mem_PoWHash buf) "sha256mem".

(** ** scrypt.go and argon2id.go *)

Class HashLib := {
  scrypt_Key : list byte → list byte → Z → Z → Z → Z → error + list byte;
  argon2_IDKey : list byte → list byte → Z → Z → Z → Z → list byte
}.

(** Both return as many bytes as they are asked for; scrypt accepts the
    parameters used here. *)
Class HashLaws (L : HashLib) : Prop := {
  scrypt_length d s : ∃ out, scrypt_Key d s 1024 1 1 32 = inr out ∧ length out = 32%nat;
  argon2_length d s : length (argon2_IDKey d s 1 256 1 32) = 32%nat
}.

Section library.
Context `{L : HashLib}.

Definition scrypt_PoWHash (data : list byte) : res Hash :=
  match scrypt_Key data data 1024 1 1 32 with
  | inl _ => Panic
  | inr out => HashFromBytes out
  end.

Definition argon2id_PoWHash (data : list byte) : res Hash :=
  HashFromBytes (argon2_IDKey data data 1 256 1 32).

Definition GetHasher (buf : list (list byte)) (name : string) : res Hasher :=
  if String.eqb name "sha256d" then Ok sha256d_Hasher
  else if String.eqb name "argon2id" then Ok (mkHasher argon2id_PoWHash "argon2id")
  else if String.eqb name "scrypt" then Ok (mkHasher scrypt_PoWHash "scrypt")
  else if String.eqb name "sha256mem" then Ok (sha256mem_Hasher buf)
  else Err (Errorf "unknown PoW algorithm: %q").
End library.

(** ** Lemmas *)

(** What an algorithm must deliver: a 32-byte hash, always. *)
Definition hasher_ok (h : Hasher) : Prop :=
  ∀ data, ∃ out, h_PoWHash h data = Ok out ∧ wf_hash out.

Lemma HashFromBytes_32 b : length b = 32%nat → HashFromBytes b = Ok b.
Proof. intros Hb. unfold HashFromBytes. rewrite Hb. done. Qed.

Lemma arxFill_length src i : length (arxFill src i) = 32%nat.
Proof. unfold arxFill, arx_word. simpl. rewrite !length_app, !le_encode_length. done. Qed.

(** The content of slot [i], by recursion on the slots before it. *)
Fixpoint slot (seed : list byte) (i : nat) : list byte :=
  match i with
  | O => seed
  | S j => if Z.of_nat i mod HardenInterval =? 0 then Sum256 (slot seed j)
           else arxFill (slot seed j) (u32 (Z.of_nat i))
  end.

Definition scratchpad (seed : list byte) (n : nat) : list (list byte) := slot seed <$> seq 0 n.

Lemma scratchpad_lookup seed n i : (i < n)%nat → scratchpad seed n !! i = Some (slot seed i).
Proof. intros Hi. unfold scratchpad. by rewrite list_lookup_fmap, lookup_seq_lt. Qed.

Lemma scratchpad_length seed n : length (scratchpad seed n) = n.
Proof. unfold scratchpad. by rewrite length_fmap, length_seq. Qed.

Lemma slot_length seed i : length seed = 32%nat → length (slot seed i) = 32%nat.
Proof.
  intros Hs. destruct i as [|j]; [done|]. cbn [slot].
  destruct (_ =? 0); [apply Sum256_length|apply arxFill_length].
Qed.

Lemma fill_loop_scratchpad seed n i mem :
  (1 ≤ i)%nat → length mem = (i + n)%nat →
  (∀ j, (j < i)%nat → mem !! j = Some (slot seed j)) →
  fill_loop n i mem = Ok (scratchpad seed (i + n)).
Proof.
  revert i mem. induction n as [|n IH]; intros i mem Hi Hl Hpre; cbn [fill_loop].
  - f_equal. apply list_eq. intros j. rewrite Nat.add_0_r in *.
    destruct (decide (j < i)%nat) as [Hj|Hj].
    + by rewrite Hpre, scratchpad_lookup.
    + by rewrite !lookup_ge_None_2 by (rewrite ?scratchpad_length; lia).
  - rewrite Hpre by lia. replace (i + S n)%nat with (S i + n)%nat by lia. apply IH; [lia| |].
    + rewrite length_insert. lia.
    + intros j Hj. destruct (decide (j = i)) as [->|Hne].
      * rewrite list_lookup_insert_eq by lia. f_equal. destruct i as [|k]; [lia|].
        by replace (S k - 1)%nat with k by lia.
      * rewrite list_lookup_insert_ne by done. apply Hpre. lia.
Qed.

Lemma mix_loop_ok slots mem n i off acc :
  (0 < slots)%nat → length mem = slots → length acc = 32%nat →
  ∃ acc', mix_loop slots n i off acc mem = Ok acc' ∧ length acc' = 32%nat.
Proof.
  intros Hs Hm. revert i acc. induction n as [|n IH]; intros i acc Ha; cbn [mix_loop]; [eauto|].
  pose proof (Z.mod_pos_bound (uint32_at acc (off i)) (Z.of_nat slots)).
  destruct (lookup_lt_is_Some_2 mem (Z.to_nat (uint32_at acc (off i) mod Z.of_nat slots))) as [m ->]; [lia|].
  apply IH, Sum256_length.
Qed.

Lemma sha256mem_scratchpad slots buf data :
  (0 < slots)%nat → length buf = slots →
  fill_loop (slots - 1) 1 (<[0%nat := Sum256 data]> buf) = Ok (scratchpad (Sum256 data) slots).
Proof.
  intros Hs Hl. rewrite (fill_loop_scratchpad (Sum256 data)); [do 2 f_equal; lia|done| |].
  - rewrite length_insert. lia.
  - intros [|j] Hj; [|lia]. by rewrite list_lookup_insert_eq by lia.
Qed.

Lemma sha256mem_ok slots rounds buf :
  (0 < slots)%nat → length buf = slots →
  ∀ data, ∃ out, sha256mem_PoWHash_with slots rounds buf data = Ok out ∧ wf_hash out.
Proof.
  intros Hs Hl data. unfold sha256mem_PoWHash_with, mixPassA, mixPassB.
  rewrite (sha256mem_scratchpad slots) by done. cbn [mbind res_bind].
  rewrite scratchpad_lookup by lia. set (mem := scratchpad _ _).
  assert (Hm : length mem = slots) by apply scratchpad_length.
  destruct (mix_loop_ok slots mem rounds 0 (λ _, 0%nat) (slot (Sum256 data) (slots - 1)) Hs Hm)
    as (a1 & -> & H1); [apply slot_length, Sum256_length|]. cbn [mbind res_bind].
  destruct (mix_loop_ok slots mem rounds 0 (λ i, (i mod 7 * 4)%nat) a1 Hs Hm H1) as (a2 & -> & _).
  cbn [mbind res_bind]. eexists. split; [done|]. apply Sum256_length.
Qed.

(** ** Properties *)

(** The pooled scratchpad does not leak: whatever the two buffers of the right
    size hold, [PoWHash] of sha256mem returns the same 32-byte hash with either,
    for any positive number of slots and any number of rounds. *)
Theorem sha256mem_pool_independent slots rounds buf1 buf2 data :
  (0 < slots)%nat → length buf1 = slots → length buf2 = slots →
  sha256mem_PoWHash_with slots rounds buf1 data = sha256mem_PoWHash_with slots rounds buf2 data ∧
  ∃ out, sha256mem_PoWHash_with slots rounds buf1 data = Ok out ∧ wf_hash out.
Proof.
  intros Hs H1 H2. split; [|by apply sha256mem_ok]. unfold sha256mem_PoWHash_with.
  by rewrite !(sha256mem_scratchpad slots) by done.
Qed.

(** Every algorithm [GetHasher] knows returns a 32-byte hash for every input. *)
Theorem GetHasher_total `{L : HashLib, !HashLaws L} buf name h :
  len buf = Slots → GetHasher buf name = Ok h → hasher_ok h ∧ h_Name h = name.
Proof.
  intros Hb. unfold GetHasher.
  destruct (String.eqb_spec name "sha256d") as [->|_]; [intros [= <-]; split; [|done]; intros data|].
  { exists (DoubleSHA256 data). split; [|apply DoubleSHA256_wf]. apply HashFromBytes_32, Sum256_length. }
  destruct (String.eqb_spec name "argon2id") as [->|_]; [intros [= <-]; split; [|done]; intros data|].
  { eexists. split; [apply HashFromBytes_32, argon2_length|apply argon2_length]. }
  destruct (String.eqb_spec name "scrypt") as [->|_]; [intros [= <-]; split; [|done]; intros data|].
  { destruct (scrypt_length data data) as (out & Ho & Hl). exists out.
    split; [|done]. cbn [h_PoWHash]. unfold scrypt_PoWHash. rewrite Ho. by apply HashFromBytes_32. }
  destruct (String.eqb_spec name "sha256mem") as [->|_]; [|by intros].
  intros [= <-]. split; [|done]. intros data. apply sha256mem_ok; [unfold Slots; lia|lia].
Qed.

(** ** Witnesses *)

Lemma sha256mem_pool_independent_witness :
  sha256mem_PoWHash_with 3 2 (replicate 3 []) [x01] =
  sha256mem_PoWHash_with 3 2 [[x01]; [x02]; [x03]] [x01].
Proof.
  refine (proj1 (sha256mem_pool_independent 3 2 (replicate 3 []) [[x01]; [x02]; [x03]] [x01] _ _ _)).
  - lia.
  - reflexivity.
  - reflexivity.
Defined.

(** A concrete instance of the two library functions. *)
Definition toy_hashlib : HashLib := {|
  scrypt_Key := λ d _ _ _ _ n, inr (take (Z.to_nat n) (Sum256 d));
  argon2_IDKey := λ d _ _ _ _ n, take (Z.to_nat n) (Sum256 d)
|}.

Lemma toy_hashlaws : HashLaws toy_hashlib.
Proof.
  split; intros d s; cbn [scrypt_Key argon2_IDKey toy_hashlib].
  - eexists. split; [done|]. rewrite length_take, Sum256_length. done.
  - rewrite length_take, Sum256_length. done.
Qed.

Lemma GetHasher_total_witness :
  hasher_ok (mkHasher (@scrypt_PoWHash toy_hashlib) "scrypt").
Proof.
  refine (proj1 (@GetHasher_total toy_hashlib toy_hashlaws (replicate (Z.to_nat Slots) []) "scrypt"
            (mkHasher (@scrypt_PoWHash toy_hashlib) "scrypt") _ _)).
  - rewrite length_replicate. apply Z2Nat.id. unfold Slots. lia.
  - reflexivity.
Defined.
