(* ===== verification/Validation.v ===== *)
(** * internal/consensus/validation.go and the engine interface

    The structural checks of a block, the timestamp rules of a header and the
    BIP34 height in the coinbase.  The consensus engine is the record
    [Engine], the Go interface of engine.go; [FullValidateHeader] is proved
    against it. *)
From stdpp Require Import sorting.
From S2P Require Import Prelude Types Sha256 Merkle Params Utxo Keys Script TxValidation.
From S2P Require Import Algorithms.

(** ** The engine interface (engine.go) *)

(** [getAncestor] returns the header at a height, or nil. *)
Definition Ancestors : Type := Z → option BlockHeader.

Record Engine : Type := mkEngine {
  e_ValidateHeader : BlockHeader → BlockHeader → Z → Ancestors → ChainParams → res ();
  e_ValidateBlock : Block → Z → ChainParams → res ();
  e_CalcNextBits : BlockHeader → Z → Ancestors → ChainParams → res Z;
  e_PrepareHeader : BlockHeader → BlockHeader → Z → Ancestors → ChainParams → res BlockHeader;
  e_SealHeader : BlockHeader → Hash → Z → res (bool * BlockHeader);
  e_CalcBlockWeight : BlockHeader → Z;
  e_Hasher : Hasher;
  e_Name : string
}.

(** ** The height in the coinbase (BIP34) *)

Definition minimalPushLen (height : Z) : Z :=
  if height <=? 0xFF then 1
  else if height <=? 0xFFFF then 2
  else if height <=? 0xFFFFFF then 3
  else 4.

(** [for i := 0; i < pushLen; i++ { encodedHeight |= uint32(scriptSig[1+i]) << (8*i) }];
    [bs] are the bytes from index [1 + i] on. *)
Fixpoint height_loop (n : nat) (i : Z) (encodedHeight : Z) (bs : list byte) : res Z :=
  match n with
  | O => Ok encodedHeight
  | S n' =>
      match bs with
      | [] => Panic
      | b :: bs' =>
          height_loop n' (i + 1) (Z.lor encodedHeight (u32 (Z.shiftl (byte_to_Z b) (8 * i)))) bs'
      end
  end.

Definition validateCoinbaseScriptSig (scriptSig : list byte) (height : Z) : res () :=
  _ ← fail_if (len scriptSig <? 2) (Errorf "too short: %d bytes (minimum 2)");
  _ ← fail_if (100 <? len scriptSig) (Errorf "too long: %d bytes (maximum 100)");
  let pushLen := byte_at scriptSig 0 in
  _ ← fail_if ((pushLen <? 1) || (4 <? pushLen)) (Errorf "height push length %d out of range [1,4]");
  _ ← fail_if (len scriptSig <? 1 + pushLen)
        (Errorf "scriptSig too short for height push (need %d, have %d)");
  encodedHeight ← height_loop (Z.to_nat pushLen) 0 0 (drop 1 scriptSig);
  _ ← fail_if (negb (encodedHeight =? height))
        (Errorf "encoded height %d does not match block height %d");
  fail_if (negb (pushLen =? minimalPushLen height))
    (Errorf "non-minimal height encoding: used %d bytes, minimum is %d").

(** ** The structure of a block *)

(** The loop over the transaction identifiers. *)
Definition check_txid (txIDSet : gset Hash) (txID : Hash) : res (gset Hash) :=
  _ ← fail_if (bool_decide (txID ∈ txIDSet)) (Errorf "duplicate transaction ID %s at index %d");
  Ok ({[txID]} ∪ txIDSet).

Definition ValidateBlockStructure (block : Block) (height : Z) (p : ChainParams)
    (txHashes : option (list Hash)) (serializedBytes : option (list byte)) : res () :=
  _ ← fail_if (hdr_Version (blk_Header block) <? 1) (Errorf "unsupported block version %d");
  match blk_Transactions block with
  | [] => Err (Errorf "block has no transactions")
  | cb :: rest =>
      _ ← fail_if (negb (Transaction_IsCoinbase cb)) (Errorf "first transaction is not coinbase");
      _ ← (if 0 <? height then
             match tx_Inputs cb with
             | [] => Panic
             | i :: _ => wrap "coinbase scriptSig"
                           (validateCoinbaseScriptSig (in_SignatureScript i) height)
             end
           else Ok ());
      _ ← foldM (λ _ tx, fail_if (Transaction_IsCoinbase tx)
                   (Errorf "transaction %d is an unexpected coinbase")) () rest;
      _ ← fail_if (p_MaxBlockTxCount p <? u32 (len (blk_Transactions block)))
            (Errorf "block has %d transactions, max %d");
      let txHashes := default (HashTransaction <$> blk_Transactions block) txHashes in
      _ ← foldM check_txid ∅ txHashes;
      let merkle := MerkleRoot txHashes in
      _ ← fail_if (negb (bool_decide (merkle = hdr_MerkleRoot (blk_Header block))))
            (Errorf "merkle root mismatch: header=%s computed=%s");
      let serializedBytes := default (Block_SerializeToBytes block) serializedBytes in
      _ ← fail_if (p_MaxBlockSize p <? u32 (len serializedBytes))
            (Errorf "block size %d exceeds max %d");
      _ ← foldM add_coinbase_value 0 (tx_Outputs cb);
      Ok ()
  end.

(** ** Median time past *)

Definition medianCount : nat := 11.

(** The timestamps of up to [n] blocks from height [tipHeight - i] down. *)
Fixpoint mtp_collect (n : nat) (i tipHeight : Z) (getAncestor : Ancestors) : list Z :=
  match n with
  | O => []
  | S n' =>
      if i <=? tipHeight then
        match getAncestor (tipHeight - i) with
        | None => []
        | Some h => hdr_Timestamp h :: mtp_collect n' (i + 1) tipHeight getAncestor
        end
      else []
  end.

(** The inner loop of the insertion sort: [j + 1] is the free position. *)
Fixpoint shift_loop (free : nat) (key : Z) (ts : list Z) : list Z :=
  match free with
  | O => <[0%nat := key]> ts
  | S j =>
      match ts !! j with
      | Some x => if key <? x then shift_loop j key (<[free := x]> ts) else <[free := key]> ts
      | None => ts
      end
  end.

(** The outer loop, from index [i] on. *)
Fixpoint sort_loop (n i : nat) (ts : list Z) : list Z :=
  match n with
  | O => ts
  | S n' =>
      match ts !! i with
      | Some key => sort_loop n' (S i) (shift_loop i key ts)
      | None => ts
      end
  end.

Definition insertion_sort (ts : list Z) : list Z := sort_loop (length ts - 1) 1 ts.

Definition CalcMedianTimePast (tipHeight : Z) (getAncestor : Ancestors) : Z :=
  let timestamps := mtp_collect medianCount 0 tipHeight getAncestor in
  if len timestamps =? 0 then 0
  else nth (length timestamps / 2) (insertion_sort timestamps) 0.

(** ** Header timestamps *)

Definition ValidateHeaderTimestamp (header parent : BlockHeader) (nowUnix : Z)
    (getAncestor : Ancestors) (tipHeight : Z) (p : ChainParams) : res () :=
  let maxFuture := nowUnix + seconds (p_MaxTimeFutureDrift p) in
  _ ← fail_if (maxFuture <? hdr_Timestamp header) (Errorf "block timestamp too far in future");
  if String.eqb (p_MinTimestampRule p) "prev+1" then
    fail_if (hdr_Timestamp header <=? hdr_Timestamp parent)
      (Errorf "block timestamp %d must be > parent %d")
  else if String.eqb (p_MinTimestampRule p) "median-11" then
    let median := CalcMedianTimePast tipHeight getAncestor in
    fail_if (hdr_Timestamp header <=? median)
      (Errorf "block timestamp %d must be > median time past %d")
  else Err (Errorf "unknown timestamp rule: %s").

Definition FullValidateHeader (e : Engine) (header parent : BlockHeader) (height : Z)
    (getAncestor : Ancestors) (nowUnix tipHeight : Z) (p : ChainParams) : res () :=
  _ ← e_ValidateHeader e header parent height getAncestor p;
  ValidateHeaderTimestamp header parent nowUnix getAncestor tipHeight p.

(** ** The height encoding *)

Lemma lor_shiftl_add a b k :
  0 ≤ k → 0 ≤ a < 2 ^ k → 0 ≤ b → Z.lor a (Z.shiftl b k) = a + b * 2 ^ k.
Proof.
  intros Hk Ha Hb. rewrite <- Z.shiftl_mul_pow2 by done.
  pose proof (Z.add_lor_land a (Z.shiftl b k)) as Hal.
  assert (Hz : Z.land a (Z.shiftl b k) = 0); [clear Hal|lia].
  apply Z.bits_inj'. intros n Hn. rewrite Z.land_spec, Z.bits_0, Z.shiftl_spec by done.
  destruct (decide (n < k)) as [Hlt|Hge].
  - by rewrite (Z.testbit_neg_r b), andb_false_r by lia.
  - destruct (decide (a = 0)) as [->|Ha0]; [by rewrite Z.bits_0|].
    rewrite (Z.bits_above_log2 a n); [done|lia|].
    assert (Z.log2 a < k) by (apply Z.log2_lt_pow2; lia). lia.
Qed.

Lemma height_loop_decode n i acc bs :
  (n ≤ length bs)%nat → 0 ≤ i → i + Z.of_nat n ≤ 4 → 0 ≤ acc < 256 ^ i →
  height_loop n i acc bs = Ok (acc + 256 ^ i * le_decode (take n bs)).
Proof.
  revert i acc bs. induction n as [|n IH]; intros i acc bs Hn Hi H4 Hacc; cbn [height_loop take].
  { rewrite take_0. change [] with (replicate 0 x00). rewrite le_decode_zeros. f_equal. lia. }
  destruct bs as [|b bs]; [simpl in Hn; lia|]. pose proof (byte_to_Z_range b) as Hb.
  assert (H256 : 256 ^ i = 2 ^ (8 * i)) by (rewrite Z.pow_mul_r by lia; done).
  assert (Hp : 256 ^ (i + 1) = 256 * 256 ^ i) by (rewrite Z.pow_add_r; lia).
  assert (Hp4 : 256 ^ (i + 1) ≤ 2 ^ 32).
  { change (2 ^ 32) with (256 ^ 4). apply Z.pow_le_mono_r; lia. }
  assert (0 < 256 ^ i) by (apply Z.pow_pos_nonneg; lia).
  rewrite u32_id by (unfold is_u32; rewrite Z.shiftl_mul_pow2, <- H256 by lia; nia).
  rewrite lor_shiftl_add, <- H256 by lia.
  rewrite IH by (simpl in Hn; nia). f_equal.
  change (b :: bs) with ([b] ++ bs). cbn [app take].
  change (b :: take n bs) with ([b] ++ take n bs). rewrite le_decode_app, le_decode_singleton.
  rewrite Hp. simpl length. change (256 ^ Z.of_nat 1) with 256. ring.
Qed.

Arguments height_loop : simpl never.

Lemma minimalPushLen_range h : 1 ≤ minimalPushLen h ≤ 4.
Proof. unfold minimalPushLen. repeat case_match; lia. Qed.

Lemma minimalPushLen_fits h : is_u32 h → 0 ≤ h < 256 ^ minimalPushLen h.
Proof.
  unfold is_u32, minimalPushLen. intros Hh.
  destruct (Z.leb_spec h 0xFF); [lia|]. destruct (Z.leb_spec h 0xFFFF); [lia|].
  destruct (Z.leb_spec h 0xFFFFFF); lia.
Qed.

Lemma coinbase_script_Ok script h :
  is_u32 h →
  validateCoinbaseScriptSig script h = Ok () ↔
  let n := minimalPushLen h in
  len script ≤ 100 ∧
  ∃ rest, script = Z_to_byte n :: le_encode (Z.to_nat n) h ++ rest.
Proof.
  intros Hh. pose proof (minimalPushLen_range h) as Hr. pose proof (minimalPushLen_fits h Hh) as Hf.
  cbv zeta. unfold validateCoinbaseScriptSig. split.
  - intros Hv. destruct script as [|b bs]; [done|]. unfold byte_at in Hv. cbn [nth drop] in Hv.
    res_inv. rewrite orb_false_iff, !Z.ltb_ge in *. rewrite negb_false_iff, Z.eqb_eq in *.
    pose proof (byte_to_Z_range b).
    match goal with Hx : height_loop _ _ _ _ = Ok _ |- _ =>
      rewrite drop_0, height_loop_decode in Hx by lia; injection Hx as Hx end.
    rewrite Z.pow_0_r, Z.mul_1_l, Z.add_0_l in *. split; [lia|].
    rewrite <- Hv. set (n := Z.to_nat (byte_to_Z b)) in *.
    exists (drop n bs). rewrite Z_to_byte_to_Z. f_equal.
    rewrite <- (take_drop n bs) at 1. f_equal. symmetry.
    assert (Ht : le_decode (take n bs) = h) by congruence. rewrite <- Ht.
    apply le_encode_decode'. rewrite length_take. lia.
  - intros (Hl & rest & ->). set (n := minimalPushLen h) in *.
    assert (Hn : byte_to_Z (Z_to_byte n) = n) by (rewrite byte_to_Z_to_byte; apply Z.mod_small; lia).
    unfold byte_at. cbn [nth drop]. rewrite Hn. rewrite drop_0.
    simpl length in *. rewrite length_app, le_encode_length in *.
    rewrite !(proj2 (Z.ltb_ge _ _)) by lia. cbn [orb fail_if mbind res_bind].
    rewrite height_loop_decode by (rewrite ?length_app, ?le_encode_length; lia).
    cbn [mbind res_bind]. rewrite take_app_length' by (by rewrite le_encode_length).
    rewrite le_decode_encode_id by (rewrite Z2Nat.id; lia).
    rewrite Z.pow_0_r, Z.mul_1_l, Z.add_0_l, !Z.eqb_refl. done.
Qed.

(** ** The structure of a block *)

Lemma check_txids_Ok hs seen :
  is_ok (foldM check_txid seen hs) = true ↔ NoDup hs ∧ ∀ h, h ∈ hs → h ∉ seen.
Proof.
  revert seen. induction hs as [|h hs IH]; intros seen; cbn [foldM].
  { split; [|done]. intros _. split; [constructor|set_solver]. }
  unfold check_txid at 2. destruct (bool_decide_reflect (h ∈ seen)) as [Hin|Hin]; cbn [fail_if mbind res_bind].
  - split; [done|]. intros [_ Hs]. exfalso. by apply (Hs h); [left|].
  - rewrite IH, NoDup_cons. split.
    + intros [Hnd Hs]. split_and!; [|done|].
      * intros Hh. apply (Hs h Hh). set_solver.
      * intros h' [->|Hh']%elem_of_cons; [done|]. specialize (Hs h' Hh'). set_solver.
    + intros [[Hh Hnd] Hs]. split; [done|]. intros h' Hh'.
      specialize (Hs h' ltac:(by right)). rewrite elem_of_union, elem_of_singleton.
      intros [->|?]; done.
Qed.

#[local] Arguments foldM : simpl never.

(** What the structural check means, for a block without cached values. *)
Record well_structured (b : Block) (height : Z) (p : ChainParams) (cb : Transaction)
    (rest : list Transaction) : Prop := {
  ws_version : 1 ≤ hdr_Version (blk_Header b);
  ws_txs : blk_Transactions b = cb :: rest;
  ws_coinbase : Transaction_IsCoinbase cb = true;
  ws_height : 0 < height → ∃ i, tx_Inputs cb = [i] ∧
    validateCoinbaseScriptSig (in_SignatureScript i) height = Ok ();
  ws_rest : Forall (λ tx, Transaction_IsCoinbase tx = false) rest;
  ws_count : u32 (len (blk_Transactions b)) ≤ p_MaxBlockTxCount p;
  ws_distinct : NoDup (HashTransaction <$> blk_Transactions b);
  ws_merkle : MerkleRoot (HashTransaction <$> blk_Transactions b) = hdr_MerkleRoot (blk_Header b);
  ws_size : u32 (len (Block_SerializeToBytes b)) ≤ p_MaxBlockSize p;
  ws_value : out_total (tx_Outputs cb) < 2 ^ 64
}.

Lemma IsCoinbase_single tx : Transaction_IsCoinbase tx = true → ∃ i, tx_Inputs tx = [i].
Proof. unfold Transaction_IsCoinbase. destruct (tx_Inputs tx) as [|i [|]]; naive_solver. Qed.

Lemma is_ok_Ok {A} (m : res A) : is_ok m = true ↔ ∃ a, m = Ok a.
Proof. destruct m; naive_solver. Qed.

Lemma no_coinbase_Ok txs :
  foldM (λ (_ : ()) tx, fail_if (Transaction_IsCoinbase tx)
           (Errorf "transaction %d is an unexpected coinbase")) () txs = Ok () ↔
  Forall (λ tx, Transaction_IsCoinbase tx = false) txs.
Proof. apply foldM_unit_Ok. intros _ tx. apply fail_if_Ok. Qed.

Lemma block_structure_Ok b height p :
  Forall wf_tx (blk_Transactions b) →
  ValidateBlockStructure b height p None None = Ok () ↔
  ∃ cb rest, well_structured b height p cb rest.
Proof.
  intros Hwf. unfold ValidateBlockStructure. cbn [default]. split.
  - intros H. res_inv. destruct (blk_Transactions b) as [|cb rest] eqn:Htxs; [done|]. res_inv.
    rewrite Z.ltb_ge, negb_false_iff, bool_decide_eq_true in *.
    exists cb, rest. split; rewrite ?Htxs; try done.
    + intros Hh. rewrite (proj2 (Z.ltb_lt _ _)) in * by done.
      destruct (IsCoinbase_single cb) as [i Hi]; [done|]. exists i. split; [done|].
      rewrite Hi in *. by res_inv.
    + by apply no_coinbase_Ok.
    + match goal with Hx : foldM check_txid _ _ = Ok _ |- _ =>
        refine (proj1 (proj1 (check_txids_Ok (HashTransaction <$> cb :: rest) ∅) _));
        apply is_ok_Ok; eexists; exact Hx end.
    + match goal with Hx : foldM add_coinbase_value _ _ = Ok _ |- _ =>
        by apply coinbase_sum_Ok in Hx as [-> ?];
          [|apply wf_tx_outputs; apply Forall_cons in Hwf as [? _]] end.
  - intros (cb & rest & [Hv Htxs Hcb Hh Hr Hc Hd Hm Hs Hval]).
    rewrite Htxs, (proj2 (Z.ltb_ge _ _)), Hcb by lia. rewrite Htxs in Hd, Hm, Hc, Hwf.
    cbn [fail_if mbind res_bind negb].
    assert (Hscript : (if 0 <? height then
        match tx_Inputs cb with [] => Panic
        | i :: _ => wrap "coinbase scriptSig" (validateCoinbaseScriptSig (in_SignatureScript i) height)
        end else Ok ()) = Ok ()).
    { destruct (Z.ltb_spec 0 height) as [Hpos|]; [|done]. destruct (Hh Hpos) as (i & -> & ->). done. }
    rewrite Hscript, (proj2 (no_coinbase_Ok rest)), (proj2 (Z.ltb_ge _ _)) by done.
    cbn [fail_if mbind res_bind].
    assert (Hids : is_ok (foldM check_txid ∅ (HashTransaction <$> cb :: rest)) = true).
    { apply check_txids_Ok. split; [done|set_solver]. }
    apply is_ok_Ok in Hids as [x Hx]. rewrite Hx, bool_decide_true, (proj2 (Z.ltb_ge _ _)) by done.
    cbn [fail_if mbind res_bind negb].
    rewrite (proj2 (coinbase_sum_Ok (tx_Outputs cb) _ ltac:(apply wf_tx_outputs; by apply Forall_cons in Hwf as [? _]))
               (conj eq_refl Hval)). done.
Qed.

Lemma ValidateBlockStructure_Ok b height p :
  wf_block b →
  ValidateBlockStructure b height p None None = Ok () ↔
  ∃ cb rest, well_structured b height p cb rest.
Proof. intros (_ & _ & Hwf). by apply block_structure_Ok. Qed.

(** ** Median time past *)

Lemma shift_loop_spec pre key hole post :
  StronglySorted Z.le pre →
  ∃ pre', shift_loop (length pre) key (pre ++ hole :: post) = pre' ++ post ∧
    Permutation (key :: pre) pre' ∧ StronglySorted Z.le pre'.
Proof.
  revert hole post. induction pre as [|x pre IH] using rev_ind; intros hole post Hs.
  { exists [key]. split_and!; [done|done|repeat constructor]. }
  rewrite length_app, Nat.add_1_r. cbn [shift_loop].
  rewrite <- app_assoc. simpl app at 2.
  rewrite lookup_app_r, Nat.sub_diag by done. cbn [lookup list_lookup].
  assert (Hle : ∀ y, y ∈ pre → y ≤ x).
  { intros y Hy. eapply StronglySorted_app_1_elem_of; [exact Hs|done|set_solver]. }
  assert (Hsp : StronglySorted Z.le pre) by by eapply StronglySorted_app_1_l.
  assert (Hset : ∀ v, <[S (length pre) := v]> (pre ++ x :: hole :: post) = pre ++ x :: v :: post).
  { intros v. rewrite insert_app_r_alt by lia. replace (S (length pre) - length pre)%nat with 1%nat by lia.
    done. }
  destruct (Z.ltb_spec key x) as [Hlt|Hge].
  - rewrite Hset. destruct (IH x (x :: post) Hsp) as (pre' & Heq & Hp & Hs').
    exists (pre' ++ [x]). rewrite Heq, <- app_assoc. split_and!; [done| |].
    + rewrite (Permutation_app_comm pre [x]), (Permutation_app_comm pre' [x]). simpl.
      rewrite <- Hp. constructor.
    + apply StronglySorted_app_2; [|done|repeat constructor].
      intros y z Hy ->%list_elem_of_singleton. rewrite <- Hp in Hy.
      apply elem_of_cons in Hy as [->|Hy]; [lia|by apply Hle].
  - rewrite Hset. exists (pre ++ [x; key]). rewrite <- app_assoc. split_and!; [done| |].
    + rewrite (Permutation_app_comm pre [x]), (Permutation_app_comm pre [x; key]). simpl. constructor.
    + apply StronglySorted_app_2; [|done|repeat constructor; lia].
      intros y z Hy Hz. specialize (Hle y Hy).
      apply elem_of_cons in Hz as [-> | ->%list_elem_of_singleton]; lia.
Qed.

Lemma sort_loop_spec n pre post :
  n = length post → StronglySorted Z.le pre →
  Permutation (pre ++ post) (sort_loop n (length pre) (pre ++ post)) ∧
  StronglySorted Z.le (sort_loop n (length pre) (pre ++ post)).
Proof.
  revert n pre. induction post as [|x post IH]; intros n pre -> Hs; cbn [sort_loop length].
  { by rewrite app_nil_r. }
  rewrite lookup_app_r, Nat.sub_diag by done. cbn [lookup list_lookup].
  destruct (shift_loop_spec pre x x post Hs) as (pre' & -> & Hp & Hs').
  assert (Hl : S (length pre) = length pre') by by rewrite <- Hp.
  rewrite Hl. destruct (IH _ pre' eq_refl Hs') as [Hp2 Hs2]. split; [|done].
  rewrite <- Hp2, <- Hp. simpl. by rewrite Permutation_middle.
Qed.

Lemma insertion_sort_spec ts :
  Permutation ts (insertion_sort ts) ∧ StronglySorted Z.le (insertion_sort ts).
Proof.
  unfold insertion_sort. destruct ts as [|t ts]; [repeat constructor|].
  destruct (sort_loop_spec (length ts) [t] ts) as [Hp Hs]; [done|repeat constructor|].
  simpl in *. by rewrite Nat.sub_0_r.
Qed.

(** The number of elements that are at least [m]. *)
Definition count_ge (m : Z) (l : list Z) : nat := length (List.filter (λ x, m <=? x) l).

Lemma count_ge_app m l1 l2 : count_ge m (l1 ++ l2) = (count_ge m l1 + count_ge m l2)%nat.
Proof. unfold count_ge. by rewrite List.filter_app, length_app. Qed.

Lemma count_ge_perm m l1 l2 : Permutation l1 l2 → count_ge m l1 = count_ge m l2.
Proof.
  unfold count_ge. induction 1 as [|x l1 l2 _ IH|x y l|l1 l2 l3 _ IH1 _ IH2]; simpl.
  - done.
  - destruct (m <=? x); simpl; congruence.
  - by destruct (m <=? x), (m <=? y).
  - congruence.
Qed.

Lemma count_ge_le m l : (count_ge m l ≤ length l)%nat.
Proof. unfold count_ge. induction l as [|x l IH]; simpl; [lia|]. destruct (_ <=? _); simpl; lia. Qed.

Lemma count_ge_all m l : Forall (λ x, m ≤ x) l → count_ge m l = length l.
Proof.
  unfold count_ge. induction 1 as [|x l Hx _ IH]; [done|]. simpl.
  rewrite (proj2 (Z.leb_le _ _)) by done. simpl. congruence.
Qed.

Lemma count_ge_none m l : Forall (λ x, x < m) l → count_ge m l = 0%nat.
Proof.
  unfold count_ge. induction 1 as [|x l Hx _ IH]; [done|]. simpl.
  by rewrite (proj2 (Z.leb_gt _ _)) by done.
Qed.

(** In a sorted list, the element at index [k] is at least [m] exactly when
    enough elements are. *)
Lemma sorted_count_ge l k x m :
  StronglySorted Z.le l → l !! k = Some x →
  (m ≤ x ↔ (length l - k ≤ count_ge m l)%nat).
Proof.
  intros Hs Hk. assert (Hlt := lookup_lt_Some _ _ _ Hk).
  rewrite <- (take_drop_middle _ _ _ Hk) in Hs |- *.
  apply StronglySorted_app in Hs as (Hord & _ & Hs). apply StronglySorted_cons in Hs as [Hx _].
  rewrite count_ge_app, length_app, length_take, Nat.min_l by lia. split.
  - intros Hm. assert (Hc := count_ge_all m (x :: drop (S k) l)). rewrite Hc; [lia|].
    constructor; [done|]. eapply Forall_impl; [exact Hx|]. simpl. lia.
  - intros Hc. destruct (decide (m ≤ x)) as [|Hn]; [done|]. exfalso.
    assert (Ht : count_ge m (take k l) = 0%nat).
    { apply count_ge_none, Forall_forall. intros y Hy.
      assert (y ≤ x) by (apply Hord; [done|by left]). lia. }
    change (x :: drop (S k) l) with ([x] ++ drop (S k) l) in Hc.
    rewrite count_ge_app, Ht, (count_ge_none m [x]) in Hc by (constructor; [lia|done]).
    pose proof (count_ge_le m (drop (S k) l)). rewrite length_app in Hc. simpl in Hc. lia.
Qed.

(** The upper median of a non-empty list, as the code takes it. *)
Lemma median_lookup ts :
  ts ≠ [] →
  insertion_sort ts !! (length ts / 2)%nat = Some (nth (length ts / 2) (insertion_sort ts) 0).
Proof.
  intros Hne. destruct (insertion_sort_spec ts) as [Hp _].
  destruct (lookup_lt_is_Some_2 (insertion_sort ts) (length ts / 2)) as [x Hx].
  { rewrite <- Hp. apply Nat.div_lt; [destruct ts; simpl; [done|lia]|lia]. }
  rewrite Hx. f_equal. symmetry. rewrite nth_lookup. by rewrite Hx.
Qed.

Lemma median_ge_iff ts m :
  ts ≠ [] →
  m ≤ nth (length ts / 2) (insertion_sort ts) 0 ↔
  (length ts - length ts / 2 ≤ count_ge m ts)%nat.
Proof.
  intros Hne. destruct (insertion_sort_spec ts) as [Hp Hs].
  rewrite (sorted_count_ge _ _ _ m Hs (median_lookup ts Hne)).
  by rewrite <- (count_ge_perm m _ _ Hp), <- (Permutation_length Hp).
Qed.

Lemma mtp_collect_take n i tip g :
  mtp_collect n i tip g = take n (mtp_collect (S n) i tip g).
Proof.
  revert i. induction n as [|n IH]; intros i; [done|]. cbn [mtp_collect].
  destruct (i <=? tip); [|done]. destruct (g (tip - i)); [|done]. cbn [take]. f_equal. apply IH.
Qed.

Lemma mtp_collect_shift n i tip g :
  mtp_collect n (i + 1) (tip + 1) g = mtp_collect n i tip g.
Proof.
  revert i. induction n as [|n IH]; intros i; [done|]. cbn [mtp_collect].
  replace (tip + 1 - (i + 1)) with (tip - i) by lia.
  replace (i + 1 <=? tip + 1) with (i <=? tip) by (destruct (Z.leb_spec i tip), (Z.leb_spec (i + 1) (tip + 1)); lia).
  destruct (i <=? tip); [|done]. destruct (g (tip - i)); [|done]. f_equal. apply IH.
Qed.

Lemma mtp_collect_length n i tip g : (length (mtp_collect n i tip g) ≤ n)%nat.
Proof.
  revert i. induction n as [|n IH]; intros i; cbn [mtp_collect]; [done|].
  destruct (i <=? tip); [|simpl; lia]. destruct (g (tip - i)); simpl; [|lia]. specialize (IH (i + 1)). lia.
Qed.

(** The window of the next block: its own timestamp and the ten newest of the
    previous window. *)
Lemma mtp_window_next tip g h :
  0 ≤ tip → g (tip + 1) = Some h →
  mtp_collect medianCount 0 (tip + 1) g =
  hdr_Timestamp h :: take 10 (mtp_collect medianCount 0 tip g).
Proof.
  intros Ht Hg. unfold medianCount.
  change (mtp_collect 11 0 (tip + 1) g) with
    (if 0 <=? tip + 1 then match g (tip + 1 - 0) with None => []
      | Some h => hdr_Timestamp h :: mtp_collect 10 (0 + 1) (tip + 1) g end else []).
  rewrite (proj2 (Z.leb_le _ _)), Z.sub_0_r, Hg, mtp_collect_shift by lia. f_equal.
  apply mtp_collect_take.
Qed.

(** ** Transaction identifiers *)

Lemma Transaction_Serialize_inj tx1 tx2 :
  wf_tx tx1 → wf_tx tx2 →
  Transaction_SerializeToBytes tx1 = Transaction_SerializeToBytes tx2 → tx1 = tx2.
Proof.
  intros H1 H2 Heq. unfold Transaction_SerializeToBytes in Heq.
  pose proof (Transaction_decodes tx1 H1 []) as D1. pose proof (Transaction_decodes tx2 H2 []) as D2.
  rewrite Heq, D2 in D1. congruence.
Qed.

Lemma tx_hashes_bind xs l1 l2 :
  collision_free xs →
  Transaction_SerializeToBytes <$> l1 ⊆ xs → Transaction_SerializeToBytes <$> l2 ⊆ xs →
  Forall wf_tx l1 → Forall wf_tx l2 →
  HashTransaction <$> l1 = HashTransaction <$> l2 → l1 = l2.
Proof.
  intros Hcf S1 S2 W1. revert l2 S2. induction W1 as [|x l1 Wx W1 IH]; intros [|y l2] S2 W2 Heq;
    try done.
  apply Forall_cons in W2 as [Wy W2]. cbn [fmap list_fmap] in *. injection Heq as Hxy Hl.
  f_equal; [|apply IH; [set_solver|set_solver|done..]].
  apply Transaction_Serialize_inj; [done..|].
  eapply collision_free_inj; [done|set_solver|set_solver|exact Hxy].
Qed.

(** ** Properties *)

(** BIP34, exactly: for a 32-bit height, [validateCoinbaseScriptSig] accepts a
    script if and only if it has at most 100 bytes and starts with a push of the
    little-endian height in the fewest bytes that hold it.  So a script is
    accepted for one height only. *)
Theorem coinbase_height_correct script h h' :
  is_u32 h → is_u32 h' →
  (validateCoinbaseScriptSig script h = Ok () ↔
   len script ≤ 100 ∧
   ∃ rest, script = Z_to_byte (minimalPushLen h)
                      :: le_encode (Z.to_nat (minimalPushLen h)) h ++ rest) ∧
  (validateCoinbaseScriptSig script h = Ok () → validateCoinbaseScriptSig script h' = Ok () → h = h').
Proof.
  intros Hh Hh'. split; [by apply coinbase_script_Ok|].
  unfold validateCoinbaseScriptSig. intros H1 H2. res_inv. rewrite negb_false_iff, Z.eqb_eq in *.
  congruence.
Qed.

(** The structural check, exactly: without cached values,
    [ValidateBlockStructure] accepts a well-formed block if and only if its
    version is positive, its first transaction and no other one is a coinbase,
    the coinbase carries the height, the transaction identifiers are distinct
    and hash to the header's merkle root, the limits on count and size hold and
    the coinbase outputs do not overflow. *)
Theorem ValidateBlockStructure_correct b height p :
  wf_block b →
  ValidateBlockStructure b height p None None = Ok () ↔
  ∃ cb rest, well_structured b height p cb rest.
Proof. apply ValidateBlockStructure_Ok. Qed.

(** A header pins down the transactions: two well-formed blocks that pass the
    structural check with the same merkle root and trees of the same height
    have the same transactions, unless the hashing of the two blocks
    collides. *)
Theorem header_binds_transactions b1 b2 height p1 p2 :
  let hs1 := HashTransaction <$> blk_Transactions b1 in
  let hs2 := HashTransaction <$> blk_Transactions b2 in
  wf_block b1 → wf_block b2 →
  ValidateBlockStructure b1 height p1 None None = Ok () →
  ValidateBlockStructure b2 height p2 None None = Ok () →
  hdr_MerkleRoot (blk_Header b1) = hdr_MerkleRoot (blk_Header b2) →
  merkle_height hs1 = merkle_height hs2 →
  collision_free (merkle_inputs (length hs1) hs1 ++ merkle_inputs (length hs2) hs2) →
  collision_free (Transaction_SerializeToBytes <$> (blk_Transactions b1 ++ blk_Transactions b2)) →
  blk_Transactions b1 = blk_Transactions b2.
Proof.
  intros hs1 hs2 Hw1 Hw2 (cb1 & r1 & S1)%ValidateBlockStructure_Ok
    (cb2 & r2 & S2)%ValidateBlockStructure_Ok Hroot Hh Hcf Hcf2; [|done..].
  assert (Heq : hs1 = hs2).
  { assert (Hwf : ∀ b, Forall wf_hash (HashTransaction <$> blk_Transactions b)).
    { intros b. apply Forall_fmap, Forall_forall. intros tx _. apply DoubleSHA256_wf. }
    assert (Hne : ∀ b c r, blk_Transactions b = c :: r → HashTransaction <$> blk_Transactions b ≠ [])
      by (by intros b c r ->).
    destruct S1 as [_ T1 _ _ _ _ D1 M1 _ _], S2 as [_ T2 _ _ _ _ D2 M2 _ _].
    eapply merkle_binding; [exact Hcf|exact Hh|done|by eapply Hne|by eapply Hne|apply Hwf|apply Hwf
      |done|done|set_solver|set_solver|]. unfold hs1, hs2. congruence. }
  destruct Hw1 as (_ & _ & W1), Hw2 as (_ & _ & W2). unfold hs1, hs2 in Heq.
  eapply (tx_hashes_bind _ _ _ Hcf2); [set_solver|set_solver|done..].
Qed.

(** The median time past is the median: the sorted window of the last eleven
    timestamps (fewer at the start of the chain) holds the result at half its
    length, and the insertion sort permutes the window. *)
Theorem CalcMedianTimePast_median tip g :
  let ts := mtp_collect medianCount 0 tip g in
  ts ≠ [] →
  Permutation ts (insertion_sort ts) ∧ StronglySorted Z.le (insertion_sort ts) ∧
  insertion_sort ts !! (length ts / 2)%nat = Some (CalcMedianTimePast tip g) ∧
  (length ts ≤ medianCount)%nat.
Proof.
  intros ts Hne. destruct (insertion_sort_spec ts) as [Hp Hs]. split_and!; [done|done| |].
  - unfold CalcMedianTimePast. fold ts.
    rewrite (proj2 (len_zero ts)) by done. by apply median_lookup.
  - apply mtp_collect_length.
Qed.

(** Time moves forward: under the "median-11" rule, when
    [ValidateHeaderTimestamp] accepts a header on top of a chain and the header
    is then the next one of that chain, the median time past does not
    decrease, and the timestamp lies strictly above it and within the
    permitted drift. *)
Theorem median_time_monotone header parent now g tip p :
  p_MinTimestampRule p = "median-11" → 0 ≤ tip → g (tip + 1) = Some header →
  ValidateHeaderTimestamp header parent now g tip p = Ok () →
  CalcMedianTimePast tip g < hdr_Timestamp header ≤ now + seconds (p_MaxTimeFutureDrift p) ∧
  CalcMedianTimePast tip g ≤ CalcMedianTimePast (tip + 1) g.
Proof.
  intros Hrule Htip Hg Hv. unfold ValidateHeaderTimestamp in Hv. rewrite Hrule in Hv.
  cbn [String.eqb Ascii.eqb Bool.eqb] in Hv. res_inv. rewrite Z.leb_gt, Z.ltb_ge in *.
  split; [lia|]. set (m := CalcMedianTimePast tip g) in *.
  set (w := mtp_collect medianCount 0 tip g) in *.
  unfold CalcMedianTimePast at 1. rewrite (mtp_window_next tip g header Htip Hg). fold w.
  set (w' := hdr_Timestamp header :: take 10 w).
  rewrite (proj2 (len_zero w')) by done. apply median_ge_iff; [done|].
  assert (Hcw' : count_ge m w' = S (count_ge m (take 10 w))).
  { unfold count_ge, w'. simpl. by rewrite (proj2 (Z.leb_le _ _)) by lia. }
  assert (Hlw : (length w ≤ 11)%nat) by apply mtp_collect_length.
  assert (Hlw' : length w' = S (Nat.min 10 (length w))) by (unfold w'; simpl; by rewrite length_take).
  destruct (decide (w = [])) as [Hw|Hw].
  { rewrite Hw in *. simpl in *. rewrite Hlw', Hcw'. simpl. lia. }
  assert (Hcw : (length w - length w / 2 ≤ count_ge m w)%nat).
  { apply median_ge_iff; [done|]. unfold m, CalcMedianTimePast. fold w.
    by rewrite (proj2 (len_zero w)). }
  assert (Hsplit : count_ge m w = (count_ge m (take 10 w) + count_ge m (drop 10 w))%nat)
    by (by rewrite <- count_ge_app, take_drop).
  pose proof (count_ge_le m (drop 10 w)) as Hd. rewrite length_drop in Hd.
  rewrite Hcw', Hlw'.
  pose proof (Nat.div_mod_eq (length w) 2). pose proof (Nat.mod_upper_bound (length w) 2).
  pose proof (Nat.div_mod_eq (S (Nat.min 10 (length w))) 2).
  pose proof (Nat.mod_upper_bound (S (Nat.min 10 (length w))) 2). lia.
Qed.

Lemma coinbase_total_none txs :
  Forall (λ tx, Transaction_IsCoinbase tx = false) txs → coinbase_total txs = 0.
Proof. unfold coinbase_total. induction 1 as [|tx txs Hx _ IH]; simpl; [done|]. rewrite Hx. lia. Qed.

(** C1: No inflation: a well-formed block with new transaction identifiers that
    passes the structural check and [ValidateTransactionInputs] increases the
    total value of the unspent outputs by at most the block subsidy when
    [Set.ConnectBlock] applies it. *)
Theorem no_inflation `{CryptoLib} b s height p m fees undo s' :
  u64_entries s → wf_block b → fresh_block s b → is_u64 (CalcSubsidy p height) →
  ValidateBlockStructure b height p None None = Ok () →
  ValidateTransactionInputs b s height p m None = Ok fees →
  ConnectBlock s b height None = Ok (undo, s') →
  utxo_total s' ≤ utxo_total s + CalcSubsidy p height.
Proof.
  intros Hu Hwf Hfresh Hsub (cb0 & r0 & Hws)%ValidateBlockStructure_Ok Hval Hcon; [|done].
  destruct (ValidateTransactionInputs_ledger b s height p m fees Hu Hwf Hsub Hval)
    as (cb & rest & s1 & Hb & Hvt & Hcb & Htot).
  destruct Hws as [_ Hb' Hcb0 _ Hrest _ _ _ _ _]. rewrite Hb in Hb'. injection Hb' as <- <-.
  apply valid_txs_apply in Hvt. rewrite <- Hb in Hvt. fold (apply_block height s b) in Hvt.
  pose proof (ConnectBlock_sim s b height Hfresh) as Hsim. rewrite Hcon, Hvt in Hsim.
  destruct Hsim as (cs & _ & _ & Hs' & _). simpl in Hs'. subst s1.
  change (coinbase_total (cb :: rest)) with
    ((if Transaction_IsCoinbase cb then out_total (tx_Outputs cb) else 0) + coinbase_total rest) in Htot.
  rewrite Hcb0, coinbase_total_none in Htot by done. lia.
Qed.

(** ** Witnesses *)

Lemma coinbase_height_correct_witness :
  validateCoinbaseScriptSig [x02; x39; x30; xaa] 12345 = Ok ().
Proof.
  apply (proj2 (proj1 (coinbase_height_correct [x02; x39; x30; xaa] 12345 12345
           ltac:(by_decide) ltac:(by_decide)))).
  split; [by_decide|]. exists [xaa]. vm_compute. reflexivity.
Defined.

Lemma ValidateBlockStructure_correct_witness :
  ∃ cb rest, well_structured v_block 1 Regtest cb rest.
Proof.
  refine (proj1 (ValidateBlockStructure_correct v_block 1 Regtest _) _); by_decide.
Defined.

Definition v_block2 : Block :=
  mkBlock (mkBlockHeader 1 (replicate 32 x07) (hdr_MerkleRoot v_header) 1774175200 0x207fffff 5)
    [v_coinbase; v_spend].

Lemma header_binds_transactions_witness :
  blk_Transactions v_block = blk_Transactions v_block2.
Proof.
  refine (header_binds_transactions v_block v_block2 1 Regtest Regtest _ _ _ _ _ _ _ _); by_decide.
Defined.

(** A chain of 20 headers one minute apart, oldest first. *)
Definition sample_chain : Ancestors := λ h,
  if (0 <=? h) && (h <? 20) then
    Some (mkBlockHeader 1 ZeroHash ZeroHash (1774175100 + 60 * h) 0x207fffff 0)
  else None.

Lemma CalcMedianTimePast_median_witness :
  insertion_sort (mtp_collect medianCount 0 18 sample_chain) !! 5%nat =
  Some (CalcMedianTimePast 18 sample_chain).
Proof.
  refine (proj1 (proj2 (proj2 (CalcMedianTimePast_median 18 sample_chain _)))). discriminate.
Defined.

Lemma median_time_monotone_witness :
  CalcMedianTimePast 18 sample_chain ≤ CalcMedianTimePast 19 sample_chain.
Proof.
  refine (proj2 (median_time_monotone
    (mkBlockHeader 1 ZeroHash ZeroHash (1774175100 + 60 * 19) 0x207fffff 0)
    (mkBlockHeader 1 ZeroHash ZeroHash (1774175100 + 60 * 18) 0x207fffff 0)
    1774177000 sample_chain 18 Testnet _ _ _ _)).
  - reflexivity.
  - lia.
  - reflexivity.
  - by_decide.
Defined.

Definition v_connected : BlockUndoData * UtxoSet :=
  match ConnectBlock v_set v_block 1 None with Ok r => r | _ => ([], ∅) end.

Lemma no_inflation_witness :
  utxo_total (snd v_connected) ≤ utxo_total v_set + CalcSubsidy Regtest 1.
Proof.
  refine (@no_inflation toy_lib v_block v_set 1 Regtest 0 10 (fst v_connected) (snd v_connected)
            _ _ _ _ _ _ _); by_decide.
Defined.
