(* ===== verification/Difficulty.v ===== *)
(** * internal/difficulty

    The four retargeting algorithms (bitcoin.go, lwma.go, dgw.go,
    digishield.go) behind the interface [Retargeter] of retargeter.go.

    64-bit arithmetic wraps around where it could leave its range, division
    truncates ([Z.quot]), and [big.Int] division by zero panics.  The class
    [RetargeterOk] is what the consensus engine needs of an algorithm; each of
    the four has an instance. *)
From S2P Require Import Prelude Types Sha256 Target Merkle Params Utxo Keys Script.
From S2P Require Import TxValidation Validation.

Record Retargeter : Type := mkRetargeter {
  r_CalcNextBits : BlockHeader → Z → Ancestors → ChainParams → res Z;
  r_Name : string
}.

(** [new(big.Int).Div(x, y)]: Euclidean division. *)
Definition big_Div (x y : Z) : res Z :=
  if y =? 0 then Panic else Ok (Z.sgn y * (x / Z.abs y)).

(** The end all four algorithms share: the floor of 1, the clamp to the easiest
    target, the compact form. *)
Definition clamp_target (p : ChainParams) (t : Z) : Z :=
  let t := if t <=? 0 then 1 else t in
  let maxTarget := CompactToBig (p_MinBits p) in
  let t := if maxTarget <? t then maxTarget else t in
  BigToCompact t.

(** [if x < lo { x = lo }; if x > hi { x = hi }]. *)
Definition clamp (lo hi x : Z) : Z :=
  let x := if x <? lo then lo else x in
  if hi <? x then hi else x.

(** ** bitcoin.go *)

(** A timestamp capped at the median time past plus the permitted drift. *)
Definition cap_timestamp (ts height : Z) (getAncestor : Ancestors) (p : ChainParams) : Z :=
  let maxTS := CalcMedianTimePast height getAncestor + seconds (p_MaxTimeFutureDrift p) in
  if maxTS <? ts then maxTS else ts.

Definition bitcoin_CalcNextBits (tip : BlockHeader) (tipHeight : Z) (getAncestor : Ancestors)
    (p : ChainParams) : res Z :=
  if p_NoRetarget p then Ok (p_InitialBits p) else
  let nextHeight := u32 (tipHeight + 1) in
  if p_RetargetInterval p =? 0 then Panic else
  if negb (nextHeight mod p_RetargetInterval p =? 0) then Ok (hdr_Bits tip) else
  let windowStart := u32 (tipHeight - u32 (p_RetargetInterval p - 1)) in
  match getAncestor windowStart with
  | None => Ok (hdr_Bits tip)
  | Some firstHeader =>
      let firstTS := cap_timestamp (hdr_Timestamp firstHeader) windowStart getAncestor p in
      let tipTS := cap_timestamp (hdr_Timestamp tip) tipHeight getAncestor p in
      let actualTimespan := i64 (tipTS - firstTS) in
      let targetTimespan := seconds (p_TargetTimespan p) in
      let actualTimespan :=
        clamp (Z.quot targetTimespan 4) (i64 (targetTimespan * 4)) actualTimespan in
      newTarget ← big_Div (CompactToBig (hdr_Bits tip) * actualTimespan) targetTimespan;
      Ok (clamp_target p newTarget)
  end.

(** ** lwma.go *)

(** The headers at heights [start], ..., [start + n - 1]. *)
Fixpoint collect_headers (n : nat) (start : Z) (getAncestor : Ancestors)
    : option (list BlockHeader) :=
  match n with
  | O => Some []
  | S n' =>
      match getAncestor (u32 start) with
      | None => None
      | Some h =>
          match collect_headers n' (start + 1) getAncestor with
          | Some hs => Some (h :: hs)
          | None => None
          end
      end
  end.

(** The loop over the window: [i] is the weight of the next header. *)
Fixpoint lwma_loop (maxST i prevTS weightedSum sumTarget : Z) (hs : list BlockHeader) : Z * Z :=
  match hs with
  | [] => (weightedSum, sumTarget)
  | h :: hs' =>
      let thisTS := if hdr_Timestamp h <=? prevTS then prevTS + 1 else hdr_Timestamp h in
      let solveTime := thisTS - prevTS in
      let solveTime := if maxST <? solveTime then maxST else solveTime in
      lwma_loop maxST (i + 1) thisTS (i64 (weightedSum + i64 (i * solveTime)))
        (sumTarget + CompactToBig (hdr_Bits h)) hs'
  end.

Definition lwma_CalcNextBits (tip : BlockHeader) (tipHeight : Z) (getAncestor : Ancestors)
    (p : ChainParams) : res Z :=
  if p_NoRetarget p then Ok (p_InitialBits p) else
  let N := p_RetargetInterval p in
  let T := seconds (p_TargetBlockSpacing p) in
  if tipHeight <? N then Ok (p_InitialBits p) else
  match collect_headers (Z.to_nat (N + 1)) (tipHeight - N) getAncestor with
  | None => Ok (hdr_Bits tip)
  | Some [] => Panic
  | Some (first :: window) =>
      let maxST := i64 (6 * T) in
      let '(weightedSum, sumTarget) :=
        lwma_loop maxST 1 (hdr_Timestamp first) 0 0 window in
      let minL := Z.quot (i64 (i64 (N * N) * T)) 20 in
      let weightedSum := if weightedSum <? minL then minL else weightedSum in
      let numerator := sumTarget * i64 (200 * weightedSum) in
      let denominator := i64 (i64 (i64 (i64 (N * N) * u32 (N + 1)) * T) * 99) in
      nextTarget ← big_Div numerator denominator;
      Ok (clamp_target p nextTarget)
  end.

(** ** dgw.go *)

(** The walk back from the tip with [n] turns left; the last turn makes no step
    to the previous block.  [None] is the early return. *)
Fixpoint dgw_loop (n : nat) (current : option BlockHeader) (currentHeight sumTarget : Z)
    (getAncestor : Ancestors) : option Z :=
  match n with
  | O => Some sumTarget
  | S n' =>
      match current with
      | None => None
      | Some h =>
          let sumTarget := sumTarget + CompactToBig (hdr_Bits h) in
          match n' with
          | O => Some sumTarget
          | S _ =>
              let currentHeight := u32 (currentHeight - 1) in
              dgw_loop n' (getAncestor currentHeight) currentHeight sumTarget getAncestor
          end
      end
  end.

Definition dgw_CalcNextBits (tip : BlockHeader) (tipHeight : Z) (getAncestor : Ancestors)
    (p : ChainParams) : res Z :=
  if p_NoRetarget p then Ok (p_InitialBits p) else
  let N := p_RetargetInterval p in
  if tipHeight <? N then Ok (p_InitialBits p) else
  let T := seconds (p_TargetBlockSpacing p) in
  match dgw_loop (Z.to_nat N) (Some tip) tipHeight 0 getAncestor with
  | None => Ok (hdr_Bits tip)
  | Some sumTarget =>
      match getAncestor (tipHeight - N) with
      | None => Ok (hdr_Bits tip)
      | Some windowStart =>
          avgTarget ← big_Div sumTarget N;
          let actualTimespan := hdr_Timestamp tip - hdr_Timestamp windowStart in
          let expectedTimespan := i64 (N * T) in
          let actualTimespan :=
            clamp (Z.quot expectedTimespan 3) (i64 (expectedTimespan * 3)) actualTimespan in
          nextTarget ← big_Div (avgTarget * actualTimespan) expectedTimespan;
          Ok (clamp_target p nextTarget)
      end
  end.

(** ** digishield.go *)

Definition digishield_CalcNextBits (tip : BlockHeader) (tipHeight : Z) (getAncestor : Ancestors)
    (p : ChainParams) : res Z :=
  if p_NoRetarget p then Ok (p_InitialBits p) else
  if tipHeight <? 1 then Ok (p_InitialBits p) else
  let T := seconds (p_TargetBlockSpacing p) in
  let N := p_RetargetInterval p in
  let N := if N <? 2 then 4 else N in
  match getAncestor (tipHeight - 1) with
  | None => Ok (hdr_Bits tip)
  | Some prev =>
      let actualSolveTime := hdr_Timestamp tip - hdr_Timestamp prev in
      let actualSolveTime := if actualSolveTime <? 1 then 1 else actualSolveTime in
      let dampenedTimespan := Z.quot (i64 (i64 ((N - 1) * T) + actualSolveTime)) N in
      let dampenedTimespan := clamp (Z.quot T 4) (i64 (T * 4)) dampenedTimespan in
      nextTarget ← big_Div (CompactToBig (hdr_Bits tip) * dampenedTimespan) T;
      Ok (clamp_target p nextTarget)
  end.

(** ** retargeter.go *)

Definition bitcoin_Retargeter : Retargeter := mkRetargeter bitcoin_CalcNextBits "bitcoin".
Definition lwma_Retargeter : Retargeter := mkRetargeter lwma_CalcNextBits "lwma".
Definition dgw_Retargeter : Retargeter := mkRetargeter dgw_CalcNextBits "dgw".
Definition digishield_Retargeter : Retargeter := mkRetargeter digishield_CalcNextBits "digishield".

Definition GetRetargeter (name : string) : res Retargeter :=
  if String.eqb name "bitcoin" then Ok bitcoin_Retargeter
  else if String.eqb name "lwma" then Ok lwma_Retargeter
  else if String.eqb name "dgw" then Ok dgw_Retargeter
  else if String.eqb name "digishield" then Ok digishield_Retargeter
  else Err (Errorf "unknown difficulty algorithm: %q").

(** ** The promise to the engine *)

(** Parameters within which no 64-bit computation wraps around; the three
    networks are far inside. *)
Record sane_params (p : ChainParams) : Prop := {
  sn_interval : 1 ≤ p_RetargetInterval p ≤ 4096;
  sn_spacing : 1 ≤ seconds (p_TargetBlockSpacing p) ≤ 4096;
  sn_timespan : 1 ≤ seconds (p_TargetTimespan p) < 2 ^ 32;
  sn_drift : 0 ≤ seconds (p_MaxTimeFutureDrift p) < 2 ^ 32;
  sn_minbits : is_u32 (p_MinBits p);
  sn_maxtarget : 0 < CompactToBig (p_MinBits p)
}.

(** Difficulty bits whose target is positive and not easier than the limit. *)
Definition valid_bits (p : ChainParams) (bits : Z) : Prop :=
  is_u32 bits ∧ 0 < CompactToBig bits ≤ CompactToBig (p_MinBits p).

(** Every header the lookup returns has valid bits and a 32-bit timestamp. *)
Definition valid_ancestors (p : ChainParams) (g : Ancestors) : Prop :=
  ∀ h hdr, g h = Some hdr → is_u32 (hdr_Timestamp hdr) ∧ valid_bits p (hdr_Bits hdr).

(** An algorithm is safe when, on such inputs, it returns valid bits. *)
Class RetargeterOk (r : Retargeter) : Prop :=
  retarget_ok p tip tipHeight g :
    sane_params p → valid_bits p (p_InitialBits p) → valid_ancestors p g →
    is_u32 (hdr_Timestamp tip) → valid_bits p (hdr_Bits tip) →
    0 ≤ tipHeight < 2 ^ 32 - 1 →
    ∃ bits, r_CalcNextBits r tip tipHeight g p = Ok bits ∧ valid_bits p bits.

Lemma clamp_target_ok p t :
  sane_params p → valid_bits p (clamp_target p t) ∧
  CompactToBig (clamp_target p t) ≤ Z.max 1 t.
Proof.
  intros [_ _ _ _ Hm Hmax]. unfold clamp_target, valid_bits.
  pose proof (CompactToBig_range _ Hm) as Hr.
  set (t1 := if t <=? 0 then 1 else t). assert (Ht1 : 0 < t1 ∧ t1 ≤ Z.max 1 t).
  { unfold t1. destruct (Z.leb_spec t 0); lia. }
  set (t2 := if CompactToBig (p_MinBits p) <? t1 then CompactToBig (p_MinBits p) else t1).
  assert (Ht2 : 0 < t2 < 2 ^ 256 ∧ t2 ≤ CompactToBig (p_MinBits p) ∧ t2 ≤ t1).
  { unfold t2. destruct (Z.ltb_spec (CompactToBig (p_MinBits p)) t1); lia. }
  destruct (compact_rounds_down t2) as [Hd _]; [lia|]. split; [|lia].
  split; [apply BigToCompact_u32; lia|lia].
Qed.

Lemma big_Div_pos x y : 0 < y → big_Div x y = Ok (x / y).
Proof.
  intros Hy. unfold big_Div. rewrite (proj2 (Z.eqb_neq _ _)), Z.sgn_pos, Z.abs_eq by lia.
  f_equal. lia.
Qed.

Lemma clamp_range lo hi x : lo ≤ hi → lo ≤ clamp lo hi x ≤ hi.
Proof.
  intros. unfold clamp. destruct (Z.ltb_spec x lo); case_match; lia.
Qed.

Lemma clamp_id lo hi x : lo ≤ x ≤ hi → clamp lo hi x = x.
Proof.
  intros. unfold clamp. rewrite (proj2 (Z.ltb_ge x lo)) by lia. by rewrite (proj2 (Z.ltb_ge hi x)) by lia.
Qed.

#[export] Instance bitcoin_ok : RetargeterOk bitcoin_Retargeter.
Proof.
  intros p tip h g Hp Hinit Hg Hts Hbits Hh. cbn [r_CalcNextBits bitcoin_Retargeter].
  unfold bitcoin_CalcNextBits. destruct (p_NoRetarget p); [by eexists|].
  pose proof Hp as [Hi Hs Htt Hd Hm Hmax].
  rewrite (proj2 (Z.eqb_neq (p_RetargetInterval p) 0)) by lia.
  destruct (negb _); [by eexists|]. destruct (g _) as [first|]; [|by eexists].
  rewrite big_Div_pos by lia. eexists. split; [done|]. by apply clamp_target_ok.
Qed.

#[export] Instance digishield_ok : RetargeterOk digishield_Retargeter.
Proof.
  intros p tip h g Hp Hinit Hg Hts Hbits Hh. cbn [r_CalcNextBits digishield_Retargeter].
  unfold digishield_CalcNextBits. destruct (p_NoRetarget p); [by eexists|].
  pose proof Hp as [Hi Hs Htt Hd Hm Hmax].
  destruct (h <? 1); [by eexists|]. destruct (g _) as [prev|]; [|by eexists].
  rewrite big_Div_pos by lia. eexists. split; [done|]. by apply clamp_target_ok.
Qed.

#[export] Instance dgw_ok : RetargeterOk dgw_Retargeter.
Proof.
  intros p tip h g Hp Hinit Hg Hts Hbits Hh. cbn [r_CalcNextBits dgw_Retargeter].
  unfold dgw_CalcNextBits. destruct (p_NoRetarget p); [by eexists|].
  pose proof Hp as [Hi Hs Htt Hd Hm Hmax].
  destruct (h <? _); [by eexists|]. destruct (dgw_loop _ _ _ _ _) as [sum|]; [|by eexists].
  destruct (g _) as [start|]; [|by eexists].
  rewrite big_Div_pos by lia. cbn [mbind res_bind].
  rewrite big_Div_pos by (rewrite i64_id; unfold is_i64; nia).
  eexists. split; [done|]. by apply clamp_target_ok.
Qed.

Lemma collect_headers_length n start g hs : collect_headers n start g = Some hs → length hs = n.
Proof.
  revert start hs. induction n as [|n IH]; intros start hs; cbn [collect_headers].
  { by intros [= <-]. }
  destruct (g _); [|done]. destruct (collect_headers n _ _) eqn:E; [|done].
  intros [= <-]. simpl. by rewrite (IH _ _ E).
Qed.

#[export] Instance lwma_ok : RetargeterOk lwma_Retargeter.
Proof.
  intros p tip h g Hp Hinit Hg Hts Hbits Hh. cbn [r_CalcNextBits lwma_Retargeter].
  unfold lwma_CalcNextBits. destruct (p_NoRetarget p); [by eexists|].
  pose proof Hp as [Hi Hs Htt Hd Hm Hmax].
  destruct (h <? _); [by eexists|].
  destruct (collect_headers _ _ _) as [[|first window]|] eqn:Hc; [|..|by eexists].
  { apply collect_headers_length in Hc. simpl in Hc. lia. }
  destruct (lwma_loop _ _ _ _ _ _) as [w sum].
  set (N := p_RetargetInterval p) in *. set (T := seconds (p_TargetBlockSpacing p)) in *.
  assert (HN : 0 < N * N ≤ 2 ^ 24) by nia.
  assert (HN3 : 0 < N * N * (N + 1) ≤ 2 ^ 37) by nia.
  assert (HN4 : 0 < N * N * (N + 1) * T ≤ 2 ^ 49) by nia.
  rewrite (u32_id (N + 1)) by (unfold is_u32; lia).
  rewrite (i64_id (N * N)) by (unfold is_i64; lia).
  rewrite (i64_id (N * N * (N + 1))) by (unfold is_i64; lia).
  rewrite (i64_id (N * N * (N + 1) * T)) by (unfold is_i64; lia).
  rewrite (i64_id (N * N * (N + 1) * T * 99)) by (unfold is_i64; lia).
  rewrite big_Div_pos by lia. eexists. split; [done|]. by apply clamp_target_ok.
Qed.

Lemma GetRetargeter_inv name r :
  GetRetargeter name = Ok r → RetargeterOk r ∧ r_Name r = name.
Proof.
  unfold GetRetargeter.
  repeat match goal with |- context [String.eqb name ?s] =>
    destruct (String.eqb_spec name s) as [->|_]; [intros [= <-]; split; [apply _|done]|] end.
  by intros.
Qed.

(** ** The rules in exact arithmetic

    What the four algorithms compute, over unbounded integers and lists of headers:
    the reference against which the code with its 64-bit arithmetic is proved. *)

(** The bits stay as they are, or a target is computed. *)
Inductive retarget : Type :=
| Stay (bits : Z)
| To (target : Z).

Definition target_of (h : BlockHeader) : Z := CompactToBig (hdr_Bits h).
Definition within (lo hi x : Z) : Z := Z.min hi (Z.max lo x).

(** A target is kept between 1 and the easiest one and rounded to its compact form. *)
Definition retargeted (p : ChainParams) (r : retarget) : Z :=
  match r with
  | Stay bits => bits
  | To t => BigToCompact (within 1 (CompactToBig (p_MinBits p)) t)
  end.

(** Once in an interval: the old target times the time that the interval took over
    the time it should take, within a factor of four. *)
Definition bitcoin_rule (p : ChainParams) (tip : BlockHeader) (h : Z) (g : Ancestors) : retarget :=
  let I := p_RetargetInterval p in
  let TT := seconds (p_TargetTimespan p) in
  if decide ((h + 1) mod I = 0) then
    match g (h + 1 - I) with
    | None => Stay (hdr_Bits tip)
    | Some first =>
        let took := cap_timestamp (hdr_Timestamp tip) h g p - cap_timestamp (hdr_Timestamp first) (h + 1 - I) g p in
        To (target_of tip * within (TT / 4) (4 * TT) took / TT)
    end
  else Stay (hdr_Bits tip).

(** The times between blocks, when a timestamp is at least one more than the one
    before. *)
Fixpoint solve_times (prev : Z) (hs : list BlockHeader) : list Z :=
  match hs with
  | [] => []
  | h :: hs' => let ts := Z.max (hdr_Timestamp h) (prev + 1) in (ts - prev) :: solve_times ts hs'
  end.
(** The sum of the first time, twice the second, and so on. *)
Fixpoint weighted (i : Z) (times : list Z) : Z :=
  match times with [] => 0 | t :: times' => i * t + weighted (i + 1) times' end.

(** The mean target of the window, times the weighted mean of its block times over
    the spacing. *)
Definition lwma_rule (p : ChainParams) (tip : BlockHeader) (h : Z) (g : Ancestors) : retarget :=
  let N := p_RetargetInterval p in
  let T := seconds (p_TargetBlockSpacing p) in
  if decide (h < N) then Stay (p_InitialBits p) else
  match mapM g (seqZ (h - N) (N + 1)) with
  | Some (first :: window) =>
      let L := weighted 1 (Z.min (6 * T) <$> solve_times (hdr_Timestamp first) window) in
      To (sumZ target_of window * (200 * Z.max L (N * N * T / 20)) / (N * N * (N + 1) * T * 99))
  | _ => Stay (hdr_Bits tip)
  end.

(** The mean target of the last blocks, times the time they took over the time they
    should take, within a factor of three. *)
Definition dgw_rule (p : ChainParams) (tip : BlockHeader) (h : Z) (g : Ancestors) : retarget :=
  let N := p_RetargetInterval p in
  let T := seconds (p_TargetBlockSpacing p) in
  if decide (h < N) then Stay (p_InitialBits p) else
  match mapM g ((λ j, h - j) <$> seqZ 1 (N - 1)), g (h - N) with
  | Some earlier, Some start =>
      let took := hdr_Timestamp tip - hdr_Timestamp start in
      To (sumZ target_of (tip :: earlier) / N * within (N * T / 3) (3 * (N * T)) took / (N * T))
  | _, _ => Stay (hdr_Bits tip)
  end.

(** The old target, times the last block time, damped by the spacing, over the
    spacing, within a factor of four. *)
Definition digishield_rule (p : ChainParams) (tip : BlockHeader) (h : Z) (g : Ancestors) : retarget :=
  let T := seconds (p_TargetBlockSpacing p) in
  let N := if decide (p_RetargetInterval p < 2) then 4 else p_RetargetInterval p in
  if decide (h < 1) then Stay (p_InitialBits p) else
  match g (h - 1) with
  | None => Stay (hdr_Bits tip)
  | Some prev =>
      let took := Z.max 1 (hdr_Timestamp tip - hdr_Timestamp prev) in
      To (target_of tip * within (T / 4) (4 * T) (((N - 1) * T + took) / N) / T)
  end.

Definition retarget_rule (name : string) (p : ChainParams) (tip : BlockHeader) (h : Z) (g : Ancestors) : retarget :=
  if p_NoRetarget p then Stay (p_InitialBits p)
  else if String.eqb name "bitcoin" then bitcoin_rule p tip h g
  else if String.eqb name "lwma" then lwma_rule p tip h g
  else if String.eqb name "dgw" then dgw_rule p tip h g
  else digishield_rule p tip h g.

Lemma clamp_within lo hi x : lo ≤ hi → clamp lo hi x = within lo hi x.
Proof. intros. unfold clamp, within. destruct (Z.ltb_spec x lo); case_match; lia. Qed.

Lemma clamp_target_exact p t : 0 < CompactToBig (p_MinBits p) → clamp_target p t = retargeted p (To t).
Proof.
  intros Hm. unfold clamp_target, retargeted, within. f_equal.
  destruct (Z.leb_spec t 0); case_match; lia.
Qed.

Section exact.
Context (p : ChainParams) (tip : BlockHeader) (h : Z) (g : Ancestors).
Hypothesis Hp : sane_params p.
Hypothesis Hr : p_NoRetarget p = false.
Hypothesis Hg : valid_ancestors p g.
Hypothesis Hts : is_u32 (hdr_Timestamp tip).
Hypothesis Hh : 0 ≤ h < 2 ^ 32 - 1.

Lemma median_nonneg h' : 0 ≤ CalcMedianTimePast h' g.
Proof using Hg.
  unfold CalcMedianTimePast. set (ts := mtp_collect medianCount 0 h' g).
  assert (Forall (λ t, 0 ≤ t) ts) as Hall.
  { unfold ts. generalize 0 at 2. generalize medianCount. intros n. induction n as [|n IH]; intros i; cbn [mtp_collect]; [done|].
    destruct (i <=? h'); [|done]. destruct (g (h' - i)) as [hd|] eqn:Hd; [|done].
    constructor; [|apply IH]. destruct (Hg _ _ Hd) as [Hx _]. unfold is_u32 in Hx. lia. }
  destruct (_ =? 0); [done|]. destruct (insertion_sort_spec ts) as [Hperm _].
  rewrite Hperm in Hall. rewrite Forall_lookup in Hall.
  destruct (nth_in_or_default (length ts / 2) (insertion_sort ts) 0) as [Hin|Hz]; [|by rewrite Hz].
  apply list_elem_of_In, list_elem_of_lookup in Hin as [i Hi]. eauto.
Qed.

Lemma cap_range ts h' : is_u32 ts → 0 ≤ cap_timestamp ts h' g p < 2 ^ 32.
Proof using Hg Hp.
  intros Ht. unfold cap_timestamp, is_u32 in *. pose proof (median_nonneg h'). pose proof (sn_drift _ Hp).
  destruct (Z.ltb_spec (CalcMedianTimePast h' g + seconds (p_MaxTimeFutureDrift p)) ts); lia.
Qed.

Lemma bitcoin_exact : bitcoin_CalcNextBits tip h g p = Ok (retargeted p (bitcoin_rule p tip h g)).
Proof using Hp Hr Hg Hts Hh.
  pose proof Hp as [Hi Hs Htt Hd Hm Hmax]. unfold bitcoin_CalcNextBits, bitcoin_rule. rewrite Hr.
  rewrite (proj2 (Z.eqb_neq (p_RetargetInterval p) 0)) by lia. rewrite (u32_id (h + 1)) by (unfold is_u32; lia).
  rewrite (u32_id (p_RetargetInterval p - 1)) by (unfold is_u32; lia).
  destruct (Z.eqb_spec ((h + 1) mod p_RetargetInterval p) 0) as [Hz|Hz]; cbn [negb].
  2: { by rewrite decide_False. }
  rewrite decide_True by done.
  assert (p_RetargetInterval p ≤ h + 1) as Hle.
  { apply Z.divide_pos_le; [lia|]. apply Z.mod_divide; [lia|done]. }
  rewrite (u32_id (h - _)) by (unfold is_u32; lia). replace (h - (p_RetargetInterval p - 1)) with (h + 1 - p_RetargetInterval p) by lia.
  destruct (g _) as [first|] eqn:Hf; [|done]. destruct (Hg _ _ Hf) as [Hfts _].
  pose proof (cap_range (hdr_Timestamp tip) h Hts). pose proof (cap_range _ (h + 1 - p_RetargetInterval p) Hfts).
  set (TT := seconds (p_TargetTimespan p)) in *.
  rewrite (i64_id (_ - _)), (i64_id (TT * 4)) by (unfold is_i64; lia). rewrite big_Div_pos by lia. cbn [mbind res_bind].
  rewrite clamp_target_exact by done. rewrite Z.quot_div_nonneg by lia.
  rewrite clamp_within by (apply Z.div_le_upper_bound; lia). by rewrite (Z.mul_comm 4 TT).
Qed.

Lemma digishield_exact : digishield_CalcNextBits tip h g p = Ok (retargeted p (digishield_rule p tip h g)).
Proof using Hp Hr Hg Hts Hh.
  pose proof Hp as [Hi Hs Htt Hd Hm Hmax]. unfold digishield_CalcNextBits, digishield_rule. rewrite Hr. cbv zeta.
  destruct (Z.ltb_spec h 1); [by rewrite decide_True|]. rewrite decide_False by lia.
  destruct (g (h - 1)) as [prev|] eqn:Hf; [|done]. destruct (Hg _ _ Hf) as [Hfts _]. unfold is_u32 in *.
  set (T := seconds (p_TargetBlockSpacing p)) in *.
  assert (∃ M, (if p_RetargetInterval p <? 2 then 4 else p_RetargetInterval p) = M ∧
    (if decide (p_RetargetInterval p < 2) then 4 else p_RetargetInterval p) = M ∧ 2 ≤ M ≤ 4096) as (M & -> & -> & HM).
  { destruct (Z.ltb_spec (p_RetargetInterval p) 2); eexists; rewrite ?decide_True, ?decide_False by lia; split_and!; lia || done. }
  set (took := if _ <? 1 then 1 else _). assert (took = Z.max 1 (hdr_Timestamp tip - hdr_Timestamp prev)) as Htook.
  { unfold took. destruct (Z.ltb_spec (hdr_Timestamp tip - hdr_Timestamp prev) 1); lia. }
  assert (0 ≤ (M - 1) * T ≤ 2 ^ 24) by nia.
  rewrite (i64_id ((M - 1) * T)), (i64_id (_ + took)), (i64_id (T * 4)) by (unfold is_i64; lia).
  rewrite big_Div_pos by lia. cbn [mbind res_bind]. rewrite clamp_target_exact by done. rewrite !Z.quot_div_nonneg by lia.
  rewrite clamp_within by (apply Z.div_le_upper_bound; lia). by rewrite (Z.mul_comm 4 T), <- Htook.
Qed.

Lemma dgw_loop_exact n hd cur sum : Z.of_nat n ≤ cur → 0 ≤ cur < 2 ^ 32 →
  dgw_loop (S n) (Some hd) cur sum g =
  (λ earlier, sum + sumZ target_of (hd :: earlier)) <$> mapM g ((λ j, cur - j) <$> seqZ 1 (Z.of_nat n)).
Proof using.
  clear Hh.
  revert hd cur sum. induction n as [|n IH]; intros hd cur sum Hn Hc.
  { rewrite seqZ_nil by lia. cbn -[CompactToBig]. f_equal. unfold target_of. lia. }
  change (dgw_loop (S (S n)) (Some hd) cur sum g) with
    (dgw_loop (S n) (g (u32 (cur - 1))) (u32 (cur - 1)) (sum + CompactToBig (hdr_Bits hd)) g). rewrite u32_id by (unfold is_u32; lia).
  rewrite (seqZ_cons 1) by lia. cbn [fmap list_fmap mapM]. replace (Z.pred (Z.of_nat (S n))) with (Z.of_nat n) by lia.
  destruct (g (cur - 1)) as [hd'|]; [|done]. rewrite IH by lia. cbn [mbind option_bind].
  replace ((λ j, cur - j) <$> seqZ (Z.succ 1) (Z.of_nat n)) with ((λ j, cur - 1 - j) <$> seqZ 1 (Z.of_nat n)).
  2: { change (Z.succ 1) with (1 + 1). rewrite <- (fmap_add_seqZ 1 1), <- list_fmap_compose. apply list_fmap_ext.
       intros i x _. cbn. lia. }
  destruct (mapM g _) as [earlier|]; cbn -[CompactToBig]; [|done]. f_equal. unfold target_of. lia.
Qed.

Lemma dgw_exact : dgw_CalcNextBits tip h g p = Ok (retargeted p (dgw_rule p tip h g)).
Proof using Hp Hr Hg Hts Hh.
  pose proof Hp as [Hi Hs Htt Hd Hm Hmax]. unfold dgw_CalcNextBits, dgw_rule. rewrite Hr. cbv zeta.
  set (N := p_RetargetInterval p) in *. set (T := seconds (p_TargetBlockSpacing p)) in *.
  destruct (Z.ltb_spec h N); [by rewrite decide_True|]. rewrite decide_False by lia.
  replace (Z.to_nat N) with (S (Z.to_nat (N - 1))) by lia. rewrite dgw_loop_exact by lia. rewrite Z2Nat.id by lia.
  destruct (mapM g _) as [earlier|]; [|done]. cbn [fmap option_fmap option_map].
  destruct (g (h - N)) as [start|] eqn:Hf; [|done]. destruct (Hg _ _ Hf) as [Hfts _]. unfold is_u32 in *.
  assert (0 < N * T ≤ 2 ^ 24) by nia. rewrite Z.add_0_l.
  rewrite (i64_id (N * T)), (i64_id (N * T * 3)) by (unfold is_i64; lia).
  rewrite big_Div_pos by lia. cbn [mbind res_bind]. rewrite big_Div_pos by lia. cbn [mbind res_bind].
  rewrite clamp_target_exact by done. rewrite Z.quot_div_nonneg by lia.
  rewrite clamp_within by (apply Z.div_le_upper_bound; lia). by rewrite (Z.mul_comm 3 (N * T)).
Qed.

Lemma collect_headers_exact n start : 0 ≤ start → start + Z.of_nat n ≤ 2 ^ 32 →
  collect_headers n start g = mapM g (seqZ start (Z.of_nat n)).
Proof using.
  clear Hh.
  revert start. induction n as [|n IH]; intros start H0 Hn; [done|]. cbn [collect_headers].
  rewrite seqZ_cons by lia. cbn [mapM]. rewrite u32_id by (unfold is_u32; lia).
  replace (Z.pred (Z.of_nat (S n))) with (Z.of_nat n) by lia. rewrite IH by lia. rewrite Z.add_1_r.
  destruct (g start); [|done]. cbn. by destruct (mapM g _).
Qed.

Lemma lwma_loop_exact maxST i prev w sum hs : 0 ≤ maxST ≤ 24576 → 1 ≤ i → i + len hs ≤ 4097 → 0 ≤ w ≤ 24576 * i * i →
  lwma_loop maxST i prev w sum hs =
    (w + weighted i (Z.min maxST <$> solve_times prev hs), sum + sumZ target_of hs) ∧
  w + weighted i (Z.min maxST <$> solve_times prev hs) ≤ 24576 * (i + len hs) * (i + len hs).
Proof using.
  clear Hh.
  intros HM. revert i prev w sum. induction hs as [|hd hs IH]; intros i prev w sum Hi Hlen Hw.
  { cbn -[Z.mul]. split; [f_equal; lia|]. rewrite !Z.add_0_r. lia. }
  cbn [lwma_loop length] in *. cbn [solve_times fmap list_fmap weighted]. cbv zeta.
  set (ts := Z.max (hdr_Timestamp hd) (prev + 1)).
  assert ((if hdr_Timestamp hd <=? prev then prev + 1 else hdr_Timestamp hd) = ts) as ->.
  { unfold ts. destruct (Z.leb_spec (hdr_Timestamp hd) prev); lia. }
  assert ((if maxST <? ts - prev then maxST else ts - prev) = Z.min maxST (ts - prev)) as ->.
  { destruct (Z.ltb_spec maxST (ts - prev)); lia. }
  assert (0 ≤ Z.min maxST (ts - prev) ≤ 24576) as Hst by lia. set (st := Z.min maxST (ts - prev)) in *.
  assert (0 ≤ i * st ≤ 24576 * i) by nia. assert (24576 * i * i ≤ 2 ^ 39) by nia.
  rewrite (i64_id (i * st)), (i64_id (w + i * st)) by (unfold is_i64; lia).
  destruct (IH (i + 1) ts (w + i * st) (sum + CompactToBig (hdr_Bits hd))) as [-> Hb]; [lia|lia|nia|].
  change (sumZ target_of (hd :: hs)) with (target_of hd + sumZ target_of hs). unfold target_of at 2.
  split; [f_equal; lia|]. etrans; [|etrans; [exact Hb|]]; [lia|]. apply Z.eq_le_incl. rewrite Nat2Z.inj_succ. ring.
Qed.

Lemma weighted_nonneg i l : 0 ≤ i → Forall (λ t, 0 ≤ t) l → 0 ≤ weighted i l.
Proof using. clear Hh. intros Hi Hl. revert i Hi. induction Hl as [|t l Ht _ IH]; intros i Hi; cbn; [done|]. pose proof (IH (i + 1) ltac:(lia)). nia. Qed.
Lemma solve_times_pos prev hs : Forall (λ t, 0 ≤ t) (solve_times prev hs).
Proof using. clear Hh. revert prev. induction hs as [|hd hs IH]; intros prev; cbn [solve_times]; constructor; [lia|apply IH]. Qed.

Lemma lwma_exact : lwma_CalcNextBits tip h g p = Ok (retargeted p (lwma_rule p tip h g)).
Proof using Hp Hr Hg Hts Hh.
  pose proof Hp as [Hi Hs Htt Hd Hm Hmax]. unfold lwma_CalcNextBits, lwma_rule. rewrite Hr. cbv zeta.
  set (N := p_RetargetInterval p) in *. set (T := seconds (p_TargetBlockSpacing p)) in *.
  destruct (Z.ltb_spec h N); [by rewrite decide_True|]. rewrite decide_False by lia.
  rewrite collect_headers_exact by lia. rewrite Z2Nat.id by lia.
  destruct (mapM g _) as [[|first window]|] eqn:Hc; [|..|done].
  { apply length_mapM in Hc. rewrite length_seqZ in Hc. cbn in Hc. lia. }
  apply length_mapM in Hc. rewrite length_seqZ in Hc. cbn [length] in Hc.
  rewrite (i64_id (6 * T)) by (unfold is_i64; lia).
  destruct (lwma_loop_exact (6 * T) 1 (hdr_Timestamp first) 0 0 window) as [-> Hb]; [lia|lia|lia|lia|].
  set (L := weighted 1 _) in *. rewrite !Z.add_0_l in *. replace (len window) with N in Hb by lia.
  assert (0 ≤ L).
  { apply weighted_nonneg; [lia|]. apply Forall_fmap. eapply Forall_impl; [apply solve_times_pos|]. intros t Ht. unfold compose. cbv beta in *. lia. }
  assert (L ≤ 2 ^ 39) by nia.
  assert (HN : 0 < N * N ≤ 2 ^ 24) by nia. assert (HNT : 0 < N * N * T ≤ 2 ^ 36) by nia.
  assert (HN3 : 0 < N * N * (N + 1) ≤ 2 ^ 37) by nia. assert (HN4 : 0 < N * N * (N + 1) * T ≤ 2 ^ 49) by nia.
  rewrite (u32_id (N + 1)) by (unfold is_u32; lia).
  rewrite (i64_id (N * N)), (i64_id (N * N * T)), (i64_id (N * N * (N + 1))),
    (i64_id (N * N * (N + 1) * T)), (i64_id (N * N * (N + 1) * T * 99)) by (unfold is_i64; lia).
  rewrite Z.quot_div_nonneg by lia. assert (0 ≤ N * N * T / 20 ≤ 2 ^ 36).
  { split; [apply Z.div_pos; lia|apply Z.div_le_upper_bound; lia]. }
  assert ((if L <? N * N * T / 20 then N * N * T / 20 else L) = Z.max L (N * N * T / 20)) as ->.
  { destruct (Z.ltb_spec L (N * N * T / 20)); lia. }
  rewrite (i64_id (200 * _)) by (unfold is_i64; lia). rewrite big_Div_pos by lia. cbn [mbind res_bind].
  by rewrite clamp_target_exact.
Qed.
End exact.

(** ** Steady state *)

(** The [n + 1] headers from height [start] on are exactly [T] seconds apart,
    all with the same bits. *)
Definition steady (g : Ancestors) (T start : Z) (n : nat) (t0 bits : Z) : Prop :=
  ∀ j : nat, (j ≤ n)%nat → ∃ hdr, g (start + Z.of_nat j) = Some hdr ∧
    hdr_Timestamp hdr = t0 + T * Z.of_nat j ∧ hdr_Bits hdr = bits.

(** The headers of a steady window, from the [k]-th on. *)
Definition steady_list (T t0 bits : Z) (k : nat) (hs : list BlockHeader) : Prop :=
  ∀ (j : nat) hdr, hs !! j = Some hdr →
    hdr_Timestamp hdr = t0 + T * Z.of_nat (k + j) ∧ hdr_Bits hdr = bits.

Lemma collect_steady g T start n t0 bits :
  0 ≤ start → start + Z.of_nat n < 2 ^ 32 → steady g T start n t0 bits →
  ∃ hs, collect_headers (S n) start g = Some hs ∧ steady_list T t0 bits 0 hs.
Proof.
  intros H0 Hn Hst.
  assert (Hgen : ∀ m k, (k + m = S n)%nat → ∃ hs,
    collect_headers m (start + Z.of_nat k) g = Some hs ∧ steady_list T t0 bits k hs).
  { induction m as [|m IH]; intros k Hk; cbn [collect_headers].
    - exists []. split; [done|]. by intros j hdr Hj.
    - destruct (Hst k) as (hdr & Hg & Ht & Hb); [lia|].
      rewrite u32_id, Hg by (unfold is_u32; lia).
      destruct (IH (S k)) as (hs & Hc & Hs); [lia|].
      replace (start + Z.of_nat k + 1) with (start + Z.of_nat (S k)) by lia. rewrite Hc.
      exists (hdr :: hs). split; [done|]. intros [|j] h' Hj; simpl in Hj.
      + simplify_eq. by rewrite Nat.add_0_r.
      + rewrite Nat.add_succ_r. by apply Hs. }
  destruct (Hgen (S n) 0%nat) as (hs & Hc & Hs); [lia|]. rewrite Z.add_0_r in Hc. eauto.
Qed.

(** The weighted sum of a steady window: [T] times the weights. *)
Lemma lwma_loop_steady T t0 bits hs maxST i w sum :
  1 ≤ T ≤ maxST → T ≤ 4096 → steady_list T t0 bits (Z.to_nat i) hs → 1 ≤ i → 
  i + len hs ≤ 4097 → 0 ≤ 2 * w ≤ T * i * (i - 1) →
  lwma_loop maxST i (t0 + T * (i - 1)) w sum hs =
    (w + T * (len hs * (2 * i + len hs - 1) / 2), sum + len hs * CompactToBig bits).
Proof.
  intros HT HT2. revert i w sum. induction hs as [|h hs IH]; intros i w sum Hst Hi Hlen Hw; cbn [lwma_loop].
  { simpl len. f_equal; rewrite ?Z.mul_0_l, ?Zdiv_0_l; lia. }
  destruct (Hst 0%nat h eq_refl) as [Hts Hb]. rewrite Nat.add_0_r, Z2Nat.id in Hts by lia.
  rewrite (proj2 (Z.leb_gt _ _)) by lia. rewrite Hts.
  replace (t0 + T * i - (t0 + T * (i - 1))) with T by ring.
  rewrite (proj2 (Z.ltb_ge maxST T)) by lia. simpl length in Hlen.
  assert (Hsz : 0 ≤ i * T ≤ 2 ^ 24 + 4096) by nia.
  assert (0 ≤ T * i * (i - 1) ≤ 2 ^ 37) by nia.
  rewrite (i64_id (i * T)), i64_id by (unfold is_i64; lia).
  replace (t0 + T * i) with (t0 + T * (i + 1 - 1)) by ring.
  rewrite IH; [|intros j hdr Hj; replace (Z.to_nat (i + 1) + j)%nat with (Z.to_nat i + S j)%nat by lia; by apply Hst
    |lia|lia|nia].
  rewrite Hb. cbn [length]. rewrite Nat2Z.inj_succ. set (n := len hs). f_equal; [|unfold Z.succ; ring].
  rewrite <- Z.add_assoc. f_equal. 
  replace (Z.succ n * (2 * i + Z.succ n - 1)) with (n * (2 * (i + 1) + n - 1) + i * 2) by (unfold Z.succ; ring).
  rewrite Z.div_add by lia. ring.
Qed.

Lemma dgw_loop_steady g bits n cur sum :
  Z.of_nat n ≤ cur + 1 → 0 ≤ cur < 2 ^ 32 →
  (∀ j : nat, (j < n)%nat → ∃ hdr, g (cur - Z.of_nat j) = Some hdr ∧ hdr_Bits hdr = bits) →
  dgw_loop n (g cur) cur sum g = Some (sum + Z.of_nat n * CompactToBig bits).
Proof.
  revert cur sum. induction n as [|n IH]; intros cur sum Hn Hc Hst; cbn [dgw_loop].
  { f_equal. lia. }
  destruct (Hst 0%nat) as (hdr & Hg & Hb); [lia|]. rewrite Z.sub_0_r in Hg. rewrite Hg, Hb.
  destruct n as [|n]; [f_equal; lia|]. rewrite u32_id by (unfold is_u32; lia).
  rewrite IH; [f_equal; lia|lia|lia|]. intros j Hj. destruct (Hst (S j)) as (h' & Hg' & Hb'); [lia|].
  exists h'. split; [|done]. rewrite <- Hg'. f_equal. lia.
Qed.

(** Bits that are the compact form of their own target. *)
Definition canonical_bits (bits : Z) : Prop := BigToCompact (CompactToBig bits) = bits.

Lemma clamp_target_canonical p bits :
  valid_bits p bits → canonical_bits bits → clamp_target p (CompactToBig bits) = bits.
Proof.
  intros [_ Hr] Hc. unfold clamp_target.
  rewrite (proj2 (Z.leb_gt _ _)), (proj2 (Z.ltb_ge _ _)) by lia. done.
Qed.

(** ** Properties *)


(** The epoch retarget of bitcoin.go: away from a boundary the bits stay; at a
    boundary the old target is scaled by the clamped ratio of the capped
    timespans, so before rounding and clamping it moves at most by a factor of
    four either way, and the resulting target is at most four times the old
    one. *)
Theorem bitcoin_retarget_correct p tip tipHeight g first :
  let ts := seconds (p_TargetTimespan p) in
  let old := CompactToBig (hdr_Bits tip) in
  let windowStart := tipHeight - (p_RetargetInterval p - 1) in
  sane_params p → p_NoRetarget p = false → valid_bits p (hdr_Bits tip) →
  p_RetargetInterval p - 1 ≤ tipHeight < 2 ^ 32 - 1 → g windowStart = Some first →
  (¬ (p_RetargetInterval p | tipHeight + 1) →
     bitcoin_CalcNextBits tip tipHeight g p = Ok (hdr_Bits tip)) ∧
  ((p_RetargetInterval p | tipHeight + 1) → ∃ a t bits,
     bitcoin_CalcNextBits tip tipHeight g p = Ok bits ∧ bits = clamp_target p t ∧
     a = clamp (Z.quot ts 4) (ts * 4)
           (i64 (cap_timestamp (hdr_Timestamp tip) tipHeight g p
                 - cap_timestamp (hdr_Timestamp first) windowStart g p)) ∧
     t = old * a / ts ∧ old * Z.quot ts 4 / ts ≤ t ≤ 4 * old ∧
     CompactToBig bits ≤ 4 * old).
Proof.
  intros ts old ws Hp Hnr [Hb Hold] Hh Hg. pose proof Hp as [Hi Hs Htt Hd Hm Hmax].
  unfold bitcoin_CalcNextBits. rewrite Hnr, (proj2 (Z.eqb_neq (p_RetargetInterval p) 0)) by lia.
  rewrite (u32_id (tipHeight + 1)) by (unfold is_u32; lia).
  rewrite (u32_id (p_RetargetInterval p - 1)) by (unfold is_u32; lia).
  rewrite (u32_id (tipHeight - _)) by (unfold is_u32; lia). fold ws. rewrite Hg.
  split; intros Hdiv.
  - rewrite (proj2 (Z.eqb_neq _ _)); [done|]. contradict Hdiv. by apply Z.mod_divide; [lia|].
  - rewrite (proj2 (Z.eqb_eq _ _)) by (apply Z.mod_divide; [lia|done]). cbn [negb].
    fold ts old. fold ts in Htt. rewrite (i64_id (ts * 4)) by (unfold is_i64; lia).
    rewrite big_Div_pos by lia. cbn [mbind res_bind].
    set (x := i64 _). pose proof (Z.quot_pos ts 4 ltac:(lia) ltac:(lia)).
    assert (Hq : Z.quot ts 4 ≤ ts * 4) by (rewrite Z.quot_div_nonneg by lia; apply Z.div_le_upper_bound; lia).
    pose proof (clamp_range (Z.quot ts 4) (ts * 4) x Hq) as Ha.
    set (a := clamp _ _ x) in *. fold old in Hold.
    assert (Ht : old * Z.quot ts 4 / ts ≤ old * a / ts ≤ 4 * old).
    { split; [apply Z.div_le_mono; nia|]. apply Z.div_le_upper_bound; nia. }
    eexists a, (old * a / ts), _. split; [done|]. split; [done|]. split; [done|]. split; [done|].
    split; [done|]. destruct (clamp_target_ok p (old * a / ts) Hp) as [_ Hle]. lia.
Qed.

(** LWMA drifts in a steady state: when the last blocks were exactly one target
    spacing apart with equal bits, lwma.go does not keep the target but raises
    it by the factor 100/99, making the next block easier. *)
Theorem lwma_steady_state p tip tipHeight g t0 bits :
  let N := p_RetargetInterval p in
  let T := seconds (p_TargetBlockSpacing p) in
  sane_params p → p_NoRetarget p = false → N ≤ tipHeight < 2 ^ 32 - 1 →
  steady g T (tipHeight - N) (Z.to_nat N) t0 bits →
  lwma_CalcNextBits tip tipHeight g p
  = Ok (clamp_target p (CompactToBig bits * 100 / 99)).
Proof.
  intros N T Hp Hnr Hh Hst. pose proof Hp as [Hi Hs _ _ _ _]. fold N in Hi. fold T in Hs.
  unfold lwma_CalcNextBits. rewrite Hnr. fold N T. rewrite (proj2 (Z.ltb_ge _ _)) by lia.
  destruct (collect_steady g T (tipHeight - N) (Z.to_nat N) t0 bits) as (hs & Hc & Hl);
    [lia|lia|done|].
  replace (Z.to_nat (N + 1)) with (S (Z.to_nat N)) by lia. rewrite Hc.
  assert (Hlen := collect_headers_length _ _ _ _ Hc).
  destruct hs as [|first window]; [done|]. simpl in Hlen.
  assert (Hw : len window = N) by lia.
  destruct (Hl 0%nat first eq_refl) as [Hft _]. rewrite Z.mul_0_r, Z.add_0_r in Hft.
  rewrite (i64_id (6 * T)) by (unfold is_i64; lia).
  replace (hdr_Timestamp first) with (t0 + T * (1 - 1)) by lia.
  rewrite (lwma_loop_steady T t0 bits); [|lia|lia|intros j hdr Hj; by apply (Hl (S j))|lia|lia|lia].
  rewrite Hw, !Z.add_0_l. replace (2 * 1 + N - 1) with (N + 1) by ring.
  set (tri := N * (N + 1) / 2).
  assert (Htri : 2 * tri = N * (N + 1)).
  { unfold tri. symmetry. apply Z_div_exact_full_2; [lia|].
    rewrite Zmult_mod, Zplus_mod. destruct (Z.mod_pos_bound N 2 ltac:(lia)) as [? ?].
    assert (N mod 2 = 0 ∨ N mod 2 = 1) as [-> | ->] by lia; done. }
  assert (HN : 0 < N * N ≤ 2 ^ 24) by nia.
  assert (HN3 : 0 < N * N * (N + 1) ≤ 2 ^ 37) by nia.
  assert (HN4 : 0 < N * N * (N + 1) * T ≤ 2 ^ 49) by nia.
  assert (HNT : 0 < N * N * T ≤ 2 ^ 36) by nia.
  assert (HT3 : 0 < T * tri ≤ 2 ^ 37) by nia.
  rewrite (u32_id (N + 1)) by (unfold is_u32; lia).
  rewrite (i64_id (N * N)), (i64_id (N * N * T)), (i64_id (N * N * (N + 1))),
    (i64_id (N * N * (N + 1) * T)), (i64_id (N * N * (N + 1) * T * 99)) by (unfold is_i64; lia).
  assert (HL : Z.quot (N * N * T) 20 ≤ T * tri).
  { rewrite Z.quot_div_nonneg by lia. apply Z.div_le_upper_bound; nia. }
  rewrite (proj2 (Z.ltb_ge (T * tri) _)) by lia.
  rewrite (i64_id (200 * _)) by (unfold is_i64; lia). rewrite big_Div_pos by lia. cbn [mbind res_bind].
  do 2 f_equal.
  replace (N * CompactToBig bits * (200 * (T * tri)))
    with (CompactToBig bits * 100 * (N * N * (N + 1) * T)) by nia.
  replace (N * N * (N + 1) * T * 99) with (99 * (N * N * (N + 1) * T)) by ring.
  apply Z.div_mul_cancel_r; lia.
Qed.

(** DGW and DigiShield have the steady state as a fixed point: when the last
    blocks were exactly one target spacing apart with equal, canonical bits,
    both keep the bits. *)
Theorem dgw_digishield_steady_state p tip tipHeight g t0 bits :
  let N := p_RetargetInterval p in
  let T := seconds (p_TargetBlockSpacing p) in
  sane_params p → p_NoRetarget p = false → N ≤ tipHeight < 2 ^ 32 - 1 →
  valid_bits p bits → canonical_bits bits →
  g tipHeight = Some tip → steady g T (tipHeight - N) (Z.to_nat N) t0 bits →
  dgw_CalcNextBits tip tipHeight g p = Ok bits ∧
  digishield_CalcNextBits tip tipHeight g p = Ok bits.
Proof.
  intros N T Hp Hnr Hh Hvb Hcan Htip Hst. pose proof Hp as [Hi Hs _ _ _ _]. fold N in Hi. fold T in Hs.
  destruct (Hst (Z.to_nat N)) as (tip' & Hg & Htt & Htb); [lia|].
  replace (tipHeight - N + Z.of_nat (Z.to_nat N)) with tipHeight in Hg by lia.
  rewrite Htip in Hg. injection Hg as <-. rewrite Z2Nat.id in Htt by lia.
  assert (HNT : 0 < N * T ≤ 2 ^ 24) by nia. split.
  - unfold dgw_CalcNextBits. rewrite Hnr. fold N T. rewrite (proj2 (Z.ltb_ge _ _)) by lia.
    rewrite <- Htip, (dgw_loop_steady g bits) by
      (lia || (intros j Hj; destruct (Hst (Z.to_nat N - j)%nat) as (hdr & Hg & _ & Hb); [lia|];
       exists hdr; split; [rewrite <- Hg; f_equal; lia|done])).
    rewrite Z2Nat.id by lia.
    destruct (Hst 0%nat) as (first & Hg0 & Hft & _); [lia|]. rewrite Z.add_0_r in Hg0. rewrite Hg0.
    rewrite big_Div_pos by lia. cbn [mbind res_bind].
    rewrite (i64_id (N * T)), (i64_id (N * T * 3)) by (unfold is_i64; lia).
    replace (hdr_Timestamp tip - hdr_Timestamp first) with (N * T) by lia.
    rewrite clamp_id by (rewrite Z.quot_div_nonneg by lia; split; [apply Z.div_le_upper_bound; lia|lia]).
    rewrite big_Div_pos by lia. cbn [mbind res_bind]. f_equal.
    rewrite Z.add_0_l, (Z.mul_comm N (CompactToBig bits)), !Z.div_mul by lia.
    by apply clamp_target_canonical.
  - unfold digishield_CalcNextBits. rewrite Hnr, (proj2 (Z.ltb_ge tipHeight 1)) by lia. fold N T.
    destruct (Hst (Z.to_nat N - 1)%nat) as (prev & Hgp & Htp & _); [lia|].
    replace (tipHeight - N + Z.of_nat (Z.to_nat N - 1)) with (tipHeight - 1) in Hgp by lia. rewrite Hgp.
    replace (hdr_Timestamp tip - hdr_Timestamp prev) with T by nia.
    rewrite (proj2 (Z.ltb_ge T 1)) by lia.
    assert (HM : ∃ M, (if N <? 2 then 4 else N) = M ∧ 2 ≤ M ≤ 4096).
    { eexists; split; [done|]. destruct (Z.ltb_spec N 2); lia. }
    destruct HM as (M & -> & HM). assert (0 ≤ (M - 1) * T ≤ 2 ^ 24) by nia.
    rewrite (i64_id ((M - 1) * T)), (i64_id (_ + T)), (i64_id (T * 4)) by (unfold is_i64; lia).
    replace ((M - 1) * T + T) with (T * M) by ring. rewrite Z.quot_mul by lia.
    rewrite clamp_id by (rewrite Z.quot_div_nonneg by lia; split; [apply Z.div_le_upper_bound; lia|lia]).
    rewrite big_Div_pos by lia. cbn [mbind res_bind]. rewrite Z.div_mul, Htb by lia. f_equal.
    by apply clamp_target_canonical.
Qed.

(** ** Witnesses *)

#[export] Instance sane_params_dec p : Decision (sane_params p).
Proof.
  refine (cast_if (decide (1 ≤ p_RetargetInterval p ≤ 4096 ∧
    1 ≤ seconds (p_TargetBlockSpacing p) ≤ 4096 ∧ 1 ≤ seconds (p_TargetTimespan p) < 2 ^ 32 ∧
    0 ≤ seconds (p_MaxTimeFutureDrift p) < 2 ^ 32 ∧ is_u32 (p_MinBits p) ∧
    0 < CompactToBig (p_MinBits p)))); abstract (intuition (try constructor; tauto || (destruct H; tauto))).
Defined.

#[export] Instance valid_bits_dec p bits : Decision (valid_bits p bits).
Proof. unfold valid_bits. apply _. Defined.
#[export] Instance canonical_bits_dec bits : Decision (canonical_bits bits).
Proof. unfold canonical_bits. apply _. Defined.

(** A long chain with the given spacing and bits. *)
Definition steady_chain (T bits : Z) : Ancestors := λ h,
  if (0 <=? h) && (h <? 1000) then
    Some (mkBlockHeader 1 ZeroHash ZeroHash (1774175100 + T * h) bits 0)
  else None.

Lemma steady_chain_steady T start n bits :
  0 ≤ start → start + Z.of_nat n < 1000 →
  steady (steady_chain T bits) T start n (1774175100 + T * start) bits.
Proof.
  intros H0 Hn j Hj. unfold steady_chain.
  rewrite (proj2 (Z.leb_le _ _)), (proj2 (Z.ltb_lt _ _)) by lia. cbn [andb].
  eexists. split; [done|]. cbn [hdr_Timestamp hdr_Bits]. split; [lia|done].
Qed.

Lemma steady_chain_valid p T bits :
  0 ≤ T ≤ 4096 → valid_bits p bits → valid_ancestors p (steady_chain T bits).
Proof.
  intros HT Hb h hdr. unfold steady_chain.
  destruct (Z.leb_spec 0 h), (Z.ltb_spec h 1000); cbn [andb]; intros Heq; simplify_eq.
  split; [|done]. cbn [hdr_Timestamp]. unfold is_u32. nia.
Qed.

Definition w_tip : BlockHeader :=
  mkBlockHeader 1 ZeroHash ZeroHash (1774175100 + 600 * 287) 0x1e7ce359 0.


Lemma bitcoin_retarget_correct_witness :
  ∃ a t bits, bitcoin_CalcNextBits w_tip 287 (steady_chain 600 0x1e7ce359) Mainnet = Ok bits ∧
    bits = clamp_target Mainnet t ∧ t = CompactToBig 0x1e7ce359 * a / 86400.
Proof.
  destruct (proj2 (bitcoin_retarget_correct Mainnet w_tip 287 (steady_chain 600 0x1e7ce359)
    (mkBlockHeader 1 ZeroHash ZeroHash (1774175100 + 600 * 144) 0x1e7ce359 0)
    ltac:(by_decide) eq_refl ltac:(by_decide) ltac:(by_decide) eq_refl)
    (ex_intro _ 2 eq_refl)) as (a & t & bits & H1 & H2 & _ & H4 & _).
  exists a, t, bits. exact (conj H1 (conj H2 H4)).
Defined.

Lemma lwma_steady_state_witness :
  lwma_CalcNextBits w_tip 287 (steady_chain 600 0x1e7ce359) Mainnet =
  Ok (clamp_target Mainnet (CompactToBig 0x1e7ce359 * 100 / 99)).
Proof.
  refine (lwma_steady_state Mainnet w_tip 287 (steady_chain 600 0x1e7ce359)
            (1774175100 + 600 * (287 - 144)) 0x1e7ce359 _ _ _ _).
  - by_decide.
  - reflexivity.
  - by_decide.
  - apply steady_chain_steady; [vm_compute|vm_compute]; done.
Defined.

Lemma dgw_digishield_steady_state_witness :
  dgw_CalcNextBits w_tip 287 (steady_chain 600 0x1e7ce359) Mainnet = Ok 0x1e7ce359 ∧
  digishield_CalcNextBits w_tip 287 (steady_chain 600 0x1e7ce359) Mainnet = Ok 0x1e7ce359.
Proof.
  refine (dgw_digishield_steady_state Mainnet w_tip 287 (steady_chain 600 0x1e7ce359)
            (1774175100 + 600 * (287 - 144)) 0x1e7ce359 _ _ _ _ _ _ _).
  - by_decide.
  - reflexivity.
  - by_decide.
  - by_decide.
  - by_decide.
  - reflexivity.
  - apply steady_chain_steady; [vm_compute|vm_compute]; done.
Defined.
