(* ===== verification/Pow.v ===== *)
(** * internal/consensus/pow/engine.go

    The proof-of-work engine: it implements the [Engine] interface of file
    Validation from a hash algorithm (file Algorithms) and a retargeting
    algorithm (file Difficulty).  Its theorems are proved against
    [RetargeterOk], the promise of the latter.

    The nonce search runs over the 32-bit nonces from the header's own one up
    to the wrap-around; the fuel is the number of these nonces. *)
From S2P Require Import Prelude Types Sha256 Target Merkle Params Utxo Keys Script.
From S2P Require Import TxValidation Validation Difficulty Algorithms.

Definition set_nonce (h : BlockHeader) (n : Z) : BlockHeader :=
  mkBlockHeader (hdr_Version h) (hdr_PrevBlock h) (hdr_MerkleRoot h) (hdr_Timestamp h)
    (hdr_Bits h) n.
Definition set_bits (h : BlockHeader) (bits : Z) : BlockHeader :=
  mkBlockHeader (hdr_Version h) (hdr_PrevBlock h) (hdr_MerkleRoot h) (hdr_Timestamp h)
    bits (hdr_Nonce h).
Definition set_merkle (h : BlockHeader) (root : Hash) : BlockHeader :=
  mkBlockHeader (hdr_Version h) (hdr_PrevBlock h) root (hdr_Timestamp h)
    (hdr_Bits h) (hdr_Nonce h).

Section engine.
Context (hasher : Hasher) (retargeter : Retargeter).

(** The scan past minimum-difficulty blocks, with [fuel] turns left. *)
Fixpoint scan_loop (fuel : nat) (scan : BlockHeader) (scanHeight : Z) (getAncestor : Ancestors)
    (p : ChainParams) : option BlockHeader :=
  match fuel with
  | O => Some scan
  | S fuel' =>
      if (0 <? scanHeight) && negb (scanHeight mod p_RetargetInterval p =? 0)
         && (hdr_Bits scan =? p_MinBits p) then
        match getAncestor (scanHeight - 1) with
        | None => None
        | Some scan' => scan_loop fuel' scan' (scanHeight - 1) getAncestor p
        end
      else Some scan
  end.

Definition calcExpectedBits (header parent : BlockHeader) (height : Z) (getAncestor : Ancestors)
    (p : ChainParams) : res Z :=
  let byRetargeter := r_CalcNextBits retargeter parent (u32 (height - 1)) getAncestor p in
  match p_ActivationHeights p !! "mindiffblocks" with
  | None => byRetargeter
  | Some activationHeight =>
      if negb (p_AllowMinDifficultyBlocks p) || (height <? activationHeight) then byRetargeter else
      let minDiffGap := i64 (seconds (p_TargetBlockSpacing p) * 2) in
      if minDiffGap <? hdr_Timestamp header - hdr_Timestamp parent then Ok (p_MinBits p) else
      if p_RetargetInterval p =? 0 then Panic else
      if height mod p_RetargetInterval p =? 0 then byRetargeter else
      let scanHeight := u32 (height - 1) in
      match scan_loop (Z.to_nat scanHeight) parent scanHeight getAncestor p with
      | Some scan => Ok (hdr_Bits scan)
      | None => Ok (hdr_Bits parent)
      end
  end.

Definition pow_ValidateHeader (header parent : BlockHeader) (height : Z)
    (getAncestor : Ancestors) (p : ChainParams) : res () :=
  _ ← fail_if (negb (bool_decide (hdr_PrevBlock header = HashBlockHeader parent)))
        (Errorf "prev block hash mismatch: header=%s expected=%s");
  expectedBits ← calcExpectedBits header parent height getAncestor p;
  _ ← fail_if (negb (hdr_Bits header =? expectedBits))
        (Errorf "incorrect difficulty bits at height %d: got 0x%08x, expected 0x%08x");
  powHash ← h_PoWHash hasher (BlockHeader_serializeInto header);
  wrap "PoW validation failed at height %d" (ValidateProofOfWork powHash (hdr_Bits header)).

Definition pow_PrepareHeader (header parent : BlockHeader) (parentHeight : Z)
    (getAncestor : Ancestors) (p : ChainParams) : res BlockHeader :=
  bits ← calcExpectedBits header parent (u32 (parentHeight + 1)) getAncestor p;
  Ok (set_bits header bits).

(** The nonce search with [n] hashes left; the result is whether a nonce was
    found, the header, and the number of hashes. *)
Fixpoint seal_loop (n : nat) (header : BlockHeader) (target : Hash) (count : Z)
    : res (bool * BlockHeader * Z) :=
  match n with
  | O => Ok (false, header, count)
  | S n' =>
      hash ← h_PoWHash hasher (BlockHeader_serializeInto header);
      if Hash_LessOrEqual hash target then Ok (true, header, count + 1) else
      let header := set_nonce header (u32 (hdr_Nonce header + 1)) in
      if hdr_Nonce header =? 0 then Ok (false, header, count + 1)
      else seal_loop n' header target (count + 1)
  end.

Definition pow_SealHeader (header : BlockHeader) (target : Hash) (maxIterations : Z)
    : res (bool * BlockHeader) :=
  '(found, header, _) ← seal_loop (Z.to_nat maxIterations) header target 0;
  Ok (found, header).

Definition pow_SealHeaderCounted (header : BlockHeader) (target : Hash) (maxIterations : Z)
    : res (bool * Z * BlockHeader) :=
  '(found, header, count) ← seal_loop (Z.to_nat maxIterations) header target 0;
  Ok (found, count, header).

(** [MineGenesis] searches until the nonce wraps around. *)
Definition pow_MineGenesis (block : Block) : res Block :=
  let header := set_merkle (blk_Header block) (ComputeMerkleRoot (blk_Transactions block)) in
  let target := CompactToHash (hdr_Bits header) in
  '(found, header, _) ← seal_loop (Z.to_nat (2 ^ 32 - hdr_Nonce header)) header target 0;
  if found : bool then Ok (mkBlock header (blk_Transactions block))
  else Err (Errorf "nonce space exhausted without finding valid genesis").

Definition pow_Engine : Engine := {|
  e_ValidateHeader := pow_ValidateHeader;
  e_ValidateBlock := λ block height p, ValidateBlockStructure block height p None None;
  e_CalcNextBits := r_CalcNextBits retargeter;
  e_PrepareHeader := pow_PrepareHeader;
  e_SealHeader := pow_SealHeader;
  e_CalcBlockWeight := λ header, CalcWork (hdr_Bits header);
  e_Hasher := hasher;
  e_Name := "pow"
|}.
End engine.

(** ** The nonce search *)

(** The proof of work of a header for a target. *)
Definition pow_meets (hasher : Hasher) (target : Hash) (h : BlockHeader) : Prop :=
  ∃ out, h_PoWHash hasher (BlockHeader_serializeInto h) = Ok out ∧
    Hash_LessOrEqual out target = true.

Lemma set_nonce_same h : set_nonce h (hdr_Nonce h) = h.
Proof. by destruct h. Qed.

(** The search visits the nonces from the header's own one on, in order, up to
    [n] of them or the wrap-around, and stops at the first that meets the
    target. *)
Lemma seal_loop_spec hasher target h n count :
  hasher_ok hasher → is_u32 (hdr_Nonce h) → Z.of_nat n ≤ 2 ^ 32 - hdr_Nonce h →
  (∃ k : nat, (k < n)%nat ∧
     seal_loop hasher n h target count
       = Ok (true, set_nonce h (hdr_Nonce h + Z.of_nat k), count + Z.of_nat k + 1) ∧
     pow_meets hasher target (set_nonce h (hdr_Nonce h + Z.of_nat k)) ∧
     ∀ j : nat, (j < k)%nat → ¬ pow_meets hasher target (set_nonce h (hdr_Nonce h + Z.of_nat j))) ∨
  (∃ h', seal_loop hasher n h target count = Ok (false, h', count + Z.of_nat n) ∧
     ∀ j : nat, (j < n)%nat → ¬ pow_meets hasher target (set_nonce h (hdr_Nonce h + Z.of_nat j))).
Proof.
  intros Hok. revert h count. induction n as [|n IH]; intros h count Hn Hle; cbn [seal_loop].
  { right. exists h. rewrite Z.add_0_r. split; [done|lia]. }
  destruct (Hok (BlockHeader_serializeInto h)) as (out & Hout & _). rewrite Hout. cbn [mbind res_bind].
  destruct (Hash_LessOrEqual out target) eqn:Hc.
  { left. exists 0%nat. rewrite !Z.add_0_r, set_nonce_same. split_and!; [lia|done|by exists out|lia]. }
  assert (Hno : ¬ pow_meets hasher target (set_nonce h (hdr_Nonce h + Z.of_nat 0))).
  { rewrite Z.add_0_r, set_nonce_same. intros (out' & Ho' & Hm'). congruence. }
  cbn [hdr_Nonce set_nonce]. unfold is_u32 in Hn.
  destruct (decide (hdr_Nonce h + 1 = 2 ^ 32)) as [Hwrap|Hwrap].
  - right. assert (n = 0%nat) as -> by lia.
    replace (u32 (hdr_Nonce h + 1)) with 0 by (rewrite Hwrap; done). cbn [Z.eqb].
    eexists. split; [done|]. intros j Hj. assert (j = 0%nat) as -> by lia. done.
  - rewrite u32_id by (unfold is_u32; lia). rewrite (proj2 (Z.eqb_neq _ _)) by lia.
    set (h1 := set_nonce h (hdr_Nonce h + 1)).
    assert (Hs : ∀ j : nat, set_nonce h1 (hdr_Nonce h1 + Z.of_nat j)
                            = set_nonce h (hdr_Nonce h + Z.of_nat (S j))).
    { intros j. unfold h1, set_nonce. simpl. f_equal. lia. }
    assert (Hall : ∀ m : nat, (∀ j : nat, (j < m)%nat → ¬ pow_meets hasher target
        (set_nonce h1 (hdr_Nonce h1 + Z.of_nat j))) →
      ∀ j : nat, (j < S m)%nat → ¬ pow_meets hasher target (set_nonce h (hdr_Nonce h + Z.of_nat j))).
    { intros m Hm [|j] Hj; [done|]. rewrite <- Hs. apply Hm. lia. }
    destruct (IH h1 (count + 1)) as [(k & Hk & Heq & Hmeet & Hbefore)|(h' & Heq & Hnone)];
      [unfold is_u32, h1; simpl; lia|unfold h1; simpl; lia|left|right].
    + exists (S k). rewrite Heq, Hs. split_and!; [lia|do 2 f_equal; lia|by rewrite <- Hs|by apply Hall].
    + exists h'. rewrite Heq. split; [do 2 f_equal; lia|by apply Hall].
Qed.

(** Iterations beyond the wrap-around are never made. *)
Lemma seal_loop_cap hasher target h m n count :
  hasher_ok hasher → is_u32 (hdr_Nonce h) → (0 < m)%nat → (m ≤ n)%nat →
  Z.of_nat m = 2 ^ 32 - hdr_Nonce h →
  seal_loop hasher n h target count = seal_loop hasher m h target count.
Proof.
  intros Hok. revert h n count. induction m as [|m IH]; intros h n count Hn Hm Hmn Heq; [lia|].
  destruct n as [|n]; [lia|]. cbn [seal_loop].
  destruct (Hok (BlockHeader_serializeInto h)) as (out & -> & _). cbn [mbind res_bind].
  destruct (Hash_LessOrEqual out target); [done|]. cbn [hdr_Nonce set_nonce]. unfold is_u32 in Hn.
  destruct (decide (hdr_Nonce h + 1 = 2 ^ 32)) as [Hwrap|Hwrap].
  { replace (u32 (hdr_Nonce h + 1)) with 0 by (rewrite Hwrap; done). done. }
  rewrite u32_id by (unfold is_u32; lia). rewrite (proj2 (Z.eqb_neq _ _)) by lia.
  apply IH; [unfold is_u32; simpl; lia|lia|lia|simpl; lia].
Qed.

(** The number of nonces a search of at most [maxIterations] hashes visits. *)
Definition search_space (h : BlockHeader) (maxIterations : Z) : Z :=
  Z.min maxIterations (2 ^ 32 - hdr_Nonce h).

Lemma seal_search hasher target h maxIterations :
  hasher_ok hasher → is_u32 (hdr_Nonce h) → 0 ≤ maxIterations →
  let m := Z.to_nat (search_space h maxIterations) in
  seal_loop hasher (Z.to_nat maxIterations) h target 0 = seal_loop hasher m h target 0 ∧
  Z.of_nat m ≤ 2 ^ 32 - hdr_Nonce h.
Proof.
  intros Hok Hn Hmax m. unfold m, search_space, is_u32 in *.
  split; [|lia]. destruct (decide (maxIterations ≤ 2 ^ 32 - hdr_Nonce h)) as [Hle|Hgt].
  - by rewrite Z.min_l by lia.
  - rewrite Z.min_r by lia. apply seal_loop_cap; [done|unfold is_u32|..]; lia.
Qed.

(** ** Expected difficulty *)

Lemma scan_loop_valid fuel scan h g p :
  valid_ancestors p g → valid_bits p (hdr_Bits scan) →
  match scan_loop fuel scan h g p with Some s => valid_bits p (hdr_Bits s) | None => True end.
Proof.
  intros Hg. revert scan h. induction fuel as [|fuel IH]; intros scan h Hs; cbn [scan_loop]; [done|].
  destruct (_ && _); [|done]. destruct (g (h - 1)) as [s|] eqn:Hs'; [|done].
  apply IH. by apply Hg in Hs' as [_ ?].
Qed.

Lemma calcExpectedBits_valid r `{!RetargeterOk r} header parent height g p :
  sane_params p → valid_bits p (p_InitialBits p) → valid_ancestors p g →
  is_u32 (hdr_Timestamp parent) → valid_bits p (hdr_Bits parent) → 0 < height < 2 ^ 32 →
  ∃ bits, calcExpectedBits r header parent height g p = Ok bits ∧ valid_bits p bits.
Proof.
  intros Hp Hi Hg Ht Hb Hh. unfold calcExpectedBits. rewrite (u32_id (height - 1)) by (unfold is_u32; lia).
  assert (Hr : ∃ bits, r_CalcNextBits r parent (height - 1) g p = Ok bits ∧ valid_bits p bits)
    by (apply retarget_ok; done || lia).
  destruct (_ !! _) as [act|]; [|done]. destruct (_ || _); [done|].
  pose proof Hp as [Hint _ _ _ Hm Hmax].
  destruct (_ <? _); [eexists; split; [done|]; split; [done|lia]|].
  rewrite (proj2 (Z.eqb_neq (p_RetargetInterval p) 0)) by lia.
  destruct (_ =? 0); [done|].
  pose proof (scan_loop_valid (Z.to_nat (height - 1)) parent (height - 1) g p Hg Hb) as Hs.
  destruct (scan_loop _ _ _ _ _) as [s|]; eauto.
Qed.

(** The expected bits depend on the header only through its timestamp. *)
Lemma calcExpectedBits_timestamp r h1 h2 parent height g p :
  hdr_Timestamp h1 = hdr_Timestamp h2 →
  calcExpectedBits r h1 parent height g p = calcExpectedBits r h2 parent height g p.
Proof. intros Ht. unfold calcExpectedBits. by rewrite Ht. Qed.

Lemma ValidateHeader_Ok hasher r header parent height g p :
  pow_ValidateHeader hasher r header parent height g p = Ok () ↔
  hdr_PrevBlock header = HashBlockHeader parent ∧
  calcExpectedBits r header parent height g p = Ok (hdr_Bits header) ∧
  pow_meets hasher (CompactToHash (hdr_Bits header)) header.
Proof.
  unfold pow_ValidateHeader, pow_meets, ValidateProofOfWork.
  destruct (bool_decide_reflect (hdr_PrevBlock header = HashBlockHeader parent)); cbn [negb fail_if mbind res_bind];
    [|naive_solver].
  destruct (calcExpectedBits _ _ _ _ _ _) as [bits| |]; cbn [mbind res_bind]; [|naive_solver..].
  destruct (Z.eqb_spec (hdr_Bits header) bits) as [<-|Hne]; cbn [negb fail_if mbind res_bind];
    [|split; [done|intros (_ & [= ?] & _); congruence]].
  destruct (h_PoWHash _ _) as [out| |]; cbn [mbind res_bind]; [|naive_solver..].
  destruct (Hash_LessOrEqual out _) eqn:Hc; cbn [negb fail_if wrap]; [split; [intros _|done]; eauto 6|].
  split; [done|]. intros (_ & _ & out' & [= <-] & H). congruence.
Qed.

(** The comparison of hashes as numbers. *)
Lemma pow_meets_value hasher bits h out :
  hasher_ok hasher → is_u32 bits →
  h_PoWHash hasher (BlockHeader_serializeInto h) = Ok out →
  pow_meets hasher (CompactToHash bits) h ↔ HashToBig out <= CompactToBig bits.
Proof.
  intros Hok Hb Hout. destruct (Hok (BlockHeader_serializeInto h)) as (out' & Ho & Hw).
  assert (out' = out) as -> by congruence. destruct (CompactToHash_eq bits Hb) as [Hwt Ht].
  unfold pow_meets. rewrite Hout. unfold HashToBig, be_decode. rewrite reverse_involutive.
  rewrite <- Ht, <- Z.leb_le, <- Hash_LessOrEqual_le by done. split; [|eauto].
  by intros (? & [= ->] & ?).
Qed.

(** ** Properties *)

(** C8: A header the engine accepts is linked and mined: with a safe retargeting
    algorithm and a total hash, [Engine.ValidateHeader] accepts a header only if
    it names its parent's hash, carries the expected bits, these bits stand for
    a positive target within the network limit, and the header's hash, read as
    a number, does not exceed that target. *)
Theorem ValidateHeader_sound hasher r `{!RetargeterOk r} header parent height g p :
  hasher_ok hasher → sane_params p → valid_bits p (p_InitialBits p) → valid_ancestors p g →
  is_u32 (hdr_Timestamp parent) → valid_bits p (hdr_Bits parent) → 0 < height < 2 ^ 32 →
  e_ValidateHeader (pow_Engine hasher r) header parent height g p = Ok () →
  hdr_PrevBlock header = HashBlockHeader parent ∧
  calcExpectedBits r header parent height g p = Ok (hdr_Bits header) ∧
  valid_bits p (hdr_Bits header) ∧
  ∃ out, h_PoWHash hasher (BlockHeader_serializeInto header) = Ok out ∧
    HashToBig out ≤ CompactToBig (hdr_Bits header).
Proof.
  intros Hok Hp Hi Hg Ht Hb Hh (Hprev & Hexp & Hmeet)%ValidateHeader_Ok.
  destruct (calcExpectedBits_valid r header parent height g p Hp Hi Hg Ht Hb Hh) as (bits & Hbits & Hv).
  assert (bits = hdr_Bits header) as -> by congruence. split_and!; [done|done|done|].
  destruct (Hok (BlockHeader_serializeInto header)) as (out & Ho & Hw). exists out. split; [done|].
  by apply (pow_meets_value hasher (hdr_Bits header) header out Hok (proj1 Hv) Ho).
Qed.

Lemma SealHeader_spec hasher target h maxIterations :
  hasher_ok hasher → is_u32 (hdr_Nonce h) → 0 ≤ maxIterations →
  ∃ found h' count,
    pow_SealHeader hasher h target maxIterations = Ok (found, h') ∧
    pow_SealHeaderCounted hasher h target maxIterations = Ok (found, count, h') ∧
    0 ≤ count ≤ search_space h maxIterations ∧
    (∀ n, hdr_Nonce h ≤ n < hdr_Nonce h + count - (if found : bool then 1 else 0) →
       ¬ pow_meets hasher target (set_nonce h n)) ∧
    (if found then h' = set_nonce h (hdr_Nonce h + count - 1) ∧ pow_meets hasher target h'
     else count = search_space h maxIterations).
Proof.
  intros Hok Hn Hmax. destruct (seal_search hasher target h maxIterations Hok Hn Hmax) as [Heq Hle].
  set (m := Z.to_nat (search_space h maxIterations)) in *.
  assert (Hm : Z.of_nat m = search_space h maxIterations)
    by (unfold m, search_space, is_u32 in *; lia).
  unfold pow_SealHeader, pow_SealHeaderCounted. rewrite Heq.
  destruct (seal_loop_spec hasher target h m 0 Hok Hn Hle)
    as [(k & Hk & -> & Hmeet & Hbefore)|(h' & -> & Hnone)]; cbn [mbind res_bind].
  - exists true, (set_nonce h (hdr_Nonce h + Z.of_nat k)), (0 + Z.of_nat k + 1).
    split_and!; [done|done|lia|lia| |f_equal; lia|done]. intros n Hr.
    replace n with (hdr_Nonce h + Z.of_nat (Z.to_nat (n - hdr_Nonce h))) by lia. apply Hbefore. lia.
  - exists false, h', (0 + Z.of_nat m). split_and!; [done|done|lia|lia| |lia]. intros n Hr.
    replace n with (hdr_Nonce h + Z.of_nat (Z.to_nat (n - hdr_Nonce h))) by lia. apply Hnone. lia.
Qed.

(** The nonce search is exact: [SealHeader] reports success if and only if some
    nonce from the header's own one on, within the iteration limit and before
    the wrap-around, meets the target; it then returns the header with the
    first such nonce and no other change, and [SealHeaderCounted] agrees and
    reports the number of hashes made. *)
Theorem SealHeader_exact hasher target h maxIterations :
  hasher_ok hasher → is_u32 (hdr_Nonce h) → 0 ≤ maxIterations →
  ∃ found h' count,
    pow_SealHeader hasher h target maxIterations = Ok (found, h') ∧
    pow_SealHeaderCounted hasher h target maxIterations = Ok (found, count, h') ∧
    0 ≤ count ≤ search_space h maxIterations ∧
    (∀ n, hdr_Nonce h ≤ n < hdr_Nonce h + count - (if found : bool then 1 else 0) →
       ¬ pow_meets hasher target (set_nonce h n)) ∧
    (if found then h' = set_nonce h (hdr_Nonce h + count - 1) ∧ pow_meets hasher target h'
     else count = search_space h maxIterations).
Proof. apply SealHeader_spec. Qed.

(** Mined blocks are valid: a header that names its parent's hash, prepared by
    [PrepareHeader] and sealed by a successful [SealHeader] for the target of its
    bits, is accepted by [ValidateHeader] at the next height. *)
Theorem prepared_sealed_valid hasher r header h1 h2 parent parentHeight g p maxIterations :
  hasher_ok hasher → is_u32 (hdr_Nonce header) → 0 ≤ maxIterations →
  0 ≤ parentHeight < 2 ^ 32 - 1 → hdr_PrevBlock header = HashBlockHeader parent →
  pow_PrepareHeader r header parent parentHeight g p = Ok h1 →
  pow_SealHeader hasher h1 (CompactToHash (hdr_Bits h1)) maxIterations = Ok (true, h2) →
  pow_ValidateHeader hasher r h2 parent (parentHeight + 1) g p = Ok ().
Proof.
  intros Hok Hn Hmax Hph Hprev Hprep Hseal.
  unfold pow_PrepareHeader in Hprep. rewrite u32_id in Hprep by (unfold is_u32; lia).
  apply bind_Ok in Hprep as (bits & Hbits & [= <-]).
  destruct (seal_search hasher (CompactToHash (hdr_Bits (set_bits header bits))) (set_bits header bits)
              maxIterations Hok Hn Hmax) as [Heq Hle].
  unfold pow_SealHeader in Hseal. rewrite Heq in Hseal.
  destruct (seal_loop_spec hasher (CompactToHash (hdr_Bits (set_bits header bits))) (set_bits header bits)
              _ 0 Hok Hn Hle) as [(k & Hk & Hs & Hmeet & _)|(h' & Hs & _)];
    rewrite Hs in Hseal; cbn [mbind res_bind] in Hseal; [injection Hseal as <-|discriminate].
  apply ValidateHeader_Ok. split_and!; [done| |exact Hmeet].
  etrans; [|exact Hbits]. by apply calcExpectedBits_timestamp.
Qed.

(** Mining a genesis block returns: [MineGenesis] either returns the block with
    the merkle root of its transactions and the first nonce from its own one on
    that meets the target of its bits, or reports an exhausted nonce space, and
    then no such nonce exists. *)
Theorem MineGenesis_exact hasher block :
  hasher_ok hasher → is_u32 (hdr_Nonce (blk_Header block)) →
  let header := set_merkle (blk_Header block) (ComputeMerkleRoot (blk_Transactions block)) in
  let target := CompactToHash (hdr_Bits header) in
  (∃ n, hdr_Nonce header ≤ n < 2 ^ 32 ∧ pow_meets hasher target (set_nonce header n) ∧
     pow_MineGenesis hasher block
       = Ok (mkBlock (set_nonce header n) (blk_Transactions block)) ∧
     ∀ k, hdr_Nonce header ≤ k < n → ¬ pow_meets hasher target (set_nonce header k)) ∨
  (is_err (pow_MineGenesis hasher block) = true ∧
     ∀ n, hdr_Nonce header ≤ n < 2 ^ 32 → ¬ pow_meets hasher target (set_nonce header n)).
Proof.
  intros Hok Hn header target. unfold pow_MineGenesis. fold header. fold target.
  assert (Hn' : is_u32 (hdr_Nonce header)) by done.
  destruct (seal_loop_spec hasher target header (Z.to_nat (2 ^ 32 - hdr_Nonce header)) 0 Hok Hn')
    as [(k & Hk & -> & Hmeet & Hbefore)|(h' & -> & Hnone)]; unfold is_u32 in Hn'; [lia|left|right];
    cbn [mbind res_bind].
  - exists (hdr_Nonce header + Z.of_nat k). split_and!; [lia|lia|done|done|]. intros j Hj.
    replace j with (hdr_Nonce header + Z.of_nat (Z.to_nat (j - hdr_Nonce header))) by lia.
    apply Hbefore. lia.
  - split; [done|]. intros n Hr.
    replace n with (hdr_Nonce header + Z.of_nat (Z.to_nat (n - hdr_Nonce header))) by lia.
    apply Hnone. lia.
Qed.

(** ** Witnesses *)

Lemma sha256d_ok : hasher_ok sha256d_Hasher.
Proof.
  intros data. exists (DoubleSHA256 data). split; [|apply DoubleSHA256_wf].
  apply HashFromBytes_32, Sum256_length.
Qed.

(** A regtest header on top of a first block. *)
Definition g_parent : BlockHeader :=
  mkBlockHeader 1 ZeroHash ZeroHash 1774175100 0x207fffff 2.
Definition g_ancestors : Ancestors := λ h, if h =? 0 then Some g_parent else None.
Definition g_header : BlockHeader :=
  mkBlockHeader 1 (HashBlockHeader g_parent) ZeroHash 1774175200 0 0.
Definition g_prepared : BlockHeader := set_bits g_header 0x207fffff.
Definition g_sealed : BlockHeader :=
  match pow_SealHeader sha256d_Hasher g_prepared (CompactToHash 0x207fffff) 20 with
  | Ok (_, h) => h | _ => g_prepared end.

Lemma g_ancestors_valid : valid_ancestors Regtest g_ancestors.
Proof.
  intros h hdr. unfold g_ancestors. destruct (h =? 0); [|done]. intros [= <-]. split; by_decide.
Qed.

Lemma ValidateHeader_sound_witness :
  valid_bits Regtest (hdr_Bits g_sealed) ∧ hdr_PrevBlock g_sealed = HashBlockHeader g_parent.
Proof.
  destruct (ValidateHeader_sound sha256d_Hasher bitcoin_Retargeter g_sealed g_parent 1 g_ancestors
    Regtest sha256d_ok ltac:(by_decide) ltac:(by_decide) g_ancestors_valid ltac:(by_decide)
    ltac:(by_decide) ltac:(lia) ltac:(by_decide)) as (H1 & _ & H2 & _).
  exact (conj H2 H1).
Defined.

Lemma SealHeader_exact_witness :
  ∃ found h' count,
    pow_SealHeader sha256d_Hasher g_prepared (CompactToHash 0x207fffff) 20 = Ok (found, h') ∧
    pow_SealHeaderCounted sha256d_Hasher g_prepared (CompactToHash 0x207fffff) 20
      = Ok (found, count, h').
Proof.
  destruct (SealHeader_exact sha256d_Hasher (CompactToHash 0x207fffff) g_prepared 20 sha256d_ok
    ltac:(by_decide) ltac:(lia)) as (found & h' & count & H1 & H2 & _).
  exists found, h', count. exact (conj H1 H2).
Defined.

Lemma prepared_sealed_valid_witness :
  pow_ValidateHeader sha256d_Hasher bitcoin_Retargeter g_sealed g_parent 1 g_ancestors Regtest = Ok ().
Proof.
  refine (prepared_sealed_valid sha256d_Hasher bitcoin_Retargeter g_header g_prepared g_sealed
    g_parent 0 g_ancestors Regtest 20 sha256d_ok _ _ _ _ _ _); by_decide.
Defined.

Definition g_block : Block := mkBlock g_prepared [sample_coinbase].

Lemma MineGenesis_exact_witness :
  let header := set_merkle g_prepared (ComputeMerkleRoot [sample_coinbase]) in
  (∃ n, hdr_Nonce header ≤ n < 2 ^ 32 ∧
     pow_MineGenesis sha256d_Hasher g_block = Ok (mkBlock (set_nonce header n) [sample_coinbase])) ∨
  is_err (pow_MineGenesis sha256d_Hasher g_block) = true.
Proof.
  destruct (MineGenesis_exact sha256d_Hasher g_block sha256d_ok ltac:(by_decide))
    as [(n & Hr & _ & H & _)|[H _]]; [left; exists n; exact (conj Hr H)|right; exact H].
Defined.
