(* ===== verification/TimeAdjust.v ===== *)
(** * internal/timeadjust/timeadjust.go

    The network-adjusted clock: peers contribute time offsets, one per address,
    and the median of the retained offsets corrects the local clock.  The
    local time is an argument of the operations; the mutex makes each
    operation atomic, so the state is passed explicitly. *)
From stdpp Require Import sorting.
From S2P Require Import Prelude Types Sha256 Merkle Params Utxo Keys Script TxValidation Validation.

(** [int64(MaxAllowedOffset.Seconds())]. *)
Definition MaxAllowedOffset : Z := 70 * 60.
Definition MinSamples : Z := 5.
Definition MaxSamples : Z := 200.

Record AdjustedClock : Type := mkAdjustedClock {
  ac_offsets : list Z;
  ac_known : gset string;
  ac_median : Z;
  ac_warned : bool
}.

Definition AdjustedClock_New : AdjustedClock := mkAdjustedClock [0] ∅ 0 false.

(** [sort.Slice] of the copied offsets. *)
Definition sorted_offsets (c : AdjustedClock) : list Z := merge_sort Z.le (ac_offsets c).

Definition recalcMedian (c : AdjustedClock) : res AdjustedClock :=
  match sorted_offsets c !! (length (ac_offsets c) / 2)%nat with
  | None => Panic
  | Some med =>
      if MinSamples <=? len (ac_offsets c) then
        if (MaxAllowedOffset <? med) || (med <? - MaxAllowedOffset) then
          Ok (mkAdjustedClock (ac_offsets c) (ac_known c) 0 true)
        else Ok (mkAdjustedClock (ac_offsets c) (ac_known c) med (ac_warned c))
      else Ok c
  end.

Definition AddSample (c : AdjustedClock) (now : Z) (addr : string) (peerTime : Z)
    : res AdjustedClock :=
  if bool_decide (addr ∈ ac_known c) then Ok c else
  let known := {[addr]} ∪ ac_known c in
  let offset := i64 (peerTime - now) in
  let offsets := if MaxSamples <=? len (ac_offsets c) then drop 1 (ac_offsets c)
                 else ac_offsets c in
  recalcMedian (mkAdjustedClock (offsets ++ [offset]) known (ac_median c) (ac_warned c)).

Definition AdjustedClock_Now (c : AdjustedClock) (now : Z) : Z := i64 (now + ac_median c).
Definition AdjustedClock_Offset (c : AdjustedClock) : Z := ac_median c.
Definition AdjustedClock_SampleCount (c : AdjustedClock) : Z := len (ac_offsets c).

(** ** Reachable clocks *)

(** A sample: the local time, the peer's address and its time. *)
Inductive reachable : AdjustedClock → Prop :=
| reachable_new : reachable AdjustedClock_New
| reachable_sample c now addr peerTime c' :
    reachable c → AddSample c now addr peerTime = Ok c' → reachable c'.

(** The invariant: the offset is bounded, zero until enough samples are there,
    and the median of the offsets afterwards unless that is out of bounds; the
    clock holds at most [MaxSamples] offsets, one per known address at most. *)
Record clock_inv (c : AdjustedClock) : Prop := {
  cl_offset : - MaxAllowedOffset ≤ ac_median c ≤ MaxAllowedOffset;
  cl_samples : 1 ≤ len (ac_offsets c) ≤ MaxSamples;
  cl_known : len (ac_offsets c) ≤ 1 + Z.of_nat (size (ac_known c));
  cl_few : len (ac_offsets c) < MinSamples → ac_median c = 0;
  cl_median : MinSamples ≤ len (ac_offsets c) →
    ac_median c = 0 ∨
    sorted_offsets c !! (length (ac_offsets c) / 2)%nat = Some (ac_median c)
}.

Lemma sorted_offsets_spec c :
  Permutation (sorted_offsets c) (ac_offsets c) ∧ StronglySorted Z.le (sorted_offsets c).
Proof.
  split; [apply merge_sort_Permutation|].
  apply Sorted_StronglySorted; [apply _|]. apply Sorted_merge_sort, _.
Qed.

Lemma clock_inv_new : clock_inv AdjustedClock_New.
Proof. split; unfold MaxAllowedOffset, MaxSamples, MinSamples; simpl; try done; lia. Qed.

Lemma recalcMedian_inv c :
  1 ≤ len (ac_offsets c) ≤ MaxSamples → len (ac_offsets c) ≤ 1 + Z.of_nat (size (ac_known c)) →
  (len (ac_offsets c) < MinSamples → ac_median c = 0) →
  - MaxAllowedOffset ≤ ac_median c ≤ MaxAllowedOffset →
  ∃ c', recalcMedian c = Ok c' ∧ ac_offsets c' = ac_offsets c ∧ ac_known c' = ac_known c ∧ clock_inv c'.
Proof.
  intros Hn Hk Hfew Hm. unfold recalcMedian. destruct (sorted_offsets_spec c) as [Hp _].
  destruct (lookup_lt_is_Some_2 (sorted_offsets c) (length (ac_offsets c) / 2)) as [med Hmed].
  { rewrite Hp. apply Nat.div_lt; lia. }
  rewrite Hmed. destruct (Z.leb_spec MinSamples (len (ac_offsets c))) as [Hge|Hlt].
  - destruct (Z.ltb_spec MaxAllowedOffset med), (Z.ltb_spec med (- MaxAllowedOffset)); cbn [orb];
      eexists; (split; [done|]); (split; [done|]); (split; [done|]); split; simpl; try done;
      try (unfold MaxAllowedOffset in *; lia); auto.
  - exists c. split; [done|]. split; [done|]. split; [done|]. split; try done; lia.
Qed.

Lemma AddSample_inv c now addr peerTime :
  clock_inv c → ∃ c', AddSample c now addr peerTime = Ok c' ∧ clock_inv c'.
Proof.
  intros [Hoff Hs Hk Hfew Hmed]. unfold AddSample.
  destruct (bool_decide_reflect (addr ∈ ac_known c)) as [Hin|Hin]; [by exists c|].
  set (offs := (if MaxSamples <=? len (ac_offsets c) then _ else _) ++ _).
  assert (Hsz : size ({[addr]} ∪ ac_known c) = S (size (ac_known c))).
  { rewrite size_union, size_singleton by set_solver. done. }
  assert (Hlen : len offs = Z.min (len (ac_offsets c) + 1) MaxSamples).
  { unfold offs. rewrite length_app. unfold MaxSamples in *.
    destruct (Z.leb_spec 200 (len (ac_offsets c))); rewrite ?length_drop; simpl; lia. }
  destruct (recalcMedian_inv (mkAdjustedClock offs ({[addr]} ∪ ac_known c) (ac_median c) (ac_warned c)))
    as (c' & Hc & _ & _ & Hinv); simpl.
  - unfold MaxSamples in *. lia.
  - rewrite Hsz. lia.
  - intros Hlt. apply Hfew. unfold MinSamples, MaxSamples in *. lia.
  - done.
  - eauto.
Qed.

Lemma reachable_inv c : reachable c → clock_inv c.
Proof.
  induction 1 as [|c now addr pt c' _ IH Hadd]; [apply clock_inv_new|].
  destruct (AddSample_inv c now addr pt IH) as (c2 & Hc2 & Hinv). congruence.
Qed.

(** The number of offsets outside an interval. *)
Definition outside (lo hi : Z) (l : list Z) : nat :=
  length (List.filter (λ x, (x <? lo) || (hi <? x)) l).

Lemma outside_counts lo hi l :
  lo ≤ hi → (count_ge (hi + 1) l ≤ outside lo hi l ∧ length l - count_ge lo l ≤ outside lo hi l)%nat.
Proof.
  intros Hle. unfold outside, count_ge.
  induction l as [|x l IH]; [simpl; lia|]. cbn [List.filter length].
  pose proof (count_ge_le lo l) as Hc. unfold count_ge in Hc.
  destruct (Z.leb_spec (hi + 1) x), (Z.leb_spec lo x), (Z.ltb_spec x lo), (Z.ltb_spec hi x);
    cbn [orb length]; lia.
Qed.

(** ** Properties *)

(** The clock is bounded: whatever the peers send, every reachable clock accepts
    the next sample, its offset never exceeds 70 minutes either way, it retains
    at most 200 samples, at most one per address besides the local one, and the
    offset stays zero until five samples are there. *)
Theorem AdjustedClock_bounded c now addr peerTime :
  reachable c →
  (- 4200 ≤ AdjustedClock_Offset c ≤ 4200) ∧ 1 ≤ AdjustedClock_SampleCount c ≤ 200 ∧
  AdjustedClock_SampleCount c ≤ 1 + Z.of_nat (size (ac_known c)) ∧
  (AdjustedClock_SampleCount c < 5 → AdjustedClock_Offset c = 0) ∧
  ∃ c', AddSample c now addr peerTime = Ok c'.
Proof.
  intros Hr. apply reachable_inv in Hr. pose proof Hr as [Hoff Hs Hk Hfew _].
  split_and!; try done; try apply Hoff; try apply Hs.
  destruct (AddSample_inv c now addr peerTime Hr) as (c' & -> & _). eauto.
Qed.

(** A minority cannot move the clock: in a reachable clock with at least five
    samples, when fewer than half of the retained offsets lie outside an
    interval, the applied offset lies inside it or is zero. *)
Theorem median_resists_minority c lo hi :
  reachable c → 5 ≤ AdjustedClock_SampleCount c → lo ≤ hi →
  2 * Z.of_nat (outside lo hi (ac_offsets c)) < AdjustedClock_SampleCount c →
  AdjustedClock_Offset c = 0 ∨ lo ≤ AdjustedClock_Offset c ≤ hi.
Proof.
  intros Hr Hn Hle Hout. unfold AdjustedClock_SampleCount, AdjustedClock_Offset in *.
  apply reachable_inv in Hr as [_ _ _ _ Hmed]. destruct Hmed as [?|Hmed]; [done|by left|right].
  destruct (sorted_offsets_spec c) as [Hp Hsrt]. destruct (outside_counts lo hi (ac_offsets c) Hle) as [H1 H2].
  pose proof (sorted_count_ge _ _ _ lo Hsrt Hmed) as Hlo.
  pose proof (sorted_count_ge _ _ _ (hi + 1) Hsrt Hmed) as Hhi.
  rewrite (count_ge_perm _ _ _ Hp), (Permutation_length Hp) in Hlo.
  rewrite (count_ge_perm _ _ _ Hp), (Permutation_length Hp) in Hhi.
  pose proof (Nat.div_mod_eq (length (ac_offsets c)) 2).
  pose proof (Nat.mod_upper_bound (length (ac_offsets c)) 2).
  pose proof (count_ge_le lo (ac_offsets c)).
  split; [apply Hlo; lia|].
  destruct (decide (hi + 1 ≤ ac_median c)) as [Hx|]; [|lia]. apply Hhi in Hx. lia.
Qed.

(** ** Witnesses *)

Definition run_samples (l : list (string * Z)) : res AdjustedClock :=
  foldM (λ c s, AddSample c 1000000 (fst s) (snd s)) AdjustedClock_New l.

Lemma run_samples_reachable l c : run_samples l = Ok c → reachable c.
Proof.
  intros H. refine (foldM_inv (λ _ c, reachable c) _ l AdjustedClock_New c _ _ H); [constructor|].
  intros. by eapply reachable_sample.
Qed.

Definition sample_clock : AdjustedClock :=
  match run_samples [("a", 1000010); ("b", 1000012); ("c", 1000011); ("d", 9000000); ("e", 1000013)] with
  | Ok c => c | _ => AdjustedClock_New end.

Lemma sample_clock_reachable : reachable sample_clock.
Proof.
  apply (run_samples_reachable
    [("a", 1000010); ("b", 1000012); ("c", 1000011); ("d", 9000000); ("e", 1000013)]).
  vm_compute. reflexivity.
Qed.

Lemma AdjustedClock_bounded_witness : - 4200 ≤ AdjustedClock_Offset sample_clock ≤ 4200.
Proof.
  refine (proj1 (AdjustedClock_bounded sample_clock 1000000 "f" 5 _)). apply sample_clock_reachable.
Defined.

Lemma median_resists_minority_witness :
  AdjustedClock_Offset sample_clock = 0 ∨ 0 ≤ AdjustedClock_Offset sample_clock ≤ 13.
Proof.
  refine (median_resists_minority sample_clock 0 13 _ _ _ _).
  - apply sample_clock_reachable.
  - by_decide.
  - lia.
  - by_decide.
Defined.
