(* ===== verification/BlockFiles.v ===== *)
(** * internal/store/blockfile.go: the flat files of blocks and undo data

    [disk] is the directory of blk and rev files as the [os] package shows it:
    the contents of the files, and a schedule that says which calls fail or
    write only a part of their data.  [BlockFileManager] is the Go struct; the
    five write functions share [append_record].  A reader sees the contents
    of the files: what a crash loses of unsynced data is not modelled. *)
From S2P Require Import Prelude Types Sha256.

(** ** The directory *)

(** The file names [blkNNNNN.dat] and [revNNNNN.dat]. *)
Inductive dat_file : Type :=
| BlkFile (n : Z)
| RevFile (n : Z).

#[export] Instance dat_file_eq_dec : EqDecision dat_file.
Proof. solve_decision. Defined.
#[export] Instance dat_file_countable : Countable dat_file.
Proof.
  refine (inj_countable' (λ f, match f with BlkFile n => inl n | RevFile n => inr n end)
    (λ x, match x with inl n => BlkFile n | inr n => RevFile n end) _).
  by intros [].
Defined.

(** The outcome of one call of the [os] package. *)
Inductive io_fault : Type :=
| IoOk
| IoFail
| IoShort (n : nat).

Record disk : Type := mkDisk {
  dk_files : gmap dat_file (list byte);
  dk_faults : nat → io_fault;
  dk_calls : nat
}.

Definition file_data (d : disk) (f : dat_file) : list byte := default [] (dk_files d !! f).
Definition set_file (f : dat_file) (bs : list byte) (d : disk) : disk :=
  mkDisk (<[f := bs]> (dk_files d)) (dk_faults d) (dk_calls d).

Definition io_next : proc disk io_fault := λ d,
  (Ok (dk_faults d (dk_calls d)), mkDisk (dk_files d) (dk_faults d) (S (dk_calls d))).

(** A call that either succeeds or fails without an effect. *)
Definition io_call {A} (k : proc disk A) : proc disk A :=
  x ← io_next;
  match x with IoOk => k | _ => throw (Errorf "input/output error") end.

(** [os.OpenFile(path, O_CREATE|O_WRONLY)], [Seek(0, io.SeekEnd)],
    [Truncate] and [Sync]. *)
Definition os_Create (f : dat_file) : proc disk () :=
  io_call (modify (λ d, set_file f (file_data d f) d)).
Definition os_SeekEnd (f : dat_file) : proc disk Z := io_call (gets (λ d, len (file_data d f))).
Definition os_Truncate (f : dat_file) (pos : Z) : proc disk () :=
  io_call (modify (λ d, set_file f (take (Z.to_nat pos) (file_data d f)) d)).
Definition os_Sync (f : dat_file) : proc disk () := io_call (mret ()).

(** [Write] at the end of the file: the number of bytes written and the error,
    which is not nil when this is not all of them. *)
Definition os_Write (f : dat_file) (data : list byte) : proc disk (Z * option error) :=
  x ← io_next;
  let write k := modify (λ d, set_file f (file_data d f ++ take k data) d) in
  match x with
  | IoOk => _ ← write (length data); mret (len data, None)
  | IoFail => mret (0, Some (Errorf "input/output error"))
  | IoShort k =>
      _ ← write (k `min` pred (length data))%nat;
      mret (Z.of_nat (k `min` pred (length data)), Some (Errorf "input/output error"))
  end.

(** ** The manager *)

Definition maxBlockFileSize : Z := 128 * 1024 * 1024.

Record BlockFileManager : Type := mkBFM {
  bfm_dir : disk;
  bfm_magic : list byte;
  bfm_curFile : Z;
  bfm_curSize : Z
}.

Definition set_dir (d : disk) (bfm : BlockFileManager) : BlockFileManager :=
  mkBFM d (bfm_magic bfm) (bfm_curFile bfm) (bfm_curSize bfm).
Definition set_cur (file size : Z) (bfm : BlockFileManager) : BlockFileManager :=
  mkBFM (bfm_dir bfm) (bfm_magic bfm) file size.

(** The scan for the highest existing block file, from file [i] on.  The fuel is
    one more than the number of files: each turn but the last finds one. *)
Fixpoint scan_files (fuel : nat) (i : Z) (bfm : BlockFileManager) : BlockFileManager :=
  match fuel with
  | O => bfm
  | S fuel' =>
      match dk_files (bfm_dir bfm) !! BlkFile i with
      | None => if i =? 0 then set_cur 0 0 bfm else bfm
      | Some bs => scan_files fuel' (i + 1) (set_cur i (len bs) bfm)
      end
  end.

Definition NewBlockFileManager (dir : disk) (magic : list byte) : BlockFileManager :=
  scan_files (S (size (dk_files dir))) 0 (mkBFM dir magic 0 0).

(** Open, seek, write, sync; a failed write is undone by truncating.  Returns
    the position of the record. *)
Definition append_record (f : dat_file) (sync : bool) (record : list byte) : proc disk Z :=
  _ ← pwrap "open file" (os_Create f);
  preWritePos ← pwrap "seek to end of file" (os_SeekEnd f);
  nerr ← os_Write f record;
  let '(n, writeErr) := nerr in
  if bool_decide (is_Some writeErr) || negb (n =? len record) then
    _ ← ignore_err (os_Truncate f preWritePos);
    _ ← (if sync then ignore_err (os_Sync f) else mret ());
    throw (match writeErr with
           | Some e => Wrapf "write record" e
           | None => Errorf "short write"
           end)
  else if sync then
    _ ← catch (os_Sync f) (λ e,
          _ ← ignore_err (os_Truncate f preWritePos);
          _ ← ignore_err (os_Sync f);
          throw (Wrapf "sync file" e));
    mret preWritePos
  else mret preWritePos.

(** Magic, size and data. *)
Definition frame (magic data : list byte) : list byte :=
  magic ++ le_encode 4 (u32 (len data)) ++ data.

Definition rotate (frameSize : Z) (bfm : BlockFileManager) : BlockFileManager :=
  if (0 <? bfm_curSize bfm) && (maxBlockFileSize <? bfm_curSize bfm + frameSize)
  then set_cur (u32 (bfm_curFile bfm + 1)) 0 bfm else bfm.

Definition append_block (sync : bool) (data : list byte) : proc BlockFileManager (Z * Z * Z) :=
  let frameSize := 8 + len data in
  _ ← modify (rotate frameSize);
  fileNum ← gets bfm_curFile;
  offset ← gets (λ bfm, u32 (bfm_curSize bfm));
  magic ← gets bfm_magic;
  _ ← on bfm_dir set_dir (append_record (BlkFile fileNum) sync (frame magic data));
  _ ← modify (λ bfm, set_cur (bfm_curFile bfm) (bfm_curSize bfm + frameSize) bfm);
  mret (fileNum, offset, u32 (len data)).

Definition WriteBlockRaw (data : list byte) : proc BlockFileManager (Z * Z * Z) :=
  append_block true data.
Definition WriteBlockNoSyncRaw (data : list byte) : proc BlockFileManager (Z * Z * Z) :=
  append_block false data.
Definition bfm_WriteBlock (block : Block) : proc BlockFileManager (Z * Z * Z) :=
  append_block true (Block_SerializeToBytes block).
Definition bfm_WriteBlockNoSync (block : Block) : proc BlockFileManager (Z * Z * Z) :=
  WriteBlockNoSyncRaw (Block_SerializeToBytes block).

(** Undo records end with a checksum. *)
Definition undo_record (magic data : list byte) : list byte :=
  frame magic data ++ DoubleSHA256 data.

Definition append_undo (sync : bool) (fileNum : Z) (undoData : list byte)
    : proc BlockFileManager (Z * Z) :=
  magic ← gets bfm_magic;
  preWritePos ← on bfm_dir set_dir
                  (append_record (RevFile fileNum) sync (undo_record magic undoData));
  mret (u32 preWritePos, u32 (len undoData)).

Definition bfm_WriteUndo := append_undo true.
Definition bfm_WriteUndoNoSync := append_undo false.

(** The two files are synced when they can be opened. *)
Definition sync_file (f : dat_file) : proc disk () :=
  x ← io_next;
  match x with
  | IoOk =>
      ex ← gets (λ d, bool_decide (is_Some (dk_files d !! f)));
      if ex : bool then pwrap "sync file" (os_Sync f) else mret ()
  | _ => mret ()
  end.
Definition SyncAll : proc BlockFileManager () :=
  fileNum ← gets bfm_curFile;
  _ ← on bfm_dir set_dir (sync_file (BlkFile fileNum));
  on bfm_dir set_dir (sync_file (RevFile fileNum)).

(** Seek and read a frame: its data and the reader after it. *)
Definition read_frame (magic content : list byte) (offset size : Z)
    : res (list byte * list byte) :=
  hr ← wrap "read frame" (ReadFull 8 (drop (Z.to_nat offset) content));
  let '(hdr, rest) := hr in
  _ ← fail_if (negb (bool_decide (slice 0 4 hdr = magic))) (Errorf "invalid magic");
  let dataSize := le_decode (slice 4 8 hdr) in
  _ ← fail_if ((0 <? size) && negb (dataSize =? size)) (Errorf "size mismatch");
  _ ← fail_if (maxBlockFileSize <? dataSize) (Errorf "data size exceeds maximum");
  wrap "read data" (ReadFull (Z.to_nat dataSize) rest).

Definition bfm_ReadBlock (bfm : BlockFileManager) (fileNum offset size : Z) : res Block :=
  match dk_files (bfm_dir bfm) !! BlkFile fileNum with
  | None => Err (Errorf "open block file")
  | Some content =>
      dr ← read_frame (bfm_magic bfm) content offset size;
      br ← wrap "deserialize block" (Block_Deserialize (fst dr));
      mret (fst br)
  end.

Definition bfm_ReadUndo (bfm : BlockFileManager) (fileNum offset size : Z) : res (list byte) :=
  match dk_files (bfm_dir bfm) !! RevFile fileNum with
  | None => Err (Errorf "open rev file")
  | Some content =>
      dr ← read_frame (bfm_magic bfm) content offset size;
      let '(data, rest) := dr in
      cr ← wrap "read undo checksum" (ReadFull HashSize rest);
      let '(storedChecksum, _) := cr in
      _ ← fail_if (negb (bool_decide (storedChecksum = DoubleSHA256 data)))
                  (Errorf "undo data checksum mismatch");
      mret data
  end.

(** ** Reading back *)

Lemma u32_len_small {A} (l : list A) : len l ≤ maxBlockFileSize → u32 (len l) = len l.
Proof. unfold maxBlockFileSize. intros. apply u32_id. unfold is_u32. lia. Qed.

Lemma read_frame_at magic pre data post size :
  length magic = 4%nat → len data ≤ maxBlockFileSize → (size = 0 ∨ size = len data) →
  read_frame magic (pre ++ frame magic data ++ post) (len pre) size = Ok (data, post).
Proof.
  intros Hm Hd Hs. unfold read_frame, frame. rewrite Nat2Z.id, drop_app_length.
  rewrite u32_len_small by done.
  rewrite !app_assoc, <-(app_assoc _ data), <-(app_assoc magic).
  assert (length (magic ++ le_encode 4 (len data)) = 8%nat) as H8 by (len_simpl; lia).
  rewrite <-H8 at 1. rewrite app_assoc, ReadFull_app. cbn [wrap mbind res_bind].
  rewrite slice_app_take by done. rewrite bool_decide_true by done. cbn [negb fail_if mbind res_bind].
  rewrite (slice_app_skip _ _ 4) by (done || lia). cbn [Nat.sub].
  rewrite slice_all by apply le_encode_length.
  rewrite le4_decode_encode by (unfold is_u32, maxBlockFileSize in *; lia).
  replace ((0 <? size) && negb (len data =? size)) with false
    by (destruct Hs as [-> | ->]; [done|by rewrite Z.eqb_refl, andb_false_r]).
  cbn [fail_if mbind res_bind]. rewrite (proj2 (Z.ltb_ge _ _)) by done.
  cbn [fail_if mbind res_bind]. by rewrite Nat2Z.id, ReadFull_app.
Qed.

Lemma ReadFull_more n bs more x rest :
  ReadFull n bs = Ok (x, rest) → ReadFull n (bs ++ more) = Ok (x, rest ++ more).
Proof.
  intros [-> <-]%ReadFull_Ok. rewrite <-app_assoc. apply ReadFull_app.
Qed.

Lemma drop_app_nil {A} (l k : list A) n : drop n l ≠ [] → drop n (l ++ k) = drop n l ++ k.
Proof.
  intros Hne. apply drop_app_le. destruct (decide (n ≤ length l)%nat); [done|].
  by rewrite drop_ge in Hne by lia.
Qed.

(** A frame stays readable when its file grows. *)
Lemma read_frame_more magic content more offset size data rest :
  read_frame magic content offset size = Ok (data, rest) →
  read_frame magic (content ++ more) offset size = Ok (data, rest ++ more).
Proof.
  unfold read_frame. intros H. res_inv.
  match goal with H : ReadFull 8 _ = Ok (?h, ?r) |- _ =>
    rewrite drop_app_nil; [rewrite (ReadFull_more _ _ more _ _ H)|] end.
  - cbn [wrap mbind res_bind]. repeat match goal with H : _ = false |- _ => rewrite H; clear H end.
    cbn [fail_if mbind res_bind]. by rewrite (ReadFull_more _ _ more _ _ H).
  - intros Hnil. match goal with H : ReadFull 8 _ = _ |- _ => rewrite Hnil in H; discriminate H end.
Qed.

(** [grows d d']: every file of [d] is a prefix of the same file of [d']. *)
Definition grows (d d' : disk) : Prop :=
  ∀ f content, dk_files d !! f = Some content →
    ∃ more, dk_files d' !! f = Some (content ++ more).

#[export] Instance grows_preorder : PreOrder grows.
Proof.
  split.
  - intros d f c H. exists []. by rewrite app_nil_r.
  - intros d1 d2 d3 H1 H2 f c H. destruct (H1 f c H) as [m1 Hm1].
    destruct (H2 f _ Hm1) as [m2 Hm2]. exists (m1 ++ m2). by rewrite app_assoc.
Qed.

Lemma grows_append d f bs faults n :
  grows d (mkDisk (<[f := file_data d f ++ bs]> (dk_files d)) faults n).
Proof.
  intros g c Hg. simpl. destruct (decide (f = g)) as [->|].
  - rewrite lookup_insert_eq. exists bs. unfold file_data. by rewrite Hg.
  - rewrite lookup_insert_ne by done. exists []. by rewrite app_nil_r.
Qed.

Lemma ReadBlock_grows bfm bfm' fileNum offset size b :
  grows (bfm_dir bfm) (bfm_dir bfm') → bfm_magic bfm' = bfm_magic bfm →
  bfm_ReadBlock bfm fileNum offset size = Ok b → bfm_ReadBlock bfm' fileNum offset size = Ok b.
Proof.
  unfold bfm_ReadBlock. intros Hg -> H. case_match eqn:Hf; [|done].
  destruct (Hg _ _ Hf) as [more ->]. apply bind_Ok in H as ([data rest] & Hr & H).
  rewrite (read_frame_more _ _ more _ _ _ _ Hr). exact H.
Qed.

Lemma ReadUndo_grows bfm bfm' fileNum offset size u :
  grows (bfm_dir bfm) (bfm_dir bfm') → bfm_magic bfm' = bfm_magic bfm →
  bfm_ReadUndo bfm fileNum offset size = Ok u → bfm_ReadUndo bfm' fileNum offset size = Ok u.
Proof.
  unfold bfm_ReadUndo. intros Hg -> H. case_match eqn:Hf; [|done].
  destruct (Hg _ _ Hf) as [more ->]. apply bind_Ok in H as ([data rest] & Hr & H).
  rewrite (read_frame_more _ _ more _ _ _ _ Hr). cbn [mbind res_bind].
  apply bind_Ok in H as ([ck r] & Hc%wrap_Ok & H).
  rewrite (ReadFull_more _ _ more _ _ Hc). exact H.
Qed.

(** ** Appending *)

Lemma io_call_spec {A} (k : proc disk A) d :
  let d1 := mkDisk (dk_files d) (dk_faults d) (S (dk_calls d)) in
  io_call k d = k d1 ∨ io_call k d = (Err (Errorf "input/output error"), d1).
Proof. unfold io_call, mbind, proc_bind, io_next. simpl. destruct (dk_faults d _); auto. Qed.

Definition reliable (d : disk) : Prop := ∀ n, dk_faults d n = IoOk.

Lemma append_record_reliable f sync record d :
  reliable d → ∃ n,
  append_record f sync record d =
    (Ok (len (file_data d f)),
     mkDisk (<[f := file_data d f ++ record]> (dk_files d)) (dk_faults d) n).
Proof.
  intros Hr. exists (if sync then 4 + dk_calls d else 3 + dk_calls d)%nat.
  unfold append_record, os_Create, os_SeekEnd, os_Write, os_Sync, io_call, catch, pwrap.
  unfold mbind, proc_bind, io_next, modify, gets, mret, proc_ret, reliable in *. cbn.
  repeat (rewrite Hr; cbn).
  rewrite Z.eqb_refl. unfold file_data. cbn. rewrite !lookup_insert_eq, firstn_all. cbn.
  destruct sync; cbn; repeat (rewrite Hr; cbn); unfold set_file; cbn; by rewrite ?insert_insert_eq.
Qed.

(** [adds f bs d d']: [bs] was appended to [f] and nothing else changed (an
    absent file may have been created). *)
Definition adds (f : dat_file) (bs : list byte) (d d' : disk) : Prop :=
  dk_faults d' = dk_faults d ∧
  ((bs = [] ∧ dk_files d' = dk_files d) ∨
   dk_files d' = <[f := file_data d f ++ bs]> (dk_files d)).

Lemma adds_grows f bs d d' : adds f bs d d' → grows d d'.
Proof.
  intros [_ [[_ Heq]|Heq]] g c Hg; rewrite Heq; [exists []; by rewrite app_nil_r|].
  exact (grows_append d f bs (dk_faults d) 0 g c Hg).
Qed.

(** The outcomes of the single calls. *)
Definition call_ends {A} (m : proc disk A) (P : disk → res A → disk → Prop) : Prop :=
  ∀ d, P d (m d).1 (m d).2.

Lemma os_Create_ends f : call_ends (os_Create f) (λ d r d', r ≠ Panic ∧ adds f [] d d').
Proof.
  intros d. unfold os_Create. destruct (io_call_spec (modify (λ d, set_file f (file_data d f) d)) d) as [-> | ->];
    (split; [done|]); (split; [done|]); simpl; [right|by left].
  by rewrite app_nil_r.
Qed.

Lemma os_SeekEnd_ends f : call_ends (os_SeekEnd f) (λ d r d',
  r ≠ Panic ∧ dk_faults d' = dk_faults d ∧ dk_files d' = dk_files d ∧
  (∀ p, r = Ok p → p = len (file_data d f))).
Proof.
  intros d. unfold os_SeekEnd. destruct (io_call_spec (gets (λ d, len (file_data d f))) d) as [-> | ->];
    simpl; naive_solver.
Qed.

Lemma os_Sync_ends f : call_ends (os_Sync f) (λ d r d',
  r ≠ Panic ∧ dk_faults d' = dk_faults d ∧ dk_files d' = dk_files d).
Proof.
  intros d. unfold os_Sync. destruct (io_call_spec (mret ()) d) as [-> | ->]; simpl; naive_solver.
Qed.

Lemma os_Truncate_ends f pos : call_ends (os_Truncate f pos) (λ d r d',
  r ≠ Panic ∧ dk_faults d' = dk_faults d ∧
  (dk_files d' = dk_files d ∨
   dk_files d' = <[f := take (Z.to_nat pos) (file_data d f)]> (dk_files d))).
Proof.
  intros d. unfold os_Truncate.
  destruct (io_call_spec (modify (λ d, set_file f (take (Z.to_nat pos) (file_data d f)) d)) d)
    as [-> | ->]; simpl; naive_solver.
Qed.

Lemma os_Write_ends f data : call_ends (os_Write f data) (λ d r d',
  ∃ k : nat, adds f (take k data) d d' ∧
  ((r = Ok (len data, None) ∧ k = length data) ∨
   (∃ n e, r = Ok (n, Some e)))).
Proof.
  intros d. unfold os_Write, mbind, proc_bind, io_next. simpl.
  destruct (dk_faults d (dk_calls d)) as [| |k]; simpl; eexists.
  - split; [|by left]. split; [done|]. by right.
  - split; [|right; by eauto]. split; [done|]. left. by rewrite (take_0 data).
  - split; [|right; by eauto]. split; [done|]. by right.
Qed.

Lemma adds_data f bs d d' : adds f bs d d' → file_data d' f = file_data d f ++ bs.
Proof.
  intros [_ [[-> Heq]|Heq]]; unfold file_data; rewrite Heq; [by rewrite app_nil_r|].
  by rewrite lookup_insert_eq.
Qed.

Lemma adds_trans f bs1 bs2 d d1 d2 :
  adds f bs1 d d1 → adds f bs2 d1 d2 → adds f (bs1 ++ bs2) d d2.
Proof.
  intros H1 H2. pose proof (adds_data _ _ _ _ H1) as Hd. destruct H1 as [Hf1 H1], H2 as [Hf2 H2].
  split; [by rewrite Hf2|]. destruct H2 as [[-> Heq]|Heq]; rewrite Heq.
  - rewrite app_nil_r. exact H1.
  - right. rewrite Hd, <-app_assoc. destruct H1 as [[-> ->]| ->]; [done|].
    by rewrite insert_insert_eq.
Qed.

Lemma adds_same f d d' :
  dk_faults d' = dk_faults d → dk_files d' = dk_files d → adds f [] d d'.
Proof. intros ? ?. split; [done|]. by left. Qed.

(** Truncating back to the old length removes what was appended, or fails and
    leaves it. *)
Lemma adds_truncate f bs d d1 d2 :
  adds f bs d d1 → dk_faults d2 = dk_faults d1 →
  (dk_files d2 = dk_files d1 ∨
   dk_files d2 = <[f := take (Z.to_nat (len (file_data d f))) (file_data d1 f)]> (dk_files d1)) →
  ∃ bs', adds f bs' d d2.
Proof.
  intros Ha Hf H. pose proof (adds_data _ _ _ _ Ha) as Hd. destruct H as [Heq|Heq].
  - exists bs. rewrite <-(app_nil_r bs). eapply adds_trans; [done|by apply adds_same].
  - exists []. rewrite Hd, Nat2Z.id, take_app_length in Heq. destruct Ha as [Hf1 Ha].
    split; [by rewrite Hf|]. right. rewrite Heq, app_nil_r.
    destruct Ha as [[_ ->]| ->]; [done|]. by rewrite insert_insert_eq.
Qed.

(** Undo a write: truncate, perhaps sync, and report the error. *)
Lemma cleanup_ends {A} f sync bs d0 d1 (e : error) :
  adds f bs d0 d1 → ∃ bs' d2,
  (_ ← ignore_err (os_Truncate f (len (file_data d0 f)));
   _ ← (if sync : bool then ignore_err (os_Sync f) else mret ());
   @throw disk A e) d1 = (Err e, d2) ∧ adds f bs' d0 d2.
Proof.
  intros Ha. unfold mbind at 1, proc_bind at 1. unfold ignore_err at 1, catch at 1.
  pose proof (os_Truncate_ends f (len (file_data d0 f)) d1) as (Hnp & Hf & Ht).
  destruct (os_Truncate f _ d1) as [r d2]. simpl in Hnp, Hf, Ht.
  destruct (adds_truncate f bs d0 d1 d2 Ha Hf Ht) as [bs' Ha2].
  assert (∃ d3, (_ ← (if sync : bool then ignore_err (os_Sync f) else mret ()); @throw disk A e) d2
            = (Err e, d3) ∧ adds f [] d2 d3) as (d3 & Heq & Ha3).
  { destruct sync; [|exists d2; split; [done|by apply adds_same]].
    unfold ignore_err, catch, mbind, proc_bind.
    pose proof (os_Sync_ends f d2) as (Hnp2 & Hf2 & Hs2).
    destruct (os_Sync f d2) as [r2 d3]. simpl in *. exists d3.
    split; [by destruct r2|by apply adds_same]. }
  exists bs', d3. split; [by destruct r|]. rewrite <-(app_nil_r bs'). by eapply adds_trans.
Qed.

(** Whatever fails, [append_record] leaves the old contents of every file in
    place; when it succeeds it appended exactly the record. *)
Lemma append_record_ends f sync record d : ∃ r d' bs,
  append_record f sync record d = (r, d') ∧ adds f bs d d' ∧ r ≠ Panic ∧
  (∀ p, r = Ok p → bs = record ∧ p = len (file_data d f)).
Proof.
  unfold append_record. unfold mbind at 1, proc_bind at 1, pwrap at 1.
  pose proof (os_Create_ends f d) as [Hnp1 Ha1]. destruct (os_Create f d) as [[[]|e|] d1];
    [|eexists _, _, []; by split_and!..]. simpl in Ha1. cbn [wrap].
  unfold mbind at 1, proc_bind at 1, pwrap at 1.
  pose proof (os_SeekEnd_ends f d1) as (Hnp2 & Hf2 & Hfs2 & Hp2).
  destruct (os_SeekEnd f d1) as [[pre|e|] d2]; simpl in Hnp2, Hf2, Hfs2, Hp2; cbn [wrap];
    [|eexists _, _, []; split_and!; try done; by eapply (adds_trans _ [] []); [|apply adds_same]..].
  specialize (Hp2 _ eq_refl) as ->. rewrite (adds_data _ _ _ _ Ha1), app_nil_r.
  assert (adds f [] d d2) as Ha2 by (eapply (adds_trans _ [] []); [done|by apply adds_same]).
  unfold mbind at 1, proc_bind at 1. pose proof (os_Write_ends f record d2) as (k & Ha3 & Hr3).
  destruct (os_Write f record d2) as [r3 d3]. simpl in Ha3, Hr3.
  pose proof (adds_trans f [] _ d d2 d3 Ha2 Ha3) as Ha. cbn [app] in Ha.
  destruct Hr3 as [[-> ->]|(n & e & ->)].
  - rewrite Z.eqb_refl. rewrite firstn_all in Ha. cbn [bool_decide negb orb decide].
    rewrite (bool_decide_false (is_Some (@None error))) by (intros [? [=]]). cbn [orb].
    destruct sync; [|eexists _, _, record; split_and!; try done; by intros p [= <-]].
    unfold mbind at 1, proc_bind at 1, catch at 1.
    pose proof (os_Sync_ends f d3) as (Hnp4 & Hf4 & Hfs4).
    destruct (os_Sync f d3) as [[[]|e|] d4]; simpl in Hnp4, Hf4, Hfs4; [| |done].
    + eexists _, _, record. split_and!; [done| |done|by intros p [= <-]]. simpl.
      rewrite <-(app_nil_r record). eapply adds_trans; [done|by apply adds_same].
    + assert (adds f record d d4) as Ha4.
      { rewrite <-(app_nil_r record). eapply adds_trans; [done|by apply adds_same]. }
      destruct (@cleanup_ends () f true record d d4 (Wrapf "sync file" e) Ha4) as (bs' & d5 & -> & Ha5).
      eexists _, _, bs'. by split_and!.
  - rewrite bool_decide_true by eauto. cbn [orb].
    destruct (@cleanup_ends Z f sync _ d d3 (Wrapf "write record" e) Ha) as (bs' & d5 & -> & Ha5).
    eexists _, _, bs'. by split_and!.
Qed.

(** ** The manager's invariant and limits *)

(** The current file is the last one and [curSize] is its size. *)
Record bfm_ok (bfm : BlockFileManager) : Prop := {
  ok_magic : length (bfm_magic bfm) = 4%nat;
  ok_cur : 0 ≤ bfm_curFile bfm;
  ok_size : bfm_curSize bfm = len (file_data (bfm_dir bfm) (BlkFile (bfm_curFile bfm)));
  ok_max : bfm_curSize bfm ≤ maxBlockFileSize;
  ok_last : ∀ i, bfm_curFile bfm < i → dk_files (bfm_dir bfm) !! BlkFile i = None;
  ok_first : ∀ i, 0 ≤ i < bfm_curFile bfm → is_Some (dk_files (bfm_dir bfm) !! BlkFile i)
}.

(** Fewer than 2^32 - 1 files, rev files smaller than 4 GiB: file numbers and
    positions fit the [uint32] fields of the index. *)
Definition limits (d : disk) : Prop :=
  Z.of_nat (size (dk_files d)) < 2 ^ 32 - 1 ∧
  ∀ n bs, dk_files d !! RevFile n = Some bs → len bs < 2 ^ 32.

Lemma limits_grows d d' : grows d d' → limits d' → limits d.
Proof.
  intros Hg [Hs Hr]. split.
  - assert (dom (dk_files d) ⊆ dom (dk_files d')) as Hsub.
    { intros f [c Hc]%elem_of_dom. destruct (Hg _ _ Hc) as [m Hm]. apply elem_of_dom. eauto. }
    apply subseteq_size in Hsub. rewrite !size_dom in Hsub. lia.
  - intros n bs H. destruct (Hg _ _ H) as [m Hm]. specialize (Hr _ _ Hm).
    rewrite length_app in Hr. lia.
Qed.

Lemma files_count (m : gmap dat_file (list byte)) n :
  (∀ i, 0 ≤ i < n → is_Some (m !! BlkFile i)) → n ≤ Z.of_nat (size m).
Proof.
  intros H. destruct (decide (n ≤ 0)); [lia|].
  assert (NoDup (BlkFile <$> seqZ 0 n)) as Hnd.
  { apply NoDup_fmap_2; [by intros ? ? [=]|apply NoDup_seqZ]. }
  assert (list_to_set (BlkFile <$> seqZ 0 n) ⊆ dom m) as Hsub.
  { intros f Hf%elem_of_list_to_set. apply list_elem_of_fmap in Hf as (i & -> & Hi%elem_of_seqZ).
    apply elem_of_dom, H. lia. }
  apply subseteq_size in Hsub. rewrite size_list_to_set, length_fmap, length_seqZ, size_dom in Hsub by done.
  lia.
Qed.

Lemma scan_files_spec fuel i bfm n :
  (∀ k, 0 ≤ k → is_Some (dk_files (bfm_dir bfm) !! BlkFile k) ↔ k ≤ n) →
  0 ≤ i ≤ n + 1 → 0 ≤ n → n + 1 - i < Z.of_nat fuel →
  (0 < i → bfm_curFile bfm = i - 1 ∧ bfm_curSize bfm = len (file_data (bfm_dir bfm) (BlkFile (i - 1)))) →
  scan_files fuel i bfm = set_cur n (len (file_data (bfm_dir bfm) (BlkFile n))) bfm.
Proof.
  revert i bfm. induction fuel as [|fuel IH]; intros i bfm Hex Hi Hn Hfuel Hcur; [lia|].
  cbn [scan_files]. destruct (dk_files (bfm_dir bfm) !! BlkFile i) as [bs|] eqn:Hf.
  - assert (i ≤ n) by (apply Hex; [lia|by eauto]). rewrite IH; [done|done|lia|lia|lia|].
    intros _. simpl. replace (i + 1 - 1) with i by lia. unfold file_data. by rewrite Hf.
  - assert (i = n + 1) as ->.
    { destruct (decide (i ≤ n)) as [Hle|]; [|lia].
      destruct (proj2 (Hex i ltac:(lia)) Hle) as [? Hs]. by rewrite Hf in Hs. }
    rewrite (proj2 (Z.eqb_neq _ _)) by lia. destruct Hcur as [Hc1 Hc2]; [lia|].
    replace (n + 1 - 1) with n in * by lia. destruct bfm as [d m cf csz]. simpl in *.
    unfold set_cur. simpl. by rewrite Hc1, Hc2.
Qed.

Lemma rotate_same frameSize bfm :
  bfm_dir (rotate frameSize bfm) = bfm_dir bfm ∧
  bfm_magic (rotate frameSize bfm) = bfm_magic bfm.
Proof. unfold rotate. by destruct (_ && _). Qed.

Lemma rotate_ok frameSize bfm :
  bfm_ok bfm → frameSize ≤ maxBlockFileSize → bfm_curFile bfm + 1 < 2 ^ 32 →
  bfm_ok (rotate frameSize bfm) ∧
  bfm_curSize (rotate frameSize bfm) + frameSize ≤ maxBlockFileSize.
Proof.
  intros [Hm Hc Hs Hmax Hl Hf] Hfr Hlim. unfold rotate.
  destruct (Z.ltb_spec 0 (bfm_curSize bfm)) as [Hp|Hp]; cbn [andb];
    [destruct (Z.ltb_spec maxBlockFileSize (bfm_curSize bfm + frameSize))|].
  - rewrite (u32_id (_ + 1)) by (unfold is_u32; lia). split; [|simpl; lia].
    split; simpl; [done|lia| |unfold maxBlockFileSize; lia|intros; apply Hl; lia|].
    + unfold file_data. by rewrite Hl by lia.
    + intros i Hi. destruct (decide (i = bfm_curFile bfm)) as [->|]; [|apply Hf; lia].
      unfold file_data in Hs. destruct (dk_files (bfm_dir bfm) !! _); [done|simpl in Hs; lia].
  - split; [done|lia].
  - split; [done|]. lia.
Qed.

Lemma append_block_grows sync data bfm :
  grows (bfm_dir bfm) (bfm_dir (append_block sync data bfm).2) ∧
  bfm_magic (append_block sync data bfm).2 = bfm_magic bfm ∧
  dk_faults (bfm_dir (append_block sync data bfm).2) = dk_faults (bfm_dir bfm) ∧
  (append_block sync data bfm).1 ≠ Panic.
Proof.
  unfold append_block, mbind, proc_bind, modify, gets, on. cbn -[append_record].
  destruct (append_record_ends (BlkFile (bfm_curFile (rotate (8 + len data) bfm))) sync
    (frame (bfm_magic (rotate (8 + len data) bfm)) data) (bfm_dir (rotate (8 + len data) bfm)))
    as (r & d' & bs & -> & Ha & Hnp & _).
  destruct (rotate_same (8 + len data) bfm) as [Hd Hmg].
  rewrite Hd in Ha. pose proof (adds_grows _ _ _ _ Ha). destruct Ha as [Hf _].
  by destruct r; simpl; rewrite ?Hmg.
Qed.

Lemma append_block_spec sync data bfm r bfm' :
  append_block sync data bfm = (r, bfm') → bfm_ok bfm → reliable (bfm_dir bfm) →
  limits (bfm_dir bfm') → len data ≤ maxBlockFileSize - 8 →
  ∃ file pre, r = Ok (file, len pre, len data) ∧ bfm_ok bfm' ∧
    dk_files (bfm_dir bfm') !! BlkFile file = Some (pre ++ frame (bfm_magic bfm) data) ∧
    is_u32 file ∧ is_u32 (len pre).
Proof.
  intros Heq Hok Hrel Hlim Hlen.
  destruct (append_block_grows sync data bfm) as (Hg & _). rewrite Heq in Hg. simpl in Hg.
  pose proof (limits_grows _ _ Hg Hlim) as [Hsz _].
  pose proof (files_count _ _ (ok_first _ Hok)) as Hcount.
  destruct (rotate_ok (8 + len data) bfm) as [Hok1 Hfit]; [done|lia|lia|].
  unfold append_block, mbind, proc_bind, modify, gets, on in Heq. cbn -[append_record] in Heq.
  destruct (rotate_same (8 + len data) bfm) as [Hd Hmg].
  set (b1 := rotate (8 + len data) bfm) in *.
  destruct (append_record_reliable (BlkFile (bfm_curFile b1)) sync
    (frame (bfm_magic b1) data) (bfm_dir b1)) as [n Hn]; [by rewrite Hd|].
  rewrite Hn in Heq. simpl in Heq. injection Heq as <- <-.
  pose proof (ok_size _ Hok1) as Hs1. pose proof (ok_max _ Hok1) as Hmax1.
  exists (bfm_curFile b1), (file_data (bfm_dir b1) (BlkFile (bfm_curFile b1))).
  assert (is_u32 (bfm_curSize b1)) by (unfold is_u32, maxBlockFileSize in *; lia).
  rewrite (u32_id (bfm_curSize b1)), (u32_len_small data), Hs1 by (done || lia).
  split_and!; [done| | |..]; simpl.
  - destruct Hok1 as [Hm1 Hc1 _ _ Hl1 Hf1].
    assert (len (frame (bfm_magic b1) data) = 8 + len data) as Hfl.
    { unfold frame. len_simpl. lia. }
    split; simpl.
    + done.
    + done.
    + unfold file_data at 2. simpl. rewrite lookup_insert_eq. simpl. rewrite length_app. lia.
    + lia.
    + intros i Hi. rewrite lookup_insert_ne by (intros [=]; lia). by apply Hl1.
    + intros i Hi. rewrite lookup_insert_ne by (intros [=]; lia). by apply Hf1.
  - by rewrite lookup_insert_eq, Hmg.
  - destruct Hok1 as [_ Hc1 _ _ _ Hf1]. pose proof (files_count _ _ Hf1) as Hc2.
    rewrite Hd in Hc2. unfold is_u32. lia.
  - by rewrite <-Hs1.
Qed.

Lemma append_undo_grows sync fileNum data bfm :
  grows (bfm_dir bfm) (bfm_dir (append_undo sync fileNum data bfm).2) ∧
  bfm_magic (append_undo sync fileNum data bfm).2 = bfm_magic bfm ∧
  dk_faults (bfm_dir (append_undo sync fileNum data bfm).2) = dk_faults (bfm_dir bfm) ∧
  (append_undo sync fileNum data bfm).1 ≠ Panic.
Proof.
  unfold append_undo, mbind, proc_bind, gets, on. cbn -[append_record].
  destruct (append_record_ends (RevFile fileNum) sync (undo_record (bfm_magic bfm) data) (bfm_dir bfm))
    as (r & d' & bs & -> & Ha & Hnp & _).
  pose proof (adds_grows _ _ _ _ Ha). destruct Ha as [Hf _]. by destruct r.
Qed.

Lemma append_undo_spec sync fileNum data bfm r bfm' :
  append_undo sync fileNum data bfm = (r, bfm') → bfm_ok bfm → reliable (bfm_dir bfm) →
  limits (bfm_dir bfm') →
  ∃ pre, r = Ok (len pre, u32 (len data)) ∧ bfm_ok bfm' ∧
    dk_files (bfm_dir bfm') !! RevFile fileNum = Some (pre ++ undo_record (bfm_magic bfm) data).
Proof.
  intros Heq [Hm Hc Hs Hmax Hl Hf] Hrel [_ Hlim].
  unfold append_undo, mbind, proc_bind, gets, on in Heq. cbn -[append_record] in Heq.
  destruct (append_record_reliable (RevFile fileNum) sync (undo_record (bfm_magic bfm) data)
    (bfm_dir bfm) Hrel) as [n Hn].
  rewrite Hn in Heq. simpl in Heq. injection Heq as <- <-.
  exists (file_data (bfm_dir bfm) (RevFile fileNum)). simpl in *.
  specialize (Hlim fileNum _ (lookup_insert_eq _ _ _)). rewrite length_app in Hlim.
  rewrite u32_id by (unfold is_u32; lia). split_and!; [done| |by rewrite lookup_insert_eq].
  split; simpl; try done.
  - unfold file_data in *. simpl. by rewrite lookup_insert_ne by done.
  - intros i Hi. rewrite lookup_insert_ne by done. by apply Hl.
  - intros i Hi. rewrite lookup_insert_ne by done. by apply Hf.
Qed.

Lemma ReadBlock_at bfm fileNum pre b post :
  length (bfm_magic bfm) = 4%nat → wf_block b →
  len (Block_Serialize b) ≤ maxBlockFileSize →
  dk_files (bfm_dir bfm) !! BlkFile fileNum
    = Some (pre ++ frame (bfm_magic bfm) (Block_Serialize b) ++ post) →
  bfm_ReadBlock bfm fileNum (len pre) (len (Block_Serialize b)) = Ok b.
Proof.
  intros Hm Hb Hl Hf. unfold bfm_ReadBlock. rewrite Hf, read_frame_at by auto.
  cbn [mbind res_bind fst]. pose proof (Block_decodes b [] Hb) as Hd.
  rewrite app_nil_r in Hd. by rewrite Hd.
Qed.

Lemma ReadUndo_at bfm fileNum pre data post :
  length (bfm_magic bfm) = 4%nat → len data ≤ maxBlockFileSize →
  dk_files (bfm_dir bfm) !! RevFile fileNum
    = Some (pre ++ undo_record (bfm_magic bfm) data ++ post) →
  bfm_ReadUndo bfm fileNum (len pre) (u32 (len data)) = Ok data.
Proof.
  intros Hm Hl Hf. unfold bfm_ReadUndo, undo_record in *. rewrite Hf.
  rewrite u32_len_small, <-(app_assoc (frame _ _)), read_frame_at by auto.
  cbn [mbind res_bind]. pose proof (DoubleSHA256_wf data : length _ = HashSize) as Hck.
  rewrite <-Hck at 1. rewrite ReadFull_app.
  cbn [wrap mbind res_bind]. by rewrite bool_decide_true.
Qed.

(** ** Properties *)

(** On a disk that does not fail, [WriteBlock] returns a location from which
    [ReadBlock] reads the block back, and the manager stays well formed, as long
    as the files stay within the limits of the index fields. *)
Theorem WriteBlock_ReadBlock b bfm r bfm' :
  bfm_WriteBlock b bfm = (r, bfm') → bfm_ok bfm → reliable (bfm_dir bfm) →
  limits (bfm_dir bfm') → wf_block b → len (Block_Serialize b) ≤ maxBlockFileSize - 8 →
  bfm_ok bfm' ∧
  ∃ file off size, r = Ok (file, off, size) ∧ bfm_ReadBlock bfm' file off size = Ok b.
Proof.
  intros Heq Hok Hrel Hlim Hb Hl. pose proof (append_block_grows true (Block_Serialize b) bfm) as Hg.
  unfold bfm_WriteBlock, Block_SerializeToBytes in Heq. rewrite Heq in Hg. destruct Hg as (_ & Hmg & _).
  destruct (append_block_spec _ _ _ _ _ Heq Hok Hrel Hlim Hl) as (file & pre & -> & Hok' & Hf & _).
  split; [done|]. eexists _, _, _. split; [done|]. simpl in Hmg.
  apply (ReadBlock_at bfm' file pre b []); [by rewrite Hmg; apply Hok|done|lia|].
  by rewrite Hmg, app_nil_r.
Qed.

(** Whatever calls of the operating system fail, and wherever a write stops,
    no write of a block or of undo data, successful or not, changes what is read
    at a location that was readable before. *)
Theorem stored_data_survives sync bfm data fileNum :
  ∀ bfm', bfm' ∈ [(append_block sync data bfm).2; (append_undo sync fileNum data bfm).2] →
  (∀ n off size b, bfm_ReadBlock bfm n off size = Ok b → bfm_ReadBlock bfm' n off size = Ok b) ∧
  (∀ n off size u, bfm_ReadUndo bfm n off size = Ok u → bfm_ReadUndo bfm' n off size = Ok u).
Proof.
  intros bfm' Hin. assert (grows (bfm_dir bfm) (bfm_dir bfm') ∧ bfm_magic bfm' = bfm_magic bfm) as [Hg Hm].
  { destruct (append_block_grows sync data bfm) as (? & ? & _).
    destruct (append_undo_grows sync fileNum data bfm) as (? & ? & _). set_solver. }
  split; intros; [by eapply ReadBlock_grows|by eapply ReadUndo_grows].
Qed.

(** Undo data written by [WriteUndo] on a disk that does not fail is read back
    by [ReadUndo], up to the maximal size; larger undo data is written without
    an error but can never be read. *)
Theorem WriteUndo_ReadUndo fileNum data bfm r bfm' :
  bfm_WriteUndo fileNum data bfm = (r, bfm') → bfm_ok bfm → reliable (bfm_dir bfm) →
  limits (bfm_dir bfm') →
  ∃ off size, r = Ok (off, size) ∧ bfm_ok bfm' ∧
  (bfm_ReadUndo bfm' fileNum off size = Ok data ↔ len data ≤ maxBlockFileSize).
Proof.
  intros Heq Hok Hrel Hlim. pose proof (append_undo_grows true fileNum data bfm) as Hg.
  unfold bfm_WriteUndo in Heq. rewrite Heq in Hg. destruct Hg as (_ & Hmg & _). simpl in Hmg.
  destruct (append_undo_spec _ _ _ _ _ _ Heq Hok Hrel Hlim) as (pre & -> & Hok' & Hf).
  eexists _, _. split_and!; [done..|]. split.
  - unfold bfm_ReadUndo. rewrite Hf. intros H. apply bind_Ok in H as ([d rest] & Hr & H).
    unfold read_frame in Hr. res_inv.
    match goal with H : ReadFull (Z.to_nat _) _ = _ |- _ => apply ReadFull_Ok in H as [-> Hd] end.
    match goal with H : (maxBlockFileSize <? _) = false |- _ => apply Z.ltb_ge in H end.
    match goal with H : length _ = Z.to_nat (le_decode ?x) |- _ => pose proof (le_decode_range x) end.
    lia.
  - intros Hs. apply (ReadUndo_at bfm' fileNum pre data []); [by rewrite Hmg; apply Hok|done|].
    by rewrite Hmg, app_nil_r.
Qed.

(** Reopening the directory restores the manager: the scan for the highest
    block file terminates and finds the current file and its size. *)
Theorem NewBlockFileManager_resumes bfm :
  bfm_ok bfm → is_Some (dk_files (bfm_dir bfm) !! BlkFile (bfm_curFile bfm)) →
  NewBlockFileManager (bfm_dir bfm) (bfm_magic bfm) = bfm.
Proof.
  intros [Hm Hc Hs Hmax Hl Hf] Hcur. unfold NewBlockFileManager.
  assert (∀ k, 0 ≤ k → is_Some (dk_files (bfm_dir bfm) !! BlkFile k) ↔ k ≤ bfm_curFile bfm) as Hex.
  { intros k Hk. split.
    - intros [? H]. destruct (decide (k ≤ bfm_curFile bfm)); [done|]. by rewrite Hl in H by lia.
    - intros Hle. destruct (decide (k = bfm_curFile bfm)) as [->|]; [done|]. apply Hf. lia. }
  assert (bfm_curFile bfm + 1 ≤ Z.of_nat (size (dk_files (bfm_dir bfm)))).
  { apply files_count. intros i Hi. apply Hex; lia. }
  rewrite (scan_files_spec _ _ _ (bfm_curFile bfm)); [|done|lia..].
  destruct bfm. unfold set_cur. simpl in *. by rewrite Hs.
Qed.

(** [WriteBlock] returns the size it has counted, not the position it wrote
    at.  When a write is cut short and the truncation that should repair it
    fails too, the next block is stored, without an error, at a location where
    it cannot be read. *)
Theorem failed_truncate_misplaces_block :
  let faults n := match n with 2 => IoShort 3 | 3 => IoFail | _ => IoOk end%nat in
  let bfm0 := NewBlockFileManager (mkDisk ∅ faults 0) [xfa; x1c; xc0; x01] in
  let bfm1 := (bfm_WriteBlock sample_block bfm0).2 in
  let '(r2, bfm2) := bfm_WriteBlock sample_block bfm1 in
  is_err (bfm_WriteBlock sample_block bfm0).1 = true ∧
  ∃ file off size, r2 = Ok (file, off, size) ∧
    is_err (bfm_ReadBlock bfm2 file off size) = true.
Proof.
  cbv zeta. destruct (bfm_WriteBlock sample_block (bfm_WriteBlock sample_block _).2) as [r2 bfm2] eqn:E.
  split; [by vm_compute|]. vm_compute in E. injection E as <- <-. eexists _, _, _.
  split; [done|]. by vm_compute.
Qed.

(** ** Witnesses *)

Definition w_disk : disk := mkDisk ∅ (λ _, IoOk) 0.
Definition w_bfm : BlockFileManager := NewBlockFileManager w_disk [xfa; x1c; xc0; x01].

Lemma w_bfm_ok : bfm_ok w_bfm.
Proof.
  split; try done; intros i Hi.
  assert (bfm_curFile w_bfm = 0) as H0 by done. lia.
Qed.

Lemma w_limits (bfm : BlockFileManager) :
  bool_decide (Z.of_nat (size (dk_files (bfm_dir bfm))) < 2 ^ 32 - 1) = true →
  bool_decide (map_Forall (λ _ bs, len bs < 2 ^ 32) (dk_files (bfm_dir bfm))) = true →
  limits (bfm_dir bfm).
Proof.
  intros H1%bool_decide_eq_true H2%bool_decide_eq_true. split; [done|].
  intros n bs H. exact (H2 _ _ H).
Qed.

Lemma WriteBlock_ReadBlock_witness :
  ∃ file off size, (bfm_WriteBlock sample_block w_bfm).1 = Ok (file, off, size) ∧
    bfm_ReadBlock (bfm_WriteBlock sample_block w_bfm).2 file off size = Ok sample_block.
Proof.
  apply (WriteBlock_ReadBlock sample_block w_bfm _ _ (surjective_pairing _)).
  - apply w_bfm_ok.
  - done.
  - apply w_limits; vm_compute; done.
  - by_decide.
  - vm_compute. done.
Defined.

Lemma stored_data_survives_witness :
  let bfm1 := (bfm_WriteBlock sample_block w_bfm).2 in
  bfm_ReadBlock bfm1 0 0 (len (Block_Serialize sample_block)) = Ok sample_block ∧
  bfm_ReadBlock (append_undo true 0 [x07] bfm1).2 0 0 (len (Block_Serialize sample_block))
    = Ok sample_block.
Proof.
  intros bfm1. assert (bfm_ReadBlock bfm1 0 0 (len (Block_Serialize sample_block)) = Ok sample_block)
    as H0 by (vm_compute; done).
  split; [exact H0|]. apply (stored_data_survives true bfm1 [x07] 0); [|exact H0].
  apply list_elem_of_further, list_elem_of_singleton. reflexivity.
Defined.

Lemma WriteUndo_ReadUndo_witness :
  ∃ off size, (bfm_WriteUndo 0 [x01; x02] w_bfm).1 = Ok (off, size) ∧
    bfm_ok (bfm_WriteUndo 0 [x01; x02] w_bfm).2 ∧
    (bfm_ReadUndo (bfm_WriteUndo 0 [x01; x02] w_bfm).2 0 off size = Ok [x01; x02]
      ↔ len [x01; x02] ≤ maxBlockFileSize).
Proof.
  apply (WriteUndo_ReadUndo 0 [x01; x02] w_bfm _ _ (surjective_pairing _)).
  - apply w_bfm_ok.
  - done.
  - apply w_limits; vm_compute; done.
Defined.

Lemma NewBlockFileManager_resumes_witness :
  let bfm1 := (bfm_WriteBlock sample_block w_bfm).2 in
  NewBlockFileManager (bfm_dir bfm1) (bfm_magic bfm1) = bfm1.
Proof.
  intros bfm1. apply (NewBlockFileManager_resumes bfm1); [|by eexists; vm_compute].
  assert (bfm_curFile bfm1 = 0) as H0 by (vm_compute; reflexivity).
  split; [done|lia|by vm_compute|by vm_compute| |intros i Hi; lia].
  intros i Hi. rewrite H0 in Hi. by destruct i.
Defined.
