(* ===== verification/Store.v ===== *)
(** * internal/store: the block index, the chainstate and the file store

    blockindex.go, chainstate.go and filestore.go over the flat files of file
    BlockFiles.  LevelDB is third-party code: the class [LevelDB] has the
    operations that are called and [LevelDBLaws] what is relied upon, a finite
    map with atomic batches.

    [BlockStore] is the interface of store.go, with the operations the chain
    manager calls, and [BlockStoreLaws] what it promises to the chain manager;
    the file store implements it. *)
From S2P Require Import Prelude Types Sha256 Target Utxo BlockFiles.

(** ** Records of the block index *)

Definition StatusValidHeader : Z := 1.
Definition StatusValidTree : Z := 2.
Definition StatusValidTx : Z := 4.
Definition StatusValidChain : Z := 8.
Definition StatusHaveData : Z := 16.
Definition StatusHaveUndo : Z := 32.

Record DiskBlockIndex : Type := mkDiskBlockIndex {
  dbi_Header : BlockHeader;
  dbi_Height : Z;
  dbi_Status : Z;
  dbi_TxCount : Z;
  dbi_FileNum : Z;
  dbi_DataPos : Z;
  dbi_DataSize : Z;
  dbi_UndoFile : Z;
  dbi_UndoPos : Z;
  dbi_UndoSize : Z;
  dbi_ChainWork : option Z
}.

(** [copy(workBytes[32-len(b):], b)] panics on more than 32 bytes. *)
Definition work_bytes (work : option Z) : res (list byte) :=
  match work with
  | None => Ok (replicate 32 x00)
  | Some w =>
      let b := big_Bytes w in
      if 32 <? len b then Panic else Ok (replicate (32 - length b) x00 ++ b)
  end.

Definition DiskBlockIndex_Serialize (d : DiskBlockIndex) : res (list byte) :=
  workBytes ← work_bytes (dbi_ChainWork d);
  mret (le_encode 4 (dbi_Height d) ++ le_encode 4 (dbi_Status d) ++
        le_encode 4 (dbi_TxCount d) ++ le_encode 4 (dbi_FileNum d) ++
        le_encode 4 (dbi_DataPos d) ++ le_encode 4 (dbi_DataSize d) ++
        le_encode 4 (dbi_UndoFile d) ++ le_encode 4 (dbi_UndoPos d) ++
        le_encode 4 (dbi_UndoSize d) ++
        BlockHeader_SerializeToBytes (dbi_Header d) ++ workBytes).

(** [binary.Read] of a [uint32]. *)
Definition read_u32 : reader Z := bs ← ReadFull 4; mret (le_decode bs).

Definition DiskBlockIndex_read : reader DiskBlockIndex :=
  height ← read_u32; status ← read_u32; txCount ← read_u32;
  fileNum ← read_u32; dataPos ← read_u32; dataSize ← read_u32;
  undoFile ← read_u32; undoPos ← read_u32; undoSize ← read_u32;
  header ← read_wrap "deserialize header" BlockHeader_Deserialize;
  work ← read_wrap "read chain work" (ReadFull 32);
  mret (mkDiskBlockIndex header height status txCount fileNum dataPos dataSize
          undoFile undoPos undoSize (Some (be_decode work))).

Definition DeserializeDiskBlockIndex (data : list byte) : res DiskBlockIndex :=
  if len data <? 36 + 80 + 32 then Err (Errorf "disk block index too short") else
  fst <$> DiskBlockIndex_read data.

(** ** LevelDB *)

Inductive batch_op : Type :=
| BatchPut (key value : list byte)
| BatchDelete (key : list byte).

Class LevelDB : Type := {
  db : Type;
  db_Get : db → list byte → error + list byte;
  db_Has : db → list byte → error + bool;
  (** the flag is [WriteOptions.Sync] *)
  db_Put : bool → list byte → list byte → db → (error + ()) * db;
  db_Delete : bool → list byte → db → (error + ()) * db;
  db_Write : bool → list batch_op → db → (error + ()) * db;
  db_CompactRange : db → (error + ()) * db;
  (** the entries an iterator over a prefix gives, and its final error *)
  db_Iterate : db → list byte → list (list byte * list byte) * option error
}.

Abbreviation kvmap := (gmap (list byte) (list byte)).

Definition apply_op (m : kvmap) (op : batch_op) : kvmap :=
  match op with
  | BatchPut k v => <[k := v]> m
  | BatchDelete k => delete k m
  end.

(** A healthy database is a finite map. [db_ok] says that its device works. *)
Class LevelDBLaws `{LevelDB} : Type := {
  db_map : db → kvmap;
  db_ok : db → Prop;
  db_Get_ok d k : db_ok d →
    match db_map d !! k with
    | Some v => db_Get d k = inr v
    | None => ∃ e, db_Get d k = inl e
    end;
  db_Has_ok d k : db_ok d → db_Has d k = inr (bool_decide (is_Some (db_map d !! k)));
  db_Put_ok sync k v d : db_ok d → ∃ d', db_Put sync k v d = (inr (), d') ∧
    db_ok d' ∧ db_map d' = <[k := v]> (db_map d);
  db_Delete_ok sync k d : db_ok d → ∃ d', db_Delete sync k d = (inr (), d') ∧
    db_ok d' ∧ db_map d' = delete k (db_map d);
  db_Write_ok sync ops d : db_ok d → ∃ d', db_Write sync ops d = (inr (), d') ∧
    db_ok d' ∧ db_map d' = foldl apply_op (db_map d) ops;
  db_CompactRange_ok d : db_ok d → ∃ d', db_CompactRange d = (inr (), d') ∧
    db_ok d' ∧ db_map d' = db_map d;
  db_Iterate_ok d prefix : db_ok d → ∃ l, db_Iterate d prefix = (l, None) ∧
    NoDup l.*1 ∧
    ∀ k v, (k, v) ∈ l ↔ db_map d !! k = Some v ∧ prefix `prefix_of` k
}.

(** A third-party call as a method of the model. *)
Definition dbcall {S A} (f : S → (error + A) * S) : proc S A :=
  λ s, let '(r, s') := f s in (lib r, s').

Section store.
Context `{LevelDB}.

(** ** The block index *)

Definition blockIndexKey (hash : Hash) : list byte := x62 :: hash.
Definition fileInfoKey (fileNum : Z) : list byte := x66 :: le_encode 4 fileNum.
Definition keyLastFile : list byte := [x6c].
Definition keyChainTip : list byte := [x54].

Definition bi_Put (sync : bool) (hash : Hash) (rec : DiskBlockIndex) : proc db () :=
  data ← pure (DiskBlockIndex_Serialize rec);
  dbcall (db_Put sync (blockIndexKey hash) data).

Definition bi_GetBlockIndex (d : db) (hash : Hash) : res DiskBlockIndex :=
  data ← wrap "get block index" (lib (db_Get d (blockIndexKey hash)));
  DeserializeDiskBlockIndex data.

(** The entries handed to [fn], which does not fail, and the final error. *)
Fixpoint index_entries (kvs : list (list byte * list byte)) (err : option error)
    : list (Hash * DiskBlockIndex) * option error :=
  match kvs with
  | [] => ([], err)
  | (key, value) :: kvs' =>
      if negb (len key =? 1 + 32) then index_entries kvs' err else
      match DeserializeDiskBlockIndex value with
      | Ok rec => let '(l, e) := index_entries kvs' err in ((drop 1 key, rec) :: l, e)
      | Err e => ([], Some (Wrapf "deserialize block index entry" e))
      | Panic => ([], Some (Errorf "unreachable"))
      end
  end.
Definition bi_ForEachBlock (d : db) : list (Hash * DiskBlockIndex) * option error :=
  let '(kvs, err) := db_Iterate d [x62] in index_entries kvs err.

Definition PutLastFile (fileNum : Z) : proc db () :=
  dbcall (db_Put true keyLastFile (le_encode 4 fileNum)).
Definition GetLastFile (d : db) : res Z :=
  data ← lib (db_Get d keyLastFile);
  if len data <? 4 then Err (Errorf "corrupt last file data")
  else Ok (le_decode (slice 0 4 data)).

(** ** The chainstate *)

Definition utxoKey (txHash : Hash) (index : Z) : list byte := x43 :: txHash ++ le_encode 4 index.
Definition keyBestBlock : list byte := [x42].

(** The methods of [ChainstateWriteBatch]; a batch is the list of its calls. *)
Inductive wb_op : Type :=
| wb_PutUtxo (txHash : Hash) (index : Z) (data : list byte)
| wb_DeleteUtxo (txHash : Hash) (index : Z)
| wb_PutBestBlock (hash : Hash).
Definition wb_raw (op : wb_op) : batch_op :=
  match op with
  | wb_PutUtxo h i data => BatchPut (utxoKey h i) data
  | wb_DeleteUtxo h i => BatchDelete (utxoKey h i)
  | wb_PutBestBlock h => BatchPut keyBestBlock h
  end.
Definition cs_Flush (sync : bool) (wb : list wb_op) : proc db () :=
  dbcall (db_Write sync (wb_raw <$> wb)).

Definition cs_PutUtxo (txHash : Hash) (index : Z) (data : list byte) : proc db () :=
  dbcall (db_Put false (utxoKey txHash index) data).
Definition cs_GetUtxo (d : db) (txHash : Hash) (index : Z) : res (list byte) :=
  lib (db_Get d (utxoKey txHash index)).
Definition cs_DeleteUtxo (txHash : Hash) (index : Z) : proc db () :=
  dbcall (db_Delete false (utxoKey txHash index)).
Definition cs_HasUtxo (d : db) (txHash : Hash) (index : Z) : res bool :=
  lib (db_Has d (utxoKey txHash index)).

Definition cs_GetBestBlock (d : db) : res Hash :=
  data ← wrap "get best block" (lib (db_Get d keyBestBlock));
  if negb (len data =? 32) then Err (Errorf "corrupt best block data") else Ok data.
Definition cs_PutBestBlock (hash : Hash) : proc db () := dbcall (db_Put true keyBestBlock hash).

(** The calls of [fn] of [ForEachUtxo], and the iterator's final error. *)
Definition utxo_entries (kvs : list (list byte * list byte)) : list (Hash * Z * list byte) :=
  omap (λ kv, if len kv.1 =? 1 + 32 + 4
              then Some (slice 1 33 kv.1, le_decode (slice 33 37 kv.1), kv.2) else None) kvs.
Definition cs_ForEachUtxo (d : db) : list (Hash * Z * list byte) * option error :=
  let '(kvs, err) := db_Iterate d [x43] in (utxo_entries kvs, err).
Definition cs_Count (d : db) : res Z :=
  let '(kvs, err) := db_Iterate d [] in
  match err with
  | Some e => Err e
  | None => Ok (len (List.filter (λ kv, bool_decide (head kv.1 = Some x43)) kvs))
  end.

(** ** The file store *)

Record FileStore : Type := mkFileStore {
  fs_files : BlockFileManager;
  fs_index : db;
  fs_chainstate : db
}.

Definition set_files (f : BlockFileManager) (fs : FileStore) : FileStore :=
  mkFileStore f (fs_index fs) (fs_chainstate fs).
Definition set_index (i : db) (fs : FileStore) : FileStore :=
  mkFileStore (fs_files fs) i (fs_chainstate fs).
Definition set_chainstate (c : db) (fs : FileStore) : FileStore :=
  mkFileStore (fs_files fs) (fs_index fs) c.

Definition on_files {A} : proc BlockFileManager A → proc FileStore A := on fs_files set_files.
Definition on_index {A} : proc db A → proc FileStore A := on fs_index set_index.
Definition on_chainstate {A} : proc db A → proc FileStore A := on fs_chainstate set_chainstate.

Definition fs_PutChainTip (sync : bool) (hash : Hash) (height : Z) : proc FileStore () :=
  on_index (dbcall (db_Put sync keyChainTip (hash ++ be_encode 4 height))).

Definition fs_GetChainTip (fs : FileStore) : res (Hash * Z) :=
  data ← wrap "chain tip not set" (lib (db_Get (fs_index fs) keyChainTip));
  if negb (len data =? 32 + 4) then Err (Errorf "corrupt chain tip")
  else Ok (slice 0 32 data, be_decode (slice 32 36 data)).

Definition fs_GetBlock (fs : FileStore) (hash : Hash) : res Block :=
  rec ← wrap "block not found in index" (bi_GetBlockIndex (fs_index fs) hash);
  _ ← fail_if (Z.land (dbi_Status rec) StatusHaveData =? 0) (Errorf "block has no data on disk");
  block ← bfm_ReadBlock (fs_files fs) (dbi_FileNum rec) (dbi_DataPos rec) (dbi_DataSize rec);
  _ ← fail_if (negb (bool_decide (HashBlockHeader (blk_Header block) = hash)))
              (Errorf "block data integrity check failed");
  mret block.

Definition fs_GetHeader (fs : FileStore) (hash : Hash) : res BlockHeader :=
  rec ← wrap "header not found" (bi_GetBlockIndex (fs_index fs) hash);
  mret (dbi_Header rec).
End store.

(** ** The interface (store.go) *)

(** The operations the chain manager calls.  Where the interface has a method
    and its [NoSync] or [Batch] variant, the flag tells them apart: [true] is
    the method that syncs. *)
Class BlockStore (St : Type) : Type := {
  HasBlock : St → Hash → res bool;
  WriteBlock : bool → Hash → Block → proc St (Z * Z * Z);
  ReadBlock : St → Z → Z → Z → res Block;
  WriteUndo : bool → Z → list byte → proc St (Z * Z);
  ReadUndo : St → Z → Z → Z → res (list byte);
  SyncBlockFiles : proc St ();
  PutBlockIndex : bool → Hash → DiskBlockIndex → proc St ();
  FlushBlockIndex : proc St ();
  GetBlockIndex : St → Hash → res DiskBlockIndex;
  DeleteBlockIndex : Hash → proc St ();
  ForEachBlockIndex : St → list (Hash * DiskBlockIndex) * option error;
  GetChainTip : St → res (Hash * Z);
  PutChainTip : bool → Hash → Z → proc St ();
  FlushUtxoBatch : bool → list wb_op → proc St ();
  GetBestBlock : St → res Hash;
  ForEachUtxo : St → list (Hash * Z * list byte) * option error;
  GetBlock : St → Hash → res Block;
  GetHeader : St → Hash → res BlockHeader
}.

#[export] Instance FileStore_BlockStore `{LevelDB} : BlockStore FileStore := {
  HasBlock fs hash := lib (db_Has (fs_index fs) (blockIndexKey hash));
  WriteBlock sync hash block :=
    on_files (if sync then bfm_WriteBlock block else bfm_WriteBlockNoSync block);
  ReadBlock fs := bfm_ReadBlock (fs_files fs);
  WriteUndo sync fileNum data :=
    on_files (if sync then bfm_WriteUndo fileNum data else bfm_WriteUndoNoSync fileNum data);
  ReadUndo fs := bfm_ReadUndo (fs_files fs);
  SyncBlockFiles := on_files SyncAll;
  PutBlockIndex sync hash rec := on_index (bi_Put sync hash rec);
  FlushBlockIndex := on_index (dbcall db_CompactRange);
  GetBlockIndex fs := bi_GetBlockIndex (fs_index fs);
  DeleteBlockIndex hash := on_index (dbcall (db_Delete true (blockIndexKey hash)));
  ForEachBlockIndex fs := bi_ForEachBlock (fs_index fs);
  GetChainTip := fs_GetChainTip;
  PutChainTip := fs_PutChainTip;
  FlushUtxoBatch sync wb := on_chainstate (cs_Flush sync wb);
  GetBestBlock fs := cs_GetBestBlock (fs_chainstate fs);
  ForEachUtxo fs := cs_ForEachUtxo (fs_chainstate fs);
  GetBlock := fs_GetBlock;
  GetHeader := fs_GetHeader
}.

(** ** What the store promises *)

(** The records the chain manager stores: fields in range, a chain work of at
    most 256 bits. *)
Record wf_index (rec : DiskBlockIndex) : Prop := {
  wfi_header : wf_header (dbi_Header rec);
  wfi_fields : Forall is_u32
    [dbi_Height rec; dbi_Status rec; dbi_TxCount rec; dbi_FileNum rec; dbi_DataPos rec;
     dbi_DataSize rec; dbi_UndoFile rec; dbi_UndoPos rec; dbi_UndoSize rec];
  wfi_work : ∃ w, dbi_ChainWork rec = Some w ∧ 0 ≤ w < 2 ^ 256
}.

Definition wf_wb_op (op : wb_op) : Prop :=
  match op with
  | wb_PutUtxo h i _ | wb_DeleteUtxo h i => wf_hash h ∧ is_u32 i
  | wb_PutBestBlock h => wf_hash h
  end.

(** The effect of a batch on the entry of one output and on the best block. *)
Definition wb_utxo (k : list byte) (cur : option (list byte)) (op : wb_op) : option (list byte) :=
  match op with
  | wb_PutUtxo h i data => if bool_decide (k = OutpointKey h i) then Some data else cur
  | wb_DeleteUtxo h i => if bool_decide (k = OutpointKey h i) then None else cur
  | wb_PutBestBlock _ => cur
  end.
Definition wb_best (cur : option Hash) (op : wb_op) : option Hash :=
  match op with wb_PutBestBlock h => Some h | _ => cur end.

Definition res_option {A} (r : res A) : option A :=
  match r with Ok a => Some a | _ => None end.

Section promises.
Context {St : Type} `{BlockStore St}.

(** Blocks and undo data stay readable. *)
Definition keeps_files (st st' : St) : Prop :=
  (∀ f o s b, ReadBlock st f o s = Ok b → ReadBlock st' f o s = Ok b) ∧
  (∀ f o s u, ReadUndo st f o s = Ok u → ReadUndo st' f o s = Ok u).
Definition keeps_index (st st' : St) : Prop :=
  ∀ h, wf_hash h → res_option (GetBlockIndex st' h) = res_option (GetBlockIndex st h).
Definition keeps_tip (st st' : St) : Prop :=
  res_option (GetChainTip st') = res_option (GetChainTip st).
End promises.

(** [valid] is the consistency of a store on healthy devices, [fits] that the
    32-bit positions in the index suffice; a store that fits did so before. *)
Class BlockStoreLaws (St : Type) `{BlockStore St} : Type := {
  valid : St → Prop;
  fits : St → Prop;
  utxo_at : St → list byte → option (list byte);
  keeps_utxos (st st' : St) : Prop :=
    (∀ k, utxo_at st' k = utxo_at st k) ∧
    res_option (GetBestBlock st') = res_option (GetBestBlock st);

  GetBlock_Ok st h b : GetBlock st h = Ok b ↔ ∃ rec, GetBlockIndex st h = Ok rec ∧
    Z.land (dbi_Status rec) StatusHaveData ≠ 0 ∧
    ReadBlock st (dbi_FileNum rec) (dbi_DataPos rec) (dbi_DataSize rec) = Ok b ∧
    HashBlockHeader (blk_Header b) = h;
  GetHeader_Ok st h hdr : GetHeader st h = Ok hdr ↔
    ∃ rec, GetBlockIndex st h = Ok rec ∧ hdr = dbi_Header rec;
  ForEachBlockIndex_law st : valid st → ∃ l, ForEachBlockIndex st = (l, None) ∧
    ∀ h rec, (h, rec) ∈ l ↔ wf_hash h ∧ GetBlockIndex st h = Ok rec;
  ForEachUtxo_law st : valid st → ∃ l, ForEachUtxo st = (l, None) ∧
    ∀ h i data, (h, i, data) ∈ l ↔
      wf_hash h ∧ is_u32 i ∧ utxo_at st (OutpointKey h i) = Some data;
  utxo_at_key st k data : utxo_at st k = Some data → length k = 36%nat;

  WriteBlock_law sync h b st r st' : WriteBlock sync h b st = (r, st') →
    (fits st' → fits st) ∧
    (valid st → fits st' → wf_block b → len (Block_Serialize b) ≤ maxBlockFileSize - 8 →
     valid st' ∧ keeps_files st st' ∧ keeps_index st st' ∧ keeps_tip st st' ∧
     keeps_utxos st st' ∧ ∃ f o s, r = Ok (f, o, s) ∧ is_u32 f ∧ is_u32 o ∧ is_u32 s ∧
       ReadBlock st' f o s = Ok b);
  WriteUndo_law sync f data st r st' : WriteUndo sync f data st = (r, st') →
    (fits st' → fits st) ∧
    (valid st → fits st' →
     valid st' ∧ keeps_files st st' ∧ keeps_index st st' ∧ keeps_tip st st' ∧
     keeps_utxos st st' ∧ ∃ o s, r = Ok (o, s) ∧ is_u32 o ∧ is_u32 s ∧
       (len data ≤ maxBlockFileSize → ReadUndo st' f o s = Ok data));
  SyncBlockFiles_law st r st' : SyncBlockFiles st = (r, st') →
    (fits st' → fits st) ∧
    (valid st → valid st' ∧ keeps_files st st' ∧ keeps_index st st' ∧ keeps_tip st st' ∧
     keeps_utxos st st' ∧ r = Ok ());
  PutBlockIndex_law sync h rec st r st' : PutBlockIndex sync h rec st = (r, st') →
    (fits st' → fits st) ∧
    (valid st → wf_hash h → wf_index rec →
     valid st' ∧ keeps_files st st' ∧ keeps_tip st st' ∧ keeps_utxos st st' ∧ r = Ok () ∧
     GetBlockIndex st' h = Ok rec ∧
     ∀ h', wf_hash h' → h' ≠ h →
       res_option (GetBlockIndex st' h') = res_option (GetBlockIndex st h'));
  FlushBlockIndex_law st r st' : FlushBlockIndex st = (r, st') →
    (fits st' → fits st) ∧
    (valid st → valid st' ∧ keeps_files st st' ∧ keeps_index st st' ∧ keeps_tip st st' ∧
     keeps_utxos st st' ∧ r = Ok ());
  DeleteBlockIndex_law h st r st' : DeleteBlockIndex h st = (r, st') →
    (fits st' → fits st) ∧
    (valid st → wf_hash h →
     valid st' ∧ keeps_files st st' ∧ keeps_tip st st' ∧ keeps_utxos st st' ∧ r = Ok () ∧
     res_option (GetBlockIndex st' h) = None ∧
     ∀ h', wf_hash h' → h' ≠ h →
       res_option (GetBlockIndex st' h') = res_option (GetBlockIndex st h'));
  PutChainTip_law sync h n st r st' : PutChainTip sync h n st = (r, st') →
    (fits st' → fits st) ∧
    (valid st → wf_hash h → is_u32 n →
     valid st' ∧ keeps_files st st' ∧ keeps_index st st' ∧ keeps_utxos st st' ∧ r = Ok () ∧
     GetChainTip st' = Ok (h, n));
  FlushUtxoBatch_law sync wb st r st' : FlushUtxoBatch sync wb st = (r, st') →
    (fits st' → fits st) ∧
    (valid st → Forall wf_wb_op wb →
     valid st' ∧ keeps_files st st' ∧ keeps_index st st' ∧ keeps_tip st st' ∧ r = Ok () ∧
     (∀ k, utxo_at st' k = foldl (wb_utxo k) (utxo_at st k) wb) ∧
     res_option (GetBestBlock st') = foldl wb_best (res_option (GetBestBlock st)) wb)
}.

(** ** Encoding of index records *)

Lemma read_u32_decodes z : is_u32 z → decodes read_u32 (le_encode 4 z) z.
Proof.
  intros Hz. eapply decodes_bind_last; [apply decodes_ReadFull, le_encode_length|].
  rewrite le4_decode_encode by done. apply decodes_ret.
Qed.

Lemma big_Bytes_length w : 0 ≤ w < 2 ^ 256 → len (big_Bytes w) ≤ 32.
Proof.
  intros Hw. unfold big_Bytes. rewrite be_encode_length.
  assert (BitLen w ≤ 256) as Hb.
  { destruct (decide (w = 0)) as [->|]; [by vm_compute|].
    destruct (BitLen_bounds w) as [[Hlo _] _]; [lia|].
    destruct (decide (BitLen w ≤ 256)); [done|exfalso].
    assert (2 ^ 256 ≤ 2 ^ (BitLen w - 1)) by (apply Z.pow_le_mono_r; lia). lia. }
  assert ((BitLen w + 7) / 8 < 33) by (apply Z.div_lt_upper_bound; lia). lia.
Qed.

Lemma big_Bytes_decode w : 0 ≤ w → be_decode (big_Bytes w) = w.
Proof.
  intros Hw. unfold big_Bytes. rewrite be_decode_encode, Z.abs_eq by done.
  apply Z.mod_small. split; [done|]. destruct (decide (w = 0)) as [->|]; [apply Z.pow_pos_nonneg; lia|].
  destruct (BitLen_bounds w) as [[_ Hhi] Hpos]; [lia|]. rewrite pow256 by lia.
  apply Z.lt_le_trans with (2 ^ BitLen w); [lia|]. apply Z.pow_le_mono_r; [lia|].
  pose proof (Z.div_mod (BitLen w + 7) 8). pose proof (Z.mod_pos_bound (BitLen w + 7) 8).
  rewrite Z2Nat.id by (apply Z.div_pos; lia). lia.
Qed.

Lemma work_bytes_ok w :
  0 ≤ w < 2 ^ 256 →
  ∃ bs, work_bytes (Some w) = Ok bs ∧ length bs = 32%nat ∧ be_decode bs = w.
Proof.
  intros Hw. pose proof (big_Bytes_length w Hw) as Hl. unfold work_bytes.
  rewrite (proj2 (Z.ltb_ge _ _)) by done. eexists. split; [done|]. split.
  - rewrite length_app, length_replicate. lia.
  - rewrite be_decode_zeros. apply big_Bytes_decode. lia.
Qed.

Lemma DiskBlockIndex_decodes rec :
  wf_index rec → ∃ bs, DiskBlockIndex_Serialize rec = Ok bs ∧
    length bs = 148%nat ∧ decodes DiskBlockIndex_read bs rec.
Proof.
  intros [Hh Hf (w & Hw & Hr)]. destruct (work_bytes_ok w Hr) as (wb & Hwb & Hlen & Hdec).
  unfold DiskBlockIndex_Serialize. rewrite Hw, Hwb. cbn [mbind res_bind]. eexists. split; [done|].
  repeat (apply Forall_cons in Hf as [? Hf]). destruct rec as [hd h s t fn dp ds uf up us cw].
  cbn [dbi_Header dbi_Height dbi_Status dbi_TxCount dbi_FileNum dbi_DataPos dbi_DataSize
    dbi_UndoFile dbi_UndoPos dbi_UndoSize dbi_ChainWork] in *. subst cw. split.
  - len_simpl. pose proof (BlockHeader_length hd Hh) as Hhl. unfold BlockHeader_SerializeToBytes.
    rewrite Hhl, Hlen. done.
  - unfold DiskBlockIndex_read.
    do 9 (eapply decodes_bind; [by apply read_u32_decodes|]).
    eapply decodes_bind; [decode_step; by apply BlockHeader_decodes|].
    eapply decodes_bind_last; [decode_step; by apply decodes_ReadFull|].
    rewrite Hdec. apply decodes_ret.
Qed.

Lemma DiskBlockIndex_stored rec :
  wf_index rec → ∃ bs, DiskBlockIndex_Serialize rec = Ok bs ∧
    DeserializeDiskBlockIndex bs = Ok rec.
Proof.
  intros Hr. destruct (DiskBlockIndex_decodes rec Hr) as (bs & Hs & Hl & Hd).
  exists bs. split; [done|]. unfold DeserializeDiskBlockIndex. rewrite Hl.
  specialize (Hd []). rewrite app_nil_r in Hd. rewrite Hd. done.
Qed.

(** ** The file store keeps the promises *)

Section file_store.
Context `{LevelDBLaws}.

Record fs_valid (fs : FileStore) : Prop := {
  fv_files : bfm_ok (fs_files fs);
  fv_reliable : reliable (bfm_dir (fs_files fs));
  fv_index : db_ok (fs_index fs);
  fv_chainstate : db_ok (fs_chainstate fs);
  fv_records : ∀ h v, wf_hash h → db_map (fs_index fs) !! blockIndexKey h = Some v →
    ∃ rec, DeserializeDiskBlockIndex v = Ok rec
}.

Definition fs_utxo_at (fs : FileStore) (k : list byte) : option (list byte) :=
  if decide (length k = 36%nat) then db_map (fs_chainstate fs) !! (x43 :: k) else None.

Lemma bi_get_option d h :
  db_ok d → res_option (bi_GetBlockIndex d h)
    = (db_map d !! blockIndexKey h) ≫= λ v, res_option (DeserializeDiskBlockIndex v).
Proof.
  intros Hok. unfold bi_GetBlockIndex. pose proof (db_Get_ok d (blockIndexKey h) Hok) as Hg.
  destruct (db_map d !! blockIndexKey h) as [v|]; [by rewrite Hg|]. by destruct Hg as [e ->].
Qed.

Lemma get_tip_option fs :
  db_ok (fs_index fs) → res_option (fs_GetChainTip fs)
    = (db_map (fs_index fs) !! keyChainTip) ≫= λ data,
        if negb (len data =? 36) then None
        else Some (slice 0 32 data, be_decode (slice 32 36 data)).
Proof.
  intros Hok. unfold fs_GetChainTip. pose proof (db_Get_ok _ keyChainTip Hok) as Hg.
  destruct (db_map _ !! keyChainTip) as [v|]; [rewrite Hg; simpl|by destruct Hg as [e ->]].
  by destruct (negb _).
Qed.

Lemma get_best_option d :
  db_ok d → res_option (cs_GetBestBlock d)
    = (db_map d !! keyBestBlock) ≫= λ data, if negb (len data =? 32) then None else Some data.
Proof.
  intros Hok. unfold cs_GetBestBlock. pose proof (db_Get_ok _ keyBestBlock Hok) as Hg.
  destruct (db_map _ !! keyBestBlock) as [v|]; [rewrite Hg; simpl|by destruct Hg as [e ->]].
  by destruct (negb _).
Qed.

Lemma fs_keeps_refl fs : keeps_index fs fs ∧ keeps_tip fs fs ∧ keeps_files fs fs.
Proof. by split_and!; [intros ??| |split]. Qed.

(** An operation on the flat files leaves the databases alone. *)
Lemma on_files_valid {A} (m : proc BlockFileManager A) fs :
  fs_valid fs → bfm_ok (m (fs_files fs)).2 → reliable (bfm_dir (m (fs_files fs)).2) →
  fs_valid (on_files m fs).2.
Proof.
  intros [Hf Hr Hi Hc Hrec] Hok Hrel. unfold on_files, on. destruct (m (fs_files fs)) as [r f].
  by split.
Qed.

Lemma fs_GetBlock_Ok fs h b :
  fs_GetBlock fs h = Ok b ↔ ∃ rec, bi_GetBlockIndex (fs_index fs) h = Ok rec ∧
    Z.land (dbi_Status rec) StatusHaveData ≠ 0 ∧
    bfm_ReadBlock (fs_files fs) (dbi_FileNum rec) (dbi_DataPos rec) (dbi_DataSize rec) = Ok b ∧
    HashBlockHeader (blk_Header b) = h.
Proof.
  unfold fs_GetBlock. split.
  - intros Hg. res_inv. eexists. split_and!; [done|by apply Z.eqb_neq|done|].
    match goal with H : negb (bool_decide _) = false |- _ =>
      by apply negb_false_iff, bool_decide_eq_true in H end.
  - intros (rec & -> & Hs & Hr & Hh). cbn [wrap mbind res_bind].
    rewrite (proj2 (Z.eqb_neq _ _)) by done. cbn [fail_if mbind res_bind]. rewrite Hr.
    cbn [mbind res_bind]. by rewrite bool_decide_true.
Qed.

Lemma index_entries_ok kvs :
  (∀ h v, wf_hash h → (blockIndexKey h, v) ∈ kvs → ∃ rec, DeserializeDiskBlockIndex v = Ok rec) →
  Forall (λ kv, [x62] `prefix_of` kv.1) kvs →
  ∃ l, index_entries kvs None = (l, None) ∧
  ∀ h rec, (h, rec) ∈ l ↔
    wf_hash h ∧ ∃ v, (blockIndexKey h, v) ∈ kvs ∧ DeserializeDiskBlockIndex v = Ok rec.
Proof.
  induction kvs as [|[key v] kvs IH]; intros Hd Hp.
  { exists []. split; [done|]. intros h rec. split; [by intros ?%elem_of_nil|].
    by intros (_ & v & ?%elem_of_nil & _). }
  apply Forall_cons in Hp as [[h0 Hk] Hp]. simpl in Hk. subst key.
  destruct IH as (l & Hl & Hin); [intros; eapply Hd; [done|by right]|done|].
  cbn [index_entries length app]. destruct (Z.eqb_spec (Z.of_nat (S (length h0))) (1 + 32)) as [Hlen|Hlen];
    cbn [negb].
  - destruct (Hd h0 v) as [rec Hrec]; [unfold wf_hash, HashSize; lia|by left|].
    rewrite Hrec, Hl. eexists. split; [done|]. intros h rec'.
    change (drop 1 (x62 :: h0)) with h0. rewrite elem_of_cons, Hin. split.
    + intros [[= -> ->]|(Hh & v' & Hv & Hd')].
      * split; [unfold wf_hash, HashSize; lia|]. exists v. split; [by left|done].
      * split; [done|]. exists v'. split; [by right|done].
    + intros (Hh & v' & [[= -> ->]|Hv]%elem_of_cons & Hd'); [left; congruence|right; eauto].
  - exists l. split; [done|]. intros h rec. rewrite Hin. split.
    + intros (Hh & v' & Hv & Hd'). split; [done|]. exists v'. split; [by right|done].
    + intros (Hh & v' & [[= -> ->]|Hv]%elem_of_cons & Hd'); [|eauto].
      unfold wf_hash, HashSize in Hh. lia.
Qed.

Lemma fs_ForEachBlockIndex fs :
  fs_valid fs → ∃ l, bi_ForEachBlock (fs_index fs) = (l, None) ∧
    ∀ h rec, (h, rec) ∈ l ↔ wf_hash h ∧ bi_GetBlockIndex (fs_index fs) h = Ok rec.
Proof.
  intros [_ _ Hi _ Hrec]. unfold bi_ForEachBlock.
  destruct (db_Iterate_ok _ [x62] Hi) as (kvs & -> & _ & Hin).
  destruct (index_entries_ok kvs) as (l & Hl & Hmem).
  - intros h v Hh [Hv _]%Hin. by eapply Hrec.
  - apply Forall_forall. intros [k v] [_ Hp]%Hin. done.
  - exists l. split; [done|]. intros h rec. rewrite Hmem. apply and_iff_compat_l.
    pose proof (bi_get_option _ h Hi) as Hg. split.
    + intros (v & [Hv _]%Hin & Hd). rewrite Hv in Hg. simpl in Hg. rewrite Hd in Hg.
      destruct (bi_GetBlockIndex _ h); simpl in Hg; naive_solver.
    + intros Hget. rewrite Hget in Hg. simpl in Hg. symmetry in Hg.
      apply bind_Some in Hg as (v & Hv & Hd). exists v. rewrite Hin. split_and!; [done|by eexists|].
      destruct (DeserializeDiskBlockIndex v); simpl in Hd; naive_solver.
Qed.

Lemma fs_ForEachUtxo fs :
  fs_valid fs → ∃ l, cs_ForEachUtxo (fs_chainstate fs) = (l, None) ∧
    ∀ h i data, (h, i, data) ∈ l ↔
      wf_hash h ∧ is_u32 i ∧ fs_utxo_at fs (OutpointKey h i) = Some data.
Proof.
  intros [_ _ _ Hc _]. unfold cs_ForEachUtxo.
  destruct (db_Iterate_ok _ [x43] Hc) as (kvs & -> & _ & Hin).
  exists (utxo_entries kvs). split; [done|]. intros h i data. unfold utxo_entries.
  rewrite list_elem_of_omap. unfold fs_utxo_at. split.
  - intros ([key v] & [Hv [k ->]]%Hin & Hsome). cbn [fst snd app] in Hsome, Hv.
    destruct (_ =? _) eqn:Hlen in Hsome; [|done]. apply Z.eqb_eq in Hlen. cbn [length] in Hlen.
    injection Hsome as <- <- <-. change (slice 1 33 (x43 :: k)) with (slice 0 32 k).
    change (slice 33 37 (x43 :: k)) with (slice 32 36 k).
    assert (length (slice 0 32 k) = 32%nat) by (rewrite slice_length; lia).
    assert (length (slice 32 36 k) = 4%nat) by (rewrite slice_length; lia).
    split_and!; [done|by apply le4_range|].
    assert (OutpointKey (slice 0 32 k) (le_decode (slice 32 36 k)) = k) as ->.
    { unfold OutpointKey. rewrite le_encode_decode' by done. rewrite <-slice_split by lia.
      apply slice_all. lia. }
    by rewrite decide_True by lia.
  - intros (Hh & Hi & Hu). destruct (decide _) as [Hlen|]; [|done].
    exists (x43 :: OutpointKey h i, data). split; [apply Hin; split; [done|by eexists]|].
    cbn [fst snd length]. rewrite Hlen. change (Z.of_nat 37 =? 1 + 32 + 4) with true. cbn match.
    change (slice 1 33 (x43 :: OutpointKey h i)) with (slice 0 32 (OutpointKey h i)).
    change (slice 33 37 (x43 :: OutpointKey h i)) with (slice 32 36 (OutpointKey h i)).
    unfold OutpointKey. rewrite slice_app_take by done.
    rewrite (slice_app_skip _ _ 32) by (done || lia). cbn [Nat.sub].
    rewrite slice_all by apply le_encode_length. by rewrite le4_decode_encode.
Qed.

(** *** Calls on the flat files *)

Definition fs_fits (fs : FileStore) : Prop := limits (bfm_dir (fs_files fs)).
Definition fs_keeps_utxos (fs fs' : FileStore) : Prop :=
  (∀ k, fs_utxo_at fs' k = fs_utxo_at fs k) ∧
  res_option (cs_GetBestBlock (fs_chainstate fs')) = res_option (cs_GetBestBlock (fs_chainstate fs)).

(** [fs'] differs from [fs] in its files only, and these have grown. *)
Record files_step (fs fs' : FileStore) : Prop := {
  step_index : fs_index fs' = fs_index fs;
  step_chainstate : fs_chainstate fs' = fs_chainstate fs;
  step_grows : grows (bfm_dir (fs_files fs)) (bfm_dir (fs_files fs'));
  step_magic : bfm_magic (fs_files fs') = bfm_magic (fs_files fs);
  step_faults : dk_faults (bfm_dir (fs_files fs')) = dk_faults (bfm_dir (fs_files fs))
}.

Lemma files_step_keeps fs fs' :
  files_step fs fs' →
  keeps_files fs fs' ∧ keeps_index fs fs' ∧ keeps_tip fs fs' ∧ fs_keeps_utxos fs fs'.
Proof.
  intros [Hi Hc Hg Hm _]. split_and!.
  - split; simpl; intros; [by eapply ReadBlock_grows|by eapply ReadUndo_grows].
  - intros h _. simpl. by rewrite Hi.
  - unfold keeps_tip. simpl. unfold fs_GetChainTip. by rewrite Hi.
  - split; unfold fs_utxo_at; by rewrite Hc.
Qed.

Lemma files_step_valid fs fs' :
  files_step fs fs' → fs_valid fs → bfm_ok (fs_files fs') → fs_valid fs'.
Proof.
  intros [Hi Hc _ _ Hf] [_ Hr Hdi Hdc Hrec] Hok. split; rewrite ?Hi, ?Hc; try done.
  intros n. rewrite Hf. apply Hr.
Qed.

Lemma on_files_step {A} (m : proc BlockFileManager A) fs :
  grows (bfm_dir (fs_files fs)) (bfm_dir (m (fs_files fs)).2) ∧
  bfm_magic (m (fs_files fs)).2 = bfm_magic (fs_files fs) ∧
  dk_faults (bfm_dir (m (fs_files fs)).2) = dk_faults (bfm_dir (fs_files fs)) →
  files_step fs (on_files m fs).2.
Proof.
  intros (Hg & Hm & Hf). unfold on_files, on. destruct (m (fs_files fs)) as [r f]. by split.
Qed.

Lemma fs_WriteBlock_eq sync h b :
  WriteBlock sync h b = on_files (append_block sync (Block_Serialize b)).
Proof. by destruct sync. Qed.

Lemma fs_WriteUndo_eq sync f data : WriteUndo sync f data = on_files (append_undo sync f data).
Proof. by destruct sync. Qed.

Lemma on_files_inv {A} (m : proc BlockFileManager A) fs r fs' :
  on_files m fs = (r, fs') → m (fs_files fs) = (r, fs_files fs').
Proof. unfold on_files, on. destruct (m (fs_files fs)). by intros [= <- <-]. Qed.

Lemma fs_WriteBlock_law sync h b fs r fs' :
  WriteBlock sync h b fs = (r, fs') →
  (fs_fits fs' → fs_fits fs) ∧
  (fs_valid fs → fs_fits fs' → wf_block b → len (Block_Serialize b) ≤ maxBlockFileSize - 8 →
   fs_valid fs' ∧ keeps_files fs fs' ∧ keeps_index fs fs' ∧ keeps_tip fs fs' ∧
   fs_keeps_utxos fs fs' ∧ ∃ f o s, r = Ok (f, o, s) ∧ is_u32 f ∧ is_u32 o ∧ is_u32 s ∧
     ReadBlock fs' f o s = Ok b).
Proof.
  rewrite fs_WriteBlock_eq. intros Heq.
  destruct (append_block_grows sync (Block_Serialize b) (fs_files fs)) as (Hg & Hm & Hf & _).
  pose proof (on_files_step (append_block sync (Block_Serialize b)) fs (conj Hg (conj Hm Hf))) as Hst.
  rewrite Heq in Hst. apply on_files_inv in Heq. rewrite Heq in Hg, Hm, Hf. simpl in *.
  split; [by apply limits_grows|]. intros Hv Hfit Hb Hl.
  destruct (append_block_spec _ _ _ _ _ Heq (fv_files _ Hv) (fv_reliable _ Hv) Hfit Hl)
    as (f & pre & -> & Hok & Hfile & Hfu & Hpu).
  destruct (files_step_keeps _ _ Hst) as (? & ? & ? & ?).
  split_and!; try done; [by eapply files_step_valid|]. eexists _, _, _. split_and!; [done..| |].
  - unfold is_u32, maxBlockFileSize in *. lia.
  - apply (ReadBlock_at (fs_files fs') f pre b []); [by rewrite Hm; apply Hv|done|lia|].
    by rewrite Hm, app_nil_r.
Qed.

Lemma fs_WriteUndo_law sync f data fs r fs' :
  WriteUndo sync f data fs = (r, fs') →
  (fs_fits fs' → fs_fits fs) ∧
  (fs_valid fs → fs_fits fs' →
   fs_valid fs' ∧ keeps_files fs fs' ∧ keeps_index fs fs' ∧ keeps_tip fs fs' ∧
   fs_keeps_utxos fs fs' ∧ ∃ o s, r = Ok (o, s) ∧ is_u32 o ∧ is_u32 s ∧
     (len data ≤ maxBlockFileSize → ReadUndo fs' f o s = Ok data)).
Proof.
  rewrite fs_WriteUndo_eq. intros Heq.
  destruct (append_undo_grows sync f data (fs_files fs)) as (Hg & Hm & Hf & _).
  pose proof (on_files_step (append_undo sync f data) fs (conj Hg (conj Hm Hf))) as Hst.
  rewrite Heq in Hst. apply on_files_inv in Heq. rewrite Heq in Hg, Hm, Hf. simpl in *.
  split; [by apply limits_grows|]. intros Hv Hfit.
  destruct (append_undo_spec _ _ _ _ _ _ Heq (fv_files _ Hv) (fv_reliable _ Hv) Hfit)
    as (pre & -> & Hok & Hfile).
  destruct (files_step_keeps _ _ Hst) as (? & ? & ? & ?).
  split_and!; try done; [by eapply files_step_valid|]. eexists _, _. split_and!; [done| | |].
  - destruct Hfit as [_ Hfit]. specialize (Hfit _ _ Hfile). rewrite length_app in Hfit.
    unfold is_u32. lia.
  - apply u32_range.
  - intros Hl. apply (ReadUndo_at (fs_files fs') f pre data []); [by rewrite Hm; apply Hv|done|].
    by rewrite Hm, app_nil_r.
Qed.

Lemma sync_file_ends f d :
  dk_files (sync_file f d).2 = dk_files d ∧ dk_faults (sync_file f d).2 = dk_faults d ∧
  (reliable d → (sync_file f d).1 = Ok ()).
Proof.
  unfold sync_file, mbind, proc_bind, io_next, gets. simpl.
  destruct (dk_faults d (dk_calls d)) eqn:Hd; simpl;
    [|split_and!; [done..|intros Hr; by rewrite Hr in Hd]..].
  case_bool_decide; simpl; [|done]. unfold pwrap, os_Sync, io_call, mbind, proc_bind, io_next. simpl.
  destruct (dk_faults d (S (dk_calls d))) eqn:Hd2; simpl; [done|..];
    (split_and!; [done..|intros Hr; by rewrite Hr in Hd2]).
Qed.

Lemma fs_SyncBlockFiles_law fs r fs' :
  SyncBlockFiles fs = (r, fs') →
  (fs_fits fs' → fs_fits fs) ∧
  (fs_valid fs → fs_valid fs' ∧ keeps_files fs fs' ∧ keeps_index fs fs' ∧ keeps_tip fs fs' ∧
   fs_keeps_utxos fs fs' ∧ r = Ok ()).
Proof.
  simpl. intros Heq.
  assert (dk_files (bfm_dir (SyncAll (fs_files fs)).2) = dk_files (bfm_dir (fs_files fs)) ∧
          dk_faults (bfm_dir (SyncAll (fs_files fs)).2) = dk_faults (bfm_dir (fs_files fs)) ∧
          set_dir (bfm_dir (fs_files fs)) (SyncAll (fs_files fs)).2 = fs_files fs ∧
          (reliable (bfm_dir (fs_files fs)) → (SyncAll (fs_files fs)).1 = Ok ())) as (H1 & H2 & H3 & H4).
  { unfold SyncAll, mbind, proc_bind, gets, on. cbn -[sync_file].
    set (cf := bfm_curFile (fs_files fs)). set (d := bfm_dir (fs_files fs)).
    pose proof (sync_file_ends (BlkFile cf) d) as (Hs1 & Hs2 & Hs3).
    destruct (sync_file (BlkFile cf) d) as [r1 d1]. cbn [fst snd] in *.
    destruct r1 as [[]|e|]; cbn -[sync_file].
    - pose proof (sync_file_ends (RevFile cf) d1) as (Hs4 & Hs5 & Hs6).
      destruct (sync_file (RevFile cf) d1) as [r2 d2]. cbn [fst snd bfm_dir set_dir] in *.
      rewrite Hs4, Hs5, Hs1, Hs2. split_and!; [done..|by destruct (fs_files fs)|].
      intros Hr. apply Hs6. intros n. rewrite Hs2. apply Hr.
    - split_and!; [done..|by destruct (fs_files fs)|]. intros Hr. by specialize (Hs3 Hr).
    - split_and!; [done..|by destruct (fs_files fs)|]. intros Hr. by specialize (Hs3 Hr). }
  apply on_files_inv in Heq as Hm. rewrite Hm in H1, H2, H3, H4. cbn [fst snd] in *.
  assert (files_step fs fs') as Hst.
  { unfold on_files, on in Heq. destruct (SyncAll (fs_files fs)) as [r0 f0].
    injection Heq as <- <-. simpl in *. split; try done.
    - intros g c Hg. exists []. simpl. by rewrite app_nil_r, H1.
    - simpl. by rewrite <-H3. }
  split; [apply limits_grows, Hst|]. intros Hv. destruct (files_step_keeps _ _ Hst) as (? & ? & ? & ?).
  split_and!; try done; [|by apply H4, Hv]. eapply files_step_valid; [done..|].
  destruct (fv_files _ Hv) as [Hmg Hc Hs Hmax Hl Hfi]. rewrite <-H3 in Hmg, Hc, Hs, Hmax, Hl, Hfi. simpl in *.
  split; rewrite ?H1; try done. unfold file_data in *. by rewrite H1.
Qed.

(** *** Calls on the databases *)

(** A new index database over the same files. *)
Lemma index_step_valid fs i :
  fs_valid fs → db_ok i →
  (∀ h v, wf_hash h → db_map i !! blockIndexKey h = Some v →
     ∃ rec, DeserializeDiskBlockIndex v = Ok rec) →
  fs_valid (set_index i fs).
Proof. intros [Hf Hr _ Hc _] Hi Hrec. by split. Qed.

Lemma index_keeps_index fs i :
  db_ok (fs_index fs) → db_ok i →
  (∀ h, wf_hash h → db_map i !! blockIndexKey h = db_map (fs_index fs) !! blockIndexKey h) →
  keeps_index fs (set_index i fs).
Proof. intros Ho Hi He h Hh. simpl. rewrite !bi_get_option by done. by rewrite He. Qed.

Lemma index_keeps_tip fs i :
  db_ok (fs_index fs) → db_ok i →
  db_map i !! keyChainTip = db_map (fs_index fs) !! keyChainTip →
  keeps_tip fs (set_index i fs).
Proof. intros Ho Hi He. unfold keeps_tip. simpl. rewrite !get_tip_option by done. simpl. by rewrite He. Qed.

Lemma index_keeps fs i : keeps_files fs (set_index i fs) ∧ fs_keeps_utxos fs (set_index i fs).
Proof. by split; split. Qed.

#[local] Instance blockIndexKey_inj : Inj (=) (=) blockIndexKey.
Proof. by intros ? ? [= ->]. Qed.

Lemma res_option_Ok {A} (r : res A) a : res_option r = Some a ↔ r = Ok a.
Proof. destruct r; simpl; naive_solver. Qed.

Lemma fs_PutBlockIndex_law sync h rec fs r fs' :
  PutBlockIndex sync h rec fs = (r, fs') →
  (fs_fits fs' → fs_fits fs) ∧
  (fs_valid fs → wf_hash h → wf_index rec →
   fs_valid fs' ∧ keeps_files fs fs' ∧ keeps_tip fs fs' ∧ fs_keeps_utxos fs fs' ∧ r = Ok () ∧
   GetBlockIndex fs' h = Ok rec ∧
   ∀ h', wf_hash h' → h' ≠ h →
     res_option (GetBlockIndex fs' h') = res_option (GetBlockIndex fs h')).
Proof.
  simpl. unfold on_index, on. destruct (bi_Put sync h rec (fs_index fs)) as [r0 i] eqn:Hput.
  intros [= <- <-]. split; [done|]. intros Hv Hh Hrec.
  destruct (DiskBlockIndex_stored rec Hrec) as (bs & Hbs & Hdec).
  unfold bi_Put, mbind, proc_bind, pure, dbcall in Hput. rewrite Hbs in Hput.
  pose proof (fv_index _ Hv) as Hio.
  destruct (db_Put_ok sync (blockIndexKey h) bs _ Hio) as (i' & Hp & Hi' & Hmap).
  rewrite Hp in Hput. injection Hput as <- <-.
  destruct (index_keeps fs i') as [Hkf Hku]. split_and!; try done.
  - apply index_step_valid; [done..|]. intros h' v Hh'. rewrite Hmap. intros Hl.
    destruct (decide (h' = h)) as [->|Hne].
    + rewrite lookup_insert_eq in Hl. injection Hl as <-. eauto.
    + rewrite lookup_insert_ne in Hl by (intros ?%(inj blockIndexKey); done). by eapply Hv.
  - apply index_keeps_tip; [done..|]. by rewrite Hmap, lookup_insert_ne.
  - apply res_option_Ok. rewrite bi_get_option by done. simpl. rewrite Hmap, lookup_insert_eq. simpl.
    by rewrite Hdec.
  - intros h' Hh' Hne. simpl. rewrite !bi_get_option by done. simpl. rewrite Hmap.
    by rewrite lookup_insert_ne by (intros ?%(inj blockIndexKey); done).
Qed.

Lemma fs_DeleteBlockIndex_law h fs r fs' :
  DeleteBlockIndex h fs = (r, fs') →
  (fs_fits fs' → fs_fits fs) ∧
  (fs_valid fs → wf_hash h →
   fs_valid fs' ∧ keeps_files fs fs' ∧ keeps_tip fs fs' ∧ fs_keeps_utxos fs fs' ∧ r = Ok () ∧
   res_option (GetBlockIndex fs' h) = None ∧
   ∀ h', wf_hash h' → h' ≠ h →
     res_option (GetBlockIndex fs' h') = res_option (GetBlockIndex fs h')).
Proof.
  simpl. unfold on_index, on, dbcall.
  destruct (db_Delete true (blockIndexKey h) (fs_index fs)) as [r0 i] eqn:Hput.
  intros [= <- <-]. split; [done|]. intros Hv Hh. pose proof (fv_index _ Hv) as Hio.
  destruct (db_Delete_ok true (blockIndexKey h) _ Hio) as (i' & Hp & Hi' & Hmap).
  rewrite Hp in Hput. injection Hput as <- <-.
  destruct (index_keeps fs i') as [Hkf Hku]. split_and!; try done.
  - apply index_step_valid; [done..|]. intros h' v Hh'. rewrite Hmap.
    intros [_ Hl]%lookup_delete_Some. by eapply Hv.
  - apply index_keeps_tip; [done..|]. by rewrite Hmap, lookup_delete_ne.
  - rewrite bi_get_option by done. simpl. by rewrite Hmap, lookup_delete_eq.
  - intros h' Hh' Hne. simpl. rewrite !bi_get_option by done. simpl. rewrite Hmap.
    by rewrite lookup_delete_ne by (intros ?%(inj blockIndexKey); done).
Qed.

Lemma fs_FlushBlockIndex_law fs r fs' :
  FlushBlockIndex fs = (r, fs') →
  (fs_fits fs' → fs_fits fs) ∧
  (fs_valid fs → fs_valid fs' ∧ keeps_files fs fs' ∧ keeps_index fs fs' ∧ keeps_tip fs fs' ∧
   fs_keeps_utxos fs fs' ∧ r = Ok ()).
Proof.
  simpl. unfold on_index, on, dbcall. destruct (db_CompactRange (fs_index fs)) as [r0 i] eqn:Hput.
  intros [= <- <-]. split; [done|]. intros Hv. pose proof (fv_index _ Hv) as Hio.
  destruct (db_CompactRange_ok _ Hio) as (i' & Hp & Hi' & Hmap).
  rewrite Hp in Hput. injection Hput as <- <-.
  destruct (index_keeps fs i') as [Hkf Hku]. split_and!; try done.
  - apply index_step_valid; [done..|]. intros h' v Hh'. rewrite Hmap. by eapply Hv.
  - apply index_keeps_index; [done..|]. intros. by rewrite Hmap.
  - apply index_keeps_tip; [done..|]. by rewrite Hmap.
Qed.

Lemma fs_PutChainTip_law sync h n fs r fs' :
  PutChainTip sync h n fs = (r, fs') →
  (fs_fits fs' → fs_fits fs) ∧
  (fs_valid fs → wf_hash h → is_u32 n →
   fs_valid fs' ∧ keeps_files fs fs' ∧ keeps_index fs fs' ∧ fs_keeps_utxos fs fs' ∧ r = Ok () ∧
   GetChainTip fs' = Ok (h, n)).
Proof.
  simpl. unfold fs_PutChainTip, on_index, on, dbcall.
  destruct (db_Put sync keyChainTip (h ++ be_encode 4 n) (fs_index fs)) as [r0 i] eqn:Hput.
  intros [= <- <-]. split; [done|]. intros Hv Hh Hn. pose proof (fv_index _ Hv) as Hio.
  destruct (db_Put_ok sync keyChainTip (h ++ be_encode 4 n) _ Hio) as (i' & Hp & Hi' & Hmap).
  rewrite Hp in Hput. injection Hput as <- <-.
  destruct (index_keeps fs i') as [Hkf Hku]. split_and!; try done.
  - apply index_step_valid; [done..|]. intros h' v Hh'. rewrite Hmap, lookup_insert_ne by done.
    by eapply Hv.
  - apply index_keeps_index; [done..|]. intros. by rewrite Hmap, lookup_insert_ne.
  - apply res_option_Ok. rewrite get_tip_option by done. simpl. rewrite Hmap, lookup_insert_eq. simpl.
    unfold wf_hash, HashSize in Hh. rewrite length_app, Hh, be_encode_length. simpl.
    rewrite slice_app_take by done. rewrite (slice_app_skip _ _ 32) by (done || lia). cbn [Nat.sub].
    rewrite slice_all by apply be_encode_length. rewrite be_decode_encode.
    rewrite Z.mod_small by (unfold is_u32 in Hn; lia). done.
Qed.

Lemma OutpointKey_length h i : wf_hash h → length (OutpointKey h i) = 36%nat.
Proof. unfold OutpointKey, wf_hash. intros Hh. rewrite length_app, Hh, le_encode_length. done. Qed.

Lemma batch_utxo_lookup (m : kvmap) wb k :
  foldl apply_op m (wb_raw <$> wb) !! (x43 :: k) = foldl (wb_utxo k) (m !! (x43 :: k)) wb.
Proof.
  revert m. induction wb as [|op wb IH]; intros m; [done|]. cbn [fmap list_fmap foldl]. rewrite IH.
  f_equal. destruct op as [h i d|h i|h]; simpl; unfold utxoKey, OutpointKey.
  - case_bool_decide as He; [rewrite He; apply lookup_insert_eq|].
    apply lookup_insert_ne. congruence.
  - case_bool_decide as He; [rewrite He; apply lookup_delete_eq|].
    apply lookup_delete_ne. congruence.
  - by apply lookup_insert_ne.
Qed.

Lemma batch_utxo_none wb k :
  Forall wf_wb_op wb → length k ≠ 36%nat → foldl (wb_utxo k) None wb = None.
Proof.
  intros Hwb Hk. induction Hwb as [|op wb Hop Hwb IH]; [done|]. cbn [foldl].
  replace (wb_utxo k None op) with (@None (list byte)); [done|].
  destruct op as [h i d|h i|h]; simpl; [|by case_bool_decide|done]. destruct Hop as [Hh _].
  rewrite bool_decide_false; [done|]. intros ->. by rewrite OutpointKey_length in Hk.
Qed.

Lemma batch_best_lookup (m : kvmap) wb :
  Forall wf_wb_op wb →
  (foldl apply_op m (wb_raw <$> wb) !! keyBestBlock ≫=
     λ data, if negb (len data =? 32) then None else Some data)
  = foldl wb_best (m !! keyBestBlock ≫= λ data, if negb (len data =? 32) then None else Some data) wb.
Proof.
  intros Hwb. revert m. induction Hwb as [|op wb Hop Hwb IH]; intros m; [done|].
  cbn [fmap list_fmap foldl]. rewrite IH. f_equal. destruct op as [h i d|h i|h]; simpl.
  - by rewrite lookup_insert_ne.
  - by rewrite lookup_delete_ne.
  - rewrite lookup_insert_eq. simpl in *. unfold wf_hash in Hop. by rewrite Hop.
Qed.

Lemma fs_FlushUtxoBatch_law sync wb fs r fs' :
  FlushUtxoBatch sync wb fs = (r, fs') →
  (fs_fits fs' → fs_fits fs) ∧
  (fs_valid fs → Forall wf_wb_op wb →
   fs_valid fs' ∧ keeps_files fs fs' ∧ keeps_index fs fs' ∧ keeps_tip fs fs' ∧ r = Ok () ∧
   (∀ k, fs_utxo_at fs' k = foldl (wb_utxo k) (fs_utxo_at fs k) wb) ∧
   res_option (GetBestBlock fs') = foldl wb_best (res_option (GetBestBlock fs)) wb).
Proof.
  simpl. unfold on_chainstate, on, cs_Flush, dbcall.
  destruct (db_Write sync (wb_raw <$> wb) (fs_chainstate fs)) as [r0 c] eqn:Hput.
  intros [= <- <-]. split; [done|]. intros Hv Hwb. pose proof (fv_chainstate _ Hv) as Hco.
  destruct (db_Write_ok sync (wb_raw <$> wb) _ Hco) as (c' & Hp & Hc' & Hmap).
  rewrite Hp in Hput. injection Hput as <- <-. split_and!; try done.
  - destruct Hv as [Hf Hr Hi _ Hrec]. by split.
  - intros k. unfold fs_utxo_at. simpl. case_decide as Hk.
    + rewrite Hmap. apply batch_utxo_lookup.
    + by rewrite batch_utxo_none.
  - rewrite !get_best_option by done. simpl. rewrite Hmap. by apply batch_best_lookup.
Qed.

Lemma fs_GetHeader_Ok fs h hdr :
  fs_GetHeader fs h = Ok hdr ↔
  ∃ rec, bi_GetBlockIndex (fs_index fs) h = Ok rec ∧ hdr = dbi_Header rec.
Proof.
  unfold fs_GetHeader. split; [intros Hg; res_inv; eauto|]. by intros (rec & -> & ->).
Qed.

Lemma fs_utxo_at_key fs k data : fs_utxo_at fs k = Some data → length k = 36%nat.
Proof. unfold fs_utxo_at. by case_decide. Qed.

#[export] Instance FileStore_laws : BlockStoreLaws FileStore := {
  valid := fs_valid;
  fits := fs_fits;
  utxo_at := fs_utxo_at;
  GetBlock_Ok := fs_GetBlock_Ok;
  GetHeader_Ok := fs_GetHeader_Ok;
  utxo_at_key := fs_utxo_at_key;
  ForEachBlockIndex_law := fs_ForEachBlockIndex;
  ForEachUtxo_law := fs_ForEachUtxo;
  WriteBlock_law := fs_WriteBlock_law;
  WriteUndo_law := fs_WriteUndo_law;
  SyncBlockFiles_law := fs_SyncBlockFiles_law;
  PutBlockIndex_law := fs_PutBlockIndex_law;
  FlushBlockIndex_law := fs_FlushBlockIndex_law;
  DeleteBlockIndex_law := fs_DeleteBlockIndex_law;
  PutChainTip_law := fs_PutChainTip_law;
  FlushUtxoBatch_law := fs_FlushUtxoBatch_law
}.
End file_store.

(** ** Properties *)

(** An index record with fields in range is decoded from its encoding; the
    encoder panics exactly when the chain work does not fit 32 bytes. *)
Theorem DiskBlockIndex_roundtrip rec w :
  dbi_ChainWork rec = Some w → 0 ≤ w →
  (DiskBlockIndex_Serialize rec = Panic ↔ 2 ^ 256 ≤ w) ∧
  (wf_index rec → ∃ bs, DiskBlockIndex_Serialize rec = Ok bs ∧ length bs = 148%nat ∧
                        DeserializeDiskBlockIndex bs = Ok rec).
Proof.
  intros Hw Hpos. split.
  - unfold DiskBlockIndex_Serialize. rewrite Hw. destruct (decide (w < 2 ^ 256)) as [Hlt|Hge].
    + destruct (work_bytes_ok w) as (bs & -> & _); [lia|]. split; [done|lia].
    + unfold work_bytes. split; [lia|intros _]. rewrite (proj2 (Z.ltb_lt _ _)); [done|].
      unfold big_Bytes. rewrite be_encode_length.
      destruct (BitLen_bounds w) as [[_ Hhi] Hb]; [lia|].
      assert (256 < BitLen w).
      { destruct (decide (256 < BitLen w)); [done|exfalso].
        assert (2 ^ BitLen w ≤ 2 ^ 256) by (apply Z.pow_le_mono_r; lia). lia. }
      pose proof (Z.div_le_mono 264 (BitLen w + 7) 8). rewrite Z2Nat.id by (apply Z.div_pos; lia).
      change (264 / 8) with 33 in *. lia.
  - intros Hrec. destruct (DiskBlockIndex_decodes rec Hrec) as (bs & Hs & Hl & Hd).
    exists bs. split_and!; [done..|]. unfold DeserializeDiskBlockIndex. rewrite Hl.
    specialize (Hd []). rewrite app_nil_r in Hd. by rewrite Hd.
Qed.

(** On a store that keeps the interface's promises, a block that was written
    and indexed under its hash is returned by [GetBlock] and its header by
    [GetHeader], also after further blocks and undo data have been written. *)
Theorem GetBlock_after_store `{BlockStoreLaws St} sync b rec st f o s st1 st2 :
  WriteBlock sync (HashBlockHeader (blk_Header b)) b st = (Ok (f, o, s), st1) →
  PutBlockIndex sync (HashBlockHeader (blk_Header b)) rec st1 = (Ok (), st2) →
  dbi_Header rec = blk_Header b → Z.land (dbi_Status rec) StatusHaveData ≠ 0 →
  (dbi_FileNum rec, dbi_DataPos rec, dbi_DataSize rec) = (f, o, s) →
  valid st → fits st1 → wf_block b → len (Block_Serialize b) ≤ maxBlockFileSize - 8 →
  wf_index rec →
  ∀ st3, keeps_files st2 st3 → keeps_index st2 st3 →
  GetBlock st3 (HashBlockHeader (blk_Header b)) = Ok b ∧
  GetHeader st3 (HashBlockHeader (blk_Header b)) = Ok (blk_Header b).
Proof.
  intros Hw Hp Hh Hs [= <- <- <-] Hv Hf Hb Hl Hrec st3 [Hk3 _] Hi3.
  apply WriteBlock_law in Hw as [_ Hw]. destruct Hw as (Hv1 & _ & _ & _ & _ & Hloc); [done..|].
  destruct Hloc as (f' & o' & s' & [= <- <- <-] & _ & _ & _ & Hread).
  assert (wf_hash (HashBlockHeader (blk_Header b))) as Hwf by apply DoubleSHA256_wf.
  apply PutBlockIndex_law in Hp as [_ Hp]. destruct Hp as (_ & [Hk2 _] & _ & _ & _ & Hget & _); [done..|].
  assert (GetBlockIndex st3 (HashBlockHeader (blk_Header b)) = Ok rec) as Hget3.
  { apply res_option_Ok. rewrite Hi3 by done. by apply res_option_Ok. }
  split.
  - apply GetBlock_Ok. exists rec. split_and!; [done..| |done]. by apply Hk3, Hk2.
  - apply GetHeader_Ok. by exists rec.
Qed.

(** ** Witnesses: LevelDB as a map in memory *)

Definition mem_iterate (m : kvmap) (prefix : list byte) : list (list byte * list byte) * option error :=
  (filter (λ kv, prefix `prefix_of` kv.1) (map_to_list m), None).

Definition mem_get (m : kvmap) (k : list byte) : error + list byte :=
  match m !! k with Some v => inr v | None => inl (Sentinel "leveldb: not found") end.

Lemma mem_get_ok (m : kvmap) k :
  match m !! k with Some v => mem_get m k = inr v | None => ∃ e, mem_get m k = inl e end.
Proof. unfold mem_get. destruct (m !! k); eauto. Qed.

#[local] Instance mem_db : LevelDB := {
  db := kvmap;
  db_Get := mem_get;
  db_Has m k := inr (bool_decide (is_Some (m !! k)));
  db_Put _ k v m := (inr (), <[k := v]> m);
  db_Delete _ k m := (inr (), delete k m);
  db_Write _ ops m := (inr (), foldl apply_op m ops);
  db_CompactRange m := (inr (), m);
  db_Iterate := mem_iterate
}.

Lemma mem_iterate_ok (m : kvmap) prefix : ∃ l, mem_iterate m prefix = (l, None) ∧ NoDup l.*1 ∧
  ∀ k v, (k, v) ∈ l ↔ m !! k = Some v ∧ prefix `prefix_of` k.
Proof.
  eexists. split; [done|]. split.
  - apply NoDup_fmap_fst; [|apply NoDup_filter, NoDup_map_to_list].
    intros k v1 v2 [_ H1%elem_of_map_to_list]%list_elem_of_filter
      [_ H2%elem_of_map_to_list]%list_elem_of_filter. congruence.
  - intros k v. rewrite list_elem_of_filter, elem_of_map_to_list. by split; intros [].
Qed.

#[local] Instance mem_laws : LevelDBLaws.
Proof.
  refine (@Build_LevelDBLaws mem_db (λ m, m) (λ _, True) _ _ _ _ _ _ _); try by eauto.
  - intros d k _. apply mem_get_ok.
  - intros d prefix _. apply mem_iterate_ok.
Defined.

Definition w_store : FileStore := mkFileStore w_bfm (∅ : kvmap) (∅ : kvmap).

Lemma w_store_valid : valid w_store.
Proof.
  split; [apply w_bfm_ok|done|done|done|]. intros h v _ Hl. simpl in Hl.
  by rewrite lookup_empty in Hl.
Qed.

Definition w_record : DiskBlockIndex :=
  mkDiskBlockIndex (blk_Header sample_block) 7 17 2 0 0 (len (Block_Serialize sample_block))
    0 0 0 (Some 12345).

Lemma w_record_wf : wf_index w_record.
Proof. split; [by_decide|by_decide|]. exists 12345. split; [done|lia]. Qed.

Lemma DiskBlockIndex_roundtrip_witness :
  ∃ bs, DiskBlockIndex_Serialize w_record = Ok bs ∧ length bs = 148%nat ∧
        DeserializeDiskBlockIndex bs = Ok w_record.
Proof. apply (DiskBlockIndex_roundtrip w_record 12345); [reflexivity|lia|apply w_record_wf]. Defined.

Lemma GetBlock_after_store_witness :
  let h := HashBlockHeader (blk_Header sample_block) in
  let st1 := (WriteBlock true h sample_block w_store).2 in
  let st2 := (PutBlockIndex true h w_record st1).2 in
  GetBlock st2 h = Ok sample_block ∧ GetHeader st2 h = Ok (blk_Header sample_block).
Proof.
  intros h st1 st2.
  apply (GetBlock_after_store true sample_block w_record w_store 0 0
           (len (Block_Serialize sample_block)) st1 st2).
  - apply injective_projections; [by vm_compute|reflexivity].
  - apply injective_projections; [by vm_compute|reflexivity].
  - reflexivity.
  - by vm_compute.
  - reflexivity.
  - apply w_store_valid.
  - apply (w_limits (fs_files st1)); vm_compute; done.
  - by_decide.
  - vm_compute. done.
  - apply w_record_wf.
  - by split.
  - by intros ? ?.
Defined.
