(* ===== verification/Migrate.v ===== *)
(** * internal/node/migrate.go: migration of the legacy store

    The legacy store keeps blocks, the index of heights, the tip and undo data in
    buckets of one bbolt database, which is a parameter; its accessors are those of
    internal/store/bolt.go.  The migration writes the chain to a new block store.
    The theorem is proved against the laws of the block store, which Store.v proves
    of the file store. *)
From S2P Require Import Prelude Types Sha256 Target Merkle Params Utxo BlockFiles Store.

(** What a read transaction gets for a key of a bucket, or the error that bbolt
    returns for a database it cannot read. *)
Class Bolt (DB : Type) : Type := { bolt_Get : DB → string → list byte → res (option (list byte)) }.

(** ** The accessors of the legacy store (bolt.go) *)

Section legacy.
Context {DB : Type} `{Bolt DB}.
Implicit Types s : DB.

Definition heightToBytes (h : Z) : list byte := be_encode 4 h.

Definition found (msg : string) (data : option (list byte)) : res (list byte) :=
  match data with None => Err (Errorf msg) | Some data => Ok data end.

Definition LegacyHasBlock s (hash : Hash) : res bool :=
  data ← bolt_Get s "blocks" hash; Ok (bool_decide (is_Some data)).
Definition LegacyGetBlock s (hash : Hash) : res Block :=
  data ← bolt_Get s "blocks" hash;
  data ← found "block %s not found" data;
  fst <$> Block_Deserialize data.
Definition LegacyGetHeader s (hash : Hash) : res BlockHeader :=
  data ← bolt_Get s "headers" hash;
  data ← found "header %s not found" data;
  fst <$> BlockHeader_Deserialize data.
Definition LegacyGetBlockByHeight s (height : Z) : res Hash :=
  data ← bolt_Get s "heightindex" (heightToBytes height);
  data ← found "no block at height %d" data;
  if negb (len data =? Z.of_nat HashSize) then Err (Errorf "corrupt height index at %d") else Ok data.
Definition LegacyGetChainTip s : res (Hash * Z) :=
  data ← bolt_Get s "chainstate" (String.list_byte_of_string "tip");
  data ← found "chain tip not set" data;
  if negb (len data =? Z.of_nat HashSize + 4) then Err (Errorf "corrupt chain tip data")
  else Ok (take HashSize data, be_decode (drop HashSize data)).
Definition LegacyGetUndoData s (blockHash : Hash) : res (list byte) :=
  data ← bolt_Get s "undodata" blockHash; found "undo data not found for %s" data.
(** The error of the transaction is dropped. *)
Definition LegacyHasData s : res bool :=
  match bolt_Get s "chainstate" (String.list_byte_of_string "tip") with
  | Ok data => Ok (bool_decide (is_Some data))
  | Err _ => Ok false
  | Panic => Panic
  end.
End legacy.

(** ** The migration *)

Section migrate.
Context {DB : Type} `{Bolt DB} {St : Type} `{BlockStore St} (p : ChainParams).

Definition migrated_record (block : Block) (h work : Z) (loc : Z * Z * Z) : DiskBlockIndex :=
  mkDiskBlockIndex (blk_Header block) h (Z.lor (Z.lor StatusHaveData StatusValidHeader) StatusValidTx)
    (u32 (len (blk_Transactions block))) loc.1.1 loc.1.2 loc.2 0 0 0 (Some work).
Definition migrated_undo (rec : DiskBlockIndex) (undo : Z * Z) : DiskBlockIndex :=
  mkDiskBlockIndex (dbi_Header rec) (dbi_Height rec) (Z.lor (dbi_Status rec) StatusHaveUndo) (dbi_TxCount rec)
    (dbi_FileNum rec) (dbi_DataPos rec) (dbi_DataSize rec) (dbi_FileNum rec) undo.1 undo.2 (dbi_ChainWork rec).

(** A failure to write undo data leaves the record without it. *)
Definition migrate_undo (db : DB) (hash : Hash) (fileNum : Z) (rec : DiskBlockIndex) : proc St DiskBlockIndex :=
  match LegacyGetUndoData db hash with
  | Panic => pure Panic
  | Ok (b :: data) =>
      catch (undo ← WriteUndo true fileNum (b :: data); mret (migrated_undo rec undo)) (λ _, mret rec)
  | _ => mret rec
  end.

(** The body of the loop; the result is the cumulative work. *)
Definition migrate_block (db : DB) (h cumulativeWork : Z) : proc St Z :=
  hash ← pure (wrap "get block hash at height %d" (LegacyGetBlockByHeight db h));
  block ← pure (wrap "get block at height %d" (LegacyGetBlock db hash));
  loc ← pwrap "write block at height %d" (WriteBlock true hash block);
  let cumulativeWork := cumulativeWork + CalcWork (hdr_Bits (blk_Header block)) in
  rec ← migrate_undo db hash loc.1.1 (migrated_record block h cumulativeWork loc);
  _ ← pwrap "put block index at height %d" (PutBlockIndex true hash rec);
  mret cumulativeWork.

(** The heights from [h] on, [n] of them.  A tip at height [2^32 - 1] would make the
    counter of the loop wrap around; below it the loop has [tipHeight + 1] turns. *)
Fixpoint migrate_loop (n : nat) (db : DB) (h cumulativeWork : Z) : proc St () :=
  match n with
  | O => mret ()
  | S n' => work ← migrate_block db h cumulativeWork; migrate_loop n' db (u32 (h + 1)) work
  end.

Definition start_work (tipHeight : Z) : Z :=
  if 0 <? tipHeight then 0 else CalcWork (hdr_Bits (blk_Header (p_GenesisBlock p))).

Definition migrate_chain (db : DB) (tipHash : Hash) (tipHeight : Z) : proc St () :=
  _ ← migrate_loop (Z.to_nat (tipHeight + 1)) db 0 (start_work tipHeight);
  pwrap "set chain tip" (PutChainTip true tipHash tipHeight).

(** The new store beside the result, once it is open. *)
Definition MigrateFromLegacy (IsNotExist : list byte → bool) (LegacyDBPath DBPath : list byte)
    (NewBoltStore : list byte → res DB) (NewFileStore : res St) : res () * option St :=
  let legacyPath := if IsNotExist LegacyDBPath then DBPath else LegacyDBPath in
  if IsNotExist LegacyDBPath && IsNotExist DBPath
  then (Err (Errorf "no legacy blocks.db found at %s or %s"), None) else
  match (legacy ← wrap "open legacy store" (NewBoltStore legacyPath);
         hasData ← LegacyHasData legacy;
         _ ← fail_if (negb hasData) (Errorf "legacy store has no chain data");
         tip ← wrap "get legacy chain tip" (LegacyGetChainTip legacy);
         newStore ← wrap "open new store" NewFileStore;
         Ok (legacy, tip, newStore)) with
  | Ok (legacy, (tipHash, tipHeight), newStore) =>
      let '(r, st) := migrate_chain legacy tipHash tipHeight newStore in (r, Some st)
  | Err e => (Err e, None)
  | Panic => (Panic, None)
  end.
End migrate.

(** ** What the migration keeps *)

Notation hash_of b := (HashBlockHeader (blk_Header b)).

(** A legacy database that holds the chain [bs], from the genesis block on. *)
Record legacy_chain {DB} `{Bolt DB} (db : DB) (bs : list Block) : Prop := {
  lc_tip : ∃ b, last bs = Some b ∧
    bolt_Get db "chainstate" (String.list_byte_of_string "tip") = Ok (Some (hash_of b ++ be_encode 4 (len bs - 1)));
  lc_height i b : bs !! i = Some b → bolt_Get db "heightindex" (be_encode 4 (Z.of_nat i)) = Ok (Some (hash_of b));
  lc_block i b : bs !! i = Some b → bolt_Get db "blocks" (hash_of b) = Ok (Some (Block_Serialize b));
  lc_undo i b : bs !! i = Some b → ∃ u, bolt_Get db "undodata" (hash_of b) = Ok u;
  lc_wf : Forall wf_block bs;
  lc_size : Forall (λ b, len (Block_Serialize b) ≤ maxBlockFileSize - 8) bs;
  lc_nodup : NoDup ((λ b, hash_of b) <$> bs);
  lc_len : len bs < 2 ^ 32
}.

Definition block_work (b : Block) : Z := CalcWork (hdr_Bits (blk_Header b)).

(** The store has the block [b] with the height [h], the chain work [work] and the
    undo data [u]. *)
Definition migrated `{BlockStore St} (st : St) (b : Block) (h work : Z) (u : option (list byte)) : Prop :=
  ∃ rec, GetBlockIndex st (hash_of b) = Ok rec ∧ GetBlock st (hash_of b) = Ok b ∧
    dbi_Header rec = blk_Header b ∧ dbi_Height rec = h ∧ dbi_ChainWork rec = Some work ∧
    ∀ data, u = Some data → data ≠ [] → len data ≤ maxBlockFileSize →
      Z.land (dbi_Status rec) StatusHaveUndo ≠ 0 ∧
      ReadUndo st (dbi_UndoFile rec) (dbi_UndoPos rec) (dbi_UndoSize rec) = Ok data.

Lemma hash_of_wf b : wf_hash (hash_of b).
Proof. apply DoubleSHA256_wf. Qed.

Section proofs.
Context {DB : Type} `{Bolt DB} {St : Type} `{BlockStoreLaws St} (p : ChainParams).

(** The accessors read what the database holds. *)
Lemma LegacyGetBlock_Ok db bs i b : legacy_chain db bs → bs !! i = Some b →
  LegacyGetBlockByHeight db (Z.of_nat i) = Ok (hash_of b) ∧ LegacyGetBlock db (hash_of b) = Ok b.
Proof.
  intros Hl Hb. split.
  - unfold LegacyGetBlockByHeight, heightToBytes. rewrite (lc_height _ _ Hl i b Hb). cbn [mbind res_bind found].
    pose proof (hash_of_wf b) as Hh. unfold wf_hash in Hh. by rewrite Hh.
  - unfold LegacyGetBlock. rewrite (lc_block _ _ Hl i b Hb). cbn [mbind res_bind found].
    pose proof (lc_wf _ _ Hl) as Hwf. rewrite Forall_lookup in Hwf.
    by rewrite <- (app_nil_r (Block_Serialize b)), Block_decodes by eauto.
Qed.

Lemma LegacyGetChainTip_Ok db bs : legacy_chain db bs → ∃ b, last bs = Some b ∧
  LegacyHasData db = Ok true ∧ LegacyGetChainTip db = Ok (hash_of b, len bs - 1).
Proof.
  intros Hl. destruct (lc_tip _ _ Hl) as (b & Hb & Ht). exists b. split; [done|].
  assert (0 < len bs) by (destruct bs; [done|cbn [length]; lia]). pose proof (lc_len _ _ Hl).
  unfold LegacyHasData, LegacyGetChainTip. rewrite Ht. cbn [mbind res_bind found]. split; [done|].
  pose proof (hash_of_wf b) as Hh. unfold wf_hash in Hh. rewrite length_app, be_encode_length, Hh.
  cbn [negb Z.eqb]. rewrite take_app_length', drop_app_length', be_decode_encode by done.
  rewrite Z.mod_small by lia. done.
Qed.

Lemma migrated_mono st st' b h work u :
  keeps_files st st' → res_option (GetBlockIndex st' (hash_of b)) = res_option (GetBlockIndex st (hash_of b)) →
  migrated st b h work u → migrated st' b h work u.
Proof.
  intros [Hkb Hku] Hi (rec & Hr & (rec' & Hr' & Hd & Hread & Hh)%GetBlock_Ok & Hhd & Hn & Hw & Hu).
  assert (rec' = rec) as -> by congruence. exists rec.
  assert (GetBlockIndex st' (hash_of b) = Ok rec) as Hr2 by (apply res_option_Ok; rewrite Hi; by apply res_option_Ok).
  split_and!; try done; [apply GetBlock_Ok; exists rec; split_and!; eauto|].
  intros data Hdata Hne Hle. destruct (Hu data Hdata Hne Hle). split; eauto.
Qed.

Lemma is_u32_lor a b : is_u32 a → is_u32 b → is_u32 (Z.lor a b).
Proof.
  unfold is_u32. intros Ha Hb. rewrite <- (Z.mod_small a (2 ^ 32)), <- (Z.mod_small b (2 ^ 32)) by lia.
  rewrite <- !Z.land_ones, <- Z.land_lor_distr_l, Z.land_ones by lia. apply Z.mod_pos_bound. lia.
Qed.

Lemma migrated_record_wf b h work loc : wf_header (blk_Header b) → is_u32 h → 0 ≤ work < 2 ^ 256 →
  is_u32 loc.1.1 → is_u32 loc.1.2 → is_u32 loc.2 → wf_index (migrated_record b h work loc).
Proof.
  intros Hb Hh Hw Hf Ho Hs. split; [done| |by exists work].
  assert (is_u32 (u32 (len (blk_Transactions b)))) by apply u32_range.
  repeat first [apply Forall_nil_2|apply Forall_cons_2]; try done; by_decide.
Qed.

(** Undo data: the record gets its place, and nothing else changes. *)
Lemma migrate_undo_spec db hash u f rec st r st' :
  bolt_Get db "undodata" hash = Ok u → migrate_undo db hash f rec st = (r, st') →
  (fits st' → fits st) ∧
  (valid st → fits st' → wf_index rec → f = dbi_FileNum rec →
   valid st' ∧ keeps_files st st' ∧ keeps_index st st' ∧ keeps_utxos st st' ∧
   ∃ rec', r = Ok rec' ∧ wf_index rec' ∧
     (dbi_Header rec', dbi_Height rec', dbi_ChainWork rec', dbi_FileNum rec', dbi_DataPos rec', dbi_DataSize rec') =
     (dbi_Header rec, dbi_Height rec, dbi_ChainWork rec, dbi_FileNum rec, dbi_DataPos rec, dbi_DataSize rec) ∧
     Z.land (dbi_Status rec') StatusHaveData = Z.land (dbi_Status rec) StatusHaveData ∧
     ∀ data, u = Some data → data ≠ [] → len data ≤ maxBlockFileSize →
       Z.land (dbi_Status rec') StatusHaveUndo ≠ 0 ∧
       ReadUndo st' (dbi_UndoFile rec') (dbi_UndoPos rec') (dbi_UndoSize rec') = Ok data).
Proof.
  intros Hu. unfold migrate_undo, LegacyGetUndoData. rewrite Hu. cbn [mbind res_bind].
  destruct u as [[|b data]|]; cbn [found].
  1,3: intros [= <- <-]; split; [done|]; intros Hv _ Hrec ->; split_and!; try done; eexists; split_and!; naive_solver.
  unfold catch, mbind, proc_bind. destruct (WriteUndo true f (b :: data) st) as [r1 st1] eqn:Hw.
  apply WriteUndo_law in Hw as [Hfit Hw]. intros Hrun.
  assert (st' = st1) as -> by (by destruct r1 as [[]| |]; injection Hrun as <- <-).
  split; [done|]. intros Hv Hf Hrec ->. destruct (Hw Hv Hf) as (Hv1 & Hkf & Hki & _ & Hku & o & s & -> & Ho & Hs & Hread).
  injection Hrun as <-. split_and!; try done. eexists. split; [done|]. split; [|split; [done|split]].
  - destruct Hrec as [Hh Hfields Hwork]. rewrite !Forall_cons in Hfields.
    destruct Hfields as (? & ? & ? & ? & ? & ? & ? & ? & ? & _). split; [done| |done].
    repeat first [apply Forall_nil_2|apply Forall_cons_2]; try done.
    apply is_u32_lor; [done|]. unfold is_u32, StatusHaveUndo. lia.
  - cbn. rewrite Z.land_lor_distr_l. change (Z.land StatusHaveUndo StatusHaveData) with 0. by rewrite Z.lor_0_r.
  - intros ? [= <-] _ Hle. split; [|by apply Hread]. cbn. rewrite Z.land_lor_distr_l.
    change (Z.land StatusHaveUndo StatusHaveUndo) with 32. intros [_ Hz]%Z.lor_eq_0_iff. done.
Qed.

#[local] Instance keeps_files_preorder : PreOrder (keeps_files (St := St)).
Proof. split; [by intros st|]. intros st1 st2 st3 [Hb1 Hu1] [Hb2 Hu2]. split; eauto. Qed.
#[local] Instance keeps_utxos_preorder : PreOrder (keeps_utxos (St := St)).
Proof. split; [by intros st|]. intros st1 st2 st3 [Hk1 Hb1] [Hk2 Hb2]. split; [intros k|]; congruence. Qed.

(** One turn of the loop. *)
Lemma migrate_block_spec db bs i b work st r st' :
  legacy_chain db bs → bs !! i = Some b → migrate_block db (Z.of_nat i) work st = (r, st') →
  (fits st' → fits st) ∧
  (valid st → fits st' → 0 ≤ work + block_work b < 2 ^ 256 →
   r = Ok (work + block_work b) ∧ valid st' ∧ keeps_files st st' ∧ keeps_utxos st st' ∧
   (∀ h', wf_hash h' → h' ≠ hash_of b → res_option (GetBlockIndex st' h') = res_option (GetBlockIndex st h')) ∧
   ∀ u, bolt_Get db "undodata" (hash_of b) = Ok u → migrated st' b (Z.of_nat i) (work + block_work b) u).
Proof.
  intros Hl Hb. destruct (LegacyGetBlock_Ok db bs i b Hl Hb) as [Hh Hblk]. destruct (lc_undo _ _ Hl i b Hb) as [u Hu].
  assert (wf_block b) as Hwf by (pose proof (lc_wf _ _ Hl) as Hx; rewrite Forall_lookup in Hx; eauto).
  assert (len (Block_Serialize b) ≤ maxBlockFileSize - 8) as Hsz by
    (pose proof (lc_size _ _ Hl) as Hx; rewrite Forall_lookup in Hx; eauto).
  assert (is_u32 (Z.of_nat i)) as Hi.
  { apply lookup_lt_Some in Hb. pose proof (lc_len _ _ Hl). unfold is_u32. lia. }
  unfold migrate_block. rewrite Hh. cbn [wrap]. unfold mbind at 1, proc_bind at 1, pure at 1. rewrite Hblk. cbn [wrap].
  unfold mbind, proc_bind, pure, pwrap. destruct (WriteBlock true (hash_of b) b st) as [r1 st1] eqn:Hw.
  apply WriteBlock_law in Hw as [Hfit1 Hw]. destruct r1 as [loc|e|]; cbn [wrap].
  2,3: intros [= <- <-]; split; [done|]; intros Hv Hf _; destruct (Hw Hv Hf Hwf Hsz) as (_ & _ & _ & _ & _ & ? & ? & ? & ? & _); done.
  fold (block_work b). cbv zeta.
  destruct (migrate_undo db (hash_of b) loc.1.1 _ st1) as [r2 st2] eqn:Hm.
  destruct (migrate_undo_spec _ _ _ _ _ _ _ _ Hu Hm) as [Hfit2 Hm2].
  assert (fits st2 → valid st → 0 ≤ work + block_work b < 2 ^ 256 →
    valid st1 ∧ keeps_files st st1 ∧ keeps_index st st1 ∧ keeps_utxos st st1 ∧ ReadBlock st1 loc.1.1 loc.1.2 loc.2 = Ok b ∧
    wf_index (migrated_record b (Z.of_nat i) (work + block_work b) loc)) as Hst1.
  { intros Hf2 Hv Hwork. destruct (Hw Hv (Hfit2 Hf2) Hwf Hsz) as (Hv1 & Hk1 & Hi1 & _ & Hu1 & f & o & s & [= ->] & ? & ? & ? & Hread).
    split_and!; try done. apply migrated_record_wf; try done. apply Hwf. }
  destruct r2 as [rec|e|]; cbn [wrap].
  2,3: intros [= <- <-]; split; [by eauto|]; intros Hv Hf2 Hwork;
    destruct (Hst1 Hf2 Hv Hwork) as (Hv1 & _ & _ & _ & _ & Hrec);
    destruct (Hm2 Hv1 Hf2 Hrec eq_refl) as (_ & _ & _ & _ & ? & ? & _); done.
  destruct (PutBlockIndex true (hash_of b) rec st2) as [r3 st3] eqn:Hp. apply PutBlockIndex_law in Hp as [Hfit3 Hp].
  intros Hrun. assert (st' = st3) as -> by (by destruct r3; injection Hrun as _ <-). split; [by eauto|]. intros Hv Hf3 Hwork.
  destruct (Hst1 (Hfit3 Hf3) Hv Hwork) as (Hv1 & Hk1 & Hi1 & Hu1 & Hread & Hrec).
  destruct (Hm2 Hv1 (Hfit3 Hf3) Hrec eq_refl) as (Hv2 & Hk2 & Hi2 & Hu2 & rec' & [= <-] & Hrec' & Hfields & Hst & Hundo).
  destruct (Hp Hv2 (hash_of_wf b) Hrec') as (Hv3 & Hk3 & _ & Hu3 & -> & Hget & Hother).
  injection Hrun as <-. cbn in Hfields. injection Hfields as Hf_h Hf_n Hf_w Hf_f Hf_o Hf_s.
  split_and!; [done|done|by etrans; [|etrans]|by etrans; [|etrans]| |].
  - intros h' Hh' Hne. by rewrite Hother, Hi2, Hi1.
  - intros u' Hu'. rewrite Hu in Hu'. injection Hu' as <-. exists rec. split_and!; try done.
    + apply GetBlock_Ok. exists rec. split_and!; [done|by rewrite Hst| |done]. rewrite Hf_f, Hf_o, Hf_s. by apply Hk3, Hk2.
    + intros data Hd Hne Hle. destruct (Hundo data Hd Hne Hle). split; [done|]. by apply Hk3.
Qed.

Lemma block_work_nonneg b : 0 ≤ block_work b.
Proof.
  unfold block_work, CalcWork. destruct (Z.leb_spec (CompactToBig (hdr_Bits (blk_Header b))) 0); [done|].
  apply Z.div_pos; lia.
Qed.
Lemma sum_work_nonneg bs : 0 ≤ sumZ block_work bs.
Proof. apply sumZ_nonneg, Forall_forall. intros b _. apply block_work_nonneg. Qed.
Lemma sum_work_cons b bs : sumZ block_work (b :: bs) = block_work b + sumZ block_work bs.
Proof. done. Qed.

(** The blocks from height [i] on. *)
Lemma migrate_loop_spec db bs n : legacy_chain db bs → ∀ i work st r st',
  (i + n = length bs)%nat → migrate_loop n db (Z.of_nat i) work st = (r, st') →
  (fits st' → fits st) ∧
  (valid st → fits st' → 0 ≤ work → work + sumZ block_work (drop i bs) < 2 ^ 256 →
   r = Ok () ∧ valid st' ∧ keeps_files st st' ∧ keeps_utxos st st' ∧
   (∀ h', wf_hash h' → h' ∉ (λ b, hash_of b) <$> drop i bs →
      res_option (GetBlockIndex st' h') = res_option (GetBlockIndex st h')) ∧
   ∀ j b u, drop i bs !! j = Some b → bolt_Get db "undodata" (hash_of b) = Ok u →
     migrated st' b (Z.of_nat (i + j)) (work + sumZ block_work (take (S j) (drop i bs))) u).
Proof.
  intros Hl. induction n as [|n IH]; intros i work st r st' Hn; cbn [migrate_loop].
  { intros [= <- <-]. split; [done|]. intros Hv _ _ _. rewrite drop_ge by lia. by split_and!. }
  destruct (lookup_lt_is_Some_2 bs i ltac:(lia)) as [b Hb].
  assert (drop i bs = b :: drop (S i) bs) as Hdrop by (by apply drop_S).
  unfold mbind, proc_bind. destruct (migrate_block db (Z.of_nat i) work st) as [r1 st1] eqn:Hm.
  destruct (migrate_block_spec _ _ _ _ _ _ _ _ Hl Hb Hm) as [Hfit1 Hm1].
  rewrite Hdrop, sum_work_cons. pose proof (block_work_nonneg b). pose proof (sum_work_nonneg (drop (S i) bs)).
  destruct r1 as [work1|e|].
  2,3: intros [= <- <-]; split; [done|]; intros Hv Hf Hw0 Hw1; destruct (Hm1 Hv Hf ltac:(lia)); done.
  assert (u32 (Z.of_nat i + 1) = Z.of_nat (S i)) as ->.
  { pose proof (lc_len _ _ Hl). rewrite u32_id; [lia|]. unfold is_u32. lia. }
  intros Hrun. destruct (IH (S i) work1 st1 r st' ltac:(lia) Hrun) as [Hfit2 Hm2]. split; [by auto|]. intros Hv Hf Hw0 Hw1.
  destruct (Hm1 Hv (Hfit2 Hf) ltac:(lia)) as ([= ->] & Hv1 & Hk1 & Hu1 & Hother1 & Hmig1).
  destruct (Hm2 Hv1 Hf ltac:(lia) ltac:(lia)) as (-> & Hv2 & Hk2 & Hu2 & Hother2 & Hmig2).
  assert (hash_of b ∉ (λ b, hash_of b) <$> drop (S i) bs) as Hnot.
  { pose proof (lc_nodup _ _ Hl) as Hnd. rewrite <- (take_drop i bs), fmap_app, Hdrop in Hnd.
    apply NoDup_app in Hnd as (_ & _ & Hnd). cbn in Hnd. by apply NoDup_cons in Hnd as [? _]. }
  split_and!; [done|done|by etrans|by etrans| |].
  - intros h' Hh' [Hne Hin]%not_elem_of_cons. by rewrite Hother2, Hother1.
  - intros [|j] b' u Hj Hu; cbn in Hj.
    + injection Hj as <-. rewrite Nat.add_0_r. cbn. rewrite Z.add_0_r.
      eapply migrated_mono; [exact Hk2| |by apply Hmig1]. apply Hother2; [apply hash_of_wf|done].
    + replace (i + S j)%nat with (S i + j)%nat by lia. cbn [take]. rewrite sum_work_cons, Z.add_assoc. by apply Hmig2.
Qed.

(** C33: The migration of a chain: on a healthy store with room for the blocks it
    returns without an error, the tip is the legacy tip, every block can be read
    back under its hash with its height, its chain work and its undo data, and the
    chainstate is left alone, so that the chain manager rebuilds it.  The chain work
    is the sum of the work up to the block, except that a chain of the genesis block
    alone starts at the work of the genesis block and counts it twice. *)
Theorem migration_correct (IsNotExist : list byte → bool) (LegacyDBPath DBPath : list byte)
    (NewBoltStore : list byte → res DB) (NewFileStore : res St) db bs b st r st' :
  let path := if IsNotExist LegacyDBPath then DBPath else LegacyDBPath in
  IsNotExist path = false → NewBoltStore path = Ok db → NewFileStore = Ok st →
  legacy_chain db bs → last bs = Some b → valid st →
  MigrateFromLegacy p IsNotExist LegacyDBPath DBPath NewBoltStore NewFileStore = (r, Some st') → fits st' →
  let start := if 1 <? len bs then 0 else CalcWork (hdr_Bits (blk_Header (p_GenesisBlock p))) in
  start + sumZ block_work bs < 2 ^ 256 →
  r = Ok () ∧ valid st' ∧ GetChainTip st' = Ok (hash_of b, len bs - 1) ∧ keeps_utxos st st' ∧
  ∀ i bi u, bs !! i = Some bi → bolt_Get db "undodata" (hash_of bi) = Ok u →
    migrated st' bi (Z.of_nat i) (start + sumZ block_work (take (S i) bs)) u.
Proof.
  intros path Hpath Hdb -> Hl Hb Hv Hrun Hf start Hwork. destruct (LegacyGetChainTip_Ok db bs Hl) as (b' & Hb' & Hdata & Htip).
  rewrite Hb in Hb'. injection Hb' as <-. revert Hrun. unfold MigrateFromLegacy. fold path.
  replace (IsNotExist LegacyDBPath && IsNotExist DBPath) with false by
    (unfold path in Hpath; destruct (IsNotExist LegacyDBPath), (IsNotExist DBPath); done).
  rewrite Hdb. cbn [wrap mbind res_bind]. rewrite Hdata. cbn [mbind res_bind fail_if negb]. rewrite Htip. cbn [wrap mbind res_bind].
  assert (start_work p (len bs - 1) = start) as Hstart.
  { unfold start_work, start. by replace (0 <? len bs - 1) with (1 <? len bs) by lia. }
  assert (0 ≤ start) as Hs0. { unfold start. destruct (1 <? len bs); [done|]. apply block_work_nonneg. }
  unfold migrate_chain, mbind, proc_bind, pwrap. rewrite Hstart. replace (Z.to_nat (len bs - 1 + 1)) with (length bs) by lia.
  destruct (migrate_loop (length bs) db 0 start st) as [r1 st1] eqn:Hm. change 0 with (Z.of_nat 0) in Hm.
  destruct (migrate_loop_spec db bs (length bs) Hl 0%nat start st r1 st1 eq_refl Hm) as [Hfit1 Hm1].
  rewrite drop_0 in Hm1. destruct r1 as [[]|e|].
  2,3: intros [= <- <-]; by destruct (Hm1 Hv Hf Hs0 Hwork).
  destruct (PutChainTip true (hash_of b) (len bs - 1) st1) as [r2 st2] eqn:Hp. intros [= <- <-].
  apply PutChainTip_law in Hp as [Hfit2 Hp]. destruct (Hm1 Hv (Hfit2 Hf) Hs0 Hwork) as (_ & Hv1 & Hk1 & Hu1 & _ & Hmig).
  assert (is_u32 (len bs - 1)). { pose proof (lc_len _ _ Hl). destruct bs; [done|]. cbn [length] in *. unfold is_u32. lia. }
  destruct (Hp Hv1 (hash_of_wf b) ltac:(done)) as (Hv2 & Hk2 & Hi2 & Hu2 & -> & Ht).
  split_and!; [done|done|done|by etrans|]. intros i bi u Hbi Hu.
  eapply migrated_mono; [exact Hk2|apply Hi2, hash_of_wf|by apply (Hmig i)].
Qed.
End proofs.

(** ** Witness: a legacy chain of two blocks *)

#[local] Existing Instance mem_db.
#[local] Existing Instance mem_laws.

Definition legacy_map : Type := gmap (string * list byte) (list byte).
#[local] Instance map_bolt : Bolt legacy_map := { bolt_Get m bucket k := Ok (m !! (bucket, k)) }.

Definition lw_genesis : Block := p_GenesisBlock Mainnet.
Definition lw_next : Block :=
  mkBlock (mkBlockHeader 1 (hash_of lw_genesis) ZeroHash 1800000000 0x207fffff 1) (blk_Transactions lw_genesis).
Definition lw_chain : list Block := [lw_genesis; lw_next].
Definition lw_hash0 : Hash := Eval vm_compute in hash_of lw_genesis.
Definition lw_hash1 : Hash := Eval vm_compute in hash_of lw_next.
Definition lw_db : legacy_map := list_to_map [
  (("chainstate", String.list_byte_of_string "tip"), lw_hash1 ++ be_encode 4 1);
  (("heightindex", be_encode 4 0), lw_hash0);
  (("heightindex", be_encode 4 1), lw_hash1);
  (("blocks", lw_hash0), Block_Serialize lw_genesis);
  (("blocks", lw_hash1), Block_Serialize lw_next);
  (("undodata", lw_hash1), [x01; x02; x03])].

Lemma lw_hash0_eq : hash_of lw_genesis = lw_hash0.
Proof. by vm_compute. Qed.
Lemma lw_hash1_eq : hash_of lw_next = lw_hash1.
Proof. by vm_compute. Qed.

Lemma lw_legacy : legacy_chain lw_db lw_chain.
Proof.
  split.
  - exists lw_next. rewrite lw_hash1_eq. split; [done|by vm_compute].
  - intros [|[|i]] b; [intros [= <-]|intros [= <-]|done].
    + rewrite lw_hash0_eq. by vm_compute.
    + rewrite lw_hash1_eq. by vm_compute.
  - intros [|[|i]] b; [intros [= <-]|intros [= <-]|done].
    + rewrite lw_hash0_eq. by vm_compute.
    + rewrite lw_hash1_eq. by vm_compute.
  - intros i b _. by eexists.
  - repeat constructor; by_decide.
  - repeat constructor; by_decide.
  - change (NoDup [hash_of lw_genesis; hash_of lw_next]). rewrite lw_hash0_eq, lw_hash1_eq. by_decide.
  - done.
Qed.

Definition lw_missing (path : list byte) : bool := bool_decide (path = [x61]).
Definition lw_run : res () * option FileStore :=
  MigrateFromLegacy Mainnet lw_missing [x61] [x62] (λ _, Ok lw_db) (Ok w_store).
Definition lw_store : FileStore := default w_store lw_run.2.

Lemma run_some {A B} (d : B) (x : A * option B) : bool_decide (is_Some x.2) = true → x = (x.1, Some (default d x.2)).
Proof. by destruct x as [a [b|]]. Qed.
Lemma lw_ran : lw_run = (lw_run.1, Some lw_store).
Proof. apply run_some. by vm_compute. Qed.

Lemma migration_correct_witness :
  GetChainTip lw_store = Ok (hash_of lw_next, 1) ∧
  migrated lw_store lw_next 1 (sumZ block_work lw_chain) (Some [x01; x02; x03]).
Proof.
  destruct (migration_correct Mainnet lw_missing [x61] [x62] (λ _, Ok lw_db) (Ok w_store) lw_db lw_chain lw_next
    w_store lw_run.1 lw_store eq_refl eq_refl eq_refl lw_legacy eq_refl w_store_valid lw_ran) as (_ & _ & Ht & _ & Hm).
  - apply (w_limits (fs_files lw_store)); by vm_compute.
  - by_decide.
  - split; [exact Ht|]. apply (Hm 1%nat lw_next); [done|]. rewrite lw_hash1_eq. by vm_compute.
Defined.
