(* ===== verification/Chain.v ===== *)
(** * internal/chain/chain.go: the chain manager

    The state of [Chain] with its block store, and the operations that change
    it: initialisation, block processing, reorganisation and the orphan pool.
    The store is any implementation of [BlockStore] (file Store), the engine any
    [Engine] (file Validation).

    [c_clock] counts the readings of the two clocks, [wall] for [time.Now] in
    nanoseconds and [adjusted] for the time source in seconds: nothing is
    assumed about successive readings.  Logging and metrics are left out.  The
    mutex serialises the exported methods, each of which is one call here. *)
From stdpp Require Import sorting.
From S2P Require Import Prelude Types Sha256 Target Params Utxo Keys Script TxValidation.
From S2P Require Import Algorithms Validation BlockFiles Store.

Definition MaxOrphanBlocks : Z := 100.
Definition OrphanExpiry : Z := 20 * 60 * 1000000000.
Definition day : Z := 24 * 3600 * 1000000000.
Definition ibdFlushInterval : Z := 500.

Definition ErrSideChain : error := Sentinel "side chain block".
Definition ErrOrphanBlock : error := Sentinel "orphan block".
Definition ErrReorgTooDeep : error := Sentinel "reorg exceeds maximum depth".

Record orphanBlock : Type := mkOrphanBlock { ob_block : Block; ob_addedAt : Z }.
Record reorgRecord : Type := mkReorgRecord { rr_height : Z; rr_depth : Z; rr_timestamp : Z }.

Record Chain (St : Type) : Type := mkChain {
  c_store : St;
  c_tipHash : Hash;
  c_tipHeight : Z;
  c_tipWork : Z;
  c_heightByHash : gmap Hash Z;
  c_hashByHeight : gmap Z Hash;
  c_orphans : gmap Hash orphanBlock;
  c_utxoSet : UtxoSet;
  c_reorgHistory : list reorgRecord;
  c_ibdMode : bool;
  c_ibdBlocksSinceSync : Z;
  c_clock : nat
}.
Arguments mkChain {St}.
Arguments c_store {St}. Arguments c_tipHash {St}. Arguments c_tipHeight {St}.
Arguments c_tipWork {St}. Arguments c_heightByHash {St}. Arguments c_hashByHeight {St}.
Arguments c_orphans {St}. Arguments c_utxoSet {St}. Arguments c_reorgHistory {St}.
Arguments c_ibdMode {St}. Arguments c_ibdBlocksSinceSync {St}. Arguments c_clock {St}.

Section chain.
Context {St : Type} `{BlockStore St} `{CryptoLib}.
Context (p : ChainParams) (engine : Engine) (wall adjusted : nat → Z).
Implicit Types c : Chain St.

(** ** Assignments to the fields *)

Definition set_store (s : St) c := mkChain s (c_tipHash c) (c_tipHeight c) (c_tipWork c)
  (c_heightByHash c) (c_hashByHeight c) (c_orphans c) (c_utxoSet c) (c_reorgHistory c)
  (c_ibdMode c) (c_ibdBlocksSinceSync c) (c_clock c).
Definition set_tip (h : Hash) (n w : Z) c := mkChain (c_store c) h n w
  (c_heightByHash c) (c_hashByHeight c) (c_orphans c) (c_utxoSet c) (c_reorgHistory c)
  (c_ibdMode c) (c_ibdBlocksSinceSync c) (c_clock c).
Definition set_maps (hb : gmap Hash Z) (bh : gmap Z Hash) c := mkChain (c_store c)
  (c_tipHash c) (c_tipHeight c) (c_tipWork c) hb bh (c_orphans c) (c_utxoSet c)
  (c_reorgHistory c) (c_ibdMode c) (c_ibdBlocksSinceSync c) (c_clock c).
Definition set_orphans (o : gmap Hash orphanBlock) c := mkChain (c_store c)
  (c_tipHash c) (c_tipHeight c) (c_tipWork c) (c_heightByHash c) (c_hashByHeight c) o
  (c_utxoSet c) (c_reorgHistory c) (c_ibdMode c) (c_ibdBlocksSinceSync c) (c_clock c).
Definition set_utxoSet (s : UtxoSet) c := mkChain (c_store c)
  (c_tipHash c) (c_tipHeight c) (c_tipWork c) (c_heightByHash c) (c_hashByHeight c)
  (c_orphans c) s (c_reorgHistory c) (c_ibdMode c) (c_ibdBlocksSinceSync c) (c_clock c).
Definition set_history (l : list reorgRecord) c := mkChain (c_store c)
  (c_tipHash c) (c_tipHeight c) (c_tipWork c) (c_heightByHash c) (c_hashByHeight c)
  (c_orphans c) (c_utxoSet c) l (c_ibdMode c) (c_ibdBlocksSinceSync c) (c_clock c).
Definition set_ibd (m : bool) (n : Z) c := mkChain (c_store c)
  (c_tipHash c) (c_tipHeight c) (c_tipWork c) (c_heightByHash c) (c_hashByHeight c)
  (c_orphans c) (c_utxoSet c) (c_reorgHistory c) m n (c_clock c).
Definition set_clock (n : nat) c := mkChain (c_store c)
  (c_tipHash c) (c_tipHeight c) (c_tipWork c) (c_heightByHash c) (c_hashByHeight c)
  (c_orphans c) (c_utxoSet c) (c_reorgHistory c) (c_ibdMode c) (c_ibdBlocksSinceSync c) n.

Definition put_height (h : Hash) (n : Z) c := set_maps (<[h := n]> (c_heightByHash c)) (c_hashByHeight c) c.
Definition put_both (h : Hash) (n : Z) c :=
  set_maps (<[h := n]> (c_heightByHash c)) (<[n := h]> (c_hashByHeight c)) c.

Definition on_store {A} (m : proc St A) : proc (Chain St) A := on c_store set_store m.

(** [time.Now()] and [c.timeSource.Now()]. *)
Definition time_Now : proc (Chain St) Z := λ c, (Ok (wall (c_clock c)), set_clock (S (c_clock c)) c).
Definition timeSource_Now : proc (Chain St) Z :=
  λ c, (Ok (adjusted (c_clock c)), set_clock (S (c_clock c)) c).

Definition New (s : St) : Chain St :=
  mkChain s ZeroHash 0 0 ∅ ∅ ∅ NewSet [] false 0 0.

(** ** Ancestors and work *)

Definition getAncestorUnsafe c (height : Z) : option BlockHeader :=
  match c_hashByHeight c !! height with
  | None => None
  | Some hash => res_option (GetHeader (c_store c) hash)
  end.

(** The walk back to the main chain; [h] decreases, so it has at most [h + 1]
    turns. *)
Fixpoint ancestors_loop (fuel : nat) c (current : Hash) (h : Z) (ancestors : gmap Z BlockHeader)
    : gmap Z BlockHeader :=
  match fuel with
  | O => ancestors
  | S fuel' =>
      if bool_decide (c_hashByHeight c !! h = Some current) then ancestors else
      match GetHeader (c_store c) current with
      | Ok header =>
          let ancestors := <[h := header]> ancestors in
          if Hash_IsZero (hdr_PrevBlock header) || (h =? 0) then ancestors
          else ancestors_loop fuel' c (hdr_PrevBlock header) (h - 1) ancestors
      | _ => ancestors
      end
  end.

Definition buildAncestorLookup c (parentHash : Hash) (parentHeight : Z) : Ancestors :=
  let ancestors := ancestors_loop (S (Z.to_nat parentHeight)) c parentHash parentHeight ∅ in
  λ height, match ancestors !! height with
            | Some hdr => Some hdr
            | None => getAncestorUnsafe c height
            end.

Definition workForParentChain c (blockHash : Hash) : res Z :=
  rec ← wrap "load block index" (GetBlockIndex (c_store c) blockHash);
  match dbi_ChainWork rec with
  | None => Err (Errorf "block has nil ChainWork in index")
  | Some w => Ok w
  end.

(** ** Persisting the changes of the UTXO set *)

Definition put_ops (s : UtxoSet) (tx : Transaction) : list wb_op :=
  let txHash := HashTransaction tx in
  omap (λ i, match Set_Get s txHash (u32 (Z.of_nat i)) with
             | Some entry => Some (wb_PutUtxo txHash (u32 (Z.of_nat i)) (UtxoEntry_Serialize entry))
             | None => None
             end) (seq 0 (length (tx_Outputs tx))).

Definition delete_spent (so : SpentOutput) : wb_op :=
  wb_DeleteUtxo (op_Hash (so_OutPoint so)) (op_Index (so_OutPoint so)).

Definition persistUtxoChanges (sync : bool) (block : Block) (undoData : BlockUndoData)
    (blockHash : Hash) : proc (Chain St) () :=
  s ← gets c_utxoSet;
  let wb := mjoin (put_ops s <$> blk_Transactions block) ++
            (delete_spent <$> undoData) ++ [wb_PutBestBlock blockHash] in
  on_store (FlushUtxoBatch sync wb).

Definition delete_ops (tx : Transaction) : list wb_op :=
  (λ i, wb_DeleteUtxo (HashTransaction tx) (u32 (Z.of_nat i))) <$> seq 0 (length (tx_Outputs tx)).
Definition restore_spent (so : SpentOutput) : wb_op :=
  wb_PutUtxo (op_Hash (so_OutPoint so)) (op_Index (so_OutPoint so))
    (UtxoEntry_Serialize (so_Entry so)).

Definition persistUtxoDisconnect (block : Block) (undoData : BlockUndoData) (newBestHash : Hash)
    : proc (Chain St) () :=
  let wb := mjoin (delete_ops <$> blk_Transactions block) ++
            (restore_spent <$> undoData) ++ [wb_PutBestBlock newBestHash] in
  on_store (FlushUtxoBatch true wb).

Definition flushUtxoSetToChainstate : proc (Chain St) () :=
  s ← gets c_utxoSet;
  tipHash ← gets c_tipHash;
  let wb := ((λ hie, wb_PutUtxo hie.1.1 hie.1.2 (UtxoEntry_Serialize hie.2)) <$> Set_ForEach s) ++
            [wb_PutBestBlock tipHash] in
  on_store (FlushUtxoBatch true wb).

(** ** Extending the chain *)

(** [extendChain] and, without sync, [extendChainNoSync]. *)
Definition extendChain (sync : bool) (hash : Hash) (height work : Z) : proc (Chain St) () :=
  _ ← on_store (PutChainTip sync hash height);
  _ ← modify (put_both hash height);
  modify (set_tip hash height work).

Definition index_record (block : Block) (height work : Z) (loc : Z * Z * Z) : DiskBlockIndex :=
  mkDiskBlockIndex (blk_Header block) height (Z.lor StatusHaveData StatusValidHeader)
    (u32 (len (blk_Transactions block))) loc.1.1 loc.1.2 loc.2 0 0 0 (Some work).

Definition with_undo (rec : DiskBlockIndex) (undo : Z * Z) : DiskBlockIndex :=
  mkDiskBlockIndex (dbi_Header rec) (dbi_Height rec)
    (Z.lor (dbi_Status rec) (Z.lor StatusHaveUndo StatusValidTx)) (dbi_TxCount rec)
    (dbi_FileNum rec) (dbi_DataPos rec) (dbi_DataSize rec)
    (dbi_FileNum rec) undo.1 undo.2 (dbi_ChainWork rec).

Definition connect_utxos (block : Block) (height : Z) : proc (Chain St) BlockUndoData :=
  us ← asks (λ c, ConnectBlock (c_utxoSet c) block height None);
  let '(undo, s) := us in
  _ ← modify (set_utxoSet s);
  mret undo.
Definition disconnect_utxos (block : Block) (undo : BlockUndoData) : proc (Chain St) () :=
  modify (λ c, set_utxoSet (DisconnectBlock (c_utxoSet c) block undo) c).

(** If the call fails, the block is disconnected from the UTXO set again. *)
Definition or_disconnect {A} (msg : string) (block : Block) (undo : BlockUndoData)
    (m : proc (Chain St) A) : proc (Chain St) A :=
  catch m (λ e, _ ← disconnect_utxos block undo; throw (Wrapf msg e)).

(** The part the two callers share, from [ConnectBlock] on: connect, write the
    undo data and the index record, persist the UTXO changes, advance the tip. *)
Definition connect_tip (sync : bool) (blockHash : Hash) (block : Block) (newHeight newWork : Z)
    (loc : Z * Z * Z) : proc (Chain St) () :=
  undoData ← pwrap "connect block UTXOs" (connect_utxos block newHeight);
  undo ← or_disconnect "store undo data" block undoData
           (on_store (WriteUndo sync loc.1.1 (SerializeUndoData undoData)));
  let rec := with_undo (index_record block newHeight newWork loc) undo in
  _ ← or_disconnect "store block index" block undoData
        (on_store (PutBlockIndex sync blockHash rec));
  _ ← or_disconnect "persist UTXO changes" block undoData
        (persistUtxoChanges sync block undoData blockHash);
  extendChain sync blockHash newHeight newWork.

(** ** Initial block download *)

(** Errors are only logged. *)
Definition ibdSyncFlush : proc (Chain St) () :=
  _ ← ignore_err (on_store SyncBlockFiles);
  _ ← ignore_err (on_store FlushBlockIndex);
  tipHash ← gets c_tipHash;
  tipHeight ← gets c_tipHeight;
  _ ← ignore_err (on_store (FlushUtxoBatch true [wb_PutBestBlock tipHash]));
  ignore_err (on_store (PutChainTip true tipHash tipHeight)).

Definition SetIBDMode (enabled : bool) : proc (Chain St) () :=
  ibd ← gets c_ibdMode;
  _ ← (if ibd && negb enabled then
         _ ← ibdSyncFlush; modify (λ c, set_ibd (c_ibdMode c) 0 c)
       else mret ());
  modify (λ c, set_ibd enabled (c_ibdBlocksSinceSync c) c).

Definition ibd_count (sync : bool) : proc (Chain St) () :=
  if sync then mret () else
  _ ← modify (λ c, set_ibd (c_ibdMode c) (u32 (c_ibdBlocksSinceSync c + 1)) c);
  n ← gets c_ibdBlocksSinceSync;
  if ibdFlushInterval <=? n then
    _ ← ibdSyncFlush; modify (λ c, set_ibd (c_ibdMode c) 0 c)
  else mret ().

(** ** Reorganisation *)

(** Phase 0: the hashes from the new tip back to the first block whose parent is
    on the main chain, in this order.  Each turn goes one height down, so
    [newTipHeight + 1] turns suffice; [Panic] stands for a loop that does not
    end. *)
Fixpoint reorg_path (fuel : nat) c (current : Hash) : res (list Hash) :=
  match fuel with
  | O => Panic
  | S fuel' =>
      block ← wrap "load block during reorg" (GetBlock (c_store c) current);
      let prevHash := hdr_PrevBlock (blk_Header block) in
      let onMain := match c_heightByHash c !! prevHash with
                    | Some parentHeight =>
                        bool_decide (default ZeroHash (c_hashByHeight c !! parentHeight) = prevHash)
                    | None => false
                    end in
      if onMain then mret [current]
      else path ← reorg_path fuel' c prevHash; mret (current :: path)
  end.

(** [c.heightByHash[forkBlock.Header.PrevBlock]] for the last block of the path;
    the error of [GetBlock] is ignored and the block dereferenced. *)
Definition fork_height c (newChain : list Hash) : res Z :=
  match GetBlock (c_store c) (default ZeroHash (last newChain)) with
  | Ok forkBlock => Ok (default 0 (c_heightByHash c !! hdr_PrevBlock (blk_Header forkBlock)))
  | _ => Panic
  end.

(** The limits on the depth of this reorganisation and of those of the last 24
    hours; the history is pruned. *)
Definition check_reorg_depth (reorgDepth : Z) : proc (Chain St) () :=
  _ ← pure (fail_if ((0 <? p_MaxReorgDepth p) && (p_MaxReorgDepth p <? reorgDepth))
                    (Wrapf "depth exceeds limit" ErrReorgTooDeep));
  if 0 <? p_MaxReorgDepth p then
    now ← time_Now;
    let cutoff := now - day in
    _ ← modify (λ c, set_history
          (List.filter (λ r, cutoff <? rr_timestamp r) (c_reorgHistory c)) c);
    history ← gets c_reorgHistory;
    let cumulative := foldl (λ acc r, u32 (acc + rr_depth r)) 0 history in
    pure (fail_if (u32 (p_MaxReorgDepth p * 3) <? u32 (cumulative + reorgDepth))
                  (Wrapf "cumulative depth exceeds limit" ErrReorgTooDeep))
  else mret ().

(** The block and the undo data of the main-chain block at height [h]; only the
    trial looks at the status flag. *)
Definition load_undo (checkStatus : bool) c (h : Z) : res (Block * BlockUndoData) :=
  match c_hashByHeight c !! h with
  | None => Err (Errorf "invariant violation: missing hash at main-chain height")
  | Some hash =>
      block ← wrap "load block" (GetBlock (c_store c) hash);
      rec ← wrap "load block index" (GetBlockIndex (c_store c) hash);
      _ ← fail_if (checkStatus && (Z.land (dbi_Status rec) StatusHaveUndo =? 0))
                  (Errorf "no undo data for block");
      undoBytes ← wrap "read undo data"
        (ReadUndo (c_store c) (dbi_UndoFile rec) (dbi_UndoPos rec) (dbi_UndoSize rec));
      undoData ← wrap "deserialize undo data" (DeserializeUndoData undoBytes);
      mret (block, undoData)
  end.

(** Phase 1 works with two objects of type [utxo.Set]: the live one, which the
    field [utxoSet] of the chain manager points to, and the one that
    [cloneUtxoSet] allocates.  Its variable [trialSet] is a pointer to one of
    them, and the calls on it change the object it points to. *)
Record ReorgFrame : Type := mkReorgFrame { rf_chain : Chain St; rf_clone : UtxoSet }.
Inductive SetPtr : Type := LiveSet | ClonedSet.

Definition deref (ptr : SetPtr) (f : ReorgFrame) : UtxoSet :=
  match ptr with
  | LiveSet => c_utxoSet (rf_chain f)
  | ClonedSet => rf_clone f
  end.
Definition assign (ptr : SetPtr) (s : UtxoSet) (f : ReorgFrame) : ReorgFrame :=
  match ptr with
  | LiveSet => mkReorgFrame (set_utxoSet s (rf_chain f)) (rf_clone f)
  | ClonedSet => mkReorgFrame (rf_chain f) s
  end.

(** [cloneUtxoSet] rebuilds the set from the hash and index read from each key,
    in a new object. *)
Definition copy_set (src : UtxoSet) : UtxoSet :=
  foldl (λ dst hie, Set_Add dst hie.1.1 hie.1.2 hie.2) NewSet (Set_ForEach src).
Definition cloneUtxoSet (src : SetPtr) : proc ReorgFrame SetPtr :=
  _ ← modify (λ f, assign ClonedSet (copy_set (deref src f)) f);
  mret ClonedSet.

(** Disconnect [n] blocks from the trial set, from height [h] down. *)
Fixpoint trial_disconnect (n : nat) (h : Z) (trialSet : SetPtr) : proc ReorgFrame () :=
  match n with
  | O => mret ()
  | S n' =>
      bu ← asks (λ f, load_undo true (rf_chain f) h);
      let '(block, undoData) := bu in
      _ ← modify (λ f, assign trialSet (DisconnectBlock (deref trialSet f) block undoData) f);
      trial_disconnect n' (h - 1) trialSet
  end.

Record trialResult : Type := mkTrial { tr_hash : Hash; tr_height : Z; tr_block : Block }.

(** One block of the new chain: validate and connect it on the trial set. *)
Definition trial_connect (trialSet : SetPtr) (st : Z * list trialResult) (blockHash : Hash)
    : proc ReorgFrame (Z * list trialResult) :=
  let '(parentHeight, trialConnected) := st in
  let h := u32 (parentHeight + 1) in
  block ← asks (λ f, wrap "load new chain block for trial"
                       (GetBlock (c_store (rf_chain f)) blockHash));
  trialMTP ← gets (λ f, CalcMedianTimePast (u32 (h - 1))
               (buildAncestorLookup (rf_chain f) (hdr_PrevBlock (blk_Header block)) (u32 (h - 1))));
  _ ← asks (λ f, wrap "trial validate tx inputs"
              (ValidateTransactionInputs block (deref trialSet f) h p trialMTP None));
  us ← asks (λ f, wrap "trial connect block UTXOs" (ConnectBlock (deref trialSet f) block h None));
  _ ← modify (assign trialSet us.2);
  mret (h, trialConnected ++ [mkTrial blockHash h block]).

Definition reorg_trial (newChain : list Hash) (forkParentHeight : Z)
    : proc ReorgFrame (list trialResult) :=
  trialSet ← cloneUtxoSet LiveSet;
  tipHeight ← gets (λ f, c_tipHeight (rf_chain f));
  _ ← trial_disconnect (Z.to_nat (tipHeight - forkParentHeight)) tipHeight trialSet;
  st ← foldP (trial_connect trialSet) (forkParentHeight, []) (reverse newChain);
  mret st.2.

(** The frame of a call: the cloned object is garbage once phase 1 is over. *)
Definition in_frame {A} (m : proc ReorgFrame A) : proc (Chain St) A := λ c,
  let '(r, f) := m (mkReorgFrame c NewSet) in (r, rf_chain f).

(** Phase 2: the same on the live set, persisting every step. *)
Fixpoint live_disconnect (n : nat) (h : Z) : proc (Chain St) () :=
  match n with
  | O => mret ()
  | S n' =>
      bu ← asks (λ c, load_undo false c h);
      let '(block, undoData) := bu in
      _ ← disconnect_utxos block undoData;
      _ ← pwrap "persist disconnect"
            (persistUtxoDisconnect block undoData (hdr_PrevBlock (blk_Header block)));
      live_disconnect n' (h - 1)
  end.

Definition live_connect (_ : ()) (tr : trialResult) : proc (Chain St) () :=
  liveUndo ← pwrap "connect block UTXOs during reorg"
               (connect_utxos (tr_block tr) (tr_height tr));
  _ ← pwrap "persist UTXO connect during reorg"
        (persistUtxoChanges true (tr_block tr) liveUndo (tr_hash tr));
  rec ← asks (λ c, wrap "get block index" (GetBlockIndex (c_store c) (tr_hash tr)));
  undo ← pwrap "write undo data during reorg"
           (on_store (WriteUndo true (dbi_FileNum rec) (SerializeUndoData liveUndo)));
  _ ← pwrap "update block index during reorg"
        (on_store (PutBlockIndex true (tr_hash tr) (with_undo rec undo)));
  modify (put_both (tr_hash tr) (tr_height tr)).

(** The main-chain hashes above the fork. *)
Definition old_chain_hashes c (forkParentHeight : Z) : list (Z * Hash) :=
  omap (λ h, hash ← c_hashByHeight c !! h; Some (h, hash))
    (seqZ (forkParentHeight + 1) (c_tipHeight c - forkParentHeight)).

Definition remove_old c (old : Z * Hash) : Chain St :=
  let '(h, oldHash) := old in
  set_maps (delete oldHash (c_heightByHash c))
    (if bool_decide (default ZeroHash (c_hashByHeight c !! h) = oldHash)
     then delete h (c_hashByHeight c) else c_hashByHeight c) c.

Definition reorg_commit (newTipHash : Hash) (newTipHeight newWork forkParentHeight reorgDepth : Z)
    (trials : list trialResult) : proc (Chain St) () :=
  tipHeight ← gets c_tipHeight;
  _ ← live_disconnect (Z.to_nat (tipHeight - forkParentHeight)) tipHeight;
  oldChainHashes ← gets (λ c, old_chain_hashes c forkParentHeight);
  _ ← foldP live_connect () trials;
  _ ← modify (λ c, foldl remove_old c oldChainHashes);
  _ ← on_store (PutChainTip true newTipHash newTipHeight);
  _ ← modify (set_tip newTipHash newTipHeight newWork);
  now ← time_Now;
  modify (λ c, set_history (c_reorgHistory c ++ [mkReorgRecord newTipHeight reorgDepth now]) c).

Definition reorg (newTipHash : Hash) (newTipHeight newWork : Z) : proc (Chain St) () :=
  newChain ← asks (λ c, reorg_path (S (Z.to_nat newTipHeight)) c newTipHash);
  forkParentHeight ← asks (λ c, fork_height c newChain);
  oldTipHeight ← gets c_tipHeight;
  let reorgDepth := u32 (oldTipHeight - forkParentHeight) in
  _ ← check_reorg_depth reorgDepth;
  trialConnected ← in_frame (reorg_trial newChain forkParentHeight);
  reorg_commit newTipHash newTipHeight newWork forkParentHeight reorgDepth trialConnected.

(** ** The orphan pool *)

Definition evictExpiredOrphans : proc (Chain St) () :=
  now ← time_Now;
  modify (λ c, set_orphans
    (filter (λ ho, ¬ OrphanExpiry < now - ob_addedAt ho.2) (c_orphans c)) c).

Definition EvictExpiredOrphans : proc (Chain St) Z :=
  before ← gets (λ c, Z.of_nat (size (c_orphans c)));
  _ ← evictExpiredOrphans;
  after ← gets (λ c, Z.of_nat (size (c_orphans c)));
  mret (before - after).

Definition OrphanCount c : Z := Z.of_nat (size (c_orphans c)).

(** The first orphan, in the order of the map's iteration, with the least
    arrival time. *)
Definition oldest_orphan (orphans : gmap Hash orphanBlock) : option (Hash * Z) :=
  foldl (λ acc ho, match acc with
                   | Some (_, t) => if ob_addedAt ho.2 <? t then Some (ho.1, ob_addedAt ho.2) else acc
                   | None => Some (ho.1, ob_addedAt ho.2)
                   end) None (map_to_list orphans).

Definition evictOldestOrphan : proc (Chain St) () :=
  modify (λ c, match oldest_orphan (c_orphans c) with
               | Some (hash, _) => set_orphans (delete hash (c_orphans c)) c
               | None => c
               end).

(** What the body of the loop over the candidates does at its end: [continue],
    [append] to the queue, or restart the queue and [break]. *)
Inductive orphan_outcome : Type :=
| Skip
| Queue
| Restart.

Definition skip_on_error (m : proc (Chain St) orphan_outcome) : proc (Chain St) orphan_outcome :=
  catch m (λ _, mret Skip).

(** The checks every block with a known parent passes; returns its height, work
    and median time past. *)
Definition check_block (block : Block) (trustedHeader : bool) (parentHeight : Z)
    : proc (Chain St) (Z * Z * Z) :=
  let hdr := blk_Header block in
  let newHeight := u32 (parentHeight + 1) in
  parentHeader ← pwrap "load parent header"
                   (asks (λ c, GetHeader (c_store c) (hdr_PrevBlock hdr)));
  getAncestor ← gets (λ c, buildAncestorLookup c (hdr_PrevBlock hdr) parentHeight);
  _ ← (if trustedHeader then mret () else
         now ← timeSource_Now;
         pwrap "validate header"
           (pure (FullValidateHeader engine hdr parentHeader newHeight getAncestor (u32 now)
                    parentHeight p)));
  _ ← pwrap "validate block" (pure (e_ValidateBlock engine block newHeight p));
  parentWork ← pwrap "compute parent chain work"
                 (asks (λ c, workForParentChain c (hdr_PrevBlock hdr)));
  mret (newHeight, parentWork + e_CalcBlockWeight engine hdr,
        CalcMedianTimePast parentHeight getAncestor).

Definition process_orphan (blockHash : Hash) (orphan : Block) : proc (Chain St) orphan_outcome :=
  let prev := hdr_PrevBlock (blk_Header orphan) in
  known ← gets (λ c, c_heightByHash c !! prev);
  match known with
  | None => mret Skip
  | Some parentHeight => skip_on_error (
      hwm ← check_block orphan false parentHeight;
      let '(newHeight, newWork, mtp) := hwm in
      loc ← on_store (WriteBlock true blockHash orphan);
      let rec := index_record orphan newHeight newWork loc in
      tipHash ← gets c_tipHash;
      tipWork ← gets c_tipWork;
      if bool_decide (prev = tipHash) then
        _ ← asks (λ c, ValidateTransactionInputs orphan (c_utxoSet c) newHeight p mtp None);
        _ ← connect_tip true blockHash orphan newHeight newWork loc;
        mret Queue
      else if tipWork <? newWork then
        _ ← ignore_err (on_store (PutBlockIndex true blockHash rec));
        _ ← modify (put_height blockHash newHeight);
        _ ← catch (reorg blockHash newHeight newWork) (λ e,
              _ ← (if errors_Is e ErrReorgTooDeep then mret () else
                     _ ← modify (λ c, set_maps (delete blockHash (c_heightByHash c)) (c_hashByHeight c) c);
                     ignore_err (on_store (DeleteBlockIndex blockHash)));
              throw e);
        mret Restart
      else
        _ ← ignore_err (on_store (PutBlockIndex true blockHash rec));
        _ ← modify (put_height blockHash newHeight);
        mret Queue)
  end.

(** The candidates are the orphans with this parent, sorted by hash. *)
Definition hash_le (a b : Hash * Block) : Prop := be_decode a.1 ≤ be_decode b.1.
#[local] Instance hash_le_dec a b : Decision (hash_le a b).
Proof. unfold hash_le. apply _. Defined.

Definition children (parent : Hash) (orphans : gmap Hash orphanBlock) : list (Hash * Block) :=
  merge_sort hash_le ((λ ho, (ho.1, ob_block ho.2)) <$>
    filter (λ ho, hdr_PrevBlock (blk_Header (ob_block ho.2)) = parent) (map_to_list orphans)).

(** The loop over the candidates: the queue after it. *)
Fixpoint process_children (cands : list (Hash * Block)) (queue : list Hash)
    : proc (Chain St) (list Hash) :=
  match cands with
  | [] => mret queue
  | (blockHash, orphan) :: cands' =>
      out ← process_orphan blockHash orphan;
      match out with
      | Skip => process_children cands' queue
      | Queue => process_children cands' (queue ++ [blockHash])
      | Restart => mret [blockHash]
      end
  end.

(** Each turn removes a hash from the queue, and a hash enters the queue only
    when an orphan leaves the pool: the size of the pool plus one bounds the
    number of turns. *)
Fixpoint process_queue (fuel : nat) (queue : list Hash) : proc (Chain St) () :=
  match fuel, queue with
  | _, [] => mret ()
  | O, _ => mret ()
  | S fuel', parent :: queue =>
      cands ← gets (λ c, children parent (c_orphans c));
      _ ← modify (λ c, set_orphans
            (filter (λ ho, hdr_PrevBlock (blk_Header (ob_block ho.2)) ≠ parent) (c_orphans c)) c);
      queue ← process_children cands queue;
      process_queue fuel' queue
  end.

Definition processOrphans (parentHash : Hash) : proc (Chain St) () :=
  n ← gets (λ c, size (c_orphans c));
  process_queue (S n) [parentHash].

(** ** Processing a block *)

Definition pruneSideChainIndex : proc (Chain St) () :=
  modify (λ c,
    let cutoff := if 1000 <? c_tipHeight c then c_tipHeight c - 1000 else 0 in
    set_maps (filter (λ hn, cutoff ≤ hn.2 ∨ c_hashByHeight c !! hn.2 = Some hn.1) (c_heightByHash c))
      (c_hashByHeight c) c).

(** A block whose parent is unknown. *)
Definition add_orphan (blockHash : Hash) (block : Block) : proc (Chain St) () :=
  let bits := hdr_Bits (blk_Header block) in
  _ ← pure (fail_if (CompactToBig (p_MinBits p) <? CompactToBig bits)
                    (Errorf "orphan declared difficulty too low"));
  powHash ← pure (h_PoWHash (e_Hasher engine) (BlockHeader_SerializeToBytes (blk_Header block)));
  _ ← pwrap "orphan PoW check failed" (pure (ValidateProofOfWork powHash bits));
  _ ← evictExpiredOrphans;
  n ← gets OrphanCount;
  _ ← (if MaxOrphanBlocks <=? n then evictOldestOrphan else mret ());
  now ← time_Now;
  modify (λ c, set_orphans (<[blockHash := mkOrphanBlock block now]> (c_orphans c)) c).

Definition store_side_block (blockHash : Hash) (block : Block) (newHeight newWork : Z)
    : proc (Chain St) () :=
  loc ← pwrap "store block" (on_store (WriteBlock true blockHash block));
  pwrap "store block index"
    (on_store (PutBlockIndex true blockHash (index_record block newHeight newWork loc))).

(** The three cases of a block with a known parent.  The result is the height
    with, for a side chain, the error. *)
Definition accept_block (blockHash : Hash) (block : Block) (newHeight newWork mtp : Z)
    : proc (Chain St) (Z * option error) :=
  tipHash ← gets c_tipHash;
  tipWork ← gets c_tipWork;
  if bool_decide (hdr_PrevBlock (blk_Header block) = tipHash) then
    _ ← pwrap "validate tx inputs"
          (asks (λ c, ValidateTransactionInputs block (c_utxoSet c) newHeight p mtp None));
    sync ← gets (λ c, negb (c_ibdMode c));
    loc ← pwrap "store block" (on_store (WriteBlock sync blockHash block));
    _ ← connect_tip sync blockHash block newHeight newWork loc;
    _ ← ibd_count sync;
    _ ← processOrphans blockHash;
    _ ← pruneSideChainIndex;
    mret (newHeight, None)
  else if tipWork <? newWork then
    _ ← store_side_block blockHash block newHeight newWork;
    tooDeep ← catch (_ ← reorg blockHash newHeight newWork; mret None) (λ e,
      if errors_Is e ErrReorgTooDeep then
        _ ← modify (put_height blockHash newHeight);
        _ ← processOrphans blockHash;
        mret (Some (Wrapf "reorg rejected" ErrSideChain))
      else
        _ ← ignore_err (on_store (DeleteBlockIndex blockHash));
        throw (Wrapf "reorg" e));
    match tooDeep with
    | Some e => mret (newHeight, Some e)
    | None =>
        _ ← processOrphans blockHash;
        _ ← pruneSideChainIndex;
        mret (newHeight, None)
    end
  else
    _ ← store_side_block blockHash block newHeight newWork;
    _ ← modify (put_height blockHash newHeight);
    _ ← processOrphans blockHash;
    mret (newHeight, Some (Wrapf "insufficient work" ErrSideChain)).

Definition processBlock (block : Block) (trustedHeader : bool) : proc (Chain St) (Z * option error) :=
  let blockHash := HashBlockHeader (blk_Header block) in
  catch (
    dup ← gets (λ c, bool_decide (is_Some (c_heightByHash c !! blockHash)));
    _ ← pure (fail_if dup (Errorf "block already in chain"));
    dupo ← gets (λ c, bool_decide (is_Some (c_orphans c !! blockHash)));
    _ ← pure (fail_if dupo (Wrapf "block already in orphan pool" ErrOrphanBlock));
    parent ← gets (λ c, c_heightByHash c !! hdr_PrevBlock (blk_Header block));
    match parent with
    | None =>
        _ ← add_orphan blockHash block;
        mret (0, Some (Wrapf "parent unknown" ErrOrphanBlock))
    | Some parentHeight =>
        hwm ← check_block block trustedHeader parentHeight;
        let '(newHeight, newWork, mtp) := hwm in
        accept_block blockHash block newHeight newWork mtp
    end)
  (λ e, mret (0, Some e)).

Definition ProcessBlock (block : Block) := processBlock block false.
Definition ProcessBlockTrustedHeader (block : Block) := processBlock block true.

(** ** Initialisation *)

Definition initGenesis : proc (Chain St) () :=
  let genesis := p_GenesisBlock p in
  let genesisHash := HashBlockHeader (blk_Header genesis) in
  _ ← pure (fail_if (negb (Hash_IsZero (p_GenesisHash p)) &&
                     negb (bool_decide (genesisHash = p_GenesisHash p)))
                    (Errorf "genesis hash mismatch"));
  loc ← pwrap "store genesis block" (on_store (WriteBlock true genesisHash genesis));
  let genesisWork := e_CalcBlockWeight engine (blk_Header genesis) in
  let rec := mkDiskBlockIndex (blk_Header genesis) 0
    (Z.lor (Z.lor StatusHaveData StatusValidHeader) StatusValidTx)
    (u32 (len (blk_Transactions genesis))) loc.1.1 loc.1.2 loc.2 0 0 0 (Some genesisWork) in
  _ ← pwrap "store genesis index" (on_store (PutBlockIndex true genesisHash rec));
  _ ← pwrap "store genesis tip" (on_store (PutChainTip true genesisHash 0));
  _ ← modify (set_tip genesisHash 0 genesisWork);
  _ ← modify (put_both genesisHash 0);
  _ ← modify (λ c, set_utxoSet (ConnectGenesis (c_utxoSet c) genesis) c);
  pwrap "flush genesis UTXO" flushUtxoSetToChainstate.

(** The walk from the tip to height 0, filling [hashByHeight] and adding up the
    work; [h] turns are left after this one. *)
Fixpoint walk_chain (h : nat) (current : Hash) : proc (Chain St) () :=
  _ ← modify (λ c, set_maps (c_heightByHash c) (<[Z.of_nat h := current]> (c_hashByHeight c)) c);
  rec ← asks (λ c, wrap "walk chain" (GetBlockIndex (c_store c) current));
  _ ← modify (λ c, set_tip (c_tipHash c) (c_tipHeight c)
        (c_tipWork c + e_CalcBlockWeight engine (dbi_Header rec)) c);
  match h with
  | O => mret ()
  | S h' => walk_chain h' (hdr_PrevBlock (dbi_Header rec))
  end.

Definition load_entry (_ : ()) (hid : Hash * Z * list byte) : proc (Chain St) () :=
  entry ← pwrap "deserialize UTXO" (pure (DeserializeUtxoEntry hid.2));
  modify (λ c, set_utxoSet (Set_Add (c_utxoSet c) hid.1.1 hid.1.2 entry) c).

Definition loadUtxoSetFromChainstate : proc (Chain St) () :=
  it ← gets (λ c, ForEachUtxo (c_store c));
  _ ← foldP load_entry () it.1;
  match it.2 with Some e => throw e | None => mret () end.

(** The replay of the blocks from height [h] on, [n] of them. *)
Fixpoint replay_blocks (n : nat) (h : Z) : proc (Chain St) () :=
  match n with
  | O => mret ()
  | S n' =>
      known ← gets (λ c, c_hashByHeight c !! h);
      match known with
      | None => throw (Errorf "missing hash during UTXO rebuild")
      | Some hash =>
          block ← asks (λ c, wrap "load block for UTXO rebuild" (GetBlock (c_store c) hash));
          _ ← (if h =? 0 then
                 modify (λ c, set_utxoSet (ConnectGenesis (c_utxoSet c) block) c)
               else
                 _ ← pwrap "connect block UTXOs" (connect_utxos block h); mret ());
          replay_blocks n' (h + 1)
      end
  end.

Definition rebuildUtxoSet : proc (Chain St) () :=
  tipHeight ← gets c_tipHeight;
  _ ← replay_blocks (S (Z.to_nat tipHeight)) 0;
  pwrap "flush UTXO set to chainstate" flushUtxoSetToChainstate.

Definition RescanUTXOSet : proc (Chain St) () :=
  _ ← modify (λ c, set_utxoSet (Set_Clear (c_utxoSet c)) c);
  rebuildUtxoSet.

(** Load the set, or rebuild it when loading fails. *)
Definition load_or_rebuild : proc (Chain St) () :=
  catch loadUtxoSetFromChainstate (λ _, rebuildUtxoSet).

Definition index_height (_ : ()) (hr : Hash * DiskBlockIndex) : proc (Chain St) () :=
  if Z.land (dbi_Status hr.2) StatusHaveData =? 0 then mret ()
  else modify (put_height hr.1 (dbi_Height hr.2)).

(** The chainstate is at another block than the tip. *)
Definition recover_tip (bestBlock : Hash) : proc (Chain St) () :=
  tipHeight ← gets c_tipHeight;
  known ← gets (λ c, c_heightByHash c !! bestBlock);
  match known with
  | Some bestBlockHeight =>
      if tipHeight <? bestBlockHeight then
        _ ← modify (λ c, set_tip (c_tipHash c) (c_tipHeight c) 0 (set_maps (c_heightByHash c) ∅ c));
        _ ← walk_chain (Z.to_nat bestBlockHeight) bestBlock;
        _ ← modify (λ c, set_tip bestBlock bestBlockHeight (c_tipWork c) c);
        _ ← pwrap "advance chain tip to chainstate"
              (on_store (PutChainTip true bestBlock bestBlockHeight));
        load_or_rebuild
      else rebuildUtxoSet
  | None => rebuildUtxoSet
  end.

Definition Init : proc (Chain St) () :=
  tip ← gets (λ c, GetChainTip (c_store c));
  match tip with
  | Panic => pure Panic
  | Err _ => initGenesis
  | Ok (tipHash, tipHeight) =>
      _ ← modify (set_tip tipHash tipHeight 0);
      it ← gets (λ c, ForEachBlockIndex (c_store c));
      _ ← foldP index_height () it.1;
      _ ← match it.2 with
          | Some e => throw (Wrapf "rebuild index from block index" e)
          | None => mret ()
          end;
      _ ← walk_chain (Z.to_nat tipHeight) tipHash;
      best ← gets (λ c, GetBestBlock (c_store c));
      match best with
      | Panic => pure Panic
      | Err _ => rebuildUtxoSet
      | Ok bestBlock =>
          if bool_decide (bestBlock = tipHash) then load_or_rebuild else recover_tip bestBlock
      end
  end.

(** ** Queries *)

Definition Tip c : Hash * Z := (c_tipHash c, c_tipHeight c).
Definition TipHeader c : res BlockHeader := GetHeader (c_store c) (c_tipHash c).

Definition GetHeaderByHeight c (height : Z) : res BlockHeader :=
  match c_hashByHeight c !! height with
  | None => Err (Errorf "no block at height")
  | Some hash => GetHeader (c_store c) hash
  end.
Definition GetBlockByHeight c (height : Z) : res (Block * Hash) :=
  match c_hashByHeight c !! height with
  | None => Err (Errorf "no block at height")
  | Some hash => block ← GetBlock (c_store c) hash; mret (block, hash)
  end.
Definition GetAncestor c (height : Z) : option BlockHeader := getAncestorUnsafe c height.

Definition GetBlockHeight c (hash : Hash) : res Z :=
  match c_heightByHash c !! hash with
  | None => Err (Errorf "block not on active chain")
  | Some height => Ok height
  end.

(** The locator from [height] down, [n] hashes being in it already.  The height
    decreases, so [tipHeight + 1] turns suffice. *)
Fixpoint locator_loop (fuel : nat) c (height step n : Z) : list Hash :=
  match fuel with
  | O => []
  | S fuel' =>
      match c_hashByHeight c !! height with
      | None => []
      | Some hash =>
          hash ::
          if height =? 0 then [] else
          locator_loop fuel' c (if height <? step then 0 else height - step)
            (if 10 <? n + 1 then u32 (step * 2) else step) (n + 1)
      end
  end.
Definition BlockLocator c : list Hash :=
  locator_loop (S (Z.to_nat (c_tipHeight c))) c (c_tipHeight c) 1 0.

Definition FindMainChainHash c (hash : Hash) : Z * bool :=
  match c_heightByHash c !! hash with
  | None => (0, false)
  | Some height =>
      if bool_decide (c_hashByHeight c !! height = Some hash) then (height, true) else (0, false)
  end.

Definition chain_HasBlock c (hash : Hash) : bool :=
  bool_decide (is_Some (c_heightByHash c !! hash)) ||
  bool_decide (is_Some (c_orphans c !! hash)) ||
  match HasBlock (c_store c) hash with Ok b => b | _ => false end.
Definition HasBlockOnChain c (hash : Hash) : bool :=
  bool_decide (is_Some (c_heightByHash c !! hash)).

Record TxOutSetInfoResult : Type := mkTxOutSetInfo {
  to_Height : Z; to_BestHash : Hash; to_TxOuts : Z; to_TotalValue : Z
}.
Definition TxOutSetInfo c : TxOutSetInfoResult :=
  mkTxOutSetInfo (c_tipHeight c) (c_tipHash c) (Set_Count (c_utxoSet c)) (Set_TotalValue (c_utxoSet c)).

Definition IsTipStale : proc (Chain St) bool :=
  tip ← gets TipHeader;
  match tip with
  | Ok tipHeader =>
      let threshold := i64 (10 * i64 (seconds (p_TargetBlockSpacing p))) in
      let threshold := if threshold <? 60 then 60 else threshold in
      now ← timeSource_Now;
      mret (threshold <? now - hdr_Timestamp tipHeader)
  | _ => mret false
  end.
End chain.

Arguments mkReorgFrame {St}. Arguments rf_chain {St}. Arguments rf_clone {St}.
