(* ===== verification/ChainProps.v ===== *)
(** * Properties of the chain manager that hold for every store

    Nothing is assumed here about the store: its calls may fail at any point.
    The trial of a reorganisation runs on its own copy of the UTXO set and leaves
    the chain alone when it fails; the orphan pool stays bounded, the limits on
    reorganisations hold, and the block locator has its documented shape. *)
From stdpp Require Import sorting.
From S2P Require Import Prelude Types Sha256 Target Params Utxo Keys Script TxValidation.
From S2P Require Import Algorithms Validation BlockFiles Store Chain.

Lemma steps_modify {S} (R : S → S → Prop) f : (∀ s, R s (f s)) → steps R (modify f).
Proof. intros Hf s. apply Hf. Qed.

Lemma res_bind_assoc {A B C} (r : res A) (f : A → res B) (g : B → res C) :
  (r ≫= f) ≫= g = r ≫= λ x, f x ≫= g.
Proof. by destruct r. Qed.

Section props.
Context {St : Type} `{BlockStore St} `{CryptoLib}.
Context (p : ChainParams) (engine : Engine) (wall adjusted : nat → Z).
Implicit Types c : Chain St.

(** ** Steps that leave a field alone *)

(** The relation "the field [f] is unchanged". *)
Definition same {F} (f : Chain St → F) c c' : Prop := f c' = f c.
#[local] Instance same_preorder {F} (f : Chain St → F) : PreOrder (same f).
Proof. split; unfold same; [done|]. intros c1 c2 c3 -> ->. done. Qed.

(** Everything but the store. *)
Definition same_memory c c' : Prop := set_store (c_store c) c' = c.
#[local] Instance same_memory_preorder : PreOrder same_memory.
Proof. split; unfold same_memory; [by intros []|]. intros [] [] [] [=] [=]. by subst. Qed.

Lemma on_store_steps {A} (R : Chain St → Chain St → Prop) (m : proc St A) :
  (∀ c s, R c (set_store s c)) → steps R (on_store m).
Proof. intros HR c. unfold on_store, on. destruct (m (c_store c)). apply HR. Qed.

Lemma time_Now_steps (R : Chain St → Chain St → Prop) :
  (∀ c n, R c (set_clock n c)) → steps R (time_Now wall).
Proof. intros HR c. apply HR. Qed.
Lemma timeSource_Now_steps (R : Chain St → Chain St → Prop) :
  (∀ c n, R c (set_clock n c)) → steps R (timeSource_Now adjusted).
Proof. intros HR c. apply HR. Qed.

Ltac field_done :=
  solve [ intros; red; simpl; reflexivity ].

(** Walks through a method; the assignments left over are closed when they
    do not touch the fields of interest. *)
Ltac chain_steps :=
  steps_walk;
  repeat first
    [ apply on_store_steps; field_done
    | apply time_Now_steps; field_done
    | apply timeSource_Now_steps; field_done
    | apply steps_modify; field_done ].

(** ** The trial of a reorganisation *)

(** The trial reads the store, the height map, the tip height and the set. *)
Definition same_view c c' : Prop :=
  c_store c' = c_store c ∧ c_hashByHeight c' = c_hashByHeight c ∧
  c_tipHeight c' = c_tipHeight c ∧ c_utxoSet c' = c_utxoSet c.

Lemma load_undo_view chk c c' h : same_view c c' → load_undo chk c' h = load_undo chk c h.
Proof. intros (Hs & Hh & _). unfold load_undo. by rewrite Hs, Hh. Qed.

Lemma ancestors_loop_view fuel c c' cur h acc :
  same_view c c' → ancestors_loop fuel c' cur h acc = ancestors_loop fuel c cur h acc.
Proof.
  intros Hv. pose proof Hv as (Hs & Hh & _). revert cur h acc.
  induction fuel as [|fuel IH]; intros cur h acc; cbn [ancestors_loop]; [done|].
  rewrite Hs, Hh. destruct (bool_decide _); [done|]. destruct (GetHeader _ _); [|done..].
  destruct (_ || _); [done|]. apply IH.
Qed.

Lemma buildAncestorLookup_view c c' ph n :
  same_view c c' → ∀ h, buildAncestorLookup c' ph n h = buildAncestorLookup c ph n h.
Proof.
  intros Hv h. unfold buildAncestorLookup, getAncestorUnsafe.
  rewrite (ancestors_loop_view _ c) by done. destruct Hv as (-> & -> & _). done.
Qed.

Lemma mtp_collect_ext n i tip (g g' : Ancestors) :
  (∀ h, g' h = g h) → mtp_collect n i tip g' = mtp_collect n i tip g.
Proof.
  intros Hg. revert i. induction n as [|n IH]; intros i; cbn [mtp_collect]; [done|].
  rewrite Hg. destruct (_ <=? _); [|done]. destruct (g _); [|done]. by rewrite IH.
Qed.

Lemma CalcMedianTimePast_ext tip (g g' : Ancestors) :
  (∀ h, g' h = g h) → CalcMedianTimePast tip g' = CalcMedianTimePast tip g.
Proof. intros Hg. unfold CalcMedianTimePast. by rewrite (mtp_collect_ext _ _ _ g g'). Qed.

Lemma foldM_ext {S A} (f g : S → A → res S) l s :
  (∀ s x, f s x = g s x) → foldM f s l = foldM g s l.
Proof.
  intros Hfg. revert s. induction l as [|x l IH]; intros s; cbn [foldM]; [done|].
  rewrite Hfg. destruct (g s x); cbn; auto.
Qed.

(** *** What the trial decides

    Whether the blocks [newChain] can replace those above [fork], as a function
    of the chain manager that computes with values of UTXO sets only: the main
    chain is undone block by block, then every new block is validated against
    the set before it and connected. *)
Fixpoint undo_from (n : nat) c (h : Z) (s : UtxoSet) : res UtxoSet :=
  match n with
  | O => Ok s
  | S n' => bu ← load_undo true c h; undo_from n' c (h - 1) (DisconnectBlock s bu.1 bu.2)
  end.

Definition branch_step c (st : UtxoSet * (Z * list trialResult)) (blockHash : Hash)
    : res (UtxoSet * (Z * list trialResult)) :=
  let '(s, (parentHeight, trials)) := st in
  let h := u32 (parentHeight + 1) in
  block ← wrap "load new chain block for trial" (GetBlock (c_store c) blockHash);
  let mtp := CalcMedianTimePast (u32 (h - 1))
               (buildAncestorLookup c (hdr_PrevBlock (blk_Header block)) (u32 (h - 1))) in
  _ ← wrap "trial validate tx inputs" (ValidateTransactionInputs block s h p mtp None);
  us ← wrap "trial connect block UTXOs" (ConnectBlock s block h None);
  mret (us.2, (h, trials ++ [mkTrial blockHash h block])).

Definition branch_run c (newChain : list Hash) (fork : Z) (s : UtxoSet)
    : res (UtxoSet * list trialResult) :=
  s' ← undo_from (Z.to_nat (c_tipHeight c - fork)) c (c_tipHeight c) s;
  st ← foldM (branch_step c) (s', (fork, [])) (reverse newChain);
  mret (st.1, st.2.2).

Definition branch_check c (newChain : list Hash) (fork : Z) (s : UtxoSet) : res (list trialResult) :=
  x ← branch_run c newChain fork s; mret x.2.

Lemma undo_from_view n c c' h s : same_view c c' → undo_from n c' h s = undo_from n c h s.
Proof.
  intros Hv. revert h s. induction n as [|n IH]; intros h s; cbn [undo_from]; [done|].
  rewrite (load_undo_view _ c) by done. destruct (load_undo true c h); cbn; auto.
Qed.

Lemma branch_check_view c c' newChain fork s :
  same_view c c' → branch_check c' newChain fork s = branch_check c newChain fork s.
Proof.
  intros Hv. unfold branch_check, branch_run. pose proof Hv as (Hs & _ & Ht & _). rewrite Ht.
  rewrite (undo_from_view _ c) by done. destruct (undo_from _ c _ _); cbn; [|done..].
  rewrite (foldM_ext _ (branch_step c)); [done|].
  intros [set [ph trials]] x. unfold branch_step. rewrite Hs.
  destruct (GetBlock _ x) as [b|e|]; cbn; [|done..].
  by rewrite (CalcMedianTimePast_ext _ (buildAncestorLookup c (hdr_PrevBlock (blk_Header b))
    (u32 (u32 (ph + 1) - 1)))) by by apply buildAncestorLookup_view.
Qed.

(** *** The trial runs on its own object *)

(** Every key of a set is the 36 bytes of an outpoint. *)
Definition keyed (s : UtxoSet) : Prop := map_Forall (λ k _, length k = 36%nat) s.

#[export] Instance keyed_dec s : Decision (keyed s).
Proof. unfold keyed. apply _. Defined.

Lemma copy_set_id s : keyed s → copy_set s = s.
Proof.
  intros Hs. unfold copy_set, Set_ForEach, NewSet. set (read := λ ke : list byte * UtxoEntry, _).
  assert (Forall (λ ke, length ke.1 = 36%nat) (map_to_list s)) as Hl.
  { apply Forall_forall. intros [k e] Hke%elem_of_map_to_list. by eapply Hs. }
  assert (∀ l acc, Forall (λ ke, length ke.1 = 36%nat) l →
    foldl (λ dst hie, Set_Add dst hie.1.1 hie.1.2 hie.2) acc (read <$> l)
    = foldr (λ ke, <[ke.1 := ke.2]>) acc (reverse l)) as Hgen.
  { intros l. induction l as [|[k e] l IH]; intros acc Hk; [done|].
    apply Forall_cons in Hk as [Hk Hk']. cbn [fmap list_fmap foldl]. rewrite IH by done.
    rewrite reverse_cons, foldr_app. f_equal. unfold Set_Add, read. cbn [fst snd]. by rewrite key_split. }
  rewrite Hgen by done. etrans; [|apply list_to_map_to_list].
  apply (list_to_map_proper (M := gmap (list byte))); [|apply reverse_Permutation].
  rewrite fmap_reverse, reverse_Permutation. apply NoDup_fst_map_to_list.
Qed.

(** A part of phase 1 that works on the clone: it leaves the chain manager alone,
    and computes with the object what [r] computes with its value. *)
Definition on_clone {A} (m : proc (ReorgFrame (St := St)) A) c (s : UtxoSet) (r : res (UtxoSet * A)) : Prop :=
  ∃ s' : UtxoSet, m (mkReorgFrame c s) = (x ← r; mret x.2, mkReorgFrame c s') ∧ ∀ x, r = Ok x → s' = x.1.

Lemma on_clone_bind {A B} (m : proc ReorgFrame A) (f : A → proc ReorgFrame B) c s r g :
  on_clone m c s r → (∀ x, r = Ok x → on_clone (f x.2) c x.1 (g x)) →
  on_clone (m ≫= f) c s (x ← r; g x).
Proof.
  intros (s1 & Hm & Hs1) Hf. unfold on_clone. setoid_rewrite proc_bind_eq. rewrite Hm.
  destruct r as [x|e|]; cbn; [|by exists s1..].
  destruct (Hf x eq_refl) as (s2 & Hr & Hs2). rewrite (Hs1 x eq_refl), Hr. by exists s2.
Qed.

Lemma on_clone_ret {A} (a : A) c s : on_clone (mret a) c s (mret (s, a)).
Proof. exists s. split; [done|]. by intros x [= <-]. Qed.
Lemma on_clone_asks {A B} (f : ReorgFrame → res A) (k : A → proc ReorgFrame B) c s g :
  (∀ a, on_clone (k a) c s (g a)) →
  on_clone (asks f ≫= k) c s (a ← f (mkReorgFrame c s); g a).
Proof.
  intros Hk. unfold on_clone. setoid_rewrite proc_bind_eq. unfold asks at 1.
  destruct (f _) as [a|e|]; [apply Hk|by exists s..].
Qed.
Lemma on_clone_gets {A B} (f : ReorgFrame → A) (k : A → proc ReorgFrame B) c s r :
  on_clone (k (f (mkReorgFrame c s))) c s r → on_clone (gets f ≫= k) c s r.
Proof. done. Qed.
Lemma on_clone_modify {B} f (k : () → proc ReorgFrame B) c s s1 r :
  f (mkReorgFrame c s) = mkReorgFrame c s1 → on_clone (k ()) c s1 r → on_clone (modify f ≫= k) c s r.
Proof.
  intros Hf (s' & Hk & Hs'). exists s'. split; [|done]. rewrite proc_bind_eq. cbn [modify].
  by rewrite Hf.
Qed.

Lemma on_clone_foldP {X A} (f : X → A → proc ReorgFrame X) (g : UtxoSet * X → A → res (UtxoSet * X)) c l :
  (∀ s x a, on_clone (f x a) c s (g (s, x) a)) →
  ∀ s x, on_clone (foldP f x l) c s (foldM g (s, x) l).
Proof.
  intros Hf. induction l as [|a l IH]; intros s x; cbn [foldP foldM]; [apply on_clone_ret|].
  apply on_clone_bind; [apply Hf|]. intros [s' x'] _. apply IH.
Qed.

Lemma trial_disconnect_clone n h c s :
  on_clone (trial_disconnect n h ClonedSet) c s (s' ← undo_from n c h s; mret (s', ())).
Proof.
  revert h s. induction n as [|n IH]; intros h s; cbn [trial_disconnect undo_from].
  { apply (on_clone_ret ()). }
  rewrite res_bind_assoc. apply (on_clone_asks (λ f, load_undo true (rf_chain f) h)).
  intros [block undo]. by eapply on_clone_modify; [|apply IH].
Qed.

Lemma trial_connect_clone st x c s :
  on_clone (trial_connect p ClonedSet st x) c s (branch_step c (s, st) x).
Proof.
  destruct st as [ph trials]. unfold trial_connect, branch_step.
  apply (on_clone_asks (λ f, wrap _ (GetBlock (c_store (rf_chain f)) x))). intros block.
  apply on_clone_gets.
  apply (on_clone_asks (λ f, wrap _ (ValidateTransactionInputs block (deref ClonedSet f) _ p _ None))).
  intros fees. apply (on_clone_asks (λ f, wrap _ (ConnectBlock (deref ClonedSet f) block _ None))).
  intros us. by eapply on_clone_modify; [|apply on_clone_ret].
Qed.

Lemma reorg_trial_clone newChain fork c s :
  on_clone (reorg_trial p newChain fork) c s (branch_run c newChain fork (copy_set (c_utxoSet c))).
Proof.
  set (s0 := copy_set (c_utxoSet c)). set (n := Z.to_nat (c_tipHeight c - fork)).
  change (on_clone (reorg_trial p newChain fork) c s) with
    (on_clone (_ ← trial_disconnect n (c_tipHeight c) ClonedSet;
               st ← foldP (trial_connect p ClonedSet) (fork, []) (reverse newChain); mret st.2) c s0).
  unfold branch_run. fold n.
  pose proof (on_clone_bind _ (λ _, st ← foldP (trial_connect p ClonedSet) (fork, []) (reverse newChain);
    mret st.2) c s0 _ (λ x, st ← foldM (branch_step c) (x.1, (fork, [])) (reverse newChain);
    mret (st.1, st.2.2)) (trial_disconnect_clone n (c_tipHeight c) c s0)) as Hb.
  rewrite res_bind_assoc in Hb. apply Hb. intros [s1 []] _.
  apply (on_clone_bind _ _ c s1 _ (λ st, mret (st.1, st.2.2))).
  - apply on_clone_foldP. intros. apply trial_connect_clone.
  - intros [s2 st] _. apply on_clone_ret.
Qed.

(** Phase 1 inside [reorg]: the chain manager is as before, whatever comes out. *)
Lemma in_frame_trial newChain fork c :
  in_frame (reorg_trial p newChain fork) c
  = (x ← branch_run c newChain fork (copy_set (c_utxoSet c)); mret x.2, c).
Proof.
  unfold in_frame. destruct (reorg_trial_clone newChain fork c NewSet) as (s' & Hr & _).
  by rewrite Hr.
Qed.

Lemma in_frame_trial_steps (R : Chain St → Chain St → Prop) newChain fork :
  (∀ c, R c c) → steps R (in_frame (reorg_trial p newChain fork)).
Proof. intros HR c. rewrite in_frame_trial. apply HR. Qed.

(** ** The orphan pool *)

Definition shrinks c c' : Prop := c_orphans c' ⊆ c_orphans c.
#[local] Instance shrinks_preorder : PreOrder shrinks.
Proof. split; unfold shrinks; [by intros c|]. intros c1 c2 c3 H1 H2. by etrans. Qed.

Lemma persistUtxoChanges_shrinks sync b u h : steps shrinks (persistUtxoChanges sync b u h).
Proof. unfold persistUtxoChanges. chain_steps. Qed.
#[local] Hint Resolve persistUtxoChanges_shrinks : steps.
Lemma connect_tip_shrinks sync h b n w loc : steps shrinks (connect_tip sync h b n w loc).
Proof.
  unfold connect_tip, connect_utxos, or_disconnect, disconnect_utxos, persistUtxoChanges, extendChain.
  chain_steps.
Qed.
#[local] Hint Resolve connect_tip_shrinks : steps.
Lemma live_disconnect_shrinks n h : steps shrinks (live_disconnect n h).
Proof.
  revert h. induction n as [|n IH]; intros h; cbn [live_disconnect];
    unfold disconnect_utxos, persistUtxoDisconnect; chain_steps.
Qed.
#[local] Hint Resolve live_disconnect_shrinks : steps.

Lemma remove_old_orphans (l : list (Z * Hash)) c : c_orphans (foldl remove_old c l) = c_orphans c.
Proof. revert c. induction l as [|[h hash] l IH]; intros c; simpl; [done|]. by rewrite IH. Qed.

Lemma reorg_shrinks h n w : steps shrinks (reorg p wall h n w).
Proof.
  unfold reorg, check_reorg_depth, reorg_commit, live_connect, connect_utxos, persistUtxoChanges.
  chain_steps; [by apply in_frame_trial_steps|].
  apply steps_modify. intros c. unfold shrinks. by rewrite remove_old_orphans.
Qed.
#[local] Hint Resolve reorg_shrinks : steps.

Lemma check_block_shrinks b t n : steps shrinks (check_block p engine adjusted b t n).
Proof. unfold check_block. chain_steps. Qed.
#[local] Hint Resolve check_block_shrinks : steps.

Lemma process_orphan_shrinks h b : steps shrinks (process_orphan p engine wall adjusted h b).
Proof.
  unfold process_orphan, skip_on_error. chain_steps.
Qed.
#[local] Hint Resolve process_orphan_shrinks : steps.

Lemma process_children_shrinks cands queue :
  steps shrinks (process_children p engine wall adjusted cands queue).
Proof.
  revert queue. induction cands as [|[h b] cands IH]; intros queue; cbn [process_children];
    chain_steps.
Qed.
#[local] Hint Resolve process_children_shrinks : steps.

Lemma process_queue_shrinks fuel queue :
  steps shrinks (process_queue p engine wall adjusted fuel queue).
Proof.
  revert queue. induction fuel as [|fuel IH]; intros [|parent queue]; cbn [process_queue]; chain_steps.
  apply steps_modify. intros c. apply map_filter_subseteq.
Qed.
#[local] Hint Resolve process_queue_shrinks : steps.

Lemma ibdSyncFlush_memory : steps same_memory ibdSyncFlush.
Proof. unfold ibdSyncFlush. chain_steps; apply on_store_steps; by intros []. Qed.

Lemma same_memory_shrinks c c' : same_memory c c' → shrinks c c'.
Proof. unfold same_memory. intros Hm. red. by rewrite <-Hm. Qed.

Lemma ibdSyncFlush_shrinks : steps shrinks ibdSyncFlush.
Proof. intros c. apply same_memory_shrinks, ibdSyncFlush_memory. Qed.
#[local] Hint Resolve ibdSyncFlush_shrinks : steps.

Lemma accept_block_shrinks h b n w mtp :
  steps shrinks (accept_block p engine wall adjusted h b n w mtp).
Proof.
  unfold accept_block, ibd_count, processOrphans, store_side_block, pruneSideChainIndex. chain_steps.
Qed.
#[local] Hint Resolve accept_block_shrinks : steps.

Lemma oldest_orphan_in (orphans : gmap Hash orphanBlock) :
  orphans ≠ ∅ → ∃ h t, oldest_orphan orphans = Some (h, t) ∧ is_Some (orphans !! h).
Proof.
  intros Hne. unfold oldest_orphan.
  assert (∀ l acc, (∀ h t, acc = Some (h, t) → is_Some (orphans !! h)) →
            (∀ ho, ho ∈ l → is_Some (orphans !! ho.1)) → (acc ≠ None ∨ l ≠ []) →
            ∃ h t, foldl (λ acc ho, match acc with
                   | Some (_, t) => if ob_addedAt ho.2 <? t then Some (ho.1, ob_addedAt ho.2) else acc
                   | None => Some (ho.1, ob_addedAt ho.2)
                   end) acc l = Some (h, t) ∧ is_Some (orphans !! h)) as Hgen.
  { induction l as [|[h0 o0] l IH]; intros acc Hacc Hl Hor; simpl.
    - destruct acc as [[h t]|]; [eauto|]. by destruct Hor.
    - apply IH; [|intros; apply Hl; by right|left; by destruct acc as [[??]|]; [case_match|]].
      intros h t Hs. destruct acc as [[h1 t1]|]; [case_match|]; simplify_eq/=; eauto;
        apply (Hl (h, o0)); left. }
  apply Hgen; [done| |right].
  - intros [h o] Hin%elem_of_map_to_list. simpl. eauto.
  - intros Hnil. by apply map_to_list_empty_iff in Hnil.
Qed.

Lemma size_insert_le {V} (m : gmap Hash V) k v : (size (<[k := v]> m) ≤ S (size m))%nat.
Proof.
  destruct (m !! k) eqn:Hk; [rewrite map_size_insert_Some by eauto; lia|].
  by rewrite map_size_insert_None.
Qed.

(** The case distinction of [processBlock]. *)
Lemma processBlock_eq block trusted c :
  processBlock p engine wall adjusted block trusted c =
  catch (if bool_decide (is_Some (c_heightByHash c !! HashBlockHeader (blk_Header block)))
         then throw (Errorf "block already in chain")
         else if bool_decide (is_Some (c_orphans c !! HashBlockHeader (blk_Header block)))
         then throw (Wrapf "block already in orphan pool" ErrOrphanBlock)
         else match c_heightByHash c !! hdr_PrevBlock (blk_Header block) with
              | None =>
                  _ ← add_orphan p engine wall (HashBlockHeader (blk_Header block)) block;
                  mret (0, Some (Wrapf "parent unknown" ErrOrphanBlock))
              | Some ph =>
                  hwm ← check_block p engine adjusted block trusted ph;
                  let '(newHeight, newWork, mtp) := hwm in
                  accept_block p engine wall adjusted (HashBlockHeader (blk_Header block)) block
                    newHeight newWork mtp
              end)
    (λ e, mret (0, Some e)) c.
Proof.
  unfold processBlock, catch, mbind at 1, proc_bind at 1, gets at 1. cbv beta iota.
  unfold mbind at 1, proc_bind at 1, pure at 1.
  case_bool_decide; cbn [fail_if]; [done|].
  unfold mbind at 1, proc_bind at 1, gets at 1. unfold mbind at 1, proc_bind at 1, pure at 1.
  by case_bool_decide; cbn [fail_if].
Qed.

(** What [add_orphan] does: it fails and the pool can only have lost expired
    orphans, or the block passed the checks and room was made for it. *)
Lemma add_orphan_ends h b c :
  (c_orphans (add_orphan p engine wall h b c).2 ⊆ c_orphans c) ∨
  (OrphanCount c ≤ MaxOrphanBlocks → OrphanCount (add_orphan p engine wall h b c).2 ≤ MaxOrphanBlocks) ∧
  CompactToBig (hdr_Bits (blk_Header b)) ≤ CompactToBig (p_MinBits p) ∧
  ∃ powHash, h_PoWHash (e_Hasher engine) (BlockHeader_SerializeToBytes (blk_Header b)) = Ok powHash ∧
    ValidateProofOfWork powHash (hdr_Bits (blk_Header b)) = Ok ().
Proof.
  unfold add_orphan, evictExpiredOrphans. unfold mbind, proc_bind, pure, gets, modify, time_Now. cbn.
  destruct (CompactToBig (p_MinBits p) <? _) eqn:Hbits; cbn; [by left|].
  destruct (h_PoWHash _ _) as [pow|e|] eqn:Hpow; cbn; [|by left..].
  unfold pwrap. destruct (ValidateProofOfWork pow _) as [[]|e|] eqn:Hv; cbn; [|by left..].
  right. apply Z.ltb_ge in Hbits. split; [|by eauto]. intros Hc.
  set (orphans := filter _ (c_orphans c)).
  assert (size orphans ≤ size (c_orphans c))%nat as Hf by apply map_subseteq_size, map_filter_subseteq.
  unfold OrphanCount, MaxOrphanBlocks in *. cbn. destruct (Z.leb_spec 100 (Z.of_nat (size orphans))); cbn.
  - unfold evictOldestOrphan, modify. cbn. destruct (oldest_orphan_in orphans) as (k & t & -> & Hk).
    { intros ->. rewrite map_size_empty in *. lia. }
    cbn. pose proof (size_insert_le (delete k orphans) h (mkOrphanBlock b (wall (S (c_clock c))))) as Hs.
    rewrite map_size_delete_Some in Hs by done. lia.
  - pose proof (size_insert_le orphans h (mkOrphanBlock b (wall (S (c_clock c))))). lia.
Qed.

(** The orphan pool never holds more than 100 blocks, whatever blocks arrive
    and whatever the store does; a block enters it only if its parent is
    unknown, its declared target is at most that of [MinBits], and its proof of
    work meets its declared target. *)
Theorem orphan_pool_bounded block trusted c r c' :
  processBlock p engine wall adjusted block trusted c = (r, c') →
  OrphanCount c ≤ MaxOrphanBlocks →
  OrphanCount c' ≤ MaxOrphanBlocks ∧
  (c_orphans c' ⊆ c_orphans c ∨
   c_heightByHash c !! hdr_PrevBlock (blk_Header block) = None ∧
   CompactToBig (hdr_Bits (blk_Header block)) ≤ CompactToBig (p_MinBits p) ∧
   ∃ powHash, h_PoWHash (e_Hasher engine) (BlockHeader_SerializeToBytes (blk_Header block)) = Ok powHash ∧
     ValidateProofOfWork powHash (hdr_Bits (blk_Header block)) = Ok ()).
Proof.
  intros Heq Hc. assert (∀ c1, shrinks c c1 → OrphanCount c1 ≤ MaxOrphanBlocks) as Hle.
  { intros c1 Hs%map_subseteq_size. unfold OrphanCount in *. lia. }
  rewrite processBlock_eq in Heq. unfold catch in Heq.
  case_bool_decide as Hdup; [injection Heq as <- <-; split; [done|by left]|].
  case_bool_decide as Hdupo; [injection Heq as <- <-; split; [done|by left]|].
  destruct (c_heightByHash c !! hdr_PrevBlock (blk_Header block)) as [ph|] eqn:Hp.
  - set (body := check_block p engine adjusted block trusted ph ≫= _) in Heq.
    assert (steps shrinks body) as Hb by (unfold body; chain_steps).
    specialize (Hb c). destruct (body c) as [[]]; injection Heq as <- <-; (split; [by apply Hle|by left]).
  - unfold mbind, proc_bind in Heq.
    destruct (add_orphan_ends (HashBlockHeader (blk_Header block)) block c) as [Hs|(Hs & Hbits & Hpow)];
      destruct (add_orphan p engine wall _ block c) as [[]]; injection Heq as <- <-;
      (split; [by auto|auto]).
Qed.

(** ** Reorganisations *)

(** The state that the check of the depth limits leaves: the entries of the last
    24 hours remain in the history, and the clock was read once. *)
Definition prune_history c : Chain St :=
  set_history (List.filter (λ r, wall (c_clock c) - day <? rr_timestamp r) (c_reorgHistory c))
    (set_clock (S (c_clock c)) c).
Definition after_depth (d : Z) c : Chain St :=
  if (0 <? p_MaxReorgDepth p) && negb (p_MaxReorgDepth p <? d) then prune_history c else c.

Lemma check_reorg_depth_state d c : (check_reorg_depth p wall d c).2 = after_depth d c.
Proof.
  unfold check_reorg_depth, after_depth, prune_history.
  unfold mbind, proc_bind, pure, gets, modify, time_Now.
  destruct (0 <? p_MaxReorgDepth p); cbn [andb fail_if]; [|done].
  by destruct (p_MaxReorgDepth p <? d).
Qed.

Lemma after_depth_view d c : same_view c (after_depth d c).
Proof. unfold after_depth. by case_match. Qed.

(** The branch that a reorganisation to block [h] at height [n] goes over to,
    with the height of the fork, if there is a path to the main chain, the limits
    on the depth allow it and all its blocks are valid, starting from the set [s]. *)
Definition accepted_branch (h : Hash) (n : Z) c (s : UtxoSet) : option (Z * list trialResult) :=
  match reorg_path (S (Z.to_nat n)) c h with
  | Ok newChain =>
      match fork_height c newChain with
      | Ok fork =>
          match (check_reorg_depth p wall (u32 (c_tipHeight c - fork)) c).1,
                branch_check c newChain fork s with
          | Ok (), Ok trials => Some (fork, trials)
          | _, _ => None
          end
      | _ => None
      end
  | _ => None
  end.

(** [reorg] up to its commit phase. *)
Lemma reorg_phases h n w c :
  match accepted_branch h n c (copy_set (c_utxoSet c)) with
  | Some (fork, trials) =>
      let depth := u32 (c_tipHeight c - fork) in
      (check_reorg_depth p wall depth c).1 = Ok () ∧
      reorg p wall h n w c = reorg_commit wall h n w fork depth trials (after_depth depth c)
  | None =>
      (reorg p wall h n w c).1 ≠ Ok () ∧
      ((reorg p wall h n w c).2 = c ∨
       ∃ fork, (reorg p wall h n w c).2 = after_depth (u32 (c_tipHeight c - fork)) c)
  end.
Proof.
  unfold accepted_branch, reorg.
  proc_step. destruct (reorg_path _ c h) as [newChain|e|]; [|cbn; split; [discriminate|by left]..].
  proc_step. destruct (fork_height c newChain) as [fork|e|] eqn:Hf; [|cbn; split; [discriminate|by left]..].
  proc_step. cbv zeta. proc_step.
  pose proof (check_reorg_depth_state (u32 (c_tipHeight c - fork)) c) as Hs.
  destruct (check_reorg_depth p wall _ c) as [[[]|e|] c1] eqn:Hd; simpl in Hs |- *; subst c1;
    [|cbn; split; [discriminate|right; by eexists]..].
  proc_step. rewrite in_frame_trial.
  pose proof (after_depth_view (u32 (c_tipHeight c - fork)) c) as Hv.
  rewrite <- (branch_check_view c _ newChain fork _ Hv). unfold branch_check.
  destruct Hv as (_ & _ & _ & Hu). rewrite Hu.
  destruct (branch_run _ newChain fork _) as [[s' trials]|e|]; [cbn; by rewrite Hd|cbn; split; [discriminate|right; by eexists]..].
Qed.

(** C28: A reorganisation decides before it changes the chain.  The trial run works
    on its own copy of the UTXO set, an object beside the live one, and reaches
    the verdict that follows from the live set: undo the blocks above the fork,
    then validate and connect each new block.  If there is no path to the main
    chain, a depth limit is exceeded or a block cannot be undone, validated or
    connected, whatever the store answers, the call fails and the chain manager
    with its UTXO set and its store is exactly what it was, or the same with the
    entries older than 24 hours dropped from the reorganisation history (and the
    clock read).  Otherwise the call is the commit phase, run from this state on
    the validated blocks.  The keys of the UTXO set are 36 bytes long. *)
Theorem reorg_failed_trial h n w c r c' :
  reorg p wall h n w c = (r, c') →
  keyed (c_utxoSet c) →
  match accepted_branch h n c (c_utxoSet c) with
  | Some (fork, trials) =>
      let depth := u32 (c_tipHeight c - fork) in
      (r, c') = reorg_commit wall h n w fork depth trials (after_depth depth c)
  | None => r ≠ Ok () ∧ (c' = c ∨ 0 < p_MaxReorgDepth p ∧ c' = prune_history c)
  end.
Proof.
  intros Heq Hk. pose proof (reorg_phases h n w c) as Hp. rewrite copy_set_id in Hp by done.
  destruct (accepted_branch h n c _) as [[fork trials]|].
  { destruct Hp as [_ Hp]. by rewrite <- Heq. }
  rewrite Heq in Hp. destruct Hp as [Hr Hc]. split; [done|]. simpl in Hc.
  destruct Hc as [->|[d ->]]; [by left|]. unfold after_depth.
  destruct (Z.ltb_spec 0 (p_MaxReorgDepth p)); cbn [andb]; [|by left].
  case_match; [by right|by left].
Qed.

(** *** The depth limits *)

(** The reorganisations in the history together are at most three times the
    maximal depth, and each is at most this depth. *)
Definition within_budget c : Prop :=
  sumZ rr_depth (c_reorgHistory c) ≤ 3 * p_MaxReorgDepth p ∧
  Forall (λ r, 0 ≤ rr_depth r ≤ p_MaxReorgDepth p) (c_reorgHistory c).

Lemma filter_sum_le (P : reorgRecord → bool) l :
  Forall (λ r, 0 ≤ rr_depth r) l → 0 ≤ sumZ rr_depth (List.filter P l) ≤ sumZ rr_depth l.
Proof. induction 1 as [|r l Hr Hl IH]; simpl; [lia|]. destruct (P r); simpl; lia. Qed.

Lemma foldl_u32_sum l acc :
  Forall (λ r, 0 ≤ rr_depth r) l → 0 ≤ acc → acc + sumZ rr_depth l < 2 ^ 32 →
  foldl (λ acc r, u32 (acc + rr_depth r)) acc l = acc + sumZ rr_depth l.
Proof.
  intros Hl. revert acc. induction Hl as [|r l Hr Hl IH]; intros acc Ha Hs; simpl in *; [lia|].
  assert (0 ≤ sumZ rr_depth l) by by apply sumZ_nonneg.
  rewrite u32_id by (unfold is_u32; lia). rewrite IH; lia.
Qed.

Lemma check_reorg_depth_budget d c :
  0 < p_MaxReorgDepth p → 4 * p_MaxReorgDepth p < 2 ^ 32 → is_u32 d → within_budget c →
  within_budget (check_reorg_depth p wall d c).2 ∧
  ((check_reorg_depth p wall d c).1 = Ok () → d ≤ p_MaxReorgDepth p ∧
   sumZ rr_depth (c_reorgHistory (check_reorg_depth p wall d c).2) + d ≤ 3 * p_MaxReorgDepth p).
Proof.
  intros Hpos Hmax Hd [Hsum Hall]. unfold check_reorg_depth, is_u32 in *.
  unfold mbind, proc_bind, pure, gets, modify, time_Now. rewrite (proj2 (Z.ltb_lt _ _) Hpos). cbn [andb].
  destruct (Z.ltb_spec (p_MaxReorgDepth p) d) as [Hdeep|Hdeep]; cbn [fail_if fst snd].
  { split; [by split|done]. }
  set (P := λ r, wall (c_clock c) - day <? rr_timestamp r).
  set (c1 := set_history _ _). change (c_reorgHistory c1) with (List.filter P (c_reorgHistory c)).
  assert (Forall (λ r, 0 ≤ rr_depth r) (c_reorgHistory c)) as Hnn by (eapply Forall_impl; [done|simpl; lia]).
  pose proof (filter_sum_le P _ Hnn) as Hf.
  assert (Forall (λ r, 0 ≤ rr_depth r ≤ p_MaxReorgDepth p) (List.filter P (c_reorgHistory c))) as Hall'.
  { apply List.Forall_forall. intros r [Hin _]%List.filter_In.
    by apply (proj1 (List.Forall_forall _ _) Hall). }
  assert (within_budget c1) as Hb1 by (split; [simpl; lia|exact Hall']).
  rewrite foldl_u32_sum; [|eapply Forall_impl; [done|simpl; lia]|lia|lia].
  rewrite !u32_id by (unfold is_u32; lia).
  destruct (Z.ltb_spec (p_MaxReorgDepth p * 3) (0 + sumZ rr_depth (List.filter P (c_reorgHistory c)) + d));
    cbn [fail_if fst snd]; (split; [done|]); intros Hok; [done|]. split; [lia|].
  change (c_reorgHistory c1) with (List.filter P (c_reorgHistory c)). lia.
Qed.

(** A first part that keeps to [R] and a rest that ends in [Q]. *)
Lemma steps_then {A B} (R Q : Chain St → Chain St → Prop) (m : proc (Chain St) A) (f : A → proc (Chain St) B) :
  steps R m → (∀ a, steps Q (f a)) →
  (∀ c1 c2, R c1 c2 → Q c1 c2) → (∀ c1 c2 c3, R c1 c2 → Q c2 c3 → Q c1 c3) →
  steps Q (m ≫= f).
Proof.
  intros Hm Hf Hsub Htr c. specialize (Hm c). unfold mbind, proc_bind.
  destruct (m c) as [[a|e|] c1]; simpl in *; [|by apply Hsub..]. eapply Htr; [done|apply Hf].
Qed.

Lemma live_disconnect_history n h : steps (same c_reorgHistory) (live_disconnect n h).
Proof.
  revert h. induction n as [|n IH]; intros h; cbn [live_disconnect];
    unfold disconnect_utxos, persistUtxoDisconnect; chain_steps.
Qed.

Lemma remove_old_history (l : list (Z * Hash)) c :
  c_reorgHistory (foldl remove_old c l) = c_reorgHistory c.
Proof. revert c. induction l as [|[h hash] l IH]; intros c; simpl; [done|]. by rewrite IH. Qed.

Definition records (d : Z) c c' : Prop :=
  c_reorgHistory c' = c_reorgHistory c ∨
  ∃ r, rr_depth r = d ∧ c_reorgHistory c' = c_reorgHistory c ++ [r].

Lemma reorg_commit_records h n w fork d trials : steps (records d) (reorg_commit wall h n w fork d trials).
Proof.
  assert (∀ c1 c2, same c_reorgHistory c1 c2 → records d c1 c2) as Hsub by (intros; by left).
  assert (∀ c1 c2 c3, same c_reorgHistory c1 c2 → records d c2 c3 → records d c1 c3) as Htr
    by (unfold same, records; intros c1 c2 c3 ->; done).
  unfold reorg_commit.
  apply (steps_then (same c_reorgHistory)); [apply steps_gets, _|intros tip|done..].
  apply (steps_then (same c_reorgHistory)); [apply live_disconnect_history|intros _|done..].
  apply (steps_then (same c_reorgHistory)); [apply steps_gets, _|intros old|done..].
  apply (steps_then (same c_reorgHistory)); [|intros _|done..].
  { unfold live_connect, connect_utxos, persistUtxoChanges. chain_steps. }
  apply (steps_then (same c_reorgHistory)); [|intros _|done..].
  { apply steps_modify. intros c. unfold same. by rewrite remove_old_history. }
  apply (steps_then (same c_reorgHistory)); [chain_steps|intros _|done..].
  apply (steps_then (same c_reorgHistory)); [chain_steps|intros _|done..].
  apply (steps_then (same c_reorgHistory)); [chain_steps|intros now|done..].
  apply steps_modify. intros c. right. exists (mkReorgRecord n d now). by split.
Qed.

(** Reorganisations are limited: one that succeeds disconnects at most
    [MaxReorgDepth] blocks, and the depths in the history of the last 24 hours
    never add up to more than three times this number; the 32-bit sum does not
    wrap around. *)
Theorem reorg_depth_limited h n w c r c' :
  reorg p wall h n w c = (r, c') →
  0 < p_MaxReorgDepth p → 4 * p_MaxReorgDepth p < 2 ^ 32 → within_budget c →
  within_budget c' ∧
  (r = Ok () → ∃ newChain fork, reorg_path (S (Z.to_nat n)) c h = Ok newChain ∧
     fork_height c newChain = Ok fork ∧ u32 (c_tipHeight c - fork) ≤ p_MaxReorgDepth p).
Proof.
  intros Heq Hpos Hmax Hb. pose proof (reorg_phases h n w c) as Hp. rewrite Heq in Hp.
  assert (∀ fork, within_budget (after_depth (u32 (c_tipHeight c - fork)) c)) as Hbd.
  { intros fork. rewrite <- check_reorg_depth_state. by apply check_reorg_depth_budget; [..|apply u32_range|]. }
  destruct (accepted_branch h n c _) as [[fork trials]|] eqn:Hacc.
  2:{ destruct Hp as [Hr Hc]. split; [|done]. simpl in Hc. destruct Hc as [->|[fork ->]]; auto. }
  destruct Hp as [Hd Hp]. set (d := u32 (c_tipHeight c - fork)) in *.
  destruct (check_reorg_depth_budget d c Hpos Hmax (u32_range _) Hb) as [_ Hok].
  destruct (Hok Hd) as [Hdm Hsum]. rewrite check_reorg_depth_state in Hsum.
  destruct (Hbd fork) as [Hs1 Ha1]. fold d in Hs1, Ha1. split.
  - pose proof (reorg_commit_records h n w fork d trials (after_depth d c)) as Hr. rewrite <- Hp in Hr.
    destruct Hr as [Hh|(rec & Hrd & Hh)]; simpl in Hh; unfold within_budget; rewrite Hh; [done|].
    rewrite sumZ_app. simpl. rewrite Hrd. split; [lia|].
    apply Forall_app. split; [done|]. constructor; [|done]. rewrite Hrd.
    pose proof (u32_range (c_tipHeight c - fork)) as Hu. unfold is_u32 in Hu. subst d. lia.
  - intros _. unfold accepted_branch in Hacc.
    destruct (reorg_path _ c h) as [newChain|e|]; [|done..].
    destruct (fork_height c newChain) as [fk|e|] eqn:Hf; [|done..].
    destruct (check_reorg_depth _ _ _ c).1 as [[]|e|]; [|done..].
    destruct (branch_check _ _ _ _); [|done..]. injection Hacc as -> ->. by exists newChain, fork.
Qed.

(** ** The block locator *)

(** How far below the tip the entry number [k] of the locator is. *)
Definition locator_offset (k : nat) : Z :=
  if decide (k ≤ 10)%nat then Z.of_nat k else 9 + 2 ^ (Z.of_nat k - 10).

Lemma locator_offset_S k :
  locator_offset (S k) = locator_offset k + (if decide (k ≤ 10)%nat then 1 else 2 ^ (Z.of_nat k - 10)).
Proof.
  unfold locator_offset. repeat case_decide; try lia.
  - assert (k = 10%nat) as -> by lia. done.
  - replace (Z.of_nat (S k) - 10) with (Z.succ (Z.of_nat k - 10)) by lia.
    rewrite Z.pow_succ_r by lia. lia.
Qed.

Lemma locator_offset_bound k : locator_offset k < 2 ^ 32 → (k ≤ 41)%nat.
Proof.
  unfold locator_offset. case_decide; [lia|]. intros Hlt.
  destruct (decide (k ≤ 41)%nat); [done|exfalso].
  assert (2 ^ 32 ≤ 2 ^ (Z.of_nat k - 10)) by (apply Z.pow_le_mono_r; lia). lia.
Qed.

Definition locator_step (k : nat) : Z := if decide (k ≤ 10)%nat then 1 else 2 ^ (Z.of_nat k - 10).

Lemma locator_step_pos k : 0 < locator_step k.
Proof. unfold locator_step. case_decide; [lia|]. apply Z.pow_pos_nonneg; lia. Qed.

(** The step after entry [k], when the entry after it is not yet genesis. *)
Lemma locator_step_next k :
  locator_offset (S k) < 2 ^ 32 →
  (if 10 <? Z.of_nat k + 1 then u32 (locator_step k * 2) else locator_step k) = locator_step (S k).
Proof.
  intros Hlt. apply locator_offset_bound in Hlt. unfold locator_step.
  destruct (Z.ltb_spec 10 (Z.of_nat k + 1)).
  - rewrite (decide_False (P := (S k ≤ 10)%nat)) by lia. case_decide.
    + assert (k = 10%nat) as -> by lia. done.
    + replace (Z.of_nat (S k) - 10) with (Z.succ (Z.of_nat k - 10)) by lia.
      rewrite Z.pow_succ_r by lia. rewrite Z.mul_comm. apply u32_id. unfold is_u32.
      assert (2 ^ (Z.of_nat k - 10) ≤ 2 ^ 30) by (apply Z.pow_le_mono_r; lia). lia.
  - by rewrite !decide_True by lia.
Qed.

Lemma locator_loop_spec c tip fuel k step :
  (∀ h, 0 ≤ h ≤ tip → is_Some (c_hashByHeight c !! h)) → 0 ≤ tip < 2 ^ 32 →
  Z.max 0 (tip - locator_offset k) < Z.of_nat fuel → 0 ≤ locator_offset k →
  (tip ≤ locator_offset k ∨ step = locator_step k) →
  ∃ m, (∀ j, (j < m)%nat → locator_offset (k + j) < tip) ∧ tip ≤ locator_offset (k + m) ∧
    length (locator_loop fuel c (Z.max 0 (tip - locator_offset k)) step (Z.of_nat k)) = S m ∧
    ∀ j, (j ≤ m)%nat →
      locator_loop fuel c (Z.max 0 (tip - locator_offset k)) step (Z.of_nat k) !! j
      = c_hashByHeight c !! Z.max 0 (tip - locator_offset (k + j)).
Proof.
  intros Hfull Htip. revert k step. induction fuel as [|fuel IH]; intros k step Hfuel Hoff Hstep; [lia|].
  cbn [locator_loop]. set (h := Z.max 0 (tip - locator_offset k)) in *.
  destruct (Hfull h) as [hash Hh]; [lia|]. rewrite Hh.
  destruct (Z.eqb_spec h 0) as [Hz|Hz].
  - exists 0%nat. rewrite Nat.add_0_r. split_and!; [lia|lia|done|].
    intros j Hj. assert (j = 0%nat) as -> by lia. rewrite Nat.add_0_r. done.
  - assert (step = locator_step k) as -> by (destruct Hstep; [lia|done]).
    pose proof (locator_step_pos k). pose proof (locator_offset_S k) as HS. fold (locator_step k) in HS.
    replace (if h <? locator_step k then 0 else h - locator_step k)
      with (Z.max 0 (tip - locator_offset (S k))) by (destruct (Z.ltb_spec h (locator_step k)); lia).
    replace (Z.of_nat k + 1) with (Z.of_nat (S k)) by lia.
    destruct (IH (S k) (if 10 <? Z.of_nat (S k) then u32 (locator_step k * 2) else locator_step k))
      as (m & Hlt & Hle & Hlen & Hlk); [lia|lia| |].
    { destruct (decide (tip ≤ locator_offset (S k))); [by left|right].
      rewrite <-locator_step_next by lia. by replace (Z.of_nat k + 1) with (Z.of_nat (S k)) by lia. }
    exists (S m). replace (k + S m)%nat with (S k + m)%nat by lia. split_and!.
    + intros [|j] Hj; [rewrite Nat.add_0_r; lia|]. replace (k + S j)%nat with (S k + j)%nat by lia.
      apply Hlt. lia.
    + done.
    + cbn [length]. by rewrite Hlen.
    + intros [|j] Hj; [rewrite Nat.add_0_r; fold h; by rewrite Hh|]. replace (k + S j)%nat with (S k + j)%nat by lia.
      cbn [lookup list_lookup]. apply Hlk. lia.
Qed.

Lemma BlockLocator_spec c :
  (∀ h, 0 ≤ h ≤ c_tipHeight c → is_Some (c_hashByHeight c !! h)) → is_u32 (c_tipHeight c) →
  ∃ m, (m ≤ 42)%nat ∧ length (BlockLocator c) = S m ∧
    (∀ k, (k < m)%nat → locator_offset k < c_tipHeight c) ∧ c_tipHeight c ≤ locator_offset m ∧
    (∀ k, (k ≤ m)%nat → BlockLocator c !! k
       = c_hashByHeight c !! Z.max 0 (c_tipHeight c - locator_offset k)) ∧
    last (BlockLocator c) = c_hashByHeight c !! 0.
Proof.
  intros Hfull Htip. unfold BlockLocator, is_u32 in *.
  destruct (locator_loop_spec c (c_tipHeight c) (S (Z.to_nat (c_tipHeight c))) 0 1)
    as (m & Hlt & Hle & Hlen & Hlk); [done|lia|unfold locator_offset; simpl; lia|done|by right|].
  change (locator_offset 0) with 0 in *. rewrite Z.sub_0_r, Z.max_r in * by lia.
  change (Z.of_nat 0) with 0 in *. simpl Nat.add in *. exists m. split_and!; try done.
  - destruct m as [|m]; [lia|]. specialize (Hlt m). pose proof (locator_offset_bound m). lia.
  - rewrite last_lookup, Hlen. simpl pred. rewrite Hlk by lia. f_equal. lia.
Qed.

(** On a complete main chain the block locator has at most 43 entries: the
    hashes of the tip and of the ten blocks below it, then of blocks whose
    distance to the tip grows by doubling steps, and last the genesis hash.
    The loop ends although its step is a 32-bit number that doubles. *)
Theorem BlockLocator_correct c :
  (∀ h, 0 ≤ h ≤ c_tipHeight c → is_Some (c_hashByHeight c !! h)) → is_u32 (c_tipHeight c) →
  ∃ m, (m ≤ 42)%nat ∧ length (BlockLocator c) = S m ∧
    (∀ k, (k < m)%nat → locator_offset k < c_tipHeight c) ∧ c_tipHeight c ≤ locator_offset m ∧
    (∀ k, (k ≤ m)%nat → BlockLocator c !! k
       = c_hashByHeight c !! Z.max 0 (c_tipHeight c - locator_offset k)) ∧
    last (BlockLocator c) = c_hashByHeight c !! 0.
Proof. apply BlockLocator_spec. Qed.

(** ** A failed write of the tip *)

(** C29: When writing the new tip is the call that fails, [ProcessBlock] reports an
    error with the old tip in place, but the block stays connected to the UTXO
    set in memory: every earlier failure disconnects it again, this one does
    not. *)
Theorem tip_write_failure_keeps_block sync h b n w loc c undo s off size st1 st2 st3 st4 e :
  ConnectBlock (c_utxoSet c) b n None = Ok (undo, s) →
  WriteUndo sync loc.1.1 (SerializeUndoData undo) (c_store c) = (Ok (off, size), st1) →
  PutBlockIndex sync h (with_undo (index_record b n w loc) (off, size)) st1 = (Ok (), st2) →
  FlushUtxoBatch sync (mjoin (put_ops s <$> blk_Transactions b) ++ (delete_spent <$> undo) ++
    [wb_PutBestBlock h]) st2 = (Ok (), st3) →
  PutChainTip sync h n st3 = (Err e, st4) →
  connect_tip sync h b n w loc c = (Err e, set_store st4 (set_utxoSet s c)).
Proof.
  intros Hc Hu Hi Hf Ht. unfold connect_tip, connect_utxos, persistUtxoChanges, extendChain.
  unfold or_disconnect, catch, pwrap, on_store, on, mbind, proc_bind, asks, gets, modify.
  rewrite Hc. cbn. rewrite Hu. cbn. rewrite Hi. cbn. rewrite Hf. cbn. by rewrite Ht.
Qed.
End props.

(** ** Witnesses: a small chain under an engine that accepts every header *)

#[local] Existing Instance mem_db.
#[local] Existing Instance toy_lib.

Definition w_engine : Engine := {|
  e_ValidateHeader := λ _ _ _ _ _, Ok ();
  e_ValidateBlock := λ _ _ _, Ok ();
  e_CalcNextBits := λ _ _ _ _, Ok 0;
  e_PrepareHeader := λ h _ _ _ _, Ok h;
  e_SealHeader := λ h _ _, Ok (true, h);
  e_CalcBlockWeight := λ _, 1;
  e_Hasher := mkHasher (λ bs, Ok (DoubleSHA256 bs)) "sha256d";
  e_Name := "any"
|}.

Definition w_coinbase_tx (script : list byte) : Transaction :=
  mkTransaction 1 [mkTxInput CoinbaseOutPoint script 0xFFFFFFFF] [mkTxOutput 100 [x51]] 0.
Definition w_next (prev : Hash) (time nonce : Z) (script : list byte) : Block :=
  mkBlock (mkBlockHeader 1 prev (HashTransaction (w_coinbase_tx script)) time 0x207fffff nonce)
    [w_coinbase_tx script].

Definition w_params : ChainParams :=
  InitGenesis Regtest (p_GenesisBlock Mainnet) (p_GenesisHash Mainnet).
Definition w_clock (n : nat) : Z := 1800000000 + Z.of_nat n.
Definition w_process (b : Block) : proc (Chain FileStore) (Z * option error) :=
  ProcessBlock w_params w_engine w_clock w_clock b.

(** The genesis block, a block on it, and a fork of two blocks. *)
Definition w_genesis : Hash := p_GenesisHash Mainnet.
Definition w_a1 : Block := w_next w_genesis 1800000000 1 [x01; x01].
Definition w_b1 : Block := w_next w_genesis 1800000000 2 [x01; x01; x00].
Definition w_b2 : Block := w_next (HashBlockHeader (blk_Header w_b1)) 1800000001 3 [x01; x02].

Definition w_chain0 : Chain FileStore := (Init w_params w_engine (New w_store)).2.
Definition w_chain1 : Chain FileStore := (w_process w_a1 w_chain0).2.
Definition w_chain2 : Chain FileStore := (w_process w_b1 w_chain1).2.
Definition w_chain3 : Chain FileStore := (w_process w_b2 w_chain2).2.

Lemma orphan_pool_bounded_witness :
  OrphanCount (processBlock w_params w_engine w_clock w_clock w_b2 false w_chain1).2 ≤ MaxOrphanBlocks.
Proof.
  refine (proj1 (orphan_pool_bounded w_params w_engine w_clock w_clock w_b2 false w_chain1 _ _
           (surjective_pairing (processBlock w_params w_engine w_clock w_clock w_b2 false w_chain1)) _)).
  by vm_compute.
Defined.

(** A fork whose last block claims too much. *)
Definition w_greedy : Block :=
  let cb := mkTransaction 1 [mkTxInput CoinbaseOutPoint [x01; x02] 0xFFFFFFFF]
              [mkTxOutput 1000000000000000 [x51]] 0 in
  mkBlock (mkBlockHeader 1 (HashBlockHeader (blk_Header w_b1)) (HashTransaction cb) 1800000001
             0x207fffff 4) [cb].
Definition w_hash2 : Hash := HashBlockHeader (blk_Header w_b2).
Definition w_greedy_hash : Hash := HashBlockHeader (blk_Header w_greedy).
Definition w_stored : Chain FileStore := (store_side_block w_hash2 w_b2 2 3 w_chain2).2.
Definition w_greedy_stored : Chain FileStore :=
  (store_side_block w_greedy_hash w_greedy 2 3 w_chain2).2.

Lemma reorg_failed_trial_witness :
  (bool_decide (accepted_branch w_params w_clock w_greedy_hash 2 w_greedy_stored
                  (c_utxoSet w_greedy_stored) = None) = true ∧
   let run := reorg w_params w_clock w_greedy_hash 2 3 w_greedy_stored in
   run.1 ≠ Ok () ∧ (run.2 = w_greedy_stored ∨
     0 < p_MaxReorgDepth w_params ∧ run.2 = prune_history w_clock w_greedy_stored)) ∧
  ∃ trials, length trials = 2%nat ∧
    reorg w_params w_clock w_hash2 2 3 w_stored
    = reorg_commit w_clock w_hash2 2 3 0 1 trials (after_depth w_params w_clock 1 w_stored).
Proof.
  split.
  - assert (bool_decide (accepted_branch w_params w_clock w_greedy_hash 2 w_greedy_stored
      (c_utxoSet w_greedy_stored) = None) = true) as Hnone by (vm_compute; reflexivity).
    split; [exact Hnone|].
    assert (keyed (c_utxoSet w_greedy_stored)) as Hk
      by (apply (bool_decide_eq_true_1 (keyed _)); vm_compute; reflexivity).
    pose proof (reorg_failed_trial w_params w_clock w_greedy_hash 2 3 w_greedy_stored _ _
                  (surjective_pairing _) Hk) as Ht.
    apply bool_decide_eq_true_1 in Hnone. rewrite Hnone in Ht. exact Ht.
  - assert (keyed (c_utxoSet w_stored)) as Hk
      by (apply (bool_decide_eq_true_1 (keyed _)); vm_compute; reflexivity).
    pose proof (reorg_failed_trial w_params w_clock w_hash2 2 3 w_stored _ _
                  (surjective_pairing _) Hk) as Ht.
    assert (match accepted_branch w_params w_clock w_hash2 2 w_stored (c_utxoSet w_stored) with
            | Some (fork, trials) => (fork =? 0) && (u32 (c_tipHeight w_stored - fork) =? 1)
                                     && (length trials =? 2)%nat
            | None => false
            end = true) as Hs by (vm_compute; reflexivity).
    destruct (accepted_branch w_params w_clock w_hash2 2 w_stored _) as [[fork trials]|]; [|discriminate Hs].
    apply andb_true_iff in Hs as [[Hf Hd]%andb_true_iff Hl%Nat.eqb_eq].
    apply Z.eqb_eq in Hf, Hd. cbv zeta in Ht. rewrite Hd, Hf, <- surjective_pairing in Ht.
    exists trials. split; [exact Hl|exact Ht].
Defined.

Lemma reorg_depth_limited_witness :
  (reorg Mainnet w_clock w_hash2 2 3 w_stored).1 = Ok () ∧
  within_budget Mainnet (reorg Mainnet w_clock w_hash2 2 3 w_stored).2.
Proof.
  split; [by vm_compute|].
  apply (reorg_depth_limited Mainnet w_clock w_hash2 2 3 w_stored _ _ (surjective_pairing _)).
  - by vm_compute.
  - by vm_compute.
  - split; [by vm_compute|]. vm_compute. constructor.
Defined.

Lemma BlockLocator_correct_witness :
  ∃ m, (m ≤ 42)%nat ∧ length (BlockLocator w_chain3) = S m ∧
    (∀ k, (k < m)%nat → locator_offset k < c_tipHeight w_chain3) ∧
    c_tipHeight w_chain3 ≤ locator_offset m ∧
    (∀ k, (k ≤ m)%nat → BlockLocator w_chain3 !! k
       = c_hashByHeight w_chain3 !! Z.max 0 (c_tipHeight w_chain3 - locator_offset k)) ∧
    last (BlockLocator w_chain3) = c_hashByHeight w_chain3 !! 0.
Proof.
  apply (BlockLocator_correct w_chain3).
  - assert (c_tipHeight w_chain3 = 2) as -> by by vm_compute. intros h Hh.
    assert (h = 0 ∨ h = 1 ∨ h = 2) as [-> | [-> | ->]] by lia; eexists; by vm_compute.
  - by vm_compute.
Defined.

(** A database in which the chain tip cannot be written. *)
Definition stuck_db : LevelDB := {|
  db := kvmap;
  db_Get := mem_get;
  db_Has m k := inr (bool_decide (is_Some (m !! k)));
  db_Put _ k v m := if bool_decide (k = keyChainTip) then (inl (Errorf "disk full"), m)
                    else (inr (), <[k := v]> m);
  db_Delete _ k m := (inr (), delete k m);
  db_Write _ ops m := (inr (), foldl apply_op m ops);
  db_CompactRange m := (inr (), m);
  db_Iterate := mem_iterate
|}.

Definition stuck_chain : @Chain (@FileStore stuck_db) :=
  mkChain (@mkFileStore stuck_db w_bfm (∅ : kvmap) (∅ : kvmap)) w_genesis 0 1
    {[w_genesis := 0]} {[0 := w_genesis]} ∅ ∅ [] false 0 0.

Lemma pair_of_fst {A B} (x : A * B) a : x.1 = a → x = (a, x.2).
Proof. by destruct x; intros <-. Qed.

Definition stuck_hash : Hash := HashBlockHeader (blk_Header w_a1).
Definition stuck_set : UtxoSet :=
  {[ OutpointKey (HashTransaction (w_coinbase_tx [x01; x01])) 0 := mkUtxoEntry 100 [x51] 1 true ]}.

Lemma tip_write_failure_keeps_block_witness :
  let r := @connect_tip _ (@FileStore_BlockStore stuck_db) true stuck_hash w_a1 1 2 (0, 0, 0)
             stuck_chain in
  r.1 = Err (Errorf "disk full") ∧ c_tipHash r.2 = w_genesis ∧ c_utxoSet r.2 = stuck_set.
Proof.
  pose (st1 := (@WriteUndo _ (@FileStore_BlockStore stuck_db) true 0 (SerializeUndoData [])
                  (c_store stuck_chain)).2).
  pose (st2 := (@PutBlockIndex _ (@FileStore_BlockStore stuck_db) true stuck_hash
                  (with_undo (index_record w_a1 1 2 (0, 0, 0)) (0, 1)) st1).2).
  pose (st3 := (@FlushUtxoBatch _ (@FileStore_BlockStore stuck_db) true
                  (mjoin (put_ops stuck_set <$> blk_Transactions w_a1) ++
                   (delete_spent <$> []) ++ [wb_PutBestBlock stuck_hash]) st2).2).
  pose (st4 := (@PutChainTip _ (@FileStore_BlockStore stuck_db) true stuck_hash 1 st3).2).
  cbv zeta.
  rewrite (@tip_write_failure_keeps_block _ (@FileStore_BlockStore stuck_db) true stuck_hash w_a1 1 2
    (0, 0, 0) stuck_chain [] stuck_set 0 1 st1 st2 st3 st4 (Errorf "disk full")).
  - split; [reflexivity|]. split; reflexivity.
  - by_decide.
  - unfold st1. apply pair_of_fst. vm_compute. reflexivity.
  - unfold st2. apply pair_of_fst. vm_compute. reflexivity.
  - unfold st3. apply pair_of_fst. vm_compute. reflexivity.
  - unfold st4. apply pair_of_fst. vm_compute. reflexivity.
Defined.
