(* ===== verification/Heap.v ===== *)
(** * container/heap: the heap functions of Go's standard library

    [HeapI] is [heap.Interface] (with [sort.Interface]) for a state that holds
    the slice; [heap_Init], [heap_Push], [heap_Pop] and [heap_Remove] are the
    functions of the package, written on the interface as the package writes
    them.  [HeapLaws] says what an implementation has to satisfy, and the lemmas
    give what the four functions then do.  The fee index of the memory pool
    (file Mempool) is an instance.

    Indices are natural numbers: the tests for a negative index concern slices
    longer than the address space. *)
From S2P Require Import Prelude.

Class HeapI (St X : Type) : Type := {
  hp_Len : St → nat;
  hp_Less : nat → nat → St → bool;
  hp_Swap : nat → nat → St → St;
  hp_Push : X → St → St;
  hp_Pop : St → option X * St
}.

Section heap.
Context {St X : Type} `{!HeapI St X}.
Implicit Types s : St.

(** [(j - 1) / 2], rounding towards zero. *)
Definition parent (j : nat) : nat := (j - 1) / 2.

(** The loop of [up]: the index decreases, so [j + 1] turns suffice. *)
Fixpoint up (fuel : nat) (j : nat) s : St :=
  match fuel with
  | O => s
  | S fuel' =>
      let i := parent j in
      if bool_decide (i = j) || negb (hp_Less j i s) then s
      else up fuel' i (hp_Swap i j s)
  end.

(** The loop of [down], with the index it ends at; it increases and stays below
    [n], so [n] turns suffice. *)
Fixpoint down (fuel : nat) (i n : nat) s : nat * St :=
  match fuel with
  | O => (i, s)
  | S fuel' =>
      let j1 := (2 * i + 1)%nat in
      if bool_decide (n ≤ j1)%nat then (i, s) else
      let j2 := (j1 + 1)%nat in
      let j := if bool_decide (j2 < n)%nat && hp_Less j2 j1 s then j2 else j1 in
      if negb (hp_Less j i s) then (i, s) else down fuel' j n (hp_Swap i j s)
  end.

(** The turns [i = k-1, ..., 0] of the loop of [heap.Init]. *)
Fixpoint init_loop (k n : nat) s : St :=
  match k with
  | O => s
  | S i => init_loop i n (down n i n s).2
  end.
Definition heap_Init s : St := init_loop (hp_Len s / 2) (hp_Len s) s.

Definition heap_Push (x : X) s : St :=
  let s := hp_Push x s in
  up (hp_Len s) (hp_Len s - 1) s.

(** On an empty heap [heap.Pop] panics ([None]). *)
Definition heap_Pop s : option X * St :=
  match hp_Len s with
  | O => (None, s)
  | S n => let s := hp_Swap 0 n s in
           let '(_, s) := down n 0 n s in
           hp_Pop s
  end.

Definition heap_Remove (i : nat) s : option X * St :=
  match hp_Len s with
  | O => (None, s)
  | S n =>
      let s := if bool_decide (n = i) then s else
        let s := hp_Swap i n s in
        let '(i', s) := down n i n s in
        if bool_decide (i < i')%nat then s else up (S i) i s in
      hp_Pop s
  end.
End heap.

(** ** What an implementation promises *)

Definition list_swap {A} (i j : nat) (l : list A) : list A :=
  match l !! i, l !! j with
  | Some x, Some y => <[i := y]> (<[j := x]> l)
  | _, _ => l
  end.

(** [hp_view] is the slice as a list of keys, [hp_key] the key of an element.
    The comparison is a strict weak order on the keys. *)
Class HeapLaws (St X A : Type) `{!HeapI St X} : Type := {
  hp_ok : St → Prop;
  hp_view : St → list A;
  hp_lt : A → A → bool;
  hp_lt_asym x y : hp_lt x y = true → hp_lt y x = false;
  hp_lt_trans x y z : hp_lt x y = false → hp_lt y z = false → hp_lt x z = false;
  hp_Len_view s : hp_ok s → hp_Len s = length (hp_view s);
  hp_Less_view s i j x y : hp_ok s → hp_view s !! i = Some x → hp_view s !! j = Some y →
    hp_Less i j s = hp_lt x y;
  hp_Swap_view s i j : hp_ok s → (i < hp_Len s)%nat → (j < hp_Len s)%nat →
    hp_ok (hp_Swap i j s) ∧ hp_view (hp_Swap i j s) = list_swap i j (hp_view s)
}.

Section list_swap.
Context {A : Type}.
Implicit Types l : list A.

Lemma list_swap_lookup i j l x y k :
  l !! i = Some x → l !! j = Some y →
  list_swap i j l !! k =
    if decide (k = i) then Some y else if decide (k = j) then Some x else l !! k.
Proof.
  intros Hi Hj. unfold list_swap. rewrite Hi, Hj.
  apply lookup_lt_Some in Hi as Hi'. apply lookup_lt_Some in Hj as Hj'.
  destruct (decide (k = i)) as [->|Hki].
  - by rewrite list_lookup_insert_eq by (by rewrite length_insert).
  - rewrite list_lookup_insert_ne by done. destruct (decide (k = j)) as [->|Hkj].
    + by rewrite list_lookup_insert_eq.
    + by rewrite list_lookup_insert_ne.
Qed.

Lemma list_swap_length i j l : length (list_swap i j l) = length l.
Proof. unfold list_swap. by destruct (l !! i), (l !! j); rewrite ?length_insert. Qed.

Lemma list_swap_perm i j l : list_swap i j l ≡ₚ l.
Proof.
  unfold list_swap. destruct (l !! i) eqn:?, (l !! j) eqn:?; [|done..].
  by apply Permutation_insert_swap.
Qed.

Lemma list_swap_drop i j n l :
  (i < n)%nat → (j < n)%nat → drop n (list_swap i j l) = drop n l.
Proof.
  intros. unfold list_swap. destruct (l !! i), (l !! j); [|done..].
  by rewrite !drop_insert_lt by done.
Qed.
End list_swap.

Lemma list_swap_fmap {A B} (f : A → B) i j l : f <$> list_swap i j l = list_swap i j (f <$> l).
Proof.
  unfold list_swap. rewrite !list_lookup_fmap.
  destruct (l !! i), (l !! j); cbn; [|done..]. by rewrite !list_fmap_insert.
Qed.

(** ** Heap order *)

Section order.
Context {A : Type} (lt : A → A → bool).
Hypothesis lt_asym : ∀ x y, lt x y = true → lt y x = false.
Hypothesis lt_trans : ∀ x y z, lt x y = false → lt y z = false → lt x z = false.
Implicit Types l : list A.

(** The element at [k] is not before the one at [p]. *)
Definition ordered_at l (p k : nat) : Prop :=
  ∀ x y, l !! p = Some x → l !! k = Some y → lt y x = false.

(** The first [n] elements are in heap order. *)
Definition heap_ordered (n : nat) l : Prop :=
  ∀ k, (0 < k < n)%nat → ordered_at l (parent k) k.

(** Heap order except around [i], whose neighbours are in order. *)
Definition around (n i : nat) l : Prop :=
  (∀ k, (0 < k < n)%nat → k ≠ i → parent k ≠ i → ordered_at l (parent k) k) ∧
  (∀ k, (0 < k < n)%nat → parent k = i → (0 < i)%nat → ordered_at l (parent i) k).
Definition above (i : nat) l : Prop := (0 < i)%nat → ordered_at l (parent i) i.
Definition below (n i : nat) l : Prop :=
  ∀ k, (0 < k < n)%nat → parent k = i → ordered_at l i k.

Lemma parent_lt j : (0 < j)%nat → (parent j < j)%nat.
Proof using. clear. intros. unfold parent. apply Nat.Div0.div_lt_upper_bound. lia. Qed.

Lemma parent_children i k : (0 < k)%nat → parent k = i ↔ k = (2 * i + 1)%nat ∨ k = (2 * i + 2)%nat.
Proof using. clear. intros. unfold parent. pose proof (Nat.div_mod_eq (k - 1) 2).
  pose proof (Nat.mod_upper_bound (k - 1) 2). lia.
Qed.

Lemma heap_ordered_intro n i l :
  around n i l → above i l → below n i l → heap_ordered n l.
Proof using.
  intros [Ha _] Hab Hbe k Hk. destruct (decide (k = i)) as [->|?]; [apply Hab; lia|].
  destruct (decide (parent k = i)) as [Hp|?]; [rewrite Hp; by apply Hbe|auto].
Qed.

Lemma heap_ordered_around n i l : heap_ordered n l → (i < n)%nat → around n i l ∧ above i l ∧ below n i l.
Proof using lt_trans.
  intros Hh Hi. split_and!.
  - split; [auto|]. intros k Hk Hp Hi0 x y Hx Hy.
    destruct (l !! i) as [z|] eqn:Hz.
    + eapply lt_trans; [eapply Hh; [exact Hk|by rewrite Hp|done]|].
      eapply Hh; [|done..]. lia.
    + apply lookup_lt_Some in Hy. apply lookup_ge_None in Hz.
      rewrite <-Hp in Hz. pose proof (parent_lt k). lia.
  - intros ?. apply Hh. lia.
  - intros k Hk Hp. rewrite <-Hp. by apply Hh.
Qed.

Lemma ordered_at_swap i j l x y p k :
  l !! i = Some x → l !! j = Some y →
  ordered_at (list_swap i j l) p k ↔
  ∀ u v, (if decide (p = i) then Some y else if decide (p = j) then Some x else l !! p) = Some u →
         (if decide (k = i) then Some y else if decide (k = j) then Some x else l !! k) = Some v →
         lt v u = false.
Proof using. intros Hi Hj. unfold ordered_at. by rewrite !(list_swap_lookup i j l x y). Qed.

Ltac swap_cases :=
  repeat case_decide;
  repeat match goal with H : Some _ = Some _ |- _ => injection H as <- end;
  try (exfalso; first [congruence|lia]).

(** A swap with the parent moves the disorder up. *)
Lemma swap_up n j l x y :
  (0 < j < n)%nat → l !! parent j = Some x → l !! j = Some y → lt y x = true →
  around n j l → below n j l →
  around n (parent j) (list_swap (parent j) j l) ∧ below n (parent j) (list_swap (parent j) j l).
Proof using lt_asym lt_trans.
  intros Hj Hx Hy Hlt [Har Hgr] Hbe. assert (Hpj := parent_lt j ltac:(lia)).
  remember (parent j) as i eqn:Hij. apply lt_asym in Hlt as Hle.
  split; [split|].
  - intros k Hk Hki Hpk. apply (ordered_at_swap i j l x y); [done..|].
    intros u v Hu Hv. swap_cases.
    + eapply (Hgr k); eauto; lia.
    + eapply Har; eauto.
  - intros k Hk Hpk Hi0. apply (ordered_at_swap i j l x y); [done..|]. pose proof (parent_lt i Hi0).
    intros u v Hu Hv. swap_cases.
    + eapply (Har i); eauto; lia.
    + eapply lt_trans; [eapply (Har k); eauto; [lia|by rewrite Hpk]|].
      eapply (Har i); eauto; lia.
  - intros k Hk Hpk. apply (ordered_at_swap i j l x y); [done..|].
    intros u v Hu Hv. swap_cases; try done.
    + pose proof (parent_lt k). lia.
    + eapply lt_trans; [|exact Hle]. eapply (Har k); eauto; [lia|by rewrite Hpk].
Qed.

(** A swap with the least child moves it down. *)
Lemma swap_down n i j l x y :
  (i < j < n)%nat → parent j = i → l !! i = Some x → l !! j = Some y → lt y x = true →
  (∀ k z, (0 < k < n)%nat → parent k = i → l !! k = Some z → lt z y = false) →
  around n i l → around n j (list_swap i j l) ∧ above j (list_swap i j l).
Proof using lt_asym lt_trans.
  intros Hj Hp Hx Hy Hlt Hmin [Har Hgr]. apply lt_asym in Hlt as Hle.
  split; [split|].
  - intros k Hk Hkj Hpk. apply (ordered_at_swap i j l x y); [done..|].
    intros u v Hu Hv. pose proof (parent_lt k ltac:(lia)).
    swap_cases.
    + subst k. eapply (Hgr j); eauto; lia.
    + by eapply Hmin.
    + by eapply Har.
  - intros k Hk Hpk Hj0. apply (ordered_at_swap i j l x y); [done..|]. pose proof (parent_lt k ltac:(lia)).
    intros u v Hu Hv. swap_cases.
    eapply (Har k); [lia|lia|lia|by rewrite Hpk|done].
  - intros ?. rewrite Hp. apply (ordered_at_swap i j l x y); [done..|].
    intros u v Hu Hv. by swap_cases.
Qed.
End order.

(** ** What the functions do *)

Section functions.
Context {St X A : Type} `{HeapLaws St X A}.
Implicit Types s : St.

(** The states reached by swapping elements among the first [n]. *)
Inductive swapped (n : nat) : St → St → Prop :=
| swapped_refl s : swapped n s s
| swapped_step i j s s' : (i < n)%nat → (j < n)%nat → swapped n (hp_Swap i j s) s' → swapped n s s'.

Lemma swapped_ok n s s' :
  swapped n s s' → hp_ok s → (n ≤ hp_Len s)%nat →
  hp_ok s' ∧ hp_view s' ≡ₚ hp_view s ∧ drop n (hp_view s') = drop n (hp_view s) ∧ hp_Len s' = hp_Len s.
Proof.
  induction 1 as [s|i j s s' Hi Hj _ IH]; intros Hok Hn; [done|].
  destruct (hp_Swap_view s i j Hok ltac:(lia) ltac:(lia)) as [Hok' Hv].
  assert (Hl : hp_Len (hp_Swap i j s) = hp_Len s).
  { by rewrite !hp_Len_view, Hv, list_swap_length. }
  destruct (IH Hok' ltac:(lia)) as (? & Hp & Hd & ?). rewrite Hv in Hp, Hd.
  rewrite list_swap_perm in Hp. rewrite list_swap_drop in Hd by done.
  split_and!; [done..|lia].
Qed.

Lemma swapped_mono n m s s' : (n ≤ m)%nat → swapped n s s' → swapped m s s'.
Proof. intros Hnm. induction 1; [constructor|]. eapply (swapped_step _ i j); [lia..|done]. Qed.

Lemma view_lookup s i : hp_ok s → (i < hp_Len s)%nat → ∃ x, hp_view s !! i = Some x.
Proof. intros Hok Hi. apply lookup_lt_is_Some. by rewrite <-hp_Len_view. Qed.

Abbreviation heap n s := (heap_ordered hp_lt n (hp_view s)).

Lemma up_spec n fuel j s :
  hp_ok s → (j < n ≤ hp_Len s)%nat → (j < fuel)%nat →
  around hp_lt n j (hp_view s) → below hp_lt n j (hp_view s) →
  swapped n s (up fuel j s) ∧ heap n (up fuel j s).
Proof.
  revert j s. induction fuel as [|fuel IH]; intros j s Hok Hj Hf Har Hbe; [lia|]. cbn [up].
  destruct (view_lookup s j) as [y Hy]; [done|lia|].
  destruct (decide (j = 0%nat)) as [->|Hj0].
  { cbn. split; [constructor|]. eapply heap_ordered_intro; [done| |done]. intros ?; lia. }
  assert (Hp := parent_lt j ltac:(lia)).
  destruct (view_lookup s (parent j)) as [x Hx]; [done|lia|].
  rewrite bool_decide_false by lia. cbn [orb].
  rewrite (hp_Less_view s _ _ _ _ Hok Hy Hx). destruct (hp_lt y x) eqn:Hlt; cbn [negb].
  - destruct (hp_Swap_view s (parent j) j Hok ltac:(lia) ltac:(lia)) as [Hok' Hv].
    destruct (swap_up hp_lt hp_lt_asym hp_lt_trans n j (hp_view s) x y) as [Ha Hb]; [lia|done..|].
    destruct (IH (parent j) (hp_Swap (parent j) j s)) as [Hsw Hh]; rewrite ?Hv; [done| |lia|done..|].
    { rewrite hp_Len_view, Hv, list_swap_length, <-hp_Len_view by done. lia. }
    split; [|done]. eapply swapped_step; [| |done]; lia.
  - split; [constructor|]. eapply heap_ordered_intro; [done| |done].
    intros _ x' y' Hx' Hy'. by simplify_eq.
Qed.

(** The child [down] compares with is the least one. *)
Lemma least_child n i s :
  hp_ok s → (2 * i + 1 < n ≤ hp_Len s)%nat →
  let j := if bool_decide (2 * i + 1 + 1 < n)%nat && hp_Less (2 * i + 1 + 1) (2 * i + 1) s
           then (2 * i + 1 + 1)%nat else (2 * i + 1)%nat in
  (i < j < n)%nat ∧ parent j = i ∧
  ∃ y, hp_view s !! j = Some y ∧
    ∀ k z, (0 < k < n)%nat → parent k = i → hp_view s !! k = Some z → hp_lt z y = false.
Proof.
  intros Hok Hn. destruct (view_lookup s (2 * i + 1)) as [y1 Hy1]; [done|lia|].
  assert (Hirr : ∀ y, hp_lt y y = false).
  { intros y. destruct (hp_lt y y) eqn:E; [|done]. by rewrite (hp_lt_asym _ _ E) in E. }
  assert (Hp1 : parent (2 * i + 1) = i) by (apply parent_children; lia).
  assert (Hp2 : parent (2 * i + 1 + 1) = i) by (apply parent_children; lia).
  destruct (bool_decide_reflect (2 * i + 1 + 1 < n)%nat) as [Hlt|Hge]; cbn [andb].
  - destruct (view_lookup s (2 * i + 1 + 1)) as [y2 Hy2]; [done|lia|].
    rewrite (hp_Less_view s _ _ _ _ Hok Hy2 Hy1). destruct (hp_lt y2 y1) eqn:E; cbv zeta.
    + split_and!; [lia|lia|done|]. exists y2. split; [done|].
      intros k z Hk Hpk Hz. apply parent_children in Hpk as [-> | ->]; [| |lia].
      * simplify_eq. by apply hp_lt_asym.
      * replace (2 * i + 2)%nat with (2 * i + 1 + 1)%nat in Hz by lia. by simplify_eq.
    + split_and!; [lia|lia|done|]. exists y1. split; [done|].
      intros k z Hk Hpk Hz. apply parent_children in Hpk as [-> | ->]; [| |lia].
      * by simplify_eq.
      * replace (2 * i + 2)%nat with (2 * i + 1 + 1)%nat in Hz by lia. by simplify_eq.
  - cbv zeta. split_and!; [lia|lia|done|]. exists y1. split; [done|].
    intros k z Hk Hpk Hz. apply parent_children in Hpk as [-> | ->]; [|lia|lia]. by simplify_eq.
Qed.

Lemma down_spec n fuel i s :
  hp_ok s → (i < n ≤ hp_Len s)%nat → (n ≤ fuel + i)%nat → around hp_lt n i (hp_view s) →
  let '(i', s') := down fuel i n s in
  swapped n s s' ∧
  ((i' = i ∧ s' = s ∧ below hp_lt n i (hp_view s)) ∨ ((i < i')%nat ∧ heap n s')).
Proof.
  revert i s. induction fuel as [|fuel IH]; intros i s Hok Hi Hf Har; [lia|].
  cbn [down]. destruct (bool_decide_reflect (n ≤ 2 * i + 1)%nat) as [Hle|Hgt].
  { split; [constructor|]. left. split_and!; [done..|]. intros k Hk Hpk.
    apply parent_children in Hpk; lia. }
  pose proof (least_child n i s Hok ltac:(lia)) as Hleast. cbv zeta in Hleast |- *.
  destruct Hleast as (Hj & Hp & y & Hy & Hmin).
  destruct (view_lookup s i) as [x Hx]; [done|lia|].
  rewrite (hp_Less_view s _ _ _ _ Hok Hy Hx).
  match type of Hp with parent ?t = _ => set (j := t) in * end. clearbody j.
  destruct (hp_lt y x) eqn:Hlt; cbn [negb].
  - destruct (hp_Swap_view s i j Hok ltac:(lia) ltac:(lia)) as [Hok' Hv].
    destruct (swap_down hp_lt hp_lt_asym hp_lt_trans n i j (hp_view s) x y) as [Ha Hb]; [done..|].
    rewrite <-Hv in Ha, Hb.
    specialize (IH j (hp_Swap i j s) Hok').
    destruct (down fuel j n (hp_Swap i j s)) as [i' s'].
    destruct IH as [Hsw Hres]; [|lia|done|].
    { rewrite hp_Len_view, Hv, list_swap_length, <-hp_Len_view by done. lia. }
    split; [eapply (swapped_step _ i j); [lia..|done]|]. right.
    destruct Hres as [(-> & -> & Hbe)|[Hlt' Hh]]; (split; [lia|]); [|done].
    by eapply heap_ordered_intro.
  - split; [constructor|]. left. split_and!; [done..|].
    intros k Hk Hpk x' y' Hx' Hy'. simplify_eq.
    eapply hp_lt_trans; [by eapply Hmin|done].
Qed.

(** The root is a least element. *)
Lemma heap_root n s x k y :
  heap n s → hp_view s !! 0%nat = Some x → (k < n)%nat → hp_view s !! k = Some y → hp_lt y x = false.
Proof.
  intros Hh Hx. revert y. induction (lt_wf k) as [k _ IH]; intros y Hk Hy.
  destruct (decide (k = 0%nat)) as [->|Hk0].
  { rewrite Hx in Hy. injection Hy as <-. destruct (hp_lt x x) eqn:E; [|done]. by rewrite (hp_lt_asym _ _ E) in E. }
  assert (Hp := parent_lt k ltac:(lia)).
  destruct (lookup_lt_is_Some_2 (hp_view s) (parent k)) as [z Hz].
  { apply lookup_lt_Some in Hy. lia. }
  eapply hp_lt_trans; [eapply Hh; [|done..]; lia|]. eapply IH; [done| |done]. lia.
Qed.

Lemma heap_Push_spec x k s :
  hp_ok (hp_Push x s) → hp_view (hp_Push x s) = hp_view s ++ [k] →
  heap (length (hp_view s)) s →
  let n := hp_Len (hp_Push x s) in
  swapped n (hp_Push x s) (heap_Push x s) ∧ heap n (heap_Push x s).
Proof.
  intros Hok Hv Hh. cbv zeta. set (l := hp_view s) in *.
  assert (Hn : hp_Len (hp_Push x s) = S (length l)) by (rewrite hp_Len_view, Hv, length_app by done; simpl; lia).
  unfold heap_Push. rewrite Hn. replace (S (length l) - 1)%nat with (length l) by lia.
  assert (Hbe : ∀ k', (0 < k' < S (length l))%nat → parent k' ≠ length l).
  { intros k' Hk' Hpk'. assert (Hp := parent_lt k'). lia. }
  apply up_spec; [done|lia|lia| |]; rewrite Hv.
  - split; [|intros ? ? Hp; by apply Hbe in Hp].
    intros k' Hk' Hne _ u v Hu Hv'. assert (Hp := parent_lt k' ltac:(lia)).
    rewrite lookup_app_l in Hu, Hv' by lia. eapply Hh; [|done..]. lia.
  - intros ? ? Hp. by apply Hbe in Hp.
Qed.

(** The state before the final [Pop] of the slice, when the element at [i] is
    taken out: it is last, and the others are in heap order. *)
Definition extracts (i n : nat) s s1 : Prop :=
  swapped (S n) s s1 ∧ hp_ok s1 ∧ hp_view s1 !! n = hp_view s !! i ∧ heap n s1.

Lemma extract_last n s s1 s2 i :
  hp_ok s → hp_Len s = S n → (i ≤ n)%nat → s1 = hp_Swap i n s → swapped n s1 s2 →
  swapped (S n) s s2 ∧ hp_ok s2 ∧ hp_view s2 !! n = hp_view s !! i.
Proof.
  intros Hok Hn Hi -> Hsw. destruct (hp_Swap_view s i n Hok ltac:(lia) ltac:(lia)) as [Hok' Hv].
  assert (Hn' : hp_Len (hp_Swap i n s) = S n) by (rewrite !hp_Len_view, Hv, list_swap_length, <-hp_Len_view; done).
  destruct (swapped_ok _ _ _ Hsw Hok' ltac:(lia)) as (Hok2 & _ & Hd & _). split_and!; [|done|].
  - eapply (swapped_step _ i n); [lia..|]. eapply swapped_mono; [|done]. lia.
  - rewrite <-(Nat.add_0_r n), <-!lookup_drop, Hd, lookup_drop, Nat.add_0_r, Hv.
    destruct (view_lookup s i Hok ltac:(lia)) as [x Hx].
    destruct (view_lookup s n Hok ltac:(lia)) as [y Hy].
    rewrite (list_swap_lookup i n _ x y) by done. rewrite Hx.
    destruct (decide (n = i)) as [->|?]; [congruence|]. by rewrite decide_True.
Qed.

(** After the element at [i] is replaced by the last one, heap order may only
    be broken around [i]. *)
Lemma around_swap_last n s i :
  hp_ok s → hp_Len s = S n → (i < n)%nat → heap (S n) s →
  around hp_lt n i (hp_view (hp_Swap i n s)).
Proof.
  intros Hok Hn Hi Hh. destruct (hp_Swap_view s i n Hok ltac:(lia) ltac:(lia)) as [_ Hv].
  destruct (view_lookup s i Hok ltac:(lia)) as [x Hx].
  destruct (view_lookup s n Hok ltac:(lia)) as [y Hy].
  destruct (heap_ordered_around hp_lt hp_lt_trans (S n) i (hp_view s) Hh ltac:(lia)) as [[Ha Hg] _].
  rewrite Hv. split; intros k Hk Hk2.
  - intros Hk3. apply (ordered_at_swap hp_lt i n _ x y); [done..|].
    assert (Hp := parent_lt k ltac:(lia)). rewrite !decide_False by lia. apply Ha; [lia|done..].
  - intros Hi0. apply (ordered_at_swap hp_lt i n _ x y); [done..|].
    assert (Hp := parent_lt i Hi0). assert (Hpk := parent_lt k ltac:(lia)).
    rewrite !decide_False by lia. apply Hg; [lia|done..].
Qed.

Lemma heap_Pop_spec n s :
  hp_ok s → hp_Len s = S n → heap (S n) s →
  ∃ s1, heap_Pop s = hp_Pop s1 ∧ extracts 0 n s s1.
Proof.
  intros Hok Hn Hh. unfold heap_Pop. rewrite Hn.
  destruct (hp_Swap_view s 0 n Hok ltac:(lia) ltac:(lia)) as [Hok' Hv].
  assert (Hn' : hp_Len (hp_Swap 0 n s) = S n) by (rewrite !hp_Len_view, Hv, list_swap_length, <-hp_Len_view; done).
  destruct n as [|n].
  { cbn [down]. eexists. split; [done|].
    destruct (extract_last 0 s (hp_Swap 0 0 s) _ 0 Hok Hn ltac:(lia) eq_refl (swapped_refl _ _)) as (? & ? & ?).
    split_and!; [done..|]. intros k ?. lia. }
  pose proof (down_spec (S n) (S n) 0 (hp_Swap 0 (S n) s) Hok' ltac:(lia) ltac:(lia)) as Hd.
  specialize (Hd (around_swap_last (S n) s 0 Hok Hn (Nat.lt_0_succ n) Hh)).
  destruct (down (S n) 0 (S n) (hp_Swap 0 (S n) s)) as [i' s2]. destruct Hd as [Hsw Hres].
  eexists. split; [done|].
  destruct (extract_last _ _ _ _ 0 Hok Hn ltac:(lia) eq_refl Hsw) as (? & ? & ?).
  split_and!; [done..|]. destruct Hres as [(-> & -> & Hbe)|[_ Hh']]; [|done].
  apply (heap_ordered_intro hp_lt (S n) 0); [|intros ?; lia|done]. apply around_swap_last; [done|done|lia|done].
Qed.

Lemma heap_Remove_spec n i s :
  hp_ok s → hp_Len s = S n → (i ≤ n)%nat → heap (S n) s →
  ∃ s1, heap_Remove i s = hp_Pop s1 ∧ extracts i n s s1.
Proof.
  intros Hok Hn Hi Hh. unfold heap_Remove. rewrite Hn.
  destruct (bool_decide_reflect (n = i)) as [<-|Hne].
  { eexists. split; [done|]. split_and!; [constructor|done..|]. intros k Hk. apply Hh. lia. }
  destruct (hp_Swap_view s i n Hok ltac:(lia) ltac:(lia)) as [Hok' Hv].
  assert (Hn' : hp_Len (hp_Swap i n s) = S n) by (rewrite !hp_Len_view, Hv, list_swap_length, <-hp_Len_view; done).
  assert (Har := around_swap_last n s i Hok Hn ltac:(lia) Hh).
  pose proof (down_spec n n i (hp_Swap i n s) Hok' ltac:(lia) ltac:(lia) Har) as Hd.
  destruct (down n i n (hp_Swap i n s)) as [i' s2]. destruct Hd as [Hsw Hres].
  eexists. split; [done|]. destruct Hres as [(-> & -> & Hbe)|[Hlt Hh']].
  - rewrite bool_decide_false by lia.
    destruct (up_spec n (S i) i (hp_Swap i n s)) as [Hsw' Hh']; [done|lia|lia|done..|].
    destruct (extract_last _ _ _ _ i Hok Hn ltac:(lia) eq_refl Hsw') as (? & ? & ?).
    by split_and!.
  - rewrite bool_decide_true by lia.
    destruct (extract_last _ _ _ _ i Hok Hn ltac:(lia) eq_refl Hsw) as (? & ? & ?).
    by split_and!.
Qed.
End functions.
