(* ===== verification/Mempool.v ===== *)
(** * internal/mempool: unconfirmed transactions

    [Mempool] holds pointers to [TxEntry] objects in a map by hash and in a heap
    by fee rate (container/heap, file Heap); an entry records its position in
    the heap.  The model keeps the objects in a store, [mp_objs], so that the
    map and the heap share them as in the code.  The UTXO set and the height of
    the tip, which the pool reads from the chain, are arguments of [AddTx].

    Go ranges over a map in any order: an operation that does so takes the order
    [it], a permutation of the map.  [sort.Slice] is applied to strict total
    orders, so every sorting algorithm gives the same list. *)
From stdpp Require Import sorting.
From S2P Require Import Prelude Types Sha256 Params Utxo Keys Script TxValidation Heap.

Record TxEntry : Type := mkTxEntry {
  te_Tx : Transaction;
  te_Hash : Hash;
  te_Fee : Z;
  te_FeeRate : Z;
  te_Size : Z;
  te_AddedAt : Z;
  te_heapIdx : Z
}.

(** Times are nanoseconds since the epoch, [mp_clock] counts the readings. *)
Record Mempool : Type := mkMempool {
  mp_objs : gmap nat TxEntry;
  mp_next : nat;
  mp_txs : gmap Hash nat;
  mp_spentOutpoints : gmap (list byte) Hash;
  mp_totalBytes : Z;
  mp_feeOrder : list nat;
  mp_clock : nat
}.

Implicit Types m : Mempool.

Definition maxMempoolBytes : Z := 300 * 1024 * 1024.

(** ** Assignments *)

Definition set_objs o m := mkMempool o (mp_next m) (mp_txs m) (mp_spentOutpoints m)
  (mp_totalBytes m) (mp_feeOrder m) (mp_clock m).
Definition set_feeOrder l m := mkMempool (mp_objs m) (mp_next m) (mp_txs m) (mp_spentOutpoints m)
  (mp_totalBytes m) l (mp_clock m).
Definition set_txs t m := mkMempool (mp_objs m) (mp_next m) t (mp_spentOutpoints m)
  (mp_totalBytes m) (mp_feeOrder m) (mp_clock m).
Definition set_spent s m := mkMempool (mp_objs m) (mp_next m) (mp_txs m) s
  (mp_totalBytes m) (mp_feeOrder m) (mp_clock m).
Definition set_bytes n m := mkMempool (mp_objs m) (mp_next m) (mp_txs m) (mp_spentOutpoints m)
  n (mp_feeOrder m) (mp_clock m).
Definition tick m := mkMempool (mp_objs m) (mp_next m) (mp_txs m) (mp_spentOutpoints m)
  (mp_totalBytes m) (mp_feeOrder m) (S (mp_clock m)).

Definition with_idx (i : Z) (e : TxEntry) : TxEntry := mkTxEntry (te_Tx e) (te_Hash e)
  (te_Fee e) (te_FeeRate e) (te_Size e) (te_AddedAt e) i.
Definition with_addedAt (t : Z) (e : TxEntry) : TxEntry := mkTxEntry (te_Tx e) (te_Hash e)
  (te_Fee e) (te_FeeRate e) (te_Size e) t (te_heapIdx e).

(** [p.heapIdx = i]. *)
Definition set_heapIdx (p : nat) (i : Z) m := set_objs (alter (with_idx i) p (mp_objs m)) m.

(** The object an allocation returns. *)
Definition alloc (e : TxEntry) m : nat * Mempool :=
  (mp_next m, mkMempool (<[mp_next m := e]> (mp_objs m)) (S (mp_next m)) (mp_txs m)
    (mp_spentOutpoints m) (mp_totalBytes m) (mp_feeOrder m) (mp_clock m)).

(** ** The fee heap *)

Definition hashLess (a b : Hash) : bool := Hash_Less_loop a b HashSize.

(** The element at an index of the slice. *)
Definition feeHeap_at m (i : nat) : option TxEntry := mp_feeOrder m !! i ≫= (mp_objs m !!.).

Definition feeHeap_before (a b : TxEntry) : bool :=
  if negb (te_FeeRate a =? te_FeeRate b) then te_FeeRate a <? te_FeeRate b
  else hashLess (te_Hash a) (te_Hash b).

Definition feeHeap_Less (i j : nat) m : bool :=
  match feeHeap_at m i, feeHeap_at m j with
  | Some a, Some b => feeHeap_before a b
  | _, _ => false
  end.

Definition feeHeap_Swap (i j : nat) m : Mempool :=
  match mp_feeOrder m !! i, mp_feeOrder m !! j with
  | Some a, Some b =>
      set_heapIdx a (Z.of_nat j) (set_heapIdx b (Z.of_nat i)
        (set_feeOrder (<[i := b]> (<[j := a]> (mp_feeOrder m))) m))
  | _, _ => m
  end.

Definition feeHeap_Push (p : nat) m : Mempool :=
  set_feeOrder (mp_feeOrder m ++ [p]) (set_heapIdx p (len (mp_feeOrder m)) m).

Definition feeHeap_Pop m : option nat * Mempool :=
  match last (mp_feeOrder m) with
  | None => (None, m)
  | Some p => (Some p, set_feeOrder (take (length (mp_feeOrder m) - 1) (mp_feeOrder m))
                         (set_heapIdx p (-1) m))
  end.

#[export] Instance feeHeap : HeapI Mempool nat := {
  hp_Len m := length (mp_feeOrder m);
  hp_Less := feeHeap_Less;
  hp_Swap := feeHeap_Swap;
  hp_Push := feeHeap_Push;
  hp_Pop := feeHeap_Pop
}.

Definition New : Mempool := heap_Init (mkMempool ∅ 0 ∅ ∅ 0 [] 0).

(** ** Removal *)

Definition unspend (ins : list TxInput) (s : gmap (list byte) Hash) : gmap (list byte) Hash :=
  foldl (λ s i, delete (outpoint_key (in_PreviousOutPoint i)) s) s ins.

Definition removeTxUnsafe (hash : Hash) m : Mempool :=
  match mp_txs m !! hash with
  | None => m
  | Some p =>
      match mp_objs m !! p with
      | None => m
      | Some entry =>
          let m := set_bytes (mp_totalBytes m - te_Size entry) m in
          let idx := te_heapIdx entry in
          let m := if (0 <=? idx) && (idx <? len (mp_feeOrder m)) &&
                      bool_decide (mp_feeOrder m !! Z.to_nat idx = Some p)
                   then (heap_Remove (Z.to_nat idx) m).2 else m in
          let m := set_spent (unspend (tx_Inputs (te_Tx entry)) (mp_spentOutpoints m)) m in
          set_txs (delete hash (mp_txs m)) m
      end
  end.

Definition RemoveTx := removeTxUnsafe.
Definition RemoveTxs (hashes : list Hash) m : Mempool := foldl (λ m h, removeTxUnsafe h m) m hashes.

(** Each turn pops an element, so as many turns as there are elements suffice. *)
Fixpoint evict_loop (fuel : nat) m : Mempool :=
  match fuel with
  | O => m
  | S fuel' =>
      match heap_Pop m with
      | (None, m) => m
      | (Some p, m) =>
          match mp_objs m !! p with
          | None => m
          | Some entry =>
              if bool_decide (is_Some (mp_txs m !! te_Hash entry)) then removeTxUnsafe (te_Hash entry) m
              else evict_loop fuel' m
          end
      end
  end.
Definition evictLowestFeeRateUnsafe m : Mempool := evict_loop (length (mp_feeOrder m)) m.

Definition EvictLowestFeeRate m : bool * Mempool :=
  if bool_decide (mp_txs m = ∅) then (false, m) else (true, evictLowestFeeRateUnsafe m).

(** [for cond && len(m.txs) > 0 { evict }]; [Panic] stands for a loop that does
    not end. *)
Fixpoint evict_while (cond : Mempool → bool) (fuel : nat) m : res Mempool :=
  if cond m && negb (bool_decide (mp_txs m = ∅)) then
    match fuel with
    | O => Panic
    | S fuel' => evict_while cond fuel' (evictLowestFeeRateUnsafe m)
    end
  else Ok m.

(** ** Admission *)

Section mempool.
Context `{CryptoLib} (p : ChainParams) (wall : nat → Z).

Definition time_Now : proc Mempool Z := λ m, (Ok (wall (mp_clock m)), tick m).

Definition check_conflict m (_ : ()) (i : TxInput) : res () :=
  match mp_spentOutpoints m !! outpoint_key (in_PreviousOutPoint i) with
  | Some _ => Err (Errorf "tx double-spends outpoint")
  | None => Ok ()
  end.

Definition supplement m (utxoSet : UtxoSet) (sup : option UtxoSet) (i : TxInput) : option UtxoSet :=
  let o := in_PreviousOutPoint i in
  if Set_Has utxoSet (op_Hash o) (op_Index o) then sup else
  match mp_txs m !! op_Hash o ≫= (mp_objs m !!.) with
  | None => sup
  | Some parentEntry =>
      if len (tx_Outputs (te_Tx parentEntry)) <=? op_Index o then sup else
      match mp_spentOutpoints m !! outpoint_key o, tx_Outputs (te_Tx parentEntry) !! Z.to_nat (op_Index o) with
      | None, Some out =>
          Some (<[outpoint_key o := mkUtxoEntry (out_Value out) (out_PkScript out) 0 false]> (default ∅ sup))
      | _, _ => sup
      end
  end.

Definition tx_size (tx : Transaction) : Z :=
  if Transaction_SerializeSize tx =? 0 then 1 else Transaction_SerializeSize tx.

Definition too_many m : bool := p_MaxMempoolSize p <=? u32 (Z.of_nat (size (mp_txs m))).
Definition too_big (txSize : Z) m : bool := maxMempoolBytes <? mp_totalBytes m + txSize.

Definition evict_for (cond : Mempool → bool) : proc Mempool () := λ m,
  match evict_while cond (size (mp_txs m)) m with
  | Ok m' => (Ok (), m')
  | Err e => (Err e, m)
  | Panic => (Panic, m)
  end.

Definition mark_spent (txHash : Hash) (s : gmap (list byte) Hash) (i : TxInput) :=
  <[outpoint_key (in_PreviousOutPoint i) := txHash]> s.

(** The part of [AddTx] after the checks. *)
Definition insert_entry (tx : Transaction) (txHash : Hash) (fee txSize : Z) : proc Mempool Hash :=
  now ← time_Now;
  ptr ← (λ m, let '(ptr, m) := alloc (mkTxEntry tx txHash fee (fee / txSize) txSize now 0) m in (Ok ptr, m));
  _ ← modify (λ m, set_txs (<[txHash := ptr]> (mp_txs m)) m);
  _ ← modify (λ m, set_bytes (mp_totalBytes m + txSize) m);
  _ ← modify (heap_Push ptr);
  _ ← modify (λ m, set_spent (foldl (mark_spent txHash) (mp_spentOutpoints m) (tx_Inputs tx)) m);
  mret txHash.

Definition check_fee (fee txSize : Z) : res () :=
  _ ← fail_if ((0 <? p_MinRelayTxFee p) && (fee <? p_MinRelayTxFee p)) (Errorf "fee below minimum relay fee");
  fail_if ((0 <? p_MinRelayTxFeeRate p) && (fee / txSize <? p_MinRelayTxFeeRate p))
    (Errorf "fee rate below minimum").

Definition AddTx (utxoSet : UtxoSet) (tipHeight : Z) (tx : Transaction) : proc Mempool Hash :=
  _ ← pure (fail_if (Transaction_IsCoinbase tx) (Errorf "coinbase transactions cannot enter mempool"));
  _ ← pure (fail_if (len (tx_Inputs tx) =? 0) (Errorf "transaction has no inputs"));
  _ ← pure (fail_if (len (tx_Outputs tx) =? 0) (Errorf "transaction has no outputs"));
  let txHash := HashTransaction tx in
  known ← gets (λ m, bool_decide (is_Some (mp_txs m !! txHash)));
  _ ← pure (fail_if known (Errorf "transaction already in mempool"));
  let txSize := tx_size tx in
  _ ← asks (λ m, foldM (check_conflict m) () (tx_Inputs tx));
  supplemental ← gets (λ m, foldl (supplement m utxoSet) None (tx_Inputs tx));
  now ← time_Now;
  fee ← pwrap "validation failed"
          (pure (ValidateSingleTransaction tx utxoSet tipHeight p supplemental (now / 1000000000)));
  _ ← pure (check_fee fee txSize);
  _ ← evict_for too_many;
  _ ← evict_for (too_big txSize);
  insert_entry tx txHash fee txSize.

(** ** Expiry *)

Definition ExpireOldTxs (it : list (Hash * nat)) : proc Mempool Z :=
  if p_MempoolExpiry p <=? 0 then mret 0 else
  now ← time_Now;
  let cutoff := now - p_MempoolExpiry p in
  expired ← gets (λ m, omap (λ hp, match mp_objs m !! hp.2 with
                                    | Some entry => if te_AddedAt entry <? cutoff then Some hp.1 else None
                                    | None => None
                                    end) it);
  _ ← modify (RemoveTxs expired);
  mret (len expired).

(** ** Persistence *)

Definition mempoolDumpV1Marker : byte := xff.

(** [time.Unix(sec, 0)], whose seconds are counted from year 1 in an [int64],
    [t.Unix()] and [t.Sub(u)], which saturates. *)
Definition unixToInternal : Z := 62135596800.
Definition time_Unix (sec : Z) : Z := (i64 (sec + unixToInternal) - unixToInternal) * 1000000000.
Definition Time_Unix (t : Z) : Z := i64 (t / 1000000000).
Definition Time_Sub (t u : Z) : Z := Z.max (- 2 ^ 63) (Z.min (2 ^ 63 - 1) (t - u)).

Definition dump_entry (e : TxEntry) : list byte :=
  le_encode 8 (u64 (Time_Unix (te_AddedAt e))) ++ Transaction_SerializeToBytes (te_Tx e).

Definition DumpToBytes (it : list (Hash * nat)) m : list byte :=
  let entries := omap (λ hp, mp_objs m !! hp.2) it in
  match entries with
  | [] => []
  | _ => mempoolDumpV1Marker :: PutVarInt (len entries) ++ mjoin (dump_entry <$> entries)
  end.

Definition clamp_count (count : Z) : Z :=
  let maxCount := if p_MaxMempoolSize p =? 0 then 50000 else p_MaxMempoolSize p in
  if maxCount <? count then maxCount else count.

(** The loops over the transactions of a dump, [n] of them being left;
    [data] is the part not read yet. *)
Fixpoint loadV0_loop (utxoSet : UtxoSet) (tipHeight : Z) (n : nat) (data : list byte) (loaded : Z)
    : proc Mempool Z :=
  match n with
  | O => mret loaded
  | S n' =>
      match data with
      | [] => mret loaded
      | _ => match Transaction_Deserialize data with
             | Ok (tx, rest) =>
                 ok ← catch (_ ← AddTx utxoSet tipHeight tx; mret true) (λ _, mret false);
                 loadV0_loop utxoSet tipHeight n' rest (if ok : bool then loaded + 1 else loaded)
             | Err _ => mret loaded
             | Panic => pure Panic
             end
      end
  end.

Definition loadV0 (utxoSet : UtxoSet) (tipHeight : Z) (data : list byte) : proc Mempool Z :=
  match ReadVarIntFromBytes data with
  | Ok count => loadV0_loop utxoSet tipHeight (Z.to_nat (clamp_count count))
                  (drop (Z.to_nat (VarIntSize count)) data) 0
  | _ => mret 0
  end.

Definition set_addedAt (txHash : Hash) (t : Z) m : Mempool :=
  match mp_txs m !! txHash with
  | Some ptr => set_objs (alter (with_addedAt t) ptr (mp_objs m)) m
  | None => m
  end.

Fixpoint loadV1_loop (utxoSet : UtxoSet) (tipHeight now : Z) (n : nat) (data : list byte) (loaded : Z)
    : proc Mempool Z :=
  match n with
  | O => mret loaded
  | S n' =>
      if len data <? 8 then mret loaded else
      let addedAt := time_Unix (i64 (le_decode (take 8 data))) in
      match drop 8 data with
      | [] => mret loaded
      | data => match Transaction_Deserialize data with
                | Ok (tx, rest) =>
                    if (0 <? p_MempoolExpiry p) && (p_MempoolExpiry p <? Time_Sub now addedAt) then
                      loadV1_loop utxoSet tipHeight now n' rest loaded
                    else
                      ok ← catch (txHash ← AddTx utxoSet tipHeight tx;
                                  _ ← modify (set_addedAt txHash addedAt); mret true)
                             (λ _, mret false);
                      loadV1_loop utxoSet tipHeight now n' rest (if ok : bool then loaded + 1 else loaded)
                | Err _ => mret loaded
                | Panic => pure Panic
                end
      end
  end.

Definition loadV1 (utxoSet : UtxoSet) (tipHeight : Z) (data : list byte) : proc Mempool Z :=
  match data with
  | [] => mret 0
  | _ => match ReadVarIntFromBytes data with
         | Ok count =>
             now ← time_Now;
             loadV1_loop utxoSet tipHeight now (Z.to_nat (clamp_count count))
               (drop (Z.to_nat (VarIntSize count)) data) 0
         | _ => mret 0
         end
  end.

Definition LoadFromBytes (utxoSet : UtxoSet) (tipHeight : Z) (data : list byte) : proc Mempool Z :=
  match data with
  | [] => mret 0
  | b :: rest => if bool_decide (b = mempoolDumpV1Marker) then loadV1 utxoSet tipHeight rest
                 else loadV0 utxoSet tipHeight data
  end.
End mempool.

(** ** Queries *)

Definition GetTxEntry m (hash : Hash) : option TxEntry := mp_txs m !! hash ≫= (mp_objs m !!.).
Definition GetTx m (hash : Hash) : option Transaction := te_Tx <$> GetTxEntry m hash.
Definition HasTx m (hash : Hash) : bool := bool_decide (is_Some (mp_txs m !! hash)).
Definition IsOutpointSpent m (txHash : Hash) (index : Z) : bool :=
  bool_decide (is_Some (mp_spentOutpoints m !! OutpointKey txHash index)).
Definition Count m : Z := Z.of_nat (size (mp_txs m)).

(** The order of block templates: higher fee rates first, then by hash. *)
Definition template_before (a b : TxEntry) : bool :=
  if negb (te_FeeRate a =? te_FeeRate b) then te_FeeRate b <? te_FeeRate a
  else hashLess (te_Hash a) (te_Hash b).
Definition template_le (a b : TxEntry) : Prop := template_before b a = false.
#[export] Instance template_le_dec a b : Decision (template_le a b).
Proof. unfold template_le. apply _. Defined.

Definition entries m (it : list (Hash * nat)) : list TxEntry := omap (λ hp, mp_objs m !! hp.2) it.
Definition GetAllEntries m (it : list (Hash * nat)) : list TxEntry := merge_sort template_le (entries m it).

(** The entries up to the first fee that overflows the sum, with the sum. *)
Fixpoint template_loop (totalFees : Z) (es : list TxEntry) : list TxEntry * Z :=
  match es with
  | [] => ([], totalFees)
  | e :: es' =>
      let total := u64 (totalFees + te_Fee e) in
      if total <? totalFees then ([], totalFees)
      else let '(taken, t) := template_loop total es' in (e :: taken, t)
  end.

Record BlockTemplateResult : Type := mkBlockTemplate {
  bt_Transactions : list Transaction;
  bt_Entries : list (Transaction * Hash * Z * Z);
  bt_TotalFees : Z
}.
Definition BlockTemplate m (it : list (Hash * nat)) : BlockTemplateResult :=
  let '(taken, total) := template_loop 0 (GetAllEntries m it) in
  mkBlockTemplate (te_Tx <$> taken) ((λ e, (te_Tx e, te_Hash e, te_Fee e, te_Size e)) <$> taken) total.
Definition GetAll m (it : list (Hash * nat)) : list Transaction := bt_Transactions (BlockTemplate m it).

Definition hash_sorted (a b : Hash) : Prop := hashLess b a = false.
#[export] Instance hash_sorted_dec a b : Decision (hash_sorted a b).
Proof. unfold hash_sorted. apply _. Defined.
Definition GetTxHashes (it : list (Hash * nat)) : list Hash := merge_sort hash_sorted it.*1.

Definition TotalFees m (it : list (Hash * nat)) : Z := foldl (λ t e, u64 (t + te_Fee e)) 0 (entries m it).
Definition TotalSize m (it : list (Hash * nat)) : Z := foldl (λ t e, t + te_Size e) 0 (entries m it).

(** ** The heap is an index of the entries *)

(** The key of an entry in the heap order. *)
Definition entry_key (e : TxEntry) : Z * Z := (te_FeeRate e, le_decode (te_Hash e)).
Definition key_lt (x y : Z * Z) : bool := (x.1 <? y.1) || ((x.1 =? y.1) && (x.2 <? y.2)).
Definition key_at m (a : nat) : nat * (Z * Z) := (a, default (0, 0) (entry_key <$> mp_objs m !! a)).

(** The elements of the heap are distinct objects that know their position. *)
Record idx_ok m : Prop := {
  ix_nodup : NoDup (mp_feeOrder m);
  ix_entry : ∀ i a, mp_feeOrder m !! i = Some a →
    ∃ e, mp_objs m !! a = Some e ∧ te_heapIdx e = Z.of_nat i ∧ wf_hash (te_Hash e)
}.

Lemma feeHeap_before_key a b :
  wf_hash (te_Hash a) → wf_hash (te_Hash b) →
  feeHeap_before a b = key_lt (entry_key a) (entry_key b).
Proof.
  intros Ha Hb. unfold feeHeap_before, key_lt, hashLess. cbn [entry_key fst snd].
  change (Hash_Less_loop ?x ?y HashSize) with (Hash_Less x y).
  rewrite Hash_Less_lt by done. destruct (Z.eqb_spec (te_FeeRate a) (te_FeeRate b)) as [->|?]; simpl.
  - by rewrite Z.ltb_irrefl.
  - by rewrite orb_false_r.
Qed.

Lemma key_lt_asym x y : key_lt x y = true → key_lt y x = false.
Proof. unfold key_lt. lia. Qed.
Lemma key_lt_trans x y z : key_lt x y = false → key_lt y z = false → key_lt x z = false.
Proof. unfold key_lt. lia. Qed.

Lemma objs_set_heapIdx a i m b :
  mp_objs (set_heapIdx a i m) !! b =
    if decide (a = b) then with_idx i <$> mp_objs m !! b else mp_objs m !! b.
Proof.
  cbn. destruct (decide (a = b)) as [->|?]; [apply lookup_alter_eq|by apply lookup_alter_ne].
Qed.

Lemma key_at_with_idx i (e : option TxEntry) : entry_key <$> (with_idx i <$> e) = entry_key <$> e.
Proof. by destruct e as [[]|]. Qed.

Lemma feeHeap_Swap_view m i j :
  idx_ok m → (i < length (mp_feeOrder m))%nat → (j < length (mp_feeOrder m))%nat →
  idx_ok (feeHeap_Swap i j m) ∧
  key_at (feeHeap_Swap i j m) <$> mp_feeOrder (feeHeap_Swap i j m) =
    list_swap i j (key_at m <$> mp_feeOrder m).
Proof.
  intros [Hnd Hen] [a Ha]%lookup_lt_is_Some_2 [b Hb]%lookup_lt_is_Some_2.
  unfold feeHeap_Swap. rewrite Ha, Hb.
  assert (Hl : <[i:=b]> (<[j:=a]> (mp_feeOrder m)) = list_swap i j (mp_feeOrder m)).
  { unfold list_swap. by rewrite Ha, Hb. }
  rewrite Hl. split.
  - split; cbn [mp_feeOrder set_heapIdx set_objs set_feeOrder].
    + by rewrite list_swap_perm.
    + intros k c. rewrite (list_swap_lookup i j _ a b) by done. intros Hc.
      rewrite !objs_set_heapIdx. cbn [mp_objs set_feeOrder].
      destruct (Hen i a Ha) as (ea & Hea & Hia & Hwa), (Hen j b Hb) as (eb & Heb & Hib & Hwb).
      assert (Hab : a = b → i = j) by (intros ->; by eapply NoDup_lookup).
      destruct (decide (k = i)) as [->|Hki]; [|destruct (decide (k = j)) as [->|Hkj]]; simplify_eq.
      * rewrite (decide_True (P := c = c)), Heb by done.
        destruct (decide (a = c)) as [->|?]; eexists; (split; [done|]); [|done].
        by rewrite <-Hab.
      * rewrite (decide_True (P := c = c)), Hea by done.
        destruct (decide (b = c)); by eexists.
      * assert (a ≠ c) by (intros ->; by apply Hki; eapply NoDup_lookup).
        assert (b ≠ c) by (intros ->; by apply Hkj; eapply NoDup_lookup).
        rewrite !decide_False by done. by apply Hen.
  - cbn [mp_feeOrder set_heapIdx set_objs set_feeOrder].
    rewrite <-list_swap_fmap. apply list_fmap_ext. intros _ c _. unfold key_at.
    rewrite !objs_set_heapIdx. by repeat case_decide; rewrite ?key_at_with_idx.
Qed.

#[export, refine] Instance feeHeap_laws : HeapLaws Mempool nat (nat * (Z * Z)) := {
  hp_ok := idx_ok;
  hp_view m := key_at m <$> mp_feeOrder m;
  hp_lt x y := key_lt x.2 y.2
}.
Proof.
  - intros x y. apply key_lt_asym.
  - intros x y z. apply key_lt_trans.
  - intros m _. by rewrite length_fmap.
  - intros m i j x y [_ Hen] Hx Hy. rewrite list_lookup_fmap in Hx, Hy.
    destruct (mp_feeOrder m !! i) as [a|] eqn:Ha; [|done].
    destruct (mp_feeOrder m !! j) as [b|] eqn:Hb; [|done]. simplify_eq/=.
    destruct (Hen _ _ Ha) as (ea & Hea & _ & ?), (Hen _ _ Hb) as (eb & Heb & _ & ?).
    unfold feeHeap_Less, feeHeap_at, key_at. rewrite Ha, Hb. cbn. rewrite Hea, Heb. cbn.
    by apply feeHeap_before_key.
  - intros m i j. apply feeHeap_Swap_view.
Defined.

(** The entries of the pool by hash, without their heap positions. *)
Definition pool m : gmap Hash TxEntry := omap (λ a, with_idx 0 <$> mp_objs m !! a) (mp_txs m).

(** What the heap functions leave alone. *)
Record same_pool m m' : Prop := {
  sm_txs : mp_txs m' = mp_txs m;
  sm_spent : mp_spentOutpoints m' = mp_spentOutpoints m;
  sm_bytes : mp_totalBytes m' = mp_totalBytes m;
  sm_next : mp_next m' = mp_next m;
  sm_clock : mp_clock m' = mp_clock m;
  sm_objs : ∀ a, with_idx 0 <$> mp_objs m' !! a = with_idx 0 <$> mp_objs m !! a
}.

#[export] Instance same_pool_preorder : PreOrder same_pool.
Proof.
  split; [by split|]. intros m1 m2 m3 [] [].
  split; congruence.
Qed.

Lemma same_pool_heapIdx a i m : same_pool m (set_heapIdx a i m).
Proof.
  split; try done. intros b. rewrite objs_set_heapIdx. case_decide; [|done].
  by destruct (mp_objs m !! b).
Qed.

Lemma same_pool_feeOrder l m : same_pool m (set_feeOrder l m).
Proof. by split. Qed.

Lemma swapped_same_pool n m m' : swapped n m m' → same_pool m m'.
Proof.
  induction 1 as [|i j m m' _ _ _ IH]; [reflexivity|]. etrans; [|exact IH]. cbn.
  unfold feeHeap_Swap. destruct (mp_feeOrder m !! i), (mp_feeOrder m !! j); try reflexivity.
  etrans; [apply same_pool_feeOrder|]. etrans; apply same_pool_heapIdx.
Qed.

Lemma pool_same m m' : same_pool m m' → pool m' = pool m.
Proof.
  intros Hs. unfold pool. rewrite (sm_txs _ _ Hs). apply map_eq. intros h. rewrite !lookup_omap.
  destruct (mp_txs m !! h) as [a|]; cbn; [|done]. apply (sm_objs _ _ Hs).
Qed.

(** The heap holds exactly the objects in [D], in heap order. *)
Record heap_ok m (D : nat → Prop) : Prop := {
  ho_idx : idx_ok m;
  ho_heap : heap_ordered hp_lt (length (mp_feeOrder m)) (hp_view m);
  ho_elems : ∀ a, a ∈ mp_feeOrder m ↔ D a
}.

Lemma swapped_elems n m m' : swapped n m m' → idx_ok m → (n ≤ length (mp_feeOrder m))%nat →
  mp_feeOrder m' ≡ₚ mp_feeOrder m ∧ length (mp_feeOrder m') = length (mp_feeOrder m).
Proof.
  intros Hsw Hok Hn. destruct (@swapped_ok _ _ _ _ feeHeap_laws _ _ _ Hsw Hok Hn) as (_ & Hp & _ & Hl). split; [|done].
  apply (fmap_Permutation fst) in Hp. cbn in Hp. rewrite <-!list_fmap_compose in Hp.
  by rewrite !list_fmap_id in Hp.
Qed.

(** Taking the element at [i] out of the heap. *)
Lemma extract_pop n i a m m1 D :
  heap_ok m D → length (mp_feeOrder m) = S n → mp_feeOrder m !! i = Some a →
  extracts (A := nat * (Z * Z)) i n m m1 →
  ∃ m2, hp_Pop m1 = (Some a, m2) ∧ same_pool m m2 ∧ heap_ok m2 (λ b, D b ∧ b ≠ a) ∧
    (∀ e, mp_objs m2 !! a = Some e → te_heapIdx e = -1).
Proof.
  intros [Hok Hh Hel] Hn Ha (Hsw & Hok1 & Hlast & Hh1).
  destruct (swapped_elems _ _ _ Hsw Hok ltac:(lia)) as [Hp Hlen].
  assert (Hlast1 : mp_feeOrder m1 !! n = Some a).
  { cbn in Hlast. rewrite !list_lookup_fmap, Ha in Hlast.
    destruct (mp_feeOrder m1 !! n); cbn in Hlast; by simplify_eq. }
  assert (Hl1 : mp_feeOrder m1 = take n (mp_feeOrder m1) ++ [a]).
  { rewrite <-(take_drop n (mp_feeOrder m1)) at 1. f_equal.
    apply drop_S in Hlast1. rewrite Hlast1, drop_ge by lia. done. }
  cbn [hp_Pop feeHeap]. unfold feeHeap_Pop. rewrite Hl1, last_snoc, <-Hl1.
  replace (length (mp_feeOrder m1) - 1)%nat with n by lia.
  set (l := take n (mp_feeOrder m1)) in *. eexists. split; [done|].
  assert (Hnd : NoDup (l ++ [a])) by (rewrite <-Hl1; apply Hok1).
  apply NoDup_app in Hnd as (Hnd & Hni & _).
  assert (Hal : a ∉ l) by (intros Hin; apply (Hni a Hin), list_elem_of_here).
  assert (Hlenl : length l = n) by (unfold l; rewrite length_take; lia).
  split_and!.
  - etrans; [by eapply swapped_same_pool|]. etrans; [apply (same_pool_heapIdx a (-1))|]. apply same_pool_feeOrder.
  - split; [split|..]; cbn [mp_feeOrder set_feeOrder mp_objs].
    + done.
    + intros k b Hb. assert (b ≠ a) by (intros ->; by apply Hal, list_elem_of_lookup; eexists).
      rewrite objs_set_heapIdx, decide_False by done. eapply ix_entry; [done|].
      rewrite Hl1. by apply lookup_app_l_Some.
    + intros k Hk x y Hx Hy. rewrite Hlenl in Hk.
      assert (Hkey : ∀ k' z, (key_at (set_feeOrder l (set_heapIdx a (-1) m1)) <$> l) !! k' = Some z →
                 hp_view m1 !! k' = Some z).
      { intros k' z. cbn [hp_view feeHeap_laws]. rewrite !list_lookup_fmap.
        destruct (l !! k') as [b|] eqn:Hb; cbn; [|done]. intros [= <-].
        rewrite Hl1, (lookup_app_l_Some _ _ _ _ Hb). cbn.
        assert (b ≠ a) by (intros ->; by apply Hal, list_elem_of_lookup; eexists).
        unfold key_at. do 2 f_equal. cbn [mp_objs set_feeOrder].
        by rewrite objs_set_heapIdx, decide_False. }
      eapply (Hh1 k); [lia|by apply Hkey..].
    + intros b. rewrite <-Hel. rewrite <-(Hp : mp_feeOrder m1 ≡ₚ mp_feeOrder m), Hl1.
      rewrite elem_of_app, list_elem_of_singleton. split; [|naive_solver].
      intros Hb. split; [by left|]. by intros ->.
  - cbn [mp_objs set_feeOrder]. rewrite objs_set_heapIdx, decide_True by done.
    intros e He. apply fmap_Some in He as (e' & _ & ->). done.
Qed.

(** ** Invariant *)

Definition entry_inputs (e : TxEntry) : list (list byte) := input_key <$> tx_Inputs (te_Tx e).
Definition pool_bytes (pl : gmap Hash TxEntry) : Z := map_fold (λ _ e acc, te_Size e + acc) 0 pl.

Section invariant.
Context `{CryptoLib} (p : ChainParams).

Record entry_ok (h : Hash) (e : TxEntry) : Prop := {
  eo_hash : te_Hash e = h;
  eo_tx : h = HashTransaction (te_Tx e);
  eo_coinbase : Transaction_IsCoinbase (te_Tx e) = false;
  eo_inputs : tx_Inputs (te_Tx e) ≠ [];
  eo_outputs : tx_Outputs (te_Tx e) ≠ [];
  eo_distinct : NoDup (entry_inputs e);
  eo_size : te_Size e = tx_size (te_Tx e);
  eo_rate : te_FeeRate e = te_Fee e / te_Size e;
  eo_fee : is_u64 (te_Fee e);
  eo_relay : check_fee p (te_Fee e) (te_Size e) = Ok ()
}.

(** The map of spent outpoints and the byte count are those of the pool. *)
Record index_ok m : Prop := {
  in_objs : ∀ h a, mp_txs m !! h = Some a → is_Some (mp_objs m !! a);
  in_next : ∀ a, is_Some (mp_objs m !! a) → (a < mp_next m)%nat;
  in_entry : ∀ h e, pool m !! h = Some e → entry_ok h e;
  in_spent : ∀ k h, mp_spentOutpoints m !! k = Some h ↔
    ∃ e, pool m !! h = Some e ∧ k ∈ entry_inputs e;
  in_bytes : mp_totalBytes m = pool_bytes (pool m)
}.

Definition mp_inv m : Prop := index_ok m ∧ heap_ok m (λ a, ∃ h, mp_txs m !! h = Some a).

Lemma pool_lookup m h e :
  pool m !! h = Some e ↔ ∃ a e', mp_txs m !! h = Some a ∧ mp_objs m !! a = Some e' ∧ e = with_idx 0 e'.
Proof.
  unfold pool. rewrite lookup_omap. destruct (mp_txs m !! h) as [a|]; cbn; [|naive_solver].
  destruct (mp_objs m !! a) as [e'|] eqn:E; cbn; naive_solver.
Qed.

Lemma entry_ok_hash h e : entry_ok h e → wf_hash (te_Hash e).
Proof. intros [-> -> _]. apply DoubleSHA256_wf. Qed.

Lemma pool_bytes_insert pl h e :
  pl !! h = None → pool_bytes (<[h := e]> pl) = te_Size e + pool_bytes pl.
Proof. intros Hh. unfold pool_bytes. rewrite map_fold_insert_L; [done| |done]. intros; lia. Qed.

Lemma pool_bytes_delete pl h e :
  pl !! h = Some e → pool_bytes (delete h pl) = pool_bytes pl - te_Size e.
Proof.
  intros Hh. rewrite <-(insert_delete_id pl h e Hh) at 2.
  rewrite pool_bytes_insert by apply lookup_delete_eq. lia.
Qed.

(** *** Unlinking an entry *)

Record unlinked (h : Hash) (e : TxEntry) m m' : Prop := {
  ul_txs : mp_txs m' = delete h (mp_txs m);
  ul_spent : mp_spentOutpoints m' = unspend (tx_Inputs (te_Tx e)) (mp_spentOutpoints m);
  ul_bytes : mp_totalBytes m' = mp_totalBytes m - te_Size e;
  ul_next : mp_next m' = mp_next m;
  ul_clock : mp_clock m' = mp_clock m;
  ul_objs : ∀ a, with_idx 0 <$> mp_objs m' !! a = with_idx 0 <$> mp_objs m !! a
}.

Lemma unspend_lookup ins s k :
  unspend ins s !! k = if decide (k ∈ input_key <$> ins) then None else s !! k.
Proof.
  unfold unspend. revert s. induction ins as [|i ins IH]; intros s; cbn [foldl fmap list_fmap].
  { rewrite decide_False; [done|apply not_elem_of_nil]. }
  rewrite IH. change (outpoint_key (in_PreviousOutPoint i)) with (input_key i).
  destruct (decide (k ∈ input_key <$> ins)) as [Hk|Hk].
  { rewrite decide_True; [done|]. by right. }
  destruct (decide (k = input_key i)) as [->|Hne].
  - rewrite decide_True by left. apply lookup_delete_eq.
  - rewrite lookup_delete_ne, decide_False by (rewrite ?elem_of_cons; naive_solver). done.
Qed.

Lemma objs_is_Some m m' a :
  with_idx 0 <$> mp_objs m' !! a = with_idx 0 <$> mp_objs m !! a →
  is_Some (mp_objs m' !! a) ↔ is_Some (mp_objs m !! a).
Proof.
  intros Hf. rewrite <-(fmap_is_Some (with_idx 0)), Hf. apply fmap_is_Some.
Qed.

Lemma unlinked_ok h e m m' :
  index_ok m → pool m !! h = Some e → unlinked h e m m' →
  index_ok m' ∧ pool m' = delete h (pool m).
Proof.
  intros Hin He [Ht Hs Hb Hn _ Ho].
  assert (Hpool : pool m' = delete h (pool m)).
  { apply map_eq. intros h'. unfold pool. rewrite Ht, lookup_omap.
    destruct (decide (h = h')) as [->|?].
    - by rewrite !lookup_delete_eq.
    - rewrite !lookup_delete_ne, lookup_omap by done.
      destruct (mp_txs m !! h') as [a|]; cbn; [apply Ho|done]. }
  split; [|done]. split.
  - intros h' a. rewrite Ht, lookup_delete_Some. intros [_ Ha].
    apply (objs_is_Some m m' a (Ho a)). by eapply in_objs.
  - intros a Ha. rewrite Hn. apply (in_next _ Hin). by apply (objs_is_Some m m' a (Ho a)).
  - intros h' e'. rewrite Hpool, lookup_delete_Some. intros [_ ?]. by apply (in_entry _ Hin).
  - intros k h'. rewrite Hs, unspend_lookup, Hpool.
    change (input_key <$> tx_Inputs (te_Tx e)) with (entry_inputs e).
    destruct (decide (k ∈ entry_inputs e)) as [Hk|Hk].
    + split; [done|]. intros (e' & [Hne He']%lookup_delete_Some & Hk').
      assert (H1 : mp_spentOutpoints m !! k = Some h) by (apply (in_spent _ Hin); eauto).
      assert (H2 : mp_spentOutpoints m !! k = Some h') by (apply (in_spent _ Hin); eauto).
      congruence.
    + rewrite (in_spent _ Hin). split.
      * intros (e' & He' & Hk'). exists e'. split; [|done]. apply lookup_delete_Some. split; [|done].
        intros ->. congruence.
      * intros (e' & [_ ?]%lookup_delete_Some & ?). eauto.
  - rewrite Hb, Hpool, (in_bytes _ Hin). by rewrite (pool_bytes_delete _ _ e).
Qed.

Lemma heap_ok_fields m m' D :
  mp_objs m' = mp_objs m → mp_feeOrder m' = mp_feeOrder m → heap_ok m D → heap_ok m' D.
Proof.
  intros Ho Hf [[Hnd Hen] Hh Hel]. split; [split|..].
  - by rewrite Hf.
  - intros i a. rewrite Hf, Ho. apply Hen.
  - cbn [hp_view feeHeap_laws hp_lt] in *. unfold key_at in *. by rewrite Ho, Hf.
  - by rewrite Hf.
Qed.

Lemma heap_ok_iff m D D' : (∀ a, D a ↔ D' a) → heap_ok m D → heap_ok m D'.
Proof. intros HD [? ? Hel]. split; [done..|]. intros a. by rewrite Hel. Qed.

(** [removeTxUnsafe] of an entry that is in the heap, or that was popped. *)
Lemma removeTxUnsafe_spec h a e m D :
  mp_txs m !! h = Some a → mp_objs m !! a = Some e → heap_ok m D →
  (D a ∨ te_heapIdx e = -1) →
  unlinked h e m (removeTxUnsafe h m) ∧ heap_ok (removeTxUnsafe h m) (λ b, D b ∧ b ≠ a).
Proof.
  intros Ha He Hheap HD. unfold removeTxUnsafe. rewrite Ha, He. cbn [mp_feeOrder set_bytes].
  set (m1 := set_bytes (mp_totalBytes m - te_Size e) m).
  assert (Hheap1 : heap_ok m1 D) by (by apply (heap_ok_fields m)).
  destruct (decide (a ∈ mp_feeOrder m)) as [Hin|Hnin].
  - apply list_elem_of_lookup in Hin as [i Hi].
    destruct (ix_entry _ (ho_idx _ _ Hheap) _ _ Hi) as (e' & He' & Hidx & _). simplify_eq.
    assert (Hlt := lookup_lt_Some _ _ _ Hi).
    rewrite Hidx, Nat2Z.id, bool_decide_true by done.
    rewrite (proj2 (Z.leb_le _ _)), (proj2 (Z.ltb_lt _ _)) by lia. cbn [andb].
    destruct (length (mp_feeOrder m)) as [|n] eqn:Hn; [lia|].
    destruct (heap_Remove_spec (A := nat * (Z * Z)) n i m1) as (m2 & -> & Hex).
    { apply Hheap1. } { done. } { lia. } { pose proof (ho_heap _ _ Hheap1) as Hh. cbn in Hh. by rewrite Hn in Hh. }
    destruct (extract_pop n i a m1 m2 D Hheap1 Hn Hi Hex) as (m3 & -> & Hs & Hh3 & _). cbn [snd].
    split.
    + split; cbn [mp_txs set_txs mp_spentOutpoints set_spent mp_totalBytes mp_next mp_clock mp_objs].
      * by rewrite (sm_txs _ _ Hs).
      * by rewrite (sm_spent _ _ Hs).
      * by rewrite (sm_bytes _ _ Hs).
      * by rewrite (sm_next _ _ Hs).
      * by rewrite (sm_clock _ _ Hs).
      * apply (sm_objs _ _ Hs).
    + by apply (heap_ok_fields m3).
  - assert (Hd : ¬ D a) by (by rewrite <-(ho_elems _ _ Hheap)).
    destruct HD as [?|Hidx]; [done|]. rewrite Hidx. cbn [Z.leb Z.compare andb].
    split; [by split|]. eapply heap_ok_iff; [|by apply (heap_ok_fields m _ D)].
    intros b. split; [|naive_solver]. intros Hb. split; [done|]. by intros ->.
Qed.

Lemma unlinked_idx h e i m m' : unlinked h e m m' ↔ unlinked h (with_idx i e) m m'.
Proof. split; intros []; by split. Qed.

Lemma removeTxUnsafe_inv h m :
  mp_inv m → mp_inv (removeTxUnsafe h m) ∧ pool (removeTxUnsafe h m) = delete h (pool m) ∧
  mp_clock (removeTxUnsafe h m) = mp_clock m.
Proof.
  intros [Hin Hheap]. destruct (mp_txs m !! h) as [a|] eqn:Ha.
  - destruct (in_objs _ Hin _ _ Ha) as [e He].
    destruct (removeTxUnsafe_spec h a e m _ Ha He Hheap) as [Hul Hh]; [by left; exists h|].
    assert (Hp : pool m !! h = Some (with_idx 0 e)) by (apply pool_lookup; eauto).
    destruct (unlinked_ok h _ _ _ Hin Hp (proj1 (unlinked_idx _ _ 0 _ _) Hul)) as [Hin' Hpool].
    split_and!; [split; [done|]|done|apply Hul]. eapply heap_ok_iff; [|exact Hh].
    intros b. rewrite (ul_txs _ _ _ _ Hul). split.
    + intros [[h' Hh'] Hne]. exists h'. rewrite lookup_delete_ne; [done|]. congruence.
    + intros [h' [Hne Hh']%lookup_delete_Some]. split; [by exists h'|]. intros ->.
      assert (Hp' : pool m !! h' = Some (with_idx 0 e)) by (apply pool_lookup; eauto).
      apply Hne. rewrite <-(eo_hash _ _ (in_entry _ Hin _ _ Hp)). apply (in_entry _ Hin _ _ Hp').
  - unfold removeTxUnsafe. rewrite Ha. split_and!; [done| |done].
    rewrite delete_id; [done|]. unfold pool. by rewrite lookup_omap, Ha.
Qed.

Lemma pool_dom m : index_ok m → dom (pool m) = dom (mp_txs m).
Proof.
  intros Hin. apply set_eq. intros h. rewrite !elem_of_dom. unfold pool. rewrite lookup_omap.
  destruct (mp_txs m !! h) as [a|] eqn:Ha; cbn.
  - destruct (in_objs _ Hin _ _ Ha) as [e ->]. split; eauto.
  - by rewrite !is_Some_alt.
Qed.

Lemma pool_size m : index_ok m → size (pool m) = size (mp_txs m).
Proof. intros Hin. rewrite <-!size_dom. by rewrite pool_dom. Qed.

Lemma pool_empty m : index_ok m → pool m = ∅ ↔ mp_txs m = ∅.
Proof. intros Hin. rewrite <-!(dom_empty_iff_L (D := gset Hash)). by rewrite pool_dom. Qed.

(** *** The entry with the lowest fee rate *)

Definition lower (e : TxEntry) (acc : option TxEntry) : option TxEntry :=
  match acc with
  | Some e' => if feeHeap_before e' e then Some e' else Some e
  | None => Some e
  end.
Definition lowest (pl : gmap Hash TxEntry) : option TxEntry := foldr lower None (map_to_list pl).*2.

Lemma lowest_list_spec l :
  Forall (λ e, wf_hash (te_Hash e)) l →
  match foldr lower None l with
  | Some e => e ∈ l ∧ ∀ e', e' ∈ l → key_lt (entry_key e') (entry_key e) = false
  | None => l = []
  end.
Proof.
  induction 1 as [|x l Hx Hl IH]; cbn [foldr]; [done|].
  assert (Hirr : ∀ k, key_lt k k = false) by (unfold key_lt; lia).
  destruct (foldr lower None l) as [e|]; cbn [lower].
  - destruct IH as [He Hmin].
    rewrite feeHeap_before_key; [|by eapply (proj1 (Forall_forall _ l) Hl)|done].
    destruct (key_lt (entry_key e) (entry_key x)) eqn:E; (split; [set_solver|]);
      intros e' [-> | He']%elem_of_cons; auto using key_lt_asym.
    eapply key_lt_trans; [by apply Hmin|done].
  - subst. split; [set_solver|]. intros e'. rewrite list_elem_of_singleton. by intros ->.
Qed.

Lemma lowest_unique pl h e :
  (∀ h e, pl !! h = Some e → entry_ok h e) → pl !! h = Some e →
  (∀ h' e', pl !! h' = Some e' → key_lt (entry_key e') (entry_key e) = false) → lowest pl = Some e.
Proof.
  intros Hok Hh Hmin. unfold lowest.
  assert (Hel : ∀ e, e ∈ (map_to_list pl).*2 ↔ ∃ h, pl !! h = Some e).
  { intros e'. rewrite list_elem_of_fmap. split.
    - intros ([h' ?] & -> & Hx). exists h'. by apply elem_of_map_to_list in Hx.
    - intros [h' Hx]. exists (h', e'). split; [done|]. by apply elem_of_map_to_list. }
  assert (Hwf : Forall (λ e, wf_hash (te_Hash e)) (map_to_list pl).*2).
  { apply Forall_forall. intros e' [h' He']%Hel. by eapply entry_ok_hash, Hok. }
  pose proof (lowest_list_spec _ Hwf) as Hs.
  destruct (foldr lower None (map_to_list pl).*2) as [e'|].
  - destruct Hs as [He' Hmin'].
    apply Hel in He' as [h' He'].
    assert (H1 := Hmin _ _ He'). assert (H2 := Hmin' e ltac:(apply Hel; eauto)).
    assert (Hk : te_Hash e' = te_Hash e).
    { apply le_decode_inj.
      - rewrite (entry_ok_hash _ _ (Hok _ _ He')), (entry_ok_hash _ _ (Hok _ _ Hh)). done.
      - revert H1 H2. unfold key_lt. cbn. lia. }
    rewrite (eo_hash _ _ (Hok _ _ He')), (eo_hash _ _ (Hok _ _ Hh)) in Hk. congruence.
  - exfalso. assert (He : e ∈ (map_to_list pl).*2) by (apply Hel; eauto).
    rewrite Hs in He. by eapply not_elem_of_nil.
Qed.

Definition spec_evict (pl : gmap Hash TxEntry) : gmap Hash TxEntry :=
  match lowest pl with
  | Some e => delete (te_Hash e) pl
  | None => pl
  end.

Lemma evict_inv m :
  mp_inv m →
  mp_inv (evictLowestFeeRateUnsafe m) ∧
  pool (evictLowestFeeRateUnsafe m) = spec_evict (pool m) ∧
  mp_clock (evictLowestFeeRateUnsafe m) = mp_clock m.
Proof.
  intros [Hin Hheap]. unfold evictLowestFeeRateUnsafe.
  destruct (length (mp_feeOrder m)) as [|n] eqn:Hn.
  { apply nil_length_inv in Hn. cbn [evict_loop]. split_and!; [done| |done].
    assert (Hemp : pool m = ∅).
    { apply pool_empty; [done|]. apply map_empty. intros h. apply eq_None_not_Some. intros [a Ha].
      assert (Hel : a ∈ mp_feeOrder m) by (apply (ho_elems _ _ Hheap); eauto).
      rewrite Hn in Hel. by eapply not_elem_of_nil. }
    rewrite Hemp. done. }
  cbn [evict_loop].
  assert (Hh := ho_heap _ _ Hheap). rewrite Hn in Hh.
  destruct (@heap_Pop_spec _ _ _ _ feeHeap_laws n m (ho_idx _ _ Hheap) Hn Hh) as (m1 & -> & Hex).
  destruct (lookup_lt_is_Some_2 (mp_feeOrder m) 0) as [a Ha]; [lia|].
  destruct (extract_pop n 0 a m m1 _ Hheap Hn Ha Hex) as (m2 & -> & Hs & Hh2 & Hidx).
  assert (Hh' : ∃ h, mp_txs m !! h = Some a).
  { apply (ho_elems _ _ Hheap), list_elem_of_lookup. eauto. }
  destruct Hh' as [h Hta]. destruct (in_objs _ Hin _ _ Hta) as [e He].
  assert (Hp : pool m !! h = Some (with_idx 0 e)) by (apply pool_lookup; eauto).
  assert (Heo := in_entry _ Hin _ _ Hp).
  destruct (proj2 (objs_is_Some m m2 a (sm_objs _ _ Hs a))) as [e2 He2]; [by eexists|].
  rewrite He2. assert (Hee : with_idx 0 e2 = with_idx 0 e).
  { pose proof (sm_objs _ _ Hs a) as Ho. rewrite He2, He in Ho. by apply (inj Some). }
  assert (Hhash : te_Hash e2 = h).
  { transitivity (te_Hash (with_idx 0 e2)); [done|]. rewrite Hee. apply Heo. }
  rewrite Hhash, (sm_txs _ _ Hs), bool_decide_true by eauto.
  destruct (removeTxUnsafe_spec h a e2 m2 (λ b, (∃ h, mp_txs m !! h = Some b) ∧ b ≠ a)) as [Hul Hh3].
  { by rewrite (sm_txs _ _ Hs). } { done. } { done. } { right. by apply Hidx. }
  assert (Hul' : unlinked h (with_idx 0 e) m (removeTxUnsafe h m2)).
  { rewrite <-Hee. apply unlinked_idx. destruct Hul, Hs. split; congruence. }
  destruct (unlinked_ok h _ _ _ Hin Hp Hul') as [Hin' Hpool].
  split_and!; [split; [done|]| |by apply Hul'].
  - eapply heap_ok_iff; [|exact Hh3]. intros b. rewrite (ul_txs _ _ _ _ Hul'). split.
    + intros [[[h' Hh'] Hne] _]. exists h'. rewrite lookup_delete_ne; [done|]. congruence.
    + intros [h' [Hne Hh']%lookup_delete_Some]. split; [|]; [split; [by exists h'|]|]; intros ->;
      apply Hne; (assert (Hp' : pool m !! h' = Some (with_idx 0 e)) by (apply pool_lookup; eauto));
      by rewrite <-(eo_hash _ _ Heo), <-(eo_hash _ _ (in_entry _ Hin _ _ Hp')).
  - rewrite Hpool. unfold spec_evict.
    rewrite (lowest_unique _ h (with_idx 0 e) (in_entry _ Hin) Hp).
    { cbn [te_Hash with_idx]. f_equal. symmetry. apply (eo_hash _ _ Heo). }
    intros h' e' (a' & e0 & Hta' & He0 & ->)%pool_lookup.
    assert (Hel : a' ∈ mp_feeOrder m) by (apply (ho_elems _ _ Hheap); eauto).
    apply list_elem_of_lookup in Hel as [k Hk].
    apply (@heap_root _ _ _ _ feeHeap_laws (S n) m (a, entry_key e) k (a', entry_key e0)).
    + done.
    + cbn. rewrite list_lookup_fmap, Ha. cbn. unfold key_at. by rewrite He.
    + rewrite <-Hn. by eapply lookup_lt_Some.
    + cbn. rewrite list_lookup_fmap, Hk. cbn. unfold key_at. by rewrite He0.
Qed.

(** *** Adding an entry *)

Lemma heap_ok_push m D a e :
  heap_ok m D → mp_objs m !! a = Some e → wf_hash (te_Hash e) → a ∉ mp_feeOrder m →
  same_pool m (heap_Push a m) ∧ heap_ok (heap_Push a m) (λ b, D b ∨ b = a).
Proof.
  intros [[Hnd Hen] Hh Hel] He Hwf Hni.
  set (m1 := feeHeap_Push a m).
  assert (Hs1 : same_pool m m1).
  { etrans; [apply (same_pool_heapIdx a (len (mp_feeOrder m)))|apply same_pool_feeOrder]. }
  assert (Hok1 : idx_ok m1).
  { split; cbn [m1 feeHeap_Push mp_feeOrder set_feeOrder mp_objs].
    - apply NoDup_app. split_and!; [done| |apply NoDup_singleton].
      intros b Hb ->%list_elem_of_singleton. done.
    - intros i b. rewrite objs_set_heapIdx. intros [Hb | [Hi Hb]]%lookup_app_Some.
      + rewrite decide_False; [by apply Hen|]. intros <-. apply Hni, list_elem_of_lookup. eauto.
      + apply list_lookup_singleton_Some in Hb as [Hi0 <-].
        rewrite decide_True, He by done. eexists. split; [done|]. cbn. split; [lia|done]. }
  assert (Hv : hp_view m1 = hp_view m ++ [(a, entry_key e)]).
  { cbn [hp_view feeHeap_laws m1 feeHeap_Push mp_feeOrder set_feeOrder]. rewrite fmap_app. cbn [fmap list_fmap].
    unfold key_at. change (mp_objs m1) with (mp_objs (set_heapIdx a (len (mp_feeOrder m)) m)). f_equal.
    - apply list_fmap_ext. intros i b Hb. rewrite objs_set_heapIdx.
      rewrite decide_False; [done|]. intros <-. apply Hni, list_elem_of_lookup. eauto.
    - by rewrite objs_set_heapIdx, decide_True, He. }
  assert (Hlen : length (hp_view m) = length (mp_feeOrder m)) by (cbn; by rewrite length_fmap).
  destruct (@heap_Push_spec _ _ _ _ feeHeap_laws a (a, entry_key e) m Hok1 Hv) as [Hsw Hh2]; [by rewrite Hlen|].
  change (hp_Push a m) with m1 in Hsw, Hh2.
  destruct (swapped_elems _ _ _ Hsw Hok1 ltac:(done)) as [Hp Hl].
  destruct (@swapped_ok _ _ _ _ feeHeap_laws _ _ _ Hsw Hok1 ltac:(done)) as (Hok2 & _).
  split; [etrans; [exact Hs1|by eapply swapped_same_pool]|]. split; [done|by rewrite Hl|].
  intros b. rewrite (Hp : mp_feeOrder _ ≡ₚ _). cbn [m1 feeHeap_Push mp_feeOrder set_feeOrder].
  by rewrite elem_of_app, list_elem_of_singleton, Hel.
Qed.

Lemma mark_spent_lookup h ins s k :
  foldl (mark_spent h) s ins !! k = if decide (k ∈ input_key <$> ins) then Some h else s !! k.
Proof.
  revert s. induction ins as [|i ins IH]; intros s; cbn [foldl fmap list_fmap].
  { rewrite decide_False; [done|apply not_elem_of_nil]. }
  rewrite IH. unfold mark_spent. change (outpoint_key (in_PreviousOutPoint i)) with (input_key i).
  destruct (decide (k ∈ input_key <$> ins)) as [Hk|Hk].
  { rewrite decide_True; [done|]. by right. }
  destruct (decide (k = input_key i)) as [->|Hne].
  - rewrite decide_True by left. apply lookup_insert_eq.
  - rewrite lookup_insert_ne, decide_False by (rewrite ?elem_of_cons; naive_solver). done.
Qed.

(** The index after an entry was added. *)
Record linked (h : Hash) (e : TxEntry) m m' : Prop := {
  lk_txs : mp_txs m' = <[h := mp_next m]> (mp_txs m);
  lk_spent : mp_spentOutpoints m' = foldl (mark_spent h) (mp_spentOutpoints m) (tx_Inputs (te_Tx e));
  lk_bytes : mp_totalBytes m' = mp_totalBytes m + te_Size e;
  lk_next : mp_next m' = S (mp_next m);
  lk_objs : ∀ a, with_idx 0 <$> mp_objs m' !! a =
                 with_idx 0 <$> <[mp_next m := e]> (mp_objs m) !! a
}.

Lemma linked_ok h e m m' :
  index_ok m → pool m !! h = None → entry_ok h e → te_heapIdx e = 0 →
  (∀ k, k ∈ entry_inputs e → mp_spentOutpoints m !! k = None) → linked h e m m' →
  index_ok m' ∧ pool m' = <[h := e]> (pool m).
Proof.
  intros Hin Hno He Hi0 Hunspent [Ht Hs Hb Hn Ho].
  assert (He0 : with_idx 0 e = e) by (destruct e; cbn in Hi0; by subst).
  assert (Hfresh : ∀ h' a, mp_txs m !! h' = Some a → a ≠ mp_next m).
  { intros h' a Ha ->. destruct (in_objs _ Hin _ _ Ha) as [x Hx].
    assert (Hlt := in_next _ Hin _ (mk_is_Some _ _ Hx)). lia. }
  assert (Hpool : pool m' = <[h := e]> (pool m)).
  { apply map_eq. intros h'. unfold pool. rewrite Ht, lookup_omap.
    destruct (decide (h = h')) as [->|?].
    - rewrite !lookup_insert_eq. cbn. rewrite Ho, lookup_insert_eq. cbn. by rewrite He0.
    - rewrite !lookup_insert_ne, lookup_omap by done.
      destruct (mp_txs m !! h') as [a|] eqn:Ha; cbn; [|done].
      rewrite Ho, lookup_insert_ne; [done|]. intros E. by eapply Hfresh. }
  assert (Hsome : ∀ a, is_Some (mp_objs m' !! a) ↔ mp_next m = a ∨ is_Some (mp_objs m !! a)).
  { intros a. rewrite <-(fmap_is_Some (with_idx 0)), Ho, fmap_is_Some. apply lookup_insert_is_Some'. }
  split; [|done]. split.
  - intros h' a. rewrite Ht, Hsome, lookup_insert_Some. intros [[_ <-]|[_ Ha]]; [by left|right].
    by eapply in_objs.
  - intros a [<- | Ha]%Hsome; rewrite Hn; [lia|]. apply (in_next _ Hin) in Ha. lia.
  - intros h' e'. rewrite Hpool, lookup_insert_Some. intros [[<- <-]|[_ He']]; [done|].
    by apply (in_entry _ Hin).
  - intros k h'. rewrite Hs, mark_spent_lookup, Hpool.
    change (input_key <$> tx_Inputs (te_Tx e)) with (entry_inputs e).
    destruct (decide (k ∈ entry_inputs e)) as [Hk|Hk].
    + split.
      * intros [= <-]. exists e. by rewrite lookup_insert_eq.
      * intros (e' & [[<- <-]|[_ He']]%lookup_insert_Some & Hk'); [done|].
        assert (mp_spentOutpoints m !! k = Some h') by (apply (in_spent _ Hin); eauto).
        rewrite Hunspent in *; done.
    + rewrite (in_spent _ Hin). split.
      * intros (e' & He' & Hk'). exists e'. split; [|done]. rewrite lookup_insert_ne; [done|]. congruence.
      * intros (e' & [[<- <-]|[_ He']]%lookup_insert_Some & Hk'); [done|]. eauto.
  - rewrite Hb, Hpool, pool_bytes_insert, (in_bytes _ Hin) by done. lia.
Qed.

Lemma insert_entry_inv wall m tx fee :
  let h := HashTransaction tx in
  let e := mkTxEntry tx h fee (fee / tx_size tx) (tx_size tx) (wall (mp_clock m)) 0 in
  mp_inv m → pool m !! h = None → entry_ok h e →
  (∀ k, k ∈ entry_inputs e → mp_spentOutpoints m !! k = None) →
  ∃ m', insert_entry wall tx h fee (tx_size tx) m = (Ok h, m') ∧ mp_inv m' ∧ pool m' = <[h := e]> (pool m) ∧
    mp_clock m' = S (mp_clock m).
Proof.
  intros h e [Hin Hheap] Hno He Hunspent. eexists. split; [done|].
  cbn [alloc fst snd tick mp_next mp_txs mp_objs mp_totalBytes mp_spentOutpoints mp_clock mp_feeOrder set_txs set_bytes].
  fold e.
  match goal with |- context [heap_Push ?a ?x] => set (m1 := x); set (ptr := a) end.
  assert (Hfresh : mp_objs m !! ptr = None).
  { apply eq_None_not_Some. intros Hx. apply (in_next _ Hin) in Hx. unfold ptr in Hx. lia. }
  assert (Hnew : mp_objs m1 !! ptr = Some e) by apply lookup_insert_eq.
  assert (Hold : ∀ b, b ∈ mp_feeOrder m → b ≠ ptr).
  { intros b Hb ->. apply list_elem_of_lookup in Hb as [i Hi].
    destruct (ix_entry _ (ho_idx _ _ Hheap) _ _ Hi) as (x & Hx & _). congruence. }
  assert (Hheap1 : heap_ok m1 (λ a, ∃ h, mp_txs m !! h = Some a)).
  { destruct Hheap as [[Hnd Hen] Hh Hel]. split; [split|..]; [done| |  |done].
    - intros i b Hb. destruct (Hen i b Hb) as (x & Hx & ?). exists x. split; [|done].
      change (mp_objs m1) with (<[ptr := e]> (mp_objs m)). rewrite lookup_insert_ne; [done|]. symmetry. apply Hold, list_elem_of_lookup. eauto.
    - assert (Hv : hp_view m1 = hp_view m); [|by rewrite Hv].
      cbn. apply list_fmap_ext. intros i b Hb. unfold key_at. change (mp_objs m1) with (<[ptr := e]> (mp_objs m)).
      rewrite lookup_insert_ne; [done|]. symmetry. apply Hold, list_elem_of_lookup. eauto. }
  destruct (heap_ok_push m1 _ ptr e Hheap1 Hnew) as [Hs Hh2].
  { by eapply entry_ok_hash. } { intros Hx. by apply (Hold ptr). }
  assert (Hlk : linked h e m (set_spent (foldl (mark_spent h) (mp_spentOutpoints (heap_Push ptr m1)) (tx_Inputs tx))
                               (heap_Push ptr m1))).
  { split; cbn [set_spent mp_txs mp_spentOutpoints mp_totalBytes mp_next mp_objs].
    - by rewrite (sm_txs _ _ Hs).
    - by rewrite (sm_spent _ _ Hs).
    - by rewrite (sm_bytes _ _ Hs).
    - by rewrite (sm_next _ _ Hs).
    - intros a. apply (sm_objs _ _ Hs). }
  destruct (linked_ok h e m _ Hin Hno He eq_refl Hunspent Hlk) as [Hin' Hpool].
  split_and!; [split; [done|]|done|].
  - apply (heap_ok_fields (heap_Push ptr m1)); [done..|]. eapply heap_ok_iff; [|exact Hh2].
    intros b. rewrite (lk_txs _ _ _ _ Hlk). split.
    + intros [[h' Hh'] | ->]; [|exists h; by rewrite lookup_insert_eq].
      exists h'. rewrite lookup_insert_ne; [done|]. intros <-.
      unfold pool in Hno. rewrite lookup_omap, Hh' in Hno. cbn in Hno.
      by destruct (in_objs _ Hin _ _ Hh') as [? Hx]; rewrite Hx in Hno.
    + intros [h' [[_ <-]|[_ ?]]%lookup_insert_Some]; [by right|left]. eauto.
  - cbn [set_spent mp_clock]. by rewrite (sm_clock _ _ Hs).
Qed.
End invariant.

(** ** Abstract specification

    The pool as a finite map from hashes to entries: an admitted transaction is
    added after entries of the lowest fee rate were removed to make room. *)
Section spec.
Context `{CryptoLib} (p : ChainParams) (wall : nat → Z).
Implicit Types pl : gmap Hash TxEntry.

Definition spent_in pl (k : list byte) : bool :=
  existsb (λ e, bool_decide (k ∈ entry_inputs e)) (map_to_list pl).*2.

Definition spec_supplement pl (utxoSet : UtxoSet) (sup : option UtxoSet) (i : TxInput) : option UtxoSet :=
  let o := in_PreviousOutPoint i in
  if Set_Has utxoSet (op_Hash o) (op_Index o) then sup else
  match pl !! op_Hash o with
  | None => sup
  | Some parentEntry =>
      if len (tx_Outputs (te_Tx parentEntry)) <=? op_Index o then sup else
      match tx_Outputs (te_Tx parentEntry) !! Z.to_nat (op_Index o) with
      | Some out => Some (<[input_key i := mkUtxoEntry (out_Value out) (out_PkScript out) 0 false]> (default ∅ sup))
      | None => sup
      end
  end.

(** The fee of a transaction that the pool admits, or the reason why not. *)
Definition admit_tx pl (utxoSet : UtxoSet) (tipHeight now : Z) (tx : Transaction) : res Z :=
  _ ← fail_if (Transaction_IsCoinbase tx) (Errorf "coinbase transactions cannot enter mempool");
  _ ← fail_if (len (tx_Inputs tx) =? 0) (Errorf "transaction has no inputs");
  _ ← fail_if (len (tx_Outputs tx) =? 0) (Errorf "transaction has no outputs");
  _ ← fail_if (bool_decide (is_Some (pl !! HashTransaction tx))) (Errorf "transaction already in mempool");
  _ ← fail_if (existsb (λ i, spent_in pl (input_key i)) (tx_Inputs tx)) (Errorf "tx double-spends outpoint");
  fee ← wrap "validation failed" (ValidateSingleTransaction tx utxoSet tipHeight p
          (foldl (spec_supplement pl utxoSet) None (tx_Inputs tx)) (now / 1000000000));
  _ ← check_fee p fee (tx_size tx);
  mret fee.

Fixpoint spec_while (cond : gmap Hash TxEntry → bool) (fuel : nat) pl : gmap Hash TxEntry :=
  match fuel with
  | O => pl
  | S fuel' => if cond pl then spec_while cond fuel' (spec_evict pl) else pl
  end.
Definition spec_shrink (txSize : Z) pl : gmap Hash TxEntry :=
  let pl := spec_while (λ pl, p_MaxMempoolSize p <=? Z.of_nat (size pl)) (size pl) pl in
  spec_while (λ pl, maxMempoolBytes <? pool_bytes pl + txSize) (size pl) pl.

Definition new_entry (tx : Transaction) (fee now : Z) : TxEntry :=
  mkTxEntry tx (HashTransaction tx) fee (fee / tx_size tx) (tx_size tx) now 0.

Definition limits pl : Prop :=
  Z.of_nat (size pl) ≤ Z.max 1 (p_MaxMempoolSize p) ∧ pool_bytes pl ≤ maxMempoolBytes.
Definition mempool_ok m : Prop := mp_inv p m ∧ limits (pool m).

Lemma lowest_elem pl e : lowest pl = Some e → ∃ h, pl !! h = Some e.
Proof.
  unfold lowest. intros Hl. assert (He : e ∈ (map_to_list pl).*2).
  { revert e Hl. induction (map_to_list pl).*2 as [|x l IH]; intros e; cbn [foldr]; [done|].
    destruct (foldr lower None l) as [e'|]; cbn [lower].
    - destruct (feeHeap_before e' x); intros [= <-]; [right; auto|left].
    - intros [= <-]. left. }
  apply list_elem_of_fmap in He as ([h ?] & -> & Hx). exists h. by apply elem_of_map_to_list in Hx.
Qed.

Lemma lowest_nonempty pl : pl ≠ ∅ → is_Some (lowest pl).
Proof.
  intros Hne. unfold lowest. destruct (map_to_list pl).*2 as [|x l] eqn:E.
  - apply fmap_nil_inv in E. by apply map_to_list_empty_iff in E.
  - cbn. destruct (foldr lower None l); cbn; [case_match|]; eauto.
Qed.

Lemma spec_evict_subset pl : spec_evict pl ⊆ pl.
Proof. unfold spec_evict. destruct (lowest pl); [apply delete_subseteq|done]. Qed.

Lemma spec_evict_size pl :
  (∀ h e, pl !! h = Some e → te_Hash e = h) → pl ≠ ∅ → (size (spec_evict pl) = size pl - 1)%nat.
Proof.
  intros Hh [e He]%lowest_nonempty. unfold spec_evict. rewrite He.
  apply lowest_elem in He as [h He]. rewrite (Hh _ _ He).
  rewrite map_size_delete, He. cbn. lia.
Qed.

Lemma spec_while_subset cond fuel pl : spec_while cond fuel pl ⊆ pl.
Proof.
  revert pl. induction fuel as [|fuel IH]; intros pl; cbn [spec_while]; [done|].
  destruct (cond pl); [|done]. etrans; [apply IH|apply spec_evict_subset].
Qed.

(** With as many turns as entries, the loop ends empty or with the condition
    met. *)
Lemma spec_while_done cond fuel pl :
  (∀ h e, pl !! h = Some e → te_Hash e = h) → (size pl ≤ fuel)%nat →
  spec_while cond fuel pl = ∅ ∨ cond (spec_while cond fuel pl) = false.
Proof.
  revert pl. induction fuel as [|fuel IH]; intros pl Hh Hf; cbn [spec_while].
  { left. apply map_size_empty_iff. lia. }
  destruct (cond pl) eqn:Hc; [|by right]. destruct (decide (pl = ∅)) as [->|Hne].
  - left. apply map_empty. intros h. apply eq_None_not_Some. intros [e He].
    eapply lookup_weaken in He; [|etrans; [apply spec_while_subset|apply spec_evict_subset]].
    by rewrite lookup_empty in He.
  - apply IH; [|rewrite spec_evict_size by done; lia].
    intros h e He. apply Hh. by eapply lookup_weaken, spec_evict_subset.
Qed.


(** *** The operations implement it *)

Lemma foldl_add_nonneg {A} (f : A → Z) n l : (∀ x, 0 ≤ f x) → n ≤ foldl (λ n x, n + f x) n l.
Proof.
  intros Hf. revert n. induction l as [|x l IH]; intros n; cbn [foldl]; [lia|].
  specialize (IH (n + f x)). specialize (Hf x). lia.
Qed.

Lemma tx_size_eq tx : tx_size tx = Transaction_SerializeSize tx ∧ 0 < tx_size tx.
Proof.
  assert (Hpos : 0 < Transaction_SerializeSize tx).
  { unfold Transaction_SerializeSize.
    pose proof (VarIntSize_pos (len (tx_Inputs tx))). pose proof (VarIntSize_pos (len (tx_Outputs tx))).
    assert (Hi : ∀ i, 0 ≤ TxInput_SerializeSize i).
    { intros i. unfold TxInput_SerializeSize. pose proof (VarIntSize_pos (len (in_SignatureScript i))). lia. }
    assert (Ho : ∀ o, 0 ≤ TxOutput_SerializeSize o).
    { intros o. unfold TxOutput_SerializeSize. pose proof (VarIntSize_pos (len (out_PkScript o))). lia. }
    cbv zeta. set (n := foldl _ (4 + _) _).
    assert (4 + VarIntSize (len (tx_Inputs tx)) ≤ n) by (by apply foldl_add_nonneg).
    pose proof (foldl_add_nonneg TxOutput_SerializeSize (n + VarIntSize (len (tx_Outputs tx))) (tx_Outputs tx) Ho).
    lia. }
  unfold tx_size. rewrite (proj2 (Z.eqb_neq _ _)) by lia. done.
Qed.

Lemma limits_delete pl h : (∀ h e, pl !! h = Some e → entry_ok p h e) → limits pl → limits (delete h pl).
Proof.
  intros Hok [Hsz Hb]. destruct (pl !! h) as [e|] eqn:He; [|by rewrite delete_id].
  split.
  - rewrite map_size_delete, He. cbn. lia.
  - rewrite (pool_bytes_delete _ _ e) by done.
    destruct (tx_size_eq (te_Tx e)). rewrite (eo_size _ _ _ (Hok _ _ He)). lia.
Qed.

Lemma spent_in_spec m k :
  index_ok p m → spent_in (pool m) k = bool_decide (is_Some (mp_spentOutpoints m !! k)).
Proof.
  intros Hin. apply eq_true_iff_eq. rewrite bool_decide_eq_true. unfold spent_in.
  rewrite existsb_exists. split.
  - intros (e & He & Hk%bool_decide_eq_true). apply list_elem_of_In, list_elem_of_fmap in He as ([h ?] & -> & Hx).
    apply elem_of_map_to_list in Hx. exists h. apply (in_spent _ _ Hin). eauto.
  - intros [h (e & He & Hk)%(in_spent _ _ Hin)]. exists e. split; [|by apply bool_decide_eq_true].
    apply list_elem_of_In, list_elem_of_fmap. exists (h, e). split; [done|]. by apply elem_of_map_to_list.
Qed.

Lemma conflicts_spec m ins :
  index_ok p m →
  foldM (check_conflict m) () ins =
  fail_if (existsb (λ i, spent_in (pool m) (input_key i)) ins) (Errorf "tx double-spends outpoint").
Proof.
  intros Hin. induction ins as [|i ins IH]; cbn [foldM existsb]; [done|].
  rewrite spent_in_spec by done.
  replace (check_conflict m () i) with
    (fail_if (bool_decide (is_Some (mp_spentOutpoints m !! input_key i))) (Errorf "tx double-spends outpoint")).
  - by destruct (bool_decide _).
  - unfold check_conflict. change (outpoint_key (in_PreviousOutPoint i)) with (input_key i).
    destruct (mp_spentOutpoints m !! input_key i); [done|]. by rewrite bool_decide_false by (by intros []).
Qed.

Lemma supplement_spec m utxoSet ins sup :
  index_ok p m → existsb (λ i, spent_in (pool m) (input_key i)) ins = false →
  foldl (supplement m utxoSet) sup ins = foldl (spec_supplement (pool m) utxoSet) sup ins.
Proof.
  intros Hin. revert sup. induction ins as [|i ins IH]; intros sup; cbn [foldl existsb]; [done|].
  intros [Hi Hins]%orb_false_iff. rewrite <-IH by done. f_equal.
  rewrite spent_in_spec in Hi by done. apply bool_decide_eq_false, eq_None_not_Some in Hi.
  unfold supplement, spec_supplement. destruct (Set_Has _ _ _); [done|].
  change (outpoint_key (in_PreviousOutPoint i)) with (input_key i). rewrite Hi.
  unfold pool. rewrite lookup_omap.
  destruct (mp_txs m !! op_Hash (in_PreviousOutPoint i)) as [a|]; cbn; [|done].
  destruct (mp_objs m !! a); cbn; done.
Qed.

Lemma spec_evict_entries pl h e :
  (∀ h e, pl !! h = Some e → entry_ok p h e) → spec_evict pl !! h = Some e → entry_ok p h e.
Proof. intros Hok He. apply Hok. by eapply lookup_weaken, spec_evict_subset. Qed.

Lemma evict_while_spec cond acond fuel m :
  mp_inv p m →
  (∀ m', mp_inv p m' → (size (pool m') ≤ size (pool m))%nat → cond m' = acond (pool m')) →
  (size (pool m) ≤ fuel)%nat →
  ∃ m', evict_while cond fuel m = Ok m' ∧ mp_inv p m' ∧ pool m' = spec_while acond fuel (pool m) ∧
    mp_clock m' = mp_clock m.
Proof.
  revert m. induction fuel as [|fuel IH]; intros m Hm Hc Hf.
  - assert (He : mp_txs m = ∅) by (apply (pool_empty p m (proj1 Hm)), map_size_empty_iff; lia).
    cbn [evict_while]. rewrite He, bool_decide_true, andb_false_r by done. by exists m.
  - cbn [evict_while spec_while]. rewrite Hc by done.
    destruct (evict_inv p m Hm) as (Hm' & Hp & Hck).
    destruct (decide (pool m = ∅)) as [He|Hne].
    + rewrite (bool_decide_true (mp_txs m = ∅)), andb_false_r by (by apply (pool_empty p m (proj1 Hm))).
      exists m. split_and!; [done..| |done]. rewrite He. destruct (acond ∅); [|done].
      symmetry. apply map_empty. intros h. apply eq_None_not_Some. intros [e Hx].
      eapply lookup_weaken in Hx; [|etrans; [apply spec_while_subset|apply spec_evict_subset]].
      by rewrite lookup_empty in Hx.
    + rewrite (bool_decide_false (mp_txs m = ∅)) by (by rewrite <-(pool_empty p m (proj1 Hm))).
      cbn [negb]. rewrite andb_true_r. destruct (acond (pool m)); [|by exists m].
      assert (Hsz : (size (pool (evictLowestFeeRateUnsafe m)) = size (pool m) - 1)%nat).
      { rewrite Hp. apply spec_evict_size; [|done]. intros h e He. apply (in_entry _ _ (proj1 Hm) _ _ He). }
      assert (size (pool m) ≠ 0%nat) by (by rewrite map_size_empty_iff).
      rewrite <-Hp, <-Hck. apply IH; [done| |lia]. intros m2 ? ?. apply Hc; [done|lia].
Qed.

(** Whatever the values are, an accepted transaction has distinct inputs, a
    bounded size and a 64-bit fee. *)
Lemma ValidateSingleTransaction_distinct tx s tipHeight sup now fee :
  ValidateSingleTransaction tx s tipHeight p sup now = Ok fee →
  NoDup (input_key <$> tx_Inputs tx) ∧ Transaction_SerializeSize tx ≤ MaxTxSize ∧ is_u64 fee.
Proof.
  unfold ValidateSingleTransaction. intros Hv. res_inv.
  split_and!; [|by apply Z.ltb_ge|apply u64_range].
  match goal with H : foldiM _ _ _ = Ok _ |- _ => rename H into Hf end.
  apply (foldiM_inv (λ don ist, NoDup (input_key <$> don) ∧
    ∀ k, k ∈ input_key <$> don → k ∈ is_seenInputs ist)) in Hf; [apply Hf|split; [constructor|set_solver]|].
  intros don i rest s1 s2 _ [Hnd Hseen] Hstep. unfold validate_single_input in Hstep.
  res_cases. rewrite fmap_app. cbn [fmap list_fmap is_seenInputs].
  change (outpoint_key (in_PreviousOutPoint i)) with (input_key i) in *.
  match goal with H : bool_decide (_ ∈ _) = false |- _ => apply bool_decide_eq_false in H end.
  split; [|set_solver]. apply NoDup_app. split_and!; [done| |apply NoDup_singleton].
  intros k Hk ->%list_elem_of_singleton. auto.
Qed.

(** What [admit_tx] guarantees of the transactions it lets in. *)
Lemma admit_tx_entry pl utxoSet tipHeight now tx fee t :
  admit_tx pl utxoSet tipHeight now tx = Ok fee →
  entry_ok p (HashTransaction tx) (new_entry tx fee t) ∧ tx_size tx ≤ MaxTxSize ∧
  pl !! HashTransaction tx = None ∧ existsb (λ i, spent_in pl (input_key i)) (tx_Inputs tx) = false.
Proof.
  unfold admit_tx. intros Ha. res_inv. destruct (tx_size_eq tx) as [Hsz Hpos].
  repeat match goal with H : wrap _ _ = Ok _ |- _ => apply wrap_Ok in H end.
  match goal with H : ValidateSingleTransaction _ _ _ _ _ _ = Ok _ |- _ =>
    pose proof (ValidateSingleTransaction_distinct _ _ _ _ _ _ H) as (Hnd & Hmax & Hfee) end.
  split_and!.
  - split; cbn; try done.
    + by intros Hn; rewrite Hn in *.
    + by intros Hn; rewrite Hn in *.
  - lia.
  - match goal with H : bool_decide (is_Some _) = false |- _ =>
      apply bool_decide_eq_false in H; by apply eq_None_not_Some end.
  - done.
Qed.

Lemma known_spec m h :
  index_ok p m → bool_decide (is_Some (mp_txs m !! h)) = bool_decide (is_Some (pool m !! h)).
Proof. intros Hin. apply bool_decide_ext. by rewrite <-!elem_of_dom, (pool_dom p). Qed.

(** The checks of [AddTx] are those of [admit_tx]. *)
Lemma AddTx_checks m utxoSet tipHeight tx :
  index_ok p m →
  ∃ m0, (m0 = m ∨ m0 = tick m) ∧
  AddTx p wall utxoSet tipHeight tx m =
    match admit_tx (pool m) utxoSet tipHeight (wall (mp_clock m)) tx with
    | Ok fee => (_ ← evict_for (too_many p); _ ← evict_for (too_big (tx_size tx));
                 insert_entry wall tx (HashTransaction tx) fee (tx_size tx)) (tick m)
    | Err e => (Err e, m0)
    | Panic => (Panic, m0)
    end.
Proof.
  intros Hin. unfold AddTx, admit_tx.
  proc_step. destruct (Transaction_IsCoinbase tx); [by exists m; split; [left|]|].
  proc_step. destruct (len (tx_Inputs tx) =? 0); [by exists m; split; [left|]|].
  proc_step. destruct (len (tx_Outputs tx) =? 0); [by exists m; split; [left|]|].
  cbv zeta. do 2 proc_step. rewrite known_spec by done.
  destruct (bool_decide (is_Some (pool m !! HashTransaction tx))); [by exists m; split; [left|]|].
  cbn [fail_if]. proc_step. rewrite conflicts_spec by done.
  destruct (existsb (λ i, spent_in (pool m) (input_key i)) (tx_Inputs tx)) eqn:Hc; [by exists m; split; [left|]|].
  cbn [fail_if]. do 2 proc_step. rewrite supplement_spec by done.
  unfold time_Now at 1. proc_step.
  exists (tick m). split; [by right|].
  destruct (ValidateSingleTransaction tx utxoSet tipHeight p _ _) as [fee|e|]; [|done..].
  cbn [wrap]. proc_step. cbn [mbind res_bind mret res_ret]. by destruct (check_fee p fee (tx_size tx)).
Qed.

Lemma mp_inv_tick m : mp_inv p m → mp_inv p (tick m).
Proof.
  intros [[] Hheap]. split; [by split|]. by apply (heap_ok_fields m).
Qed.

Lemma spec_while_entries cond fuel pl :
  (∀ h e, pl !! h = Some e → entry_ok p h e) →
  ∀ h e, spec_while cond fuel pl !! h = Some e → entry_ok p h e.
Proof. intros Hok h e He. apply Hok. by eapply lookup_weaken, spec_while_subset. Qed.

Lemma spec_shrink_subset txSize pl : spec_shrink txSize pl ⊆ pl.
Proof. unfold spec_shrink. etrans; apply spec_while_subset. Qed.

(** There is room for a transaction of this size after [spec_shrink]. *)
Lemma spec_shrink_room txSize pl :
  (∀ h e, pl !! h = Some e → entry_ok p h e) → txSize ≤ maxMempoolBytes →
  Z.of_nat (size (spec_shrink txSize pl)) + 1 ≤ Z.max 1 (p_MaxMempoolSize p) ∧
  pool_bytes (spec_shrink txSize pl) + txSize ≤ maxMempoolBytes.
Proof.
  intros Hok Hsz. unfold spec_shrink.
  set (c1 := λ pl : gmap Hash TxEntry, p_MaxMempoolSize p <=? Z.of_nat (size pl)).
  set (pl1 := spec_while c1 (size pl) pl).
  assert (Hok1 := spec_while_entries c1 (size pl) pl Hok). fold pl1 in Hok1.
  assert (H1 : pl1 = ∅ ∨ c1 pl1 = false).
  { apply spec_while_done; [|done]. intros h e He. apply (Hok _ _ He). }
  set (c2 := λ pl : gmap Hash TxEntry, maxMempoolBytes <? pool_bytes pl + txSize).
  assert (H2 := spec_while_done c2 (size pl1) pl1 ltac:(intros h e He; apply (Hok1 _ _ He)) ltac:(done)).
  assert (Hsub := spec_while_subset c2 (size pl1) pl1).
  split.
  - assert (Hle : (size (spec_while c2 (size pl1) pl1) ≤ size pl1)%nat).
    { by apply map_subseteq_size. }
    destruct H1 as [H1|H1]; [apply map_size_empty_iff in H1; lia|]. unfold c1 in H1. lia.
  - destruct H2 as [-> | H2]; [unfold pool_bytes; rewrite map_fold_empty; lia|].
    unfold c2 in H2 at 1. lia.
Qed.

(** The two eviction loops. *)
Lemma evict_for_spec m txSize :
  is_u32 (p_MaxMempoolSize p) → mempool_ok m →
  ∃ m', (_ ← evict_for (too_many p); evict_for (too_big txSize)) m = (Ok (), m') ∧ mp_inv p m' ∧
    pool m' = spec_shrink txSize (pool m) ∧ mp_clock m' = mp_clock m.
Proof.
  intros Hmax [Hinv [Hsz _]]. proc_step. unfold evict_for at 1.
  destruct (evict_while_spec (too_many p) (λ pl, p_MaxMempoolSize p <=? Z.of_nat (size pl))
              (size (pool m)) m Hinv) as (m1 & H1 & Hinv1 & Hp1 & Hc1); [|done|].
  { intros m' Hm' Hle. unfold too_many. rewrite <-(pool_size p) by apply Hm'.
    rewrite u32_id; [done|]. unfold is_u32 in *. lia. }
  rewrite (pool_size p m (proj1 Hinv)) in H1. rewrite H1. unfold evict_for.
  destruct (evict_while_spec (too_big txSize) (λ pl, maxMempoolBytes <? pool_bytes pl + txSize)
              (size (pool m1)) m1 Hinv1) as (m2 & H2 & Hinv2 & Hp2 & Hc2); [|done|].
  { intros m' Hm' _. unfold too_big. by rewrite (in_bytes _ _ (proj1 Hm')). }
  rewrite (pool_size p m1 (proj1 Hinv1)) in H2. rewrite H2. exists m2.
  split_and!; [done..| |congruence]. unfold spec_shrink. by rewrite <-Hp1.
Qed.

(** [AddTx] returns what [admit_tx] says and changes the pool accordingly. *)
Lemma AddTx_spec m utxoSet tipHeight tx :
  is_u32 (p_MaxMempoolSize p) → mempool_ok m →
  let adm := admit_tx (pool m) utxoSet tipHeight (wall (mp_clock m)) tx in
  let '(r, m') := AddTx p wall utxoSet tipHeight tx m in
  r = (λ _, HashTransaction tx) <$> adm ∧ mempool_ok m' ∧
  pool m' = match adm with
            | Ok fee => <[HashTransaction tx := new_entry tx fee (wall (S (mp_clock m)))]>
                          (spec_shrink (tx_size tx) (pool m))
            | _ => pool m
            end.
Proof.
  intros Hmax Hok. cbv zeta. destruct Hok as [Hinv Hlim].
  destruct (AddTx_checks m utxoSet tipHeight tx (proj1 Hinv)) as (m0 & Hm0 & ->).
  assert (Hok0 : mempool_ok m0 ∧ pool m0 = pool m).
  { destruct Hm0 as [-> | ->]; [done|]. split; [split|]; [by apply mp_inv_tick|done|done]. }
  destruct (admit_tx (pool m) utxoSet tipHeight (wall (mp_clock m)) tx) as [fee|err|] eqn:Hadm; [|done..].
  destruct (admit_tx_entry _ _ _ _ _ _ (wall (S (mp_clock m))) Hadm) as (Heo & Hsize & Hnew & Hfree).
  destruct (evict_for_spec (tick m) (tx_size tx) Hmax) as (m1 & H1 & Hinv1 & Hp1 & Hck1).
  { split; [by apply mp_inv_tick|done]. }
  assert (H1' : ∀ k : proc Mempool Hash, (_ ← evict_for (too_many p); _ ← evict_for (too_big (tx_size tx)); k) (tick m) = k m1).
  { intros k. revert H1. rewrite !proc_bind_eq. destruct (evict_for (too_many p) (tick m)) as [[u|e|] m']; [|done..].
    rewrite proc_bind_eq. intros ->. done. }
  rewrite H1'. change (pool (tick m)) with (pool m) in Hp1. cbn [tick mp_clock] in Hck1.
  assert (Hsub := spec_shrink_subset (tx_size tx) (pool m)).
  destruct (insert_entry_inv p wall m1 tx fee Hinv1) as (m2 & -> & Hinv2 & Hp2 & _).
  { rewrite Hp1. by eapply lookup_weaken_None. }
  { rewrite Hck1. done. }
  { intros k Hk. apply eq_None_not_Some. intros [h' (e' & He' & Hk')%(in_spent _ _ (proj1 Hinv1))].
    rewrite Hp1 in He'. apply (lookup_weaken _ _ _ _ He') in Hsub.
    assert (Hs : spent_in (pool m) k = true).
    { rewrite (spent_in_spec m k (proj1 Hinv)). apply bool_decide_eq_true. exists h'.
      apply (in_spent _ _ (proj1 Hinv)). eauto. }
    cbn in Hk. apply list_elem_of_fmap in Hk as (i & -> & Hi).
    apply list_elem_of_In in Hi. apply not_true_iff_false in Hfree. apply Hfree, existsb_exists. eauto. }
  rewrite Hck1, Hp1 in Hp2. split_and!; [done| |done]. split; [done|]. rewrite Hp2. split.
  - destruct (spec_shrink_room (tx_size tx) (pool m) (in_entry _ _ (proj1 Hinv))) as [Hr _].
    { unfold MaxTxSize, maxMempoolBytes in *. lia. }
    rewrite map_size_insert_None by (by eapply lookup_weaken_None). lia.
  - destruct (spec_shrink_room (tx_size tx) (pool m) (in_entry _ _ (proj1 Hinv))) as [_ Hr].
    { unfold MaxTxSize, maxMempoolBytes in *. lia. }
    rewrite pool_bytes_insert by (by eapply lookup_weaken_None). cbn. lia.
Qed.

(** *** Every operation keeps the invariant *)

Definition keeps_ok m m' : Prop := mempool_ok m → mempool_ok m'.
#[local] Instance keeps_ok_preorder : PreOrder keeps_ok.
Proof. split; [by intros m ?|]. intros m1 m2 m3 H1 H2 ?. by apply H2, H1. Qed.

Lemma removeTxUnsafe_ok h m :
  mempool_ok m → mempool_ok (removeTxUnsafe h m) ∧ pool (removeTxUnsafe h m) = delete h (pool m).
Proof.
  intros [Hinv Hlim]. destruct (removeTxUnsafe_inv p h m Hinv) as (Hinv' & Hp & _).
  split; [split; [done|]|done]. rewrite Hp. apply limits_delete; [|done]. apply Hinv.
Qed.

Lemma RemoveTxs_ok hs m :
  mempool_ok m → mempool_ok (RemoveTxs hs m) ∧ pool (RemoveTxs hs m) = foldl (λ pl h, delete h pl) (pool m) hs.
Proof.
  unfold RemoveTxs. revert m. induction hs as [|h hs IH]; intros m Hm; cbn [foldl]; [done|].
  destruct (removeTxUnsafe_ok h m Hm) as [Hm' Hp]. rewrite <-Hp. by apply IH.
Qed.

Lemma evict_ok m :
  mempool_ok m → mempool_ok (evictLowestFeeRateUnsafe m) ∧
  pool (evictLowestFeeRateUnsafe m) = spec_evict (pool m).
Proof.
  intros [Hinv Hlim]. destruct (evict_inv p m Hinv) as (Hinv' & Hp & _).
  split; [split; [done|]|done]. rewrite Hp. unfold spec_evict. destruct (lowest (pool m)); [|done].
  apply limits_delete; [|done]. apply Hinv.
Qed.

Lemma tick_ok m : mempool_ok m → mempool_ok (tick m).
Proof. intros [? ?]. split; [by apply mp_inv_tick|done]. Qed.

(** The entry of a hash gets another time. *)
Lemma set_addedAt_ok h t m :
  mempool_ok m → mempool_ok (set_addedAt h t m) ∧
  pool (set_addedAt h t m) = alter (with_addedAt t) h (pool m).
Proof.
  intros [[Hin Hheap] Hlim]. unfold set_addedAt. destruct (mp_txs m !! h) as [a|] eqn:Ha.
  2:{ split; [done|]. apply map_eq. intros h'. destruct (decide (h = h')) as [<-|?].
      - rewrite lookup_alter_eq. unfold pool. by rewrite lookup_omap, Ha.
      - by rewrite lookup_alter_ne. }
  destruct (in_objs _ _ Hin _ _ Ha) as [e He].
  assert (Hp : pool m !! h = Some (with_idx 0 e)) by (apply pool_lookup; eauto).
  assert (Heo := in_entry _ _ Hin _ _ Hp).
  set (m' := set_objs (alter (with_addedAt t) a (mp_objs m)) m).
  assert (Hobj : ∀ b, mp_objs m' !! b = if decide (a = b) then with_addedAt t <$> mp_objs m !! b else mp_objs m !! b).
  { intros b. cbn. case_decide as Hab; [subst; apply lookup_alter_eq|by apply lookup_alter_ne]. }
  assert (Hpool : pool m' = <[h := with_addedAt t (with_idx 0 e)]> (pool m)).
  { apply map_eq. intros h'. unfold pool at 1. rewrite lookup_omap. cbn [m' mp_txs set_objs].
    destruct (decide (h = h')) as [<-|Hne].
    - rewrite lookup_insert_eq, Ha. cbn. by rewrite lookup_alter_eq, He.
    - rewrite lookup_insert_ne by done. unfold pool. rewrite lookup_omap.
      destruct (mp_txs m !! h') as [b|] eqn:Hb; cbn; [|done]. rewrite lookup_alter_ne; [done|]. intros <-.
      apply Hne. assert (Hp' : pool m !! h' = Some (with_idx 0 e)) by (apply pool_lookup; eauto).
      by rewrite <-(eo_hash _ _ _ Heo), <-(eo_hash _ _ _ (in_entry _ _ Hin _ _ Hp')). }
  assert (Hsz : pool_bytes (pool m') = pool_bytes (pool m)).
  { rewrite Hpool, <-(insert_delete_eq (pool m) h), pool_bytes_insert by apply lookup_delete_eq.
    rewrite (pool_bytes_delete _ _ _ Hp). cbn. lia. }
  split.
  - split; [split; [split|]|].
    + intros h' b Hb. rewrite Hobj. case_decide; [apply fmap_is_Some|]; by eapply in_objs.
    + intros b. rewrite Hobj. intros Hb. apply (in_next _ _ Hin).
      case_decide; [by apply fmap_is_Some in Hb|done].
    + intros h' e'. rewrite Hpool, lookup_insert_Some. intros [[<- <-]|[_ ?]]; [|by apply (in_entry _ _ Hin)].
      destruct Heo. by split.
    + intros k h'. cbn [m' mp_spentOutpoints set_objs]. rewrite (in_spent _ _ Hin), Hpool.
      destruct (decide (h = h')) as [<-|?]; [|by rewrite lookup_insert_ne].
      rewrite lookup_insert_eq, Hp. split; intros (e' & [= <-] & Hk); eexists; (split; [done|exact Hk]).
    + rewrite Hsz. apply Hin.
    + destruct Hheap as [[Hnd Hen] Hh Hel]. split; [split|..]; [done| | |done].
      * intros i b Hb. destruct (Hen i b Hb) as (x & Hx & ? & ?). rewrite Hobj, Hx.
        case_decide; eexists; (split; [done|]); done.
      * assert (Hv : hp_view m' = hp_view m); [|by rewrite Hv].
        cbn. apply list_fmap_ext. intros i b Hb. unfold key_at. f_equal. f_equal.
        rewrite (Hobj b). case_decide; [|done].
        by destruct (mp_objs m !! b).
    + destruct Hlim as [Hl1 Hl2]. split; [|by rewrite Hsz].
      rewrite Hpool, map_size_insert_Some by (by eexists). done.
  - fold m'. rewrite Hpool. apply map_eq. intros h'. destruct (decide (h = h')) as [<-|?].
    + by rewrite lookup_insert_eq, lookup_alter_eq, Hp.
    + by rewrite lookup_insert_ne, lookup_alter_ne.
Qed.

Lemma New_ok : mempool_ok New.
Proof.
  assert (HN : New = mkMempool ∅ 0 ∅ ∅ 0 [] 0) by done. rewrite HN. clear HN.
  assert (Hp : pool (mkMempool ∅ 0 ∅ ∅ 0 [] 0) = ∅) by done.
  split; [split; [split|]|].
  - intros h a Ha. cbn in Ha. by rewrite lookup_empty in Ha.
  - intros a [e He]. cbn in He. by rewrite lookup_empty in He.
  - intros h e. by rewrite Hp, lookup_empty.
  - intros k h. rewrite Hp. cbn. rewrite lookup_empty. split; [done|].
    intros (e & He & _). by rewrite lookup_empty in He.
  - done.
  - split; [split; [constructor|by intros i a]|by intros k Hk x y Hx|].
    intros a. split; [by intros ?%not_elem_of_nil|]. intros [h Hh]. cbn in Hh. by rewrite lookup_empty in Hh.
  - rewrite Hp. split; [rewrite map_size_empty; lia|]. unfold pool_bytes. rewrite map_fold_empty. by compute.
Qed.

(** The entries that [ExpireOldTxs] removes. *)
Definition old_entry (cutoff : Z) (e : TxEntry) : Prop := te_AddedAt e < cutoff.
#[export] Instance old_entry_dec cutoff e : Decision (old_entry cutoff e).
Proof. unfold old_entry. apply _. Defined.

Lemma foldl_delete_size (pl : gmap Hash TxEntry) hs :
  NoDup hs → (∀ h, h ∈ hs → is_Some (pl !! h)) →
  length hs = (size pl - size (foldl (λ pl h, delete h pl) pl hs))%nat.
Proof.
  intros Hnd. revert pl. induction Hnd as [|h hs Hni Hnd IH]; intros pl Hin; cbn [foldl length]; [lia|].
  assert (Hs : is_Some (pl !! h)) by (apply Hin; left).
  assert (Hsz : size pl = S (size (delete h pl))).
  { destruct Hs as [e He]. rewrite <-(insert_delete_id pl h e He) at 1.
    by rewrite map_size_insert_None by apply lookup_delete_eq. }
  rewrite (IH (delete h pl)).
  - assert (Hle : (size (foldl (λ pl h, delete h pl) (delete h pl) hs) ≤ size (delete h pl))%nat).
    { apply map_subseteq_size. apply map_subseteq_spec. intros h' e. rewrite foldl_delete_lookup. by case_decide. }
    lia.
  - intros h' Hh'. rewrite lookup_delete_ne; [by apply Hin; right|]. by intros ->.
Qed.

Lemma ExpireOldTxs_spec it m :
  mempool_ok m → it ≡ₚ map_to_list (mp_txs m) →
  let cutoff := wall (mp_clock m) - p_MempoolExpiry p in
  let kept := if p_MempoolExpiry p <=? 0 then pool m
              else filter (λ he, ¬ old_entry cutoff he.2) (pool m) in
  let '(r, m') := ExpireOldTxs p wall it m in
  r = Ok (Z.of_nat (size (pool m) - size kept)) ∧ mempool_ok m' ∧ pool m' = kept.
Proof.
  intros Hm Hit. cbv zeta. unfold ExpireOldTxs. destruct (p_MempoolExpiry p <=? 0).
  { rewrite Nat.sub_diag. done. }
  proc_step. unfold time_Now at 1. do 2 proc_step. set (cutoff := wall (mp_clock m) - p_MempoolExpiry p).
  set (f := λ hp : Hash * nat, _). set (expired := omap f it).
  destruct (RemoveTxs_ok expired (tick m) (tick_ok m Hm)) as [Hok Hp].
  change (pool (tick m)) with (pool m) in Hp. cbn [mret proc_ret].
  assert (Hexp : ∀ h, h ∈ expired ↔ ∃ e, pool m !! h = Some e ∧ old_entry cutoff e).
  { intros h. unfold expired. rewrite list_elem_of_omap. split.
    - intros ([h' a] & Hx & Hf). rewrite Hit, elem_of_map_to_list in Hx. unfold f in Hf. cbn in Hf.
      destruct (mp_objs m !! a) as [e|] eqn:He; [|done].
      destruct (Z.ltb_spec (te_AddedAt e) cutoff); simplify_eq.
      exists (with_idx 0 e). split; [|done]. apply pool_lookup. eauto.
    - intros (e & (a & e' & Ha & He & ->)%pool_lookup & Hold). exists (h, a).
      split; [by rewrite Hit, elem_of_map_to_list|]. unfold f. cbn. rewrite He.
      by rewrite (proj2 (Z.ltb_lt _ _)). }
  assert (Hkept : pool (RemoveTxs expired (tick m)) = filter (λ he, ¬ old_entry cutoff he.2) (pool m)).
  { rewrite Hp. apply map_eq. intros h. rewrite foldl_delete_lookup, map_lookup_filter.
    destruct (pool m !! h) as [e|] eqn:He; cbn; [|by case_decide].
    destruct (decide (h ∈ expired)) as [Hh|Hh].
    - apply Hexp in Hh as (e' & He' & Hold). simplify_eq. rewrite option_guard_False; [done|]. by intros ?.
    - rewrite option_guard_True; [done|]. cbn. intros Hold. apply Hh, Hexp. eauto. }
  split_and!; [|done|done]. do 2 f_equal.
  rewrite <-Hkept, Hp. clear Hkept Hp.
  assert (Hnd : NoDup expired).
  { unfold expired. assert (Hnd : NoDup it.*1) by (rewrite Hit; apply NoDup_fst_map_to_list).
    revert Hnd. generalize it as l. induction l as [|[h a] l IH]; cbn; [constructor|].
    intros [Hni Hnd]%NoDup_cons. unfold f at 1. cbn. destruct (mp_objs m !! a); [|auto].
    destruct (_ <? _); [|auto]. constructor; [|auto].
    rewrite list_elem_of_omap. intros ([h' a'] & Hx & Hf). apply Hni. apply list_elem_of_fmap.
    exists (h', a'). split; [|done]. unfold f in Hf. cbn in Hf.
    destruct (mp_objs m !! a'); [|done]. destruct (_ <? _); by simplify_eq. }
  assert (Hin : ∀ h, h ∈ expired → is_Some (pool m !! h)) by (intros h (e & He & _)%Hexp; eauto).
  by apply foldl_delete_size.
Qed.
End spec.
