(* ===== verification/MempoolProps.v ===== *)
(** * The memory pool: properties

    Reachable pools ([reachable]: any sequence of the operations of the pool from
    the empty one), what they satisfy, and the refinement of the abstract
    specification of file Mempool.  Then the order of block templates, and
    saving and loading the pool. *)
From stdpp Require Import sorting.
From S2P Require Import Prelude Types Sha256 Params Utxo Keys Script TxValidation Heap Mempool.

Section reachable.
Context `{CryptoLib} (p : ChainParams) (wall : nat → Z).
Implicit Types m : Mempool.

(** The UTXO set and the tip may differ from call to call. *)
Inductive reachable : Mempool → Prop :=
| reach_New : reachable New
| reach_AddTx m utxoSet tipHeight tx :
    reachable m → reachable (AddTx p wall utxoSet tipHeight tx m).2
| reach_RemoveTxs m hashes : reachable m → reachable (RemoveTxs hashes m)
| reach_Evict m : reachable m → reachable (EvictLowestFeeRate m).2
| reach_Expire m it :
    it ≡ₚ map_to_list (mp_txs m) → reachable m → reachable (ExpireOldTxs p wall it m).2
| reach_Load m utxoSet tipHeight data :
    reachable m → reachable (LoadFromBytes p wall utxoSet tipHeight data m).2.

Section load.
Hypothesis max_u32 : is_u32 (p_MaxMempoolSize p).

#[local] Instance keeps_preorder : PreOrder (keeps_ok p).
Proof. apply keeps_ok_preorder. Qed.

Lemma AddTx_keeps u t tx : steps (keeps_ok p) (AddTx p wall u t tx).
Proof using max_u32.
  intros m Hm. pose proof (AddTx_spec p wall m u t tx max_u32 Hm) as Hs. cbv zeta in Hs.
  destruct (AddTx p wall u t tx m) as [r m']. apply Hs.
Qed.
#[local] Hint Resolve AddTx_keeps : steps.

Lemma time_Now_keeps : steps (keeps_ok p) (time_Now wall).
Proof using. intros m Hm. by apply tick_ok. Qed.
#[local] Hint Resolve time_Now_keeps : steps.

Lemma set_addedAt_keeps h t : steps (keeps_ok p) (modify (set_addedAt h t)).
Proof using. intros m Hm. by apply set_addedAt_ok. Qed.
#[local] Hint Resolve set_addedAt_keeps : steps.

Lemma loadV0_loop_keeps u t n : ∀ data l, steps (keeps_ok p) (loadV0_loop p wall u t n data l).
Proof using max_u32.
  induction n as [|n IH]; intros data l; cbn [loadV0_loop]; steps_walk.
Qed.
Lemma loadV1_loop_keeps u t now n : ∀ data l, steps (keeps_ok p) (loadV1_loop p wall u t now n data l).
Proof using max_u32.
  induction n as [|n IH]; intros data l; cbn [loadV1_loop]; cbv zeta; steps_walk.
Qed.
#[local] Hint Resolve loadV0_loop_keeps loadV1_loop_keeps : steps.

Lemma LoadFromBytes_keeps u t data : steps (keeps_ok p) (LoadFromBytes p wall u t data).
Proof using max_u32. unfold LoadFromBytes, loadV0, loadV1. steps_walk. Qed.

Lemma reachable_ok m : reachable m → mempool_ok p m.
Proof using max_u32.
  induction 1 as [|m u t tx _ IH|m hs _ IH|m _ IH|m it Hit _ IH|m u t data _ IH].
  - apply New_ok.
  - by apply AddTx_keeps.
  - by apply RemoveTxs_ok.
  - unfold EvictLowestFeeRate. case_bool_decide; [done|]. by apply evict_ok.
  - pose proof (ExpireOldTxs_spec p wall it m IH Hit) as Hs. cbv zeta in Hs.
    destruct (ExpireOldTxs p wall it m) as [r m']. apply Hs.
  - by apply LoadFromBytes_keeps.
Qed.
End load.
End reachable.

(** ** The total size *)

Section totals.
Implicit Types m : Mempool.

(** The entries of the pool, in the order the map is traversed. *)
Lemma omap_values {A B} (f : A → option B) (t : gmap Hash A) :
  map_Forall (λ _ a, is_Some (f a)) t →
  omap f (map_to_list t).*2 ≡ₚ (map_to_list (omap f t)).*2.
Proof.
  induction t as [|h a t Hh IH] using map_ind; intros Hall.
  { by rewrite omap_empty, !map_to_list_empty. }
  apply map_Forall_insert in Hall as [[b Hb] Hall]; [|done].
  rewrite (map_to_list_insert t h a Hh), (omap_insert_Some f t h a b Hb).
  rewrite map_to_list_insert by (by rewrite lookup_omap, Hh). cbn. rewrite Hb. by rewrite IH.
Qed.

Lemma entries_perm p m it :
  index_ok p m → it ≡ₚ map_to_list (mp_txs m) →
  with_idx 0 <$> entries m it ≡ₚ (map_to_list (pool m)).*2.
Proof.
  intros Hin Hit.
  assert (He : with_idx 0 <$> entries m it = omap (λ a, with_idx 0 <$> mp_objs m !! a) it.*2).
  { unfold entries. clear Hit. induction it as [|[h a] it IH]; cbn; [done|].
    destruct (mp_objs m !! a); cbn; by rewrite IH. }
  rewrite He, Hit. unfold pool. apply omap_values. intros h a Ha. apply fmap_is_Some. by eapply in_objs.
Qed.

(** The entries of a traversal are those of the pool, each at its hash and once. *)
Lemma entries_lookup p m it e :
  index_ok p m → it ≡ₚ map_to_list (mp_txs m) → e ∈ entries m it → pool m !! te_Hash e = Some (with_idx 0 e).
Proof.
  intros Hin Hit He. assert (Hx : with_idx 0 e ∈ (map_to_list (pool m)).*2).
  { rewrite <-(entries_perm p m it) by done. apply list_elem_of_fmap. eauto. }
  apply list_elem_of_fmap in Hx as ([h x] & Hx & Hh%elem_of_map_to_list). cbn in Hx. subst x.
  assert (Hhash := eo_hash _ _ _ (in_entry _ _ Hin _ _ Hh)). cbn in Hhash. by rewrite Hhash.
Qed.

Lemma entries_NoDup p m it :
  index_ok p m → it ≡ₚ map_to_list (mp_txs m) → NoDup (te_Hash <$> entries m it).
Proof.
  intros Hin Hit. assert (Hh : te_Hash <$> entries m it = te_Hash <$> (with_idx 0 <$> entries m it)).
  { rewrite <-list_fmap_compose. by apply list_fmap_ext. }
  rewrite Hh, (entries_perm p m it), <-list_fmap_compose by done.
  assert (Hk : te_Hash ∘ snd <$> map_to_list (pool m) = (map_to_list (pool m)).*1).
  { apply list_fmap_ext. intros i [h e] Hi%list_elem_of_lookup_2%elem_of_map_to_list. cbn.
    apply (eo_hash _ _ _ (in_entry _ _ Hin _ _ Hi)). }
  rewrite Hk. apply NoDup_fst_map_to_list.
Qed.

Lemma pool_bytes_list pl : pool_bytes pl = sumZ te_Size (map_to_list pl).*2.
Proof.
  unfold pool_bytes. rewrite map_fold_foldr. unfold sumZ.
  induction (map_to_list pl) as [|[h e] l IH]; cbn; [done|]. by rewrite IH.
Qed.

Lemma TotalSize_bytes p m it :
  index_ok p m → it ≡ₚ map_to_list (mp_txs m) → TotalSize m it = mp_totalBytes m.
Proof.
  intros Hin Hit. rewrite (in_bytes _ _ Hin), pool_bytes_list.
  rewrite <-(sumZ_perm _ _ _ (entries_perm p m it Hin Hit)), sumZ_fmap.
  unfold TotalSize. change (sumZ (λ x, te_Size (with_idx 0 x)) (entries m it)) with (sumZ te_Size (entries m it)).
  assert (Hgen : ∀ l n, foldl (λ t e, t + te_Size e) n l = n + sumZ te_Size l).
  { unfold sumZ. induction l as [|e l IH]; intros n; cbn; [lia|]. rewrite IH. lia. }
  rewrite Hgen. lia.
Qed.
End totals.

(** ** What every reachable pool satisfies *)

(** C34: No double spends, exact bookkeeping and bounded size: in every pool
    reachable by any sequence of additions, removals, evictions, expiries and
    loads, two transactions that spend a common output are the same one;
    [IsOutpointSpent] answers for exactly the outputs spent in the pool; every
    entry is filed under the hash of its transaction, with its size, fee rate and
    a fee that meets the relay limits; the running byte count is the total size
    of the transactions and stays within 300 MiB, and their number within
    [MaxMempoolSize] (or one). *)
Theorem mempool_invariant `{CryptoLib} p wall m it :
  is_u32 (p_MaxMempoolSize p) → reachable p wall m → it ≡ₚ map_to_list (mp_txs m) →
  (∀ h1 h2 tx1 tx2 k, GetTx m h1 = Some tx1 → GetTx m h2 = Some tx2 →
     k ∈ input_key <$> tx_Inputs tx1 → k ∈ input_key <$> tx_Inputs tx2 → h1 = h2) ∧
  (∀ h i, IsOutpointSpent m h i = true ↔
     ∃ h' tx, GetTx m h' = Some tx ∧ OutpointKey h i ∈ input_key <$> tx_Inputs tx) ∧
  (∀ h e, GetTxEntry m h = Some e → entry_ok p h e) ∧
  TotalSize m it = mp_totalBytes m ∧ mp_totalBytes m ≤ maxMempoolBytes ∧
  Count m ≤ Z.max 1 (p_MaxMempoolSize p).
Proof.
  intros Hmax Hr%reachable_ok Hit; [|done]. destruct Hr as [[Hin Hheap] [Hsz Hb]].
  assert (Hget : ∀ h tx, GetTx m h = Some tx ↔ ∃ e, pool m !! h = Some e ∧ te_Tx e = tx).
  { intros h tx. unfold GetTx, GetTxEntry, pool. rewrite lookup_omap.
    destruct (mp_txs m !! h) as [a|]; cbn; [|naive_solver].
    destruct (mp_objs m !! a) as [e|]; cbn; naive_solver. }
  split_and!.
  - intros h1 h2 tx1 tx2 k (e1 & He1 & <-)%Hget (e2 & He2 & <-)%Hget Hk1 Hk2.
    assert (H1 : mp_spentOutpoints m !! k = Some h1) by (apply (in_spent _ _ Hin); eauto).
    assert (H2 : mp_spentOutpoints m !! k = Some h2) by (apply (in_spent _ _ Hin); eauto).
    congruence.
  - intros h i. unfold IsOutpointSpent. rewrite bool_decide_eq_true. split.
    + intros [h' (e & He & Hk)%(in_spent _ _ Hin)]. exists h', (te_Tx e). split; [|done]. apply Hget. eauto.
    + intros (h' & tx & (e & He & <-)%Hget & Hk). exists h'. apply (in_spent _ _ Hin). eauto.
  - intros h e He. unfold GetTxEntry in He. apply bind_Some in He as (a & Ha & He).
    assert (Hp : pool m !! h = Some (with_idx 0 e)) by (apply pool_lookup; eauto).
    destruct (in_entry _ _ Hin _ _ Hp). by split.
  - by eapply TotalSize_bytes.
  - by rewrite (in_bytes _ _ Hin).
  - unfold Count. by rewrite <-(pool_size p).
Qed.

(** C35: Refinement of admission: on every reachable pool [AddTx] gives the verdict
    of [admit_tx], which only looks at the set of pooled transactions; a refused
    transaction leaves the pool as it was, and an accepted one is added after
    entries were evicted, lowest fee rate first, until its number and its bytes
    fit. *)
Theorem AddTx_refines `{CryptoLib} p wall m utxoSet tipHeight tx :
  is_u32 (p_MaxMempoolSize p) → reachable p wall m →
  let adm := admit_tx p (pool m) utxoSet tipHeight (wall (mp_clock m)) tx in
  (AddTx p wall utxoSet tipHeight tx m).1 = (λ _, HashTransaction tx) <$> adm ∧
  pool (AddTx p wall utxoSet tipHeight tx m).2 =
    match adm with
    | Ok fee => <[HashTransaction tx := new_entry tx fee (wall (S (mp_clock m)))]>
                  (spec_shrink p (tx_size tx) (pool m))
    | _ => pool m
    end.
Proof.
  intros Hmax Hr%reachable_ok; [|done].
  pose proof (AddTx_spec p wall m utxoSet tipHeight tx Hmax Hr) as Hs. cbv zeta in *.
  destruct (AddTx p wall utxoSet tipHeight tx m) as [r m']. by destruct Hs as (? & _ & ?).
Qed.

(** Refinement of removal: removing hashes, evicting and expiring change the
    pool exactly as their names say: the named transactions go; the entry with
    the lowest fee rate (then the lowest hash) goes; the entries older than the
    expiry go, and their number is returned. *)
Theorem removal_refines `{CryptoLib} p wall m hashes it :
  is_u32 (p_MaxMempoolSize p) → reachable p wall m → it ≡ₚ map_to_list (mp_txs m) →
  pool (RemoveTxs hashes m) = foldl (λ pl h, delete h pl) (pool m) hashes ∧
  (EvictLowestFeeRate m).1 = negb (bool_decide (pool m = ∅)) ∧
  pool (EvictLowestFeeRate m).2 = spec_evict (pool m) ∧
  (∀ e, lowest (pool m) = Some e → ∀ h e', pool m !! h = Some e' → feeHeap_before e' e = false) ∧
  let kept := if p_MempoolExpiry p <=? 0 then pool m
              else filter (λ he, ¬ old_entry (wall (mp_clock m) - p_MempoolExpiry p) he.2) (pool m) in
  (ExpireOldTxs p wall it m).1 = Ok (Z.of_nat (size (pool m) - size kept)) ∧
  pool (ExpireOldTxs p wall it m).2 = kept.
Proof.
  intros Hmax Hr%reachable_ok Hit; [|done]. assert (Hin := proj1 (proj1 Hr)). split_and!.
  - by apply (RemoveTxs_ok p).
  - unfold EvictLowestFeeRate. assert (He := pool_empty p m Hin).
    destruct (bool_decide_reflect (mp_txs m = ∅)), (bool_decide_reflect (pool m = ∅)); naive_solver.
  - unfold EvictLowestFeeRate. destruct (bool_decide_reflect (mp_txs m = ∅)) as [Ht|_].
    + apply (pool_empty p m Hin) in Ht. cbn. by rewrite Ht.
    + by apply (evict_ok p).
  - intros e He h e' He'.
    assert (Hwf : Forall (λ e, wf_hash (te_Hash e)) (map_to_list (pool m)).*2).
    { apply Forall_forall. intros x ([h' ?] & -> & Hx%elem_of_map_to_list)%list_elem_of_fmap.
      by eapply entry_ok_hash, in_entry. }
    pose proof (lowest_list_spec _ Hwf) as Hl. unfold lowest in He. rewrite He in Hl.
    assert (Hel : e' ∈ (map_to_list (pool m)).*2).
    { apply list_elem_of_fmap. exists (h, e'). split; [done|]. by apply elem_of_map_to_list. }
    rewrite Forall_forall in Hwf. rewrite feeHeap_before_key; [by apply Hl|by apply Hwf|apply Hwf, Hl].
  - pose proof (ExpireOldTxs_spec p wall it m Hr Hit) as Hs. cbv zeta in Hs.
    destruct (ExpireOldTxs p wall it m) as [r m']. by destruct Hs as (? & _ & ?).
Qed.

(** ** Block templates *)

(** [hashLess] compares 32 bytes whatever the lengths are, so the order of the
    templates is total and transitive on all entries. *)
Definition hash_key (h : Hash) : Z := le_decode ((λ i, nth i h x00) <$> seq 0 HashSize).

Lemma hashLess_key a b : hashLess a b = (hash_key a <? hash_key b).
Proof.
  set (pad := λ h : Hash, (λ i, nth i h x00) <$> seq 0 HashSize : Hash).
  assert (Hwf : ∀ h, wf_hash (pad h)) by (intros h; unfold wf_hash, pad; by rewrite length_fmap, length_seq).
  assert (Hpad : ∀ h i, (i < HashSize)%nat → byte_at (pad h) i = byte_at h i).
  { intros h i Hi. unfold byte_at. f_equal. apply nth_lookup_Some.
    unfold pad. rewrite list_lookup_fmap, lookup_seq_lt by done. done. }
  transitivity (Hash_Less (pad a) (pad b)); [|by apply Hash_Less_lt].
  unfold hashLess, Hash_Less. assert (Hle : (HashSize ≤ HashSize)%nat) by done. revert Hle.
  generalize HashSize at 1 3 4 as n. induction n as [|n IH]; intros Hn; cbn [Hash_Less_loop]; [done|].
  rewrite !Hpad, IH by lia. done.
Qed.

Definition template_key (e : TxEntry) : Z * Z := (- te_FeeRate e, hash_key (te_Hash e)).

Lemma template_before_key a b : template_before a b = key_lt (template_key a) (template_key b).
Proof.
  unfold template_before, key_lt. rewrite hashLess_key. cbn [template_key fst snd].
  destruct (Z.eqb_spec (te_FeeRate a) (te_FeeRate b)) as [->|?]; cbn [negb].
  - by rewrite Z.ltb_irrefl, Z.eqb_refl.
  - rewrite (proj2 (Z.eqb_neq (- te_FeeRate a) _)) by lia. lia.
Qed.

#[export] Instance template_le_total : Total template_le.
Proof. intros a b. unfold template_le. rewrite !template_before_key. unfold key_lt. lia. Qed.
#[export] Instance template_le_trans : Transitive template_le.
Proof. intros a b c. unfold template_le. rewrite !template_before_key. unfold key_lt. lia. Qed.

Lemma hash_key_wf h : wf_hash h → hash_key h = le_decode h.
Proof.
  intros Hh. unfold hash_key. f_equal. apply list_eq. intros i. rewrite list_lookup_fmap.
  destruct (decide (i < HashSize)%nat) as [Hi|Hi].
  - destruct (lookup_lt_is_Some_2 h i) as [b Hb]; [by rewrite Hh|].
    rewrite lookup_seq_lt, Hb by done. cbn. f_equal. by apply nth_lookup_Some.
  - rewrite lookup_seq_ge by lia. symmetry. apply lookup_ge_None. rewrite Hh. lia.
Qed.

(** The sum is that of the entries taken, and all are taken unless it overflows. *)
Lemma template_loop_spec t es :
  is_u64 t → Forall (λ e, is_u64 (te_Fee e)) es →
  let '(taken, total) := template_loop t es in
  taken `prefix_of` es ∧ total = t + sumZ te_Fee taken ∧ total < 2 ^ 64 ∧
  (t + sumZ te_Fee es < 2 ^ 64 → taken = es).
Proof.
  revert t. induction es as [|e es IH]; intros t Ht He; cbn [template_loop].
  { split_and!; [done| |apply Ht|done]. cbn. lia. }
  apply Forall_cons in He as [He Hes]. rewrite u64_add_overflow by done.
  assert (Hnn : 0 ≤ sumZ te_Fee es).
  { apply sumZ_nonneg. eapply Forall_impl; [exact Hes|]. by intros ? []. }
  destruct (Z.leb_spec (2 ^ 64) (t + te_Fee e)).
  - split_and!; [apply prefix_nil|cbn; lia|apply Ht|]. cbn [sumZ foldr]. fold (sumZ te_Fee es). lia.
  - assert (Hid : u64 (t + te_Fee e) = t + te_Fee e) by (apply u64_id; unfold is_u64 in *; lia).
    rewrite Hid. specialize (IH (t + te_Fee e) ltac:(unfold is_u64 in *; lia) Hes).
    destruct (template_loop (t + te_Fee e) es) as [taken total].
    destruct IH as (Hpre & Htot & Hlt & Hall). split_and!; [by apply prefix_cons| |done|].
    + cbn [sumZ foldr]. fold (sumZ te_Fee taken). lia.
    + cbn [sumZ foldr]. fold (sumZ te_Fee es). intros. f_equal. apply Hall. lia.
Qed.

Section template.
Context `{CryptoLib} (p : ChainParams).
Implicit Types m : Mempool.

Lemma entries_pool m it e :
  index_ok p m → it ≡ₚ map_to_list (mp_txs m) → e ∈ GetAllEntries m it →
  ∃ h, GetTxEntry m h = Some e ∧ entry_ok p h (with_idx 0 e).
Proof.
  intros Hin Hit. unfold GetAllEntries. rewrite merge_sort_Permutation. unfold entries.
  rewrite list_elem_of_omap. intros ([h a] & Hx & He).
  rewrite Hit, elem_of_map_to_list in Hx. exists h. unfold GetTxEntry. rewrite Hx. cbn in *. split; [done|].
  apply (in_entry _ _ Hin), pool_lookup. eauto.
Qed.

(** Two entries of the pool at the same place of the order are the same. *)
Lemma template_antisymm m ha hb a b :
  GetTxEntry m ha = Some a → GetTxEntry m hb = Some b →
  entry_ok p ha (with_idx 0 a) → entry_ok p hb (with_idx 0 b) → template_le a b → template_le b a → a = b.
Proof.
  intros Hga Hgb Hoa Hob Hab Hba.
  assert (Hwa : wf_hash (te_Hash a)) by apply (entry_ok_hash p _ (with_idx 0 a) Hoa).
  assert (Hwb : wf_hash (te_Hash b)) by apply (entry_ok_hash p _ (with_idx 0 b) Hob).
  assert (Hk : hash_key (te_Hash a) = hash_key (te_Hash b)).
  { revert Hab Hba. unfold template_le. rewrite !template_before_key. unfold key_lt. cbn. lia. }
  rewrite !hash_key_wf in Hk by done. apply le_decode_inj in Hk; [|by rewrite Hwa, Hwb].
  assert (ha = hb) by (by rewrite <-(eo_hash _ _ _ Hoa), <-(eo_hash _ _ _ Hob)). congruence.
Qed.

(** The sorted list does not depend on the order of traversal. *)
Lemma GetAllEntries_unique m it it' :
  index_ok p m → it ≡ₚ map_to_list (mp_txs m) → it' ≡ₚ map_to_list (mp_txs m) →
  GetAllEntries m it' = GetAllEntries m it.
Proof.
  intros Hin Hit Hit'.
  apply (StronglySorted_unique_strong template_le); [|apply (StronglySorted_merge_sort _)..|].
  - intros a b (ha & Hga & Hoa)%entries_pool (hb & Hgb & Hob)%entries_pool; [|done..].
    by eapply template_antisymm.
  - unfold GetAllEntries. rewrite !merge_sort_Permutation. unfold entries. by rewrite Hit, Hit'.
Qed.

Lemma sorted_rates l l' :
  l `prefix_of` l' → StronglySorted template_le l' → StronglySorted (λ a b, te_FeeRate b ≤ te_FeeRate a) l.
Proof.
  intros [rest ->] Hs%StronglySorted_app_1_l. induction Hs as [|a l _ IH Ha]; constructor; [done|].
  eapply Forall_impl; [exact Ha|]. intros b. unfold template_le. rewrite template_before_key.
  unfold key_lt. cbn. lia.
Qed.
End template.

(** What a template takes of a reachable pool. *)
Lemma BlockTemplate_spec `{CryptoLib} p m it :
  index_ok p m → it ≡ₚ map_to_list (mp_txs m) →
  ∃ taken, bt_Transactions (BlockTemplate m it) = te_Tx <$> taken ∧
    bt_Entries (BlockTemplate m it) = (λ e, (te_Tx e, te_Hash e, te_Fee e, te_Size e)) <$> taken ∧
    bt_TotalFees (BlockTemplate m it) = sumZ te_Fee taken ∧ bt_TotalFees (BlockTemplate m it) < 2 ^ 64 ∧
    taken `prefix_of` GetAllEntries m it ∧ (sumZ te_Fee (GetAllEntries m it) < 2 ^ 64 → taken = GetAllEntries m it).
Proof.
  intros Hin Hit.
  assert (Hfee : Forall (λ e, is_u64 (te_Fee e)) (GetAllEntries m it)).
  { apply Forall_forall. intros e (h & _ & Heo)%(entries_pool p); [|done..]. apply (eo_fee _ _ _ Heo). }
  unfold BlockTemplate. pose proof (template_loop_spec 0 (GetAllEntries m it) ltac:(done) Hfee) as Hspec.
  destruct (template_loop 0 (GetAllEntries m it)) as [taken total].
  destruct Hspec as (Hpre & Htot & Hlt & Hall). exists taken. cbn [bt_Transactions bt_Entries bt_TotalFees].
  split_and!; [done|done|lia|done|done|done].
Qed.

(** Block templates: the entries a template takes are in order of decreasing fee
    rate, the total is exactly the sum of their fees, below 2^64, and no entry is
    left out unless the sum overflows; the template does not depend on the order
    in which the map of the pool is traversed. *)
Theorem BlockTemplate_correct `{CryptoLib} p wall m it it' :
  is_u32 (p_MaxMempoolSize p) → reachable p wall m →
  it ≡ₚ map_to_list (mp_txs m) → it' ≡ₚ map_to_list (mp_txs m) →
  BlockTemplate m it' = BlockTemplate m it ∧
  ∃ taken, bt_Transactions (BlockTemplate m it) = te_Tx <$> taken ∧
    bt_Entries (BlockTemplate m it) = (λ e, (te_Tx e, te_Hash e, te_Fee e, te_Size e)) <$> taken ∧
    bt_TotalFees (BlockTemplate m it) = sumZ te_Fee taken ∧ bt_TotalFees (BlockTemplate m it) < 2 ^ 64 ∧
    StronglySorted (λ a b, te_FeeRate b ≤ te_FeeRate a) taken ∧
    (∀ e, e ∈ taken → ∃ h, GetTxEntry m h = Some e) ∧
    (sumZ te_Fee (map_to_list (pool m)).*2 < 2 ^ 64 → with_idx 0 <$> taken ≡ₚ (map_to_list (pool m)).*2).
Proof.
  intros Hmax Hr%reachable_ok Hit Hit'; [|done]. assert (Hin := proj1 (proj1 Hr)).
  assert (Hperm : with_idx 0 <$> GetAllEntries m it ≡ₚ (map_to_list (pool m)).*2).
  { unfold GetAllEntries. rewrite merge_sort_Permutation. by apply (entries_perm p). }
  split; [unfold BlockTemplate; by rewrite (GetAllEntries_unique p m it it')|].
  destruct (BlockTemplate_spec p m it Hin Hit) as (taken & Htx & Hent & Htot & Hlt & Hpre & Hall).
  exists taken. split_and!; [done|done|done|done| | |].
  - eapply sorted_rates; [exact Hpre|apply (StronglySorted_merge_sort _)].
  - intros e He. destruct Hpre as [rest Hrest].
    destruct (entries_pool p m it e Hin Hit) as (h & ? & _); [|by eexists].
    rewrite Hrest. apply elem_of_app. by left.
  - intros Hs. rewrite Hall; [done|]. by rewrite <-(sumZ_perm _ _ _ Hperm), sumZ_fmap in Hs.
Qed.

(** ** Saving and loading *)

Lemma pool_bytes_union pl1 pl2 :
  pl1 ##ₘ pl2 → pool_bytes (pl1 ∪ pl2) = pool_bytes pl1 + pool_bytes pl2.
Proof.
  induction pl1 as [|h e pl1 Hh IH] using map_ind; intros Hd.
  { rewrite (left_id_L ∅ (∪)). assert (E : pool_bytes ∅ = 0) by done. rewrite E. lia. }
  apply map_disjoint_insert_l in Hd as [Hh2 Hd]. rewrite <-insert_union_l.
  rewrite !pool_bytes_insert, IH by (try apply lookup_union_None; done). lia.
Qed.

Lemma pool_bytes_nonneg pl : map_Forall (λ _ e, 0 ≤ te_Size e) pl → 0 ≤ pool_bytes pl.
Proof.
  induction pl as [|h e pl Hh IH] using map_ind; intros Hall; [by rewrite pool_bytes_list|].
  apply map_Forall_insert in Hall as [? ?]; [|done]. rewrite pool_bytes_insert by done.
  specialize (IH ltac:(done)). lia.
Qed.

Lemma pool_bytes_mono pl1 pl2 :
  pl1 ⊆ pl2 → map_Forall (λ _ e, 0 ≤ te_Size e) pl2 → pool_bytes pl1 ≤ pool_bytes pl2.
Proof.
  intros Hsub Hall. rewrite <-(map_difference_union pl1 pl2 Hsub).
  rewrite pool_bytes_union by (by apply map_disjoint_difference_r1).
  assert (0 ≤ pool_bytes (pl2 ∖ pl1)); [|lia]. apply pool_bytes_nonneg.
  intros h e [He _]%lookup_difference_Some. by eapply Hall.
Qed.

(** A saved entry comes back with its time rounded down to the second. *)
Definition saved (e : TxEntry) : TxEntry := with_addedAt (te_AddedAt e / 1000000000 * 1000000000) e.

Lemma saved_time t :
  0 ≤ t < 2 ^ 63 →
  time_Unix (i64 (le_decode (le_encode 8 (u64 (Time_Unix t))))) = t / 1000000000 * 1000000000.
Proof.
  intros Ht. assert (Hd : 0 ≤ t / 1000000000 < 2 ^ 34).
  { split; [apply Z.div_pos; lia|]. apply Z.div_lt_upper_bound; lia. }
  unfold Time_Unix. rewrite (i64_id (t / 1000000000)) by (unfold is_i64; lia).
  rewrite u64_id by (unfold is_u64; lia).
  rewrite le_decode_encode_id by (change (256 ^ Z.of_nat 8) with (2 ^ 64); lia).
  unfold time_Unix, unixToInternal. rewrite (i64_id (t / 1000000000)) by (unfold is_i64; lia).
  rewrite i64_id by (unfold is_i64; lia). lia.
Qed.

Section load.
Context `{CryptoLib} (p : ChainParams) (wall : nat → Z) (utxoSet : UtxoSet) (tipHeight : Z).
Implicit Types (m : Mempool) (pl : gmap Hash TxEntry).

(** A transaction that spends confirmed outputs only gets no supplement. *)
Lemma confirmed_no_supplement pl tx now fee :
  ValidateSingleTransaction tx utxoSet tipHeight p None now = Ok fee →
  foldl (spec_supplement pl utxoSet) None (tx_Inputs tx) = None.
Proof.
  unfold ValidateSingleTransaction. intros Hv. res_inv.
  match goal with H : foldiM _ _ _ = Ok _ |- _ => rename H into Hf end.
  apply (foldiM_inv (λ don _, foldl (spec_supplement pl utxoSet) None don = None)) in Hf; [done|done|].
  intros don i rest s1 s2 _ Hdon Hstep. rewrite foldl_app, Hdon. cbn [foldl].
  unfold validate_single_input in Hstep. res_inv.
  destruct (utxoSet !! outpoint_key (in_PreviousOutPoint i)) as [u|] eqn:Hu; [|done].
  unfold spec_supplement, Set_Has, Set_Get. cbv zeta. unfold outpoint_key in Hu. by rewrite Hu.
Qed.

(** The entries [PL] of a pool that can be loaded again. *)
Record loadable (PL : gmap Hash TxEntry) : Prop := {
  ld_entry : map_Forall (entry_ok p) PL;
  ld_spent : ∀ h1 h2 e1 e2 k, PL !! h1 = Some e1 → PL !! h2 = Some e2 →
    k ∈ entry_inputs e1 → k ∈ entry_inputs e2 → h1 = h2;
  ld_valid : ∀ h e n, PL !! h = Some e →
    ValidateSingleTransaction (te_Tx e) utxoSet tipHeight p None (wall n / 1000000000) = Ok (te_Fee e);
  ld_wf : map_Forall (λ _ e, wf_tx (te_Tx e) ∧ 0 ≤ te_AddedAt e < 2 ^ 63) PL;
  ld_size : Z.of_nat (size PL) ≤ p_MaxMempoolSize p;
  ld_bytes : pool_bytes PL ≤ maxMempoolBytes
}.

Section loop.
Context (PL : gmap Hash TxEntry) (Hld : loadable PL) (Hmax : is_u32 (p_MaxMempoolSize p)).

Lemma saved_sizes : map_Forall (λ _ e, 0 ≤ te_Size e) (saved <$> PL).
Proof using Hld.
  intros h e. rewrite lookup_fmap, fmap_Some. intros (e' & He' & ->). cbn.
  rewrite (eo_size _ _ _ (ld_entry _ Hld _ _ He')). destruct (tx_size_eq (te_Tx e')). lia.
Qed.

Lemma saved_bytes : pool_bytes (saved <$> PL) = pool_bytes PL.
Proof using.
  clear. rewrite !pool_bytes_list, map_to_list_fmap.
  rewrite <-list_fmap_compose, !sumZ_fmap. done.
Qed.

(** No eviction while the pool stays within [PL]. *)
Lemma shrink_within pl h e :
  pl ⊆ saved <$> PL → PL !! h = Some e → pl !! h = None → spec_shrink p (te_Size e) pl = pl.
Proof using Hld.
  intros Hsub He Hh.
  assert (Hsub' : <[h := saved e]> pl ⊆ saved <$> PL).
  { apply insert_subseteq_l; [|done]. by rewrite lookup_fmap, He. }
  assert (Hsz := map_subseteq_size _ _ Hsub'). rewrite map_size_insert_None, map_size_fmap in Hsz by done.
  assert (Hb := pool_bytes_mono _ _ Hsub' saved_sizes). rewrite saved_bytes, pool_bytes_insert in Hb by done.
  pose proof (ld_size _ Hld). pose proof (ld_bytes _ Hld). cbn in Hb.
  assert (Hstop : ∀ cond n, cond pl = false → spec_while cond n pl = pl).
  { intros cond [|n] Hc; cbn; [done|]. by rewrite Hc. }
  unfold spec_shrink. rewrite Hstop by lia. apply Hstop. lia.
Qed.

(** An entry of [PL] is admitted to a pool within [PL] that does not have it. *)
Lemma admit_within pl h e n :
  pl ⊆ saved <$> PL → PL !! h = Some e → pl !! h = None →
  admit_tx p pl utxoSet tipHeight (wall n) (te_Tx e) = Ok (te_Fee e).
Proof using Hld.
  intros Hsub He Hh. destruct (ld_entry _ Hld _ _ He) as [Hhash Htx Hcb Hin Hout Hd Hsz Hr Hf Hrel].
  unfold admit_tx. rewrite Hcb, <-Htx, Hh, (confirmed_no_supplement pl _ _ _ (ld_valid _ Hld _ _ n He)).
  rewrite (proj2 (Z.eqb_neq (len (tx_Inputs (te_Tx e))) 0)) by (destruct (tx_Inputs (te_Tx e)); [done|cbn; lia]).
  rewrite (proj2 (Z.eqb_neq (len (tx_Outputs (te_Tx e))) 0)) by (destruct (tx_Outputs (te_Tx e)); [done|cbn; lia]).
  rewrite bool_decide_false by (by intros []). cbn [fail_if mbind res_bind].
  assert (Hno : existsb (λ i, spent_in pl (input_key i)) (tx_Inputs (te_Tx e)) = false).
  { apply not_true_iff_false. rewrite existsb_exists. intros (i & Hi & Hs).
    unfold spent_in in Hs. rewrite existsb_exists in Hs. destruct Hs as (e' & He' & Hk%bool_decide_eq_true).
    apply list_elem_of_In, list_elem_of_fmap in He' as ([h' ?] & -> & Hx%elem_of_map_to_list).
    assert (Hpl := Hx). eapply lookup_weaken in Hx; [|exact Hsub].
    rewrite lookup_fmap, fmap_Some in Hx. destruct Hx as (e0 & He0 & ->).
    assert (h' = h).
    { eapply (ld_spent _ Hld); [done..|exact Hk|]. unfold entry_inputs. apply list_elem_of_fmap.
      exists i. split; [done|]. by apply list_elem_of_In. }
    congruence. }
  rewrite Hno, (ld_valid _ Hld _ _ n He). cbn [fail_if mbind res_bind wrap].
  by rewrite <-Hsz, Hrel.
Qed.

Definition add_saved pl (e : TxEntry) : gmap Hash TxEntry := <[te_Hash e := saved (with_idx 0 e)]> pl.

(** The entries not loaded yet: they are in [PL] and not in the pool. *)
Definition pending pl (es : list TxEntry) : Prop :=
  NoDup (te_Hash <$> es) ∧
  Forall (λ e, PL !! te_Hash e = Some (with_idx 0 e) ∧ pl !! te_Hash e = None) es.

Definition not_expired (now : Z) (e : TxEntry) : Prop :=
  0 < p_MempoolExpiry p → now - te_AddedAt (saved e) ≤ p_MempoolExpiry p < 2 ^ 63 - 1.

(** Loading one entry. *)
Lemma AddTx_saved m e :
  mempool_ok p m → pool m ⊆ saved <$> PL → PL !! te_Hash e = Some (with_idx 0 e) → pool m !! te_Hash e = None →
  ∃ m', (txHash ← AddTx p wall utxoSet tipHeight (te_Tx e);
         _ ← modify (set_addedAt txHash (te_AddedAt (saved e))); mret true) m = (Ok true, m') ∧
    mempool_ok p m' ∧ pool m' = add_saved (pool m) e.
Proof using Hld Hmax.
  intros Hok Hsub He Hno.
  pose proof (AddTx_spec p wall m utxoSet tipHeight (te_Tx e) Hmax Hok) as Hs. cbv zeta in Hs.
  assert (Heo := ld_entry _ Hld _ _ He). assert (Htx : HashTransaction (te_Tx e) = te_Hash e).
  { symmetry. apply (eo_tx _ _ _ Heo). }
  assert (Hadm := admit_within (pool m) (te_Hash e) (with_idx 0 e) (mp_clock m) Hsub He Hno).
  cbn [with_idx te_Tx te_Fee] in Hadm. rewrite Hadm in Hs.
  proc_step. destruct (AddTx p wall utxoSet tipHeight (te_Tx e) m) as [r m1].
  destruct Hs as (-> & Hok1 & Hp1). cbn [fmap res_fmap]. proc_step.
  destruct (set_addedAt_ok p (HashTransaction (te_Tx e)) (te_AddedAt (saved e)) m1 Hok1) as [Hok2 Hp2].
  eexists. split; [done|]. split; [done|]. rewrite Hp2, Hp1, Htx. cbn [with_idx te_Fee].
  assert (Hsz := eo_size _ _ _ Heo). cbn in Hsz. rewrite <-Hsz.
  rewrite (shrink_within (pool m) (te_Hash e) (with_idx 0 e) Hsub He Hno : spec_shrink p (te_Size e) (pool m) = _).
  unfold add_saved. apply map_eq. intros h. destruct (decide (te_Hash e = h)) as [<-|Hne].
  - rewrite lookup_alter_eq, !lookup_insert_eq. cbn. f_equal. unfold saved, with_addedAt, new_entry. cbn.
    assert (Hr := eo_rate _ _ _ Heo). cbn in Hr. by rewrite Hr, Hsz, Htx.
  - by rewrite lookup_alter_ne, !lookup_insert_ne.
Qed.

Lemma loadV1_loop_pending now n es m loaded :
  mempool_ok p m → pool m ⊆ saved <$> PL → pending (pool m) es → (length es ≤ n)%nat →
  Forall (not_expired now) es →
  ∃ m', loadV1_loop p wall utxoSet tipHeight now n (mjoin (dump_entry <$> es)) loaded m =
          (Ok (loaded + len es), m') ∧ pool m' = foldl add_saved (pool m) es.
Proof using Hld Hmax.
  revert es m loaded. induction n as [|n IH]; intros es m loaded Hok Hsub [Hnd Hpend] Hn Hexp.
  { assert (es = []) as -> by (destruct es; [done|cbn in Hn; lia]). exists m. cbn. by rewrite Z.add_0_r. }
  destruct es as [|e es]; [exists m; cbn; by rewrite Z.add_0_r|].
  cbn [fmap list_fmap] in Hnd. apply NoDup_cons in Hnd as [Hni Hnd].
  apply Forall_cons in Hpend as [[He Hno] Hpend]. apply Forall_cons in Hexp as [Hx Hexp].
  destruct (ld_wf _ Hld _ _ He) as [Hwf Ht]. cbn [with_idx te_Tx te_AddedAt] in Hwf, Ht.
  cbn [fmap list_fmap mjoin list_join]. unfold dump_entry at 1. rewrite <-!app_assoc.
  set (rest := mjoin (dump_entry <$> es)). set (txb := Transaction_SerializeToBytes (te_Tx e)).
  cbn [loadV1_loop]. rewrite (proj2 (Z.ltb_ge _ _)) by (rewrite length_app, le_encode_length; lia).
  rewrite take_app_length', drop_app_length' by (by rewrite le_encode_length). rewrite saved_time by done.
  assert (Hdec : Transaction_Deserialize (txb ++ rest) = Ok (te_Tx e, rest)) by (by apply Transaction_decodes).
  assert (Hne : ∃ b l, txb ++ rest = b :: l).
  { destruct (txb ++ rest) as [|b l] eqn:E; [|eauto].
    exfalso. apply app_eq_nil in E as [E _]. unfold txb, Transaction_SerializeToBytes, Transaction_Serialize in E.
    apply (f_equal length) in E. rewrite length_app, le_encode_length in E. cbn in E. lia. }
  destruct Hne as (b & l & Heq). rewrite Heq in Hdec |- *. rewrite Hdec.
  assert (Hno_exp : (0 <? p_MempoolExpiry p) && (p_MempoolExpiry p <? Time_Sub now (te_AddedAt e / 1000000000 * 1000000000)) = false).
  { destruct (Z.ltb_spec 0 (p_MempoolExpiry p)) as [Hpos|]; [|done]. cbn [andb]. apply Z.ltb_ge.
    specialize (Hx Hpos). cbn in Hx. unfold Time_Sub. lia. }
  rewrite Hno_exp.
  destruct (AddTx_saved m e Hok Hsub He Hno) as (m1 & H1 & Hok1 & Hp1).
  proc_step. unfold catch. cbn [saved with_addedAt te_AddedAt] in H1. rewrite H1. cbv beta iota.
  destruct (IH es m1 (loaded + 1)) as (m2 & H2 & Hp2); [done| | |cbn in Hn; lia|done|].
  - rewrite Hp1. apply insert_subseteq_l; [|done]. by rewrite lookup_fmap, He.
  - split; [done|]. rewrite Forall_forall in Hpend |- *. intros e' He'. destruct (Hpend e' He') as [? ?].
    split; [done|]. rewrite Hp1. unfold add_saved. rewrite lookup_insert_ne; [done|].
    intros Heq'. apply Hni. rewrite Heq'. apply list_elem_of_fmap. eauto.
  - exists m2. split; [etrans; [exact H2|]; do 2 f_equal; cbn; lia|]. by rewrite Hp2, Hp1.
Qed.
End loop.
End load.

Lemma foldl_add_saved_ne es pl h : h ∉ te_Hash <$> es → foldl add_saved pl es !! h = pl !! h.
Proof.
  revert pl. induction es as [|e es IH]; intros pl; cbn; [done|].
  intros [Hne Hni]%not_elem_of_cons. rewrite IH by done. by apply lookup_insert_ne.
Qed.

Lemma foldl_add_saved es pl e :
  NoDup (te_Hash <$> es) → e ∈ es → foldl add_saved pl es !! te_Hash e = Some (saved (with_idx 0 e)).
Proof.
  revert pl. induction es as [|e' es IH]; intros pl; cbn; [by intros _ ?%not_elem_of_nil|].
  intros [Hni Hnd]%NoDup_cons [-> | He]%elem_of_cons; [|by apply IH].
  rewrite foldl_add_saved_ne by done. apply lookup_insert_eq.
Qed.

(** All entries of a pool are pending for an empty one. *)
Lemma entries_pending `{CryptoLib} p m it :
  index_ok p m → it ≡ₚ map_to_list (mp_txs m) →
  pending (pool m) ∅ (entries m it) ∧ foldl add_saved ∅ (entries m it) = saved <$> pool m.
Proof.
  intros Hin Hit. assert (Hperm := entries_perm p m it Hin Hit).
  assert (Hmem := λ e, entries_lookup p m it e Hin Hit). assert (Hnd := entries_NoDup p m it Hin Hit).
  split; [split; [done|]|].
  - apply Forall_forall. intros e He. split; [by apply Hmem|apply lookup_empty].
  - apply map_eq. intros h. rewrite lookup_fmap.
    destruct (decide (h ∈ te_Hash <$> entries m it)) as [(e & -> & He)%list_elem_of_fmap|Hni].
    + by rewrite foldl_add_saved, Hmem.
    + rewrite foldl_add_saved_ne, lookup_empty by done.
      destruct (pool m !! h) as [x|] eqn:Hx; [|done]. exfalso. apply Hni.
      assert (Hel : x ∈ with_idx 0 <$> entries m it).
      { rewrite Hperm. apply list_elem_of_fmap. exists (h, x). split; [done|]. by apply elem_of_map_to_list. }
      apply list_elem_of_fmap in Hel as (e & -> & He). apply list_elem_of_fmap. exists e. split; [|done].
      symmetry. apply (eo_hash _ _ _ (in_entry _ _ Hin _ _ Hx)).
Qed.

Lemma reachable_loadable `{CryptoLib} p wall utxoSet tipHeight m :
  0 < p_MaxMempoolSize p → mempool_ok p m →
  (∀ n, map_Forall (λ _ e, ValidateSingleTransaction (te_Tx e) utxoSet tipHeight p None
                             (wall n / 1000000000) = Ok (te_Fee e)) (pool m)) →
  map_Forall (λ _ e, wf_tx (te_Tx e) ∧ 0 ≤ te_AddedAt e < 2 ^ 63) (pool m) →
  loadable p wall utxoSet tipHeight (pool m).
Proof.
  intros Hpos [[Hin _] [Hsz Hb]] Hval Hwf. split; [exact (in_entry _ _ Hin)| | |done|lia|done].
  - intros h1 h2 e1 e2 k He1 He2 Hk1 Hk2.
    assert (H1 : mp_spentOutpoints m !! k = Some h1) by (apply (in_spent _ _ Hin); eauto).
    assert (H2 : mp_spentOutpoints m !! k = Some h2) by (apply (in_spent _ _ Hin); eauto).
    congruence.
  - intros h e n He. by apply (Hval n h).
Qed.

(** Saving and loading: dumping a pool whose transactions spend confirmed outputs
    only, and loading the dump into an empty pool while they are still valid,
    admits every transaction again; the new pool has the same entries with their
    times rounded down to the second. *)
Theorem DumpToBytes_LoadFromBytes `{CryptoLib} p wall utxoSet tipHeight m it :
  is_u32 (p_MaxMempoolSize p) → 0 < p_MaxMempoolSize p → reachable p wall m →
  it ≡ₚ map_to_list (mp_txs m) →
  (∀ n, map_Forall (λ _ e, ValidateSingleTransaction (te_Tx e) utxoSet tipHeight p None
                             (wall n / 1000000000) = Ok (te_Fee e)) (pool m)) →
  map_Forall (λ _ e, wf_tx (te_Tx e) ∧ 0 ≤ te_AddedAt e < 2 ^ 63) (pool m) →
  Forall (not_expired p (wall 0%nat)) (entries m it) →
  (LoadFromBytes p wall utxoSet tipHeight (DumpToBytes it m) New).1 = Ok (Count m) ∧
  pool (LoadFromBytes p wall utxoSet tipHeight (DumpToBytes it m) New).2 = saved <$> pool m.
Proof.
  intros Hmax Hpos Hr%reachable_ok Hit Hval Hwf Hexp; [|done].
  assert (Hld := reachable_loadable p wall utxoSet tipHeight m Hpos Hr Hval Hwf).
  assert (Hin := proj1 (proj1 Hr)). assert (Hcount : Count m = len (entries m it)).
  { assert (Hperm := entries_perm p m it Hin Hit). unfold Count. rewrite <-(pool_size p m Hin).
    apply Permutation_length in Hperm. rewrite !length_fmap, length_map_to_list in Hperm. by rewrite Hperm. }
  destruct (entries_pending p m it Hin Hit) as [Hpend Hfold]. rewrite Hcount, <-Hfold.
  assert (Hsz := ld_size _ _ _ _ _ Hld). unfold Count in Hcount. rewrite <-(pool_size p m Hin) in Hcount.
  unfold is_u32 in Hmax. unfold DumpToBytes. fold (entries m it).
  destruct (entries m it) as [|e es]; [done|]. cbv iota. set (l := e :: es) in *. clearbody l.
  unfold LoadFromBytes. rewrite bool_decide_true by done. unfold loadV1.
  rewrite ReadVarIntFromBytes_complete by (unfold is_u64; lia).
  destruct (PutVarInt (len l) ++ mjoin (dump_entry <$> l)) as [|b bs] eqn:Hdata.
  { exfalso. apply app_eq_nil in Hdata as [Hnil _]. pose proof (VarIntSize_pos (len l)) as Hvs.
    rewrite VarIntSize_ok, Hnil in Hvs. cbn in Hvs. lia. }
  rewrite <-Hdata, VarIntSize_ok, Nat2Z.id, drop_app_length. rewrite !proc_bind_eq. unfold time_Now. cbn [mp_clock New].
  assert (Hclamp : clamp_count p (len l) = len l).
  { unfold clamp_count. repeat case_match; lia. }
  rewrite Hclamp, Nat2Z.id.
  destruct (loadV1_loop_pending p wall utxoSet tipHeight (pool m) Hld Hmax (wall 0%nat) (length l) l (tick New) 0)
    as (m' & Hload & Hp); [apply tick_ok, New_ok| |done|done|done|].
  { change (pool (tick New)) with (∅ : gmap Hash TxEntry). apply map_empty_subseteq. }
  change (mp_clock New) with 0%nat. rewrite Hload. split; [done|exact Hp].
Qed.

(** ** Witnesses *)

#[local] Existing Instance toy_lib.

(** Two outputs that anyone can spend, and two transactions that spend them
    with fees of 2000 and 3000. *)
Definition mw_set : UtxoSet :=
  <[OutpointKey (replicate 32 x11) 0 := mkUtxoEntry 9000 [x51] 0 false]>
  {[ OutpointKey (replicate 32 x22) 1 := mkUtxoEntry 9000 [x51] 0 false ]}.
Definition mw_tx1 : Transaction :=
  mkTransaction 1 [mkTxInput (mkOutPoint (replicate 32 x11) 0) [] 0xFFFFFFFF] [mkTxOutput 7000 [x51]] 0.
Definition mw_tx2 : Transaction :=
  mkTransaction 1 [mkTxInput (mkOutPoint (replicate 32 x22) 1) [] 0xFFFFFFFF] [mkTxOutput 6000 [x51]] 0.
Definition mw_wall (_ : nat) : Z := 1774175100 * 1000000000.
Definition mw_pool : Mempool :=
  (AddTx Regtest mw_wall mw_set 5 mw_tx2 (AddTx Regtest mw_wall mw_set 5 mw_tx1 New).2).2.
Definition mw_it : list (Hash * nat) := map_to_list (mp_txs mw_pool).

Example mw_count : Count mw_pool = 2.
Proof. vm_compute. reflexivity. Qed.

Lemma mw_reachable : reachable Regtest mw_wall mw_pool.
Proof. do 2 apply reach_AddTx. apply reach_New. Qed.

Lemma mempool_invariant_witness :
  Count mw_pool = 2 ∧ mp_totalBytes mw_pool ≤ maxMempoolBytes ∧ TotalSize mw_pool mw_it = mp_totalBytes mw_pool.
Proof.
  pose proof (mempool_invariant Regtest mw_wall mw_pool mw_it ltac:(by_decide) mw_reachable
                ltac:(reflexivity)) as Hw.
  destruct Hw as (_ & _ & _ & H1 & H2 & _). split; [apply mw_count|]. split; [exact H2|exact H1].
Defined.

Lemma AddTx_refines_witness :
  (AddTx Regtest mw_wall mw_set 5 mw_tx1 mw_pool).1 = Err (Errorf "transaction already in mempool") ∧
  pool (AddTx Regtest mw_wall mw_set 5 mw_tx1 mw_pool).2 = pool mw_pool.
Proof.
  pose proof (AddTx_refines Regtest mw_wall mw_pool mw_set 5 mw_tx1 ltac:(by_decide) mw_reachable) as Hw.
  assert (Hadm : admit_tx Regtest (pool mw_pool) mw_set 5 (mw_wall (mp_clock mw_pool)) mw_tx1 =
                 Err (Errorf "transaction already in mempool")) by by_decide.
  cbv zeta in Hw. rewrite Hadm in Hw. exact Hw.
Defined.

Lemma removal_refines_witness :
  lowest (pool mw_pool) = pool mw_pool !! HashTransaction mw_tx1 ∧
  pool (EvictLowestFeeRate mw_pool).2 = spec_evict (pool mw_pool) ∧
  pool (RemoveTxs [HashTransaction mw_tx2] mw_pool) = delete (HashTransaction mw_tx2) (pool mw_pool).
Proof.
  pose proof (removal_refines Regtest mw_wall mw_pool [HashTransaction mw_tx2] mw_it ltac:(by_decide)
                mw_reachable ltac:(reflexivity)) as Hw.
  destruct Hw as (H1 & _ & H2 & _). split; [vm_compute; reflexivity|]. split; [exact H2|exact H1].
Defined.

Lemma BlockTemplate_correct_witness :
  bt_Transactions (BlockTemplate mw_pool mw_it) = [mw_tx2; mw_tx1] ∧
  bt_TotalFees (BlockTemplate mw_pool mw_it) = 5000 ∧
  BlockTemplate mw_pool (reverse mw_it) = BlockTemplate mw_pool mw_it.
Proof.
  pose proof (BlockTemplate_correct Regtest mw_wall mw_pool mw_it (reverse mw_it) ltac:(by_decide)
                mw_reachable ltac:(reflexivity) (reverse_Permutation mw_it)) as Hw.
  destruct Hw as [H1 _]. split; [vm_compute; reflexivity|]. split; [vm_compute; reflexivity|exact H1].
Defined.

Lemma DumpToBytes_LoadFromBytes_witness :
  (LoadFromBytes Regtest mw_wall mw_set 5 (DumpToBytes mw_it mw_pool) New).1 = Ok 2 ∧
  pool (LoadFromBytes Regtest mw_wall mw_set 5 (DumpToBytes mw_it mw_pool) New).2 = saved <$> pool mw_pool.
Proof.
  rewrite <-mw_count.
  refine (DumpToBytes_LoadFromBytes Regtest mw_wall mw_set 5 mw_pool mw_it _ _ mw_reachable _ _ _ _).
  - by_decide.
  - by_decide.
  - reflexivity.
  - intros n. unfold mw_wall. by_decide.
  - by_decide.
  - unfold not_expired. by_decide.
Defined.
