(* ===== verification/Base58.v ===== *)
(** * internal/crypto/base58.go: addresses and wallet import keys

    Base58 of a byte string, Base58Check with its version byte and checksum, the
    addresses of public key hashes and the wallet import format of private keys.
    Strings are byte strings, [math/big] integers are integers. *)
From S2P Require Import Prelude Types Sha256 Target Keys.

Definition base58Alphabet : list byte :=
  [x31; x32; x33; x34; x35; x36; x37; x38; x39;
   x41; x42; x43; x44; x45; x46; x47; x48; x4a; x4b; x4c; x4d; x4e; x50; x51; x52; x53; x54;
   x55; x56; x57; x58; x59; x5a;
   x61; x62; x63; x64; x65; x66; x67; x68; x69; x6a; x6b; x6d; x6e; x6f; x70; x71; x72; x73;
   x74; x75; x76; x77; x78; x79; x7a].

(** [base58Alphabet[d]]. *)
Definition base58_char (d : Z) : byte := nth (Z.to_nat d) base58Alphabet x00.

(** The digits of [x], the lowest first.  A digit is at most a factor 58, so
    twice as many turns as bytes suffice. *)
Fixpoint base58_digits (fuel : nat) (x : Z) : list byte :=
  match fuel with
  | O => []
  | S fuel' => if 0 <? x then base58_char (x mod 58) :: base58_digits fuel' (x / 58) else []
  end.

(** The elements before the first that is not [c]. *)
Fixpoint leading (c : byte) (b : list byte) : nat :=
  match b with
  | [] => 0
  | x :: b' => if bool_decide (x = c) then S (leading c b') else 0
  end.

Definition Base58Encode (b : list byte) : list byte :=
  let x := be_decode b in
  let result := base58_digits (2 * length b) x in
  let result := result ++ replicate (leading x00 b) (base58_char 0) in
  reverse result.

(** The index of [c] in the alphabet from [i] on, or -1. *)
Fixpoint index_from (i : Z) (l : list byte) (c : byte) : Z :=
  match l with
  | [] => -1
  | a :: l' => if bool_decide (a = c) then i else index_from (i + 1) l' c
  end.
Definition base58AlphabetIndex (c : byte) : Z := index_from 0 base58Alphabet c.

Definition base58_digit (result : Z) (c : byte) : res Z :=
  let idx := base58AlphabetIndex c in
  if idx <? 0 then Err (Errorf "invalid base58 character") else Ok (result * 58 + idx).

Definition Base58Decode (s : list byte) : res (list byte) :=
  result ← foldM base58_digit 0 s;
  Ok (replicate (leading (base58_char 0) s) x00 ++ big_Bytes result).

Definition base58Checksum (payload : list byte) : list byte := take 4 (Sum256 (Sum256 payload)).

Definition Base58CheckEncode (version : byte) (payload : list byte) : list byte :=
  let versioned := version :: payload in
  Base58Encode (versioned ++ base58Checksum versioned).

Definition Base58CheckDecode (address : list byte) : res (byte * list byte) :=
  decoded ← Base58Decode address;
  if len decoded <? 5 then Err (Errorf "base58check: decoded too short") else
  let body := take (length decoded - 4) decoded in
  match body with
  | [] => Panic
  | version :: payload =>
      if bool_decide (base58Checksum body = drop (length decoded - 4) decoded)
      then Ok (version, payload) else Err (Errorf "base58check: invalid checksum")
  end.

Definition PubKeyHashToAddress (pubKeyHash : list byte) (version : byte) : list byte :=
  Base58CheckEncode version pubKeyHash.

Definition AddressToPubKeyHash (address : list byte) : res (byte * list byte) :=
  vp ← Base58CheckDecode address;
  let '(ver, payload) := vp in
  if negb (bool_decide (length payload = PubKeyHashSize)) then Err (Errorf "address payload is not 20 bytes")
  else Ok (ver, payload).

Definition WIFVersionMainnet : byte := x80.
Definition WIFVersionTestnet : byte := xef.

Definition WIFVersionForAddress (addrVersion : byte) : byte :=
  if bool_decide (addrVersion = x00) then WIFVersionMainnet else WIFVersionTestnet.

(** [copy] into 33 zero bytes, the last of which is then the flag. *)
Definition EncodeWIF (privKey : list byte) (addrVersion : byte) : list byte :=
  let wifVersion := if negb (bool_decide (addrVersion = x00)) then WIFVersionTestnet else WIFVersionMainnet in
  let payload := take 33 privKey ++ replicate (33 - length privKey) x00 in
  Base58CheckEncode wifVersion (<[32%nat := x01]> payload).

Definition DecodeWIF (wif : list byte) : res (list byte * bool * byte) :=
  vp ← wrap "invalid WIF" (Base58CheckDecode wif);
  let '(ver, payload) := vp in
  if negb (bool_decide (ver = WIFVersionMainnet)) && negb (bool_decide (ver = WIFVersionTestnet))
  then Err (Errorf "invalid WIF version") else
  if bool_decide (length payload = 33%nat) then
    if negb (bool_decide (payload !! 32%nat = Some x01)) then Err (Errorf "invalid WIF compression flag")
    else Ok (take 32 payload, true, ver)
  else if bool_decide (length payload = 32%nat) then Ok (payload, false, ver)
  else Err (Errorf "invalid WIF payload length").

(** ** The alphabet *)

Lemma index_char d : 0 ≤ d < 58 → base58AlphabetIndex (base58_char d) = d.
Proof.
  intros Hd. assert (Hall : forallb (λ n, base58AlphabetIndex (base58_char (Z.of_nat n)) =? Z.of_nat n) (seq 0 58) = true)
    by (vm_compute; reflexivity).
  rewrite forallb_forall in Hall. specialize (Hall (Z.to_nat d)).
  rewrite Z2Nat.id in Hall by lia. apply Z.eqb_eq, Hall. apply in_seq. lia.
Qed.

Lemma char_index c : 0 ≤ base58AlphabetIndex c → base58AlphabetIndex c < 58 ∧ base58_char (base58AlphabetIndex c) = c.
Proof. destruct c; vm_compute; intros Hc; split; done. Qed.

Lemma base58_digit_Ok r c v :
  base58_digit r c = Ok v ↔ ∃ d, 0 ≤ d < 58 ∧ c = base58_char d ∧ v = r * 58 + d.
Proof.
  unfold base58_digit. split.
  - destruct (Z.ltb_spec (base58AlphabetIndex c) 0) as [|Hc]; [done|]. intros [= <-].
    destruct (char_index c Hc). exists (base58AlphabetIndex c). split_and!; [done|done|done|done].
  - intros (d & Hd & -> & ->). rewrite index_char by done. by rewrite (proj2 (Z.ltb_ge _ _)) by lia.
Qed.

Lemma char_zero d : 0 ≤ d < 58 → base58_char d = base58_char 0 ↔ d = 0.
Proof.
  intros Hd. split; [|by intros ->]. intros Hc. by rewrite <-(index_char d Hd), Hc, index_char.
Qed.

(** ** Digits *)

Lemma base58_digits_value fuel x r :
  0 ≤ x < 58 ^ Z.of_nat fuel →
  foldM base58_digit r (reverse (base58_digits fuel x)) = Ok (r * 58 ^ len (base58_digits fuel x) + x).
Proof.
  revert x. induction fuel as [|fuel IH]; intros x Hx; cbn [base58_digits].
  { cbn. f_equal. change (58 ^ Z.of_nat 0) with 1 in Hx. lia. }
  destruct (Z.ltb_spec 0 x); [|cbn; f_equal; lia].
  rewrite Nat2Z.inj_succ, Z.pow_succ_r in Hx by lia.
  rewrite reverse_cons, foldM_app, IH.
  2:{ split; [apply Z.div_pos; lia|]. apply Z.div_lt_upper_bound; lia. }
  cbn [mbind res_bind foldM].
  rewrite (proj2 (base58_digit_Ok _ _ ((r * 58 ^ len (base58_digits fuel (x / 58)) + x / 58) * 58 + x mod 58))).
  - cbn [mbind res_bind]. f_equal. cbn [length]. rewrite Nat2Z.inj_succ, Z.pow_succ_r by lia.
    pose proof (Z.div_mod x 58). lia.
  - exists (x mod 58). split_and!; [apply Z.mod_pos_bound; lia..|done|done].
Qed.

(** The digits of a number below [58 ^ fuel]: the highest is not zero. *)
Lemma base58_digits_top fuel x :
  0 ≤ x < 58 ^ Z.of_nat fuel →
  base58_digits fuel x = [] ∨ ∃ ds d, 0 < d < 58 ∧ base58_digits fuel x = ds ++ [base58_char d].
Proof.
  revert x. induction fuel as [|fuel IH]; intros x Hx; cbn [base58_digits]; [by left|].
  destruct (Z.ltb_spec 0 x); [|by left]. right.
  rewrite Nat2Z.inj_succ, Z.pow_succ_r in Hx by lia.
  destruct (IH (x / 58)) as [Hnil|(ds & d & Hd & Heq)].
  { split; [apply Z.div_pos; lia|]. apply Z.div_lt_upper_bound; lia. }
  - exists [], (x mod 58). rewrite Hnil. split; [|done].
    assert (x / 58 = 0) as Hz.
    { destruct fuel as [|fuel]; [change (58 ^ Z.of_nat 0) with 1 in Hx; apply Z.div_small; lia|].
      cbn [base58_digits] in Hnil. destruct (Z.ltb_spec 0 (x / 58)); [done|].
      pose proof (Z.div_pos x 58). lia. }
    pose proof (Z.div_mod x 58). pose proof (Z.mod_pos_bound x 58). lia.
  - exists (base58_char (x mod 58) :: ds), d. split; [done|]. by rewrite Heq.
Qed.

(** The value of digits, the lowest first. *)
Definition digits_value (ds : list Z) : Z := foldr (λ d v, d + 58 * v) 0 ds.

Lemma digits_value_nonneg ds : Forall (λ d, 0 ≤ d < 58) ds → 0 ≤ digits_value ds.
Proof. unfold digits_value. induction 1; cbn; lia. Qed.

Lemma last_cons_Some {A} (x y : A) l : last l = Some y → last (x :: l) = Some y.
Proof. intros Hl. by rewrite last_cons, Hl. Qed.

Lemma digits_value_lower ds :
  Forall (λ d, 0 ≤ d < 58) ds → (∀ d, last ds = Some d → 0 < d) → ds ≠ [] →
  58 ^ (len ds - 1) ≤ digits_value ds.
Proof.
  induction 1 as [|d ds Hd Hds IH]; intros Htop Hne; [done|].
  destruct ds as [|d' ds]; [specialize (Htop d eq_refl); cbn; lia|].
  specialize (IH ltac:(intros; by apply Htop, last_cons_Some) ltac:(done)).
  change (digits_value (d :: d' :: ds)) with (d + 58 * digits_value (d' :: ds)).
  replace (len (d :: d' :: ds) - 1) with (Z.succ (len (d' :: ds) - 1)) by (cbn [length]; lia).
  rewrite Z.pow_succ_r by (cbn [length]; lia). lia.
Qed.

(** The digits are determined by the value. *)
Lemma base58_digits_unique fuel ds :
  Forall (λ d, 0 ≤ d < 58) ds → (∀ d, last ds = Some d → 0 < d) → (length ds ≤ fuel)%nat →
  base58_digits fuel (digits_value ds) = base58_char <$> ds.
Proof.
  intros Hds. revert fuel. induction Hds as [|d ds Hd Hds IH]; intros fuel Htop Hf.
  { destruct fuel; done. }
  destruct fuel as [|fuel]; [cbn in Hf; lia|]. cbn [base58_digits fmap list_fmap].
  assert (Hpos : 0 < digits_value (d :: ds)).
  { pose proof (digits_value_lower (d :: ds) ltac:(by constructor) Htop ltac:(done)).
    pose proof (Z.pow_pos_nonneg 58 (len (d :: ds) - 1)). cbn [length] in *. lia. }
  rewrite (proj2 (Z.ltb_lt _ _)) by done.
  change (digits_value (d :: ds)) with (d + 58 * digits_value ds).
  rewrite (Z.mul_comm 58), Z_mod_plus_full, Z.mod_small, Z.div_add, Z.div_small, Z.add_0_l by lia.
  f_equal. apply IH; [|cbn in Hf; lia]. intros x Hx. by apply Htop, last_cons_Some.
Qed.

Lemma decode_digits s v :
  foldM base58_digit 0 s = Ok v →
  ∃ ds, Forall (λ d, 0 ≤ d < 58) ds ∧ s = reverse (base58_char <$> ds) ∧ v = digits_value ds.
Proof.
  revert v. induction s as [|c s IH] using rev_ind; intros v.
  { intros [= <-]. by exists []. }
  rewrite foldM_app. intros (v' & Hs & Hc)%bind_Ok. apply IH in Hs as (ds & Hds & -> & ->).
  apply bind_Ok in Hc as (v'' & (d & Hd & -> & ->)%base58_digit_Ok & [= <-]).
  exists (d :: ds). split_and!; [by constructor|by rewrite fmap_cons, reverse_cons|].
  unfold digits_value. cbn. lia.
Qed.

(** ** Leading zeros *)

Lemma leading_replicate c n b : leading c (replicate n c ++ b) = (n + leading c b)%nat.
Proof. induction n as [|n IH]; cbn; [done|]. by rewrite bool_decide_true, IH. Qed.

Lemma leading_split c b :
  b = replicate (leading c b) c ++ drop (leading c b) b ∧ head (drop (leading c b) b) ≠ Some c.
Proof.
  induction b as [|x b [IH1 IH2]]; cbn; [done|].
  destruct (bool_decide_reflect (x = c)) as [->|Hne]; cbn; [|split; [done|congruence]].
  split; [by rewrite <-IH1|done].
Qed.

Lemma leading_head c b : head b ≠ Some c → leading c b = 0%nat.
Proof. destruct b as [|x b]; cbn; [done|]. intros Hne. rewrite bool_decide_false; [done|congruence]. Qed.

Lemma be_decode_range b : 0 ≤ be_decode b < 256 ^ len b.
Proof. unfold be_decode. rewrite <-(length_reverse b). apply le_decode_range. Qed.

Lemma be_decode_lower b : b ≠ [] → head b ≠ Some x00 → 256 ^ (len b - 1) ≤ be_decode b.
Proof.
  destruct b as [|x b]; [done|]. intros _ Hx. unfold be_decode.
  rewrite reverse_cons, le_decode_app, le_decode_singleton, length_reverse. cbn [length].
  replace (Z.of_nat (S (length b)) - 1) with (len b) by lia.
  assert (byte_to_Z x ≠ 0) by (intros Hz; apply Hx; cbn; f_equal; by apply byte_to_Z_inj).
  pose proof (byte_to_Z_range x). pose proof (le_decode_range (reverse b)).
  pose proof (Z.pow_pos_nonneg 256 (len b)). nia.
Qed.

(** [Bytes] of the integer of a byte string without leading zeros. *)
Lemma big_Bytes_be_decode b : head b ≠ Some x00 → big_Bytes (be_decode b) = b.
Proof.
  intros Hh. destruct (decide (b = [])) as [->|Hne]; [done|].
  pose proof (be_decode_lower b Hne Hh) as Hlo. pose proof (be_decode_range b) as Hr.
  assert (Hl : 1 ≤ len b) by (destruct b; [done|cbn; lia]).
  assert (Hpos : 0 < be_decode b) by (pose proof (Z.pow_pos_nonneg 256 (len b - 1)); lia).
  unfold big_Bytes, BitLen. rewrite (proj2 (Z.eqb_neq _ _)) by lia. rewrite !Z.abs_eq by lia.
  assert (Hlen : (Z.log2 (be_decode b) + 1 + 7) / 8 = len b).
  { assert (8 * (len b - 1) ≤ Z.log2 (be_decode b)).
    { apply Z.log2_le_pow2; [done|]. rewrite Z.pow_mul_r by lia. done. }
    assert (Z.log2 (be_decode b) < 8 * len b).
    { apply Z.log2_lt_pow2; [done|]. rewrite Z.pow_mul_r by lia. apply Hr. }
    symmetry. apply Z.div_unique with (Z.log2 (be_decode b) + 1 + 7 - 8 * len b); lia. }
  rewrite Hlen, Nat2Z.id. unfold be_encode, be_decode.
  rewrite le_encode_decode' by apply length_reverse. apply reverse_involutive.
Qed.

Lemma big_Bytes_spec x : 0 ≤ x → be_decode (big_Bytes x) = x ∧ head (big_Bytes x) ≠ Some x00.
Proof.
  intros Hx. destruct (decide (x = 0)) as [->|Hne]; [done|].
  unfold big_Bytes, BitLen. rewrite (proj2 (Z.eqb_neq _ _)) by lia. rewrite !Z.abs_eq by lia.
  set (n := (Z.log2 x + 1 + 7) / 8).
  pose proof (Z.log2_spec x ltac:(lia)) as [Hlo Hhi]. pose proof (Z.log2_nonneg x).
  assert (Hn : 8 * (n - 1) ≤ Z.log2 x < 8 * n).
  { unfold n. pose proof (Z.div_mod (Z.log2 x + 1 + 7) 8). pose proof (Z.mod_pos_bound (Z.log2 x + 1 + 7) 8). lia. }
  assert (Hr : 256 ^ (n - 1) ≤ x < 256 ^ n).
  { change 256 with (2 ^ 8). rewrite <-!Z.pow_mul_r by lia. split.
    - etrans; [|exact Hlo]. apply Z.pow_le_mono_r; lia.
    - eapply Z.lt_le_trans; [exact Hhi|]. apply Z.pow_le_mono_r; lia. }
  assert (Hdec : be_decode (be_encode (Z.to_nat n) x) = x).
  { rewrite be_decode_encode, Z2Nat.id by lia. apply Z.mod_small. lia. }
  split; [done|]. intros Hh.
  destruct (be_encode (Z.to_nat n) x) as [|b0 b] eqn:Hb; [done|]. injection Hh as ->.
  assert (Hlen : len (x00 :: b) = n) by (rewrite <-Hb, be_encode_length; lia).
  assert (Hx0 : be_decode b = x) by (rewrite <-Hdec; symmetry; exact (be_decode_zeros 1 b)).
  pose proof (be_decode_range b) as Hbr. cbn [length] in Hlen. replace (len b) with (n - 1) in Hbr by lia. lia.
Qed.

(** ** Base58 *)

Lemma pow_58_256 n : 0 ≤ n → 256 ^ n ≤ 58 ^ (2 * n).
Proof. intros Hn. rewrite Z.pow_mul_r by lia. apply Z.pow_le_mono_l. lia. Qed.

Lemma reverse_top {A} (x : A) ds : head (reverse (ds ++ [x])) = Some x.
Proof. by rewrite reverse_snoc. Qed.

Lemma base58_zeros k : foldM base58_digit 0 (replicate k (base58_char 0)) = Ok 0.
Proof. induction k as [|k IH]; [done|]. exact IH. Qed.

Lemma Base58_decode_encode b : Base58Decode (Base58Encode b) = Ok b.
Proof.
  destruct (leading_split x00 b) as [Hb Hh]. set (n := leading x00 b) in *. set (b' := drop n b) in *.
  assert (Hx : be_decode b = be_decode b') by (rewrite Hb at 1; apply be_decode_zeros).
  assert (Hr : 0 ≤ be_decode b < 58 ^ Z.of_nat (2 * length b)).
  { pose proof (be_decode_range b). pose proof (pow_58_256 (len b)).
    replace (Z.of_nat (2 * length b)) with (2 * len b) by lia. lia. }
  unfold Base58Encode, Base58Decode. fold n.
  rewrite reverse_app, reverse_replicate, leading_replicate.
  assert (Hlead : leading (base58_char 0) (reverse (base58_digits (2 * length b) (be_decode b))) = 0%nat).
  { apply leading_head. destruct (base58_digits_top _ _ Hr) as [->|(ds & d & Hd & ->)]; [done|].
    rewrite reverse_top. intros [= Hc]. apply char_zero in Hc; lia. }
  rewrite Hlead, Nat.add_0_r, foldM_app.
  rewrite base58_zeros. cbn [mbind res_bind]. rewrite base58_digits_value by done. cbn [mbind res_bind].
  rewrite Z.mul_0_l, Z.add_0_l, Hx, big_Bytes_be_decode by done. by rewrite <-Hb.
Qed.

Lemma Base58_encode_decode s b : Base58Decode s = Ok b → Base58Encode b = s.
Proof.
  unfold Base58Decode. intros (v & Hf & [= <-])%bind_Ok.
  destruct (leading_split (base58_char 0) s) as [Hs Hh].
  set (n := leading (base58_char 0) s) in *. set (s' := drop n s) in *.
  assert (Hf' : foldM base58_digit 0 s' = Ok v).
  { rewrite Hs, foldM_app in Hf.
    by rewrite base58_zeros in Hf. }
  apply decode_digits in Hf' as (ds & Hds & Hs' & ->).
  assert (Htop : ∀ d, last ds = Some d → 0 < d).
  { intros d Hd. apply last_Some in Hd as [l ->]. apply Forall_app in Hds as [_ [Hd _]%Forall_cons].
    destruct (decide (d = 0)) as [->|]; [|lia]. exfalso. apply Hh.
    rewrite Hs', fmap_app. cbn [fmap list_fmap]. by rewrite reverse_top. }
  pose proof (digits_value_nonneg ds Hds) as Hnn. destruct (big_Bytes_spec (digits_value ds) Hnn) as [Hdec Hhead].
  unfold Base58Encode. rewrite be_decode_zeros, Hdec, leading_replicate, (leading_head _ _ Hhead), Nat.add_0_r.
  rewrite base58_digits_unique; [|done|done|].
  - rewrite reverse_app, reverse_replicate, <-Hs'. symmetry. exact Hs.
  - rewrite length_app, length_replicate. destruct (decide (ds = [])) as [->|Hne]; [cbn; lia|].
    pose proof (digits_value_lower ds Hds Htop Hne) as Hlo. pose proof (be_decode_range (big_Bytes (digits_value ds))) as Hr.
    rewrite Hdec in Hr. pose proof (pow_58_256 (len (big_Bytes (digits_value ds)))).
    assert (len ds - 1 < 2 * len (big_Bytes (digits_value ds))); [|lia].
    apply (Z.pow_lt_mono_r_iff 58); lia.
Qed.

Lemma base58Checksum_length data : length (base58Checksum data) = 4%nat.
Proof. unfold base58Checksum. rewrite length_take, Sum256_length. done. Qed.

Lemma Base58CheckDecode_encode v payload : Base58CheckDecode (Base58CheckEncode v payload) = Ok (v, payload).
Proof.
  unfold Base58CheckDecode, Base58CheckEncode. rewrite Base58_decode_encode. cbn [mbind res_bind].
  rewrite length_app, base58Checksum_length, Nat.add_sub.
  rewrite (proj2 (Z.ltb_ge _ _)) by (cbn [length]; lia).
  rewrite take_app_length, drop_app_length. by rewrite bool_decide_true.
Qed.

Lemma Base58CheckDecode_inv a v payload :
  Base58CheckDecode a = Ok (v, payload) → a = Base58CheckEncode v payload.
Proof.
  unfold Base58CheckDecode, Base58CheckEncode. intros (d & Hd & Hc)%bind_Ok.
  destruct (Z.ltb_spec (len d) 5) as [|Hlen]; [done|].
  destruct (take (length d - 4) d) as [|x body] eqn:Hb; [done|].
  destruct (bool_decide_reflect (base58Checksum (x :: body) = drop (length d - 4) d)) as [Hsum|]; [|done].
  injection Hc as <- <-. rewrite Hsum, <-Hb, take_drop. symmetry. by apply Base58_encode_decode.
Qed.

(** ** Properties *)

(** Base58 is a bijection between byte strings and the strings it accepts: every
    byte string, leading zeros included, decodes from its encoding, and a string
    that decodes is the encoding of what it decodes to. *)
Theorem Base58_bijective b s :
  Base58Decode (Base58Encode b) = Ok b ∧ (Base58Decode s = Ok b ↔ s = Base58Encode b).
Proof.
  split; [apply Base58_decode_encode|]. split; [|intros ->; apply Base58_decode_encode].
  intros Hd. symmetry. by apply Base58_encode_decode.
Qed.

(** Addresses: the address of a 20-byte public key hash decodes to the version
    and the hash, and it is the only string that does. *)
Theorem address_roundtrip pubKeyHash version a :
  length pubKeyHash = PubKeyHashSize →
  AddressToPubKeyHash a = Ok (version, pubKeyHash) ↔ a = PubKeyHashToAddress pubKeyHash version.
Proof.
  intros Hlen. unfold AddressToPubKeyHash, PubKeyHashToAddress. split.
  - intros ([v pl] & Hd & Hc)%bind_Ok. case_bool_decide; [|done]. cbn [negb] in Hc. injection Hc as -> ->.
    by apply Base58CheckDecode_inv.
  - intros ->. rewrite Base58CheckDecode_encode. cbn [mbind res_bind]. by rewrite bool_decide_true.
Qed.

(** Wallet import format: the key, the compression flag and the version for the
    network come back from the encoding of a 32-byte key. *)
Theorem WIF_roundtrip privKey addrVersion :
  length privKey = 32%nat →
  DecodeWIF (EncodeWIF privKey addrVersion) = Ok (privKey, true, WIFVersionForAddress addrVersion).
Proof.
  intros Hlen. unfold DecodeWIF, EncodeWIF. cbv zeta. rewrite Base58CheckDecode_encode. cbn [wrap mbind res_bind].
  rewrite Hlen, take_ge by lia. change (33 - 32)%nat with 1%nat. cbn [replicate].
  replace (<[32%nat := x01]> (privKey ++ [x00])) with (privKey ++ [x01]).
  2:{ rewrite insert_app_r_alt, Hlen by lia. by rewrite Nat.sub_diag. }
  assert (Hv : (if negb (bool_decide (addrVersion = x00)) then WIFVersionTestnet else WIFVersionMainnet) =
               WIFVersionForAddress addrVersion).
  { unfold WIFVersionForAddress. by case_bool_decide. }
  rewrite Hv.
  assert (Hok : negb (bool_decide (WIFVersionForAddress addrVersion = WIFVersionMainnet)) &&
                negb (bool_decide (WIFVersionForAddress addrVersion = WIFVersionTestnet)) = false).
  { unfold WIFVersionForAddress. by case_bool_decide. }
  rewrite Hok, bool_decide_true by (rewrite length_app, Hlen; done).
  rewrite bool_decide_true by (rewrite lookup_app_r, Hlen by lia; done). cbn [negb].
  by rewrite take_app_length' by done.
Qed.

(** ** Witnesses *)

Definition bw_hash : list byte := x00 :: x00 :: replicate 18 xa5.

Lemma address_roundtrip_witness :
  AddressToPubKeyHash (PubKeyHashToAddress bw_hash x6f) = Ok (x6f, bw_hash).
Proof. by apply (address_roundtrip bw_hash x6f). Defined.

Lemma WIF_roundtrip_witness :
  DecodeWIF (EncodeWIF (replicate 32 x17) x6f) = Ok (replicate 32 x17, true, xef).
Proof. exact (WIF_roundtrip (replicate 32 x17) x6f eq_refl). Defined.
