(* ===== verification/Protocol.v ===== *)
(** * internal/protocol and the framing of internal/p2p/peer.go

    The wire messages: each has an encoder, a byte string here since a write to
    the buffer does not fail, and a decoder, a [reader].  [Codec] is what the
    messages have in common, [CodecLaws] what makes an encoding sound: decoding
    gives the message back, and nothing but the encoding of a message within the
    limits is decoded.  Frames carry a command and a payload with its length and
    checksum; [ReadMessage] reads one from a connection. *)
From S2P Require Import Prelude Types Sha256.

Definition MaxPayloadSize : Z := 4 * 1024 * 1024.
Definition MessageHeaderSize : nat := 24.
Definition MaxHeadersPerMsg : Z := 2000.
Definition InvTypeBlock : Z := 1.
Definition InvTypeTx : Z := 2.

Record MessageHeader : Type := mkMessageHeader {
  mh_Magic : list byte;
  mh_Command : list byte;
  mh_Length : Z;
  mh_Checksum : list byte
}.

Record InvVector : Type := mkInvVector { iv_Type : Z; iv_Hash : Hash }.

Record VersionMsg : Type := mkVersionMsg {
  v_Version : Z;
  v_Services : Z;
  v_Timestamp : Z;
  v_AddrRecv : list byte;
  v_AddrFrom : list byte;
  v_Nonce : Z;
  v_UserAgent : list byte;
  v_StartHeight : Z
}.

Record PingMsg : Type := mkPingMsg { ping_Nonce : Z }.
Record PongMsg : Type := mkPongMsg { pong_Nonce : Z }.
Record InvMsg : Type := mkInvMsg { inv_Inventory : list InvVector }.
Record GetDataMsg : Type := mkGetDataMsg { gd_Inventory : list InvVector }.
Record GetBlocksMsg : Type := mkGetBlocksMsg {
  gb_Version : Z; gb_BlockLocatorHashes : list Hash; gb_HashStop : Hash
}.
Record GetHeadersMsg : Type := mkGetHeadersMsg {
  gh_Version : Z; gh_BlockLocatorHashes : list Hash; gh_HashStop : Hash
}.
Record AddrMsg : Type := mkAddrMsg { addr_Addresses : list (list byte) }.
Record HeadersMsg : Type := mkHeadersMsg { hm_Headers : list BlockHeader }.
Record SendHeadersMsg : Type := mkSendHeadersMsg { }.

(** ** Strings and inventory vectors *)

Definition writeString (s : list byte) : list byte := WriteVarInt (len s) ++ s.
Definition readString : reader (list byte) :=
  length ← ReadVarInt;
  if 1024 <? length then read_fail (Errorf "string length exceeds max")
  else ReadFull (Z.to_nat length).

Definition encodeInvVector (iv : InvVector) : list byte := le_encode 4 (iv_Type iv) ++ iv_Hash iv.
Definition decodeInvVector : reader InvVector :=
  buf ← ReadFull 4;
  hash ← ReadFull HashSize;
  mret (mkInvVector (le_decode buf) hash).

(** ** The messages *)

Definition VersionMsg_Encode (m : VersionMsg) : list byte :=
  (le_encode 4 (v_Version m) ++ le_encode 8 (v_Services m) ++ le_encode 8 (u64 (v_Timestamp m))) ++
  writeString (v_AddrRecv m) ++
  writeString (v_AddrFrom m) ++
  le_encode 8 (v_Nonce m) ++
  writeString (v_UserAgent m) ++
  le_encode 4 (v_StartHeight m).

Definition VersionMsg_Decode : reader VersionMsg :=
  buf ← ReadFull 20;
  addrRecv ← readString;
  addrFrom ← readString;
  nonceBuf ← ReadFull 8;
  userAgent ← readString;
  heightBuf ← ReadFull 4;
  mret (mkVersionMsg (le_decode (slice 0 4 buf)) (le_decode (slice 4 12 buf))
          (i64 (le_decode (slice 12 20 buf))) addrRecv addrFrom (le_decode nonceBuf) userAgent
          (le_decode heightBuf)).

Definition PingMsg_Encode (m : PingMsg) : list byte := le_encode 8 (ping_Nonce m).
Definition PingMsg_Decode : reader PingMsg := buf ← ReadFull 8; mret (mkPingMsg (le_decode buf)).
Definition PongMsg_Encode (m : PongMsg) : list byte := le_encode 8 (pong_Nonce m).
Definition PongMsg_Decode : reader PongMsg := buf ← ReadFull 8; mret (mkPongMsg (le_decode buf)).

Definition InvMsg_Encode (m : InvMsg) : list byte :=
  WriteVarInt (len (inv_Inventory m)) ++ mjoin (encodeInvVector <$> inv_Inventory m).
Definition InvMsg_Decode : reader InvMsg :=
  count ← ReadVarInt;
  if 50000 <? count then read_fail (Errorf "inv count exceeds max") else
  inv ← read_n decodeInvVector (Z.to_nat count);
  mret (mkInvMsg inv).

Definition GetDataMsg_Encode (m : GetDataMsg) : list byte := InvMsg_Encode (mkInvMsg (gd_Inventory m)).
Definition GetDataMsg_Decode : reader GetDataMsg :=
  inv ← InvMsg_Decode; mret (mkGetDataMsg (inv_Inventory inv)).

Definition GetBlocksMsg_Encode (m : GetBlocksMsg) : list byte :=
  le_encode 4 (gb_Version m) ++
  WriteVarInt (len (gb_BlockLocatorHashes m)) ++
  mjoin (id <$> gb_BlockLocatorHashes m) ++
  gb_HashStop m.
Definition GetBlocksMsg_Decode : reader GetBlocksMsg :=
  buf ← ReadFull 4;
  count ← ReadVarInt;
  if 500 <? count then read_fail (Errorf "block locator count exceeds max") else
  hashes ← read_n (ReadFull HashSize) (Z.to_nat count);
  stop ← ReadFull HashSize;
  mret (mkGetBlocksMsg (le_decode buf) hashes stop).

Definition GetHeadersMsg_Encode (m : GetHeadersMsg) : list byte :=
  le_encode 4 (gh_Version m) ++
  WriteVarInt (len (gh_BlockLocatorHashes m)) ++
  mjoin (id <$> gh_BlockLocatorHashes m) ++
  gh_HashStop m.
Definition GetHeadersMsg_Decode : reader GetHeadersMsg :=
  buf ← ReadFull 4;
  count ← ReadVarInt;
  if 500 <? count then read_fail (Errorf "block locator count exceeds max") else
  hashes ← read_n (ReadFull HashSize) (Z.to_nat count);
  stop ← ReadFull HashSize;
  mret (mkGetHeadersMsg (le_decode buf) hashes stop).

Definition AddrMsg_Encode (m : AddrMsg) : list byte :=
  WriteVarInt (len (addr_Addresses m)) ++ mjoin (writeString <$> addr_Addresses m).
Definition AddrMsg_Decode : reader AddrMsg :=
  count ← ReadVarInt;
  if 1000 <? count then read_fail (Errorf "addr count exceeds max") else
  addrs ← read_n readString (Z.to_nat count);
  mret (mkAddrMsg addrs).

(** A header in a headers message is followed by a zero transaction count. *)
Definition encode_header (h : BlockHeader) : list byte := BlockHeader_SerializeToBytes h ++ WriteVarInt 0.
Definition decode_header : reader BlockHeader :=
  h ← BlockHeader_Deserialize;
  txCount ← ReadVarInt;
  if negb (txCount =? 0) then read_fail (Errorf "headers message: header has non-zero tx count")
  else mret h.

Definition HeadersMsg_Encode (m : HeadersMsg) : list byte :=
  WriteVarInt (len (hm_Headers m)) ++ mjoin (encode_header <$> hm_Headers m).
Definition HeadersMsg_Decode : reader HeadersMsg :=
  count ← ReadVarInt;
  if MaxHeadersPerMsg <? count then read_fail (Errorf "headers count exceeds max") else
  headers ← read_n decode_header (Z.to_nat count);
  mret (mkHeadersMsg headers).

Definition SendHeadersMsg_Encode (_ : SendHeadersMsg) : list byte := [].
Definition SendHeadersMsg_Decode : reader SendHeadersMsg := mret mkSendHeadersMsg.

(** ** Frames *)

(** [copy(hdr.Command[:], cmd)] into twelve zero bytes. *)
Definition pad_command (cmd : list byte) : list byte :=
  take 12 cmd ++ replicate (12 - length cmd) x00.

Definition doubleSHA256Checksum (data : list byte) : list byte := take 4 (Sum256 (Sum256 data)).

Definition EncodeMessageHeader (magic cmd payload : list byte) : list byte :=
  magic ++ pad_command cmd ++ le_encode 4 (u32 (len payload)) ++ doubleSHA256Checksum payload.

Definition DecodeMessageHeader : reader MessageHeader :=
  buf ← ReadFull MessageHeaderSize;
  let hdr := mkMessageHeader (slice 0 4 buf) (slice 4 16 buf) (le_decode (slice 16 20 buf))
               (slice 20 24 buf) in
  if MaxPayloadSize <? mh_Length hdr then read_fail (Errorf "payload size exceeds max")
  else mret hdr.

(** The command up to the first zero byte. *)
Fixpoint command_prefix (cmd : list byte) : list byte :=
  match cmd with
  | [] => []
  | b :: cmd' => if bool_decide (b = x00) then [] else b :: command_prefix cmd'
  end.
Definition CommandString (h : MessageHeader) : list byte := command_prefix (mh_Command h).

(** [io.ReadAll(io.LimitReader(r, n))]: what there is, up to [n] bytes. *)
Definition ReadUpTo (n : nat) : reader (list byte) := λ bs, Ok (take n bs, drop n bs).

Definition doubleSHA256First4 (data : list byte) : list byte := take 4 (Sum256 (Sum256 data)).

(** [ReadMessage] on the bytes of the connection; a deadline that passes is a
    read error, like the end of the bytes. *)
Definition ReadMessage (magic : list byte) : reader (MessageHeader * list byte) :=
  hdr ← read_wrap "read header" DecodeMessageHeader;
  if negb (bool_decide (mh_Magic hdr = magic)) then read_fail (Errorf "bad magic") else
  payload ← read_wrap "read payload" (ReadUpTo (Z.to_nat (mh_Length hdr)));
  if negb (u32 (len payload) =? mh_Length hdr) then read_fail (Errorf "short payload") else
  if negb (bool_decide (mh_Checksum hdr = doubleSHA256First4 payload))
  then read_fail (Errorf "checksum mismatch")
  else mret (hdr, payload).

(** The bytes [WriteLoop] writes for a queued message. *)
Definition write_message (magic : list byte) (msg : list byte * list byte) : list byte :=
  EncodeMessageHeader magic msg.1 msg.2 ++ msg.2.

(** ** Codecs *)

Class Codec (A : Type) : Type := {
  encode : A → list byte;
  decode : reader A;
  valid : A → Prop
}.
Class CodecLaws (A : Type) `{!Codec A} : Prop := {
  codec_decodes a : valid a → decodes decode (encode a) a;
  codec_canonical : canonical decode encode valid
}.

(** The limits the decoders enforce, and the ranges of the fields. *)
Definition valid_string (s : list byte) : Prop := len s ≤ 1024.
Definition valid_inv (iv : InvVector) : Prop := is_u32 (iv_Type iv) ∧ wf_hash (iv_Hash iv).
Definition valid_version (m : VersionMsg) : Prop :=
  is_u32 (v_Version m) ∧ is_u64 (v_Services m) ∧ is_i64 (v_Timestamp m) ∧
  valid_string (v_AddrRecv m) ∧ valid_string (v_AddrFrom m) ∧ is_u64 (v_Nonce m) ∧
  valid_string (v_UserAgent m) ∧ is_u32 (v_StartHeight m).
Definition valid_locator (version : Z) (hashes : list Hash) (stop : Hash) : Prop :=
  is_u32 version ∧ len hashes ≤ 500 ∧ Forall wf_hash hashes ∧ wf_hash stop.

#[export] Instance VersionMsg_codec : Codec VersionMsg :=
  {| encode := VersionMsg_Encode; decode := VersionMsg_Decode; valid := valid_version |}.
#[export] Instance PingMsg_codec : Codec PingMsg :=
  {| encode := PingMsg_Encode; decode := PingMsg_Decode; valid m := is_u64 (ping_Nonce m) |}.
#[export] Instance PongMsg_codec : Codec PongMsg :=
  {| encode := PongMsg_Encode; decode := PongMsg_Decode; valid m := is_u64 (pong_Nonce m) |}.
#[export] Instance InvMsg_codec : Codec InvMsg :=
  {| encode := InvMsg_Encode; decode := InvMsg_Decode;
     valid m := len (inv_Inventory m) ≤ 50000 ∧ Forall valid_inv (inv_Inventory m) |}.
#[export] Instance GetDataMsg_codec : Codec GetDataMsg :=
  {| encode := GetDataMsg_Encode; decode := GetDataMsg_Decode;
     valid m := len (gd_Inventory m) ≤ 50000 ∧ Forall valid_inv (gd_Inventory m) |}.
#[export] Instance GetBlocksMsg_codec : Codec GetBlocksMsg :=
  {| encode := GetBlocksMsg_Encode; decode := GetBlocksMsg_Decode;
     valid m := valid_locator (gb_Version m) (gb_BlockLocatorHashes m) (gb_HashStop m) |}.
#[export] Instance GetHeadersMsg_codec : Codec GetHeadersMsg :=
  {| encode := GetHeadersMsg_Encode; decode := GetHeadersMsg_Decode;
     valid m := valid_locator (gh_Version m) (gh_BlockLocatorHashes m) (gh_HashStop m) |}.
#[export] Instance AddrMsg_codec : Codec AddrMsg :=
  {| encode := AddrMsg_Encode; decode := AddrMsg_Decode;
     valid m := len (addr_Addresses m) ≤ 1000 ∧ Forall valid_string (addr_Addresses m) |}.
#[export] Instance HeadersMsg_codec : Codec HeadersMsg :=
  {| encode := HeadersMsg_Encode; decode := HeadersMsg_Decode;
     valid m := len (hm_Headers m) ≤ MaxHeadersPerMsg ∧ Forall wf_header (hm_Headers m) |}.
#[export] Instance SendHeadersMsg_codec : Codec SendHeadersMsg :=
  {| encode := SendHeadersMsg_Encode; decode := SendHeadersMsg_Decode; valid _ := True |}.

(** *** Counted lists *)

Section counted.
Context {A B : Type} (r : reader A) (enc : A → list byte) (P : A → Prop).
Context (max : Z) (e : error) (k : list A → reader B).

Definition read_counted : reader B :=
  count ← ReadVarInt;
  if max <? count then read_fail e else (l ← read_n r (Z.to_nat count); k l).

Lemma counted_decodes l enc2 b :
  (∀ x, P x → decodes r (enc x) x) → Forall P l → len l ≤ max → max < 2 ^ 64 →
  decodes (k l) enc2 b →
  decodes read_counted (WriteVarInt (len l) ++ mjoin (enc <$> l) ++ enc2) b.
Proof.
  intros Hr Hl Hlen Hmax Hk. unfold read_counted.
  decode_step; [apply ReadVarInt_decodes; unfold is_u64; lia|].
  rewrite (proj2 (Z.ltb_ge _ _)) by done. rewrite Nat2Z.id.
  decode_step; [|done]. by apply (decodes_read_n r enc P).
Qed.

Lemma counted_canonical bs b rest :
  canonical r enc P → read_counted bs = Ok (b, rest) →
  ∃ l mid, bs = WriteVarInt (len l) ++ mjoin (enc <$> l) ++ mid ∧ len l ≤ max ∧ Forall P l ∧
    k l mid = Ok (b, rest).
Proof.
  intros Hr. unfold read_counted. intros Hb. reader_inv.
  match goal with H : ReadVarInt _ = _ |- _ => apply ReadVarInt_canonical in H as [-> [? ?]] end.
  match goal with H : read_n _ _ _ = _ |- _ =>
    apply (canonical_read_n _ _ _ _ Hr) in H as [-> [Hlen ?]] end.
  eexists _, _. split; [|split; [|split; [done|exact Hb]]].
  - rewrite Hlen, Z2Nat.id by done. by rewrite <-?app_assoc.
  - rewrite Hlen, Z2Nat.id; done.
Qed.
End counted.

(** *** Parts of messages *)

Lemma readString_decodes s : valid_string s → decodes readString (writeString s) s.
Proof.
  intros Hs. unfold readString, writeString, valid_string in *.
  decode_step; [apply ReadVarInt_decodes; unfold is_u64; lia|].
  rewrite (proj2 (Z.ltb_ge _ _)) by done. by decode_step; rewrite Nat2Z.id.
Qed.

Lemma readString_canonical : canonical readString writeString valid_string.
Proof.
  intros bs s rest Hs. unfold readString in Hs. reader_inv.
  match goal with H : ReadVarInt _ = _ |- _ => apply ReadVarInt_canonical in H as [-> [? ?]] end.
  unfold writeString, valid_string, WriteVarInt.
  match goal with H : length _ = Z.to_nat _ |- _ => rewrite H end.
  rewrite Z2Nat.id, <-app_assoc by done. done.
Qed.

Lemma InvVector_decodes iv : valid_inv iv → decodes decodeInvVector (encodeInvVector iv) iv.
Proof.
  intros [Ht Hh]. unfold decodeInvVector, encodeInvVector.
  decode_step; [decode_step; apply le_encode_length|].
  eapply decodes_bind_last; [by decode_step|]. rewrite le4_decode_encode by done.
  destruct iv. decode_step.
Qed.

Lemma InvVector_canonical : canonical decodeInvVector encodeInvVector valid_inv.
Proof.
  intros bs iv rest Hs. unfold decodeInvVector in Hs. reader_inv.
  unfold encodeInvVector, valid_inv. cbn. rewrite le_encode_decode' by done.
  rewrite <-app_assoc. split; [done|]. split; [by apply le4_range|done].
Qed.

Lemma Header_decodes h : wf_header h → decodes decode_header (encode_header h) h.
Proof.
  intros Hh. unfold decode_header, encode_header.
  decode_step; [by apply BlockHeader_decodes|].
  eapply decodes_bind_last; [by apply ReadVarInt_decodes|]. apply decodes_ret.
Qed.

Lemma Header_canonical : canonical decode_header encode_header wf_header.
Proof.
  intros bs h rest Hs. unfold decode_header in Hs. reader_inv.
  match goal with H : BlockHeader_Deserialize _ = _ |- _ => apply BlockHeader_canonical in H as [-> ?] end.
  match goal with H : ReadVarInt _ = _ |- _ => apply ReadVarInt_canonical in H as [-> [? ?]] end.
  match goal with H : (if negb (?n =? 0) then _ else _) _ = _ |- _ =>
    destruct (Z.eqb_spec n 0) as [->|]; [|done]; cbn [negb] in H end. reader_inv.
  unfold encode_header, WriteVarInt. by rewrite <-app_assoc.
Qed.

(** *** The messages are codecs *)

#[export] Instance PingMsg_laws : CodecLaws PingMsg.
Proof.
  split.
  - intros [n] Hn. cbn in *. unfold PingMsg_Decode, PingMsg_Encode.
    eapply decodes_bind_last; [decode_step; apply le_encode_length|].
    rewrite le8_decode_encode by done. apply decodes_ret.
  - intros bs m rest Hs. cbn in *. unfold PingMsg_Decode in Hs. reader_inv.
    unfold PingMsg_Encode. cbn. rewrite le_encode_decode' by done. split; [done|by apply le8_range].
Qed.

#[export] Instance PongMsg_laws : CodecLaws PongMsg.
Proof.
  split.
  - intros [n] Hn. cbn in *. unfold PongMsg_Decode, PongMsg_Encode.
    eapply decodes_bind_last; [decode_step; apply le_encode_length|].
    rewrite le8_decode_encode by done. apply decodes_ret.
  - intros bs m rest Hs. cbn in *. unfold PongMsg_Decode in Hs. reader_inv.
    unfold PongMsg_Encode. cbn. rewrite le_encode_decode' by done. split; [done|by apply le8_range].
Qed.

Lemma decodes_nil_r {A} (r : reader A) enc a : decodes r (enc ++ []) a → decodes r enc a.
Proof. by rewrite app_nil_r. Qed.

#[export] Instance InvMsg_laws : CodecLaws InvMsg.
Proof.
  split.
  - intros [l] [Hlen Hl]. cbn in *. apply decodes_nil_r. unfold InvMsg_Encode. rewrite <-app_assoc.
    apply (counted_decodes decodeInvVector encodeInvVector valid_inv 50000); [apply InvVector_decodes|done|done|done|].
    apply decodes_ret.
  - intros bs m rest Hs.
    apply (counted_canonical decodeInvVector encodeInvVector valid_inv 50000) in Hs
      as (l & mid & -> & Hlen & Hl & Hk); [|apply InvVector_canonical].
    cbn in Hk. reader_inv. unfold encode. cbn. unfold InvMsg_Encode. by rewrite <-app_assoc.
Qed.

#[export] Instance GetDataMsg_laws : CodecLaws GetDataMsg.
Proof.
  split.
  - intros [l] Hl. cbn in *. unfold GetDataMsg_Decode, GetDataMsg_Encode.
    eapply decodes_bind_last; [exact (codec_decodes (A := InvMsg) (mkInvMsg l) Hl)|]. apply decodes_ret.
  - intros bs m rest Hs. apply reader_bind_Ok in Hs as (inv & mid & Hinv & Hs).
    destruct (@codec_canonical InvMsg _ InvMsg_laws bs inv mid Hinv) as [-> ?]. reader_inv. by destruct inv.
Qed.

#[export] Instance GetBlocksMsg_laws : CodecLaws GetBlocksMsg.
Proof.
  split.
  - intros [v l st] (Hv & Hlen & Hl & Hst). cbn in *. unfold GetBlocksMsg_Decode, GetBlocksMsg_Encode. cbn.
    decode_step; [decode_step; apply le_encode_length|].
    apply (counted_decodes (ReadFull HashSize) id wf_hash 500); [by intros; decode_step|done|done|done|].
    eapply decodes_bind_last; [by decode_step|]. rewrite le4_decode_encode by done. apply decodes_ret.
  - intros bs m rest Hs. cbn in *. unfold GetBlocksMsg_Decode in Hs.
    apply reader_bind_Ok in Hs as (buf & mid0 & [-> Hbuf]%ReadFull_Ok & Hs).
    apply (counted_canonical (ReadFull HashSize) id wf_hash 500) in Hs
      as (l & mid & -> & Hlen & Hl & Hk); [|intros ? ? ? ?; by reader_inv].
    reader_inv. unfold GetBlocksMsg_Encode, valid_locator. cbn. rewrite le_encode_decode' by done.
    rewrite <-!app_assoc. split; [done|]. by split_and!; [apply le4_range| | |].
Qed.

#[export] Instance GetHeadersMsg_laws : CodecLaws GetHeadersMsg.
Proof.
  split.
  - intros [v l st] (Hv & Hlen & Hl & Hst). cbn in *. unfold GetHeadersMsg_Decode, GetHeadersMsg_Encode. cbn.
    decode_step; [decode_step; apply le_encode_length|].
    apply (counted_decodes (ReadFull HashSize) id wf_hash 500); [by intros; decode_step|done|done|done|].
    eapply decodes_bind_last; [by decode_step|]. rewrite le4_decode_encode by done. apply decodes_ret.
  - intros bs m rest Hs. cbn in *. unfold GetHeadersMsg_Decode in Hs.
    apply reader_bind_Ok in Hs as (buf & mid0 & [-> Hbuf]%ReadFull_Ok & Hs).
    apply (counted_canonical (ReadFull HashSize) id wf_hash 500) in Hs
      as (l & mid & -> & Hlen & Hl & Hk); [|intros ? ? ? ?; by reader_inv].
    reader_inv. unfold GetHeadersMsg_Encode, valid_locator. cbn. rewrite le_encode_decode' by done.
    rewrite <-!app_assoc. split; [done|]. by split_and!; [apply le4_range| | |].
Qed.

#[export] Instance AddrMsg_laws : CodecLaws AddrMsg.
Proof.
  split.
  - intros [l] [Hlen Hl]. cbn in *. apply decodes_nil_r. unfold AddrMsg_Encode. rewrite <-app_assoc.
    apply (counted_decodes readString writeString valid_string 1000); [apply readString_decodes|done|done|done|].
    apply decodes_ret.
  - intros bs m rest Hs.
    apply (counted_canonical readString writeString valid_string 1000) in Hs
      as (l & mid & -> & Hlen & Hl & Hk); [|apply readString_canonical].
    cbn in Hk. reader_inv. unfold encode. cbn. unfold AddrMsg_Encode. by rewrite <-app_assoc.
Qed.

#[export] Instance HeadersMsg_laws : CodecLaws HeadersMsg.
Proof.
  split.
  - intros [l] [Hlen Hl]. cbn in *. apply decodes_nil_r. unfold HeadersMsg_Encode. rewrite <-app_assoc.
    apply (counted_decodes decode_header encode_header wf_header MaxHeadersPerMsg);
      [apply Header_decodes|done|done|done|]. apply decodes_ret.
  - intros bs m rest Hs.
    apply (counted_canonical decode_header encode_header wf_header MaxHeadersPerMsg) in Hs
      as (l & mid & -> & Hlen & Hl & Hk); [|apply Header_canonical].
    cbn in Hk. reader_inv. unfold encode. cbn. unfold HeadersMsg_Encode. by rewrite <-app_assoc.
Qed.

#[export] Instance SendHeadersMsg_laws : CodecLaws SendHeadersMsg.
Proof.
  split.
  - intros [] _. apply decodes_ret.
  - intros bs [] rest Hs. injection Hs as ->. done.
Qed.

#[export] Instance VersionMsg_laws : CodecLaws VersionMsg.
Proof.
  split.
  - intros [v sv ts ar af n ua sh] (Hv & Hsv & Hts & Har & Haf & Hn & Hua & Hsh). cbn in *.
    unfold VersionMsg_Decode, VersionMsg_Encode. cbn.
    decode_step; [decode_step; by len_simpl|].
    do 2 (decode_step; [by apply readString_decodes|]).
    decode_step; [decode_step; apply le_encode_length|].
    decode_step; [by apply readString_decodes|].
    eapply decodes_bind_last; [decode_step; apply le_encode_length|].
    rewrite (slice_app_skip 4 12 4), (slice_app_skip 12 20 4) by (apply le_encode_length || lia). cbn [Nat.sub].
    rewrite (slice_app_skip 8 16 8) by (apply le_encode_length || lia). cbn [Nat.sub].
    rewrite !slice_app_take, slice_all by apply le_encode_length.
    rewrite !le4_decode_encode, !le8_decode_encode by (done || apply u64_range).
    assert (Hi : i64 (u64 ts) = ts).
    { unfold i64, u64, is_i64 in *. rewrite Zplus_mod_idemp_l, Z.mod_small; lia. }
    rewrite Hi. apply decodes_ret.
  - intros bs m rest Hs. cbn in *. unfold VersionMsg_Decode in Hs. reader_inv.
    repeat match goal with H : readString _ = _ |- _ => apply readString_canonical in H as [-> ?] end.
    unfold VersionMsg_Encode, valid_version. cbn.
    match goal with H : length ?b = 20%nat |- _ => rename b into buf; rename H into Hbuf end.
    assert (Hi : u64 (i64 (le_decode (slice 12 20 buf))) = le_decode (slice 12 20 buf)).
    { pose proof (le8_range (slice 12 20 buf) ltac:(rewrite slice_length; lia)) as Hr.
      unfold u64, i64, is_u64 in *. rewrite Zminus_mod_idemp_l, Z.mod_small; lia. }
    rewrite Hi, !le_encode_decode' by (done || (rewrite slice_length; lia)).
    rewrite <-!app_assoc. rewrite (app_assoc (slice 4 12 buf)), <-slice_split by lia.
    rewrite (app_assoc (slice 0 4 buf)), <-slice_split, slice_all by (done || lia).
    split; [done|]. split_and!; try done; try apply i64_range;
      (apply le4_range || apply le8_range); rewrite ?slice_length; lia.
Qed.

(** ** Every message within the limits fits a frame *)

Lemma WriteVarInt_le v : (length (WriteVarInt v) ≤ 9)%nat.
Proof.
  assert (Hv : VarIntSize v ≤ 9) by (unfold VarIntSize; repeat case_match; lia).
  rewrite VarIntSize_ok in Hv. unfold WriteVarInt. lia.
Qed.

Lemma mjoin_length_le {A} (enc : A → list byte) (P : A → Prop) c l :
  (∀ x, P x → len (enc x) ≤ c) → Forall P l → len (mjoin (enc <$> l)) ≤ c * len l.
Proof.
  intros Henc. induction 1 as [|x l Hx _ IH]; cbn [fmap list_fmap mjoin list_join length]; [lia|].
  rewrite length_app. specialize (Henc x Hx). rewrite Nat2Z.inj_add, Nat2Z.inj_succ, Z.mul_succ_r, Z.add_comm.
  by apply Z.add_le_mono.
Qed.

Class CodecFits (A : Type) `{!Codec A} : Prop :=
  codec_fits : ∀ a, valid a → len (encode a) ≤ MaxPayloadSize.

Lemma writeString_le s : valid_string s → len (writeString s) ≤ 1033.
Proof.
  unfold valid_string, writeString. intros Hs. rewrite length_app.
  pose proof (WriteVarInt_le (len s)). lia.
Qed.

Lemma locator_fits v l st :
  valid_locator v l st → len (le_encode 4 v ++ WriteVarInt (len l) ++ mjoin (id <$> l) ++ st) ≤ MaxPayloadSize.
Proof.
  intros (_ & Hlen & Hl & Hst). pose proof (WriteVarInt_le (len l)).
  pose proof (mjoin_length_le id wf_hash 32 l ltac:(intros x Hx; unfold wf_hash, HashSize in Hx; cbn; lia) Hl).
  unfold wf_hash, HashSize in Hst. rewrite !length_app, le_encode_length. unfold MaxPayloadSize. lia.
Qed.

Lemma inv_fits l :
  len l ≤ 50000 → Forall valid_inv l →
  len (WriteVarInt (len l) ++ mjoin (encodeInvVector <$> l)) ≤ MaxPayloadSize.
Proof.
  intros Hlen Hl. pose proof (WriteVarInt_le (len l)).
  assert (He : ∀ iv, valid_inv iv → len (encodeInvVector iv) ≤ 36).
  { intros iv [_ Hh]. unfold encodeInvVector, wf_hash, HashSize in *. rewrite length_app, le_encode_length. lia. }
  pose proof (mjoin_length_le encodeInvVector valid_inv 36 l He Hl).
  rewrite length_app. unfold MaxPayloadSize. lia.
Qed.

#[export] Instance VersionMsg_fits : CodecFits VersionMsg.
Proof.
  intros [v sv ts ar af n ua sh] (_ & _ & _ & Har & Haf & _ & Hua & _). cbn in *. unfold VersionMsg_Encode. cbn.
  apply writeString_le in Har, Haf, Hua. rewrite !length_app, !le_encode_length. unfold MaxPayloadSize. lia.
Qed.
#[export] Instance PingMsg_fits : CodecFits PingMsg.
Proof. intros [n] _. cbn. unfold PingMsg_Encode. rewrite le_encode_length. unfold MaxPayloadSize. lia. Qed.
#[export] Instance PongMsg_fits : CodecFits PongMsg.
Proof. intros [n] _. cbn. unfold PongMsg_Encode. rewrite le_encode_length. unfold MaxPayloadSize. lia. Qed.
#[export] Instance InvMsg_fits : CodecFits InvMsg.
Proof. intros [l] [Hlen Hl]. by apply inv_fits. Qed.
#[export] Instance GetDataMsg_fits : CodecFits GetDataMsg.
Proof. intros [l] [Hlen Hl]. by apply inv_fits. Qed.
#[export] Instance GetBlocksMsg_fits : CodecFits GetBlocksMsg.
Proof. intros [v l st] Hv. by apply locator_fits. Qed.
#[export] Instance GetHeadersMsg_fits : CodecFits GetHeadersMsg.
Proof. intros [v l st] Hv. by apply locator_fits. Qed.
#[export] Instance AddrMsg_fits : CodecFits AddrMsg.
Proof.
  intros [l] [Hlen Hl]. cbn in *. unfold AddrMsg_Encode. cbn. pose proof (WriteVarInt_le (len l)).
  pose proof (mjoin_length_le writeString valid_string 1033 l writeString_le Hl).
  rewrite length_app. unfold MaxPayloadSize. lia.
Qed.
#[export] Instance HeadersMsg_fits : CodecFits HeadersMsg.
Proof.
  intros [l] [Hlen Hl]. cbn in *. unfold HeadersMsg_Encode. cbn. pose proof (WriteVarInt_le (len l)).
  assert (He : ∀ h, wf_header h → len (encode_header h) ≤ 89).
  { intros h Hh. unfold encode_header. rewrite length_app. pose proof (WriteVarInt_le 0).
    unfold BlockHeader_SerializeToBytes. rewrite BlockHeader_length by done. unfold BlockHeaderSize. lia. }
  pose proof (mjoin_length_le encode_header wf_header 89 l He Hl).
  unfold MaxHeadersPerMsg in Hlen. rewrite length_app. unfold MaxPayloadSize. lia.
Qed.
#[export] Instance SendHeadersMsg_fits : CodecFits SendHeadersMsg.
Proof. intros m _. done. Qed.

(** ** Frames *)

(** The commands of the protocol are such. *)
Definition valid_command (cmd : list byte) : Prop := (length cmd ≤ 12)%nat ∧ Forall (λ b, b ≠ x00) cmd.
Definition frame_header (magic cmd payload : list byte) : MessageHeader :=
  mkMessageHeader magic (pad_command cmd) (len payload) (doubleSHA256Checksum payload).

Lemma pad_command_length cmd : length (pad_command cmd) = 12%nat.
Proof. unfold pad_command. rewrite length_app, length_take, length_replicate. lia. Qed.

Lemma checksum_length data : length (doubleSHA256Checksum data) = 4%nat.
Proof. unfold doubleSHA256Checksum. rewrite length_take, Sum256_length. done. Qed.

Lemma command_prefix_pad cmd : valid_command cmd → command_prefix (pad_command cmd) = cmd.
Proof.
  intros [Hlen Hnz]. unfold pad_command. rewrite take_ge by lia.
  generalize (12 - length cmd)%nat as n. clear Hlen. intros n.
  induction Hnz as [|b cmd Hb _ IH]; cbn [app command_prefix].
  - destruct n; cbn; [done|]. done.
  - rewrite bool_decide_false by done. by rewrite IH.
Qed.

Lemma DecodeMessageHeader_decodes magic cmd payload :
  length magic = 4%nat → len payload ≤ MaxPayloadSize →
  decodes DecodeMessageHeader (EncodeMessageHeader magic cmd payload) (frame_header magic cmd payload).
Proof.
  intros Hm Hp. unfold DecodeMessageHeader, EncodeMessageHeader.
  assert (Hu : is_u32 (len payload)) by (unfold is_u32, MaxPayloadSize in *; lia).
  eapply decodes_bind_last.
  { decode_step. rewrite !length_app, pad_command_length, le_encode_length, checksum_length, Hm. done. }
  rewrite slice_app_take by done.
  rewrite (slice_app_skip 4 16 4), (slice_app_skip 16 20 4), (slice_app_skip 20 24 4) by (done || lia). cbn [Nat.sub].
  rewrite slice_app_take by apply pad_command_length.
  rewrite (slice_app_skip 12 16 12), (slice_app_skip 16 20 12) by (apply pad_command_length || lia). cbn [Nat.sub].
  rewrite slice_app_take by apply le_encode_length.
  rewrite (slice_app_skip 4 8 4) by (apply le_encode_length || lia). cbn [Nat.sub].
  rewrite slice_all by apply checksum_length. rewrite u32_id, le4_decode_encode by done. cbv zeta. cbn [mh_Length].
  rewrite (proj2 (Z.ltb_ge _ _)) by done. apply decodes_ret.
Qed.

Lemma ReadMessage_decodes magic cmd payload :
  length magic = 4%nat → len payload ≤ MaxPayloadSize →
  decodes (ReadMessage magic) (write_message magic (cmd, payload)) (frame_header magic cmd payload, payload).
Proof.
  intros Hm Hp. unfold ReadMessage, write_message. cbn [fst snd].
  decode_step; [decode_step; by apply DecodeMessageHeader_decodes|].
  cbn [frame_header mh_Magic mh_Length mh_Checksum]. rewrite bool_decide_true by done. cbn [negb].
  eapply decodes_bind_last.
  { decode_step. intros rest. unfold ReadUpTo. rewrite Nat2Z.id. by rewrite take_app_length, drop_app_length. }
  rewrite u32_id by (unfold is_u32, MaxPayloadSize in *; lia). rewrite Z.eqb_refl. cbn [negb].
  rewrite bool_decide_true by done. apply decodes_ret.
Qed.

(** What [ReadMessage] accepts is a frame with this magic, the length of its
    payload and the checksum of its payload. *)
Lemma ReadMessage_inv magic bs hdr payload rest :
  ReadMessage magic bs = Ok ((hdr, payload), rest) →
  bs = magic ++ mh_Command hdr ++ le_encode 4 (len payload) ++ doubleSHA256Checksum payload ++ payload ++ rest ∧
  mh_Length hdr = len payload ∧ len payload ≤ MaxPayloadSize.
Proof.
  unfold ReadMessage. intros Hs.
  apply reader_bind_Ok in Hs as (hdr' & mid & Hd & Hs). apply read_wrap_Ok in Hd.
  destruct (bool_decide_reflect (mh_Magic hdr' = magic)) as [Hmg|]; [|done]. cbn [negb] in Hs.
  apply reader_bind_Ok in Hs as (pl & mid' & Hp & Hs). apply read_wrap_Ok in Hp. unfold ReadUpTo in Hp.
  injection Hp as <- <-. set (n := Z.to_nat (mh_Length hdr')) in *.
  destruct (Z.eqb_spec (u32 (len (take n mid))) (mh_Length hdr')) as [Hl|]; [|done]. cbn [negb] in Hs.
  destruct (bool_decide_reflect (mh_Checksum hdr' = doubleSHA256First4 (take n mid))) as [Hc|]; [|done].
  cbn [negb] in Hs. injection Hs as <- <- <-.
  unfold DecodeMessageHeader in Hd. apply reader_bind_Ok in Hd as (buf & mid2 & [-> Hbuf]%ReadFull_Ok & Hd).
  cbv zeta in Hd. cbn [mh_Length] in Hd.
  destruct (Z.ltb_spec MaxPayloadSize (le_decode (slice 16 20 buf))) as [|Hmax]; [done|]. injection Hd as <- <-.
  cbn [mh_Magic mh_Length mh_Checksum mh_Command] in *. unfold MessageHeaderSize in Hbuf.
  assert (Hr := le4_range (slice 16 20 buf) ltac:(rewrite slice_length; lia)).
  assert (Hlen : len (take n mid2) = le_decode (slice 16 20 buf)).
  { rewrite u32_id in Hl; [done|]. rewrite length_take. unfold is_u32, n, MaxPayloadSize in *. lia. }
  split_and!; [|done|lia]. rewrite Hlen, le_encode_decode' by (rewrite slice_length; lia).
  change (doubleSHA256Checksum (take n mid2)) with (doubleSHA256First4 (take n mid2)). rewrite <-Hc, <-Hmg, take_drop.
  rewrite !app_assoc, <-!slice_split, slice_all by lia. done.
Qed.

(** C36: Delivery of messages: every message within the limits of its type, sent
    under a command of the protocol, is read back by [ReadMessage] from the bytes
    [WriteLoop] writes, whatever follows on the connection; the command and the
    payload are those sent, and the payload decodes to the message without bytes
    left over. *)
Theorem message_delivery {A} `{CodecLaws A, !CodecFits A} (magic cmd : list byte) (a : A) rest :
  length magic = 4%nat → valid_command cmd → valid a →
  ∃ hdr, ReadMessage magic (write_message magic (cmd, encode a) ++ rest) = Ok ((hdr, encode a), rest) ∧
    CommandString hdr = cmd ∧ decode (encode a) = Ok (a, []).
Proof.
  intros Hm Hc Ha. exists (frame_header magic cmd (encode a)). split_and!.
  - apply ReadMessage_decodes; [done|]. by apply codec_fits.
  - by apply command_prefix_pad.
  - pose proof (codec_decodes a Ha []) as Hd. by rewrite app_nil_r in Hd.
Qed.

(** C37: Every message type of the protocol has a sound encoding: it decodes to the
    message, only encodings of messages within the limits are accepted, in one
    form, and a message within the limits fits a frame. *)
Theorem wire_messages_sound :
  (CodecLaws VersionMsg ∧ CodecFits VersionMsg) ∧ (CodecLaws PingMsg ∧ CodecFits PingMsg) ∧
  (CodecLaws PongMsg ∧ CodecFits PongMsg) ∧ (CodecLaws InvMsg ∧ CodecFits InvMsg) ∧
  (CodecLaws GetDataMsg ∧ CodecFits GetDataMsg) ∧ (CodecLaws GetBlocksMsg ∧ CodecFits GetBlocksMsg) ∧
  (CodecLaws GetHeadersMsg ∧ CodecFits GetHeadersMsg) ∧ (CodecLaws AddrMsg ∧ CodecFits AddrMsg) ∧
  (CodecLaws HeadersMsg ∧ CodecFits HeadersMsg) ∧ (CodecLaws SendHeadersMsg ∧ CodecFits SendHeadersMsg).
Proof. split_and!; apply _. Qed.

(** Only intact frames are accepted: when [ReadMessage] returns a payload, the
    bytes read are the magic of the network, a command, the length of the payload
    and the checksum of the payload before it, and the payload is at most 4 MiB. *)
Theorem ReadMessage_sound magic bs hdr payload rest :
  ReadMessage magic bs = Ok ((hdr, payload), rest) →
  bs = magic ++ mh_Command hdr ++ le_encode 4 (len payload) ++ doubleSHA256Checksum payload ++ payload ++ rest ∧
  mh_Length hdr = len payload ∧ len payload ≤ MaxPayloadSize.
Proof. apply ReadMessage_inv. Qed.

(** ** Witnesses *)

Definition pw_magic : list byte := [xfa; x1c; xc0; xff].
Definition pw_inv : InvMsg := mkInvMsg [mkInvVector InvTypeTx (replicate 32 x11)].
Definition pw_cmd : list byte := [x69; x6e; x76].

Lemma message_delivery_witness :
  ∃ hdr, ReadMessage pw_magic (write_message pw_magic (pw_cmd, encode pw_inv) ++ [x01]) =
           Ok ((hdr, encode pw_inv), [x01]) ∧
    CommandString hdr = pw_cmd ∧ decode (encode pw_inv) = Ok (pw_inv, []).
Proof.
  refine (message_delivery pw_magic pw_cmd pw_inv [x01] _ _ _).
  - reflexivity.
  - split; [cbn; lia|]. by_decide.
  - split; [cbn; lia|]. repeat constructor; cbn; unfold InvTypeTx; lia.
Defined.

Definition pw_frame : list byte := write_message pw_magic (pw_cmd, encode pw_inv).

Lemma ReadMessage_sound_witness :
  mh_Length (frame_header pw_magic pw_cmd (encode pw_inv)) = len (encode pw_inv) ∧ len (encode pw_inv) ≤ MaxPayloadSize.
Proof.
  refine (proj2 (ReadMessage_sound pw_magic (pw_frame ++ [x01]) (frame_header pw_magic pw_cmd (encode pw_inv))
            (encode pw_inv) [x01] _)).
  vm_compute. reflexivity.
Defined.
