(* ===== verification/Headers.v ===== *)
(** * internal/chain/headers.go: the header index

    The tree of validated headers that header-first synchronisation builds, with
    the best chain by height and the set of rejected hashes.

    A [*HeaderNode] is an index into [hi_nodes], the list of the nodes in the
    order of their allocation: nodes are never changed once made, and a node
    removed from [byHash] is still reached by the parent pointers of others.
    Logging is left out; the mutex makes each exported method one call. *)
From S2P Require Import Prelude Types Sha256 Target Params Utxo Keys Script TxValidation.
From S2P Require Import Algorithms Validation BlockFiles Store Chain ChainProps.

Record HeaderNode : Type := mkHeaderNode {
  hn_Hash : Hash;
  hn_Height : Z;
  hn_Header : BlockHeader;
  hn_Work : Z;
  hn_Parent : option nat
}.

Definition maxRejectedHeaders : Z := 50000.
Definition maxHeaderIndexSize : Z := 200000.
Definition maxForkDepth : Z := 2016.

Record HeaderIndex : Type := mkHeaderIndex {
  hi_nodes : list HeaderNode;
  hi_byHash : gmap Hash nat;
  hi_bestHeader : nat;
  hi_genesis : nat;
  hi_rejected : gset Hash;
  hi_rejectedOrder : list Hash;
  hi_bestChainByHeight : list (option nat)
}.

Definition ErrOrphanHeader : error := Sentinel "header parent not found in index".
Definition ErrDuplicateHeader : error := Sentinel "header already in index".
Definition ErrRejectedHeader : error := Sentinel "header descends from a rejected chain".

Definition zero_node : HeaderNode :=
  mkHeaderNode ZeroHash 0 (mkBlockHeader 0 ZeroHash ZeroHash 0 0 0) 0 None.

(** The node behind a pointer; every pointer of an index is allocated (lemmas
    below), so the default is never read. *)
Definition node_of (nodes : list HeaderNode) (q : nat) : HeaderNode := default zero_node (nodes !! q).
Definition node (idx : HeaderIndex) (q : nat) : HeaderNode := node_of (hi_nodes idx) q.

Definition set_best (q : nat) idx := mkHeaderIndex (hi_nodes idx) (hi_byHash idx) q
  (hi_genesis idx) (hi_rejected idx) (hi_rejectedOrder idx) (hi_bestChainByHeight idx).
Definition set_byHash (m : gmap Hash nat) idx := mkHeaderIndex (hi_nodes idx) m (hi_bestHeader idx)
  (hi_genesis idx) (hi_rejected idx) (hi_rejectedOrder idx) (hi_bestChainByHeight idx).
Definition set_rejected (r : gset Hash) (o : list Hash) idx := mkHeaderIndex (hi_nodes idx)
  (hi_byHash idx) (hi_bestHeader idx) (hi_genesis idx) r o (hi_bestChainByHeight idx).
Definition set_bestChain (l : list (option nat)) idx := mkHeaderIndex (hi_nodes idx)
  (hi_byHash idx) (hi_bestHeader idx) (hi_genesis idx) (hi_rejected idx) (hi_rejectedOrder idx) l.

Definition NewHeaderIndex (genesisHeader : BlockHeader) : HeaderIndex :=
  let genesisHash := HashBlockHeader genesisHeader in
  let n := mkHeaderNode genesisHash 0 genesisHeader (CalcWork (hdr_Bits genesisHeader)) None in
  mkHeaderIndex [n] {[genesisHash := 0%nat]} 0 0 ∅ [] [Some 0%nat].

(** ** The rejected hashes *)

(** The hashes that are left, and their order, once the oldest have been
    evicted to make room for one. *)
Fixpoint evict_rejected (rejected : gset Hash) (order : list Hash) : gset Hash * list Hash :=
  match order with
  | [] => (rejected, [])
  | evict :: order' =>
      if Z.of_nat (size rejected) >=? maxRejectedHeaders
      then evict_rejected (rejected ∖ {[evict]}) order'
      else (rejected, order)
  end.

Definition addRejectedLocked (hash : Hash) idx : HeaderIndex :=
  if decide (hash ∈ hi_rejected idx) then idx else
  let '(rejected, order) := evict_rejected (hi_rejected idx) (hi_rejectedOrder idx) in
  set_rejected ({[hash]} ∪ rejected) (order ++ [hash]) idx.

(** ** The best chain by height *)

(** [index[node.Height] = node] along the parents of [q]; a parent is allocated
    before its child, so [q + 1] turns reach the root. *)
Fixpoint fill_index (fuel : nat) (nodes : list HeaderNode) (q : option nat)
    (index : list (option nat)) : res (list (option nat)) :=
  match q, fuel with
  | Some q, S fuel' =>
      let height := Z.to_nat (hn_Height (node_of nodes q)) in
      if (height <? length index)%nat
      then fill_index fuel' nodes (hn_Parent (node_of nodes q)) (<[height := Some q]> index)
      else Panic
  | _, _ => Ok index
  end.

Definition rebuildHeightIndex : proc HeaderIndex () := λ idx,
  let best := hi_bestHeader idx in
  let height := hn_Height (node idx best) in
  let chain := hi_bestChainByHeight idx in
  if (height =? len chain) && (0 <? height) &&
     bool_decide (nth (Z.to_nat (height - 1)) chain None = hn_Parent (node idx best))
  then (Ok (), set_bestChain (chain ++ [Some best]) idx)
  else
    match fill_index (S best) (hi_nodes idx) (Some best) (replicate (Z.to_nat (u32 (height + 1))) None) with
    | Ok index => (Ok (), set_bestChain index idx)
    | Err e => (Err e, idx)
    | Panic => (Panic, idx)
    end.

(** ** Pruning *)

(** The first walk collects hashes down to a node at [pruneBelow] or lower, and
    gives that node; the second goes on to the root. *)
Fixpoint protect_above (fuel : nat) (nodes : list HeaderNode) (pruneBelow : Z) (q : option nat)
    (acc : gset Hash) : gset Hash * option nat :=
  match q, fuel with
  | Some q, S fuel' =>
      let acc := {[hn_Hash (node_of nodes q)]} ∪ acc in
      if hn_Height (node_of nodes q) <=? pruneBelow then (acc, Some q)
      else protect_above fuel' nodes pruneBelow (hn_Parent (node_of nodes q)) acc
  | _, _ => (acc, q)
  end.
Fixpoint protect_rest (fuel : nat) (nodes : list HeaderNode) (q : option nat) (acc : gset Hash) : gset Hash :=
  match q, fuel with
  | Some q, S fuel' =>
      protect_rest fuel' nodes (hn_Parent (node_of nodes q)) ({[hn_Hash (node_of nodes q)]} ∪ acc)
  | _, _ => acc
  end.

Definition pruneStaleForks idx : HeaderIndex :=
  let best := hi_bestHeader idx in
  let bestHeight := hn_Height (node idx best) in
  if bestHeight <? maxForkDepth then idx else
  let pruneBelow := bestHeight - maxForkDepth in
  let '(acc, rest) := protect_above (S best) (hi_nodes idx) pruneBelow (Some best) ∅ in
  let bestChainHashes := protect_rest (S best) (hi_nodes idx) rest acc in
  set_byHash (filter (λ '(hash, q), pruneBelow < hn_Height (node idx q) ∨ hash ∈ bestChainHashes)
                     (hi_byHash idx)) idx.

(** ** Ancestors *)

(** [for node != nil && node.Height > height { node = node.Parent }] *)
Fixpoint walk_back (fuel : nat) (nodes : list HeaderNode) (height : Z) (q : option nat) : option nat :=
  match q, fuel with
  | Some q, S fuel' =>
      if height <? hn_Height (node_of nodes q)
      then walk_back fuel' nodes height (hn_Parent (node_of nodes q)) else Some q
  | _, _ => q
  end.

Definition walk_header idx (parentNode : nat) (height : Z) : option BlockHeader :=
  match walk_back (S parentNode) (hi_nodes idx) height (Some parentNode) with
  | Some q => if hn_Height (node idx q) =? height then Some (hn_Header (node idx q)) else None
  | None => None
  end.

Definition header_ancestors idx (parentNode : nat) : Ancestors :=
  let chain := hi_bestChainByHeight idx in
  let parentHeight := hn_Height (node idx parentNode) in
  let onBestChain := (parentHeight <? len chain) &&
    bool_decide (nth (Z.to_nat parentHeight) chain None = Some parentNode) in
  λ height,
    if onBestChain && (height <? len chain) then
      match nth (Z.to_nat height) chain None with
      | Some q => Some (hn_Header (node idx q))
      | None => walk_header idx parentNode height
      end
    else walk_header idx parentNode height.

Section index.
Context (p : ChainParams) (engine : Engine).
Implicit Types idx : HeaderIndex.

(** ** Adding headers *)

(** The new node and its entry; the result is the pointer to the node. *)
Definition link_header (header : BlockHeader) (headerHash : Hash) (parentNode : nat) idx : nat * HeaderIndex :=
  let parent := node idx parentNode in
  let n := mkHeaderNode headerHash (u32 (hn_Height parent + 1)) header
             (hn_Work parent + CalcWork (hdr_Bits header)) (Some parentNode) in
  let q := length (hi_nodes idx) in
  (q, mkHeaderIndex (hi_nodes idx ++ [n]) (<[headerHash := q]> (hi_byHash idx)) (hi_bestHeader idx)
        (hi_genesis idx) (hi_rejected idx) (hi_rejectedOrder idx) (hi_bestChainByHeight idx)).

Definition InsertTrustedHeader (header : BlockHeader) : proc HeaderIndex () := λ idx,
  let headerHash := HashBlockHeader header in
  if bool_decide (is_Some (hi_byHash idx !! headerHash)) then (Ok (), idx) else
  match hi_byHash idx !! hdr_PrevBlock header with
  | None => (Err ErrOrphanHeader, idx)
  | Some parentNode =>
      let '(q, idx') := link_header header headerHash parentNode idx in
      if hn_Work (node idx' (hi_bestHeader idx')) <? hn_Work (node idx' q)
      then rebuildHeightIndex (set_best q idx')
      else (Ok (), idx')
  end.

Definition addHeaderLocked (header : BlockHeader) (nowUnix : Z) : proc HeaderIndex nat := λ idx,
  let headerHash := HashBlockHeader header in
  if bool_decide (is_Some (hi_byHash idx !! headerHash)) then (Err ErrDuplicateHeader, idx) else
  if bool_decide (headerHash ∈ hi_rejected idx) then (Err ErrRejectedHeader, idx) else
  if bool_decide (hdr_PrevBlock header ∈ hi_rejected idx)
  then (Err ErrRejectedHeader, addRejectedLocked headerHash idx) else
  match hi_byHash idx !! hdr_PrevBlock header with
  | None => (Err ErrOrphanHeader, idx)
  | Some parentNode =>
      let parent := node idx parentNode in
      if (Z.of_nat (size (hi_byHash idx)) >=? maxHeaderIndexSize) &&
         (hn_Work parent + CalcWork (hdr_Bits header) <=? hn_Work (node idx (hi_bestHeader idx)))
      then (Err (Errorf "header index at capacity, rejecting non-best-chain header"), idx) else
      let childHeight := u32 (hn_Height parent + 1) in
      match FullValidateHeader engine header (hn_Header parent) childHeight
              (header_ancestors idx parentNode) nowUnix (hn_Height parent) p with
      | Panic => (Panic, idx)
      | Err e => (Err (Wrapf "header validation" e), addRejectedLocked headerHash idx)
      | Ok _ =>
          let '(q, idx') := link_header header headerHash parentNode idx in
          if hn_Work (node idx' (hi_bestHeader idx')) <? hn_Work (node idx' q) then
            match rebuildHeightIndex (set_best q idx') with
            | (Ok _, idx'') =>
                (Ok q, if hn_Height (node idx'' q) mod 100 =? 0 then pruneStaleForks idx'' else idx'')
            | (Err e, idx'') => (Err e, idx'')
            | (Panic, idx'') => (Panic, idx'')
            end
          else (Ok q, idx')
      end
  end.
Definition AddHeader : BlockHeader → Z → proc HeaderIndex nat := addHeaderLocked.

(** The count of added headers and the first error that is neither a duplicate
    nor a rejected header. *)
Fixpoint add_headers (headers : list BlockHeader) (nowUnix added : Z) idx : res (Z * option error) * HeaderIndex :=
  match headers with
  | [] => (Ok (added, None), idx)
  | header :: rest =>
      match addHeaderLocked header nowUnix idx with
      | (Ok _, idx') => add_headers rest nowUnix (added + 1) idx'
      | (Err e, idx') =>
          if errors_Is e ErrDuplicateHeader || errors_Is e ErrRejectedHeader
          then add_headers rest nowUnix added idx'
          else (Ok (added, Some e), idx')
      | (Panic, idx') => (Panic, idx')
      end
  end.
Definition AddHeaders (headers : list BlockHeader) (nowUnix : Z) : proc HeaderIndex (Z * option error) :=
  add_headers headers nowUnix 0.
End index.

(** ** Queries *)

Definition BestHeader idx : nat := hi_bestHeader idx.
Definition BestHeaderHeight idx : Z := hn_Height (node idx (hi_bestHeader idx)).
Definition HasHeader idx (hash : Hash) : bool := bool_decide (is_Some (hi_byHash idx !! hash)).
Definition GetHeaderNode idx (hash : Hash) : option nat := hi_byHash idx !! hash.
Definition getHeaderByHeightLocked idx (height : Z) : option nat :=
  if height <? len (hi_bestChainByHeight idx)
  then nth (Z.to_nat height) (hi_bestChainByHeight idx) None else None.
Definition HeaderCount idx : Z := Z.of_nat (size (hi_byHash idx)).

(** [for node.Parent != nil && node.Height > targetHeight { node = node.Parent }] *)
Fixpoint walk_to (fuel : nat) (nodes : list HeaderNode) (target : Z) (q : nat) : nat :=
  match fuel, hn_Parent (node_of nodes q) with
  | S fuel', Some parent =>
      if target <? hn_Height (node_of nodes q) then walk_to fuel' nodes target parent else q
  | _, _ => q
  end.

(** The height decreases at every turn, so [height + 1] turns suffice. *)
Fixpoint header_locator (fuel : nat) idx (q : nat) (step n : Z) : list Hash :=
  match fuel with
  | O => []
  | S fuel' =>
      let height := hn_Height (node idx q) in
      hn_Hash (node idx q) ::
      if height =? 0 then [] else
      let target := if step <=? height then height - step else 0 in
      header_locator fuel' idx (walk_to (S q) (hi_nodes idx) target q)
        (if 10 <? n + 1 then u32 (step * 2) else step) (n + 1)
  end.
Definition HeaderLocator idx : list Hash :=
  header_locator (S (Z.to_nat (BestHeaderHeight idx))) idx (hi_bestHeader idx) 1 0.

(** The hashes of the best chain from height [h] up, at most [limit] of them.
    The loop ends above the best height, unless that is [2 ^ 32 - 1]. *)
Fixpoint fetch_loop (turns : nat) idx (h limit : Z) : list Hash :=
  match turns with
  | O => []
  | S turns' =>
      if 0 <? limit then
        match getHeaderByHeightLocked idx h with
        | Some q => hn_Hash (node idx q) :: fetch_loop turns' idx (h + 1) (limit - 1)
        | None => fetch_loop turns' idx (h + 1) limit
        end
      else []
  end.
Definition HeadersToFetch idx (startHeight limit : Z) : list Hash :=
  fetch_loop (Z.to_nat (BestHeaderHeight idx + 1 - startHeight)) idx startHeight limit.

(** ** The tree behind the pointers *)

(** A node is the root or hangs below an older node, with the height, work and
    previous hash that go with it. *)
Definition node_ok (nodes : list HeaderNode) (q : nat) (n : HeaderNode) : Prop :=
  hn_Hash n = HashBlockHeader (hn_Header n) ∧
  match hn_Parent n with
  | None => q = 0%nat ∧ hn_Height n = 0 ∧ hn_Work n = CalcWork (hdr_Bits (hn_Header n))
  | Some r => ∃ pn, nodes !! r = Some pn ∧ (r < q)%nat ∧ hn_Height n = u32 (hn_Height pn + 1) ∧
      hn_Work n = hn_Work pn + CalcWork (hdr_Bits (hn_Header n)) ∧
      hdr_PrevBlock (hn_Header n) = hn_Hash pn
  end.
Definition tree_ok (nodes : list HeaderNode) : Prop :=
  len nodes < 2 ^ 32 ∧ ∀ q n, nodes !! q = Some n → node_ok nodes q n.

(** The branch of a node: the pointers from the root up to it. *)
Fixpoint parents (fuel : nat) (nodes : list HeaderNode) (q : nat) : list nat :=
  match fuel with
  | O => []
  | S fuel' => q :: match hn_Parent (node_of nodes q) with Some r => parents fuel' nodes r | None => [] end
  end.
Definition branch (nodes : list HeaderNode) (q : nat) : list nat := reverse (parents (S q) nodes q).
#[local] Arguments branch : simpl never.

Lemma node_of_lookup nodes q n : nodes !! q = Some n → node_of nodes q = n.
Proof. unfold node_of. by intros ->. Qed.

Lemma node_of_app nodes l q : (q < length nodes)%nat → node_of (nodes ++ l) q = node_of nodes q.
Proof. intros. unfold node_of. by rewrite lookup_app_l. Qed.

Section tree.
Context (nodes : list HeaderNode) (Htree : tree_ok nodes).

Lemma node_ok_of q : (q < length nodes)%nat → node_ok nodes q (node_of nodes q).
Proof.
  intros Hq. destruct (lookup_lt_is_Some_2 nodes q Hq) as [n Hn].
  rewrite (node_of_lookup _ _ _ Hn). by apply Htree.
Qed.

Lemma parent_older q r : (q < length nodes)%nat → hn_Parent (node_of nodes q) = Some r → (r < q)%nat.
Proof. intros Hq Hr. destruct (node_ok_of q Hq) as [_ Hp]. rewrite Hr in Hp. by destruct Hp as (? & _ & ? & _). Qed.

Lemma height_range q : (q < length nodes)%nat → 0 ≤ hn_Height (node_of nodes q) ≤ Z.of_nat q.
Proof.
  destruct Htree as [Hlen _]. induction (lt_wf q) as [q _ IH]. intros Hq.
  destruct (node_ok_of q Hq) as [_ Hp]. destruct (hn_Parent (node_of nodes q)) as [r|].
  - destruct Hp as (pn & Hr & Hlt & Hh & _). specialize (IH r Hlt ltac:(lia)).
    rewrite (node_of_lookup _ _ _ Hr) in IH. rewrite Hh, u32_id by (unfold is_u32; lia). lia.
  - lia.
Qed.

Lemma parent_height q r : (q < length nodes)%nat → hn_Parent (node_of nodes q) = Some r →
  hn_Height (node_of nodes q) = hn_Height (node_of nodes r) + 1.
Proof.
  intros Hq Hr. pose proof (parent_older q r Hq Hr). destruct Htree as [Hlen _].
  destruct (node_ok_of q Hq) as [_ Hp]. rewrite Hr in Hp. destruct Hp as (pn & Hpn & _ & Hh & _).
  pose proof (height_range r ltac:(lia)). rewrite (node_of_lookup _ _ _ Hpn) in *.
  rewrite Hh, u32_id; unfold is_u32; lia.
Qed.

Lemma root_height q : (q < length nodes)%nat → hn_Parent (node_of nodes q) = None →
  hn_Height (node_of nodes q) = 0.
Proof. intros Hq Hr. destruct (node_ok_of q Hq) as [_ Hp]. rewrite Hr in Hp. tauto. Qed.

Lemma parents_fuel f1 f2 q : (q < length nodes)%nat → (q < f1)%nat → (q < f2)%nat →
  parents f1 nodes q = parents f2 nodes q.
Proof.
  revert f2 q. induction f1 as [|f1 IH]; intros [|f2] q Hq H1 H2; try lia.
  cbn [parents]. f_equal. destruct (hn_Parent (node_of nodes q)) as [r|] eqn:Hr; [|done].
  pose proof (parent_older q r Hq Hr). apply IH; lia.
Qed.

Lemma branch_eq q : (q < length nodes)%nat → branch nodes q =
  match hn_Parent (node_of nodes q) with Some r => branch nodes r | None => [] end ++ [q].
Proof.
  intros Hq. unfold branch at 1. cbn [parents]. rewrite reverse_cons. f_equal.
  destruct (hn_Parent (node_of nodes q)) as [r|] eqn:Hr; [|done]. unfold branch. f_equal.
  pose proof (parent_older q r Hq Hr). apply parents_fuel; lia.
Qed.

(** Induction along the parents of a node. *)
Lemma branch_ind (P : nat → Prop) :
  (∀ q, (q < length nodes)%nat → hn_Parent (node_of nodes q) = None → P q) →
  (∀ q r, (q < length nodes)%nat → (r < q)%nat → hn_Parent (node_of nodes q) = Some r → P r → P q) →
  ∀ q, (q < length nodes)%nat → P q.
Proof.
  intros Hroot Hstep q. induction (lt_wf q) as [q _ IH]. intros Hq.
  destruct (hn_Parent (node_of nodes q)) as [r|] eqn:Hr; [|by apply Hroot].
  pose proof (parent_older q r Hq Hr). apply (Hstep q r); auto with lia.
Qed.

Lemma branch_length q : (q < length nodes)%nat →
  len (branch nodes q) = hn_Height (node_of nodes q) + 1.
Proof.
  revert q. apply branch_ind; intros q; intros.
  - rewrite branch_eq, root_height by done. rewrite H0. done.
  - rewrite branch_eq by done. rewrite H1, length_app, Nat2Z.inj_add, H2, (parent_height q r) by done.
    simpl. lia.
Qed.

Lemma branch_lookup q i r : (q < length nodes)%nat → branch nodes q !! i = Some r →
  (r ≤ q)%nat ∧ hn_Height (node_of nodes r) = Z.of_nat i ∧ branch nodes r = take (S i) (branch nodes q).
Proof.
  intros Hq. revert i. revert q Hq. refine (branch_ind _ _ _).
  - intros q Hq Hr i. rewrite branch_eq by done. rewrite Hr. intros Hi.
    apply list_lookup_singleton_Some in Hi as [-> ->]. rewrite branch_eq, Hr, root_height by done. done.
  - intros q s Hq Hlt Hs IH i Hi. rewrite branch_eq in Hi by done. rewrite Hs in Hi.
    pose proof (branch_length s ltac:(lia)). pose proof (parent_height q s Hq Hs).
    rewrite (branch_eq q), Hs by done. apply lookup_app_Some in Hi as [Hi|[Hge Hi]].
    + pose proof (lookup_lt_Some _ _ _ Hi). destruct (IH i Hi) as (? & ? & ->).
      split_and!; [lia|done|]. by rewrite take_app_le by lia.
    + apply list_lookup_singleton_Some in Hi as [Hi <-].
      rewrite (branch_eq q), Hs by done. split_and!; [lia|lia|].
      rewrite take_ge; [done|]. rewrite length_app. simpl. lia.
Qed.

Lemma branch_top q : (q < length nodes)%nat →
  branch nodes q !! Z.to_nat (hn_Height (node_of nodes q)) = Some q.
Proof.
  intros Hq. pose proof (branch_length q Hq) as Hl. rewrite (branch_eq q) in * by done.
  rewrite length_app in Hl. simpl in Hl. apply list_lookup_middle. lia.
Qed.

Lemma branch_parent q r i : (q < length nodes)%nat → hn_Parent (node_of nodes q) = Some r →
  Z.of_nat i < hn_Height (node_of nodes q) → branch nodes q !! i = branch nodes r !! i.
Proof.
  intros Hq Hr Hi. pose proof (parent_older q r Hq Hr). rewrite (branch_eq q), Hr by done.
  pose proof (branch_length r ltac:(lia)). pose proof (parent_height q r Hq Hr).
  rewrite lookup_app_l; [done|lia].
Qed.

(** ** The walks of the source *)

Lemma walk_back_spec q fuel h : (q < length nodes)%nat → (q < fuel)%nat →
  0 ≤ h ≤ hn_Height (node_of nodes q) → walk_back fuel nodes h (Some q) = branch nodes q !! Z.to_nat h.
Proof.
  intros Hq. revert fuel. revert q Hq. refine (branch_ind _ _ _).
  - intros q Hq Hr [|fuel] Hf Hh; [lia|]. cbn [walk_back]. rewrite root_height in * by done.
    assert (h = 0) as -> by lia. cbn. rewrite branch_eq, Hr by done. done.
  - intros q r Hq Hlt Hr IH [|fuel] Hf Hh; [lia|]. cbn [walk_back].
    pose proof (parent_height q r Hq Hr). destruct (Z.ltb_spec h (hn_Height (node_of nodes q))).
    + rewrite Hr, IH, (branch_parent q r) by (done || lia). done.
    + assert (h = hn_Height (node_of nodes q)) as -> by lia. by rewrite branch_top.
Qed.

Lemma walk_to_spec q fuel h : (q < length nodes)%nat → (q < fuel)%nat →
  0 ≤ h ≤ hn_Height (node_of nodes q) → branch nodes q !! Z.to_nat h = Some (walk_to fuel nodes h q).
Proof.
  intros Hq. revert fuel. revert q Hq. refine (branch_ind _ _ _).
  - intros q Hq Hr [|fuel] Hf Hh; [lia|]. cbn [walk_to]. rewrite Hr, root_height in * by done.
    assert (h = 0) as -> by lia. cbn. rewrite branch_eq, Hr by done. done.
  - intros q r Hq Hlt Hr IH [|fuel] Hf Hh; [lia|]. cbn [walk_to]. rewrite Hr.
    pose proof (parent_height q r Hq Hr). destruct (Z.ltb_spec h (hn_Height (node_of nodes q))).
    + rewrite (branch_parent q r) by (done || lia). apply IH; lia.
    + assert (h = hn_Height (node_of nodes q)) as -> by lia. by rewrite branch_top.
Qed.

Lemma fill_index_spec q fuel index : (q < length nodes)%nat → (q < fuel)%nat →
  hn_Height (node_of nodes q) < len index →
  fill_index fuel nodes (Some q) index
  = Ok ((Some <$> branch nodes q) ++ drop (Z.to_nat (hn_Height (node_of nodes q) + 1)) index).
Proof.
  intros Hq. revert fuel index. revert q Hq. refine (branch_ind _ _ _).
  - intros q Hq Hr [|fuel] index Hf Hi; [lia|]. cbn [fill_index]. rewrite Hr, root_height in * by done.
    destruct index as [|o index]; [simpl in Hi; lia|]. cbn. rewrite branch_eq, Hr by done.
    destruct fuel; done.
  - intros q r Hq Hlt Hr IH [|fuel] index Hf Hi; [lia|]. cbn [fill_index].
    pose proof (parent_height q r Hq Hr) as Hpar. pose proof (height_range r ltac:(lia)).
    rewrite (proj2 (Nat.ltb_lt _ _)), Hr by lia.
    rewrite IH by (rewrite ?length_insert; lia). rewrite (branch_eq q), Hr, fmap_app by done.
    rewrite <-(app_assoc _ _ (drop _ index)). do 2 f_equal. rewrite <-Hpar.
    set (k := Z.to_nat (hn_Height (node_of nodes q))).
    replace (Z.to_nat (hn_Height (node_of nodes q) + 1)) with (S k) by lia.
    rewrite insert_take_drop, drop_app_length' by (rewrite ?length_take; lia). done.
Qed.

Definition branch_hashes (q : nat) : gset Hash :=
  list_to_set ((λ r, hn_Hash (node_of nodes r)) <$> branch nodes q).

Lemma branch_hashes_parent q : (q < length nodes)%nat → branch_hashes q =
  {[hn_Hash (node_of nodes q)]} ∪ match hn_Parent (node_of nodes q) with Some r => branch_hashes r | None => ∅ end.
Proof.
  intros Hq. unfold branch_hashes. rewrite branch_eq, fmap_app, list_to_set_app_L by done.
  destruct (hn_Parent _); cbn; set_solver.
Qed.

Lemma protect_rest_spec q fuel acc : (q < length nodes)%nat → (q < fuel)%nat →
  protect_rest fuel nodes (Some q) acc = branch_hashes q ∪ acc.
Proof.
  intros Hq. revert fuel acc. revert q Hq. refine (branch_ind _ _ _).
  - intros q Hq Hr [|fuel] acc Hf; [lia|]. cbn [protect_rest].
    rewrite branch_hashes_parent, Hr by done. destruct fuel; cbn; set_solver.
  - intros q r Hq Hlt Hr IH [|fuel] acc Hf; [lia|]. cbn [protect_rest].
    rewrite (branch_hashes_parent q), Hr, IH by (done || lia). set_solver.
Qed.

Lemma protect_above_spec q fuel f2 b acc : (q < length nodes)%nat → (q < fuel)%nat → (q < f2)%nat →
  protect_rest f2 nodes (protect_above fuel nodes b (Some q) acc).2 (protect_above fuel nodes b (Some q) acc).1
  = branch_hashes q ∪ acc.
Proof.
  intros Hq. revert fuel acc. revert q Hq. refine (branch_ind _ _ _).
  - intros q Hq Hr [|fuel] acc Hf H2; [lia|]. cbn [protect_above]. case_match.
    + cbn. rewrite protect_rest_spec by done. rewrite branch_hashes_parent, Hr by done. set_solver.
    + rewrite branch_hashes_parent, Hr by done. destruct fuel, f2; cbn; set_solver.
  - intros q r Hq Hlt Hr IH [|fuel] acc Hf H2; [lia|]. cbn [protect_above]. case_match.
    + cbn [fst snd]. rewrite protect_rest_spec by done. rewrite branch_hashes_parent, Hr by done. set_solver.
    + rewrite Hr, IH by lia. rewrite (branch_hashes_parent q), Hr by done. set_solver.
Qed.
End tree.

Lemma node_ok_app nodes l q n : node_ok nodes q n → node_ok (nodes ++ l) q n.
Proof.
  intros [Hh Hp]. split; [done|]. destruct (hn_Parent n) as [r|]; [|done].
  destruct Hp as (pn & Hr & ?). exists pn. split; [by apply lookup_app_l_Some|done].
Qed.

Lemma tree_ok_snoc nodes n : tree_ok nodes → node_ok nodes (length nodes) n →
  len nodes + 1 < 2 ^ 32 → tree_ok (nodes ++ [n]).
Proof.
  intros [Hlen Hok] Hn Hmax. split; [rewrite length_app; simpl; lia|]. intros q m Hq. apply node_ok_app.
  apply lookup_app_Some in Hq as [Hq|[Hge Hq]]; [by apply Hok|].
  apply list_lookup_singleton_Some in Hq as [Hz <-]. by assert (q = length nodes) as -> by lia.
Qed.

Lemma branch_app nodes l q : tree_ok nodes → (q < length nodes)%nat → branch (nodes ++ l) q = branch nodes q.
Proof.
  intros Htree Hq. unfold branch. f_equal. generalize (S q) as fuel. intros fuel. revert q Hq.
  induction fuel as [|fuel IH]; [done|]; intros q Hq. cbn [parents]. f_equal.
  rewrite node_of_app by done. destruct (hn_Parent (node_of nodes q)) as [r|] eqn:Hr; [|done].
  apply IH. pose proof (parent_older nodes Htree q r Hq Hr). lia.
Qed.

(** ** The invariant *)

(** The chain of a node's ancestors as [getAncestor] sees it. *)
Definition header_at (nodes : list HeaderNode) (q : nat) (h : Z) : option BlockHeader :=
  (λ r, hn_Header (node_of nodes r)) <$> branch nodes q !! Z.to_nat h.

Section invariant.
Context (p : ChainParams) (engine : Engine).

(** The node is the root, holds a trusted header, or its header passed the
    validation below its parent with its own ancestors. *)
Definition validated (trusted : list BlockHeader) (nodes : list HeaderNode) (n : HeaderNode) : Prop :=
  match hn_Parent n with
  | None => True
  | Some r => hn_Header n ∈ trusted ∨
      ∃ now getAncestor,
        (∀ h, 0 ≤ h ≤ hn_Height (node_of nodes r) → getAncestor h = header_at nodes r h) ∧
        FullValidateHeader engine (hn_Header n) (hn_Header (node_of nodes r)) (hn_Height n)
          getAncestor now (hn_Height (node_of nodes r)) p = Ok ()
  end.

Record index_ok (trusted : list BlockHeader) (idx : HeaderIndex) : Prop := {
  io_tree : tree_ok (hi_nodes idx);
  io_valid : ∀ q n, hi_nodes idx !! q = Some n → validated trusted (hi_nodes idx) n;
  io_byHash : ∀ h q, hi_byHash idx !! h = Some q →
    (q < length (hi_nodes idx))%nat ∧ hn_Hash (node idx q) = h;
  io_best : hi_byHash idx !! hn_Hash (node idx (hi_bestHeader idx)) = Some (hi_bestHeader idx);
  io_work : ∀ q, (q < length (hi_nodes idx))%nat →
    hn_Work (node idx q) ≤ hn_Work (node idx (hi_bestHeader idx));
  io_kept : ∀ r, (r < length (hi_nodes idx))%nat → hi_byHash idx !! hn_Hash (node idx r) = None →
    ∃ r' s, (r' < length (hi_nodes idx))%nat ∧ (s < length (hi_nodes idx))%nat ∧
      hn_Hash (node idx r') = hn_Hash (node idx r) ∧ hn_Height (node idx r') + maxForkDepth ≤ hn_Height (node idx s);
  io_chain : hi_bestChainByHeight idx = Some <$> branch (hi_nodes idx) (hi_bestHeader idx);
  io_rejected : NoDup (hi_rejectedOrder idx) ∧ hi_rejected idx = list_to_set (hi_rejectedOrder idx) ∧
    len (hi_rejectedOrder idx) ≤ maxRejectedHeaders
}.

Lemma best_allocated trusted idx : index_ok trusted idx → (hi_bestHeader idx < length (hi_nodes idx))%nat.
Proof. intros Hok. eapply io_byHash; [done|apply Hok]. Qed.

(** ** Queries under the invariant *)

Lemma chain_lookup trusted idx h : index_ok trusted idx →
  nth h (hi_bestChainByHeight idx) None = branch (hi_nodes idx) (hi_bestHeader idx) !! h.
Proof. intros Hok. rewrite (io_chain _ _ Hok), nth_lookup, list_lookup_fmap. by destruct (_ !! h). Qed.

Lemma chain_length trusted idx : index_ok trusted idx →
  len (hi_bestChainByHeight idx) = BestHeaderHeight idx + 1.
Proof.
  intros Hok. rewrite (io_chain _ _ Hok), length_fmap, branch_length; [done|apply Hok|].
  by eapply best_allocated.
Qed.

Lemma getHeaderByHeight_spec trusted idx h : index_ok trusted idx → 0 ≤ h →
  getHeaderByHeightLocked idx h = branch (hi_nodes idx) (hi_bestHeader idx) !! Z.to_nat h.
Proof.
  intros Hok Hh. unfold getHeaderByHeightLocked. erewrite chain_lookup by done.
  destruct (Z.ltb_spec h (len (hi_bestChainByHeight idx))); [done|].
  rewrite lookup_ge_None_2; [done|]. pose proof (io_chain _ _ Hok) as Hc.
  apply (f_equal length) in Hc. rewrite length_fmap in Hc. lia.
Qed.

Lemma header_ancestors_spec trusted idx q h : index_ok trusted idx → (q < length (hi_nodes idx))%nat →
  0 ≤ h ≤ hn_Height (node idx q) → header_ancestors idx q h = header_at (hi_nodes idx) q h.
Proof.
  intros Hok Hq Hh. pose proof (io_tree _ _ Hok) as Htree. unfold header_ancestors.
  set (best := hi_bestHeader idx).
  assert (Hwalk : walk_header idx q h = header_at (hi_nodes idx) q h).
  { unfold walk_header, header_at. rewrite walk_back_spec by (done || lia).
    destruct (branch (hi_nodes idx) q !! Z.to_nat h) as [r|] eqn:Hr; [|done].
    destruct (branch_lookup _ Htree _ _ _ Hq Hr) as (_ & Hhr & _). unfold node. rewrite Hhr.
    rewrite (proj2 (Z.eqb_eq _ _)) by lia. done. }
  case_match eqn:Hcond; [|done]. erewrite chain_lookup by done.
  apply andb_true_iff in Hcond as [[Hb%Z.ltb_lt Hon%bool_decide_eq_true]%andb_true_iff Hlt%Z.ltb_lt].
  erewrite chain_lookup in Hon by done. fold best in Hon.
  destruct (branch_lookup _ Htree best _ _ ltac:(by eapply best_allocated) Hon) as (_ & _ & Htake).
  fold best. unfold header_at in *. rewrite Htake in *. rewrite lookup_take_lt in * by lia.
  destruct (branch (hi_nodes idx) best !! Z.to_nat h); [done|exact Hwalk].
Qed.

(** ** Preservation *)

Lemma size_rejected order : NoDup order → size (list_to_set order : gset Hash) = length order.
Proof. intros. by rewrite size_list_to_set. Qed.

Lemma evict_rejected_spec order rejected : NoDup order → rejected = list_to_set order →
  (evict_rejected rejected order).1 = list_to_set (evict_rejected rejected order).2 ∧
  len (evict_rejected rejected order).2 < maxRejectedHeaders ∧
  ∃ l, order = l ++ (evict_rejected rejected order).2.
Proof.
  intros Hnd ->. induction order as [|h order IH]; cbn [evict_rejected].
  - split_and!; [done|by vm_compute|by exists []].
  - rewrite size_rejected by done. destruct (Z.geb_spec (len (h :: order)) maxRejectedHeaders).
    + apply NoDup_cons in Hnd as [Hh Hnd].
      replace (list_to_set (h :: order) ∖ {[h]}) with (list_to_set order : gset Hash).
      * destruct (IH Hnd) as (? & ? & l & Hl). split_and!; [done|done|exists (h :: l)].
        by rewrite Hl at 1.
      * rewrite list_to_set_cons. set_solver.
    + split_and!; [done|cbn [snd]; lia|by exists []].
Qed.

Lemma addRejected_ok trusted hash idx : index_ok trusted idx → index_ok trusted (addRejectedLocked hash idx).
Proof.
  intros Hok. unfold addRejectedLocked. destruct (decide (hash ∈ hi_rejected idx)) as [|Hnew]; [done|].
  destruct Hok as [? ? ? ? ? ? ? (Hnd & Hset & Hlen)].
  destruct (evict_rejected_spec _ _ Hnd Hset) as (Hs & Hl & l & Happ).
  destruct (evict_rejected _ _) as [r o]. cbn [fst snd] in *. split; try done. cbn.
  rewrite Hset, elem_of_list_to_set, Happ in Hnew. rewrite Happ in Hnd. split_and!.
  - apply NoDup_app in Hnd as (_ & _ & Hnd). apply NoDup_app. split_and!; [done| |apply NoDup_singleton].
    intros x Hx ->%list_elem_of_singleton. apply Hnew, elem_of_app. by right.
  - rewrite Hs, list_to_set_app_L. set_solver.
  - rewrite length_app. simpl. lia.
Qed.
Lemma validated_app trusted trusted' nodes l q n : tree_ok nodes → nodes !! q = Some n →
  trusted ⊆ trusted' → validated trusted nodes n → validated trusted' (nodes ++ l) n.
Proof.
  intros Htree Hq Hsub. unfold validated. destruct (hn_Parent n) as [r|] eqn:Hr; [|done].
  pose proof (lookup_lt_Some _ _ _ Hq) as Hlt.
  assert (Hrl : (r < length nodes)%nat).
  { pose proof (parent_older _ Htree q r Hlt) as Ho. rewrite (node_of_lookup _ _ _ Hq) in Ho.
    specialize (Ho Hr). lia. }
  rewrite node_of_app by done. intros [Hin|(now & anc & Hanc & Hok)]; [left; set_solver|right].
  exists now, anc. split; [|done]. intros h Hh. rewrite Hanc by done. unfold header_at.
  rewrite branch_app by done. destruct (branch nodes r !! Z.to_nat h) as [s|] eqn:Hs; [|done]. cbn.
  destruct (branch_lookup _ Htree _ _ _ Hrl Hs) as (? & _). rewrite node_of_app by lia. done.
Qed.

Lemma rebuild_spec idx b0 : tree_ok (hi_nodes idx) → (b0 < length (hi_nodes idx))%nat →
  (hi_bestHeader idx < length (hi_nodes idx))%nat →
  hi_bestChainByHeight idx = Some <$> branch (hi_nodes idx) b0 →
  rebuildHeightIndex idx = (Ok (), set_bestChain (Some <$> branch (hi_nodes idx) (hi_bestHeader idx)) idx).
Proof.
  intros Htree Hb0 Hb Hchain. unfold rebuildHeightIndex, node. set (best := hi_bestHeader idx) in *.
  pose proof (height_range _ Htree best Hb). case_match eqn:Hcond.
  - apply andb_true_iff in Hcond as [[Hl%Z.eqb_eq Hpos%Z.ltb_lt]%andb_true_iff Hpar%bool_decide_eq_true].
    rewrite Hchain, nth_lookup, list_lookup_fmap in Hpar. rewrite Hchain, length_fmap in Hl.
    do 2 f_equal. rewrite Hchain, (branch_eq _ Htree best), fmap_app by done. f_equal.
    destruct (hn_Parent (node_of (hi_nodes idx) best)) as [r|] eqn:Hr.
    + destruct (branch (hi_nodes idx) b0 !! _) as [r'|] eqn:Hr'; [|done]. injection Hpar as ->.
      destruct (branch_lookup _ Htree _ _ _ Hb0 Hr') as (_ & _ & ->). f_equal. rewrite take_ge; [done|lia].
    + rewrite root_height in Hpos by done. lia.
  - rewrite fill_index_spec; [|done|done|lia|].
    + rewrite drop_ge, app_nil_r; [done|]. rewrite length_replicate.
      destruct Htree as [Hlen _]. rewrite u32_id by (unfold is_u32; lia). lia.
    + rewrite length_replicate. destruct Htree as [Hlen _]. rewrite u32_id by (unfold is_u32; lia). lia.
Qed.

(** The index with a new node, which is the best header when it has more work. *)
Definition attach (header : BlockHeader) (parentNode : nat) (idx : HeaderIndex) : HeaderIndex :=
  let '(q, idx') := link_header header (HashBlockHeader header) parentNode idx in
  if hn_Work (node idx' (hi_bestHeader idx')) <? hn_Work (node idx' q)
  then set_bestChain (Some <$> branch (hi_nodes idx') q) (set_best q idx') else idx'.

Definition new_node (header : BlockHeader) (parentNode : nat) (idx : HeaderIndex) : HeaderNode :=
  mkHeaderNode (HashBlockHeader header) (u32 (hn_Height (node idx parentNode) + 1)) header
    (hn_Work (node idx parentNode) + CalcWork (hdr_Bits header)) (Some parentNode).

Lemma new_node_of header r idx : node_of (hi_nodes idx ++ [new_node header r idx]) (length (hi_nodes idx))
  = new_node header r idx.
Proof. unfold node_of. by rewrite list_lookup_middle. Qed.

Lemma link_tree trusted header r idx : index_ok trusted idx → (r < length (hi_nodes idx))%nat →
  hdr_PrevBlock header = hn_Hash (node idx r) → len (hi_nodes idx) + 1 < 2 ^ 32 →
  tree_ok (hi_nodes idx ++ [new_node header r idx]).
Proof.
  intros Hok Hr Hprev Hmax. apply tree_ok_snoc; [apply Hok| |done]. split; [done|]. cbn.
  destruct (lookup_lt_is_Some_2 _ _ Hr) as [pn Hpn]. exists pn. unfold node in *.
  rewrite (node_of_lookup _ _ _ Hpn) in *. done.
Qed.

Lemma attach_ok trusted trusted' header r idx : index_ok trusted idx → (r < length (hi_nodes idx))%nat →
  hi_byHash idx !! HashBlockHeader header = None →
  hdr_PrevBlock header = hn_Hash (node idx r) → len (hi_nodes idx) + 1 < 2 ^ 32 → trusted ⊆ trusted' →
  validated trusted' (hi_nodes idx ++ [new_node header r idx]) (new_node header r idx) →
  index_ok trusted' (attach header r idx).
Proof.
  intros Hok Hr Hnew Hprev Hmax Hsub Hval. pose proof (link_tree _ _ _ _ Hok Hr Hprev Hmax) as Htree'.
  pose proof (best_allocated _ _ Hok) as Hb. unfold attach, link_header. cbv zeta.
  fold (new_node header r idx). set (nodes' := hi_nodes idx ++ [new_node header r idx]) in *.
  assert (Hvalid : ∀ q n, nodes' !! q = Some n → validated trusted' nodes' n).
  { intros q n [Hq|[Hge Hq]]%lookup_app_Some; [exact (validated_app _ _ _ _ _ _ (io_tree _ _ Hok) Hq Hsub (io_valid _ _ Hok _ _ Hq))|].
    apply list_lookup_singleton_Some in Hq as [_ <-]. done. }
  assert (Hold : ∀ q, (q < length (hi_nodes idx))%nat → node_of nodes' q = node idx q).
  { intros. by apply node_of_app. }
  assert (Hlast : node_of nodes' (length (hi_nodes idx)) = new_node header r idx) by apply new_node_of.
  assert (Hlen : length nodes' = S (length (hi_nodes idx))) by (unfold nodes'; rewrite length_app; simpl; lia).
  unfold node at 1 2. cbn [hi_nodes hi_bestHeader]. rewrite Hlast, Hold by done.
  assert (Hhash : ∀ h q, <[HashBlockHeader header := length (hi_nodes idx)]> (hi_byHash idx) !! h = Some q →
     (q < length nodes')%nat ∧ hn_Hash (node_of nodes' q) = h).
  { intros h q [[<- <-]|[Hne Hq]]%lookup_insert_Some; [split; [lia|by rewrite Hlast]|].
    destruct (io_byHash _ _ Hok _ _ Hq). rewrite Hold by done. split; [lia|done]. }
  assert (Hcase : ∀ q, (q < length nodes')%nat → (q < length (hi_nodes idx))%nat ∨ q = length (hi_nodes idx)) by lia.
  assert (Hkept : ∀ q, (q < length nodes')%nat →
    <[HashBlockHeader header := length (hi_nodes idx)]> (hi_byHash idx) !! hn_Hash (node_of nodes' q) = None →
    ∃ r' s, (r' < length nodes')%nat ∧ (s < length nodes')%nat ∧ hn_Hash (node_of nodes' r') = hn_Hash (node_of nodes' q) ∧
      hn_Height (node_of nodes' r') + maxForkDepth ≤ hn_Height (node_of nodes' s)).
  { intros q Hq. destruct (Hcase q Hq) as [Hq'| ->]; [|by rewrite Hlast, lookup_insert_eq].
    rewrite Hold by done. intros [Hmiss _]%lookup_insert_None. 
    destruct (io_kept _ _ Hok q Hq' Hmiss) as (r' & s & Hr' & Hs & Hh & Hle).
    exists r', s. rewrite !Hold by done. split_and!; [lia|lia|done|done]. }
  destruct (Z.ltb_spec (hn_Work (node idx (hi_bestHeader idx))) (hn_Work (new_node header r idx))) as [Hlt|Hge].
  all: split; try done; try apply Hok; unfold node; cbn [hi_nodes hi_byHash hi_bestHeader set_best set_bestChain
    hi_bestChainByHeight].
  - by rewrite Hlast, lookup_insert_eq.
  - intros q Hq. rewrite Hlast. destruct (Hcase q Hq) as [Hq'| ->].
    + rewrite Hold by done. pose proof (io_work _ _ Hok q Hq'). lia.
    + by rewrite Hlast.
  - rewrite Hold by done. rewrite lookup_insert_ne; [apply Hok|].
    intros Heq. rewrite Heq in Hnew. by rewrite (io_best _ _ Hok) in Hnew.
  - intros q Hq. rewrite (Hold (hi_bestHeader idx)) by done. destruct (Hcase q Hq) as [Hq'| ->].
    + rewrite Hold by done. by apply Hok.
    + by rewrite Hlast.
  - unfold nodes'. rewrite branch_app by (done || apply Hok). apply Hok.
Qed.

(** Linking, then choosing the best header and rebuilding, is [attach]. *)
Lemma attach_eq trusted header r idx : index_ok trusted idx → (r < length (hi_nodes idx))%nat →
  hdr_PrevBlock header = hn_Hash (node idx r) → len (hi_nodes idx) + 1 < 2 ^ 32 →
  let '(q, idx') := link_header header (HashBlockHeader header) r idx in
  q = length (hi_nodes idx) ∧
  rebuildHeightIndex (set_best q idx') = (Ok (), set_bestChain (Some <$> branch (hi_nodes idx') q) (set_best q idx')).
Proof.
  intros Hok Hr Hprev Hmax. pose proof (link_tree _ _ _ _ Hok Hr Hprev Hmax) as Htree'.
  pose proof (best_allocated _ _ Hok) as Hb. unfold link_header. cbv zeta. fold (new_node header r idx).
  split; [done|]. rewrite (rebuild_spec _ (hi_bestHeader idx)); cbn [hi_nodes set_best hi_bestHeader hi_bestChainByHeight];
    rewrite ?length_app; simpl; try done; try lia.
  rewrite branch_app by (done || apply Hok). apply Hok.
Qed.

Lemma prune_spec trusted idx : index_ok trusted idx → pruneStaleForks idx =
  if BestHeaderHeight idx <? maxForkDepth then idx else
  set_byHash (filter (λ '(hash, q), BestHeaderHeight idx - maxForkDepth < hn_Height (node idx q) ∨
                hash ∈ branch_hashes (hi_nodes idx) (hi_bestHeader idx)) (hi_byHash idx)) idx.
Proof.
  intros Hok. unfold pruneStaleForks. fold (BestHeaderHeight idx). case_match; [done|].
  pose proof (protect_above_spec _ (io_tree _ _ Hok) (hi_bestHeader idx) (S (hi_bestHeader idx))
    (S (hi_bestHeader idx)) (BestHeaderHeight idx - maxForkDepth) ∅ (best_allocated _ _ Hok) ltac:(lia) ltac:(lia)) as Hp.
  destruct (protect_above _ _ _ _ _) as [acc rest]. cbn [fst snd] in Hp. rewrite Hp, union_empty_r_L. done.
Qed.

Lemma prune_ok trusted idx : index_ok trusted idx → index_ok trusted (pruneStaleForks idx).
Proof.
  intros Hok. rewrite (prune_spec trusted) by done. case_match; [done|].
  split; try apply Hok; unfold node; cbn [hi_nodes hi_byHash hi_bestHeader set_byHash].
  - intros h q [Hq _]%map_lookup_filter_Some. by apply Hok.
  - apply map_lookup_filter_Some. split; [apply Hok|]. right.
    rewrite (branch_hashes_parent _ (io_tree _ _ Hok)) by (by eapply best_allocated). set_solver.
  - intros r Hr [Hmiss|Hfil]%map_lookup_filter_None; [by apply Hok|].
    destruct (hi_byHash idx !! hn_Hash (node_of (hi_nodes idx) r)) as [r'|] eqn:Hfound; [|by apply Hok].
    specialize (Hfil r' eq_refl). destruct (io_byHash _ _ Hok _ _ Hfound) as [Hr' Hh].
    exists r', (hi_bestHeader idx). split_and!; [done|by eapply best_allocated|done|].
    unfold BestHeaderHeight, node in Hfil. lia.
Qed.
(** ** The outcomes of the operations *)

Definition linked (header : BlockHeader) (r : nat) (idx : HeaderIndex) : HeaderIndex :=
  mkHeaderIndex (hi_nodes idx ++ [new_node header r idx])
    (<[HashBlockHeader header := length (hi_nodes idx)]> (hi_byHash idx)) (hi_bestHeader idx)
    (hi_genesis idx) (hi_rejected idx) (hi_rejectedOrder idx) (hi_bestChainByHeight idx).

Lemma link_eq header r idx :
  link_header header (HashBlockHeader header) r idx = (length (hi_nodes idx), linked header r idx).
Proof. done. Qed.

Definition more_work (header : BlockHeader) (r : nat) (idx : HeaderIndex) : bool :=
  hn_Work (node idx (hi_bestHeader idx)) <? hn_Work (new_node header r idx).

Lemma linked_work header r idx : (hi_bestHeader idx < length (hi_nodes idx))%nat →
  (hn_Work (node (linked header r idx) (hi_bestHeader (linked header r idx))) <?
   hn_Work (node (linked header r idx) (length (hi_nodes idx)))) = more_work header r idx.
Proof.
  intros Hb. unfold more_work, node. cbn [hi_nodes hi_bestHeader linked].
  by rewrite new_node_of, node_of_app.
Qed.

Lemma attach_unfold header r idx : (hi_bestHeader idx < length (hi_nodes idx))%nat → attach header r idx =
  if more_work header r idx
  then set_bestChain (Some <$> branch (hi_nodes idx ++ [new_node header r idx]) (length (hi_nodes idx)))
         (set_best (length (hi_nodes idx)) (linked header r idx))
  else linked header r idx.
Proof. intros Hb. unfold attach. rewrite link_eq. cbv beta iota. by rewrite linked_work. Qed.

Lemma rebuild_nodes idx : hi_nodes (rebuildHeightIndex idx).2 = hi_nodes idx.
Proof. unfold rebuildHeightIndex. by repeat case_match. Qed.

Lemma prune_nodes idx : hi_nodes (pruneStaleForks idx) = hi_nodes idx.
Proof. unfold pruneStaleForks. by repeat case_match. Qed.

Lemma reject_nodes hash idx : hi_nodes (addRejectedLocked hash idx) = hi_nodes idx.
Proof. unfold addRejectedLocked. by repeat case_match. Qed.

(** Adding prunes when the new header is the best and its height is a multiple
    of 100. *)
Definition settle (header : BlockHeader) (r : nat) (idx : HeaderIndex) : HeaderIndex :=
  if more_work header r idx && (hn_Height (new_node header r idx) mod 100 =? 0)
  then pruneStaleForks (attach header r idx) else attach header r idx.

Inductive add_outcome (header : BlockHeader) (nowUnix : Z) (idx : HeaderIndex) : res nat * HeaderIndex → Prop :=
| add_refused e : add_outcome header nowUnix idx (Err e, idx)
| add_rejected e : add_outcome header nowUnix idx (Err e, addRejectedLocked (HashBlockHeader header) idx)
| add_panics : add_outcome header nowUnix idx (Panic, idx)
| add_linked r res :
    hi_byHash idx !! HashBlockHeader header = None → hi_byHash idx !! hdr_PrevBlock header = Some r →
    FullValidateHeader engine header (hn_Header (node idx r)) (u32 (hn_Height (node idx r) + 1))
      (header_ancestors idx r) nowUnix (hn_Height (node idx r)) p = Ok () →
    hi_nodes res.2 = hi_nodes idx ++ [new_node header r idx] →
    (len (hi_nodes idx) + 1 < 2 ^ 32 → res = (Ok (length (hi_nodes idx)), settle header r idx)) →
    add_outcome header nowUnix idx res.

Lemma byHash_parent trusted idx header r : index_ok trusted idx → hi_byHash idx !! hdr_PrevBlock header = Some r →
  (r < length (hi_nodes idx))%nat ∧ hdr_PrevBlock header = hn_Hash (node idx r).
Proof. intros Hok Hr. by destruct (io_byHash _ _ Hok _ _ Hr). Qed.

Lemma addHeader_cases trusted header now idx : index_ok trusted idx →
  add_outcome header now idx (addHeaderLocked p engine header now idx).
Proof.
  intros Hok. unfold addHeaderLocked. case_bool_decide as Hdup; [constructor|].
  case_bool_decide; [constructor|]. case_bool_decide; [constructor|].
  destruct (hi_byHash idx !! hdr_PrevBlock header) as [r|] eqn:Hr; [|constructor].
  case_match; [constructor|]. destruct (FullValidateHeader _ _ _ _ _ _ _ _) as [[]|e|] eqn:Hval; [|constructor..].
  destruct (byHash_parent _ _ _ _ Hok Hr) as [Hlt Hprev]. apply eq_None_not_Some in Hdup.
  pose proof (best_allocated _ _ Hok) as Hb.
  pose proof (attach_eq trusted header r idx Hok Hlt Hprev) as Heq.
  eapply add_linked; [done|done|done| |].
  - rewrite link_eq. cbv beta iota. rewrite linked_work by done. destruct (more_work _ _ _); [|done].
    pose proof (rebuild_nodes (set_best (length (hi_nodes idx)) (linked header r idx))) as Hn.
    destruct (rebuildHeightIndex _) as [[] idx']; cbn in Hn |- *; [|done..].
    destruct (_ =? 0); by rewrite ?prune_nodes.
  - intros Hmax. specialize (Heq Hmax). rewrite link_eq in Heq |- *. destruct Heq as [_ Heq]. cbv beta iota.
    unfold settle. rewrite attach_unfold, linked_work by done. destruct (more_work _ _ _); [|done].
    rewrite Heq. unfold node. cbn [hi_nodes set_bestChain set_best linked]. rewrite new_node_of.
    cbn [andb]. by destruct (_ =? 0).
Qed.
(** ** Reachable indexes *)

(** What a node makes with the exported methods, from the index of its genesis
    header; the list holds the trusted headers that were inserted. *)
Inductive reached (genesis : BlockHeader) : list BlockHeader → HeaderIndex → Prop :=
| reached_new : reached genesis [] (NewHeaderIndex genesis)
| reached_add t idx header now : reached genesis t idx → reached genesis t (AddHeader p engine header now idx).2
| reached_batch t idx headers now :
    reached genesis t idx → reached genesis t (AddHeaders p engine headers now idx).2
| reached_trusted t idx header :
    reached genesis t idx → reached genesis (header :: t) (InsertTrustedHeader header idx).2.

Lemma NewHeaderIndex_ok genesis : index_ok [] (NewHeaderIndex genesis).
Proof.
  assert (Hn : ∀ q n, hi_nodes (NewHeaderIndex genesis) !! q = Some n →
    q = 0%nat ∧ n = node (NewHeaderIndex genesis) 0) by (intros [|q] n Hq; [by injection Hq as <-|done]).
  split; try done.
  - split; [done|]. intros q n Hq. destruct (Hn q n Hq) as [-> ->]. done.
  - intros q n Hq. destruct (Hn q n Hq) as [_ ->]. done.
  - intros h q Hq. cbn [NewHeaderIndex hi_byHash] in Hq. apply lookup_singleton_Some in Hq as [<- <-]. split; [simpl; lia|done].
  - unfold node. cbn. by rewrite lookup_singleton_eq.
  - intros [|q] Hq; [done|]. simpl in Hq. lia.
  - intros [|r] Hr; [|simpl in Hr; lia]. unfold node. cbn. by rewrite lookup_singleton_eq.
  - split_and!; [constructor|done|by vm_compute].
Qed.

Lemma settle_ok trusted header r idx : index_ok trusted (attach header r idx) → index_ok trusted (settle header r idx).
Proof. unfold settle. case_match; [apply prune_ok|done]. Qed.

Lemma attach_validated trusted header now r idx : index_ok trusted idx →
  hi_byHash idx !! HashBlockHeader header = None → hi_byHash idx !! hdr_PrevBlock header = Some r →
  FullValidateHeader engine header (hn_Header (node idx r)) (u32 (hn_Height (node idx r) + 1))
    (header_ancestors idx r) now (hn_Height (node idx r)) p = Ok () →
  len (hi_nodes idx) + 1 < 2 ^ 32 → index_ok trusted (attach header r idx).
Proof.
  intros Hok Hnew Hr Hval Hmax. destruct (byHash_parent _ _ _ _ Hok Hr) as [Hlt Hprev].
  apply (attach_ok trusted); try done.
  unfold validated. cbn [hn_Parent new_node hn_Header hn_Height]. right. exists now, (header_ancestors idx r).
  rewrite node_of_app by done. split; [|done]. intros h Hh. rewrite (header_ancestors_spec trusted) by done.
  unfold header_at. rewrite branch_app by (done || apply Hok).
  destruct (branch (hi_nodes idx) r !! Z.to_nat h) as [s'|] eqn:Hs; [|done]. cbn.
  destruct (branch_lookup _ (io_tree _ _ Hok) _ _ _ Hlt Hs) as (? & _). rewrite node_of_app by lia. done.
Qed.

Lemma addHeader_ok trusted header now idx : index_ok trusted idx →
  len (hi_nodes (addHeaderLocked p engine header now idx).2) < 2 ^ 32 →
  index_ok trusted (addHeaderLocked p engine header now idx).2.
Proof.
  intros Hok. destruct (addHeader_cases trusted header now idx Hok) as [e|e| |r res Hnew Hr Hval Hnodes Hres];
    intros Hmax; cbn [snd]; try done; [by apply addRejected_ok|].
  rewrite Hnodes, length_app in Hmax. simpl in Hmax. rewrite Hres by lia. cbn [snd].
  apply settle_ok. eapply attach_validated; try done. lia.
Qed.

(** The entries of the index after an addition: pruning removes only old headers
    off the best chain. *)
Lemma settle_byHash trusted header r idx : index_ok trusted idx → index_ok trusted (attach header r idx) →
  hi_byHash idx !! HashBlockHeader header = None →
  let idx' := settle header r idx in
  hi_nodes idx' = hi_nodes idx ++ [new_node header r idx] ∧
  hi_bestHeader idx' = (if more_work header r idx then length (hi_nodes idx) else hi_bestHeader idx) ∧
  hi_byHash idx' !! HashBlockHeader header = Some (length (hi_nodes idx)) ∧
  ∀ h q, hi_byHash idx !! h = Some q → hi_byHash idx' !! h = Some q ∨
    hn_Height (node idx' q) + maxForkDepth ≤ BestHeaderHeight idx' ∧ q ∉ branch (hi_nodes idx') (hi_bestHeader idx').
Proof.
  intros Hok Hatt Hnew. cbv zeta. pose proof (best_allocated _ _ Hok) as Hb.
  assert (Hlink : hi_byHash (attach header r idx) = hi_byHash (linked header r idx)).
  { rewrite attach_unfold by done. by destruct (more_work _ _ _). }
  assert (Hkeep : ∀ h q, hi_byHash idx !! h = Some q → hi_byHash (attach header r idx) !! h = Some q).
  { intros h q Hq. rewrite Hlink. cbn. rewrite lookup_insert_ne; [done|]. intros <-. by rewrite Hq in Hnew. }
  assert (Hin : hi_byHash (attach header r idx) !! HashBlockHeader header = Some (length (hi_nodes idx))).
  { rewrite Hlink. cbn. by rewrite lookup_insert_eq. }
  assert (Hbest : hi_bestHeader (attach header r idx)
    = if more_work header r idx then length (hi_nodes idx) else hi_bestHeader idx).
  { rewrite attach_unfold by done. by destruct (more_work _ _ _). }
  assert (Hnodes : hi_nodes (attach header r idx) = hi_nodes idx ++ [new_node header r idx]).
  { rewrite attach_unfold by done. by destruct (more_work _ _ _). }
  unfold settle. destruct (_ && _) eqn:Hcond; [|split_and!; auto].
  apply andb_true_iff in Hcond as [Hmore _]. rewrite Hmore in *.
  rewrite (prune_spec trusted) by done. destruct (_ <? maxForkDepth); [split_and!; auto|].
  set (a := attach header r idx) in *. unfold BestHeaderHeight, node. cbn [hi_nodes hi_byHash hi_bestHeader set_byHash].
  fold (node a (hi_bestHeader a)) (BestHeaderHeight a). split_and!; [done|done| |].
  - apply map_lookup_filter_Some. split; [done|right].
    rewrite branch_hashes_parent, Hbest by (apply Hatt || by eapply best_allocated).
    rewrite Hnodes, new_node_of. cbn. set_solver.
  - intros h q Hq. specialize (Hkeep _ _ Hq). fold (node a q).
    destruct (decide (BestHeaderHeight a - maxForkDepth < hn_Height (node a q) ∨
      h ∈ branch_hashes (hi_nodes a) (hi_bestHeader a))) as [Hd|Hd]; [left; by apply map_lookup_filter_Some|right].
    split; [lia|]. intros Hin'. apply Hd. right. unfold branch_hashes. apply elem_of_list_to_set, list_elem_of_fmap.
    exists q. split; [|done]. by destruct (io_byHash _ _ Hatt _ _ Hkeep).
Qed.

Lemma insertTrusted_ok trusted header idx : index_ok trusted idx →
  len (hi_nodes (InsertTrustedHeader header idx).2) < 2 ^ 32 →
  index_ok (header :: trusted) (InsertTrustedHeader header idx).2.
Proof.
  intros Hok. pose proof (best_allocated _ _ Hok) as Hb.
  assert (Hweak : index_ok (header :: trusted) idx).
  { destruct Hok. split; try done. intros q n Hq. rewrite <-(app_nil_r (hi_nodes idx)).
    eapply validated_app; [done|done| |by eapply io_valid0]. set_solver. }
  unfold InsertTrustedHeader. case_bool_decide as Hdup; [done|]. apply eq_None_not_Some in Hdup.
  destruct (hi_byHash idx !! hdr_PrevBlock header) as [r|] eqn:Hr; [|done].
  destruct (byHash_parent _ _ _ _ Hok Hr) as [Hlt Hprev].
  pose proof (attach_eq trusted header r idx Hok Hlt Hprev) as Heq. rewrite link_eq in Heq |- *. cbv beta iota.
  rewrite linked_work by done. intros Hmax.
  assert (Hlen : len (hi_nodes idx) + 1 < 2 ^ 32).
  { destruct (more_work _ _ _); rewrite ?rebuild_nodes in Hmax; cbn in Hmax; rewrite length_app in Hmax; simpl in Hmax; lia. }
  assert (Hatt : index_ok (header :: trusted) (attach header r idx)).
  { apply (attach_ok trusted); try done; [set_solver|]. unfold validated. cbn. left. set_solver. }
  rewrite attach_unfold in Hatt by done. destruct (more_work _ _ _); [|done].
  destruct (Heq Hlen) as [_ ->]. done.
Qed.

Lemma addHeader_grows header now idx :
  hi_nodes idx `prefix_of` hi_nodes (addHeaderLocked p engine header now idx).2.
Proof.
  unfold addHeaderLocked. do 3 (case_bool_decide; [cbn; rewrite ?reject_nodes; done|]).
  destruct (hi_byHash idx !! hdr_PrevBlock header) as [r|]; [|done]. case_match; [done|].
  destruct (FullValidateHeader _ _ _ _ _ _ _ _); [|cbn; by rewrite reject_nodes|done].
  rewrite link_eq. cbv beta iota. destruct (_ <? _); [|by apply prefix_app_r].
  pose proof (rebuild_nodes (set_best (length (hi_nodes idx)) (linked header r idx))) as Hn.
  destruct (rebuildHeightIndex _) as [[] idx']; cbn in Hn |- *; try destruct (_ =? 0);
    rewrite ?prune_nodes, Hn; by apply prefix_app_r.
Qed.

Lemma insertTrusted_grows header idx : hi_nodes idx `prefix_of` hi_nodes (InsertTrustedHeader header idx).2.
Proof.
  unfold InsertTrustedHeader. case_bool_decide; [done|]. destruct (hi_byHash idx !! hdr_PrevBlock header) as [r|]; [|done].
  rewrite link_eq. cbv beta iota. destruct (_ <? _); rewrite ?rebuild_nodes; by apply prefix_app_r.
Qed.

Lemma addHeaders_grows headers now added idx :
  hi_nodes idx `prefix_of` hi_nodes (add_headers p engine headers now added idx).2.
Proof.
  revert added idx. induction headers as [|h headers IH]; intros added idx; cbn [add_headers]; [done|].
  pose proof (addHeader_grows h now idx). destruct (addHeaderLocked p engine h now idx) as [[] idx'];
    [|destruct (_ || _)|]; cbn in *; first [done|etrans; [done|apply IH]].
Qed.

Lemma addHeaders_ok trusted headers now added idx : index_ok trusted idx →
  len (hi_nodes (add_headers p engine headers now added idx).2) < 2 ^ 32 →
  index_ok trusted (add_headers p engine headers now added idx).2.
Proof.
  revert added idx. induction headers as [|h headers IH]; intros added idx Hok; cbn [add_headers]; [done|].
  pose proof (addHeader_ok trusted h now idx Hok) as Hstep.
  destruct (addHeaderLocked p engine h now idx) as [[] idx']; [|destruct (_ || _)|]; cbn [snd] in *; auto.
  - intros Hmax. apply IH; [|done]. apply Hstep.
    pose proof (prefix_length _ _ (addHeaders_grows headers now (added + 1) idx')). lia.
  - intros Hmax. apply IH; [|done]. apply Hstep.
    pose proof (prefix_length _ _ (addHeaders_grows headers now added idx')). lia.
Qed.

Lemma reached_ok genesis trusted idx : reached genesis trusted idx → len (hi_nodes idx) < 2 ^ 32 →
  index_ok trusted idx.
Proof.
  induction 1 as [|t idx h now _ IH|t idx hs now _ IH|t idx h _ IH]; intros Hmax; [apply NewHeaderIndex_ok|..].
  - apply addHeader_ok; [|done]. apply IH. pose proof (prefix_length _ _ (addHeader_grows h now idx)).
    unfold AddHeader in Hmax. lia.
  - apply addHeaders_ok; [|done]. apply IH. pose proof (prefix_length _ _ (addHeaders_grows hs now 0 idx)).
    unfold AddHeaders in Hmax. lia.
  - apply insertTrusted_ok; [|done]. apply IH. pose proof (prefix_length _ _ (insertTrusted_grows h idx)). lia.
Qed.

Lemma reached_root genesis trusted idx : reached genesis trusted idx →
  hi_nodes (NewHeaderIndex genesis) `prefix_of` hi_nodes idx.
Proof.
  induction 1 as [|t idx h now _ IH|t idx hs now _ IH|t idx h _ IH]; [done|..]; (etrans; [exact IH|]).
  - apply addHeader_grows.
  - apply addHeaders_grows.
  - apply insertTrusted_grows.
Qed.

(** ** The chain of a header *)

Definition chain_of (idx : HeaderIndex) (q : nat) : list BlockHeader :=
  (λ r, hn_Header (node idx r)) <$> branch (hi_nodes idx) q.

Lemma chain_of_height trusted idx q h : index_ok trusted idx → (q < length (hi_nodes idx))%nat →
  header_at (hi_nodes idx) q h = chain_of idx q !! Z.to_nat h.
Proof. intros. unfold header_at, chain_of, node. by rewrite list_lookup_fmap. Qed.

Lemma branch_step nodes q i r s : tree_ok nodes → (q < length nodes)%nat →
  branch nodes q !! i = Some r → branch nodes q !! S i = Some s →
  hn_Parent (node_of nodes s) = Some r ∧ (s < length nodes)%nat.
Proof.
  intros Htree Hq Hr Hs. destruct (branch_lookup _ Htree _ _ _ Hq Hs) as (Hle & Hh & Htake).
  assert (Hsl : (s < length nodes)%nat) by lia. split; [|done].
  destruct (hn_Parent (node_of nodes s)) as [t|] eqn:Ht.
  - pose proof (branch_parent _ Htree s t i Hsl Ht ltac:(lia)) as Hp.
    rewrite Htake, lookup_take_lt, Hr in Hp by lia. pose proof (parent_older _ Htree s t Hsl Ht).
    pose proof (parent_height _ Htree s t Hsl Ht). pose proof (branch_top _ Htree t ltac:(lia)) as Htop.
    replace (Z.to_nat (hn_Height (node_of nodes t))) with i in Htop by lia. congruence.
  - rewrite root_height in Hh by done. lia.
Qed.

Lemma branch_head nodes q : tree_ok nodes → (q < length nodes)%nat → head (branch nodes q) = Some 0%nat.
Proof.
  intros Htree. revert q. apply branch_ind; [done|..].
  - intros q Hq Hr. rewrite branch_eq, Hr by done. destruct (node_ok_of _ Htree q Hq) as [_ Hp].
    rewrite Hr in Hp. cbn. f_equal. tauto.
  - intros q r Hq Hlt Hr IH. rewrite branch_eq, Hr by done. by destruct (branch nodes r).
Qed.

Lemma branch_work nodes q : tree_ok nodes → (q < length nodes)%nat →
  hn_Work (node_of nodes q) = sumZ (λ r, CalcWork (hdr_Bits (hn_Header (node_of nodes r)))) (branch nodes q).
Proof.
  intros Htree. revert q. apply branch_ind; [done|..].
  - intros q Hq Hr. rewrite branch_eq, Hr by done. destruct (node_ok_of _ Htree q Hq) as [_ Hp].
    rewrite Hr in Hp. cbn. lia.
  - intros q r Hq Hlt Hr IH. rewrite branch_eq, Hr, sumZ_app, <-IH by done.
    destruct (node_ok_of _ Htree q Hq) as [_ Hp]. rewrite Hr in Hp. destruct Hp as (pn & Hpn & _ & _ & -> & _).
    rewrite (node_of_lookup _ _ _ Hpn). cbn. lia.
Qed.

(** ** The locator *)

Lemma header_locator_spec {St} (c : Chain St) trusted idx fuel q step n : index_ok trusted idx →
  (q < length (hi_nodes idx))%nat → branch (hi_nodes idx) q `prefix_of` branch (hi_nodes idx) (hi_bestHeader idx) →
  (∀ h, 0 ≤ h → c_hashByHeight c !! h = (λ r, hn_Hash (node idx r)) <$> getHeaderByHeightLocked idx h) →
  0 ≤ step → header_locator fuel idx q step n = locator_loop fuel c (hn_Height (node idx q)) step n.
Proof.
  intros Hok Hq Hpre Hc Hs. pose proof (io_tree _ _ Hok) as Htree.
  revert q step n Hq Hpre Hs. induction fuel as [|fuel IH]; intros q step n Hq Hpre Hs; cbn [header_locator locator_loop]; [done|].
  pose proof (height_range _ Htree q Hq) as Hh. fold (node idx q) in Hh.
  rewrite Hc, (getHeaderByHeight_spec trusted) by (done || lia).
  pose proof (prefix_lookup_Some _ _ _ _ (branch_top _ Htree q Hq) Hpre) as Hlk. fold (node idx q) in Hlk.
  rewrite Hlk. cbn [fmap option_fmap option_map].
  f_equal. destruct (Z.eqb_spec (hn_Height (node idx q)) 0); [done|].
  set (target := if step <=? hn_Height (node idx q) then hn_Height (node idx q) - step else 0).
  assert (Ht : 0 ≤ target ≤ hn_Height (node idx q)) by (unfold target; destruct (Z.leb_spec step (hn_Height (node idx q))); lia).
  pose proof (walk_to_spec _ Htree q (S q) target Hq ltac:(lia) Ht) as Hw. set (r := walk_to _ _ _ _) in *.
  destruct (branch_lookup _ Htree _ _ _ Hq Hw) as (Hr & Hhr & Htake). fold (node idx r) in Hhr.
  replace (if hn_Height (node idx q) <? step then 0 else hn_Height (node idx q) - step) with (hn_Height (node idx r)).
  - apply IH; [lia| |destruct (10 <? n + 1); [apply u32_range|done]]. rewrite Htake. etrans; [apply prefix_take|done].
  - rewrite Hhr, Z2Nat.id by lia. unfold target.
    destruct (Z.leb_spec step (hn_Height (node idx q))), (Z.ltb_spec (hn_Height (node idx q)) step); lia.
Qed.
End invariant.

(** A chain manager whose main chain is the best header chain. *)
Definition best_chain_view (idx : HeaderIndex) : Chain () :=
  mkChain () ZeroHash (BestHeaderHeight idx) 0 ∅
    (map_seqZ 0 ((λ q, hn_Hash (node idx q)) <$> branch (hi_nodes idx) (hi_bestHeader idx)))
    ∅ NewSet [] false 0 0.

(** ** Properties *)

Section properties.
Context (p : ChainParams) (engine : Engine) (genesis : BlockHeader).

(** C30: In every index that the exported methods make, a header found by its hash
    ends a chain of headers that starts at genesis, in which each header names
    the hash of the one before; its height is its place in that chain and its
    work the sum of the work of the chain.  The best header is in the index, no
    header of the index has more work, and the lookup by height returns exactly
    the chain of the best header.  At most [maxRejectedHeaders] hashes are
    remembered as rejected. *)
Theorem header_index_invariant trusted idx :
  reached p engine genesis trusted idx → len (hi_nodes idx) < 2 ^ 32 →
  (∀ hash q, GetHeaderNode idx hash = Some q →
     let chain := chain_of idx q in
     HashBlockHeader (hn_Header (node idx q)) = hash ∧ head chain = Some genesis ∧
     last chain = Some (hn_Header (node idx q)) ∧ hn_Height (node idx q) = len chain - 1 ∧
     hn_Work (node idx q) = sumZ (λ h, CalcWork (hdr_Bits h)) chain ∧
     (∀ i a b, chain !! i = Some a → chain !! S i = Some b → hdr_PrevBlock b = HashBlockHeader a) ∧
     hn_Work (node idx q) ≤ hn_Work (node idx (BestHeader idx))) ∧
  GetHeaderNode idx (hn_Hash (node idx (BestHeader idx))) = Some (BestHeader idx) ∧
  (∀ h, 0 ≤ h → (λ q, hn_Header (node idx q)) <$> getHeaderByHeightLocked idx h
                = chain_of idx (BestHeader idx) !! Z.to_nat h) ∧
  Z.of_nat (size (hi_rejected idx)) ≤ maxRejectedHeaders.
Proof.
  intros Hre Hmax. pose proof (reached_ok _ _ _ _ _ Hre Hmax) as Hok. pose proof (io_tree _ _ _ _ Hok) as Htree.
  split_and!.
  - intros hash q Hq. destruct (io_byHash _ _ _ _ Hok _ _ Hq) as [Hlt Hhash]. cbv zeta. split_and!.
    + destruct (node_ok_of _ Htree q Hlt) as [Hh _]. fold (node idx q) in Hh. congruence.
    + unfold chain_of. rewrite head_lookup, list_lookup_fmap, <-head_lookup, branch_head by done. cbn. f_equal.
      destruct (reached_root _ _ _ _ _ Hre) as [l Hl]. unfold node, node_of. by rewrite Hl.
    + unfold chain_of. rewrite branch_eq, fmap_app by done. cbn [fmap list_fmap]. by rewrite last_snoc.
    + unfold chain_of. rewrite length_fmap, branch_length by done. unfold node. lia.
    + unfold chain_of. rewrite sumZ_fmap. by apply branch_work.
    + unfold chain_of. intros i a b. rewrite !list_lookup_fmap.
      intros (r & Hr & ->)%fmap_Some (s & Hs & ->)%fmap_Some.
      destruct (branch_step _ _ _ _ _ Htree Hlt Hr Hs) as [Hp Hsl].
      destruct (node_ok_of _ Htree s Hsl) as [_ Hn]. rewrite Hp in Hn. destruct Hn as (pn & Hpn & _ & _ & _ & Hprev).
      unfold node. rewrite Hprev, (node_of_lookup _ _ _ Hpn). apply Htree in Hpn as [? _]. done.
    + by apply Hok.
  - apply Hok.
  - intros h Hh. rewrite (getHeaderByHeight_spec p engine trusted) by done. unfold chain_of. by rewrite list_lookup_fmap.
  - destruct (io_rejected _ _ _ _ Hok) as (Hnd & -> & Hlen). by rewrite size_rejected.
Qed.
(** Every header below an indexed one was validated: a header of its chain that
    was not inserted as trusted passed [FullValidateHeader] against the header
    before it, at its own height, and the ancestors that the check could ask for
    were those of its own chain, although the index answers from the best chain
    where it can. *)
Theorem headers_validated trusted idx hash q i parent header :
  reached p engine genesis trusted idx → len (hi_nodes idx) < 2 ^ 32 → GetHeaderNode idx hash = Some q →
  chain_of idx q !! i = Some parent → chain_of idx q !! S i = Some header →
  header ∈ trusted ∨
  ∃ now getAncestor, (∀ j, (j ≤ i)%nat → getAncestor (Z.of_nat j) = chain_of idx q !! j) ∧
    FullValidateHeader engine header parent (Z.of_nat (S i)) getAncestor now (Z.of_nat i) p = Ok ().
Proof.
  intros Hre Hmax Hq. pose proof (reached_ok _ _ _ _ _ Hre Hmax) as Hok. pose proof (io_tree _ _ _ _ Hok) as Htree.
  destruct (io_byHash _ _ _ _ Hok _ _ Hq) as [Hlt _]. unfold chain_of. rewrite !list_lookup_fmap.
  intros (r & Hr & ->)%fmap_Some (s & Hs & ->)%fmap_Some.
  destruct (branch_step _ _ _ _ _ Htree Hlt Hr Hs) as [Hp Hsl].
  destruct (branch_lookup _ Htree _ _ _ Hlt Hr) as (Hrq & Hhr & Htake).
  destruct (branch_lookup _ Htree _ _ _ Hlt Hs) as (_ & Hhs & _).
  destruct (lookup_lt_is_Some_2 _ _ Hsl) as [n Hn]. pose proof (io_valid _ _ _ _ Hok _ _ Hn) as Hv.
  unfold node. rewrite (node_of_lookup _ _ _ Hn) in *. unfold validated in Hv. rewrite Hp in Hv.
  destruct Hv as [?|(now & anc & Hanc & Hval)]; [by left|right]. rewrite Hhr in Hval, Hanc. rewrite Hhs in Hval.
  exists now, anc. split; [|done]. intros j Hj. rewrite Hanc by lia.
  unfold header_at. by rewrite Htake, Nat2Z.id, list_lookup_fmap, lookup_take_lt by lia.
Qed.

(** What [AddHeader] does on each branch.  When it succeeds the header was not
    in the index and its parent is; it becomes the best header exactly when its
    chain has more work than the best so far, so that of two chains of equal work
    the first one seen stays.  When it fails, every lookup and the best chain are
    as before; it never panics unless the engine does. *)
Theorem AddHeader_fork_choice trusted idx header now r idx' :
  reached p engine genesis trusted idx → AddHeader p engine header now idx = (r, idx') →
  len (hi_nodes idx') < 2 ^ 32 →
  match r with
  | Ok q => ∃ parent,
      GetHeaderNode idx (HashBlockHeader header) = None ∧ GetHeaderNode idx (hdr_PrevBlock header) = Some parent ∧
      GetHeaderNode idx' (HashBlockHeader header) = Some q ∧ hn_Header (node idx' q) = header ∧
      hn_Parent (node idx' q) = Some parent ∧
      BestHeader idx' = (if hn_Work (node idx (BestHeader idx)) <? hn_Work (node idx' q) then q else BestHeader idx) ∧
      ∀ h q0, GetHeaderNode idx h = Some q0 → GetHeaderNode idx' h = Some q0 ∨
        hn_Height (node idx' q0) + maxForkDepth ≤ BestHeaderHeight idx' ∧
        q0 ∉ branch (hi_nodes idx') (BestHeader idx')
  | _ => hi_nodes idx' = hi_nodes idx ∧ hi_byHash idx' = hi_byHash idx ∧ BestHeader idx' = BestHeader idx ∧
         hi_bestChainByHeight idx' = hi_bestChainByHeight idx
  end.
Proof.
  intros Hre Hadd Hmax. unfold AddHeader in Hadd. assert (Hok : index_ok p engine trusted idx).
  { apply (reached_ok _ _ genesis); [done|]. pose proof (prefix_length _ _ (addHeader_grows p engine header now idx)) as Hg.
    rewrite Hadd in Hg. cbn in Hg. lia. }
  pose proof (addHeader_cases p engine trusted header now idx Hok) as Hcase. rewrite Hadd in Hcase.
  inversion Hcase as [e He|e He|He|parent res Hnew Hp Hval Hnodes Hres He]; subst; [done| |done|].
  - unfold addRejectedLocked. destruct (decide _); [done|]. by destruct (evict_rejected _ _).
  - cbn [snd] in Hnodes. rewrite Hnodes, length_app in Hmax. simpl in Hmax. specialize (Hres ltac:(lia)).
    injection Hres as -> ->. exists parent. unfold GetHeaderNode, BestHeader.
    pose proof (attach_validated _ _ _ _ _ _ _ Hok Hnew Hp Hval ltac:(lia)) as Hatt.
    destruct (settle_byHash _ _ _ _ _ _ Hok Hatt Hnew) as (Hn & Hb & Hh & Hk).
    assert (Hnode : node (settle header parent idx) (length (hi_nodes idx)) = new_node header parent idx).
    { unfold node. rewrite Hn. apply new_node_of. }
    rewrite Hnode. split_and!; done.
Qed.
(** The header locator is the block locator of the best header chain: it equals
    [BlockLocator] of any chain manager whose main chain is that chain.  So it has
    at most 43 entries, the first eleven one header apart, the distance doubling
    from there on, and it ends with genesis: the doubling of the step, which is
    done at 32 bits, never reaches zero and the loop terminates. *)
Theorem HeaderLocator_correct trusted idx :
  reached p engine genesis trusted idx → len (hi_nodes idx) < 2 ^ 32 →
  let hash_at h := (λ q, hn_Hash (node idx q)) <$> getHeaderByHeightLocked idx h in
  (∃ m, (m ≤ 42)%nat ∧ length (HeaderLocator idx) = S m ∧
     (∀ k, (k ≤ m)%nat → HeaderLocator idx !! k = hash_at (Z.max 0 (BestHeaderHeight idx - locator_offset k))) ∧
     last (HeaderLocator idx) = Some (HashBlockHeader genesis)) ∧
  (∀ St (c : Chain St), c_tipHeight c = BestHeaderHeight idx →
     (∀ h, 0 ≤ h → c_hashByHeight c !! h = hash_at h) → HeaderLocator idx = BlockLocator c).
Proof.
  intros Hre Hmax hash_at. pose proof (reached_ok _ _ _ _ _ Hre Hmax) as Hok. pose proof (io_tree _ _ _ _ Hok) as Htree.
  pose proof (best_allocated _ _ _ _ Hok) as Hb. pose proof (height_range _ Htree _ Hb) as Hh.
  fold (node idx (hi_bestHeader idx)) (BestHeaderHeight idx) in Hh.
  pose proof (chain_length p engine trusted idx Hok) as Hlen.
  assert (Hsame : ∀ St (c : Chain St), c_tipHeight c = BestHeaderHeight idx →
     (∀ h, 0 ≤ h → c_hashByHeight c !! h = hash_at h) → HeaderLocator idx = BlockLocator c).
  { intros St c Htip Hc. unfold HeaderLocator, BlockLocator. rewrite Htip.
    apply (header_locator_spec p engine c trusted); done. }
  split; [|exact Hsame]. set (c := best_chain_view idx).
  assert (Hc : ∀ h, 0 ≤ h → c_hashByHeight c !! h = hash_at h).
  { intros h Hh0. unfold hash_at. rewrite (getHeaderByHeight_spec p engine trusted) by done. cbn.
    rewrite lookup_map_seqZ, option_guard_True, Z.sub_0_r, list_lookup_fmap by done. done. }
  assert (Hfull : ∀ h, 0 ≤ h ≤ BestHeaderHeight idx → is_Some (c_hashByHeight c !! h)).
  { intros h Hh0. rewrite Hc by lia. apply fmap_is_Some. rewrite (getHeaderByHeight_spec p engine trusted) by (done || lia).
    apply lookup_lt_is_Some_2. pose proof (branch_length _ Htree _ Hb) as Hbl.
    fold (node idx (hi_bestHeader idx)) (BestHeaderHeight idx) in Hbl. lia. }
  destruct (BlockLocator_spec c) as (m & Hm & Hl & _ & _ & Hk & Hlast); [exact Hfull|unfold is_u32; cbn; lia|].
  rewrite (Hsame _ c) by done. exists m. split_and!; [done|done| |].
  - intros k Hkm. rewrite Hk, <-Hc by (done || lia). done.
  - rewrite Hlast, Hc by done. unfold hash_at. rewrite (getHeaderByHeight_spec p engine trusted) by done.
    change (Z.to_nat 0) with 0%nat. rewrite <-head_lookup, branch_head by done. cbn. f_equal.
    destruct (reached_root _ _ _ _ _ Hre) as [l Hnodes]. unfold node, node_of. by rewrite Hnodes.
Qed.
End properties.

(** ** Witnesses *)

Definition hw_genesis : BlockHeader := blk_Header (p_GenesisBlock Mainnet).
Definition hw_now : Z := 1800000100.
Definition hw_add (b : Block) (idx : HeaderIndex) : HeaderIndex :=
  (AddHeader w_params w_engine (blk_Header b) hw_now idx).2.

(** Two branches over genesis, of one and of two headers. *)
Definition hw_index1 : HeaderIndex := hw_add w_a1 (NewHeaderIndex hw_genesis).
Definition hw_index2 : HeaderIndex := hw_add w_b1 hw_index1.
Definition hw_index3 : HeaderIndex := hw_add w_b2 hw_index2.

Lemma hw_reached2 : reached w_params w_engine hw_genesis [] hw_index2.
Proof. unfold hw_index2, hw_index1, hw_add. do 2 apply reached_add. apply reached_new. Qed.

Lemma hw_reached : reached w_params w_engine hw_genesis [] hw_index3.
Proof. apply reached_add, hw_reached2. Qed.

Lemma hw_small : len (hi_nodes hw_index3) < 2 ^ 32.
Proof. by vm_compute. Qed.

Lemma header_index_invariant_witness :
  hn_Work (node hw_index3 1) ≤ hn_Work (node hw_index3 (BestHeader hw_index3)) ∧ BestHeader hw_index3 = 3%nat ∧
  head (chain_of hw_index3 3) = Some hw_genesis.
Proof.
  destruct (header_index_invariant w_params w_engine hw_genesis [] hw_index3 hw_reached hw_small) as (Hall & _).
  split_and!.
  - apply (Hall (HashBlockHeader (blk_Header w_a1)) 1%nat). by vm_compute.
  - by vm_compute.
  - apply (Hall (HashBlockHeader (blk_Header w_b2)) 3%nat). by vm_compute.
Defined.

Lemma headers_validated_witness :
  blk_Header w_b2 ∈ ([] : list BlockHeader) ∨
  ∃ now getAncestor, (∀ j, (j ≤ 1)%nat → getAncestor (Z.of_nat j) = chain_of hw_index3 3 !! j) ∧
    FullValidateHeader w_engine (blk_Header w_b2) (blk_Header w_b1) 2 getAncestor now 1 w_params = Ok ().
Proof.
  refine (headers_validated w_params w_engine hw_genesis [] hw_index3 (HashBlockHeader (blk_Header w_b2)) 3 1
    (blk_Header w_b1) (blk_Header w_b2) hw_reached hw_small _ _ _); by vm_compute.
Defined.

Lemma AddHeader_fork_choice_witness :
  (AddHeader w_params w_engine (blk_Header w_b2) hw_now hw_index2).1 = Ok 3%nat ∧
  GetHeaderNode hw_index3 (HashBlockHeader (blk_Header w_b2)) = Some 3%nat ∧ BestHeader hw_index2 = 1%nat.
Proof.
  assert (Hr : (AddHeader w_params w_engine (blk_Header w_b2) hw_now hw_index2).1 = Ok 3%nat) by by vm_compute.
  assert (Heq : AddHeader w_params w_engine (blk_Header w_b2) hw_now hw_index2 = (Ok 3%nat, hw_index3))
    by (rewrite <-Hr; apply surjective_pairing).
  destruct (AddHeader_fork_choice w_params w_engine hw_genesis [] hw_index2 _ _ _ _ hw_reached2 Heq hw_small)
    as (parent & _ & _ & Hin & _).
  split_and!; [exact Hr|exact Hin|by vm_compute].
Defined.

Lemma HeaderLocator_correct_witness :
  length (HeaderLocator hw_index3) = 3%nat ∧ last (HeaderLocator hw_index3) = Some (HashBlockHeader hw_genesis).
Proof.
  destruct (HeaderLocator_correct w_params w_engine hw_genesis [] hw_index3 hw_reached hw_small)
    as [(m & _ & _ & _ & Hlast) _].
  split; [by vm_compute|exact Hlast].
Defined.
