(* ===== verification/Scheduler.v ===== *)
(** * internal/p2p/scheduler.go: the block download scheduler

    Which block bodies are needed, requested and staged while the header chain is
    filled, with the limits on requests and the in-order delivery to the chain.

    The header index and the height of the chain tip are read at the time of the
    call and are arguments.  [bs_clock] counts the readings of [wall], the clock
    in nanoseconds.  The order in which Go ranges over a map is an argument [it]
    of the operations that do so: a list of the entries of the map.  The download
    score of a peer, computed in floating point, only orders the peers that are
    asked and is left out with [SortPeersByScore]. *)
From S2P Require Import Prelude Types Sha256 Target Params Utxo Keys Script TxValidation.
From S2P Require Import Algorithms Validation BlockFiles Store Chain ChainProps Headers.

Definition DefaultMaxInFlightPerPeer : Z := 16.
Definition DefaultMaxGlobalInFlight : Z := 512.
Definition DefaultMaxStagingSize : Z := 1024.
Definition DefaultRequestTimeout : Z := 30 * 1000000000.

Record schedulerEntry : Type := mkSchedulerEntry { se_Hash : Hash; se_Height : Z }.
Record inFlightEntry : Type := mkInFlightEntry {
  if_Hash : Hash; if_Height : Z; if_PeerAddr : string; if_RequestedAt : Z }.
Record stagedBlock : Type := mkStagedBlock { sb_Block : Block; sb_PeerAddr : string }.
Record peerDownloadStats : Type := mkStats {
  ps_InFlight : Z; ps_Completed : Z; ps_Failed : Z; ps_AvgLatency : Z; ps_LastRequest : Z; ps_BytesRecv : Z }.
Record SchedulerStats : Type := mkSchedulerStats {
  ss_Needed : Z; ss_InFlight : Z; ss_Staging : Z; ss_NextHeight : Z }.

Record BlockScheduler : Type := mkScheduler {
  bs_needed : list schedulerEntry;
  bs_inFlight : gmap Hash inFlightEntry;
  bs_peerStats : gmap string peerDownloadStats;
  bs_staging : gmap Hash stagedBlock;
  bs_maxInFlightPerPeer : Z;
  bs_maxGlobalInFlight : Z;
  bs_maxStagingSize : Z;
  bs_requestTimeout : Z;
  bs_nextConnectHeight : Z;
  bs_clock : nat
}.

Section scheduler.
Context (wall : nat → Z).
Implicit Types s : BlockScheduler.

Definition with_queues (n : list schedulerEntry) (f : gmap Hash inFlightEntry) (g : gmap Hash stagedBlock) s :=
  mkScheduler n f (bs_peerStats s) g (bs_maxInFlightPerPeer s) (bs_maxGlobalInFlight s)
    (bs_maxStagingSize s) (bs_requestTimeout s) (bs_nextConnectHeight s) (bs_clock s).
Definition with_stats (m : gmap string peerDownloadStats) s :=
  mkScheduler (bs_needed s) (bs_inFlight s) m (bs_staging s) (bs_maxInFlightPerPeer s) (bs_maxGlobalInFlight s)
    (bs_maxStagingSize s) (bs_requestTimeout s) (bs_nextConnectHeight s) (bs_clock s).
Definition with_next (h : Z) s :=
  mkScheduler (bs_needed s) (bs_inFlight s) (bs_peerStats s) (bs_staging s) (bs_maxInFlightPerPeer s)
    (bs_maxGlobalInFlight s) (bs_maxStagingSize s) (bs_requestTimeout s) h (bs_clock s).
Definition with_clock (n : nat) s :=
  mkScheduler (bs_needed s) (bs_inFlight s) (bs_peerStats s) (bs_staging s) (bs_maxInFlightPerPeer s)
    (bs_maxGlobalInFlight s) (bs_maxStagingSize s) (bs_requestTimeout s) (bs_nextConnectHeight s) n.

(** [t.Sub(u)]: a [time.Duration], saturated at 64 bits. *)
Definition time_Sub (t u : Z) : Z := Z.max (- 2 ^ 63) (Z.min (2 ^ 63 - 1) (t - u)).

Definition NewBlockScheduler (tipHeight : Z) : BlockScheduler :=
  mkScheduler [] ∅ ∅ ∅ DefaultMaxInFlightPerPeer DefaultMaxGlobalInFlight DefaultMaxStagingSize
    DefaultRequestTimeout (u32 (tipHeight + 1)) 0.

(** ** Filling the queue *)

(** The hashes [hashes] from [height] up that are not queued, in flight or
    staged are appended. *)
Fixpoint queue_new (s : BlockScheduler) (alreadyQueued : gset Hash) (height : Z) (hashes : list Hash)
    : list schedulerEntry :=
  match hashes with
  | [] => []
  | h :: hashes' =>
      let rest := queue_new s alreadyQueued (u32 (height + 1)) hashes' in
      if bool_decide (h ∈ alreadyQueued) || bool_decide (is_Some (bs_inFlight s !! h)) ||
         bool_decide (is_Some (bs_staging s !! h))
      then rest else mkSchedulerEntry h height :: rest
  end.

Definition populateLocked (idx : HeaderIndex) (tipHeight : Z) s : BlockScheduler :=
  let next := u32 (tipHeight + 1) in
  let alreadyQueued := list_to_set (se_Hash <$> bs_needed s) in
  let hashes := HeadersToFetch idx next (u32 (BestHeaderHeight idx - tipHeight)) in
  with_next next
    (with_queues (bs_needed s ++ queue_new s alreadyQueued next hashes) (bs_inFlight s) (bs_staging s) s).
Definition Populate := populateLocked.

Definition Reset (idx : HeaderIndex) (tipHeight : Z) s : BlockScheduler :=
  populateLocked idx tipHeight (with_stats ∅ (with_queues [] ∅ ∅ s)).

(** ** Requests *)

Definition getOrCreateStats s (peerAddr : string) : peerDownloadStats :=
  default (mkStats 0 0 0 0 0 0) (bs_peerStats s !! peerAddr).
Definition put_stats (peerAddr : string) (st : peerDownloadStats) s : BlockScheduler :=
  with_stats (<[peerAddr := st]> (bs_peerStats s)) s.

(** The loop over [needed]: the requests of the peer so far, its statistics,
    the hashes assigned and the entries that remain. *)
Record assignState : Type := mkAssign {
  as_inFlight : gmap Hash inFlightEntry; as_stats : peerDownloadStats;
  as_assigned : list Hash; as_remaining : list schedulerEntry; as_clock : nat }.

Definition assign_entry (peerAddr : string) (available peerBestHeight : Z) (a : assignState)
    (entry : schedulerEntry) : assignState :=
  let keep := mkAssign (as_inFlight a) (as_stats a) (as_assigned a) (as_remaining a ++ [entry]) (as_clock a) in
  if available <=? len (as_assigned a) then keep
  else if bool_decide (is_Some (as_inFlight a !! se_Hash entry)) then keep
  else if peerBestHeight <? se_Height entry then keep
  else
    let st := as_stats a in
    mkAssign
      (<[se_Hash entry := mkInFlightEntry (se_Hash entry) (se_Height entry) peerAddr (wall (as_clock a))]> (as_inFlight a))
      (mkStats (ps_InFlight st + 1) (ps_Completed st) (ps_Failed st) (ps_AvgLatency st)
         (wall (S (as_clock a))) (ps_BytesRecv st))
      (as_assigned a ++ [se_Hash entry]) (as_remaining a) (S (S (as_clock a))).

Definition AssignWork (peerAddr : string) (limit peerBestHeight : Z) s : list Hash * BlockScheduler :=
  let stats := getOrCreateStats s peerAddr in
  let s := put_stats peerAddr stats s in
  let inFlight := Z.of_nat (size (bs_inFlight s)) in
  if bs_maxInFlightPerPeer s <=? ps_InFlight stats then ([], s) else
  if bs_maxGlobalInFlight s <=? inFlight then ([], s) else
  if bs_maxStagingSize s <=? Z.of_nat (size (bs_staging s)) then ([], s) else
  let available := Z.min (Z.min (bs_maxInFlightPerPeer s - ps_InFlight stats) limit)
                         (bs_maxGlobalInFlight s - inFlight) in
  let a := foldl (assign_entry peerAddr available peerBestHeight)
             (mkAssign (bs_inFlight s) stats [] [] (bs_clock s)) (bs_needed s) in
  (as_assigned a,
   with_clock (as_clock a) (put_stats peerAddr (as_stats a)
     (with_queues (as_remaining a) (as_inFlight a) (bs_staging s) s))).

(** ** Arrivals *)

Definition BlockReceived (hash : Hash) (block : Block) (peerAddr : string) s : bool * BlockScheduler :=
  match bs_inFlight s !! hash with
  | None => (false, s)
  | Some entry =>
      let st := getOrCreateStats s peerAddr in
      if bool_decide (HashBlockHeader (blk_Header block) ≠ hash) then
        (false,
         put_stats peerAddr (mkStats (ps_InFlight st - 1) (ps_Completed st) (ps_Failed st + 1)
                               (ps_AvgLatency st) (ps_LastRequest st) (ps_BytesRecv st))
           (with_queues (bs_needed s ++ [mkSchedulerEntry hash (if_Height entry)])
              (delete hash (bs_inFlight s)) (bs_staging s) s))
      else
        let latency := time_Sub (wall (bs_clock s)) (if_RequestedAt entry) in
        let avg := if ps_Completed st =? 0 then latency
                   else i64 (i64 (ps_AvgLatency st * ps_Completed st) + latency) `quot` (ps_Completed st + 1) in
        (true,
         with_clock (S (bs_clock s))
           (put_stats peerAddr (mkStats (ps_InFlight st - 1) (ps_Completed st + 1) (ps_Failed st) avg
                                  (ps_LastRequest st) (ps_BytesRecv st))
              (with_queues (bs_needed s) (delete hash (bs_inFlight s))
                 (<[hash := mkStagedBlock block peerAddr]> (bs_staging s)) s)))
  end.

(** The flush of a staging area that is more than half full while the next block
    is missing; [it] is the order of the range over [staging]. *)
Definition flush_staging (it : list (Hash * stagedBlock)) s : BlockScheduler :=
  if bs_maxStagingSize s `quot` 2 <? Z.of_nat (size (bs_staging s))
  then with_queues (bs_needed s ++ ((λ hb, mkSchedulerEntry hb.1 0) <$> it)) (bs_inFlight s)
         (foldl (λ m h, delete h m) (bs_staging s) it.*1) s
  else s.

(** Every turn takes a block out of [staging]. *)
Fixpoint drain_loop (fuel : nat) (idx : HeaderIndex) s : list stagedBlock * bool * BlockScheduler :=
  match fuel with
  | O => ([], false, s)
  | S fuel' =>
      match getHeaderByHeightLocked idx (bs_nextConnectHeight s) with
      | None => ([], false, s)
      | Some q =>
          let hash := hn_Hash (node idx q) in
          match bs_staging s !! hash with
          | None => ([], true, s)
          | Some staged =>
              let s' := with_next (u32 (bs_nextConnectHeight s + 1))
                          (with_queues (bs_needed s) (bs_inFlight s) (delete hash (bs_staging s)) s) in
              let '(ready, missing, s'') := drain_loop fuel' idx s' in
              (staged :: ready, missing, s'')
          end
      end
  end.
Definition DrainReady (idx : HeaderIndex) (it : list (Hash * stagedBlock)) s : list stagedBlock * BlockScheduler :=
  let '(ready, missing, s') := drain_loop (S (size (bs_staging s))) idx s in
  (ready, if missing then flush_staging it s' else s').

Definition RequeueBlock (hash : Hash) (height : Z) s : BlockScheduler :=
  with_queues (bs_needed s ++ [mkSchedulerEntry hash height]) (bs_inFlight s) (delete hash (bs_staging s)) s.

(** ** Time-outs and departures *)

Definition timeout_entry (now : Z) (acc : list inFlightEntry * BlockScheduler) (he : Hash * inFlightEntry)
    : list inFlightEntry * BlockScheduler :=
  let '(timedOut, s) := acc in
  let '(hash, entry) := he in
  if bs_requestTimeout s <? time_Sub now (if_RequestedAt entry) then
    let st := getOrCreateStats s (if_PeerAddr entry) in
    (timedOut ++ [entry],
     put_stats (if_PeerAddr entry) (mkStats (ps_InFlight st - 1) (ps_Completed st) (ps_Failed st + 1)
                                      (ps_AvgLatency st) (ps_LastRequest st) (ps_BytesRecv st))
       (with_queues (bs_needed s ++ [mkSchedulerEntry hash (if_Height entry)])
          (delete hash (bs_inFlight s)) (bs_staging s) s))
  else (timedOut, s).
Definition HandleTimeout (it : list (Hash * inFlightEntry)) s : list inFlightEntry * BlockScheduler :=
  foldl (timeout_entry (wall (bs_clock s))) ([], with_clock (S (bs_clock s)) s) it.

Definition remove_entry (peerAddr : string) s (he : Hash * inFlightEntry) : BlockScheduler :=
  if bool_decide (if_PeerAddr he.2 = peerAddr)
  then with_queues (bs_needed s ++ [mkSchedulerEntry he.1 (if_Height he.2)])
         (delete he.1 (bs_inFlight s)) (bs_staging s) s
  else s.
Definition RemovePeer (peerAddr : string) (it : list (Hash * inFlightEntry)) s : BlockScheduler :=
  let s := foldl (remove_entry peerAddr) s it in
  with_stats (delete peerAddr (bs_peerStats s)) s.

(** ** Queries *)

Definition IsInFlight s (hash : Hash) : bool := bool_decide (is_Some (bs_inFlight s !! hash)).
Definition ExpectedHashes s (it1 : list (Hash * inFlightEntry)) (it2 : list (Hash * stagedBlock)) : list Hash :=
  (se_Hash <$> bs_needed s) ++ it1.*1 ++ it2.*1.
Definition NeedCount s : Z := len (bs_needed s).
Definition InFlightCount s : Z := Z.of_nat (size (bs_inFlight s)).
Definition StagingCount s : Z := Z.of_nat (size (bs_staging s)).
Definition IsComplete s : bool := (NeedCount s =? 0) && (InFlightCount s =? 0) && (StagingCount s =? 0).
Definition Stats s : SchedulerStats :=
  mkSchedulerStats (NeedCount s) (InFlightCount s) (StagingCount s) (bs_nextConnectHeight s).
Definition UpdateNextConnectHeight (height : Z) s : BlockScheduler :=
  if bs_nextConnectHeight s <=? height then with_next (u32 (height + 1)) s else s.
End scheduler.

(** ** The hashes the scheduler waits for *)

Definition hashes_of (l : list schedulerEntry) : gset Hash := list_to_set (se_Hash <$> l).

Lemma hashes_of_app l l' : hashes_of (l ++ l') = hashes_of l ∪ hashes_of l'.
Proof. unfold hashes_of. by rewrite fmap_app, list_to_set_app_L. Qed.

Lemma hashes_of_cons e l : hashes_of (e :: l) = {[se_Hash e]} ∪ hashes_of l.
Proof. done. Qed.

#[local] Hint Rewrite hashes_of_app hashes_of_cons @dom_insert_L @dom_delete_L : sched.

(** The set listed by [ExpectedHashes]. *)
Definition expected (s : BlockScheduler) : gset Hash :=
  hashes_of (bs_needed s) ∪ dom (bs_inFlight s) ∪ dom (bs_staging s).

Lemma ExpectedHashes_expected s it1 it2 :
  it1 ≡ₚ map_to_list (bs_inFlight s) → it2 ≡ₚ map_to_list (bs_staging s) →
  list_to_set (ExpectedHashes s it1 it2) = expected s.
Proof.
  intros H1 H2. unfold ExpectedHashes, expected, hashes_of. rewrite !list_to_set_app_L.
  rewrite <-(dom_range _ _ H1), <-(dom_range _ _ H2). set_solver.
Qed.

Section lemmas.
Context (wall : nat → Z).
Implicit Types s : BlockScheduler.

(** Moving hashes between the queues keeps the set: set equations over the three
    queues. *)
Ltac queues := unfold expected; cbn [bs_needed bs_inFlight bs_staging with_queues with_stats with_next with_clock
  put_stats fst snd]; autorewrite with sched; cbn [se_Hash].

Lemma assign_fold_expected peer available best l a :
  let a' := foldl (assign_entry wall peer available best) a l in
  hashes_of (as_remaining a') ∪ dom (as_inFlight a') = hashes_of (as_remaining a) ∪ dom (as_inFlight a) ∪ hashes_of l.
Proof.
  revert a. induction l as [|e l IH]; intros a; cbn [foldl]; [set_solver|]. cbv zeta in *. rewrite IH.
  unfold assign_entry. repeat case_match; cbn [as_remaining as_inFlight]; autorewrite with sched; set_solver.
Qed.

Lemma AssignWork_expected peer limit best s : expected (AssignWork wall peer limit best s).2 = expected s.
Proof.
  unfold AssignWork. repeat (case_match; [done|]). queues.
  rewrite assign_fold_expected. cbn. set_solver.
Qed.

Lemma BlockReceived_expected hash block peer s : expected (BlockReceived wall hash block peer s).2 = expected s.
Proof.
  unfold BlockReceived. destruct (bs_inFlight s !! hash) as [entry|] eqn:He; [|done].
  apply elem_of_dom_2 in He.
  case_bool_decide; queues; apply set_eq; intros x; destruct (decide (x = hash)); set_solver.
Qed.

Lemma RequeueBlock_expected hash height s : expected (RequeueBlock hash height s) = {[hash]} ∪ expected s.
Proof. clear wall.
  unfold RequeueBlock. queues. apply set_eq. intros x. destruct (decide (x = hash)); set_solver.
Qed.

Lemma timeout_entry_expected now t s he : he.1 ∈ expected s → expected (timeout_entry now (t, s) he).2 = expected s.
Proof. clear wall.
  destruct he as [hash entry]. cbn [timeout_entry fst]. intros Hin. case_match; [|done]. revert Hin. queues. intros Hin.
  apply set_eq. intros x. destruct (decide (x = hash)); set_solver.
Qed.

Lemma HandleTimeout_expected it s : (∀ he, he ∈ it → he.1 ∈ expected s) →
  expected (HandleTimeout wall it s).2 = expected s.
Proof.
  unfold HandleTimeout. generalize (@nil inFlightEntry) as t. generalize (wall (bs_clock s)) as now.
  change (expected s) with (expected (with_clock (S (bs_clock s)) s)). generalize (with_clock (S (bs_clock s)) s) as s0.
  intros s0 now. revert s0. induction it as [|he it IH]; intros s0 t Hin; cbn [foldl]; [done|].
  pose proof (timeout_entry_expected now t s0 he (Hin he ltac:(set_solver))) as He.
  destruct (timeout_entry now (t, s0) he) as [t' s']. cbn [snd] in He. rewrite IH, He; [done|].
  intros he' Hhe'. rewrite He. apply Hin. set_solver.
Qed.

Lemma RemovePeer_expected peer it s : (∀ he, he ∈ it → he.1 ∈ expected s) → expected (RemovePeer peer it s) = expected s.
Proof. clear wall.
  intros Hin. unfold RemovePeer. change (expected (with_stats ?m ?x)) with (expected x). revert s Hin.
  induction it as [|he it IH]; intros s Hin; cbn [foldl]; [done|].
  assert (He : expected (remove_entry peer s he) = expected s).
  { unfold remove_entry. case_bool_decide; [|done]. assert (Hhe : he.1 ∈ expected s) by (apply Hin; set_solver).
    revert Hhe. queues. intros. apply set_eq. intros x. destruct (decide (x = he.1)); set_solver. }
  rewrite IH, He; [done|]. intros he' Hhe'. rewrite He. apply Hin. set_solver.
Qed.

Lemma flush_expected it s : it ≡ₚ map_to_list (bs_staging s) → expected (flush_staging it s) = expected s.
Proof. clear wall.
  intros Hit. unfold flush_staging. case_match; [|done]. queues. rewrite range_delete_all, (dom_range _ _ Hit) by done.
  unfold hashes_of. rewrite <-list_fmap_compose. set_solver.
Qed.
(** ** Draining *)

Definition best_hash (idx : HeaderIndex) (h : Z) : option Hash :=
  (λ q, hn_Hash (node idx q)) <$> getHeaderByHeightLocked idx h.

Definition drained (hs : list Hash) s : BlockScheduler :=
  with_next (u32 (bs_nextConnectHeight s + len hs))
    (with_queues (bs_needed s) (bs_inFlight s) (foldl (λ m h, delete h m) (bs_staging s) hs) s).

Lemma drain_loop_spec fuel idx s : is_u32 (bs_nextConnectHeight s) → (size (bs_staging s) < fuel)%nat →
  ∃ hs ready missing, drain_loop fuel idx s = (ready, missing, drained hs s) ∧
    Forall2 (λ h b, bs_staging s !! h = Some b) hs ready ∧ NoDup hs ∧
    (∀ i h, hs !! i = Some h → best_hash idx (u32 (bs_nextConnectHeight s + Z.of_nat i)) = Some h) ∧
    let next := bs_nextConnectHeight (drained hs s) in
    if missing then ∃ h, best_hash idx next = Some h ∧ bs_staging (drained hs s) !! h = None
    else best_hash idx next = None.
Proof. clear wall.
  revert s. induction fuel as [|fuel IH]; intros s Hnext Hfuel; [lia|]. cbn [drain_loop].
  assert (Hid : drained [] s = s).
  { unfold drained. cbn. rewrite Z.add_0_r, u32_id by done. by destruct s. }
  destruct (getHeaderByHeightLocked idx (bs_nextConnectHeight s)) as [q|] eqn:Hq.
  2:{ exists [], [], false. rewrite Hid. split_and!; [done|constructor|constructor|done|].
      cbv zeta. unfold best_hash. by rewrite Hq. }
  destruct (bs_staging s !! hn_Hash (node idx q)) as [b|] eqn:Hb.
  2:{ exists [], [], true. rewrite Hid. split_and!; [done|constructor|constructor|done|].
      cbv zeta. exists (hn_Hash (node idx q)). unfold best_hash. by rewrite Hq. }
  set (h := hn_Hash (node idx q)) in *.
  set (s1 := with_next _ _). destruct (IH s1) as (hs & ready & missing & Heq & Hf & Hnd & Hlk & Hstop).
  { apply u32_range. }
  { cbn. rewrite map_size_delete_Some by (by eexists).
    assert (size (bs_staging s) ≠ 0)%nat by (intros Hz%map_size_empty_inv; by rewrite Hz in Hb). lia. }
  assert (Hs1 : drained hs s1 = drained (h :: hs) s).
  { unfold drained, s1, with_next, with_queues. cbn [bs_needed bs_inFlight bs_peerStats bs_staging bs_maxInFlightPerPeer
      bs_maxGlobalInFlight bs_maxStagingSize bs_requestTimeout bs_nextConnectHeight bs_clock foldl].
    f_equal. unfold u32. rewrite Zplus_mod_idemp_l. cbn [length]. f_equal. lia. }
  rewrite Heq, Hs1 in *. exists (h :: hs), (b :: ready), missing. cbn in Hf. split_and!; [done| | | |done].
  - constructor; [done|]. eapply Forall2_impl; [done|]. intros h' b' Hh'. cbn in Hh'.
    apply lookup_delete_Some in Hh'. tauto.
  - constructor; [|done]. intros Hin. apply list_elem_of_lookup in Hin as [i Hi].
    destruct (Forall2_lookup_l _ _ _ _ _ Hf Hi) as (b' & _ & Hb'). cbn in Hb'. by rewrite lookup_delete_eq in Hb'.
  - intros [|i] h' Hi.
    + injection Hi as <-. rewrite Z.add_0_r, u32_id by done. unfold best_hash. by rewrite Hq.
    + cbn in Hi. specialize (Hlk i h' Hi). cbn -[u32] in Hlk. unfold u32 in *. rewrite Zplus_mod_idemp_l in Hlk.
      rewrite <-Hlk. do 2 f_equal. lia.
Qed.
(** ** Assigning *)

Definition eligible (f : gmap Hash inFlightEntry) (best : Z) (e : schedulerEntry) : Prop :=
  f !! se_Hash e = None ∧ se_Height e ≤ best.

(** The loop after the entries [l], started with the requests [f] and the
    statistics [st]. *)
Record assigned_ok (peer : string) (available best : Z) (f : gmap Hash inFlightEntry) (st : peerDownloadStats)
    (l : list schedulerEntry) (a : assignState) : Prop := {
  ao_nodup : NoDup (as_assigned a);
  ao_from : ∀ h, h ∈ as_assigned a → ∃ e, e ∈ l ∧ se_Hash e = h ∧ eligible f best e;
  ao_size : size (as_inFlight a) = (size f + length (as_assigned a))%nat;
  ao_limit : len (as_assigned a) ≤ Z.max 0 available;
  ao_stats : ps_InFlight (as_stats a) = ps_InFlight st + len (as_assigned a);
  ao_inFlight : ∀ h, if decide (h ∈ as_assigned a)
    then ∃ e, as_inFlight a !! h = Some e ∧ if_Hash e = h ∧ if_PeerAddr e = peer
    else as_inFlight a !! h = f !! h;
  ao_progress : 0 < available → (∃ e, e ∈ l ∧ eligible f best e) → as_assigned a ≠ []
}.

Lemma assign_fold_ok peer available best f st l clock :
  assigned_ok peer available best f st l
    (foldl (assign_entry wall peer available best) (mkAssign f st [] [] clock) l).
Proof.
  induction l as [|e l IH] using rev_ind.
  { split; cbn; try lia; [constructor|set_solver|intros h; rewrite decide_False; [done|set_solver]|].
    intros _ (e & He & _). set_solver. }
  rewrite foldl_app. cbn [foldl]. set (a := foldl _ _ l) in *. destruct IH as [Hnd Hfrom Hsize Hlim Hst Hfl Hprog].
  assert (Hfrom' : ∀ h, h ∈ as_assigned a → ∃ e0, e0 ∈ l ++ [e] ∧ se_Hash e0 = h ∧ eligible f best e0).
  { intros h Hh. destruct (Hfrom h Hh) as (e0 & ? & ?). exists e0. set_solver. }
  assert (Hkeep : ∀ r, (0 < available → eligible f best e → as_assigned a ≠ []) →
    assigned_ok peer available best f st (l ++ [e]) (mkAssign (as_inFlight a) (as_stats a) (as_assigned a) r (as_clock a))).
  { intros r Hr. split; cbn; try done. intros Hav (e0 & He0 & Hel). apply elem_of_app in He0 as [He0|He0]; [eauto|].
    apply list_elem_of_singleton in He0 as ->. auto. }
  unfold assign_entry. destruct (Z.leb_spec available (len (as_assigned a))) as [Hfull|Hroom].
  { apply Hkeep. intros Hav _ Hnil. rewrite Hnil in Hfull. simpl in Hfull. lia. }
  case_bool_decide as Hin.
  { apply Hkeep. intros _ [Hnone _] Hnil. specialize (Hfl (se_Hash e)). rewrite Hnil, decide_False, Hnone in Hfl by set_solver.
    rewrite Hfl in Hin. by destruct Hin. }
  destruct (Z.ltb_spec best (se_Height e)) as [Hh|Hh]; [apply Hkeep; intros _ [_ ?]; lia|].
  apply eq_None_not_Some in Hin. pose proof (Hfl (se_Hash e)) as Hfe.
  destruct (decide (se_Hash e ∈ as_assigned a)) as [Hdup|Hnew]; [destruct Hfe as (? & Hfe & _); congruence|].
  split; cbn [as_assigned as_inFlight as_stats ps_InFlight]; rewrite ?length_app; cbn [length].
  - apply NoDup_app. split_and!; [done|set_solver|apply NoDup_singleton].
  - intros h [Hh'| ->%list_elem_of_singleton]%elem_of_app; [auto|]. exists e. unfold eligible.
    split_and!; [set_solver|done|congruence|done].
  - rewrite map_size_insert_None by done. lia.
  - lia.
  - lia.
  - intros h. destruct (decide (h = se_Hash e)) as [->|Hne].
    + rewrite decide_True by set_solver. rewrite lookup_insert_eq. by eexists.
    + rewrite lookup_insert_ne by done. specialize (Hfl h).
      destruct (decide (h ∈ as_assigned a)); [rewrite decide_True by set_solver|rewrite decide_False by set_solver]; done.
  - intros _ _. by destruct (as_assigned a).
Qed.
End lemmas.

(** ** Runs of the scheduler *)

Section runs.
Context (wall : nat → Z).
Implicit Types s : BlockScheduler.

(** One call, with the blocks it hands over; the ranges are in any order. *)
Inductive sched_step : BlockScheduler → list stagedBlock → BlockScheduler → Prop :=
| step_populate s idx tip : sched_step s [] (Populate idx tip s)
| step_assign s peer limit best : sched_step s [] (AssignWork wall peer limit best s).2
| step_received s hash block peer : sched_step s [] (BlockReceived wall hash block peer s).2
| step_drain s idx it :
    it ≡ₚ map_to_list (bs_staging (drain_loop (S (size (bs_staging s))) idx s).2) →
    sched_step s (DrainReady idx it s).1 (DrainReady idx it s).2
| step_requeue s hash height : sched_step s [] (RequeueBlock hash height s)
| step_timeout s it : it ≡ₚ map_to_list (bs_inFlight s) → sched_step s [] (HandleTimeout wall it s).2
| step_remove s peer it : it ≡ₚ map_to_list (bs_inFlight s) → sched_step s [] (RemovePeer peer it s)
| step_update s height : sched_step s [] (UpdateNextConnectHeight height s).

Inductive sched_run : BlockScheduler → list stagedBlock → BlockScheduler → Prop :=
| run_nil s : sched_run s [] s
| run_step s d s' d' s'' : sched_step s d s' → sched_run s' d' s'' → sched_run s (d ++ d') s''.

Inductive sched_reachable : BlockScheduler → Prop :=
| reachable_new tip n : sched_reachable (with_clock n (NewBlockScheduler tip))
| reachable_step s d s' : sched_reachable s → sched_step s d s' → sched_reachable s'
| reachable_reset s idx tip : sched_reachable s → sched_reachable (Reset idx tip s).

Definition block_hash (b : stagedBlock) : Hash := HashBlockHeader (blk_Header (sb_Block b)).

(** The invariant: staged blocks are those of their hashes, and the limits. *)
Record sched_ok s : Prop := {
  so_staged : ∀ h b, bs_staging s !! h = Some b → block_hash b = h;
  so_next : is_u32 (bs_nextConnectHeight s);
  so_inFlight : InFlightCount s ≤ DefaultMaxGlobalInFlight;
  so_total : InFlightCount s + StagingCount s < DefaultMaxGlobalInFlight + DefaultMaxStagingSize;
  so_limits : bs_maxInFlightPerPeer s = DefaultMaxInFlightPerPeer ∧ bs_maxGlobalInFlight s = DefaultMaxGlobalInFlight ∧
    bs_maxStagingSize s = DefaultMaxStagingSize ∧ bs_requestTimeout s = DefaultRequestTimeout
}.

(** An operation that only removes requests and staged blocks keeps it. *)
Definition limits s : Z * Z * Z * Z :=
  (bs_maxInFlightPerPeer s, bs_maxGlobalInFlight s, bs_maxStagingSize s, bs_requestTimeout s).
Definition shrinks s s' : Prop :=
  bs_inFlight s' ⊆ bs_inFlight s ∧ bs_staging s' ⊆ bs_staging s ∧
  (is_u32 (bs_nextConnectHeight s) → is_u32 (bs_nextConnectHeight s')) ∧ limits s' = limits s.

#[local] Instance shrinks_preorder : PreOrder shrinks.
Proof.
  split; [by intros s|]. intros s1 s2 s3 (? & ? & ? & L1) (? & ? & ? & L2).
  split_and!; [by etrans|by etrans|auto|by rewrite L2].
Qed.

Lemma shrinks_fold {A} (f : BlockScheduler → A → BlockScheduler) l s :
  (∀ s x, shrinks s (f s x)) → shrinks s (foldl f s l).
Proof. intros Hf. revert s. induction l as [|x l IH]; intros s; cbn [foldl]; [done|]. etrans; [apply Hf|apply IH]. Qed.

Lemma sched_ok_shrink s s' : sched_ok s → shrinks s s' → sched_ok s'.
Proof.
  intros [Hst Hn Hf Ht (L1 & L2 & L3 & L4)] (Hsf & Hsg & Hn' & HL). injection HL as L1' L2' L3' L4'.
  pose proof (map_subseteq_size _ _ Hsf) as Z1. pose proof (map_subseteq_size _ _ Hsg) as Z2.
  unfold InFlightCount, StagingCount in *. split.
  - intros h b Hb. apply Hst. by apply (lookup_weaken (bs_staging s') _).
  - auto.
  - unfold InFlightCount. lia.
  - unfold InFlightCount, StagingCount. lia.
  - split_and!; congruence.
Qed.

Lemma foldl_delete_subseteq (m : gmap Hash stagedBlock) hs : foldl (λ m h, delete h m) m hs ⊆ m.
Proof. apply map_subseteq_spec. intros h b. rewrite foldl_delete_lookup. by case_decide. Qed.

Lemma DrainReady_shrinks idx it s : is_u32 (bs_nextConnectHeight s) → shrinks s (DrainReady idx it s).2.
Proof.
  intros Hn. unfold DrainReady.
  destruct (drain_loop_spec (S (size (bs_staging s))) idx s Hn ltac:(lia)) as (hs & ready & missing & -> & _).
  assert (Hd : shrinks s (drained hs s)).
  { split_and!; [done|apply foldl_delete_subseteq|intros; apply u32_range|done]. }
  destruct missing; [|done]. etrans; [exact Hd|]. cbn [snd]. unfold flush_staging. case_match; [|done].
  split_and!; [done|apply foldl_delete_subseteq|done|done].
Qed.

Lemma HandleTimeout_shrinks it s : shrinks s (HandleTimeout wall it s).2.
Proof.
  unfold HandleTimeout. generalize (@nil inFlightEntry) as t. generalize (wall (bs_clock s)) as now. intros now.
  assert (Hc : shrinks s (with_clock (S (bs_clock s)) s)) by done. revert Hc. generalize (with_clock (S (bs_clock s)) s) as s0.
  induction it as [|[h e] it IH]; intros s0 Hc t; cbn [foldl]; [done|].
  assert (Hstep : shrinks s0 (timeout_entry now (t, s0) (h, e)).2).
  { cbn [timeout_entry]. case_match; [|done]. split_and!; try done. apply delete_subseteq. }
  destruct (timeout_entry now (t, s0) (h, e)) as [t' s']. apply IH. by etrans.
Qed.

Lemma RemovePeer_shrinks peer it s : shrinks s (RemovePeer peer it s).
Proof.
  unfold RemovePeer. etrans; [|by apply (reflexivity (R := shrinks))].
  apply shrinks_fold. intros s0 he. unfold remove_entry. case_bool_decide; [|done].
  split_and!; try done. apply delete_subseteq.
Qed.

Lemma sched_step_ok s d s' : sched_step s d s' → sched_ok s → sched_ok s'.
Proof.
  intros Hstep Hok. destruct Hstep.
  - apply (sched_ok_shrink _ _ Hok). split_and!; try done. intros _. apply u32_range.
  - unfold AssignWork. destruct Hok as [Hst Hn Hf Ht (L1 & L2 & L3 & L4)]. set (st := getOrCreateStats s peer).
    cbn [bs_maxInFlightPerPeer bs_maxGlobalInFlight bs_maxStagingSize bs_inFlight bs_staging put_stats with_stats bs_clock bs_needed].
    repeat match goal with |- context [if ?x <=? ?y then _ else _] => destruct (Z.leb_spec x y); [done|] end.
    rewrite L1, L2, L3 in *.
    pose proof (assign_fold_ok wall peer (Z.min (Z.min (DefaultMaxInFlightPerPeer - ps_InFlight st) limit)
      (DefaultMaxGlobalInFlight - Z.of_nat (size (bs_inFlight s)))) best (bs_inFlight s) st (bs_needed s) (bs_clock s))
      as [_ _ Hsize Hlim _ _ _].
    unfold InFlightCount, StagingCount in *. set (a := foldl _ _ _) in *.
    split; unfold InFlightCount, StagingCount; try done;
      cbn [bs_inFlight bs_staging with_clock put_stats with_stats with_queues snd]; lia.
  - unfold BlockReceived. destruct (bs_inFlight s !! hash) as [entry|] eqn:He; [|done].
    case_bool_decide as Hh.
    + apply (sched_ok_shrink _ _ Hok). split_and!; try done. apply delete_subseteq.
    + destruct Hok as [Hst Hn Hf Ht HL]. unfold InFlightCount, StagingCount in *.
      assert (Hsz : size (bs_inFlight s) = S (size (delete hash (bs_inFlight s)))).
      { rewrite map_size_delete_Some by (by eexists).
        assert (size (bs_inFlight s) ≠ 0)%nat by (intros Hz%map_size_empty_inv; by rewrite Hz in He). lia. }
      assert (Hsz' : (size (<[hash := mkStagedBlock block peer]> (bs_staging s)) ≤ S (size (bs_staging s)))%nat).
      { rewrite map_size_insert. case_match; cbn; unfold id; lia. }
      split; unfold InFlightCount, StagingCount; try done; cbn [bs_inFlight bs_staging with_clock put_stats with_stats with_queues snd]; try lia.
      intros h b [[<- <-]|[_ Hb]]%lookup_insert_Some; [|by apply Hst]. unfold block_hash. cbn.
      destruct (decide (HashBlockHeader (blk_Header block) = hash)); [done|]. tauto.
  - apply (sched_ok_shrink _ _ Hok), DrainReady_shrinks, Hok.
  - apply (sched_ok_shrink _ _ Hok). split_and!; try done. apply delete_subseteq.
  - apply (sched_ok_shrink _ _ Hok), HandleTimeout_shrinks.
  - apply (sched_ok_shrink _ _ Hok), RemovePeer_shrinks.
  - apply (sched_ok_shrink _ _ Hok). unfold UpdateNextConnectHeight. case_match; [|done]. split_and!; try done. intros _. apply u32_range.
Qed.

Lemma sched_reachable_ok s : sched_reachable s → sched_ok s.
Proof.
  induction 1 as [tip|s d s' _ IH Hstep|s idx tip _ IH].
  - split; try done. apply u32_range.
  - by eapply sched_step_ok.
  - eapply sched_ok_shrink; [exact IH|]. split_and!; try done; [apply map_empty_subseteq..|]. intros _. apply u32_range.
Qed.

(** What a step does to the expected hashes. *)
Lemma sched_step_expected s d s' : sched_ok s → sched_step s d s' →
  expected s ⊆ expected s' ∪ list_to_set (block_hash <$> d).
Proof.
  intros Hok. destruct 1 as [s idx tip|s peer limit best|s hash block peer|s idx it Hit|s hash height|s it Hit|s peer it Hit|s height].
  - unfold Populate, populateLocked, expected. cbn [with_next with_queues bs_needed bs_inFlight bs_staging].
    rewrite hashes_of_app. set_solver.
  - rewrite AssignWork_expected. set_solver.
  - rewrite BlockReceived_expected. set_solver.
  - revert Hit. unfold DrainReady.
    destruct (drain_loop_spec (S (size (bs_staging s))) idx s (so_next _ Hok) ltac:(lia))
      as (hs & ready & missing & -> & Hf & _). cbn [fst snd]. intros Hit.
    assert (Hhs : list_to_set (block_hash <$> ready) = (list_to_set hs : gset Hash)).
    { clear Hit. f_equal. induction Hf as [|h b hs ready Hb _ IH]; [done|]. rewrite fmap_cons. f_equal; [by apply Hok|done]. }
    assert (Hexp : expected (if missing then flush_staging it (drained hs s) else drained hs s) = expected (drained hs s)).
    { destruct missing; [by apply flush_expected|done]. }
    rewrite Hexp, Hhs. unfold expected. cbn [drained with_next with_queues bs_needed bs_inFlight bs_staging].
    intros h Hh. destruct (decide (h ∈ hs)) as [|Hn]; [set_solver|].
    assert (h ∈ dom (bs_staging s) → h ∈ dom (foldl (λ m h, delete h m) (bs_staging s) hs)).
    { rewrite !elem_of_dom, foldl_delete_lookup. by rewrite decide_False. }
    set_solver.
  - rewrite RequeueBlock_expected. set_solver.
  - rewrite HandleTimeout_expected; [set_solver|]. intros [h e] He. rewrite Hit in He. apply elem_of_map_to_list in He.
    unfold expected. apply elem_of_dom_2 in He. set_solver.
  - rewrite RemovePeer_expected; [set_solver|]. intros [h e] He. rewrite Hit in He. apply elem_of_map_to_list in He.
    unfold expected. apply elem_of_dom_2 in He. set_solver.
  - unfold UpdateNextConnectHeight. case_match; set_solver.
Qed.
End runs.

(** ** A download from one peer *)

Section download.
Context (wall : nat → Z) (idx : HeaderIndex) (peer : string) (limit best : Z) (body : Hash → Block).
Implicit Types s : BlockScheduler.

Definition receive_all (hashes : list Hash) s : BlockScheduler :=
  foldl (λ s h, (BlockReceived wall h (body h) peer s).2) s hashes.

(** The peer is given work, delivers all of it, and what is ready is drained. *)
Definition download_round s : list stagedBlock * BlockScheduler :=
  let '(hashes, s1) := AssignWork wall peer limit best s in
  let s2 := receive_all hashes s1 in
  DrainReady idx (map_to_list (bs_staging (drain_loop (S (size (bs_staging s2))) idx s2).2)) s2.
Fixpoint download (rounds : nat) s : list stagedBlock * BlockScheduler :=
  match rounds with
  | O => ([], s)
  | S rounds' =>
      let '(ready, s') := download_round s in
      let '(ready', s'') := download rounds' s' in
      (ready ++ ready', s'')
  end.

Lemma assign_fold_all available l a : NoDup (se_Hash <$> l) → (∀ e, e ∈ l → as_inFlight a !! se_Hash e = None) →
  Forall (λ e, se_Height e ≤ best) l →
  let k := Z.to_nat (available - len (as_assigned a)) in
  let a' := foldl (assign_entry wall peer available best) a l in
  as_assigned a' = as_assigned a ++ (se_Hash <$> take k l) ∧ as_remaining a' = as_remaining a ++ drop k l.
Proof.
  revert a. induction l as [|e l IH]; intros a Hnd Hnone Hh; cbv zeta.
  { rewrite take_nil, drop_nil, !app_nil_r. done. }
  cbn [foldl]. apply NoDup_cons in Hnd as [He Hnd]. apply Forall_cons in Hh as [Hhe Hh].
  assert (Hcase : assign_entry wall peer available best a e =
    if available <=? len (as_assigned a)
    then mkAssign (as_inFlight a) (as_stats a) (as_assigned a) (as_remaining a ++ [e]) (as_clock a)
    else mkAssign (<[se_Hash e := mkInFlightEntry (se_Hash e) (se_Height e) peer (wall (as_clock a))]> (as_inFlight a))
      (mkStats (ps_InFlight (as_stats a) + 1) (ps_Completed (as_stats a)) (ps_Failed (as_stats a))
         (ps_AvgLatency (as_stats a)) (wall (S (as_clock a))) (ps_BytesRecv (as_stats a)))
      (as_assigned a ++ [se_Hash e]) (as_remaining a) (S (S (as_clock a)))).
  { unfold assign_entry. case_match; [done|]. rewrite bool_decide_false by (rewrite Hnone by left; by intros []).
    by rewrite (proj2 (Z.ltb_ge _ _)). }
  rewrite Hcase. destruct (Z.leb_spec available (len (as_assigned a))) as [Hfull|Hroom].
  - destruct (IH (mkAssign (as_inFlight a) (as_stats a) (as_assigned a) (as_remaining a ++ [e]) (as_clock a)))
      as [H1 H2]; [done|intros; apply Hnone; by right|done|]. cbn in H1, H2.
    rewrite H1, H2. replace (Z.to_nat (available - len (as_assigned a))) with 0%nat by lia.
    split; [done|]. cbn. by rewrite <-app_assoc.
  - match goal with |- context [foldl _ ?x l] => destruct (IH x) as [H1 H2] end; [done| |done|].
    + cbn [as_inFlight]. intros e' He'. rewrite lookup_insert_ne; [apply Hnone; by right|].
      intros Heq. apply He. rewrite Heq. by apply list_elem_of_fmap_2.
    + cbn [as_assigned as_remaining] in H1, H2. rewrite H1, H2, length_app.
      replace (Z.to_nat (available - len (as_assigned a)))
        with (S (Z.to_nat (available - Z.of_nat (length (as_assigned a) + length [se_Hash e])))) by (cbn [length]; lia).
      split; [|done]. cbn. by rewrite <-app_assoc.
Qed.

Lemma receive_all_spec hs s : NoDup hs → (∀ h, h ∈ hs → is_Some (bs_inFlight s !! h)) →
  (∀ h, h ∈ hs → HashBlockHeader (blk_Header (body h)) = h) →
  let s' := receive_all hs s in
  bs_needed s' = bs_needed s ∧ bs_nextConnectHeight s' = bs_nextConnectHeight s ∧ limits s' = limits s ∧
  bs_inFlight s' = foldl (λ m h, delete h m) (bs_inFlight s) hs ∧
  (∀ h, bs_staging s' !! h = if decide (h ∈ hs) then Some (mkStagedBlock (body h) peer) else bs_staging s !! h) ∧
  ps_InFlight (getOrCreateStats s' peer) = ps_InFlight (getOrCreateStats s peer) - len hs.
Proof.
  cbv zeta. revert s. induction hs as [|h hs IH]; intros s Hnd Hin Hbody; cbn [receive_all foldl].
  { split_and!; [done..|intros; rewrite decide_False by set_solver; done|cbn; lia]. }
  apply NoDup_cons in Hnd as [Hh Hnd]. destruct (Hin h ltac:(left)) as [entry He].
  assert (Hrec : ∃ st c, (BlockReceived wall h (body h) peer s).2 = with_clock c (put_stats peer st
    (with_queues (bs_needed s) (delete h (bs_inFlight s)) (<[h := mkStagedBlock (body h) peer]> (bs_staging s)) s)) ∧
    ps_InFlight st = ps_InFlight (getOrCreateStats s peer) - 1).
  { unfold BlockReceived. rewrite He, bool_decide_false by (intros Hne; apply Hne, Hbody; left). do 2 eexists. split; done. }
  destruct Hrec as (st & c & Hrec & Hst). rewrite Hrec. set (s1 := with_clock c _).
  destruct (IH s1) as (E1 & E2 & E3 & E4 & E5 & E6); [done| |intros; apply Hbody; by right|].
  { intros h' Hh'. cbn. rewrite lookup_delete_ne by (intros ->; done). apply Hin. by right. }
  unfold receive_all in *. rewrite E1, E2, E3, E4, E6. split_and!; [done..| |].
  - intros h'. rewrite E5. cbn [bs_staging s1 with_clock put_stats with_stats with_queues].
    destruct (decide (h' ∈ hs)); [rewrite decide_True by (by right); done|].
    destruct (decide (h' = h)) as [->|Hne]; [rewrite decide_True by left; by rewrite lookup_insert_eq|].
    rewrite decide_False by set_solver. by rewrite lookup_insert_ne.
  - assert (Hs1 : getOrCreateStats s1 peer = st).
    { unfold getOrCreateStats. cbn. by rewrite lookup_insert_eq. }
    rewrite Hs1, Hst. cbn [length]. lia.
Qed.
(** Nothing is requested or staged, and [l] are the hashes still to fetch. *)
Record ready_for (l : list Hash) s : Prop := {
  rf_needed : se_Hash <$> bs_needed s = l;
  rf_heights : Forall (λ e, se_Height e ≤ best) (bs_needed s);
  rf_inFlight : bs_inFlight s = ∅;
  rf_staging : bs_staging s = ∅;
  rf_stats : ps_InFlight (getOrCreateStats s peer) = 0;
  rf_limits : limits s = (DefaultMaxInFlightPerPeer, DefaultMaxGlobalInFlight, DefaultMaxStagingSize, DefaultRequestTimeout);
  rf_next : 0 ≤ bs_nextConnectHeight s ∧ bs_nextConnectHeight s + len l < 2 ^ 32;
  rf_hashes : ∀ i : nat, best_hash idx (bs_nextConnectHeight s + Z.of_nat i) = l !! i
}.

Definition delivered (h : Hash) : stagedBlock := mkStagedBlock (body h) peer.

(** Everything staged is next in line: all of it is drained. *)
Lemma drain_all s hs tl : NoDup (hs ++ tl) →
  0 ≤ bs_nextConnectHeight s ∧ bs_nextConnectHeight s + len (hs ++ tl) < 2 ^ 32 →
  (∀ i : nat, best_hash idx (bs_nextConnectHeight s + Z.of_nat i) = (hs ++ tl) !! i) →
  (∀ h, bs_staging s !! h = if decide (h ∈ hs) then Some (delivered h) else None) →
  ∃ missing, drain_loop (S (size (bs_staging s))) idx s = (delivered <$> hs, missing, drained hs s) ∧
    bs_staging (drained hs s) = ∅.
Proof.
  intros Hnd Hnext Hhash Hst. rewrite length_app in Hnext.
  destruct (drain_loop_spec (S (size (bs_staging s))) idx s) as (ds & ready & missing & Heq & Hf & Hnds & Hds & Hstop);
    [unfold is_u32; lia|lia|].
  assert (Hin : ∀ h, h ∈ ds → h ∈ hs).
  { intros h Hh. apply list_elem_of_lookup in Hh as [i Hi]. destruct (Forall2_lookup_l _ _ _ _ _ Hf Hi) as (b & _ & Hb).
    rewrite Hst in Hb. by case_decide. }
  assert (Hle : (length ds ≤ length hs)%nat) by (by apply submseteq_length, NoDup_submseteq).
  assert (Hpre : ∀ i, (i < length ds)%nat → ds !! i = hs !! i).
  { intros i Hi. destruct (lookup_lt_is_Some_2 _ _ Hi) as [h Hh]. specialize (Hds i h Hh).
    rewrite u32_id, Hhash, lookup_app_l in Hds by (unfold is_u32; lia). congruence. }
  assert (Hds_eq : ds = hs).
  { destruct (decide (length ds = length hs)) as [Hlen|Hlen].
    - apply list_eq_same_length with (length hs); [done|done|]. intros i x y Hi Hx Hy. rewrite Hpre in Hx by lia. congruence.
    - exfalso. destruct (lookup_lt_is_Some_2 hs (length ds) ltac:(lia)) as [h Hh].
      assert (Hb : best_hash idx (bs_nextConnectHeight (drained ds s)) = Some h).
      { cbn -[u32]. rewrite u32_id, Hhash, lookup_app_l by (unfold is_u32; lia). done. }
      assert (Hnot : h ∉ ds).
      { intros Hd. apply list_elem_of_lookup in Hd as [j Hj]. pose proof (lookup_lt_Some _ _ _ Hj).
        rewrite Hpre in Hj by done. apply NoDup_app in Hnd as (Hnd & _). pose proof (NoDup_lookup _ _ _ _ Hnd Hh Hj). lia. }
      destruct missing; [|cbv zeta in Hstop; rewrite Hb in Hstop; done].
      destruct Hstop as (h' & Hh' & Hnone). rewrite Hb in Hh'. injection Hh' as <-. cbn in Hnone.
      rewrite foldl_delete_lookup, decide_False, Hst, decide_True in Hnone; [done|by eapply list_elem_of_lookup_2|done]. }
  subst ds. exists missing. rewrite Heq. split.
  - do 2 f_equal. apply list_eq. intros i. rewrite list_lookup_fmap. destruct (hs !! i) as [h|] eqn:Hi.
    + destruct (Forall2_lookup_l _ _ _ _ _ Hf Hi) as (b & -> & Hb).
      rewrite Hst, decide_True in Hb by (by eapply list_elem_of_lookup_2). cbn. congruence.
    + apply lookup_ge_None in Hi. apply lookup_ge_None. by rewrite <-(Forall2_length _ _ _ Hf).
  - apply map_eq. intros h. cbn. rewrite foldl_delete_lookup, lookup_empty, Hst. by repeat case_decide.
Qed.

Definition batch : nat := Z.to_nat (Z.min (Z.min DefaultMaxInFlightPerPeer limit) DefaultMaxGlobalInFlight).

Lemma assign_ready l s : ready_for l s → NoDup l →
  ∃ s1, AssignWork wall peer limit best s = (take batch l, s1) ∧ bs_needed s1 = drop batch (bs_needed s) ∧
    (∀ h, is_Some (bs_inFlight s1 !! h) ↔ h ∈ take batch l) ∧ bs_staging s1 = ∅ ∧
    ps_InFlight (getOrCreateStats s1 peer) = len (take batch l) ∧ limits s1 = limits s ∧
    bs_nextConnectHeight s1 = bs_nextConnectHeight s.
Proof.
  intros [Hn Hh Hf Hg Hst Hlim Hnext Hhash] Hnd. injection Hlim as L1 L2 L3 L4. unfold AssignWork.
  cbn [bs_maxInFlightPerPeer bs_maxGlobalInFlight bs_maxStagingSize bs_inFlight bs_staging put_stats with_stats bs_clock bs_needed].
  set (st := getOrCreateStats s peer) in *. rewrite L1, L2, L3, Hst, Hf, Hg, !map_size_empty.
  change (DefaultMaxInFlightPerPeer <=? 0) with false. change (DefaultMaxGlobalInFlight <=? Z.of_nat 0) with false.
  change (DefaultMaxStagingSize <=? Z.of_nat 0) with false. cbv iota. rewrite !Z.sub_0_r.
  set (av := Z.min _ _). set (a0 := mkAssign ∅ st [] [] (bs_clock s)).
  destruct (assign_fold_all av (bs_needed s) a0) as [Ha Hr]; [by rewrite Hn|done|done|].
  destruct (assign_fold_ok wall peer av best ∅ st (bs_needed s) (bs_clock s)) as [_ _ _ _ Hs Hin _]. fold a0 in Hs, Hin.
  set (a := foldl _ a0 (bs_needed s)) in *. cbn in Ha, Hr. rewrite Z.sub_0_r in Ha, Hr. change (Z.to_nat av) with batch in Ha, Hr.
  change (fmap se_Hash (take batch (bs_needed s))) with (se_Hash <$> take batch (bs_needed s)) in Ha.
  rewrite fmap_take, Hn in Ha. rewrite Ha in *. eexists. split; [done|]. cbn. split_and!; try done.
  - intros h. specialize (Hin h). destruct (decide (h ∈ take batch l)).
    + destruct Hin as (e1 & -> & _). split; [done|by eexists].
    + rewrite Hin. split; [by intros []|done].
  - unfold getOrCreateStats. cbn. rewrite lookup_insert_eq. cbn. rewrite Hs, Hst. lia.
Qed.

Lemma download_round_spec l s : ready_for l s → NoDup l → 1 ≤ limit →
  (∀ h, h ∈ l → HashBlockHeader (blk_Header (body h)) = h) →
  ∃ s', download_round s = (delivered <$> take batch l, s') ∧ ready_for (drop batch l) s' ∧
    bs_nextConnectHeight s' = bs_nextConnectHeight s + len (take batch l).
Proof.
  intros Hrf Hnd Hlimit Hbody. destruct (assign_ready l s Hrf Hnd) as (s1 & Has & Hn1 & Hf1 & Hg1 & Hst1 & Hl1 & Hx1).
  destruct Hrf as [Hn Hh Hf Hg Hst Hlim Hnext Hhash]. unfold download_round. rewrite Has.
  set (hs := take batch l) in *. assert (Hsplit : hs ++ drop batch l = l) by apply take_drop.
  rewrite <-Hsplit in Hnd. assert (Hndh : NoDup hs) by (by apply NoDup_app in Hnd as (? & _)).
  destruct (receive_all_spec hs s1) as (E1 & E2 & E3 & E4 & E5 & E6);
    [done|intros h; apply Hf1|intros h Hin; apply Hbody; rewrite <-Hsplit; set_solver|].
  set (s2 := receive_all hs s1) in *.
  destruct (drain_all s2 hs (drop batch l)) as (missing & Hdrain & Hempty); [done| | |intros h; by rewrite E5, Hg1|].
  { rewrite E2, Hx1, Hsplit. done. }
  { intros i. rewrite E2, Hx1, Hsplit. apply Hhash. }
  unfold DrainReady. rewrite Hdrain. cbn [snd]. rewrite Hempty, map_to_list_empty.
  assert (Hlen : len l = len hs + len (drop batch l)) by (rewrite <-Hsplit at 1; rewrite length_app; lia).
  exists (drained hs s2). split; [|split].
  - destruct missing; [|done]. unfold flush_staging. rewrite Hempty, map_size_empty.
    injection (eq_trans E3 (eq_trans Hl1 Hlim)) as _ _ HL3 _. cbn [bs_maxStagingSize drained with_next with_queues].
    rewrite HL3. done.
  - split; cbn [bs_needed bs_inFlight bs_staging bs_nextConnectHeight drained with_next with_queues].
    + by rewrite E1, Hn1, fmap_drop, Hn.
    + rewrite E1, Hn1. by apply Forall_drop.
    + rewrite E4. apply map_eq. intros h. rewrite foldl_delete_lookup, lookup_empty. case_decide as Hd; [done|].
      apply eq_None_not_Some. by rewrite Hf1.
    + exact Hempty.
    + change (getOrCreateStats (drained hs s2) peer) with (getOrCreateStats s2 peer). rewrite E6, Hst1. lia.
    + change (limits (drained hs s2)) with (limits s2). congruence.
    + rewrite E2, Hx1, u32_id by (unfold is_u32; lia). lia.
    + intros i. rewrite E2, Hx1, u32_id by (unfold is_u32; lia). rewrite lookup_drop.
      destruct (decide (length hs = batch)) as [<-|Hshort].
      * rewrite <-Hhash. f_equal. lia.
      * assert (Hall : drop batch l = []) by (apply drop_ge; unfold hs in Hshort; rewrite length_take in Hshort; lia).
        replace (l !! (batch + i)%nat) with (@None Hash) by (rewrite <-lookup_drop, Hall; done).
        rewrite <-Z.add_assoc, <-Nat2Z.inj_add, Hhash. apply lookup_ge_None. rewrite Hall in Hlen. simpl in Hlen. lia.
  - cbn [bs_nextConnectHeight drained with_next]. rewrite E2, Hx1, u32_id by (unfold is_u32; lia). done.
Qed.

Lemma download_spec rounds l s : ready_for l s → NoDup l → 1 ≤ limit →
  (∀ h, h ∈ l → HashBlockHeader (blk_Header (body h)) = h) → (length l ≤ rounds)%nat →
  ∃ s', download rounds s = (delivered <$> l, s') ∧ ready_for [] s' ∧
    bs_nextConnectHeight s' = bs_nextConnectHeight s + len l.
Proof.
  revert l s. induction rounds as [|rounds IH]; intros l s Hrf Hnd Hlimit Hbody Hlen; cbn [download].
  { destruct l; [|simpl in Hlen; lia]. exists s. split_and!; [done|done|cbn; lia]. }
  destruct (download_round_spec l s Hrf Hnd Hlimit Hbody) as (s1 & -> & Hrf1 & Hx1).
  assert (Hsplit : take batch l ++ drop batch l = l) by apply take_drop.
  assert (Hb : (0 < batch)%nat) by (unfold batch, DefaultMaxInFlightPerPeer, DefaultMaxGlobalInFlight; lia).
  destruct (IH (drop batch l) s1 Hrf1) as (s' & -> & Hrf' & Hx').
  - rewrite <-Hsplit in Hnd. by apply NoDup_app in Hnd as (_ & _ & ?).
  - done.
  - intros h Hh. apply Hbody. rewrite <-Hsplit. set_solver.
  - rewrite length_drop. lia.
  - exists s'. split_and!; [|done|].
    + by rewrite <-fmap_app, Hsplit.
    + rewrite Hx', Hx1. apply (f_equal length) in Hsplit. rewrite length_app in Hsplit. lia.
Qed.
End download.

(** ** The hashes of the best header chain *)

Definition chain_hashes (idx : HeaderIndex) : list Hash :=
  (λ q, hn_Hash (node idx q)) <$> branch (hi_nodes idx) (hi_bestHeader idx).

Section chain.
Context (p : ChainParams) (engine : Engine) (trusted : list BlockHeader) (idx : HeaderIndex).
Context (Hok : index_ok p engine trusted idx).

Lemma best_hash_chain h : 0 ≤ h → best_hash idx h = chain_hashes idx !! Z.to_nat h.
Proof.
  intros Hh. unfold best_hash, chain_hashes. by rewrite (getHeaderByHeight_spec p engine trusted), list_lookup_fmap.
Qed.

Lemma chain_hashes_length : len (chain_hashes idx) = BestHeaderHeight idx + 1.
Proof.
  unfold chain_hashes. rewrite length_fmap. apply branch_length; [apply Hok|by eapply best_allocated].
Qed.

Lemma best_height_range : 0 ≤ BestHeaderHeight idx < 2 ^ 32 - 1.
Proof.
  pose proof (io_tree _ _ _ _ Hok) as Htree. pose proof (best_allocated _ _ _ _ Hok) as Hb.
  pose proof (height_range _ Htree _ Hb). destruct Htree as [Hlen _]. unfold BestHeaderHeight, node. lia.
Qed.

Lemma fetch_loop_spec turns h limit : 0 ≤ h → h + Z.of_nat turns = BestHeaderHeight idx + 1 →
  Z.of_nat turns ≤ limit → fetch_loop turns idx h limit = drop (Z.to_nat h) (chain_hashes idx).
Proof.
  pose proof chain_hashes_length as Hlen. revert h limit.
  induction turns as [|turns IH]; intros h limit Hh Hsum Hlim; cbn [fetch_loop].
  { rewrite drop_ge; [done|lia]. }
  rewrite (proj2 (Z.ltb_lt _ _)) by lia.
  destruct (lookup_lt_is_Some_2 (chain_hashes idx) (Z.to_nat h) ltac:(lia)) as [x Hx].
  pose proof (best_hash_chain h Hh) as Hb. rewrite Hx in Hb. unfold best_hash in Hb.
  destruct (getHeaderByHeightLocked idx h) as [q|]; [|done]. injection Hb as ->.
  rewrite IH by lia. rewrite (drop_S _ x (Z.to_nat h)) by done. repeat f_equal. lia.
Qed.

Lemma queue_new_fresh s h l best : bs_inFlight s = ∅ → bs_staging s = ∅ → 0 ≤ h → h + len l ≤ best + 1 → best < 2 ^ 32 - 1 →
  se_Hash <$> queue_new s ∅ h l = l ∧ Forall (λ e, se_Height e ≤ best) (queue_new s ∅ h l).
Proof.
  intros Hf Hg. revert h. induction l as [|x l IH]; intros h Hh Hsum Hmax; cbn [queue_new]; [done|].
  cbn [length] in Hsum. rewrite Hf, Hg, !lookup_empty. rewrite !bool_decide_false by (set_solver || by intros []). cbn [orb].
  destruct (IH (u32 (h + 1))) as [H1 H2]; [apply u32_range|rewrite u32_id by (unfold is_u32; lia); lia|done|].
  split; [cbn; by f_equal|]. constructor; [cbn; lia|done].
Qed.

Lemma populate_ready peer tip best : 0 ≤ tip ≤ BestHeaderHeight idx → BestHeaderHeight idx ≤ best → best < 2 ^ 32 →
  ready_for idx peer best (drop (Z.to_nat (tip + 1)) (chain_hashes idx)) (Populate idx tip (NewBlockScheduler tip)).
Proof.
  intros Htip Hbest Hb32. pose proof best_height_range as Hr. pose proof chain_hashes_length as Hlen.
  unfold Populate, populateLocked. rewrite !u32_id by (unfold is_u32; lia).
  assert (Hfetch : HeadersToFetch idx (tip + 1) (BestHeaderHeight idx - tip) = drop (Z.to_nat (tip + 1)) (chain_hashes idx)).
  { unfold HeadersToFetch. apply fetch_loop_spec; lia. }
  rewrite Hfetch. set (l := drop _ _). change (list_to_set (se_Hash <$> bs_needed (NewBlockScheduler tip))) with (∅ : gset Hash).
  destruct (queue_new_fresh (NewBlockScheduler tip) (tip + 1) l (BestHeaderHeight idx)) as [H1 H2];
    [done|done|lia|unfold l; rewrite length_drop; lia|lia|].
  split; cbn [bs_needed bs_inFlight bs_staging bs_nextConnectHeight with_next with_queues NewBlockScheduler app]; try done.
  - eapply Forall_impl; [done|]. cbn. lia.
  - unfold l. rewrite length_drop. lia.
  - intros i. rewrite best_hash_chain by lia. unfold l. rewrite lookup_drop. f_equal. lia.
Qed.
End chain.

(** ** Properties *)

Section properties.
Context (wall : nat → Z).

(** At any time at most 512 blocks are requested, fewer than 1536 are requested
    or staged, and a staged block is the block of the hash it is staged under:
    [BlockReceived] has checked its header. *)
Theorem scheduler_limits s : sched_reachable wall s →
  InFlightCount s ≤ DefaultMaxGlobalInFlight ∧
  InFlightCount s + StagingCount s < DefaultMaxGlobalInFlight + DefaultMaxStagingSize ∧
  ∀ h b, bs_staging s !! h = Some b → HashBlockHeader (blk_Header (sb_Block b)) = h.
Proof. intros Hs%sched_reachable_ok. split_and!; apply Hs. Qed.

(** C31: No request is forgotten: whatever blocks arrive, time out, fail validation
    or leave with their peer, and in whatever order, a hash the scheduler waits
    for is waited for until [DrainReady] hands its block over. *)
Theorem no_request_lost s ready s' h :
  sched_reachable wall s → sched_run wall s ready s' → h ∈ expected s →
  h ∈ expected s' ∨ ∃ b, b ∈ ready ∧ HashBlockHeader (blk_Header (sb_Block b)) = h.
Proof.
  intros Hs Hrun. revert Hs. induction Hrun as [s|s d s1 d' s2 Hstep _ IH]; intros Hs Hh; [by left|].
  pose proof (sched_step_expected wall s d s1 (sched_reachable_ok _ _ Hs) Hstep h Hh) as [Hin|Hin]%elem_of_union.
  - destruct (IH ltac:(by eapply reachable_step) Hin) as [|(b & Hb & ?)]; [by left|right]. exists b. set_solver.
  - right. apply elem_of_list_to_set, list_elem_of_fmap in Hin as (b & -> & Hb). exists b. set_solver.
Qed.

(** [AssignWork] hands out only needed hashes that nobody was asked for and that
    the peer can have, each once, within the limits per call, per peer and in
    all, and records them as requested from the peer; and it does hand something
    out when the limits allow and there is something to ask for. *)
Theorem AssignWork_correct peer limit best s hashes s' :
  sched_reachable wall s → AssignWork wall peer limit best s = (hashes, s') →
  let used := ps_InFlight (getOrCreateStats s peer) in
  NoDup hashes ∧ len hashes ≤ Z.max 0 limit ∧ len hashes ≤ Z.max 0 (DefaultMaxInFlightPerPeer - used) ∧
  InFlightCount s' = InFlightCount s + len hashes ∧ InFlightCount s' ≤ DefaultMaxGlobalInFlight ∧
  (∀ h, h ∈ hashes → (∃ e, e ∈ bs_needed s ∧ se_Hash e = h ∧ se_Height e ≤ best) ∧ IsInFlight s h = false ∧
     ∃ e, bs_inFlight s' !! h = Some e ∧ if_PeerAddr e = peer) ∧
  (0 < limit → used < DefaultMaxInFlightPerPeer → InFlightCount s < DefaultMaxGlobalInFlight →
   StagingCount s < DefaultMaxStagingSize →
   (∃ e, e ∈ bs_needed s ∧ se_Height e ≤ best ∧ IsInFlight s (se_Hash e) = false) → hashes ≠ []).
Proof.
  intros Hs%sched_reachable_ok Has. destruct (so_limits _ Hs) as (L1 & L2 & L3 & _). pose proof (so_inFlight _ Hs) as Hf.
  cbv zeta. unfold AssignWork in Has.
  cbn [bs_maxInFlightPerPeer bs_maxGlobalInFlight bs_maxStagingSize bs_inFlight bs_staging put_stats with_stats bs_clock bs_needed] in Has.
  set (st := getOrCreateStats s peer) in *. rewrite L1, L2, L3 in Has. unfold IsInFlight, StagingCount, InFlightCount in *.
  repeat match type of Has with (if ?x <=? ?y then _ else _) = _ => destruct (Z.leb_spec x y) end.
  1-3: injection Has as <- <-; cbn; split_and!; try lia; [constructor|set_solver].
  set (av := Z.min _ _) in *. destruct (assign_fold_ok wall peer av best (bs_inFlight s) st (bs_needed s) (bs_clock s))
    as [Hnd Hfrom Hsize Hlim Hst Hin Hprog]. set (a := foldl _ _ _) in *.
  injection Has as <- <-. cbn [bs_inFlight with_clock put_stats with_stats with_queues]. split_and!; try lia; [done| |].
  - intros h Hh. destruct (Hfrom h Hh) as (e & He & He' & Hnone & Hbest). specialize (Hin h). rewrite decide_True in Hin by done.
    destruct Hin as (e' & He1 & _ & He2). split_and!; [by exists e| |by exists e'].
    subst h. by rewrite Hnone.
  - intros Hl Hu _ _ (e & He & Hbest & Hnone). apply Hprog; [lia|]. exists e. split; [done|]. split; [|done].
    apply eq_None_not_Some. by apply bool_decide_eq_false in Hnone.
Qed.

(** [DrainReady] returns blocks in the order of the best header chain, without a
    gap, from the next height to connect on, and stops only where the chain ends
    or the next block is not staged; the next height moves past them.  In
    particular a block that was handed over, failed validation and was queued
    again is below the next height: it is not handed over again until
    [Populate] or [Reset] moves the next height back. *)
Theorem DrainReady_in_order idx it s ready s' :
  sched_reachable wall s → DrainReady idx it s = (ready, s') →
  (∀ i b, ready !! i = Some b →
     best_hash idx (u32 (bs_nextConnectHeight s + Z.of_nat i)) = Some (HashBlockHeader (blk_Header (sb_Block b))) ∧
     bs_staging s !! HashBlockHeader (blk_Header (sb_Block b)) = Some b) ∧
  bs_nextConnectHeight s' = u32 (bs_nextConnectHeight s + len ready) ∧
  (∀ h b, best_hash idx (bs_nextConnectHeight s') = Some h → bs_staging s !! h = Some b → b ∈ ready).
Proof.
  intros Hs%sched_reachable_ok. unfold DrainReady.
  destruct (drain_loop_spec (S (size (bs_staging s))) idx s (so_next _ Hs) ltac:(lia))
    as (hs & ready' & missing & -> & Hf & Hnd & Hhs & Hstop). intros [= <- <-].
  assert (Hnext : bs_nextConnectHeight (if missing then flush_staging it (drained hs s) else drained hs s)
    = u32 (bs_nextConnectHeight s + len ready')).
  { rewrite <-(Forall2_length _ _ _ Hf). destruct missing; [|done]. unfold flush_staging. by case_match. }
  rewrite Hnext. split_and!; [|done|].
  - intros i b Hb. destruct (Forall2_lookup_r _ _ _ _ _ Hf Hb) as (h & Hh & Hst).
    rewrite (Hhs i h Hh). pose proof (so_staged _ Hs _ _ Hst) as Heq. unfold block_hash in Heq. by rewrite Heq.
  - intros h b Hbest Hb. cbn -[u32] in Hstop. rewrite (Forall2_length _ _ _ Hf) in Hstop.
    destruct missing; [|by rewrite Hbest in Hstop]. destruct Hstop as (h' & Hh' & Hnone). rewrite Hbest in Hh'. injection Hh' as <-.
    rewrite foldl_delete_lookup in Hnone. destruct (decide (h ∈ hs)) as [Hin|]; [|congruence].
    apply list_elem_of_lookup in Hin as [i Hi]. destruct (Forall2_lookup_l _ _ _ _ _ Hf Hi) as (b' & Hb' & Hst).
    rewrite Hb in Hst. injection Hst as ->. by eapply list_elem_of_lookup_2.
Qed.

(** C32: Block download completes: with one peer that has the best chain and answers
    every request with the block asked for, a scheduler started at a tip hands
    over, in order, every block above the tip, in at most as many rounds of
    requests as there are blocks, and is then complete. *)
Theorem download_completes p engine genesis trusted idx peer limit best body tip rounds :
  reached p engine genesis trusted idx → len (hi_nodes idx) < 2 ^ 32 → NoDup (chain_hashes idx) →
  (∀ h, h ∈ chain_hashes idx → HashBlockHeader (blk_Header (body h)) = h) →
  1 ≤ limit → 0 ≤ tip ≤ BestHeaderHeight idx → BestHeaderHeight idx ≤ best → best < 2 ^ 32 →
  BestHeaderHeight idx - tip ≤ Z.of_nat rounds →
  ∃ s', download wall idx peer limit best body rounds (Populate idx tip (NewBlockScheduler tip))
        = (delivered peer body <$> drop (Z.to_nat (tip + 1)) (chain_hashes idx), s') ∧
    IsComplete s' = true ∧ bs_nextConnectHeight s' = BestHeaderHeight idx + 1.
Proof.
  intros Hre Hmax Hnd Hbody Hlimit Htip Hbest Hb32 Hrounds. pose proof (reached_ok _ _ _ _ _ Hre Hmax) as Hok.
  pose proof (chain_hashes_length _ _ _ _ Hok) as Hlen. pose proof (best_height_range _ _ _ _ Hok).
  pose proof (populate_ready p engine trusted idx Hok peer tip best Htip Hbest Hb32) as Hrf.
  rewrite <-(take_drop (Z.to_nat (tip + 1)) (chain_hashes idx)) in Hnd.
  destruct (download_spec wall idx peer limit best body rounds _ _ Hrf) as (s' & Hd & Hrf' & Hnext).
  - by apply NoDup_app in Hnd as (_ & _ & ?).
  - done.
  - intros h Hh. apply Hbody. rewrite <-(take_drop (Z.to_nat (tip + 1)) (chain_hashes idx)). set_solver.
  - rewrite length_drop. lia.
  - exists s'. split_and!; [done| |].
    + destruct Hrf' as [Hn _ Hf Hg _ _ _ _]. unfold IsComplete, NeedCount, InFlightCount, StagingCount.
      apply fmap_nil_inv in Hn. rewrite Hn, Hf, Hg, !map_size_empty. done.
    + assert (Hn0 : bs_nextConnectHeight (Populate idx tip (NewBlockScheduler tip)) = u32 (tip + 1)) by done.
      rewrite Hnext, Hn0, length_drop, u32_id by (unfold is_u32; lia). lia.
Qed.
(** A block that arrives from another peer than the one it was requested from
    ends the request, but it is taken off the count of the sender: the count of
    the peer that was asked stays, so that after sixteen such deliveries the peer
    is given no more work although it owes nothing, and the count of the sender
    goes below the number of its requests, down to negative numbers. *)
Theorem foreign_delivery_miscounts s hash block sender e :
  sched_reachable wall s → bs_inFlight s !! hash = Some e → if_PeerAddr e ≠ sender →
  HashBlockHeader (blk_Header block) = hash →
  let s' := (BlockReceived wall hash block sender s).2 in
  IsInFlight s' hash = false ∧ InFlightCount s' = InFlightCount s - 1 ∧
  ps_InFlight (getOrCreateStats s' (if_PeerAddr e)) = ps_InFlight (getOrCreateStats s (if_PeerAddr e)) ∧
  ps_InFlight (getOrCreateStats s' sender) = ps_InFlight (getOrCreateStats s sender) - 1 ∧
  (DefaultMaxInFlightPerPeer ≤ ps_InFlight (getOrCreateStats s (if_PeerAddr e)) →
   ∀ limit best, (AssignWork wall (if_PeerAddr e) limit best s').1 = []).
Proof.
  intros Hs%sched_reachable_ok He Hne Hhash. cbv zeta. unfold BlockReceived. rewrite He, bool_decide_false by (by intros ?).
  set (s' := with_clock _ _). unfold IsInFlight, InFlightCount.
  assert (Hother : getOrCreateStats s' (if_PeerAddr e) = getOrCreateStats s (if_PeerAddr e)).
  { unfold getOrCreateStats. cbn. by rewrite lookup_insert_ne. }
  assert (Hsz : size (bs_inFlight s) ≠ 0%nat) by (intros Hz%map_size_empty_inv; by rewrite Hz in He).
  cbn [snd]. split_and!.
  - cbn. by rewrite lookup_delete_eq.
  - cbn. rewrite map_size_delete_Some by (by eexists). lia.
  - by rewrite Hother.
  - unfold getOrCreateStats at 1. cbn. by rewrite lookup_insert_eq.
  - intros Hfull limit best. unfold AssignWork. rewrite Hother. cbn [bs_maxInFlightPerPeer put_stats with_stats].
    change (bs_maxInFlightPerPeer s') with (bs_maxInFlightPerPeer s). destruct (so_limits _ Hs) as (-> & _).
    by rewrite (proj2 (Z.leb_le _ _)).
Qed.
End properties.

(** ** Witnesses *)

Definition sw_clock (n : nat) : Z := 1000000000 * Z.of_nat n.
Definition sw_body (h : Hash) : Block := if decide (h = HashBlockHeader (blk_Header w_b1)) then w_b1 else
  if decide (h = HashBlockHeader (blk_Header w_b2)) then w_b2 else mkBlock hw_genesis [].
Definition sw_start : BlockScheduler := Populate hw_index3 0 (NewBlockScheduler 0).
Definition sw_asked : BlockScheduler := (AssignWork sw_clock "a" 1 2 sw_start).2.
Definition sw_got : BlockScheduler := (BlockReceived sw_clock (HashBlockHeader (blk_Header w_b1)) w_b1 "a" sw_asked).2.

Lemma sw_asked_reachable : sched_reachable sw_clock sw_asked.
Proof. eapply reachable_step; [eapply reachable_step; [apply reachable_new|apply step_populate]|apply step_assign]. Qed.

Lemma sw_got_reachable : sched_reachable sw_clock sw_got.
Proof. eapply reachable_step; [apply sw_asked_reachable|apply step_received]. Qed.

Lemma scheduler_limits_witness : InFlightCount sw_asked = 1 ∧ InFlightCount sw_asked ≤ DefaultMaxGlobalInFlight.
Proof.
  pose proof (scheduler_limits sw_clock sw_asked sw_asked_reachable) as [Hlim _].
  split; [by vm_compute|exact Hlim].
Defined.

Lemma no_request_lost_witness :
  HashBlockHeader (blk_Header w_b1) ∈ expected (RequeueBlock (HashBlockHeader (blk_Header w_b1)) 0 sw_got) ∨
  ∃ b, b ∈ ([] : list stagedBlock) ∧ HashBlockHeader (blk_Header (sb_Block b)) = HashBlockHeader (blk_Header w_b1).
Proof.
  refine (no_request_lost sw_clock sw_asked [] _ _ sw_asked_reachable _ _).
  - refine (run_step _ _ [] _ [] _ _ _); [apply step_received with (block := w_b1) (peer := "a"%string)|].
    refine (run_step _ _ [] _ [] _ (step_requeue _ _ _ 0) (run_nil _ _)).
  - apply elem_of_union. left. apply elem_of_union. right. apply elem_of_dom. eexists. by vm_compute.
Defined.

Lemma AssignWork_correct_witness :
  (AssignWork sw_clock "a" 1 2 sw_start).1 ≠ [] ∧ len (AssignWork sw_clock "a" 1 2 sw_start).1 ≤ 1.
Proof.
  assert (Hre : sched_reachable sw_clock sw_start)
    by (eapply reachable_step; [apply reachable_new|apply step_populate]).
  pose proof (AssignWork_correct sw_clock "a" 1 2 sw_start _ _ Hre (surjective_pairing _)) as (_ & Hlen & _ & _ & _ & _ & Hprog).
  split; [|exact Hlen]. apply Hprog; [lia|by vm_compute|by vm_compute|by vm_compute|].
  exists (mkSchedulerEntry (HashBlockHeader (blk_Header w_b1)) 1).
  split_and!; [|by vm_compute|by vm_compute]. apply list_elem_of_lookup. exists 0%nat. by vm_compute.
Defined.

Lemma DrainReady_in_order_witness :
  len (DrainReady hw_index3 [] sw_got).1 = 1 ∧
  bs_nextConnectHeight (DrainReady hw_index3 [] sw_got).2 = u32 (bs_nextConnectHeight sw_got + len (DrainReady hw_index3 [] sw_got).1).
Proof.
  pose proof (DrainReady_in_order sw_clock hw_index3 [] sw_got _ _ sw_got_reachable (surjective_pairing _)) as (_ & Hnext & _).
  split; [by vm_compute|exact Hnext].
Defined.

Lemma download_completes_witness :
  ∃ s', download sw_clock hw_index3 "a" 1 2 sw_body 2 (Populate hw_index3 0 (NewBlockScheduler 0))
        = (delivered "a" sw_body <$> drop 1 (chain_hashes hw_index3), s') ∧
    IsComplete s' = true ∧ bs_nextConnectHeight s' = BestHeaderHeight hw_index3 + 1.
Proof.
  refine (download_completes sw_clock w_params w_engine hw_genesis [] hw_index3 "a" 1 2 sw_body 0 2
    hw_reached hw_small _ _ _ _ _ _ _).
  - apply (bool_decide_unpack _). by vm_compute.
  - apply Forall_forall. apply (bool_decide_unpack _). by vm_compute.
  - lia.
  - assert (BestHeaderHeight hw_index3 = 2) as -> by by vm_compute. lia.
  - assert (BestHeaderHeight hw_index3 = 2) as -> by by vm_compute. lia.
  - lia.
  - assert (BestHeaderHeight hw_index3 = 2) as -> by by vm_compute. lia.
Defined.

Lemma foreign_delivery_miscounts_witness :
  ps_InFlight (getOrCreateStats sw_asked "a") = 1 ∧
  (let s' := (BlockReceived sw_clock (HashBlockHeader (blk_Header w_b1)) w_b1 "b" sw_asked).2 in
   InFlightCount s' = InFlightCount sw_asked - 1 ∧
   ps_InFlight (getOrCreateStats s' "a") = ps_InFlight (getOrCreateStats sw_asked "a")).
Proof.
  pose proof (foreign_delivery_miscounts sw_clock sw_asked (HashBlockHeader (blk_Header w_b1)) w_b1 "b"
    (mkInFlightEntry (HashBlockHeader (blk_Header w_b1)) 1 "a" 0) sw_asked_reachable
    ltac:(by vm_compute) ltac:(done) eq_refl) as (_ & Hcount & Ha & _).
  split; [by vm_compute|]. split; [exact Hcount|exact Ha].
Defined.
