(* ===== verification/Miner.v ===== *)
(** * internal/miner/miner.go: building and mining a block

    The choice of transactions from the pool, the coinbase, the header and the
    search of the nonce space by several workers.  The goroutines of the search
    are modelled by the result of each worker and a relation that picks one of
    them; the hash rate statistics are left out. *)
From stdpp Require Import sorting.
From S2P Require Import Prelude Types Sha256 Target Merkle Params Utxo Keys Script TxValidation.
From S2P Require Import Algorithms Validation Difficulty Pow BlockFiles Store Chain ChainProps Heap Mempool MempoolProps.

Definition CoinbaseTag : list byte := String.list_byte_of_string "fairchain".
Definition headerSize : Z := 80.
Definition coinbaseEstimate : Z := 150.

(** ** The coinbase *)

Definition minimalHeightPushLen (height : Z) : Z :=
  if height <=? 0xFF then 1
  else if height <=? 0xFFFF then 2
  else if height <=? 0xFFFFFF then 3
  else 4.

Definition coinbase_message (height extraNonce : Z) : list byte :=
  let pushLen := minimalHeightPushLen height in
  [Z_to_byte pushLen] ++ take (Z.to_nat pushLen) (le_encode 4 height) ++
  (if 0 <? extraNonce then le_encode 4 extraNonce else []) ++ CoinbaseTag.

Definition buildCoinbaseWithExtra (rewardScript : list byte) (height subsidy extraNonce : Z) : Transaction :=
  mkTransaction 1 [mkTxInput CoinbaseOutPoint (coinbase_message height extraNonce) 0xFFFFFFFF]
    [mkTxOutput subsidy rewardScript] 0.
Definition buildCoinbase (rewardScript : list byte) (height subsidy : Z) : Transaction :=
  buildCoinbaseWithExtra rewardScript height subsidy 0.

(** ** The transactions *)

(** The entries of the template that fit: [n] are included already and the block
    has [blockSize] bytes. *)
Fixpoint select_txs (maxTxCount maxSize n blockSize : Z) (entries : list (Transaction * Hash * Z * Z))
    : list (Transaction * Hash * Z * Z) :=
  match entries with
  | [] => []
  | (tx, hash, fee, txSize) :: rest =>
      if (0 <? maxTxCount) && (maxTxCount <=? n) then []
      else if (0 <? maxSize) && (maxSize <? blockSize + txSize) then []
      else (tx, hash, fee, txSize) :: select_txs maxTxCount maxSize (n + 1) (blockSize + txSize) rest
  end.

Definition included (p : ChainParams) (tmpl : BlockTemplateResult) : list (Transaction * Hash * Z * Z) :=
  let maxTxCount := if p_MaxBlockTxCount p <=? 1 then 0 else p_MaxBlockTxCount p - 1 in
  select_txs maxTxCount (p_MaxBlockSize p) 0 (headerSize + coinbaseEstimate) (bt_Entries tmpl).
Definition included_fees (l : list (Transaction * Hash * Z * Z)) : Z :=
  foldl (λ t e, u64 (t + e.1.2)) 0 l.

(** ** The nonce search *)

Section search.
Context (engine : Engine) (target : Hash).

Definition batchSize : Z := 32.

(** A worker at [pos]: a batch has at least one nonce, so [end - pos] turns
    suffice.  It gives up on an error of the engine. *)
Fixpoint worker_loop (fuel : nat) (wHeader : BlockHeader) (pos stop : Z) : res (option BlockHeader) :=
  match fuel with
  | O => Ok None
  | S fuel' =>
      if stop <=? pos then Ok None else
      let batch := Z.min batchSize (stop - pos) in
      match e_SealHeader engine wHeader target batch with
      | Panic => Panic
      | Err _ => Ok None
      | Ok (true, wHeader) => Ok (Some wHeader)
      | Ok (false, wHeader) =>
          worker_loop fuel' (set_nonce wHeader (u32 (Z.land (pos + batch) 0xFFFFFFFF))) (pos + batch) stop
      end
  end.

Definition worker_start (numWorkers w : Z) : Z := u64 (w * (2 ^ 32 / numWorkers)).
Definition worker_stop (numWorkers w : Z) : Z :=
  if w =? numWorkers - 1 then 2 ^ 32 else u64 (worker_start numWorkers w + 2 ^ 32 / numWorkers).
Definition worker (header : BlockHeader) (numWorkers w : Z) : res (option BlockHeader) :=
  let start := worker_start numWorkers w in
  let stop := worker_stop numWorkers w in
  worker_loop (Z.to_nat (stop - start)) (set_nonce header (u32 start)) start stop.

(** What the search gives: the header of any worker that found one; nothing when
    no worker did; and possibly nothing when the tip moved or the node stops. *)
Inductive searched (header : BlockHeader) (numWorkers : Z) (stale : bool) : option BlockHeader → Prop :=
| searched_found w h : 0 ≤ w < numWorkers → worker header numWorkers w = Ok (Some h) → stale = false →
    searched header numWorkers stale (Some h)
| searched_none : (∀ w, 0 ≤ w < numWorkers → worker header numWorkers w = Ok None) →
    searched header numWorkers stale None
| searched_stale : stale = true → searched header numWorkers stale None.
End search.

(** ** Mining *)

Section miner.
Context {St : Type} `{BlockStore St}.
Context (p : ChainParams) (engine : Engine) (rewardScript : list byte) (workers : Z).

(** The candidate of one turn of the loop: the header that is searched and the
    transactions; [now] is the reading of the time source. *)
Definition build_candidate (c : Chain St) (tmpl : BlockTemplateResult) (now extraNonce : Z)
    : res (BlockHeader * list Transaction) :=
  let '(tipHash, tipHeight) := Tip c in
  tipHeader ← wrap "get tip header" (TipHeader c);
  let newHeight := u32 (tipHeight + 1) in
  let subsidy := CalcSubsidy p newHeight in
  let txs := included p tmpl in
  let coinbaseTx := buildCoinbaseWithExtra rewardScript newHeight (u64 (subsidy + included_fees txs)) extraNonce in
  let txs := coinbaseTx :: ((λ e, e.1.1.1) <$> txs) in
  let merkle := ComputeMerkleRoot txs in
  let ts := if u32 now <=? hdr_Timestamp tipHeader then u32 (hdr_Timestamp tipHeader + 1) else u32 now in
  header ← wrap "prepare header"
    (e_PrepareHeader engine (mkBlockHeader 1 tipHash merkle ts 0 0) tipHeader tipHeight (GetAncestor c) p);
  Ok (header, txs).

(** [MineOne] at a chain and a template: each turn with the next extra nonce,
    until a block is found, or the tip moves or the node stops (no block). *)
Inductive MineOne (c : Chain St) (tmpl : BlockTemplateResult) : Z → res (option Block) → Prop :=
| mine_abandoned extraNonce : MineOne c tmpl extraNonce (Ok None)
| mine_error extraNonce now e :
    build_candidate c tmpl now extraNonce = Err e → MineOne c tmpl extraNonce (Err e)
| mine_panic extraNonce now :
    build_candidate c tmpl now extraNonce = Panic → MineOne c tmpl extraNonce Panic
| mine_found extraNonce now header txs h :
    build_candidate c tmpl now extraNonce = Ok (header, txs) →
    searched engine (CompactToHash (hdr_Bits header)) header workers false (Some h) →
    MineOne c tmpl extraNonce (Ok (Some (mkBlock h txs)))
| mine_again extraNonce now header txs stale r :
    build_candidate c tmpl now extraNonce = Ok (header, txs) →
    searched engine (CompactToHash (hdr_Bits header)) header workers stale None →
    MineOne c tmpl (u32 (extraNonce + 1)) r → MineOne c tmpl extraNonce r.
End miner.

(** ** The search of the proof-of-work engine *)

Section pow_search.
Context (hasher : Hasher) (r : Retargeter) (Hhasher : hasher_ok hasher).

Lemma seal_loop_header target n h count f h' c :
  seal_loop hasher n h target count = Ok (f, h', c) → ∃ m, h' = set_nonce h m.
Proof.
  revert h count. induction n as [|n IH]; intros h count; cbn [seal_loop].
  { intros [= _ <- _]. exists (hdr_Nonce h). by rewrite set_nonce_same. }
  intros (out & _ & Hs)%bind_Ok. destruct (Hash_LessOrEqual out target).
  { injection Hs as _ <- _. exists (hdr_Nonce h). by rewrite set_nonce_same. }
  cbv zeta in Hs. destruct (_ =? 0); [injection Hs as _ <- _; by eexists|].
  apply IH in Hs as [m ->]. by exists m.
Qed.

(** One batch that stays below the wrap-around. *)
Lemma SealHeader_batch target h n : is_u32 (hdr_Nonce h) → 0 ≤ n ≤ 2 ^ 32 - hdr_Nonce h →
  (∃ k, 0 ≤ k < n ∧ pow_SealHeader hasher h target n = Ok (true, set_nonce h (hdr_Nonce h + k)) ∧
     pow_meets hasher target (set_nonce h (hdr_Nonce h + k))) ∨
  (∃ m, pow_SealHeader hasher h target n = Ok (false, set_nonce h m) ∧
     ∀ k, 0 ≤ k < n → ¬ pow_meets hasher target (set_nonce h (hdr_Nonce h + k))).
Proof.
  intros Hn Hle. unfold pow_SealHeader.
  destruct (seal_loop_spec hasher target h (Z.to_nat n) 0 Hhasher Hn ltac:(lia))
    as [(k & Hk & Heq & Hmeet & _)|(h' & Heq & Hnone)]; rewrite Heq; cbn [mbind res_bind].
  - left. exists (Z.of_nat k). split_and!; [lia|lia|done|done].
  - right. apply seal_loop_header in Heq as [m ->]. exists m. split; [done|]. intros k Hk.
    replace k with (Z.of_nat (Z.to_nat k)) by lia. apply Hnone. lia.
Qed.

Lemma worker_loop_spec target fuel h pos stop :
  0 ≤ pos ≤ stop → stop ≤ 2 ^ 32 → stop - pos ≤ Z.of_nat fuel → hdr_Nonce h = u32 pos →
  (∃ n, pos ≤ n < stop ∧ worker_loop (pow_Engine hasher r) target fuel h pos stop = Ok (Some (set_nonce h n)) ∧
     pow_meets hasher target (set_nonce h n)) ∨
  (worker_loop (pow_Engine hasher r) target fuel h pos stop = Ok None ∧
     ∀ n, pos ≤ n < stop → ¬ pow_meets hasher target (set_nonce h n)).
Proof.
  revert h pos. induction fuel as [|fuel IH]; intros h pos Hpos Hstop Hfuel Hnonce; cbn [worker_loop].
  { right. split; [done|lia]. }
  destruct (Z.leb_spec stop pos) as [Hend|Hmore]; [right; split; [done|lia]|].
  set (batch := Z.min batchSize (stop - pos)). assert (Hb : 1 ≤ batch ≤ stop - pos) by (unfold batch, batchSize; lia).
  rewrite u32_id in Hnonce by (unfold is_u32; lia). cbn [e_SealHeader pow_Engine].
  destruct (SealHeader_batch target h batch) as [(k & Hk & -> & Hmeet)|(m & -> & Hnone)];
    [rewrite Hnonce; unfold is_u32; lia|lia| |]; rewrite Hnonce in *.
  - left. exists (pos + k). split_and!; [lia|lia|done|done].
  - set (h1 := set_nonce (set_nonce h m) _). assert (Hset : ∀ n, set_nonce h1 n = set_nonce h n) by done.
    destruct (IH h1 (pos + batch)) as [(n & Hn & -> & Hmeet)|[-> Hrest]]; [lia|lia|lia| | |].
    + cbn. change 0xFFFFFFFF with (Z.ones 32). rewrite Z.land_ones by lia. unfold u32. by rewrite Z.mod_mod.
    + left. exists n. rewrite Hset in *. split_and!; [lia|lia|done|done].
    + right. split; [done|]. intros n Hn. destruct (decide (n < pos + batch)).
      * replace n with (pos + (n - pos)) by lia. apply Hnone. lia.
      * rewrite <-(Hset n). apply Hrest. lia.
Qed.

(** The ranges of the workers cover the nonces. *)
Lemma worker_range numWorkers w : 1 ≤ numWorkers → 0 ≤ w < numWorkers →
  0 ≤ worker_start numWorkers w ≤ worker_stop numWorkers w ∧ worker_stop numWorkers w ≤ 2 ^ 32 ∧
  worker_start numWorkers w = w * (2 ^ 32 / numWorkers) ∧
  worker_stop numWorkers w = if w =? numWorkers - 1 then 2 ^ 32 else (w + 1) * (2 ^ 32 / numWorkers).
Proof.
  intros Hn Hw. set (q := 2 ^ 32 / numWorkers).
  assert (Hq : 0 ≤ q) by (apply Z.div_pos; lia).
  assert (Hm : numWorkers * q ≤ 2 ^ 32) by (apply Z.mul_div_le; lia).
  assert (Hr : w * q + q ≤ 2 ^ 32) by (transitivity ((w + 1) * q); [lia|]; transitivity (numWorkers * q); [|done];
    apply Z.mul_le_mono_nonneg_r; lia).
  assert (H0 : 0 ≤ w * q) by (apply Z.mul_nonneg_nonneg; lia).
  unfold worker_start, worker_stop. fold q. rewrite u64_id by (unfold is_u64; lia).
  destruct (Z.eqb_spec w (numWorkers - 1)); [lia|]. unfold worker_start. fold q.
  rewrite !(u64_id (w * q)), u64_id by (unfold is_u64; lia). lia.
Qed.

Lemma worker_covers numWorkers n : 1 ≤ numWorkers → is_u32 n →
  ∃ w, 0 ≤ w < numWorkers ∧ worker_start numWorkers w ≤ n < worker_stop numWorkers w.
Proof.
  intros Hn [Hn0 Hn1]. set (q := 2 ^ 32 / numWorkers). assert (Hq : 0 ≤ q) by (apply Z.div_pos; lia).
  destruct (decide ((numWorkers - 1) * q ≤ n)) as [Hlast|Hlast].
  - exists (numWorkers - 1). destruct (worker_range numWorkers (numWorkers - 1) Hn) as (_ & _ & -> & ->); [lia|].
    fold q. rewrite Z.eqb_refl. lia.
  - assert (0 < q) by (destruct (decide (q = 0)) as [Hz|]; [rewrite Hz, Z.mul_0_r in Hlast; lia|lia]).
    assert (Hw : n / q < numWorkers - 1) by (apply Z.div_lt_upper_bound; lia).
    assert (0 ≤ n / q) by (apply Z.div_pos; lia).
    exists (n / q). destruct (worker_range numWorkers (n / q) Hn) as (_ & _ & -> & ->); [lia|]. fold q.
    rewrite (proj2 (Z.eqb_neq _ _)) by lia. pose proof (Z.mul_div_le n q ltac:(lia)).
    pose proof (Z.mul_succ_div_gt n q ltac:(lia)). lia.
Qed.

Lemma worker_spec target header numWorkers w : 1 ≤ numWorkers → 0 ≤ w < numWorkers →
  (∃ n, is_u32 n ∧ worker (pow_Engine hasher r) target header numWorkers w = Ok (Some (set_nonce header n)) ∧
     pow_meets hasher target (set_nonce header n)) ∨
  (worker (pow_Engine hasher r) target header numWorkers w = Ok None ∧
     ∀ n, worker_start numWorkers w ≤ n < worker_stop numWorkers w → ¬ pow_meets hasher target (set_nonce header n)).
Proof.
  intros Hn Hw. destruct (worker_range numWorkers w Hn Hw) as (Hr & Hs & _). unfold worker.
  set (h := set_nonce header _). assert (Hset : ∀ n, set_nonce h n = set_nonce header n) by done.
  destruct (worker_loop_spec target (Z.to_nat (worker_stop numWorkers w - worker_start numWorkers w)) h
    (worker_start numWorkers w) (worker_stop numWorkers w)) as [(n & Hrange & -> & Hmeet)|[-> Hnone]]; [done|done|lia|done|left|right].
  - exists n. rewrite Hset in *. split_and!; [unfold is_u32; lia..|done|done].
  - split; [done|]. intros n Hrange. rewrite <-Hset. by apply Hnone.
Qed.
End pow_search.

(** ** A block of independent transactions passes input validation *)

Section block.
Context `{L : CryptoLib}.
Context (p : ChainParams) (s : UtxoSet) (tipHeight now medianTime : Z).
Context (Htip : 0 ≤ tipHeight < 2 ^ 32 - 1).
Notation height := (tipHeight + 1).

Definition tx_keys (tx : Transaction) : list (list byte) := input_key <$> tx_Inputs tx.

(** The transaction spends outputs of [s] and can be in the next block. *)
Record spends_confirmed (tx : Transaction) (fee : Z) : Prop := {
  sc_valid : ValidateSingleTransaction tx s tipHeight p None now = Ok fee;
  sc_locks : check_locks p tx height medianTime s = Ok ();
  sc_wf : wf_tx tx
}.

Lemma validate_inputs_single ins k vs ist ist' :
  (∀ key, key ∈ vs_spentInBlock vs → key ∈ is_seenInputs ist ∨ key ∉ input_key <$> ins) →
  (∀ i, i ∈ ins → vs_createdInBlock vs !! input_key i = None) →
  foldiM_from k (validate_single_input s None height p) ist ins = Ok ist' →
  foldiM_from k (validate_input s height p) (vs, ist) ins =
    Ok (mkValidateState (vs_spentInBlock vs ∪ list_to_set (input_key <$> ins)) (vs_createdInBlock vs) (vs_totalFees vs), ist').
Proof.
  revert k vs ist. induction ins as [|i ins IH]; intros k vs ist Hspent Hcreated; cbn [foldiM_from].
  { intros [= <-]. cbn. rewrite union_empty_r_L. by destruct vs. }
  intros (ist1 & Hone & Hrest)%bind_Ok. unfold validate_single_input in Hone. fold (input_key i) in Hone.
  case_bool_decide as Hseen; [done|]. cbn [fail_if mbind res_bind] in Hone.
  assert (Hnew : input_key i ∉ vs_spentInBlock vs).
  { intros Hin. destruct (Hspent _ Hin) as [|Hn]; [done|]. apply Hn. left. }
  unfold validate_input at 2. fold (input_key i). rewrite !bool_decide_false by done. cbn [fail_if mbind res_bind].
  rewrite Hcreated by left. destruct (s !! input_key i) as [e|]; [|done].
  destruct (check_maturity height p e) as [[]| |]; [|done..]. cbn [mbind res_bind] in Hone |- *.
  destruct (add_input_value (is_totalIn ist) e) as [t| |]; [|done..]. cbn [mbind res_bind] in Hone |- *.
  injection Hone as <-. rewrite delete_id by (apply Hcreated; left).
  etrans; [apply IH; [..|exact Hrest]|].
  - intros key Hin. cbn in Hin |- *. destruct (decide (key = input_key i)); [set_solver|].
    destruct (Hspent key) as [|Hn]; [set_solver|set_solver|right]. set_solver.
  - intros j Hj. apply Hcreated. by right.
  - cbn. do 3 f_equal. set_solver.
Qed.

Lemma validate_spend_single tx fee vs i : spends_confirmed tx fee →
  (∀ key, key ∈ vs_spentInBlock vs → key ∉ tx_keys tx) → (∀ key, key ∈ tx_keys tx → vs_createdInBlock vs !! key = None) →
  0 ≤ vs_totalFees vs → vs_totalFees vs + fee < 2 ^ 64 →
  validate_tx s height p medianTime None vs i tx =
    Ok (mkValidateState (vs_spentInBlock vs ∪ list_to_set (tx_keys tx))
          (register_outputs (HashTransaction tx) height false (vs_createdInBlock vs) (tx_Outputs tx)) (vs_totalFees vs + fee)).
Proof.
  intros [Hv Hl Hwf] Hspent Hcreated H0 Hmax. unfold ValidateSingleTransaction in Hv. res_inv.
  rewrite (u32_id height) in * by (unfold is_u32; lia).
  unfold validate_tx. destruct (Transaction_IsCoinbase tx); [done|]. unfold validate_spend, tx_hash_at.
  repeat match goal with H : _ = false |- _ => rewrite H; clear H end. cbn [fail_if mbind res_bind].
  match goal with H : foldiM (validate_single_input _ _ _ _) _ _ = Ok ?ist |- _ => rename H into Hins, ist into ist' end.
  unfold foldiM in *. erewrite validate_inputs_single; [|intros key Hk; right; by apply Hspent|..|exact Hins].
  2:{ intros j Hj. apply Hcreated. by apply list_elem_of_fmap_2. }
  cbn [mbind res_bind vs_totalFees vs_spentInBlock vs_createdInBlock].
  match goal with H : check_outputs _ _ = Ok ?t |- _ => rewrite H; set (f := u64 (is_totalIn ist' - t)) in * end.
  cbn [mbind res_bind]. match goal with H : check_scripts _ _ = Ok _ |- _ => rewrite H end. cbn [mbind res_bind]. rewrite Hl.
  cbn [mbind res_bind]. assert (0 ≤ f) by apply u64_range. rewrite u64_id by (unfold is_u64; lia).
  rewrite (proj2 (Z.ltb_ge _ _)) by lia. done.
Qed.

Lemma single_inputs_resolved ins k ist ist' :
  foldiM_from k (validate_single_input s None height p) ist ins = Ok ist' → ∀ i, i ∈ ins → is_Some (s !! input_key i).
Proof.
  revert k ist. induction ins as [|i ins IH]; intros k ist; cbn [foldiM_from]; [set_solver|].
  intros (ist1 & Hone & Hrest)%bind_Ok j [->|Hj]%elem_of_cons; [|by eapply IH].
  unfold validate_single_input in Hone. fold (input_key i) in Hone. apply bind_Ok in Hone as (? & _ & Hone).
  destruct (s !! input_key i); [done|by cbn in Hone].
Qed.

Lemma confirmed_keys tx fee key : spends_confirmed tx fee → key ∈ tx_keys tx → is_Some (s !! key).
Proof.
  intros [Hv _ _] (i & -> & Hi)%list_elem_of_fmap. unfold ValidateSingleTransaction in Hv. res_inv.
  rewrite (u32_id height) in * by (unfold is_u32; lia). unfold foldiM in *. by eapply single_inputs_resolved.
Qed.

Lemma confirmed_fee tx fee : spends_confirmed tx fee → 0 ≤ fee.
Proof. intros [Hv _ _]. unfold ValidateSingleTransaction in Hv. res_inv. apply u64_range. Qed.

Lemma confirmed_fees l : Forall (λ tf, spends_confirmed tf.1 tf.2) l → 0 ≤ sumZ snd l.
Proof. intros Hl. apply sumZ_nonneg. eapply Forall_impl; [exact Hl|]. intros [tx fee]. apply confirmed_fee. Qed.

Lemma register_lookup txHash cb created outs key :
  is_Some (register_outputs txHash height cb created outs !! key) →
  is_Some (created !! key) ∨ ∃ idx, key = OutpointKey txHash (u32 idx).
Proof.
  unfold register_outputs. generalize 0 as i. revert created. induction outs as [|o outs IH]; intros created i; cbn [range_outputs]; [by left|].
  intros [Hs|?]%IH; [|by right]. apply lookup_insert_is_Some' in Hs as [<-|]; [right; by eexists|by left].
Qed.

(** The outputs of [tx] are new in [s]. *)
Definition new_outputs (tx : Transaction) : Prop := ∀ idx, s !! OutpointKey (HashTransaction tx) (u32 idx) = None.

Lemma validate_txs_independent l i vs : Forall (λ tf, spends_confirmed tf.1 tf.2) l →
  NoDup (mjoin (tx_keys <$> l.*1)) → (∀ key, key ∈ vs_spentInBlock vs → key ∉ mjoin (tx_keys <$> l.*1)) →
  (∀ key, is_Some (vs_createdInBlock vs !! key) → s !! key = None) → Forall new_outputs l.*1 →
  0 ≤ vs_totalFees vs → vs_totalFees vs + sumZ snd l < 2 ^ 64 →
  ∃ vs', foldiM_from i (validate_tx s height p medianTime None) vs l.*1 = Ok vs' ∧
    vs_totalFees vs' = vs_totalFees vs + sumZ snd l.
Proof.
  intros Hall. revert i vs. induction Hall as [|[tx fee] l Htx Hall IH]; intros i vs Hnd Hspent Hcreated Hnew H0 Hmax.
  { exists vs. split; [done|cbn; lia]. }
  cbn [fmap list_fmap fst] in *. change (sumZ snd ((tx, fee) :: l)) with (fee + sumZ snd l) in *.
  change (mjoin (tx_keys tx :: ?r)) with (tx_keys tx ++ mjoin r) in *. apply NoDup_app in Hnd as (Hnd1 & Hdisj & Hnd).
  apply Forall_cons in Hnew as [Hnew1 Hnew].
  pose proof (confirmed_fees l Hall). cbn in Htx. pose proof (confirmed_fee _ _ Htx).
  cbn [foldiM_from]. rewrite (validate_spend_single tx fee) by (done || lia || (intros key Hk; first
    [specialize (Hspent key Hk); set_solver | apply eq_None_not_Some; intros Hc%Hcreated;
     destruct (confirmed_keys tx fee key Htx Hk); congruence])).
  cbn [mbind res_bind].
  destruct (IH (i + 1) (mkValidateState (vs_spentInBlock vs ∪ list_to_set (tx_keys tx))
      (register_outputs (HashTransaction tx) height false (vs_createdInBlock vs) (tx_Outputs tx)) (vs_totalFees vs + fee)))
    as (vs' & Heq & Hfees); cbn [vs_spentInBlock vs_createdInBlock vs_totalFees]; [done| | |done|lia|lia|].
  - intros key [Hk|Hk]%elem_of_union; [specialize (Hspent key Hk); set_solver|].
    apply elem_of_list_to_set in Hk. by apply Hdisj.
  - intros key [Hk|[idx ->]]%register_lookup; [by apply Hcreated|apply Hnew1].
  - exists vs'. split; [exact Heq|cbn in Hfees; lia].
Qed.

Lemma block_inputs_valid header cb l : Transaction_IsCoinbase cb = true → (∃ v script, tx_Outputs cb = [mkTxOutput v script] ∧
    v = CalcSubsidy p height + sumZ snd l ∧ 0 < v < 2 ^ 64 ∧ 0 ≤ CalcSubsidy p height) →
  Forall (λ tf, spends_confirmed tf.1 tf.2) l → NoDup (mjoin (tx_keys <$> l.*1)) → Forall new_outputs (cb :: l.*1) →
  ValidateTransactionInputs (mkBlock header (cb :: l.*1)) s height p medianTime None = Ok (sumZ snd l).
Proof.
  intros Hcb (v & script & Hout & Hv & Hrange & Hsub) Hall Hnd Hnew. apply Forall_cons in Hnew as [Hnewc Hnew].
  pose proof (confirmed_fees l Hall).
  set (st1 := mkValidateState ∅ (register_outputs (HashTransaction cb) height true ∅ [mkTxOutput v script]) 0).
  assert (Hone : validate_tx s height p medianTime None (mkValidateState ∅ ∅ 0) 0 cb = Ok st1).
  { unfold validate_tx. rewrite Hcb. unfold validate_coinbase. rewrite Hout. cbn [foldM out_Value].
    rewrite (proj2 (Z.eqb_neq _ _)) by lia. done. }
  destruct (validate_txs_independent l (0 + 1) st1) as (vs' & Heq & Hfees);
    cbn [vs_spentInBlock vs_createdInBlock vs_totalFees st1]; [done|done|set_solver| |done|lia|lia|].
  { intros key [Hk|[idx ->]]%register_lookup; [by rewrite lookup_empty in Hk; destruct Hk|apply Hnewc]. }
  assert (Hfold : foldiM (validate_tx s height p medianTime None) (mkValidateState ∅ ∅ 0) (cb :: l.*1) = Ok vs').
  { unfold foldiM. cbn [foldiM_from]. rewrite Hone. exact Heq. }
  unfold ValidateTransactionInputs. cbn [blk_Transactions]. rewrite Hfold. cbn [mbind res_bind].
  change (vs_totalFees st1) with 0 in Hfees. rewrite Z.add_0_l in Hfees. rewrite Hfees, (u64_id (CalcSubsidy p height + sumZ snd l)), (proj2 (Z.ltb_ge _ _)) by (unfold is_u64; lia).
  cbn [fail_if mbind res_bind]. rewrite Hout. cbn [foldM]. unfold add_coinbase_value. cbn [out_Value].
  rewrite Z.add_0_l, (u64_id v) by (unfold is_u64; lia).
  rewrite (proj2 (Z.ltb_ge _ _)) by lia. cbn [fail_if mbind res_bind]. rewrite (proj2 (Z.ltb_ge _ _)) by lia. done.
Qed.
End block.

(** ** The selection *)

Lemma select_txs_spec maxTxCount maxSize n blockSize es :
  0 < maxTxCount → n ≤ maxTxCount → 0 < maxSize → blockSize ≤ maxSize →
  let l := select_txs maxTxCount maxSize n blockSize es in
  l `prefix_of` es ∧ n + len l ≤ maxTxCount ∧ blockSize + sumZ snd l ≤ maxSize.
Proof.
  cbv zeta. intros Ht Hn Hs Hb. revert n blockSize Hn Hb.
  induction es as [|[[[tx h] fee] sz] es IH]; intros n blockSize Hn Hb; cbn [select_txs].
  { split_and!; [done|cbn; lia..]. }
  rewrite (proj2 (Z.ltb_lt 0 maxTxCount)), (proj2 (Z.ltb_lt 0 maxSize)) by lia. cbn [andb].
  destruct (Z.leb_spec maxTxCount n); [split_and!; [apply prefix_nil|cbn; lia..]|].
  destruct (Z.ltb_spec maxSize (blockSize + sz)); [split_and!; [apply prefix_nil|cbn; lia..]|].
  destruct (IH (n + 1) (blockSize + sz)) as (Hp & Hc & Hz); [lia..|].
  split_and!; [by apply prefix_cons|cbn [length]; lia|].
  change (sumZ snd ((tx, h, fee, sz) :: ?r)) with (sz + sumZ snd r). lia.
Qed.

Lemma included_fees_sum l : Forall (λ e, 0 ≤ e.1.2) l → sumZ (λ e : Transaction * Hash * Z * Z, e.1.2) l < 2 ^ 64 →
  included_fees l = sumZ (λ e, e.1.2) l.
Proof.
  intros Hl Hs. unfold included_fees. rewrite <-(Z.add_0_l (sumZ _ l)). assert (H0 : 0 ≤ 0) by done.
  rewrite <-(Z.add_0_l (sumZ _ l)) in Hs. revert Hs H0. generalize 0 at 1 3 4 5 as t.
  induction Hl as [|e l He Hl IH]; intros t Hs H0; cbn [foldl]; [cbn; lia|].
  change (sumZ ?f (e :: l)) with (f e + sumZ f l) in *. cbn beta in *. pose proof (sumZ_nonneg _ _ Hl).
  rewrite u64_id by (unfold is_u64; lia). rewrite IH by lia. lia.
Qed.

Lemma take_le_encode k n z : (k ≤ n)%nat → take k (le_encode n z) = le_encode k z.
Proof.
  revert n z. induction k as [|k IH]; intros n z Hk; [done|].
  destruct n as [|n]; [lia|]. cbn [le_encode take]. by rewrite IH by lia.
Qed.

(** The coinbase of the next block fits the estimate, whatever the extra nonce. *)
Lemma minimalHeightPushLen_eq h : minimalHeightPushLen h = minimalPushLen h.
Proof. done. Qed.

Lemma coinbase_message_script height extraNonce : is_u32 height →
  validateCoinbaseScriptSig (coinbase_message height extraNonce) height = Ok () ∧
  len (coinbase_message height extraNonce) ≤ 18.
Proof.
  intros Hh. pose proof (minimalPushLen_range height) as Hr. pose proof (minimalPushLen_fits height Hh) as Hf.
  set (extra := (if 0 <? extraNonce then le_encode 4 extraNonce else []) ++ CoinbaseTag).
  assert (Hx : len extra ≤ 13).
  { unfold extra. rewrite length_app. change (length CoinbaseTag) with 9%nat.
    destruct (0 <? extraNonce); rewrite ?le_encode_length; cbn [length]; lia. }
  assert (Hm : coinbase_message height extraNonce =
    Z_to_byte (minimalPushLen height) :: le_encode (Z.to_nat (minimalPushLen height)) height ++ extra).
  { unfold coinbase_message. rewrite minimalHeightPushLen_eq. cbn [app]. f_equal. f_equal.
    apply take_le_encode. lia. }
  assert (Hlen : len (coinbase_message height extraNonce) ≤ 18).
  { rewrite Hm. cbn [length]. rewrite length_app, le_encode_length. lia. }
  split; [|done]. apply coinbase_script_Ok; [done|]. split; [lia|]. by eexists.
Qed.

Lemma len_PutVarInt_small v : v < 0xFD → len (PutVarInt v) = 1.
Proof. intros Hv. unfold PutVarInt. by rewrite (proj2 (Z.ltb_lt _ _)). Qed.

Lemma len_PutVarInt_u16 v : v ≤ 0xFFFF → len (PutVarInt v) ≤ 3.
Proof.
  intros Hv. unfold PutVarInt. destruct (_ <? _); [cbn; lia|]. rewrite (proj2 (Z.leb_le _ _)) by done.
  cbn [length]. rewrite le_encode_length. lia.
Qed.

Lemma coinbase_ok rewardScript height value extraNonce :
  is_u32 height → is_u64 value → len rewardScript ≤ 69 →
  let cb := buildCoinbaseWithExtra rewardScript height value extraNonce in
  wf_tx cb ∧ Transaction_IsCoinbase cb = true ∧ len (Transaction_Serialize cb) ≤ 147.
Proof.
  intros Hh Hv Hr. destruct (coinbase_message_script height extraNonce Hh) as [_ Hm].
  unfold buildCoinbaseWithExtra. cbv zeta. revert Hm. generalize (coinbase_message height extraNonce). intros msg Hm.
  split_and!.
  - unfold wf_tx. cbn. split_and!; [done|done| |done| |done].
    + apply Forall_singleton. unfold wf_input, wf_outpoint, wf_script, MaxScriptSize, is_u32. cbn. split_and!; [done|lia..].
    + apply Forall_singleton. unfold wf_output, wf_script, MaxScriptSize. cbn. split; [done|lia].
  - done.
  - unfold Transaction_Serialize. cbn [tx_Inputs tx_Outputs fmap list_fmap mjoin list_join].
    unfold TxInput_Serialize, TxOutput_Serialize, WriteVarInt.
    cbn [in_PreviousOutPoint in_SignatureScript in_Sequence out_Value out_PkScript].
    rewrite !length_app, !le_encode_length. change (length (op_Hash _)) with 32%nat.
    rewrite !Nat2Z.inj_add, !len_PutVarInt_small by (cbn; lia). cbn [length]. lia.
Qed.

(** ** The block *)

(** Transactions of the pool spend different outputs. *)
Lemma pool_inputs_NoDup `{CryptoLib} p m es :
  index_ok p m → NoDup (te_Hash <$> es) → Forall (λ e, pool m !! te_Hash e = Some (with_idx 0 e)) es →
  NoDup (mjoin (entry_inputs <$> es)).
Proof.
  intros Hin. induction es as [|e es IH]; cbn [fmap list_fmap]; intros Hnd He; [constructor|].
  apply NoDup_cons in Hnd as [Hh Hnd]. apply Forall_cons in He as [He Hes].
  change (mjoin (entry_inputs e :: ?r)) with (entry_inputs e ++ mjoin r). apply NoDup_app. split_and!.
  - apply (eo_distinct _ _ _ (in_entry _ _ Hin _ _ He)).
  - intros k Hk (ks & Hks & (e' & -> & He')%list_elem_of_fmap)%list_elem_of_join. apply Hh.
    rewrite Forall_forall in Hes.
    assert (H1 : mp_spentOutpoints m !! k = Some (te_Hash e)) by (apply (in_spent _ _ Hin); eauto).
    assert (H2 : mp_spentOutpoints m !! k = Some (te_Hash e')) by (apply (in_spent _ _ Hin); eauto).
    apply list_elem_of_fmap. exists e'. split; [congruence|done].
  - by apply IH.
Qed.

(** A mined block is a candidate with the nonce a worker found. *)
Lemma mined_candidate {St} `{BlockStore St} p engine rewardScript workers (c : Chain St) tmpl extraNonce b :
  MineOne p engine rewardScript workers c tmpl extraNonce (Ok (Some b)) →
  ∃ now extraNonce' header, build_candidate p engine rewardScript c tmpl now extraNonce' = Ok (header, blk_Transactions b) ∧
    searched engine (CompactToHash (hdr_Bits header)) header workers false (Some (blk_Header b)).
Proof.
  remember (Ok (Some b)) as res eqn:Hres. induction 1; simplify_eq; [|by apply IHMineOne]. by eauto.
Qed.

Lemma prefix_fmap_inv {A B} (f : A → B) l k : k `prefix_of` f <$> l → ∃ l', k = f <$> l' ∧ l' `prefix_of` l.
Proof. intros [k' (l1 & l2 & -> & -> & ->)%fmap_app_inv]. exists l1. split; [done|]. by apply prefix_app_r. Qed.

(** The entries of the pool in a block. *)
Lemma included_entries `{CryptoLib} p m it :
  index_ok p m → it ≡ₚ map_to_list (mp_txs m) → 2 ≤ p_MaxBlockTxCount p → headerSize + coinbaseEstimate ≤ p_MaxBlockSize p →
  ∃ l, included p (BlockTemplate m it) = (λ e, (te_Tx e, te_Hash e, te_Fee e, te_Size e)) <$> l ∧
    len l ≤ p_MaxBlockTxCount p - 1 ∧ headerSize + coinbaseEstimate + sumZ te_Size l ≤ p_MaxBlockSize p ∧
    0 ≤ sumZ te_Fee l ≤ bt_TotalFees (BlockTemplate m it) ∧ included_fees (included p (BlockTemplate m it)) = sumZ te_Fee l ∧
    NoDup (te_Hash <$> l) ∧ Forall (λ e, pool m !! te_Hash e = Some (with_idx 0 e)) l.
Proof.
  intros Hin Hit Hcount Hsize. destruct (BlockTemplate_spec p m it Hin Hit) as (taken & _ & Hent & Htot & Hlt & Htaken & _).
  unfold included. rewrite Hent, (proj2 (Z.leb_gt _ _)) by lia. unfold headerSize, coinbaseEstimate in *.
  destruct (select_txs_spec (p_MaxBlockTxCount p - 1) (p_MaxBlockSize p) 0 (80 + 150)
    ((λ e, (te_Tx e, te_Hash e, te_Fee e, te_Size e)) <$> taken)) as (Hpre & Hn & Hs); [lia..|].
  apply prefix_fmap_inv in Hpre as (l & Hl & [rest Hpre]). rewrite Hl in *. rewrite length_fmap, sumZ_fmap in *. cbn in Hs.
  assert (Hall : ∀ e, e ∈ taken → e ∈ entries m it).
  { intros e He. destruct Htaken as [more Hm]. assert (Hge : e ∈ GetAllEntries m it) by (rewrite Hm; apply elem_of_app; by left).
    revert Hge. unfold GetAllEntries. by rewrite merge_sort_Permutation. }
  assert (Hfee : Forall (λ e, 0 ≤ te_Fee e) taken).
  { apply Forall_forall. intros e He%Hall. apply (entries_lookup p) in He; [|done..].
    apply (eo_fee _ _ _ (in_entry _ _ Hin _ _ He)). }
  subst taken. apply Forall_app in Hfee as [Hf1 Hf2]. rewrite sumZ_app in Htot.
  pose proof (sumZ_nonneg _ _ Hf1). pose proof (sumZ_nonneg _ _ Hf2).
  exists l. split_and!; [done|lia|done|lia|lia|..].
  - rewrite included_fees_sum, sumZ_fmap; [done| |rewrite sumZ_fmap; change (sumZ te_Fee l < 2 ^ 64); lia]. by apply Forall_fmap.
  - pose proof (entries_NoDup p m it Hin Hit) as Hnd. destruct Htaken as [more Hm].
    assert (Hp : entries m it ≡ₚ l ++ rest ++ more).
    { rewrite app_assoc, <-Hm. unfold GetAllEntries. by rewrite merge_sort_Permutation. }
    rewrite Hp, fmap_app in Hnd. by apply NoDup_app in Hnd as [? _].
  - apply Forall_forall. intros e He. apply (entries_lookup p m it); [done..|]. apply Hall, elem_of_app. by left.
Qed.

Section mined.
Context {St : Type} `{BlockStore St} `{CryptoLib}.
Context (hasher : Hasher) (r : Retargeter) (Hhasher : hasher_ok hasher).
Context (p : ChainParams) (rewardScript : list byte) (workers : Z) (Hworkers : 1 ≤ workers).
Context (c : Chain St) (parent : BlockHeader).
Context (Hparent : TipHeader c = Ok parent) (Htip : HashBlockHeader parent = c_tipHash c).
Context (Hheight : 0 ≤ c_tipHeight c < 2 ^ 32 - 1).
Notation engine := (pow_Engine hasher r).

(** The header of a mined block passes, and it commits to the transactions. *)
Lemma mined_header tmpl now extraNonce header txs h :
  build_candidate p engine rewardScript c tmpl now extraNonce = Ok (header, txs) →
  searched engine (CompactToHash (hdr_Bits header)) header workers false (Some h) →
  pow_ValidateHeader hasher r h parent (c_tipHeight c + 1) (GetAncestor c) p = Ok () ∧
  hdr_MerkleRoot h = ComputeMerkleRoot txs ∧ hdr_Version h = 1 ∧
  (is_u32 (hdr_Timestamp parent) → hdr_Timestamp parent < 2 ^ 32 - 1 → hdr_Timestamp parent < hdr_Timestamp h) ∧
  txs = buildCoinbaseWithExtra rewardScript (c_tipHeight c + 1)
          (u64 (CalcSubsidy p (c_tipHeight c + 1) + included_fees (included p tmpl))) extraNonce ::
        ((λ e, e.1.1.1) <$> included p tmpl).
Proof.
  unfold build_candidate. cbn [Tip]. rewrite Hparent. cbn [wrap mbind res_bind].
  rewrite !(u32_id (c_tipHeight c + 1)) by (unfold is_u32; lia).
  intros (header' & Hprep & [= -> <-])%bind_Ok. apply wrap_Ok in Hprep. cbn [e_PrepareHeader pow_Engine] in Hprep.
  unfold pow_PrepareHeader in Hprep. rewrite (u32_id (c_tipHeight c + 1)) in Hprep by (unfold is_u32; lia).
  apply bind_Ok in Hprep as (bits & Hbits & [= <-]). set (hd := set_bits _ bits) in *.
  inversion 1 as [w h' Hw Hworker _| |]; subst.
  destruct (worker_spec hasher r Hhasher (CompactToHash (hdr_Bits hd)) hd workers w Hworkers Hw)
    as [(n & Hn & Heq & Hmeet)|[Heq _]]; rewrite Heq in Hworker; [|done]. injection Hworker as <-.
  split_and!; [|done|done| |done].
  - apply ValidateHeader_Ok. split_and!; [cbn; by rewrite Htip| |done].
    etrans; [|exact Hbits]. by apply calcExpectedBits_timestamp.
  - intros Hp Hlt. cbn. destruct (Z.leb_spec (u32 now) (hdr_Timestamp parent)); [|lia].
    rewrite u32_id by (unfold is_u32 in *; lia). lia.
Qed.

Context (m : Mempool) (it : list (Hash * nat)) (now medianTime : Z).
Context (Hindex : index_ok p m) (Hit : it ≡ₚ map_to_list (mp_txs m)).
Context (Hcount : 2 ≤ p_MaxBlockTxCount p ≤ MaxBlockTxCount).
Context (Hsize : headerSize + coinbaseEstimate ≤ p_MaxBlockSize p < 2 ^ 32).
Context (Hreward : len rewardScript ≤ 69).
Notation height := (c_tipHeight c + 1).
Context (Hpool : map_Forall (λ _ e, spends_confirmed p (c_utxoSet c) (c_tipHeight c) now medianTime
                                      (te_Tx e) (te_Fee e)) (pool m)).
Context (Hsub : 0 < CalcSubsidy p height)
        (Hmoney : CalcSubsidy p height + bt_TotalFees (BlockTemplate m it) < 2 ^ 64).

(** The length of a block of included entries under a coinbase that fits. *)
Lemma block_length h cb l :
  wf_hash (hdr_PrevBlock h) → wf_hash (hdr_MerkleRoot h) → len (Transaction_Serialize cb) ≤ 147 → len l < MaxBlockTxCount →
  Forall (λ e, wf_tx (te_Tx e) ∧ te_Size e = tx_size (te_Tx e)) l →
  len (Block_SerializeToBytes (mkBlock h (cb :: (te_Tx <$> l)))) ≤ headerSize + coinbaseEstimate + sumZ te_Size l.
Proof.
  unfold wf_hash, HashSize, MaxBlockTxCount, headerSize, coinbaseEstimate. intros Hp Hm Hcb Hl Hall.
  unfold Block_SerializeToBytes, Block_Serialize. cbn [blk_Header blk_Transactions].
  change (mjoin (Transaction_Serialize <$> cb :: ?r)) with (Transaction_Serialize cb ++ mjoin (Transaction_Serialize <$> r)).
  rewrite !length_app, !Nat2Z.inj_add. unfold WriteVarInt.
  pose proof (len_PutVarInt_u16 (len (cb :: (te_Tx <$> l))) ltac:(cbn [length]; rewrite length_fmap; lia)).
  assert (Hh : len (BlockHeader_SerializeToBytes h) = 80).
  { unfold BlockHeader_SerializeToBytes, BlockHeader_serializeInto. rewrite !length_app, !le_encode_length. lia. }
  assert (Hj : len (mjoin (Transaction_Serialize <$> (te_Tx <$> l))) ≤ sumZ te_Size l); [|lia].
  clear - Hall. induction Hall as [|e l [Hwf He] Hall IH]; [done|]. cbn [fmap list_fmap].
  change (mjoin (?a :: ?r)) with (a ++ mjoin r). change (sumZ te_Size (e :: l)) with (te_Size e + sumZ te_Size l).
  rewrite length_app, Nat2Z.inj_add, <-Transaction_SerializeSize_correct.
  - rewrite He. unfold tx_size. destruct (Z.eqb_spec (Transaction_SerializeSize (te_Tx e)) 0); lia.
  - destruct Hwf as (_ & _ & Hin & _). eapply Forall_impl; [exact Hin|]. by intros i [[? _] _].
Qed.

Lemma mined_body now' extraNonce header txs h :
  build_candidate p engine rewardScript c (BlockTemplate m it) now' extraNonce = Ok (header, txs) →
  searched engine (CompactToHash (hdr_Bits header)) header workers false (Some h) →
  collision_free (Transaction_Serialize <$> txs) → Forall (new_outputs (c_utxoSet c)) txs →
  ValidateBlockStructure (mkBlock h txs) height p None None = Ok () ∧
  ValidateTransactionInputs (mkBlock h txs) (c_utxoSet c) height p medianTime None =
    Ok (included_fees (included p (BlockTemplate m it))).
Proof.
  intros Hbuild Hsearch Hcf Hnew. pose proof (mined_header _ _ _ _ _ _ Hbuild Hsearch) as (Hv & Hmr & Hver & _ & Htxs).
  destruct (included_entries p m it Hindex Hit ltac:(lia) ltac:(lia)) as (l & Hl & Hlen & Hlsize & Hfees & Hsum & Hnd & Hin).
  rewrite Hsum in *. rewrite Hl, <-list_fmap_compose in Htxs.
  change ((λ e : Transaction * Hash * Z * Z, e.1.1.1) ∘ _) with te_Tx in Htxs.
  rewrite u64_id in Htxs by (unfold is_u64; lia). set (value := CalcSubsidy p height + sumZ te_Fee l) in *.
  destruct (coinbase_ok rewardScript height value extraNonce) as (Hwfcb & Hcb & Hcblen);
    [unfold is_u32; lia|unfold is_u64, value; lia|done|]. cbv zeta in Hwfcb, Hcb, Hcblen.
  destruct (coinbase_message_script height extraNonce ltac:(unfold is_u32; lia)) as [Hscript _].
  set (cb := buildCoinbaseWithExtra rewardScript height value extraNonce) in *. subst txs.
  assert (Hsp : Forall (λ e, spends_confirmed p (c_utxoSet c) (c_tipHeight c) now medianTime (te_Tx e) (te_Fee e) ∧
      entry_ok p (te_Hash e) (with_idx 0 e)) l).
  { eapply Forall_impl; [exact Hin|]. intros e He. split; [apply (Hpool _ _ He)|apply (in_entry _ _ Hindex _ _ He)]. }
  assert (Hwf : Forall wf_tx (cb :: (te_Tx <$> l))).
  { apply Forall_cons. split; [done|]. apply Forall_fmap. eapply Forall_impl; [exact Hsp|]. by intros e [[]]. }
  assert (Hcoin : Forall (λ tx, Transaction_IsCoinbase tx = false) (te_Tx <$> l)).
  { apply Forall_fmap. eapply Forall_impl; [exact Hsp|]. intros e [_ He]. apply (eo_coinbase _ _ _ He). }
  split.
  - apply block_structure_Ok; [done|]. exists cb, (te_Tx <$> l). split; cbn [blk_Header blk_Transactions]; [lia|done|done| |done|..].
    + intros _. eexists. split; [done|exact Hscript].
    + cbn [length]. rewrite length_fmap. unfold MaxBlockTxCount in *. rewrite u32_id by (unfold is_u32; lia). lia.
    + cbn [fmap list_fmap]. apply NoDup_cons. split.
      * intros (tx & Heq & Htx)%list_elem_of_fmap. unfold HashTransaction in Heq.
        apply (collision_free_inj _ _ _ Hcf) in Heq; [|apply list_elem_of_fmap_2; by left|apply list_elem_of_fmap_2; by right].
        rewrite Forall_forall in Hcoin, Hwf. apply Transaction_Serialize_inj in Heq; [|apply Hwf; by left|apply Hwf; by right].
        specialize (Hcoin _ Htx). congruence.
      * assert (Hhs : HashTransaction <$> (te_Tx <$> l) = te_Hash <$> l); [|by rewrite Hhs].
        rewrite <-list_fmap_compose. apply list_fmap_ext. intros i e Hi%list_elem_of_lookup_2.
        rewrite Forall_forall in Hsp. destruct (Hsp _ Hi) as [_ Heo]. by rewrite (eo_tx _ _ _ Heo).
    + by rewrite Hmr.
    + assert (Hblen : len (Block_SerializeToBytes (mkBlock h (cb :: (te_Tx <$> l)))) ≤ p_MaxBlockSize p).
      { etrans; [|exact Hlsize]. apply block_length; [|rewrite Hmr; apply MerkleRoot_wf|done|lia|].
        - apply ValidateHeader_Ok in Hv as (-> & _). apply DoubleSHA256_wf.
        - apply Forall_fmap, Forall_forall. intros tx _. apply DoubleSHA256_wf.
        - eapply Forall_impl; [exact Hsp|]. intros e [[_ _ ?] Heo]. split; [done|apply (eo_size _ _ _ Heo)]. }
      rewrite u32_id by (unfold is_u32; lia). lia.
    + unfold out_total. cbn. unfold value in *. lia.
  - pose proof (block_inputs_valid p (c_utxoSet c) (c_tipHeight c) now medianTime Hheight h cb
      ((λ e, (te_Tx e, te_Fee e)) <$> l)) as Hb.
    assert (Hfst : ((λ e, (te_Tx e, te_Fee e)) <$> l).*1 = te_Tx <$> l) by (by rewrite <-list_fmap_compose).
    rewrite Hfst, sumZ_fmap in Hb. apply Hb; [done| | | |done].
    + exists value, rewardScript. split_and!; [done|done|unfold value; lia..].
    + apply Forall_fmap. eapply Forall_impl; [exact Hsp|]. by intros e [? _].
    + rewrite <-list_fmap_compose. exact (pool_inputs_NoDup p m l Hindex Hnd Hin).
Qed.
End mined.

(** The nonce search: with the proof-of-work engine and at least one worker no
    worker fails, and the ranges of the workers are the whole nonce space: some
    worker returns a header if and only if some 32-bit nonce meets the target, and
    a header that is returned is the searched one with such a nonce. *)
Theorem nonce_search_complete hasher r target header numWorkers :
  hasher_ok hasher → 1 ≤ numWorkers →
  let meets n := is_u32 n ∧ pow_meets hasher target (set_nonce header n) in
  (∀ w, 0 ≤ w < numWorkers → ∃ o, worker (pow_Engine hasher r) target header numWorkers w = Ok o) ∧
  ((∃ n, meets n) ↔
     ∃ h, searched (pow_Engine hasher r) target header numWorkers false (Some h)) ∧
  (∀ h, searched (pow_Engine hasher r) target header numWorkers false (Some h) → ∃ n, meets n ∧ h = set_nonce header n) ∧
  (searched (pow_Engine hasher r) target header numWorkers false None ↔ ¬ ∃ n, meets n).
Proof.
  intros Hh Hn meets.
  assert (Hfound : ∀ h, searched (pow_Engine hasher r) target header numWorkers false (Some h) → ∃ n, meets n ∧ h = set_nonce header n).
  { inversion 1 as [w h' Hw Heq _| |]; subst.
    destruct (worker_spec hasher r Hh target header numWorkers w Hn Hw) as [(n & Hu & Heq' & Hm)|[Heq' _]];
      rewrite Heq' in Heq; [|done]. injection Heq as <-. by exists n. }
  assert (Hsome : ∀ n, meets n → ∃ h w, 0 ≤ w < numWorkers ∧ worker (pow_Engine hasher r) target header numWorkers w = Ok (Some h)).
  { intros n [Hu Hm]. destruct (worker_covers numWorkers n Hn Hu) as (w & Hw & Hr).
    destruct (worker_spec hasher r Hh target header numWorkers w Hn Hw) as [(k & _ & Heq & _)|[_ Hnone]]; [by eauto|].
    by destruct (Hnone n Hr). }
  split_and!; [| |done|].
  - intros w Hw. destruct (worker_spec hasher r Hh target header numWorkers w Hn Hw) as [(n & _ & -> & _)|[-> _]]; by eexists.
  - split; [|intros [h Hs]; destruct (Hfound h Hs) as (n & ? & _); by exists n].
    intros [n Hm]. destruct (Hsome n Hm) as (h & w & Hw & Heq). exists h. by eapply searched_found.
  - split.
    + inversion 1 as [|Hall|]; [|done]. intros [n Hm]. destruct (Hsome n Hm) as (h & w & Hw & Heq).
      rewrite Hall in Heq by done. done.
    + intros Hno. apply searched_none. intros w Hw.
      destruct (worker_spec hasher r Hh target header numWorkers w Hn Hw) as [(n & Hu & _ & Hm)|[-> _]]; [|done].
      destruct Hno. by exists n.
Qed.

(** C11: A mined block is valid: on a chain with a tip, a block that the miner makes
    of a reachable pool passes the header check of the proof-of-work engine, the
    structural check and the check of the inputs against the set of the chain, and
    its timestamp is after its parent's; its fees are those of the included
    transactions.  This needs every transaction of the pool to be still valid
    against the set of the tip and its time locks to hold at the median time,
    limits that leave room for the coinbase, a reward script of at most 69 bytes,
    a subsidy, and transaction identifiers that are new and do not collide. *)
Theorem mined_block_valid {St} `{BlockStore St} `{CryptoLib} hasher r p rewardScript workers (c : Chain St) parent
    wall m it now medianTime b :
  hasher_ok hasher → 1 ≤ workers →
  TipHeader c = Ok parent → HashBlockHeader parent = c_tipHash c → 0 ≤ c_tipHeight c < 2 ^ 32 - 1 →
  is_u32 (p_MaxMempoolSize p) → reachable p wall m → it ≡ₚ map_to_list (mp_txs m) →
  2 ≤ p_MaxBlockTxCount p ≤ MaxBlockTxCount → headerSize + coinbaseEstimate ≤ p_MaxBlockSize p < 2 ^ 32 →
  len rewardScript ≤ 69 →
  map_Forall (λ _ e, spends_confirmed p (c_utxoSet c) (c_tipHeight c) now medianTime (te_Tx e) (te_Fee e)) (pool m) →
  0 < CalcSubsidy p (c_tipHeight c + 1) →
  CalcSubsidy p (c_tipHeight c + 1) + bt_TotalFees (BlockTemplate m it) < 2 ^ 64 →
  collision_free (Transaction_Serialize <$> blk_Transactions b) →
  Forall (new_outputs (c_utxoSet c)) (blk_Transactions b) →
  MineOne p (pow_Engine hasher r) rewardScript workers c (BlockTemplate m it) 0 (Ok (Some b)) →
  pow_ValidateHeader hasher r (blk_Header b) parent (c_tipHeight c + 1) (GetAncestor c) p = Ok () ∧
  (is_u32 (hdr_Timestamp parent) → hdr_Timestamp parent < 2 ^ 32 - 1 → hdr_Timestamp parent < hdr_Timestamp (blk_Header b)) ∧
  ValidateBlockStructure b (c_tipHeight c + 1) p None None = Ok () ∧
  ValidateTransactionInputs b (c_utxoSet c) (c_tipHeight c + 1) p medianTime None =
    Ok (included_fees (included p (BlockTemplate m it))).
Proof.
  intros Hh Hw Hp Ht Hht Hmax Hr%reachable_ok Hit Hcount Hsize Hrew Hpool Hsub Hmoney Hcf Hnew Hmine; [|done].
  destruct b as [h txs]. apply mined_candidate in Hmine as (now' & x & header & Hb & Hs). cbn [blk_Header blk_Transactions] in *.
  destruct (mined_header hasher r Hh p rewardScript workers Hw c parent Hp Ht Hht _ _ _ _ _ _ Hb Hs) as (? & _ & _ & ? & _).
  split; [done|]. split; [done|]. by eapply (mined_body hasher r Hh p rewardScript workers Hw c parent Hp Ht Hht m it now); [apply Hr|..].
Qed.

(** ** Witnesses *)

#[local] Existing Instance mem_db.
#[local] Existing Instance toy_lib.

(** A child that pays more than the unconfirmed parent it spends from, and a
    transaction locked until ten minutes ago, while the median time is older. *)
Definition mn_child : Transaction :=
  mkTransaction 1 [mkTxInput (mkOutPoint (HashTransaction mw_tx1) 0) [] 0xFFFFFFFF] [mkTxOutput 1000 [x51]] 0.
Definition mn_family : Mempool :=
  (AddTx Regtest mw_wall mw_set 5 mn_child (AddTx Regtest mw_wall mw_set 5 mw_tx1 New).2).2.
Definition mn_locked : Transaction :=
  mkTransaction 1 [mkTxInput (mkOutPoint (replicate 32 x11) 0) [] 0] [mkTxOutput 7000 [x51]] 1774174500.
Definition mn_median : Z := 1774174000.
Definition mn_waiting : Mempool := (AddTx Regtest mw_wall mw_set 5 mn_locked New).2.

(** The transactions of the block the miner makes at height 6. *)
Definition mn_block (m : Mempool) : list Transaction :=
  let txs := included Regtest (BlockTemplate m (map_to_list (mp_txs m))) in
  buildCoinbase [x51] 6 (CalcSubsidy Regtest 6 + included_fees txs) :: ((λ e, e.1.1.1) <$> txs).

(** The conditions of [mined_block_valid] on the pool are needed.  A pool takes
    a transaction that spends an output of another one of the pool, but the
    template orders by fee rate only: the child comes first, and the block is
    rejected as its input is missing.  The pool also checks lock times against the
    clock, which is later than the median time of the block: a transaction locked
    to a time in between is taken, and the block with it is rejected. *)
Theorem pool_block_rejected header :
  let parent_pool := (AddTx Regtest mw_wall mw_set 5 mw_tx1 New).2 in
  (AddTx Regtest mw_wall mw_set 5 mw_tx1 New).1 = Ok (HashTransaction mw_tx1) ∧
  (AddTx Regtest mw_wall mw_set 5 mn_child parent_pool).1 = Ok (HashTransaction mn_child) ∧
  tail (mn_block mn_family) = [mn_child; mw_tx1] ∧
  ValidateTransactionInputs (mkBlock header (mn_block mn_family)) mw_set 6 Regtest mn_median None =
    Err (Errorf "tx input: references missing UTXO") ∧
  (AddTx Regtest mw_wall mw_set 5 mn_locked New).1 = Ok (HashTransaction mn_locked) ∧
  tail (mn_block mn_waiting) = [mn_locked] ∧
  ValidateTransactionInputs (mkBlock header (mn_block mn_waiting)) mw_set 6 Regtest mn_median None =
    Err (Wrapf "tx" (Errorf "transaction locktime %d not satisfied (median time %d)")).
Proof. cbv zeta. split_and!; vm_compute; reflexivity. Qed.

(** A chain at the genesis block with the set the transactions of [mw_pool] spend. *)
Definition mn_parent : BlockHeader := blk_Header (p_GenesisBlock Mainnet).
Definition mn_chain : Chain FileStore := set_utxoSet mw_set w_chain0.
Definition mn_engine : Engine := pow_Engine sha256d_Hasher bitcoin_Retargeter.
Definition mn_template : BlockTemplateResult := BlockTemplate mw_pool mw_it.
Definition mn_workers : Z := 2 ^ 28.
Definition mn_candidate : res (BlockHeader * list Transaction) :=
  build_candidate Regtest mn_engine [x51] mn_chain mn_template 1774180000 0.
Definition mn_header : BlockHeader :=
  match mn_candidate with Ok (h, _) => h | _ => mn_parent end.
Definition mn_found : BlockHeader :=
  match worker mn_engine (CompactToHash (hdr_Bits mn_header)) mn_header mn_workers 0 with
  | Ok (Some h) => h | _ => mn_parent
  end.
Definition mn_mined : Block :=
  mkBlock mn_found match mn_candidate with Ok (_, txs) => txs | _ => [] end.

Lemma mn_candidate_Ok : mn_candidate = Ok (mn_header, blk_Transactions mn_mined).
Proof. vm_compute. reflexivity. Qed.

Lemma mn_mines : MineOne Regtest mn_engine [x51] mn_workers mn_chain mn_template 0 (Ok (Some mn_mined)).
Proof.
  refine (mine_found Regtest mn_engine [x51] mn_workers mn_chain mn_template 0 1774180000 mn_header _ mn_found
    mn_candidate_Ok _).
  refine (searched_found mn_engine _ mn_header mn_workers false 0 mn_found _ _ eq_refl).
  - unfold mn_workers. lia.
  - vm_compute. reflexivity.
Qed.

Instance spends_confirmed_dec `{CryptoLib} p s tipHeight now medianTime tx fee :
  Decision (spends_confirmed p s tipHeight now medianTime tx fee).
Proof.
  refine (cast_if (decide (ValidateSingleTransaction tx s tipHeight p None now = Ok fee ∧
    check_locks p tx (tipHeight + 1) medianTime s = Ok () ∧ wf_tx tx))); [by destruct_and!|by intros []; auto].
Defined.

(** A new output, by the hashes of the keys. *)
Lemma new_outputs_by_hash (s : UtxoSet) tx :
  Forall (λ kv, take 32 kv.1 ≠ HashTransaction tx) (map_to_list s) → new_outputs s tx.
Proof.
  intros Hall idx. destruct (s !! _) as [e|] eqn:He; [|done]. apply elem_of_map_to_list in He.
  rewrite Forall_forall in Hall. specialize (Hall _ He). destruct Hall. cbn [fst]. unfold OutpointKey.
  apply take_app_length'. symmetry. apply DoubleSHA256_wf.
Qed.

Lemma nonce_search_complete_witness :
  (∃ h, searched mn_engine (CompactToHash (hdr_Bits mn_header)) mn_header 4 false (Some h)) ∧
  ¬ searched mn_engine (CompactToHash (hdr_Bits mn_header)) mn_header 4 false None.
Proof.
  destruct (nonce_search_complete sha256d_Hasher bitcoin_Retargeter (CompactToHash (hdr_Bits mn_header)) mn_header 4
    sha256d_ok ltac:(lia)) as (_ & H1 & _ & H2).
  assert (Hm : ∃ n, is_u32 n ∧ pow_meets sha256d_Hasher (CompactToHash (hdr_Bits mn_header)) (set_nonce mn_header n)).
  { exists 1. split; [by_decide|]. exists (DoubleSHA256 (BlockHeader_serializeInto (set_nonce mn_header 1))).
    split; vm_compute; reflexivity. }
  split; [apply H1, Hm|]. intros Hn. apply H2 in Hn. exact (Hn Hm).
Defined.

Lemma mined_block_valid_witness :
  ValidateBlockStructure mn_mined 1 Regtest None None = Ok () ∧
  ValidateTransactionInputs mn_mined mw_set 1 Regtest 1774175035 None = Ok 5000.
Proof.
  destruct (mined_block_valid sha256d_Hasher bitcoin_Retargeter Regtest [x51] mn_workers mn_chain mn_parent
    mw_wall mw_pool mw_it 1774175100 1774175035 mn_mined) as (_ & _ & H1 & H2).
  - exact sha256d_ok.
  - unfold mn_workers. lia.
  - vm_compute. reflexivity.
  - vm_compute. reflexivity.
  - vm_compute. done.
  - by_decide.
  - exact mw_reachable.
  - reflexivity.
  - by_decide.
  - by_decide.
  - by_decide.
  - by_decide.
  - by_decide.
  - vm_compute. reflexivity.
  - by_decide.
  - eapply Forall_impl; [|intros tx; apply new_outputs_by_hash]. by_decide.
  - exact mn_mines.
  - split; [exact H1|]. etrans; [exact H2|]. vm_compute. reflexivity.
Defined.
