(* ===== verification/Net.v ===== *)
(** * Peer addresses (the address functions of internal/p2p/manager.go)

    The parts of Go's packages net, net/netip and fmt that the manager calls on
    addresses ([net.SplitHostPort], [net.ParseIP] and the predicates of [net.IP],
    [fmt.Sscanf] with a decimal verb), and the manager's own functions over them:
    the check of addresses from gossip and from the operator, the address a ban is
    keyed by, and the subnet of the outbound limit.  A Go string is its list of
    bytes. *)
From S2P Require Import Prelude.

Definition str (s : string) : list byte := String.list_byte_of_string s.

(** ** Package net *)

Fixpoint IndexByte (c : byte) (s : list byte) : option nat :=
  match s with
  | [] => None
  | b :: s' => if bool_decide (b = c) then Some 0%nat else S <$> IndexByte c s'
  end.

Fixpoint LastIndexByte (c : byte) (s : list byte) : option nat :=
  match s with
  | [] => None
  | b :: s' =>
      match LastIndexByte c s' with
      | Some i => Some (S i)
      | None => if bool_decide (b = c) then Some 0%nat else None
      end
  end.

Definition contains_byte (c : byte) (s : list byte) : bool := bool_decide (is_Some (IndexByte c s)).

Definition missingPort : error := Errorf "missing port in address".
Definition tooManyColons : error := Errorf "too many colons in address".

(** The checks after the host was found, with [j] and [k] the positions before
    which no bracket can be. *)
Definition split_finish (hostport host : list byte) (i j k : nat) : res (list byte * list byte) :=
  _ ← fail_if (contains_byte x5b (drop j hostport)) (Errorf "unexpected '[' in address");
  _ ← fail_if (contains_byte x5d (drop k hostport)) (Errorf "unexpected ']' in address");
  Ok (host, drop (S i) hostport).

Definition SplitHostPort (hostport : list byte) : res (list byte * list byte) :=
  match LastIndexByte x3a hostport with
  | None => Err missingPort
  | Some i =>
      if bool_decide (hostport !! 0%nat = Some x5b) then
        match IndexByte x5d hostport with
        | None => Err (Errorf "missing ']' in address")
        | Some e =>
            if bool_decide (S e = length hostport) then Err missingPort
            else if bool_decide (S e = i) then
              split_finish hostport (drop 1 (take e hostport)) i 1 (S e)
            else if bool_decide (hostport !! S e = Some x3a) then Err tooManyColons
            else Err missingPort
        end
      else
        let host := take i hostport in
        if contains_byte x3a host then Err tooManyColons
        else split_finish hostport host i 0 0
  end.

(** An address of 16 bytes; IPv4 addresses are mapped to [::ffff:a.b.c.d]. *)
Definition IP : Type := list byte.
Definition v4InV6Prefix : list byte := replicate 10 x00 ++ [xff; xff].

Definition digit (c : byte) : option Z :=
  let n := byte_to_Z c in if (48 <=? n) && (n <=? 57) then Some (n - 48) else None.

(** [parseIPv4Fields]: [first] and [dot] say that the position is the first one
    or follows a dot. *)
Fixpoint v4_loop (s : list byte) (first dot : bool) (val digLen : Z) (fields : list Z) : option (list Z) :=
  match s with
  | [] => if bool_decide (length fields < 3)%nat then None else Some (fields ++ [val])
  | c :: s' =>
      match digit c with
      | Some d =>
          if (digLen =? 1) && (val =? 0) then None
          else
            let val := val * 10 + d in
            if 255 <? val then None else v4_loop s' false false val (digLen + 1) fields
      | None =>
          if bool_decide (c = x2e) then
            if first || bool_decide (s' = []) || dot then None
            else if bool_decide (length fields = 3)%nat then None
            else v4_loop s' false true 0 0 (fields ++ [val])
          else None
      end
  end.

Definition parseIPv4Fields (s : list byte) : option (list byte) :=
  match v4_loop s true false 0 0 [] with Some l => Some (Z_to_byte <$> l) | None => None end.

Definition hex_digit (c : byte) : option Z :=
  let n := byte_to_Z c in
  if (48 <=? n) && (n <=? 57) then Some (n - 48)
  else if (97 <=? n) && (n <=? 102) then Some (n - 97 + 10)
  else if (65 <=? n) && (n <=? 70) then Some (n - 65 + 10)
  else None.

(** The digits of one group: how many, their value and the rest. *)
Fixpoint hex_loop (s : list byte) (off acc : Z) : option (Z * Z * list byte) :=
  match s with
  | [] => Some (off, acc, [])
  | c :: s' =>
      match hex_digit c with
      | Some d =>
          let acc := acc * 16 + d in
          if 3 <? off then None
          else if 65535 <? acc then None
          else hex_loop s' (off + 1) acc
      | None => Some (off, acc, s)
      end
  end.

(** The loop over the groups, at [ip] so far; every turn adds two bytes, so that
    eight turns suffice. *)
Fixpoint v6_loop (fuel : nat) (s : list byte) (ip : list byte) (ellipsis : option nat)
    : option (list byte * option nat * list byte) :=
  match fuel with
  | O => Some (ip, ellipsis, s)
  | S fuel' =>
      '(off, acc, rest) ← hex_loop s 0 0;
      if off =? 0 then None
      else if bool_decide (rest !! 0%nat = Some x2e) then
        if bool_decide (ellipsis = None) && negb (bool_decide (length ip = 12%nat)) then None
        else if bool_decide (16 < length ip + 4)%nat then None
        else fields ← parseIPv4Fields s; Some (ip ++ fields, ellipsis, [])
      else
        let ip := ip ++ [Z_to_byte (acc / 256); Z_to_byte acc] in
        match rest with
        | [] => Some (ip, ellipsis, [])
        | c :: rest' =>
            if negb (bool_decide (c = x3a)) then None
            else
              match rest' with
              | [] => None
              | c' :: rest'' =>
                  if bool_decide (c' = x3a) then
                    match ellipsis with
                    | Some _ => None
                    | None =>
                        if bool_decide (rest'' = []) then Some (ip, Some (length ip), [])
                        else v6_loop fuel' rest'' ip (Some (length ip))
                    end
                  else v6_loop fuel' rest' ip ellipsis
              end
        end
  end.

Definition v6_finish (ip : list byte) (ellipsis : option nat) (s : list byte) : option IP :=
  if negb (bool_decide (s = [])) then None
  else if bool_decide (length ip < 16)%nat then
    e ← ellipsis; Some (take e ip ++ replicate (16 - length ip) x00 ++ drop e ip)
  else if bool_decide (is_Some ellipsis) then None
  else Some ip.

(** A zone makes [net.ParseIP] fail, as does an empty one. *)
Definition parseIPv6 (s : list byte) : option IP :=
  if contains_byte x25 s then None
  else
    let leading := bool_decide (take 2 s = [x3a; x3a]) in
    if leading && bool_decide (length s = 2%nat) then Some (replicate 16 x00)
    else
      '(ip, ellipsis, rest) ←
        v6_loop 8 (if leading then drop 2 s else s) [] (if leading then Some 0%nat else None);
      v6_finish ip ellipsis rest.

Fixpoint parse_addr (scan s : list byte) : option IP :=
  match scan with
  | [] => None
  | c :: scan' =>
      if bool_decide (c = x2e) then app v4InV6Prefix <$> parseIPv4Fields s
      else if bool_decide (c = x3a) then parseIPv6 s
      else if bool_decide (c = x25) then None
      else parse_addr scan' s
  end.
Definition ParseIP (s : list byte) : option IP := parse_addr s s.

Definition octet (ip : list byte) (i : nat) : Z := byte_to_Z (nth i ip x00).

Definition To4 (ip : IP) : option (list byte) :=
  if bool_decide (take 12 ip = v4InV6Prefix) then Some (drop 12 ip) else None.

Definition IPv6loopback : IP := replicate 15 x00 ++ [x01].
Definition IPv6unspecified : IP := replicate 16 x00.
Definition IPv4zero : IP := v4InV6Prefix ++ [x00; x00; x00; x00].

Definition IsLoopback (ip : IP) : bool :=
  match To4 ip with
  | Some ip4 => octet ip4 0 =? 127
  | None => bool_decide (ip = IPv6loopback)
  end.
Definition IsUnspecified (ip : IP) : bool :=
  bool_decide (ip = IPv4zero) || bool_decide (ip = IPv6unspecified).
Definition IsPrivate (ip : IP) : bool :=
  match To4 ip with
  | Some ip4 =>
      (octet ip4 0 =? 10) || ((octet ip4 0 =? 172) && (Z.land (octet ip4 1) 0xf0 =? 16)) ||
      ((octet ip4 0 =? 192) && (octet ip4 1 =? 168))
  | None => Z.land (octet ip 0) 0xfe =? 0xfc
  end.
Definition IsLinkLocalUnicast (ip : IP) : bool :=
  match To4 ip with
  | Some ip4 => (octet ip4 0 =? 169) && (octet ip4 1 =? 254)
  | None => (octet ip 0 =? 0xfe) && (Z.land (octet ip 1) 0xc0 =? 0x80)
  end.
Definition IsLinkLocalMulticast (ip : IP) : bool :=
  match To4 ip with
  | Some ip4 => (octet ip4 0 =? 224) && (octet ip4 1 =? 0) && (octet ip4 2 =? 0)
  | None => (octet ip 0 =? 0xff) && (Z.land (octet ip 1) 0x0f =? 0x02)
  end.

(** ** Package fmt *)

(** The length of the space character (in UTF-8) at the head, a line feed apart. *)
Definition space_len (s : list byte) : nat :=
  match s with
  | x09 :: _ | x0b :: _ | x0c :: _ | x0d :: _ | x20 :: _ => 1
  | xc2 :: x85 :: _ | xc2 :: xa0 :: _ => 2
  | xe1 :: x9a :: x80 :: _ | xe3 :: x80 :: x80 :: _ | xe2 :: x81 :: x9f :: _ => 3
  | xe2 :: x80 :: c :: _ =>
      let n := byte_to_Z c in
      if ((128 <=? n) && (n <=? 138)) || (n =? 168) || (n =? 169) || (n =? 175) then 3%nat else 0%nat
  | _ => 0
  end.

(** [SkipSpace] when a newline is not a space; every turn takes a byte. *)
Fixpoint SkipSpace (fuel : nat) (s : list byte) : option (list byte) :=
  match fuel with
  | O => Some s
  | S fuel' =>
      match s with
      | x0a :: _ => None
      | _ => match space_len s with O => Some s | n => SkipSpace fuel' (drop n s) end
      end
  end.

Fixpoint scan_digits (s : list byte) (acc : Z) : Z :=
  match s with
  | [] => acc
  | c :: s' => match digit c with Some d => scan_digits s' (acc * 10 + d) | None => acc end
  end.

(** [fmt.Sscanf(s, "%d", &n)] for an [int]: spaces, a sign, digits; what follows
    them is not looked at. *)
Definition Sscanf_d (s : list byte) : option Z :=
  s ← SkipSpace (length s) s;
  let '(neg, s) := match s with x2b :: s' => (false, s') | x2d :: s' => (true, s') | _ => (false, s) end in
  match s with
  | c :: _ =>
      if bool_decide (is_Some (digit c)) then
        let n := scan_digits s 0 in
        let n := if neg then - n else n in
        if (n <? - 2 ^ 63) || (2 ^ 63 <=? n) then None else Some n
      else None
  | [] => None
  end.

(** [%d] of a byte and [%02x]. *)
Definition fmt_d (b : byte) : list byte :=
  let n := byte_to_Z b in
  let ch d := Z_to_byte (48 + d) in
  if n <? 10 then [ch n]
  else if n <? 100 then [ch (n / 10); ch (n mod 10)]
  else [ch (n / 100); ch (n / 10 mod 10); ch (n mod 10)].
Definition fmt_02x (b : byte) : list byte :=
  let hex d := if d <? 10 then Z_to_byte (48 + d) else Z_to_byte (87 + d) in
  [hex (byte_to_Z b / 16); hex (byte_to_Z b mod 16)].

(** ** The manager's functions *)

(** The host, the port and its range, as both checks begin. *)
Definition check_host_port (portErr : string) (addr : list byte) : res (list byte) :=
  '(host, portStr) ← wrap "must be host:port" (SplitHostPort addr);
  _ ← fail_if (bool_decide (host = [])) (Errorf "empty host");
  _ ← match Sscanf_d portStr with
      | None => Err (Errorf portErr)
      | Some port => fail_if ((port <? 1) || (65535 <? port)) (Errorf portErr)
      end;
  Ok host.

(** [net.LookupIP], the resolver of the host, is an argument. *)
Definition validatePeerAddress (LookupIP : list byte → res (list IP)) (addr : list byte) : res () :=
  host ← check_host_port "port must be a number between 1 and 65535" addr;
  ip ← match ParseIP host with
       | Some ip => Ok ip
       | None =>
           match LookupIP host with
           | Ok (ip :: _) => Ok ip
           | _ => Err (Errorf "cannot resolve hostname %q")
           end
       end;
  _ ← fail_if (IsLoopback ip || IsUnspecified ip) (Errorf "loopback and unspecified addresses not allowed");
  fail_if (IsPrivate ip || IsLinkLocalUnicast ip || IsLinkLocalMulticast ip)
    (Errorf "private/link-local addresses not allowed via addnode").

Definition validateGossipAddress (addr : list byte) (localLoopback : bool) : res () :=
  host ← check_host_port "invalid port" addr;
  match ParseIP host with
  | None => Err (Errorf "non-IP address")
  | Some ip =>
      if IsLoopback ip then if localLoopback then Ok () else Err (Errorf "non-routable address")
      else fail_if (IsUnspecified ip || IsPrivate ip || IsLinkLocalUnicast ip || IsLinkLocalMulticast ip)
             (Errorf "non-routable address")
  end.

Definition is_loopback_host (host : list byte) : bool :=
  match ParseIP host with Some ip => IsLoopback ip | None => false end.

Definition isLocalLoopback (listenAddr : list byte) : bool :=
  match SplitHostPort listenAddr with
  | Ok (host, _) => is_loopback_host host
  | _ => false
  end.

Definition extractIP (addr : list byte) : list byte :=
  match SplitHostPort addr with Ok (host, _) => host | _ => addr end.

Definition subnetKey (addr : list byte) : list byte :=
  match ParseIP (extractIP addr) with
  | None => []
  | Some ip =>
      match To4 ip with
      | Some v4 => fmt_d (nth 0 v4 x00) ++ [x2e] ++ fmt_d (nth 1 v4 x00)
      | None =>
          fmt_02x (nth 0 ip x00) ++ fmt_02x (nth 1 ip x00) ++ [x3a] ++
          fmt_02x (nth 2 ip x00) ++ fmt_02x (nth 3 ip x00)
      end
  end.

(** ** Dotted addresses *)

Definition dotted (a b c d : byte) : list byte :=
  fmt_d a ++ x2e :: fmt_d b ++ x2e :: fmt_d c ++ x2e :: fmt_d d.
Definition mapped (a b c d : byte) : IP := v4InV6Prefix ++ [a; b; c; d].

Lemma v4_loop_field b s first dot fields :
  v4_loop (fmt_d b ++ s) first dot 0 0 fields = v4_loop s false false (byte_to_Z b) (len (fmt_d b)) fields.
Proof. destruct b; reflexivity. Qed.

Lemma v4_loop_dot s val digLen fields : s ≠ [] → (length fields < 3)%nat →
  v4_loop (x2e :: s) false false val digLen fields = v4_loop s false true 0 0 (fields ++ [val]).
Proof.
  intros Hs Hf. cbn [v4_loop]. change (digit x2e) with (@None Z). cbn iota.
  rewrite bool_decide_true by done. rewrite (bool_decide_false (s = [])), bool_decide_false by (done || lia). done.
Qed.

Lemma fmt_d_app_ne b s : fmt_d b ++ s ≠ [].
Proof. by destruct b. Qed.

Lemma v4_fields a b c d : parseIPv4Fields (dotted a b c d) = Some [a; b; c; d].
Proof.
  unfold parseIPv4Fields, dotted.
  rewrite v4_loop_field, v4_loop_dot by (apply fmt_d_app_ne || (cbn; lia)).
  rewrite v4_loop_field, v4_loop_dot by (apply fmt_d_app_ne || (cbn; lia)).
  rewrite v4_loop_field, v4_loop_dot by (done || (by destruct d) || (cbn; lia)).
  rewrite <-(app_nil_r (fmt_d d)), v4_loop_field. cbn -[Z_to_byte byte_to_Z]. rewrite bool_decide_false by lia. cbn -[Z_to_byte byte_to_Z]. by rewrite !Z_to_byte_to_Z.
Qed.

Lemma ParseIP_dotted a b c d : ParseIP (dotted a b c d) = Some (mapped a b c d).
Proof.
  unfold ParseIP. set (s := dotted a b c d) at 2.
  assert (Hscan : parse_addr (dotted a b c d) s = app v4InV6Prefix <$> parseIPv4Fields s).
  { unfold dotted. generalize (fmt_d b ++ x2e :: fmt_d c ++ x2e :: fmt_d d). intros rest. by destruct a. }
  rewrite Hscan. unfold s. by rewrite v4_fields.
Qed.

Lemma To4_mapped a b c d : To4 (mapped a b c d) = Some [a; b; c; d].
Proof. unfold To4. by rewrite bool_decide_true. Qed.

(** The addresses of the public networks. *)
Definition routable (a b c d : byte) : Prop :=
  let a := byte_to_Z a in let b := byte_to_Z b in let c := byte_to_Z c in let d := byte_to_Z d in
  a ≠ 127 ∧ ¬ (a = 0 ∧ b = 0 ∧ c = 0 ∧ d = 0) ∧ a ≠ 10 ∧ ¬ (a = 172 ∧ 16 ≤ b ≤ 31) ∧ ¬ (a = 192 ∧ b = 168) ∧
  ¬ (a = 169 ∧ b = 254) ∧ ¬ (a = 224 ∧ b = 0 ∧ c = 0).

Lemma land_f0 b : Z.land (byte_to_Z b) 0xf0 =? 16 = (16 <=? byte_to_Z b) && (byte_to_Z b <=? 31).
Proof. by destruct b. Qed.

Lemma byte_zero b : byte_to_Z b = 0 → b = x00.
Proof. intros Hb. by rewrite <-(Z_to_byte_to_Z b), Hb. Qed.

Lemma routable_mapped a b c d :
  let ip := mapped a b c d in
  IsLoopback ip || (IsUnspecified ip || IsPrivate ip || IsLinkLocalUnicast ip || IsLinkLocalMulticast ip) = false ↔
  routable a b c d.
Proof.
  cbv zeta. unfold IsLoopback, IsUnspecified, IsPrivate, IsLinkLocalUnicast, IsLinkLocalMulticast, octet, routable.
  rewrite To4_mapped. cbn [nth]. rewrite land_f0, (bool_decide_false (mapped a b c d = IPv6unspecified)) by done.
  assert (Hz : mapped a b c d = IPv4zero ↔ byte_to_Z a = 0 ∧ byte_to_Z b = 0 ∧ byte_to_Z c = 0 ∧ byte_to_Z d = 0).
  { split; [by intros [= -> -> -> ->]|]. intros (->%byte_zero & ->%byte_zero & ->%byte_zero & ->%byte_zero). done. }
  rewrite (bool_decide_ext _ _ Hz). clear Hz.
  rewrite !orb_false_iff, !andb_false_iff, !Z.eqb_neq, !Z.leb_gt, bool_decide_eq_false.
  split; intros Hx; destruct_and!; split_and!; try done; try lia; tauto || lia.
Qed.

Lemma loopback_mapped a b c d : IsLoopback (mapped a b c d) = (byte_to_Z a =? 127).
Proof. unfold IsLoopback. by rewrite To4_mapped. Qed.

(** ** Hosts and ports *)

Lemma contains_byte_app c s t : contains_byte c (s ++ t) = contains_byte c s || contains_byte c t.
Proof.
  unfold contains_byte. induction s as [|b s IH]; cbn [app IndexByte].
  { reflexivity. }
  destruct (bool_decide (b = c)); [reflexivity|].
  rewrite !(bool_decide_ext (is_Some (S <$> _)) _ (fmap_is_Some _ _)). exact IH.
Qed.

Lemma contains_byte_cons c b s : contains_byte c (b :: s) = bool_decide (b = c) || contains_byte c s.
Proof.
  change (b :: s) with ([b] ++ s). rewrite contains_byte_app. f_equal. unfold contains_byte. cbn [IndexByte].
  destruct (bool_decide_reflect (b = c)); [by rewrite bool_decide_true|]. apply bool_decide_false. by intros [].
Qed.

Lemma LastIndexByte_none c s : contains_byte c s = false → LastIndexByte c s = None.
Proof.
  induction s as [|b s IH]; [done|]. rewrite contains_byte_cons, orb_false_iff. intros [Hb Hs].
  cbn [LastIndexByte]. by rewrite IH, Hb.
Qed.

Lemma LastIndexByte_last c s t : contains_byte c t = false → LastIndexByte c (s ++ c :: t) = Some (length s).
Proof.
  intros Ht. induction s as [|b s IH]; cbn [app LastIndexByte length].
  - by rewrite LastIndexByte_none, bool_decide_true.
  - by rewrite IH.
Qed.

(** No colon and no bracket. *)
Definition plain (s : list byte) : Prop := Forall (λ c, contains_byte c s = false) [x3a; x5b; x5d].
#[export] Instance plain_dec s : Decision (plain s).
Proof. unfold plain. apply _. Defined.

Lemma plain_app s t : plain s → plain t → plain (s ++ t).
Proof.
  intros Hs Ht. apply Forall_forall. intros c Hc. rewrite contains_byte_app.
  unfold plain in *. rewrite Forall_forall in Hs, Ht. by rewrite Hs, Ht.
Qed.

Lemma SplitHostPort_plain host port : plain host → plain port → SplitHostPort (host ++ x3a :: port) = Ok (host, port).
Proof.
  intros Hh Hp. unfold plain in *. rewrite !Forall_cons in Hh, Hp.
  destruct Hh as (Hh1 & Hh2 & Hh3 & _), Hp as (Hp1 & Hp2 & Hp3 & _).
  unfold SplitHostPort. rewrite LastIndexByte_last, bool_decide_false, take_app_length, Hh1 by
    (done || (destruct host as [|b host]; [done|]; cbn; rewrite contains_byte_cons in Hh2; intros [= ->]; done)).
  unfold split_finish. rewrite !drop_0, !contains_byte_app, !contains_byte_cons, Hh2, Hh3, Hp2, Hp3.
  cbn. do 2 f_equal. by rewrite drop_app_ge, Nat.sub_succ_l, Nat.sub_diag by lia.
Qed.

Lemma dotted_plain a b c d : plain (dotted a b c d).
Proof.
  assert (Hf : ∀ x, plain (fmt_d x)) by (intros x; by destruct x; apply (bool_decide_unpack _); vm_compute).
  unfold dotted. repeat (apply plain_app; [apply Hf|]; match goal with |- plain (?x :: ?r) => change (x :: r) with ([x] ++ r) end;
    apply plain_app; [by apply (bool_decide_unpack _)|]). apply Hf.
Qed.

(** ** Ports *)

Definition digits (s : list byte) : Prop := Forall (λ c, is_Some (digit c)) s.
Definition ends_number (s : list byte) : Prop := ∀ c, head s = Some c → digit c = None.

Lemma digits_plain s : digits s → plain s.
Proof.
  intros Hs. induction Hs as [|c s [n Hc] Hs IH]; [by apply (bool_decide_unpack _)|].
  change (c :: s) with ([c] ++ s). apply plain_app; [|done].
  destruct c; first [by apply (bool_decide_unpack _) | discriminate Hc].
Qed.

Lemma scan_digits_app s t acc : digits s → ends_number t → scan_digits (s ++ t) acc = scan_digits s acc.
Proof.
  intros Hs Ht. revert acc. induction Hs as [|c s [n Hc] Hs IH]; intros acc; cbn [app scan_digits].
  - destruct t as [|c t]; [done|]. cbn. by rewrite (Ht c).
  - by rewrite Hc, IH.
Qed.

Lemma scan_digits_mono s acc : digits s → 0 ≤ acc → acc ≤ scan_digits s acc.
Proof.
  intros Hs. revert acc. induction Hs as [|c s [n Hc] Hs IH]; intros acc Hacc; cbn [scan_digits]; [lia|].
  rewrite Hc. assert (0 ≤ n) by (unfold digit in Hc; destruct (_ && _) eqn:E; [|done]; injection Hc; lia).
  etrans; [|apply IH]; lia.
Qed.

(** A decimal number is read, whatever follows it. *)
Lemma Sscanf_digits s t : digits s → s ≠ [] → ends_number t →
  Sscanf_d (s ++ t) = if scan_digits s 0 <? 2 ^ 63 then Some (scan_digits s 0) else None.
Proof.
  intros Hs Hne Ht. destruct s as [|c s]; [done|]. assert (Hd := Hs). apply Forall_cons in Hd as [[n Hc] _].
  assert (Hskip : SkipSpace (length ((c :: s) ++ t)) ((c :: s) ++ t) = Some ((c :: s) ++ t)).
  { cbn [app length]. generalize (length (s ++ t)), (s ++ t). intros k r. destruct c; first [discriminate Hc | reflexivity]. }
  unfold Sscanf_d. rewrite Hskip. cbn [mbind option_bind].
  assert (Hsign : match (c :: s) ++ t with x2b :: s' => (false, s') | x2d :: s' => (true, s') | _ => (false, (c :: s) ++ t) end
                  = (false, (c :: s) ++ t)).
  { cbn [app]. destruct c; first [discriminate Hc | reflexivity]. }
  rewrite Hsign. cbn [app]. rewrite bool_decide_true by (by exists n). change (c :: s ++ t) with ((c :: s) ++ t).
  rewrite scan_digits_app by done. pose proof (scan_digits_mono (c :: s) 0 Hs ltac:(lia)).
  rewrite (proj2 (Z.ltb_ge _ (- 2 ^ 63))) by lia. cbn [orb].
  destruct (Z.leb_spec (2 ^ 63) (scan_digits (c :: s) 0)), (Z.ltb_spec (scan_digits (c :: s) 0) (2 ^ 63)); (done || lia).
Qed.

Lemma check_port_dotted msg a b c d s t : digits s → s ≠ [] → ends_number t → plain t →
  check_host_port msg (dotted a b c d ++ x3a :: s ++ t) =
    if (1 <=? scan_digits s 0) && (scan_digits s 0 <=? 65535) then Ok (dotted a b c d) else Err (Errorf msg).
Proof.
  intros Hs Hne He Ht. unfold check_host_port.
  rewrite SplitHostPort_plain by auto using dotted_plain, plain_app, digits_plain.
  cbn [wrap mbind res_bind]. rewrite bool_decide_false by (by destruct a). cbn [fail_if].
  rewrite Sscanf_digits by done. cbn [mbind res_bind].
  destruct (Z.ltb_spec (scan_digits s 0) (2 ^ 63)); cycle 1.
  { rewrite (proj2 (Z.leb_gt (scan_digits s 0) 65535)), andb_false_r by lia. done. }
  destruct (Z.leb_spec 1 (scan_digits s 0)), (Z.leb_spec (scan_digits s 0) 65535),
    (Z.ltb_spec (scan_digits s 0) 1), (Z.ltb_spec 65535 (scan_digits s 0)); (done || lia).
Qed.

(** ** Subnets *)

Lemma fmt_d_inj a b s t : fmt_d a ++ x2e :: s = fmt_d b ++ x2e :: t → a = b ∧ s = t.
Proof.
  intros Heq.
  assert (Hv : byte_to_Z a = byte_to_Z b ∧ s = t).
  { assert (Hsc : ∀ x r, scan_digits (fmt_d x ++ x2e :: r) 0 = byte_to_Z x) by (intros x r; by destruct x).
    assert (Hab : byte_to_Z a = byte_to_Z b) by (by rewrite <-(Hsc a s), <-(Hsc b t), Heq).
    split; [done|]. assert (a = b) as -> by (by rewrite <-(Z_to_byte_to_Z a), Hab, Z_to_byte_to_Z).
    apply app_inv_head in Heq. by injection Heq. }
  destruct Hv as [Hab Hst]. split; [|done]. by rewrite <-(Z_to_byte_to_Z a), Hab, Z_to_byte_to_Z.
Qed.

Lemma extractIP_dotted a b c d port : plain port → extractIP (dotted a b c d ++ x3a :: port) = dotted a b c d.
Proof. intros Hp. unfold extractIP. by rewrite SplitHostPort_plain by auto using dotted_plain. Qed.

Lemma subnetKey_dotted a b c d port : plain port →
  subnetKey (dotted a b c d ++ x3a :: port) = fmt_d a ++ x2e :: fmt_d b.
Proof. intros Hp. unfold subnetKey. by rewrite extractIP_dotted, ParseIP_dotted, To4_mapped by done. Qed.

(** The check of gossiped addresses, for IPv4: an address in dotted decimal with
    a port is taken if and only if the port is between 1 and 65535 and the
    address is a public one, or a loopback one while the node itself listens on
    loopback.  Whatever follows the digits of the port is ignored: the address
    need not be one that can be dialled. *)
Theorem gossip_address_exact a b c d port junk localLoopback :
  digits port → port ≠ [] → ends_number junk → plain junk →
  validateGossipAddress (dotted a b c d ++ x3a :: port ++ junk) localLoopback = Ok () ↔
  1 ≤ scan_digits port 0 ≤ 65535 ∧ (routable a b c d ∨ (byte_to_Z a = 127 ∧ localLoopback = true)).
Proof.
  intros Hs Hne He Ht. unfold validateGossipAddress. rewrite check_port_dotted by done.
  destruct (Z.leb_spec 1 (scan_digits port 0)), (Z.leb_spec (scan_digits port 0) 65535); cbn [andb mbind res_bind];
    [|split; [done|lia]..].
  rewrite ParseIP_dotted. rewrite <-(routable_mapped a b c d), loopback_mapped.
  destruct (Z.eqb_spec (byte_to_Z a) 127) as [Ha|Ha]; cbn [orb].
  - destruct localLoopback; split; [intros _; split; [lia|by right]|done|done|by intros [_ [|[]]]].
  - rewrite fail_if_Ok. split; [intros ->; split; [lia|by left]|by intros [_ [|[]]]].
Qed.

(** Bans and the outbound limit per subnet: the address a ban is keyed by is the
    dotted address without its port, so that every port of a host is banned at
    once; and two IPv4 addresses count to the same subnet exactly when their
    first two bytes agree, whatever their ports are. *)
Theorem address_keys a b c d a' b' c' d' port port' :
  plain port → plain port' →
  let addr := dotted a b c d ++ x3a :: port in
  let addr' := dotted a' b' c' d' ++ x3a :: port' in
  (extractIP addr = extractIP addr' ↔ (a, b, c, d) = (a', b', c', d')) ∧
  subnetKey addr ≠ [] ∧
  (subnetKey addr = subnetKey addr' ↔ a = a' ∧ b = b').
Proof.
  intros Hp Hp'. cbv zeta. rewrite !extractIP_dotted, !subnetKey_dotted by done. split_and!.
  - split; [|by intros [= -> -> -> ->]]. intros Heq. apply (f_equal ParseIP) in Heq. rewrite !ParseIP_dotted in Heq.
    by injection Heq as -> -> -> ->.
  - apply fmt_d_app_ne.
  - split; [|by intros [-> ->]]. intros Heq. apply (f_equal (.++ [x2e])) in Heq. rewrite <-!app_assoc in Heq. cbn [app] in Heq.
    apply fmt_d_inj in Heq as [-> Heq]. by apply fmt_d_inj in Heq as [-> _].
Qed.

Lemma gossip_address_exact_witness :
  validateGossipAddress (str "8.8.8.8:19333x") false = Ok ().
Proof.
  refine (proj2 (gossip_address_exact x08 x08 x08 x08 (str "19333") (str "x") false _ _ _ _) _).
  - repeat constructor; eexists; reflexivity.
  - discriminate.
  - intros ch [= <-]. reflexivity.
  - by_decide.
  - split; [vm_compute; split; discriminate|]. left. vm_compute. split_and!; intuition discriminate.
Defined.

Lemma address_keys_witness :
  extractIP (str "1.2.3.4:80") = extractIP (str "1.2.3.4:8333") ∧ subnetKey (str "1.2.3.4:80") = subnetKey (str "1.2.9.9:1").
Proof.
  split.
  - apply (proj1 (address_keys x01 x02 x03 x04 x01 x02 x03 x04 (str "80") (str "8333") ltac:(by_decide) ltac:(by_decide))). reflexivity.
  - apply (proj2 (proj2 (address_keys x01 x02 x03 x04 x01 x02 x09 x09 (str "80") (str "1") ltac:(by_decide) ltac:(by_decide)))).
    split; reflexivity.
Defined.
