(* ===== verification/Peer.v ===== *)
(** * internal/p2p/peer.go, and the inventory sets of internal/p2p/manager.go

    A bounded set of hashes with first-in first-out eviction, and the state a node
    keeps per connection: version, ping and pong, ban score, rate limits, known
    inventory and the queue of messages to send.  Operations that read the clock
    take the readings as arguments, in nanoseconds.  The framing of messages is
    in file Protocol. *)
From S2P Require Import Prelude Types Protocol Net Scheduler.

(** ** The bounded set of hashes *)

Record boundedHashSet : Type := mkHashSet { hs_items : gset Hash; hs_order : list Hash; hs_cap : Z }.

Definition newBoundedHashSet (capacity : Z) : boundedHashSet := mkHashSet ∅ [] capacity.

(** The loop of [evictUntilSpace].  The compaction of the slice that follows it
    changes its capacity only. *)
Fixpoint evict_order (cap : Z) (items : gset Hash) (order : list Hash) : gset Hash * list Hash :=
  match order with
  | [] => (items, [])
  | evict :: order' =>
      if cap <=? Z.of_nat (size items) then evict_order cap (items ∖ {[evict]}) order'
      else (items, order)
  end.
Definition evictUntilSpace (s : boundedHashSet) : boundedHashSet :=
  let '(items, order) := evict_order (hs_cap s) (hs_items s) (hs_order s) in
  mkHashSet items order (hs_cap s).

Definition hs_append (h : Hash) (s : boundedHashSet) : boundedHashSet :=
  mkHashSet ({[h]} ∪ hs_items s) (hs_order s ++ [h]) (hs_cap s).

Definition Has (h : Hash) (s : boundedHashSet) : bool := bool_decide (h ∈ hs_items s).
Definition Add (h : Hash) (s : boundedHashSet) : boundedHashSet :=
  if Has h s then s else hs_append h (evictUntilSpace s).
Definition AddOrHas (h : Hash) (s : boundedHashSet) : bool * boundedHashSet :=
  if Has h s then (true, s) else (false, hs_append h (evictUntilSpace s)).
Definition Remove (h : Hash) (s : boundedHashSet) : boundedHashSet :=
  mkHashSet (hs_items s ∖ {[h]}) (hs_order s) (hs_cap s).

(** ** Constants *)

Definition second : Z := 1000000000.
Definition peerSendQueueSize : Z := 1024.
Definition PongTimeout : Z := 20 * 60 * second.
Definition BanThreshold : Z := 100.
Definition BanDuration : Z := 24 * 3600 * second.
Definition RateLimitWindow : Z := 10 * second.
Definition RateLimitMaxMsgs : Z := 500.
Definition MinPeerProtoVersion : Z := 4.
Definition MaxPeerStartHeight : Z := 100000000.

(** The wrap-around of [int32]. *)
Definition i32 (z : Z) : Z := (z + 2 ^ 31) mod 2 ^ 32 - 2 ^ 31.

(** The zero [time.Time]: the first instant of the year 1. *)
Definition zero_time : Z := - 62135596800 * second.

(** ** The state of a peer *)

Record outMsg : Type := mkOutMsg { om_cmd : string; om_payload : list byte }.

Record Peer : Type := mkPeer {
  pr_addr : list byte;
  pr_inbound : bool;
  pr_id : Z;
  pr_connType : string;
  pr_version : option VersionMsg;
  pr_connectedAt : Z;
  pr_pingNonce : Z;
  pr_pingSent : Z;
  pr_lastPong : Z;
  pr_pingLatency : Z;
  pr_minPingLatency : Z;
  pr_lastBlockTime : Z;
  pr_lastTxTime : Z;
  pr_syncedHeaders : Z;
  pr_syncedBlocks : Z;
  pr_prefersHeaders : bool;
  pr_headersReceived : Z;
  pr_banScore : Z;
  pr_msgCount : Z;
  pr_windowStart : Z;
  pr_getaddrResponded : bool;
  pr_lastGetHeadersResp : Z;
  pr_lastGetBlocksResp : Z;
  pr_knownInv : boundedHashSet;
  pr_sendQueue : list outMsg;
  pr_done : bool
}.

Section setters.
Implicit Types p : Peer.

(** Assignments to the fields. *)
Definition set_pr_id (x : Z) p := mkPeer
    (pr_addr p) (pr_inbound p) x (pr_connType p) (pr_version p) (pr_connectedAt p) (pr_pingNonce p) (pr_pingSent p)
    (pr_lastPong p) (pr_pingLatency p) (pr_minPingLatency p) (pr_lastBlockTime p) (pr_lastTxTime p)
    (pr_syncedHeaders p) (pr_syncedBlocks p) (pr_prefersHeaders p) (pr_headersReceived p) (pr_banScore p)
    (pr_msgCount p) (pr_windowStart p) (pr_getaddrResponded p) (pr_lastGetHeadersResp p) (pr_lastGetBlocksResp p)
    (pr_knownInv p) (pr_sendQueue p) (pr_done p).
Definition set_pr_connType (x : string) p := mkPeer
    (pr_addr p) (pr_inbound p) (pr_id p) x (pr_version p) (pr_connectedAt p) (pr_pingNonce p) (pr_pingSent p)
    (pr_lastPong p) (pr_pingLatency p) (pr_minPingLatency p) (pr_lastBlockTime p) (pr_lastTxTime p)
    (pr_syncedHeaders p) (pr_syncedBlocks p) (pr_prefersHeaders p) (pr_headersReceived p) (pr_banScore p)
    (pr_msgCount p) (pr_windowStart p) (pr_getaddrResponded p) (pr_lastGetHeadersResp p) (pr_lastGetBlocksResp p)
    (pr_knownInv p) (pr_sendQueue p) (pr_done p).
Definition set_pr_version (x : option VersionMsg) p := mkPeer
    (pr_addr p) (pr_inbound p) (pr_id p) (pr_connType p) x (pr_connectedAt p) (pr_pingNonce p) (pr_pingSent p)
    (pr_lastPong p) (pr_pingLatency p) (pr_minPingLatency p) (pr_lastBlockTime p) (pr_lastTxTime p)
    (pr_syncedHeaders p) (pr_syncedBlocks p) (pr_prefersHeaders p) (pr_headersReceived p) (pr_banScore p)
    (pr_msgCount p) (pr_windowStart p) (pr_getaddrResponded p) (pr_lastGetHeadersResp p) (pr_lastGetBlocksResp p)
    (pr_knownInv p) (pr_sendQueue p) (pr_done p).
Definition set_pr_pingNonce (x : Z) p := mkPeer
    (pr_addr p) (pr_inbound p) (pr_id p) (pr_connType p) (pr_version p) (pr_connectedAt p) x (pr_pingSent p)
    (pr_lastPong p) (pr_pingLatency p) (pr_minPingLatency p) (pr_lastBlockTime p) (pr_lastTxTime p)
    (pr_syncedHeaders p) (pr_syncedBlocks p) (pr_prefersHeaders p) (pr_headersReceived p) (pr_banScore p)
    (pr_msgCount p) (pr_windowStart p) (pr_getaddrResponded p) (pr_lastGetHeadersResp p) (pr_lastGetBlocksResp p)
    (pr_knownInv p) (pr_sendQueue p) (pr_done p).
Definition set_pr_pingSent (x : Z) p := mkPeer
    (pr_addr p) (pr_inbound p) (pr_id p) (pr_connType p) (pr_version p) (pr_connectedAt p) (pr_pingNonce p) x
    (pr_lastPong p) (pr_pingLatency p) (pr_minPingLatency p) (pr_lastBlockTime p) (pr_lastTxTime p)
    (pr_syncedHeaders p) (pr_syncedBlocks p) (pr_prefersHeaders p) (pr_headersReceived p) (pr_banScore p)
    (pr_msgCount p) (pr_windowStart p) (pr_getaddrResponded p) (pr_lastGetHeadersResp p) (pr_lastGetBlocksResp p)
    (pr_knownInv p) (pr_sendQueue p) (pr_done p).
Definition set_pr_lastPong (x : Z) p := mkPeer
    (pr_addr p) (pr_inbound p) (pr_id p) (pr_connType p) (pr_version p) (pr_connectedAt p) (pr_pingNonce p)
    (pr_pingSent p) x (pr_pingLatency p) (pr_minPingLatency p) (pr_lastBlockTime p) (pr_lastTxTime p)
    (pr_syncedHeaders p) (pr_syncedBlocks p) (pr_prefersHeaders p) (pr_headersReceived p) (pr_banScore p)
    (pr_msgCount p) (pr_windowStart p) (pr_getaddrResponded p) (pr_lastGetHeadersResp p) (pr_lastGetBlocksResp p)
    (pr_knownInv p) (pr_sendQueue p) (pr_done p).
Definition set_pr_pingLatency (x : Z) p := mkPeer
    (pr_addr p) (pr_inbound p) (pr_id p) (pr_connType p) (pr_version p) (pr_connectedAt p) (pr_pingNonce p)
    (pr_pingSent p) (pr_lastPong p) x (pr_minPingLatency p) (pr_lastBlockTime p) (pr_lastTxTime p) (pr_syncedHeaders p)
    (pr_syncedBlocks p) (pr_prefersHeaders p) (pr_headersReceived p) (pr_banScore p) (pr_msgCount p) (pr_windowStart p)
    (pr_getaddrResponded p) (pr_lastGetHeadersResp p) (pr_lastGetBlocksResp p) (pr_knownInv p) (pr_sendQueue p)
    (pr_done p).
Definition set_pr_minPingLatency (x : Z) p := mkPeer
    (pr_addr p) (pr_inbound p) (pr_id p) (pr_connType p) (pr_version p) (pr_connectedAt p) (pr_pingNonce p)
    (pr_pingSent p) (pr_lastPong p) (pr_pingLatency p) x (pr_lastBlockTime p) (pr_lastTxTime p) (pr_syncedHeaders p)
    (pr_syncedBlocks p) (pr_prefersHeaders p) (pr_headersReceived p) (pr_banScore p) (pr_msgCount p) (pr_windowStart p)
    (pr_getaddrResponded p) (pr_lastGetHeadersResp p) (pr_lastGetBlocksResp p) (pr_knownInv p) (pr_sendQueue p)
    (pr_done p).
Definition set_pr_lastBlockTime (x : Z) p := mkPeer
    (pr_addr p) (pr_inbound p) (pr_id p) (pr_connType p) (pr_version p) (pr_connectedAt p) (pr_pingNonce p)
    (pr_pingSent p) (pr_lastPong p) (pr_pingLatency p) (pr_minPingLatency p) x (pr_lastTxTime p) (pr_syncedHeaders p)
    (pr_syncedBlocks p) (pr_prefersHeaders p) (pr_headersReceived p) (pr_banScore p) (pr_msgCount p) (pr_windowStart p)
    (pr_getaddrResponded p) (pr_lastGetHeadersResp p) (pr_lastGetBlocksResp p) (pr_knownInv p) (pr_sendQueue p)
    (pr_done p).
Definition set_pr_lastTxTime (x : Z) p := mkPeer
    (pr_addr p) (pr_inbound p) (pr_id p) (pr_connType p) (pr_version p) (pr_connectedAt p) (pr_pingNonce p)
    (pr_pingSent p) (pr_lastPong p) (pr_pingLatency p) (pr_minPingLatency p) (pr_lastBlockTime p) x
    (pr_syncedHeaders p) (pr_syncedBlocks p) (pr_prefersHeaders p) (pr_headersReceived p) (pr_banScore p)
    (pr_msgCount p) (pr_windowStart p) (pr_getaddrResponded p) (pr_lastGetHeadersResp p) (pr_lastGetBlocksResp p)
    (pr_knownInv p) (pr_sendQueue p) (pr_done p).
Definition set_pr_syncedHeaders (x : Z) p := mkPeer
    (pr_addr p) (pr_inbound p) (pr_id p) (pr_connType p) (pr_version p) (pr_connectedAt p) (pr_pingNonce p)
    (pr_pingSent p) (pr_lastPong p) (pr_pingLatency p) (pr_minPingLatency p) (pr_lastBlockTime p) (pr_lastTxTime p) x
    (pr_syncedBlocks p) (pr_prefersHeaders p) (pr_headersReceived p) (pr_banScore p) (pr_msgCount p) (pr_windowStart p)
    (pr_getaddrResponded p) (pr_lastGetHeadersResp p) (pr_lastGetBlocksResp p) (pr_knownInv p) (pr_sendQueue p)
    (pr_done p).
Definition set_pr_syncedBlocks (x : Z) p := mkPeer
    (pr_addr p) (pr_inbound p) (pr_id p) (pr_connType p) (pr_version p) (pr_connectedAt p) (pr_pingNonce p)
    (pr_pingSent p) (pr_lastPong p) (pr_pingLatency p) (pr_minPingLatency p) (pr_lastBlockTime p) (pr_lastTxTime p)
    (pr_syncedHeaders p) x (pr_prefersHeaders p) (pr_headersReceived p) (pr_banScore p) (pr_msgCount p)
    (pr_windowStart p) (pr_getaddrResponded p) (pr_lastGetHeadersResp p) (pr_lastGetBlocksResp p) (pr_knownInv p)
    (pr_sendQueue p) (pr_done p).
Definition set_pr_prefersHeaders (x : bool) p := mkPeer
    (pr_addr p) (pr_inbound p) (pr_id p) (pr_connType p) (pr_version p) (pr_connectedAt p) (pr_pingNonce p)
    (pr_pingSent p) (pr_lastPong p) (pr_pingLatency p) (pr_minPingLatency p) (pr_lastBlockTime p) (pr_lastTxTime p)
    (pr_syncedHeaders p) (pr_syncedBlocks p) x (pr_headersReceived p) (pr_banScore p) (pr_msgCount p)
    (pr_windowStart p) (pr_getaddrResponded p) (pr_lastGetHeadersResp p) (pr_lastGetBlocksResp p) (pr_knownInv p)
    (pr_sendQueue p) (pr_done p).
Definition set_pr_headersReceived (x : Z) p := mkPeer
    (pr_addr p) (pr_inbound p) (pr_id p) (pr_connType p) (pr_version p) (pr_connectedAt p) (pr_pingNonce p)
    (pr_pingSent p) (pr_lastPong p) (pr_pingLatency p) (pr_minPingLatency p) (pr_lastBlockTime p) (pr_lastTxTime p)
    (pr_syncedHeaders p) (pr_syncedBlocks p) (pr_prefersHeaders p) x (pr_banScore p) (pr_msgCount p) (pr_windowStart p)
    (pr_getaddrResponded p) (pr_lastGetHeadersResp p) (pr_lastGetBlocksResp p) (pr_knownInv p) (pr_sendQueue p)
    (pr_done p).
Definition set_pr_banScore (x : Z) p := mkPeer
    (pr_addr p) (pr_inbound p) (pr_id p) (pr_connType p) (pr_version p) (pr_connectedAt p) (pr_pingNonce p)
    (pr_pingSent p) (pr_lastPong p) (pr_pingLatency p) (pr_minPingLatency p) (pr_lastBlockTime p) (pr_lastTxTime p)
    (pr_syncedHeaders p) (pr_syncedBlocks p) (pr_prefersHeaders p) (pr_headersReceived p) x (pr_msgCount p)
    (pr_windowStart p) (pr_getaddrResponded p) (pr_lastGetHeadersResp p) (pr_lastGetBlocksResp p) (pr_knownInv p)
    (pr_sendQueue p) (pr_done p).
Definition set_pr_msgCount (x : Z) p := mkPeer
    (pr_addr p) (pr_inbound p) (pr_id p) (pr_connType p) (pr_version p) (pr_connectedAt p) (pr_pingNonce p)
    (pr_pingSent p) (pr_lastPong p) (pr_pingLatency p) (pr_minPingLatency p) (pr_lastBlockTime p) (pr_lastTxTime p)
    (pr_syncedHeaders p) (pr_syncedBlocks p) (pr_prefersHeaders p) (pr_headersReceived p) (pr_banScore p) x
    (pr_windowStart p) (pr_getaddrResponded p) (pr_lastGetHeadersResp p) (pr_lastGetBlocksResp p) (pr_knownInv p)
    (pr_sendQueue p) (pr_done p).
Definition set_pr_windowStart (x : Z) p := mkPeer
    (pr_addr p) (pr_inbound p) (pr_id p) (pr_connType p) (pr_version p) (pr_connectedAt p) (pr_pingNonce p)
    (pr_pingSent p) (pr_lastPong p) (pr_pingLatency p) (pr_minPingLatency p) (pr_lastBlockTime p) (pr_lastTxTime p)
    (pr_syncedHeaders p) (pr_syncedBlocks p) (pr_prefersHeaders p) (pr_headersReceived p) (pr_banScore p)
    (pr_msgCount p) x (pr_getaddrResponded p) (pr_lastGetHeadersResp p) (pr_lastGetBlocksResp p) (pr_knownInv p)
    (pr_sendQueue p) (pr_done p).
Definition set_pr_getaddrResponded (x : bool) p := mkPeer
    (pr_addr p) (pr_inbound p) (pr_id p) (pr_connType p) (pr_version p) (pr_connectedAt p) (pr_pingNonce p)
    (pr_pingSent p) (pr_lastPong p) (pr_pingLatency p) (pr_minPingLatency p) (pr_lastBlockTime p) (pr_lastTxTime p)
    (pr_syncedHeaders p) (pr_syncedBlocks p) (pr_prefersHeaders p) (pr_headersReceived p) (pr_banScore p)
    (pr_msgCount p) (pr_windowStart p) x (pr_lastGetHeadersResp p) (pr_lastGetBlocksResp p) (pr_knownInv p)
    (pr_sendQueue p) (pr_done p).
Definition set_pr_lastGetHeadersResp (x : Z) p := mkPeer
    (pr_addr p) (pr_inbound p) (pr_id p) (pr_connType p) (pr_version p) (pr_connectedAt p) (pr_pingNonce p)
    (pr_pingSent p) (pr_lastPong p) (pr_pingLatency p) (pr_minPingLatency p) (pr_lastBlockTime p) (pr_lastTxTime p)
    (pr_syncedHeaders p) (pr_syncedBlocks p) (pr_prefersHeaders p) (pr_headersReceived p) (pr_banScore p)
    (pr_msgCount p) (pr_windowStart p) (pr_getaddrResponded p) x (pr_lastGetBlocksResp p) (pr_knownInv p)
    (pr_sendQueue p) (pr_done p).
Definition set_pr_lastGetBlocksResp (x : Z) p := mkPeer
    (pr_addr p) (pr_inbound p) (pr_id p) (pr_connType p) (pr_version p) (pr_connectedAt p) (pr_pingNonce p)
    (pr_pingSent p) (pr_lastPong p) (pr_pingLatency p) (pr_minPingLatency p) (pr_lastBlockTime p) (pr_lastTxTime p)
    (pr_syncedHeaders p) (pr_syncedBlocks p) (pr_prefersHeaders p) (pr_headersReceived p) (pr_banScore p)
    (pr_msgCount p) (pr_windowStart p) (pr_getaddrResponded p) (pr_lastGetHeadersResp p) x (pr_knownInv p)
    (pr_sendQueue p) (pr_done p).
Definition set_pr_knownInv (x : boundedHashSet) p := mkPeer
    (pr_addr p) (pr_inbound p) (pr_id p) (pr_connType p) (pr_version p) (pr_connectedAt p) (pr_pingNonce p)
    (pr_pingSent p) (pr_lastPong p) (pr_pingLatency p) (pr_minPingLatency p) (pr_lastBlockTime p) (pr_lastTxTime p)
    (pr_syncedHeaders p) (pr_syncedBlocks p) (pr_prefersHeaders p) (pr_headersReceived p) (pr_banScore p)
    (pr_msgCount p) (pr_windowStart p) (pr_getaddrResponded p) (pr_lastGetHeadersResp p) (pr_lastGetBlocksResp p) x
    (pr_sendQueue p) (pr_done p).
Definition set_pr_sendQueue (x : list outMsg) p := mkPeer
    (pr_addr p) (pr_inbound p) (pr_id p) (pr_connType p) (pr_version p) (pr_connectedAt p) (pr_pingNonce p)
    (pr_pingSent p) (pr_lastPong p) (pr_pingLatency p) (pr_minPingLatency p) (pr_lastBlockTime p) (pr_lastTxTime p)
    (pr_syncedHeaders p) (pr_syncedBlocks p) (pr_prefersHeaders p) (pr_headersReceived p) (pr_banScore p)
    (pr_msgCount p) (pr_windowStart p) (pr_getaddrResponded p) (pr_lastGetHeadersResp p) (pr_lastGetBlocksResp p)
    (pr_knownInv p) x (pr_done p).
Definition set_pr_done (x : bool) p := mkPeer
    (pr_addr p) (pr_inbound p) (pr_id p) (pr_connType p) (pr_version p) (pr_connectedAt p) (pr_pingNonce p)
    (pr_pingSent p) (pr_lastPong p) (pr_pingLatency p) (pr_minPingLatency p) (pr_lastBlockTime p) (pr_lastTxTime p)
    (pr_syncedHeaders p) (pr_syncedBlocks p) (pr_prefersHeaders p) (pr_headersReceived p) (pr_banScore p)
    (pr_msgCount p) (pr_windowStart p) (pr_getaddrResponded p) (pr_lastGetHeadersResp p) (pr_lastGetBlocksResp p)
    (pr_knownInv p) (pr_sendQueue p) x.
End setters.

Definition NewPeer (addr : list byte) (inbound : bool) (now : Z) : Peer :=
  mkPeer addr inbound 0 (if inbound then "inbound" else "outbound-full-relay") None
    now 0 zero_time now 0 0 0 0 (-1) (-1) false 0 0 0 now false zero_time zero_time
    (newBoundedHashSet 10000) [] false.

Section peer.
Implicit Types p : Peer.

(** *** Version and heights *)

Definition SetStartHeightIfGreater (height : Z) p : Peer :=
  match pr_version p with
  | None => p
  | Some v =>
      if v_StartHeight v <? height then
        set_pr_version (Some (mkVersionMsg (v_Version v) (v_Services v) (v_Timestamp v) (v_AddrRecv v)
          (v_AddrFrom v) (v_Nonce v) (v_UserAgent v) height)) p
      else p
  end.

Definition BestHeight p : Z :=
  match pr_version p with None => 0 | Some v => v_StartHeight v end.

(** *** Ping and pong *)

Definition SetPingNonce (nonce now : Z) p : Peer := set_pr_pingSent now (set_pr_pingNonce nonce p).

(** The clock is read for the latency and again for the time of the pong. *)
Definition HandlePong (nonce now now' : Z) p : bool * Peer :=
  if (pr_pingNonce p =? 0) || negb (nonce =? pr_pingNonce p) then (false, p)
  else
    let latency := time_Sub now (pr_pingSent p) in
    let p := set_pr_pingLatency latency p in
    let p := if (pr_minPingLatency p =? 0) || (latency <? pr_minPingLatency p)
             then set_pr_minPingLatency latency p else p in
    (true, set_pr_pingNonce 0 (set_pr_lastPong now' p)).

Definition PongOverdue (now : Z) p : bool :=
  if pr_pingNonce p =? 0 then false else PongTimeout <? time_Sub now (pr_pingSent p).

(** *** Scores and limits *)

Definition AddHeadersReceived (n : Z) p : Z * Peer :=
  let total := i32 (pr_headersReceived p + n) in (total, set_pr_headersReceived total p).

Definition AddBanScore (delta : Z) p : Z * Peer :=
  let score := i32 (pr_banScore p + delta) in (score, set_pr_banScore score p).

Definition CheckRateLimit (now : Z) p : bool * Peer :=
  let p := if RateLimitWindow <? time_Sub now (pr_windowStart p)
           then set_pr_windowStart now (set_pr_msgCount 0 p) else p in
  let count := i32 (pr_msgCount p + 1) in
  (count <=? RateLimitMaxMsgs, set_pr_msgCount count p).

Definition MarkGetAddrResponded p : bool * Peer :=
  if pr_getaddrResponded p then (false, p) else (true, set_pr_getaddrResponded true p).

(** The clock is read for the check and again for the mark. *)
Definition CheckGetHeadersThrottle (now now' : Z) p : bool * Peer :=
  if time_Sub now (pr_lastGetHeadersResp p) <? 2 * second then (false, p)
  else (true, set_pr_lastGetHeadersResp now' p).

Definition CheckGetBlocksThrottle (now now' : Z) p : bool * Peer :=
  if time_Sub now (pr_lastGetBlocksResp p) <? 5 * second then (false, p)
  else (true, set_pr_lastGetBlocksResp now' p).

(** *** Inventory *)

Definition AddKnownInventory (hash : Hash) p : Peer := set_pr_knownInv (Add hash (pr_knownInv p)) p.
Definition HasKnownInventory (hash : Hash) p : bool := Has hash (pr_knownInv p).

(** *** The send queue *)

(** A non-blocking send on the queue: it fails when the queue is full or the
    peer is closed.  (On a closed peer with room in the queue Go may also put the
    message there, where nobody reads it.) *)
Definition TrySendMessage (cmd : string) (payload : list byte) p : bool * Peer :=
  if pr_done p || (peerSendQueueSize <=? len (pr_sendQueue p)) then (false, p)
  else (true, set_pr_sendQueue (pr_sendQueue p ++ [mkOutMsg cmd payload]) p).

Definition SendMessage (cmd : string) (payload : list byte) p : Peer := (TrySendMessage cmd payload p).2.

(** [SendCritical] waits for room up to two seconds; [room] says that the writer
    took a message in that time. *)
Definition SendCritical (room : bool) (cmd : string) (payload : list byte) p : Peer :=
  if room && negb (pr_done p) && (peerSendQueueSize <=? len (pr_sendQueue p)) then
    set_pr_sendQueue (drop 1 (pr_sendQueue p) ++ [mkOutMsg cmd payload]) p
  else SendMessage cmd payload p.

Definition SendLowPriority (cmd : string) (payload : list byte) p : Peer :=
  if peerSendQueueSize / 2 <? len (pr_sendQueue p) then p else SendMessage cmd payload p.

(** One turn of [WriteLoop]: the message that is written next. *)
Definition take_message p : option (outMsg * Peer) :=
  match pr_sendQueue p with
  | [] => None
  | msg :: rest => if pr_done p then None else Some (msg, set_pr_sendQueue rest p)
  end.

Definition Close p : Peer := set_pr_done true p.
End peer.

(** ** The set in its reachable states *)

Inductive hs_reachable (cap : Z) : boundedHashSet → Prop :=
| hs_new : hs_reachable cap (newBoundedHashSet cap)
| hs_add h s : hs_reachable cap s → hs_reachable cap (AddOrHas h s).2
| hs_remove h s : hs_reachable cap s → hs_reachable cap (Remove h s).

Record hs_ok (cap : Z) (s : boundedHashSet) : Prop := {
  ho_cap : hs_cap s = cap;
  ho_size : Z.of_nat (size (hs_items s)) ≤ cap;
  ho_order : ∀ h, h ∈ hs_items s → h ∈ hs_order s
}.

Lemma Add_AddOrHas h s : Add h s = (AddOrHas h s).2.
Proof. unfold Add, AddOrHas. by destruct (Has h s). Qed.

Lemma evict_order_spec cap items order : 1 ≤ cap → (∀ h, h ∈ items → h ∈ order) →
  let '(items', order') := evict_order cap items order in
  Z.of_nat (size items') < cap ∧ (∀ h, h ∈ items' → h ∈ order') ∧ items' ⊆ items ∧
  (Z.of_nat (size items) < cap → items' = items ∧ order' = order) ∧
  ∃ gone, order = gone ++ order' ∧ items' = items ∖ list_to_set gone.
Proof.
  intros Hcap. revert items. induction order as [|e order IH]; intros items Hin; cbn [evict_order].
  { assert (items = ∅) as -> by set_solver. rewrite size_empty. split_and!; [lia|set_solver|done|done|].
    exists []. split; [done|set_solver]. }
  destruct (Z.leb_spec cap (Z.of_nat (size items))) as [Hle|Hlt].
  - specialize (IH (items ∖ {[e]}) ltac:(set_solver)). destruct (evict_order cap (items ∖ {[e]}) order) as [i o].
    destruct IH as (H1 & H2 & H3 & _ & gone & -> & ->). split_and!; [done|done|set_solver|lia|].
    exists (e :: gone). split; [done|set_solver].
  - split_and!; [done|done|done|done|]. exists []. split; [done|set_solver].
Qed.

Lemma AddOrHas_ok cap h s : 1 ≤ cap → hs_ok cap s → hs_ok cap (AddOrHas h s).2.
Proof.
  intros Hcap [Hc Hs Ho]. unfold AddOrHas. destruct (Has h s) eqn:Hh; [done|]. cbn.
  unfold evictUntilSpace. rewrite Hc. pose proof (evict_order_spec cap (hs_items s) (hs_order s) Hcap Ho) as He.
  destruct (evict_order cap (hs_items s) (hs_order s)) as [i o]. destruct He as (H1 & H2 & H3 & _).
  split; cbn; [done| |set_solver]. apply bool_decide_eq_false in Hh.
  rewrite size_union, size_singleton by set_solver. lia.
Qed.

Lemma Remove_ok cap h s : hs_ok cap s → hs_ok cap (Remove h s).
Proof.
  intros [Hc Hs Ho]. split; cbn; [done| |set_solver].
  pose proof (subseteq_size (hs_items s ∖ {[h]}) (hs_items s) ltac:(set_solver)). lia.
Qed.

Lemma hs_reachable_ok cap s : 1 ≤ cap → hs_reachable cap s → hs_ok cap s.
Proof.
  intros Hcap. induction 1 as [|h s _ IH|h s _ IH]; [|by apply AddOrHas_ok|by apply Remove_ok].
  split; cbn; [done|rewrite size_empty; lia|set_solver].
Qed.

(** The sets of seen blocks and transactions, and of the inventory a peer knows:
    in every state that additions and removals lead to, at most the capacity of
    hashes is held; an addition reports whether the hash was there and puts it
    there; it forgets nothing while there is room, and otherwise forgets the
    oldest entries, as many as needed for one place; a removal takes out that hash
    alone. *)
Theorem seen_set_correct cap s h :
  1 ≤ cap → hs_reachable cap s →
  Z.of_nat (size (hs_items s)) ≤ cap ∧
  (let '(b, s') := AddOrHas h s in
   b = Has h s ∧ Has h s' = true ∧ Add h s = s' ∧ (b = true → s' = s) ∧
   (Z.of_nat (size (hs_items s)) < cap → hs_items s' = {[h]} ∪ hs_items s) ∧
   ∃ gone kept, hs_order s = gone ++ kept ∧
     hs_items s' = {[h]} ∪ (hs_items s ∖ list_to_set gone) ∧
     (gone ≠ [] → Z.of_nat (size (hs_items s)) = cap)) ∧
  (∀ h', Has h' (Remove h s) = Has h' s && negb (bool_decide (h' = h))).
Proof.
  intros Hcap Hr%hs_reachable_ok; [|done]. destruct (Hr) as [Hc Hs Ho]. rewrite Add_AddOrHas. split_and!; [done| |].
  - unfold AddOrHas, Has. case_bool_decide as Hh; cbn [snd].
    + split_and!; [done|by apply bool_decide_true|done|done|set_solver|].
      exists [], (hs_order s). split_and!; [done|set_solver|done].
    + unfold evictUntilSpace. rewrite Hc. pose proof (evict_order_spec cap (hs_items s) (hs_order s) Hcap Ho) as He.
      destruct (evict_order cap (hs_items s) (hs_order s)) as [i o]. destruct He as (H1 & H2 & H3 & H4 & gone & H5 & ->).
      cbn. split_and!; [done|apply bool_decide_true; set_solver|done|done| |].
      * intros Hlt. by destruct (H4 Hlt) as [-> _].
      * exists gone, o. split_and!; [done|done|]. intros Hg. destruct (decide (Z.of_nat (size (hs_items s)) < cap)) as [Hlt|]; [|lia].
        destruct (H4 Hlt) as [_ ->]. destruct Hg. apply (app_inv_tail (hs_order s)). by rewrite <-H5.
  - intros h'. unfold Has. cbn. destruct (bool_decide_reflect (h' = h)); cbn.
    + rewrite andb_false_r. apply bool_decide_false. set_solver.
    + rewrite andb_true_r. apply bool_decide_ext. set_solver.
Qed.

(** Marking and unmarking one hash [n] times. *)
Fixpoint toggle (n : nat) (h : Hash) (s : boundedHashSet) : boundedHashSet :=
  match n with O => s | S n' => toggle n' h (Remove h (AddOrHas h s).2) end.

(** The queue behind the set is not bounded: eviction is triggered by the number
    of hashes that are held, so that a hash that is added and removed again and
    again, as that of a block that is rejected each time it arrives, leaves an
    entry in the queue every time, while the set is empty. *)
Theorem seen_order_grows cap h n :
  1 ≤ cap →
  let s := toggle n h (newBoundedHashSet cap) in
  hs_reachable cap s ∧ hs_items s = ∅ ∧ length (hs_order s) = n.
Proof.
  intros Hcap. cbv zeta.
  assert (Hgen : ∀ s, hs_reachable cap s → hs_cap s = cap → hs_items s = ∅ →
    hs_reachable cap (toggle n h s) ∧ hs_items (toggle n h s) = ∅ ∧ length (hs_order (toggle n h s)) = (n + length (hs_order s))%nat).
  { induction n as [|n IH]; intros s Hr Hc Hs; cbn [toggle]; [done|].
    assert (Hadd : (AddOrHas h s).2 = hs_append h s).
    { unfold AddOrHas, Has. rewrite Hs, bool_decide_false by set_solver. cbn. f_equal. unfold evictUntilSpace. rewrite Hc, Hs.
      destruct s as [i [|x o] k]; cbn in *; subst; [done|]. by rewrite size_empty, (proj2 (Z.leb_gt _ _)) by lia. }
    destruct (IH (Remove h (AddOrHas h s).2)) as (H1 & H2 & H3).
    - by apply hs_remove, hs_add.
    - by rewrite Hadd.
    - rewrite Hadd. cbn. rewrite Hs. set_solver.
    - split_and!; [done|done|]. rewrite H3, Hadd. cbn. rewrite length_app. cbn. lia. }
  destruct (Hgen (newBoundedHashSet cap) (hs_new cap) eq_refl eq_refl) as (H1 & H2 & H3).
  split_and!; [done|done|]. rewrite H3. cbn. lia.
Qed.

Lemma seen_set_correct_witness :
  let s := (AddOrHas [x02] (AddOrHas [x01] (newBoundedHashSet 2)).2).2 in
  AddOrHas [x03] s = (false, mkHashSet {[ [x02]; [x03] ]} [[x02]; [x03]] 2) ∧
  Z.of_nat (size (hs_items (AddOrHas [x03] s).2)) ≤ 2.
Proof.
  split; [vm_compute; reflexivity|].
  refine (proj1 (seen_set_correct 2 _ [x03] _ _)); [lia|]. apply hs_add, hs_add, hs_add, hs_new.
Defined.

Lemma seen_order_grows_witness :
  length (hs_order (toggle 100 [x01] (newBoundedHashSet 10))) = 100%nat.
Proof. exact (proj2 (proj2 (seen_order_grows 10 [x01] 100 ltac:(lia)))). Defined.
