(* ===== verification/ManagerState.v ===== *)
(** * The state of the peer-to-peer manager (internal/p2p/manager.go)

    The fields of [Manager] that its methods change, with an assignment function
    for each of them; the configuration; and what the code takes from outside. *)
From S2P Require Import Prelude Types Sha256 Target Merkle Params Utxo Keys Script TxValidation.
From S2P Require Import Algorithms Validation Difficulty Pow TimeAdjust BlockFiles Store Chain Heap Mempool.
From S2P Require Import Protocol Headers Scheduler Net Peer.

Inductive SyncState : Type := SyncStateInitial | SyncStateHeaderSync | SyncStateBlockSync | SyncStateSynced.
#[export] Instance SyncState_eq_dec : EqDecision SyncState.
Proof. solve_decision. Defined.

Definition SyncState_String (s : SyncState) : string :=
  match s with
  | SyncStateInitial => "INITIAL"
  | SyncStateHeaderSync => "HEADER_SYNC"
  | SyncStateBlockSync => "BLOCK_SYNC"
  | SyncStateSynced => "SYNCED"
  end.

(** ** The state *)

Record Manager (St PS : Type) : Type := mkManager {
  m_chain : Chain St;
  m_mempool : Mempool;
  m_headerIndex : HeaderIndex;
  m_scheduler : option BlockScheduler;
  m_peerStore : PS;
  m_timeSampler : AdjustedClock;
  m_objs : gmap nat Peer;
  m_nextObj : nat;
  m_peers : gmap (list byte) nat;
  m_bestPeerHeight : Z;
  m_banned : gmap (list byte) Z;
  m_backoff : gmap (list byte) Z;
  m_backoffN : gmap (list byte) Z;
  m_nextPeerID : Z;
  m_manualPeers : gset (list byte);
  m_seenBlocks : boundedHashSet;
  m_seenTxs : boundedHashSet;
  m_lastSyncReqPerPeer : gmap (list byte) Z;
  m_addrCountPerPeer : gmap (list byte) Z;
  m_syncPeerAddr : list byte;
  m_syncPeerSince : Z;
  m_lastSyncHeight : Z;
  m_ibdBlockQueue : list (Block * nat);
  m_syncState : SyncState;
  m_headerSyncPeerAddr : list byte;
  m_headerSyncSince : Z;
  m_lastHeaderHeight : Z;
  m_headerSyncStalls : Z;
  m_headerSyncCaughtUp : bool;
  m_blockSyncLastProgress : Z;
  m_blockSyncLastHeight : Z;
  m_fastSyncPeer : list byte;
  m_fastSyncNextHeight : Z;
  m_fastSyncInFlight : Z;
  m_fastSyncLastRecv : Z;
  m_fastSyncFallback : bool;
  m_finishedIBD : bool;
  m_n : nat
}.
Arguments mkManager {St PS}.
Arguments m_chain {St PS}. Arguments m_mempool {St PS}. Arguments m_headerIndex {St PS}.
Arguments m_scheduler {St PS}. Arguments m_peerStore {St PS}. Arguments m_timeSampler {St PS}.
Arguments m_objs {St PS}. Arguments m_nextObj {St PS}. Arguments m_peers {St PS}.
Arguments m_bestPeerHeight {St PS}. Arguments m_banned {St PS}. Arguments m_backoff {St PS}.
Arguments m_backoffN {St PS}. Arguments m_nextPeerID {St PS}. Arguments m_manualPeers {St PS}.
Arguments m_seenBlocks {St PS}. Arguments m_seenTxs {St PS}. Arguments m_lastSyncReqPerPeer {St PS}.
Arguments m_addrCountPerPeer {St PS}. Arguments m_syncPeerAddr {St PS}. Arguments m_syncPeerSince {St PS}.
Arguments m_lastSyncHeight {St PS}. Arguments m_ibdBlockQueue {St PS}. Arguments m_syncState {St PS}.
Arguments m_headerSyncPeerAddr {St PS}. Arguments m_headerSyncSince {St PS}. Arguments m_lastHeaderHeight {St PS}.
Arguments m_headerSyncStalls {St PS}. Arguments m_headerSyncCaughtUp {St PS}. Arguments m_blockSyncLastProgress {St PS}.
Arguments m_blockSyncLastHeight {St PS}. Arguments m_fastSyncPeer {St PS}. Arguments m_fastSyncNextHeight {St PS}.
Arguments m_fastSyncInFlight {St PS}. Arguments m_fastSyncLastRecv {St PS}. Arguments m_fastSyncFallback {St PS}.
Arguments m_finishedIBD {St PS}. Arguments m_n {St PS}.

Record Config : Type := mkConfig {
  cf_listenAddr : list byte;
  cf_maxInbound : Z;
  cf_maxOutbound : Z;
  cf_connectOnly : list (list byte);
  cf_localNonce : Z;
  cf_userAgent : list byte;
  cf_hasSampler : bool
}.

(** What the code takes from outside. *)
Record World : Type := mkWorld {
  w_now : nat → Z;
  w_rand : nat → Z;
  w_room : nat → bool;
  w_iter : ∀ A : Type, nat → list A → list A
}.
Definition world_ok (w : World) : Prop := ∀ A n (l : list A), w_iter w A n l ≡ₚ l.

Section setters.
Context {St PS : Type}.
Implicit Types m : Manager St PS.

(** Assignments to the fields. *)
Definition set_m_chain (x : Chain St) m : Manager St PS := mkManager
    x (m_mempool m) (m_headerIndex m) (m_scheduler m) (m_peerStore m) (m_timeSampler m) (m_objs m) (m_nextObj m)
    (m_peers m) (m_bestPeerHeight m) (m_banned m) (m_backoff m) (m_backoffN m) (m_nextPeerID m) (m_manualPeers m)
    (m_seenBlocks m) (m_seenTxs m) (m_lastSyncReqPerPeer m) (m_addrCountPerPeer m) (m_syncPeerAddr m)
    (m_syncPeerSince m) (m_lastSyncHeight m) (m_ibdBlockQueue m) (m_syncState m) (m_headerSyncPeerAddr m)
    (m_headerSyncSince m) (m_lastHeaderHeight m) (m_headerSyncStalls m) (m_headerSyncCaughtUp m)
    (m_blockSyncLastProgress m) (m_blockSyncLastHeight m) (m_fastSyncPeer m) (m_fastSyncNextHeight m)
    (m_fastSyncInFlight m) (m_fastSyncLastRecv m) (m_fastSyncFallback m) (m_finishedIBD m) (m_n m).
Definition set_m_mempool (x : Mempool) m : Manager St PS := mkManager
    (m_chain m) x (m_headerIndex m) (m_scheduler m) (m_peerStore m) (m_timeSampler m) (m_objs m) (m_nextObj m)
    (m_peers m) (m_bestPeerHeight m) (m_banned m) (m_backoff m) (m_backoffN m) (m_nextPeerID m) (m_manualPeers m)
    (m_seenBlocks m) (m_seenTxs m) (m_lastSyncReqPerPeer m) (m_addrCountPerPeer m) (m_syncPeerAddr m)
    (m_syncPeerSince m) (m_lastSyncHeight m) (m_ibdBlockQueue m) (m_syncState m) (m_headerSyncPeerAddr m)
    (m_headerSyncSince m) (m_lastHeaderHeight m) (m_headerSyncStalls m) (m_headerSyncCaughtUp m)
    (m_blockSyncLastProgress m) (m_blockSyncLastHeight m) (m_fastSyncPeer m) (m_fastSyncNextHeight m)
    (m_fastSyncInFlight m) (m_fastSyncLastRecv m) (m_fastSyncFallback m) (m_finishedIBD m) (m_n m).
Definition set_m_headerIndex (x : HeaderIndex) m : Manager St PS := mkManager
    (m_chain m) (m_mempool m) x (m_scheduler m) (m_peerStore m) (m_timeSampler m) (m_objs m) (m_nextObj m) (m_peers m)
    (m_bestPeerHeight m) (m_banned m) (m_backoff m) (m_backoffN m) (m_nextPeerID m) (m_manualPeers m) (m_seenBlocks m)
    (m_seenTxs m) (m_lastSyncReqPerPeer m) (m_addrCountPerPeer m) (m_syncPeerAddr m) (m_syncPeerSince m)
    (m_lastSyncHeight m) (m_ibdBlockQueue m) (m_syncState m) (m_headerSyncPeerAddr m) (m_headerSyncSince m)
    (m_lastHeaderHeight m) (m_headerSyncStalls m) (m_headerSyncCaughtUp m) (m_blockSyncLastProgress m)
    (m_blockSyncLastHeight m) (m_fastSyncPeer m) (m_fastSyncNextHeight m) (m_fastSyncInFlight m) (m_fastSyncLastRecv m)
    (m_fastSyncFallback m) (m_finishedIBD m) (m_n m).
Definition set_m_scheduler (x : option BlockScheduler) m : Manager St PS := mkManager
    (m_chain m) (m_mempool m) (m_headerIndex m) x (m_peerStore m) (m_timeSampler m) (m_objs m) (m_nextObj m)
    (m_peers m) (m_bestPeerHeight m) (m_banned m) (m_backoff m) (m_backoffN m) (m_nextPeerID m) (m_manualPeers m)
    (m_seenBlocks m) (m_seenTxs m) (m_lastSyncReqPerPeer m) (m_addrCountPerPeer m) (m_syncPeerAddr m)
    (m_syncPeerSince m) (m_lastSyncHeight m) (m_ibdBlockQueue m) (m_syncState m) (m_headerSyncPeerAddr m)
    (m_headerSyncSince m) (m_lastHeaderHeight m) (m_headerSyncStalls m) (m_headerSyncCaughtUp m)
    (m_blockSyncLastProgress m) (m_blockSyncLastHeight m) (m_fastSyncPeer m) (m_fastSyncNextHeight m)
    (m_fastSyncInFlight m) (m_fastSyncLastRecv m) (m_fastSyncFallback m) (m_finishedIBD m) (m_n m).
Definition set_m_peerStore (x : PS) m : Manager St PS := mkManager
    (m_chain m) (m_mempool m) (m_headerIndex m) (m_scheduler m) x (m_timeSampler m) (m_objs m) (m_nextObj m)
    (m_peers m) (m_bestPeerHeight m) (m_banned m) (m_backoff m) (m_backoffN m) (m_nextPeerID m) (m_manualPeers m)
    (m_seenBlocks m) (m_seenTxs m) (m_lastSyncReqPerPeer m) (m_addrCountPerPeer m) (m_syncPeerAddr m)
    (m_syncPeerSince m) (m_lastSyncHeight m) (m_ibdBlockQueue m) (m_syncState m) (m_headerSyncPeerAddr m)
    (m_headerSyncSince m) (m_lastHeaderHeight m) (m_headerSyncStalls m) (m_headerSyncCaughtUp m)
    (m_blockSyncLastProgress m) (m_blockSyncLastHeight m) (m_fastSyncPeer m) (m_fastSyncNextHeight m)
    (m_fastSyncInFlight m) (m_fastSyncLastRecv m) (m_fastSyncFallback m) (m_finishedIBD m) (m_n m).
Definition set_m_timeSampler (x : AdjustedClock) m : Manager St PS := mkManager
    (m_chain m) (m_mempool m) (m_headerIndex m) (m_scheduler m) (m_peerStore m) x (m_objs m) (m_nextObj m) (m_peers m)
    (m_bestPeerHeight m) (m_banned m) (m_backoff m) (m_backoffN m) (m_nextPeerID m) (m_manualPeers m) (m_seenBlocks m)
    (m_seenTxs m) (m_lastSyncReqPerPeer m) (m_addrCountPerPeer m) (m_syncPeerAddr m) (m_syncPeerSince m)
    (m_lastSyncHeight m) (m_ibdBlockQueue m) (m_syncState m) (m_headerSyncPeerAddr m) (m_headerSyncSince m)
    (m_lastHeaderHeight m) (m_headerSyncStalls m) (m_headerSyncCaughtUp m) (m_blockSyncLastProgress m)
    (m_blockSyncLastHeight m) (m_fastSyncPeer m) (m_fastSyncNextHeight m) (m_fastSyncInFlight m) (m_fastSyncLastRecv m)
    (m_fastSyncFallback m) (m_finishedIBD m) (m_n m).
Definition set_m_objs (x : gmap nat Peer) m : Manager St PS := mkManager
    (m_chain m) (m_mempool m) (m_headerIndex m) (m_scheduler m) (m_peerStore m) (m_timeSampler m) x (m_nextObj m)
    (m_peers m) (m_bestPeerHeight m) (m_banned m) (m_backoff m) (m_backoffN m) (m_nextPeerID m) (m_manualPeers m)
    (m_seenBlocks m) (m_seenTxs m) (m_lastSyncReqPerPeer m) (m_addrCountPerPeer m) (m_syncPeerAddr m)
    (m_syncPeerSince m) (m_lastSyncHeight m) (m_ibdBlockQueue m) (m_syncState m) (m_headerSyncPeerAddr m)
    (m_headerSyncSince m) (m_lastHeaderHeight m) (m_headerSyncStalls m) (m_headerSyncCaughtUp m)
    (m_blockSyncLastProgress m) (m_blockSyncLastHeight m) (m_fastSyncPeer m) (m_fastSyncNextHeight m)
    (m_fastSyncInFlight m) (m_fastSyncLastRecv m) (m_fastSyncFallback m) (m_finishedIBD m) (m_n m).
Definition set_m_nextObj (x : nat) m : Manager St PS := mkManager
    (m_chain m) (m_mempool m) (m_headerIndex m) (m_scheduler m) (m_peerStore m) (m_timeSampler m) (m_objs m) x
    (m_peers m) (m_bestPeerHeight m) (m_banned m) (m_backoff m) (m_backoffN m) (m_nextPeerID m) (m_manualPeers m)
    (m_seenBlocks m) (m_seenTxs m) (m_lastSyncReqPerPeer m) (m_addrCountPerPeer m) (m_syncPeerAddr m)
    (m_syncPeerSince m) (m_lastSyncHeight m) (m_ibdBlockQueue m) (m_syncState m) (m_headerSyncPeerAddr m)
    (m_headerSyncSince m) (m_lastHeaderHeight m) (m_headerSyncStalls m) (m_headerSyncCaughtUp m)
    (m_blockSyncLastProgress m) (m_blockSyncLastHeight m) (m_fastSyncPeer m) (m_fastSyncNextHeight m)
    (m_fastSyncInFlight m) (m_fastSyncLastRecv m) (m_fastSyncFallback m) (m_finishedIBD m) (m_n m).
Definition set_m_peers (x : gmap (list byte) nat) m : Manager St PS := mkManager
    (m_chain m) (m_mempool m) (m_headerIndex m) (m_scheduler m) (m_peerStore m) (m_timeSampler m) (m_objs m)
    (m_nextObj m) x (m_bestPeerHeight m) (m_banned m) (m_backoff m) (m_backoffN m) (m_nextPeerID m) (m_manualPeers m)
    (m_seenBlocks m) (m_seenTxs m) (m_lastSyncReqPerPeer m) (m_addrCountPerPeer m) (m_syncPeerAddr m)
    (m_syncPeerSince m) (m_lastSyncHeight m) (m_ibdBlockQueue m) (m_syncState m) (m_headerSyncPeerAddr m)
    (m_headerSyncSince m) (m_lastHeaderHeight m) (m_headerSyncStalls m) (m_headerSyncCaughtUp m)
    (m_blockSyncLastProgress m) (m_blockSyncLastHeight m) (m_fastSyncPeer m) (m_fastSyncNextHeight m)
    (m_fastSyncInFlight m) (m_fastSyncLastRecv m) (m_fastSyncFallback m) (m_finishedIBD m) (m_n m).
Definition set_m_bestPeerHeight (x : Z) m : Manager St PS := mkManager
    (m_chain m) (m_mempool m) (m_headerIndex m) (m_scheduler m) (m_peerStore m) (m_timeSampler m) (m_objs m)
    (m_nextObj m) (m_peers m) x (m_banned m) (m_backoff m) (m_backoffN m) (m_nextPeerID m) (m_manualPeers m)
    (m_seenBlocks m) (m_seenTxs m) (m_lastSyncReqPerPeer m) (m_addrCountPerPeer m) (m_syncPeerAddr m)
    (m_syncPeerSince m) (m_lastSyncHeight m) (m_ibdBlockQueue m) (m_syncState m) (m_headerSyncPeerAddr m)
    (m_headerSyncSince m) (m_lastHeaderHeight m) (m_headerSyncStalls m) (m_headerSyncCaughtUp m)
    (m_blockSyncLastProgress m) (m_blockSyncLastHeight m) (m_fastSyncPeer m) (m_fastSyncNextHeight m)
    (m_fastSyncInFlight m) (m_fastSyncLastRecv m) (m_fastSyncFallback m) (m_finishedIBD m) (m_n m).
Definition set_m_banned (x : gmap (list byte) Z) m : Manager St PS := mkManager
    (m_chain m) (m_mempool m) (m_headerIndex m) (m_scheduler m) (m_peerStore m) (m_timeSampler m) (m_objs m)
    (m_nextObj m) (m_peers m) (m_bestPeerHeight m) x (m_backoff m) (m_backoffN m) (m_nextPeerID m) (m_manualPeers m)
    (m_seenBlocks m) (m_seenTxs m) (m_lastSyncReqPerPeer m) (m_addrCountPerPeer m) (m_syncPeerAddr m)
    (m_syncPeerSince m) (m_lastSyncHeight m) (m_ibdBlockQueue m) (m_syncState m) (m_headerSyncPeerAddr m)
    (m_headerSyncSince m) (m_lastHeaderHeight m) (m_headerSyncStalls m) (m_headerSyncCaughtUp m)
    (m_blockSyncLastProgress m) (m_blockSyncLastHeight m) (m_fastSyncPeer m) (m_fastSyncNextHeight m)
    (m_fastSyncInFlight m) (m_fastSyncLastRecv m) (m_fastSyncFallback m) (m_finishedIBD m) (m_n m).
Definition set_m_backoff (x : gmap (list byte) Z) m : Manager St PS := mkManager
    (m_chain m) (m_mempool m) (m_headerIndex m) (m_scheduler m) (m_peerStore m) (m_timeSampler m) (m_objs m)
    (m_nextObj m) (m_peers m) (m_bestPeerHeight m) (m_banned m) x (m_backoffN m) (m_nextPeerID m) (m_manualPeers m)
    (m_seenBlocks m) (m_seenTxs m) (m_lastSyncReqPerPeer m) (m_addrCountPerPeer m) (m_syncPeerAddr m)
    (m_syncPeerSince m) (m_lastSyncHeight m) (m_ibdBlockQueue m) (m_syncState m) (m_headerSyncPeerAddr m)
    (m_headerSyncSince m) (m_lastHeaderHeight m) (m_headerSyncStalls m) (m_headerSyncCaughtUp m)
    (m_blockSyncLastProgress m) (m_blockSyncLastHeight m) (m_fastSyncPeer m) (m_fastSyncNextHeight m)
    (m_fastSyncInFlight m) (m_fastSyncLastRecv m) (m_fastSyncFallback m) (m_finishedIBD m) (m_n m).
Definition set_m_backoffN (x : gmap (list byte) Z) m : Manager St PS := mkManager
    (m_chain m) (m_mempool m) (m_headerIndex m) (m_scheduler m) (m_peerStore m) (m_timeSampler m) (m_objs m)
    (m_nextObj m) (m_peers m) (m_bestPeerHeight m) (m_banned m) (m_backoff m) x (m_nextPeerID m) (m_manualPeers m)
    (m_seenBlocks m) (m_seenTxs m) (m_lastSyncReqPerPeer m) (m_addrCountPerPeer m) (m_syncPeerAddr m)
    (m_syncPeerSince m) (m_lastSyncHeight m) (m_ibdBlockQueue m) (m_syncState m) (m_headerSyncPeerAddr m)
    (m_headerSyncSince m) (m_lastHeaderHeight m) (m_headerSyncStalls m) (m_headerSyncCaughtUp m)
    (m_blockSyncLastProgress m) (m_blockSyncLastHeight m) (m_fastSyncPeer m) (m_fastSyncNextHeight m)
    (m_fastSyncInFlight m) (m_fastSyncLastRecv m) (m_fastSyncFallback m) (m_finishedIBD m) (m_n m).
Definition set_m_nextPeerID (x : Z) m : Manager St PS := mkManager
    (m_chain m) (m_mempool m) (m_headerIndex m) (m_scheduler m) (m_peerStore m) (m_timeSampler m) (m_objs m)
    (m_nextObj m) (m_peers m) (m_bestPeerHeight m) (m_banned m) (m_backoff m) (m_backoffN m) x (m_manualPeers m)
    (m_seenBlocks m) (m_seenTxs m) (m_lastSyncReqPerPeer m) (m_addrCountPerPeer m) (m_syncPeerAddr m)
    (m_syncPeerSince m) (m_lastSyncHeight m) (m_ibdBlockQueue m) (m_syncState m) (m_headerSyncPeerAddr m)
    (m_headerSyncSince m) (m_lastHeaderHeight m) (m_headerSyncStalls m) (m_headerSyncCaughtUp m)
    (m_blockSyncLastProgress m) (m_blockSyncLastHeight m) (m_fastSyncPeer m) (m_fastSyncNextHeight m)
    (m_fastSyncInFlight m) (m_fastSyncLastRecv m) (m_fastSyncFallback m) (m_finishedIBD m) (m_n m).
Definition set_m_manualPeers (x : gset (list byte)) m : Manager St PS := mkManager
    (m_chain m) (m_mempool m) (m_headerIndex m) (m_scheduler m) (m_peerStore m) (m_timeSampler m) (m_objs m)
    (m_nextObj m) (m_peers m) (m_bestPeerHeight m) (m_banned m) (m_backoff m) (m_backoffN m) (m_nextPeerID m) x
    (m_seenBlocks m) (m_seenTxs m) (m_lastSyncReqPerPeer m) (m_addrCountPerPeer m) (m_syncPeerAddr m)
    (m_syncPeerSince m) (m_lastSyncHeight m) (m_ibdBlockQueue m) (m_syncState m) (m_headerSyncPeerAddr m)
    (m_headerSyncSince m) (m_lastHeaderHeight m) (m_headerSyncStalls m) (m_headerSyncCaughtUp m)
    (m_blockSyncLastProgress m) (m_blockSyncLastHeight m) (m_fastSyncPeer m) (m_fastSyncNextHeight m)
    (m_fastSyncInFlight m) (m_fastSyncLastRecv m) (m_fastSyncFallback m) (m_finishedIBD m) (m_n m).
Definition set_m_seenBlocks (x : boundedHashSet) m : Manager St PS := mkManager
    (m_chain m) (m_mempool m) (m_headerIndex m) (m_scheduler m) (m_peerStore m) (m_timeSampler m) (m_objs m)
    (m_nextObj m) (m_peers m) (m_bestPeerHeight m) (m_banned m) (m_backoff m) (m_backoffN m) (m_nextPeerID m)
    (m_manualPeers m) x (m_seenTxs m) (m_lastSyncReqPerPeer m) (m_addrCountPerPeer m) (m_syncPeerAddr m)
    (m_syncPeerSince m) (m_lastSyncHeight m) (m_ibdBlockQueue m) (m_syncState m) (m_headerSyncPeerAddr m)
    (m_headerSyncSince m) (m_lastHeaderHeight m) (m_headerSyncStalls m) (m_headerSyncCaughtUp m)
    (m_blockSyncLastProgress m) (m_blockSyncLastHeight m) (m_fastSyncPeer m) (m_fastSyncNextHeight m)
    (m_fastSyncInFlight m) (m_fastSyncLastRecv m) (m_fastSyncFallback m) (m_finishedIBD m) (m_n m).
Definition set_m_seenTxs (x : boundedHashSet) m : Manager St PS := mkManager
    (m_chain m) (m_mempool m) (m_headerIndex m) (m_scheduler m) (m_peerStore m) (m_timeSampler m) (m_objs m)
    (m_nextObj m) (m_peers m) (m_bestPeerHeight m) (m_banned m) (m_backoff m) (m_backoffN m) (m_nextPeerID m)
    (m_manualPeers m) (m_seenBlocks m) x (m_lastSyncReqPerPeer m) (m_addrCountPerPeer m) (m_syncPeerAddr m)
    (m_syncPeerSince m) (m_lastSyncHeight m) (m_ibdBlockQueue m) (m_syncState m) (m_headerSyncPeerAddr m)
    (m_headerSyncSince m) (m_lastHeaderHeight m) (m_headerSyncStalls m) (m_headerSyncCaughtUp m)
    (m_blockSyncLastProgress m) (m_blockSyncLastHeight m) (m_fastSyncPeer m) (m_fastSyncNextHeight m)
    (m_fastSyncInFlight m) (m_fastSyncLastRecv m) (m_fastSyncFallback m) (m_finishedIBD m) (m_n m).
Definition set_m_lastSyncReqPerPeer (x : gmap (list byte) Z) m : Manager St PS := mkManager
    (m_chain m) (m_mempool m) (m_headerIndex m) (m_scheduler m) (m_peerStore m) (m_timeSampler m) (m_objs m)
    (m_nextObj m) (m_peers m) (m_bestPeerHeight m) (m_banned m) (m_backoff m) (m_backoffN m) (m_nextPeerID m)
    (m_manualPeers m) (m_seenBlocks m) (m_seenTxs m) x (m_addrCountPerPeer m) (m_syncPeerAddr m) (m_syncPeerSince m)
    (m_lastSyncHeight m) (m_ibdBlockQueue m) (m_syncState m) (m_headerSyncPeerAddr m) (m_headerSyncSince m)
    (m_lastHeaderHeight m) (m_headerSyncStalls m) (m_headerSyncCaughtUp m) (m_blockSyncLastProgress m)
    (m_blockSyncLastHeight m) (m_fastSyncPeer m) (m_fastSyncNextHeight m) (m_fastSyncInFlight m) (m_fastSyncLastRecv m)
    (m_fastSyncFallback m) (m_finishedIBD m) (m_n m).
Definition set_m_addrCountPerPeer (x : gmap (list byte) Z) m : Manager St PS := mkManager
    (m_chain m) (m_mempool m) (m_headerIndex m) (m_scheduler m) (m_peerStore m) (m_timeSampler m) (m_objs m)
    (m_nextObj m) (m_peers m) (m_bestPeerHeight m) (m_banned m) (m_backoff m) (m_backoffN m) (m_nextPeerID m)
    (m_manualPeers m) (m_seenBlocks m) (m_seenTxs m) (m_lastSyncReqPerPeer m) x (m_syncPeerAddr m) (m_syncPeerSince m)
    (m_lastSyncHeight m) (m_ibdBlockQueue m) (m_syncState m) (m_headerSyncPeerAddr m) (m_headerSyncSince m)
    (m_lastHeaderHeight m) (m_headerSyncStalls m) (m_headerSyncCaughtUp m) (m_blockSyncLastProgress m)
    (m_blockSyncLastHeight m) (m_fastSyncPeer m) (m_fastSyncNextHeight m) (m_fastSyncInFlight m) (m_fastSyncLastRecv m)
    (m_fastSyncFallback m) (m_finishedIBD m) (m_n m).
Definition set_m_syncPeerAddr (x : list byte) m : Manager St PS := mkManager
    (m_chain m) (m_mempool m) (m_headerIndex m) (m_scheduler m) (m_peerStore m) (m_timeSampler m) (m_objs m)
    (m_nextObj m) (m_peers m) (m_bestPeerHeight m) (m_banned m) (m_backoff m) (m_backoffN m) (m_nextPeerID m)
    (m_manualPeers m) (m_seenBlocks m) (m_seenTxs m) (m_lastSyncReqPerPeer m) (m_addrCountPerPeer m) x
    (m_syncPeerSince m) (m_lastSyncHeight m) (m_ibdBlockQueue m) (m_syncState m) (m_headerSyncPeerAddr m)
    (m_headerSyncSince m) (m_lastHeaderHeight m) (m_headerSyncStalls m) (m_headerSyncCaughtUp m)
    (m_blockSyncLastProgress m) (m_blockSyncLastHeight m) (m_fastSyncPeer m) (m_fastSyncNextHeight m)
    (m_fastSyncInFlight m) (m_fastSyncLastRecv m) (m_fastSyncFallback m) (m_finishedIBD m) (m_n m).
Definition set_m_syncPeerSince (x : Z) m : Manager St PS := mkManager
    (m_chain m) (m_mempool m) (m_headerIndex m) (m_scheduler m) (m_peerStore m) (m_timeSampler m) (m_objs m)
    (m_nextObj m) (m_peers m) (m_bestPeerHeight m) (m_banned m) (m_backoff m) (m_backoffN m) (m_nextPeerID m)
    (m_manualPeers m) (m_seenBlocks m) (m_seenTxs m) (m_lastSyncReqPerPeer m) (m_addrCountPerPeer m) (m_syncPeerAddr m)
    x (m_lastSyncHeight m) (m_ibdBlockQueue m) (m_syncState m) (m_headerSyncPeerAddr m) (m_headerSyncSince m)
    (m_lastHeaderHeight m) (m_headerSyncStalls m) (m_headerSyncCaughtUp m) (m_blockSyncLastProgress m)
    (m_blockSyncLastHeight m) (m_fastSyncPeer m) (m_fastSyncNextHeight m) (m_fastSyncInFlight m) (m_fastSyncLastRecv m)
    (m_fastSyncFallback m) (m_finishedIBD m) (m_n m).
Definition set_m_lastSyncHeight (x : Z) m : Manager St PS := mkManager
    (m_chain m) (m_mempool m) (m_headerIndex m) (m_scheduler m) (m_peerStore m) (m_timeSampler m) (m_objs m)
    (m_nextObj m) (m_peers m) (m_bestPeerHeight m) (m_banned m) (m_backoff m) (m_backoffN m) (m_nextPeerID m)
    (m_manualPeers m) (m_seenBlocks m) (m_seenTxs m) (m_lastSyncReqPerPeer m) (m_addrCountPerPeer m) (m_syncPeerAddr m)
    (m_syncPeerSince m) x (m_ibdBlockQueue m) (m_syncState m) (m_headerSyncPeerAddr m) (m_headerSyncSince m)
    (m_lastHeaderHeight m) (m_headerSyncStalls m) (m_headerSyncCaughtUp m) (m_blockSyncLastProgress m)
    (m_blockSyncLastHeight m) (m_fastSyncPeer m) (m_fastSyncNextHeight m) (m_fastSyncInFlight m) (m_fastSyncLastRecv m)
    (m_fastSyncFallback m) (m_finishedIBD m) (m_n m).
Definition set_m_ibdBlockQueue (x : list (Block * nat)) m : Manager St PS := mkManager
    (m_chain m) (m_mempool m) (m_headerIndex m) (m_scheduler m) (m_peerStore m) (m_timeSampler m) (m_objs m)
    (m_nextObj m) (m_peers m) (m_bestPeerHeight m) (m_banned m) (m_backoff m) (m_backoffN m) (m_nextPeerID m)
    (m_manualPeers m) (m_seenBlocks m) (m_seenTxs m) (m_lastSyncReqPerPeer m) (m_addrCountPerPeer m) (m_syncPeerAddr m)
    (m_syncPeerSince m) (m_lastSyncHeight m) x (m_syncState m) (m_headerSyncPeerAddr m) (m_headerSyncSince m)
    (m_lastHeaderHeight m) (m_headerSyncStalls m) (m_headerSyncCaughtUp m) (m_blockSyncLastProgress m)
    (m_blockSyncLastHeight m) (m_fastSyncPeer m) (m_fastSyncNextHeight m) (m_fastSyncInFlight m) (m_fastSyncLastRecv m)
    (m_fastSyncFallback m) (m_finishedIBD m) (m_n m).
Definition set_m_syncState (x : SyncState) m : Manager St PS := mkManager
    (m_chain m) (m_mempool m) (m_headerIndex m) (m_scheduler m) (m_peerStore m) (m_timeSampler m) (m_objs m)
    (m_nextObj m) (m_peers m) (m_bestPeerHeight m) (m_banned m) (m_backoff m) (m_backoffN m) (m_nextPeerID m)
    (m_manualPeers m) (m_seenBlocks m) (m_seenTxs m) (m_lastSyncReqPerPeer m) (m_addrCountPerPeer m) (m_syncPeerAddr m)
    (m_syncPeerSince m) (m_lastSyncHeight m) (m_ibdBlockQueue m) x (m_headerSyncPeerAddr m) (m_headerSyncSince m)
    (m_lastHeaderHeight m) (m_headerSyncStalls m) (m_headerSyncCaughtUp m) (m_blockSyncLastProgress m)
    (m_blockSyncLastHeight m) (m_fastSyncPeer m) (m_fastSyncNextHeight m) (m_fastSyncInFlight m) (m_fastSyncLastRecv m)
    (m_fastSyncFallback m) (m_finishedIBD m) (m_n m).
Definition set_m_headerSyncPeerAddr (x : list byte) m : Manager St PS := mkManager
    (m_chain m) (m_mempool m) (m_headerIndex m) (m_scheduler m) (m_peerStore m) (m_timeSampler m) (m_objs m)
    (m_nextObj m) (m_peers m) (m_bestPeerHeight m) (m_banned m) (m_backoff m) (m_backoffN m) (m_nextPeerID m)
    (m_manualPeers m) (m_seenBlocks m) (m_seenTxs m) (m_lastSyncReqPerPeer m) (m_addrCountPerPeer m) (m_syncPeerAddr m)
    (m_syncPeerSince m) (m_lastSyncHeight m) (m_ibdBlockQueue m) (m_syncState m) x (m_headerSyncSince m)
    (m_lastHeaderHeight m) (m_headerSyncStalls m) (m_headerSyncCaughtUp m) (m_blockSyncLastProgress m)
    (m_blockSyncLastHeight m) (m_fastSyncPeer m) (m_fastSyncNextHeight m) (m_fastSyncInFlight m) (m_fastSyncLastRecv m)
    (m_fastSyncFallback m) (m_finishedIBD m) (m_n m).
Definition set_m_headerSyncSince (x : Z) m : Manager St PS := mkManager
    (m_chain m) (m_mempool m) (m_headerIndex m) (m_scheduler m) (m_peerStore m) (m_timeSampler m) (m_objs m)
    (m_nextObj m) (m_peers m) (m_bestPeerHeight m) (m_banned m) (m_backoff m) (m_backoffN m) (m_nextPeerID m)
    (m_manualPeers m) (m_seenBlocks m) (m_seenTxs m) (m_lastSyncReqPerPeer m) (m_addrCountPerPeer m) (m_syncPeerAddr m)
    (m_syncPeerSince m) (m_lastSyncHeight m) (m_ibdBlockQueue m) (m_syncState m) (m_headerSyncPeerAddr m) x
    (m_lastHeaderHeight m) (m_headerSyncStalls m) (m_headerSyncCaughtUp m) (m_blockSyncLastProgress m)
    (m_blockSyncLastHeight m) (m_fastSyncPeer m) (m_fastSyncNextHeight m) (m_fastSyncInFlight m) (m_fastSyncLastRecv m)
    (m_fastSyncFallback m) (m_finishedIBD m) (m_n m).
Definition set_m_lastHeaderHeight (x : Z) m : Manager St PS := mkManager
    (m_chain m) (m_mempool m) (m_headerIndex m) (m_scheduler m) (m_peerStore m) (m_timeSampler m) (m_objs m)
    (m_nextObj m) (m_peers m) (m_bestPeerHeight m) (m_banned m) (m_backoff m) (m_backoffN m) (m_nextPeerID m)
    (m_manualPeers m) (m_seenBlocks m) (m_seenTxs m) (m_lastSyncReqPerPeer m) (m_addrCountPerPeer m) (m_syncPeerAddr m)
    (m_syncPeerSince m) (m_lastSyncHeight m) (m_ibdBlockQueue m) (m_syncState m) (m_headerSyncPeerAddr m)
    (m_headerSyncSince m) x (m_headerSyncStalls m) (m_headerSyncCaughtUp m) (m_blockSyncLastProgress m)
    (m_blockSyncLastHeight m) (m_fastSyncPeer m) (m_fastSyncNextHeight m) (m_fastSyncInFlight m) (m_fastSyncLastRecv m)
    (m_fastSyncFallback m) (m_finishedIBD m) (m_n m).
Definition set_m_headerSyncStalls (x : Z) m : Manager St PS := mkManager
    (m_chain m) (m_mempool m) (m_headerIndex m) (m_scheduler m) (m_peerStore m) (m_timeSampler m) (m_objs m)
    (m_nextObj m) (m_peers m) (m_bestPeerHeight m) (m_banned m) (m_backoff m) (m_backoffN m) (m_nextPeerID m)
    (m_manualPeers m) (m_seenBlocks m) (m_seenTxs m) (m_lastSyncReqPerPeer m) (m_addrCountPerPeer m) (m_syncPeerAddr m)
    (m_syncPeerSince m) (m_lastSyncHeight m) (m_ibdBlockQueue m) (m_syncState m) (m_headerSyncPeerAddr m)
    (m_headerSyncSince m) (m_lastHeaderHeight m) x (m_headerSyncCaughtUp m) (m_blockSyncLastProgress m)
    (m_blockSyncLastHeight m) (m_fastSyncPeer m) (m_fastSyncNextHeight m) (m_fastSyncInFlight m) (m_fastSyncLastRecv m)
    (m_fastSyncFallback m) (m_finishedIBD m) (m_n m).
Definition set_m_headerSyncCaughtUp (x : bool) m : Manager St PS := mkManager
    (m_chain m) (m_mempool m) (m_headerIndex m) (m_scheduler m) (m_peerStore m) (m_timeSampler m) (m_objs m)
    (m_nextObj m) (m_peers m) (m_bestPeerHeight m) (m_banned m) (m_backoff m) (m_backoffN m) (m_nextPeerID m)
    (m_manualPeers m) (m_seenBlocks m) (m_seenTxs m) (m_lastSyncReqPerPeer m) (m_addrCountPerPeer m) (m_syncPeerAddr m)
    (m_syncPeerSince m) (m_lastSyncHeight m) (m_ibdBlockQueue m) (m_syncState m) (m_headerSyncPeerAddr m)
    (m_headerSyncSince m) (m_lastHeaderHeight m) (m_headerSyncStalls m) x (m_blockSyncLastProgress m)
    (m_blockSyncLastHeight m) (m_fastSyncPeer m) (m_fastSyncNextHeight m) (m_fastSyncInFlight m) (m_fastSyncLastRecv m)
    (m_fastSyncFallback m) (m_finishedIBD m) (m_n m).
Definition set_m_blockSyncLastProgress (x : Z) m : Manager St PS := mkManager
    (m_chain m) (m_mempool m) (m_headerIndex m) (m_scheduler m) (m_peerStore m) (m_timeSampler m) (m_objs m)
    (m_nextObj m) (m_peers m) (m_bestPeerHeight m) (m_banned m) (m_backoff m) (m_backoffN m) (m_nextPeerID m)
    (m_manualPeers m) (m_seenBlocks m) (m_seenTxs m) (m_lastSyncReqPerPeer m) (m_addrCountPerPeer m) (m_syncPeerAddr m)
    (m_syncPeerSince m) (m_lastSyncHeight m) (m_ibdBlockQueue m) (m_syncState m) (m_headerSyncPeerAddr m)
    (m_headerSyncSince m) (m_lastHeaderHeight m) (m_headerSyncStalls m) (m_headerSyncCaughtUp m) x
    (m_blockSyncLastHeight m) (m_fastSyncPeer m) (m_fastSyncNextHeight m) (m_fastSyncInFlight m) (m_fastSyncLastRecv m)
    (m_fastSyncFallback m) (m_finishedIBD m) (m_n m).
Definition set_m_blockSyncLastHeight (x : Z) m : Manager St PS := mkManager
    (m_chain m) (m_mempool m) (m_headerIndex m) (m_scheduler m) (m_peerStore m) (m_timeSampler m) (m_objs m)
    (m_nextObj m) (m_peers m) (m_bestPeerHeight m) (m_banned m) (m_backoff m) (m_backoffN m) (m_nextPeerID m)
    (m_manualPeers m) (m_seenBlocks m) (m_seenTxs m) (m_lastSyncReqPerPeer m) (m_addrCountPerPeer m) (m_syncPeerAddr m)
    (m_syncPeerSince m) (m_lastSyncHeight m) (m_ibdBlockQueue m) (m_syncState m) (m_headerSyncPeerAddr m)
    (m_headerSyncSince m) (m_lastHeaderHeight m) (m_headerSyncStalls m) (m_headerSyncCaughtUp m)
    (m_blockSyncLastProgress m) x (m_fastSyncPeer m) (m_fastSyncNextHeight m) (m_fastSyncInFlight m)
    (m_fastSyncLastRecv m) (m_fastSyncFallback m) (m_finishedIBD m) (m_n m).
Definition set_m_fastSyncPeer (x : list byte) m : Manager St PS := mkManager
    (m_chain m) (m_mempool m) (m_headerIndex m) (m_scheduler m) (m_peerStore m) (m_timeSampler m) (m_objs m)
    (m_nextObj m) (m_peers m) (m_bestPeerHeight m) (m_banned m) (m_backoff m) (m_backoffN m) (m_nextPeerID m)
    (m_manualPeers m) (m_seenBlocks m) (m_seenTxs m) (m_lastSyncReqPerPeer m) (m_addrCountPerPeer m) (m_syncPeerAddr m)
    (m_syncPeerSince m) (m_lastSyncHeight m) (m_ibdBlockQueue m) (m_syncState m) (m_headerSyncPeerAddr m)
    (m_headerSyncSince m) (m_lastHeaderHeight m) (m_headerSyncStalls m) (m_headerSyncCaughtUp m)
    (m_blockSyncLastProgress m) (m_blockSyncLastHeight m) x (m_fastSyncNextHeight m) (m_fastSyncInFlight m)
    (m_fastSyncLastRecv m) (m_fastSyncFallback m) (m_finishedIBD m) (m_n m).
Definition set_m_fastSyncNextHeight (x : Z) m : Manager St PS := mkManager
    (m_chain m) (m_mempool m) (m_headerIndex m) (m_scheduler m) (m_peerStore m) (m_timeSampler m) (m_objs m)
    (m_nextObj m) (m_peers m) (m_bestPeerHeight m) (m_banned m) (m_backoff m) (m_backoffN m) (m_nextPeerID m)
    (m_manualPeers m) (m_seenBlocks m) (m_seenTxs m) (m_lastSyncReqPerPeer m) (m_addrCountPerPeer m) (m_syncPeerAddr m)
    (m_syncPeerSince m) (m_lastSyncHeight m) (m_ibdBlockQueue m) (m_syncState m) (m_headerSyncPeerAddr m)
    (m_headerSyncSince m) (m_lastHeaderHeight m) (m_headerSyncStalls m) (m_headerSyncCaughtUp m)
    (m_blockSyncLastProgress m) (m_blockSyncLastHeight m) (m_fastSyncPeer m) x (m_fastSyncInFlight m)
    (m_fastSyncLastRecv m) (m_fastSyncFallback m) (m_finishedIBD m) (m_n m).
Definition set_m_fastSyncInFlight (x : Z) m : Manager St PS := mkManager
    (m_chain m) (m_mempool m) (m_headerIndex m) (m_scheduler m) (m_peerStore m) (m_timeSampler m) (m_objs m)
    (m_nextObj m) (m_peers m) (m_bestPeerHeight m) (m_banned m) (m_backoff m) (m_backoffN m) (m_nextPeerID m)
    (m_manualPeers m) (m_seenBlocks m) (m_seenTxs m) (m_lastSyncReqPerPeer m) (m_addrCountPerPeer m) (m_syncPeerAddr m)
    (m_syncPeerSince m) (m_lastSyncHeight m) (m_ibdBlockQueue m) (m_syncState m) (m_headerSyncPeerAddr m)
    (m_headerSyncSince m) (m_lastHeaderHeight m) (m_headerSyncStalls m) (m_headerSyncCaughtUp m)
    (m_blockSyncLastProgress m) (m_blockSyncLastHeight m) (m_fastSyncPeer m) (m_fastSyncNextHeight m) x
    (m_fastSyncLastRecv m) (m_fastSyncFallback m) (m_finishedIBD m) (m_n m).
Definition set_m_fastSyncLastRecv (x : Z) m : Manager St PS := mkManager
    (m_chain m) (m_mempool m) (m_headerIndex m) (m_scheduler m) (m_peerStore m) (m_timeSampler m) (m_objs m)
    (m_nextObj m) (m_peers m) (m_bestPeerHeight m) (m_banned m) (m_backoff m) (m_backoffN m) (m_nextPeerID m)
    (m_manualPeers m) (m_seenBlocks m) (m_seenTxs m) (m_lastSyncReqPerPeer m) (m_addrCountPerPeer m) (m_syncPeerAddr m)
    (m_syncPeerSince m) (m_lastSyncHeight m) (m_ibdBlockQueue m) (m_syncState m) (m_headerSyncPeerAddr m)
    (m_headerSyncSince m) (m_lastHeaderHeight m) (m_headerSyncStalls m) (m_headerSyncCaughtUp m)
    (m_blockSyncLastProgress m) (m_blockSyncLastHeight m) (m_fastSyncPeer m) (m_fastSyncNextHeight m)
    (m_fastSyncInFlight m) x (m_fastSyncFallback m) (m_finishedIBD m) (m_n m).
Definition set_m_fastSyncFallback (x : bool) m : Manager St PS := mkManager
    (m_chain m) (m_mempool m) (m_headerIndex m) (m_scheduler m) (m_peerStore m) (m_timeSampler m) (m_objs m)
    (m_nextObj m) (m_peers m) (m_bestPeerHeight m) (m_banned m) (m_backoff m) (m_backoffN m) (m_nextPeerID m)
    (m_manualPeers m) (m_seenBlocks m) (m_seenTxs m) (m_lastSyncReqPerPeer m) (m_addrCountPerPeer m) (m_syncPeerAddr m)
    (m_syncPeerSince m) (m_lastSyncHeight m) (m_ibdBlockQueue m) (m_syncState m) (m_headerSyncPeerAddr m)
    (m_headerSyncSince m) (m_lastHeaderHeight m) (m_headerSyncStalls m) (m_headerSyncCaughtUp m)
    (m_blockSyncLastProgress m) (m_blockSyncLastHeight m) (m_fastSyncPeer m) (m_fastSyncNextHeight m)
    (m_fastSyncInFlight m) (m_fastSyncLastRecv m) x (m_finishedIBD m) (m_n m).
Definition set_m_finishedIBD (x : bool) m : Manager St PS := mkManager
    (m_chain m) (m_mempool m) (m_headerIndex m) (m_scheduler m) (m_peerStore m) (m_timeSampler m) (m_objs m)
    (m_nextObj m) (m_peers m) (m_bestPeerHeight m) (m_banned m) (m_backoff m) (m_backoffN m) (m_nextPeerID m)
    (m_manualPeers m) (m_seenBlocks m) (m_seenTxs m) (m_lastSyncReqPerPeer m) (m_addrCountPerPeer m) (m_syncPeerAddr m)
    (m_syncPeerSince m) (m_lastSyncHeight m) (m_ibdBlockQueue m) (m_syncState m) (m_headerSyncPeerAddr m)
    (m_headerSyncSince m) (m_lastHeaderHeight m) (m_headerSyncStalls m) (m_headerSyncCaughtUp m)
    (m_blockSyncLastProgress m) (m_blockSyncLastHeight m) (m_fastSyncPeer m) (m_fastSyncNextHeight m)
    (m_fastSyncInFlight m) (m_fastSyncLastRecv m) (m_fastSyncFallback m) x (m_n m).
Definition set_m_n (x : nat) m : Manager St PS := mkManager
    (m_chain m) (m_mempool m) (m_headerIndex m) (m_scheduler m) (m_peerStore m) (m_timeSampler m) (m_objs m)
    (m_nextObj m) (m_peers m) (m_bestPeerHeight m) (m_banned m) (m_backoff m) (m_backoffN m) (m_nextPeerID m)
    (m_manualPeers m) (m_seenBlocks m) (m_seenTxs m) (m_lastSyncReqPerPeer m) (m_addrCountPerPeer m) (m_syncPeerAddr m)
    (m_syncPeerSince m) (m_lastSyncHeight m) (m_ibdBlockQueue m) (m_syncState m) (m_headerSyncPeerAddr m)
    (m_headerSyncSince m) (m_lastHeaderHeight m) (m_headerSyncStalls m) (m_headerSyncCaughtUp m)
    (m_blockSyncLastProgress m) (m_blockSyncLastHeight m) (m_fastSyncPeer m) (m_fastSyncNextHeight m)
    (m_fastSyncInFlight m) (m_fastSyncLastRecv m) (m_fastSyncFallback m) (m_finishedIBD m) x.
End setters.

