(* ===== verification/Manager.v ===== *)
(** * internal/p2p/manager.go: peers, bans, relay and message handling

    The state of the peer-to-peer manager with the components it drives (chain,
    memory pool, header index, block scheduler, clock samples) and its methods:
    connection admission, the handshake, misbehaviour and bans, relay of blocks
    and transactions, and one handler per message.  The synchronisation state
    machine is in file Sync.

    Peers are shared by pointer: [m_objs] is the store of peer objects and the map
    of peers holds addresses of that store.  A handler is one step.  What the code
    takes from outside are functions indexed by a counter of the manager: the
    clock, random draws, the order of a [range] over a map (any rearrangement),
    and whether a full send queue gets room while a critical message waits. *)
From S2P Require Import Prelude Types Sha256 Target Merkle Params Utxo Keys Script TxValidation.
From S2P Require Import Algorithms Validation Difficulty Pow TimeAdjust BlockFiles Store Chain Heap Mempool.
From S2P Require Import Protocol Headers Scheduler Net Peer ManagerState.

(** ** Constants *)

Definition maxSeenBlocks : Z := 10000.
Definition maxSeenTxs : Z := 50000.
Definition backoffBase : Z := 5 * second.
Definition backoffMax : Z := 10 * 60 * second.
Definition maxHeadersPerPeer : Z := 100000.
Definition maxOutboundPerSubnet : Z := 2.
Definition maxGetDataBlockResponses : Z := 500.
Definition maxDirectPush : nat := 3.
Definition ProtocolVersion : Z := 4.

(** The text of an error, without the arguments of its format (hashes and
    numbers), and [strings.Contains] on it. *)
Fixpoint Error_text (e : error) : string :=
  match e with
  | Errorf msg => msg
  | Wrapf msg cause => msg +:+ ": " +:+ Error_text cause
  | Sentinel name => name
  end.
Definition text_Contains (e : error) (needle : string) : bool :=
  bool_decide (is_Some (String.index 0 needle (Error_text e))).

(** The texts for which a block is taken to be invalid beyond doubt. *)
Definition is_invalid_block (e : error) : bool :=
  text_Contains e "proof of work" || text_Contains e "merkle" || text_Contains e "bits mismatch".

(** The store of addresses, an interface of package store. *)
Class PeerStore (PS : Type) : Type := {
  GetPeers : PS → res (list (list byte));
  PutPeer : list byte → PS → PS
}.

(** ** Shuffling *)

(** The loop from index [i] down to 1; a draw is a 64-bit number. *)
Fixpoint shuffle_loop {A} (draw : nat → Z) (i : nat) (l : list A) : list A :=
  match i with
  | O => l
  | S i' => shuffle_loop draw i' (list_swap i (Z.to_nat (u64 (draw i) mod Z.of_nat (S i))) l)
  end.
Definition shuffle {A} (draw : nat → Z) (l : list A) : list A := shuffle_loop draw (length l - 1) l.

Section manager.
Context {St : Type} `{BlockStore St} `{CryptoLib} {PS : Type} `{PeerStore PS}.
Context (p : ChainParams) (engine : Engine) (cf : Config) (w : World).
(** The clocks of the chain, the pool and the scheduler. *)
Context (cwall cadjusted mwall swall : nat → Z).
Implicit Types m : Manager St PS.
Notation M := (proc (Manager St PS)).

(** ** Reading the outside *)

Definition next : M nat := λ m, (Ok (m_n m), set_m_n (S (m_n m)) m).
Definition now : M Z := n ← next; mret (w_now w n).
Definition range_map {A} (l : list A) : M (list A) := n ← next; mret (w_iter w A n l).
Definition shuffled {A} (l : list A) : M (list A) := n ← next; mret (shuffle (λ i, w_rand w (n * 1000000 + i)) l).

(** The connected peers, in the order of a [range]. *)
Definition range_peers : M (list nat) := m ← gets id; l ← range_map (map_to_list (m_peers m)); mret l.*2.

(** ** Access to a peer through its pointer *)

Definition on_peer {A} (q : nat) (f : Peer → A * Peer) : M A := λ m,
  match m_objs m !! q with
  | None => (Panic, m)
  | Some pr => let '(a, pr') := f pr in (Ok a, set_m_objs (<[q := pr']> (m_objs m)) m)
  end.
Definition peer_is {A} (q : nat) (f : Peer → A) : M A := on_peer q (λ pr, (f pr, pr)).
Definition upd_peer (q : nat) (f : Peer → Peer) : M () := on_peer q (λ pr, ((), f pr)).
Definition send (q : nat) (cmd : string) (payload : list byte) : M () := upd_peer q (SendMessage cmd payload).
Definition send_critical (q : nat) (cmd : string) (payload : list byte) : M () :=
  n ← next; upd_peer q (SendCritical (w_room w n) cmd payload).

Definition on_chain {A} (f : proc (Chain St) A) : M A := on m_chain set_m_chain f.
Definition on_mempool {A} (f : proc Mempool A) : M A := on m_mempool set_m_mempool f.
Definition on_headers {A} (f : proc HeaderIndex A) : M A := on m_headerIndex set_m_headerIndex f.

(** ** Construction *)

(** [Chain.NewHeaderIndex]: the headers of the main chain from height [h] on, up
    to the first that is missing. *)
Fixpoint index_stored (n : nat) (h : Z) (c : Chain St) : proc HeaderIndex () :=
  match n with
  | O => mret ()
  | S n' =>
      match GetHeaderByHeight c h with
      | Panic => pure Panic
      | Err _ => mret ()
      | Ok header => _ ← ignore_err (InsertTrustedHeader header); index_stored n' (u32 (h + 1)) c
      end
  end.
Definition chain_NewHeaderIndex (c : Chain St) : res () * HeaderIndex :=
  index_stored (Z.to_nat (c_tipHeight c)) 1 c (NewHeaderIndex (blk_Header (p_GenesisBlock p))).

(** The manager of a chain, a pool, a store of addresses and a clock. *)
Definition NewManager (c : Chain St) (mp : Mempool) (ps : PS) (ts : AdjustedClock) : res (Manager St PS) :=
  match chain_NewHeaderIndex c with
  | (Panic, _) => Panic
  | (_, idx) =>
      Ok (mkManager c mp idx None ps ts ∅ 0 ∅ 0 ∅ ∅ ∅ 0 ∅ (newBoundedHashSet maxSeenBlocks)
            (newBoundedHashSet maxSeenTxs) ∅ ∅ [] zero_time 0 [] SyncStateInitial [] zero_time 0 0 false zero_time 0
            [] 0 0 zero_time false false 0)
  end.

(** ** Queries *)

Definition peer_objs m : list Peer := omap (λ aq, m_objs m !! aq.2) (map_to_list (m_peers m)).

Definition PeerCount m : Z := Z.of_nat (size (m_peers m)).
Definition IsSyncing m : bool :=
  bool_decide (m_syncState m = SyncStateHeaderSync) || bool_decide (m_syncState m = SyncStateBlockSync).

(** Version 2 and later. *)
Definition peerSupportsHeaders (pr : Peer) : bool :=
  match pr_version pr with None => false | Some v => 2 <=? v_Version v end.

(** The loop over the peers keeps a maximum, which does not depend on the order. *)
Definition peerBestHeightV2 m : Z :=
  foldl (λ best pr, if peerSupportsHeaders pr then if best <? BestHeight pr then BestHeight pr else best else best)
    0 (peer_objs m).

Definition ShouldMine m : bool :=
  match m_syncState m with
  | SyncStateHeaderSync | SyncStateBlockSync => false
  | SyncStateSynced => true
  | SyncStateInitial => if PeerCount m =? 0 then false else peerBestHeightV2 m <=? c_tipHeight (m_chain m)
  end.

Definition BestPeerHeight m : Z :=
  let best := peerBestHeightV2 m in if best =? 0 then m_bestPeerHeight m else best.

Definition ConnectionCounts m : Z * Z :=
  foldl (λ c pr, if pr_inbound pr then (c.1 + 1, c.2) else (c.1, c.2 + 1)) (0, 0) (peer_objs m).
Definition outboundCount m : Z := (ConnectionCounts m).2.
Definition outboundSubnetCount m (sn : list byte) : Z :=
  if bool_decide (sn = []) then 0
  else foldl (λ c pr, if negb (pr_inbound pr) && bool_decide (subnetKey (pr_addr pr) = sn) then c + 1 else c)
         0 (peer_objs m).

Definition NotifyBlockAccepted (header : BlockHeader) : M () :=
  ignore_err (on_headers (InsertTrustedHeader header)).

(** ** Bans *)

Definition BanPeer (addr : list byte) : M () :=
  t ← now; modify (λ m, set_m_banned (<[extractIP addr := t + BanDuration]> (m_banned m)) m).

Definition IsBanned (addr : list byte) : M bool :=
  let ip := extractIP addr in
  expiry ← gets (λ m, m_banned m !! ip);
  match expiry with
  | None => mret false
  | Some expiry =>
      t ← now;
      if expiry <? t then
        _ ← modify (λ m, set_m_banned (delete ip (m_banned m)) m); mret false
      else mret true
  end.

Definition addMisbehavior (q : nat) (score : Z) : M () :=
  addr ← peer_is q pr_addr;
  if bool_decide (addr ∈ cf_connectOnly cf) then mret ()
  else
    newScore ← on_peer q (AddBanScore score);
    if BanThreshold <=? newScore then _ ← BanPeer addr; upd_peer q Close else mret ().

(** The part of [livenessLoop] that forgets expired bans. *)
Definition prune_bans : M () :=
  t ← now; modify (λ m, set_m_banned (filter (λ kv, t ≤ kv.2) (m_banned m)) m).

(** The part that closes silent peers. *)
Definition close_overdue : M () :=
  qs ← range_peers;
  foldP (λ _ q, t ← now; overdue ← peer_is q (PongOverdue t); if overdue : bool then upd_peer q Close else mret ()) () qs.

Definition livenessLoop_tick : M () := _ ← close_overdue; prune_bans.

(** [pingLoop]: a nonce is a random draw. *)
Definition pingLoop_tick : M () :=
  qs ← range_peers;
  foldP (λ _ q,
    n ← next;
    let nonce := u64 (w_rand w n) in
    t ← now;
    _ ← upd_peer q (SetPingNonce nonce t);
    send q "ping" (PingMsg_Encode (mkPingMsg nonce))) () qs.

(** ** Reconnection *)

Definition canReconnect (addr : list byte) : M bool :=
  nxt ← gets (λ m, m_backoff m !! addr);
  match nxt with None => mret true | Some nxt => t ← now; mret (nxt <? t) end.

Definition recordConnectFailure (addr : list byte) : M () :=
  n ← gets (λ m, default 0 (m_backoffN m !! addr) + 1);
  _ ← modify (λ m, set_m_backoffN (<[addr := n]> (m_backoffN m)) m);
  let delay := Z.min (backoffBase * 2 ^ (Z.min n 10)) backoffMax in
  t ← now;
  modify (λ m, set_m_backoff (<[addr := t + delay]> (m_backoff m)) m).

Definition recordConnectSuccess (addr : list byte) : M () :=
  modify (λ m, set_m_backoffN (delete addr (m_backoffN m)) (set_m_backoff (delete addr (m_backoff m)) m)).

(** ** Admission of connections *)

(** [NewPeer] on a connection. *)
Definition new_peer (addr : list byte) (inbound : bool) : M nat :=
  t ← now;
  q ← gets m_nextObj;
  _ ← modify (λ m, set_m_nextObj (S q) (set_m_objs (<[q := NewPeer addr inbound t]> (m_objs m)) m));
  mret q.

(** The slowest inbound peer; [sort.Slice] leaves the order of equal ones open. *)
Definition maybeEvictInbound : M () :=
  qs ← range_peers;
  inbound ← gets (λ m, filter (λ q, pr_inbound <$> m_objs m !! q = Some true) qs);
  if len inbound <? cf_maxInbound cf then mret ()
  else
    lat ← gets (λ m q, default 0 (pr_pingLatency <$> m_objs m !! q));
    match inbound with
    | [] => pure Panic
    | q :: rest => upd_peer (foldl (λ best q, if lat best <? lat q then q else best) q rest) Close
    end.

(** One turn of [acceptLoop] on a connection from [addr]: the new peer, if it is
    admitted.  [recount] is the number of inbound peers after the wait for the
    evicted one to be dropped. *)
Definition accept_conn (addr : list byte) (recount : Z) : M (option nat) :=
  banned ← IsBanned addr;
  if banned : bool then mret None
  else
    inboundCount ← gets (λ m, (ConnectionCounts m).1);
    if cf_maxInbound cf <=? inboundCount then
      _ ← maybeEvictInbound;
      if cf_maxInbound cf <=? recount then mret None else q ← new_peer addr true; mret (Some q)
    else q ← new_peer addr true; mret (Some q).

(** The checks of [connectPeer] before it dials. *)
Definition may_connect m (addr : list byte) : bool :=
  if bool_decide (addr = cf_listenAddr cf) then false
  else if bool_decide (is_Some (m_peers m !! addr)) then false
  else if existsb (λ pr, match pr_version pr with Some v => bool_decide (v_AddrFrom v = addr) | None => false end)
            (peer_objs m) then false
  else
    let host := match SplitHostPort addr with Ok (host, _) => host | _ => [] end in
    if is_loopback_host host then true
    else
      let sn := subnetKey addr in
      negb (negb (bool_decide (sn = [])) && (maxOutboundPerSubnet <=? outboundSubnetCount m sn)).

(** [dial] is the address of the connection, if dialling succeeds. *)
Definition connectPeer (addr : list byte) (dial : option (list byte)) : M (option nat) :=
  ok ← gets (λ m, may_connect m addr);
  if negb ok then mret None
  else
    banned ← IsBanned addr;
    if banned : bool then mret None
    else match dial with
         | None => _ ← recordConnectFailure addr; mret None
         | Some remote => q ← new_peer remote false; mret (Some q)
         end.

(** [AddNode] up to the start of [connectPeer]. *)
Definition AddNode (LookupIP : list byte → res (list IP)) (addr : list byte) : M () :=
  _ ← pure (wrap "invalid address %q" (validatePeerAddress LookupIP addr));
  banned ← IsBanned addr;
  _ ← pure (fail_if banned (Errorf "node %s is banned"));
  exists_ ← gets (λ m, bool_decide (is_Some (m_peers m !! addr)));
  _ ← pure (fail_if exists_ (Errorf "already connected to %s"));
  modify (λ m, set_m_manualPeers ({[addr]} ∪ m_manualPeers m) m).

Definition DisconnectNode (addr : list byte) : M () :=
  target ← gets (λ m, m_peers m !! addr);
  match target with None => throw (Errorf "peer %s not found") | Some q => upd_peer q Close end.

(** ** The handshake *)

Definition version_msg m (q : nat) (t : Z) (addr : list byte) : VersionMsg :=
  mkVersionMsg ProtocolVersion 1 (t / second) addr (cf_listenAddr cf) (cf_localNonce cf) (cf_userAgent cf)
    (c_tipHeight (m_chain m)).

(** The bytes [sendVersion] and [sendVerack] write. *)
Definition sendVersion (q : nat) : M (list byte) :=
  addr ← peer_is q pr_addr;
  t ← now;
  msg ← gets (λ m, version_msg m q t addr);
  mret (write_message (p_NetworkMagic p) (str "version", VersionMsg_Encode msg)).
Definition sendVerack : list byte := EncodeMessageHeader (p_NetworkMagic p) (str "verack") [].

Definition expect_command (cmd : string) (hdr : MessageHeader) : res () :=
  fail_if (negb (bool_decide (CommandString hdr = str cmd))) (Errorf "expected %s, got %s").

(** [read] is what [ReadMessage] returns. *)
Definition readAndProcessVersion (q : nat) (read : res (MessageHeader * list byte)) : M () :=
  msg ← pure (wrap "read version" read);
  let '(hdr, payload) := msg in
  _ ← pure (expect_command "version" hdr);
  tv ← pure (wrap "decode version" (VersionMsg_Decode payload));
  let theirVersion : VersionMsg := tv.1 in
  _ ← pure (fail_if (v_Nonce theirVersion =? cf_localNonce cf) (Errorf "self-connection detected"));
  _ ← pure (fail_if (v_Version theirVersion <? MinPeerProtoVersion)
              (Errorf "peer protocol version %d below minimum %d"));
  _ ← pure (fail_if (MaxPeerStartHeight <? v_StartHeight theirVersion)
              (Errorf "peer start height %d exceeds sanity limit %d"));
  _ ← upd_peer q (set_pr_version (Some theirVersion));
  if cf_hasSampler cf && negb (v_Timestamp theirVersion =? 0) then
    addr ← peer_is q pr_addr;
    t ← now;
    clk ← asks (λ m, AddSample (m_timeSampler m) (t / second) (String.string_of_list_byte addr) (v_Timestamp theirVersion));
    modify (set_m_timeSampler clk)
  else mret ().

Definition readVerack (read : res (MessageHeader * list byte)) : res () :=
  '(hdr, _) ← wrap "read verack" read; expect_command "verack" hdr.

(** The bytes written, in order; a failed write ends the handshake and the
    connection, and is not modelled. *)
Definition handshakeOutbound (q : nat) (read1 read2 : res (MessageHeader * list byte)) : M (list byte) :=
  out ← sendVersion q;
  _ ← readAndProcessVersion q read1;
  _ ← pure (readVerack read2);
  mret (out ++ sendVerack).
Definition handshakeInbound (q : nat) (read1 read2 : res (MessageHeader * list byte)) : M (list byte) :=
  _ ← readAndProcessVersion q read1;
  out ← sendVersion q;
  _ ← pure (readVerack read2);
  mret (out ++ sendVerack).
Definition handshake (q : nat) (read1 read2 : res (MessageHeader * list byte)) : M (list byte) :=
  inbound ← peer_is q pr_inbound;
  if inbound : bool then handshakeInbound q read1 read2 else handshakeOutbound q read1 read2.

(** ** The life of a connection *)

(** [handlePeer] after the handshake: the peer is registered and greeted. *)
Definition register_peer (q : nat) : M () :=
  addr ← peer_is q pr_addr;
  version ← peer_is q pr_version;
  match version with
  | None => pure Panic
  | Some v =>
      _ ← recordConnectSuccess addr;
      _ ← modify (λ m, set_m_nextPeerID (i32 (m_nextPeerID m + 1)) m);
      pid ← gets m_nextPeerID;
      _ ← upd_peer q (set_pr_id pid);
      manual ← gets (λ m, bool_decide (addr ∈ m_manualPeers m));
      _ ← (if manual : bool then upd_peer q (set_pr_connType "manual") else mret ());
      _ ← modify (λ m, set_m_peers (<[addr := q]> (m_peers m)) m);
      _ ← modify (λ m, if m_bestPeerHeight m <? v_StartHeight v then set_m_bestPeerHeight (v_StartHeight v) m else m);
      let listenAddr := v_AddrFrom v in
      _ ← (if negb (bool_decide (listenAddr = [])) && negb (bool_decide (listenAddr = cf_listenAddr cf)) &&
              is_ok (validateGossipAddress listenAddr (isLocalLoopback (cf_listenAddr cf)))
           then modify (λ m, set_m_peerStore (PutPeer listenAddr (m_peerStore m)) m)
           else if negb (bool_decide (addr = cf_listenAddr cf))
           then modify (λ m, set_m_peerStore (PutPeer addr (m_peerStore m)) m)
           else mret ());
      _ ← (if 2 <=? v_Version v then send q "sendheaders" [] else mret ());
      send q "getaddr" []
  end.

(** [handlePeer] up to its loop: the result says that the loop is entered. *)
Definition open_peer (q : nat) (read1 read2 : res (MessageHeader * list byte)) : M bool :=
  ok ← catch (_ ← handshake q read1 read2; mret true) (λ _,
    inbound ← peer_is q pr_inbound;
    addr ← peer_is q pr_addr;
    _ ← (if negb inbound then recordConnectFailure addr else mret ());
    mret false);
  if ok : bool then _ ← register_peer q; mret true else mret false.

(** The deferred function of [handlePeer]; [panicked] says that it recovers. *)
Definition drop_peer (q : nat) (panicked : bool) : M () :=
  _ ← (if panicked then addMisbehavior q 100 else mret ());
  _ ← upd_peer q Close;
  addr ← peer_is q pr_addr;
  _ ← modify (λ m, set_m_peers (delete addr (m_peers m)) m);
  _ ← modify (λ m, set_m_addrCountPerPeer (delete addr (m_addrCountPerPeer m)) m);
  _ ← modify (λ m, set_m_lastSyncReqPerPeer (delete addr (m_lastSyncReqPerPeer m)) m);
  sch ← gets m_scheduler;
  _ ← match sch with
      | None => mret ()
      | Some s =>
          it ← range_map (map_to_list (bs_inFlight s));
          modify (set_m_scheduler (Some (Scheduler.RemovePeer (String.string_of_list_byte addr) it s)))
      end;
  _ ← modify (λ m, if bool_decide (m_fastSyncPeer m = addr) then set_m_fastSyncPeer [] m else m);
  modify (λ m, set_m_bestPeerHeight (foldl (λ best pr, Z.max best (BestHeight pr)) 0 (peer_objs m)) m).

(** ** Relay *)

Definition BroadcastTx (hash : Hash) : M () :=
  _ ← modify (λ m, set_m_seenTxs (Add hash (m_seenTxs m)) m);
  let payload := InvMsg_Encode (mkInvMsg [mkInvVector InvTypeTx hash]) in
  qs ← range_peers;
  foldP (λ _ q,
    known ← peer_is q (HasKnownInventory hash);
    if known : bool then mret ()
    else _ ← upd_peer q (AddKnownInventory hash); send q "inv" payload) () qs.

(** The first peers get the block, the others its header or its hash. *)
Definition announce_block (hash : Hash) (block : Block) (i : nat) (q : nat) : M nat :=
  _ ← upd_peer q (AddKnownInventory hash);
  prefers ← peer_is q pr_prefersHeaders;
  _ ← (if bool_decide (i < maxDirectPush)%nat then send_critical q "block" (Block_SerializeToBytes block)
       else if prefers : bool then send_critical q "headers" (HeadersMsg_Encode (mkHeadersMsg [blk_Header block]))
       else send_critical q "inv" (InvMsg_Encode (mkInvMsg [mkInvVector InvTypeBlock hash])));
  mret (S i).

Definition BroadcastBlock (hash : Hash) (block : Block) : M () :=
  _ ← modify (λ m, set_m_seenBlocks (Add hash (m_seenBlocks m)) m);
  qs ← range_peers;
  eligible ← gets (λ m, filter (λ q, HasKnownInventory hash <$> m_objs m !! q = Some false) qs);
  eligible ← shuffled eligible;
  _ ← foldP (announce_block hash block) 0%nat eligible;
  mret ().

(** ** Requests *)

(** Sends to [q], and when its queue is full to the first other peer with room. *)
Definition send_with_fallback (q : nat) (cmd : string) (payload : list byte) : M () :=
  sent ← on_peer q (TrySendMessage cmd payload);
  if sent : bool then mret ()
  else
    qs ← range_peers;
    candidates ← shuffled (filter (λ q', q' ≠ q) qs);
    _ ← foldP (λ done q', if done : bool then mret true else on_peer q' (TrySendMessage cmd payload)) false candidates;
    mret ().

Definition requestBlocks (q : nat) : M () :=
  addr ← peer_is q pr_addr;
  syncing ← gets IsSyncing;
  throttled ← (if syncing : bool then mret false else
                 t ← now;
                 last ← gets (λ m, default zero_time (m_lastSyncReqPerPeer m !! addr));
                 mret (time_Sub t last <? 500000000));
  if throttled : bool then mret ()
  else
    t ← now;
    _ ← modify (λ m, set_m_lastSyncReqPerPeer (<[addr := t]> (m_lastSyncReqPerPeer m)) m);
    locator ← gets (λ m, BlockLocator (m_chain m));
    if bool_decide (locator = []) then mret ()
    else send_with_fallback q "getblocks" (GetBlocksMsg_Encode (mkGetBlocksMsg ProtocolVersion locator ZeroHash)).

Definition requestOrphanParent (q : nat) (parentHash : Hash) : M () :=
  send_with_fallback q "getdata" (GetDataMsg_Encode (mkGetDataMsg [mkInvVector InvTypeBlock parentHash])).

Definition requestHeaders (q : nat) : M () :=
  locator ← gets (λ m, HeaderLocator (m_headerIndex m));
  if bool_decide (locator = []) then mret ()
  else send q "getheaders" (GetHeadersMsg_Encode (mkGetHeadersMsg ProtocolVersion locator ZeroHash)).

Definition get_data (q : nat) (hashes : list Hash) : M () :=
  send q "getdata" (GetDataMsg_Encode (mkGetDataMsg (mkInvVector InvTypeBlock <$> hashes))).

(** ** Inventory *)

Definition wanted m (iv : InvVector) : bool :=
  if iv_Type iv =? InvTypeBlock then negb (HasBlockOnChain (m_chain m) (iv_Hash iv))
  else if iv_Type iv =? InvTypeTx then negb (HasTx (m_mempool m) (iv_Hash iv))
  else false.

Definition handleInv (q : nat) (inv : InvMsg) : M () :=
  syncing ← gets IsSyncing;
  if syncing : bool then mret ()
  else
    needed ← foldP (λ needed iv,
      _ ← upd_peer q (AddKnownInventory (iv_Hash iv));
      want ← gets (λ m, wanted m iv);
      mret (if want : bool then needed ++ [iv] else needed)) [] (inv_Inventory inv);
    if bool_decide (needed = []) then mret () else send q "getdata" (GetDataMsg_Encode (mkGetDataMsg needed)).

Definition serve_item (q : nat) (sentBlocks : Z) (iv : InvVector) : M Z :=
  if iv_Type iv =? InvTypeBlock then
    if maxGetDataBlockResponses <=? sentBlocks then mret sentBlocks
    else
      r ← gets (λ m, GetBlock (c_store (m_chain m)) (iv_Hash iv));
      match r with
      | Ok block => _ ← send q "block" (Block_SerializeToBytes block); mret (sentBlocks + 1)
      | Err _ => mret sentBlocks
      | Panic => pure Panic
      end
  else if iv_Type iv =? InvTypeTx then
    r ← gets (λ m, GetTx (m_mempool m) (iv_Hash iv));
    match r with
    | Some tx => _ ← send q "tx" (Transaction_SerializeToBytes tx); mret sentBlocks
    | None => mret sentBlocks
    end
  else mret sentBlocks.

Definition handleGetData (q : nat) (getData : GetDataMsg) : M () :=
  _ ← foldP (serve_item q) 0 (gd_Inventory getData); mret ().

(** ** Serving headers and hashes *)

Fixpoint find_start (c : Chain St) (locator : list Hash) : Z :=
  match locator with
  | [] => 0
  | hash :: locator' => let '(height, ok) := FindMainChainHash c hash in if ok then height else find_start c locator'
  end.

(** The headers from height [h] on, at most [n], up to the one with hash [stop]. *)
Fixpoint headers_from (n : nat) (c : Chain St) (h tipHeight : Z) (stop : Hash) : res (list BlockHeader) :=
  match n with
  | O => Ok []
  | S n' =>
      if h <=? tipHeight then
        match GetHeaderByHeight c h with
        | Panic => Panic
        | Err _ => Ok []
        | Ok header =>
            if bool_decide (HashBlockHeader header = stop) then Ok [header]
            else rest ← headers_from n' c (u32 (h + 1)) tipHeight stop; Ok (header :: rest)
        end
      else Ok []
  end.

Definition serve_headers (limit : nat) (c : Chain St) (locator : list Hash) (stop : Hash) : res (list BlockHeader) :=
  headers_from limit c (u32 (find_start c locator + 1)) (c_tipHeight c) stop.

Definition handleGetBlocks (q : nat) (msg : GetBlocksMsg) : M () :=
  syncing ← gets IsSyncing;
  go ← (if syncing : bool then t ← now; t' ← now; on_peer q (CheckGetBlocksThrottle t t') else mret true);
  if negb go then mret ()
  else
    headers ← asks (λ m, serve_headers 500 (m_chain m) (gb_BlockLocatorHashes msg) (gb_HashStop msg));
    let hashes := HashBlockHeader <$> headers in
    _ ← foldP (λ _ hash, upd_peer q (AddKnownInventory hash)) () hashes;
    if bool_decide (hashes = []) then mret ()
    else send q "inv" (InvMsg_Encode (mkInvMsg (mkInvVector InvTypeBlock <$> hashes))).

Definition handleGetHeaders (q : nat) (msg : GetHeadersMsg) : M () :=
  syncing ← gets IsSyncing;
  go ← (if syncing : bool then mret true else t ← now; t' ← now; on_peer q (CheckGetHeadersThrottle t t'));
  if negb go then mret ()
  else if gh_Version msg <? 2 then addMisbehavior q 10
  else
    headers ← asks (λ m, serve_headers (Z.to_nat MaxHeadersPerMsg) (m_chain m) (gh_BlockLocatorHashes msg) (gh_HashStop msg));
    if bool_decide (headers = []) then mret () else send q "headers" (HeadersMsg_Encode (mkHeadersMsg headers)).

(** ** Headers *)

(** Each header names the one before it. *)
Fixpoint in_sequence (headers : list BlockHeader) : bool :=
  match headers with
  | h1 :: ((h2 :: _) as rest) => bool_decide (hdr_PrevBlock h2 = HashBlockHeader h1) && in_sequence rest
  | _ => true
  end.

(** When synced, the bodies of headers just above the tip are requested. *)
Definition request_next_bodies (q : nat) (headers : list BlockHeader) : M () :=
  state ← gets m_syncState;
  if bool_decide (state = SyncStateSynced) then
    tipHeight ← gets (λ m, c_tipHeight (m_chain m));
    foldP (λ _ h,
      let hdrHash := HashBlockHeader h in
      height ← gets (λ m, (λ r, hn_Height (node (m_headerIndex m) r)) <$> GetHeaderNode (m_headerIndex m) hdrHash);
      if bool_decide (height = Some (u32 (tipHeight + 1))) then get_data q [hdrHash] else mret ()) () headers
  else mret ().

Definition handleHeaders (q : nat) (msg : HeadersMsg) : M () :=
  match hm_Headers msg with
  | [] => mret ()
  | first :: _ =>
      let headers := hm_Headers msg in
      if MaxHeadersPerMsg <? len headers then addMisbehavior q 100
      else
        total ← on_peer q (AddHeadersReceived (len headers));
        if maxHeadersPerPeer <? total then addMisbehavior q 100
        else
          connects ← gets (λ m, HasHeader (m_headerIndex m) (hdr_PrevBlock first));
          if negb connects then mret ()
          else if negb (in_sequence headers) then addMisbehavior q 100
          else
            t ← now;
            r ← on_headers (AddHeaders p engine headers (u32 (t / second)));
            let '(added, err) := r in
            _ ← match err with
                | Some e =>
                    if (added =? 0) && (text_Contains e "proof of work" || text_Contains e "bits mismatch" ||
                                        text_Contains e "difficulty")
                    then addMisbehavior q 100 else mret ()
                | None => mret ()
                end;
            if 0 <? added then
              bestH ← gets (λ m, BestHeaderHeight (m_headerIndex m));
              _ ← upd_peer q (set_pr_syncedHeaders (i32 bestH));
              _ ← (if len headers =? MaxHeadersPerMsg then requestHeaders q
                   else
                     addr ← peer_is q pr_addr;
                     modify (λ m, if bool_decide (addr = m_headerSyncPeerAddr m) then set_m_headerSyncCaughtUp true m else m));
              request_next_bodies q headers
            else mret ()
  end.

(** ** Blocks *)

Definition confirm_transactions (block : Block) : M () :=
  modify (λ m, set_m_mempool (RemoveTxs (HashTransaction <$> blk_Transactions block) (m_mempool m)) m).

(** What follows the acceptance of a block from a peer. *)
Definition block_accepted (q : nat) (block : Block) (height : Z) : M () :=
  _ ← NotifyBlockAccepted (blk_Header block);
  _ ← confirm_transactions block;
  _ ← upd_peer q (SetStartHeightIfGreater height);
  t ← now;
  _ ← upd_peer q (set_pr_lastBlockTime (t / second));
  _ ← upd_peer q (λ pr, set_pr_syncedHeaders (i32 height) (set_pr_syncedBlocks (i32 height) pr));
  modify (λ m, if m_bestPeerHeight m <? height then set_m_bestPeerHeight height m else m).

Definition forget_block (hash : Hash) : M () :=
  modify (λ m, set_m_seenBlocks (Remove hash (m_seenBlocks m)) m).

(** A new scheduler for the blocks above the tip. *)
Definition start_scheduler : M () :=
  n ← next;
  modify (λ m,
    let tip := c_tipHeight (m_chain m) in
    set_m_scheduler (Some (Populate (m_headerIndex m) tip (with_clock n (NewBlockScheduler tip)))) m).

(** The hashes the scheduler waits for are no longer taken as seen. *)
Definition forget_expected : M () :=
  sch ← gets m_scheduler;
  match sch with
  | None => mret ()
  | Some s =>
      it1 ← range_map (map_to_list (bs_inFlight s));
      it2 ← range_map (map_to_list (bs_staging s));
      foldP (λ _ h, forget_block h) () (ExpectedHashes s it1 it2)
  end.

(** The block may be worked on: it was not seen, or the scheduler asked for it. *)
Definition admit_block (blockHash : Hash) : M bool :=
  m ← gets id;
  let '(seen, set) := AddOrHas blockHash (m_seenBlocks m) in
  _ ← modify (set_m_seenBlocks set);
  if seen : bool then
    match m_scheduler m with
    | Some s => if IsInFlight s blockHash then _ ← forget_block blockHash; mret true else mret false
    | None => mret false
    end
  else mret true.

(** A block from the peer of the fast synchronisation. *)
Definition fast_sync_block (q : nat) (block : Block) : M () :=
  addr ← peer_is q pr_addr;
  fast ← gets m_fastSyncPeer;
  if negb (bool_decide (addr = fast)) then mret ()
  else
    r ← on_chain (ProcessBlockTrustedHeader p engine cwall cadjusted block);
    match r with
    | (_, Some e) =>
        if errors_Is e ErrSideChain || text_Contains e "already in chain" then
          modify (λ m, set_m_fastSyncInFlight (m_fastSyncInFlight m - 1) m)
        else
          _ ← (if is_invalid_block e then addMisbehavior q 100 else mret ());
          _ ← modify (λ m, set_m_fastSyncFallback true (set_m_fastSyncPeer [] m));
          tipH ← gets (λ m, c_tipHeight (m_chain m));
          _ ← start_scheduler;
          t ← now;
          _ ← modify (λ m, set_m_blockSyncLastHeight tipH (set_m_blockSyncLastProgress t m));
          forget_expected
    | (_, None) =>
        _ ← modify (λ m, set_m_fastSyncInFlight (m_fastSyncInFlight m - 1) m);
        t ← now;
        _ ← modify (set_m_fastSyncLastRecv t);
        confirm_transactions block
    end.

(** A block while the scheduler runs: true when the scheduler took it; the peer
    is given new work at once. *)
Definition scheduler_block (q : nat) (blockHash : Hash) (block : Block) (s : BlockScheduler) : M bool :=
  addr ← peer_is q pr_addr;
  best ← peer_is q BestHeight;
  let a := String.string_of_list_byte addr in
  let '(took, s) := BlockReceived swall blockHash block a s in
  _ ← modify (set_m_scheduler (Some s));
  if took : bool then
    let '(hashes, s) := AssignWork swall a DefaultMaxInFlightPerPeer best s in
    _ ← modify (set_m_scheduler (Some s));
    _ ← (if bool_decide (hashes = []) then mret () else get_data q hashes);
    mret true
  else mret false.

(** A block that the chain did not connect. *)
Definition block_refused (q : nat) (block : Block) (e : error) : M () :=
  let blockHash := HashBlockHeader (blk_Header block) in
  if errors_Is e ErrSideChain then mret ()
  else
    _ ← forget_block blockHash;
    if errors_Is e ErrOrphanBlock then
      _ ← requestOrphanParent q (hdr_PrevBlock (blk_Header block)); requestBlocks q
    else if text_Contains e "already in chain" then mret ()
    else if is_invalid_block e then addMisbehavior q 100
    else syncing ← gets IsSyncing; if negb syncing then addMisbehavior q 10 else mret ().

Definition process_block (q : nat) (block : Block) : M () :=
  r ← on_chain (ProcessBlock p engine cwall cadjusted block);
  match r with
  | (_, Some e) => block_refused q block e
  | (height, None) =>
      _ ← block_accepted q block height;
      _ ← BroadcastBlock (HashBlockHeader (blk_Header block)) block;
      best ← peer_is q BestHeight;
      if height <? best then requestBlocks q else mret ()
  end.

(** A block of the older protocol, in the goroutine of [ibdProcessLoop]. *)
Definition processIBDBlock (item : Block * nat) : M () :=
  let '(block, q) := item in
  let blockHash := HashBlockHeader (blk_Header block) in
  r ← on_chain (ProcessBlock p engine cwall cadjusted block);
  match r with
  | (_, Some e) =>
      if errors_Is e ErrSideChain then mret ()
      else if errors_Is e ErrOrphanBlock then
        _ ← requestOrphanParent q (hdr_PrevBlock (blk_Header block)); requestBlocks q
      else
        _ ← forget_block blockHash;
        if text_Contains e "already in chain" then mret ()
        else if is_invalid_block e || text_Contains e "exceeds target" || text_Contains e "PoW check failed"
        then addMisbehavior q 100 else mret ()
  | (height, None) => block_accepted q block height
  end.

(** [m.ibdBlockQueue <- item].  The channel holds 1024 items.  When it is full the
    sender waits until [ibdProcessLoop] receives the first item, which makes room
    for the new one; that goroutine then processes the item it received, before
    or after the sender goes on. *)
Definition ibdQueueSize : Z := 1024.
Definition ibd_send (item : Block * nat) : M () :=
  queue ← gets m_ibdBlockQueue;
  if len queue <? ibdQueueSize then modify (set_m_ibdBlockQueue (queue ++ [item]))
  else
    _ ← modify (set_m_ibdBlockQueue (drop 1 queue ++ [item]));
    match queue with
    | first :: _ => processIBDBlock first
    | [] => mret ()
    end.

(** The part of [handleBlock] after the fast synchronisation and the scheduler. *)
Definition handle_other_block (q : nat) (block : Block) : M () :=
  m ← gets id;
  if bool_decide (m_syncState m = SyncStateHeaderSync) then mret ()
  else if IsSyncing m && bool_decide (m_scheduler m = None) then
    _ ← ibd_send (block, q);
    best ← peer_is q BestHeight;
    if 0 <? best then requestBlocks q else mret ()
  else process_block q block.

Definition handleBlock (q : nat) (block : Block) : M () :=
  let blockHash := HashBlockHeader (blk_Header block) in
  _ ← upd_peer q (AddKnownInventory blockHash);
  go ← admit_block blockHash;
  if negb go then mret ()
  else
    m ← gets id;
    if bool_decide (m_syncState m = SyncStateBlockSync) && negb (bool_decide (m_fastSyncPeer m = [])) then
      fast_sync_block q block
    else
      match m_scheduler m with
      | Some s =>
          if bool_decide (m_syncState m = SyncStateBlockSync) then
            took ← scheduler_block q blockHash block s;
            if took : bool then mret () else handle_other_block q block
          else handle_other_block q block
      | None => handle_other_block q block
      end.

(** ** Transactions *)

Definition handleTx (q : nat) (tx : Transaction) : M () :=
  let txHash := HashTransaction tx in
  _ ← upd_peer q (AddKnownInventory txHash);
  m ← gets id;
  let '(seen, set) := AddOrHas txHash (m_seenTxs m) in
  _ ← modify (set_m_seenTxs set);
  if seen : bool then mret ()
  else
    r ← gets (λ m, Mempool.AddTx p mwall (c_utxoSet (m_chain m)) (c_tipHeight (m_chain m)) tx (m_mempool m));
    _ ← modify (set_m_mempool r.2);
    match r.1 with
    | Panic => pure Panic
    | Err _ => mret ()
    | Ok _ => t ← now; _ ← upd_peer q (set_pr_lastTxTime (t / second)); BroadcastTx txHash
    end.

(** ** Addresses *)

Definition maxAddrPerPeer : Z := 1000.

Definition handleAddr (q : nat) (msg : AddrMsg) : M () :=
  addr ← peer_is q pr_addr;
  received ← gets (λ m, default 0 (m_addrCountPerPeer m !! addr));
  let remaining := maxAddrPerPeer - received in
  if remaining <=? 0 then mret ()
  else
    let addrs := take (Z.to_nat remaining) (addr_Addresses msg) in
    _ ← modify (λ m, set_m_addrCountPerPeer (<[addr := received + len addrs]> (m_addrCountPerPeer m)) m);
    foldP (λ _ a,
      banned ← IsBanned a;
      if negb banned && negb (bool_decide (a = cf_listenAddr cf)) &&
         is_ok (validateGossipAddress a (isLocalLoopback (cf_listenAddr cf)))
      then modify (λ m, set_m_peerStore (PutPeer a (m_peerStore m)) m)
      else mret ()) () addrs.

(** The addresses of [l] that are new, while there are fewer than [limit]. *)
Fixpoint gather (limit : nat) (l acc : list (list byte)) : list (list byte) :=
  match l with
  | [] => acc
  | a :: l' =>
      if bool_decide (limit ≤ length acc)%nat then acc
      else if bool_decide (a = cf_listenAddr cf) || bool_decide (a ∈ acc) then gather limit l' acc
      else gather limit l' (acc ++ [a])
  end.

Definition gatherAddresses (limit : nat) : M (list (list byte)) :=
  qs ← range_peers;
  connected ← gets (λ m, omap (λ q, (λ pr,
    match pr_version pr with
    | Some v => if bool_decide (v_AddrFrom v = []) then pr_addr pr else v_AddrFrom v
    | None => pr_addr pr
    end) <$> m_objs m !! q) qs);
  stored ← gets (λ m, match GetPeers (m_peerStore m) with Ok l => l | _ => [] end);
  shuffled (gather limit stored (gather limit connected [])).

Definition handleGetAddr (q : nat) : M () :=
  first ← on_peer q MarkGetAddrResponded;
  if negb first then mret ()
  else
    addrs ← gatherAddresses 1000;
    if bool_decide (addrs = []) then mret () else send q "addr" (AddrMsg_Encode (mkAddrMsg addrs)).

(** ** Dispatch *)

(** Decodes the payload (bytes after the message are ignored) or punishes. *)
Definition decoded {A} (q : nat) (score : Z) (r : reader A) (payload : list byte) (k : A → M ()) : M () :=
  match r payload with
  | Ok (a, _) => k a
  | Err _ => addMisbehavior q score
  | Panic => pure Panic
  end.

Definition handlePing (q : nat) (ping : PingMsg) : M () :=
  send q "pong" (PongMsg_Encode (mkPongMsg (ping_Nonce ping))).
Definition handle_pong (q : nat) (pong : PongMsg) : M () :=
  t ← now; t' ← now;
  ok ← on_peer q (HandlePong (pong_Nonce pong) t t');
  if negb ok then addMisbehavior q 1 else mret ().

Definition handleMessage (q : nat) (cmd payload : list byte) : M () :=
  let cmd_is c := bool_decide (cmd = str c) in
  if cmd_is "ping" then decoded q 1 PingMsg_Decode payload (handlePing q)
  else if cmd_is "pong" then decoded q 1 PongMsg_Decode payload (handle_pong q)
  else if cmd_is "inv" then decoded q 20 InvMsg_Decode payload (handleInv q)
  else if cmd_is "getdata" then decoded q 20 GetDataMsg_Decode payload (handleGetData q)
  else if cmd_is "block" then decoded q 20 Block_Deserialize payload (handleBlock q)
  else if cmd_is "tx" then decoded q 10 Transaction_Deserialize payload (handleTx q)
  else if cmd_is "getblocks" then decoded q 10 GetBlocksMsg_Decode payload (handleGetBlocks q)
  else if cmd_is "getheaders" then
    v2 ← peer_is q peerSupportsHeaders;
    if negb v2 then addMisbehavior q 10 else decoded q 10 GetHeadersMsg_Decode payload (handleGetHeaders q)
  else if cmd_is "headers" then
    v2 ← peer_is q peerSupportsHeaders;
    if negb v2 then addMisbehavior q 10 else decoded q 20 HeadersMsg_Decode payload (handleHeaders q)
  else if cmd_is "sendheaders" then upd_peer q (set_pr_prefersHeaders true)
  else if cmd_is "addr" then decoded q 10 AddrMsg_Decode payload (handleAddr q)
  else if cmd_is "getaddr" then handleGetAddr q
  else mret ().

(** Messages that are not counted against the rate limit. *)
Definition rate_exempt (cmd : list byte) : bool :=
  bool_decide (cmd ∈ str <$> ["block"; "headers"; "getheaders"; "getdata"; "getblocks"; "ping"; "pong"]).

(** One turn of the loop of [handlePeer] on a message; false ends the loop. *)
Definition peer_turn (q : nat) (cmd payload : list byte) : M bool :=
  t ← now;
  within ← on_peer q (CheckRateLimit t);
  stop ← (if negb within && negb (rate_exempt cmd) then
            _ ← addMisbehavior q 10;
            score ← peer_is q pr_banScore;
            mret (BanThreshold <=? score)
          else mret false);
  if stop : bool then mret false else _ ← handleMessage q cmd payload; mret true.
End manager.
