(* ===== verification/Sync.v ===== *)
(** * internal/p2p/manager.go: synchronisation and the periodic tasks

    The state machine INITIAL, HEADER_SYNC, BLOCK_SYNC, SYNCED with one tick per
    state; the queue of blocks of the older protocol; and one tick of the loops
    that reconnect, gossip addresses and expire orphans and transactions. *)
From S2P Require Import Prelude Types Sha256 Target Merkle Params Utxo Keys Script TxValidation.
From S2P Require Import Algorithms Validation Difficulty Pow TimeAdjust BlockFiles Store Chain Heap Mempool.
From S2P Require Import Protocol Headers Scheduler Net Peer ManagerState Manager.

Definition headerSyncStallTimeout : Z := 30 * second.
Definition blockSyncStallTimeout : Z := 15 * second.
Definition maxStallsBeforeRotate : Z := 3.
Definition maxStallsBeforeBan : Z := 10.
Definition fastSyncBatchSize : Z := 500.
Definition fastSyncPipelineDepth : Z := 2.
Definition fastSyncMaxInFlight : Z := fastSyncBatchSize * fastSyncPipelineDepth.
Definition fastSyncStallTimeout : Z := 15 * second.

Section sync.
Context {St : Type} `{BlockStore St} `{CryptoLib} {PS : Type} `{PeerStore PS}.
Context (p : ChainParams) (engine : Engine) (cf : Config) (w : World).
Context (cwall cadjusted mwall swall : nat → Z).
Implicit Types m : Manager St PS.
Notation M := (proc (Manager St PS)).

Definition transitionSyncState (newState : SyncState) : M () := modify (set_m_syncState newState).
Definition tip_height m : Z := c_tipHeight (m_chain m).
Definition is_tip_stale : M bool := on_chain (IsTipStale p cwall).

(** ** Initial block download *)

Definition isInitialBlockDownload : M bool :=
  finished ← gets m_finishedIBD;
  if finished : bool then mret false
  else
    tipStale ← is_tip_stale;
    m ← gets id;
    if tipStale : bool then mret true
    else if u32 (tip_height m + 2) <? peerBestHeightV2 m then mret true
    else _ ← modify (set_m_finishedIBD true); mret false.

(** ** Choosing a peer *)

(** The first peer of greatest height among those that [ok] admits. *)
Definition tallest (ok : Peer → bool) (ourHeight : Z) m (qs : list nat) : option nat :=
  (foldl (λ best q,
    match m_objs m !! q with
    | Some pr => if ok pr && (ourHeight <? BestHeight pr) && (best.2 <? BestHeight pr) then (Some q, BestHeight pr) else best
    | None => best
    end) (None, 0) qs).1.

Definition selectHeaderSyncPeer : M (option nat) :=
  qs ← range_peers w; gets (λ m, tallest peerSupportsHeaders (tip_height m) m qs).
Definition selectLegacySyncPeer : M (option nat) :=
  qs ← range_peers w; gets (λ m, tallest (λ _, true) (tip_height m) m qs).

Definition fast_candidate (headerHeight : Z) m (best : option nat * Z * Z) (q : nat) : option nat * Z * Z :=
  match m_objs m !! q with
  | None => best
  | Some pr =>
      let h := BestHeight pr in
      if negb (peerSupportsHeaders pr) then best
      else if u32 (headerHeight + 500) <? h then best
      else
        let ping := if pr_pingLatency pr =? 0 then 500000000 else pr_pingLatency pr in
        if (best.1.2 <? h) || ((h =? best.1.2) && (ping <? best.2)) then (Some q, h, ping) else best
  end.
Definition selectFastSyncPeer : M (option nat) :=
  qs ← range_peers w;
  gets (λ m, (foldl (fast_candidate (BestHeaderHeight (m_headerIndex m)) m) (None, 0, 0) qs).1.1).

(** ** INITIAL *)

Definition request_from_all : M () :=
  qs ← range_peers w; foldP (λ _ q, requestBlocks w q) () qs.

(** The peer becomes the one headers are taken from. *)
Definition begin_header_sync (q : nat) : M () :=
  addr ← peer_is q pr_addr;
  t ← now w;
  _ ← modify (λ m, set_m_headerSyncCaughtUp false (set_m_headerSyncStalls 0 (set_m_lastHeaderHeight
        (BestHeaderHeight (m_headerIndex m)) (set_m_headerSyncSince t (set_m_headerSyncPeerAddr addr m)))));
  t ← now w;
  modify (λ m, set_m_syncPeerSince t (set_m_syncPeerAddr addr m)).

Definition handleSyncInitial : M () :=
  m ← gets id;
  let ourHeight := tip_height m in
  let bestHeight := peerBestHeightV2 m in
  if PeerCount m =? 0 then mret ()
  else
    ibd ← isInitialBlockDownload;
    if negb ibd then transitionSyncState SyncStateSynced
    else if bestHeight <=? ourHeight then
      stale ← is_tip_stale;
      if stale : bool then request_from_all else transitionSyncState SyncStateSynced
    else
      _ ← modify (set_m_bestPeerHeight bestHeight);
      peer ← selectHeaderSyncPeer;
      match peer with
      | Some q =>
          _ ← begin_header_sync q;
          _ ← transitionSyncState SyncStateHeaderSync;
          requestHeaders q
      | None =>
          peer ← selectLegacySyncPeer;
          match peer with
          | Some q =>
              addr ← peer_is q pr_addr;
              t ← now w;
              _ ← modify (λ m, set_m_lastSyncHeight ourHeight (set_m_syncPeerSince t (set_m_syncPeerAddr addr m)));
              _ ← transitionSyncState SyncStateBlockSync;
              requestBlocks w q
          | None => mret ()
          end
      end.

(** ** HEADER_SYNC *)

(** No progress within the timeout. *)
Definition header_stall (q : nat) : M () :=
  _ ← modify (λ m, set_m_headerSyncStalls (m_headerSyncStalls m + 1) m);
  t ← now w;
  _ ← modify (set_m_headerSyncSince t);
  stalls ← gets m_headerSyncStalls;
  if maxStallsBeforeBan <=? stalls then
    _ ← upd_peer q Close; modify (set_m_headerSyncPeerAddr [])
  else if maxStallsBeforeRotate <=? stalls then modify (set_m_headerSyncPeerAddr [])
  else requestHeaders q.

(** The headers are complete: blocks are fetched from one fast peer, or by the
    scheduler. *)
Definition header_phase_done : M () :=
  tipH ← gets tip_height;
  t ← now w;
  _ ← modify (λ m, set_m_blockSyncLastHeight tipH (set_m_blockSyncLastProgress t m));
  fallback ← gets m_fastSyncFallback;
  _ ← (if fallback : bool then start_scheduler
       else
         fast ← selectFastSyncPeer;
         match fast with
         | Some q =>
             addr ← peer_is q pr_addr;
             t ← now w;
             modify (λ m, set_m_fastSyncLastRecv t (set_m_fastSyncInFlight 0
               (set_m_fastSyncNextHeight (u32 (tipH + 1)) (set_m_fastSyncPeer addr m))))
         | None => _ ← start_scheduler; modify (set_m_fastSyncFallback true)
         end);
  transitionSyncState SyncStateBlockSync.

(** The current header peer; a peer that is gone is forgotten. *)
Definition current_header_peer : M (option nat) :=
  addr ← gets m_headerSyncPeerAddr;
  if bool_decide (addr = []) then mret None
  else
    r ← gets (λ m, m_peers m !! addr);
    _ ← (if bool_decide (r = None) then modify (set_m_headerSyncPeerAddr []) else mret ());
    mret r.

(** Whether the tick ends with a stall. *)
Definition check_header_stall (q : nat) : M bool :=
  m ← gets id;
  let currentHeight := BestHeaderHeight (m_headerIndex m) in
  if m_lastHeaderHeight m <? currentHeight then
    t ← now w;
    _ ← modify (λ m, set_m_headerSyncStalls 0 (set_m_headerSyncSince t (set_m_lastHeaderHeight currentHeight m)));
    mret false
  else
    t ← now w;
    if headerSyncStallTimeout <? time_Sub t (m_headerSyncSince m) then _ ← header_stall q; mret true
    else mret false.

Definition headers_done m (syncPeerHeight : Z) : bool :=
  let currentHeight := BestHeaderHeight (m_headerIndex m) in
  (peerBestHeightV2 m <=? currentHeight) || (syncPeerHeight <=? currentHeight) ||
  (m_headerSyncCaughtUp m && (0 <? currentHeight)).

Definition handleHeaderSyncTick : M () :=
  syncPeer ← current_header_peer;
  match syncPeer with
  | None =>
      peer ← selectHeaderSyncPeer;
      match peer with
      | None =>
          legacy ← selectLegacySyncPeer;
          match legacy with
          | Some q => _ ← transitionSyncState SyncStateBlockSync; requestBlocks w q
          | None => mret ()
          end
      | Some q => _ ← begin_header_sync q; requestHeaders q
      end
  | Some q =>
      stalled ← check_header_stall q;
      if stalled : bool then mret ()
      else
        syncPeerHeight ← peer_is q BestHeight;
        fin ← gets (λ m, headers_done m syncPeerHeight);
        if fin : bool then header_phase_done else mret ()
  end.

(** ** BLOCK_SYNC with one peer *)

(** Requests batches of consecutive blocks while the pipeline has room; every
    batch has a block, so that the room bounds the number of turns. *)
Fixpoint request_batches (fuel : nat) (q : nat) (bestHeaderHeight : Z) : M () :=
  match fuel with
  | O => mret ()
  | S fuel' =>
      m ← gets id;
      let next := m_fastSyncNextHeight m in
      if (m_fastSyncInFlight m <? fastSyncMaxInFlight) && (next <=? bestHeaderHeight) then
        let batchEnd := u32 (next + fastSyncBatchSize - 1) in
        let batchEnd := if bestHeaderHeight <? batchEnd then bestHeaderHeight else batchEnd in
        let hashes := HeadersToFetch (m_headerIndex m) next (u32 (batchEnd - next + 1)) in
        if bool_decide (hashes = []) then mret ()
        else
          _ ← get_data q hashes;
          _ ← modify (λ m, set_m_fastSyncNextHeight (u32 (m_fastSyncNextHeight m + len hashes))
                (set_m_fastSyncInFlight (m_fastSyncInFlight m + len hashes) m));
          request_batches fuel' q bestHeaderHeight
      else mret ()
  end.

(** The fast synchronisation gives way to the scheduler. *)
Definition fast_sync_fallback (tipHeight : Z) : M () :=
  _ ← modify (λ m, set_m_fastSyncFallback true (set_m_fastSyncPeer [] m));
  _ ← start_scheduler;
  t ← now w;
  modify (λ m, set_m_blockSyncLastHeight tipHeight (set_m_blockSyncLastProgress t m)).

Definition track_progress (tipHeight : Z) : M () :=
  last ← gets m_blockSyncLastHeight;
  if last <? tipHeight then
    t ← now w; modify (λ m, set_m_blockSyncLastProgress t (set_m_blockSyncLastHeight tipHeight m))
  else mret ().

Definition handleFastSyncTick : M () :=
  m ← gets id;
  let bestHeaderHeight := BestHeaderHeight (m_headerIndex m) in
  let tipHeight := tip_height m in
  if bestHeaderHeight <=? tipHeight then
    _ ← modify (set_m_fastSyncPeer []); transitionSyncState SyncStateSynced
  else
    match m_peers m !! m_fastSyncPeer m with
    | None => fast_sync_fallback tipHeight
    | Some q =>
        stalled ← (if 0 <? m_fastSyncInFlight m then
                     t ← now w; mret (fastSyncStallTimeout <? time_Sub t (m_fastSyncLastRecv m))
                   else mret false);
        if stalled : bool then fast_sync_fallback tipHeight
        else
          _ ← request_batches (Z.to_nat (fastSyncMaxInFlight - m_fastSyncInFlight m)) q bestHeaderHeight;
          track_progress tipHeight
    end.

(** ** BLOCK_SYNC with the scheduler *)

Definition on_sched (f : BlockScheduler → BlockScheduler) : M () :=
  modify (λ m, set_m_scheduler (f <$> m_scheduler m) m).

(** One block that the scheduler hands over. *)
Definition connect_staged (_ : ()) (staged : stagedBlock) : M () :=
  let block := sb_Block staged in
  r ← on_chain (ProcessBlock p engine cwall cadjusted block);
  match r with
  | (_, Some e) =>
      let blockHash := HashBlockHeader (blk_Header block) in
      if errors_Is e ErrSideChain || text_Contains e "already in chain" then mret ()
      else
        _ ← on_sched (RequeueBlock blockHash 0);
        _ ← forget_block blockHash;
        badPeer ← gets (λ m, m_peers m !! String.list_byte_of_string (sb_PeerAddr staged));
        match badPeer with
        | Some q => if is_invalid_block e then addMisbehavior cf w q 100 else mret ()
        | None => mret ()
        end
  | (height, None) =>
      _ ← NotifyBlockAccepted (blk_Header block);
      _ ← on_sched (UpdateNextConnectHeight height);
      confirm_transactions block
  end.

(** No new block within the timeout: everything is requested again. *)
Definition check_block_stall : M () :=
  m ← gets id;
  if m_blockSyncLastHeight m <? tip_height m then track_progress (tip_height m)
  else
    t ← now w;
    if blockSyncStallTimeout <? time_Sub t (m_blockSyncLastProgress m) then
      _ ← on_sched (Reset (m_headerIndex m) (tip_height m));
      _ ← forget_expected w;
      t ← now w;
      modify (set_m_blockSyncLastProgress t)
    else mret ().

Definition assign_to (_ : ()) (q : nat) : M () :=
  addr ← peer_is q pr_addr;
  best ← peer_is q BestHeight;
  sch ← gets m_scheduler;
  match sch with
  | None => pure Panic
  | Some s =>
      let '(hashes, s) := AssignWork swall (String.string_of_list_byte addr) DefaultMaxInFlightPerPeer best s in
      _ ← modify (set_m_scheduler (Some s));
      if bool_decide (hashes = []) then mret () else get_data q hashes
  end.

(** One tick with the scheduler.  (The peers that are given work are sorted by a
    score computed in floating point; the order of the range, which is any order,
    stands for it.) *)
Definition scheduler_tick (s : BlockScheduler) : M () :=
  it ← range_map w (map_to_list (bs_inFlight s));
  let s := (HandleTimeout swall it s).2 in
  idx ← gets m_headerIndex;
  it ← range_map w (map_to_list (bs_staging (drain_loop (S (size (bs_staging s))) idx s).2));
  let '(ready, s) := DrainReady idx it s in
  _ ← modify (set_m_scheduler (Some s));
  _ ← foldP connect_staged () ready;
  _ ← check_block_stall;
  qs ← range_peers w;
  _ ← foldP assign_to () qs;
  fin ← gets (λ m, match m_scheduler m with Some s => IsComplete s | None => false end);
  if fin : bool then transitionSyncState SyncStateSynced else mret ().

(** ** BLOCK_SYNC with peers of the older protocol *)

Definition handleLegacyBlockSync : M () :=
  qs ← range_peers w;
  m ← gets id;
  let ourHeight := tip_height m in
  let best := foldl (λ best q,
    match m_objs m !! q with
    | Some pr => if best.2 <? BestHeight pr then (Some q, BestHeight pr) else best
    | None => best
    end) (None, 0) qs in
  match best.1 with
  | None => transitionSyncState SyncStateSynced
  | Some q =>
      if best.2 <=? ourHeight then transitionSyncState SyncStateSynced
      else
        addr ← peer_is q pr_addr;
        _ ← (if bool_decide (m_syncPeerAddr m = []) || negb (bool_decide (m_syncPeerAddr m = addr)) then
               t ← now w;
               modify (λ m, set_m_lastSyncHeight ourHeight (set_m_syncPeerSince t (set_m_syncPeerAddr addr m)))
             else
               t ← now w;
               if (30 * second <? time_Sub t (m_syncPeerSince m)) && (ourHeight =? m_lastSyncHeight m) then
                 t ← now w; modify (λ m, set_m_syncPeerSince t (set_m_syncPeerAddr addr m))
               else mret ());
        requestBlocks w q
  end.

Definition handleBlockSyncTick : M () :=
  m ← gets id;
  if negb (bool_decide (m_fastSyncPeer m = [])) then handleFastSyncTick
  else match m_scheduler m with
       | None => handleLegacyBlockSync
       | Some s => scheduler_tick s
       end.

(** ** SYNCED *)

Definition forkRecoveryGap : Z := 3.

Definition handleSyncedTick : M () :=
  m ← gets id;
  let ourHeight := tip_height m in
  let bestHeight := peerBestHeightV2 m in
  tipStale ← is_tip_stale;
  let gap := if ourHeight <? bestHeight then u32 (bestHeight - ourHeight) else 0 in
  if (tipStale && (u32 (ourHeight + 2) <? bestHeight)) || (forkRecoveryGap <=? gap) then
    _ ← modify (λ m, set_m_scheduler None (set_m_fastSyncInFlight 0 (set_m_fastSyncFallback false
          (set_m_fastSyncPeer [] (set_m_finishedIBD false (set_m_bestPeerHeight bestHeight m))))));
    transitionSyncState SyncStateInitial
  else if tipStale : bool then request_from_all else mret ().

(** ** The queue of the older protocol *)

(** One item taken by [ibdProcessLoop], and all of them. *)
Definition ibdProcessLoop_step : M () :=
  queue ← gets m_ibdBlockQueue;
  match queue with
  | [] => mret ()
  | item :: _ =>
      _ ← modify (λ m, set_m_ibdBlockQueue (drop 1 (m_ibdBlockQueue m)) m);
      processIBDBlock p engine cf w cwall cadjusted item
  end.
Definition drainIBDQueue : M () :=
  queue ← gets m_ibdBlockQueue;
  foldP (λ _ _, ibdProcessLoop_step) () queue.

(** ** The loop *)

(** One tick of [syncLoop]; the flag is its variable [wasIBD]. *)
Definition syncLoop_tick (wasIBD : bool) : M bool :=
  state ← gets m_syncState;
  _ ← match state with
      | SyncStateInitial => handleSyncInitial
      | SyncStateHeaderSync => handleHeaderSyncTick
      | SyncStateBlockSync => handleBlockSyncTick
      | SyncStateSynced => handleSyncedTick
      end;
  let isIBD := bool_decide (state = SyncStateHeaderSync) || bool_decide (state = SyncStateBlockSync) in
  _ ← (if isIBD && negb wasIBD then on_chain (SetIBDMode true)
       else if negb isIBD && wasIBD then _ ← drainIBDQueue; on_chain (SetIBDMode false)
       else mret ());
  mret isIBD.

(** ** Connecting *)

(** The addresses to try at start: [seeds] are those of the command line, and
    [dial] tells which connections succeed. *)
Definition all_seeds (seeds seedNodes : list (list byte)) (noSeedNodes : bool) : list (list byte) :=
  seeds ++ (if noSeedNodes then [] else seedNodes).
Definition stored_peers m : list (list byte) := match GetPeers (m_peerStore m) with Ok l => l | _ => [] end.

Definition connect_each (dial : list byte → option (list byte)) (addrs : list (list byte)) : M () :=
  foldP (λ _ addr, _ ← connectPeer cf w addr (dial addr); mret ()) () addrs.
Definition connectSeeds (seeds seedNodes : list (list byte)) (noSeedNodes : bool) (dial : list byte → option (list byte))
    : M () :=
  if negb (bool_decide (cf_connectOnly cf = [])) then connect_each dial (cf_connectOnly cf)
  else stored ← gets stored_peers; connect_each dial (all_seeds seeds seedNodes noSeedNodes ++ stored).

(** The addresses that have a connection, also by the address they listen on. *)
Definition connected_addrs m : gset (list byte) :=
  list_to_set (map_to_list (m_peers m)).*1 ∪
  list_to_set (omap (λ pr, match pr_version pr with
    | Some v => if bool_decide (v_AddrFrom v = []) then None else Some (v_AddrFrom v) | None => None end) (peer_objs m)).

Definition may_retry (connected : gset (list byte)) (addr : list byte) : M bool :=
  if bool_decide (addr ∈ connected) then mret false
  else
    banned ← IsBanned w addr;
    if banned : bool then mret false else canReconnect w addr.

(** Tries the addresses in turn; the set of connected addresses grows with them. *)
Definition retry (dial : list byte → option (list byte)) (connected : gset (list byte)) (addr : list byte)
    : M (gset (list byte)) :=
  ok ← may_retry connected addr;
  if ok : bool then _ ← connectPeer cf w addr (dial addr); mret ({[addr]} ∪ connected) else mret connected.

(** Stored addresses while there are free slots. *)
Definition retry_stored (dial : list byte → option (list byte)) (st : gset (list byte) * Z) (addr : list byte)
    : M (gset (list byte) * Z) :=
  let '(connected, outCount) := st in
  if cf_maxOutbound cf <=? outCount then mret st
  else
    ok ← may_retry connected addr;
    if ok && negb (bool_decide (addr = cf_listenAddr cf)) then
      _ ← connectPeer cf w addr (dial addr); mret ({[addr]} ∪ connected, outCount + 1)
    else mret st.

(** The first stored address that may be tried. *)
Definition retry_one (dial : list byte → option (list byte)) (connected : gset (list byte)) (found : bool) (addr : list byte)
    : M bool :=
  if found then mret true
  else
    ok ← may_retry connected addr;
    if ok : bool then _ ← connectPeer cf w addr (dial addr); mret true else mret false.

Definition reconnectLoop_tick (seeds seedNodes : list (list byte)) (noSeedNodes : bool)
    (dial : list byte → option (list byte)) : M () :=
  outCount ← gets outboundCount;
  connected ← gets connected_addrs;
  if negb (bool_decide (cf_connectOnly cf = [])) then
    connected ← foldP (retry dial) connected (cf_connectOnly cf);
    outCount ← gets outboundCount;
    stored ← gets stored_peers;
    _ ← foldP (retry_stored dial) (connected, outCount) stored;
    mret ()
  else if cf_maxOutbound cf <=? outCount then mret ()
  else
    connected ← foldP (retry dial) connected (all_seeds seeds seedNodes noSeedNodes);
    stored ← gets stored_peers;
    _ ← foldP (retry_one dial connected) false stored;
    mret ().

(** ** The other loops *)

Definition addrBroadcastLoop_tick : M () :=
  addrs ← gatherAddresses cf w 10;
  if bool_decide (addrs = []) then mret ()
  else
    qs ← range_peers w;
    qs ← shuffled w qs;
    foldP (λ _ q, upd_peer q (SendLowPriority "addr" (AddrMsg_Encode (mkAddrMsg addrs)))) () (take 2 qs).

Definition orphanEvictionLoop_tick : M () := _ ← on_chain (EvictExpiredOrphans cwall); mret ().
Definition mempoolExpiryLoop_tick : M () :=
  txs ← gets (λ m, mp_txs (m_mempool m));
  it ← range_map w (map_to_list txs);
  _ ← on_mempool (ExpireOldTxs p mwall it);
  mret ().
End sync.
