(* ===== verification/ManagerInv.v ===== *)
(** * The invariant of the peer-to-peer manager

    Every message handler, connection event and timer keeps the parts of the
    manager in the states that their own operations lead to, the registered peers
    valid and the queues and counters bounded ([manager_ok]), for every order in
    which the events come. *)
From S2P Require Import Prelude Types Sha256 Target Merkle Params Utxo Keys Script TxValidation.
From S2P Require Import Algorithms Validation Difficulty Pow TimeAdjust BlockFiles Store Chain Heap Mempool.
From S2P Require Import MempoolProps Protocol Headers Scheduler Net Peer ManagerState Manager Sync.

(** ** One step of a run *)

Lemma modify_bind {S B} f (g : () → proc S B) s : (modify f ≫= g) s = g () (f s).
Proof. done. Qed.
Lemma gets_bind {S A B} (f : S → A) (g : A → proc S B) s : (gets f ≫= g) s = g (f s) s.
Proof. done. Qed.
Lemma now_bind {St PS B} w (g : Z → proc (Manager St PS) B) m :
  (now w ≫= g) m = g (w_now w (m_n m)) (set_m_n (S (m_n m)) m).
Proof. done. Qed.

Lemma range_map_bind {St PS A B} w (l : list A) (g : list A → proc (Manager St PS) B) m :
  (range_map w l ≫= g) m = g (w_iter w A (m_n m) l) (set_m_n (S (m_n m)) m).
Proof. done. Qed.

(** ** Runs that leave a field alone *)

Definition same_field {S X} (F : S → X) (s s' : S) : Prop := F s' = F s.
#[export] Instance same_field_preorder {S X} (F : S → X) : PreOrder (same_field F).
Proof. split; unfold same_field; [done|]. intros s1 s2 s3 -> ->. done. Qed.

Lemma same_modify {S X} (F : S → X) f : (∀ s, F (f s) = F s) → steps (same_field F) (modify f).
Proof. intros Hf s. apply Hf. Qed.
Lemma same_next {St PS X} (F : Manager St PS → X) : (∀ n m, F (set_m_n n m) = F m) → steps (same_field F) next.
Proof. intros Hn m. apply Hn. Qed.
Lemma same_on_peer {St PS X A} (F : Manager St PS → X) q (f : Peer → A * Peer) :
  (∀ o m, F (set_m_objs o m) = F m) → steps (same_field F) (on_peer q f).
Proof. intros Ho m. unfold on_peer, same_field. destruct (m_objs m !! q) as [pr|]; [|done]. destruct (f pr). apply Ho. Qed.
Lemma same_on {S T X A} (F : S → X) (get : S → T) set (f : proc T A) :
  (∀ t s, F (set t s) = F s) → steps (same_field F) (on get set f).
Proof. intros Ht s. unfold on, same_field. destruct (f (get s)) as [r t]. apply Ht. Qed.

(** Walks through a method, through the methods that it calls as well. *)
Ltac head_of t := lazymatch t with ?f _ => head_of f | _ => t end.
Ltac same_assign := solve [intros; cbv beta zeta; repeat case_match; cbn; reflexivity].
Ltac same_walk :=
  repeat first
    [ progress intros
    | progress cbv zeta
    | match goal with
      | |- steps _ (mret _) => apply steps_ret; apply _
      | |- steps _ (pure _) => apply steps_pure; apply _
      | |- steps _ (throw _) => apply steps_throw; apply _
      | |- steps _ (gets _) => apply steps_gets; apply _
      | |- steps _ (asks _) => apply steps_asks; apply _
      | |- steps _ (modify _) => apply same_modify; same_assign
      | |- steps _ next => apply same_next; same_assign
      | |- steps _ (on_peer _ _) => apply same_on_peer; same_assign
      | |- steps _ (on _ _ _) => apply same_on; same_assign
      | |- steps _ (mbind _ _) => apply steps_bind; [apply _| |intros ?]
      | |- steps _ (catch _ _) => apply steps_catch; [apply _| |intros ?]
      | |- steps _ (foldP _ _ _) => apply steps_foldP; [apply _|intros ? ?]
      | |- steps _ (match ?x with _ => _ end) => destruct x
      | |- steps _ ?t => let h := head_of t in progress unfold h
      end ].

(** ** Runs that keep an invariant *)

(** From a state with [I], a run ends in a state with [I], and its value has [Q]. *)
Definition keeps {S A} (I : S → Prop) (Q : A → Prop) (m : proc S A) : Prop :=
  ∀ s, I s → I (m s).2 ∧ ∀ a, (m s).1 = Ok a → Q a.

Section keeps_rules.
Context {S : Type} (I : S → Prop).

Lemma keeps_ret {A} (Q : A → Prop) a : Q a → keeps I Q (mret a).
Proof. intros Ha s Hs. split; [done|]. intros ? [= <-]. done. Qed.
Lemma keeps_pure {A} (r : res A) : keeps I (λ a, r = Ok a) (pure r).
Proof. intros s Hs. done. Qed.
Lemma keeps_throw {A} (Q : A → Prop) e : keeps I Q (throw e).
Proof. intros s Hs. done. Qed.
Lemma keeps_gets {A} (f : S → A) : keeps I (λ a, ∃ s, I s ∧ a = f s) (gets f).
Proof. intros s Hs. split; [done|]. intros ? [= <-]. by exists s. Qed.
Lemma keeps_asks {A} (f : S → res A) : keeps I (λ a, ∃ s, I s ∧ f s = Ok a) (asks f).
Proof. intros s Hs. split; [done|]. intros a Ha. by exists s. Qed.
Lemma keeps_modify f : (∀ s, I s → I (f s)) → keeps I (λ _, True) (modify f).
Proof. intros Hf s Hs. split; [by apply Hf|done]. Qed.

Lemma keeps_bind {A B} (Q : A → Prop) (Q' : B → Prop) (m : proc S A) (f : A → proc S B) :
  keeps I Q m → (∀ a, Q a → keeps I Q' (f a)) → keeps I Q' (m ≫= f).
Proof.
  intros Hm Hf s Hs. destruct (Hm s Hs) as [Hs' Hq]. unfold mbind, proc_bind.
  destruct (m s) as [[a|e|] s']; cbn in *; [|done..]. by apply Hf; [apply Hq|].
Qed.

Lemma keeps_weaken {A} (Q Q' : A → Prop) (m : proc S A) : keeps I Q m → (∀ a, Q a → Q' a) → keeps I Q' m.
Proof. intros Hm HQ s Hs. destruct (Hm s Hs) as [? Hq]. split; [done|]. intros a Ha. apply HQ, Hq, Ha. Qed.

Lemma keeps_foldP {X A} (J : X → Prop) (f : X → A → proc S X) l :
  (∀ x a, a ∈ l → J x → keeps I J (f x a)) → ∀ x, J x → keeps I J (foldP f x l).
Proof.
  induction l as [|a l IH]; intros Hf x Hx; cbn [foldP]; [by apply keeps_ret|].
  apply (keeps_bind J); [by apply Hf; [left|]|]. intros x' Hx'. apply IH; [|done]. intros y b Hb. apply Hf. by right.
Qed.

Lemma keeps_catch {A} (Q : A → Prop) (m : proc S A) h : keeps I Q m → (∀ e, keeps I Q (h e)) → keeps I Q (catch m h).
Proof.
  intros Hm Hh s Hs. destruct (Hm s Hs) as [Hs' Hq]. unfold catch. destruct (m s) as [[a|e|] s']; cbn in *; [done| |done].
  by apply Hh.
Qed.
End keeps_rules.

(** Walks through a method, leaving its assignments; calls are found in the
    database. *)
Create HintDb keeps discriminated.
#[export] Hint Constants Opaque : keeps.
Ltac keeps_walk :=
  repeat first
    [ progress intros
    | progress cbv zeta
    | solve [eauto 2 with keeps]
    | match goal with
      | |- keeps _ _ (mret _) => apply keeps_ret; [done]
      | |- keeps _ _ (throw _) => apply keeps_throw
      | |- keeps _ (λ _, True) _ => eapply keeps_weaken; [solve [eauto 2 with keeps]|done]
      | |- keeps _ _ (match ?x with _ => _ end) => destruct x eqn:?
      | |- keeps _ _ (mbind _ (match _ with _ => _ end)) => apply (keeps_bind _ (λ _, True))
      | |- keeps _ _ (mbind _ (foldP _ _ _)) => apply (keeps_bind _ (λ _, True))
      | |- keeps _ _ (mbind _ (mbind _ _)) => apply (keeps_bind _ (λ _, True))
      | |- keeps _ _ (mbind _ _) => eapply keeps_bind; [solve [eauto 2 with keeps]|]
      | |- keeps _ _ (mbind _ _) => apply (keeps_bind _ (λ _, True))
      | |- keeps _ _ (foldP _ _ _) => apply keeps_foldP; [|done]
      | |- keeps _ _ (catch _ _) => apply keeps_catch
      end ].
(** What the walk has learnt about the values that were read. *)
Ltac recall := cbv beta in *; repeat match goal with H : ∃ _, _ ∧ _ = _ |- _ => destruct H as (? & ? & ?) end; subst.
#[export] Hint Extern 0 (keeps _ _ (pure _)) => apply keeps_pure : keeps.
#[export] Hint Extern 0 (keeps _ _ (gets _)) => apply keeps_gets : keeps.
#[export] Hint Extern 0 (keeps _ _ (asks _)) => apply keeps_asks : keeps.

(** ** The invariant *)

(** A peer: its queue and the inventory it is known to have. *)
Definition peer_ok (pr : Peer) : Prop :=
  len (pr_sendQueue pr) ≤ peerSendQueueSize ∧ hs_reachable 10000 (pr_knownInv pr).

(** A change to a peer that the manager may make. *)
Definition peer_change (pr pr' : Peer) : Prop :=
  pr_addr pr' = pr_addr pr ∧ (is_Some (pr_version pr) → is_Some (pr_version pr')) ∧ (peer_ok pr → peer_ok pr').

Section inv.
Context {St : Type} `{BlockStore St} `{CryptoLib} {PS : Type} `{PeerStore PS}.
Context (p : ChainParams) (engine : Engine) (cf : Config) (w : World).
Context (cwall cadjusted mwall swall : nat → Z).
Implicit Types m : Manager St PS.
Notation M := (proc (Manager St PS)).

Record manager_ok m : Prop := {
  mo_mempool : MempoolProps.reachable p mwall (m_mempool m);
  mo_headers : ∃ trusted, reached p engine (blk_Header (p_GenesisBlock p)) trusted (m_headerIndex m);
  mo_scheduler : ∀ s, m_scheduler m = Some s → sched_reachable swall s;
  mo_seenBlocks : hs_reachable maxSeenBlocks (m_seenBlocks m);
  mo_seenTxs : hs_reachable maxSeenTxs (m_seenTxs m);
  mo_next : ∀ q pr, m_objs m !! q = Some pr → (q < m_nextObj m)%nat;
  mo_objs : ∀ q pr, m_objs m !! q = Some pr → peer_ok pr;
  mo_peers : ∀ addr q, m_peers m !! addr = Some q →
    ∃ pr, m_objs m !! q = Some pr ∧ pr_addr pr = addr ∧ is_Some (pr_version pr);
  mo_addrs : ∀ addr n, m_addrCountPerPeer m !! addr = Some n → 0 ≤ n ≤ maxAddrPerPeer;
  mo_queue : len (m_ibdBlockQueue m) ≤ ibdQueueSize;
  mo_stalls : 0 ≤ m_headerSyncStalls m ≤ maxStallsBeforeRotate ∧
    (m_headerSyncPeerAddr m ≠ [] → m_headerSyncStalls m < maxStallsBeforeRotate)
}.
Notation safe := (keeps manager_ok (λ _, True)).

Hypothesis Hw : world_ok w.

(** *** Assignments *)

(** The invariant after an assignment: the parts that it does not touch. *)
Ltac frame :=
  let s := fresh "m" in let Hs := fresh in intros s Hs; cbv beta;
  repeat match goal with |- manager_ok (if ?b then _ else _) => destruct b end;
  first [ exact Hs | destruct Hs; constructor; cbn; try first [ assumption | solve [intros; discriminate] ] ].
Ltac assign := apply keeps_modify; solve [frame].
#[local] Hint Extern 1 (keeps _ _ (modify _)) => assign : keeps.

Lemma next_safe : safe (next : M nat).
Proof. intros m Hm. split; [|done]. revert m Hm. frame. Qed.
#[local] Hint Resolve next_safe : keeps.

Lemma now_safe : safe (now w : M Z).
Proof. unfold now. keeps_walk. Qed.
#[local] Hint Resolve now_safe : keeps.

Lemma range_map_safe {A} (l : list A) : keeps manager_ok (λ l', l' ≡ₚ l) (range_map w l : M (list A)).
Proof using Hw. unfold range_map. eapply keeps_bind; [apply next_safe|]. intros n _. apply keeps_ret, Hw. Qed.
#[local] Hint Resolve range_map_safe : keeps.

Lemma shuffled_safe {A} (l : list A) : safe (shuffled w l : M (list A)).
Proof. unfold shuffled. keeps_walk. Qed.
#[local] Hint Resolve shuffled_safe : keeps.

Lemma range_peers_safe : safe (range_peers w : M (list nat)).
Proof using Hw. unfold range_peers. keeps_walk. Qed.
#[local] Hint Resolve range_peers_safe : keeps.

(** *** Peers *)

Lemma objs_change q pr pr' m : m_objs m !! q = Some pr → peer_change pr pr' → manager_ok m →
  manager_ok (set_m_objs (<[q := pr']> (m_objs m)) m).
Proof.
  intros Hq (Ha & Hv & Hp) []. constructor; cbn; try assumption.
  - intros r pr0. destruct (decide (r = q)) as [->|]; [|rewrite lookup_insert_ne by done; eauto].
    intros _. by eapply mo_next0.
  - intros r pr0. destruct (decide (r = q)) as [->|]; [|rewrite lookup_insert_ne by done; eauto].
    rewrite lookup_insert_eq. intros [= <-]. by eapply Hp, mo_objs0.
  - intros addr r Hr. destruct (mo_peers0 addr r Hr) as (pr0 & Hr1 & Hr2 & Hr3).
    destruct (decide (r = q)) as [->|]; [|rewrite lookup_insert_ne by done; eauto].
    rewrite lookup_insert_eq. simplify_eq. exists pr'. eauto.
Qed.

Lemma on_peer_safe {A} q (f : Peer → A * Peer) : (∀ pr, peer_change pr (f pr).2) → safe (on_peer q f : M A).
Proof.
  intros Hf m Hm. unfold on_peer. destruct (m_objs m !! q) as [pr|] eqn:Hq; [|done].
  specialize (Hf pr). destruct (f pr) as [a pr']. split; [|done]. by eapply objs_change.
Qed.
Lemma peer_change_refl pr : peer_change pr pr.
Proof. by split_and!. Qed.
Lemma peer_is_safe {A} q (f : Peer → A) : safe (peer_is q f : M A).
Proof. apply on_peer_safe. intros pr. apply peer_change_refl. Qed.
Lemma upd_peer_safe q f : (∀ pr, peer_change pr (f pr)) → safe (upd_peer q f : M ()).
Proof. intros Hf. apply on_peer_safe. done. Qed.
#[local] Hint Resolve peer_is_safe : keeps.

Lemma AddKnownInventory_change hash pr : peer_change pr (AddKnownInventory hash pr).
Proof.
  split_and!; [done|done|]. intros [Hq Hk]. split; [done|]. cbn. rewrite Add_AddOrHas. by apply hs_add.
Qed.
Lemma TrySendMessage_change cmd payload pr : peer_change pr (TrySendMessage cmd payload pr).2.
Proof.
  unfold TrySendMessage. destruct (pr_done pr || _) eqn:Hfull; [apply peer_change_refl|].
  split_and!; [done|done|]. intros [Hq Hk]. split; [|done]. cbn -[peerSendQueueSize].
  apply orb_false_iff in Hfull as [_ Hfull]. apply Z.leb_gt in Hfull. rewrite length_app. cbn -[peerSendQueueSize]. lia.
Qed.
Lemma SendMessage_change cmd payload pr : peer_change pr (SendMessage cmd payload pr).
Proof. apply TrySendMessage_change. Qed.
Lemma SendCritical_change room cmd payload pr : peer_change pr (SendCritical room cmd payload pr).
Proof.
  unfold SendCritical. case_match; [|apply SendMessage_change]. split_and!; [done|done|]. intros [Hq Hk]. split; [|done].
  cbn -[peerSendQueueSize]. rewrite length_app, length_drop. cbn -[peerSendQueueSize].
  unfold peerSendQueueSize in *. lia.
Qed.
Lemma SendLowPriority_change cmd payload pr : peer_change pr (SendLowPriority cmd payload pr).
Proof. unfold SendLowPriority. case_match; [apply peer_change_refl|apply SendMessage_change]. Qed.
Lemma SetStartHeightIfGreater_change h pr : peer_change pr (SetStartHeightIfGreater h pr).
Proof.
  unfold SetStartHeightIfGreater. destruct (pr_version pr) as [v|] eqn:Hv; [|apply peer_change_refl].
  case_match; [|apply peer_change_refl]. by split_and!.
Qed.

(** The changes of a peer that set plain fields. *)
Ltac plain_change := solve [ intros; repeat case_match; by split_and! ].
#[local] Hint Resolve peer_change_refl AddKnownInventory_change TrySendMessage_change SendMessage_change
  SendCritical_change SendLowPriority_change SetStartHeightIfGreater_change : keeps.
Ltac peer_changes :=
  first [ apply upd_peer_safe | apply on_peer_safe ]; intros ?;
  first [ solve [ eauto 1 with keeps ]
        | unfold SetPingNonce, HandlePong, AddHeadersReceived, AddBanScore, CheckRateLimit, MarkGetAddrResponded,
            CheckGetHeadersThrottle, CheckGetBlocksThrottle, Close; plain_change ].
#[local] Hint Extern 1 (keeps _ _ (on_peer _ _)) => peer_changes : keeps.
#[local] Hint Extern 1 (keeps _ _ (upd_peer _ _)) => peer_changes : keeps.

Lemma send_safe q cmd payload : safe (send q cmd payload : M ()).
Proof. unfold send. keeps_walk. Qed.
Lemma send_critical_safe q cmd payload : safe (send_critical w q cmd payload : M ()).
Proof. unfold send_critical. keeps_walk. Qed.
#[local] Hint Resolve send_safe send_critical_safe : keeps.

(** *** Components *)

Lemma on_chain_safe {A} (f : proc (Chain St) A) : safe (on_chain f : M A).
Proof. intros m Hm. unfold on_chain, on. destruct (f (m_chain m)) as [r c]. split; [|done]. revert m Hm. frame. Qed.

Lemma on_headers_safe {A} (f : proc HeaderIndex A) :
  (∀ trusted idx, reached p engine (blk_Header (p_GenesisBlock p)) trusted idx →
     ∃ trusted', reached p engine (blk_Header (p_GenesisBlock p)) trusted' (f idx).2) → safe (on_headers f : M A).
Proof.
  intros Hf m Hm. unfold on_headers, on. destruct (mo_headers _ Hm) as [t Ht]. specialize (Hf _ _ Ht).
  destruct (f (m_headerIndex m)) as [r idx]. split; [|done]. destruct Hm. constructor; cbn; try assumption.
Qed.

Lemma on_mempool_ok {A} (f : proc Mempool A) m :
  manager_ok m → MempoolProps.reachable p mwall (f (m_mempool m)).2 → manager_ok (on_mempool f m).2.
Proof.
  intros Hm Hf. unfold on_mempool, on. destruct (f (m_mempool m)) as [r mp]. destruct Hm. constructor; cbn; assumption.
Qed.
Lemma on_mempool_safe {A} (f : proc Mempool A) :
  (∀ mp, MempoolProps.reachable p mwall mp → MempoolProps.reachable p mwall (f mp).2) → safe (on_mempool f : M A).
Proof. intros Hf m Hm. split; [|done]. by apply on_mempool_ok, Hf, mo_mempool. Qed.

Lemma NotifyBlockAccepted_safe header : safe (NotifyBlockAccepted header : M ()).
Proof.
  unfold NotifyBlockAccepted, ignore_err. apply keeps_catch; [|intros e; by apply keeps_ret].
  apply on_headers_safe. intros t idx Ht. exists (header :: t). by apply reached_trusted.
Qed.
#[local] Hint Resolve on_chain_safe NotifyBlockAccepted_safe : keeps.

(** A scheduler that is read from the manager is a reachable one, and so is the
    one put back. *)
Lemma sched_read s : (∃ m, manager_ok m ∧ Some s = m_scheduler m) → sched_reachable swall s.
Proof. intros (m & Hm & Heq). by apply (mo_scheduler _ Hm). Qed.
Lemma set_scheduler_safe s : sched_reachable swall s → safe (modify (set_m_scheduler (Some s)) : M ()).
Proof. intros Hs. apply keeps_modify. frame. by intros s' [= <-]. Qed.

Lemma on_sched_safe f : (∀ s, sched_reachable swall s → sched_reachable swall (f s)) → safe (on_sched f : M ()).
Proof.
  intros Hf. apply keeps_modify. frame. intros s. destruct (m_scheduler m) as [s0|] eqn:Hs; [|done].
  intros [= <-]. by apply Hf, mo_scheduler0.
Qed.

Lemma start_scheduler_safe : safe (start_scheduler : M ()).
Proof.
  unfold start_scheduler. eapply keeps_bind; [apply next_safe|]. intros n _. apply keeps_modify. frame.
  intros s [= <-]. eapply reachable_step; [apply reachable_new|apply step_populate].
Qed.
#[local] Hint Resolve start_scheduler_safe : keeps.

(** *** Seen sets *)

Lemma forget_block_safe hash : safe (forget_block hash : M ()).
Proof. apply keeps_modify. frame. by apply hs_remove. Qed.
#[local] Hint Resolve forget_block_safe : keeps.

Lemma seen_block_safe hash : safe (modify (λ m, set_m_seenBlocks (Add hash (m_seenBlocks m)) m) : M ()).
Proof. apply keeps_modify. frame. rewrite Add_AddOrHas. by apply hs_add. Qed.
Lemma seen_tx_safe hash : safe (modify (λ m, set_m_seenTxs (Add hash (m_seenTxs m)) m) : M ()).
Proof. apply keeps_modify. frame. rewrite Add_AddOrHas. by apply hs_add. Qed.
#[local] Hint Resolve seen_block_safe seen_tx_safe : keeps.

Lemma admit_block_safe hash : safe (admit_block hash : M bool).
Proof.
  unfold admit_block. eapply keeps_bind; [apply keeps_gets|]. intros m (m0 & Hm0 & ->). cbn [id].
  pose proof (hs_add _ hash _ (mo_seenBlocks _ Hm0)) as Hadd. destruct (AddOrHas hash (m_seenBlocks m0)) as [seen set].
  apply (keeps_bind _ (λ _, True)); [|keeps_walk]. apply keeps_modify. frame.
Qed.
#[local] Hint Resolve admit_block_safe : keeps.

(** ** Peers, bans, connections *)

Lemma BanPeer_safe addr : safe (BanPeer w addr : M ()).
Proof. unfold BanPeer. keeps_walk. Qed.
Lemma IsBanned_safe addr : safe (IsBanned w addr : M bool).
Proof. unfold IsBanned. keeps_walk. Qed.
#[local] Hint Resolve BanPeer_safe IsBanned_safe : keeps.

Lemma addMisbehavior_safe q score : safe (addMisbehavior cf w q score : M ()).
Proof. unfold addMisbehavior. keeps_walk. Qed.
#[local] Hint Resolve addMisbehavior_safe : keeps.

Lemma livenessLoop_safe : safe (livenessLoop_tick w : M ()).
Proof using Hw. unfold livenessLoop_tick, close_overdue, prune_bans. keeps_walk. Qed.
Lemma pingLoop_safe : safe (pingLoop_tick w : M ()).
Proof using Hw. unfold pingLoop_tick. keeps_walk. Qed.

Lemma recordConnectFailure_safe addr : safe (recordConnectFailure w addr : M ()).
Proof. unfold recordConnectFailure. keeps_walk. Qed.
Lemma recordConnectSuccess_safe addr : safe (recordConnectSuccess addr : M ()).
Proof. unfold recordConnectSuccess. keeps_walk. Qed.
#[local] Hint Resolve recordConnectFailure_safe recordConnectSuccess_safe : keeps.

Lemma NewPeer_ok addr inbound t : peer_ok (NewPeer addr inbound t).
Proof. split; [vm_compute; congruence|apply hs_new]. Qed.

(** An object that is not allocated yet. *)
Lemma new_object_ok pr m : peer_ok pr → manager_ok m →
  manager_ok (set_m_nextObj (S (m_nextObj m)) (set_m_objs (<[m_nextObj m := pr]> (m_objs m)) m)).
Proof.
  intros Hpr []. constructor; cbn; try assumption.
  - intros q pr0. destruct (decide (q = m_nextObj m)) as [->|]; [lia|]. rewrite lookup_insert_ne by done.
    intros Hq%mo_next0. lia.
  - intros q pr0. destruct (decide (q = m_nextObj m)) as [->|].
    + rewrite lookup_insert_eq. by intros [= <-].
    + rewrite lookup_insert_ne by done. eauto.
  - intros addr q Hq. destruct (mo_peers0 addr q Hq) as (pr0 & Hr1 & Hr2 & Hr3). exists pr0. split; [|done].
    rewrite lookup_insert_ne; [done|]. intros <-. apply mo_next0 in Hr1. lia.
Qed.

Lemma new_peer_safe addr inbound : safe (new_peer w addr inbound : M nat).
Proof.
  unfold new_peer. eapply keeps_bind; [apply now_safe|]. intros t _ m Hm. split; [|done]. cbn.
  apply new_object_ok; [apply NewPeer_ok|done].
Qed.
#[local] Hint Resolve new_peer_safe : keeps.

Lemma accept_conn_safe addr recount : safe (accept_conn cf w addr recount : M (option nat)).
Proof using Hw. unfold accept_conn, maybeEvictInbound. keeps_walk. Qed.
Lemma connectPeer_safe addr dial : safe (connectPeer cf w addr dial : M (option nat)).
Proof. unfold connectPeer. keeps_walk. Qed.
#[local] Hint Resolve connectPeer_safe : keeps.

Lemma AddNode_safe lookup addr : safe (AddNode w lookup addr : M ()).
Proof. unfold AddNode. keeps_walk. Qed.
Lemma DisconnectNode_safe addr : safe (DisconnectNode addr : M ()).
Proof. unfold DisconnectNode. keeps_walk. Qed.

Lemma handshake_safe q read1 read2 : safe (handshake p cf w q read1 read2 : M (list byte)).
Proof.
  unfold handshake, handshakeInbound, handshakeOutbound, sendVersion, readAndProcessVersion. keeps_walk.
Qed.

(** *** Registration *)

Lemma peer_is_eq {A} q (f : Peer → A) pr m : m_objs m !! q = Some pr → peer_is q f m = (Ok (f pr), m).
Proof.
  intros Hq. unfold peer_is, on_peer. rewrite Hq. cbn. rewrite insert_id by done. by destruct m.
Qed.

(** The invariant while the object [q] has an address and a version. *)
Definition greeted q addr m : Prop :=
  manager_ok m ∧ ∃ pr, m_objs m !! q = Some pr ∧ pr_addr pr = addr ∧ is_Some (pr_version pr).

Lemma greeted_upd q addr f : (∀ pr, peer_change pr (f pr)) → keeps (greeted q addr) (λ _, True) (upd_peer q f : M ()).
Proof.
  intros Hf m [Hm (pr & Hq & Ha & Hv)]. split; [|done]. split; [by apply upd_peer_safe|].
  unfold upd_peer, on_peer. rewrite Hq. exists (f pr). cbn. rewrite lookup_insert_eq.
  destruct (Hf pr) as (Ha' & Hv' & _). split_and!; [done|by rewrite Ha'|by apply Hv'].
Qed.
Lemma greeted_modify q addr f : (∀ m, manager_ok m → manager_ok (f m)) → (∀ m, m_objs (f m) = m_objs m) →
  keeps (greeted q addr) (λ _, True) (modify f : M ()).
Proof. intros Hf Ho m [Hm Hq]. split; [|done]. split; [by apply Hf|]. cbn. by rewrite Ho. Qed.

Lemma registered_ok q addr m : greeted q addr m → manager_ok (set_m_peers (<[addr := q]> (m_peers m)) m).
Proof.
  intros [[] Hq]. constructor; cbn; try assumption. intros a r. destruct (decide (a = addr)) as [->|].
  - rewrite lookup_insert_eq. by intros [= <-].
  - rewrite lookup_insert_ne by done. eauto.
Qed.

(** A call before the registration. *)
Lemma greeted_bind {A B} q addr (f : M A) (g : A → M B) :
  keeps (greeted q addr) (λ _, True) f → (∀ a s, greeted q addr s → manager_ok (g a s).2) →
  ∀ s, greeted q addr s → manager_ok ((f ≫= g) s).2.
Proof.
  intros Hf Hg s Hs. destruct (Hf s Hs) as [Hs' _]. rewrite proc_bind_eq.
  destruct (f s) as [[a|e|] s']; cbn in *; [by apply Hg|apply Hs'..].
Qed.

Lemma register_peer_safe q : safe (register_peer cf q : M ()).
Proof.
  intros m Hm. split; [|done]. unfold register_peer. rewrite proc_bind_eq.
  destruct (m_objs m !! q) as [pr|] eqn:Hq; [|by unfold peer_is, on_peer; rewrite Hq].
  rewrite (peer_is_eq _ _ _ _ Hq). cbn beta iota. rewrite proc_bind_eq, (peer_is_eq _ _ _ _ Hq). cbn beta iota.
  destruct (pr_version pr) as [v|] eqn:Hv; [|done].
  assert (greeted q (pr_addr pr) m) as Hg by (split; [done|]; exists pr; rewrite Hv; eauto).
  clear Hm Hq. revert m Hg. apply greeted_bind; [apply greeted_modify; [frame|done]|intros _].
  apply greeted_bind; [apply greeted_modify; [frame|done]|intros _].
  apply greeted_bind; [by intros s Hs|intros pid].
  apply greeted_bind; [apply greeted_upd; plain_change|intros _].
  apply greeted_bind; [by intros s Hs|intros manual].
  apply greeted_bind; [destruct manual; [apply greeted_upd; plain_change|by apply keeps_ret]|intros _].
  intros m Hg. rewrite proc_bind_eq. cbn beta iota delta [modify].
  match goal with |- manager_ok (?f ?s).2 => enough (safe f) as Hf by by apply Hf, registered_ok end.
  keeps_walk.
Qed.
#[local] Hint Resolve register_peer_safe : keeps.

#[local] Hint Resolve handshake_safe : keeps.
Lemma open_peer_safe q read1 read2 : safe (open_peer p cf w q read1 read2 : M bool).
Proof. unfold open_peer. keeps_walk. Qed.

Lemma delete_peer_safe addr : safe (modify (λ m, set_m_peers (delete addr (m_peers m)) m) : M ()).
Proof. apply keeps_modify. frame. intros a q [_ Hq]%lookup_delete_Some. eauto. Qed.
Lemma delete_addrs_safe addr : safe (modify (λ m, set_m_addrCountPerPeer (delete addr (m_addrCountPerPeer m)) m) : M ()).
Proof. apply keeps_modify. frame. intros a n [_ Hn]%lookup_delete_Some. eauto. Qed.
#[local] Hint Resolve delete_peer_safe delete_addrs_safe : keeps.

Lemma drop_peer_safe q panicked : safe (drop_peer cf w q panicked : M ()).
Proof using Hw.
  unfold drop_peer. keeps_walk. apply set_scheduler_safe.
  eapply reachable_step; [by apply sched_read|by apply step_remove].
Qed.

(** ** Relay and requests *)

Lemma BroadcastTx_safe hash : safe (BroadcastTx w hash : M ()).
Proof using Hw. unfold BroadcastTx. keeps_walk. Qed.
Lemma BroadcastBlock_safe hash block : safe (BroadcastBlock w hash block : M ()).
Proof using Hw. unfold BroadcastBlock, announce_block. keeps_walk. Qed.
#[local] Hint Resolve BroadcastTx_safe BroadcastBlock_safe : keeps.

Lemma send_with_fallback_safe q cmd payload : safe (send_with_fallback w q cmd payload : M ()).
Proof using Hw. unfold send_with_fallback. keeps_walk. Qed.
#[local] Hint Resolve send_with_fallback_safe : keeps.
Lemma requestBlocks_safe q : safe (requestBlocks w q : M ()).
Proof using Hw. unfold requestBlocks. keeps_walk. Qed.
Lemma requestOrphanParent_safe q hash : safe (requestOrphanParent w q hash : M ()).
Proof using Hw. unfold requestOrphanParent. keeps_walk. Qed.
Lemma requestHeaders_safe q : safe (requestHeaders q : M ()).
Proof. unfold requestHeaders. keeps_walk. Qed.
Lemma get_data_safe q hashes : safe (get_data q hashes : M ()).
Proof. unfold get_data. keeps_walk. Qed.
#[local] Hint Resolve requestBlocks_safe requestOrphanParent_safe requestHeaders_safe get_data_safe : keeps.

(** ** Messages *)

Lemma handleInv_safe q inv : safe (handleInv q inv : M ()).
Proof. unfold handleInv. keeps_walk. Qed.
Lemma handleGetData_safe q msg : safe (handleGetData q msg : M ()).
Proof. unfold handleGetData, serve_item. keeps_walk. Qed.
Lemma handleGetBlocks_safe q msg : safe (handleGetBlocks w q msg : M ()).
Proof. unfold handleGetBlocks. keeps_walk. Qed.
Lemma handleGetHeaders_safe q msg : safe (handleGetHeaders cf w q msg : M ()).
Proof. unfold handleGetHeaders. keeps_walk. Qed.
#[local] Hint Resolve handleInv_safe handleGetData_safe handleGetBlocks_safe handleGetHeaders_safe : keeps.

Lemma AddHeaders_safe headers t : safe (on_headers (AddHeaders p engine headers t) : M _).
Proof. apply on_headers_safe. intros tr idx Ht. exists tr. by apply reached_batch. Qed.
#[local] Hint Resolve AddHeaders_safe : keeps.
Lemma request_next_bodies_safe q headers : safe (request_next_bodies q headers : M ()).
Proof. unfold request_next_bodies. keeps_walk. Qed.
#[local] Hint Resolve request_next_bodies_safe : keeps.
Lemma handleHeaders_safe q msg : safe (handleHeaders p engine cf w q msg : M ()).
Proof. unfold handleHeaders. keeps_walk. Qed.
#[local] Hint Resolve handleHeaders_safe : keeps.

Lemma confirm_transactions_safe block : safe (confirm_transactions block : M ()).
Proof. apply keeps_modify. frame. by apply reach_RemoveTxs. Qed.
#[local] Hint Resolve confirm_transactions_safe : keeps.
Lemma block_accepted_safe q block height : safe (block_accepted w q block height : M ()).
Proof. unfold block_accepted. keeps_walk. Qed.
#[local] Hint Resolve block_accepted_safe : keeps.

Lemma forget_expected_safe : safe (forget_expected w : M ()).
Proof using Hw. unfold forget_expected. keeps_walk. Qed.
#[local] Hint Resolve forget_expected_safe : keeps.

Lemma fast_sync_block_safe q block : safe (fast_sync_block p engine cf w cwall cadjusted q block : M ()).
Proof using Hw. unfold fast_sync_block. keeps_walk. Qed.

(** The calls of the scheduler while blocks arrive. *)
Lemma BlockReceived_reachable hash block peer s took s' : sched_reachable swall s →
  BlockReceived swall hash block peer s = (took, s') → sched_reachable swall s'.
Proof.
  intros Hs Heq. eapply reachable_step; [done|].
  replace s' with (BlockReceived swall hash block peer s).2 by by rewrite Heq. apply step_received.
Qed.
Lemma AssignWork_reachable peer limit best s hashes s' : sched_reachable swall s →
  AssignWork swall peer limit best s = (hashes, s') → sched_reachable swall s'.
Proof.
  intros Hs Heq. eapply reachable_step; [done|].
  replace s' with (AssignWork swall peer limit best s).2 by by rewrite Heq. apply step_assign.
Qed.

Lemma scheduler_block_safe q hash block s : sched_reachable swall s →
  safe (scheduler_block swall q hash block s : M bool).
Proof.
  intros Hs. unfold scheduler_block. keeps_walk; apply set_scheduler_safe;
    eauto using BlockReceived_reachable, AssignWork_reachable.
Qed.

Lemma block_refused_safe q block e : safe (block_refused cf w q block e : M ()).
Proof using Hw. unfold block_refused. keeps_walk. Qed.
#[local] Hint Resolve block_refused_safe : keeps.
Lemma process_block_safe q block : safe (process_block p engine cf w cwall cadjusted q block : M ()).
Proof using Hw. unfold process_block. keeps_walk. Qed.
#[local] Hint Resolve process_block_safe : keeps.
Lemma processIBDBlock_safe item : safe (processIBDBlock p engine cf w cwall cadjusted item : M ()).
Proof using Hw. unfold processIBDBlock. keeps_walk. Qed.
#[local] Hint Resolve processIBDBlock_safe : keeps.

(** The queue of the older protocol stays within its capacity. *)
Lemma ibd_send_safe item : safe (ibd_send p engine cf w cwall cadjusted item : M ()).
Proof using Hw.
  unfold ibd_send. eapply keeps_bind; [apply keeps_gets|]. intros queue (m0 & [] & ->).
  destruct (Z.ltb_spec (len (m_ibdBlockQueue m0)) ibdQueueSize).
  - apply keeps_modify. intros m []. constructor; cbn; try assumption. rewrite length_app. cbn. lia.
  - eapply keeps_bind; [apply keeps_modify|intros _ _; keeps_walk].
    intros m []. constructor; cbn; try assumption. rewrite length_app, length_drop. cbn. unfold ibdQueueSize in *. lia.
Qed.
#[local] Hint Resolve ibd_send_safe : keeps.
Lemma handle_other_block_safe q block : safe (handle_other_block p engine cf w cwall cadjusted q block : M ()).
Proof using Hw. unfold handle_other_block. keeps_walk. Qed.
#[local] Hint Resolve handle_other_block_safe fast_sync_block_safe : keeps.

Lemma handleBlock_safe q block : safe (handleBlock p engine cf w cwall cadjusted swall q block : M ()).
Proof using Hw.
  unfold handleBlock. keeps_walk. apply scheduler_block_safe, sched_read.
  recall. eauto.
Qed.

Lemma set_seenTxs_safe h m seen set : manager_ok m → AddOrHas h (m_seenTxs m) = (seen, set) →
  safe (modify (set_m_seenTxs set) : M ()).
Proof.
  intros Hm Heq. apply keeps_modify. frame. replace set with (AddOrHas h (m_seenTxs m)).2 by by rewrite Heq.
  apply hs_add, Hm.
Qed.
Lemma set_mempool_safe mp : MempoolProps.reachable p mwall mp → safe (modify (set_m_mempool mp) : M ()).
Proof. intros Hmp. apply keeps_modify. frame. Qed.

Lemma handleTx_safe q tx : safe (handleTx p w mwall q tx : M ()).
Proof using Hw.
  unfold handleTx. keeps_walk; recall; [by eapply set_seenTxs_safe|].
  apply set_mempool_safe, reach_AddTx. by apply mo_mempool.
Qed.
#[local] Hint Resolve handleBlock_safe handleTx_safe : keeps.

Lemma handleAddr_safe q msg : safe (handleAddr cf w q msg : M ()).
Proof.
  unfold handleAddr. keeps_walk. recall. apply keeps_modify. frame. intros a' n.
  destruct (decide (a' = a)) as [->|]; [rewrite lookup_insert_eq|rewrite lookup_insert_ne by done; eauto].
  intros [= <-]. match goal with Hx : manager_ok ?x |- _ => pose proof (mo_addrs _ Hx a) as Hn;
    destruct (m_addrCountPerPeer x !! a) as [k|] end; [specialize (Hn k eq_refl)|clear Hn]; cbn in *;
    rewrite length_take; unfold maxAddrPerPeer in *; lia.
Qed.
Lemma gatherAddresses_safe limit : safe (gatherAddresses cf w limit : M _).
Proof using Hw. unfold gatherAddresses. keeps_walk. Qed.
#[local] Hint Resolve handleAddr_safe gatherAddresses_safe : keeps.
Lemma handleGetAddr_safe q : safe (handleGetAddr cf w q : M ()).
Proof using Hw. unfold handleGetAddr. keeps_walk. Qed.
#[local] Hint Resolve handleGetAddr_safe : keeps.

Lemma decoded_safe {A} q score (r : reader A) payload (k : A → M ()) :
  (∀ a, safe (k a)) → safe (decoded cf w q score r payload k).
Proof. intros Hk. unfold decoded. keeps_walk. Qed.

Lemma handleMessage_safe q cmd payload : safe (handleMessage p engine cf w cwall cadjusted mwall swall q cmd payload : M ()).
Proof using Hw.
  unfold handleMessage, handlePing, handle_pong. keeps_walk; apply decoded_safe; keeps_walk.
Qed.
#[local] Hint Resolve handleMessage_safe : keeps.

Lemma peer_turn_safe q cmd payload : safe (peer_turn p engine cf w cwall cadjusted mwall swall q cmd payload : M bool).
Proof using Hw. unfold peer_turn. keeps_walk. Qed.

(** ** Synchronisation *)

Lemma transition_safe st : safe (transitionSyncState st : M ()).
Proof. unfold transitionSyncState. keeps_walk. Qed.
Lemma is_tip_stale_safe : safe (is_tip_stale p cwall : M bool).
Proof. unfold is_tip_stale. keeps_walk. Qed.
#[local] Hint Resolve transition_safe is_tip_stale_safe : keeps.
Lemma isInitialBlockDownload_safe : safe (isInitialBlockDownload p cwall : M bool).
Proof. unfold isInitialBlockDownload. keeps_walk. Qed.
Lemma selectHeaderSyncPeer_safe : safe (selectHeaderSyncPeer w : M _).
Proof using Hw. unfold selectHeaderSyncPeer. keeps_walk. Qed.
Lemma selectLegacySyncPeer_safe : safe (selectLegacySyncPeer w : M _).
Proof using Hw. unfold selectLegacySyncPeer. keeps_walk. Qed.
Lemma selectFastSyncPeer_safe : safe (selectFastSyncPeer w : M _).
Proof using Hw. unfold selectFastSyncPeer. keeps_walk. Qed.
Lemma request_from_all_safe : safe (request_from_all w : M ()).
Proof using Hw. unfold request_from_all. keeps_walk. Qed.
#[local] Hint Resolve isInitialBlockDownload_safe selectHeaderSyncPeer_safe selectLegacySyncPeer_safe
  selectFastSyncPeer_safe request_from_all_safe : keeps.

(** A new header peer starts without stalls. *)
Lemma begin_header_sync_safe q : safe (begin_header_sync w q : M ()).
Proof. unfold begin_header_sync. keeps_walk. apply keeps_modify. frame. split; [by vm_compute|done]. Qed.
#[local] Hint Resolve begin_header_sync_safe : keeps.

Lemma handleSyncInitial_safe : safe (handleSyncInitial p w cwall : M ()).
Proof using Hw. unfold handleSyncInitial. keeps_walk. Qed.
Lemma header_phase_done_safe : safe (header_phase_done w : M ()).
Proof using Hw. unfold header_phase_done. keeps_walk. Qed.
#[local] Hint Resolve handleSyncInitial_safe header_phase_done_safe : keeps.

Lemma no_header_peer_safe : safe (modify (set_m_headerSyncPeerAddr []) : M ()).
Proof. apply keeps_modify. frame. destruct mo_stalls0. split; [done|]. done. Qed.
#[local] Hint Resolve no_header_peer_safe : keeps.

(** The header peer is looked up before a stall is counted: then the count is
    below the limit for a rotation. *)
Lemma header_stall_ok q m : manager_ok m → m_headerSyncPeerAddr m ≠ [] → manager_ok (header_stall w q m).2.
Proof.
  intros Hm Ha. destruct (mo_stalls _ Hm) as [[Hs0 Hs1] Hs2]. specialize (Hs2 Ha).
  unfold header_stall. rewrite modify_bind, now_bind, modify_bind, gets_bind.
  cbn [m_headerSyncStalls set_m_headerSyncSince set_m_n set_m_headerSyncStalls].
  rewrite (proj2 (Z.leb_gt _ _)) by (unfold maxStallsBeforeBan, maxStallsBeforeRotate in *; lia).
  destruct (Z.leb_spec maxStallsBeforeRotate (m_headerSyncStalls m + 1)).
  - destruct Hm. constructor; cbn; try assumption. split; [lia|done].
  - apply requestHeaders_safe. destruct Hm. constructor; cbn; try assumption. lia.
Qed.

Lemma current_header_peer_spec m : manager_ok m →
  manager_ok (current_header_peer m).2 ∧
  ∀ q, (current_header_peer m).1 = Ok (Some q) → m_headerSyncPeerAddr (current_header_peer m).2 ≠ [].
Proof.
  intros Hm. unfold current_header_peer. rewrite gets_bind. case_bool_decide as Ha; [done|]. rewrite gets_bind.
  destruct (m_peers m !! m_headerSyncPeerAddr m) as [q|] eqn:Hq; [done|].
  split; [|done]. by apply no_header_peer_safe.
Qed.

Lemma check_header_stall_ok q m : manager_ok m → m_headerSyncPeerAddr m ≠ [] → manager_ok (check_header_stall w q m).2.
Proof.
  intros Hm Ha. unfold check_header_stall. rewrite gets_bind. cbn [id].
  destruct (m_lastHeaderHeight m <? _).
  - match goal with |- manager_ok (?f m).2 => enough (safe f) as Hf by by apply Hf end.
    keeps_walk. apply keeps_modify. frame. by split.
  - rewrite now_bind. case_match.
    + rewrite proc_bind_eq. match goal with |- context [header_stall w q ?s] => pose proof (header_stall_ok q s) as Hst; set (s' := s) in * end.
      assert (manager_ok s') as Hs' by (revert Hm; clear; subst s'; revert m; frame).
      specialize (Hst Hs' Ha). by destruct (header_stall w q s') as [[]].
    + destruct Hm. constructor; cbn; assumption.
Qed.

Lemma handleHeaderSyncTick_safe : safe (handleHeaderSyncTick w : M ()).
Proof using Hw.
  intros m Hm. split; [|done]. destruct (current_header_peer_spec m Hm) as [Hc1 Hc2].
  unfold handleHeaderSyncTick. rewrite proc_bind_eq. destruct (current_header_peer m) as [[[q|]|e|] m1]; cbn in Hc1, Hc2;
    [|match goal with |- manager_ok (?f _).2 => enough (safe f) as Hf by by apply Hf end; keeps_walk|done|done].
  pose proof (check_header_stall_ok q m1 Hc1 (Hc2 q eq_refl)) as Hst. rewrite proc_bind_eq.
  destruct (check_header_stall w q m1) as [[stalled|e|] m2]; [|done..].
  match goal with |- manager_ok (?f _).2 => enough (safe f) as Hf by by apply Hf end. keeps_walk.
Qed.
#[local] Hint Resolve handleHeaderSyncTick_safe : keeps.

Lemma request_batches_safe fuel q best : safe (request_batches fuel q best : M ()).
Proof. induction fuel as [|fuel IH]; cbn [request_batches]; keeps_walk. Qed.
Lemma fast_sync_fallback_safe h : safe (fast_sync_fallback w h : M ()).
Proof. unfold fast_sync_fallback. keeps_walk. Qed.
Lemma track_progress_safe h : safe (track_progress w h : M ()).
Proof. unfold track_progress. keeps_walk. Qed.
#[local] Hint Resolve request_batches_safe fast_sync_fallback_safe track_progress_safe : keeps.
Lemma handleFastSyncTick_safe : safe (handleFastSyncTick w : M ()).
Proof. unfold handleFastSyncTick. keeps_walk. Qed.
#[local] Hint Resolve handleFastSyncTick_safe : keeps.

Lemma connect_staged_safe u staged : safe (connect_staged p engine cf w cwall cadjusted u staged : M ()).
Proof.
  unfold connect_staged. keeps_walk; apply on_sched_safe; intros s Hs;
    (eapply reachable_step; [done|]); [apply step_requeue|apply step_update].
Qed.
Lemma check_block_stall_safe : safe (check_block_stall w : M ()).
Proof using Hw.
  unfold check_block_stall. keeps_walk. apply on_sched_safe. intros s Hs. by apply reachable_reset.
Qed.
Lemma assign_to_safe u q : safe (assign_to swall u q : M ()).
Proof.
  unfold assign_to. keeps_walk. apply set_scheduler_safe. eapply AssignWork_reachable; [by apply sched_read|done].
Qed.
#[local] Hint Resolve connect_staged_safe check_block_stall_safe assign_to_safe : keeps.

(** The scheduler after the timeouts and after the ready blocks are taken. *)
Lemma DrainReady_reachable idx it s ready s' : sched_reachable swall s →
  it ≡ₚ map_to_list (bs_staging (drain_loop (S (size (bs_staging s))) idx s).2) →
  DrainReady idx it s = (ready, s') → sched_reachable swall s'.
Proof.
  intros Hs Hit Heq. eapply reachable_step; [done|].
  replace s' with (DrainReady idx it s).2 by by rewrite Heq. by apply step_drain.
Qed.
Lemma scheduler_tick_safe s : sched_reachable swall s →
  safe (scheduler_tick p engine cf w cwall cadjusted swall s : M ()).
Proof using Hw.
  intros Hs. unfold scheduler_tick. keeps_walk. recall. apply set_scheduler_safe.
  eapply DrainReady_reachable; [|done|done]. eapply reachable_step; [done|by apply step_timeout].
Qed.

Lemma handleLegacyBlockSync_safe : safe (handleLegacyBlockSync w : M ()).
Proof using Hw. unfold handleLegacyBlockSync. keeps_walk. Qed.
#[local] Hint Resolve handleLegacyBlockSync_safe : keeps.

Lemma handleBlockSyncTick_safe : safe (handleBlockSyncTick p engine cf w cwall cadjusted swall : M ()).
Proof using Hw.
  unfold handleBlockSyncTick. keeps_walk. recall. apply scheduler_tick_safe, sched_read. eauto.
Qed.

Lemma handleSyncedTick_safe : safe (handleSyncedTick p w cwall : M ()).
Proof using Hw. unfold handleSyncedTick. keeps_walk. Qed.
#[local] Hint Resolve handleBlockSyncTick_safe handleSyncedTick_safe : keeps.

Lemma ibdProcessLoop_step_safe : safe (ibdProcessLoop_step p engine cf w cwall cadjusted : M ()).
Proof using Hw.
  unfold ibdProcessLoop_step. eapply keeps_bind; [apply keeps_gets|]. intros [|item rest] _; [keeps_walk|].
  eapply keeps_bind; [apply keeps_modify|intros _ _; keeps_walk].
  intros m []. constructor; cbn; try assumption. rewrite length_drop. lia.
Qed.
#[local] Hint Resolve ibdProcessLoop_step_safe : keeps.

Lemma syncLoop_tick_safe wasIBD : safe (syncLoop_tick p engine cf w cwall cadjusted swall wasIBD : M bool).
Proof using Hw. unfold syncLoop_tick, drainIBDQueue. keeps_walk. Qed.

(** ** The other loops *)

Lemma may_retry_safe connected addr : safe (may_retry w connected addr : M bool).
Proof. unfold may_retry, canReconnect. keeps_walk. Qed.
#[local] Hint Resolve may_retry_safe : keeps.
Lemma connectSeeds_safe seeds nodes none dial : safe (connectSeeds cf w seeds nodes none dial : M ()).
Proof. unfold connectSeeds, connect_each. keeps_walk. Qed.
Lemma reconnectLoop_safe seeds nodes none dial : safe (reconnectLoop_tick cf w seeds nodes none dial : M ()).
Proof. unfold reconnectLoop_tick, retry, retry_stored, retry_one. keeps_walk. Qed.
Lemma addrBroadcastLoop_safe : safe (addrBroadcastLoop_tick cf w : M ()).
Proof using Hw. unfold addrBroadcastLoop_tick. keeps_walk. Qed.
Lemma orphanEvictionLoop_safe : safe (orphanEvictionLoop_tick cwall : M ()).
Proof. unfold orphanEvictionLoop_tick. keeps_walk. Qed.

Lemma mempoolExpiryLoop_safe : safe (mempoolExpiryLoop_tick p w mwall : M ()).
Proof using Hw.
  intros m Hm. split; [|done]. unfold mempoolExpiryLoop_tick. rewrite gets_bind, range_map_bind, proc_bind_eq.
  match goal with |- context [on_mempool ?f ?s] => assert (manager_ok (on_mempool f s).2) as Hok end.
  - apply on_mempool_ok; [destruct Hm; constructor; cbn; assumption|].
    apply reach_Expire; [apply Hw|apply (mo_mempool _ Hm)].
  - by destruct (on_mempool _ _) as [[]].
Qed.

(** ** Runs of the manager *)

Lemma take_message_safe q :
  safe (upd_peer q (λ pr, match take_message pr with Some (_, pr') => pr' | None => pr end) : M ()).
Proof.
  apply upd_peer_safe. intros pr. unfold take_message. destruct (pr_sendQueue pr) as [|msg rest] eqn:Hq; [apply peer_change_refl|].
  destruct (pr_done pr); [apply peer_change_refl|]. split_and!; [done|done|]. intros [Hlen Hk]. split; [|done].
  rewrite Hq in Hlen. cbn -[peerSendQueueSize] in *. lia.
Qed.

Lemma index_stored_reached n h (c : Chain St) t idx : reached p engine (blk_Header (p_GenesisBlock p)) t idx →
  ∃ t', reached p engine (blk_Header (p_GenesisBlock p)) t' (index_stored n h c idx).2.
Proof.
  revert h t idx. induction n as [|n IH]; intros h t idx Ht; cbn [index_stored]; [by exists t|].
  destruct (Chain.GetHeaderByHeight c h) as [header|e|]; [|by exists t..].
  rewrite proc_bind_eq. unfold ignore_err, catch. pose proof (reached_trusted _ _ _ _ _ header Ht) as Ht'.
  destruct (InsertTrustedHeader header idx) as [[[]|e|] idx']; cbn in Ht' |- *; eauto.
Qed.

Lemma NewManager_ok c mp ps ts m : MempoolProps.reachable p mwall mp → NewManager p c mp ps ts = Ok m → manager_ok m.
Proof.
  intros Hmp Hnew. unfold NewManager in Hnew.
  destruct (index_stored_reached (Z.to_nat (c_tipHeight c)) 1 c _ _ (reached_new p engine _)) as [t Ht].
  unfold chain_NewHeaderIndex in Hnew. destruct (index_stored _ _ _ _) as [[[]|e|] idx]; [..|done]; injection Hnew as <-;
    (constructor; cbn; [done|by eauto|done|apply hs_new|apply hs_new|done|done|done|done|done|by vm_compute]).
Qed.

(** The events of a running manager: connections, messages, timers, calls by the
    other parts of the node, and what these do to the shared chain and pool. *)
Inductive manager_step m : Manager St PS → Prop :=
| on_accept addr recount : manager_step m (accept_conn cf w addr recount m).2
| on_connect addr dial : manager_step m (connectPeer cf w addr dial m).2
| on_handshake q read1 read2 : manager_step m (handshake p cf w q read1 read2 m).2
| on_register q : manager_step m (register_peer cf q m).2
| on_open q read1 read2 : manager_step m (open_peer p cf w q read1 read2 m).2
| on_message q cmd payload : manager_step m (peer_turn p engine cf w cwall cadjusted mwall swall q cmd payload m).2
| on_write q : manager_step m (upd_peer q (λ pr, match take_message pr with Some (_, pr') => pr' | None => pr end) m).2
| on_drop q panicked : manager_step m (drop_peer cf w q panicked m).2
| on_sync wasIBD : manager_step m (syncLoop_tick p engine cf w cwall cadjusted swall wasIBD m).2
| on_queue : manager_step m (ibdProcessLoop_step p engine cf w cwall cadjusted m).2
| on_ping : manager_step m (pingLoop_tick w m).2
| on_liveness : manager_step m (livenessLoop_tick w m).2
| on_seeds seeds nodes none dial : manager_step m (connectSeeds cf w seeds nodes none dial m).2
| on_reconnect seeds nodes none dial : manager_step m (reconnectLoop_tick cf w seeds nodes none dial m).2
| on_gossip : manager_step m (addrBroadcastLoop_tick cf w m).2
| on_orphans : manager_step m (orphanEvictionLoop_tick cwall m).2
| on_expiry : manager_step m (mempoolExpiryLoop_tick p w mwall m).2
| on_BroadcastTx hash : manager_step m (BroadcastTx w hash m).2
| on_BroadcastBlock hash block : manager_step m (BroadcastBlock w hash block m).2
| on_NotifyBlockAccepted header : manager_step m (NotifyBlockAccepted header m).2
| on_AddNode lookup addr : manager_step m (AddNode w lookup addr m).2
| on_DisconnectNode addr : manager_step m (DisconnectNode addr m).2
| on_BanPeer addr : manager_step m (BanPeer w addr m).2
| on_chain_change {A} (f : proc (Chain St) A) : manager_step m (on_chain f m).2
| on_pool_tx utxoSet tipHeight tx : manager_step m (on_mempool (AddTx p mwall utxoSet tipHeight tx) m).2
| on_pool_block block : manager_step m (confirm_transactions block m).2.

Inductive manager_reachable : Manager St PS → Prop :=
| manager_new c mp ps ts m :
    MempoolProps.reachable p mwall mp → NewManager p c mp ps ts = Ok m → manager_reachable m
| manager_next m m' : manager_reachable m → manager_step m m' → manager_reachable m'.

Lemma manager_step_ok m m' : manager_step m m' → manager_ok m → manager_ok m'.
Proof using Hw.
  intros Hstep Hm. destruct Hstep; try (match goal with |- manager_ok (?f m).2 => enough (safe f) as Hf by by apply Hf end;
    eauto using accept_conn_safe, connectPeer_safe, handshake_safe, register_peer_safe, open_peer_safe, peer_turn_safe, take_message_safe,
      drop_peer_safe, syncLoop_tick_safe, ibdProcessLoop_step_safe, pingLoop_safe, livenessLoop_safe, connectSeeds_safe,
      reconnectLoop_safe, addrBroadcastLoop_safe, orphanEvictionLoop_safe, mempoolExpiryLoop_safe, BroadcastTx_safe,
      BroadcastBlock_safe, NotifyBlockAccepted_safe, AddNode_safe, DisconnectNode_safe, BanPeer_safe, on_chain_safe,
      confirm_transactions_safe).
  apply on_mempool_safe. intros mp Hmp. by apply reach_AddTx.
Qed.

Lemma manager_reachable_ok m : manager_reachable m → manager_ok m.
Proof using Hw. induction 1; eauto using NewManager_ok, manager_step_ok. Qed.
End inv.
