(* ===== verification/ManagerProps.v ===== *)
(** * Properties of the peer-to-peer manager

    The invariant of its runs, bans and their enforcement, the serving of headers
    and its agreement with what the other side checks, the relay of transactions
    and blocks, and the penalties for invalid headers. *)
From S2P Require Import Prelude Types Sha256 Target Merkle Params Utxo Keys Script TxValidation.
From S2P Require Import Algorithms Validation Difficulty Pow TimeAdjust BlockFiles Store Chain ChainProps Heap Mempool.
From S2P Require Import MempoolProps Protocol Headers Scheduler Net Peer ManagerState Manager Sync ManagerInv.

Section props.
Context {St : Type} `{BlockStore St} `{CryptoLib} {PS : Type} `{PeerStore PS}.
Context (p : ChainParams) (engine : Engine) (cf : Config) (w : World).
Context (cwall cadjusted mwall swall : nat → Z).
Implicit Types m : Manager St PS.
Notation M := (proc (Manager St PS)).

(** C22: In every state that the events of a running manager lead to, in any order:
    the pool, the header index and the scheduler are in states that their own
    operations lead to, so that their invariants hold; the sets of seen hashes
    are within their capacities; every registered peer is a live object under its
    own address, with a version, a send queue of at most 1024 messages and at
    most 10000 hashes of known inventory; at most 1000 addresses are counted for
    an address; the queue of blocks of the older protocol holds at most its 1024
    items; and the stalls of the header peer never exceed three, so that the
    limit of ten at which it would be disconnected is never reached. *)
Theorem manager_invariant m :
  world_ok w → is_u32 (p_MaxMempoolSize p) →
  manager_reachable p engine cf w cwall cadjusted mwall swall m →
  mempool_ok p (m_mempool m) ∧
  (∃ trusted, reached p engine (blk_Header (p_GenesisBlock p)) trusted (m_headerIndex m)) ∧
  (∀ s, m_scheduler m = Some s → sched_ok s) ∧
  Z.of_nat (size (hs_items (m_seenBlocks m))) ≤ maxSeenBlocks ∧
  Z.of_nat (size (hs_items (m_seenTxs m))) ≤ maxSeenTxs ∧
  (∀ addr q, m_peers m !! addr = Some q → ∃ pr, m_objs m !! q = Some pr ∧ pr_addr pr = addr ∧
     is_Some (pr_version pr) ∧ len (pr_sendQueue pr) ≤ peerSendQueueSize ∧
     Z.of_nat (size (hs_items (pr_knownInv pr))) ≤ 10000) ∧
  (∀ addr n, m_addrCountPerPeer m !! addr = Some n → 0 ≤ n ≤ maxAddrPerPeer) ∧
  len (m_ibdBlockQueue m) ≤ ibdQueueSize ∧
  0 ≤ m_headerSyncStalls m ≤ maxStallsBeforeRotate ∧ m_headerSyncStalls m < maxStallsBeforeBan.
Proof.
  intros Hw Hmax [Hmp Hhi Hsch Hsb Hst Hnext Hobj Hpeer Haddr Hqueue Hstall]%manager_reachable_ok; [|done].
  split_and!; try done.
  - by eapply reachable_ok.
  - intros s Hs. by eapply sched_reachable_ok, Hsch.
  - eapply ho_size, hs_reachable_ok; [|done]. done.
  - eapply ho_size, hs_reachable_ok; [|done]. done.
  - intros addr q Hq. destruct (Hpeer addr q Hq) as (pr & Hpr & Ha & Hv). exists pr. destruct (Hobj q pr Hpr) as [Hlen Hk].
    split_and!; try done. eapply ho_size, hs_reachable_ok; [|done]. done.
  - apply Hstall.
  - apply Hstall.
  - destruct Hstall as [[_ Hs] _]. unfold maxStallsBeforeBan, maxStallsBeforeRotate in *. lia.
Qed.

(** ** Bans *)

(** The test of a ban that is in force. *)
Lemma IsBanned_in_force addr t m : m_banned m !! extractIP addr = Some t → w_now w (m_n m) ≤ t →
  IsBanned w addr m = (Ok true, set_m_n (S (m_n m)) m).
Proof.
  intros Hb Ht. unfold IsBanned. rewrite gets_bind, Hb, now_bind. by rewrite (proj2 (Z.ltb_ge _ _)) by lia.
Qed.

(** C23: A peer whose score reaches 100 is closed and its IP is banned for 24 hours,
    and as long as the ban lasts no connection from any port of that IP is
    accepted and none is opened to it: the manager is left as it was, up to its
    clock.  The peers of the connect-only list are never punished. *)
Theorem ban_enforced q score pr m :
  m_objs m !! q = Some pr →
  (pr_addr pr ∈ cf_connectOnly cf → addMisbehavior cf w q score m = (Ok (), m)) ∧
  (pr_addr pr ∉ cf_connectOnly cf → BanThreshold ≤ i32 (pr_banScore pr + score) →
   let '(r, m') := addMisbehavior cf w q score m in
   let until := w_now w (m_n m) + BanDuration in
   r = Ok () ∧ m_banned m' = <[extractIP (pr_addr pr) := until]> (m_banned m) ∧
   (∃ pr', m_objs m' = <[q := pr']> (m_objs m) ∧ pr_done pr' = true ∧ 
      pr_banScore pr' = i32 (pr_banScore pr + score)) ∧
   ∀ m2 addr, extractIP addr = extractIP (pr_addr pr) →
     m_banned m2 !! extractIP addr = Some until → w_now w (m_n m2) ≤ until →
     (∀ recount, accept_conn cf w addr recount m2 = (Ok None, set_m_n (S (m_n m2)) m2)) ∧
     (∀ dial, ∃ n, connectPeer cf w addr dial m2 = (Ok None, set_m_n n m2))).
Proof.
  intros Hq. split.
  - intros Hin. unfold addMisbehavior. rewrite proc_bind_eq, (peer_is_eq _ _ _ _ Hq). by rewrite bool_decide_true.
  - intros Hnin Hscore. unfold addMisbehavior. rewrite proc_bind_eq, (peer_is_eq _ _ _ _ Hq).
    rewrite bool_decide_false by done. rewrite proc_bind_eq. unfold on_peer at 1. rewrite Hq. cbn beta iota zeta delta [AddBanScore].
    rewrite (proj2 (Z.leb_le _ _)) by done. unfold BanPeer. rewrite proc_bind_eq, now_bind. cbn beta iota delta [modify].
    unfold upd_peer, on_peer. cbn [m_objs set_m_banned set_m_n set_m_objs]. rewrite lookup_insert_eq. cbn zeta.
    split_and!; [done|done|..].
    + eexists. split; [cbn; by rewrite insert_insert_eq|done].
    + intros m2 addr Hip Hb Ht. split.
      * intros recount. unfold accept_conn. by rewrite proc_bind_eq, (IsBanned_in_force _ _ _ Hb Ht).
      * intros dial. unfold connectPeer. rewrite gets_bind. destruct (may_connect cf m2 addr); cbn [negb].
        -- exists (S (m_n m2)). by rewrite proc_bind_eq, (IsBanned_in_force _ _ _ Hb Ht).
        -- exists (m_n m2). by destruct m2.
Qed.

(** ** Admission *)

Lemma IsBanned_not addr m : m_banned m !! extractIP addr = None → IsBanned w addr m = (Ok false, m).
Proof. intros Hb. unfold IsBanned. by rewrite gets_bind, Hb. Qed.

Lemma range_peers_bind {B} (g : list nat → M B) m :
  (range_peers w ≫= g) m = g (w_iter w _ (m_n m) (map_to_list (m_peers m))).*2 (set_m_n (S (m_n m)) m).
Proof. done. Qed.

(** The pointers of a [range] over the peers. *)
Lemma range_peers_elem n q m : world_ok w →
  q ∈ (w_iter w _ n (map_to_list (m_peers m))).*2 ↔ ∃ addr, m_peers m !! addr = Some q.
Proof.
  intros Hw. rewrite (Hw _ n (map_to_list (m_peers m))), list_elem_of_fmap. split.
  - intros ([addr q'] & -> & Hin%elem_of_map_to_list). eauto.
  - intros [addr Ha]. exists (addr, q). by rewrite elem_of_map_to_list.
Qed.
Lemma peer_objs_elem addr q pr m : m_peers m !! addr = Some q → m_objs m !! q = Some pr → pr ∈ peer_objs m.
Proof.
  intros Ha Hq. unfold peer_objs. apply list_elem_of_omap. exists (addr, q). by rewrite elem_of_map_to_list.
Qed.

Lemma no_inbound_count l c : (∀ pr, pr ∈ l → pr_inbound pr = false) →
  (foldl (λ c pr, if pr_inbound pr then (c.1 + 1, c.2) else (c.1, c.2 + 1)) c l).1 = c.1 :> Z.
Proof.
  revert c. induction l as [|pr l IH]; intros c Hl; cbn [foldl]; [done|].
  rewrite (Hl pr) by by left. rewrite IH; [done|]. intros pr' Hpr'. apply Hl. by right.
Qed.

(** Without a slot for inbound peers, a connection from an address that is not
    banned makes the accept loop take the first element of an empty list: it
    panics, in every state in which no inbound peer is registered. *)
Theorem accept_without_slots_panics addr recount m :
  world_ok w → cf_maxInbound cf ≤ 0 → (∀ pr, pr ∈ peer_objs m → pr_inbound pr = false) →
  m_banned m !! extractIP addr = None →
  (accept_conn cf w addr recount m).1 = Panic.
Proof.
  intros Hw Hmax Hnone Hb. unfold accept_conn. rewrite proc_bind_eq, (IsBanned_not _ _ Hb).
  rewrite gets_bind. unfold ConnectionCounts. rewrite no_inbound_count by done. cbn [fst].
  rewrite (proj2 (Z.leb_le _ _)) by lia. unfold maybeEvictInbound. rewrite proc_bind_eq, range_peers_bind, gets_bind.
  match goal with |- context [filter ?P ?l] => assert (filter P l = []) as -> end.
  { apply elem_of_nil_inv. intros q [Hin Hq%range_peers_elem]%list_elem_of_filter; [|done]. destruct Hq as [a Ha]. revert Hin. cbn [m_objs set_m_n].
    destruct (m_objs m !! q) as [pr|] eqn:Hpr; [|done]. cbn. intros [= Htrue].
    rewrite (Hnone pr) in Htrue; [done|]. by eapply peer_objs_elem. }
  cbn [length]. by rewrite (proj2 (Z.ltb_ge _ _)) by (cbn; lia).
Qed.

(** ** Serving headers *)

(** A complete main chain: its headers from genesis to the tip are stored under
    their hashes and heights, and each names the one below. *)
Record main_chain (c : Chain St) (headers : list BlockHeader) : Prop := {
  mc_length : len headers = c_tipHeight c + 1;
  mc_max : 0 ≤ c_tipHeight c < 2 ^ 32 - 1;
  mc_byHeight : ∀ i h, headers !! i = Some h → c_hashByHeight c !! Z.of_nat i = Some (HashBlockHeader h);
  mc_top : ∀ n hash, c_hashByHeight c !! n = Some hash → 0 ≤ n ≤ c_tipHeight c;
  mc_byHash : ∀ i h, headers !! i = Some h → c_heightByHash c !! HashBlockHeader h = Some (Z.of_nat i);
  mc_stored : ∀ i h, headers !! i = Some h → GetHeader (c_store c) (HashBlockHeader h) = Ok h;
  mc_linked : ∀ i h h', headers !! i = Some h → headers !! S i = Some h' → hdr_PrevBlock h' = HashBlockHeader h
}.

(** The headers up to the one with hash [stop]. *)
Fixpoint upto (stop : Hash) (headers : list BlockHeader) : list BlockHeader :=
  match headers with
  | [] => []
  | h :: rest => if bool_decide (HashBlockHeader h = stop) then [h] else h :: upto stop rest
  end.
(** The place in the chain of the first hash of the locator that is in it. *)
Fixpoint start_of (headers : list BlockHeader) (locator : list Hash) : nat :=
  match locator with
  | [] => 0
  | hash :: rest => match list_find (λ h, HashBlockHeader h = hash) headers with Some (i, _) => i | None => start_of headers rest end
  end.

Lemma upto_prefix stop l : upto stop l `prefix_of` l.
Proof.
  induction l as [|h l IH]; cbn [upto]; [done|]. case_bool_decide; [by exists l|]. by apply prefix_cons.
Qed.

Lemma upto_length stop n l : (length (upto stop (take n l)) ≤ n)%nat.
Proof. etrans; [apply prefix_length, upto_prefix|]. rewrite length_take. lia. Qed.

Section chain.
Context (c : Chain St) (headers : list BlockHeader) (Hc : main_chain c headers).

Lemma main_chain_find hash :
  FindMainChainHash c hash =
  match list_find (λ h, HashBlockHeader h = hash) headers with Some (i, _) => (Z.of_nat i, true) | None => (0, false) end.
Proof using Hc.
  unfold FindMainChainHash. destruct (list_find _ headers) as [[i h]|] eqn:Hf.
  - apply list_find_Some in Hf as (Hi & <- & _). rewrite (mc_byHash _ _ Hc _ _ Hi).
    by rewrite bool_decide_true by (by apply (mc_byHeight _ _ Hc)).
  - destruct (c_heightByHash c !! hash) as [n|] eqn:Hn; [|done]. case_bool_decide as Hh; [|done].
    destruct (mc_top _ _ Hc _ _ Hh) as [Hn0 Hn1]. pose proof (mc_length _ _ Hc) as Hlen.
    destruct (lookup_lt_is_Some_2 headers (Z.to_nat n)) as [h Hi]; [lia|].
    pose proof (mc_byHeight _ _ Hc _ _ Hi) as Hh'. rewrite Z2Nat.id in Hh' by lia.
    apply list_find_None in Hf. rewrite Forall_lookup in Hf. destruct (Hf _ _ Hi). congruence.
Qed.

Lemma find_start_spec locator : find_start c locator = Z.of_nat (start_of headers locator).
Proof using Hc.
  induction locator as [|hash rest IH]; cbn [find_start start_of]; [done|].
  rewrite main_chain_find. by destruct (list_find _ headers) as [[i h]|].
Qed.

Lemma start_of_lt locator : (start_of headers locator < length headers)%nat.
Proof using Hc.
  pose proof (mc_length _ _ Hc). pose proof (mc_max _ _ Hc).
  induction locator as [|hash rest IH]; cbn [start_of]; [lia|].
  destruct (list_find _ headers) as [[i h]|] eqn:Hf; [|done]. apply list_find_Some in Hf as (Hi & _).
  by apply lookup_lt_Some in Hi.
Qed.

Lemma headers_from_spec n i stop : (i ≤ length headers)%nat →
  headers_from n c (Z.of_nat i) (c_tipHeight c) stop = Ok (upto stop (take n (drop i headers))).
Proof using Hc.
  pose proof (mc_length _ _ Hc) as Hlen. pose proof (mc_max _ _ Hc) as Hmax.
  revert i. induction n as [|n IH]; intros i Hi; cbn [headers_from]; [done|].
  destruct (decide (i = length headers)) as [->|Hne].
  - rewrite (proj2 (Z.leb_gt _ _)) by lia. by rewrite drop_ge by lia.
  - rewrite (proj2 (Z.leb_le _ _)) by lia. destruct (lookup_lt_is_Some_2 headers i) as [h Hh]; [lia|].
    unfold Chain.GetHeaderByHeight. rewrite (mc_byHeight _ _ Hc _ _ Hh), (mc_stored _ _ Hc _ _ Hh).
    rewrite (drop_S _ _ _ Hh). cbn [take upto]. case_bool_decide; [done|].
    replace (u32 (Z.of_nat i + 1)) with (Z.of_nat (S i)) by (rewrite u32_id by (unfold is_u32; lia); lia).
    by rewrite IH by lia.
Qed.

Lemma serve_headers_spec limit locator stop :
  serve_headers limit c locator stop = Ok (upto stop (take limit (drop (S (start_of headers locator)) headers))).
Proof using Hc.
  unfold serve_headers. rewrite find_start_spec. pose proof (start_of_lt locator) as Hlt.
  pose proof (mc_length _ _ Hc) as Hlen. pose proof (mc_max _ _ Hc) as Hmax.
  replace (u32 (Z.of_nat (start_of headers locator) + 1)) with (Z.of_nat (S (start_of headers locator)))
    by (rewrite u32_id by (unfold is_u32; lia); lia).
  apply headers_from_spec. lia.
Qed.

(** A run of consecutive headers of the chain. *)
Lemma chain_in_sequence i l : l `prefix_of` drop i headers → in_sequence l = true.
Proof using Hc.
  revert i. induction l as [|h1 l IH]; intros i Hl; [done|]. destruct l as [|h2 l]; [done|].
  assert (Hl1 : l `prefix_of` drop (S (S i)) headers ∧ headers !! i = Some h1 ∧ headers !! S i = Some h2).
  { destruct Hl as [k Hk]. cbn in Hk. split_and!.
    - exists k. replace (S (S i)) with (i + 2)%nat by lia. by rewrite <-drop_drop, Hk.
    - rewrite <-(Nat.add_0_r i), <-lookup_drop, Hk. done.
    - replace (S i) with (i + 1)%nat by lia. rewrite <-lookup_drop, Hk. done. }
  destruct Hl1 as (Hl1 & H1' & H2'). change (bool_decide (hdr_PrevBlock h2 = HashBlockHeader h1) && in_sequence (h2 :: l) = true).
  rewrite bool_decide_true by (by eapply (mc_linked _ _ Hc)). apply (IH (S i)).
  rewrite (drop_S _ _ _ H2'). by apply prefix_cons.
Qed.
End chain.

(** C25: The reply to a request for headers (and, with the limit of 500, for block
    hashes): the headers of the main chain that follow the first hash of the
    locator that is on it, or genesis, in order, at most [limit], up to the one
    with the hash that the request stops at. *)
Theorem headers_served c headers limit locator stop :
  main_chain c headers →
  let start := start_of headers locator in
  serve_headers limit c locator stop = Ok (upto stop (take limit (drop (S start) headers))) ∧
  (∀ pre hash rest i h, locator = pre ++ hash :: rest → headers !! i = Some h → HashBlockHeader h = hash →
     (∀ x h', x ∈ pre → h' ∈ headers → HashBlockHeader h' ≠ x) → start = i) ∧
  ((∀ x h', x ∈ locator → h' ∈ headers → HashBlockHeader h' ≠ x) → start = 0%nat).
Proof.
  intros Hc start. split; [by apply serve_headers_spec|].
  assert (Hskip : ∀ pre tl, (∀ x h', x ∈ pre → h' ∈ headers → HashBlockHeader h' ≠ x) →
    start_of headers (pre ++ tl) = start_of headers tl).
  { induction pre as [|x pre IH]; intros tl Hpre; [done|]. cbn [app start_of].
    rewrite (proj2 (list_find_None _ _)); [apply IH; intros y h' Hy; apply Hpre; by right|].
    apply Forall_forall. intros h' Hh'. apply Hpre; [by left|done]. }
  split.
  - intros pre hash rest i h -> Hi Hh Hpre. unfold start. rewrite Hskip by done. cbn [start_of].
    destruct (list_find _ headers) as [[j h']|] eqn:Hf.
    + apply list_find_Some in Hf as (Hj & Hh' & _). pose proof (mc_byHash _ _ Hc _ _ Hi) as H1'.
      pose proof (mc_byHash _ _ Hc _ _ Hj) as H2'. rewrite Hh, <-Hh' in H1'. rewrite H2' in H1'. simplify_eq. lia.
    + apply list_find_None in Hf. rewrite Forall_lookup in Hf. by destruct (Hf _ _ Hi).
  - intros Hnone. unfold start. rewrite <-(app_nil_r locator), Hskip by done. done.
Qed.

Lemma start_of_elem headers loc : (∃ h, h ∈ headers ∧ HashBlockHeader h ∈ loc) →
  ∃ h, headers !! start_of headers loc = Some h ∧ HashBlockHeader h ∈ loc.
Proof.
  induction loc as [|x loc IH]; intros (h & Hh & Hx); [by apply elem_of_nil in Hx|]. cbn [start_of].
  destruct (list_find _ headers) as [[i h']|] eqn:Hf.
  - apply list_find_Some in Hf as (Hi & <- & _). exists h'. split; [done|left].
  - apply list_find_None in Hf. rewrite Forall_forall in Hf. destruct IH as (h' & Hi & Hl); [|exists h'; split; [done|by right]].
    exists h. split; [done|]. apply elem_of_cons in Hx as [Hx|Hx]; [by destruct (Hf h Hh)|done].
Qed.

(** The headers of a message that passes the checks reach the index. *)
Lemma handleHeaders_adds q pr first rest m :
  let headers := first :: rest in
  m_objs m !! q = Some pr → len headers ≤ MaxHeadersPerMsg → i32 (pr_headersReceived pr + len headers) ≤ maxHeadersPerPeer →
  HasHeader (m_headerIndex m) (hdr_PrevBlock first) = true → in_sequence headers = true →
  m_headerIndex (handleHeaders p engine cf w q (mkHeadersMsg headers) m).2
  = (AddHeaders p engine headers (u32 (w_now w (m_n m) / second)) (m_headerIndex m)).2.
Proof.
  intros headers Hq Hlen Htotal Hhas Hseq. unfold handleHeaders. subst headers. cbn [hm_Headers]. cbn iota. set (headers := first :: rest) in *.
  rewrite (proj2 (Z.ltb_ge _ _)) by done. cbn iota. rewrite proc_bind_eq. unfold on_peer at 1. rewrite Hq.
  cbn beta iota zeta delta [AddHeadersReceived]. rewrite (proj2 (Z.ltb_ge _ _)) by done. cbn iota.
  rewrite gets_bind. cbn [m_headerIndex set_m_objs]. rewrite Hhas, Hseq. cbn iota beta delta [negb]. rewrite now_bind, proc_bind_eq.
  unfold on_headers at 1, on. cbn [m_headerIndex set_m_objs set_m_n m_n].
  destruct (AddHeaders _ _ _ _ _) as [[[added err]|e|] idx']; [|done..]. cbn [snd].
  match goal with |- m_headerIndex (?f ?s).2 = _ => enough (steps (same_field m_headerIndex) f) as Hf by apply Hf end.
  same_walk.
Qed.

Lemma handleHeaders_limit q pr first rest m :
  let headers := first :: rest in
  m_objs m !! q = Some pr → len headers ≤ MaxHeadersPerMsg → maxHeadersPerPeer < i32 (pr_headersReceived pr + len headers) →
  handleHeaders p engine cf w q (mkHeadersMsg headers) m
  = addMisbehavior cf w q 100
      (set_m_objs (<[q := set_pr_headersReceived (i32 (pr_headersReceived pr + len headers)) pr]> (m_objs m)) m).
Proof.
  intros headers Hq Hlen Htotal. unfold handleHeaders. subst headers. cbn [hm_Headers]. cbn iota. set (headers := first :: rest) in *.
  rewrite (proj2 (Z.ltb_ge _ _)) by done. cbn iota. rewrite proc_bind_eq. unfold on_peer at 1. rewrite Hq.
  cbn beta iota zeta delta [AddHeadersReceived]. by rewrite (proj2 (Z.ltb_lt _ _)).
Qed.

Lemma handleHeaders_ignored q pr first rest m :
  let headers := first :: rest in
  m_objs m !! q = Some pr → len headers ≤ MaxHeadersPerMsg → i32 (pr_headersReceived pr + len headers) ≤ maxHeadersPerPeer →
  HasHeader (m_headerIndex m) (hdr_PrevBlock first) = false →
  handleHeaders p engine cf w q (mkHeadersMsg headers) m
  = (Ok (), set_m_objs (<[q := set_pr_headersReceived (i32 (pr_headersReceived pr + len headers)) pr]> (m_objs m)) m).
Proof.
  intros headers Hq Hlen Htotal Hhas. unfold handleHeaders. subst headers. cbn [hm_Headers]. cbn iota. set (headers := first :: rest) in *.
  rewrite (proj2 (Z.ltb_ge _ _)) by done. cbn iota. rewrite proc_bind_eq. unfold on_peer at 1. rewrite Hq.
  cbn beta iota zeta delta [AddHeadersReceived]. rewrite (proj2 (Z.ltb_ge _ _)) by done. cbn iota.
  rewrite gets_bind. cbn [m_headerIndex set_m_objs]. by rewrite Hhas.
Qed.

(** Nothing is served after the last header only. *)
Lemma served_nothing headers i h :
  headers !! i = Some h → [] = upto ZeroHash (take (Z.to_nat MaxHeadersPerMsg) (drop (S i) headers)) → last headers = Some h.
Proof.
  intros Hh Hnil. pose proof (lookup_lt_Some _ _ _ Hh) as Hlt. destruct (drop (S i) headers) as [|x l] eqn:Hd.
  - apply (f_equal length) in Hd. rewrite length_drop in Hd. cbn in Hd. rewrite last_lookup, <-Hh. f_equal. lia.
  - replace (Z.to_nat MaxHeadersPerMsg) with (S 1999) in Hnil by done. cbn [take upto] in Hnil. by case_bool_decide.
Qed.

(** A header with this hash is more than two thousand blocks below another header
    of the index, where [pruneStaleForks] may have removed it. *)
Definition prunable (idx : HeaderIndex) (hash : Hash) : Prop :=
  ∃ r s, (r < length (hi_nodes idx))%nat ∧ (s < length (hi_nodes idx))%nat ∧ hn_Hash (node idx r) = hash ∧
    hn_Height (node idx r) + maxForkDepth ≤ hn_Height (node idx s).

(** The entries of the locator are found in the index unless they were pruned. *)
Lemma locator_known trusted idx hash :
  reached p engine (blk_Header (p_GenesisBlock p)) trusted idx → len (hi_nodes idx) < 2 ^ 32 →
  hash ∈ HeaderLocator idx → HasHeader idx hash = true ∨ prunable idx hash.
Proof.
  intros Hre Hmax [j Hj]%list_elem_of_lookup.
  destruct (HeaderLocator_correct p engine _ trusted _ Hre Hmax) as [(k & _ & Hlen & Hloc & _) _].
  pose proof (reached_ok _ _ _ _ _ Hre Hmax) as Hok. pose proof (lookup_lt_Some _ _ _ Hj).
  rewrite Hloc in Hj by lia. apply fmap_Some in Hj as (r & Hr & ->).
  rewrite (getHeaderByHeight_spec p engine trusted) in Hr by (done || lia).
  destruct (branch_lookup _ (io_tree _ _ _ _ Hok) _ _ _ (best_allocated _ _ _ _ Hok) Hr) as (Hle & _ & _).
  pose proof (best_allocated _ _ _ _ Hok).
  unfold HasHeader. destruct (hi_byHash idx !! hn_Hash (node idx r)) eqn:Hb; [left; by apply bool_decide_eq_true|right].
  destruct (io_kept _ _ _ _ Hok r ltac:(lia) Hb) as (r' & s & ?). by exists r', s.
Qed.

(** C24: The headers that a node asks for with its locator are those that the other
    side serves, and what [handleHeaders] does with the reply.  An empty reply
    means that the tip of the other side is one of the locator's headers.  Any
    other reply is no longer than a message may be, its first header follows a
    header of the locator and each other one the header before it, so none of the
    checks that punish a malformed batch strikes.  Then: if the peer has now sent
    more than [maxHeadersPerPeer] headers in all, it is punished with 100 points,
    although every header was asked for; otherwise the headers are handed to the
    index if it finds the header that the first one follows; and it finds that
    header unless the header is at least 2016 blocks below another one of the
    index, where stale forks are pruned, in which case the batch is ignored.
    Both nodes have the same genesis block, the other side serves a linked main
    chain, and the index was made by its methods and has less than 2^32 headers. *)
Theorem headers_exchange c headers trusted q pr reply m :
  main_chain c headers → reached p engine (blk_Header (p_GenesisBlock p)) trusted (m_headerIndex m) →
  len (hi_nodes (m_headerIndex m)) < 2 ^ 32 → head headers = Some (blk_Header (p_GenesisBlock p)) →
  serve_headers (Z.to_nat MaxHeadersPerMsg) c (HeaderLocator (m_headerIndex m)) ZeroHash = Ok reply →
  m_objs m !! q = Some pr →
  let idx := m_headerIndex m in
  let total := i32 (pr_headersReceived pr + len reply) in
  let counted := set_m_objs (<[q := set_pr_headersReceived total pr]> (m_objs m)) m in
  let result := handleHeaders p engine cf w q (mkHeadersMsg reply) m in
  match reply with
  | [] => result = (Ok (), m) ∧ ∃ tip, last headers = Some tip ∧ HashBlockHeader tip ∈ HeaderLocator idx
  | first :: _ =>
      len reply ≤ MaxHeadersPerMsg ∧ hdr_PrevBlock first ∈ HeaderLocator idx ∧ in_sequence reply = true ∧
      if maxHeadersPerPeer <? total then result = addMisbehavior cf w q 100 counted
      else if HasHeader idx (hdr_PrevBlock first) then
        m_headerIndex result.2 = (AddHeaders p engine reply (u32 (w_now w (m_n m) / second)) idx).2
      else result = (Ok (), counted) ∧ prunable idx (hdr_PrevBlock first)
  end.
Proof.
  intros Hc Hre Hmax Hgen Hserve Hq. cbv zeta.
  destruct (HeaderLocator_correct p engine _ trusted _ Hre Hmax) as [(k & _ & _ & _ & Hlast) _].
  pose proof (λ hash, locator_known trusted (m_headerIndex m) hash Hre Hmax) as Hknown.
  set (idx := m_headerIndex m) in *. set (loc := HeaderLocator idx) in *.
  destruct (start_of_elem headers loc) as (h & Hh & Hin).
  { exists (blk_Header (p_GenesisBlock p)). split; [by apply head_Some_elem_of|].
    apply last_Some_elem_of. done. }
  rewrite (serve_headers_spec _ _ Hc) in Hserve. fold loc in Hserve.
  assert (Hr : reply = upto ZeroHash (take (Z.to_nat MaxHeadersPerMsg) (drop (S (start_of headers loc)) headers))) by congruence.
  clear Hserve Hlast. clearbody loc.
  assert (Hpre : reply `prefix_of` drop (S (start_of headers loc)) headers)
    by (rewrite Hr; etrans; [apply upto_prefix|apply prefix_take]).
  assert (Hle : len reply ≤ MaxHeadersPerMsg).
  { rewrite Hr. etrans; [apply inj_le, upto_length|]. by rewrite Z2Nat.id. }
  destruct reply as [|first rest].
  { split; [done|]. exists h. split; [|done]. by eapply served_nothing. }
  assert (Hprev : hdr_PrevBlock first ∈ loc).
  { rewrite (mc_linked _ _ Hc (start_of headers loc) h first); [done|done|].
    destruct Hpre as [l Hl]. rewrite <-(Nat.add_1_r), <-(Nat.add_0_r (_ + 1)), <-lookup_drop, Nat.add_1_r, Hl. done. }
  assert (Hseq : in_sequence (first :: rest) = true) by by eapply chain_in_sequence.
  split_and!; [done..|]. destruct (Z.ltb_spec maxHeadersPerPeer (i32 (pr_headersReceived pr + len (first :: rest)))).
  { by apply handleHeaders_limit. }
  destruct (HasHeader idx (hdr_PrevBlock first)) eqn:Hhas; [by apply handleHeaders_adds with pr|].
  destruct (Hknown _ Hprev) as [Hk|Hk]; [by rewrite Hhas in Hk|]. split; [|done].
  by apply handleHeaders_ignored.
Qed.
End props.

(** ** Witnesses: a manager on a chain of three blocks *)

#[local] Existing Instance mem_db.
#[local] Existing Instance toy_lib.
#[export] Instance list_store : PeerStore (list (list byte)) := {| GetPeers l := Ok l; PutPeer a l := a :: l |}.

Definition mg_world : World := mkWorld (λ n, 1800000100 * second + Z.of_nat n) (λ _, 7) (λ _, false) (λ _ _ l, l).
Lemma mg_world_ok : world_ok mg_world.
Proof. intros A n l. reflexivity. Qed.
Definition mg_config (slots : Z) : Config := mkConfig (str "0.0.0.0:19333") slots 8 [] 42 (str "/fairchain/") true.
Definition mg_wall (n : nat) : Z := 1800000100 * second + Z.of_nat n.
Notation mg_manager := (Manager FileStore (list (list byte))).

(** The manager when the node starts. *)
Definition mg_empty : mg_manager :=
  mkManager w_chain3 New (NewHeaderIndex hw_genesis) None [] AdjustedClock_New ∅ 0 ∅ 0 ∅ ∅ ∅ 0 ∅ (newBoundedHashSet maxSeenBlocks)
    (newBoundedHashSet maxSeenTxs) ∅ ∅ [] zero_time 0 [] SyncStateInitial [] zero_time 0 0 false zero_time 0
    [] 0 0 zero_time false false 0.
Definition mg_new : res mg_manager := NewManager w_params w_chain3 New [] AdjustedClock_New.
Definition or_else {A} (d : A) (r : res A) : A := match r with Ok a => a | _ => d end.
Definition mg_start : mg_manager := or_else mg_empty mg_new.
Lemma mg_start_eq : mg_new = Ok mg_start.
Proof.
  assert (is_ok mg_new = true) as Hok by (vm_compute; reflexivity). unfold mg_start. destruct mg_new; [reflexivity|discriminate..].
Qed.

(** A peer connects, completes the handshake and is registered. *)
Definition mg_version (addr : string) (nonce : Z) : VersionMsg :=
  mkVersionMsg 4 1 1800000100 (str "0.0.0.0:19333") (str addr) nonce (str "/other/") 2.
Definition mg_header (cmd : string) : MessageHeader := mkMessageHeader [] (str cmd) 0 [].
Definition mg_join (q : nat) (addr : string) (nonce : Z) (m : mg_manager) : mg_manager :=
  let m := (accept_conn (mg_config 25) mg_world (str addr) 0 m).2 in
  let m := (handshake w_params (mg_config 25) mg_world q
              (Ok (mg_header "version", VersionMsg_Encode (mg_version addr nonce))) (Ok (mg_header "verack", [])) m).2 in
  (register_peer (mg_config 25) q m).2.
Definition mg_one : mg_manager := mg_join 0 "8.8.8.8:1000" 1 mg_start.
Definition mg_two : mg_manager := mg_join 1 "9.9.9.9:1000" 2 mg_one.

Notation mg_reachable := (manager_reachable w_params w_engine (mg_config 25) mg_world w_clock w_clock mg_wall mg_wall).
Lemma mg_start_reachable : mg_reachable mg_start.
Proof.
  refine (manager_new _ _ _ _ _ _ _ _ w_chain3 New [] AdjustedClock_New mg_start (reach_New _ _) _).
  pose proof mg_start_eq as Heq. unfold mg_new in Heq. exact Heq.
Qed.
Lemma mg_join_reachable q addr nonce m : mg_reachable m → mg_reachable (mg_join q addr nonce m).
Proof.
  intros Hm. unfold mg_join. eapply manager_next; [|apply on_register]. eapply manager_next; [|apply on_handshake].
  eapply manager_next; [exact Hm|apply on_accept].
Qed.
Lemma mg_two_reachable : mg_reachable mg_two.
Proof. apply mg_join_reachable, mg_join_reachable, mg_start_reachable. Qed.

Lemma mg_two_peer : m_peers mg_two !! str "9.9.9.9:1000" = Some 1%nat.
Proof. vm_compute. reflexivity. Qed.

Lemma manager_invariant_witness :
  (∃ pr, m_objs mg_two !! 1%nat = Some pr ∧ pr_addr pr = str "9.9.9.9:1000" ∧ len (pr_sendQueue pr) ≤ peerSendQueueSize) ∧
  m_headerSyncStalls mg_two < maxStallsBeforeBan.
Proof.
  destruct (manager_invariant w_params w_engine (mg_config 25) mg_world w_clock w_clock mg_wall mg_wall mg_two mg_world_ok
    ltac:(by_decide) mg_two_reachable) as (_ & _ & _ & _ & _ & Hp & _ & _ & _ & Hs).
  split; [|exact Hs]. destruct (Hp (str "9.9.9.9:1000") 1%nat mg_two_peer) as (pr & H1 & H2 & _ & H3 & _).
  exists pr. exact (conj H1 (conj H2 H3)).
Defined.

Lemma ban_enforced_witness :
  let m' := (addMisbehavior (mg_config 25) mg_world 1 100 mg_two).2 in
  is_Some (m_banned m' !! str "9.9.9.9") ∧ (accept_conn (mg_config 25) mg_world (str "9.9.9.9:2000") 0 m').1 = Ok None.
Proof.
  destruct (m_objs mg_two !! 1%nat) as [pr|] eqn:Hpr.
  2: { assert (is_Some (m_objs mg_two !! 1%nat)) as [x Hx] by (vm_compute; eexists; reflexivity). congruence. }
  assert (Haddr : pr_addr <$> m_objs mg_two !! 1%nat = Some (str "9.9.9.9:1000")) by (vm_compute; reflexivity).
  assert (Hscore : pr_banScore <$> m_objs mg_two !! 1%nat = Some 0) by (vm_compute; reflexivity).
  rewrite Hpr in Haddr, Hscore. injection Haddr as Haddr. injection Hscore as Hscore.
  pose proof (proj2 (ban_enforced (mg_config 25) mg_world 1 100 pr mg_two Hpr)) as Hban.
  rewrite Haddr, Hscore in Hban. specialize (Hban ltac:(by_decide) ltac:(by_decide)).
  assert (Hn : w_now mg_world (m_n (addMisbehavior (mg_config 25) mg_world 1 100 mg_two).2)
    ≤ w_now mg_world (m_n mg_two) + BanDuration) by (vm_compute; discriminate).
  cbv zeta. clear Hpr Haddr Hscore. set (t := w_now mg_world (m_n mg_two) + BanDuration) in *. clearbody t.
  destruct (addMisbehavior (mg_config 25) mg_world 1 100 mg_two) as [r m']. destruct Hban as (_ & Hb & _ & Hacc).
  assert (Hip : extractIP (str "9.9.9.9:1000") = str "9.9.9.9") by by_decide.
  assert (Hip2 : extractIP (str "9.9.9.9:2000") = str "9.9.9.9") by by_decide. rewrite Hip in Hb, Hacc.
  assert (Hbn : m_banned m' !! str "9.9.9.9" = Some t) by (rewrite Hb; apply lookup_insert_eq). clear Hb.
  split; [exists t; exact Hbn|]. rewrite <-Hip2 in Hbn.
  rewrite (proj1 (Hacc m' (str "9.9.9.9:2000") Hip2 Hbn Hn)). reflexivity.
Defined.

Lemma accept_without_slots_panics_witness :
  (accept_conn (mg_config 0) mg_world (str "9.9.9.9:2000") 0 mg_start).1 = Panic.
Proof.
  apply (accept_without_slots_panics (mg_config 0) mg_world (str "9.9.9.9:2000") 0 mg_start mg_world_ok).
  - cbn. lia.
  - assert (peer_objs mg_start = []) as -> by (vm_compute; reflexivity). by intros pr Hpr%elem_of_nil.
  - vm_compute. reflexivity.
Defined.

(** The main chain after the reorganisation. *)
Definition mg_headers : list BlockHeader := [hw_genesis; blk_Header w_b1; blk_Header w_b2].
Lemma mg_tip : c_tipHeight w_chain3 = 2.
Proof. vm_compute. reflexivity. Qed.
Lemma mg_main_chain : main_chain w_chain3 mg_headers.
Proof.
  assert (Hall : ∀ P : nat → BlockHeader → Prop, P 0%nat hw_genesis → P 1%nat (blk_Header w_b1) → P 2%nat (blk_Header w_b2) →
    ∀ i h, mg_headers !! i = Some h → P i h).
  { intros P P0 P1 P2 [|[|[|i]]] h [= <-]; done. }
  split; rewrite ?mg_tip.
  - reflexivity.
  - lia.
  - apply Hall; vm_compute; reflexivity.
  - intros n hash Hn. assert (Hmap : map_Forall (λ n (_ : Hash), 0 ≤ n ≤ 2) (c_hashByHeight w_chain3)).
    { apply (bool_decide_unpack _). vm_compute. exact I. }
    exact (Hmap n hash Hn).
  - apply Hall; vm_compute; reflexivity.
  - apply Hall; vm_compute; reflexivity.
  - intros i h h' Hi. revert i h Hi h'.
    apply (Hall (λ i h, ∀ h', mg_headers !! S i = Some h' → hdr_PrevBlock h' = HashBlockHeader h)); intros h' [= <-];
      vm_compute; reflexivity.
Qed.

Lemma headers_served_witness :
  serve_headers 500 w_chain3 [HashBlockHeader (blk_Header w_a1); HashBlockHeader (blk_Header w_b1)] ZeroHash
  = Ok [blk_Header w_b2].
Proof.
  destruct (headers_served w_chain3 mg_headers 500 [HashBlockHeader (blk_Header w_a1); HashBlockHeader (blk_Header w_b1)] ZeroHash
    mg_main_chain) as (-> & _). vm_compute. reflexivity.
Defined.

(** A node that knows the losing branch asks for headers. *)
Definition mg_client : mg_manager := set_m_headerIndex hw_index1 mg_two.
Lemma headers_exchange_witness :
  BestHeaderHeight (m_headerIndex mg_client) = 1 ∧
  BestHeaderHeight (m_headerIndex (handleHeaders w_params w_engine (mg_config 25) mg_world 1
    (mkHeadersMsg [blk_Header w_b1; blk_Header w_b2]) mg_client).2) = 2.
Proof.
  split; [vm_compute; reflexivity|].
  assert (Hobj : ∃ pr, m_objs mg_client !! 1%nat = Some pr ∧ pr_headersReceived pr = 0).
  { assert (Hr : pr_headersReceived <$> m_objs mg_client !! 1%nat = Some 0) by (vm_compute; reflexivity).
    destruct (m_objs mg_client !! 1%nat) as [pr|]; [|discriminate Hr]. injection Hr as Hr. exists pr. split; [reflexivity|exact Hr]. }
  destruct Hobj as (pr & Hpr & Hrec).
  destruct (headers_exchange w_params w_engine (mg_config 25) mg_world w_chain3 mg_headers [] 1 pr
    [blk_Header w_b1; blk_Header w_b2] mg_client mg_main_chain) as (_ & _ & _ & Hres).
  - unfold mg_client, hw_index1, hw_add. apply reached_add, reached_new.
  - vm_compute. reflexivity.
  - reflexivity.
  - vm_compute. reflexivity.
  - exact Hpr.
  - rewrite Hrec in Hres.
    assert (Hhas : HasHeader (m_headerIndex mg_client) (hdr_PrevBlock (blk_Header w_b1)) = true)
      by (vm_compute; reflexivity).
    rewrite Hhas in Hres. change (maxHeadersPerPeer <? i32 (0 + _)) with false in Hres. cbn iota in Hres.
    rewrite Hres. vm_compute. reflexivity.
Defined.
