(* ===== verification/Relay.v ===== *)
(** * Relay of transactions and blocks

    What a message with a transaction, and the announcement of a block, change at
    every peer. *)
From S2P Require Import Prelude Types Sha256 Target Merkle Params Utxo Keys Script TxValidation.
From S2P Require Import Algorithms Validation Difficulty Pow TimeAdjust BlockFiles Store Chain ChainProps Heap Mempool.
From S2P Require Import MempoolProps Protocol Headers Scheduler Net Peer ManagerState Manager Sync ManagerInv ManagerProps.

(** ** Shuffling *)

Lemma shuffle_loop_perm {A} draw i (l : list A) : shuffle_loop draw i l ≡ₚ l.
Proof.
  revert l. induction i as [|i IH]; intros l; cbn [shuffle_loop]; [done|]. by rewrite IH, list_swap_perm.
Qed.
Lemma shuffle_perm {A} draw (l : list A) : shuffle draw l ≡ₚ l.
Proof. apply shuffle_loop_perm. Qed.

Lemma Has_Add h s : Has h (Add h s) = true.
Proof.
  unfold Add. destruct (Has h s) eqn:Hh; [done|]. unfold Has, hs_append. cbn. apply bool_decide_true. set_solver.
Qed.

Section relay.
Context {St : Type} `{BlockStore St} `{CryptoLib} {PS : Type} `{PeerStore PS}.
Context (p : ChainParams) (w : World).
Implicit Types m : Manager St PS.
Notation M := (proc (Manager St PS)).

(** ** A loop over peers *)

Lemma upd_peer_eq q f pr m : m_objs m !! q = Some pr →
  upd_peer q f m = (Ok (), set_m_objs (<[q := f pr]> (m_objs m)) m).
Proof. intros Hq. unfold upd_peer, on_peer. by rewrite Hq. Qed.

Lemma set_objs_id m : set_m_objs (m_objs m) m = m.
Proof. by destruct m. Qed.

(** A loop whose turns change one peer each. *)
Lemma foldP_objs (g : Peer → Peer) (body : () → nat → M ()) qs m :
  (∀ q m pr, m_objs m !! q = Some pr → body () q m = (Ok (), set_m_objs (<[q := g pr]> (m_objs m)) m)) →
  NoDup qs → (∀ q, q ∈ qs → is_Some (m_objs m !! q)) →
  ∃ objs, foldP body () qs m = (Ok (), set_m_objs objs m) ∧
    ∀ q, objs !! q = if decide (q ∈ qs) then g <$> m_objs m !! q else m_objs m !! q.
Proof.
  intros Hbody Hnd. revert m. induction Hnd as [|q qs Hq Hnd IH]; intros m Hin; cbn [foldP].
  - exists (m_objs m). split; [by rewrite set_objs_id|]. intros q. by rewrite decide_False by apply not_elem_of_nil.
  - destruct (Hin q) as [pr Hpr]; [by left|]. rewrite proc_bind_eq, (Hbody _ _ _ Hpr).
    destruct (IH (set_m_objs (<[q := g pr]> (m_objs m)) m)) as (objs & Hrun & Hobjs).
    { intros r Hr. cbn. destruct (decide (r = q)) as [->|]; [by rewrite lookup_insert_eq|].
      rewrite lookup_insert_ne by done. apply Hin. by right. }
    exists objs. split; [exact Hrun|]. intros r. rewrite Hobjs. cbn. destruct (decide (r = q)) as [->|Hne].
    + rewrite decide_False by done. rewrite decide_True by left. by rewrite lookup_insert_eq, Hpr.
    + rewrite lookup_insert_ne by done. destruct (decide (r ∈ qs)).
      * by rewrite decide_True by (right; done).
      * rewrite decide_False; [done|]. by intros [|]%elem_of_cons.
Qed.

(** The part of the invariant about the peers that is needed here: a registered
    peer is an object with its address. *)
Definition peers_valid m : Prop :=
  ∀ addr q, m_peers m !! addr = Some q → ∃ pr, m_objs m !! q = Some pr ∧ pr_addr pr = addr.
Lemma manager_ok_peers engine mwall swall m : manager_ok p engine mwall swall m → peers_valid m.
Proof. intros Hm addr q Hq. destruct (mo_peers _ _ _ _ _ Hm _ _ Hq) as (pr & ? & ? & _). eauto. Qed.

Lemma peers_valid_upd q pr pr' m : peers_valid m → m_objs m !! q = Some pr → pr_addr pr' = pr_addr pr →
  peers_valid (set_m_objs (<[q := pr']> (m_objs m)) m).
Proof.
  intros Hm Hq Ha addr r Hr. cbn in Hr |- *. destruct (Hm addr r Hr) as (pr0 & Hr1 & Hr2).
  destruct (decide (r = q)) as [->|]; [|rewrite lookup_insert_ne by done; eauto].
  rewrite lookup_insert_eq. exists pr'. split; [done|]. congruence.
Qed.

Lemma set_chain_valid c m : peers_valid m → peers_valid (set_m_chain c m).
Proof. intros Hm. exact Hm. Qed.

(** The pointers of a [range] over the peers are valid and without repetition. *)
Lemma range_peers_valid n m : world_ok w → peers_valid m →
  let qs := (w_iter w _ n (map_to_list (m_peers m))).*2 in
  NoDup qs ∧ ∀ q, q ∈ qs → is_Some (m_objs m !! q).
Proof.
  intros Hw Hm qs. split.
  - unfold qs. rewrite (Hw _ n (map_to_list (m_peers m))). apply NoDup_fmap_2_strong; [|apply NoDup_map_to_list].
    intros [a1 q1] [a2 q2] H1'%elem_of_map_to_list H2'%elem_of_map_to_list. cbn. intros <-. f_equal.
    destruct (Hm _ _ H1') as (pr1 & ? & <-), (Hm _ _ H2') as (pr2 & ? & <-). congruence.
  - intros q [addr Ha]%range_peers_elem; [|done]. destruct (Hm _ _ Ha) as (pr & Hpr & _). by eexists.
Qed.

(** ** Transactions *)

(** The pointers of the registered peers. *)
Definition registered m : list nat := (map_to_list (m_peers m)).*2.
Definition inv_payload (hash : Hash) : list byte := InvMsg_Encode (mkInvMsg [mkInvVector InvTypeTx hash]).
(** What an announcement does to a peer: nothing when it knows the hash. *)
Definition inv_sent (hash : Hash) (pr : Peer) : Peer :=
  if HasKnownInventory hash pr then pr else SendMessage "inv" (inv_payload hash) (AddKnownInventory hash pr).

Lemma BroadcastTx_spec hash m : world_ok w → peers_valid m →
  ∃ objs n, BroadcastTx w hash m
    = (Ok (), set_m_objs objs (set_m_n n (set_m_seenTxs (Add hash (m_seenTxs m)) m))) ∧
    ∀ q, objs !! q = if decide (q ∈ registered m) then inv_sent hash <$> m_objs m !! q else m_objs m !! q.
Proof.
  intros Hw Hm. unfold BroadcastTx. rewrite modify_bind. cbv zeta. rewrite range_peers_bind. cbn [m_n m_peers set_m_seenTxs].
  destruct (range_peers_valid (m_n m) m Hw Hm) as [Hnd Hvalid].
  set (qs := (w_iter w _ (m_n m) (map_to_list (m_peers m))).*2) in *.
  match goal with |- context [foldP ?b () qs ?s] =>
    destruct (foldP_objs (inv_sent hash) b qs s) as (objs & Hrun & Hobjs) end;
    [..|exists objs; eexists; split; [exact Hrun|]].
  - intros q m1 pr Hpr. rewrite proc_bind_eq, (peer_is_eq _ _ _ _ Hpr). cbn iota beta. unfold inv_sent.
    destruct (HasKnownInventory hash pr).
    + by rewrite insert_id, set_objs_id.
    + rewrite proc_bind_eq, (upd_peer_eq _ _ _ _ Hpr). unfold send.
      rewrite (upd_peer_eq _ _ (AddKnownInventory hash pr)) by (cbn; by rewrite lookup_insert_eq).
      cbn [m_objs set_m_objs]. by rewrite insert_insert_eq.
  - exact Hnd.
  - exact Hvalid.
  - intros q. rewrite Hobjs. cbn [m_objs set_m_n set_m_seenTxs].
    assert (Hin : q ∈ qs ↔ q ∈ registered m).
    { unfold qs, registered. by rewrite (Hw _ (m_n m) (map_to_list (m_peers m))). }
    destruct (decide (q ∈ qs)); [rewrite decide_True by tauto|rewrite decide_False by tauto]; done.
Qed.

(** C26: A message with a transaction.  A hash that was seen before changes nothing
    but the inventory of the sender.  Otherwise the hash is marked as seen and
    the transaction is offered to the pool; when the pool refuses it, nobody is
    told; when the pool takes it, every registered peer that does not know the
    hash gets one announcement, and the others, the sender among them, get
    nothing. *)
Theorem transaction_relay mwall q tx pr m :
  let hash := HashTransaction tx in
  world_ok w → peers_valid m → m_objs m !! q = Some pr →
  let '(r, m') := handleTx p w mwall q tx m in
  let '(added, pool) := AddTx p mwall (c_utxoSet (m_chain m)) (c_tipHeight (m_chain m)) tx (m_mempool m) in
  (Has hash (m_seenTxs m) = true →
     r = Ok () ∧ m' = set_m_objs (<[q := AddKnownInventory hash pr]> (m_objs m)) m) ∧
  (Has hash (m_seenTxs m) = false →
     m_mempool m' = pool ∧ Has hash (m_seenTxs m') = true ∧ m_chain m' = m_chain m ∧ m_peers m' = m_peers m ∧
     (∀ e, added = Err e → r = Ok () ∧ m_objs m' = <[q := AddKnownInventory hash pr]> (m_objs m)) ∧
     (∀ h, added = Ok h → r = Ok () ∧
        (∃ pr', m_objs m' !! q = Some pr' ∧ pr_sendQueue pr' = pr_sendQueue pr) ∧
        (∀ q', q' ≠ q → m_objs m' !! q' =
           if decide (q' ∈ registered m) then inv_sent hash <$> m_objs m !! q' else m_objs m !! q'))).
Proof.
  intros hash Hw Hm Hq. unfold handleTx. rewrite proc_bind_eq, (upd_peer_eq _ _ _ _ Hq), gets_bind. fold hash.
  cbn [id m_seenTxs set_m_objs]. unfold AddOrHas. destruct (Has hash (m_seenTxs m)) eqn:Hseen.
  { rewrite modify_bind. destruct (AddTx _ _ _ _ _ _) as [added pool]. split; [|done]. intros _. split; [done|]. by destruct m. }
  rewrite modify_bind, gets_bind. cbn [m_chain m_mempool set_m_seenTxs set_m_objs].
  destruct (AddTx _ _ _ _ _ _) as [added pool] eqn:Hadd. rewrite modify_bind. cbn [fst snd].
  assert (Has hash (hs_append hash (evictUntilSpace (m_seenTxs m))) = true) as Hnow.
  { pose proof (Has_Add hash (m_seenTxs m)) as Ha. unfold Add in Ha. by rewrite Hseen in Ha. }
  destruct added as [h0|e|]; [|split; [done|]; intros _; split_and!; try done..].
  rewrite now_bind, proc_bind_eq.
  erewrite upd_peer_eq by (cbn; apply lookup_insert_eq).
  match goal with |- context [BroadcastTx w hash ?s] => destruct (BroadcastTx_spec hash s Hw) as (objs & n & Hrun & Hobjs) end.
  { apply (peers_valid_upd _ (AddKnownInventory hash pr)); [|cbn; by rewrite lookup_insert_eq|done].
    intros addr r Hr. cbn in Hr |- *. by apply (peers_valid_upd q pr (AddKnownInventory hash pr) m Hm Hq). }
  rewrite Hrun. split; [done|]. intros _. cbn -[registered] in Hobjs |- *. rewrite insert_insert_eq in Hobjs.
  split_and!; try done; [apply Has_Add|].
  intros h _. split_and!; [done| |].
  - rewrite Hobjs, lookup_insert_eq. cbn. unfold inv_sent.
    assert (HasKnownInventory hash (set_pr_lastTxTime (w_now w (m_n m) `div` second) (AddKnownInventory hash pr)) = true)
      as Hk by apply Has_Add.
    destruct (decide _); eexists; (split; [done|]); rewrite ?Hk; done.
  - intros q' Hne. rewrite Hobjs, lookup_insert_ne by done. done.
Qed.

(** ** Blocks *)

(** The message to the [i]-th peer that is told about a block. *)
Definition announcement (hash : Hash) (block : Block) (i : nat) (pr : Peer) : string * list byte :=
  if bool_decide (i < maxDirectPush)%nat then ("block"%string, Block_SerializeToBytes block)
  else if pr_prefersHeaders pr then ("headers"%string, HeadersMsg_Encode (mkHeadersMsg [blk_Header block]))
  else ("inv"%string, InvMsg_Encode (mkInvMsg [mkInvVector InvTypeBlock hash])).
Definition announced (hash : Hash) (block : Block) (i : nat) (room : bool) (pr : Peer) : Peer :=
  SendCritical room (announcement hash block i pr).1 (announcement hash block i pr).2 (AddKnownInventory hash pr).

Lemma announce_block_eq hash block i q pr m : m_objs m !! q = Some pr →
  ∃ room, announce_block w hash block i q m
    = (Ok (S i), set_m_objs (<[q := announced hash block i room pr]> (m_objs m)) (set_m_n (S (m_n m)) m)).
Proof.
  intros Hq. exists (w_room w (m_n m)). unfold announce_block. rewrite proc_bind_eq, (upd_peer_eq _ _ _ _ Hq).
  rewrite proc_bind_eq, (peer_is_eq _ _ (AddKnownInventory hash pr)) by (cbn; by rewrite lookup_insert_eq).
  cbn [pr_prefersHeaders AddKnownInventory set_pr_knownInv].
  assert (Hsend : ∀ cmd payload, send_critical w q cmd payload (set_m_objs (<[q := AddKnownInventory hash pr]> (m_objs m)) m)
    = (Ok (), set_m_objs (<[q := SendCritical (w_room w (m_n m)) cmd payload (AddKnownInventory hash pr)]> (m_objs m))
                (set_m_n (S (m_n m)) m))).
  { intros cmd payload. unfold send_critical. rewrite proc_bind_eq. cbn beta iota delta [next].
    erewrite upd_peer_eq by (cbn; apply lookup_insert_eq). cbn. by rewrite insert_insert_eq. }
  rewrite proc_bind_eq. unfold announced, announcement.
  destruct (bool_decide (i < maxDirectPush)%nat); [by rewrite Hsend|]. destruct (pr_prefersHeaders pr); by rewrite Hsend.
Qed.

Lemma announce_all hash block qs i m : NoDup qs → (∀ q, q ∈ qs → is_Some (m_objs m !! q)) →
  ∃ objs n, foldP (announce_block w hash block) i qs m = (Ok (i + length qs)%nat, set_m_objs objs (set_m_n n m)) ∧
    (∀ k q, qs !! k = Some q → ∃ room, objs !! q = announced hash block (i + k) room <$> m_objs m !! q) ∧
    (∀ q, q ∉ qs → objs !! q = m_objs m !! q).
Proof.
  intros Hnd. revert i m. induction Hnd as [|q qs Hq Hnd IH]; intros i m Hin; cbn [foldP].
  - exists (m_objs m), (m_n m). split_and!; [|done|done]. rewrite Nat.add_0_r. by destruct m.
  - destruct (Hin q) as [pr Hpr]; [by left|]. destruct (announce_block_eq hash block i q pr m Hpr) as [room Hstep].
    rewrite proc_bind_eq, Hstep. destruct (IH (S i) (set_m_objs (<[q := announced hash block i room pr]> (m_objs m))
      (set_m_n (S (m_n m)) m))) as (objs & n & Hrun & Hobjs & Hrest).
    { intros r Hr. cbn. rewrite lookup_insert_ne by set_solver. apply Hin. by right. }
    exists objs, n. split_and!.
    + rewrite Hrun. cbn [length]. by rewrite Nat.add_succ_r.
    + intros [|k] r Hr; cbn in Hr.
      * simplify_eq. exists room. rewrite (Hrest r Hq). cbn. by rewrite lookup_insert_eq, Hpr, Nat.add_0_r.
      * destruct (Hobjs k r Hr) as [room' ->]. exists room'. cbn. rewrite lookup_insert_ne, Nat.add_succ_r; [done|].
        intros <-. by apply list_elem_of_lookup_2 in Hr.
    + intros r Hr. rewrite (Hrest r) by set_solver. cbn. rewrite lookup_insert_ne by set_solver. done.
Qed.

Lemma shuffled_bind {A B} (l : list A) (g : list A → M B) m :
  ∃ l', l' ≡ₚ l ∧ (shuffled w l ≫= g) m = g l' (set_m_n (S (m_n m)) m).
Proof. eexists. split; [apply shuffle_perm|done]. Qed.

(** The peers that are told about a block, in the order drawn. *)
Record told hash block m (objs : gmap nat Peer) (order : list nat) : Prop := {
  td_order : order ≡ₚ filter (λ q, HasKnownInventory hash <$> m_objs m !! q = Some false) (registered m);
  td_nodup : NoDup order;
  td_in k q pr : order !! k = Some q → m_objs m !! q = Some pr →
    ∃ room, objs !! q = Some (announced hash block k room pr);
  td_out q : q ∉ order → objs !! q = m_objs m !! q
}.

Lemma BroadcastBlock_spec hash block m : world_ok w → peers_valid m →
  ∃ objs n order, BroadcastBlock w hash block m
    = (Ok (), set_m_objs objs (set_m_n n (set_m_seenBlocks (Add hash (m_seenBlocks m)) m))) ∧
    told hash block m objs order.
Proof.
  intros Hw Hm. unfold BroadcastBlock. rewrite modify_bind, range_peers_bind, gets_bind. cbn [m_n m_peers m_objs set_m_seenBlocks set_m_n].
  destruct (range_peers_valid (m_n m) m Hw Hm) as [Hnd Hvalid].
  set (qs := (w_iter w _ (m_n m) (map_to_list (m_peers m))).*2) in *.
  match goal with |- context [(shuffled w ?l ≫= ?g) ?s] => destruct (shuffled_bind l g s) as (order & Hperm & ->) end.
  assert (Hndo : NoDup order) by (rewrite Hperm; by apply NoDup_filter).
  match goal with |- context [(foldP _ _ _ ≫= _) ?s] =>
    destruct (announce_all hash block order 0 s Hndo) as (objs & n & Hrun & Hobjs & Hrest) end.
  { intros q. rewrite Hperm. intros [_ Hin]%list_elem_of_filter. by apply Hvalid. }
  rewrite proc_bind_eq, Hrun. exists objs, n, order. split; [done|]. split; [|done|..].
  - rewrite Hperm. unfold qs, registered. by rewrite (Hw _ (m_n m) (map_to_list (m_peers m))).
  - intros k q pr Hk Hpr. destruct (Hobjs k q Hk) as [room Hroom]. exists room. cbn in Hroom |- *. by rewrite Hroom, Hpr.
  - intros q Hq. apply (Hrest q Hq).
Qed.

(** The announcement of a block: the registered peers that do not know its hash,
    in an order drawn at random, get one message each; the first three get the
    block itself, the others its header when they asked for headers, or its hash.
    Nothing changes at the other peers, and the hash is marked as seen. *)
Theorem block_relay hash block m :
  world_ok w → peers_valid m →
  let '(r, m') := BroadcastBlock w hash block m in
  r = Ok () ∧ Has hash (m_seenBlocks m') = true ∧
  ∃ order, order ≡ₚ filter (λ q, HasKnownInventory hash <$> m_objs m !! q = Some false) (registered m) ∧ NoDup order ∧
    (∀ k q pr, order !! k = Some q → m_objs m !! q = Some pr →
       ∃ room, m_objs m' !! q = Some (announced hash block k room pr)) ∧
    (∀ q, q ∉ order → m_objs m' !! q = m_objs m !! q).
Proof.
  intros Hw Hm. destruct (BroadcastBlock_spec hash block m Hw Hm) as (objs & n & order & -> & [Hperm Hnd Hin Hout]).
  split_and!; [done|apply Has_Add|]. by exists order.
Qed.
End relay.

(** ** Witnesses *)

#[local] Existing Instance mem_db.
#[local] Existing Instance toy_lib.

(** Two peers, and coins that the transaction spends. *)
Definition rw_manager : Manager FileStore (list (list byte)) := set_m_chain (set_utxoSet mw_set w_chain3) mg_two.
Lemma mg_two_valid : peers_valid mg_two.
Proof. exact (manager_ok_peers _ _ _ _ mg_two (manager_reachable_ok _ _ _ _ _ _ _ _ mg_world_ok mg_two mg_two_reachable)). Qed.
Lemma rw_valid : peers_valid rw_manager.
Proof. exact (set_chain_valid _ mg_two mg_two_valid). Qed.

Lemma rw_object m q : is_Some (m_objs m !! q : option Peer) → ∃ pr : Peer, (m_objs (m : Manager FileStore (list (list byte)))) !! q = Some pr.
Proof. intros [pr Hpr]. exists pr. exact Hpr. Qed.

Lemma transaction_relay_witness :
  let m' := (handleTx Regtest mg_world mw_wall 0 mw_tx1 rw_manager).2 in
  (handleTx Regtest mg_world mw_wall 0 mw_tx1 rw_manager).1 = Ok () ∧
  m_objs m' !! 1%nat = inv_sent (HashTransaction mw_tx1) <$> m_objs rw_manager !! 1%nat ∧
  HasKnownInventory (HashTransaction mw_tx1) <$> m_objs rw_manager !! 1%nat = Some false.
Proof.
  destruct (rw_object rw_manager 0) as [pr Hpr]; [vm_compute; eexists; reflexivity|].
  pose proof (transaction_relay Regtest mg_world mw_wall 0 mw_tx1 pr rw_manager mg_world_ok rw_valid Hpr) as Hrel.
  cbv zeta.
  assert (Hseen : Has (HashTransaction mw_tx1) (m_seenTxs rw_manager) = false) by (vm_compute; reflexivity).
  assert (Hadd : is_ok (AddTx Regtest mw_wall (c_utxoSet (m_chain rw_manager)) (c_tipHeight (m_chain rw_manager)) mw_tx1
    (m_mempool rw_manager)).1 = true) by (vm_compute; reflexivity).
  assert (Hreg : bool_decide (1%nat ∈ registered rw_manager) = true) by (vm_compute; reflexivity).
  assert (Hknown : HasKnownInventory (HashTransaction mw_tx1) <$> m_objs rw_manager !! 1%nat = Some false)
    by (vm_compute; reflexivity).
  destruct (handleTx Regtest mg_world mw_wall 0 mw_tx1 rw_manager) as [r m'].
  destruct (AddTx Regtest mw_wall (c_utxoSet (m_chain rw_manager)) (c_tipHeight (m_chain rw_manager)) mw_tx1
    (m_mempool rw_manager)) as [[h|e|] pool]; [|discriminate Hadd..].
  destruct Hrel as [_ Hnew]. destruct (Hnew Hseen) as (_ & _ & _ & _ & _ & Hok). destruct (Hok h eq_refl) as (Hr & _ & Hq).
  split; [exact Hr|]. split; [|exact Hknown]. cbn [snd]. rewrite (Hq 1%nat) by discriminate.
  apply bool_decide_eq_true in Hreg. rewrite decide_True by exact Hreg. reflexivity.
Defined.

Lemma block_relay_witness :
  let m' := (BroadcastBlock mg_world (HashBlockHeader (blk_Header w_a1)) w_a1 mg_two).2 in
  (BroadcastBlock mg_world (HashBlockHeader (blk_Header w_a1)) w_a1 mg_two).1 = Ok () ∧
  Has (HashBlockHeader (blk_Header w_a1)) (m_seenBlocks m') = true.
Proof.
  pose proof (block_relay mg_world (HashBlockHeader (blk_Header w_a1)) w_a1 mg_two mg_world_ok mg_two_valid) as Hrel.
  cbv zeta. destruct (BroadcastBlock mg_world (HashBlockHeader (blk_Header w_a1)) w_a1 mg_two) as [r m'].
  destruct Hrel as (Hr & Hs & _). split; [exact Hr|exact Hs].
Defined.
