(* ===== verification/SyncProps.v ===== *)
(** * Properties of the synchronisation

    The transitions of its state machine and when the node takes itself to be
    synced, the pipeline of the fast synchronisation, and what happens to blocks
    and headers that come at the wrong time or do not have the work. *)
From S2P Require Import Prelude Types Sha256 Target Merkle Params Utxo Keys Script TxValidation.
From S2P Require Import Algorithms Validation Difficulty Pow TimeAdjust BlockFiles Store Chain ChainProps Heap Mempool.
From S2P Require Import MempoolProps Protocol Headers Scheduler Net Peer ManagerState Manager Sync ManagerInv ManagerProps Relay.

Section sync_props.
Context {St : Type} `{BlockStore St} `{CryptoLib} {PS : Type} `{PeerStore PS}.
Context (p : ChainParams) (engine : Engine) (cf : Config) (w : World).
Context (cwall cadjusted mwall swall : nat → Z).
Implicit Types m : Manager St PS.
Notation M := (proc (Manager St PS)).

(** ** The state machine *)

(** The state stays or becomes one of [l]. *)
Definition moves (l : list SyncState) m m' : Prop := m_syncState m' = m_syncState m ∨ m_syncState m' ∈ l.
#[local] Instance moves_preorder l : PreOrder (moves l).
Proof. split; unfold moves; [by left|]. intros m1 m2 m3 [->|] [->|]; auto. Qed.

Lemma same_moves l {A} (f : M A) : steps (same_field m_syncState) f → steps (moves l) f.
Proof. intros Hf m. left. apply Hf. Qed.
Lemma transition_moves l st : st ∈ l → steps (moves l) (transitionSyncState st).
Proof. intros Hst m. by right. Qed.

Ltac moves_walk :=
  repeat first
    [ progress intros
    | progress cbv zeta
    | match goal with
      | |- steps _ (transitionSyncState _) => apply transition_moves; set_solver
      | |- steps _ (mbind _ _) => apply steps_bind; [apply _| |intros ?]
      | |- steps _ (match ?x with _ => _ end) => destruct x
      | |- steps (moves _) _ => solve [apply same_moves; same_walk]
      end ].

Lemma message_state q cmd payload :
  steps (same_field m_syncState) (peer_turn p engine cf w cwall cadjusted mwall swall q cmd payload : M bool).
Proof. same_walk. Qed.

Lemma initial_moves : steps (moves [SyncStateHeaderSync; SyncStateBlockSync; SyncStateSynced]) (handleSyncInitial p w cwall : M ()).
Proof. unfold handleSyncInitial. moves_walk. Qed.
Lemma header_sync_moves : steps (moves [SyncStateBlockSync]) (handleHeaderSyncTick w : M ()).
Proof. unfold handleHeaderSyncTick, header_phase_done. moves_walk. Qed.
Lemma synced_moves : steps (moves [SyncStateInitial]) (handleSyncedTick p w cwall : M ()).
Proof. unfold handleSyncedTick. moves_walk. Qed.
Lemma request_batches_same {X} (F : Manager St PS → X) fuel q best :
  (∀ o m, F (set_m_objs o m) = F m) → (∀ x y m, F (set_m_fastSyncNextHeight x (set_m_fastSyncInFlight y m)) = F m) →
  steps (same_field F) (request_batches fuel q best : M ()).
Proof.
  intros Ho Hf. induction fuel as [|fuel IH]; cbn [request_batches]; [apply steps_ret; apply _|].
  apply steps_bind; [apply _|apply steps_gets; apply _|]. intros a. cbv zeta. case_match; [|apply steps_ret; apply _].
  case_match; [apply steps_ret; apply _|]. apply steps_bind; [apply _|by apply same_on_peer|]. intros _.
  apply steps_bind; [apply _|apply same_modify; intros; apply Hf|done].
Qed.

Lemma block_sync_moves : steps (moves [SyncStateSynced]) (handleBlockSyncTick p engine cf w cwall cadjusted swall : M ()).
Proof.
  unfold handleBlockSyncTick, handleFastSyncTick, handleLegacyBlockSync, scheduler_tick. moves_walk.
  by apply same_moves, request_batches_same.
Qed.

(** *** When the block phase ends *)

(** A run from a state that is not SYNCED ends in SYNCED only with [Q]. *)
Definition synced_only (Q : Manager St PS → Prop) {A} (f : M A) : Prop :=
  ∀ m, m_syncState m ≠ SyncStateSynced → m_syncState (f m).2 = SyncStateSynced → Q (f m).2.

Lemma synced_only_same Q {A} (f : M A) : steps (same_field m_syncState) f → synced_only Q f.
Proof. intros Hf m Hm Heq. rewrite (Hf m) in Heq. done. Qed.
Lemma synced_only_bind Q {A B} (f : M A) (g : A → M B) :
  steps (same_field m_syncState) f → (∀ a, synced_only Q (g a)) → synced_only Q (f ≫= g).
Proof.
  intros Hf Hg m Hm. specialize (Hf m). unfold same_field in Hf. rewrite proc_bind_eq.
  destruct (f m) as [[a|e|] m1]; cbn in *; [apply Hg|..]; congruence.
Qed.

Definition sched_complete m : Prop := ∃ s, m_scheduler m = Some s ∧ IsComplete s = true.
Lemma scheduler_tick_done s : synced_only sched_complete (scheduler_tick p engine cf w cwall cadjusted swall s : M ()).
Proof.
  unfold scheduler_tick. do 3 (apply synced_only_bind; [same_walk|intros ?; cbv zeta]).
  destruct (DrainReady _ _ _) as [ready s1]. do 5 (apply synced_only_bind; [same_walk|intros ?]).
  intros m Hm. rewrite gets_bind. destruct (m_scheduler m) as [s2|] eqn:Hs; [|done].
  destruct (IsComplete s2) eqn:Hc; [|done]. intros _. by exists s2.
Qed.

Lemma fast_tick_done m : m_syncState m ≠ SyncStateSynced →
  m_syncState (handleFastSyncTick w m).2 = SyncStateSynced → BestHeaderHeight (m_headerIndex m) ≤ tip_height m.
Proof.
  intros Hm. unfold handleFastSyncTick. rewrite gets_bind. cbn [id]. cbv zeta.
  destruct (Z.leb_spec (BestHeaderHeight (m_headerIndex m)) (tip_height m)); [done|].
  match goal with |- m_syncState (?f m).2 = _ → _ => enough (steps (same_field m_syncState) f) as Hf by (rewrite (Hf m); done) end.
  same_walk. by apply request_batches_same.
Qed.

(** The greatest height among the peers of a list. *)
Lemma best_of_spec m qs best :
  let r := foldl (λ best q, match m_objs m !! q with
    | Some pr => if best.2 <? BestHeight pr then (Some q, BestHeight pr) else best | None => best end) best qs in
  best.2 ≤ r.2 ∧ (∀ q pr, q ∈ qs → m_objs m !! q = Some pr → BestHeight pr ≤ r.2) ∧
  (r.1 = None → best.1 = None ∧ r.2 = best.2).
Proof.
  revert best. induction qs as [|q qs IH]; intros best r; unfold r; cbn [foldl].
  { split_and!; [lia|by intros q pr Hq%elem_of_nil|done]. }
  match goal with |- context [foldl _ ?b qs] => destruct (IH b) as (IH1 & IH2 & IH3); set (b' := b) in * end.
  assert (Hb : best.2 ≤ b'.2 ∧ (∀ pr, m_objs m !! q = Some pr → BestHeight pr ≤ b'.2) ∧
    (b'.1 = None → best.1 = None ∧ b'.2 = best.2)).
  { unfold b'. destruct (m_objs m !! q) as [pr|]; [|by split_and!].
    destruct (Z.ltb_spec best.2 (BestHeight pr)); cbn; split_and!; try done; try lia; intros ? [= <-]; lia. }
  destruct Hb as (Hb1 & Hb2 & Hb3). split_and!; [lia| |].
  - intros q' pr [-> | Hin]%elem_of_cons Hpr; [|by eapply IH2]. specialize (Hb2 pr Hpr). lia.
  - intros Hr. destruct (IH3 Hr) as [Hn Heq]. destruct (Hb3 Hn) as [Hn' Heq']. split; [done|congruence].
Qed.

Lemma legacy_tick_done m : world_ok w → m_syncState m ≠ SyncStateSynced →
  m_syncState (handleLegacyBlockSync w m).2 = SyncStateSynced →
  ∀ addr q pr, m_peers m !! addr = Some q → m_objs m !! q = Some pr → BestHeight pr ≤ Z.max 0 (tip_height m).
Proof.
  intros Hw Hm. unfold handleLegacyBlockSync. rewrite range_peers_bind, gets_bind. cbn [id]. cbv zeta.
  match goal with |- context [foldl ?f ?b ?qs] => 
    pose proof (best_of_spec (set_m_n (S (m_n m)) m) qs b) as (Hb1 & Hb2 & Hb3); set (best := foldl f b qs) in * end.
  assert (Hall : best.2 ≤ Z.max 0 (tip_height m) → ∀ addr q pr, m_peers m !! addr = Some q → m_objs m !! q = Some pr →
    BestHeight pr ≤ Z.max 0 (tip_height m)).
  { intros Hle addr q pr Ha Hq. etrans; [apply (Hb2 q pr); [|done]|done]. apply range_peers_elem; [done|]. by exists addr. }
  destruct best.1 as [q|] eqn:Hbest.
  - change (tip_height (set_m_n (S (m_n m)) m)) with (tip_height m).
    destruct (Z.leb_spec best.2 (tip_height m)) as [Hle|Hgt]; [intros _; apply Hall; lia|].
    match goal with |- m_syncState (?f ?s).2 = _ → _ => enough (steps (same_field m_syncState) f) as Hf by (rewrite (Hf s); done) end.
    same_walk.
  - intros _. apply Hall. destruct (Hb3 eq_refl) as [_ Heq]. cbn [snd] in Heq. lia.
Qed.

(** The handler of the state decides; the switch of the chain's mode that follows
    it does not. *)
Definition state_tick (st : SyncState) : M () :=
  match st with
  | SyncStateInitial => handleSyncInitial p w cwall
  | SyncStateHeaderSync => handleHeaderSyncTick w
  | SyncStateBlockSync => handleBlockSyncTick p engine cf w cwall cadjusted swall
  | SyncStateSynced => handleSyncedTick p w cwall
  end.
Lemma syncLoop_tick_state m wasIBD :
  let m' := (syncLoop_tick p engine cf w cwall cadjusted swall wasIBD m).2 in
  let m1 := (state_tick (m_syncState m) m).2 in
  m_syncState m' = m_syncState m1 ∧ (m_syncState m = SyncStateBlockSync → m_scheduler m' = m_scheduler m1).
Proof.
  cbv zeta. unfold syncLoop_tick. rewrite gets_bind. fold (state_tick (m_syncState m)). rewrite proc_bind_eq.
  destruct (state_tick (m_syncState m) m) as [[[]|e|] m1]; [|done..]. cbn [snd].
  match goal with |- m_syncState (?f m1).2 = _ ∧ _ => set (g := f) end. split.
  - enough (steps (same_field m_syncState) g) as Hg by apply Hg. unfold g. same_walk.
  - intros Hst. enough (steps (same_field m_scheduler) g) as Hg by apply Hg. unfold g. rewrite Hst. cbn [bool_decide].
    rewrite bool_decide_false, bool_decide_true by done. cbn [orb andb negb]. same_walk.
Qed.

(** C27: A tick of the synchronisation moves between the states only as follows, and
    messages do not move it: INITIAL to any other state, HEADER_SYNC to
    BLOCK_SYNC, BLOCK_SYNC to SYNCED, SYNCED to INITIAL.  The block phase ends
    only when its job is done: with one fast peer, when the tip has reached the
    best header; with the scheduler, when nothing is queued, in flight or staged;
    with peers of the older protocol, when no registered peer is ahead.  In the
    two phases of the download the node does not mine. *)
Theorem sync_state_machine m wasIBD :
  world_ok w →
  let m' := (syncLoop_tick p engine cf w cwall cadjusted swall wasIBD m).2 in
  (m_syncState m' = m_syncState m ∨
   match m_syncState m, m_syncState m' with
   | SyncStateInitial, _ | SyncStateHeaderSync, SyncStateBlockSync
   | SyncStateBlockSync, SyncStateSynced | SyncStateSynced, SyncStateInitial => True
   | _, _ => False
   end) ∧
  (∀ q cmd payload,
     m_syncState (peer_turn p engine cf w cwall cadjusted mwall swall q cmd payload m).2 = m_syncState m) ∧
  (m_syncState m = SyncStateBlockSync → m_syncState m' = SyncStateSynced →
     if bool_decide (m_fastSyncPeer m = []) then
       match m_scheduler m with
       | Some _ => sched_complete m'
       | None => ∀ addr q pr, m_peers m !! addr = Some q → m_objs m !! q = Some pr →
           BestHeight pr ≤ Z.max 0 (tip_height m)
       end
     else BestHeaderHeight (m_headerIndex m) ≤ tip_height m) ∧
  (ShouldMine m = true → m_syncState m = SyncStateInitial ∨ m_syncState m = SyncStateSynced).
Proof.
  intros Hw m'. destruct (syncLoop_tick_state m wasIBD) as [Hst Hsch]. fold m' in Hst, Hsch. split_and!.
  - rewrite Hst. destruct (m_syncState m) eqn:Hm; cbn [state_tick] in *.
    + by right.
    + destruct (header_sync_moves m) as [-> | ->%list_elem_of_singleton]; [by left|by right].
    + destruct (block_sync_moves m) as [-> | ->%list_elem_of_singleton]; [by left|by right].
    + destruct (synced_moves m) as [-> | ->%list_elem_of_singleton]; [by left|by right].
  - intros q cmd payload. apply message_state.
  - intros Hm Hsynced. assert (Hne : m_syncState m ≠ SyncStateSynced) by by rewrite Hm. specialize (Hsch Hm).
    rewrite Hst, Hm in Hsynced. rewrite Hm in Hsch. cbn [state_tick] in Hsynced, Hsch. unfold sched_complete. rewrite Hsch.
    unfold handleBlockSyncTick in *. rewrite gets_bind in *. cbn [id] in *.
    case_bool_decide as Hf; cbn [negb] in *; [|by apply fast_tick_done].
    destruct (m_scheduler m) as [s|] eqn:Hs; [by apply (scheduler_tick_done s m)|by apply legacy_tick_done].
  - unfold ShouldMine. destruct (m_syncState m); auto; done.
Qed.

(** ** The pipeline of the fast synchronisation *)

Lemma fetch_loop_take trusted idx turns h limit : index_ok p engine trusted idx → 0 ≤ h → 0 ≤ limit →
  h + Z.of_nat turns = BestHeaderHeight idx + 1 →
  fetch_loop turns idx h limit = take (Z.to_nat limit) (drop (Z.to_nat h) (chain_hashes idx)).
Proof.
  intros Hok. pose proof (chain_hashes_length p engine trusted idx Hok) as Hlen. revert h limit.
  induction turns as [|turns IH]; intros h limit Hh Hl Hsum; cbn [fetch_loop].
  { rewrite drop_ge by lia. by rewrite take_nil. }
  destruct (Z.ltb_spec 0 limit) as [Hlt|Hge]; [|by replace limit with 0 by lia].
  destruct (lookup_lt_is_Some_2 (chain_hashes idx) (Z.to_nat h) ltac:(lia)) as [x Hx].
  pose proof (best_hash_chain p engine trusted idx Hok h Hh) as Hb. rewrite Hx in Hb. unfold best_hash in Hb.
  destruct (getHeaderByHeightLocked idx h) as [q|]; [|done]. injection Hb as ->. rewrite IH by lia.
  rewrite (drop_S _ x (Z.to_nat h)) by done. replace (Z.to_nat limit) with (S (Z.to_nat (limit - 1))) by lia.
  replace (Z.to_nat (h + 1)) with (S (Z.to_nat h)) by lia. done.
Qed.

Definition block_request (hashes : list Hash) : list byte :=
  GetDataMsg_Encode (mkGetDataMsg (mkInvVector InvTypeBlock <$> hashes)).
Definition requested (batches : list (list Hash)) (pr : Peer) : Peer :=
  foldl (λ pr b, SendMessage "getdata" (block_request b) pr) pr batches.

Record pipeline (q : nat) (pr : Peer) (m m' : Manager St PS) (batches : list (list Hash)) : Prop := {
  pl_hashes : mjoin batches = take (length (mjoin batches))
                (drop (Z.to_nat (m_fastSyncNextHeight m)) (chain_hashes (m_headerIndex m)));
  pl_batch : ∀ b, b ∈ batches → 1 ≤ len b ≤ fastSyncBatchSize;
  pl_next : m_fastSyncNextHeight m' = m_fastSyncNextHeight m + len (mjoin batches);
  pl_inFlight : m_fastSyncInFlight m' = m_fastSyncInFlight m + len (mjoin batches);
  pl_sent : m_objs m' = <[q := requested batches pr]> (m_objs m);
  pl_done : fastSyncMaxInFlight ≤ m_fastSyncInFlight m' ∨ BestHeaderHeight (m_headerIndex m) < m_fastSyncNextHeight m';
  pl_bound : m_fastSyncInFlight m' ≤ Z.max (m_fastSyncInFlight m) (fastSyncMaxInFlight + fastSyncBatchSize - 1)
}.

(** The hashes of one batch. *)
Definition batch_at (idx : HeaderIndex) (next : Z) : list Hash :=
  take (Z.to_nat fastSyncBatchSize) (drop (Z.to_nat next) (chain_hashes idx)).

Lemma batch_hashes trusted idx next : index_ok p engine trusted idx → 0 ≤ next ≤ BestHeaderHeight idx →
  let batchEnd := u32 (next + fastSyncBatchSize - 1) in
  let batchEnd := if BestHeaderHeight idx <? batchEnd then BestHeaderHeight idx else batchEnd in
  HeadersToFetch idx next (u32 (batchEnd - next + 1)) = batch_at idx next.
Proof.
  intros Hok Hn. cbv zeta. pose proof (best_height_range p engine trusted _ Hok) as Hbest.
  pose proof (chain_hashes_length p engine trusted _ Hok) as Hlen. unfold HeadersToFetch, batch_at, fastSyncBatchSize in *.
  rewrite (fetch_loop_take trusted) by (done || lia || apply u32_range).
  assert (Hcase : u32 ((if BestHeaderHeight idx <? u32 (next + 500 - 1) then BestHeaderHeight idx else u32 (next + 500 - 1)) - next + 1)
    = 500 ∨ BestHeaderHeight idx - next + 1 ≤ 500 ∧
      u32 ((if BestHeaderHeight idx <? u32 (next + 500 - 1) then BestHeaderHeight idx else u32 (next + 500 - 1)) - next + 1)
      = BestHeaderHeight idx - next + 1).
  { destruct (Z.ltb_spec (BestHeaderHeight idx) (u32 (next + 500 - 1))) as [Hlt|Hge].
    - destruct (decide (next + 500 - 1 < 2 ^ 32)) as [Hs|Hs].
      + right. rewrite u32_id in Hlt by (unfold is_u32; lia). split; [lia|]. apply u32_id. unfold is_u32. lia.
      + exfalso. unfold u32 in Hlt. rewrite <-(Z_mod_plus_full _ (-1)), Z.mod_small in Hlt by lia. lia.
    - left. unfold u32. rewrite <-Zplus_mod_idemp_l, Zminus_mod_idemp_l, Zplus_mod_idemp_l.
      replace (next + 500 - 1 - next + 1) with 500 by lia. done. }
  destruct Hcase as [-> | [Hle ->]]; [done|]. rewrite !take_ge; [done|rewrite length_drop; lia..].
Qed.

Lemma batch_at_length trusted idx next : index_ok p engine trusted idx → 0 ≤ next ≤ BestHeaderHeight idx →
  len (batch_at idx next) = Z.min fastSyncBatchSize (BestHeaderHeight idx + 1 - next).
Proof.
  intros Hok Hn. pose proof (chain_hashes_length p engine trusted _ Hok) as Hlen.
  unfold batch_at, fastSyncBatchSize. rewrite length_take, length_drop. lia.
Qed.

Lemma pipeline_nil q pr m : m_objs m !! q = Some pr →
  fastSyncMaxInFlight ≤ m_fastSyncInFlight m ∨ BestHeaderHeight (m_headerIndex m) < m_fastSyncNextHeight m →
  pipeline q pr m m [].
Proof.
  intros Hq Hd. split; cbn -[fastSyncMaxInFlight fastSyncBatchSize]; try done; try lia; [by intros b Hb%elem_of_nil|by rewrite insert_id].
Qed.

Lemma request_batches_spec trusted fuel q pr m :
  index_ok p engine trusted (m_headerIndex m) → m_objs m !! q = Some pr →
  0 ≤ m_fastSyncNextHeight m ≤ BestHeaderHeight (m_headerIndex m) + 1 →
  fastSyncMaxInFlight - m_fastSyncInFlight m ≤ Z.of_nat fuel →
  ∃ batches m', request_batches fuel q (BestHeaderHeight (m_headerIndex m)) m = (Ok (), m') ∧ pipeline q pr m m' batches.
Proof.
  revert pr m. induction fuel as [|fuel IH]; intros pr m Hok Hq Hnext Hfuel.
  { exists [], m. split; [done|]. apply pipeline_nil; [done|lia]. }
  cbn [request_batches]. rewrite gets_bind. cbn [id]. cbv zeta.
  pose proof (best_height_range p engine trusted _ Hok) as Hbest.
  destruct (Z.ltb_spec (m_fastSyncInFlight m) fastSyncMaxInFlight) as [Hroom|Hfull]; cbn [andb];
    [|exists [], m; split; [done|]; apply pipeline_nil; [done|lia]].
  destruct (Z.leb_spec (m_fastSyncNextHeight m) (BestHeaderHeight (m_headerIndex m))) as [Hmore|Hend];
    [|exists [], m; split; [done|]; apply pipeline_nil; [done|lia]].
  rewrite (batch_hashes trusted) by (done || lia). set (b := batch_at (m_headerIndex m) (m_fastSyncNextHeight m)).
  assert (Hb : len b = Z.min fastSyncBatchSize (BestHeaderHeight (m_headerIndex m) + 1 - m_fastSyncNextHeight m))
    by (apply (batch_at_length trusted); [done|lia]).
  rewrite bool_decide_false by (intros Hnil; rewrite Hnil in Hb; cbn -[fastSyncBatchSize] in Hb; unfold fastSyncBatchSize in *; lia).
  unfold get_data, send. rewrite proc_bind_eq, (upd_peer_eq _ _ _ _ Hq), modify_bind.
  cbn [m_fastSyncNextHeight m_fastSyncInFlight set_m_objs set_m_fastSyncInFlight].
  assert (Hnx : u32 (m_fastSyncNextHeight m + len b) = m_fastSyncNextHeight m + len b) by (apply u32_id; unfold is_u32; lia).
  match goal with |- context [request_batches fuel q _ ?s] =>
    destruct (IH (SendMessage "getdata" (block_request b) pr) s) as (batches & m' & Hrun & [P1 P2 P3 P4 P5 P6 P7]) end;
    [done|cbn; by rewrite lookup_insert_eq|cbn [m_fastSyncNextHeight m_headerIndex set_m_fastSyncNextHeight set_m_fastSyncInFlight set_m_objs]; lia
    |cbn [m_fastSyncInFlight m_headerIndex set_m_fastSyncNextHeight set_m_fastSyncInFlight set_m_objs]; unfold fastSyncBatchSize, fastSyncMaxInFlight in *; lia|].
  cbn [m_fastSyncNextHeight m_fastSyncInFlight m_headerIndex m_objs set_m_fastSyncNextHeight set_m_fastSyncInFlight set_m_objs] in *.
  exists (b :: batches), m'. split; [exact Hrun|]. rewrite Hnx in *.
  assert (Hpre : b = take (length b) (drop (Z.to_nat (m_fastSyncNextHeight m)) (chain_hashes (m_headerIndex m)))).
  { unfold b at 1, batch_at. destruct (prefix_take (drop (Z.to_nat (m_fastSyncNextHeight m)) (chain_hashes (m_headerIndex m)))
      (Z.to_nat fastSyncBatchSize)) as [k Hk]. fold b in Hk |- *. rewrite Hk at 2. by rewrite take_app_length. }
  split; change (mjoin (b :: batches)) with (b ++ mjoin batches); rewrite ?length_app.
  - rewrite <-take_take_drop, <-Hpre. f_equal. rewrite P1 at 1. f_equal. rewrite drop_drop. f_equal. lia.
  - intros b' [-> | Hin]%elem_of_cons; [|by apply P2]. unfold fastSyncBatchSize in *. lia.
  - lia.
  - lia.
  - rewrite P5, insert_insert_eq. done.
  - done.
  - unfold fastSyncMaxInFlight, fastSyncBatchSize, fastSyncPipelineDepth in *. lia.
Qed.

Lemma track_progress_same h m : ∃ u, (track_progress w h m).1 = Ok u ∧
  same_field (λ m, (m_syncState m, m_fastSyncPeer m, m_fastSyncNextHeight m, m_fastSyncInFlight m, m_objs m)) m (track_progress w h m).2.
Proof. exists (). unfold track_progress. rewrite gets_bind. by destruct (m_blockSyncLastHeight m <? h). Qed.

(** One tick of the fast synchronisation, when its peer is there and has not
    stalled, ends with the pipeline full or with everything requested.  The
    requests of the tick are sent to that peer in batches of 1 to 500 hashes;
    put together they are the hashes of the best header chain at the next heights
    in order, without gap or repetition, and the next height and the number of
    blocks in flight grow by their number.  Since a whole batch is requested
    whenever there is any room, up to 1499 blocks are in flight. *)
Theorem fast_sync_pipeline trusted q pr m :
  reached p engine (blk_Header (p_GenesisBlock p)) trusted (m_headerIndex m) → len (hi_nodes (m_headerIndex m)) < 2 ^ 32 →
  m_peers m !! m_fastSyncPeer m = Some q → m_objs m !! q = Some pr →
  0 ≤ m_fastSyncNextHeight m ≤ BestHeaderHeight (m_headerIndex m) + 1 →
  tip_height m < BestHeaderHeight (m_headerIndex m) →
  (0 < m_fastSyncInFlight m → time_Sub (w_now w (m_n m)) (m_fastSyncLastRecv m) ≤ fastSyncStallTimeout) →
  let '(r, m') := handleFastSyncTick w m in
  r = Ok () ∧ m_syncState m' = m_syncState m ∧ m_fastSyncPeer m' = m_fastSyncPeer m ∧
  ∃ batches, pipeline q pr m m' batches.
Proof.
  intros Hre Hmax Hpeer Hq Hnext Htip Hstall. pose proof (reached_ok _ _ _ _ _ Hre Hmax) as Hok.
  unfold handleFastSyncTick. rewrite gets_bind. cbn [id]. cbv zeta. rewrite (proj2 (Z.leb_gt _ _)) by lia. rewrite Hpeer.
  match goal with |- context [((if ?b then ?t else ?e) ≫= ?g) m] =>
    assert (∃ n, ((if b then t else e) ≫= g) m = g false (set_m_n n m)) as [n ->] end.
  { destruct (Z.ltb_spec 0 (m_fastSyncInFlight m)) as [Hpos|Hz].
    - exists (S (m_n m)). rewrite proc_bind_eq, now_bind. by rewrite (proj2 (Z.ltb_ge _ _)) by auto.
    - exists (m_n m). rewrite proc_bind_eq. by destruct m. }
  destruct (request_batches_spec trusted (Z.to_nat (fastSyncMaxInFlight - m_fastSyncInFlight m)) q pr (set_m_n n m))
    as (batches & m1 & Hrun & Hpl); [done|done|done|cbn -[fastSyncMaxInFlight]; lia|].
  rewrite proc_bind_eq. change (BestHeaderHeight (m_headerIndex m)) with (BestHeaderHeight (m_headerIndex (set_m_n n m))).
  rewrite Hrun. cbn iota.
  pose proof (request_batches_same (λ m, (m_syncState m, m_fastSyncPeer m)) (Z.to_nat (fastSyncMaxInFlight - m_fastSyncInFlight m)) q
    (BestHeaderHeight (m_headerIndex (set_m_n n m))) ltac:(done) ltac:(done) (set_m_n n m)) as Hs1.
  rewrite Hrun in Hs1. injection Hs1 as Hs1 Hp1.
  pose proof (track_progress_same (tip_height m) m1) as (u & Hu & Hs2). destruct (track_progress w (tip_height m) m1) as [r m'].
  cbn in Hu, Hs2. subst r. injection Hs2 as Hs2 Hp2 Hn2 Hf2 Ho2. split_and!; [by destruct u|congruence|congruence|].
  exists batches. destruct Hpl. split; rewrite ?Hn2, ?Hf2, ?Ho2; done.
Qed.

(** ** Blocks that come while headers are fetched *)

Lemma admit_seen hash m : Has hash (m_seenBlocks m) = true → m_scheduler m = None →
  admit_block hash m = (Ok false, m).
Proof.
  intros Hh Hs. unfold admit_block. rewrite gets_bind. cbn [id]. unfold AddOrHas. rewrite Hh, modify_bind, Hs. by destruct m.
Qed.
Lemma admit_new hash m : Has hash (m_seenBlocks m) = false →
  admit_block hash m = (Ok true, set_m_seenBlocks (Add hash (m_seenBlocks m)) m).
Proof. intros Hh. unfold admit_block. rewrite gets_bind. cbn [id]. unfold AddOrHas, Add. by rewrite Hh. Qed.

(** A block that arrives while headers are fetched is dropped, but stays marked
    as seen.  When the fast synchronisation asks for it later, its delivery, by
    the very peer it was requested from, is dropped too: the chain does not grow,
    and the block still counts as in flight.  (Only the scheduler clears the mark
    of the blocks it waits for.) *)
Theorem dropped_block_stays_seen block :
  let hash := HashBlockHeader (blk_Header block) in
  (∀ q pr m, m_objs m !! q = Some pr → m_syncState m = SyncStateHeaderSync → m_scheduler m = None →
     let '(r, m') := handleBlock p engine cf w cwall cadjusted swall q block m in
     r = Ok () ∧ m_chain m' = m_chain m ∧ m_ibdBlockQueue m' = m_ibdBlockQueue m ∧ Has hash (m_seenBlocks m') = true) ∧
  (∀ q pr m, m_objs m !! q = Some pr → Has hash (m_seenBlocks m) = true →
     m_syncState m = SyncStateBlockSync → m_fastSyncPeer m = pr_addr pr → m_scheduler m = None →
     handleBlock p engine cf w cwall cadjusted swall q block m
     = (Ok (), set_m_objs (<[q := AddKnownInventory hash pr]> (m_objs m)) m)).
Proof.
  intros hash. split.
  - intros q pr m Hq Hst Hs. unfold handleBlock. fold hash. cbv zeta. rewrite proc_bind_eq, (upd_peer_eq _ _ _ _ Hq), proc_bind_eq.
    destruct (Has hash (m_seenBlocks m)) eqn:Hseen.
    + rewrite admit_seen by done. done.
    + rewrite admit_new by done. cbn [negb]. rewrite gets_bind. cbn [id m_syncState m_scheduler m_fastSyncPeer set_m_objs set_m_seenBlocks].
      rewrite Hst, Hs, bool_decide_false by done. cbn [andb]. unfold handle_other_block. rewrite gets_bind.
      cbn [id m_syncState set_m_objs set_m_seenBlocks]. rewrite Hst, bool_decide_true by done. cbn. split_and!; [done..|apply Has_Add].
  - intros q pr m Hq Hseen Hst Hf Hs. unfold handleBlock. fold hash. cbv zeta.
    rewrite proc_bind_eq, (upd_peer_eq _ _ _ _ Hq), proc_bind_eq. by rewrite admit_seen.
Qed.

(** ** Headers and blocks without work *)

Definition no_work : error := Wrapf "PoW validation failed at height %d" (Errorf "block hash exceeds target").

(** The engine's report of a header that lacks only the work. *)
Lemma no_work_report hasher r header parent height g powHash :
  hdr_PrevBlock header = HashBlockHeader parent →
  calcExpectedBits r header parent height g p = Ok (hdr_Bits header) →
  h_PoWHash hasher (BlockHeader_serializeInto header) = Ok powHash →
  Hash_LessOrEqual powHash (CompactToHash (hdr_Bits header)) = false →
  e_ValidateHeader (pow_Engine hasher r) header parent height g p = Err no_work.
Proof.
  intros Hprev Hbits Hhash Hle. cbn. unfold pow_ValidateHeader. rewrite bool_decide_true by done. cbn.
  rewrite Hbits. cbn. rewrite Z.eqb_refl. cbn. rewrite Hhash. cbn. unfold ValidateProofOfWork. by rewrite Hle.
Qed.

(** A header that is right in everything but the work is refused, but its sender
    is not punished: the text of the error has none of the words that
    [handleHeaders] looks for.  For a block the words are missing as well, so
    that it is taken as one of the lesser faults. *)
Theorem missing_work_not_punished hasher r q pr header parent powHash m :
  let idx := m_headerIndex m in
  m_objs m !! q = Some pr → i32 (pr_headersReceived pr + 1) ≤ maxHeadersPerPeer →
  hi_byHash idx !! HashBlockHeader header = None → HashBlockHeader header ∉ hi_rejected idx →
  hdr_PrevBlock header ∉ hi_rejected idx → hi_byHash idx !! hdr_PrevBlock header = Some parent →
  Z.of_nat (size (hi_byHash idx)) < maxHeaderIndexSize →
  hdr_PrevBlock header = HashBlockHeader (hn_Header (node idx parent)) →
  calcExpectedBits r header (hn_Header (node idx parent)) (u32 (hn_Height (node idx parent) + 1))
    (header_ancestors idx parent) p = Ok (hdr_Bits header) →
  h_PoWHash hasher (BlockHeader_serializeInto header) = Ok powHash →
  Hash_LessOrEqual powHash (CompactToHash (hdr_Bits header)) = false →
  let '(res, m') := handleHeaders p (pow_Engine hasher r) cf w q (mkHeadersMsg [header]) m in
  res = Ok () ∧ m_headerIndex m' = addRejectedLocked (HashBlockHeader header) idx ∧ m_banned m' = m_banned m ∧
  (∃ pr', m_objs m' !! q = Some pr' ∧ pr_banScore pr' = pr_banScore pr ∧ pr_done pr' = pr_done pr) ∧
  is_invalid_block (Wrapf "validate header" no_work) = false.
Proof.
  intros idx Hq Htotal Hnew Hrej Hprej Hparent Hsize Hprev Hbits Hhash Hle.
  assert (Hadd : ∀ t, AddHeaders p (pow_Engine hasher r) [header] t idx
    = (Ok (0, Some (Wrapf "header validation" no_work)), addRejectedLocked (HashBlockHeader header) idx)).
  { intros t. unfold AddHeaders. cbn [add_headers]. unfold addHeaderLocked.
    rewrite bool_decide_false by (rewrite Hnew; by intros []). rewrite bool_decide_false by done.
    rewrite bool_decide_false by done. rewrite Hparent. cbv zeta.
    rewrite Z.geb_leb, (proj2 (Z.leb_gt _ _)) by done. cbn [andb]. unfold FullValidateHeader.
    rewrite (no_work_report hasher r header _ _ _ powHash) by done. done. }
  unfold handleHeaders. cbn [hm_Headers length]. cbn iota. rewrite (proj2 (Z.ltb_ge _ _)) by done. cbn iota.
  rewrite proc_bind_eq. unfold on_peer at 1. rewrite Hq. cbn beta iota zeta delta [AddHeadersReceived].
  change (len [header]) with 1. rewrite (proj2 (Z.ltb_ge _ _)) by done. cbn iota. rewrite gets_bind.
  cbn [m_headerIndex set_m_objs]. unfold HasHeader. fold idx. rewrite bool_decide_true by by eexists.
  cbn [negb in_sequence]. cbn iota. rewrite now_bind, proc_bind_eq. unfold on_headers at 1, on.
  cbn [m_headerIndex set_m_objs set_m_n]. fold idx. rewrite Hadd. cbn iota beta.
  assert (Htext : text_Contains (Wrapf "header validation" no_work) "proof of work" = false ∧
    text_Contains (Wrapf "header validation" no_work) "bits mismatch" = false ∧
    text_Contains (Wrapf "header validation" no_work) "difficulty" = false) by by vm_compute.
  destruct Htext as (-> & -> & ->). split_and!; try done. eexists. split; [cbn; by rewrite lookup_insert_eq|done].
Qed.
End sync_props.

(** ** Witnesses *)

#[local] Existing Instance mem_db.
#[local] Existing Instance toy_lib.

(** Downloading from peers of the older protocol, at their height. *)
Definition sw_blocks : Manager FileStore (list (list byte)) := set_m_syncState SyncStateBlockSync mg_two.
Lemma sync_state_machine_witness :
  m_syncState (syncLoop_tick w_params w_engine (mg_config 25) mg_world w_clock w_clock mg_wall true sw_blocks).2 = SyncStateSynced ∧
  ∀ addr q pr, m_peers sw_blocks !! addr = Some q → m_objs sw_blocks !! q = Some pr → BestHeight pr ≤ 2.
Proof.
  assert (Hsynced : m_syncState (syncLoop_tick w_params w_engine (mg_config 25) mg_world w_clock w_clock mg_wall true sw_blocks).2
    = SyncStateSynced) by (vm_compute; reflexivity).
  split; [exact Hsynced|].
  destruct (sync_state_machine w_params w_engine (mg_config 25) mg_world w_clock w_clock mg_wall mg_wall sw_blocks true mg_world_ok)
    as (_ & _ & Hdone & _).
  specialize (Hdone eq_refl Hsynced).
  assert (Hf : bool_decide (m_fastSyncPeer sw_blocks = []) = true) by (vm_compute; reflexivity). rewrite Hf in Hdone.
  assert (Hs : m_scheduler sw_blocks = None) by (vm_compute; reflexivity). rewrite Hs in Hdone.
  assert (Ht : Z.max 0 (tip_height sw_blocks) = 2) by (vm_compute; reflexivity). rewrite Ht in Hdone. exact Hdone.
Defined.

(** Fast synchronisation of a node that has two headers and no block. *)
Definition sw_fast : Manager FileStore (list (list byte)) :=
  set_m_fastSyncNextHeight 1 (set_m_fastSyncPeer (str "9.9.9.9:1000") (set_m_headerIndex hw_index3 (set_m_chain w_chain0 sw_blocks))).
Lemma sw_object : ∃ pr, m_objs sw_fast !! 1%nat = Some pr.
Proof. apply rw_object. vm_compute. eexists. reflexivity. Qed.
Lemma fast_sync_pipeline_witness :
  (handleFastSyncTick mg_world sw_fast).1 = Ok () ∧ 
  BestHeaderHeight (m_headerIndex sw_fast) < m_fastSyncNextHeight (handleFastSyncTick mg_world sw_fast).2.
Proof.
  destruct sw_object as [pr Hpr].
  pose proof (fast_sync_pipeline w_params w_engine mg_world [] 1 pr sw_fast hw_reached hw_small ltac:(vm_compute; reflexivity) Hpr
    ltac:(vm_compute; split; discriminate) ltac:(vm_compute; reflexivity)) as Hpipe.
  assert (Hin : m_fastSyncInFlight sw_fast = 0) by (vm_compute; reflexivity). rewrite Hin in Hpipe.
  specialize (Hpipe ltac:(lia)).
  assert (Hnot : m_fastSyncInFlight (handleFastSyncTick mg_world sw_fast).2 < fastSyncMaxInFlight) by (vm_compute; reflexivity).
  destruct (handleFastSyncTick mg_world sw_fast) as [r m']. destruct Hpipe as (Hr & _ & _ & batches & Hpl).
  split; [exact Hr|]. destruct (pl_done _ _ _ _ _ Hpl) as [Hfull|Hend]; [|exact Hend].
  exfalso. exact (Zlt_not_le _ _ Hnot Hfull).
Defined.

(** A block that comes during the header phase. *)
Lemma dropped_block_stays_seen_witness :
  Has (HashBlockHeader (blk_Header w_a1)) (m_seenBlocks (handleBlock w_params w_engine (mg_config 25) mg_world w_clock w_clock mg_wall 1
    w_a1 (set_m_syncState SyncStateHeaderSync mg_two)).2) = true.
Proof.
  destruct (rw_object (set_m_syncState SyncStateHeaderSync mg_two) 1) as [pr Hpr]; [vm_compute; eexists; reflexivity|].
  pose proof (proj1 (dropped_block_stays_seen w_params w_engine (mg_config 25) mg_world w_clock w_clock mg_wall w_a1) 1%nat pr
    (set_m_syncState SyncStateHeaderSync mg_two) Hpr eq_refl ltac:(vm_compute; reflexivity)) as Hd.
  destruct (handleBlock w_params w_engine (mg_config 25) mg_world w_clock w_clock mg_wall 1 w_a1
    (set_m_syncState SyncStateHeaderSync mg_two)) as [r m'].
  destruct Hd as (_ & _ & _ & Hseen). exact Hseen.
Defined.

(** A header on genesis with its bits and a hash above the target. *)
Definition sw_hasher : Hasher := mkHasher (λ bs, Ok (DoubleSHA256 bs)) "sha256d".
Definition sw_header : BlockHeader :=
  mkBlockHeader 1 (HashBlockHeader hw_genesis) ZeroHash 1800000000 (hdr_Bits hw_genesis) 1.
Definition sw_fresh : Manager FileStore (list (list byte)) := set_m_headerIndex (NewHeaderIndex hw_genesis) mg_two.
Lemma missing_work_not_punished_witness :
  m_banned (handleHeaders Mainnet (pow_Engine sw_hasher bitcoin_Retargeter) (mg_config 25) mg_world 1 (mkHeadersMsg [sw_header]) sw_fresh).2
  = m_banned sw_fresh.
Proof.
  destruct (rw_object sw_fresh 1) as [pr Hpr]; [vm_compute; eexists; reflexivity|].
  assert (Hrec : pr_headersReceived <$> m_objs sw_fresh !! 1%nat = Some 0) by (vm_compute; reflexivity).
  rewrite Hpr in Hrec. injection Hrec as Hrec.
  pose proof (missing_work_not_punished Mainnet (mg_config 25) mg_world sw_hasher bitcoin_Retargeter 1 pr sw_header 0
    (DoubleSHA256 (BlockHeader_serializeInto sw_header)) sw_fresh Hpr) as Hw. rewrite Hrec in Hw.
  specialize (Hw ltac:(vm_compute; discriminate) ltac:(vm_compute; reflexivity) ltac:(by_decide) ltac:(by_decide)
    ltac:(vm_compute; reflexivity) ltac:(vm_compute; reflexivity) ltac:(vm_compute; reflexivity)
    ltac:(vm_compute; reflexivity) ltac:(reflexivity) ltac:(vm_compute; reflexivity)).
  destruct (handleHeaders Mainnet (pow_Engine sw_hasher bitcoin_Retargeter) (mg_config 25) mg_world 1 (mkHeadersMsg [sw_header]) sw_fresh)
    as [r m'].
  destruct Hw as (_ & _ & Hban & _). exact Hban.
Defined.
