(* ===== verification/Aes.v ===== *)
(** * crypto/aes, crypto/cipher and the padding of internal/wallet/hdwallet.go

    The wallet encrypts its seed with AES in cipher block chaining mode.  The
    block cipher and the mode are of Go's standard library: they are written out
    here after FIPS 197 (the state as sixteen bytes, column by column) and SP
    800-38A.  [aesEncrypt], [aesDecrypt], [pkcs7Pad] and [pkcs7Unpad] are the
    functions of the wallet.  Decryption inverts encryption under the same key,
    and unpadding accepts exactly what padding makes. *)
From S2P Require Import Prelude.

(** ** Bytes as elements of GF(2^8) *)

Definition xor8 (a b : byte) : byte := Z_to_byte (Z.lxor (byte_to_Z a) (byte_to_Z b)).

(** Multiplication by x modulo x^8 + x^4 + x^3 + x + 1. *)
Definition xtime (a : byte) : byte :=
  let z := 2 * byte_to_Z a in
  Z_to_byte (if z <? 256 then z else Z.lxor z 0x11b).

Fixpoint mul_bits (bits : list bool) (b : byte) : byte :=
  match bits with
  | [] => x00
  | bit :: bits' => xor8 (if bit then b else x00) (mul_bits bits' (xtime b))
  end.

Definition gmul (a b : byte) : byte :=
  mul_bits (Z.testbit (byte_to_Z a) <$> seqZ 0 8) b.

Definition all_bytes : list byte := Z_to_byte <$> seqZ 0 256.

(** The substitution box: the inverse in the field (0 for 0), then an affine
    map of the bits. *)
Definition ginv (b : byte) : byte :=
  default x00 (List.find (λ c, bool_decide (gmul b c = x01)) all_bytes).

Definition rotl8 (n : Z) (b : byte) : byte :=
  Z_to_byte (Z.lor (Z.shiftl (byte_to_Z b) n) (Z.shiftr (byte_to_Z b) (8 - n))).

Definition affine (b : byte) : byte :=
  xor8 b (xor8 (rotl8 1 b) (xor8 (rotl8 2 b) (xor8 (rotl8 3 b) (xor8 (rotl8 4 b) x63)))).

Definition sbox_table : list byte := Eval vm_compute in (λ b, affine (ginv b)) <$> all_bytes.
Definition table_at (t : list byte) (b : byte) : byte := nth (Z.to_nat (byte_to_Z b)) t x00.
Definition sbox (b : byte) : byte := table_at sbox_table b.

Definition inv_table : list byte :=
  Eval vm_compute in
    (λ b, default x00 (List.find (λ c, bool_decide (sbox c = b)) all_bytes)) <$> all_bytes.
Definition inv_sbox (b : byte) : byte := table_at inv_table b.

(** ** The rounds *)

Definition xor_bytes (a b : list byte) : list byte := zip_with xor8 a b.

Definition sub_bytes (st : list byte) : list byte := sbox <$> st.
Definition inv_sub_bytes (st : list byte) : list byte := inv_sbox <$> st.

(** Row [r] of the state is rotated by [r] columns. *)
Definition permute (idx : list nat) (st : list byte) : list byte :=
  (λ i, nth i st x00) <$> idx.
Definition shift_rows : list byte → list byte :=
  permute [0; 5; 10; 15; 4; 9; 14; 3; 8; 13; 2; 7; 12; 1; 6; 11]%nat.
Definition inv_shift_rows : list byte → list byte :=
  permute [0; 13; 10; 7; 4; 1; 14; 11; 8; 5; 2; 15; 12; 9; 6; 3]%nat.

(** A product of a matrix and a column. *)
Fixpoint dot (row col : list byte) : byte :=
  match row, col with
  | c :: row', x :: col' => xor8 (gmul c x) (dot row' col')
  | _, _ => x00
  end.
Definition mat_mul (m : list (list byte)) (col : list byte) : list byte :=
  (λ row, dot row col) <$> m.

Definition mix_matrix : list (list byte) :=
  [[x02; x03; x01; x01]; [x01; x02; x03; x01]; [x01; x01; x02; x03]; [x03; x01; x01; x02]].
Definition inv_mix_matrix : list (list byte) :=
  [[x0e; x0b; x0d; x09]; [x09; x0e; x0b; x0d]; [x0d; x09; x0e; x0b]; [x0b; x0d; x09; x0e]].

Definition on_columns (f : list byte → list byte) (st : list byte) : list byte :=
  f (slice 0 4 st) ++ f (slice 4 8 st) ++ f (slice 8 12 st) ++ f (slice 12 16 st).
Definition mix_columns : list byte → list byte := on_columns (mat_mul mix_matrix).
Definition inv_mix_columns : list byte → list byte := on_columns (mat_mul inv_mix_matrix).

Definition enc_round (st key : list byte) : list byte :=
  xor_bytes (mix_columns (shift_rows (sub_bytes st))) key.
Definition dec_round (key st : list byte) : list byte :=
  inv_sub_bytes (inv_shift_rows (inv_mix_columns (xor_bytes st key))).

(** An expanded key: the first round key, those of the middle rounds and the
    last one. *)
Record aes_key : Type := mkAesKey {
  ak_first : list byte;
  ak_middle : list (list byte);
  ak_last : list byte
}.

Definition encrypt_block (k : aes_key) (block : list byte) : list byte :=
  let st := foldl enc_round (xor_bytes block (ak_first k)) (ak_middle k) in
  xor_bytes (shift_rows (sub_bytes st)) (ak_last k).

Definition decrypt_block (k : aes_key) (block : list byte) : list byte :=
  let st := inv_sub_bytes (inv_shift_rows (xor_bytes block (ak_last k))) in
  xor_bytes (foldr dec_round st (ak_middle k)) (ak_first k).

(** ** The key schedule *)

(** [Rcon]: the powers of x. *)
Fixpoint rcon (n : nat) : byte :=
  match n with
  | O | S O => x01
  | S n' => xtime (rcon n')
  end.

Definition rot_word (w : list byte) : list byte := drop 1 w ++ take 1 w.

(** Word [i] from word [i - 1] and word [i - nk]. *)
Definition next_word (nk i : nat) (prev back : list byte) : list byte :=
  let temp :=
    if decide (i mod nk = 0)%nat then
      xor_bytes (sub_bytes (rot_word prev)) [rcon (i / nk); x00; x00; x00]
    else if decide (6 < nk ∧ i mod nk = 4)%nat then sub_bytes prev
    else prev in
  xor_bytes back temp.

(** The words so far, newest first. *)
Fixpoint expand (nk i n : nat) (ws : list (list byte)) : list (list byte) :=
  match n with
  | O => ws
  | S n' => expand nk (S i) n' (next_word nk i (nth 0 ws []) (nth (nk - 1) ws []) :: ws)
  end.

Fixpoint chunks (n k : nat) (l : list byte) : list (list byte) :=
  match n with
  | O => []
  | S n' => take k l :: chunks n' k (drop k l)
  end.

(** Round keys have sixteen bytes, so the joined words are cut into blocks. *)
Definition round_keys (key : list byte) : list (list byte) :=
  let nk := (length key / 4)%nat in
  let nr := (nk + 6)%nat in
  let ws := expand nk nk (4 * (nr + 1) - nk) (reverse (chunks nk 4 key)) in
  chunks (nr + 1) 16 (mjoin (reverse ws)).

(** [aes.NewCipher]. *)
Definition NewCipher (key : list byte) : res aes_key :=
  if decide (length key ∈ [16; 24; 32]%nat) then
    let ks := round_keys key in
    Ok (mkAesKey (nth 0 ks []) (slice 1 (length ks - 1) ks) (nth (length ks - 1) ks []))
  else Err (Errorf "crypto/aes: invalid key size").

(** ** Cipher block chaining *)

Definition BlockSize : nat := 16.

Fixpoint cbc_encrypt (k : aes_key) (iv : list byte) (blocks : list (list byte)) : list byte :=
  match blocks with
  | [] => []
  | b :: blocks' =>
      let c := encrypt_block k (xor_bytes b iv) in c ++ cbc_encrypt k c blocks'
  end.

Fixpoint cbc_decrypt (k : aes_key) (iv : list byte) (blocks : list (list byte)) : list byte :=
  match blocks with
  | [] => []
  | c :: blocks' => xor_bytes (decrypt_block k c) iv ++ cbc_decrypt k c blocks'
  end.

(** [NewCBCEncrypter] and [CryptBlocks]: an initialisation vector of another
    length and a partial block panic. *)
Definition crypt_blocks (mode : list byte → list (list byte) → list byte)
    (iv src : list byte) : res (list byte) :=
  if decide (length iv = BlockSize ∧ length src mod BlockSize = 0)%nat
  then Ok (mode iv (chunks (length src / BlockSize) BlockSize src)) else Panic.

(** ** The functions of the wallet *)

Definition pkcs7Pad (data : list byte) (blockSize : nat) : list byte :=
  let padding := (blockSize - length data mod blockSize)%nat in
  data ++ replicate padding (Z_to_byte (Z.of_nat padding)).

Definition pkcs7Unpad (data : list byte) (blockSize : nat) : res (list byte) :=
  _ ← fail_if (bool_decide (length data = 0%nat)
               || negb (bool_decide (length data mod blockSize = 0)%nat)) (Errorf "invalid padding");
  let padLen := Z.to_nat (byte_to_Z (default x00 (last data))) in
  _ ← fail_if (bool_decide (padLen = 0%nat) || bool_decide (blockSize < padLen)%nat)
        (Errorf "invalid padding");
  _ ← fail_if (negb (forallb (λ c, bool_decide (c = Z_to_byte (Z.of_nat padLen)))
                       (drop (length data - padLen) data))) (Errorf "invalid padding");
  Ok (take (length data - padLen) data).

(** The initialisation vector is read from the random source by the caller. *)
Definition aesEncrypt (key plaintext iv : list byte) : res (list byte) :=
  block ← NewCipher key;
  crypt_blocks (cbc_encrypt block) iv (pkcs7Pad plaintext BlockSize).

Definition aesDecrypt (key iv ciphertext : list byte) : res (list byte) :=
  block ← NewCipher key;
  _ ← fail_if (negb (bool_decide (length ciphertext mod BlockSize = 0)%nat))
        (Errorf "ciphertext not block-aligned");
  plaintext ← crypt_blocks (cbc_decrypt block) iv ciphertext;
  pkcs7Unpad plaintext BlockSize.

(** ** The block cipher is invertible *)

(** A statement about one byte is checked on all of them. *)
Lemma byte_forall (P : byte → bool) : forallb P all_bytes = true → ∀ b, P b = true.
Proof.
  intros H b. rewrite forallb_forall in H. apply H. apply list_elem_of_In.
  unfold all_bytes. apply list_elem_of_fmap. exists (byte_to_Z b).
  split; [by rewrite Z_to_byte_to_Z|]. apply elem_of_seqZ. pose proof (byte_to_Z_range b). lia.
Qed.

Lemma byte_to_Z_xor a b : byte_to_Z (xor8 a b) = Z.lxor (byte_to_Z a) (byte_to_Z b).
Proof.
  unfold xor8. rewrite byte_to_Z_to_byte. unfold u8.
  assert (Hm : ∀ c, byte_to_Z c = Z.land (byte_to_Z c) (Z.ones 8)).
  { intros c. rewrite Z.land_ones by lia. symmetry. apply Z.mod_small, byte_to_Z_range. }
  rewrite <- Z.land_ones by lia. rewrite (Hm a), (Hm b). apply Z.bits_inj'. intros n _.
  rewrite ?Z.land_spec, ?Z.lxor_spec, ?Z.land_spec.
  by destruct (Z.testbit (byte_to_Z a) n), (Z.testbit (byte_to_Z b) n), (Z.testbit (Z.ones 8) n).
Qed.

#[export] Instance xor8_assoc : Assoc (=) xor8.
Proof. intros a b c. apply byte_to_Z_inj. rewrite !byte_to_Z_xor. symmetry. apply Z.lxor_assoc. Qed.
#[export] Instance xor8_comm : Comm (=) xor8.
Proof. intros a b. apply byte_to_Z_inj. rewrite !byte_to_Z_xor. apply Z.lxor_comm. Qed.
#[export] Instance xor8_left_id : LeftId (=) x00 xor8.
Proof. intros a. apply byte_to_Z_inj. rewrite !byte_to_Z_xor. apply Z.lxor_0_l. Qed.
#[export] Instance xor8_right_id : RightId (=) x00 xor8.
Proof. intros a. rewrite (comm_L xor8). apply xor8_left_id. Qed.
Lemma xor8_nilpotent a : xor8 a a = x00.
Proof. apply byte_to_Z_inj. rewrite byte_to_Z_xor. apply Z.lxor_nilpotent. Qed.
Lemma xor8_cancel a b : xor8 (xor8 a b) b = a.
Proof. by rewrite <- (assoc_L _), xor8_nilpotent, (right_id_L x00 _). Qed.
Lemma xor8_exchange a b c d : xor8 (xor8 a b) (xor8 c d) = xor8 (xor8 a c) (xor8 b d).
Proof.
  rewrite <- (assoc_L xor8 a b (xor8 c d)), (assoc_L xor8 b c d), (comm_L xor8 b c),
    <- (assoc_L xor8 c b d). apply (assoc_L xor8).
Qed.

Lemma xor_bytes_length a b : length a = length b → length (xor_bytes a b) = length a.
Proof. intros H. unfold xor_bytes. rewrite length_zip_with. lia. Qed.
Lemma xor_bytes_cancel a b : length a = length b → xor_bytes (xor_bytes a b) b = a.
Proof.
  unfold xor_bytes. revert b. induction a as [|x a IH]; intros [|y b] H; simplify_eq/=; [done|].
  by rewrite xor8_cancel, IH.
Qed.

(** Multiplication is linear. *)
Lemma xtime_xor a b : xtime (xor8 a b) = xor8 (xtime a) (xtime b).
Proof.
  refine (bool_decide_unpack _ (Is_true_true_2 _ _)). revert a b.
  refine (λ a b, byte_forall (λ b, bool_decide (xtime (xor8 a b) = xor8 (xtime a) (xtime b))) _ b).
  refine (byte_forall (λ a, forallb (λ b, bool_decide (xtime (xor8 a b) = xor8 (xtime a) (xtime b)))
            all_bytes) _ a).
  vm_compute. reflexivity.
Qed.

Lemma gmul_xor c a b : gmul c (xor8 a b) = xor8 (gmul c a) (gmul c b).
Proof.
  unfold gmul. generalize (Z.testbit (byte_to_Z c) <$> seqZ 0 8) as bits. intros bits.
  revert a b. induction bits as [|bit bits IH]; intros a b; cbn [mul_bits].
  { by rewrite (left_id_L x00 xor8). }
  rewrite xtime_xor, IH, (xor8_exchange (if bit then a else x00)). f_equal.
  destruct bit; [done|]. by rewrite (left_id_L x00 xor8).
Qed.

Lemma dot_xor row a b :
  length a = length b → dot row (xor_bytes a b) = xor8 (dot row a) (dot row b).
Proof.
  revert a b. induction row as [|c row IH]; intros [|x a] [|y b] H; simplify_eq/=;
    try by rewrite (left_id_L x00 xor8).
  unfold xor_bytes in IH. rewrite gmul_xor, IH by done. apply xor8_exchange.
Qed.

Lemma mat_mul_xor m a b :
  length a = length b → mat_mul m (xor_bytes a b) = xor_bytes (mat_mul m a) (mat_mul m b).
Proof.
  intros H. induction m as [|row m IH]; [done|].
  change (dot row (xor_bytes a b) :: mat_mul m (xor_bytes a b)
          = xor8 (dot row a) (dot row b) :: xor_bytes (mat_mul m a) (mat_mul m b)).
  by rewrite dot_xor, IH.
Qed.

(** The two matrices are inverse on the columns with one entry, hence on all. *)
Definition unmix (col : list byte) : list byte := mat_mul inv_mix_matrix (mat_mul mix_matrix col).

Lemma unmix_entry b :
  unmix [b; x00; x00; x00] = [b; x00; x00; x00] ∧ unmix [x00; b; x00; x00] = [x00; b; x00; x00] ∧
  unmix [x00; x00; b; x00] = [x00; x00; b; x00] ∧ unmix [x00; x00; x00; b] = [x00; x00; x00; b].
Proof.
  refine (bool_decide_unpack _ (Is_true_true_2 _ (byte_forall (λ b, bool_decide
    (unmix [b; x00; x00; x00] = [b; x00; x00; x00] ∧ unmix [x00; b; x00; x00] = [x00; b; x00; x00] ∧
     unmix [x00; x00; b; x00] = [x00; x00; b; x00] ∧ unmix [x00; x00; x00; b] = [x00; x00; x00; b]))
    _ b))).
  vm_compute. reflexivity.
Qed.

Lemma unmix_id col : length col = 4%nat → unmix col = col.
Proof.
  intros H. destruct col as [|a [|b [|c [|d [|]]]]]; try done.
  assert (Hs : [a; b; c; d] = xor_bytes [a; x00; x00; x00] (xor_bytes [x00; b; x00; x00]
            (xor_bytes [x00; x00; c; x00] [x00; x00; x00; d]))).
  { unfold xor_bytes. cbn [zip_with]. by rewrite ?(left_id_L x00 xor8), ?(right_id_L x00 xor8). }
  rewrite Hs at 1. unfold unmix. rewrite !mat_mul_xor by done.
  fold (unmix [a; x00; x00; x00]) (unmix [x00; b; x00; x00]) (unmix [x00; x00; c; x00])
    (unmix [x00; x00; x00; d]).
  destruct (unmix_entry a) as (-> & _), (unmix_entry b) as (_ & -> & _),
    (unmix_entry c) as (_ & _ & -> & _), (unmix_entry d) as (_ & _ & _ & ->). by rewrite Hs.
Qed.

Lemma inv_sbox_sbox b : inv_sbox (sbox b) = b.
Proof.
  refine (bool_decide_unpack _ (Is_true_true_2 _
    (byte_forall (λ b, bool_decide (inv_sbox (sbox b) = b)) _ b))).
  vm_compute. reflexivity.
Qed.

Definition is_block (st : list byte) : Prop := length st = BlockSize.

Ltac block_cases st H :=
  do 16 (destruct st as [|? st]; [discriminate H|]); destruct st; [|discriminate H].

Lemma inv_sub_sub st : inv_sub_bytes (sub_bytes st) = st.
Proof.
  unfold inv_sub_bytes, sub_bytes. rewrite <- list_fmap_compose. rewrite <- (list_fmap_id st) at 2.
  apply list_fmap_ext. intros i b _. apply inv_sbox_sbox.
Qed.
Lemma inv_shift_shift st : is_block st → inv_shift_rows (shift_rows st) = st.
Proof. intros H. block_cases st H. reflexivity. Qed.

Lemma columns_split st : is_block st →
  st = slice 0 4 st ++ slice 4 8 st ++ slice 8 12 st ++ slice 12 16 st.
Proof. intros H. block_cases st H. reflexivity. Qed.

Lemma inv_mix_mix st : is_block st → inv_mix_columns (mix_columns st) = st.
Proof.
  intros H. unfold inv_mix_columns, mix_columns, on_columns.
  assert (L : ∀ c, length (mat_mul mix_matrix c) = 4%nat) by done.
  rewrite (slice_app_take 4) by apply L.
  rewrite !(slice_app_skip _ _ 4 (mat_mul mix_matrix (slice 0 4 st))) by (done || lia).
  rewrite (slice_app_take 4) by apply L.
  rewrite !(slice_app_skip _ _ 4 (mat_mul mix_matrix (slice 4 8 st))) by (done || lia).
  rewrite (slice_app_take 4) by apply L.
  rewrite !(slice_app_skip _ _ 4 (mat_mul mix_matrix (slice 8 12 st))) by (done || lia).
  cbn [Nat.sub]. rewrite (slice_all 4 (mat_mul mix_matrix (slice 12 16 st))) by apply L.
  fold (unmix (slice 0 4 st)) (unmix (slice 4 8 st)) (unmix (slice 8 12 st)) (unmix (slice 12 16 st)).
  rewrite !unmix_id by (apply slice_length; unfold is_block, BlockSize in H; lia).
  symmetry. by apply columns_split.
Qed.

Record key_ok (k : aes_key) : Prop := {
  ko_first : is_block (ak_first k);
  ko_middle : Forall is_block (ak_middle k);
  ko_last : is_block (ak_last k)
}.

Lemma sub_shift_block st : is_block st → is_block (shift_rows (sub_bytes st)).
Proof. done. Qed.
Lemma mix_block st : is_block (mix_columns st).
Proof. done. Qed.
Lemma xor_block a b : is_block a → is_block b → is_block (xor_bytes a b).
Proof. unfold is_block. intros. rewrite xor_bytes_length; lia. Qed.

Lemma inv_sub_shift st :
  is_block st → inv_sub_bytes (inv_shift_rows (shift_rows (sub_bytes st))) = st.
Proof.
  intros H. rewrite inv_shift_shift by (unfold is_block, sub_bytes in *; by rewrite length_fmap).
  apply inv_sub_sub.
Qed.

Lemma dec_enc_round st key : is_block st → is_block key → dec_round key (enc_round st key) = st.
Proof.
  intros Hs Hk. unfold dec_round, enc_round.
  rewrite xor_bytes_cancel by (by rewrite Hk).
  rewrite inv_mix_mix by done. by apply inv_sub_shift.
Qed.

Lemma dec_enc_rounds keys st :
  Forall is_block keys → is_block st →
  foldr dec_round (foldl enc_round st keys) keys = st ∧ is_block (foldl enc_round st keys).
Proof.
  intros Hk. revert st. induction Hk as [|key keys Hkey _ IH]; intros st Hs; simpl; [done|].
  destruct (IH (enc_round st key)) as [Heq Hb]; [by apply xor_block|].
  split; [|done]. rewrite Heq. by apply dec_enc_round.
Qed.

Lemma decrypt_encrypt_block k b :
  key_ok k → is_block b → decrypt_block k (encrypt_block k b) = b ∧ is_block (encrypt_block k b).
Proof.
  intros [Hf Hm Hl] Hb. unfold decrypt_block, encrypt_block.
  destruct (dec_enc_rounds (ak_middle k) (xor_bytes b (ak_first k)) Hm) as [Heq Hblk];
    [by apply xor_block|].
  split; [|by apply xor_block].
  rewrite (xor_bytes_cancel (shift_rows _)) by (by rewrite Hl).
  rewrite inv_sub_shift by done. rewrite Heq. apply xor_bytes_cancel. by rewrite Hf.
Qed.

(** ** Key expansion *)

Lemma next_word_length nk i prev back :
  length prev = 4%nat → length back = 4%nat → length (next_word nk i prev back) = 4%nat.
Proof.
  intros Hp Hb. unfold next_word. rewrite xor_bytes_length; [done|].
  rewrite Hb. repeat case_decide; unfold sub_bytes; rewrite ?length_fmap; [|done..].
  rewrite xor_bytes_length; unfold rot_word; rewrite length_fmap, length_app, length_drop, length_take, Hp;
    done.
Qed.

Lemma expand_words nk i n ws :
  (0 < nk ≤ length ws)%nat → Forall (λ w, length w = 4%nat) ws →
  Forall (λ w, length w = 4%nat) (expand nk i n ws) ∧
  length (expand nk i n ws) = (length ws + n)%nat.
Proof.
  revert i ws. induction n as [|n IH]; intros i ws Hl Hw; simpl; [split; [done|lia]|].
  assert (Hn : ∀ j, (j < length ws)%nat → length (nth j ws []) = 4%nat).
  { intros j Hj. destruct (lookup_lt_is_Some_2 ws j Hj) as [w Hj'].
    rewrite (nth_lookup_Some _ _ _ _ Hj'). by eapply Forall_lookup in Hw. }
  set (w := next_word nk i (nth 0 ws []) (nth (nk - 1) ws [])).
  destruct (IH (S i) (w :: ws)) as [IH1 IH2]; simpl in *; [lia| |split; [done|lia]].
  constructor; [|done]. apply next_word_length; apply Hn; lia.
Qed.

Lemma chunks_length n k l : length (chunks n k l) = n.
Proof. revert l. induction n; intros; simpl; auto. Qed.
Lemma chunks_Forall n k l : (n * k ≤ length l)%nat → Forall (λ c, length c = k) (chunks n k l).
Proof.
  revert l. induction n as [|n IH]; intros l Hl; simpl; constructor.
  - rewrite length_take. lia.
  - apply IH. rewrite length_drop. lia.
Qed.
Lemma chunks_join n k l : length l = (n * k)%nat → mjoin (chunks n k l) = l.
Proof.
  revert l. induction n as [|n IH]; intros l Hl; simpl.
  { by destruct l. }
  rewrite IH by (rewrite length_drop; lia). apply take_drop.
Qed.
Lemma join_length (ws : list (list byte)) k :
  Forall (λ w, length w = k) ws → length (mjoin ws) = (length ws * k)%nat.
Proof. induction 1 as [|w ws Hw _ IH]; simpl; [done|]. rewrite length_app, IH, Hw. lia. Qed.

Lemma NewCipher_ok key k : NewCipher key = Ok k → key_ok k.
Proof.
  unfold NewCipher. destruct (decide _) as [Hl|]; [|done]. intros [= <-].
  assert (Hk : Forall is_block (round_keys key) ∧ (2 ≤ length (round_keys key))%nat).
  { unfold round_keys. set (nk := (length key / 4)%nat).
    assert (Hnk : (length key = nk * 4 ∧ 4 ≤ nk ≤ 8)%nat)
      by (unfold nk; repeat apply elem_of_cons in Hl as [-> | Hl]; [vm_compute; lia..|by apply elem_of_nil in Hl]).
    destruct (expand_words nk nk (4 * (nk + 6 + 1) - nk) (reverse (chunks nk 4 key))) as [Hw Hlen].
    { rewrite length_reverse, chunks_length. lia. }
    { apply Forall_reverse, chunks_Forall. lia. }
    rewrite length_reverse, chunks_length in Hlen. rewrite chunks_length. split; [|lia].
    apply chunks_Forall. rewrite (join_length _ 4) by (by apply Forall_reverse).
    rewrite length_reverse, Hlen. lia. }
  destruct Hk as [Hk H2]. assert (Hn : ∀ j, (j < length (round_keys key))%nat →
    is_block (nth j (round_keys key) [])).
  { intros j Hj. destruct (lookup_lt_is_Some_2 _ j Hj) as [w Hj'].
    rewrite (nth_lookup_Some _ _ _ _ Hj'). by eapply Forall_lookup in Hk. }
  split; simpl; [apply Hn; lia| |apply Hn; lia].
  unfold slice. apply Forall_take. by apply Forall_drop.
Qed.

(** ** Chaining and padding *)

Lemma cbc_roundtrip k iv blocks :
  key_ok k → is_block iv → Forall is_block blocks →
  length (cbc_encrypt k iv blocks) = (length blocks * BlockSize)%nat ∧
  cbc_decrypt k iv (chunks (length blocks) BlockSize (cbc_encrypt k iv blocks)) = mjoin blocks.
Proof.
  intros Hk Hiv Hb. revert iv Hiv. induction Hb as [|b blocks Hb _ IH]; intros iv Hiv; [done|].
  cbn [cbc_encrypt length chunks].
  destruct (decrypt_encrypt_block k (xor_bytes b iv) Hk) as [Hd He]; [by apply xor_block|].
  destruct (IH _ He) as [IH1 IH2]. split; [rewrite length_app, IH1, He; lia|].
  rewrite take_app_length', drop_app_length' by done. cbn [cbc_decrypt mjoin list_join].
  rewrite IH2, Hd, xor_bytes_cancel by (by rewrite Hiv). done.
Qed.

Lemma pkcs7Pad_length data n :
  (0 < n)%nat → (length (pkcs7Pad data n) mod n = 0)%nat ∧ (0 < length (pkcs7Pad data n))%nat.
Proof.
  intros Hn. unfold pkcs7Pad. rewrite length_app, length_replicate.
  pose proof (Nat.mod_upper_bound (length data) n). split; [|lia].
  rewrite (Nat.div_mod_eq (length data) n) at 1.
  replace (n * (length data / n) + length data mod n + (n - length data mod n))%nat
    with ((length data / n + 1) * n)%nat by nia.
  apply Nat.Div0.mod_mul.
Qed.

Lemma forallb_replicate x (l : list byte) :
  forallb (λ c, bool_decide (c = x)) l = true ↔ l = replicate (length l) x.
Proof.
  induction l as [|y l IH]; simpl; [done|]. rewrite andb_true_iff, bool_decide_eq_true, IH.
  split; [intros [-> Hl]; by f_equal|]. intros [= -> Hl]. by split.
Qed.

(** The length of the padding of an aligned string. *)
Lemma padding_unique len p n :
  (0 < p ≤ n)%nat → (p ≤ len)%nat → (len mod n = 0)%nat → (n - (len - p) mod n = p)%nat.
Proof.
  intros Hp Hl Hm. pose proof (Nat.div_mod_eq len n) as Hd. rewrite Hm in Hd.
  destruct (len / n)%nat as [|q]; [lia|].
  replace (len - p)%nat with ((n - p) + q * n)%nat by nia. rewrite Nat.Div0.mod_add.
  destruct (decide (p = n)) as [->|]; [rewrite Nat.sub_diag, Nat.Div0.mod_0_l; lia|].
  rewrite Nat.mod_small; lia.
Qed.

Lemma byte_nat p : (p < 256)%nat → Z.to_nat (byte_to_Z (Z_to_byte (Z.of_nat p))) = p.
Proof. intros Hp. rewrite byte_to_Z_to_byte. unfold u8. rewrite Z.mod_small by lia. lia. Qed.

Lemma aligned_pos len n : (0 < n)%nat → len ≠ 0%nat → (len mod n = 0 → n ≤ len)%nat.
Proof.
  intros Hn Hl Hm. destruct (Nat.lt_ge_cases len n); [|done].
  rewrite Nat.mod_small in Hm by lia. lia.
Qed.

(** Unpadding accepts exactly what padding makes. *)
Lemma pkcs7Unpad_iff d data n :
  (0 < n < 256)%nat → pkcs7Unpad d n = Ok data ↔ d = pkcs7Pad data n.
Proof.
  intros Hn. split.
  - intros H. unfold pkcs7Unpad in H. res_inv. rewrite orb_false_iff in *.
    set (p := Z.to_nat (byte_to_Z (default x00 (last d)))) in *.
    repeat match goal with H : _ ∧ _ |- _ => destruct H end.
    rewrite ?negb_false_iff, ?bool_decide_eq_false, ?bool_decide_eq_true, ?forallb_replicate in *.
    assert (n ≤ length d)%nat by (apply aligned_pos; [lia|done..]).
    match goal with H : drop _ d = _ |- _ => rename H into Hpad end.
    rewrite length_drop in Hpad. replace (length d - (length d - p))%nat with p in Hpad by lia.
    unfold pkcs7Pad. rewrite length_take, Nat.min_l by lia.
    rewrite padding_unique by (done || lia). rewrite <- Hpad. symmetry. apply take_drop.
  - intros ->. destruct (pkcs7Pad_length data n) as [Hm Hl]; [lia|].
    unfold pkcs7Unpad. rewrite (bool_decide_false (length (pkcs7Pad data n) = 0%nat)) by lia.
    rewrite (bool_decide_true (length (pkcs7Pad data n) mod n = 0)%nat) by done.
    cbn [orb negb fail_if mbind res_bind]. unfold pkcs7Pad in *.
    set (p := (n - length data mod n)%nat) in *.
    assert (Hp : (0 < p ≤ n)%nat)
      by (pose proof (Nat.mod_upper_bound (length data) n ltac:(lia)); lia).
    assert (Hlast : last (data ++ replicate p (Z_to_byte (Z.of_nat p))) = Some (Z_to_byte (Z.of_nat p))).
    { destruct p as [|q]; [lia|]. by rewrite replicate_S_end, app_assoc, last_snoc. }
    rewrite Hlast. cbn [default id]. rewrite byte_nat by lia.
    rewrite !bool_decide_false by lia. cbn [orb fail_if mbind res_bind].
    rewrite length_app, length_replicate, Nat.add_sub, drop_app_length, take_app_length.
    rewrite (proj2 (forallb_replicate _ _)) by (by rewrite length_replicate). done.
Qed.

(** ** Properties *)

(** What the wallet encrypts it can decrypt: with a key of 16, 24 or 32 bytes and
    an initialisation vector of one block, [aesEncrypt] succeeds on every
    plaintext, its result is a whole number of blocks, and [aesDecrypt] with the
    same key and vector returns the plaintext. *)
Lemma aes_roundtrip key iv plaintext :
  length key ∈ [16; 24; 32]%nat → length iv = BlockSize →
  ∃ ciphertext, aesEncrypt key plaintext iv = Ok ciphertext ∧
    (length ciphertext mod BlockSize = 0)%nat ∧ aesDecrypt key iv ciphertext = Ok plaintext.
Proof.
  intros Hkey Hiv. unfold aesEncrypt, aesDecrypt.
  destruct (NewCipher key) as [k| |] eqn:Hk;
    [|unfold NewCipher in Hk; by rewrite decide_True in Hk by done..].
  apply NewCipher_ok in Hk. cbn [mbind res_bind].
  destruct (pkcs7Pad_length plaintext BlockSize) as [Hm _]; [unfold BlockSize; lia|].
  set (src := pkcs7Pad plaintext BlockSize) in *. set (n := (length src / BlockSize)%nat).
  assert (Hlen : length src = (n * BlockSize)%nat)
    by (unfold n; rewrite (Nat.div_mod_eq (length src) BlockSize) at 1; lia).
  destruct (cbc_roundtrip k iv (chunks n BlockSize src) Hk Hiv) as [Hl Hd];
    [apply chunks_Forall; lia|].
  rewrite chunks_length in Hl, Hd. rewrite chunks_join in Hd by done.
  unfold crypt_blocks at 1. rewrite decide_True by done. fold n. eexists. split; [done|].
  rewrite Hl. split; [apply Nat.Div0.mod_mul|].
  rewrite bool_decide_true by apply Nat.Div0.mod_mul. cbn [negb fail_if mbind res_bind].
  unfold crypt_blocks. rewrite Hl, decide_True by (split; [done|apply Nat.Div0.mod_mul]).
  rewrite Nat.div_mul, Hd by done. cbn [mbind res_bind].
  apply pkcs7Unpad_iff; [unfold BlockSize; lia|done].
Qed.

(** The example vectors of FIPS 197, appendix C. *)
Example aes_vectors :
  let pt := (λ i, Z_to_byte (17 * i)) <$> seqZ 0 16 in
  (λ k, encrypt_block k pt) <$> NewCipher (Z_to_byte <$> seqZ 0 16)
    = Ok [x69; xc4; xe0; xd8; x6a; x7b; x04; x30; xd8; xcd; xb7; x80; x70; xb4; xc5; x5a] ∧
  (λ k, encrypt_block k pt) <$> NewCipher (Z_to_byte <$> seqZ 0 32)
    = Ok [x8e; xa2; xb7; xca; x51; x67; x45; xbf; xea; xfc; x49; x90; x4b; x49; x60; x89].
Proof. vm_compute. split; reflexivity. Qed.
