(* ===== verification/Wallet.v ===== *)
(** * internal/wallet/hdwallet.go: the wallet

    The wallet of one user: a seed, the keys derived from it along two chains
    (receiving and change), the indices by which a script or an address finds
    its key, the encryption of the seed under a passphrase, and the file
    wallet.json, which is rewritten whenever a key is derived.

    [HDWallet] is the Go struct with the part of the outside world it works on
    ([host]: the wallet file and the number of calls made to the operating
    system); the outcomes of these calls, the clock and the random source are
    arguments.  hdkeychain, go-bip39, secp256k1 and scrypt are third-party
    packages, and the text of encoding/json does not matter here: they are the
    operations of the class [HDLib], and of [CryptoLib] and [HashLib].  A key is
    never changed once it is made, so that pointers to keys are the keys. *)
From S2P Require Import Prelude Types Sha256 Keys Base58 Algorithms BlockFiles Aes.

(** ** Data *)

Definition str (s : string) : list byte := String.list_byte_of_string s.

(** The JSON representation on disk. *)
Record WalletData : Type := mkWalletData {
  wd_Mnemonic : list byte;
  wd_Seed : list byte;
  wd_NextExternalIdx : Z;
  wd_NextChangeIdx : Z;
  wd_Encrypted : bool;
  wd_EncryptedData : list byte;
  wd_Salt : list byte;
  wd_IV : list byte;
  wd_ScryptN : Z;
  wd_ScryptR : Z;
  wd_ScryptP : Z
}.

Class HDLib `{CryptoLib} := {
  ExtendedKey : Type;
  hd_NewMaster : list byte → error + ExtendedKey;
  hd_Derive : ExtendedKey → Z → error + ExtendedKey;
  hd_ECPrivKey : ExtendedKey → error + PrivateKey;
  PrivateKey_Serialize : PrivateKey → list byte;
  bip39_NewMnemonic : list byte → error + list byte;
  bip39_IsMnemonicValid : list byte → bool;
  bip39_NewSeed : list byte → list byte → list byte;
  json_MarshalIndent : WalletData → error + list byte;
  json_Unmarshal : list byte → error + WalletData
}.

Definition HardenedKeyStart : Z := 0x80000000.
Definition bip44Purpose : Z := 44.
Definition bip44CoinType : Z := 0.

Definition scryptN : Z := 32768.
Definition scryptR : Z := 8.
Definition scryptP : Z := 1.
Definition keyLen : Z := 32.
Definition saltLen : nat := 16.

Record UnspentOutput : Type := mkUnspent {
  uo_TxHash : Hash;
  uo_Index : Z;
  uo_Value : Z;
  uo_Height : Z;
  uo_Confirmations : Z;
  uo_Address : list byte;
  uo_PkScript : list byte;
  uo_IsCoinbase : bool
}.

#[export] Instance UnspentOutput_eq_dec : EqDecision UnspentOutput.
Proof. solve_decision. Defined.

(** The wallet file, and how many calls were made to the system. *)
Record host : Type := mkHost {
  ho_file : option (list byte);
  ho_calls : nat
}.

Section wallet.
Context `{C : CryptoLib, !HDLib, !HashLib}.

Record DerivedKey : Type := mkDerivedKey {
  dk_PrivKey : PrivateKey;
  dk_PubKey : list byte;
  dk_PubKeyHash : list byte;
  dk_Path : list byte;
  dk_IsChange : bool;
  dk_Index : Z
}.

(** [unlockUntil] is counted from Go's zero time, which is 0. *)
Record HDWallet : Type := mkHDWallet {
  w_host : host;
  w_mnemonic : list byte;
  w_seed : list byte;
  w_accountKey : option ExtendedKey;
  w_externalKey : option ExtendedKey;
  w_changeKey : option ExtendedKey;
  w_externalKeys : list DerivedKey;
  w_changeKeys : list DerivedKey;
  w_nextExternalIdx : Z;
  w_nextChangeIdx : Z;
  w_keysByHash : gmap (list byte) DerivedKey;
  w_keysByAddress : gmap (list byte) DerivedKey;
  w_addrVersion : byte;
  w_encrypted : bool;
  w_locked : bool;
  w_unlockUntil : Z;
  w_encKey : list byte
}.

(** *** Assignments *)

Definition set_host (h : host) (w : HDWallet) : HDWallet :=
  mkHDWallet h (w_mnemonic w) (w_seed w) (w_accountKey w) (w_externalKey w) (w_changeKey w)
    (w_externalKeys w) (w_changeKeys w) (w_nextExternalIdx w) (w_nextChangeIdx w)
    (w_keysByHash w) (w_keysByAddress w) (w_addrVersion w) (w_encrypted w) (w_locked w)
    (w_unlockUntil w) (w_encKey w).
Definition set_secret (mnemonic seed : list byte) (w : HDWallet) : HDWallet :=
  mkHDWallet (w_host w) mnemonic seed (w_accountKey w) (w_externalKey w) (w_changeKey w)
    (w_externalKeys w) (w_changeKeys w) (w_nextExternalIdx w) (w_nextChangeIdx w)
    (w_keysByHash w) (w_keysByAddress w) (w_addrVersion w) (w_encrypted w) (w_locked w)
    (w_unlockUntil w) (w_encKey w).
Definition set_chains (account external change : option ExtendedKey) (w : HDWallet) : HDWallet :=
  mkHDWallet (w_host w) (w_mnemonic w) (w_seed w) account external change
    (w_externalKeys w) (w_changeKeys w) (w_nextExternalIdx w) (w_nextChangeIdx w)
    (w_keysByHash w) (w_keysByAddress w) (w_addrVersion w) (w_encrypted w) (w_locked w)
    (w_unlockUntil w) (w_encKey w).
Definition set_keys (external change : list DerivedKey)
    (byHash byAddress : gmap (list byte) DerivedKey) (w : HDWallet) : HDWallet :=
  mkHDWallet (w_host w) (w_mnemonic w) (w_seed w) (w_accountKey w) (w_externalKey w)
    (w_changeKey w) external change (w_nextExternalIdx w) (w_nextChangeIdx w)
    byHash byAddress (w_addrVersion w) (w_encrypted w) (w_locked w)
    (w_unlockUntil w) (w_encKey w).
Definition set_next (external change : Z) (w : HDWallet) : HDWallet :=
  mkHDWallet (w_host w) (w_mnemonic w) (w_seed w) (w_accountKey w) (w_externalKey w)
    (w_changeKey w) (w_externalKeys w) (w_changeKeys w) external change
    (w_keysByHash w) (w_keysByAddress w) (w_addrVersion w) (w_encrypted w) (w_locked w)
    (w_unlockUntil w) (w_encKey w).
Definition set_lock (encrypted locked : bool) (unlockUntil : Z) (encKey : list byte)
    (w : HDWallet) : HDWallet :=
  mkHDWallet (w_host w) (w_mnemonic w) (w_seed w) (w_accountKey w) (w_externalKey w)
    (w_changeKey w) (w_externalKeys w) (w_changeKeys w) (w_nextExternalIdx w) (w_nextChangeIdx w)
    (w_keysByHash w) (w_keysByAddress w) (w_addrVersion w) encrypted locked unlockUntil encKey.

(** *** The operating system *)

Context (faults : nat → io_fault) (clock : nat → Z) (random : nat → list byte).

(** The number of this call. *)
Definition next_call : proc HDWallet nat := λ w,
  let h := w_host w in
  (Ok (ho_calls h), set_host (mkHost (ho_file h) (S (ho_calls h))) w).

Definition io_error : error := Errorf "input/output error".

Definition os_ReadFile : proc HDWallet (list byte) :=
  n ← next_call;
  match faults n with
  | IoOk => file ← gets (λ w, ho_file (w_host w));
            match file with Some data => mret data | None => throw (Sentinel "not exist") end
  | _ => throw io_error
  end.

Definition os_MkdirAll : proc HDWallet () :=
  n ← next_call;
  match faults n with IoOk => mret () | _ => throw io_error end.

(** The file is truncated when it is opened: a call that fails later leaves the
    part of the data that was written. *)
Definition os_WriteFile (data : list byte) : proc HDWallet () :=
  n ← next_call;
  let write bs := modify (λ w, set_host (mkHost (Some bs) (ho_calls (w_host w))) w) in
  match faults n with
  | IoOk => write data
  | IoFail => throw io_error
  | IoShort k => _ ← write (take k data); throw io_error
  end.

(** [rand.Read] fills the slice or fails. *)
Definition rand_Read (len : nat) : proc HDWallet (list byte) :=
  n ← next_call;
  match faults n with IoOk => mret (resize len x00 (random n)) | _ => throw io_error end.

Definition time_Now : proc HDWallet Z := n ← next_call; mret (clock n).

(** ** Keys *)

(** [%d]; the fuel is the number of digits of a 32-bit index. *)
Fixpoint decimal (fuel : nat) (n : Z) : list byte :=
  match fuel with
  | O => []
  | S fuel' =>
      (if n <? 10 then [] else decimal fuel' (n / 10)) ++ [Z_to_byte (48 + n mod 10)]
  end.

Definition key_path (chainIdx index : Z) : list byte :=
  str "m/44'/0'/0'/" ++ decimal 10 chainIdx ++ str "/" ++ decimal 10 index.

Definition registerKey (extKey : ExtendedKey) (isChange : bool) (index : Z)
    : proc HDWallet DerivedKey :=
  ecPrivKey ← pure (wrap "extract EC private key" (lib (hd_ECPrivKey extKey)));
  let privKey := secp256k1_PrivKeyFromBytes (PrivateKey_Serialize ecPrivKey) in
  let pubKey := PublicKey_SerializeCompressed (PrivateKey_PubKey privKey) in
  let pubKeyHash := PubKeyHash pubKey in
  let path := key_path (if isChange then 1 else 0) index in
  let dk := mkDerivedKey privKey pubKey pubKeyHash path isChange index in
  _ ← modify (λ w,
        let addr := PubKeyHashToAddress pubKeyHash (w_addrVersion w) in
        set_keys (if isChange then w_externalKeys w else w_externalKeys w ++ [dk])
          (if isChange then w_changeKeys w ++ [dk] else w_changeKeys w)
          (<[pubKeyHash := dk]> (w_keysByHash w)) (<[addr := dk]> (w_keysByAddress w)) w);
  mret dk.

(** A chain key that was not derived is a nil pointer. *)
Definition deriveExternal (index : Z) : proc HDWallet DerivedKey :=
  k ← gets w_externalKey;
  match k with
  | None => pure Panic
  | Some externalKey =>
      child ← pure (wrap "derive external key" (lib (hd_Derive externalKey index)));
      registerKey child false index
  end.

Definition deriveChange (index : Z) : proc HDWallet DerivedKey :=
  k ← gets w_changeKey;
  match k with
  | None => pure Panic
  | Some changeKey =>
      child ← pure (wrap "derive change key" (lib (hd_Derive changeKey index)));
      registerKey child true index
  end.

Definition deriveAccountKeys : proc HDWallet () :=
  seed ← gets w_seed;
  masterKey ← pure (wrap "derive master key" (lib (hd_NewMaster seed)));
  purpose ← pure (wrap "derive purpose"
              (lib (hd_Derive masterKey (HardenedKeyStart + bip44Purpose))));
  coinType ← pure (wrap "derive coin type"
               (lib (hd_Derive purpose (HardenedKeyStart + bip44CoinType))));
  account ← pure (wrap "derive account" (lib (hd_Derive coinType (HardenedKeyStart + 0))));
  _ ← modify (λ w, set_chains (Some account) (w_externalKey w) (w_changeKey w) w);
  external ← pure (wrap "derive external chain" (lib (hd_Derive account 0)));
  _ ← modify (λ w, set_chains (w_accountKey w) (Some external) (w_changeKey w) w);
  change ← pure (wrap "derive change chain" (lib (hd_Derive account 1)));
  modify (λ w, set_chains (w_accountKey w) (w_externalKey w) (Some change) w).

(** ** The file *)

Definition savePreservingEncryption : proc HDWallet () :=
  existing ← pwrap "read encrypted wallet" os_ReadFile;
  wd ← pure (wrap "parse encrypted wallet" (lib (json_Unmarshal existing)));
  w ← gets id;
  let wd := mkWalletData (wd_Mnemonic wd) (wd_Seed wd) (w_nextExternalIdx w) (w_nextChangeIdx w)
    (wd_Encrypted wd) (wd_EncryptedData wd) (wd_Salt wd) (wd_IV wd)
    (wd_ScryptN wd) (wd_ScryptR wd) (wd_ScryptP wd) in
  data ← pure (wrap "marshal wallet" (lib (json_MarshalIndent wd)));
  os_WriteFile data.

Definition plain_data (w : HDWallet) : WalletData :=
  mkWalletData (w_mnemonic w) (hex_EncodeToString (w_seed w)) (w_nextExternalIdx w)
    (w_nextChangeIdx w) false [] [] [] 0 0 0.

Definition save : proc HDWallet () :=
  encrypted ← gets w_encrypted;
  if encrypted : bool then savePreservingEncryption else
  wd ← gets plain_data;
  data ← pure (wrap "marshal wallet" (lib (json_MarshalIndent wd)));
  _ ← pwrap "create wallet dir" os_MkdirAll;
  os_WriteFile data.

Definition encrypted_data (ciphertext salt iv : list byte) (w : HDWallet) : WalletData :=
  mkWalletData [] [] (w_nextExternalIdx w) (w_nextChangeIdx w) true
    (hex_EncodeToString ciphertext) (hex_EncodeToString salt) (hex_EncodeToString iv)
    scryptN scryptR scryptP.

Definition saveEncrypted (ciphertext salt iv : list byte) : proc HDWallet () :=
  wd ← gets (encrypted_data ciphertext salt iv);
  data ← pure (wrap "marshal wallet" (lib (json_MarshalIndent wd)));
  _ ← pwrap "create wallet dir" os_MkdirAll;
  os_WriteFile data.

(** ** Deriving addresses *)

Definition DeriveNextExternal : proc HDWallet DerivedKey :=
  idx ← gets w_nextExternalIdx;
  dk ← deriveExternal idx;
  _ ← modify (λ w, set_next (u32 (w_nextExternalIdx w + 1)) (w_nextChangeIdx w) w);
  _ ← pwrap "save wallet" save;
  mret dk.

Definition DeriveNextChange : proc HDWallet DerivedKey :=
  idx ← gets w_nextChangeIdx;
  dk ← deriveChange idx;
  _ ← modify (λ w, set_next (w_nextExternalIdx w) (u32 (w_nextChangeIdx w + 1)) w);
  _ ← pwrap "save wallet" save;
  mret dk.

(** The address of a key, in the network of the wallet. *)
Definition key_address (w : HDWallet) (dk : DerivedKey) : list byte :=
  PubKeyHashToAddress (dk_PubKeyHash dk) (w_addrVersion w).

Definition GetNewAddress : proc HDWallet (list byte) :=
  dk ← DeriveNextExternal; gets (λ w, key_address w dk).

Definition GetChangeAddress : proc HDWallet (list byte) :=
  dk ← DeriveNextChange; gets (λ w, key_address w dk).

Definition GetCurrentChangeAddress : proc HDWallet (list byte) :=
  keys ← gets w_changeKeys;
  match last keys with
  | Some dk => gets (λ w, key_address w dk)
  | None => GetChangeAddress
  end.

(** ** Creating and loading *)

(** Keys [i], ..., [i + n - 1]. *)
Fixpoint rederive (derive : Z → proc HDWallet DerivedKey) (msg : string) (n : nat) (i : Z)
    : proc HDWallet () :=
  match n with
  | O => mret ()
  | S n' => _ ← pwrap msg (derive i); rederive derive msg n' (i + 1)
  end.

Definition loadSeedAndDerive (mnemonic seedHex : list byte) : proc HDWallet () :=
  seedBytes ← pure (wrap "decode seed" (hex_DecodeString seedHex));
  _ ← modify (set_secret mnemonic seedBytes);
  _ ← deriveAccountKeys;
  nextExternal ← gets w_nextExternalIdx;
  _ ← rederive deriveExternal "re-derive external key" (Z.to_nat nextExternal) 0;
  nextChange ← gets w_nextChangeIdx;
  rederive deriveChange "re-derive change key" (Z.to_nat nextChange) 0.

(** The secret may be in the file unencrypted, even when [Encrypted] is set. *)
Definition loadFromJSON (data : list byte) : proc HDWallet () :=
  wd ← pure (wrap "parse wallet data" (lib (json_Unmarshal data)));
  _ ← modify (set_next (wd_NextExternalIdx wd) (wd_NextChangeIdx wd));
  if wd_Encrypted wd then
    _ ← modify (λ w, set_lock true true (w_unlockUntil w) (w_encKey w) w);
    if negb (bool_decide (wd_Seed wd = [])) && negb (bool_decide (wd_Mnemonic wd = []))
    then loadSeedAndDerive (wd_Mnemonic wd) (wd_Seed wd) else mret ()
  else loadSeedAndDerive (wd_Mnemonic wd) (wd_Seed wd).

(** An entropy of 256 bits. *)
Definition createNew (mnemonic : list byte) : proc HDWallet () :=
  mnemonic ← (if bool_decide (mnemonic = []) then
                entropy ← pwrap "generate entropy" (rand_Read 32);
                pure (wrap "generate mnemonic" (lib (bip39_NewMnemonic entropy)))
              else mret mnemonic);
  _ ← pure (fail_if (negb (bip39_IsMnemonicValid mnemonic)) (Errorf "invalid mnemonic phrase"));
  let seed := bip39_NewSeed mnemonic [] in
  _ ← modify (set_secret mnemonic seed);
  _ ← deriveAccountKeys;
  _ ← pwrap "derive initial key" DeriveNextExternal;
  save.

Definition empty_wallet (h : host) (addrVersion : byte) : HDWallet :=
  mkHDWallet h [] [] None None None [] [] 0 0 ∅ ∅ addrVersion false false 0 [].

(** The wallet is returned beside the error. *)
Definition NewHDWallet (h : host) (addrVersion : byte) : res () * HDWallet :=
  let '(data, w) := os_ReadFile (empty_wallet h addrVersion) in
  match data with
  | Ok (b :: data') => loadFromJSON (b :: data') w
  | _ => createNew [] w
  end.

Definition NewHDWalletFromMnemonic (h : host) (addrVersion : byte) (mnemonic : list byte)
    : res () * HDWallet :=
  createNew mnemonic (empty_wallet h addrVersion).

(** ** Looking keys up *)

Definition GetKeyForAddress (w : HDWallet) (address : list byte) : option DerivedKey :=
  w_keysByAddress w !! address.

Definition GetKeyForPubKeyHash (w : HDWallet) (hash : list byte) : option DerivedKey :=
  w_keysByHash w !! hash.

(** The hash that [ExtractP2PKHHash] returns has the 20 bytes of the array it is
    copied to. *)
Definition KeyForScript (w : HDWallet) (pkScript : list byte) : option DerivedKey :=
  hash ← ExtractP2PKHHash pkScript; w_keysByHash w !! hash.

Definition IsOurScript (w : HDWallet) (pkScript : list byte) : bool :=
  match ExtractP2PKHHash pkScript with
  | None => false
  | Some hash => bool_decide (is_Some (w_keysByHash w !! hash))
  end.

Definition AllAddresses (w : HDWallet) : list (list byte) :=
  (key_address w <$> w_externalKeys w) ++ (key_address w <$> w_changeKeys w).
Definition ExternalAddresses (w : HDWallet) : list (list byte) :=
  key_address w <$> w_externalKeys w.

Definition GetDefaultAddress (w : HDWallet) : list byte :=
  match w_externalKeys w with [] => [] | dk :: _ => key_address w dk end.
Definition GetDefaultP2PKHScript (w : HDWallet) : option (list byte) :=
  match w_externalKeys w with [] => None | dk :: _ => Some (MakeP2PKHScript (dk_PubKeyHash dk)) end.
Definition MiningKeyCompat (w : HDWallet) : option (list byte) * list byte :=
  match w_externalKeys w with
  | [] => (None, replicate PubKeyHashSize x00)
  | dk :: _ => (Some (MakeP2PKHScript (dk_PubKeyHash dk)), dk_PubKeyHash dk)
  end.
Definition KeyCount (w : HDWallet) : Z := len (w_externalKeys w) + len (w_changeKeys w).

(** ** Locking *)

(** The key and the seed are overwritten; the seed keeps its length. *)
Definition wipe (w : HDWallet) : HDWallet :=
  set_secret [] (replicate (length (w_seed w)) x00) (set_lock (w_encrypted w) true 0 [] w).

Definition IsLocked : proc HDWallet bool :=
  w ← gets id;
  if negb (w_encrypted w) then mret false
  else if w_locked w then mret true
  else if w_unlockUntil w =? 0 then mret false
  else
    now ← time_Now;
    if w_unlockUntil w <? now then _ ← modify wipe; mret true else mret false.

Definition RequireUnlocked : proc HDWallet () :=
  encrypted ← gets w_encrypted;
  if negb encrypted then mret () else
  locked ← IsLocked;
  pure (fail_if locked (Errorf "wallet is locked, use walletpassphrase to unlock")).

Definition Mnemonic : proc HDWallet (list byte) :=
  locked ← IsLocked;
  if locked : bool then mret [] else gets w_mnemonic.

Definition WalletLock : proc HDWallet () :=
  encrypted ← gets w_encrypted;
  _ ← pure (fail_if (negb encrypted) (Errorf "wallet is not encrypted"));
  modify wipe.

Definition DumpPrivKey (address : list byte) : proc HDWallet (list byte) :=
  _ ← RequireUnlocked;
  dk ← gets (λ w, w_keysByAddress w !! address);
  match dk with
  | None => throw (Errorf "address not found in wallet: %s")
  | Some dk => gets (λ w, EncodeWIF (PrivateKey_Serialize (dk_PrivKey dk)) (w_addrVersion w))
  end.

Definition decode_privkey (privKeyStr : list byte) : res (list byte) :=
  match DecodeWIF privKeyStr with
  | Ok (wifKey, _, _) => Ok wifKey
  | Panic => Panic
  | Err _ =>
      match hex_DecodeString privKeyStr with
      | Ok hexBytes => Ok hexBytes
      | Panic => Panic
      | Err _ => Err (Errorf "invalid private key: not valid WIF or hex")
      end
  end.

Definition ImportPrivKey (privKeyStr : list byte) : proc HDWallet (list byte) :=
  privBytes ← pure (decode_privkey privKeyStr);
  privKey ← pure (PrivKeyFromBytes privBytes);
  let pubKey := PublicKey_SerializeCompressed (PrivateKey_PubKey privKey) in
  let pubKeyHash := PubKeyHash pubKey in
  w ← gets id;
  let addr := PubKeyHashToAddress pubKeyHash (w_addrVersion w) in
  if bool_decide (is_Some (w_keysByHash w !! pubKeyHash)) then mret addr else
  let dk := mkDerivedKey privKey pubKey pubKeyHash (str "imported") false 0 in
  _ ← modify (set_keys (w_externalKeys w ++ [dk]) (w_changeKeys w)
                (<[pubKeyHash := dk]> (w_keysByHash w)) (<[addr := dk]> (w_keysByAddress w)));
  mret addr.

(** ** Encryption *)

Definition newline : byte := x0a.

Definition secret_text (w : HDWallet) : list byte :=
  w_mnemonic w ++ [newline] ++ hex_EncodeToString (w_seed w).

(** The cipher is made before the vector is read. *)
Definition seal (aesKey plaintext : list byte) : proc HDWallet (list byte * list byte) :=
  _ ← pure (NewCipher aesKey);
  iv ← rand_Read BlockSize;
  ciphertext ← pure (aesEncrypt aesKey plaintext iv);
  mret (ciphertext, iv).

Definition EncryptWallet (passphrase : list byte) : proc HDWallet () :=
  encrypted ← gets w_encrypted;
  _ ← pure (fail_if encrypted (Errorf "wallet is already encrypted"));
  _ ← pure (fail_if (bool_decide (passphrase = [])) (Errorf "passphrase must not be empty"));
  salt ← pwrap "generate salt" (rand_Read saltLen);
  aesKey ← pure (wrap "derive key"
             (lib (scrypt_Key passphrase salt scryptN scryptR scryptP keyLen)));
  plaintext ← gets secret_text;
  ci ← pwrap "encrypt" (seal aesKey plaintext);
  _ ← modify (λ w, set_lock true true (w_unlockUntil w) [] w);
  saveEncrypted ci.1 salt ci.2.

(** [utf8.DecodeRuneInString]: the bytes of the first character, written back,
    and what follows; a byte that starts no character is replaced by U+FFFD. *)
Definition in_range (lo hi : Z) (b : option byte) : bool :=
  match b with Some c => (lo <=? byte_to_Z c) && (byte_to_Z c <=? hi) | None => false end.

Definition rune_size (s : list byte) : option nat :=
  let b0 := s !! 0%nat in
  let cont i := in_range 0x80 0xBF (s !! i) in
  if in_range 0 0x7F b0 then Some 1%nat
  else if in_range 0xC2 0xDF b0 && cont 1%nat then Some 2%nat
  else if in_range 0xE0 0xEF b0
          && in_range (if in_range 0xE0 0xE0 b0 then 0xA0 else 0x80)
               (if in_range 0xED 0xED b0 then 0x9F else 0xBF) (s !! 1%nat)
          && cont 2%nat then Some 3%nat
  else if in_range 0xF0 0xF4 b0
          && in_range (if in_range 0xF0 0xF0 b0 then 0x90 else 0x80)
               (if in_range 0xF4 0xF4 b0 then 0x8F else 0xBF) (s !! 1%nat)
          && cont 2%nat && cont 3%nat then Some 4%nat
  else None.

Definition next_rune (s : list byte) : list byte * list byte :=
  match rune_size s with
  | Some n => (take n s, drop n s)
  | None => ([xef; xbf; xbd], drop 1 s)
  end.

(** Every character takes a byte: the length of the string is enough fuel. *)
Fixpoint split_loop (fuel : nat) (s : list byte) (parts : list (list byte)) (current : list byte)
    : list (list byte) :=
  match fuel, s with
  | S fuel', _ :: _ =>
      let '(c, s') := next_rune s in
      if bool_decide (c = [newline]) then split_loop fuel' s' (parts ++ [current]) []
      else split_loop fuel' s' parts (current ++ c)
  | _, _ => if bool_decide (current = []) then parts else parts ++ [current]
  end.
Definition splitOnNewline (s : list byte) : list (list byte) := split_loop (length s) s [] [].

Definition incorrect_passphrase : error := Errorf "incorrect passphrase".

Definition decrypt_secret (wd : WalletData) (passphrase : list byte)
    : res (list byte * list byte * list byte) :=
  salt ← wrap "decode salt" (hex_DecodeString (wd_Salt wd));
  iv ← wrap "decode iv" (hex_DecodeString (wd_IV wd));
  ciphertext ← wrap "decode ciphertext" (hex_DecodeString (wd_EncryptedData wd));
  let n := if wd_ScryptN wd =? 0 then scryptN else wd_ScryptN wd in
  let r := if wd_ScryptR wd =? 0 then scryptR else wd_ScryptR wd in
  let p := if wd_ScryptP wd =? 0 then scryptP else wd_ScryptP wd in
  aesKey ← wrap "derive key" (lib (scrypt_Key passphrase salt n r p keyLen));
  plaintext ← match aesDecrypt aesKey iv ciphertext with
              | Err _ => Err incorrect_passphrase
              | other => other
              end;
  match splitOnNewline plaintext with
  | mnemonic :: seedHex :: _ =>
      _ ← fail_if (negb (bip39_IsMnemonicValid mnemonic)) incorrect_passphrase;
      Ok (mnemonic, seedHex, aesKey)
  | _ => Err incorrect_passphrase
  end.

(** [time.Duration(timeoutSecs) * time.Second] is a 64-bit product. *)
Definition WalletPassphrase (passphrase : list byte) (timeoutSecs : Z) : proc HDWallet () :=
  encrypted ← gets w_encrypted;
  _ ← pure (fail_if (negb encrypted) (Errorf "wallet is not encrypted"));
  data ← pwrap "read wallet" os_ReadFile;
  wd ← pure (wrap "parse wallet" (lib (json_Unmarshal data)));
  secret ← pure (decrypt_secret wd passphrase);
  let '(mnemonic, seedHex, aesKey) := secret in
  seed ← gets w_seed;
  _ ← (if bool_decide (seed = []) then pwrap "derive keys" (loadSeedAndDerive mnemonic seedHex)
       else mret ());
  _ ← modify (λ w, set_lock (w_encrypted w) false (w_unlockUntil w) aesKey w);
  if 0 <? timeoutSecs then
    now ← time_Now;
    modify (λ w, set_lock (w_encrypted w) (w_locked w) (now + i64 (timeoutSecs * 10 ^ 9))
              (w_encKey w) w)
  else modify (λ w, set_lock (w_encrypted w) (w_locked w) 0 (w_encKey w) w).

(** ** The unspent outputs of the wallet

    [forEach] is the sequence of calls of the iterator: the outputs of the UTXO
    set, in some order. *)

Definition utxo_item : Type := Hash * Z * Z * list byte * Z * bool.

Definition confirmations (tipHeight height : Z) : Z :=
  if height <=? tipHeight then u32 (tipHeight - height + 1) else 0.

Definition find_item (w : HDWallet) (tipHeight : Z) (results : list UnspentOutput)
    (item : utxo_item) : list UnspentOutput :=
  let '(txHash, index, value, pkScript, height, isCoinbase) := item in
  match ExtractP2PKHHash pkScript with
  | None => results
  | Some hash =>
      if bool_decide (is_Some (w_keysByHash w !! hash)) then
        results ++ [mkUnspent txHash index value height (confirmations tipHeight height)
                      (PubKeyHashToAddress hash (w_addrVersion w)) pkScript isCoinbase]
      else results
  end.

Definition FindUnspent (w : HDWallet) (forEach : list utxo_item) (tipHeight : Z)
    : list UnspentOutput :=
  foldl (find_item w tipHeight) [] forEach.

Definition balance_item (w : HDWallet) (tipHeight minConf coinbaseMaturity total : Z)
    (item : utxo_item) : Z :=
  let '(txHash, index, value, pkScript, height, isCoinbase) := item in
  match ExtractP2PKHHash pkScript with
  | None => total
  | Some hash =>
      if bool_decide (is_Some (w_keysByHash w !! hash)) then
        let confs := confirmations tipHeight height in
        if confs <? minConf then total
        else if isCoinbase && (confs <? coinbaseMaturity) then total
        else u64 (total + value)
      else total
  end.

Definition GetBalance (w : HDWallet) (forEach : list utxo_item)
    (tipHeight minConf coinbaseMaturity : Z) : Z :=
  foldl (balance_item w tipHeight minConf coinbaseMaturity) 0 forEach.

(** ** Signing *)

Definition set_sigscript (tx : Transaction) (i : nat) (sigScript : list byte) : Transaction :=
  mkTransaction (tx_Version tx)
    (alter (λ x, mkTxInput (in_PreviousOutPoint x) sigScript (in_Sequence x)) i (tx_Inputs tx))
    (tx_Outputs tx) (tx_LockTime tx).

Definition sign_one (w : HDWallet) (getPrevScript : Hash → Z → option (list byte))
    (st : Z * Transaction) (i : Z) (x : TxInput) : res (Z * Transaction) :=
  let '(signed, tx) := st in
  if negb (bool_decide (in_SignatureScript x = [])) then Ok (signed + 1, tx) else
  match getPrevScript (op_Hash (in_PreviousOutPoint x)) (op_Index (in_PreviousOutPoint x)) with
  | None => Ok (signed, tx)
  | Some prevScript =>
      match KeyForScript w prevScript with
      | None => Ok (signed, tx)
      | Some dk =>
          sigScript ← wrap "sign input" (SignInput tx i prevScript (dk_PrivKey dk));
          Ok (signed + 1, set_sigscript tx (Z.to_nat i) sigScript)
      end
  end.

(** The transaction is changed in place; the callers drop it after an error.
    A turn of the loop changes only its own input. *)
Definition SignRawTransaction (tx : Transaction)
    (getPrevScript : Hash → Z → option (list byte)) : proc HDWallet (Z * bool * Transaction) :=
  _ ← RequireUnlocked;
  w ← gets id;
  st ← pure (foldiM (sign_one w getPrevScript) (0, tx) (tx_Inputs tx));
  mret (st.1, st.1 =? len (tx_Inputs tx), st.2).

(** [OutpointFromKey]. *)
Definition OutpointFromKey (key : list byte) : Hash * Z :=
  (take 32 key, le_decode (slice 32 36 key)).

End wallet.
