(* ===== verification/WalletInv.v ===== *)
(** * The invariant of the wallet

    The two indices of the wallet hold the same keys, each under the hash and
    the address of its own public key, and hold every key of the wallet; every
    operation preserves this, whatever calls of the system or of the libraries
    fail.  [wallet_event] lists the operations that change the wallet, for
    statements about every wallet that can be reached. *)
From S2P Require Import Prelude Types Sha256 Keys Script Base58 Algorithms BlockFiles Aes Wallet.
From S2P Require Import WalletTx.

(** ** Successful runs, step by step *)

Lemma run_bind_Ok {S A B} (m : proc S A) (f : A → proc S B) s b s' :
  (m ≫= f) s = (Ok b, s') ↔ ∃ a s1, m s = (Ok a, s1) ∧ f a s1 = (Ok b, s').
Proof. rewrite proc_bind_eq. destruct (m s) as [[a|e|] s1]; naive_solver. Qed.

Lemma run_pwrap_Ok {S A} msg (m : proc S A) s a s' :
  pwrap msg m s = (Ok a, s') ↔ m s = (Ok a, s').
Proof. unfold pwrap. destruct (m s) as [[b|e|] s1]; simpl; naive_solver. Qed.

Lemma run_ret_Ok {S A} (a b : A) (s s' : S) :
  (mret a : proc S A) s = (Ok b, s') → a = b ∧ s = s'.
Proof. by intros [= -> ->]. Qed.
Lemma run_gets_Ok {S A} (f : S → A) b s s' : gets f s = (Ok b, s') → f s = b ∧ s = s'.
Proof. by intros [= -> ->]. Qed.
Lemma run_modify_Ok {S} (f : S → S) u s s' : modify f s = (Ok u, s') → f s = s'.
Proof. intros Heq. by injection Heq. Qed.
Lemma run_pure_Ok {S A} (r : res A) b (s s' : S) : pure r s = (Ok b, s') → r = Ok b ∧ s = s'.
Proof. by intros [= -> ->]. Qed.

(** Inverts the run of a method that succeeded. *)
Ltac run_inv :=
  repeat match goal with
  | H : (_ ≫= _) _ = (Ok _, _) |- _ =>
      apply run_bind_Ok in H; let a := fresh "a" in let s := fresh "s" in
      destruct H as (a & s & ? & H)
  | H : pwrap _ _ _ = (Ok _, _) |- _ => apply run_pwrap_Ok in H
  | H : mret _ _ = (Ok _, _) |- _ => apply run_ret_Ok in H as [? ?]; try subst
  | H : gets _ _ = (Ok _, _) |- _ => apply run_gets_Ok in H as [? ?]; try subst
  | H : modify _ _ = (Ok _, _) |- _ => apply run_modify_Ok in H; try subst
  | H : pure _ _ = (Ok _, _) |- _ => apply run_pure_Ok in H as [? ?]; try subst
  | H : throw _ _ = (Ok _, _) |- _ => discriminate H
  end.

Section wallet_inv.
Context `{C : CryptoLib, !HDLib, !HashLib}.
Context (faults : nat → io_fault) (clock : nat → Z) (random : nat → list byte).
Implicit Types w : HDWallet.

(** A key record belongs to its private key. *)
Definition dk_ok (dk : DerivedKey) : Prop :=
  dk_PubKey dk = PublicKey_SerializeCompressed (PrivateKey_PubKey (dk_PrivKey dk)) ∧
  dk_PubKeyHash dk = PubKeyHash (dk_PubKey dk).

Definition all_keys w : list DerivedKey := w_externalKeys w ++ w_changeKeys w.

Record keys_ok w : Prop := {
  ki_hash h dk : w_keysByHash w !! h = Some dk →
    h = dk_PubKeyHash dk ∧ dk_ok dk ∧ dk ∈ all_keys w;
  ki_address a dk : w_keysByAddress w !! a = Some dk ↔
    a = key_address w dk ∧ w_keysByHash w !! dk_PubKeyHash dk = Some dk;
  ki_all dk : dk ∈ all_keys w → is_Some (w_keysByHash w !! dk_PubKeyHash dk)
}.

(** The wallet with one more key. *)
Definition add_key (isChange : bool) (dk : DerivedKey) w : HDWallet :=
  set_keys (if isChange then w_externalKeys w else w_externalKeys w ++ [dk])
    (if isChange then w_changeKeys w ++ [dk] else w_changeKeys w)
    (<[dk_PubKeyHash dk := dk]> (w_keysByHash w))
    (<[key_address w dk := dk]> (w_keysByAddress w)) w.

Lemma address_inj h1 h2 v :
  PubKeyHashToAddress h1 v = PubKeyHashToAddress h2 v → h1 = h2.
Proof.
  intros Heq. unfold PubKeyHashToAddress in Heq.
  pose proof (Base58CheckDecode_encode v h1) as H1. rewrite Heq, Base58CheckDecode_encode in H1.
  congruence.
Qed.

Lemma add_key_all isChange dk w x : x ∈ all_keys (add_key isChange dk w) ↔ x ∈ all_keys w ∨ x = dk.
Proof.
  unfold all_keys, add_key. destruct isChange; simpl; rewrite !elem_of_app, list_elem_of_singleton; tauto.
Qed.

Lemma add_key_ok isChange dk w : dk_ok dk → keys_ok w → keys_ok (add_key isChange dk w).
Proof.
  intros Hdk [Hh Ha Hall]. split.
  - intros h x. simpl. setoid_rewrite add_key_all. intros [[<- <-]|[_ Hx]]%lookup_insert_Some.
    + auto.
    + destruct (Hh h x Hx) as (? & ? & ?). auto.
  - intros a x. simpl. unfold key_address at 2. simpl. fold (key_address w x).
    rewrite !lookup_insert_Some, Ha. unfold key_address.
    split.
    + intros [[<- <-]|(Hne & -> & Hx)]; [auto|]. split; [done|]. right. split; [|done]. congruence.
    + intros [-> [[Heq <-]|[Hne Hx]]]; [auto|]. right. split_and!; [|done..].
      intros Heq%address_inj. congruence.
  - intros x Hx%add_key_all. simpl. rewrite lookup_insert_is_Some'.
    destruct Hx as [Hx%Hall|Hx]; [auto|]. left. by rewrite Hx.
Qed.

(** Keys are only added. *)
Record wallet_grows w w' : Prop := {
  wg_keys : keys_ok w → keys_ok w';
  wg_version : w_addrVersion w' = w_addrVersion w;
  wg_hashes h : is_Some (w_keysByHash w !! h) → is_Some (w_keysByHash w' !! h)
}.

#[export] Instance wallet_grows_preorder : PreOrder wallet_grows.
Proof.
  split; [by split|]. intros a b c [? ? ?] [? ? ?]. split; [auto|congruence|auto].
Qed.

Lemma grows_add isChange dk w : dk_ok dk → wallet_grows w (add_key isChange dk w).
Proof.
  intros Hdk. split; [by apply add_key_ok|done|]. intros h Hh. simpl.
  rewrite lookup_insert_is_Some'. auto.
Qed.

(** The assignments that leave the keys alone. *)
Lemma grows_same (f : HDWallet → HDWallet) :
  (∀ w, all_keys (f w) = all_keys w ∧ w_keysByHash (f w) = w_keysByHash w ∧
        w_keysByAddress (f w) = w_keysByAddress w ∧ w_addrVersion (f w) = w_addrVersion w) →
  steps wallet_grows (modify f).
Proof.
  intros Hf w. simpl. destruct (Hf w) as (H1 & H2 & H3 & H4). split; [|done|by rewrite H2].
  intros [Hh Ha Hall]. split; rewrite ?H1, ?H2, ?H3; [done| |done].
  intros a dk. unfold key_address. rewrite H4. apply Ha.
Qed.

Ltac grows_auto := steps_walk; try (apply grows_same; done).

Lemma next_call_grows : steps wallet_grows next_call.
Proof. intros w. apply (grows_same (λ w, set_host (mkHost (ho_file (w_host w)) (S (ho_calls (w_host w)))) w)). done. Qed.
Hint Resolve next_call_grows : steps.

Lemma registerKey_add extKey isChange index w :
  (∃ e, registerKey extKey isChange index w = (Err e, w)) ∨
  ∃ dk, dk_ok dk ∧ dk_IsChange dk = isChange ∧ dk_Index dk = index ∧
    registerKey extKey isChange index w = (Ok dk, add_key isChange dk w).
Proof.
  unfold registerKey. rewrite proc_bind_eq. cbn [pure]. destruct (hd_ECPrivKey extKey) as [e|k];
    cbn [lib wrap]; [left; by eexists|]. right.
  eexists (mkDerivedKey _ _ _ _ _ _). split_and!; cycle 3; [reflexivity|done..].
Qed.

Lemma registerKey_grows extKey isChange index : steps wallet_grows (registerKey extKey isChange index).
Proof.
  intros w. destruct (registerKey_add extKey isChange index w) as [[e ->]|(dk & Hdk & _ & _ & ->)];
    simpl; [reflexivity|]. by apply grows_add.
Qed.
Hint Resolve registerKey_grows : steps.

Lemma deriveExternal_grows i : steps wallet_grows (deriveExternal i).
Proof. unfold deriveExternal. grows_auto. Qed.
Lemma deriveChange_grows i : steps wallet_grows (deriveChange i).
Proof. unfold deriveChange. grows_auto. Qed.
Lemma deriveAccountKeys_grows : steps wallet_grows deriveAccountKeys.
Proof. unfold deriveAccountKeys. grows_auto. Qed.
Hint Resolve deriveExternal_grows deriveChange_grows deriveAccountKeys_grows : steps.

Lemma os_ReadFile_grows : steps wallet_grows (os_ReadFile faults).
Proof. unfold os_ReadFile. grows_auto. Qed.
Lemma os_MkdirAll_grows : steps wallet_grows (os_MkdirAll faults).
Proof. unfold os_MkdirAll. grows_auto. Qed.
Lemma os_WriteFile_grows d : steps wallet_grows (os_WriteFile faults d).
Proof. unfold os_WriteFile. grows_auto. Qed.
Lemma rand_Read_grows n : steps wallet_grows (rand_Read faults random n).
Proof. unfold rand_Read. grows_auto. Qed.
Lemma time_Now_grows : steps wallet_grows (time_Now clock).
Proof. unfold time_Now. grows_auto. Qed.
Hint Resolve os_ReadFile_grows os_MkdirAll_grows os_WriteFile_grows rand_Read_grows
  time_Now_grows : steps.

Lemma save_grows : steps wallet_grows (save faults).
Proof. unfold save, savePreservingEncryption. grows_auto. Qed.
Lemma saveEncrypted_grows c s i : steps wallet_grows (saveEncrypted faults c s i).
Proof. unfold saveEncrypted. grows_auto. Qed.
Hint Resolve save_grows saveEncrypted_grows : steps.

Lemma DeriveNextExternal_grows : steps wallet_grows (DeriveNextExternal faults).
Proof. unfold DeriveNextExternal. grows_auto. Qed.
Lemma DeriveNextChange_grows : steps wallet_grows (DeriveNextChange faults).
Proof. unfold DeriveNextChange. grows_auto. Qed.
Hint Resolve DeriveNextExternal_grows DeriveNextChange_grows : steps.

Lemma GetNewAddress_grows : steps wallet_grows (GetNewAddress faults).
Proof. unfold GetNewAddress. grows_auto. Qed.
Lemma GetChangeAddress_grows : steps wallet_grows (GetChangeAddress faults).
Proof. unfold GetChangeAddress. grows_auto. Qed.
Hint Resolve GetNewAddress_grows GetChangeAddress_grows : steps.
Lemma GetCurrentChangeAddress_grows : steps wallet_grows (GetCurrentChangeAddress faults).
Proof. unfold GetCurrentChangeAddress. grows_auto. Qed.

Lemma rederive_grows derive msg n i :
  (∀ i, steps wallet_grows (derive i)) → steps wallet_grows (rederive derive msg n i).
Proof. intros Hd. revert i. induction n as [|n IH]; intros i; simpl; grows_auto. Qed.

Lemma loadSeedAndDerive_grows m s : steps wallet_grows (loadSeedAndDerive m s).
Proof. unfold loadSeedAndDerive. grows_auto; apply rederive_grows; auto with steps. Qed.
Hint Resolve loadSeedAndDerive_grows : steps.
Lemma loadFromJSON_grows d : steps wallet_grows (loadFromJSON d).
Proof. unfold loadFromJSON. grows_auto. Qed.
Lemma createNew_grows m : steps wallet_grows (createNew faults random m).
Proof. unfold createNew. grows_auto. Qed.

Lemma IsLocked_grows : steps wallet_grows (IsLocked clock).
Proof. unfold IsLocked. grows_auto. Qed.
Hint Resolve IsLocked_grows : steps.
Lemma RequireUnlocked_grows : steps wallet_grows (RequireUnlocked clock).
Proof. unfold RequireUnlocked. grows_auto. Qed.
Hint Resolve RequireUnlocked_grows : steps.
Lemma WalletLock_grows : steps wallet_grows WalletLock.
Proof. unfold WalletLock. grows_auto. Qed.
Lemma EncryptWallet_grows p : steps wallet_grows (EncryptWallet faults random p).
Proof. unfold EncryptWallet, seal. grows_auto. Qed.
Lemma WalletPassphrase_grows p t : steps wallet_grows (WalletPassphrase faults clock p t).
Proof. unfold WalletPassphrase. grows_auto. Qed.
Hint Resolve GetCurrentChangeAddress_grows WalletLock_grows EncryptWallet_grows
  WalletPassphrase_grows : steps.

Lemma Mnemonic_grows : steps wallet_grows (Mnemonic clock).
Proof. unfold Mnemonic. grows_auto. Qed.
Lemma DumpPrivKey_grows a : steps wallet_grows (DumpPrivKey clock a).
Proof. unfold DumpPrivKey. grows_auto. Qed.
Lemma SignRawTransaction_grows tx f : steps wallet_grows (SignRawTransaction clock tx f).
Proof. unfold SignRawTransaction. grows_auto. Qed.
Lemma make_outputs_grows n t a f d : steps wallet_grows (make_outputs faults n t a f d).
Proof. unfold make_outputs. grows_auto. Qed.
Hint Resolve make_outputs_grows : steps.
Lemma BuildTransaction_grows sorted req f us m tip :
  steps wallet_grows (BuildTransaction faults clock sorted req f us m tip).
Proof. unfold BuildTransaction. grows_auto. Qed.
Hint Resolve Mnemonic_grows DumpPrivKey_grows SignRawTransaction_grows BuildTransaction_grows : steps.

(** An imported key that is new is added to the external ones. *)
Lemma ImportPrivKey_add s w :
  (ImportPrivKey s w).2 = w ∨
  ∃ dk, dk_ok dk ∧ dk_Path dk = str "imported" ∧
    ImportPrivKey s w = (Ok (key_address w dk), add_key false dk w).
Proof.
  unfold ImportPrivKey. proc_step. destruct (decode_privkey s) as [b| |]; [|by left..].
  proc_step. destruct (PrivKeyFromBytes b) as [k| |]; [|by left..]. proc_step. cbn [id].
  case_bool_decide; [by left|]. right. eexists (mkDerivedKey _ _ _ _ _ _).
  split_and!; [| |reflexivity]; done.
Qed.

Lemma ImportPrivKey_grows s : steps wallet_grows (ImportPrivKey s).
Proof.
  intros w. destruct (ImportPrivKey_add s w) as [->|(dk & Hdk & _ & ->)]; [done|].
  by apply grows_add.
Qed.
Hint Resolve ImportPrivKey_grows : steps.

(** ** The wallets that can be reached *)

Inductive wallet_event : Type :=
| EvNewAddress
| EvChangeAddress
| EvCurrentChangeAddress
| EvImportPrivKey (key : list byte)
| EvDumpPrivKey (address : list byte)
| EvMnemonic
| EvIsLocked
| EvEncryptWallet (passphrase : list byte)
| EvWalletPassphrase (passphrase : list byte) (timeout : Z)
| EvWalletLock
| EvSignRawTransaction (tx : Transaction) (getPrevScript : Hash → Z → option (list byte))
| EvBuildTransaction (sorted : list UnspentOutput → list UnspentOutput) (req : SendRequest)
    (feePerByte : Z) (utxos : list UnspentOutput) (coinbaseMaturity tipHeight : Z).

Definition forget {A} (m : proc HDWallet A) : proc HDWallet () := _ ← m; mret ().

Definition wallet_run (ev : wallet_event) : proc HDWallet () :=
  match ev with
  | EvNewAddress => forget (GetNewAddress faults)
  | EvChangeAddress => forget (GetChangeAddress faults)
  | EvCurrentChangeAddress => forget (GetCurrentChangeAddress faults)
  | EvImportPrivKey key => forget (ImportPrivKey key)
  | EvDumpPrivKey address => forget (DumpPrivKey clock address)
  | EvMnemonic => forget (Mnemonic clock)
  | EvIsLocked => forget (IsLocked clock)
  | EvEncryptWallet passphrase => EncryptWallet faults random passphrase
  | EvWalletPassphrase passphrase timeout => WalletPassphrase faults clock passphrase timeout
  | EvWalletLock => WalletLock
  | EvSignRawTransaction tx f => forget (SignRawTransaction clock tx f)
  | EvBuildTransaction sorted req f us m tip =>
      forget (BuildTransaction faults clock sorted req f us m tip)
  end.

Lemma wallet_run_grows ev : steps wallet_grows (wallet_run ev).
Proof. destruct ev; simpl; unfold forget; grows_auto. Qed.

(** The wallets that a successful [NewHDWallet] or [NewHDWalletFromMnemonic]
    returns, and what operations make of them, whether these succeed or not. *)
Inductive wallet_reachable : HDWallet → Prop :=
| reach_open h v w : NewHDWallet faults random h v = (Ok (), w) → wallet_reachable w
| reach_restore h v m w : NewHDWalletFromMnemonic faults random h v m = (Ok (), w) → wallet_reachable w
| reach_run w ev : wallet_reachable w → wallet_reachable (wallet_run ev w).2.

Lemma empty_keys_ok h v : keys_ok (empty_wallet h v).
Proof.
  split; simpl.
  - intros k dk Hk. by rewrite lookup_empty in Hk.
  - intros a dk. rewrite !lookup_empty. naive_solver.
  - intros dk Hdk. by apply elem_of_nil in Hdk.
Qed.

Lemma NewHDWallet_keys h v : keys_ok (NewHDWallet faults random h v).2.
Proof.
  unfold NewHDWallet.
  destruct (os_ReadFile faults (empty_wallet h v)) as [r w0] eqn:Hr.
  assert (Hw0 : keys_ok w0).
  { pose proof (os_ReadFile_grows (empty_wallet h v)) as Hg. rewrite Hr in Hg.
    apply Hg, empty_keys_ok. }
  destruct r as [[|b d]| |]; (eapply wg_keys; [|exact Hw0]);
    first [apply createNew_grows|apply loadFromJSON_grows].
Qed.

Lemma reachable_keys_ok w : wallet_reachable w → keys_ok w.
Proof.
  induction 1 as [h v w Hw|h v m w Hw|w ev _ IH].
  - pose proof (NewHDWallet_keys h v) as Hk. by rewrite Hw in Hk.
  - unfold NewHDWalletFromMnemonic in Hw.
    pose proof (createNew_grows m (empty_wallet h v)) as Hg. rewrite Hw in Hg.
    apply Hg, empty_keys_ok.
  - by apply wallet_run_grows.
Qed.
End wallet_inv.

(** ** A concrete instance of the libraries, for witnesses

    An extended key is a number, and a record is written as its numbers at fixed
    width and then its strings, each ended by a byte that is not ASCII. *)

Fixpoint cut_ff (s : list byte) : list byte * list byte :=
  match s with
  | [] => ([], [])
  | c :: s' => if bool_decide (c = xff) then ([], s') else let '(a, r) := cut_ff s' in (c :: a, r)
  end.

Definition toy_marshal (wd : WalletData) : list byte :=
  le_encode 4 (wd_NextExternalIdx wd) ++ le_encode 4 (wd_NextChangeIdx wd) ++
  le_encode 8 (wd_ScryptN wd + 2 ^ 63) ++ le_encode 8 (wd_ScryptR wd + 2 ^ 63) ++
  le_encode 8 (wd_ScryptP wd + 2 ^ 63) ++ [if wd_Encrypted wd then x01 else x00] ++
  wd_Mnemonic wd ++ [xff] ++ wd_Seed wd ++ [xff] ++ wd_EncryptedData wd ++ [xff] ++
  wd_Salt wd ++ [xff] ++ wd_IV wd ++ [xff].

Definition toy_unmarshal (s : list byte) : WalletData :=
  let strings := drop 33 s in
  let '(mnemonic, s1) := cut_ff strings in
  let '(seed, s2) := cut_ff s1 in
  let '(data, s3) := cut_ff s2 in
  let '(salt, s4) := cut_ff s3 in
  let '(iv, _) := cut_ff s4 in
  mkWalletData mnemonic seed (le_decode (slice 0 4 s)) (le_decode (slice 4 8 s))
    (bool_decide (s !! 32%nat = Some x01)) data salt iv
    (le_decode (slice 8 16 s) - 2 ^ 63) (le_decode (slice 16 24 s) - 2 ^ 63)
    (le_decode (slice 24 32 s) - 2 ^ 63).

Definition toy_hd : @HDLib toy_lib := {|
  ExtendedKey := Z;
  hd_NewMaster := λ seed, if bool_decide (seed = []) then inl (Errorf "seed") else inr (len seed);
  hd_Derive := λ k i, inr ((31 * k + 7 * i + 3) mod 2 ^ 32);
  hd_ECPrivKey := λ k, inr (Z_to_byte k : @PrivateKey toy_lib);
  PrivateKey_Serialize := λ k : @PrivateKey toy_lib, (k : byte) :: replicate 31 x00;
  bip39_NewMnemonic := λ entropy, inr (hex_EncodeToString (take 4 entropy));
  bip39_IsMnemonicValid := λ m, negb (bool_decide (m = []));
  bip39_NewSeed := λ m _, m;
  json_MarshalIndent := λ wd, inr (toy_marshal wd);
  json_Unmarshal := λ data, inr (toy_unmarshal data)
|}.

(** No call fails; a minute passes between two calls. *)
Definition toy_faults : nat → io_fault := λ _, IoOk.
Definition toy_clock : nat → Z := λ n, 60 * 10 ^ 9 * (Z.of_nat n + 1).
Definition toy_random : nat → list byte := λ n, replicate 40 (Z_to_byte (Z.of_nat n + 17)).

Definition toy_wallet : @HDWallet toy_lib toy_hd :=
  (@NewHDWallet toy_lib toy_hd toy_faults toy_random (mkHost None 0) x00).2.

(** A run from its outcome alone. *)
Lemma run_outcome {A B} (x : A * B) a : x.1 = a → x = (a, x.2).
Proof. by destruct x as [? ?]; intros <-. Qed.

Lemma toy_wallet_opened :
  @NewHDWallet toy_lib toy_hd toy_faults toy_random (mkHost None 0) x00 = (Ok (), toy_wallet).
Proof.
  assert (Hok : (@NewHDWallet toy_lib toy_hd toy_faults toy_random (mkHost None 0) x00).1 = Ok ())
    by (vm_compute; reflexivity).
  unfold toy_wallet. revert Hok.
  generalize (@NewHDWallet toy_lib toy_hd toy_faults toy_random (mkHost None 0) x00).
  intros r. apply run_outcome.
Qed.
