(* ===== verification/WalletProps.v ===== *)
(** * Payments of the wallet

    What the wallet finds and builds, against the set of unspent outputs and the
    node's own transaction validation. *)
From Stdlib Require Import Sorted.
From stdpp Require Import sorting.
From S2P Require Import Prelude Types Sha256 Merkle Params Utxo Keys Script TxValidation Base58.
From S2P Require Import Algorithms BlockFiles Aes Wallet WalletTx WalletInv.

(** ** The outputs the wallet finds *)

(** The key of the output in the set, and its entry there. *)
Definition uo_key (u : UnspentOutput) : list byte := OutpointKey (uo_TxHash u) (uo_Index u).
Definition uo_entry (u : UnspentOutput) : UtxoEntry :=
  mkUtxoEntry (uo_Value u) (uo_PkScript u) (uo_Height u) (uo_IsCoinbase u).
Definition uo_total (us : list UnspentOutput) : Z := sumZ uo_Value us.

(** A set as the chain keeps it: keys of 36 bytes, none of them that of the
    coinbase input, fields of their width, and no more money than there is. *)
Record wf_utxo_set (s : UtxoSet) : Prop := {
  us_key k e : s !! k = Some e → length k = 36%nat ∧ k ≠ outpoint_key CoinbaseOutPoint;
  us_entry k e : s !! k = Some e → is_u64 (ue_Value e) ∧ is_u32 (ue_Height e);
  us_total : utxo_total s ≤ MaxMoneyValue
}.

Section payments.
Context `{C : CryptoLib, !CryptoLaws C, !HDLib, !HashLib}.
Context (faults : nat → io_fault) (clock : nat → Z) (random : nat → list byte).

(** The output of an item of the iterator, when it pays to a key of the wallet. *)
Definition own_output (w : HDWallet) (tipHeight : Z) (item : utxo_item) : option UnspentOutput :=
  let '(txHash, index, value, pkScript, height, isCoinbase) := item in
  if IsOurScript w pkScript then
    Some (mkUnspent txHash index value height (confirmations tipHeight height)
            (PubKeyHashToAddress (default [] (ExtractP2PKHHash pkScript)) (w_addrVersion w))
            pkScript isCoinbase)
  else None.

Lemma find_item_own w tip rs item :
  find_item w tip rs item = rs ++ option_list (own_output w tip item).
Proof.
  destruct item as [[[[[h i] v] sc] ht] cb]. unfold find_item, own_output, IsOurScript.
  destruct (ExtractP2PKHHash sc); simpl; [|by rewrite app_nil_r].
  destruct (bool_decide _); simpl; [done|by rewrite app_nil_r].
Qed.

Lemma FindUnspent_omap w items tip : FindUnspent w items tip = omap (own_output w tip) items.
Proof.
  unfold FindUnspent.
  enough (Hgen : ∀ rs, foldl (find_item w tip) rs items = rs ++ omap (own_output w tip) items) by apply Hgen.
  induction items as [|item items IH]; intros rs; simpl; [by rewrite app_nil_r|].
  rewrite IH, find_item_own, <- app_assoc. by destruct (own_output w tip item).
Qed.

(** Reading a key of 36 bytes back. *)
Definition item_key (item : utxo_item) : list byte := OutpointKey item.1.1.1.1.1 item.1.1.1.1.2.

Lemma own_output_spec w tip item u :
  own_output w tip item = Some u ↔
  IsOurScript w item.1.1.2 = true ∧
  u = mkUnspent item.1.1.1.1.1 item.1.1.1.1.2 item.1.1.1.2 item.1.2 (confirmations tip item.1.2)
        (PubKeyHashToAddress (default [] (ExtractP2PKHHash item.1.1.2)) (w_addrVersion w))
        item.1.1.2 item.2.
Proof.
  destruct item as [[[[[h i] v] sc] ht] cb]. simpl. destruct (IsOurScript w sc); naive_solver.
Qed.

Lemma iterator_spec s item :
  wf_utxo_set s → item ∈ makeUtxoIterator s ↔
  ∃ k e, s !! k = Some e ∧
    item = (slice 0 32 k, le_decode (slice 32 36 k), ue_Value e, ue_PkScript e, ue_Height e,
            ue_IsCoinbase e).
Proof.
  intros _. unfold makeUtxoIterator, Set_ForEach. rewrite list_elem_of_fmap. split.
  - intros (x & -> & Hx). apply list_elem_of_fmap in Hx as ([k e] & -> & Hke%elem_of_map_to_list). eauto.
  - intros (k & e & Hke%elem_of_map_to_list & ->).
    exists (slice 0 32 k, le_decode (slice 32 36 k), e). split; [done|]. apply list_elem_of_fmap.
    by exists (k, e).
Qed.

(** [FindUnspent] finds exactly the outputs of the set that pay to a key of the
    wallet, each once. *)
Lemma FindUnspent_spec w s items tip :
  wf_utxo_set s → items ≡ₚ makeUtxoIterator s →
  NoDup (uo_key <$> FindUnspent w items tip) ∧
  (∀ u, u ∈ FindUnspent w items tip → s !! uo_key u = Some (uo_entry u) ∧
     IsOurScript w (uo_PkScript u) = true ∧
     wf_outpoint (mkOutPoint (uo_TxHash u) (uo_Index u))) ∧
  (∀ k e, s !! k = Some e → IsOurScript w (ue_PkScript e) = true →
     ∃ u, u ∈ FindUnspent w items tip ∧ uo_key u = k ∧ uo_entry u = e).
Proof.
  intros Hs Hit. rewrite FindUnspent_omap. split_and!.
  - assert (Hk : uo_key <$> omap (own_output w tip) items `sublist_of` item_key <$> items).
    { clear Hit. induction items as [|item items IH]; simpl; [constructor|].
      destruct (own_output w tip item) as [u|] eqn:Hu; simpl; [|by constructor].
      apply own_output_spec in Hu as [_ ->]. by constructor. }
    eapply sublist_NoDup; [|exact Hk]. rewrite Hit. unfold makeUtxoIterator, Set_ForEach.
    rewrite <- !list_fmap_compose.
    rewrite (list_fmap_ext _ fst (map_to_list s)); [apply NoDup_fst_map_to_list|].
    intros i [k e] Hi. cbn. apply key_split.
    eapply us_key, elem_of_map_to_list, list_elem_of_lookup_2; eauto.
  - intros u (item & Hi & Hu)%list_elem_of_omap. rewrite Hit in Hi.
    apply (iterator_spec s item Hs) in Hi as (k & e & Hk & ->).
    apply own_output_spec in Hu as [Ho ->]. unfold uo_key, uo_entry. simpl in *.
    destruct (us_key s Hs k e Hk) as [Hlen _]. rewrite key_split by done.
    split_and!; [by destruct e|done|]. split; simpl.
    + unfold wf_hash. by rewrite slice_length by lia.
    + pose proof (le_decode_range (slice 32 36 k)) as Hr.
      rewrite slice_length in Hr by lia. exact Hr.
  - intros k e Hk Ho. eexists. split; [|split].
    + apply list_elem_of_omap. eexists. split.
      * rewrite Hit. apply iterator_spec; [done|]. by exists k, e.
      * apply own_output_spec. split; [done|reflexivity].
    + unfold uo_key. simpl. apply key_split. by eapply us_key.
    + by destruct e.
Qed.

(** ** Coin selection *)

(** The estimate in exact arithmetic. *)
Definition fee_exact (inputs outputs feePerByte : Z) : Z :=
  Z.max 1 (estimated_size inputs outputs * feePerByte).

Definition few (n : Z) : Prop := 0 ≤ n < 2 ^ 32.

Lemma estimated_fee_exact n k f :
  few n → 1 ≤ k ≤ 2 → 0 ≤ f ≤ maxFeePerByte → estimated_fee n k f = fee_exact n k f.
Proof.
  unfold few, estimated_fee, EstimateFee, fee_at_least_one, fee_exact, maxFeePerByte. intros Hn Hk Hf.
  assert (0 ≤ estimated_size n k < 2 ^ 40)
    by (unfold estimated_size, txOverhead, estimatedInputSize, estimatedOutputSize; lia).
  rewrite (u64_id (estimated_size n k)) by (unfold is_u64; lia).
  rewrite u64_id by (unfold is_u64; nia).
  destruct (Z.ltb_spec (estimated_size n k * f) 1); lia.
Qed.

Lemma fee_exact_bounds n k f :
  few n → 1 ≤ k ≤ 2 → 0 ≤ f ≤ maxFeePerByte → 1 ≤ fee_exact n k f < 2 ^ 56.
Proof.
  unfold few, fee_exact, maxFeePerByte. intros Hn Hk Hf.
  assert (0 ≤ estimated_size n k < 2 ^ 40)
    by (unfold estimated_size, txOverhead, estimatedInputSize, estimatedOutputSize; lia).
  nia.
Qed.

Lemma fee_exact_mono n m k l f :
  0 ≤ f → n ≤ m → k ≤ l → fee_exact n k f ≤ fee_exact m l f.
Proof.
  intros. unfold fee_exact.
  assert (estimated_size n k ≤ estimated_size m l)
    by (unfold estimated_size, txOverhead, estimatedInputSize, estimatedOutputSize; lia).
  nia.
Qed.

Section selection.
Context (amount f : Z).
Context (Hamount : 0 ≤ amount < 2 ^ 63) (Hf : 0 ≤ f ≤ maxFeePerByte).

Definition coins_ok (us : list UnspentOutput) : Prop :=
  Forall (λ u, 0 ≤ uo_Value u) us ∧ uo_total us ≤ MaxMoneyValue ∧ few (len us).

Lemma coins_ok_app us vs : coins_ok (us ++ vs) → coins_ok us ∧ 0 ≤ uo_total vs.
Proof.
  intros ([H1 H2]%Forall_app & Ht & Hn). unfold coins_ok, few, uo_total in *.
  rewrite sumZ_app in Ht. rewrite length_app in Hn.
  pose proof (sumZ_nonneg uo_Value vs H2). split; [split_and!; [done|lia..]|done].
Qed.

(** The selection loop stops at the first prefix that covers the amount and the
    fee for it. *)
Lemma select_loop_spec us sel :
  coins_ok (sel ++ us) →
  match select_loop us amount f sel (uo_total sel) with
  | Ok (sel', t) => t = uo_total sel' ∧ amount + fee_exact (len sel') 2 f ≤ t ∧
      ∃ k, (0 < k ≤ length us)%nat ∧ sel' = sel ++ take k us ∧
        ∀ j, (0 < j < k)%nat →
          uo_total (sel ++ take j us) < amount + fee_exact (len (sel ++ take j us)) 2 f
  | Err _ => us = [] ∨ uo_total (sel ++ us) < amount + fee_exact (len (sel ++ us)) 2 f
  | Panic => False
  end.
Proof.
  revert sel. induction us as [|u us IH]; intros sel Hok; cbn [select_loop]; [by left|].
  rewrite cons_middle, app_assoc in Hok. pose proof Hok as [Hs Hus]%coins_ok_app.
  assert (Htot : uo_total (sel ++ [u]) = uo_total sel + uo_Value u)
    by (unfold uo_total; rewrite sumZ_app; simpl; lia).
  pose proof Hs as (Hpos & Hmax & Hfew). rewrite Htot in Hmax.
  assert (0 ≤ uo_total sel) by (apply Forall_app in Hpos as [? _]; by apply sumZ_nonneg).
  assert (0 ≤ uo_Value u) by (apply Forall_app in Hpos as [_ Hu]; rewrite Forall_singleton in Hu; exact Hu).
  unfold MaxMoneyValue in *.
  rewrite (u64_id (uo_total sel + uo_Value u)) by (unfold is_u64; lia).
  rewrite estimated_fee_exact by (done || lia).
  pose proof (fee_exact_bounds (len (sel ++ [u])) 2 f Hfew ltac:(lia) Hf).
  rewrite u64_id by (unfold is_u64; lia). rewrite <- Htot.
  destruct (Z.leb_spec (amount + fee_exact (len (sel ++ [u])) 2 f) (uo_total (sel ++ [u]))) as [Hle|Hgt].
  - split_and!; [done|done|]. exists 1%nat. simpl. split_and!; [lia..|done|]. intros j Hj. lia.
  - specialize (IH (sel ++ [u]) Hok).
    destruct (select_loop us amount f (sel ++ [u]) (uo_total (sel ++ [u]))) as [[sel' t]|e|]; [| |done].
    + destruct IH as (-> & Hle & k & Hk & -> & Hmin). split_and!; [done|done|]. exists (S k). simpl.
      split_and!; [lia..|by rewrite <- app_assoc|]. intros [|[|j]] Hj; [lia|done|].
      change (take (S (S j)) (u :: us)) with (u :: take (S j) us).
      rewrite cons_middle, app_assoc. apply Hmin. lia.
    + right. rewrite cons_middle, app_assoc. destruct IH as [->|IH]; [by rewrite app_nil_r|done].
Qed.
End selection.

(** ** Change *)

Lemma PubKeyHash_size dk : dk_ok dk → length (dk_PubKeyHash dk) = PubKeyHashSize.
Proof. intros [_ ->]. apply Hash160_length. Qed.

Lemma AddressToPubKeyHash_encode h v :
  length h = PubKeyHashSize → AddressToPubKeyHash (PubKeyHashToAddress h v) = Ok (v, h).
Proof.
  intros Hh. unfold AddressToPubKeyHash, PubKeyHashToAddress. rewrite Base58CheckDecode_encode.
  cbn [mbind res_bind]. by rewrite bool_decide_true.
Qed.

Lemma AddressToPubKeyHash_size a v h :
  AddressToPubKeyHash a = Ok (v, h) → length h = PubKeyHashSize.
Proof.
  unfold AddressToPubKeyHash. intros Ha. apply bind_Ok in Ha as ([v' h'] & _ & Ha).
  case_bool_decide; [|done]. by injection Ha as <- <-.
Qed.

Lemma P2PKH_extract h : length h = PubKeyHashSize → ExtractP2PKHHash (MakeP2PKHScript h) = Some h.
Proof. intros Hh. by apply P2PKH_template. Qed.

Lemma our_script w h :
  length h = PubKeyHashSize → is_Some (w_keysByHash w !! h) → IsOurScript w (MakeP2PKHScript h) = true.
Proof. intros Hh Hk. unfold IsOurScript. rewrite P2PKH_extract by done. by apply bool_decide_eq_true. Qed.

Lemma GetChangeAddress_Ok w a w' :
  GetChangeAddress faults w = (Ok a, w') →
  wallet_grows w w' ∧ ∃ h, length h = PubKeyHashSize ∧ AddressToPubKeyHash a = Ok (w_addrVersion w', h) ∧
    is_Some (w_keysByHash w' !! h).
Proof.
  intros Hr. split; [pose proof (GetChangeAddress_grows faults w) as Hg; by rewrite Hr in Hg|].
  unfold GetChangeAddress, DeriveNextChange, deriveChange in Hr. run_inv.
  destruct (w_changeKey s4) as [ck|]; [|done]. run_inv.
  match goal with H : registerKey ?k _ ?i ?x = _ |- _ =>
    destruct (registerKey_add k true i x) as [[e He]|(dk & Hdk & _ & _ & He)]; rewrite He in H;
    [done|injection H as <- <-] end.
  match goal with H : save faults ?x = _ |- _ => pose proof (save_grows faults x) as Hg; rewrite H in Hg end.
  exists (dk_PubKeyHash dk). split_and!.
  - by apply PubKeyHash_size.
  - apply AddressToPubKeyHash_encode. by apply PubKeyHash_size.
  - eapply wg_hashes; [exact Hg|]. simpl. rewrite lookup_insert_eq. by eexists.
Qed.

(** The outputs of a payment: the change is what the fee for two outputs leaves,
    unless this is dust, which goes to the fee. *)
Lemma make_outputs_Ok n t amount f dest w outs w' :
  few n → 0 ≤ amount → 0 ≤ f ≤ maxFeePerByte → t ≤ MaxMoneyValue →
  amount + fee_exact n 2 f ≤ t →
  make_outputs faults n t amount f dest w = (Ok outs, w') →
  wallet_grows w w' ∧
  (outs = [dest] ∧ t - amount ≤ fee_exact n 2 f + DustThreshold ∨
   ∃ h, length h = PubKeyHashSize ∧ is_Some (w_keysByHash w' !! h) ∧
     DustThreshold < t - amount - fee_exact n 2 f ∧
     outs = [dest; mkTxOutput (t - amount - fee_exact n 2 f) (MakeP2PKHScript h)]).
Proof.
  intros Hn Ha Hf Ht Hle Hr. split.
  { pose proof (make_outputs_grows faults n t amount f dest w) as Hg. by rewrite Hr in Hg. }
  unfold make_outputs in Hr. rewrite !estimated_fee_exact in Hr by (done || lia).
  pose proof (fee_exact_bounds n 1 f Hn ltac:(lia) Hf) as Hb1.
  pose proof (fee_exact_bounds n 2 f Hn ltac:(lia) Hf) as Hb2.
  pose proof (fee_exact_mono n n 1 2 f ltac:(lia) ltac:(lia) ltac:(lia)) as Hm.
  unfold MaxMoneyValue, DustThreshold in *.
  rewrite (u64_id (t - amount)) in Hr by (unfold is_u64; lia).
  run_inv. rewrite (u64_id (t - amount - fee_exact n 1 f)) in Hr by (unfold is_u64; lia).
  destruct (Z.ltb_spec 546 (t - amount - fee_exact n 1 f)) as [Hc|Hc]; [|run_inv; left; split; [done|lia]].
  run_inv. match goal with H : GetChangeAddress _ _ = _ |- _ =>
    apply GetChangeAddress_Ok in H as (_ & h & Hh & Hdec & Hk) end.
  match goal with H : wrap _ (AddressToPubKeyHash _) = Ok _ |- _ =>
    rewrite Hdec in H; injection H as <- end.
  rewrite (u64_id (t - amount - fee_exact n 2 f)) in Hr by (unfold is_u64; lia).
  destruct (Z.ltb_spec 546 (t - amount - fee_exact n 2 f)) as [Hc2|Hc2]; run_inv.
  - right. by exists h.
  - left. split; [done|lia].
Qed.

(** ** Signatures *)

Definition strip_input (x : TxInput) : TxInput :=
  mkTxInput (in_PreviousOutPoint x) [] (in_Sequence x).

Lemma sighash_strip i ins : sighash_inputs i (-1) [] ins = strip_input <$> ins.
Proof.
  revert i. induction ins as [|x ins IH]; intros i; simpl; [done|]. rewrite IH.
  by destruct (i =? -1).
Qed.

Lemma unsigned_strip tx :
  unsigned tx = mkTransaction (tx_Version tx) (strip_input <$> tx_Inputs tx) (tx_Outputs tx)
                  (tx_LockTime tx).
Proof. unfold unsigned, sighash_copy. by rewrite sighash_strip. Qed.

Lemma set_sigscript_unsigned tx i sc : unsigned (set_sigscript tx i sc) = unsigned tx.
Proof.
  rewrite !unsigned_strip. simpl. f_equal. generalize (tx_Inputs tx) as ins. intros ins.
  revert i. induction ins as [|x ins IH]; intros [|i]; simpl; [done..|]. f_equal. apply IH.
Qed.

(** The signatures of the selected outputs, each made on a transaction that
    differs from the final one in signature scripts only. *)
Lemma sign_loop w sel k tx tx' :
  foldiM_from (Z.of_nat k) (sign_selected w) tx sel = Ok tx' →
  (k + length sel ≤ length (tx_Inputs tx))%nat →
  unsigned tx' = unsigned tx ∧
  (∀ j, (j < k)%nat → tx_Inputs tx' !! j = tx_Inputs tx !! j) ∧
  (∀ j u, sel !! j = Some u → ∃ x dk txj, tx_Inputs tx' !! (k + j)%nat = Some x ∧
     KeyForScript w (uo_PkScript u) = Some dk ∧ unsigned tx' = unsigned txj ∧
     SignInput txj (Z.of_nat (k + j)) (uo_PkScript u) (dk_PrivKey dk) = Ok (in_SignatureScript x)).
Proof.
  revert k tx. induction sel as [|u sel IH]; intros k tx Hs Hl; cbn [foldiM_from] in Hs.
  { injection Hs as <-. by split_and!. }
  replace (Z.of_nat k + 1) with (Z.of_nat (S k)) in Hs by lia.
  apply bind_Ok in Hs as (tx1 & H1 & Hs). unfold sign_selected in H1.
  destruct (KeyForScript w (uo_PkScript u)) as [dk|] eqn:Hdk; [|done]. res_inv.
  rewrite Nat2Z.id in Hs.
  match goal with H : SignInput _ _ _ _ = Ok ?y |- _ => rename H into Hsig; rename y into sc end.
  assert (Hlen : length (tx_Inputs (set_sigscript tx k sc)) = length (tx_Inputs tx))
    by (simpl; apply length_alter).
  simpl in Hl. destruct (IH (S k) _ Hs) as (Hu & Hold & Hnew); [rewrite Hlen; lia|].
  rewrite set_sigscript_unsigned in Hu. split_and!; [done| |].
  - intros j Hj. rewrite Hold by lia. simpl. by rewrite list_lookup_alter_ne by lia.
  - intros [|j] v Hv; simpl in Hv.
    + injection Hv as <-. rewrite Nat.add_0_r.
      destruct (lookup_lt_is_Some_2 (tx_Inputs tx) k ltac:(lia)) as [x Hx].
      eexists _, dk, tx. split_and!; [|done|done|].
      * rewrite Hold by lia. simpl. rewrite list_lookup_alter_eq, Hx. reflexivity.
      * exact Hsig.
    + rewrite Nat.add_succ_r. by apply Hnew.
Qed.

(** ** A built payment *)

(** Outputs of the set, each once. *)
Record coins_of (w : HDWallet) (s : UtxoSet) (us : list UnspentOutput) : Prop := {
  co_nodup : NoDup (uo_key <$> us);
  co_in u : u ∈ us → s !! uo_key u = Some (uo_entry u) ∧ IsOurScript w (uo_PkScript u) = true ∧
    wf_outpoint (mkOutPoint (uo_TxHash u) (uo_Index u))
}.

Lemma coins_of_submseteq w s us vs : vs ⊆+ us → coins_of w s us → coins_of w s vs.
Proof.
  intros Hsub [Hnd Hin]. split.
  - apply submseteq_sublist_r in Hsub as (ks & Hp & Hsl). rewrite Hp.
    eapply sublist_NoDup; [exact Hnd|]. by apply fmap_sublist.
  - intros u Hu. apply Hin. by eapply elem_of_submseteq.
Qed.

Lemma coins_total w s us :
  wf_utxo_set s → coins_of w s us → uo_total us ≤ utxo_total s ∧ (length us ≤ size s)%nat.
Proof.
  intros Hs. assert (Hu : map_Forall (λ _ e, 0 ≤ ue_Value e) s).
  { intros k e Hk. apply (us_entry s Hs) in Hk as [[? _] _]. done. }
  clear Hs. revert s Hu. induction us as [|u us IH]; intros s Hu [Hnd Hin]; simpl.
  { split; [|lia]. unfold uo_total. simpl. clear -Hu. revert Hu. induction s as [|k e s Hk IH] using map_ind; intros Hu.
    - done.
    - rewrite utxo_total_insert by done. apply map_Forall_insert in Hu as [? ?]; [|done].
      specialize (IH ltac:(done)). lia. }
  apply NoDup_cons in Hnd as [Hni Hnd]. destruct (Hin u) as (Hk & _); [by left|].
  destruct (IH (delete (uo_key u) s)) as [Ht Hl].
  - by apply map_Forall_delete.
  - split; [done|]. intros v Hv. destruct (Hin v) as (Hkv & ? & ?); [by right|].
    rewrite lookup_delete_ne; [done|]. intros Heq. apply Hni. rewrite Heq. by apply list_elem_of_fmap_2.
  - rewrite (utxo_total_delete _ _ _ Hk). rewrite map_size_delete_Some in Hl by (by eexists).
    assert (size s ≠ 0%nat) by (intros Hz%map_size_empty_inv; subst; by rewrite lookup_empty in Hk).
    unfold uo_total in *. simpl. lia.
Qed.

Lemma spendable_coins w s items tip m sorted :
  wf_utxo_set s → items ≡ₚ makeUtxoIterator s → (∀ l, sorted l ≡ₚ l) → few (Z.of_nat (size s)) →
  let us := sorted (filterSpendable (FindUnspent w items tip) m tip) in
  coins_of w s us ∧ coins_ok us ∧ Forall (λ u, is_spendable m tip u = true) us.
Proof.
  intros Hs Hit Hsort Hfew us.
  destruct (FindUnspent_spec w s items tip Hs Hit) as (Hnd & Hin & _).
  assert (Hc : coins_of w s us).
  { apply (coins_of_submseteq w s (FindUnspent w items tip)); [|by split].
    unfold us. rewrite Hsort. apply sublist_submseteq. unfold filterSpendable.
    generalize (FindUnspent w items tip) as l. induction l as [|u l IHl]; simpl; [constructor|].
    destruct (is_spendable m tip u); by constructor. }
  destruct (coins_total w s us Hs Hc) as [Ht Hl]. pose proof (us_total s Hs).
  split; [done|]. split.
  - split_and!; [|lia|unfold few in *; lia]. apply Forall_forall. intros u Hu.
    apply (co_in _ _ _ Hc) in Hu as (Hk & _). apply (us_entry s Hs) in Hk as [[? _] _]. done.
  - apply Forall_forall. intros u Hu. unfold us, filterSpendable in Hu. rewrite Hsort in Hu.
    by apply list_elem_of_In, filter_In in Hu as [_ ?].
Qed.

Lemma spendable_mature m tip u p :
  m = p_CoinbaseMaturity p → 0 ≤ tip → is_u32 (tip + 1) → 0 ≤ uo_Height u →
  is_spendable m tip u = true → mature (u32 (tip + 1)) p (uo_entry u).
Proof.
  intros -> Htip Hu32 Hh. unfold is_spendable, confirmations, mature. simpl.
  rewrite (u32_id (tip + 1)) by done. unfold is_u32 in Hu32.
  destruct (Z.leb_spec (uo_Height u) tip); [|done].
  rewrite u32_id by (unfold is_u32; lia). rewrite andb_true_iff, !negb_true_iff, Z.ltb_ge.
  intros [_ Hm] Hcb. rewrite Hcb, andb_true_l, Z.ltb_ge in Hm. lia.
Qed.

(** What coin selection returns. *)
Record selection (w : HDWallet) (s : UtxoSet) (m tip amount f : Z) (sel : list UnspentOutput) : Prop := {
  sn_coins : coins_of w s sel;
  sn_ok : coins_ok sel;
  sn_spendable : Forall (λ u, is_spendable m tip u = true) sel;
  sn_some : sel ≠ [];
  sn_funds : amount + fee_exact (len sel) 2 f ≤ uo_total sel
}.

Lemma selectCoins_selection w s items tip m sorted amount f :
  wf_utxo_set s → items ≡ₚ makeUtxoIterator s → (∀ l, sorted l ≡ₚ l) → few (Z.of_nat (size s)) →
  0 ≤ amount < 2 ^ 63 → 0 ≤ f ≤ maxFeePerByte →
  let us := sorted (filterSpendable (FindUnspent w items tip) m tip) in
  match selectCoins us amount f with
  | Ok (sel, t) => t = uo_total sel ∧ selection w s m tip amount f sel ∧
      ∃ k, sel = take k us ∧
        ∀ j, (0 < j < k)%nat → uo_total (take j us) < amount + fee_exact (len (take j us)) 2 f
  | Err _ => us = [] ∨ uo_total us < amount + fee_exact (len us) 2 f
  | Panic => False
  end.
Proof.
  intros Hs Hit Hsort Hfew Ha Hf us.
  destruct (spendable_coins w s items tip m sorted Hs Hit Hsort Hfew) as (Hc & Hok & Hsp).
  fold us in Hc, Hok, Hsp. pose proof (select_loop_spec amount f Ha Hf us [] Hok) as Hspec.
  unfold selectCoins. change (uo_total []) with 0 in Hspec. rewrite app_nil_l in Hspec.
  destruct (select_loop us amount f [] 0) as [[sel t]|e|]; [|done..].
  destruct Hspec as (-> & Hle & k & Hk & Heq & Hmin). rewrite app_nil_l in Heq. subst sel.
  assert (Hsub : take k us ⊆+ us) by (apply sublist_submseteq, sublist_take).
  split_and!; [done| |by exists k]. split; [|rewrite <- (take_drop k us) in Hok| | |done].
  - by eapply coins_of_submseteq.
  - by apply coins_ok_app in Hok as [? _].
  - by apply Forall_take.
  - intros Hnil%(f_equal length). rewrite length_take in Hnil. simpl in Hnil. lia.
Qed.

Lemma BuildTransaction_inv sorted req f utxos m tip w tx w' :
  BuildTransaction faults clock sorted req f utxos m tip w = (Ok tx, w') →
  ∃ w1 destPKH sel t outs,
    wallet_grows w w1 ∧ sr_Amount req ≠ 0 ∧
    AddressToPubKeyHash (sr_ToAddress req) = Ok (w_addrVersion w1, destPKH) ∧
    selectCoins (sorted (filterSpendable utxos m tip)) (sr_Amount req) f = Ok (sel, t) ∧
    make_outputs faults (len sel) t (sr_Amount req) f
      (mkTxOutput (sr_Amount req) (MakeP2PKHScript destPKH)) w1 = (Ok outs, w') ∧
    foldiM (sign_selected w') (mkTransaction 1 (spend_input <$> sel) outs tip) sel = Ok tx.
Proof.
  intros Hr. unfold BuildTransaction in Hr. run_inv.
  match goal with H : RequireUnlocked _ _ = _ |- _ =>
    pose proof (RequireUnlocked_grows clock w) as Hg; rewrite H in Hg end.
  match goal with H : wrap _ (AddressToPubKeyHash _) = Ok ?x |- _ =>
    apply wrap_Ok in H; destruct x as [ver pkh] end. run_inv.
  match goal with H : selectCoins _ _ _ = Ok ?x |- _ => destruct x as [sel t] end. run_inv. res_inv.
  match goal with H : negb (bool_decide (ver = _)) = false |- _ =>
    apply negb_false_iff, bool_decide_eq_true in H; subst ver end.
  eexists _, _, sel, t, _. split_and!; try done. by apply Z.eqb_neq.
Qed.

(** The inputs of a signed payment verify. *)
Lemma signed_inputs w sel outs tip tx :
  keys_ok w → foldiM (sign_selected w) (mkTransaction 1 (spend_input <$> sel) outs tip) sel = Ok tx →
  tx_Version tx = 1 ∧ tx_Outputs tx = outs ∧ tx_LockTime tx = tip ∧
  strip_input <$> tx_Inputs tx = spend_input <$> sel ∧
  ∀ j x u, tx_Inputs tx !! j = Some x → sel !! j = Some u →
    Verify (in_SignatureScript x) (uo_PkScript u) tx (Z.of_nat j) = Ok () ∧
    wf_script (in_SignatureScript x).
Proof.
  intros Hk Hs.
  destruct (sign_loop w sel 0 _ tx Hs) as (Hu & _ & Hsig); [simpl; by rewrite length_fmap|].
  pose proof Hu as Hu'. rewrite !unsigned_strip in Hu'. simpl in Hu'. injection Hu' as Hv Hi Ho Hl.
  rewrite <- list_fmap_compose in Hi.
  split_and!; [done..| |].
  { rewrite Hi. apply list_fmap_ext. done. }
  intros j x u Hx Hj. destruct (Hsig j u Hj) as (y & dk & txj & Hy & Hdk & Huj & Hsi).
  simpl in Hy. rewrite Hx in Hy. injection Hy as <-.
  unfold KeyForScript in Hdk. destruct (ExtractP2PKHHash (uo_PkScript u)) as [h|] eqn:He; [|done].
  apply P2PKH_template in He as [Hlh Heq]. simpl in Hdk.
  destruct (ki_hash w Hk h dk Hdk) as (-> & [Hpk Hh] & _).
  rewrite Heq, Hh, Hpk in Hsi |- *. split.
  - eapply SignInput_verifies; [exact Hsi|done].
  - unfold SignInput, SignTransaction in Hsi. res_inv.
    match goal with H : _ = in_SignatureScript x |- _ => rewrite <- H end.
    unfold wf_script, MaxScriptSize, MakeP2PKHSignatureScript. rewrite !length_app. simpl.
    match goal with |- context [ecdsa_Sign ?k ?h] => pose proof (sig_length k h) end.
    rewrite pubkey_length. lia.
Qed.

Lemma foldl_size_lower {A} (g : A → Z) c l n :
  (∀ x, c ≤ g x) → n + c * len l ≤ foldl (λ n x, n + g x) n l.
Proof.
  intros Hg. revert n. induction l as [|x l IH]; intros n; cbn [foldl length]; [lia|].
  specialize (IH (n + g x)). specialize (Hg x). lia.
Qed.

(** A transaction within the size limit does not have too many inputs. *)
Lemma inputs_bounded tx : Transaction_SerializeSize tx ≤ MaxTxSize → len (tx_Inputs tx) ≤ MaxTxInputs.
Proof.
  unfold Transaction_SerializeSize, MaxTxSize, MaxTxInputs. intros Hs.
  pose proof (VarIntSize_pos (len (tx_Inputs tx))). pose proof (VarIntSize_pos (len (tx_Outputs tx))).
  pose proof (foldl_size_lower TxInput_SerializeSize 40 (tx_Inputs tx)
    (4 + VarIntSize (len (tx_Inputs tx)))) as Hi.
  pose proof (foldl_size_lower TxOutput_SerializeSize 0 (tx_Outputs tx)
    (foldl (λ n i, n + TxInput_SerializeSize i) (4 + VarIntSize (len (tx_Inputs tx))) (tx_Inputs tx)
      + VarIntSize (len (tx_Outputs tx)))) as Ho.
  cbv zeta in Hs. ospecialize (Hi _).
  { intros x. unfold TxInput_SerializeSize. pose proof (VarIntSize_pos (len (in_SignatureScript x))). lia. }
  ospecialize (Ho _).
  { intros x. unfold TxOutput_SerializeSize. pose proof (VarIntSize_pos (len (out_PkScript x))). lia. }
  lia.
Qed.

Lemma payment_inputs_wf sel tx w s :
  coins_of w s sel → strip_input <$> tx_Inputs tx = spend_input <$> sel →
  (∀ j x u, tx_Inputs tx !! j = Some x → sel !! j = Some u → wf_script (in_SignatureScript x)) →
  Forall wf_input (tx_Inputs tx) ∧ Forall (λ x, in_Sequence x = 0xFFFFFFFF) (tx_Inputs tx) ∧
  Forall2 (λ x u, in_PreviousOutPoint x = mkOutPoint (uo_TxHash u) (uo_Index u)) (tx_Inputs tx) sel.
Proof.
  intros Hc Hstrip Hsc.
  assert (Hj : ∀ j x, tx_Inputs tx !! j = Some x → ∃ u, sel !! j = Some u ∧
    strip_input x = spend_input u).
  { intros j x Hx. apply (f_equal (.!! j)) in Hstrip. rewrite !list_lookup_fmap, Hx in Hstrip.
    destruct (sel !! j) as [u|]; [|done]. injection Hstrip as Ho Hq. exists u. split; [done|].
    unfold strip_input. by rewrite Ho, Hq. }
  assert (Hlen : length (tx_Inputs tx) = length sel)
    by (apply (f_equal length) in Hstrip; by rewrite !length_fmap in Hstrip).
  split_and!.
  - apply Forall_lookup. intros j x Hx. destruct (Hj j x Hx) as (u & Hu & Heq).
    injection Heq as Ho Hq. split_and!; [|by eapply Hsc|by rewrite Hq].
    rewrite Ho. eapply co_in; [exact Hc|]. by eapply list_elem_of_lookup_2.
  - apply Forall_lookup. intros j x Hx. destruct (Hj j x Hx) as (u & _ & Heq).
    by injection Heq as _ ->.
  - apply Forall2_same_length_lookup_2; [done|]. intros j x u Hx Hu.
    destruct (Hj j x Hx) as (v & Hv & Heq). simplify_eq. by injection Heq as -> _.
Qed.

Lemma Forall2_inputs_entries (s : UtxoSet) ins sel w :
  coins_of w s sel →
  Forall2 (λ x u, in_PreviousOutPoint x = mkOutPoint (uo_TxHash u) (uo_Index u)) ins sel →
  input_key <$> ins = uo_key <$> sel ∧
  Forall2 (λ i e, lookup_with s None (input_key i) = Some e) ins (uo_entry <$> sel).
Proof.
  intros [_ Hin] H2. induction H2 as [|x u ins sel Hx _ IH]; [done|].
  assert (Hk : input_key x = uo_key u) by (unfold input_key; by rewrite Hx).
  destruct IH as [IH1 IH2]; [intros v Hv; apply Hin; by right|].
  split; [by rewrite !fmap_cons, Hk, IH1|]. constructor; [|done].
  rewrite Hk. unfold lookup_with. destruct (Hin u) as [-> _]; [by left|done].
Qed.

(** The outputs as [make_outputs] leaves them: what they add up to, and the fee. *)
Lemma payment_outputs n t amount f h outs w' :
  few n → 0 < amount → 0 ≤ f ≤ maxFeePerByte → t ≤ MaxMoneyValue →
  amount + fee_exact n 2 f ≤ t → length h = PubKeyHashSize →
  (outs = [mkTxOutput amount (MakeP2PKHScript h)] ∧ t - amount ≤ fee_exact n 2 f + DustThreshold ∨
   ∃ h', length h' = PubKeyHashSize ∧ is_Some (w_keysByHash w' !! h') ∧
     DustThreshold < t - amount - fee_exact n 2 f ∧
     outs = [mkTxOutput amount (MakeP2PKHScript h);
             mkTxOutput (t - amount - fee_exact n 2 f) (MakeP2PKHScript h')]) →
  Forall wf_output outs ∧ Forall (λ o, 0 < out_Value o) outs ∧ (1 ≤ length outs ≤ 2)%nat ∧
  ∃ fee change, t = out_total outs + fee ∧
    fee_exact n 2 f ≤ fee ≤ fee_exact n 2 f + DustThreshold ∧
    outs = mkTxOutput amount (MakeP2PKHScript h) :: option_list change ∧
    ∀ o, change = Some o → DustThreshold < out_Value o ∧ IsOurScript w' (out_PkScript o) = true.
Proof.
  intros Hn Ha Hf Ht Hle Hh Houts. pose proof (fee_exact_bounds n 2 f Hn ltac:(lia) Hf).
  assert (Hwf : ∀ v h, 0 < v ≤ t → length h = PubKeyHashSize → wf_output (mkTxOutput v (MakeP2PKHScript h))).
  { intros v h1 Hv Hh1. unfold MaxMoneyValue in Ht. split; simpl; [unfold is_u64; lia|].
    unfold wf_script, MaxScriptSize. rewrite P2PKH_length by done. lia. }
  unfold DustThreshold in *.
  destruct Houts as [[-> Hd]|(h' & Hh' & Hk & Hd & ->)].
  - split_and!; simpl; [repeat constructor; apply Hwf; (done || lia)|repeat constructor; simpl; lia|lia|lia|].
    exists (t - amount), None. split_and!; [simpl; lia|lia|lia|done|done].
  - split_and!; simpl;
      [repeat constructor; apply Hwf; (done || lia)|repeat constructor; simpl; lia|lia|lia|].
    exists (fee_exact n 2 f), (Some (mkTxOutput (t - amount - fee_exact n 2 f) (MakeP2PKHScript h'))).
    split_and!; [simpl; lia|lia|lia|done|].
    intros o [= <-]. split; [done|]. by apply our_script.
Qed.

Lemma payment_locks (p : ChainParams) (tx : Transaction) (h m : Z) (s : UtxoSet) :
  Forall (λ x, in_Sequence x = 0xFFFFFFFF) (tx_Inputs tx) → locks_met p tx h m s.
Proof.
  intros Hq hh _ _. split; [by right; left|]. eapply Forall_impl; [exact Hq|].
  intros x Hx Hz. rewrite Hx in Hz. done.
Qed.

Lemma payment_not_coinbase tx sel w s :
  wf_utxo_set s → coins_of w s sel →
  Forall2 (λ x u, in_PreviousOutPoint x = mkOutPoint (uo_TxHash u) (uo_Index u)) (tx_Inputs tx) sel →
  Transaction_IsCoinbase tx = false.
Proof.
  intros Hs [_ Hin] H2. unfold Transaction_IsCoinbase.
  destruct (tx_Inputs tx) as [|x [|y l]]; [done| |done].
  inversion H2 as [|? u ? sel' Hx ?]; subst. unfold TxInput_IsCoinbase, Hash_IsZero.
  rewrite Hx. simpl. apply not_true_iff_false. rewrite andb_true_iff, bool_decide_eq_true, Z.eqb_eq.
  intros [Hz Hi]. destruct (Hin u) as [Hk _]; [by left|].
  apply (us_key s Hs) in Hk as [_ Hne]. apply Hne. unfold uo_key. by rewrite Hz, Hi.
Qed.

(** A signed payment whose outputs are worth what was selected, less the fee. *)
Lemma payment_accepted w w' s p tip amount f sel outs tx now fee :
  wf_utxo_set s → keys_ok w' → 0 ≤ tip → is_u32 (tip + 1) →
  selection w s (p_CoinbaseMaturity p) tip amount f sel →
  foldiM (sign_selected w') (mkTransaction 1 (spend_input <$> sel) outs tip) sel = Ok tx →
  Transaction_SerializeSize tx ≤ MaxTxSize →
  Forall wf_output outs → Forall (λ o, 0 < out_Value o) outs → 0 < len outs ≤ MaxTxOutputs →
  0 ≤ fee → out_total outs + fee = uo_total sel →
  len (tx_Inputs tx) = len sel ∧ tx_Outputs tx = outs ∧
  ValidateSingleTransaction tx s tip p None now = Ok fee.
Proof.
  intros Hs Hk' Htip Hu32 [Hselc (Hpos & Hmax & _) Hsp Hne _] Hsign Hsz Howf Hopos Holen Hfee Hsum.
  destruct (signed_inputs w' sel outs tip tx Hk' Hsign) as (Hv & Ho & Hl & Hstrip & Hver).
  destruct (payment_inputs_wf sel tx w s Hselc Hstrip) as (Hwf & Hseq & Hops);
    [intros j x u Hx Hu; by eapply Hver|].
  destruct (Forall2_inputs_entries s _ sel w Hselc Hops) as [Hkeys Hents].
  assert (Hn : length (tx_Inputs tx) = length sel) by apply (Forall2_length _ _ _ Hops).
  split_and!; [by rewrite Hn|done|]. apply ValidateSingleTransaction_Ok.
  { intros key e. unfold lookup_with. destruct (s !! key) eqn:He; [|done]. intros [= <-].
    by apply (us_entry s Hs) in He as [? _]. }
  { split_and!; [by rewrite Hv|by apply inputs_bounded|done| |by rewrite Ho|].
    - rewrite Ho. lia.
    - rewrite Hl. unfold is_u32 in *. lia. }
  split_and!; [by eapply payment_not_coinbase| |by apply payment_locks].
  exists (uo_entry <$> sel).
  assert (Hin : in_total (uo_entry <$> sel) = uo_total sel) by (unfold in_total; by rewrite sumZ_fmap).
  split; rewrite ?Ho, ?Hin; try done.
  - intros Hnil. rewrite Hnil in Hn. by destruct sel.
  - intros ->. simpl in Holen. lia.
  - rewrite Hkeys. apply Hselc.
  - apply Forall_fmap, Forall_forall. intros u Hu. apply (spendable_mature (p_CoinbaseMaturity p) tip); [done..| |].
    + apply (co_in _ _ _ Hselc) in Hu as (Hu & _). apply (us_entry s Hs) in Hu as [_ [? _]]. done.
    + rewrite Forall_forall in Hsp. by apply Hsp.
  - intros j x e Hx He. rewrite list_lookup_fmap in He. destruct (sel !! j) as [u|] eqn:Hu; [|done].
    injection He as <-. simpl. by apply (Hver j x u).
Qed.

(** The inputs of a signed payment are outputs of the wallet. *)
Lemma payment_own w s sel tx :
  coins_of w s sel → strip_input <$> tx_Inputs tx = spend_input <$> sel →
  Forall (λ i, ∃ e, s !! input_key i = Some e ∧ IsOurScript w (ue_PkScript e) = true) (tx_Inputs tx).
Proof.
  intros [_ Hin] Hstrip. apply Forall_lookup. intros j x Hx.
  apply (f_equal (.!! j)) in Hstrip. rewrite !list_lookup_fmap, Hx in Hstrip.
  destruct (sel !! j) as [u|] eqn:Hu; [|done]. injection Hstrip as Ho _.
  destruct (Hin u) as (Hk & Hours & _); [by eapply list_elem_of_lookup_2|].
  exists (uo_entry u). split; [|done]. unfold input_key. by rewrite Ho.
Qed.

Lemma payment_checks w s items sorted req f p tip now tx w' :
  keys_ok w → wf_utxo_set s → few (Z.of_nat (size s)) → items ≡ₚ makeUtxoIterator s →
  (∀ l, sorted l ≡ₚ l) → 0 ≤ tip → is_u32 (tip + 1) →
  0 ≤ sr_Amount req < 2 ^ 63 → 0 ≤ f ≤ maxFeePerByte →
  BuildTransaction faults clock sorted req f (FindUnspent w items tip) (p_CoinbaseMaturity p) tip w
    = (Ok tx, w') →
  Transaction_SerializeSize tx ≤ MaxTxSize →
  ∃ fee h change,
    ValidateSingleTransaction tx s tip p None now = Ok fee ∧
    (let estimate := fee_exact (len (tx_Inputs tx)) 2 f in
     estimate ≤ fee ≤ estimate + DustThreshold) ∧
    AddressToPubKeyHash (sr_ToAddress req) = Ok (w_addrVersion w, h) ∧
    tx_Outputs tx = mkTxOutput (sr_Amount req) (MakeP2PKHScript h) :: option_list change ∧
    (∀ o, change = Some o → DustThreshold < out_Value o ∧ IsOurScript w' (out_PkScript o) = true) ∧
    Forall (λ i, ∃ e, s !! input_key i = Some e ∧ IsOurScript w (ue_PkScript e) = true) (tx_Inputs tx).
Proof.
  intros Hk Hs Hfew Hit Hsort Htip Hu32 Ha Hf Hb Hsz.
  apply BuildTransaction_inv in Hb
    as (w1 & pkh & sel & t & outs & Hg1 & Hnz & Haddr & Hsel & Hmk & Hsign).
  pose proof (selectCoins_selection w s items tip (p_CoinbaseMaturity p) sorted (sr_Amount req) f
    Hs Hit Hsort Hfew Ha Hf) as Hspec. cbv zeta in Hspec. rewrite Hsel in Hspec.
  destruct Hspec as (-> & Hsn & _). pose proof Hsn as [_ (_ & Hmax & Hfews) _ _ Hle].
  apply make_outputs_Ok in Hmk as [Hg Houts]; [|done|lia|done|done|done].
  destruct (payment_outputs (len sel) (uo_total sel) (sr_Amount req) f pkh outs w')
    as (Howf & Hopos & Holen & fee & change & Hsum & Hfee & Houteq & Hchange);
    [done|lia|done|done|done|by eapply AddressToPubKeyHash_size|done|].
  pose proof (fee_exact_bounds (len sel) 2 f Hfews ltac:(lia) Hf).
  destruct (payment_accepted w w' s p tip (sr_Amount req) f sel outs tx now fee) as (Hn & Ho & Hok);
    [done|by apply Hg, Hg1|done..|unfold MaxTxOutputs; lia|lia|lia|].
  exists fee, pkh, change. rewrite Hn, Ho. split_and!; [done|apply Hfee..| |done|done|].
  - rewrite <- (wg_version _ _ Hg1). done.
  - eapply payment_own; [apply Hsn|]. by apply (signed_inputs w' sel outs tip tx); [apply Hg, Hg1|].
Qed.

(** C15: A payment the wallet builds is valid: when [BuildTransaction] succeeds on the
    outputs that [FindUnspent] found in the set of the chain, for an amount below
    2^63 and a fee rate within the limit of the node, and the transaction is not
    larger than the limit, then [ValidateSingleTransaction] accepts it at the next
    height; its fee is the estimate for two outputs or at most the dust threshold
    more; its first output pays exactly the amount to the key hash of the
    destination address, and the only other output, if any, is above the dust
    threshold and pays to a key of the wallet. *)
Theorem payment_valid w s items sorted req f p tip now tx w' :
  keys_ok w → wf_utxo_set s → few (Z.of_nat (size s)) → items ≡ₚ makeUtxoIterator s →
  (∀ l, sorted l ≡ₚ l) → 0 ≤ tip → is_u32 (tip + 1) →
  0 ≤ sr_Amount req < 2 ^ 63 → 0 ≤ f ≤ maxFeePerByte →
  BuildTransaction faults clock sorted req f (FindUnspent w items tip) (p_CoinbaseMaturity p) tip w
    = (Ok tx, w') →
  Transaction_SerializeSize tx ≤ MaxTxSize →
  ∃ fee h change,
    ValidateSingleTransaction tx s tip p None now = Ok fee ∧
    (let estimate := fee_exact (len (tx_Inputs tx)) 2 f in
     estimate ≤ fee ≤ estimate + DustThreshold) ∧
    AddressToPubKeyHash (sr_ToAddress req) = Ok (w_addrVersion w, h) ∧
    tx_Outputs tx = mkTxOutput (sr_Amount req) (MakeP2PKHScript h) :: option_list change ∧
    ∀ o, change = Some o → DustThreshold < out_Value o ∧ IsOurScript w' (out_PkScript o) = true.
Proof.
  intros Hk Hs Hfew Hit Hsort Htip Hu32 Ha Hf Hb Hsz.
  destruct (payment_checks w s items sorted req f p tip now tx w') as (fee & h & change & Hv & Hfee & Haddr & Ho & Hc & _);
    [done..|]. by exists fee, h, change.
Qed.

(** ** The balance *)

Lemma balance_item_own w tip m total item :
  balance_item w tip 1 m total item =
  match own_output w tip item with
  | Some u => if is_spendable m tip u then u64 (total + uo_Value u) else total
  | None => total
  end.
Proof.
  destruct item as [[[[[h i] v] sc] ht] cb]. unfold balance_item, own_output, IsOurScript.
  destruct (ExtractP2PKHHash sc) as [pkh|]; [|done]. destruct (bool_decide _); [|done].
  unfold is_spendable. simpl. destruct (confirmations tip ht <? 1); [done|]. simpl.
  by destruct (cb && (confirmations tip ht <? m)).
Qed.

Lemma balance_sum w tip m items total :
  0 ≤ total → Forall (λ u, 0 ≤ uo_Value u) (omap (own_output w tip) items) →
  total + uo_total (filterSpendable (omap (own_output w tip) items) m tip) < 2 ^ 64 →
  foldl (balance_item w tip 1 m) total items
  = total + uo_total (filterSpendable (omap (own_output w tip) items) m tip).
Proof.
  revert total. induction items as [|item items IH]; intros total Ht Hpos Hlt; cbn [foldl].
  { unfold uo_total. simpl. lia. }
  rewrite balance_item_own. simpl in Hpos, Hlt |- *.
  destruct (own_output w tip item) as [u|]; [|by apply IH].
  apply Forall_cons in Hpos as [Hu Hpos]. unfold filterSpendable, uo_total in *. simpl in *.
  destruct (is_spendable m tip u); [|by apply IH]. simpl in *.
  assert (0 ≤ sumZ uo_Value (List.filter (is_spendable m tip) (omap (own_output w tip) items))).
  { apply sumZ_nonneg, Forall_forall. intros x Hx. apply list_elem_of_In, filter_In in Hx as [Hx _].
    rewrite Forall_forall in Hpos. apply Hpos. by apply list_elem_of_In. }
  change (list_omap utxo_item UnspentOutput (own_output w tip) items)
    with (omap (own_output w tip) items) in *.
  rewrite (u64_id (total + uo_Value u)) by (unfold is_u64; lia).
  rewrite IH by (done || lia). lia.
Qed.

(** The balance is what can be spent: on the set of the chain, [GetBalance] with
    one confirmation is, without overflow, the sum of the values of the outputs
    that [FindUnspent] finds and [BuildTransaction] may select. *)
Theorem balance_spendable w s items m tip :
  wf_utxo_set s → few (Z.of_nat (size s)) → items ≡ₚ makeUtxoIterator s →
  GetBalance w items tip 1 m = uo_total (filterSpendable (FindUnspent w items tip) m tip) ∧
  GetBalance w items tip 1 m ≤ MaxMoneyValue.
Proof.
  intros Hs Hfew Hit.
  destruct (spendable_coins w s items tip m id Hs Hit (λ l, reflexivity l) Hfew) as (_ & (_ & Hmax & _) & _).
  cbn [id] in Hmax.
  assert (Heq : GetBalance w items tip 1 m = uo_total (filterSpendable (FindUnspent w items tip) m tip)).
  { rewrite FindUnspent_omap in Hmax |- *. unfold GetBalance. rewrite balance_sum; [lia|done| |].
    - apply Forall_forall. intros u Hu. rewrite <- FindUnspent_omap in Hu.
      apply (proj1 (proj2 (FindUnspent_spec w s items tip Hs Hit))) in Hu as (Hk & _).
      apply (us_entry s Hs) in Hk as [[? _] _]. done.
    - unfold MaxMoneyValue in Hmax. lia. }
  rewrite Heq. done.
Qed.

(** ** Payments that are built *)

(** The largest outputs first: no as many others are worth more. *)
Lemma take_largest l vs :
  StronglySorted (λ a b, uo_Value b ≤ uo_Value a) l → vs ⊆+ l → Forall (λ u, 0 ≤ uo_Value u) l →
  uo_total vs ≤ uo_total (take (length vs) l).
Proof.
  intros Hs. revert vs. induction Hs as [|x l Hs IH Hx]; intros vs Hsub Hpos.
  { apply submseteq_nil_r in Hsub as ->. done. }
  apply Forall_cons in Hpos as [_ Hpos]. apply submseteq_cons_r in Hsub as [Hsub|(vs' & Hp & Hsub)].
  - destruct vs as [|v vs]; [done|]. simpl.
    assert (uo_Value v ≤ uo_Value x).
    { rewrite Forall_forall in Hx. apply Hx. eapply elem_of_submseteq; [|exact Hsub]. by left. }
    specialize (IH vs). unfold uo_total in *. simpl.
    etrans; [|apply Z.add_le_mono; [eassumption|apply IH; [|done]]]; [done|].
    etrans; [|exact Hsub]. by apply submseteq_cons.
  - unfold uo_total. rewrite (sumZ_perm _ _ _ Hp), (Permutation_length Hp). simpl.
    specialize (IH vs' Hsub Hpos). unfold uo_total in IH. lia.
Qed.

Lemma SignInput_total tx (i : nat) sc k :
  (i < length (tx_Inputs tx))%nat → ∃ sig, SignInput tx (Z.of_nat i) sc k = Ok sig.
Proof.
  intros Hi. unfold SignInput, SignTransaction.
  rewrite (proj2 (ComputeSigHash_Ok tx (Z.of_nat i) sc _)) by (split; [lia|reflexivity]).
  by eexists.
Qed.

Lemma our_key w sc : IsOurScript w sc = true → ∃ dk, KeyForScript w sc = Some dk.
Proof.
  unfold IsOurScript, KeyForScript. destruct (ExtractP2PKHHash sc); [|done].
  intros [dk Hdk]%bool_decide_eq_true. by exists dk.
Qed.

Lemma grows_our_script w w' sc :
  wallet_grows w w' → IsOurScript w sc = true → IsOurScript w' sc = true.
Proof.
  intros Hg. unfold IsOurScript. destruct (ExtractP2PKHHash sc); [|done].
  rewrite !bool_decide_eq_true. apply Hg.
Qed.

Lemma sign_loop_total w sel k tx :
  Forall (λ u, IsOurScript w (uo_PkScript u) = true) sel →
  (k + length sel ≤ length (tx_Inputs tx))%nat →
  ∃ tx', foldiM_from (Z.of_nat k) (sign_selected w) tx sel = Ok tx'.
Proof.
  intros Ho. revert k tx. induction Ho as [|u sel Hu _ IH]; intros k tx Hl; cbn [foldiM_from];
    [by eexists|]. simpl in Hl.
  destruct (our_key w _ Hu) as [dk Hdk].
  destruct (SignInput_total tx k (uo_PkScript u) (dk_PrivKey dk)) as [sig Hsig]; [lia|].
  assert (Hone : sign_selected w tx (Z.of_nat k) u = Ok (set_sigscript tx k sig))
    by (unfold sign_selected; rewrite Hdk, Hsig; cbn; by rewrite Nat2Z.id).
  rewrite Hone. cbn [mbind res_bind].
  replace (Z.of_nat k + 1) with (Z.of_nat (S k)) by lia. apply IH. simpl. rewrite length_alter. lia.
Qed.

Lemma make_outputs_total n t amount f dest w a w' :
  few n → 0 ≤ amount → 0 ≤ f ≤ maxFeePerByte → t ≤ MaxMoneyValue → amount + fee_exact n 2 f ≤ t →
  GetChangeAddress faults w = (Ok a, w') →
  ∃ outs w2, make_outputs faults n t amount f dest w = (Ok outs, w2).
Proof.
  intros Hn Ha Hf Ht Hle Hg. unfold make_outputs. rewrite !estimated_fee_exact by (done || lia).
  pose proof (fee_exact_bounds n 1 f Hn ltac:(lia) Hf).
  pose proof (fee_exact_mono n n 1 2 f ltac:(lia) ltac:(lia) ltac:(lia)).
  unfold MaxMoneyValue in *. rewrite (u64_id (t - amount)) by (unfold is_u64; lia).
  rewrite (proj2 (Z.ltb_ge (t - amount) (fee_exact n 1 f))) by lia. proc_step.
  destruct (_ <? _); [|by eexists _, _].
  rewrite proc_bind_eq. unfold pwrap at 1. rewrite Hg. cbn [wrap].
  apply GetChangeAddress_Ok in Hg as (_ & h & _ & -> & _). proc_step.
  destruct (_ <? _); by eexists _, _.
Qed.

(** The steps of [BuildTransaction] after the coins are selected. *)
Lemma build_run w w1 sorted req f utxos m tip h a w2 sel :
  RequireUnlocked clock w = (Ok (), w1) → GetChangeAddress faults w1 = (Ok a, w2) →
  AddressToPubKeyHash (sr_ToAddress req) = Ok (w_addrVersion w, h) →
  0 < sr_Amount req → 0 ≤ f ≤ maxFeePerByte → filterSpendable utxos m tip ≠ [] →
  selectCoins (sorted (filterSpendable utxos m tip)) (sr_Amount req) f = Ok (sel, uo_total sel) →
  few (len sel) → uo_total sel ≤ MaxMoneyValue → sr_Amount req + fee_exact (len sel) 2 f ≤ uo_total sel →
  Forall (λ u, IsOurScript w (uo_PkScript u) = true) sel →
  ∃ tx w', BuildTransaction faults clock sorted req f utxos m tip w = (Ok tx, w') ∧
    length (tx_Inputs tx) = length sel.
Proof.
  intros Hun Hchg Haddr Ha Hf Hne Hsel Hfews Hmax Hle Hours.
  assert (Hg1 : wallet_grows w w1)
    by (pose proof (RequireUnlocked_grows clock w) as Hg; by rewrite Hun in Hg).
  set (dest := mkTxOutput (sr_Amount req) (MakeP2PKHScript h)).
  destruct (make_outputs_total (len sel) (uo_total sel) (sr_Amount req) f dest w1 a w2)
    as (outs & w' & Hmk); [done|lia|done..|].
  assert (Hg2 : wallet_grows w1 w').
  { pose proof (make_outputs_grows faults (len sel) (uo_total sel) (sr_Amount req) f dest w1) as Hg.
    by rewrite Hmk in Hg. }
  destruct (sign_loop_total w' sel 0 (mkTransaction 1 (spend_input <$> sel) outs tip)) as [tx Htx].
  { eapply Forall_impl; [exact Hours|]. intros u. apply grows_our_script. by etrans. }
  { simpl. by rewrite length_fmap. }
  exists tx, w'. split.
  - unfold BuildTransaction. rewrite proc_bind_eq, Hun. rewrite (proj2 (Z.eqb_neq (sr_Amount req) 0)) by lia.
    proc_step. rewrite Haddr. proc_step. proc_step. rewrite (wg_version _ _ Hg1), bool_decide_true by done.
    proc_step. rewrite (proj2 (Z.eqb_neq (len (filterSpendable utxos m tip)) 0)).
    2:{ destruct (filterSpendable utxos m tip); [done|simpl; lia]. }
    proc_step. rewrite Hsel. proc_step. fold dest. rewrite proc_bind_eq, Hmk.
    proc_step. cbn [id negb fail_if]. unfold pure. change (Z.of_nat 0) with 0 in Htx. by rewrite Htx.
  - destruct (sign_loop w' sel 0 _ tx Htx) as (Hu & _); [simpl; by rewrite length_fmap|].
    rewrite !unsigned_strip in Hu. apply (f_equal (λ t, length (tx_Inputs t))) in Hu. simpl in Hu.
    by rewrite !length_fmap in Hu.
Qed.

(** A payment the wallet has the funds for is built, with as few inputs as
    possible: when the wallet is unlocked, the destination is an address of its
    network, a change address can be derived, and the spendable outputs together
    cover the amount and the fee for spending them all, then [BuildTransaction]
    succeeds, and no smaller selection of the spendable outputs covers the
    amount and the fee for that many inputs. *)
Theorem payment_built w w1 s items sorted req f m tip h a w2 :
  wf_utxo_set s → few (Z.of_nat (size s)) → items ≡ₚ makeUtxoIterator s →
  (∀ l, sorted l ≡ₚ l ∧ StronglySorted (λ a b, uo_Value b ≤ uo_Value a) (sorted l)) →
  0 < sr_Amount req < 2 ^ 63 → 0 ≤ f ≤ maxFeePerByte →
  RequireUnlocked clock w = (Ok (), w1) → GetChangeAddress faults w1 = (Ok a, w2) →
  AddressToPubKeyHash (sr_ToAddress req) = Ok (w_addrVersion w, h) →
  let coins := filterSpendable (FindUnspent w items tip) m tip in
  sr_Amount req + fee_exact (len coins) 2 f ≤ uo_total coins →
  ∃ tx w',
    BuildTransaction faults clock sorted req f (FindUnspent w items tip) m tip w = (Ok tx, w') ∧
    ∀ others, others ⊆+ coins → (length others < length (tx_Inputs tx))%nat →
      uo_total others < sr_Amount req + fee_exact (len others) 2 f.
Proof.
  intros Hs Hfew Hit Hsort Ha Hf Hun Hchg Haddr coins Hfunds.
  destruct (spendable_coins w s items tip m sorted Hs Hit (λ l, proj1 (Hsort l)) Hfew)
    as (_ & (Hpos & _ & Hfewc) & _). fold coins in Hpos, Hfewc.
  pose proof (selectCoins_selection w s items tip m sorted (sr_Amount req) f
    Hs Hit (λ l, proj1 (Hsort l)) Hfew ltac:(lia) Hf) as Hspec. cbv zeta in Hspec. fold coins in Hspec.
  destruct (Hsort coins) as [Hperm Hdesc].
  assert (Hut : uo_total (sorted coins) = uo_total coins) by (by apply sumZ_perm).
  rewrite (Permutation_length Hperm) in Hfewc.
  pose proof (fee_exact_bounds (len coins) 2 f Hfewc ltac:(lia) Hf).
  destruct (selectCoins (sorted coins) (sr_Amount req) f) as [[sel t]|e|] eqn:Hsel; [| |done].
  2:{ exfalso. rewrite Hut, (Permutation_length Hperm) in Hspec. destruct Hspec as [Hnil|Hlt]; [|lia].
      rewrite Hnil in Hut. unfold uo_total at 1 in Hut. simpl in Hut. lia. }
  destruct Hspec as (-> & [Hc (_ & Hmax & Hfews) _ Hne Hle] & k & Heq & Hmin).
  destruct (build_run w w1 sorted req f (FindUnspent w items tip) m tip h a w2 sel)
    as (tx & w' & Hrun & Hlen); try done; [lia| | |].
  { fold coins. intros Hnil. apply Hne. rewrite Heq.
    apply Permutation_length in Hperm. rewrite Hnil in Hperm at 2. apply nil_length_inv in Hperm.
    by rewrite Hperm, take_nil. }
  { apply Forall_forall. intros u Hu. by apply (co_in _ _ _ Hc). }
  exists tx, w'. split; [done|]. intros others Hsub Hlt. rewrite Hlen, Heq, length_take in Hlt.
  destruct (decide (length others = 0%nat)) as [Hz|Hz].
  { apply nil_length_inv in Hz as ->. change (0 < sr_Amount req + fee_exact 0 2 f).
    pose proof (fee_exact_bounds 0 2 f ltac:(by unfold few) ltac:(lia) Hf). lia. }
  specialize (Hmin (length others) ltac:(lia)). rewrite length_take, Nat.min_l in Hmin by lia.
  eapply Z.le_lt_trans; [|exact Hmin].
  apply take_largest; [done|by rewrite Hperm|done].
Qed.
End payments.

(** ** Witnesses *)

#[local] Existing Instance toy_lib.
#[local] Existing Instance toy_hd.
#[local] Existing Instance toy_hashlib.

(** Two outputs of the wallet, an ordinary one and a mature coinbase. *)
Definition pw_script : list byte := Eval vm_compute in default [] (GetDefaultP2PKHScript toy_wallet).
Definition pw_set : UtxoSet :=
  {[ OutpointKey (replicate 32 x11) 0 := mkUtxoEntry 100000 pw_script 5 false;
     OutpointKey (replicate 32 x22) 1 := mkUtxoEntry 30000 pw_script 7 true ]}.
Definition pw_items : list utxo_item := makeUtxoIterator pw_set.
Definition by_value (a b : UnspentOutput) : Prop := uo_Value b ≤ uo_Value a.
#[local] Instance by_value_dec : RelDecision by_value.
Proof. intros a b. unfold by_value. apply _. Defined.
Definition pw_sorted : list UnspentOutput → list UnspentOutput := merge_sort by_value.
Definition pw_dest : list byte :=
  Eval vm_compute in PubKeyHashToAddress (replicate 20 x42) x00.
Definition pw_request : SendRequest := mkSendRequest pw_dest 120000.
Definition pw_run : res Transaction * HDWallet :=
  BuildTransaction toy_faults toy_clock pw_sorted pw_request 10 (FindUnspent toy_wallet pw_items 300)
    (p_CoinbaseMaturity Regtest) 300 toy_wallet.
Definition pw_tx : Transaction :=
  Eval vm_compute in match pw_run.1 with Ok tx => tx | _ => v_spend end.

Lemma pw_sorted_perm l : pw_sorted l ≡ₚ l.
Proof. apply merge_sort_Permutation. Qed.
Lemma pw_sorted_sorted l : StronglySorted (λ a b, uo_Value b ≤ uo_Value a) (pw_sorted l).
Proof.
  assert (Transitive by_value) by (intros a b c; unfold by_value; lia).
  assert (Total by_value) by (intros a b; unfold by_value; lia).
  apply (StronglySorted_merge_sort by_value).
Qed.

Lemma pw_set_wf : wf_utxo_set pw_set.
Proof.
  assert (H : map_Forall (λ k e, (length k = 36%nat ∧ k ≠ outpoint_key CoinbaseOutPoint) ∧
    is_u64 (ue_Value e) ∧ is_u32 (ue_Height e)) pw_set) by by_decide.
  split; [intros k e Hk; apply (H k e Hk)..|]. by_decide.
Qed.

Lemma pw_keys_ok : keys_ok toy_wallet.
Proof.
  apply (reachable_keys_ok toy_faults toy_clock toy_random).
  exact (reach_open _ _ _ (mkHost None 0) x00 _ toy_wallet_opened).
Qed.

Lemma pw_run_Ok : pw_run = (Ok pw_tx, pw_run.2).
Proof.
  assert (Hok : pw_run.1 = Ok pw_tx) by (vm_compute; reflexivity).
  revert Hok. generalize pw_run. intros r. apply run_outcome.
Qed.

Lemma payment_valid_witness :
  ∃ fee, ValidateSingleTransaction pw_tx pw_set 300 Regtest None 1774175100 = Ok fee ∧
    fee ≤ fee_exact 2 2 10 + DustThreshold.
Proof.
  destruct (payment_valid (CryptoLaws0 := toy_laws) toy_faults toy_clock toy_wallet pw_set pw_items
    pw_sorted pw_request 10 Regtest 300 1774175100 pw_tx pw_run.2 pw_keys_ok pw_set_wf)
    as (fee & h & change & Hv & [_ Hf] & _).
  - by_decide.
  - reflexivity.
  - exact pw_sorted_perm.
  - lia.
  - by_decide.
  - by_decide.
  - by_decide.
  - exact pw_run_Ok.
  - by_decide.
  - exists fee. split; [exact Hv|exact Hf].
Defined.

Lemma balance_spendable_witness : GetBalance toy_wallet pw_items 300 1 100 ≤ MaxMoneyValue.
Proof.
  refine (proj2 (balance_spendable toy_wallet pw_set pw_items 100 300 pw_set_wf _ _)).
  - by_decide.
  - reflexivity.
Defined.

Definition pw_change : res (list byte) * HDWallet := GetChangeAddress toy_faults toy_wallet.
Definition pw_change_address : list byte :=
  Eval vm_compute in match pw_change.1 with Ok a => a | _ => [] end.

Lemma payment_built_witness :
  ∃ tx w', BuildTransaction toy_faults toy_clock pw_sorted pw_request 10
    (FindUnspent toy_wallet pw_items 300) 100 300 toy_wallet = (Ok tx, w').
Proof.
  assert (Hchg : GetChangeAddress toy_faults toy_wallet = (Ok pw_change_address, pw_change.2)).
  { assert (Hok : pw_change.1 = Ok pw_change_address) by (vm_compute; reflexivity).
    unfold pw_change in *. revert Hok. generalize (GetChangeAddress toy_faults toy_wallet).
    intros r. apply run_outcome. }
  destruct (payment_built toy_faults toy_clock toy_wallet toy_wallet pw_set pw_items pw_sorted
    pw_request 10 100 300 (replicate 20 x42) pw_change_address pw_change.2 pw_set_wf)
    as (tx & w' & Hrun & _).
  - by_decide.
  - reflexivity.
  - intros l. split; [apply pw_sorted_perm|apply pw_sorted_sorted].
  - by_decide.
  - by_decide.
  - unfold RequireUnlocked. rewrite proc_bind_eq. cbn [gets].
    replace (w_encrypted toy_wallet) with false by (vm_compute; reflexivity). reflexivity.
  - exact Hchg.
  - vm_compute. reflexivity.
  - by_decide.
  - exists tx, w'. exact Hrun.
Defined.
