(* ===== verification/WalletRestart.v ===== *)
(** * What a wallet recovers after a restart

    The keys of a wallet are exactly the children of its two chains up to the
    next indices, and the imported ones ([coherent]); every operation preserves
    this.  The wallet file keeps the seed and the indices, in clear or encrypted
    under a passphrase: opening it again recovers the derived keys. *)
From S2P Require Import Prelude Types Sha256 Keys Script Base58 Algorithms BlockFiles Aes Wallet.
From S2P Require Import WalletTx WalletInv.

(** ** What the libraries promise

    JSON keeps records of ASCII strings and numbers in range and decodes a field
    within the range of its type, BIP32 refuses
    short seeds, and scrypt with the parameters of the wallet returns a key of
    the length asked for. *)

Definition ascii (s : list byte) : Prop := Forall (λ c, byte_to_Z c < 128) s.

Definition wd_plain (wd : WalletData) : Prop :=
  Forall ascii [wd_Mnemonic wd; wd_Seed wd; wd_EncryptedData wd; wd_Salt wd; wd_IV wd] ∧
  is_u32 (wd_NextExternalIdx wd) ∧ is_u32 (wd_NextChangeIdx wd) ∧
  is_i64 (wd_ScryptN wd) ∧ is_i64 (wd_ScryptR wd) ∧ is_i64 (wd_ScryptP wd).

Class WalletLaws `{C : CryptoLib} (L : HDLib) (LH : HashLib) : Prop := {
  json_roundtrip wd : wd_plain wd →
    ∃ data, json_MarshalIndent wd = inr data ∧ data ≠ [] ∧ json_Unmarshal data = inr wd;
  json_range data wd : json_Unmarshal data = inr wd →
    is_u32 (wd_NextExternalIdx wd) ∧ is_u32 (wd_NextChangeIdx wd);
  master_seed seed k : hd_NewMaster seed = inr k → seed ≠ [];
  scrypt_wallet pass salt :
    ∃ k, scrypt_Key pass salt scryptN scryptR scryptP keyLen = inr k ∧ length k = 32%nat
}.

Section restart.
Context `{C : CryptoLib, L : !HDLib, LH : !HashLib, !WalletLaws L LH}.
Context (faults : nat → io_fault) (clock : nat → Z) (random : nat → list byte).
Implicit Types w : HDWallet.

(** ** The chains of a seed and their keys *)

Definition right {A} (r : error + A) : option A := match r with inl _ => None | inr a => Some a end.

Definition account_chains (seed : list byte) : option (ExtendedKey * ExtendedKey * ExtendedKey) :=
  master ← right (hd_NewMaster seed);
  purpose ← right (hd_Derive master (HardenedKeyStart + bip44Purpose));
  coinType ← right (hd_Derive purpose (HardenedKeyStart + bip44CoinType));
  account ← right (hd_Derive coinType (HardenedKeyStart + 0));
  external ← right (hd_Derive account 0);
  change ← right (hd_Derive account 1);
  Some (account, external, change).

Ltac no_chain := split; [done|by intros (? & ? & ? & ? & _)].

Lemma deriveAccountKeys_Ok w w' :
  deriveAccountKeys w = (Ok (), w') ↔
  ∃ a e c, account_chains (w_seed w) = Some (a, e, c) ∧ w' = set_chains (Some a) (Some e) (Some c) w.
Proof.
  unfold deriveAccountKeys, account_chains. rewrite proc_bind_eq. cbn [gets].
  destruct (hd_NewMaster (w_seed w)) as [e0|k0]; [no_chain|].
  rewrite proc_bind_eq. cbn [lib wrap pure right mbind option_bind].
  destruct (hd_Derive k0 _) as [e1|k1]; [no_chain|].
  rewrite proc_bind_eq. cbn [lib wrap pure right mbind option_bind].
  destruct (hd_Derive k1 _) as [e2|k2]; [no_chain|].
  rewrite proc_bind_eq. cbn [lib wrap pure right mbind option_bind].
  destruct (hd_Derive k2 _) as [e3|k3]; [no_chain|].
  rewrite !proc_bind_eq. cbn [lib wrap pure right mbind option_bind modify].
  destruct (hd_Derive k3 0) as [e4|k4]; [no_chain|].
  rewrite !proc_bind_eq. cbn [lib wrap pure right mbind option_bind modify].
  destruct (hd_Derive k3 1) as [e5|k5]; [no_chain|].
  rewrite !proc_bind_eq. cbn [lib wrap pure right mbind option_bind modify].
  split; [intros [= <-]; eauto 10|]. intros (a & e & c & [= <- <- <-] & ->). done.
Qed.

Definition child_key (parent : ExtendedKey) (isChange : bool) (i : Z) : option DerivedKey :=
  child ← right (hd_Derive parent i);
  k ← right (hd_ECPrivKey child);
  let priv := secp256k1_PrivKeyFromBytes (PrivateKey_Serialize k) in
  let pub := PublicKey_SerializeCompressed (PrivateKey_PubKey priv) in
  Some (mkDerivedKey priv pub (PubKeyHash pub) (key_path (if isChange then 1 else 0) i) isChange i).

Definition chain_key (isChange : bool) w : option ExtendedKey :=
  if isChange then w_changeKey w else w_externalKey w.
Definition derive (isChange : bool) (i : Z) : proc HDWallet DerivedKey :=
  if isChange then deriveChange i else deriveExternal i.

Lemma derive_spec isChange i w k :
  chain_key isChange w = Some k →
  match child_key k isChange i with
  | Some dk => derive isChange i w = (Ok dk, add_key isChange dk w)
  | None => ∃ e, derive isChange i w = (Err e, w)
  end.
Proof.
  intros Hk. unfold child_key. destruct (hd_Derive k i) as [e|child] eqn:Hd; cbn [right mbind option_bind];
    [|destruct (hd_ECPrivKey child) as [e|pk] eqn:He; cbn [right mbind option_bind]];
    destruct isChange; simpl in Hk |- *; unfold deriveChange, deriveExternal;
    rewrite proc_bind_eq; cbn [gets]; rewrite Hk, proc_bind_eq; cbn [pure]; rewrite Hd; cbn [lib wrap];
    unfold registerKey; rewrite ?proc_bind_eq; cbn [pure]; rewrite ?He; try (by eexists); reflexivity.
Qed.

(** Several keys, in order. *)
Definition add_keys (isChange : bool) w (dks : list DerivedKey) : HDWallet :=
  foldl (λ w dk, add_key isChange dk w) w dks.

Lemma add_keys_app isChange w dks dk :
  add_keys isChange w (dks ++ [dk]) = add_key isChange dk (add_keys isChange w dks).
Proof. unfold add_keys. by rewrite foldl_app. Qed.

(** The keys [dks] are the children [i], [i + 1], ... of [k]. *)
Definition chain_children (k : ExtendedKey) (isChange : bool) (i : Z) (dks : list DerivedKey) : Prop :=
  (λ j, child_key k isChange (u32 j)) <$> seqZ i (len dks) = Some <$> dks.

Lemma chain_children_cons k isChange i dk dks :
  chain_children k isChange i (dk :: dks) ↔
  child_key k isChange (u32 i) = Some dk ∧ chain_children k isChange (i + 1) dks.
Proof.
  unfold chain_children. cbn [length]. rewrite seqZ_cons by lia. rewrite !fmap_cons.
  replace (Z.pred (Z.of_nat (S (length dks)))) with (len dks) by lia.
  replace (Z.succ i) with (i + 1) by lia.
  split; [intros Heq; injection Heq; auto|]. intros [-> ->]. done.
Qed.

Lemma chain_children_snoc k isChange i dks dk :
  chain_children k isChange i dks → child_key k isChange (u32 (i + len dks)) = Some dk →
  chain_children k isChange i (dks ++ [dk]).
Proof.
  unfold chain_children. intros Hd Hk. rewrite length_app. simpl.
  replace (Z.of_nat (length dks + 1)) with (len dks + 1) by lia. rewrite seqZ_app by lia.
  rewrite (seqZ_cons (i + len dks) 1) by lia. change (Z.pred 1) with 0. rewrite (seqZ_nil _ 0) by lia.
  rewrite !fmap_app, Hd, !fmap_cons. by rewrite Hk.
Qed.

Lemma chain_key_add isChange b dk w : chain_key isChange (add_key b dk w) = chain_key isChange w.
Proof. by destruct isChange. Qed.

Lemma rederive_Ok isChange msg n i w k w' :
  chain_key isChange w = Some k → 0 ≤ i → i + Z.of_nat n ≤ 2 ^ 32 →
  rederive (derive isChange) msg n i w = (Ok (), w') ↔
  ∃ dks, length dks = n ∧ chain_children k isChange i dks ∧ w' = add_keys isChange w dks.
Proof.
  intros Hk. revert i w Hk. induction n as [|n IH]; intros i w Hk Hi Hn; cbn [rederive].
  { split.
    - intros [= <-]. exists []. done.
    - intros ([|] & ? & _ & ->); done. }
  rewrite run_bind_Ok. setoid_rewrite run_pwrap_Ok.
  pose proof (derive_spec isChange i w k Hk) as Hd.
  assert (Hu : u32 i = i) by (apply u32_id; unfold is_u32; lia).
  split.
  - intros (dk & w1 & H1 & H2). destruct (child_key k isChange i) as [dk'|] eqn:Hc;
      [|destruct Hd as [e He]; by rewrite He in H1].
    rewrite Hd in H1. injection H1 as <- <-.
    apply IH in H2 as (dks & Hl & Hch & ->); [|by rewrite chain_key_add|lia..].
    exists (dk' :: dks). split_and!; [by simpl; lia| |done].
    apply chain_children_cons. by rewrite Hu.
  - intros ([|dk dks] & Hl & Hch & ->); [done|]. apply chain_children_cons in Hch as [Hc Hch].
    rewrite Hu in Hc. rewrite Hc in Hd. eexists _, _. split; [exact Hd|].
    apply IH; [by rewrite chain_key_add|lia|lia|]. exists dks. split_and!; [by simpl in Hl; lia|done|done].
Qed.

Lemma add_keys_fields isChange w dks :
  let w' := add_keys isChange w dks in
  w_externalKeys w' = (if isChange then w_externalKeys w else w_externalKeys w ++ dks) ∧
  w_changeKeys w' = (if isChange then w_changeKeys w ++ dks else w_changeKeys w) ∧
  w_externalKey w' = w_externalKey w ∧ w_changeKey w' = w_changeKey w ∧
  w_mnemonic w' = w_mnemonic w ∧ w_seed w' = w_seed w ∧ w_host w' = w_host w ∧
  w_nextExternalIdx w' = w_nextExternalIdx w ∧ w_nextChangeIdx w' = w_nextChangeIdx w ∧
  w_encrypted w' = w_encrypted w ∧ w_locked w' = w_locked w ∧ w_addrVersion w' = w_addrVersion w.
Proof.
  cbv zeta. induction dks as [|dk dks IH] using rev_ind.
  { simpl. rewrite !app_nil_r. by destruct isChange. }
  rewrite add_keys_app. destruct IH as (He & Hc & IH). destruct isChange; simpl in *;
    rewrite ?He, ?Hc, ?app_assoc; (split; [done|]; split; [done|]); exact IH.
Qed.

(** A successful [loadSeedAndDerive]. *)
Lemma loadSeedAndDerive_Ok m hexSeed w w' :
  is_u32 (w_nextExternalIdx w) → is_u32 (w_nextChangeIdx w) →
  loadSeedAndDerive m hexSeed w = (Ok (), w') ↔
  ∃ seed a e c ext chg, hex_DecodeString hexSeed = Ok seed ∧
    account_chains seed = Some (a, e, c) ∧
    chain_children e false 0 ext ∧ len ext = w_nextExternalIdx w ∧
    chain_children c true 0 chg ∧ len chg = w_nextChangeIdx w ∧
    w' = add_keys true (add_keys false
           (set_chains (Some a) (Some e) (Some c) (set_secret m seed w)) ext) chg.
Proof.
  intros Hu1 Hu2. unfold is_u32 in *. unfold loadSeedAndDerive. rewrite run_bind_Ok. split.
  - intros (seed & w0 & Hx & Hr). run_inv.
    match goal with H : wrap _ _ = Ok _ |- _ => apply wrap_Ok in H; rename H into Hseed end.
    match goal with H : deriveAccountKeys _ = (Ok ?u, _) |- _ => rename H into Hacc; destruct u end.
    apply deriveAccountKeys_Ok in Hacc as (ka & e & c & Hch & ->).
    match goal with H : rederive deriveExternal _ _ _ _ = (Ok ?u, _) |- _ => rename H into Hext; destruct u end.
    apply (rederive_Ok false _ _ _ _ e) in Hext as (ext & Hl1 & Hc1 & ->); [|done|lia|simpl; lia].
    simpl in Hl1.
    destruct (add_keys_fields false (set_chains (Some ka) (Some e) (Some c) (set_secret m seed w0)) ext)
      as (_ & _ & _ & Hck & _ & _ & _ & _ & Hnx & _).
    apply (rederive_Ok true _ _ _ _ c) in Hr as (chg & Hl2 & Hc2 & ->);
      [|done|lia|rewrite Hnx; simpl; lia].
    rewrite Hnx in Hl2. simpl in Hl2.
    exists seed, ka, e, c, ext, chg. split_and!; try done; lia.
  - intros (seed & a & e & c & ext & chg & Hseed & Hch & Hc1 & Hl1 & Hc2 & Hl2 & ->).
    set (w1 := set_chains (Some a) (Some e) (Some c) (set_secret m seed w)).
    assert (H1 : deriveAccountKeys (set_secret m seed w) = (Ok (), w1))
      by (apply deriveAccountKeys_Ok; by exists a, e, c).
    assert (H2 : rederive deriveExternal "re-derive external key" (Z.to_nat (w_nextExternalIdx w1)) 0 w1
                 = (Ok (), add_keys false w1 ext)).
    { apply (rederive_Ok false _ _ _ _ e); [done|lia|simpl; lia|].
      exists ext. split_and!; [simpl; lia|done|done]. }
    destruct (add_keys_fields false w1 ext) as (_ & _ & _ & Hck & _ & _ & _ & _ & Hnx & _).
    eexists seed, w. split; [unfold pure; by rewrite Hseed|].
    rewrite proc_bind_eq. cbn [modify]. rewrite proc_bind_eq, H1, proc_bind_eq. cbn [gets].
    rewrite proc_bind_eq, H2, proc_bind_eq. cbn [gets].
    apply (rederive_Ok true _ _ _ _ c); [done|lia|rewrite Hnx; simpl; lia|].
    exists chg. rewrite Hnx. split_and!; [simpl; lia|done|done].
Qed.

(** ** Coherence *)

Definition imported (dk : DerivedKey) : Prop := dk_Path dk = str "imported".
#[local] Instance imported_dec dk : Decision (imported dk).
Proof. unfold imported. apply _. Defined.

Definition derived_external w : list DerivedKey := filter (λ dk, ¬ imported dk) (w_externalKeys w).

(** An encrypted wallet whose secret has not been read yet. *)
Record sealed w : Prop := {
  se_encrypted : w_encrypted w = true;
  se_chains : w_externalKey w = None ∧ w_changeKey w = None;
  se_seed : w_seed w = [];
  se_keys : derived_external w = [] ∧ w_changeKeys w = [];
  se_next : is_u32 (w_nextExternalIdx w) ∧ is_u32 (w_nextChangeIdx w)
}.

(** A wallet whose keys have been derived.  Locking wipes the seed. *)
Record opened (a e c : ExtendedKey) w : Prop := {
  op_chains : w_externalKey w = Some e ∧ w_changeKey w = Some c;
  op_external : chain_children e false 0 (derived_external w);
  op_change : chain_children c true 0 (w_changeKeys w);
  op_next : w_nextExternalIdx w = u32 (len (derived_external w)) ∧
            w_nextChangeIdx w = u32 (len (w_changeKeys w));
  op_seed : w_seed w ≠ [];
  op_secret : account_chains (w_seed w) = Some (a, e, c) ∨ w_encrypted w = true ∧ w_mnemonic w = []
}.

Definition coherent w : Prop := sealed w ∨ ∃ a e c, opened a e c w.

Definition keeps_coherent w w' : Prop := coherent w → coherent w'.
#[local] Instance keeps_coherent_preorder : PreOrder keeps_coherent.
Proof. split; [intros w Hw; exact Hw|]. intros x y z Hxy Hyz Hx. auto. Qed.

(** Assignments of the other fields, and encryption. *)
Lemma coherent_same (f : HDWallet → HDWallet) :
  (∀ w, w_externalKey (f w) = w_externalKey w ∧ w_changeKey (f w) = w_changeKey w ∧
        w_externalKeys (f w) = w_externalKeys w ∧ w_changeKeys (f w) = w_changeKeys w ∧
        w_nextExternalIdx (f w) = w_nextExternalIdx w ∧ w_nextChangeIdx (f w) = w_nextChangeIdx w ∧
        w_seed (f w) = w_seed w ∧ w_mnemonic (f w) = w_mnemonic w ∧
        (w_encrypted w = true → w_encrypted (f w) = true)) →
  steps keeps_coherent (modify f).
Proof.
  intros Hf w. destruct (Hf w) as (H1 & H2 & H3 & H4 & H5 & H6 & H7 & H8 & H9). simpl.
  intros [[Hs1 Hs2 Hs3 Hs4 Hs5]|(a & e & c & [Ho1 Ho2 Ho3 Ho4 Ho5 Ho6])].
  - left. split; unfold derived_external in *; rewrite ?H1, ?H2, ?H3, ?H4, ?H5, ?H6, ?H7; auto.
  - right. exists a, e, c. split; unfold derived_external in *;
      rewrite ?H1, ?H2, ?H3, ?H4, ?H5, ?H6, ?H7, ?H8; auto. destruct Ho6 as [?|[? ?]]; auto.
Qed.

Ltac coherent_auto := steps_walk; try (apply coherent_same; done).

Lemma next_call_coherent : steps keeps_coherent next_call.
Proof.
  intros w. apply (coherent_same (λ w, set_host (mkHost (ho_file (w_host w)) (S (ho_calls (w_host w)))) w)).
  done.
Qed.
Hint Resolve next_call_coherent : steps.

Lemma path_not_imported b i : key_path b i ≠ str "imported".
Proof. unfold key_path, str. done. Qed.

Lemma child_derived k isChange i dk :
  child_key k isChange i = Some dk → ¬ imported dk ∧ dk_IsChange dk = isChange.
Proof.
  unfold child_key. destruct (hd_Derive k i) as [|ch]; [done|]. cbn [right mbind option_bind].
  destruct (hd_ECPrivKey ch); [done|]. cbn [right mbind option_bind]. intros [= <-].
  split; [apply path_not_imported|done].
Qed.

Lemma derived_external_add isChange dk w :
  derived_external (add_key isChange dk w) =
  if isChange then derived_external w
  else derived_external w ++ (if decide (imported dk) then [] else [dk]).
Proof.
  unfold derived_external, add_key. destruct isChange; simpl; [done|].
  rewrite filter_app. f_equal. rewrite filter_cons, filter_nil.
  destruct (decide (imported dk)); destruct (decide (¬ imported dk)); tauto || done.
Qed.

Lemma u32_succ n : u32 (u32 n + 1) = u32 (n + 1).
Proof. unfold u32. by rewrite Zplus_mod_idemp_l. Qed.

(** The next key of a chain: its index, its key and the next index. *)
Lemma opened_derive (isChange : bool) dk a e c w :
  opened a e c w →
  child_key (if isChange then c else e) isChange
    (if isChange then w_nextChangeIdx w else w_nextExternalIdx w) = Some dk →
  opened a e c
    (set_next (if isChange then w_nextExternalIdx w else u32 (w_nextExternalIdx w + 1))
       (if isChange then u32 (w_nextChangeIdx w + 1) else w_nextChangeIdx w)
       (add_key isChange dk w)).
Proof.
  intros [Ho1 Ho2 Ho3 [Hn1 Hn2] Ho5 Ho6] Hc. pose proof Hc as [Hi _]%child_derived.
  assert (Hd : ∀ n m w0, derived_external (set_next n m w0) = derived_external w0) by done.
  split; rewrite ?Hd, ?derived_external_add; destruct isChange; simpl; try done.
  - rewrite decide_False by done. apply chain_children_snoc; [done|]. by rewrite Z.add_0_l, <- Hn1.
  - apply chain_children_snoc; [done|]. by rewrite Z.add_0_l, <- Hn2.
  - rewrite length_app. simpl. split; [done|]. rewrite Hn2, u32_succ. f_equal. lia.
  - rewrite decide_False by done. rewrite length_app. simpl. split; [|done].
    rewrite Hn1, u32_succ. f_equal. lia.
Qed.

Lemma os_coherent :
  steps keeps_coherent (os_ReadFile faults) ∧ steps keeps_coherent (os_MkdirAll faults) ∧
  (∀ d, steps keeps_coherent (os_WriteFile faults d)) ∧
  (∀ n, steps keeps_coherent (rand_Read faults random n)) ∧ steps keeps_coherent (time_Now clock).
Proof.
  unfold os_ReadFile, os_MkdirAll, os_WriteFile, rand_Read, time_Now.
  split_and!; intros; coherent_auto.
Qed.

Lemma save_coherent :
  steps keeps_coherent (save faults) ∧ ∀ ct sa iv, steps keeps_coherent (saveEncrypted faults ct sa iv).
Proof.
  destruct os_coherent as (? & ? & ? & _).
  unfold save, savePreservingEncryption, saveEncrypted. split; intros; coherent_auto.
Qed.

(** Deriving a key that fails leaves the wallet as it was. *)
Lemma derive_coherent isChange w :
  coherent w →
  match derive isChange (if isChange then w_nextChangeIdx w else w_nextExternalIdx w) w with
  | (Ok dk, w1) =>
      coherent (set_next (if isChange then w_nextExternalIdx w1 else u32 (w_nextExternalIdx w1 + 1))
                  (if isChange then u32 (w_nextChangeIdx w1 + 1) else w_nextChangeIdx w1) w1)
  | (_, w1) => w1 = w
  end.
Proof.
  intros [[_ [Hs1 Hs2] _ _ _]|(a & e & c & Ho)].
  - destruct isChange; simpl; unfold deriveChange, deriveExternal;
      rewrite proc_bind_eq; cbn [gets]; rewrite ?Hs1, ?Hs2; done.
  - destruct (op_chains _ _ _ _ Ho) as [He Hc].
    pose proof (derive_spec isChange (if isChange then w_nextChangeIdx w else w_nextExternalIdx w) w
      (if isChange then c else e)) as Hd.
    ospecialize (Hd _); [by destruct isChange|].
    destruct (child_key _ isChange _) as [dk'|] eqn:Hck; [|destruct Hd as [er ->]; done].
    rewrite Hd. right. exists a, e, c. exact (opened_derive isChange dk' a e c w Ho Hck).
Qed.

Lemma next_key_coherent :
  steps keeps_coherent (DeriveNextExternal faults) ∧ steps keeps_coherent (DeriveNextChange faults).
Proof.
  destruct save_coherent as [Hsave _].
  assert (Hrest : ∀ dk : DerivedKey, steps keeps_coherent (_ ← pwrap "save wallet" (save faults); mret dk))
    by (intros; coherent_auto).
  split; intros w Hco; unfold DeriveNextExternal, DeriveNextChange;
    rewrite proc_bind_eq; cbn [gets]; rewrite proc_bind_eq.
  - pose proof (derive_coherent false w Hco) as Hd. cbn [derive] in Hd.
    destruct (deriveExternal _ w) as [[dk|er|] w1]; [|by subst..]. by apply Hrest.
  - pose proof (derive_coherent true w Hco) as Hd. cbn [derive] in Hd.
    destruct (deriveChange _ w) as [[dk|er|] w1]; [|by subst..]. by apply Hrest.
Qed.

Lemma address_coherent :
  steps keeps_coherent (GetNewAddress faults) ∧ steps keeps_coherent (GetChangeAddress faults) ∧
  steps keeps_coherent (GetCurrentChangeAddress faults).
Proof.
  destruct next_key_coherent as [? ?].
  unfold GetNewAddress, GetCurrentChangeAddress, GetChangeAddress. split_and!; coherent_auto.
Qed.

Lemma ImportPrivKey_coherent k : steps keeps_coherent (ImportPrivKey k).
Proof.
  intros w Hco. destruct (ImportPrivKey_add k w) as [->|(dk & _ & Hi & ->)]; [done|]. simpl.
  assert (Hd : derived_external (add_key false dk w) = derived_external w)
    by (rewrite derived_external_add, decide_True by done; apply app_nil_r).
  destruct Hco as [[Hs1 Hs2 Hs3 Hs4 Hs5]|(a & e & c & [Ho1 Ho2 Ho3 Ho4 Ho5 Ho6])].
  - left. split; rewrite ?Hd; done.
  - right. exists a, e, c. split; rewrite ?Hd; done.
Qed.

Lemma wipe_coherent w : w_encrypted w = true → coherent w → coherent (wipe w).
Proof.
  intros He [[Hs1 Hs2 Hs3 Hs4 Hs5]|(a & e & c & [Ho1 Ho2 Ho3 Ho4 Ho5 Ho6])].
  - left. split; try done. simpl. by rewrite Hs3.
  - right. exists a, e, c. split; try done; [|by right].
    simpl. intros Hn. apply Ho5. apply nil_length_inv. apply (f_equal length) in Hn.
    by rewrite length_replicate in Hn.
Qed.

Lemma lock_coherent : steps keeps_coherent (IsLocked clock) ∧ steps keeps_coherent WalletLock.
Proof.
  split; intros w Hco.
  - unfold IsLocked. rewrite proc_bind_eq. cbn [gets id].
    destruct (w_encrypted w) eqn:He; [|done]. simpl. destruct (w_locked w); [done|].
    destruct (_ =? 0); [done|]. rewrite proc_bind_eq. unfold time_Now. rewrite proc_bind_eq.
    cbn [next_call]. pose proof (next_call_coherent w Hco) as Hn. simpl in Hn.
    unfold next_call. simpl. destruct (_ <? _); [|done]. simpl. by apply wipe_coherent.
  - unfold WalletLock. rewrite proc_bind_eq. cbn [gets]. destruct (w_encrypted w) eqn:He; [|done].
    simpl. by apply wipe_coherent.
Qed.

Lemma use_coherent :
  steps keeps_coherent (RequireUnlocked clock) ∧ steps keeps_coherent (Mnemonic clock) ∧
  (∀ a, steps keeps_coherent (DumpPrivKey clock a)) ∧
  (∀ tx f, steps keeps_coherent (SignRawTransaction clock tx f)) ∧
  (∀ sorted req f us m tip, steps keeps_coherent (BuildTransaction faults clock sorted req f us m tip)).
Proof.
  destruct lock_coherent as [? _]. destruct address_coherent as (_ & ? & _).
  assert (steps keeps_coherent (RequireUnlocked clock)) by (unfold RequireUnlocked; coherent_auto).
  unfold Mnemonic, DumpPrivKey, SignRawTransaction, BuildTransaction, make_outputs.
  split_and!; intros; coherent_auto.
Qed.

Lemma EncryptWallet_coherent p : steps keeps_coherent (EncryptWallet faults random p).
Proof.
  destruct save_coherent as [_ ?]. destruct os_coherent as (_ & _ & _ & ? & _).
  unfold EncryptWallet, seal. coherent_auto.
Qed.

(** ** Opening a wallet *)

(** Calls of the system change nothing else. *)
Definition host_only w w' : Prop := ∃ h, w' = set_host h w.
#[local] Instance host_only_preorder : PreOrder host_only.
Proof.
  split; [intros w; by exists (w_host w); destruct w|].
  intros x y z [h ->] [h' ->]. by exists h'.
Qed.
Lemma host_next_call : steps host_only next_call.
Proof. intros w. by eexists. Qed.
Hint Resolve host_next_call : steps.
Lemma host_ReadFile : steps host_only (os_ReadFile faults).
Proof. unfold os_ReadFile. steps_walk. Qed.
Lemma host_rand_Read n : steps host_only (rand_Read faults random n).
Proof. unfold rand_Read. steps_walk. Qed.

Lemma account_seed seed r : account_chains seed = Some r → seed ≠ [].
Proof.
  unfold account_chains. destruct (hd_NewMaster seed) as [|k] eqn:Hm; [done|]. intros _.
  by eapply master_seed.
Qed.

Lemma children_derived k isChange i dks : chain_children k isChange i dks → Forall (λ dk, ¬ imported dk) dks.
Proof.
  revert i. induction dks as [|dk dks IH]; intros i Hc; constructor; apply chain_children_cons in Hc as [Hc Hr].
  - by apply child_derived in Hc as [? _].
  - by eapply IH.
Qed.

Lemma filter_derived dks : Forall (λ dk, ¬ imported dk) dks → filter (λ dk, ¬ imported dk) dks = dks.
Proof. induction 1 as [|dk dks Hd _ IH]; [done|]. rewrite filter_cons_True by done. by rewrite IH. Qed.

(** The wallet that a successful load leaves. *)
Lemma load_result m hexSeed w w' :
  derived_external w = [] → w_changeKeys w = [] →
  is_u32 (w_nextExternalIdx w) → is_u32 (w_nextChangeIdx w) →
  loadSeedAndDerive m hexSeed w = (Ok (), w') →
  ∃ a e c, opened a e c w' ∧ hex_DecodeString hexSeed = Ok (w_seed w') ∧ w_mnemonic w' = m ∧
    account_chains (w_seed w') = Some (a, e, c) ∧ w_encrypted w' = w_encrypted w.
Proof.
  intros Hd Hc Hu1 Hu2 Hr.
  apply loadSeedAndDerive_Ok in Hr
    as (seed & a & e & c & ext & chg & Hhex & Hacc & Hch1 & Hl1 & Hch2 & Hl2 & ->); [|done..].
  set (w1 := set_chains (Some a) (Some e) (Some c) (set_secret m seed w)).
  destruct (add_keys_fields false w1 ext)
    as (F1 & F2 & F3 & F4 & F5 & F6 & _ & F8 & F9 & F10 & _).
  destruct (add_keys_fields true (add_keys false w1 ext) chg)
    as (G1 & G2 & G3 & G4 & G5 & G6 & _ & G8 & G9 & G10 & _).
  set (w2 := add_keys true (add_keys false w1 ext) chg) in *.
  assert (Hseed : w_seed w2 = seed) by (rewrite G6, F6; done).
  assert (Hde : derived_external w2 = ext).
  { unfold derived_external. rewrite G1, F1, filter_app.
    change (filter _ (w_externalKeys w1)) with (derived_external w). rewrite Hd. simpl.
    apply filter_derived. by eapply children_derived. }
  assert (Hdc : w_changeKeys w2 = chg) by (rewrite G2, F2; simpl; by rewrite Hc).
  exists a, e, c. rewrite Hseed. split_and!; [|done|by rewrite G5, F5|done|by rewrite G10, F10].
  split; rewrite ?Hde, ?Hdc, ?Hseed; try done.
  - by rewrite G3, F3, G4, F4.
  - rewrite G8, F8, G9, F9, Hl1, Hl2, !u32_id by done. done.
  - by eapply account_seed.
  - by left.
Qed.

Lemma loadFromJSON_coherent data w w' :
  derived_external w = [] → w_changeKeys w = [] → w_externalKey w = None → w_changeKey w = None →
  w_seed w = [] → loadFromJSON data w = (Ok (), w') → coherent w'.
Proof.
  intros Hd Hc He Hk Hs Hr. unfold loadFromJSON in Hr. run_inv.
  match goal with H : wrap _ (lib (json_Unmarshal data)) = Ok ?x |- _ =>
    apply wrap_Ok in H; destruct (json_Unmarshal data) as [|wd] eqn:Hj; [done|];
    cbn [lib] in H; injection H as <- end.
  apply json_range in Hj as [Hu1 Hu2].
  destruct (wd_Encrypted wd).
  - run_inv. destruct (negb _ && negb _).
    + right. apply load_result in Hr as (ka & e & c & Ho & _); [by exists ka, e, c|done..].
    + run_inv. left. by split.
  - right. apply load_result in Hr as (ka & e & c & Ho & _); [by exists ka, e, c|done..].
Qed.

Lemma host_new_mnemonic m :
  steps host_only
    (if bool_decide (m = []) then
       entropy ← pwrap "generate entropy" (rand_Read faults random 32);
       pure (wrap "generate mnemonic" (lib (bip39_NewMnemonic entropy)))
     else mret m).
Proof. pose proof host_rand_Read. steps_walk. Qed.

Lemma createNew_coherent m h v w' :
  ∀ h0, createNew faults random m (set_host h0 (empty_wallet h v)) = (Ok (), w') → coherent w'.
Proof.
  intros h0 Hr. unfold createNew in Hr. run_inv.
  match goal with H : _ (set_host h0 ?x) = (_, ?y) |- _ =>
    pose proof (host_new_mnemonic m (set_host h0 x)) as Hh; rewrite H in Hh end.
  cbn [snd] in Hh. destruct Hh as [h1 ->]. run_inv.
  match goal with H : deriveAccountKeys _ = (Ok ?u, _) |- _ => destruct u;
    apply deriveAccountKeys_Ok in H as (ka & e & c & Hacc & ->) end.
  match goal with H : DeriveNextExternal _ ?x = (_, ?y) |- _ =>
    assert (Hco : coherent x); [|apply (proj1 next_key_coherent) in Hco; rewrite H in Hco] end.
  { right. exists ka, e, c. split; try done; [by eapply account_seed|by left]. }
  cbn [snd] in Hco. apply (proj1 save_coherent) in Hco. by rewrite Hr in Hco.
Qed.

Lemma NewHDWallet_coherent h v w :
  NewHDWallet faults random h v = (Ok (), w) → coherent w.
Proof.
  unfold NewHDWallet. pose proof (host_ReadFile (empty_wallet h v)) as Hh.
  destruct (os_ReadFile faults (empty_wallet h v)) as [r w0]. simpl in Hh. destruct Hh as [h0 ->].
  destruct r as [[|b d]| |].
  - apply createNew_coherent.
  - by apply loadFromJSON_coherent.
  - apply createNew_coherent.
  - apply createNew_coherent.
Qed.

(** The state in which the keys are there, and the rest of [WalletPassphrase]. *)
Lemma derived_coherent m hexSeed w u w' :
  coherent w →
  (if bool_decide (w_seed w = []) then pwrap "derive keys" (loadSeedAndDerive m hexSeed) else mret ()) w
    = (Ok u, w') → coherent w'.
Proof.
  intros Hco Hr. case_bool_decide as Hseed; [|by run_inv].
  apply run_pwrap_Ok in Hr. destruct u.
  destruct Hco as [[Hs1 Hs2 Hs3 [Hd Hc] [Hu1 Hu2]]|(a & e & c & Ho)]; [|by destruct (op_seed _ _ _ _ Ho)].
  right. apply load_result in Hr as (a & e & c & Ho & _); [by exists a, e, c|done..].
Qed.

(** Deriving keys does not touch the seed. *)
Definition same_seed w w' : Prop := w_seed w' = w_seed w.
#[local] Instance same_seed_preorder : PreOrder same_seed.
Proof. split; unfold same_seed; [done|]. intros x y z -> ->. done. Qed.
Ltac seed_auto := steps_walk; try (intros ?; done).

Lemma rederive_seed d msg n i : (∀ i, steps same_seed (d i)) → steps same_seed (rederive d msg n i).
Proof. intros Hd. revert i. induction n as [|n IH]; intros i; cbn [rederive]; seed_auto. Qed.
Lemma derived_seed :
  steps same_seed deriveAccountKeys ∧ (∀ i, steps same_seed (deriveExternal i)) ∧
  (∀ i, steps same_seed (deriveChange i)).
Proof. unfold deriveAccountKeys, deriveExternal, deriveChange, registerKey. split_and!; intros; seed_auto. Qed.

(** A derivation that fails without having changed the seed. *)
Lemma load_failed m hexSeed w r w' :
  sealed w → loadSeedAndDerive m hexSeed w = (r, w') → r ≠ Ok () → w_seed w' = w_seed w → sealed w'.
Proof.
  intros Hse Hr Hno Hseed. unfold loadSeedAndDerive in Hr. rewrite proc_bind_eq in Hr. cbn [pure] in Hr.
  destruct (hex_DecodeString hexSeed) as [seed|e|]; cbn [wrap] in Hr; [|by injection Hr as <- <-..].
  rewrite proc_bind_eq in Hr. cbn [modify] in Hr.
  destruct (decide (seed = [])) as [->|Hne].
  - rewrite proc_bind_eq in Hr. unfold deriveAccountKeys in Hr at 1. rewrite proc_bind_eq in Hr. cbn [gets] in Hr.
    destruct (hd_NewMaster _) as [e|k] eqn:Hm; [|by apply master_seed in Hm].
    injection Hr as <- <-. destruct Hse. by split.
  - destruct derived_seed as (Ha & He & Hc).
    match type of Hr with ?f ?x = _ =>
      assert (Hs : steps same_seed f) by (seed_auto; by apply rederive_seed);
      specialize (Hs x); rewrite Hr in Hs end.
    unfold same_seed in Hs. cbn in Hs. rewrite Hs, (se_seed _ Hse) in Hseed. done.
Qed.

(** [WalletPassphrase], whether it succeeds or fails. *)
Lemma WalletPassphrase_coherent p t w r w' :
  coherent w → WalletPassphrase faults clock p t w = (r, w') → r = Ok () ∨ w_seed w' = w_seed w → coherent w'.
Proof.
  intros Hco Hr Hend. destruct os_coherent as (Hread & _ & _ & _ & Hnow).
  unfold WalletPassphrase in Hr. rewrite proc_bind_eq in Hr. cbn [gets] in Hr.
  rewrite proc_bind_eq in Hr. destruct (w_encrypted w); cbn [negb fail_if pure] in Hr; [|by injection Hr as <- <-].
  rewrite proc_bind_eq in Hr. unfold pwrap at 1 in Hr.
  pose proof (Hread w Hco) as Hco1. pose proof (host_ReadFile w) as [h1 Hh].
  destruct (os_ReadFile faults w) as [rd w1]. cbn [snd] in Hco1, Hh.
  destruct rd as [data|e|]; cbn [wrap] in Hr; [|by injection Hr as <- <-..].
  rewrite proc_bind_eq in Hr. cbn [pure] in Hr.
  destruct (wrap _ (lib (json_Unmarshal data))) as [wd|e|]; [|by injection Hr as <- <-..].
  rewrite proc_bind_eq in Hr. cbn [pure] in Hr.
  destruct (decrypt_secret wd p) as [[[m hexSeed] aesKey]|e|]; [|by injection Hr as <- <-..].
  rewrite proc_bind_eq in Hr. cbn [gets] in Hr. rewrite proc_bind_eq in Hr.
  set (load := if bool_decide _ then _ else _) in Hr. destruct (load w1) as [rl w2] eqn:Hl. unfold load in Hl.
  assert (Hfail : rl ≠ Ok () → w_seed w2 = w_seed w1 → coherent w2).
  { intros Hno Hs. case_bool_decide as Hseed; [|by injection Hl as <- <-].
    destruct Hco1 as [Hse|(a & e & c & Ho)]; [|by destruct (op_seed _ _ _ _ Ho)]. left.
    unfold pwrap in Hl. destruct (loadSeedAndDerive m hexSeed w1) as [r0 w0] eqn:H0. injection Hl as <- <-.
    eapply load_failed; [done|done| |done]. intros ->. by apply Hno. }
  assert (Hsame : w_seed w1 = w_seed w) by (by rewrite Hh).
  destruct rl as [u|e|]; [|injection Hr as <- <-; destruct Hend as [?|Hs]; [done|apply Hfail; congruence]..].
  apply derived_coherent in Hl; [|done].
  match type of Hr with ?f ?x = _ =>
    assert (Ht : steps keeps_coherent f) by coherent_auto;
    pose proof (Ht x Hl) as Hx; by rewrite Hr in Hx end.
Qed.

(** Wallets that were opened successfully and operated on, whatever calls fail.
    One case ends a run: a call of [WalletPassphrase] that fails after the
    decrypted seed was stored, because BIP32 then refuses to derive a key of it;
    such a wallet has a seed and only some of its keys. *)
Inductive wallet_live : HDWallet → Prop :=
| live_open h v w : NewHDWallet faults random h v = (Ok (), w) → wallet_live w
| live_restore h v m w : NewHDWalletFromMnemonic faults random h v m = (Ok (), w) → wallet_live w
| live_run w ev r w' : wallet_live w → wallet_run faults clock random ev w = (r, w') →
    r = Ok () ∨ w_seed w' = w_seed w ∨ (∀ p t, ev ≠ EvWalletPassphrase p t) → wallet_live w'.

Lemma run_coherent ev :
  (∀ p t, ev ≠ EvWalletPassphrase p t) → steps keeps_coherent (wallet_run faults clock random ev).
Proof.
  destruct address_coherent as (? & ? & ?). destruct lock_coherent as [? ?].
  destruct use_coherent as (? & ? & ? & ? & ?).
  pose proof ImportPrivKey_coherent. pose proof EncryptWallet_coherent.
  intros Hev. destruct ev; try (by edestruct Hev); cbn [wallet_run]; unfold forget; coherent_auto.
Qed.

Lemma live_coherent w : wallet_live w → coherent w.
Proof.
  induction 1 as [h v w Hw|h v m w Hw|w ev r w' _ IH Hr Hev].
  - by eapply NewHDWallet_coherent.
  - by apply (createNew_coherent m h v w h).
  - assert (Hcases : (∃ p t, ev = EvWalletPassphrase p t) ∨ ∀ p t, ev ≠ EvWalletPassphrase p t)
      by (destruct ev; eauto).
    destruct Hcases as [(p & t & ->)|Hne].
    + destruct Hev as [Hev|[Hev|Hev]]; [..|by edestruct Hev]; eapply WalletPassphrase_coherent; eauto.
    + pose proof (run_coherent ev Hne w IH) as Hs. by rewrite Hr in Hs.
Qed.

Lemma live_reachable w : wallet_live w → wallet_reachable faults clock random w.
Proof.
  induction 1 as [h v w Hw|h v m w Hw|w ev r w' _ IH Hr _].
  - by eapply reach_open.
  - by eapply reach_restore.
  - replace w' with (wallet_run faults clock random ev w).2 by (by rewrite Hr). by apply reach_run.
Qed.

(** C16: The invariant of the wallet: in every wallet that was opened and operated
    on, whatever reads, writes and other calls fail and whatever passphrases are
    tried, both indices hold exactly the same keys, each under the hash and the
    address of its own public key, every key of the wallet is in them, and the
    keys are the children 0, 1, ... of the two chains of the seed, as many as the
    next indices say, besides imported ones; or the wallet is encrypted and has
    not derived any key yet.  The only states left out are those after a
    [WalletPassphrase] that has stored the decrypted seed and then fails because
    BIP32 refuses to derive a key of it. *)
Theorem wallet_invariant w : wallet_live w → keys_ok w ∧ coherent w.
Proof.
  intros Hl. split; [by apply (reachable_keys_ok faults clock random), live_reachable|by apply live_coherent].
Qed.

(** ** Opening the file again *)

Lemma hex_ascii bs : ascii (hex_EncodeToString bs).
Proof.
  induction bs as [|b bs IH]; [constructor|]. cbn [hex_EncodeToString].
  assert (Hd : ∀ n, 0 ≤ n < 16 → byte_to_Z (hex_digit n) < 128).
  { intros n Hn. unfold hex_digit. destruct (n <? 10) eqn:E; rewrite byte_to_Z_to_byte; unfold u8;
      apply Z.ltb_lt in E || apply Z.ltb_ge in E; rewrite Z.mod_small; lia. }
  pose proof (byte_to_Z_range b). constructor; [apply Hd; split; [apply Z.div_pos; lia|apply Z.div_lt_upper_bound; lia]|].
  constructor; [apply Hd, Z.mod_pos_bound; lia|exact IH].
Qed.

Lemma load_recovers m seed a e c ext chg w :
  account_chains seed = Some (a, e, c) → chain_children e false 0 ext → chain_children c true 0 chg →
  w_nextExternalIdx w = len ext → w_nextChangeIdx w = len chg → len ext < 2 ^ 32 → len chg < 2 ^ 32 →
  ∃ w2, loadSeedAndDerive m (hex_EncodeToString seed) w = (Ok (), w2) ∧
    w_mnemonic w2 = m ∧ w_seed w2 = seed ∧
    w_externalKeys w2 = w_externalKeys w ++ ext ∧ w_changeKeys w2 = w_changeKeys w ++ chg ∧
    w_encrypted w2 = w_encrypted w ∧ w_locked w2 = w_locked w ∧
    w_nextExternalIdx w2 = w_nextExternalIdx w ∧ w_nextChangeIdx w2 = w_nextChangeIdx w.
Proof.
  intros Hacc He Hc Hn1 Hn2 Hl1 Hl2.
  set (w1 := set_chains (Some a) (Some e) (Some c) (set_secret m seed w)).
  exists (add_keys true (add_keys false w1 ext) chg). split.
  { apply loadSeedAndDerive_Ok; [unfold is_u32; lia..|].
    exists seed, a, e, c, ext, chg. split_and!; try done. apply hex_decode_encode. }
  destruct (add_keys_fields false w1 ext) as (F1 & F2 & _ & _ & F5 & F6 & _ & F8 & F9 & F10 & F11 & _).
  destruct (add_keys_fields true (add_keys false w1 ext) chg)
    as (G1 & G2 & _ & _ & G5 & G6 & _ & G8 & G9 & G10 & G11 & _).
  rewrite G1, F1, G2, F2, G5, F5, G6, F6, G8, F8, G9, F9, G10, F10, G11, F11. done.
Qed.

Lemma write_file data w u w' :
  os_WriteFile faults data w = (Ok u, w') → ∃ n, w' = set_host (mkHost (Some data) n) w.
Proof.
  unfold os_WriteFile. rewrite proc_bind_eq. cbn [next_call].
  destruct (faults _); cbn [modify throw]; intros Hw; [|done|done].
  apply (f_equal snd) in Hw. cbn [snd] in Hw. rewrite <- Hw. by eexists.
Qed.

Lemma mkdir_host w u w' : os_MkdirAll faults w = (Ok u, w') → host_only w w'.
Proof.
  assert (Hs : steps host_only (os_MkdirAll faults)) by (unfold os_MkdirAll; steps_walk).
  intros Hr. specialize (Hs w). by rewrite Hr in Hs.
Qed.

Lemma save_file w w' :
  w_encrypted w = false → save faults w = (Ok (), w') →
  ∃ data n, json_MarshalIndent (plain_data w) = inr data ∧ w' = set_host (mkHost (Some data) n) w.
Proof.
  intros He Hr. unfold save in Hr. rewrite proc_bind_eq in Hr. cbn [gets] in Hr. rewrite He in Hr.
  run_inv. match goal with H : wrap _ (lib (json_MarshalIndent ?x)) = Ok _ |- _ =>
    apply wrap_Ok in H; destruct (json_MarshalIndent x) as [|data] eqn:Hj; [done|];
    cbn [lib] in H; injection H as <- end.
  match goal with H : os_MkdirAll _ _ = _ |- _ => apply mkdir_host in H as [h ->] end.
  apply write_file in Hr as [n ->]. by exists data, n.
Qed.

Lemma read_file h w data :
  ho_file h = Some data → faults (ho_calls h) = IoOk →
  os_ReadFile faults (set_host h w) = (Ok data, set_host (mkHost (Some data) (S (ho_calls h))) w).
Proof.
  intros Hf Hc. unfold os_ReadFile. rewrite proc_bind_eq. cbn [next_call].
  simpl. rewrite Hc, proc_bind_eq. cbn [gets]. simpl. by rewrite Hf.
Qed.

Lemma plain_data_ascii w :
  ascii (w_mnemonic w) → is_u32 (w_nextExternalIdx w) → is_u32 (w_nextChangeIdx w) →
  wd_plain (plain_data w).
Proof.
  intros Ha H1 H2. unfold wd_plain, plain_data. simpl. split_and!; try done; try apply H1; try apply H2.
  repeat constructor; try done. apply hex_ascii.
Qed.

(** C18: The wallet file keeps the keys: for a wallet that was opened, is not
    encrypted and has fewer than 2^32 keys in each chain, after a successful
    [save] a readable file is opened again by [NewHDWallet] with the same secret,
    the same indices and the same derived keys, in the same order; the imported
    keys are not in it. *)
Theorem restart_recovers_keys w w' v :
  wallet_live w → w_encrypted w = false → ascii (w_mnemonic w) →
  len (derived_external w) < 2 ^ 32 → len (w_changeKeys w) < 2 ^ 32 →
  save faults w = (Ok (), w') → faults (ho_calls (w_host w')) = IoOk →
  ∃ w2, NewHDWallet faults random (w_host w') v = (Ok (), w2) ∧
    w_mnemonic w2 = w_mnemonic w ∧ w_seed w2 = w_seed w ∧
    w_nextExternalIdx w2 = w_nextExternalIdx w ∧ w_nextChangeIdx w2 = w_nextChangeIdx w ∧
    w_externalKeys w2 = derived_external w ∧ w_changeKeys w2 = w_changeKeys w.
Proof.
  intros Hlive Henc Hasc Hl1 Hl2 Hsave Hio.
  apply live_coherent in Hlive as [Hs|(a & e & c & [_ Hoe Hoc [Hn1 Hn2] _ [Hacc|[? _]]])];
    [by destruct Hs; congruence| |congruence].
  rewrite u32_id in Hn1, Hn2 by (unfold is_u32; lia).
  apply save_file in Hsave as (data & n & Hj & ->); [|done]. cbn [w_host set_host ho_calls] in Hio.
  destruct (json_roundtrip (plain_data w)) as (data' & Hj' & Hne & Hu).
  { apply plain_data_ascii; [done|rewrite Hn1|rewrite Hn2]; unfold is_u32; lia. }
  rewrite Hj in Hj'. injection Hj' as <-.
  unfold NewHDWallet. cbn [w_host set_host].
  change (empty_wallet (mkHost (Some data) n) v) with
    (set_host (mkHost (Some data) n) (empty_wallet (mkHost None 0) v)).
  rewrite (read_file _ _ data) by done. destruct data as [|b data]; [done|].
  unfold loadFromJSON. rewrite proc_bind_eq, Hu. cbn [lib wrap pure]. rewrite proc_bind_eq.
  cbn [modify plain_data wd_Encrypted wd_Mnemonic wd_Seed].
  match goal with |- context [loadSeedAndDerive _ _ ?x] =>
    destruct (load_recovers (w_mnemonic w) (w_seed w) a e c (derived_external w) (w_changeKeys w) x)
      as (w2 & Hr & Hm & Hsd & Hx1 & Hx2 & _ & _ & Hx3 & Hx4); [done..|] end.
  exists w2. rewrite Hx3, Hx4. split_and!; [exact Hr|done..].
Qed.

(** ** Encryption *)

Definition one_line (s : list byte) : Prop := ascii s ∧ newline ∉ s.

Lemma split_loop_line part rest parts cur :
  one_line part →
  split_loop (length (part ++ rest)) (part ++ rest) parts cur
  = split_loop (length rest) rest parts (cur ++ part).
Proof.
  intros [Ha Hn]. revert cur. induction Ha as [|c part Hc _ IH]; intros cur; simpl; [by rewrite app_nil_r|].
  assert (Hr : next_rune (c :: part ++ rest) = ([c], part ++ rest)).
  { unfold next_rune, rune_size. cbn [lookup list_lookup in_range].
    pose proof (byte_to_Z_range c). rewrite (proj2 (Z.leb_le 0 _)), (proj2 (Z.leb_le _ 127)) by lia. done. }
  rewrite Hr, bool_decide_false by (intros [= ->]; set_solver).
  rewrite IH by set_solver. by rewrite <- app_assoc.
Qed.

Lemma split_two m x :
  one_line m → one_line x → x ≠ [] → splitOnNewline (m ++ [newline] ++ x) = [m; x].
Proof.
  intros Hm Hx Hne. unfold splitOnNewline. rewrite split_loop_line by done. rewrite app_nil_l.
  change (split_loop (length ([newline] ++ x)) ([newline] ++ x) [] m)
    with (split_loop (length x) x ([] ++ [m]) []).
  rewrite <- (app_nil_r x) at 1 2. rewrite split_loop_line by done. rewrite app_nil_l. simpl.
  by rewrite bool_decide_false.
Qed.

Lemma hex_one_line bs : one_line (hex_EncodeToString bs).
Proof.
  split; [apply hex_ascii|]. induction bs as [|b bs IH]; simpl; [set_solver|].
  assert (Hd : ∀ n, 0 ≤ n < 16 → hex_digit n ≠ newline).
  { intros n Hn Heq. apply (f_equal hex_value) in Heq. by rewrite hex_value_digit in Heq. }
  pose proof (byte_to_Z_range b).
  rewrite !not_elem_of_cons. split_and!; [| |done].
  - apply not_eq_sym, Hd. split; [apply Z.div_pos; lia|apply Z.div_lt_upper_bound; lia].
  - apply not_eq_sym, Hd. apply Z.mod_pos_bound; lia.
Qed.

Lemma rand_Ok n w r w' : rand_Read faults random n w = (Ok r, w') → length r = n ∧ host_only w w'.
Proof.
  intros Hr. pose proof (host_rand_Read n w) as Hh. rewrite Hr in Hh. split; [|done].
  unfold rand_Read in Hr. run_inv. destruct (faults a); [|by run_inv..]. run_inv. apply length_resize.
Qed.

(** What a successful [EncryptWallet] leaves. *)
Lemma EncryptWallet_Ok p w w' :
  EncryptWallet faults random p w = (Ok (), w') →
  ∃ salt iv aesKey ct data n, w_encrypted w = false ∧
    scrypt_Key p salt scryptN scryptR scryptP keyLen = inr aesKey ∧ length iv = BlockSize ∧
    aesEncrypt aesKey (secret_text w) iv = Ok ct ∧
    json_MarshalIndent (encrypted_data ct salt iv w) = inr data ∧
    w_host w' = mkHost (Some data) n ∧ w_encrypted w' = true ∧ w_locked w' = true.
Proof.
  intros Hr. unfold EncryptWallet, seal, saveEncrypted in Hr. run_inv. res_inv.
  match goal with H : rand_Read _ _ saltLen _ = _ |- _ => apply rand_Ok in H as [_ [h1 ->]] end.
  match goal with H : rand_Read _ _ BlockSize _ = _ |- _ => apply rand_Ok in H as [Hiv [h2 ->]] end.
  match goal with H : lib (scrypt_Key _ ?salt _ _ _ _) = Ok _ |- _ =>
    destruct (scrypt_Key p salt scryptN scryptR scryptP keyLen) as [|aesKey] eqn:Hk; [done|];
    cbn [lib] in H; injection H as <- end.
  match goal with H : lib (json_MarshalIndent ?x) = Ok _ |- _ =>
    destruct (json_MarshalIndent x) as [|data] eqn:Hj; [done|]; cbn [lib] in H; injection H as <- end.
  match goal with H : os_MkdirAll _ _ = _ |- _ => apply mkdir_host in H as [h3 ->] end.
  apply write_file in Hr as [n ->].
  eexists _, _, _, _, data, n. split_and!; try done.
Qed.

Lemma encrypted_data_ascii ct salt iv w :
  is_u32 (w_nextExternalIdx w) → is_u32 (w_nextChangeIdx w) → wd_plain (encrypted_data ct salt iv w).
Proof.
  intros H1 H2. unfold wd_plain, encrypted_data. simpl. split_and!; try done; try apply H1; try apply H2.
  repeat constructor; try done; apply hex_ascii.
Qed.

(** Decryption with the passphrase of the encryption. *)
Lemma decrypt_secret_correct p salt iv aesKey ct w :
  one_line (w_mnemonic w) → bip39_IsMnemonicValid (w_mnemonic w) = true → w_seed w ≠ [] →
  scrypt_Key p salt scryptN scryptR scryptP keyLen = inr aesKey → length iv = BlockSize →
  aesEncrypt aesKey (secret_text w) iv = Ok ct →
  decrypt_secret (encrypted_data ct salt iv w) p
    = Ok (w_mnemonic w, hex_EncodeToString (w_seed w), aesKey).
Proof.
  intros Hm Hv Hs Hk Hiv Hct. unfold decrypt_secret, encrypted_data. simpl.
  rewrite !hex_decode_encode. cbn [wrap mbind res_bind]. rewrite Hk. cbn [lib wrap mbind res_bind].
  destruct (aes_roundtrip aesKey iv (secret_text w)) as (ct' & Hct' & _ & Hdec); [|done|].
  { destruct (scrypt_wallet p salt) as (k & Hk' & Hl). rewrite Hk in Hk'. injection Hk' as <-.
    rewrite Hl. set_solver. }
  rewrite Hct in Hct'. injection Hct' as <-. rewrite Hdec. cbn [mbind res_bind].
  unfold secret_text. rewrite split_two; [|done|apply hex_one_line|].
  - by rewrite Hv.
  - intros Hx. apply Hs. by destruct (w_seed w).
Qed.

(** The file of an encrypted wallet opens as a locked wallet without keys. *)
Lemma open_encrypted data n v ct salt iv w :
  faults n = IoOk → data ≠ [] → json_Unmarshal data = inr (encrypted_data ct salt iv w) →
  NewHDWallet faults random (mkHost (Some data) n) v =
  (Ok (), set_host (mkHost (Some data) (S n)) (set_lock true true 0 []
     (set_next (w_nextExternalIdx w) (w_nextChangeIdx w) (empty_wallet (mkHost None 0) v)))).
Proof.
  intros Hio Hne Hu. unfold NewHDWallet.
  change (empty_wallet (mkHost (Some data) n) v)
    with (set_host (mkHost (Some data) n) (empty_wallet (mkHost None 0) v)).
  rewrite (read_file _ _ data) by done. destruct data as [|b data]; [done|].
  unfold loadFromJSON. rewrite proc_bind_eq, Hu. reflexivity.
Qed.

(** Unlocking a wallet that has no seed loads what the passphrase decrypts. *)
Lemma passphrase_loads data n passphrase timeout wd m hexSeed aesKey wl w2 :
  faults n = IoOk → json_Unmarshal data = inr wd → decrypt_secret wd passphrase = Ok (m, hexSeed, aesKey) →
  w_encrypted wl = true → w_seed wl = [] →
  loadSeedAndDerive m hexSeed (set_host (mkHost (Some data) (S n)) wl) = (Ok (), w2) →
  ∃ h u, WalletPassphrase faults clock passphrase timeout (set_host (mkHost (Some data) n) wl)
           = (Ok (), set_host h (set_lock (w_encrypted w2) false u aesKey w2)).
Proof.
  intros Hio Hu Hdec Henc Hseed Hload. unfold WalletPassphrase. rewrite proc_bind_eq. cbn [gets].
  rewrite proc_bind_eq. cbn [set_host w_encrypted pure]. rewrite Henc. cbn [negb fail_if]. rewrite proc_bind_eq.
  unfold pwrap at 1. fold (set_host (mkHost (Some data) n) wl). rewrite (read_file _ _ data) by done.
  cbn [wrap]. rewrite proc_bind_eq, Hu. cbn [lib wrap pure]. rewrite proc_bind_eq. unfold pure at 1.
  rewrite Hdec. rewrite proc_bind_eq. cbn [gets ho_calls set_host w_seed]. rewrite Hseed.
  rewrite bool_decide_true by done. rewrite proc_bind_eq. unfold pwrap at 1.
  fold (set_host (mkHost (Some data) (S n)) wl). rewrite Hload. cbn [wrap].
  rewrite proc_bind_eq. cbn [modify].
  destruct (0 <? timeout); [|exists (w_host w2), 0; reflexivity].
  rewrite proc_bind_eq. unfold time_Now. rewrite proc_bind_eq. cbn [next_call mret proc_ret modify].
  eexists _, (clock (ho_calls (w_host w2)) + i64 (timeout * 10 ^ 9)). reflexivity.
Qed.

(** C17: Encryption loses no key: for a wallet that was opened, with a valid
    mnemonic of one ASCII line and fewer than 2^32 keys in each chain, after a
    successful [EncryptWallet] the file, if it can be read, is opened by
    [NewHDWallet] as a locked wallet without keys, and [WalletPassphrase] with
    the same passphrase unlocks it, for any timeout, with the same secret and the
    same derived keys. *)
Theorem encryption_recovers_keys w passphrase w' v timeout :
  wallet_live w → one_line (w_mnemonic w) → bip39_IsMnemonicValid (w_mnemonic w) = true →
  len (derived_external w) < 2 ^ 32 → len (w_changeKeys w) < 2 ^ 32 →
  EncryptWallet faults random passphrase w = (Ok (), w') →
  faults (ho_calls (w_host w')) = IoOk → faults (S (ho_calls (w_host w'))) = IoOk →
  w_locked w' = true ∧
  ∃ w2 w3, NewHDWallet faults random (w_host w') v = (Ok (), w2) ∧
    w_locked w2 = true ∧ all_keys w2 = [] ∧ w_seed w2 = [] ∧
    WalletPassphrase faults clock passphrase timeout w2 = (Ok (), w3) ∧
    w_locked w3 = false ∧ w_mnemonic w3 = w_mnemonic w ∧ w_seed w3 = w_seed w ∧
    w_externalKeys w3 = derived_external w ∧ w_changeKeys w3 = w_changeKeys w.
Proof.
  intros Hlive Hone Hval Hl1 Hl2 Henc Hio1 Hio2.
  apply EncryptWallet_Ok in Henc
    as (salt & iv & aesKey & ct & data & n & Hne & Hk & Hiv & Hct & Hj & Hhost & _ & Hlock).
  split; [done|]. rewrite Hhost in *. cbn [ho_calls] in *.
  apply live_coherent in Hlive as [Hs|(a & e & c & [_ Hoe Hoc [Hn1 Hn2] Hseed [Hacc|[? _]]])];
    [by destruct Hs; congruence| |congruence].
  rewrite u32_id in Hn1, Hn2 by (unfold is_u32; lia).
  destruct (json_roundtrip (encrypted_data ct salt iv w)) as (data' & Hj' & Hdne & Hu).
  { apply encrypted_data_ascii; [rewrite Hn1|rewrite Hn2]; unfold is_u32; lia. }
  rewrite Hj in Hj'. injection Hj' as <-.
  rewrite (open_encrypted data n v ct salt iv w) by done.
  set (wl := set_lock true true 0 [] _).
  destruct (load_recovers (w_mnemonic w) (w_seed w) a e c (derived_external w) (w_changeKeys w)
    (set_host (mkHost (Some data) (S (S n))) wl)) as (w2 & Hr & Hm & Hsd & Hx1 & Hx2 & _); [done..|].
  destruct (passphrase_loads data (S n) passphrase timeout (encrypted_data ct salt iv w) (w_mnemonic w)
    (hex_EncodeToString (w_seed w)) aesKey wl w2) as (h & u & Hrun); try done.
  { by apply decrypt_secret_correct. }
  eexists _, _. split_and!; [done..|exact Hrun|done|done|done|done|done].
Qed.
End restart.

(** ** Witnesses *)

#[local] Existing Instance toy_lib.
#[local] Existing Instance toy_hd.
#[local] Existing Instance toy_hashlib.

Lemma cut_ff_app s r : ascii s → cut_ff (s ++ [xff] ++ r) = (s, r).
Proof.
  induction 1 as [|c s Hc _ IH]; [done|]. cbn [app cut_ff] in *. rewrite IH, bool_decide_false; [done|].
  intros ->. vm_compute in Hc. done.
Qed.

Lemma toy_unmarshal_marshal wd : wd_plain wd → toy_unmarshal (toy_marshal wd) = wd.
Proof.
  intros (Ha & H1 & H2 & H3 & H4 & H5). rewrite !Forall_cons in Ha. destruct Ha as (A1 & A2 & A3 & A4 & A5 & _).
  destruct wd as [m sd n1 n2 enc dat sa iv sn sr sp]. cbn [wd_Mnemonic wd_Seed wd_NextExternalIdx
    wd_NextChangeIdx wd_EncryptedData wd_Salt wd_IV wd_ScryptN wd_ScryptR wd_ScryptP] in *.
  unfold toy_unmarshal, toy_marshal. cbn [wd_Mnemonic wd_Seed wd_NextExternalIdx wd_NextChangeIdx
    wd_Encrypted wd_EncryptedData wd_Salt wd_IV wd_ScryptN wd_ScryptR wd_ScryptP].
  set (f := [if enc then x01 else x00]).
  set (rest := m ++ [xff] ++ sd ++ [xff] ++ dat ++ [xff] ++ sa ++ [xff] ++ iv ++ [xff]).
  set (a1 := le_encode 4 n1). set (a2 := le_encode 4 n2). set (a3 := le_encode 8 (sn + 2 ^ 63)).
  set (a4 := le_encode 8 (sr + 2 ^ 63)). set (a5 := le_encode 8 (sp + 2 ^ 63)).
  assert (L1 : length a1 = 4%nat) by apply le_encode_length.
  assert (L2 : length a2 = 4%nat) by apply le_encode_length.
  assert (L3 : length a3 = 8%nat) by apply le_encode_length.
  assert (L4 : length a4 = 8%nat) by apply le_encode_length.
  assert (L5 : length a5 = 8%nat) by apply le_encode_length.
  assert (Hdrop : drop 33 (a1 ++ a2 ++ a3 ++ a4 ++ a5 ++ f ++ rest) = rest).
  { rewrite !app_assoc, drop_app_length'; [done|]. rewrite !length_app. simpl. lia. }
  assert (Hflag : (a1 ++ a2 ++ a3 ++ a4 ++ a5 ++ f ++ rest) !! 32%nat = Some (if enc then x01 else x00)).
  { rewrite !lookup_app_r by lia. rewrite L1, L2, L3, L4, L5. reflexivity. }
  rewrite Hdrop, Hflag. unfold rest. change (iv ++ [xff]) with (iv ++ [xff] ++ []). rewrite (cut_ff_app m), (cut_ff_app sd), (cut_ff_app dat),
    (cut_ff_app sa), (cut_ff_app iv) by done.
  rewrite (slice_app_take 4) by done.
  rewrite (slice_app_skip 4 8 4), (slice_app_take (8 - 4)) by (done || lia).
  rewrite !(slice_app_skip _ _ 4 a1) by (done || lia). rewrite !(slice_app_skip _ _ 4 a2) by (done || lia).
  cbn [Nat.sub]. rewrite (slice_app_take 8) by done.
  rewrite !(slice_app_skip _ _ 8 a3) by (done || lia). cbn [Nat.sub]. rewrite (slice_app_take 8) by done.
  rewrite !(slice_app_skip _ _ 8 a4) by (done || lia). cbn [Nat.sub]. rewrite (slice_app_take 8) by done.
  unfold is_u32, is_i64, a1, a2, a3, a4, a5 in *.
  rewrite !le_decode_encode_id by (simpl; lia).
  replace (bool_decide (Some (if enc then x01 else x00) = Some x01)) with enc by (by destruct enc).
  f_equal; lia.
Qed.

Lemma toy_wallet_laws : WalletLaws toy_hd toy_hashlib.
Proof.
  split; cbn [json_MarshalIndent json_Unmarshal toy_hd hd_NewMaster].
  - intros wd Hwd. exists (toy_marshal wd). split_and!; [done| |by rewrite toy_unmarshal_marshal].
    unfold toy_marshal. intros Hn%(f_equal length). rewrite length_app, le_encode_length in Hn. done.
  - intros data wd [= <-]. unfold toy_unmarshal.
    assert (Hr : ∀ i, is_u32 (le_decode (slice i (i + 4) data))).
    { intros i. pose proof (le_decode_range (slice i (i + 4) data)) as Hd.
      pose proof (slice_le i (i + 4) data) as Hl.
      assert (256 ^ len (slice i (i + 4) data) ≤ 256 ^ 4) by (apply Z.pow_le_mono_r; lia).
      unfold is_u32. lia. }
    repeat case_match. simplify_eq/=. split; [apply (Hr 0%nat)|apply (Hr 4%nat)].
  - intros seed k. case_bool_decide; done.
  - intros pass salt. eexists. split; [reflexivity|]. rewrite length_take, Sum256_length. reflexivity.
Qed.

Lemma toy_wallet_live : wallet_live toy_faults toy_clock toy_random toy_wallet.
Proof. exact (live_open _ _ _ (mkHost None 0) x00 _ toy_wallet_opened). Qed.

Lemma wallet_invariant_witness : keys_ok toy_wallet ∧ coherent toy_wallet.
Proof.
  refine (wallet_invariant (LH := toy_hashlib) (WalletLaws0 := toy_wallet_laws)
            toy_faults toy_clock toy_random toy_wallet _).
  exact toy_wallet_live.
Defined.

Definition rw_saved : res () * HDWallet := save toy_faults toy_wallet.
Definition rw_sealed : res () * HDWallet := EncryptWallet toy_faults toy_random (str "correct horse") toy_wallet.

Lemma restart_recovers_keys_witness :
  ∃ w2, NewHDWallet toy_faults toy_random (w_host rw_saved.2) x00 = (Ok (), w2) ∧
    w_externalKeys w2 = derived_external toy_wallet.
Proof.
  assert (Hsave : save toy_faults toy_wallet = (Ok (), rw_saved.2)).
  { assert (Hok : rw_saved.1 = Ok ()) by (vm_compute; reflexivity).
    unfold rw_saved in *. revert Hok. generalize (save toy_faults toy_wallet). intros r. apply run_outcome. }
  destruct (restart_recovers_keys (WalletLaws0 := toy_wallet_laws) toy_faults toy_clock toy_random
    toy_wallet rw_saved.2 x00) as (w2 & Hopen & _ & _ & _ & _ & Hext & _).
  - exact toy_wallet_live.
  - vm_compute. reflexivity.
  - apply hex_ascii.
  - vm_compute. reflexivity.
  - vm_compute. reflexivity.
  - exact Hsave.
  - reflexivity.
  - exists w2. split; [exact Hopen|exact Hext].
Defined.

Lemma encryption_recovers_keys_witness :
  ∃ w2 w3, NewHDWallet toy_faults toy_random (w_host rw_sealed.2) x00 = (Ok (), w2) ∧
    WalletPassphrase toy_faults toy_clock (str "correct horse") 300 w2 = (Ok (), w3) ∧
    w_externalKeys w3 = derived_external toy_wallet.
Proof.
  assert (Hseal : EncryptWallet toy_faults toy_random (str "correct horse") toy_wallet
                  = (Ok (), rw_sealed.2)).
  { assert (Hok : rw_sealed.1 = Ok ()) by (vm_compute; reflexivity).
    unfold rw_sealed in *. revert Hok.
    generalize (EncryptWallet toy_faults toy_random (str "correct horse") toy_wallet).
    intros r. apply run_outcome. }
  destruct (encryption_recovers_keys (WalletLaws0 := toy_wallet_laws) toy_faults toy_clock toy_random
    toy_wallet (str "correct horse") rw_sealed.2 x00 300)
    as (_ & w2 & w3 & Hopen & _ & _ & _ & Hun & _ & _ & _ & Hext & _).
  - exact toy_wallet_live.
  - exact (hex_one_line (WalletLaws0 := toy_wallet_laws) (replicate 4 x12)).
  - vm_compute. reflexivity.
  - vm_compute. reflexivity.
  - vm_compute. reflexivity.
  - exact Hseal.
  - reflexivity.
  - reflexivity.
  - exists w2, w3. split; [exact Hopen|]. split; [exact Hun|exact Hext].
Defined.
