(* ===== verification/WalletSafety.v ===== *)
(** * Locking the wallet, and where its file is at risk

    A locked wallet dumps no key, signs nothing and builds no payment until
    [WalletPassphrase] decrypts the secret of the file; its lookups of keys are
    not protected.  The other theorems record what goes wrong:
    the mnemonic is lost when a wallet is locked and unlocked again, an encrypted
    wallet that was opened but not unlocked panics when it is asked for an
    address, and a file that cannot be read when the wallet is opened is replaced
    by a new wallet. *)
From S2P Require Import Prelude Types Sha256 Keys Script Base58 Algorithms BlockFiles Aes Wallet.
From S2P Require Import WalletTx WalletInv WalletRestart.

Section safety.
Context `{C : CryptoLib, L : !HDLib, LH : !HashLib}.
Context (faults : nat → io_fault) (clock : nat → Z) (random : nat → list byte).
Implicit Types w : HDWallet.

Definition locked w : Prop := w_encrypted w = true ∧ w_locked w = true.
Definition stays_locked w w' : Prop := locked w → locked w'.

#[local] Instance stays_locked_preorder : PreOrder stays_locked.
Proof. split; [intros w Hw; exact Hw|]. intros x y z Hxy Hyz Hx. auto. Qed.

Lemma locked_same (f : HDWallet → HDWallet) :
  (∀ w, (w_encrypted w = true → w_encrypted (f w) = true) ∧ (w_locked w = true → w_locked (f w) = true)) →
  steps stays_locked (modify f).
Proof. intros Hf w [H1 H2]. destruct (Hf w) as [F1 F2]. split; simpl; auto. Qed.

Ltac locked_auto := steps_walk; try (apply locked_same; done).

Lemma next_call_locked : steps stays_locked next_call.
Proof. intros w Hw. exact Hw. Qed.
Hint Resolve next_call_locked : steps.

Lemma os_locked :
  steps stays_locked (os_ReadFile faults) ∧ steps stays_locked (os_MkdirAll faults) ∧
  (∀ d, steps stays_locked (os_WriteFile faults d)) ∧
  (∀ n, steps stays_locked (rand_Read faults random n)) ∧ steps stays_locked (time_Now clock).
Proof.
  unfold os_ReadFile, os_MkdirAll, os_WriteFile, rand_Read, time_Now.
  split_and!; intros; locked_auto.
Qed.

Lemma keys_locked :
  (∀ i, steps stays_locked (deriveExternal i)) ∧ (∀ i, steps stays_locked (deriveChange i)) ∧
  steps stays_locked (save faults) ∧ (∀ ct sa iv, steps stays_locked (saveEncrypted faults ct sa iv)) ∧
  steps stays_locked deriveAccountKeys.
Proof.
  destruct os_locked as (? & ? & ? & _).
  unfold deriveExternal, deriveChange, registerKey, save, savePreservingEncryption, saveEncrypted,
    deriveAccountKeys.
  split_and!; intros; locked_auto.
Qed.

Lemma load_locked m s : steps stays_locked (loadSeedAndDerive m s).
Proof.
  destruct keys_locked as (? & ? & _ & _ & ?).
  assert (Hre : ∀ d msg n i, (∀ j, steps stays_locked (d j)) → steps stays_locked (rederive d msg n i)).
  { intros d msg n i Hd. revert i. induction n as [|n IH]; intros i; simpl; locked_auto. }
  unfold loadSeedAndDerive. locked_auto; by apply Hre.
Qed.

Lemma read_data w data w1 : os_ReadFile faults w = (Ok data, w1) → ho_file (w_host w) = Some data.
Proof.
  unfold os_ReadFile. rewrite proc_bind_eq. cbn [next_call].
  destruct (faults _); [|done..]. rewrite proc_bind_eq. cbn [gets]. simpl.
  destruct (ho_file (w_host w)); [|done]. by intros [= ->].
Qed.

Lemma passphrase_locked p t w r w' :
  locked w → WalletPassphrase faults clock p t w = (r, w') →
  locked w' ∨ ∃ data wd secret, r = Ok () ∧ ho_file (w_host w) = Some data ∧
    json_Unmarshal data = inr wd ∧ decrypt_secret wd p = Ok secret.
Proof.
  intros Hl. destruct os_locked as (Hread & _).
  unfold WalletPassphrase. rewrite proc_bind_eq. cbn [gets]. rewrite (proj1 Hl). cbn [negb fail_if].
  rewrite proc_bind_eq. cbn [pure]. rewrite proc_bind_eq. specialize (Hread w Hl).
  unfold pwrap at 1. destruct (os_ReadFile faults w) as [[data|e|] w1] eqn:Hr; cbn [wrap snd] in *;
    [|intros [= <- <-]; by left..].
  apply read_data in Hr. rewrite proc_bind_eq. unfold pure at 1.
  destruct (json_Unmarshal data) as [e|wd] eqn:Hj; cbn [lib wrap]; [intros [= <- <-]; by left|].
  rewrite proc_bind_eq. unfold pure at 1.
  destruct (decrypt_secret wd p) as [secret|e|] eqn:Hd; [|intros [= <- <-]; by left..].
  destruct secret as [[m hexSeed] aesKey]. rewrite proc_bind_eq. cbn [gets]. rewrite proc_bind_eq.
  assert (Hs : steps stays_locked (if bool_decide (w_seed w1 = [])
                 then pwrap "derive keys" (loadSeedAndDerive m hexSeed) else mret ())).
  { case_bool_decide; [apply steps_pwrap, load_locked|apply steps_ret, _]. }
  specialize (Hs w1 Hread).
  match type of Hs with locked (?run).2 => destruct run as [[u|e|] w2] end; [|intros [= <- <-]; by left..].
  intros Hx. right. exists data, wd, (m, hexSeed, aesKey). split_and!; [|done..].
  revert Hx. rewrite proc_bind_eq. cbn [modify]. destruct (0 <? t); by intros [= <- _].
Qed.

Definition locked_error : error := Errorf "wallet is locked, use walletpassphrase to unlock".

Lemma locked_refuses w {A} (k : () → proc HDWallet A) :
  locked w → IsLocked clock w = (Ok true, w) ∧
    (RequireUnlocked clock ≫= k) w = (Err locked_error, w).
Proof.
  intros [He Hl].
  assert (Hi : IsLocked clock w = (Ok true, w)).
  { unfold IsLocked. rewrite proc_bind_eq. cbn [gets id]. by rewrite He, Hl. }
  split; [done|]. rewrite proc_bind_eq. unfold RequireUnlocked. rewrite proc_bind_eq. cbn [gets].
  rewrite He. cbn [negb]. rewrite proc_bind_eq, Hi. done.
Qed.

Lemma other_events_locked ev :
  (∀ p t, ev ≠ EvWalletPassphrase p t) → steps stays_locked (wallet_run faults clock random ev).
Proof.
  destruct keys_locked as (? & ? & ? & ? & _). destruct os_locked as (_ & _ & _ & ? & ?).
  assert (steps stays_locked (DeriveNextExternal faults)) by (unfold DeriveNextExternal; locked_auto).
  assert (steps stays_locked (DeriveNextChange faults)) by (unfold DeriveNextChange; locked_auto).
  assert (steps stays_locked (GetChangeAddress faults)) by (unfold GetChangeAddress; locked_auto).
  assert (steps stays_locked (IsLocked clock)) by (unfold IsLocked; locked_auto).
  assert (steps stays_locked (RequireUnlocked clock)) by (unfold RequireUnlocked; locked_auto).
  assert (∀ n t a f d, steps stays_locked (make_outputs faults n t a f d))
    by (intros; unfold make_outputs; locked_auto).
  intros Hev. destruct ev; try (by edestruct Hev); cbn [wallet_run]; unfold forget, GetNewAddress,
    GetCurrentChangeAddress, ImportPrivKey, DumpPrivKey, Mnemonic, EncryptWallet, seal, WalletLock,
    SignRawTransaction, BuildTransaction; locked_auto.
Qed.

(** C19: What the lock protects: while an encrypted wallet is locked, [DumpPrivKey],
    [SignRawTransaction] and [BuildTransaction] return the error for a locked
    wallet and change nothing, [Mnemonic] returns an empty phrase, and after any
    operation the wallet is still locked, unless that operation is a successful
    [WalletPassphrase] whose passphrase decrypts the secret in the wallet file.
    And what it does not protect: [WalletLock] keeps the derived keys, and the
    lookups [KeyForScript], [GetKeyForAddress] and [GetKeyForPubKeyHash] return
    the same private keys after it as before. *)
Theorem locked_wallet_safe w :
  locked w →
  (∀ address, DumpPrivKey clock address w = (Err locked_error, w)) ∧
  (∀ tx prev, SignRawTransaction clock tx prev w = (Err locked_error, w)) ∧
  (∀ sorted req f us m tip,
     BuildTransaction faults clock sorted req f us m tip w = (Err locked_error, w)) ∧
  Mnemonic clock w = (Ok [], w) ∧
  (∀ ev r w', wallet_run faults clock random ev w = (r, w') → locked w' ∨
    ∃ p t data wd secret, ev = EvWalletPassphrase p t ∧ r = Ok () ∧
      ho_file (w_host w) = Some data ∧ json_Unmarshal data = inr wd ∧
      decrypt_secret wd p = Ok secret) ∧
  ∀ w0, WalletLock w0 = (Ok (), w) →
    (∀ pkScript, KeyForScript w pkScript = KeyForScript w0 pkScript) ∧
    (∀ address, GetKeyForAddress w address = GetKeyForAddress w0 address) ∧
    (∀ hash, GetKeyForPubKeyHash w hash = GetKeyForPubKeyHash w0 hash).
Proof.
  intros Hl. split_and!; try (intros; by apply locked_refuses).
  - unfold Mnemonic. rewrite proc_bind_eq. by rewrite (proj1 (locked_refuses w (λ _, mret ()) Hl)).
  - intros ev r w' Hr.
    assert (Hcases : (∃ p t, ev = EvWalletPassphrase p t) ∨ ∀ p t, ev ≠ EvWalletPassphrase p t)
      by (destruct ev; eauto).
    destruct Hcases as [(p & t & ->)|Hne].
    + apply passphrase_locked in Hr as [?|(data & wd & secret & ? & ? & ? & ?)]; [by left| |done].
      right. by exists p, t, data, wd, secret.
    + left. pose proof (other_events_locked ev Hne w Hl) as Hs. by rewrite Hr in Hs.
  - intros w0 Hlock. unfold WalletLock in Hlock. run_inv. done.
Qed.

(** ** Where the wallet is at risk *)

(** Unlocking again does not bring the mnemonic back: when a wallet whose keys
    were derived is locked and then unlocked, its mnemonic is empty and its seed
    is zero, although the passphrase decrypted both. *)
Theorem relock_loses_mnemonic p t w w1 w2 :
  w_seed w ≠ [] → WalletLock w = (Ok (), w1) → WalletPassphrase faults clock p t w1 = (Ok (), w2) →
  w_locked w2 = false ∧ w_mnemonic w2 = [] ∧ w_seed w2 = replicate (length (w_seed w)) x00.
Proof.
  intros Hs Hl Hp. unfold WalletLock in Hl. run_inv.
  unfold WalletPassphrase in Hp. run_inv.
  match goal with H : decrypt_secret _ _ = Ok ?x |- _ => destruct x as [[m hexSeed] aesKey] end.
  match goal with H : os_ReadFile _ ?x = (_, ?y) |- _ =>
    pose proof (host_ReadFile faults x) as Hh; rewrite H in Hh; cbn [snd] in Hh;
    clear H; destruct Hh as [h ->] end.
  apply run_bind_Ok in Hp as (seed & s5 & Hg & Hp). apply run_gets_Ok in Hg as [<- <-].
  rewrite bool_decide_false in Hp.
  2:{ simpl. intros Hn. apply Hs, nil_length_inv. apply (f_equal length) in Hn.
      by rewrite length_replicate in Hn. }
  apply run_bind_Ok in Hp as (u & s6 & Hr & Hp). apply run_ret_Ok in Hr as [_ <-].
  apply run_bind_Ok in Hp as (u' & s7 & Hr & Hp). apply run_modify_Ok in Hr as <-.
  destruct (0 <? t).
  - unfold time_Now in Hp. run_inv. unfold next_call in *. simplify_eq/=. done.
  - apply run_modify_Ok in Hp as <-. done.
Qed.

(** An encrypted wallet that was opened and not yet unlocked has no chain to
    derive from: asking it for an address is a nil dereference. *)
Theorem sealed_wallet_panics w : sealed w → GetNewAddress faults w = (Panic, w).
Proof.
  intros [_ [He _] _ _ _]. unfold GetNewAddress, DeriveNextExternal, deriveExternal.
  rewrite !proc_bind_eq. cbn [gets]. rewrite !proc_bind_eq. cbn [gets]. by rewrite He.
Qed.

(** Deriving and saving leave the secret alone. *)
Definition same_secret w w' : Prop :=
  w_mnemonic w' = w_mnemonic w ∧ w_seed w' = w_seed w ∧ w_encrypted w' = w_encrypted w.
#[local] Instance same_secret_preorder : PreOrder same_secret.
Proof. split; [done|]. intros x y z (? & ? & ?) (? & ? & ?). split_and!; congruence. Qed.

Lemma derive_same_secret : steps same_secret (DeriveNextExternal faults).
Proof.
  assert (steps same_secret next_call) by (intros w; done).
  unfold DeriveNextExternal, deriveExternal, registerKey, save, savePreservingEncryption,
    os_WriteFile, os_MkdirAll, os_ReadFile.
  steps_walk; intros w; done.
Qed.

(** A wallet file that cannot be read is replaced: when reading wallet.json fails
    although the file is there, [NewHDWallet] makes a new random mnemonic, and on
    success the file holds the new wallet. *)
Theorem read_error_replaces_wallet old n v w :
  faults n ≠ IoOk → NewHDWallet faults random (mkHost (Some old) n) v = (Ok (), w) →
  bip39_NewMnemonic (resize 32 x00 (random (S n))) = inr (w_mnemonic w) ∧
  w_seed w = bip39_NewSeed (w_mnemonic w) [] ∧
  ∃ data, json_MarshalIndent (plain_data w) = inr data ∧ ho_file (w_host w) = Some data.
Proof.
  intros Hf. unfold NewHDWallet.
  assert (Hr : os_ReadFile faults (empty_wallet (mkHost (Some old) n) v)
               = (Err io_error, empty_wallet (mkHost (Some old) (S n)) v)).
  { unfold os_ReadFile. rewrite proc_bind_eq. cbn [next_call]. simpl. by destruct (faults n). }
  rewrite Hr. unfold createNew. rewrite bool_decide_true by done. intros Hw. run_inv.
  match goal with H : rand_Read _ _ _ _ = _ |- _ => unfold rand_Read in H; run_inv end.
  unfold next_call in *. simplify_eq/=.
  destruct (faults (S n)); [|by run_inv..]. run_inv.
  match goal with H : wrap _ (lib ?x) = Ok _ |- _ =>
    apply wrap_Ok in H; destruct x as [|m] eqn:Hm; [done|]; injection H as <- end.
  match goal with H : deriveAccountKeys _ = (Ok ?u, _) |- _ => destruct u;
    apply deriveAccountKeys_Ok in H as (ka & ke & kc & _ & ->) end.
  match goal with H : DeriveNextExternal _ ?x = _ |- _ =>
    pose proof (derive_same_secret x) as (Hs1 & Hs2 & Hs3); rewrite H in Hs1, Hs2, Hs3 end.
  cbn in Hs1, Hs2, Hs3.
  apply save_file in Hw as (data & k & Hj & ->); [|done].
  cbn [w_mnemonic w_seed set_host]. rewrite Hs1, Hs2. split_and!; [done|done|].
  exists data. split; [exact Hj|done].
Qed.
End safety.

(** ** Witnesses *)

#[local] Existing Instance toy_lib.
#[local] Existing Instance toy_hd.
#[local] Existing Instance toy_hashlib.

(** The encrypted wallet of the witnesses, locked; unlocked; locked again. *)
Definition sw_pass : list byte := str "correct horse".
Definition sw_unlock : res () * HDWallet := WalletPassphrase toy_faults toy_clock sw_pass 0 rw_sealed.2.
Definition sw_lock : res () * HDWallet := WalletLock sw_unlock.2.
Definition sw_relock : res () * HDWallet := WalletPassphrase toy_faults toy_clock sw_pass 0 sw_lock.2.

Lemma sw_locked : locked rw_sealed.2.
Proof. split; vm_compute; reflexivity. Qed.

Lemma locked_wallet_safe_witness : Mnemonic toy_clock rw_sealed.2 = (Ok [], rw_sealed.2).
Proof.
  refine (proj1 (proj2 (proj2 (proj2
    (locked_wallet_safe (LH := toy_hashlib) toy_faults toy_clock toy_random rw_sealed.2 _))))).
  exact sw_locked.
Defined.

Lemma relock_loses_mnemonic_witness : w_mnemonic sw_relock.2 = [] ∧ w_mnemonic sw_unlock.2 ≠ [].
Proof.
  assert (H1 : WalletLock sw_unlock.2 = (Ok (), sw_lock.2)).
  { assert (Hok : sw_lock.1 = Ok ()) by (vm_compute; reflexivity).
    unfold sw_lock in *. revert Hok. generalize (WalletLock sw_unlock.2). intros r. apply run_outcome. }
  assert (H2 : WalletPassphrase toy_faults toy_clock sw_pass 0 sw_lock.2 = (Ok (), sw_relock.2)).
  { assert (Hok : sw_relock.1 = Ok ()) by (vm_compute; reflexivity).
    unfold sw_relock in *. revert Hok.
    generalize (WalletPassphrase toy_faults toy_clock sw_pass 0 sw_lock.2). intros r. apply run_outcome. }
  split; [|by vm_compute].
  refine (proj1 (proj2 (relock_loses_mnemonic toy_faults toy_clock sw_pass 0 sw_unlock.2 sw_lock.2
            sw_relock.2 _ H1 H2))).
  by vm_compute.
Defined.

Definition sw_fresh : res () * HDWallet := NewHDWallet toy_faults toy_random (w_host rw_sealed.2) x00.

Lemma sealed_wallet_panics_witness : GetNewAddress toy_faults sw_fresh.2 = (Panic, sw_fresh.2).
Proof.
  refine (sealed_wallet_panics toy_faults sw_fresh.2 _). split; vm_compute.
  - reflexivity.
  - split; reflexivity.
  - reflexivity.
  - split; reflexivity.
  - split; split; first [discriminate|reflexivity].
Defined.

(** Only the first call, which reads the file, fails. *)
Definition sw_faults : nat → io_fault := λ n, match n with 9%nat => IoFail | _ => IoOk end.
Definition sw_old : list byte := Eval vm_compute in default [] (ho_file (w_host toy_wallet)).
#[local] Notation sw_replaced := (NewHDWallet sw_faults toy_random (mkHost (Some sw_old) 9) x00).

Lemma sw_replaced_ok : sw_replaced.1 = Ok ().
Proof. vm_compute. reflexivity. Qed.

Lemma sw_replaced_opened : sw_replaced = (Ok (), sw_replaced.2).
Proof. exact (run_outcome _ _ sw_replaced_ok). Qed.

Lemma read_error_replaces_wallet_witness :
  bool_decide (ho_file (w_host sw_replaced.2) = Some sw_old) = false ∧
  ∃ data, json_MarshalIndent (plain_data sw_replaced.2) = inr data ∧
    ho_file (w_host sw_replaced.2) = Some data.
Proof.
  split; [vm_compute; reflexivity|].
  refine (proj2 (proj2 (read_error_replaces_wallet sw_faults toy_random sw_old 9 x00 sw_replaced.2 _
            sw_replaced_opened))).
  discriminate.
Defined.
