(* ===== verification/RpcBase.v ===== *)
(** * internal/rpc: requests, answers and the state of the server

    JSON values; the parts of the Go packages strconv, fmt and encoding/json that
    the handlers call on them; HTTP requests and their answers; the limit on the
    rate of requests; long polling; and the server, whose components are the
    peer-to-peer manager with the chain and the pool it shares, and the wallet. *)
From S2P Require Import Prelude Types Sha256 Target Merkle Params Utxo Keys Script TxValidation.
From S2P Require Import Algorithms Validation Difficulty Pow TimeAdjust BlockFiles Store Chain Heap Mempool.
From S2P Require Import Base58 Protocol Headers Scheduler Net Peer ManagerState Manager Aes Wallet WalletTx.

(** ** JSON *)

(** A number is kept as it is written, since Go reads it with [strconv]; the
    quotient of two numbers as [float64] is kept as the two numbers, [JFloat]. *)
Inductive json : Type :=
| JNull
| JBool (b : bool)
| JNum (lit : list byte)
| JStr (s : list byte)
| JArr (l : list json)
| JObj (fields : list (list byte * json))
| JFloat (num den : Z).

(** [%d]; no number of the answers has more than twenty digits. *)
Definition dec (n : Z) : list byte :=
  if n <? 0 then x2d :: decimal 20 (- n) else decimal 20 n.
Definition num (n : Z) : json := JNum (dec n).
Definition text (s : string) : json := JStr (str s).
Definition obj (l : list (string * json)) : json := JObj (prod_map str id <$> l).
Definition hash_json (h : Hash) : json := JStr (Hash_ReverseString h).
Definition hex_json (bs : list byte) : json := JStr (hex_EncodeToString bs).

(** [%x] of a number below [16^fuel], and [%0wx]. *)
Fixpoint hex_number (fuel : nat) (n : Z) : list byte :=
  match fuel with
  | O => []
  | S fuel' => (if n <? 16 then [] else hex_number fuel' (n / 16)) ++ [Types.hex_digit (n mod 16)]
  end.
Definition hex_padded (w : nat) (n : Z) : list byte :=
  let s := hex_number 64 n in replicate (w - length s) x30 ++ s.

(** ** Package strconv *)

(** The digits, with the value so far: the value and whether it is good; a value
    that is too large is cut off at the first digit that makes it so. *)
Fixpoint parse_digits (maxVal : Z) (s : list byte) (n : Z) : Z * bool :=
  match s with
  | [] => (n, true)
  | c :: s' =>
      match digit c with
      | None => (0, false)
      | Some d => let n1 := 10 * n + d in if maxVal <? n1 then (maxVal, false) else parse_digits maxVal s' n1
      end
  end.
Definition ParseUint (s : list byte) (bitSize : Z) : Z * bool :=
  match s with [] => (0, false) | _ => parse_digits (2 ^ bitSize - 1) s 0 end.

(** [ParseInt] in base ten with 64 bits, and [Atoi]. *)
Definition ParseInt (s : list byte) : option Z :=
  let '(neg, s) := match s with x2b :: s' => (false, s') | x2d :: s' => (true, s') | _ => (false, s) end in
  let '(n, ok) := ParseUint s 64 in
  if negb ok then None
  else if neg then if 2 ^ 63 <? n then None else Some (- n)
  else if 2 ^ 63 <=? n then None else Some n.

(** [fmt.Sscanf(s, "%d", &n)] for a [uint32]: spaces, then digits. *)
Definition Sscanf_u32 (s : list byte) : option Z :=
  s ← SkipSpace (length s) s;
  match s with
  | c :: _ =>
      if bool_decide (is_Some (digit c)) then
        let n := scan_digits s 0 in if 2 ^ 32 <=? n then None else Some n
      else None
  | [] => None
  end.

(** ** [json.Unmarshal] into variables, which null leaves as they are *)

Definition cannot_unmarshal {A} : res A := Err (Errorf "json: cannot unmarshal into Go value").
Definition Unmarshal_string (j : json) : res (list byte) :=
  match j with JNull => Ok [] | JStr s => Ok s | _ => cannot_unmarshal end.
Definition Unmarshal_uint (bitSize : Z) (j : json) : res Z :=
  match j with
  | JNull => Ok 0
  | JNum lit => let '(n, ok) := ParseUint lit bitSize in if ok : bool then Ok n else cannot_unmarshal
  | _ => cannot_unmarshal
  end.
Definition Unmarshal_int (j : json) : res Z :=
  match j with
  | JNull => Ok 0
  | JNum lit => match ParseInt lit with Some n => Ok n | None => cannot_unmarshal end
  | _ => cannot_unmarshal
  end.
Definition Unmarshal_bool (j : json) (b : bool) : bool := match j with JBool b' => b' | _ => b end.

(** Into a [map[string]uint64]: a later field replaces an earlier one of the same
    name. *)
Definition Unmarshal_amounts (j : json) : res (gmap (list byte) Z) :=
  match j with
  | JNull => Ok ∅
  | JObj fields =>
      foldM (λ (m : gmap (list byte) Z) (kv : list byte * json),
        v ← Unmarshal_uint 64 kv.2; Ok (<[kv.1 := v]> m)) ∅ fields
  | _ => cannot_unmarshal
  end.

(** ** Requests and answers *)

Record Request : Type := mkRequest {
  rq_Method : string;
  rq_Path : string;
  rq_Query : gmap string (list byte);
  rq_Form : gmap string (list byte);
  rq_Body : list byte;
  rq_Auth : option (list byte * list byte);
  rq_RemoteAddr : list byte
}.
(** [r.URL.Query().Get(k)] and [r.PostFormValue(k)]. *)
Definition Query_Get (r : Request) (k : string) : list byte := default [] (rq_Query r !! k).
Definition PostFormValue (r : Request) (k : string) : list byte := default [] (rq_Form r !! k).

(** [writeJSON] and [writeError]; the message is kept as the error it is made of. *)
Inductive Response : Type :=
| WriteJSON (data : json)
| WriteError (code : Z) (msg : error).

Definition StatusBadRequest : Z := 400.
Definition StatusUnauthorized : Z := 401.
Definition StatusForbidden : Z := 403.
Definition StatusNotFound : Z := 404.
Definition StatusMethodNotAllowed : Z := 405.
Definition StatusTooManyRequests : Z := 429.
Definition StatusInternalServerError : Z := 500.
Definition StatusServiceUnavailable : Z := 503.

(** The answer of a JSON-RPC method. *)
Inductive rpcResult : Type :=
| RpcOk (result : json)
| RpcErr (code : Z) (msg : error).

Definition rpcErrParse : Z := -32700.
Definition rpcErrInvalidRequest : Z := -32600.
Definition rpcErrMethodNotFound : Z := -32601.
Definition rpcErrInvalidParams : Z := -32602.
Definition rpcErrInternal : Z := -32603.
Definition rpcErrMisc : Z := -1.
Definition rpcErrWalletNotFound : Z := -18.

(** [x, err := m(); if err != nil { return h(err) }; k(x)]. *)
Definition or_return {S A B} (m : proc S A) (h : error → B) (k : A → proc S B) : proc S B := λ s,
  match m s with
  | (Ok a, s') => k a s'
  | (Err e, s') => (Ok (h e), s')
  | (Panic, s') => (Panic, s')
  end.
Notation "'try' x ':=' m 'else' h 'in' k" := (or_return m h (λ x, k))
  (at level 200, x name, m at level 100, h at level 100, k at level 200,
   format "'[v' 'try'  x  ':='  m  'else'  h  'in' '/' k ']'").

(** ** The rate limit *)

Definition rpcRateLimit : Z := 60.
Definition rpcRateWindow : Z := 10 * second.

Record ipBucket : Type := mkIpBucket { ib_count : Z; ib_windowStart : Z }.
Definition ipRateLimiter : Type := gmap (list byte) ipBucket.

Definition Allow (ip : list byte) (now : Z) (rl : ipRateLimiter) : bool * ipRateLimiter :=
  let fresh := (true, <[ip := mkIpBucket 1 now]> rl) in
  match rl !! ip with
  | None => fresh
  | Some b =>
      if rpcRateWindow <? Time_Sub now (ib_windowStart b) then fresh
      else (ib_count b + 1 <=? rpcRateLimit,
            <[ip := mkIpBucket (ib_count b + 1) (ib_windowStart b)]> rl)
  end.

(** One turn of [gcLoop]. *)
Definition gc_buckets (now : Z) (rl : ipRateLimiter) : ipRateLimiter :=
  filter (λ kb, (rpcRateWindow * 2 <? Time_Sub now (ib_windowStart kb.2)) = false) rl.

(** ** Long polling *)

(** A channel is a number; [lp_closed] are the closed ones. *)
Record longPollState : Type := mkLongPoll {
  lp_current : list byte;
  lp_waiters : list nat;
  lp_closed : gset nat;
  lp_next : nat
}.
Definition maxLongPollWaiters : Z := 100.

Definition longPoll_update (id : list byte) (lp : longPollState) : longPollState :=
  if bool_decide (lp_current lp = id) then lp
  else mkLongPoll id [] (list_to_set (lp_waiters lp) ∪ lp_closed lp) (lp_next lp).

Definition longPoll_wait (lp : longPollState) : nat * longPollState :=
  let ch := lp_next lp in
  if maxLongPollWaiters <=? len (lp_waiters lp)
  then (ch, mkLongPoll (lp_current lp) (lp_waiters lp) ({[ch]} ∪ lp_closed lp) (S ch))
  else (ch, mkLongPoll (lp_current lp) (lp_waiters lp ++ [ch]) (lp_closed lp) (S ch)).

(** ** The server *)

Section server.
Context {St PS : Type} `{C : CryptoLib, !HDLib}.

Record Server : Type := mkServer {
  s_p2p : Manager St PS;
  s_wallet : option HDWallet;
  s_feePerByte : Z;
  s_longPoll : longPollState;
  s_rateLimiter : ipRateLimiter;
  s_stopping : bool
}.

Definition set_s_p2p (m : Manager St PS) (s : Server) : Server :=
  mkServer m (s_wallet s) (s_feePerByte s) (s_longPoll s) (s_rateLimiter s) (s_stopping s).
Definition set_s_wallet (w : option HDWallet) (s : Server) : Server :=
  mkServer (s_p2p s) w (s_feePerByte s) (s_longPoll s) (s_rateLimiter s) (s_stopping s).
Definition set_s_feePerByte (f : Z) (s : Server) : Server :=
  mkServer (s_p2p s) (s_wallet s) f (s_longPoll s) (s_rateLimiter s) (s_stopping s).
Definition set_s_longPoll (lp : longPollState) (s : Server) : Server :=
  mkServer (s_p2p s) (s_wallet s) (s_feePerByte s) lp (s_rateLimiter s) (s_stopping s).
Definition set_s_rateLimiter (rl : ipRateLimiter) (s : Server) : Server :=
  mkServer (s_p2p s) (s_wallet s) (s_feePerByte s) (s_longPoll s) rl (s_stopping s).
Definition set_s_stopping (b : bool) (s : Server) : Server :=
  mkServer (s_p2p s) (s_wallet s) (s_feePerByte s) (s_longPoll s) (s_rateLimiter s) b.

Definition s_chain (s : Server) : Chain St := m_chain (s_p2p s).
Definition s_mempool (s : Server) : Mempool := m_mempool (s_p2p s).

Definition on_p2p {A} (f : proc (Manager St PS) A) : proc Server A := on s_p2p set_s_p2p f.
(** A call of the wallet; without a wallet it is a nil dereference. *)
Definition on_wallet {A} (f : proc HDWallet A) : proc Server A := λ s,
  match s_wallet s with
  | None => (Panic, s)
  | Some w => let '(r, w') := f w in (r, set_s_wallet (Some w') s)
  end.
Definition wallet_get {A} (f : HDWallet → A) : proc Server A := on_wallet (gets f).
Definition has_wallet : proc Server bool := gets (λ s, bool_decide (is_Some (s_wallet s))).
End server.
Arguments Server : clear implicits.
Arguments Server St PS {_ _}.

(** ** Ranges of the numbers read *)

Lemma parse_digits_range m l n : 0 ≤ n ≤ m → 0 ≤ (parse_digits m l n).1 ≤ m.
Proof.
  revert n. induction l as [|c l IH]; intros n Hn; cbn [parse_digits]; [done|].
  destruct (digit c) as [d|] eqn:Hd; [|cbn; lia]. assert (0 ≤ d) by (unfold digit in Hd; case_match; simplify_eq; lia).
  destruct (Z.ltb_spec m (10 * n + d)); [cbn; lia|]. apply IH. lia.
Qed.
Lemma ParseUint_u64 l : is_u64 (ParseUint l 64).1.
Proof.
  assert (0 ≤ (ParseUint l 64).1 ≤ 2 ^ 64 - 1); [|unfold is_u64; lia].
  unfold ParseUint. destruct l; [cbn; lia|]. by apply parse_digits_range.
Qed.
Lemma Unmarshal_uint_u64 j n : Unmarshal_uint 64 j = Ok n → is_u64 n.
Proof.
  unfold Unmarshal_uint. destruct j; try done; [by intros [= <-]|].
  pose proof (ParseUint_u64 lit) as Hu. destruct (ParseUint lit 64) as [v ok]. destruct ok; [|done]. by intros [= <-].
Qed.
