(* ===== verification/RpcQuery.v ===== *)
(** * internal/rpc: queries

    The handlers that read the chain, the pool, the set of unspent outputs and the
    list of peers, over HTTP (server.go) and over JSON-RPC (jsonrpc.go), with the
    report on the chain they use (chain.go).  The statistics of peers and the
    metrics are not modelled. *)
From S2P Require Import Prelude Types Sha256 Target Merkle Params Utxo Keys Script TxValidation.
From S2P Require Import Algorithms Validation Difficulty Pow TimeAdjust BlockFiles Store Chain Heap Mempool.
From S2P Require Import Base58 Protocol Headers Scheduler Net Peer ManagerState Manager Aes Wallet WalletTx.
From S2P Require Import RpcBase.

(** ** The report on the chain *)

Record ChainInfo : Type := mkChainInfo {
  ci_Network : string;
  ci_Height : Z;
  ci_BestHash : Hash;
  ci_GenesisHash : Hash;
  ci_Bits : Z;
  ci_Difficulty : json;
  ci_Chainwork : Z;
  ci_MedianTimePast : Z;
  ci_RetargetInterval : Z;
  ci_RetargetEpoch : Z;
  ci_EpochProgress : Z;
  ci_EpochBlocksLeft : Z
}.

Definition ServerVersion : Z := ProtocolVersion.
Definition UserAgent : list byte := str "/fairchain:0.7.0/".

Section queries.
Context {St : Type} `{BlockStore St} `{C : CryptoLib, !HDLib, !HashLib} {PS : Type} `{PeerStore PS}.
Context (p : ChainParams) (w : World).
Implicit Types (c : Chain St) (s : Server St PS).
Notation R := (proc (Server St PS)).

(** The difficulty of compact bits, relative to the first target of the network. *)
Definition compactToDifficulty (bits : Z) : json :=
  let target := CompactToBig bits in
  if target <=? 0 then JFloat 0 1 else JFloat (CompactToBig (p_InitialBits p)) target.

(** The timestamps of the last blocks, up to the first that is missing; at most
    [n] of them. *)
Fixpoint info_timestamps (n : nat) (i : Z) c : res (list Z) :=
  match n with
  | O => Ok []
  | S n' =>
      if c_tipHeight c <? i then Ok [] else
      match c_hashByHeight c !! (c_tipHeight c - i) with
      | None => Ok []
      | Some hash =>
          match GetHeader (c_store c) hash with
          | Panic => Panic
          | Err _ => Ok []
          | Ok hdr => ts ← info_timestamps n' (i + 1) c; Ok (hdr_Timestamp hdr :: ts)
          end
      end
  end.

Definition GetChainInfo c : res ChainInfo :=
  let tip := GetHeader (c_store c) (c_tipHash c) in
  _ ← match tip with Panic => Panic | _ => Ok () end;
  timestamps ← info_timestamps (medianCount) 0 c;
  let median := nth (length timestamps / 2) (insertion_sort timestamps) 0 in
  let interval := p_RetargetInterval p in
  let progress := if 0 <? interval then c_tipHeight c mod interval else 0 in
  Ok (mkChainInfo (p_Name p) (c_tipHeight c) (c_tipHash c) (p_GenesisHash p)
        (match tip with Ok h => hdr_Bits h | _ => 0 end)
        (match tip with Ok h => compactToDifficulty (hdr_Bits h) | _ => JFloat 0 1 end)
        (c_tipWork c) median interval
        (if 0 <? interval then c_tipHeight c / interval else 0) progress
        (if 0 <? interval then interval - progress else 0)).

Definition chain_info : R ChainInfo := asks (λ s, GetChainInfo (s_chain s)).
Definition bits_json (bits : Z) : json := JStr (hex_padded 8 bits).

(** ** The chain *)

Definition rpcGetBlockchainInfo : R rpcResult :=
  info ← chain_info;
  syncing ← gets (λ s, IsSyncing (s_p2p s));
  mret (RpcOk (obj [
    ("chain", text (ci_Network info)); ("blocks", num (ci_Height info)); ("headers", num (ci_Height info));
    ("bestblockhash", hash_json (ci_BestHash info)); ("bits", bits_json (ci_Bits info));
    ("difficulty", ci_Difficulty info); ("mediantime", num (ci_MedianTimePast info));
    ("verificationprogress", JFloat 1 1); ("initialblockdownload", JBool syncing);
    ("chainwork", JStr (hex_padded 64 (ci_Chainwork info))); ("pruned", JBool false);
    ("warnings", text "")])).

Definition handleGetChainStatus : R Response :=
  info ← chain_info;
  peers ← gets (λ s, PeerCount (s_p2p s));
  mret (WriteJSON (obj [
    ("blocks", num (ci_Height info)); ("bestblockhash", hash_json (ci_BestHash info));
    ("bits", bits_json (ci_Bits info)); ("difficulty", ci_Difficulty info); ("peers", num peers);
    ("retarget_epoch", num (ci_RetargetEpoch info)); ("epoch_progress", num (ci_EpochProgress info));
    ("retarget_interval", num (ci_RetargetInterval info))])).

(** The HTTP handler of a query without parameters. *)
Definition as_response (m : R rpcResult) : R Response :=
  result ← m;
  mret (match result with RpcOk j => WriteJSON j | RpcErr _ e => WriteError StatusInternalServerError e end).
Definition handleGetBlockchainInfo : R Response := as_response rpcGetBlockchainInfo.

Definition rpcGetBlockCount : R rpcResult := height ← gets (λ s, (Tip (s_chain s)).2); mret (RpcOk (num height)).
Definition rpcGetBestBlockHash : R rpcResult :=
  hash ← gets (λ s, (Tip (s_chain s)).1); mret (RpcOk (hash_json hash)).
Definition rpcGetDifficulty : R rpcResult := info ← chain_info; mret (RpcOk (ci_Difficulty info)).
Definition handleGetBlockCount : R Response := as_response rpcGetBlockCount.
Definition handleGetBestBlockHash : R Response := as_response rpcGetBestBlockHash.
Definition handleGetDifficulty : R Response := as_response rpcGetDifficulty.

Definition handleGetBlockHash (r : Request) : R Response :=
  let heightStr := Query_Get r "height" in
  if bool_decide (heightStr = []) then mret (WriteError StatusBadRequest (Errorf "missing height parameter")) else
  match Sscanf_u32 heightStr with
  | None => mret (WriteError StatusBadRequest (Errorf "invalid height"))
  | Some height =>
      try header := asks (λ s, GetHeaderByHeight (s_chain s) height)
      else (λ _, WriteError StatusNotFound (Errorf "block not found at height %d")) in
      mret (WriteJSON (hash_json (HashBlockHeader header)))
  end.

Definition rpcGetBlockHash (params : list json) : R rpcResult :=
  match params with
  | [] => mret (RpcErr rpcErrInvalidParams (Errorf "missing height parameter"))
  | param :: _ =>
      try height := pure (Unmarshal_uint 32 param)
      else (λ e, RpcErr rpcErrInvalidParams (Wrapf "invalid height" e)) in
      try header := asks (λ s, GetHeaderByHeight (s_chain s) height)
      else (λ _, RpcErr rpcErrMisc (Errorf "block not found at height %d")) in
      mret (RpcOk (hash_json (HashBlockHeader header)))
  end.

Definition txids (block : Block) : json := JArr (hash_json ∘ HashTransaction <$> blk_Transactions block).

(** The answer on a block: [heightOf] is the result of [GetBlockHeight], [next] the
    header after it. *)
Definition block_json (block : Block) (tipHeight : Z) (heightOf : option Z) (next : option BlockHeader) : json :=
  let hdr := blk_Header block in
  let size := len (Block_SerializeToBytes block) in
  obj ([
    ("hash", hash_json (HashBlockHeader hdr));
    ("confirmations", num (match heightOf with Some h => tipHeight - h + 1 | None => -1 end));
    ("size", num size); ("weight", num (size * 4)); ("height", num (default 0 heightOf));
    ("version", num (hdr_Version hdr)); ("merkleroot", hash_json (hdr_MerkleRoot hdr)); ("tx", txids block);
    ("time", num (hdr_Timestamp hdr)); ("nonce", num (hdr_Nonce hdr)); ("bits", bits_json (hdr_Bits hdr));
    ("difficulty", compactToDifficulty (hdr_Bits hdr)); ("previousblockhash", hash_json (hdr_PrevBlock hdr));
    ("nTx", num (len (blk_Transactions block)))] ++
    match next with Some h => [("nextblockhash", hash_json (HashBlockHeader h))] | None => [] end).

Definition get_block_json (block : Block) : R json :=
  tipHeight ← gets (λ s, (Tip (s_chain s)).2);
  heightOf ← gets (λ s, match GetBlockHeight (s_chain s) (HashBlockHeader (blk_Header block)) with
                        | Ok h => Some h | _ => None end);
  next ← match heightOf with
         | Some h =>
             if h <? tipHeight then
               asks (λ s, match GetHeaderByHeight (s_chain s) (u32 (h + 1)) with
                          | Ok n => Ok (Some n) | Err _ => Ok None | Panic => Panic end)
             else mret None
         | None => mret None
         end;
  mret (block_json block tipHeight heightOf next).

Definition handleGetBlock (r : Request) : R Response :=
  let hashStr := Query_Get r "hash" in
  if bool_decide (hashStr = []) then mret (WriteError StatusBadRequest (Errorf "missing hash parameter")) else
  try hash := pure (HashFromReverseHex hashStr) else (λ e, WriteError StatusBadRequest (Wrapf "invalid hash" e)) in
  try block := asks (λ s, GetBlock (c_store (s_chain s)) hash)
  else (λ e, WriteError StatusNotFound (Wrapf "block not found" e)) in
  resp ← get_block_json block;
  mret (WriteJSON resp).

Definition rpcGetBlock (params : list json) : R rpcResult :=
  match params with
  | [] => mret (RpcErr rpcErrInvalidParams (Errorf "missing blockhash parameter"))
  | param :: _ =>
      try hashStr := pure (Unmarshal_string param)
      else (λ e, RpcErr rpcErrInvalidParams (Wrapf "invalid blockhash" e)) in
      try hash := pure (HashFromReverseHex hashStr)
      else (λ e, RpcErr rpcErrInvalidParams (Wrapf "invalid hash" e)) in
      try block := asks (λ s, GetBlock (c_store (s_chain s)) hash)
      else (λ _, RpcErr rpcErrMisc (Errorf "block not found")) in
      resp ← get_block_json block;
      mret (RpcOk resp)
  end.

Definition handleGetBlockByHeight (r : Request) : R Response :=
  let heightStr := Query_Get r "height" in
  if bool_decide (heightStr = []) then mret (WriteError StatusBadRequest (Errorf "missing height parameter")) else
  match Sscanf_u32 heightStr with
  | None => mret (WriteError StatusBadRequest (Errorf "invalid height"))
  | Some height =>
      try bh := asks (λ s, GetBlockByHeight (s_chain s) height)
      else (λ e, WriteError StatusNotFound (Wrapf "block not found" e)) in
      tipHeight ← gets (λ s, (Tip (s_chain s)).2);
      let hdr := blk_Header bh.1 in
      mret (WriteJSON (obj [
        ("hash", hash_json bh.2); ("confirmations", num (tipHeight - height + 1)); ("height", num height);
        ("version", num (hdr_Version hdr)); ("merkleroot", hash_json (hdr_MerkleRoot hdr)); ("tx", txids bh.1);
        ("time", num (hdr_Timestamp hdr)); ("nonce", num (hdr_Nonce hdr)); ("bits", bits_json (hdr_Bits hdr));
        ("previousblockhash", hash_json (hdr_PrevBlock hdr)); ("nTx", num (len (blk_Transactions bh.1)))]))
  end.

(** ** Peers *)

Definition rpcGetNetworkInfo : R rpcResult :=
  counts ← gets (λ s, ConnectionCounts (s_p2p s));
  peers ← gets (λ s, PeerCount (s_p2p s));
  mret (RpcOk (obj [
    ("version", num ServerVersion); ("subversion", JStr UserAgent); ("protocolversion", num ServerVersion);
    ("connections", num peers); ("connections_in", num counts.1); ("connections_out", num counts.2);
    ("networkactive", JBool true); ("warnings", text "")])).

Definition handleGetNetworkInfo : R Response :=
  counts ← gets (λ s, ConnectionCounts (s_p2p s));
  peers ← gets (λ s, PeerCount (s_p2p s));
  mret (WriteJSON (obj [
    ("version", num ServerVersion); ("subversion", JStr UserAgent); ("protocolversion", num ServerVersion);
    ("connections", num peers); ("connections_in", num counts.1); ("connections_out", num counts.2);
    ("networkactive", JBool true);
    ("networks", JArr [obj [("name", text "ipv4"); ("reachable", JBool true)]]); ("warnings", text "")])).

Definition rpcGetConnectionCount : R rpcResult := peers ← gets (λ s, PeerCount (s_p2p s)); mret (RpcOk (num peers)).
Definition handleGetConnectionCount : R Response := as_response rpcGetConnectionCount.

Definition handleAddNode (LookupIP : list byte → res (list IP)) (r : Request) : R Response :=
  let addr := Query_Get r "node" in
  if bool_decide (addr = []) then mret (WriteError StatusBadRequest (Errorf "missing node parameter")) else
  try _ := on_p2p (AddNode w LookupIP addr) else (λ e, WriteError StatusBadRequest e) in
  mret (WriteJSON (obj [("added", JStr addr)])).

Definition handleDisconnectNode (r : Request) : R Response :=
  let addr := Query_Get r "address" in
  if bool_decide (addr = []) then mret (WriteError StatusBadRequest (Errorf "missing address parameter")) else
  try _ := on_p2p (DisconnectNode addr) else (λ e, WriteError StatusNotFound e) in
  mret (WriteJSON (obj [("disconnected", JStr addr)])).

(** ** The pool *)

(** A [range] over the map of the pool. *)
Definition range_pool : R (list (Hash * nat)) :=
  m ← gets s_mempool; on_p2p (range_map w (map_to_list (mp_txs m))).

Definition rpcGetMempoolInfo : R rpcResult :=
  it ← range_pool;
  m ← gets s_mempool;
  mret (RpcOk (obj [
    ("loaded", JBool true); ("size", num (Count m)); ("bytes", num (TotalSize m it));
    ("maxmempool", num (300 * 1024 * 1024)); ("mempoolminfee", num (p_MinRelayTxFeeRate p));
    ("mempoolexpiry", num (Z.quot (p_MempoolExpiry p) (3600 * second)))])).

Definition handleGetMempoolInfo : R Response := as_response rpcGetMempoolInfo.

Definition entry_json (e : TxEntry) : json := obj [
  ("size", num (te_Size e)); ("fee", num (te_Fee e)); ("fees", obj [("base", num (te_Fee e))]);
  ("feerate", num (te_FeeRate e)); ("time", num (Time_Unix (te_AddedAt e)))].

Definition raw_mempool (verbose : bool) : R json :=
  it ← range_pool;
  m ← gets s_mempool;
  mret (if verbose then JObj ((λ e, (Hash_ReverseString (te_Hash e), entry_json e)) <$> GetAllEntries m it)
        else JArr (hash_json <$> GetTxHashes it)).

Definition handleGetRawMempool (r : Request) : R Response :=
  j ← raw_mempool (bool_decide (Query_Get r "verbose" = str "true")); mret (WriteJSON j).
Definition rpcGetRawMempool (params : list json) : R rpcResult :=
  j ← raw_mempool (match params with param :: _ => Unmarshal_bool param false | [] => false end); mret (RpcOk j).

Definition handleGetMempoolEntry (r : Request) : R Response :=
  let txidStr := Query_Get r "txid" in
  if bool_decide (txidStr = []) then mret (WriteError StatusBadRequest (Errorf "missing txid parameter")) else
  try txHash := pure (HashFromReverseHex txidStr) else (λ e, WriteError StatusBadRequest (Wrapf "invalid txid" e)) in
  entry ← gets (λ s, GetTxEntry (s_mempool s) txHash);
  mret (match entry with
        | None => WriteError StatusNotFound (Errorf "transaction %s not in mempool")
        | Some e => WriteJSON (entry_json e)
        end).

(** ** The unspent outputs *)

Definition txout_json (txHash : Hash) (n : Z) : R json :=
  entry ← gets (λ s, Set_Get (c_utxoSet (s_chain s)) txHash n);
  tip ← gets (λ s, Tip (s_chain s));
  mret (match entry with
        | None => JNull
        | Some e => obj [
            ("bestblock", hash_json tip.1); ("confirmations", num (confirmations tip.2 (ue_Height e)));
            ("value", num (ue_Value e)); ("scriptPubKey", obj [("hex", hex_json (ue_PkScript e))]);
            ("coinbase", JBool (ue_IsCoinbase e))]
        end).

Definition handleGetTxOut (r : Request) : R Response :=
  let txidStr := Query_Get r "txid" in
  if bool_decide (txidStr = []) then mret (WriteError StatusBadRequest (Errorf "missing txid parameter")) else
  try txHash := pure (HashFromReverseHex txidStr) else (λ e, WriteError StatusBadRequest (Wrapf "invalid txid" e)) in
  let nStr := Query_Get r "n" in
  if bool_decide (nStr = []) then mret (WriteError StatusBadRequest (Errorf "missing n parameter")) else
  match Sscanf_u32 nStr with
  | None => mret (WriteError StatusBadRequest (Errorf "invalid n"))
  | Some n => j ← txout_json txHash n; mret (WriteJSON j)
  end.

Definition rpcGetTxOut (params : list json) : R rpcResult :=
  match params with
  | param0 :: param1 :: _ =>
      try txidStr := pure (Unmarshal_string param0)
      else (λ e, RpcErr rpcErrInvalidParams (Wrapf "invalid txid" e)) in
      try n := pure (Unmarshal_uint 32 param1) else (λ e, RpcErr rpcErrInvalidParams (Wrapf "invalid n" e)) in
      try txHash := pure (HashFromReverseHex txidStr)
      else (λ e, RpcErr rpcErrInvalidParams (Wrapf "invalid txid hex" e)) in
      j ← txout_json txHash n; mret (RpcOk j)
  | _ => mret (RpcErr rpcErrInvalidParams (Errorf "missing txid and n parameters"))
  end.

Definition rpcGetTxOutSetInfo : R rpcResult :=
  info ← gets (λ s, TxOutSetInfo (s_chain s));
  mret (RpcOk (obj [
    ("height", num (to_Height info)); ("bestblock", hash_json (to_BestHash info));
    ("txouts", num (to_TxOuts info)); ("total_amount", num (to_TotalValue info))])).

Definition handleGetTxOutSetInfo : R Response := as_response rpcGetTxOutSetInfo.

(** ** Transactions *)

Definition vin_json (tx : Transaction) (i : TxInput) : json :=
  obj (("sequence", num (in_Sequence i)) ::
    if Transaction_IsCoinbase tx then [("coinbase", hex_json (in_SignatureScript i))]
    else [("txid", hash_json (op_Hash (in_PreviousOutPoint i))); ("vout", num (op_Index (in_PreviousOutPoint i)));
          ("scriptSig", obj [("hex", hex_json (in_SignatureScript i))])]).

Definition vout_json (n : nat) (o : TxOutput) : json :=
  obj [("value", num (out_Value o)); ("n", num (Z.of_nat n));
       ("scriptPubKey", obj [("hex", hex_json (out_PkScript o))])].

Definition buildVerboseTx s (tx : Transaction) (txHash : Hash) (hexData : list byte) (blockHeight : Z)
    (blockHash : Hash) : json :=
  let tipHeight := (Tip (s_chain s)).2 in
  let inBlock := negb (bool_decide (blockHash = ZeroHash)) in
  obj ([
    ("txid", hash_json txHash); ("hash", hash_json txHash); ("version", num (tx_Version tx));
    ("size", num (Transaction_SerializeSize tx)); ("locktime", num (tx_LockTime tx));
    ("vin", JArr (vin_json tx <$> tx_Inputs tx)); ("vout", JArr (imap vout_json (tx_Outputs tx)));
    ("hex", JStr hexData);
    ("confirmations", num (if inBlock && (blockHeight <=? tipHeight) then tipHeight - blockHeight + 1 else 0))] ++
    if inBlock then [("blockhash", hash_json blockHash); ("blockheight", num blockHeight)] else []).

(** A [range] over the outputs of the set. *)
Definition range_utxos : R (list (Hash * Z * UtxoEntry)) :=
  set ← gets (λ s, c_utxoSet (s_chain s)); on_p2p (range_map w (Set_ForEach set)).

Definition tx_in_block (block : Block) (txHash : Hash) : option Transaction :=
  List.find (λ tx, bool_decide (HashTransaction tx = txHash)) (blk_Transactions block).

Definition no_such_tx : rpcResult := RpcErr rpcErrMisc (Errorf "No such mempool or blockchain transaction").

Definition rpcGetRawTransaction (params : list json) : R rpcResult :=
  match params with
  | [] => mret (RpcErr rpcErrInvalidParams (Errorf "missing txid parameter"))
  | param0 :: rest =>
      try txidStr := pure (Unmarshal_string param0)
      else (λ e, RpcErr rpcErrInvalidParams (Wrapf "invalid txid" e)) in
      try txHash := pure (HashFromReverseHex txidStr)
      else (λ e, RpcErr rpcErrInvalidParams (Wrapf "invalid txid hex" e)) in
      let verbose := match rest with param1 :: _ => Unmarshal_bool param1 false | [] => false end in
      let answer tx blockHeight blockHash : R rpcResult :=
        let hexData := hex_EncodeToString (Transaction_SerializeToBytes tx) in
        if verbose then gets (λ s, RpcOk (buildVerboseTx s tx txHash hexData blockHeight blockHash))
        else mret (RpcOk (JStr hexData)) in
      entry ← gets (λ s, GetTxEntry (s_mempool s) txHash);
      match entry with
      | Some e => answer (te_Tx e) 0 ZeroHash
      | None =>
          items ← range_utxos;
          match List.find (λ hie, bool_decide (hie.1.1 = txHash)) items with
          | None => mret no_such_tx
          | Some hie =>
              let blockHeight := ue_Height hie.2 in
              try bh := asks (λ s, GetBlockByHeight (s_chain s) blockHeight)
              else (λ e, RpcErr rpcErrInternal (Wrapf "get block" e)) in
              match tx_in_block bh.1 txHash with
              | Some tx => answer tx blockHeight (HashBlockHeader (blk_Header bh.1))
              | None => mret no_such_tx
              end
          end
      end
  end.

Definition handleGetRawTransaction (r : Request) : R Response :=
  let txidStr := Query_Get r "txid" in
  if bool_decide (txidStr = []) then mret (WriteError StatusBadRequest (Errorf "missing txid parameter")) else
  let v := Query_Get r "verbose" in
  let verbose := bool_decide (v = str "true") || bool_decide (v = str "1") in
  result ← rpcGetRawTransaction (JStr txidStr :: if verbose then [JBool true] else []);
  mret (match result with
        | RpcOk j => WriteJSON j
        | RpcErr _ e => WriteError StatusNotFound e
        end).

Definition rpcDecodeRawTransaction (params : list json) : R rpcResult :=
  match params with
  | [] => mret (RpcErr rpcErrInvalidParams (Errorf "missing hex parameter"))
  | param :: _ =>
      try hexStr := pure (Unmarshal_string param)
      else (λ e, RpcErr rpcErrInvalidParams (Wrapf "invalid hex parameter" e)) in
      try txBytes := pure (hex_DecodeString hexStr)
      else (λ e, RpcErr rpcErrInvalidParams (Wrapf "invalid hex encoding" e)) in
      try tx := pure (fst <$> Transaction_Deserialize txBytes)
      else (λ e, RpcErr rpcErrInvalidParams (Wrapf "invalid transaction" e)) in
      gets (λ s, RpcOk (buildVerboseTx s tx (HashTransaction tx) hexStr 0 ZeroHash))
  end.
End queries.
