(* ===== verification/RpcWallet.v ===== *)
(** * internal/rpc: the wallet

    The handlers of wallet_rpc.go and the wallet methods of jsonrpc.go: addresses,
    balances, payments, signing, encryption.  A payment is built by the wallet
    from the unspent outputs of the chain, added to the pool and announced to the
    peers, as node.go connects the three ([SetBroadcastTx]).  How a
    wallet file is copied is not modelled. *)
From S2P Require Import Prelude Types Sha256 Target Merkle Params Utxo Keys Script TxValidation.
From S2P Require Import Algorithms Validation Difficulty Pow TimeAdjust BlockFiles Store Chain Heap Mempool.
From S2P Require Import Base58 Protocol Headers Scheduler Net Peer ManagerState Manager Aes Wallet WalletTx.
From S2P Require Import RpcBase RpcQuery.

Definition defaultFeePerByte : Z := 1.
Definition CoinsPerBaseUnit : Z := 10 ^ 8.
(** An amount in base units, and the same divided by [CoinsPerBaseUnit]. *)
Definition amount_fields (name : string) (v : Z) : list (string * json) :=
  [(name, num v); (name +:+ "_fair", JFloat v CoinsPerBaseUnit)].

Section wallet_rpc.
Context {St : Type} `{BlockStore St} `{C : CryptoLib, !HDLib, !HashLib} {PS : Type} `{PeerStore PS}.
Context (p : ChainParams) (w : World) (mwall : nat → Z).
Context (faults : nat → io_fault) (clock : nat → Z) (random : nat → list byte).
Context (sortByValue : list UnspentOutput → list UnspentOutput).
Implicit Types s : Server St PS.
Notation R := (proc (Server St PS)).

(** ** Guards *)

Definition requirePOST (r : Request) (k : R Response) : R Response :=
  if bool_decide (rq_Method r = "POST") then k
  else mret (WriteError StatusMethodNotAllowed (Errorf "POST required for state-changing operations")).
Definition requireWallet (k : R Response) : R Response :=
  has ← has_wallet;
  if has : bool then k else mret (WriteError StatusServiceUnavailable (Errorf "wallet not loaded")).
(** [if s.wallet == nil] of the JSON-RPC methods. *)
Definition rpc_wallet (k : R rpcResult) : R rpcResult :=
  has ← has_wallet;
  if has : bool then k else mret (RpcErr rpcErrWalletNotFound (Errorf "wallet not loaded")).
Definition missing (name : string) : Response := WriteError StatusBadRequest (Errorf ("missing " +:+ name)).

(** ** The outputs of the wallet *)

(** A [range] over the outputs of the set, as [makeUtxoIterator] passes them on. *)
Definition range_items : R (list utxo_item) :=
  set ← gets (λ s, c_utxoSet (s_chain s)); on_p2p (range_map w (makeUtxoIterator set)).

Definition wallet_unspent : R (list UnspentOutput * Z) :=
  tipHeight ← gets (λ s, (Tip (s_chain s)).2);
  items ← range_items;
  utxos ← wallet_get (λ wl, FindUnspent wl items tipHeight);
  mret (utxos, tipHeight).

Definition wallet_balance (minConf : Z) : R Z :=
  tipHeight ← gets (λ s, (Tip (s_chain s)).2);
  items ← range_items;
  wallet_get (λ wl, GetBalance wl items tipHeight minConf (p_CoinbaseMaturity p)).

(** ** The pool *)

Definition submitTxToMempool (tx : Transaction) : R Hash :=
  c ← gets s_chain;
  txHash ← on_p2p (on_mempool (AddTx p mwall (c_utxoSet c) (c_tipHeight c) tx));
  _ ← on_p2p (BroadcastTx w txHash);
  mret txHash.

(** ** Addresses *)

Definition handleGetNewAddress (r : Request) : R Response :=
  requirePOST r (requireWallet (
    try addr := on_wallet (GetNewAddress faults) else WriteError StatusInternalServerError in
    mret (WriteJSON (JStr addr)))).
Definition rpcGetNewAddress : R rpcResult :=
  rpc_wallet (try addr := on_wallet (GetNewAddress faults) else RpcErr rpcErrInternal in mret (RpcOk (JStr addr))).

Definition handleGetRawChangeAddress (r : Request) : R Response :=
  requirePOST r (requireWallet (
    try addr := on_wallet (GetChangeAddress faults) else WriteError StatusInternalServerError in
    mret (WriteJSON (JStr addr)))).
Definition rpcGetRawChangeAddress : R rpcResult :=
  rpc_wallet (try addr := on_wallet (GetChangeAddress faults) else RpcErr rpcErrInternal in mret (RpcOk (JStr addr))).

Definition address_json s (address : list byte) : json :=
  match AddressToPubKeyHash address with
  | Ok (ver, pkh) =>
      let isMine := match s_wallet s with
                    | Some wl => bool_decide (is_Some (w_keysByAddress wl !! address)) | None => false end in
      obj [("isvalid", JBool true); ("address", JStr address); ("scriptPubKey", hex_json (MakeP2PKHScript pkh));
           ("ismine", JBool isMine); ("iswatchonly", JBool false); ("isscript", JBool false);
           ("iswitness", JBool false); ("version", num (byte_to_Z ver))]
  | _ => obj [("isvalid", JBool false); ("address", JStr address)]
  end.

Definition handleValidateAddress (r : Request) : R Response :=
  let address := PostFormValue r "address" in
  if bool_decide (address = []) then mret (missing "address parameter")
  else gets (λ s, WriteJSON (address_json s address)).

(** Also [rpcGetAddressInfo], which has the same body. *)
Definition rpcValidateAddress (params : list json) : R rpcResult :=
  match params with
  | [] => mret (RpcErr rpcErrInvalidParams (Errorf "missing address parameter"))
  | param :: _ =>
      try addr := pure (Unmarshal_string param)
      else (λ e, RpcErr rpcErrInvalidParams (Wrapf "invalid address" e)) in
      gets (λ s, RpcOk (address_json s addr))
  end.
Definition rpcGetAddressInfo : list json → R rpcResult := rpcValidateAddress.

Definition handleGetAddressesByLabel (r : Request) : R Response :=
  requirePOST r (requireWallet (
    addrs ← wallet_get ExternalAddresses;
    mret (WriteJSON (JObj ((λ a, (a, obj [("purpose", text "receive")])) <$> remove_dups addrs))))).

(** ** Balances *)

Definition handleGetBalance (r : Request) : R Response :=
  requirePOST r (requireWallet (
    let minConfStr := PostFormValue r "minconf" in
    let minConf := match minConfStr with
                   | [] => 1
                   | _ => let '(v, ok) := ParseUint minConfStr 32 in if ok : bool then v else 1
                   end in
    balance ← wallet_balance minConf;
    mret (WriteJSON (obj (amount_fields "balance" balance))))).

(** A parameter read into its own variable, kept when that succeeds. *)
Definition param_u32 (params : list json) (i : nat) (dflt : Z) : Z :=
  match params !! i with
  | None => dflt
  | Some j => match Unmarshal_uint 32 j with Ok v => v | _ => dflt end
  end.

Definition rpcGetBalance (params : list json) : R rpcResult :=
  rpc_wallet (balance ← wallet_balance (param_u32 params 0 1); mret (RpcOk (num balance))).

Definition unlocked_until : R (list (string * json)) :=
  encrypted ← wallet_get w_encrypted;
  if encrypted : bool then
    locked ← on_wallet (IsLocked clock);
    mret [("unlocked_until", num (if locked : bool then 0 else -1))]
  else mret [].

Definition handleGetWalletInfo (r : Request) : R Response :=
  requirePOST r (requireWallet (
    balance ← wallet_balance 1;
    unconfirmed ← wallet_balance 0;
    count ← wallet_get KeyCount;
    fee ← gets s_feePerByte;
    addr ← wallet_get GetDefaultAddress;
    until ← unlocked_until;
    let until := match until with [] => [("unlocked_until", num 0)] | _ => until end in
    mret (WriteJSON (obj ([("walletname", text "default"); ("walletversion", num 1)] ++
      amount_fields "balance" balance ++
      [("unconfirmed_balance", num (u64 (unconfirmed - balance))); ("txcount", num 0);
       ("keypoolsize", num count); ("paytxfee", num fee); ("hdseedid", JStr addr);
       ("private_keys_enabled", JBool true)] ++ until))))).

Definition rpcGetWalletInfo : R rpcResult :=
  rpc_wallet (
    balance ← wallet_balance 1;
    count ← wallet_get KeyCount;
    fee ← gets s_feePerByte;
    addr ← wallet_get GetDefaultAddress;
    until ← unlocked_until;
    mret (RpcOk (obj ([("walletname", text "default"); ("walletversion", num 1); ("balance", num balance);
      ("unconfirmed_balance", num 0); ("txcount", num 0); ("keypoolsize", num count); ("paytxfee", num fee);
      ("hdseedid", JStr addr); ("private_keys_enabled", JBool true)] ++ until)))).

(** [handleGetInfo] and [rpcGetInfo]: the same answer. *)
Definition rpcGetInfo : R rpcResult :=
  tip ← gets (λ s, Tip (s_chain s));
  info ← chain_info p;
  has ← has_wallet;
  balance ← (if has : bool then wallet_balance 1 else mret 0);
  peers ← gets (λ s, PeerCount (s_p2p s));
  count ← gets (λ s, Count (s_mempool s));
  fee ← gets s_feePerByte;
  mret (RpcOk (obj [
    ("version", num ServerVersion); ("protocolversion", num ServerVersion); ("blocks", num tip.2);
    ("bestblockhash", hash_json tip.1); ("difficulty", ci_Difficulty info); ("connections", num peers);
    ("network", text (p_Name p)); ("mempool_size", num count); ("balance", num balance);
    ("paytxfee", num fee); ("errors", text "")])).
Definition handleGetInfo : R Response := as_response rpcGetInfo.

(** What an address received and still has, with [minConf] confirmations. *)
Definition received (script : list byte) (tipHeight minConf : Z) (items : list (Hash * Z * UtxoEntry)) : Z :=
  foldl (λ total hie,
    let e := hie.2 in
    if negb (bool_decide (ue_PkScript e = script)) then total
    else if confirmations tipHeight (ue_Height e) <? minConf then total
    else u64 (total + ue_Value e)) 0 items.

Definition handleGetReceivedByAddress (r : Request) : R Response :=
  requirePOST r (
    let address := PostFormValue r "address" in
    if bool_decide (address = []) then mret (missing "address parameter") else
    try vp := pure (AddressToPubKeyHash address) else (λ e, WriteError StatusBadRequest (Wrapf "invalid address" e)) in
    let minConfStr := PostFormValue r "minconf" in
    let minConf := match minConfStr with
                   | [] => 1
                   | _ => let '(v, ok) := ParseUint minConfStr 32 in if ok : bool then v else 1
                   end in
    tipHeight ← gets (λ s, (Tip (s_chain s)).2);
    items ← range_utxos w;
    mret (WriteJSON (obj (amount_fields "amount" (received (MakeP2PKHScript vp.2) tipHeight minConf items))))).

Definition handleListAddressGroupings (r : Request) : R Response :=
  requirePOST r (requireWallet (
    tipHeight ← gets (λ s, (Tip (s_chain s)).2);
    addrs ← wallet_get AllAddresses;
    grouping ← foldP (λ acc addr,
      match AddressToPubKeyHash addr with
      | Ok (_, pkh) =>
          items ← range_utxos w;
          let balance := received (MakeP2PKHScript pkh) tipHeight 1 items in
          mret (acc ++ [JArr [JStr addr; num balance; JFloat balance CoinsPerBaseUnit]])
      | _ => mret acc
      end) [] addrs;
    mret (WriteJSON (JArr [JArr grouping])))).

(** ** Lists of outputs *)

(** [extra]: the fields that only the HTTP handler has. *)
Definition unspent_json (extra : bool) (u : UnspentOutput) : json :=
  obj ([("txid", hash_json (uo_TxHash u)); ("vout", num (uo_Index u)); ("address", JStr (uo_Address u));
        ("scriptPubKey", hex_json (uo_PkScript u)); ("amount", num (uo_Value u))] ++
       (if extra then [("amount_fair", JFloat (uo_Value u) CoinsPerBaseUnit)] else []) ++
       [("confirmations", num (uo_Confirmations u)); ("spendable", JBool true)]).
Definition list_unspent (minConf maxConf : Z) (utxos : list UnspentOutput) : list UnspentOutput :=
  List.filter (λ u, negb ((uo_Confirmations u <? minConf) || (maxConf <? uo_Confirmations u)) &&
    negb (uo_IsCoinbase u && (uo_Confirmations u <? p_CoinbaseMaturity p))) utxos.

Definition handleListUnspent (r : Request) : R Response :=
  requirePOST r (requireWallet (
    let bound (v : list byte) (dflt : Z) := match v with [] => dflt | _ => (ParseUint v 32).1 end in
    let minConf := bound (PostFormValue r "minconf") 1 in
    let maxConf := bound (PostFormValue r "maxconf") 9999999 in
    ut ← wallet_unspent;
    mret (WriteJSON (JArr (unspent_json true <$> list_unspent minConf maxConf ut.1))))).

Definition rpcListUnspent (params : list json) : R rpcResult :=
  rpc_wallet (
    ut ← wallet_unspent;
    mret (RpcOk (JArr (unspent_json false <$>
      list_unspent (param_u32 params 0 1) (param_u32 params 1 9999999) ut.1)))).

Definition category (isCoinbase : bool) (confs : Z) : string :=
  if isCoinbase then if p_CoinbaseMaturity p <=? confs then "generate" else "immature" else "receive".

Definition transaction_json (extra : bool) (u : UnspentOutput) : json :=
  obj ([("address", JStr (uo_Address u)); ("category", text (category (uo_IsCoinbase u) (uo_Confirmations u)));
        ("amount", num (uo_Value u))] ++
       (if extra then [("amount_fair", JFloat (uo_Value u) CoinsPerBaseUnit)] else []) ++
       [("confirmations", num (uo_Confirmations u)); ("txid", hash_json (uo_TxHash u));
        ("vout", num (uo_Index u)); ("blockheight", num (uo_Height u))]).
(** [if len(l) > count { l = l[len(l)-count:] }]. *)
Definition last_n {A} (count : Z) (l : list A) : list A :=
  if count <? len l then drop (Z.to_nat (len l - count)) l else l.

Definition handleListTransactions (r : Request) : R Response :=
  requirePOST r (requireWallet (
    let countStr := PostFormValue r "count" in
    let count := match countStr with
                 | [] => 10
                 | _ => match ParseInt countStr with Some v => if 0 <? v then v else 10 | None => 10 end
                 end in
    ut ← wallet_unspent;
    mret (WriteJSON (JArr (transaction_json true <$> last_n count ut.1))))).

Definition param_int (params : list json) (i : nat) (ok : Z → bool) (dflt : Z) : Z :=
  match params !! i with
  | None => dflt
  | Some j => match Unmarshal_int j with Ok v => if ok v then v else dflt | _ => dflt end
  end.

Definition rpcListTransactions (params : list json) : R rpcResult :=
  rpc_wallet (
    let count := param_int params 1 (λ c, 0 <? c) 10 in
    let skip := param_int params 2 (λ c, 0 <=? c) 0 in
    ut ← wallet_unspent;
    let results := if skip <? len ut.1 then drop (Z.to_nat skip) ut.1 else [] in
    mret (RpcOk (JArr (transaction_json false <$> last_n count results)))).

(** ** Payments *)

Definition pay (address : list byte) (amount : Z) : R Transaction :=
  ut ← wallet_unspent;
  fee ← gets s_feePerByte;
  on_wallet (BuildTransaction faults clock sortByValue (mkSendRequest address amount) fee ut.1
    (p_CoinbaseMaturity p) ut.2).

Definition handleSendToAddress (r : Request) : R Response :=
  requirePOST r (requireWallet (
    try _ := on_wallet (RequireUnlocked clock) else WriteError StatusForbidden in
    let address := PostFormValue r "address" in
    let amountStr := PostFormValue r "amount" in
    if bool_decide (address = []) || bool_decide (amountStr = [])
    then mret (missing "address or amount parameter") else
    let '(amount, ok) := ParseUint amountStr 64 in
    if negb ok then mret (WriteError StatusBadRequest (Errorf "invalid amount")) else
    try tx := pay address amount else WriteError StatusBadRequest in
    try txHash := submitTxToMempool tx else (λ e, WriteError StatusBadRequest (Wrapf "mempool rejection" e)) in
    mret (WriteJSON (hash_json txHash)))).

Definition rpcSendToAddress (params : list json) : R rpcResult :=
  rpc_wallet (
    try _ := on_wallet (RequireUnlocked clock) else RpcErr rpcErrMisc in
    match params with
    | param0 :: param1 :: _ =>
        try address := pure (Unmarshal_string param0)
        else (λ e, RpcErr rpcErrInvalidParams (Wrapf "invalid address" e)) in
        try amount := pure (Unmarshal_uint 64 param1)
        else (λ e, RpcErr rpcErrInvalidParams (Wrapf "invalid amount" e)) in
        try tx := pay address amount else RpcErr rpcErrMisc in
        try txHash := submitTxToMempool tx else (λ e, RpcErr rpcErrMisc (Wrapf "mempool rejection" e)) in
        mret (RpcOk (hash_json txHash))
    | _ => mret (RpcErr rpcErrInvalidParams (Errorf "missing address and amount parameters"))
    end).

Definition rpcSendRawTransaction (params : list json) : R rpcResult :=
  match params with
  | [] => mret (RpcErr rpcErrInvalidParams (Errorf "missing hex transaction data"))
  | param :: _ =>
      try hexStr := pure (Unmarshal_string param)
      else (λ e, RpcErr rpcErrInvalidParams (Wrapf "invalid hex parameter" e)) in
      try txBytes := pure (hex_DecodeString hexStr)
      else (λ e, RpcErr rpcErrInvalidParams (Wrapf "invalid hex encoding" e)) in
      try tx := pure (fst <$> Transaction_Deserialize txBytes)
      else (λ e, RpcErr rpcErrInvalidParams (Wrapf "invalid transaction" e)) in
      try txHash := submitTxToMempool tx else RpcErr rpcErrMisc in
      mret (RpcOk (hash_json txHash))
  end.

Definition handleSendRawTransaction (r : Request) : R Response :=
  requirePOST r (
    let hexStr := PostFormValue r "hexstring" in
    if bool_decide (hexStr = []) then mret (missing "hexstring parameter") else
    try txBytes := pure (hex_DecodeString hexStr) else (λ e, WriteError StatusBadRequest (Wrapf "invalid hex" e)) in
    try tx := pure (fst <$> Transaction_Deserialize txBytes)
    else (λ e, WriteError StatusBadRequest (Wrapf "invalid transaction" e)) in
    try txHash := submitTxToMempool tx else (λ e, WriteError StatusBadRequest (Wrapf "rejected" e)) in
    mret (WriteJSON (hash_json txHash))).

(** ** A payment to several addresses *)

(** The outputs and their total, in the order of the [range] over the amounts. *)
Definition many_output (version : byte) (st : list TxOutput * Z) (aa : list byte * Z) : res (list TxOutput * Z) :=
  let '(outputs, totalSend) := st in
  let '(addr, amount) := aa in
  _ ← fail_if (amount =? 0) (Errorf "amount for %s must be > 0");
  vp ← wrap "invalid address %s" (AddressToPubKeyHash addr);
  _ ← fail_if (negb (bool_decide (vp.1 = version))) (Errorf "address %s: wrong network");
  Ok (outputs ++ [mkTxOutput amount (MakeP2PKHScript vp.2)], u64 (totalSend + amount)).

Definition filterSpendableUTXOs (utxos : list UnspentOutput) (coinbaseMaturity : Z) : list UnspentOutput :=
  List.filter (λ u, negb (uo_Confirmations u <? 1) &&
    negb (uo_IsCoinbase u && (uo_Confirmations u <? coinbaseMaturity))) utxos.

Fixpoint select_many (utxos : list UnspentOutput) (targetAmount feePerByte numOutputs : Z)
    (selected : list UnspentOutput) (totalIn : Z) : option (list UnspentOutput * Z) :=
  match utxos with
  | [] => None
  | u :: utxos' =>
      let selected := selected ++ [u] in
      let totalIn := u64 (totalIn + uo_Value u) in
      let fee := estimated_fee (len selected) (numOutputs + 1) feePerByte in
      if u64 (targetAmount + fee) <=? totalIn then Some (selected, totalIn)
      else select_many utxos' targetAmount feePerByte numOutputs selected totalIn
  end.
Definition selectCoinsForAmount (utxos : list UnspentOutput) (targetAmount feePerByte numOutputs : Z)
    : option (list UnspentOutput * Z) :=
  select_many (sortByValue utxos) targetAmount feePerByte numOutputs [] 0.

(** The outputs with the change; an error comes with its code. *)
Definition many_change (n totalIn totalSend feeRate : Z) (outputs : list TxOutput)
    (k : list TxOutput → R rpcResult) : R rpcResult :=
  let fee := estimated_fee n (len outputs) feeRate in
  if totalIn <? u64 (totalSend + fee) then mret (RpcErr rpcErrMisc (Errorf "insufficient funds for fee")) else
  let change := u64 (u64 (totalIn - totalSend) - fee) in
  if DustThreshold <? change then
    try changeAddr := on_wallet (GetChangeAddress faults)
    else (λ e, RpcErr rpcErrInternal (Wrapf "derive change address" e)) in
    try vp := pure (AddressToPubKeyHash changeAddr)
    else (λ e, RpcErr rpcErrInternal (Wrapf "decode change address" e)) in
    let fee := estimated_fee n (len outputs + 1) feeRate in
    let newChange := u64 (u64 (totalIn - totalSend) - fee) in
    k (if DustThreshold <? newChange then outputs ++ [mkTxOutput newChange (MakeP2PKHScript vp.2)] else outputs)
  else k outputs.

Definition rpcSendMany (params : list json) : R rpcResult :=
  rpc_wallet (
    try _ := on_wallet (RequireUnlocked clock) else RpcErr rpcErrMisc in
    match params with
    | _ :: param1 :: _ =>
        try amounts := pure (Unmarshal_amounts param1)
        else (λ e, RpcErr rpcErrInvalidParams (Wrapf "invalid amounts object" e)) in
        if bool_decide (amounts = ∅) then mret (RpcErr rpcErrInvalidParams (Errorf "amounts object is empty")) else
        it ← on_p2p (range_map w (map_to_list amounts));
        version ← wallet_get w_addrVersion;
        try ot := pure (foldM (many_output version) ([], 0) it) else RpcErr rpcErrInvalidParams in
        let '(outputs, totalSend) := ot in
        ut ← wallet_unspent;
        let spendable := filterSpendableUTXOs ut.1 (p_CoinbaseMaturity p) in
        if len spendable =? 0 then mret (RpcErr rpcErrMisc (Errorf "no spendable UTXOs available")) else
        feeRate ← gets s_feePerByte;
        match selectCoinsForAmount spendable totalSend feeRate (len outputs) with
        | None => mret (RpcErr rpcErrMisc (Errorf "insufficient funds"))
        | Some (selected, totalIn) =>
            many_change (len selected) totalIn totalSend feeRate outputs (λ outputs,
              wl ← wallet_get id;
              try tx := pure (foldiM (sign_selected wl)
                                (mkTransaction 1 (spend_input <$> selected) outputs ut.2) selected)
              else RpcErr rpcErrMisc in
              try txHash := submitTxToMempool tx else (λ e, RpcErr rpcErrMisc (Wrapf "mempool rejection" e)) in
              mret (RpcOk (hash_json txHash)))
        end
    | _ => mret (RpcErr rpcErrInvalidParams (Errorf "sendmany requires at least 2 parameters"))
    end).
Definition handleSendMany (r : Request) : R Response :=
  requirePOST r (requireWallet (
    mret (WriteError StatusBadRequest (Errorf "sendmany is only available via JSON-RPC")))).

(** ** Fees *)

Definition handleSetTxFee (r : Request) : R Response :=
  requirePOST r (
    let feeStr := PostFormValue r "amount" in
    if bool_decide (feeStr = []) then mret (missing "amount parameter") else
    let '(fee, ok) := ParseUint feeStr 64 in
    if negb ok then mret (WriteError StatusBadRequest (Errorf "invalid fee"))
    else if maxFeePerByte <? fee then mret (WriteError StatusBadRequest (Errorf "fee rate %d exceeds maximum"))
    else _ ← modify (set_s_feePerByte fee); mret (WriteJSON (JBool true))).

Definition rpcSetTxFee (params : list json) : R rpcResult :=
  match params with
  | [] => mret (RpcErr rpcErrInvalidParams (Errorf "missing amount parameter"))
  | param :: _ =>
      try fee := pure (Unmarshal_uint 64 param) else (λ e, RpcErr rpcErrInvalidParams (Wrapf "invalid fee" e)) in
      if maxFeePerByte <? fee then mret (RpcErr rpcErrInvalidParams (Errorf "fee rate %d exceeds maximum"))
      else _ ← modify (set_s_feePerByte fee); mret (RpcOk (JBool true))
  end.

(** ** Keys *)

Definition handleDumpPrivKey (r : Request) : R Response :=
  requirePOST r (requireWallet (
    let address := PostFormValue r "address" in
    if bool_decide (address = []) then mret (missing "address parameter") else
    try privKey := on_wallet (DumpPrivKey clock address) else WriteError StatusNotFound in
    mret (WriteJSON (JStr privKey)))).

Definition rpcDumpPrivKey (params : list json) : R rpcResult :=
  rpc_wallet (
    match params with
    | [] => mret (RpcErr rpcErrInvalidParams (Errorf "missing address parameter"))
    | param :: _ =>
        try addr := pure (Unmarshal_string param)
        else (λ e, RpcErr rpcErrInvalidParams (Wrapf "invalid address" e)) in
        try privKey := on_wallet (DumpPrivKey clock addr) else RpcErr rpcErrMisc in
        mret (RpcOk (JStr privKey))
    end).

Definition handleImportPrivKey (r : Request) : R Response :=
  requirePOST r (requireWallet (
    try _ := on_wallet (RequireUnlocked clock) else WriteError StatusForbidden in
    let privKeyHex := PostFormValue r "privkey" in
    if bool_decide (privKeyHex = []) then mret (missing "privkey parameter") else
    try addr := on_wallet (ImportPrivKey privKeyHex) else WriteError StatusBadRequest in
    mret (WriteJSON (obj [("address", JStr addr)])))).

Definition rpcImportPrivKey (params : list json) : R rpcResult :=
  rpc_wallet (
    try _ := on_wallet (RequireUnlocked clock) else RpcErr rpcErrMisc in
    match params with
    | [] => mret (RpcErr rpcErrInvalidParams (Errorf "missing privkey parameter"))
    | param :: _ =>
        try privKeyStr := pure (Unmarshal_string param)
        else (λ e, RpcErr rpcErrInvalidParams (Wrapf "invalid privkey" e)) in
        try addr := on_wallet (ImportPrivKey privKeyStr) else RpcErr rpcErrMisc in
        mret (RpcOk (obj [("address", JStr addr)]))
    end).

Definition handleDumpWallet (r : Request) : R Response :=
  requirePOST r (requireWallet (
    try _ := on_wallet (RequireUnlocked clock) else WriteError StatusForbidden in
    mnemonic ← on_wallet (Mnemonic clock);
    addrs ← wallet_get AllAddresses;
    count ← wallet_get KeyCount;
    mret (WriteJSON (obj [("mnemonic", JStr mnemonic); ("addresses", JArr (JStr <$> addrs));
                          ("keypoolsize", num count)])))).

Definition handleSignRawTransactionWithWallet (r : Request) : R Response :=
  requirePOST r (requireWallet (
    try _ := on_wallet (RequireUnlocked clock) else WriteError StatusForbidden in
    let hexStr := PostFormValue r "hexstring" in
    if bool_decide (hexStr = []) then mret (missing "hexstring parameter") else
    try txBytes := pure (hex_DecodeString hexStr) else (λ e, WriteError StatusBadRequest (Wrapf "invalid hex" e)) in
    try tx := pure (fst <$> Transaction_Deserialize txBytes)
    else (λ e, WriteError StatusBadRequest (Wrapf "invalid transaction" e)) in
    set ← gets (λ s, c_utxoSet (s_chain s));
    try sct := on_wallet (SignRawTransaction clock tx (λ txHash index, ue_PkScript <$> Set_Get set txHash index))
    else (λ e, WriteError StatusInternalServerError (Wrapf "signing failed" e)) in
    mret (WriteJSON (obj [("hex", hex_json (Transaction_SerializeToBytes sct.2)); ("complete", JBool sct.1.2)])))).

(** The base name of the destination and the copy of the wallet file under it are
    parameters: they touch no file that anything else reads. *)
Definition handleBackupWallet (backup : list byte → Server St PS → Response) (r : Request) : R Response :=
  requirePOST r (requireWallet (
    let dest := PostFormValue r "destination" in
    if bool_decide (dest = []) then mret (missing "destination parameter") else gets (backup dest))).

(** ** Transactions of the wallet *)

(** The address of a script, when there is a wallet to say for which network. *)
Definition script_address s (script : list byte) : list byte :=
  match ExtractP2PKHHash script, s_wallet s with
  | Some pkh, Some wl => PubKeyHashToAddress pkh (w_addrVersion wl)
  | _, _ => []
  end.

(** The outputs of a transaction among the unspent ones: what the loops of both
    handlers collect. *)
Record tx_scan : Type := mkTxScan { ts_height : Z; ts_total : Z; ts_coinbase : bool; ts_outs : list (Z * UtxoEntry) }.
Definition scan_tx (txHash : Hash) (acc : option tx_scan) (hie : Hash * Z * UtxoEntry) : option tx_scan :=
  let '(hash, index, e) := hie in
  if bool_decide (hash = txHash) then
    let sc := default (mkTxScan 0 0 false []) acc in
    Some (mkTxScan (ue_Height e) (u64 (ts_total sc + ue_Value e)) (ue_IsCoinbase e || ts_coinbase sc)
            (ts_outs sc ++ [(index, e)]))
  else acc.

Definition handleGetTransaction (r : Request) : R Response :=
  requirePOST r (
    let txidStr := PostFormValue r "txid" in
    if bool_decide (txidStr = []) then mret (missing "txid parameter") else
    try txHash := pure (HashFromReverseHex txidStr) else (λ e, WriteError StatusBadRequest (Wrapf "invalid txid" e)) in
    entry ← gets (λ s, GetTxEntry (s_mempool s) txHash);
    match entry with
    | Some e =>
        mret (WriteJSON (obj [("txid", JStr txidStr); ("confirmations", num 0);
          ("hex", hex_json (Transaction_Serialize (te_Tx e))); ("fee", num (te_Fee e))]))
    | None =>
        tipHeight ← gets (λ s, (Tip (s_chain s)).2);
        items ← range_utxos w;
        match foldl (scan_tx txHash) None items with
        | None => mret (WriteError StatusNotFound (Errorf "transaction not found (no tx index available)"))
        | Some sc =>
            gets (λ s, WriteJSON (obj [("txid", JStr txidStr); ("confirmations", num (confirmations tipHeight (ts_height sc)));
              ("blockheight", num (ts_height sc)); ("amount", num (ts_total sc));
              ("details", JArr ((λ ie, obj [("address", JStr (script_address s (ue_PkScript ie.2)));
                 ("vout", num ie.1); ("amount", num (ue_Value ie.2)); ("category", text "receive")]) <$> ts_outs sc))]))
        end
    end).

Definition detail_json s (tipHeight : Z) (ie : Z * UtxoEntry) : json :=
  let e := ie.2 in
  obj [("address", JStr (script_address s (ue_PkScript e))); ("vout", num ie.1); ("amount", num (ue_Value e));
       ("category", text (category (ue_IsCoinbase e) (confirmations tipHeight (ue_Height e))))].

(** The fields of the block a transaction is in: none when it cannot be read. *)
Definition block_fields (txHash : Hash) (blockHeight : Z) s : res (list (string * json)) :=
  match GetBlockByHeight (s_chain s) blockHeight with
  | Panic => Panic
  | Err _ => Ok [("time", num 0); ("timereceived", num 0)]
  | Ok (block, _) =>
      let t := num (hdr_Timestamp (blk_Header block)) in
      Ok ([("blockhash", hash_json (HashBlockHeader (blk_Header block))); ("blockheight", num blockHeight);
           ("blocktime", t); ("time", t); ("timereceived", t)] ++
          match tx_in_block block txHash with
          | Some tx => [("hex", hex_json (Transaction_Serialize tx))] | None => [] end)
  end.

Definition rpcGetTransaction (params : list json) : R rpcResult :=
  match params with
  | [] => mret (RpcErr rpcErrInvalidParams (Errorf "missing txid parameter"))
  | param :: _ =>
      try txidStr := pure (Unmarshal_string param)
      else (λ e, RpcErr rpcErrInvalidParams (Wrapf "invalid txid" e)) in
      try txHash := pure (HashFromReverseHex txidStr)
      else (λ e, RpcErr rpcErrInvalidParams (Wrapf "invalid txid hex" e)) in
      entry ← gets (λ s, GetTxEntry (s_mempool s) txHash);
      match entry with
      | Some e =>
          now ← on_p2p (Manager.now w);
          let t := num (now / second) in
          mret (RpcOk (obj [("txid", JStr txidStr); ("amount", num 0); ("confirmations", num 0);
            ("hex", hex_json (Transaction_Serialize (te_Tx e))); ("fee", num (te_Fee e)); ("time", t);
            ("timereceived", t); ("details", JArr [])]))
      | None =>
          tipHeight ← gets (λ s, (Tip (s_chain s)).2);
          items ← range_utxos w;
          match foldl (scan_tx txHash) None items with
          | None => mret (RpcErr rpcErrMisc (Errorf "Invalid or non-wallet transaction id"))
          | Some sc =>
              fields ← asks (block_fields txHash (ts_height sc));
              gets (λ s, RpcOk (obj ([("txid", JStr txidStr); ("amount", num (ts_total sc));
                ("confirmations", num (confirmations tipHeight (ts_height sc)));
                ("generated", JBool (ts_coinbase sc));
                ("details", JArr (detail_json s tipHeight <$> ts_outs sc))] ++ fields)))
          end
      end
  end.

Definition since_item (wl : HDWallet) (sinceHeight tipHeight : Z) s (acc : list json)
    (hie : Hash * Z * UtxoEntry) : res (list json) :=
  let '(hash, index, e) := hie in
  if ue_Height e <=? sinceHeight then Ok acc
  else if negb (IsOurScript wl (ue_PkScript e)) then Ok acc
  else
    let confs := confirmations tipHeight (ue_Height e) in
    fields ← match GetBlockByHeight (s_chain s) (ue_Height e) with
             | Panic => Panic
             | Err _ => Ok []
             | Ok (block, _) =>
                 let t := num (hdr_Timestamp (blk_Header block)) in
                 Ok [("blockhash", hash_json (HashBlockHeader (blk_Header block))); ("blocktime", t);
                     ("time", t); ("timereceived", t)]
             end;
    Ok (acc ++ [obj ([("address", JStr (script_address s (ue_PkScript e)));
      ("category", text (category (ue_IsCoinbase e) confs)); ("amount", num (ue_Value e)); ("vout", num index);
      ("confirmations", num confs); ("txid", hash_json hash); ("blockheight", num (ue_Height e))] ++ fields)]).

(** The height after which to list; a first parameter that is no string counts as
    missing. *)
Definition since_height (params : list json) : R (Z + Z * error) :=
  match params with
  | param :: _ =>
      match Unmarshal_string param with
      | Ok (b :: hashStr) =>
          match HashFromReverseHex (b :: hashStr) with
          | Ok blockHash =>
              gets (λ s, match GetBlockHeight (s_chain s) blockHash with
                         | Ok height => inl height
                         | _ => inr (rpcErrMisc, Errorf "block not found")
                         end)
          | Err e => mret (inr (rpcErrInvalidParams, Wrapf "invalid blockhash" e))
          | Panic => pure Panic
          end
      | _ => mret (inl 0)
      end
  | [] => mret (inl 0)
  end.

Definition rpcListSinceBlock (params : list json) : R rpcResult :=
  rpc_wallet (
    since ← since_height params;
    match since with
    | inr (code, e) => mret (RpcErr code e)
    | inl sinceHeight =>
        tip ← gets (λ s, Tip (s_chain s));
        items ← range_utxos w;
        wl ← wallet_get id;
        txns ← asks (λ s, foldM (since_item wl sinceHeight tip.2 s) [] items);
        mret (RpcOk (obj [("transactions", JArr txns); ("lastblock", hash_json tip.1)]))
    end).
Definition handleListSinceBlock (r : Request) : R Response :=
  requirePOST r (requireWallet (as_response (rpcListSinceBlock []))).

(** ** Encryption *)

Definition handleEncryptWallet (r : Request) : R Response :=
  requirePOST r (requireWallet (
    let passphrase := PostFormValue r "passphrase" in
    if bool_decide (passphrase = []) then mret (missing "passphrase parameter") else
    try _ := on_wallet (EncryptWallet faults random passphrase) else WriteError StatusBadRequest in
    mret (WriteJSON (text "wallet encrypted successfully, wallet is now locked")))).

Definition handleWalletPassphrase (r : Request) : R Response :=
  requirePOST r (requireWallet (
    let passphrase := PostFormValue r "passphrase" in
    let timeoutStr := PostFormValue r "timeout" in
    if bool_decide (passphrase = []) then mret (missing "passphrase parameter") else
    let timeout := match timeoutStr with
                   | [] => 300
                   | _ => match ParseInt timeoutStr with Some v => if 0 <? v then v else 300 | None => 300 end
                   end in
    try _ := on_wallet (WalletPassphrase faults clock passphrase timeout) else WriteError StatusForbidden in
    mret (WriteJSON (JBool true)))).

Definition rpcWalletPassphrase (params : list json) : R rpcResult :=
  rpc_wallet (
    match params with
    | param0 :: param1 :: _ =>
        try passphrase := pure (Unmarshal_string param0)
        else (λ e, RpcErr rpcErrInvalidParams (Wrapf "invalid passphrase" e)) in
        try timeout := pure (Unmarshal_int param1)
        else (λ e, RpcErr rpcErrInvalidParams (Wrapf "invalid timeout" e)) in
        try _ := on_wallet (WalletPassphrase faults clock passphrase timeout) else RpcErr rpcErrMisc in
        mret (RpcOk JNull)
    | _ => mret (RpcErr rpcErrInvalidParams (Errorf "walletpassphrase requires passphrase and timeout"))
    end).

Definition handleWalletLock (r : Request) : R Response :=
  requirePOST r (requireWallet (
    try _ := on_wallet WalletLock else WriteError StatusBadRequest in mret (WriteJSON (JBool true)))).
Definition rpcWalletLock : R rpcResult :=
  rpc_wallet (try _ := on_wallet WalletLock else RpcErr rpcErrMisc in mret (RpcOk JNull)).
End wallet_rpc.
