(* ===== verification/RpcMining.v ===== *)
(** * internal/rpc/mining_rpc.go: block templates and submission

    The template of the next block (BIP 22 and 23) with the default coinbase, the
    check of proposals, the submission of blocks with what follows their
    acceptance, and the statistics of mining.  A request that waits for a new
    template is registered by [handleLongPoll]; the wait itself, of at most thirty
    seconds, is over when the method goes on, and what happens meanwhile are other
    steps of the node. *)
From S2P Require Import Prelude Types Sha256 Target Merkle Params Utxo Keys Script TxValidation.
From S2P Require Import Algorithms Validation Difficulty Pow TimeAdjust BlockFiles Store Chain Heap Mempool.
From S2P Require Import Base58 Protocol Headers Scheduler Miner Net Peer ManagerState Manager Aes Wallet WalletTx.
From S2P Require Import RpcBase RpcQuery RpcWallet.

Record templateRequest : Type := mkTemplateRequest {
  tr_Mode : list byte;
  tr_Capabilities : list (list byte);
  tr_Rules : list (list byte);
  tr_LongPollID : list byte;
  tr_Data : list byte;
  tr_WorkID : list byte
}.
Definition no_request : templateRequest := mkTemplateRequest [] [] [] [] [] [].
Definition hasCapability (tr : templateRequest) (cap : string) : bool :=
  bool_decide (str cap ∈ tr_Capabilities tr).

(** What the answer to getblocktemplate is made of. *)
Record Template : Type := mkTemplate {
  tm_PreviousBlockHash : Hash;
  tm_Height : Z;
  tm_Entries : list (Transaction * Hash * Z * Z);
  tm_TotalFees : Z;
  tm_CoinbaseValue : Z;
  tm_Bits : Z;
  tm_CurTime : Z;
  tm_MinTime : Z;
  tm_MaxTime : Z;
  tm_LongPollID : list byte
}.

(** ** The text of a request body *)

(** The length of the white space at the head. *)
Definition white_len (s : list byte) : nat := match s with x0a :: _ => 1 | _ => space_len s end.

(** [bytes.TrimSpace]; every turn takes a space. *)
Fixpoint trim_left (fuel : nat) (s : list byte) : list byte :=
  match fuel with
  | O => s
  | S fuel' => match white_len s with O => s | n => trim_left fuel' (drop n s) end
  end.
(** The length of the space that ends [s]. *)
Definition last_space_len (s : list byte) : nat :=
  let ends n := bool_decide (n ≤ length s)%nat && bool_decide (white_len (drop (length s - n) s) = n) in
  if ends 1%nat then 1 else if ends 2%nat then 2 else if ends 3%nat then 3 else 0.
Fixpoint trim_right (fuel : nat) (s : list byte) : list byte :=
  match fuel with
  | O => s
  | S fuel' => match last_space_len s with O => s | n => trim_right fuel' (take (length s - n) s) end
  end.
Definition TrimSpace (s : list byte) : list byte :=
  let s := trim_left (length s) s in trim_right (length s) s.

Definition isHexString (s : list byte) : bool :=
  negb (bool_decide (s = [])) && (len s mod 2 =? 0) &&
  forallb (λ c, bool_decide (is_Some (hex_value c))) s.

(** [readLimitedBody]: the reader fails when it is asked for more after its limit,
    which the loop always does before it sees the end. *)
Definition maxBody : Z := 8 * 1024 * 1024.
Definition readLimitedBody (body : list byte) : res (list byte) :=
  if maxBody <=? len body then Err (Errorf "body too large") else Ok body.

(** ** Reasons of rejection *)

Definition lower_ascii (c : byte) : byte :=
  let n := byte_to_Z c in if (65 <=? n) && (n <=? 90) then Z_to_byte (n + 32) else c.
Definition ToLower (s : string) : string := String.string_of_list_byte (lower_ascii <$> str s).
Definition Contains (s needle : string) : bool := bool_decide (is_Some (String.index 0 needle s)).

Definition mapBlockErrorToRejection (errMsg : string) : string :=
  let has := Contains (ToLower errMsg) in
  if has "hash" && has "target" then "high-hash"
  else if has "pow" then "high-hash"
  else if has "prevblock" || has "prev_block" || has "parent" then "bad-prevblk"
  else if has "merkle" then "bad-txnmrklroot"
  else if has "timestamp" && has "future" then "time-too-new"
  else if has "timestamp" && (has "past" || has "median") then "time-too-old"
  else if has "timestamp" then "time-invalid"
  else if has "bits" || has "difficulty" then "bad-diffbits"
  else if has "coinbase" then "bad-cb-length"
  else if has "version" then "bad-version"
  else if has "duplicate" then "duplicate"
  else if has "transaction" then "bad-txns"
  else if has "size" then "bad-blk-length"
  else "rejected".

Section mining_rpc.
Context {St : Type} `{BlockStore St} `{C : CryptoLib, !HDLib, !HashLib} {PS : Type} `{PeerStore PS}.
Context (p : ChainParams) (engine : Engine) (w : World) (cwall cadjusted : nat → Z).
(** [json.Unmarshal] into a [templateRequest]. *)
Context (Unmarshal_template : json → res templateRequest).
Implicit Types s : Server St PS.
Notation R := (proc (Server St PS)).

(** ** The coinbase *)

(** The message is that of the miner without an extra nonce. *)
Definition buildDefaultCoinbase s (height value : Z) : Transaction :=
  let rewardScript :=
    match s_wallet s with
    | Some wl => match AddressToPubKeyHash (GetDefaultAddress wl) with
                 | Ok (_, pkh) => MakeP2PKHScript pkh | _ => [x00] end
    | None => [x00]
    end in
  buildCoinbase rewardScript height value.

(** ** Long polling *)

Definition longpoll_id s : list byte :=
  Hash_ReverseString (Tip (s_chain s)).1 ++ dec (Count (s_mempool s)).

Definition update_longpoll : R () :=
  modify (λ s, set_s_longPoll (longPoll_update (longpoll_id s) (s_longPoll s)) s).

(** The channel that is waited on, if any. *)
Definition handleLongPoll (longpollID : list byte) : R (option nat) :=
  current ← gets (λ s, lp_current (s_longPoll s));
  if negb (bool_decide (current = longpollID)) then mret None else
  r ← gets (λ s, longPoll_wait (s_longPoll s));
  _ ← modify (set_s_longPoll r.2);
  mret (Some r.1).

Definition NotifyBlockChange : R () := update_longpoll.

(** ** Proposals *)

Definition isValidMinDiffBits (block : Block) (tipHeader : BlockHeader) (tipHeight : Z) : bool :=
  p_AllowMinDifficultyBlocks p &&
  match p_ActivationHeights p !! "mindiffblocks" with
  | None => false
  | Some activationHeight =>
      negb (u32 (tipHeight + 1) <? activationHeight) &&
      (hdr_Bits (blk_Header block) =? p_MinBits p) &&
      (i64 (i64 (seconds (p_TargetBlockSpacing p)) * 2)
         <? hdr_Timestamp (blk_Header block) - hdr_Timestamp tipHeader)
  end.

Definition handleBlockProposal (req : templateRequest) : R rpcResult :=
  if bool_decide (tr_Data req = [])
  then mret (RpcErr rpcErrInvalidParams (Errorf "missing block data for proposal")) else
  let reason why := RpcOk (text why) in
  try blockBytes := pure (hex_DecodeString (tr_Data req)) else (λ _, reason "rejected") in
  try block := pure (fst <$> Block_Deserialize blockBytes) else (λ _, reason "rejected") in
  tip ← gets (λ s, Tip (s_chain s));
  if negb (bool_decide (hdr_PrevBlock (blk_Header block) = tip.1)) then mret (reason "bad-prevblk") else
  match blk_Transactions block with
  | [] => mret (reason "bad-txns")
  | tx :: _ =>
      if negb (Transaction_IsCoinbase tx) then mret (reason "bad-txns") else
      if negb (bool_decide (ComputeMerkleRoot (blk_Transactions block) = hdr_MerkleRoot (blk_Header block)))
      then mret (reason "bad-txnmrklroot") else
      try tipHeader := asks (λ s, TipHeader (s_chain s))
      else (λ e, RpcErr rpcErrInternal (Wrapf "get tip header" e)) in
      expectedBits ← asks (λ s, e_CalcNextBits engine tipHeader tip.2 (GetAncestor (s_chain s)) p);
      if (hdr_Bits (blk_Header block) =? expectedBits) || isValidMinDiffBits block tipHeader tip.2
      then mret (RpcOk JNull) else mret (reason "bad-diffbits")
  end.

(** ** The template *)

Definition get_template : R (Template + Z * error) :=
  tip ← gets (λ s, Tip (s_chain s));
  let '(tipHash, tipHeight) := tip in
  try tipHeader := asks (λ s, TipHeader (s_chain s))
  else (λ e, inr (rpcErrInternal, Wrapf "get tip header" e)) in
  let newHeight := u32 (tipHeight + 1) in
  let subsidy := CalcSubsidy p newHeight in
  it ← range_pool w;
  tmpl ← gets (λ s, BlockTemplate (s_mempool s) it);
  let coinbaseValue := u64 (subsidy + bt_TotalFees tmpl) in
  nextBits ← asks (λ s, e_CalcNextBits engine tipHeader tipHeight (GetAncestor (s_chain s)) p);
  now ← on_p2p (Manager.now w);
  let curTime := u32 (now / second) in
  let curTime := if curTime <=? hdr_Timestamp tipHeader then u32 (hdr_Timestamp tipHeader + 1) else curTime in
  info ← chain_info p;
  let minTime := u32 (ci_MedianTimePast info + 1) in
  let maxTime := u32 (curTime + u32 (seconds (p_MaxTimeFutureDrift p))) in
  longpollID ← gets longpoll_id;
  _ ← update_longpoll;
  mret (inl (mkTemplate tipHash newHeight (bt_Entries tmpl) (bt_TotalFees tmpl) coinbaseValue nextBits
               curTime minTime maxTime longpollID)).

Definition entry_fields (e : Transaction * Hash * Z * Z) : json :=
  let '(tx, hash, fee, size) := e in
  obj [("data", hex_json (Transaction_SerializeToBytes tx)); ("txid", hash_json hash); ("hash", hash_json hash);
       ("fee", num fee); ("sigops", num 0); ("weight", num (size * 4)); ("depends", JArr [])].

Definition min_difficulty_fields (newHeight : Z) : list (string * json) :=
  if p_AllowMinDifficultyBlocks p then
    match p_ActivationHeights p !! "mindiffblocks" with
    | Some activationHeight =>
        if activationHeight <=? newHeight then
          [("mindifficultybits", bits_json (p_MinBits p));
           ("mindifficultyafter", num (i64 (i64 (seconds (p_TargetBlockSpacing p)) * 2)))]
        else []
    | None => []
    end
  else [].

Definition coinbase_fields (cbTx : Transaction) (totalFees : Z) : json :=
  obj [("data", hex_json (Transaction_SerializeToBytes cbTx)); ("txid", hash_json (HashTransaction cbTx));
       ("hash", hash_json (HashTransaction cbTx)); ("fee", num (i64 (- i64 totalFees))); ("sigops", num 0);
       ("weight", num (Transaction_SerializeSize cbTx * 4)); ("depends", JArr []); ("required", JBool true)].

Definition template_json (t : Template) (coinbasetxn : option Transaction) : json :=
  let target := CompactToBig (tm_Bits t) in
  obj ([
    ("version", num 1); ("rules", JArr []); ("vbavailable", obj []); ("vbrequired", num 0);
    ("previousblockhash", hash_json (tm_PreviousBlockHash t));
    ("transactions", JArr (entry_fields <$> tm_Entries t)); ("coinbaseaux", obj [("flags", text "")]);
    ("coinbasevalue", num (tm_CoinbaseValue t)); ("longpollid", JStr (tm_LongPollID t));
    ("target", JStr (if 0 <? target then hex_padded 64 target else []));
    ("mintime", num (tm_MinTime t)); ("maxtime", num (tm_MaxTime t));
    ("mutable", JArr (text <$> ["time"; "time/increment"; "transactions/add"; "prevblock"; "coinbase/append"]));
    ("noncerange", text "00000000ffffffff"); ("sigoplimit", num 80000); ("sizelimit", num (p_MaxBlockSize p));
    ("weightlimit", num (u32 (p_MaxBlockSize p * 4))); ("curtime", num (tm_CurTime t));
    ("bits", bits_json (tm_Bits t)); ("height", num (tm_Height t)); ("capabilities", JArr [text "proposal"]);
    ("expires", num 120)] ++ min_difficulty_fields (tm_Height t) ++
    match coinbasetxn with Some tx => [("coinbasetxn", coinbase_fields tx (tm_TotalFees t))] | None => [] end).

Definition rpcGetBlockTemplate (params : list json) : R rpcResult :=
  try tmplReq := pure (match params with [] => Ok no_request | param :: _ => Unmarshal_template param end)
  else (λ e, RpcErr rpcErrInvalidParams (Wrapf "invalid template_request" e)) in
  if bool_decide (tr_Mode tmplReq = str "proposal") then handleBlockProposal tmplReq else
  _ ← (if bool_decide (tr_LongPollID tmplReq = []) then mret None else handleLongPoll (tr_LongPollID tmplReq));
  t ← get_template;
  match t with
  | inr (code, e) => mret (RpcErr code e)
  | inl t =>
      gets (λ s, RpcOk (template_json t
        (if hasCapability tmplReq "coinbasetxn"
         then Some (buildDefaultCoinbase s (tm_Height t) (tm_CoinbaseValue t)) else None)))
  end.
Definition handleGetBlockTemplate : R Response := as_response (rpcGetBlockTemplate []).

(** ** Submission *)

Definition postBlockAccept (block : Block) : R () :=
  _ ← modify (λ s, set_s_p2p (set_m_mempool (RemoveTxs (HashTransaction <$> blk_Transactions block) (s_mempool s))
                                (s_p2p s)) s);
  _ ← on_p2p (BroadcastBlock w (HashBlockHeader (blk_Header block)) block);
  NotifyBlockChange.

Definition submit_block (block : Block) : R (Z * option error) :=
  on_p2p (on_chain (ProcessBlock p engine cwall cadjusted block)).

Definition rpcSubmitBlock (params : list json) : R rpcResult :=
  match params with
  | [] => mret (RpcErr rpcErrInvalidParams (Errorf "missing hex block data"))
  | param :: _ =>
      try hexData := pure (Unmarshal_string param)
      else (λ e, RpcErr rpcErrInvalidParams (Wrapf "invalid hex parameter" e)) in
      try blockBytes := pure (hex_DecodeString hexData)
      else (λ e, RpcErr rpcErrInvalidParams (Wrapf "invalid hex encoding" e)) in
      try block := pure (fst <$> Block_Deserialize blockBytes) else (λ _, RpcOk (text "inconclusive")) in
      result ← submit_block block;
      match result.2 with
      | Some e => mret (RpcOk (text (mapBlockErrorToRejection (Error_text e))))
      | None => _ ← postBlockAccept block; mret (RpcOk JNull)
      end
  end.

Definition handleSubmitBlock (r : Request) : R Response :=
  if negb (bool_decide (rq_Method r = "POST"))
  then mret (WriteError StatusMethodNotAllowed (Errorf "POST required")) else
  try body := pure (readLimitedBody (rq_Body r)) else (λ e, WriteError StatusBadRequest (Wrapf "read body" e)) in
  let hexStr := TrimSpace body in
  try blockBytes := pure (if isHexString hexStr then hex_DecodeString hexStr else Ok body)
  else (λ e, WriteError StatusBadRequest (Wrapf "invalid hex" e)) in
  try block := pure (fst <$> Block_Deserialize blockBytes)
  else (λ e, WriteError StatusBadRequest (Wrapf "invalid block" e)) in
  result ← submit_block block;
  match result.2 with
  | Some e => mret (WriteError StatusBadRequest (Wrapf "rejected" e))
  | None =>
      _ ← postBlockAccept block;
      mret (WriteJSON (obj [("accepted", JBool true); ("hash", hash_json (HashBlockHeader (blk_Header block)));
                            ("height", num result.1)]))
  end.

Definition rpcPreciousBlock (_ : list json) : R rpcResult := mret (RpcOk JNull).
Definition handlePreciousBlock : R Response := mret (WriteJSON JNull).

(** ** Statistics *)

(** The work of the blocks from height [h] on, [n] of them; a block that cannot be
    read, or whose target is not positive, counts for nothing. *)
Fixpoint window_work (n : nat) (h : Z) (c : Chain St) : res Z :=
  match n with
  | O => Ok 0
  | S n' =>
      let rest := window_work n' (u32 (h + 1)) c in
      match GetHeaderByHeight c h with
      | Panic => Panic
      | Err _ => rest
      | Ok hdr =>
          let blockTarget := CompactToBig (hdr_Bits hdr) in
          if blockTarget <=? 0 then rest else (Z.add (2 ^ 256 / blockTarget)) <$> rest
      end
  end.

(** The rounding of the sum and of the quotient to floating point is left out. *)
Definition network_hash_ps (nblocks height : Z) (c : Chain St) : res json :=
  let tipHeight := (Tip c).2 in
  let endHeight := if (0 <=? height) && (u32 height <=? tipHeight) then u32 height else tipHeight in
  let nblocks := if (nblocks <=? 0) || (endHeight <? nblocks) then endHeight else nblocks in
  if nblocks =? 0 then Ok (JFloat 0 1) else
  let startHeight := endHeight - nblocks in
  match GetHeaderByHeight c endHeight, GetHeaderByHeight c startHeight with
  | Ok endHeader, Ok startHeader =>
      let timeDiff := hdr_Timestamp endHeader - hdr_Timestamp startHeader in
      if timeDiff <=? 0 then Ok (JFloat 0 1) else
      totalWork ← window_work (Z.to_nat nblocks) (startHeight + 1) c;
      Ok (JFloat totalWork timeDiff)
  | Panic, _ => Panic
  | Ok _, Panic => Panic
  | _, _ => Ok (JFloat 0 1)
  end.

Definition rpcGetNetworkHashPS (params : list json) : R rpcResult :=
  let nblocks := param_int params 0 (λ _, true) 120 in
  let height := param_int params 1 (λ _, true) (-1) in
  hashps ← asks (λ s, network_hash_ps nblocks height (s_chain s)); mret (RpcOk hashps).

(** A query parameter is read as JSON; [parse] gives a value that is no number for
    a text that is not. *)
Definition handleGetNetworkHashPS (parse : list byte → json) (r : Request) : R Response :=
  let nStr := Query_Get r "nblocks" in
  let hStr := Query_Get r "height" in
  let params := if bool_decide (nStr = []) then [] else [parse nStr] in
  let params := if bool_decide (hStr = []) then params
                else (match params with [] => [num 120] | _ => params end) ++ [parse hStr] in
  result ← rpcGetNetworkHashPS params;
  mret (match result with RpcOk j => WriteJSON j | RpcErr _ e => WriteError StatusBadRequest e end).

Definition rpcGetMiningInfo (_ : list json) : R rpcResult :=
  tipHeight ← gets (λ s, (Tip (s_chain s)).2);
  info ← chain_info p;
  hashps ← asks (λ s, network_hash_ps 120 (-1) (s_chain s));
  count ← gets (λ s, Count (s_mempool s));
  let chainName := if bool_decide (p_Name p = "mainnet") then "main"
                   else if bool_decide (p_Name p = "testnet") then "test" else p_Name p in
  mret (RpcOk (obj [
    ("blocks", num tipHeight); ("difficulty", ci_Difficulty info); ("networkhashps", hashps);
    ("pooledtx", num count); ("chain", text chainName); ("currentblockweight", num 0);
    ("currentblocksize", num 0); ("warnings", text "")])).
Definition handleGetMiningInfo : R Response := as_response (rpcGetMiningInfo []).
End mining_rpc.
