(* ===== verification/RpcServer.v ===== *)
(** * internal/rpc: dispatch, routes and middleware

    The table of JSON-RPC methods, requests and batches over HTTP, the routes of
    the server, and what every request passes through: the recovery from panics,
    the limit on the rate of requests and the authentication.  The parser of
    encoding/json is a parameter: what it returns for the text of a body. *)
From S2P Require Import Prelude Types Sha256 Target Merkle Params Utxo Keys Script TxValidation.
From S2P Require Import Algorithms Validation Difficulty Pow TimeAdjust BlockFiles Store Chain Heap Mempool.
From S2P Require Import Base58 Protocol Headers Scheduler Miner Net Peer ManagerState Manager Aes Wallet WalletTx.
From S2P Require Import RpcBase RpcQuery RpcWallet RpcMining.

Record jsonRPCRequest : Type := mkRPCRequest {
  jr_ID : json;
  jr_Method : string;
  jr_Params : list json
}.

(** What the server takes from outside: what the parser of JSON makes of a body, of
    a template request and of a query parameter, the resolver of host names, the system calls, the clock
    and the random source of the wallet, and the order in which [sort.Slice] puts
    outputs of the same value. *)
Record Outside : Type := mkOutside {
  os_request : list byte → res jsonRPCRequest;
  os_batch : list byte → res (list jsonRPCRequest);
  os_template : json → res templateRequest;
  os_json : list byte → json;
  os_LookupIP : list byte → res (list IP);
  os_faults : nat → io_fault;
  os_clock : nat → Z;
  os_random : nat → list byte;
  os_sort : list UnspentOutput → list UnspentOutput
}.

(** The reports on the peers with their traffic and on the metrics of the process,
    and the copy of the wallet file: they read the node, or counters that nothing
    else reads, and answer. *)
Record Reports (S : Type) : Type := mkReports {
  rp_peers : S → json;
  rp_metrics : S → json;
  rp_prometheus : S → Response;
  rp_backup : list byte → S → Response
}.
Arguments mkReports {S}.
Arguments rp_peers {S}.
Arguments rp_metrics {S}.
Arguments rp_prometheus {S}.
Arguments rp_backup {S}.

(** The credentials; without a user there is no authentication. *)
Record AuthConfig : Type := mkAuth { au_User : list byte; au_Password : list byte }.

Definition maxBatchSize : Z := 100.

Section rpc_server.
Context {St : Type} `{BlockStore St} `{C : CryptoLib, !HDLib, !HashLib} {PS : Type} `{PeerStore PS}.
Context (p : ChainParams) (engine : Engine) (w : World) (cwall cadjusted mwall : nat → Z).
Context (o : Outside) (auth : AuthConfig) (reports : Reports (Server St PS)).
Implicit Types s : Server St PS.
Notation R := (proc (Server St PS)).

(** [rpc.New], with the wallet that node.go sets. *)
Definition rpc_New (m : Manager St PS) (wl : option HDWallet) : Server St PS :=
  mkServer m wl defaultFeePerByte (mkLongPoll [] [] ∅ 0) ∅ false.

Definition stop_text : json := text "Fairchain server stopping".
Definition rpcStop : R rpcResult := _ ← modify (set_s_stopping true); mret (RpcOk stop_text).
Definition handleStop (r : Request) : R Response :=
  if negb (bool_decide (rq_Method r = "POST"))
  then mret (WriteError StatusMethodNotAllowed (Errorf "POST required"))
  else _ ← modify (set_s_stopping true); mret (WriteJSON stop_text).

(** ** JSON-RPC *)

(** The table of methods. *)
Definition methodMap : list (string * (list json → R rpcResult)) := [
  ("getblocktemplate", rpcGetBlockTemplate p engine w (os_template o));
  ("submitblock", rpcSubmitBlock p engine w cwall cadjusted);
  ("getmininginfo", rpcGetMiningInfo p);
  ("getnetworkhashps", rpcGetNetworkHashPS);
  ("preciousblock", rpcPreciousBlock);
  ("getblockchaininfo", λ _, rpcGetBlockchainInfo p);
  ("getblockcount", λ _, rpcGetBlockCount);
  ("getbestblockhash", λ _, rpcGetBestBlockHash);
  ("getblockhash", rpcGetBlockHash);
  ("getblock", rpcGetBlock p);
  ("getdifficulty", λ _, rpcGetDifficulty p);
  ("getrawtransaction", rpcGetRawTransaction w);
  ("sendrawtransaction", rpcSendRawTransaction p w mwall);
  ("getnetworkinfo", λ _, rpcGetNetworkInfo);
  ("getpeerinfo", λ _, gets (λ s, RpcOk (rp_peers reports s)));
  ("getconnectioncount", λ _, rpcGetConnectionCount);
  ("getmempoolinfo", λ _, rpcGetMempoolInfo p w);
  ("getrawmempool", rpcGetRawMempool w);
  ("gettxout", rpcGetTxOut);
  ("gettxoutsetinfo", λ _, rpcGetTxOutSetInfo);
  ("validateaddress", rpcValidateAddress);
  ("getaddressinfo", rpcGetAddressInfo);
  ("getnewaddress", λ _, rpcGetNewAddress (os_faults o));
  ("getbalance", rpcGetBalance p w);
  ("getwalletinfo", λ _, rpcGetWalletInfo p w (os_clock o));
  ("listunspent", rpcListUnspent p w);
  ("dumpprivkey", rpcDumpPrivKey (os_clock o));
  ("importprivkey", rpcImportPrivKey (os_clock o));
  ("settxfee", rpcSetTxFee);
  ("sendtoaddress", rpcSendToAddress p w mwall (os_faults o) (os_clock o) (os_sort o));
  ("sendmany", rpcSendMany p w mwall (os_faults o) (os_clock o) (os_sort o));
  ("gettransaction", rpcGetTransaction p w);
  ("listtransactions", rpcListTransactions p w);
  ("listsinceblock", rpcListSinceBlock p w);
  ("walletpassphrase", rpcWalletPassphrase (os_faults o) (os_clock o));
  ("walletlock", λ _, rpcWalletLock);
  ("getrawchangeaddress", λ _, rpcGetRawChangeAddress (os_faults o));
  ("decoderawtransaction", rpcDecodeRawTransaction);
  ("getinfo", λ _, rpcGetInfo p w);
  ("stop", λ _, rpcStop)].

Definition find_method (method : string) : option (list json → R rpcResult) :=
  snd <$> List.find (λ nh, bool_decide (nh.1 = method)) methodMap.

Definition error_json (e : error) : json := JStr (str (Error_text e)).
Definition rpc_response (id : json) (r : rpcResult) : json :=
  match r with
  | RpcOk j => obj [("result", j); ("error", JNull); ("id", id)]
  | RpcErr code e => obj [("result", JNull); ("error", obj [("code", num code); ("message", error_json e)]); ("id", id)]
  end.

Definition dispatchJSONRPC (req : jsonRPCRequest) : R json :=
  if bool_decide (jr_Method req = "")
  then mret (rpc_response (jr_ID req) (RpcErr rpcErrInvalidRequest (Errorf "missing method"))) else
  match find_method (jr_Method req) with
  | None => mret (rpc_response (jr_ID req) (RpcErr rpcErrMethodNotFound (Errorf "method %q not found")))
  | Some handler => result ← handler (jr_Params req); mret (rpc_response (jr_ID req) result)
  end.

Definition DispatchRPC (method : string) (params : list json) : R rpcResult :=
  match find_method method with
  | None => mret (RpcErr rpcErrMethodNotFound (Errorf "method %q not found"))
  | Some handler => handler params
  end.

Definition writeJSONRPCError (code : Z) (e : error) : R Response :=
  mret (WriteJSON (rpc_response JNull (RpcErr code e))).

Definition handleBatchJSONRPC (body : list byte) : R Response :=
  match os_batch o body with
  | Panic => pure Panic
  | Err e => writeJSONRPCError rpcErrParse (Wrapf "parse batch JSON" e)
  | Ok reqs =>
      if len reqs =? 0 then writeJSONRPCError rpcErrInvalidRequest (Errorf "empty batch")
      else if maxBatchSize <? len reqs then writeJSONRPCError rpcErrInvalidRequest (Errorf "batch too large")
      else
        responses ← foldP (λ acc req, resp ← dispatchJSONRPC req; mret (acc ++ [resp])) [] reqs;
        mret (WriteJSON (JArr responses))
  end.

Definition handleJSONRPC (r : Request) : R Response :=
  if negb (bool_decide (rq_Method r = "POST"))
  then writeJSONRPCError rpcErrInvalidRequest (Errorf "POST required") else
  let body := take (Z.to_nat maxBody) (rq_Body r) in
  match TrimSpace body with
  | [] => writeJSONRPCError rpcErrParse (Errorf "empty body")
  | x5b :: rest => handleBatchJSONRPC (x5b :: rest)
  | trimmed =>
      match os_request o trimmed with
      | Panic => pure Panic
      | Err e => writeJSONRPCError rpcErrParse (Wrapf "parse JSON" e)
      | Ok req => resp ← dispatchJSONRPC req; mret (WriteJSON resp)
      end
  end.

(** ** Routes *)

(** The handlers of the mux; a path that is not in the table goes to JSON-RPC. *)
Definition routes : list (string * (Request → R Response)) := [
  ("/getblockchaininfo", λ _, handleGetBlockchainInfo p);
  ("/getblockcount", λ _, handleGetBlockCount);
  ("/getbestblockhash", λ _, handleGetBestBlockHash);
  ("/getblockhash", handleGetBlockHash);
  ("/getblock", handleGetBlock p);
  ("/getblockbyheight", handleGetBlockByHeight);
  ("/getdifficulty", λ _, handleGetDifficulty p);
  ("/getnetworkinfo", λ _, handleGetNetworkInfo);
  ("/getpeerinfo", λ _, gets (λ s, WriteJSON (rp_peers reports s)));
  ("/getconnectioncount", λ _, handleGetConnectionCount);
  ("/addnode", handleAddNode w (os_LookupIP o));
  ("/disconnectnode", handleDisconnectNode);
  ("/getmempoolinfo", λ _, handleGetMempoolInfo p w);
  ("/getrawmempool", handleGetRawMempool w);
  ("/getmempoolentry", handleGetMempoolEntry);
  ("/gettxout", handleGetTxOut);
  ("/gettxoutsetinfo", λ _, handleGetTxOutSetInfo);
  ("/getblocktemplate", λ _, handleGetBlockTemplate p engine w (os_template o));
  ("/submitblock", handleSubmitBlock p engine w cwall cadjusted);
  ("/getmininginfo", λ _, handleGetMiningInfo p);
  ("/getnetworkhashps", handleGetNetworkHashPS (os_json o));
  ("/preciousblock", λ _, handlePreciousBlock);
  ("/getrawtransaction", handleGetRawTransaction w);
  ("/getinfo", λ _, handleGetInfo p w);
  ("/stop", handleStop);
  ("/getnewaddress", handleGetNewAddress (os_faults o));
  ("/getbalance", handleGetBalance p w);
  ("/listunspent", handleListUnspent p w);
  ("/sendtoaddress", handleSendToAddress p w mwall (os_faults o) (os_clock o) (os_sort o));
  ("/getwalletinfo", handleGetWalletInfo p w (os_clock o));
  ("/dumpprivkey", handleDumpPrivKey (os_clock o));
  ("/importprivkey", handleImportPrivKey (os_clock o));
  ("/listtransactions", handleListTransactions p w);
  ("/validateaddress", handleValidateAddress);
  ("/getrawchangeaddress", handleGetRawChangeAddress (os_faults o));
  ("/settxfee", handleSetTxFee);
  ("/sendrawtransaction", handleSendRawTransaction p w mwall);
  ("/signrawtransactionwithwallet", handleSignRawTransactionWithWallet (os_clock o));
  ("/getreceivedbyaddress", handleGetReceivedByAddress w);
  ("/listaddressgroupings", handleListAddressGroupings w);
  ("/backupwallet", handleBackupWallet (rp_backup reports));
  ("/getaddressesbylabel", handleGetAddressesByLabel);
  ("/gettransaction", handleGetTransaction w);
  ("/listsinceblock", handleListSinceBlock p w);
  ("/sendmany", handleSendMany);
  ("/encryptwallet", handleEncryptWallet (os_faults o) (os_random o));
  ("/walletpassphrase", handleWalletPassphrase (os_faults o) (os_clock o));
  ("/walletlock", handleWalletLock);
  ("/getchainstatus", λ _, handleGetChainStatus p);
  ("/metrics", λ _, gets (λ s, WriteJSON (rp_metrics reports s)));
  ("/prom", λ _, gets (rp_prometheus reports));
  ("/dumpwallet", handleDumpWallet (os_clock o))].

Definition mux (r : Request) : R Response :=
  match List.find (λ ph, bool_decide (ph.1 = rq_Path r)) routes with
  | Some ph => ph.2 r
  | None => handleJSONRPC r
  end.

(** ** Middleware *)

Definition authorized (r : Request) : bool :=
  match rq_Auth r with
  | Some (user, pass) => bool_decide (user = au_User auth) && bool_decide (pass = au_Password auth)
  | None => false
  end.
Definition authMiddleware (next : Request → R Response) (r : Request) : R Response :=
  if authorized r then next r else mret (WriteError StatusUnauthorized (Errorf "unauthorized")).

Definition client_ip (r : Request) : list byte :=
  let ip := match SplitHostPort (rq_RemoteAddr r) with Ok (host, _) => host | _ => [] end in
  if bool_decide (ip = []) then rq_RemoteAddr r else ip.

Definition rateLimitMiddleware (next : Request → R Response) (r : Request) : R Response :=
  now ← on_p2p (Manager.now w);
  allowed ← gets (λ s, Allow (client_ip r) now (s_rateLimiter s));
  _ ← modify (set_s_rateLimiter allowed.2);
  if allowed.1 : bool then next r
  else mret (WriteError StatusTooManyRequests (Errorf "rate limit exceeded")).

Definition recoveryMiddleware (next : Request → R Response) (r : Request) : R Response := λ s,
  match next r s with
  | (Panic, s') => (Ok (WriteError StatusInternalServerError (Errorf "internal server error")), s')
  | rs => rs
  end.

(** The handler of the server. *)
Definition serve : Request → R Response :=
  recoveryMiddleware (rateLimitMiddleware (if bool_decide (au_User auth = []) then mux else authMiddleware mux)).
End rpc_server.
