(* ===== verification/Conf.v ===== *)
(** * internal/config: the configuration of the node

    The settings with their defaults, and the configuration file in sections.  The
    JSON file and the paths of the data directory are not modelled. *)
From S2P Require Import Prelude Types Sha256 Target Merkle Params Utxo Keys Script TxValidation.
From S2P Require Import Algorithms Validation Difficulty Pow TimeAdjust BlockFiles Store Chain Heap Mempool.
From S2P Require Import Base58 Protocol Headers Scheduler Miner Net Peer ManagerState Manager Aes Wallet WalletTx.
From S2P Require Import RpcBase RpcQuery RpcWallet RpcMining.


(** The settings.  The data directory of the user is a parameter of the defaults. *)
Record config_Config : Type := mkNodeConfig {
  cfg_Network : list byte;
  cfg_DataDir : list byte;
  cfg_DataDirName : list byte;
  cfg_ListenAddr : list byte;
  cfg_RPCAddr : list byte;
  cfg_SeedPeers : list (list byte);
  cfg_MaxInbound : Z;
  cfg_MaxOutbound : Z;
  cfg_MiningEnabled : bool;
  cfg_MiningAddr : list byte;
  cfg_LogLevel : list byte;
  cfg_RPCUser : list byte;
  cfg_RPCPassword : list byte
}.

Definition DefaultConfig (defaultDataDir : list byte) : config_Config :=
  mkNodeConfig (str "regtest") defaultDataDir [] (str "0.0.0.0:19444") (str "127.0.0.1:19445") [] 25 8 false []
    (str "info") [] [].

(** ** Package strings *)

(** The separator is a byte: [strings.Split(s, ",")], and the lines of a file. *)
Fixpoint Split (sep : byte) (s : list byte) : list (list byte) :=
  match s with
  | [] => [[]]
  | c :: s' =>
      if bool_decide (c = sep) then [] :: Split sep s'
      else match Split sep s' with [] => [[c]] | part :: parts => (c :: part) :: parts end
  end.
(** [strings.SplitN(s, "=", 2)], when there is a separator. *)
Fixpoint Cut (sep : byte) (s : list byte) : option (list byte * list byte) :=
  match s with
  | [] => None
  | c :: s' => if bool_decide (c = sep) then Some ([], s') else prod_map (cons c) id <$> Cut sep s'
  end.

Definition bracket (c : byte) : bool := bool_decide (c = x5b ∨ c = x5d).
Fixpoint trim_brackets (s : list byte) : list byte :=
  match s with [] => [] | c :: s' => if bracket c then trim_brackets s' else s end.
(** [strings.Trim(s, "[]")]. *)
Definition Trim (s : list byte) : list byte := reverse (trim_brackets (reverse (trim_brackets s))).

(** ** The configuration file *)

Definition confSectionName (network : list byte) : list byte :=
  if bool_decide (network = str "mainnet") then str "main"
  else if bool_decide (network = str "testnet") then str "test"
  else network.

Definition applyConfOption (cfg : config_Config) (key val : list byte) : config_Config :=
  let '(mkNodeConfig network dataDir dirName listen rpc seeds maxIn maxOut mine mineAddr level user pass) := cfg in
  let named s := bool_decide (key = str s) in
  if named "network" then mkNodeConfig val dataDir dirName listen rpc seeds maxIn maxOut mine mineAddr level user pass
  else if named "datadir" then mkNodeConfig network val dirName listen rpc seeds maxIn maxOut mine mineAddr level user pass
  else if named "listen" then mkNodeConfig network dataDir dirName val rpc seeds maxIn maxOut mine mineAddr level user pass
  else if named "rpc" then mkNodeConfig network dataDir dirName listen val seeds maxIn maxOut mine mineAddr level user pass
  else if named "mine" then
    mkNodeConfig network dataDir dirName listen rpc seeds maxIn maxOut
      (bool_decide (val = str "1") || bool_decide (val = str "true")) mineAddr level user pass
  else if named "miningaddr" then mkNodeConfig network dataDir dirName listen rpc seeds maxIn maxOut mine val level user pass
  else if named "loglevel" then mkNodeConfig network dataDir dirName listen rpc seeds maxIn maxOut mine mineAddr val user pass
  else if named "maxinbound" then
    mkNodeConfig network dataDir dirName listen rpc seeds (default maxIn (Sscanf_d val)) maxOut mine mineAddr level user pass
  else if named "maxoutbound" then
    mkNodeConfig network dataDir dirName listen rpc seeds maxIn (default maxOut (Sscanf_d val)) mine mineAddr level user pass
  else if named "seedpeers" then
    mkNodeConfig network dataDir dirName listen rpc (Split x2c val) maxIn maxOut mine mineAddr level user pass
  else if named "rpcuser" then mkNodeConfig network dataDir dirName listen rpc seeds maxIn maxOut mine mineAddr level val pass
  else if named "rpcpassword" then mkNodeConfig network dataDir dirName listen rpc seeds maxIn maxOut mine mineAddr level user val
  else cfg.

(** What a line says, once the space around it is removed.  Section names are in
    ASCII. *)
Inductive conf_line : Type :=
| ConfNothing
| ConfSection (name : list byte)
| ConfSetting (key val : list byte).

Definition read_line (text : list byte) : conf_line :=
  let line := TrimSpace text in
  if bool_decide (line = []) || bool_decide (line !! 0%nat = Some x23) then ConfNothing
  else if bool_decide (line !! 0%nat = Some x5b) && bool_decide (last line = Some x5d)
  then ConfSection (lower_ascii <$> Trim line)
  else match Cut x3d line with
       | None => ConfNothing
       | Some (key, val) => ConfSetting (TrimSpace key) (TrimSpace val)
       end.

Definition conf_step (sectionForNetwork : list byte) (st : list byte * config_Config) (line : conf_line)
    : list byte * config_Config :=
  match line with
  | ConfNothing => st
  | ConfSection name => (name, st.2)
  | ConfSetting key val =>
      if negb (bool_decide (st.1 = [])) && negb (bool_decide (st.1 = sectionForNetwork)) then st
      else (st.1, applyConfOption st.2 key val)
  end.

(** [bufio.Scanner]: a line that fills the buffer is an error.  The carriage return
    before the end of a line is space that is trimmed. *)
Definition MaxScanTokenSize : Z := 64 * 1024.

Definition conf_lines (data : list byte) : list conf_line := read_line <$> Split x0a data.

(** [data] is the content of the file, or why it cannot be opened; none when there
    is no file. *)
Definition LoadConf (defaultDataDir : list byte) (data : res (option (list byte))) (network : list byte)
    : res config_Config :=
  let cfg := DefaultConfig defaultDataDir in
  data ← wrap "open conf" data;
  match data with
  | None => Ok cfg
  | Some data =>
      _ ← fail_if (existsb (λ line, MaxScanTokenSize <=? len line) (Split x0a data))
            (Wrapf "read conf" (Sentinel "bufio.Scanner: token too long"));
      Ok (foldl (conf_step (confSectionName network)) ([], cfg) (conf_lines data)).2
  end.

(** ** Sections *)

(** The settings that apply, in order: those before the first section, and those of
    sections of the network. *)
Fixpoint effective (section current : list byte) (lines : list conf_line) : list (list byte * list byte) :=
  match lines with
  | [] => []
  | ConfNothing :: rest => effective section current rest
  | ConfSection name :: rest => effective section name rest
  | ConfSetting key val :: rest =>
      (if bool_decide (current = [] ∨ current = section) then [(key, val)] else []) ++ effective section current rest
  end.

Lemma LoadConf_effective section lines current cfg :
  (foldl (conf_step section) (current, cfg) lines).2 =
  foldl (λ cfg kv, applyConfOption cfg kv.1 kv.2) cfg (effective section current lines).
Proof.
  revert current cfg. induction lines as [|[|name|key val] lines IH]; intros current cfg; cbn; [done|done|apply IH|].
  rewrite foldl_app. destruct (decide (current = [])) as [->|Hc].
  { rewrite (bool_decide_true ([] = [] ∨ _)) by auto. cbn. apply IH. }
  rewrite (bool_decide_false (current = [])) by done. destruct (decide (current = section)) as [->|Hs].
  { rewrite (bool_decide_true (section = section)), (bool_decide_true (_ ∨ _)) by auto. cbn. apply IH. }
  rewrite (bool_decide_false (current = section)), (bool_decide_false (_ ∨ _)) by naive_solver. apply IH.
Qed.

(** A file that says [network=mainnet] and has its RPC address in the section of
    that network is read for the network of the command line: without a flag, which
    means regtest, the address is not used. *)
Example network_setting_does_not_select_section :
  let file := str "network=mainnet" ++ [x0a] ++ str "[main]" ++ [x0a] ++ str "rpc = 10.0.0.1:1" ++ [x0a] in
  (λ cfg, (cfg_Network cfg, cfg_RPCAddr cfg)) <$> LoadConf [] (Ok (Some file)) (str "regtest")
    = Ok (str "mainnet", str "127.0.0.1:19445") ∧
  cfg_RPCAddr <$> LoadConf [] (Ok (Some file)) (str "mainnet") = Ok (str "10.0.0.1:1").
Proof. split; by vm_compute. Qed.
