(* ===== verification/Discovery.v ===== *)
(** * internal/p2p/discovery and internal/store/peerdump.go: addresses of peers

    The addresses that a node starts with, and the file peers.dat that the addresses
    of the peer store are written to when the node stops and read from when it
    starts. *)
From S2P Require Import Prelude Types Sha256 Target Merkle Params Utxo Keys Script TxValidation.
From S2P Require Import Algorithms Validation Difficulty Pow TimeAdjust BlockFiles Store Chain Heap Mempool.
From S2P Require Import Base58 Protocol Headers Scheduler Miner Net Peer ManagerState Manager Aes Wallet WalletTx.
From S2P Require Import RpcBase RpcQuery RpcWallet RpcMining Conf.

Section discovery.
Context {PS : Type} `{PeerStore PS}.
Implicit Types ps : PS.

(** The order of the first occurrences is kept. *)
Definition deduplicate (addrs : list (list byte)) : list (list byte) :=
  (foldl (λ (st : gset (list byte) * list (list byte)) a,
     if bool_decide (a ∈ st.1) then st else ({[a]} ∪ st.1, st.2 ++ [a])) (∅, []) addrs).2.

Definition Bootstrap (seeds : list (list byte)) ps : list (list byte) :=
  deduplicate (seeds ++ match GetPeers ps with Ok stored => stored | _ => [] end).

(** ** peers.dat *)

(** The lines of [bufio.Scanner], which stops at one that is too long. *)
Fixpoint scan_lines (lines : list (list byte)) : list (list byte) :=
  match lines with
  | [] => []
  | line :: rest => if MaxScanTokenSize <=? len line then [] else line :: scan_lines rest
  end.

(** What the file is overwritten with; nothing when there is no peer. *)
Definition DumpPeersDat ps : option (list byte) :=
  match GetPeers ps with
  | Ok [] => None
  | Ok peers => Some (mjoin ((λ addr, addr ++ [x0a]) <$> peers))
  | _ => None
  end.

(** The addresses that are known, beside the store. *)
Definition merge_peer (st : PS * gset (list byte)) (text : list byte) : PS * gset (list byte) :=
  let addr := TrimSpace text in
  if bool_decide (addr = []) || bool_decide (addr ∈ st.2) then st
  else (PutPeer addr st.1, {[addr]} ∪ st.2).

(** [data] is the content of the file, none when it cannot be opened. *)
Definition LoadPeersDat (data : option (list byte)) ps : PS :=
  match data with
  | None => ps
  | Some data =>
      let existing := match GetPeers ps with Ok l => l | _ => [] end in
      (foldl merge_peer (ps, list_to_set existing) (scan_lines (Split x0a data))).1
  end.

(** ** Properties *)

Lemma deduplicate_spec addrs :
  NoDup (deduplicate addrs) ∧ ∀ a, a ∈ deduplicate addrs ↔ a ∈ addrs.
Proof.
  unfold deduplicate.
  enough (∀ (seen : gset (list byte)) out, NoDup out → (∀ a, a ∈ seen ↔ a ∈ out) →
    let r := (foldl (λ (st : gset (list byte) * list (list byte)) a,
      if bool_decide (a ∈ st.1) then st else ({[a]} ∪ st.1, st.2 ++ [a])) (seen, out) addrs).2 in
    NoDup r ∧ ∀ a, a ∈ r ↔ a ∈ out ∨ a ∈ addrs) as Hgen.
  { destruct (Hgen ∅ []) as [Hn Ha]; [constructor|set_solver|]. split; [done|]. intros a. rewrite Ha. set_solver. }
  induction addrs as [|b addrs IH]; intros seen out Hn Hs; cbn [foldl]; cbv zeta.
  { split; [done|]. set_solver. }
  case_bool_decide as Hb; cbn [fst snd] in *.
  - destruct (IH seen out Hn Hs) as [Hr Ha]. split; [done|]. intros a. rewrite Ha, elem_of_cons. naive_solver.
  - destruct (IH ({[b]} ∪ seen) (out ++ [b])) as [Hr Ha]; [|set_solver|].
    + apply NoDup_app. split_and!; [done| |apply NoDup_singleton]. intros a Ha ->%list_elem_of_singleton.
      by apply Hb, Hs.
    + split; [done|]. intros a. rewrite Ha. set_solver.
Qed.

(** What the peer store promises: its addresses are those put into it. *)
Class PeerStoreLaws : Type := {
  peers_of : PS → gset (list byte);
  GetPeers_law ps : ∃ l, GetPeers ps = Ok l ∧ list_to_set l = peers_of ps;
  PutPeer_law a ps : peers_of (PutPeer a ps) = {[a]} ∪ peers_of ps
}.

(** An address as it is stored: a line of the file of its own. *)
Definition plain_addr (a : list byte) : Prop :=
  a ≠ [] ∧ TrimSpace a = a ∧ x0a ∉ a ∧ len a < MaxScanTokenSize.

Lemma Split_app sep a s : sep ∉ a → Split sep (a ++ sep :: s) = a :: Split sep s.
Proof.
  induction a as [|c a IH]; intros Ha; cbn [app Split]; [by rewrite bool_decide_true|].
  apply not_elem_of_cons in Ha as [Hc Ha]. by rewrite bool_decide_false, IH by congruence.
Qed.

Lemma dump_lines peers : Forall plain_addr peers →
  scan_lines (Split x0a (mjoin ((λ addr, addr ++ [x0a]) <$> peers))) = peers ++ [[]].
Proof.
  induction 1 as [|a peers (Hne & Ht & Hnl & Hl) _ IH]; [done|].
  change (mjoin ((λ addr, addr ++ [x0a]) <$> (a :: peers))) with ((a ++ [x0a]) ++ mjoin ((λ addr, addr ++ [x0a]) <$> peers)).
  rewrite <- app_assoc. cbn [app]. rewrite Split_app by done. cbn [scan_lines].
  rewrite (proj2 (Z.leb_gt _ _)) by done. by rewrite IH.
Qed.

(** What is written when a node stops is found when it starts: reading the file that
    the store of [ps] was written to adds exactly its addresses to another store. *)
Theorem peers_roundtrip `{PeerStoreLaws} ps ps' : set_Forall plain_addr (peers_of ps) →
  peers_of (LoadPeersDat (DumpPeersDat ps) ps') = peers_of ps' ∪ peers_of ps.
Proof.
  intros Hplain. unfold DumpPeersDat. destruct (GetPeers_law ps) as (l & -> & Hl).
  destruct l as [|a l0] eqn:Hl0; [cbn in *; set_solver|]. rewrite <- Hl0 in *. clear a l0 Hl0.
  assert (Forall plain_addr l) as Hall by (apply Forall_forall; intros a Ha; apply Hplain; rewrite <- Hl; set_solver).
  unfold LoadPeersDat. rewrite dump_lines by done. destruct (GetPeers_law ps') as (l' & -> & Hl'). rewrite Hl', <- Hl.
  rewrite foldl_app. clear Hl Hl' Hplain.
  enough (∀ ps known, known = peers_of ps → let st := foldl merge_peer (ps, known) l in
    st.2 = peers_of st.1 ∧ peers_of st.1 = peers_of ps ∪ list_to_set l) as Hgen.
  { destruct (Hgen ps' (peers_of ps') eq_refl) as [_ <-]. cbn [foldl]. unfold merge_peer at 1. done. }
  induction Hall as [|a l (Hne & Ht & _) _ IH]; intros q known ->; cbn [foldl list_to_set]; cbv zeta; [cbn; set_solver|].
  assert (merge_peer (q, peers_of q) a = (if bool_decide (a ∈ peers_of q) then q else PutPeer a q,
    peers_of (if bool_decide (a ∈ peers_of q) then q else PutPeer a q))) as ->.
  { unfold merge_peer. rewrite Ht, (bool_decide_false (a = [])) by done. cbn. case_bool_decide; [done|]. by rewrite PutPeer_law. }
  destruct (IH (if bool_decide (a ∈ peers_of q) then q else PutPeer a q) _ eq_refl) as [Hk Hp]. split; [exact Hk|]. rewrite Hp. case_bool_decide; rewrite ?PutPeer_law; set_solver.
Qed.
End discovery.
