(* ===== verification/RpcInv.v ===== *)
(** * The invariant of the server

    What holds of the manager, the pool, the wallet, the fee and the long polls, and
    that every request keeps it: the lemmas that Node.v puts together. *)
From S2P Require Import Prelude Types Sha256 Target Merkle Params Utxo Keys Script TxValidation.
From S2P Require Import Algorithms Validation Difficulty Pow TimeAdjust BlockFiles Store Chain ChainProps Heap Mempool.
From S2P Require Import MempoolProps Base58 Protocol Headers Scheduler Miner Net Peer ManagerState Manager Sync ManagerInv.
From S2P Require Import Aes Wallet WalletTx WalletInv RpcBase RpcQuery RpcWallet RpcMining RpcServer.

(** The channels that are waited on are open ones that were made, each once, and
    not too many. *)
Record longPoll_ok (lp : longPollState) : Prop := {
  lo_len : len (lp_waiters lp) ≤ maxLongPollWaiters;
  lo_nodup : NoDup (lp_waiters lp);
  lo_open ch : ch ∈ lp_waiters lp → ch ∉ lp_closed lp ∧ (ch < lp_next lp)%nat;
  lo_made ch : ch ∈ lp_closed lp → (ch < lp_next lp)%nat
}.

Lemma longPoll_update_ok id lp : longPoll_ok lp → longPoll_ok (longPoll_update id lp).
Proof.
  intros [Hl Hn Ho Hm]. unfold longPoll_update. case_bool_decide; [by split|]. split; cbn.
  - unfold maxLongPollWaiters. lia.
  - constructor.
  - intros ch Hch. by apply elem_of_nil in Hch.
  - intros ch [Hch%elem_of_list_to_set|Hch]%elem_of_union; [by apply Ho|by apply Hm].
Qed.

Lemma longPoll_wait_ok lp : longPoll_ok lp → longPoll_ok (longPoll_wait lp).2.
Proof.
  intros [Hl Hn Ho Hm]. unfold longPoll_wait. destruct (Z.leb_spec maxLongPollWaiters (len (lp_waiters lp))); split; cbn.
  - done.
  - done.
  - intros ch Hch. destruct (Ho ch Hch). split; [set_solver by lia|lia].
  - intros ch [->%elem_of_singleton|Hch%Hm]%elem_of_union; lia.
  - rewrite length_app. cbn [length]. lia.
  - apply NoDup_app. split_and!; [done| |apply NoDup_singleton].
    intros ch Hch ->%list_elem_of_singleton. destruct (Ho _ Hch). lia.
  - intros ch [Hch| ->%list_elem_of_singleton]%elem_of_app; [destruct (Ho ch Hch); split; [done|lia]|].
    split; [|lia]. intros Hc%Hm. lia.
  - intros ch Hch%Hm. lia.
Qed.

Section node_inv.
Context {St : Type} `{BlockStore St} `{C : CryptoLib, !HDLib, !HashLib} {PS : Type} `{PeerStore PS}.
Context (p : ChainParams) (engine : Engine) (w : World) (cwall cadjusted mwall swall : nat → Z).
Context (o : Outside) (auth : AuthConfig) (reports : Reports (Server St PS)).
Implicit Types s : Server St PS.
Notation R := (proc (Server St PS)).
Notation manager_ok := (manager_ok p engine mwall swall).

Record server_ok s : Prop := {
  so_manager : manager_ok (s_p2p s);
  so_wallet : ∃ wl, s_wallet s = Some wl ∧ keys_ok wl;
  so_fee : 0 ≤ s_feePerByte s ≤ maxFeePerByte;
  so_longPoll : longPoll_ok (s_longPoll s)
}.

(** A run keeps the invariant. *)
Definition preserves s s' : Prop := server_ok s → server_ok s'.
#[local] Instance preserves_preorder : PreOrder preserves.
Proof. split; [by intros s Hs|]. intros s1 s2 s3 H12 H23 Hs. auto. Qed.
Notation safe := (steps preserves).

Hypothesis Hw : world_ok w.

Lemma try_safe {A B} (m : R A) (h : error → B) (k : A → R B) :
  safe m → (∀ a, safe (k a)) → safe (or_return m h k).
Proof.
  intros Hm Hk s. specialize (Hm s). unfold or_return. destruct (m s) as [[a|e|] s']; cbn in *; [|done..].
  etrans; [exact Hm|apply Hk].
Qed.

Lemma on_p2p_safe {A} (f : proc (Manager St PS) A) : keeps manager_ok (λ _, True) f → safe (on_p2p f).
Proof.
  intros Hf s [Hm Hwl Hfee Hlp]. unfold on_p2p, on. destruct (Hf _ Hm) as [Hm' _].
  destruct (f (s_p2p s)) as [r m']. by split.
Qed.
Lemma on_p2p_now_safe : safe (on_p2p (now w)).
Proof. apply on_p2p_safe, now_safe. Qed.
Lemma on_p2p_range_safe {A} (l : list A) : safe (on_p2p (range_map w l)).
Proof using Hw. apply on_p2p_safe. eapply keeps_weaken; [by apply range_map_safe|done]. Qed.
Lemma on_p2p_chain_safe {A} (f : proc (Chain St) A) : safe (on_p2p (on_chain f)).
Proof. apply on_p2p_safe, on_chain_safe. Qed.
Lemma on_p2p_AddTx_safe u t tx : safe (on_p2p (on_mempool (AddTx p mwall u t tx))).
Proof. apply on_p2p_safe, on_mempool_safe. intros mp Hmp. by apply reach_AddTx. Qed.
Lemma on_p2p_BroadcastTx_safe h : safe (on_p2p (BroadcastTx w h)).
Proof using Hw. by apply on_p2p_safe, BroadcastTx_safe. Qed.
Lemma on_p2p_BroadcastBlock_safe h b : safe (on_p2p (BroadcastBlock w h b)).
Proof using Hw. by apply on_p2p_safe, BroadcastBlock_safe. Qed.
Lemma on_p2p_AddNode_safe lookup a : safe (on_p2p (AddNode w lookup a)).
Proof. apply on_p2p_safe, AddNode_safe. Qed.
Lemma on_p2p_DisconnectNode_safe a : safe (on_p2p (DisconnectNode a)).
Proof. apply on_p2p_safe, DisconnectNode_safe. Qed.
Lemma on_p2p_Notify_safe h : safe (on_p2p (NotifyBlockAccepted h)).
Proof. apply on_p2p_safe, NotifyBlockAccepted_safe. Qed.
Lemma on_p2p_confirm_safe b : safe (on_p2p (confirm_transactions b)).
Proof. apply on_p2p_safe, confirm_transactions_safe. Qed.

Lemma on_wallet_safe {A} (f : proc HDWallet A) : steps wallet_grows f → safe (on_wallet f).
Proof.
  intros Hf s [Hm (wl & Hs & Hwl) Hfee Hlp]. unfold on_wallet. rewrite Hs.
  specialize (Hf wl). destruct (f wl) as [r wl']. split; try done. exists wl'. split; [done|]. by apply Hf.
Qed.
Lemma wallet_get_safe {A} (f : HDWallet → A) : safe (wallet_get f).
Proof. apply on_wallet_safe. intros wl. cbn. reflexivity. Qed.

(** Assignments to the server. *)
Lemma set_longPoll_safe f : (∀ s, server_ok s → longPoll_ok (f s)) → safe (modify (λ s, set_s_longPoll (f s) s)).
Proof. intros Hf s Hs. pose proof (Hf s Hs). destruct Hs. by split. Qed.
Lemma set_stopping_safe b : safe (modify (set_s_stopping b)).
Proof. intros s []. by split. Qed.
Lemma set_rateLimiter_safe rl : safe (modify (set_s_rateLimiter rl)).
Proof. intros s []. by split. Qed.
Lemma set_fee_safe fee : 0 ≤ fee ≤ maxFeePerByte → safe (modify (set_s_feePerByte fee)).
Proof. intros Hf s []. by split. Qed.

Lemma update_longpoll_safe : safe update_longpoll.
Proof. apply set_longPoll_safe. intros s Hs. apply longPoll_update_ok, Hs. Qed.
Lemma handleLongPoll_safe id : safe (handleLongPoll id).
Proof.
  intros s Hs. unfold handleLongPoll. rewrite gets_bind. case_match; [done|]. rewrite gets_bind.
  pose proof (longPoll_wait_ok _ (so_longPoll _ Hs)) as Hl. destruct Hs. by split.
Qed.
Lemma postBlockAccept_safe b : safe (postBlockAccept w b).
Proof using Hw.
  apply (steps_bind preserves (on_p2p (confirm_transactions b))); [apply on_p2p_confirm_safe|intros _].
  apply steps_bind; [apply _|apply on_p2p_BroadcastBlock_safe|intros _; apply update_longpoll_safe].
Qed.

#[local] Hint Resolve GetNewAddress_grows GetChangeAddress_grows IsLocked_grows RequireUnlocked_grows WalletLock_grows
  EncryptWallet_grows WalletPassphrase_grows Mnemonic_grows DumpPrivKey_grows SignRawTransaction_grows
  BuildTransaction_grows ImportPrivKey_grows : steps.

(** Walks through a handler, and through those that it calls. *)
Ltac safe_walk :=
  repeat first
    [ progress intros
    | progress cbv zeta
    | match goal with
      | |- steps _ (or_return _ _ _) => apply try_safe; [|intros ?]
      | |- steps _ (on_p2p (now _)) => apply on_p2p_now_safe
      | |- steps _ (on_p2p (range_map _ _)) => apply on_p2p_range_safe
      | |- steps _ (on_p2p (on_chain _)) => apply on_p2p_chain_safe
      | |- steps _ (on_p2p (on_mempool _)) => apply on_p2p_AddTx_safe
      | |- steps _ (on_p2p (BroadcastTx _ _)) => apply on_p2p_BroadcastTx_safe
      | |- steps _ (on_p2p (AddNode _ _ _)) => apply on_p2p_AddNode_safe
      | |- steps _ (on_p2p (DisconnectNode _)) => apply on_p2p_DisconnectNode_safe
      | |- steps _ (wallet_get _) => apply wallet_get_safe
      | |- steps _ (on_wallet _) => apply on_wallet_safe; solve [eauto 2 with steps]
      | |- steps _ update_longpoll => apply update_longpoll_safe
      | |- steps _ (handleLongPoll _) => apply handleLongPoll_safe
      | |- steps _ (postBlockAccept _ _) => apply postBlockAccept_safe
      | |- steps _ (modify (set_s_stopping _)) => apply set_stopping_safe
      | |- steps _ (modify (set_s_feePerByte _)) => idtac
      | |- steps _ (mret _) => apply steps_ret; apply _
      | |- steps _ (pure _) => apply steps_pure; apply _
      | |- steps _ (gets _) => apply steps_gets; apply _
      | |- steps _ (asks _) => apply steps_asks; apply _
      | |- steps _ (mbind _ _) => apply steps_bind; [apply _| |intros ?]
      | |- steps _ (foldP _ _ _) => apply steps_foldP; [apply _|intros ? ?]
      | |- steps _ (match ?x with _ => _ end) => destruct x eqn:?
      | |- steps _ ?t => let h := head_of t in progress unfold h
      end ].

Lemma handleSetTxFee_safe r : safe (handleSetTxFee r).
Proof.
  unfold handleSetTxFee, requirePOST. pose proof (ParseUint_u64 (PostFormValue r "amount")) as Hu.
  destruct (ParseUint (PostFormValue r "amount") 64) as [fee ok]. unfold is_u64 in Hu. cbn in Hu.
  destruct (negb ok) eqn:Hok; [safe_walk|]. destruct (Z.ltb_spec maxFeePerByte fee); safe_walk. apply set_fee_safe. lia.
Qed.
Lemma rpcSetTxFee_safe params : safe (rpcSetTxFee params).
Proof.
  destruct params as [|j params]; [by intros s|]. intros s. cbn [rpcSetTxFee]. unfold or_return, pure.
  destruct (Unmarshal_uint 64 j) as [fee|e|] eqn:Hj; [|done..]. apply Unmarshal_uint_u64 in Hj. unfold is_u64 in Hj.
  destruct (Z.ltb_spec maxFeePerByte fee); [done|]. revert s. change (safe (_ ← modify (set_s_feePerByte fee); mret (RpcOk (JBool true)))).
  safe_walk. apply set_fee_safe. lia.
Qed.

(** ** Every request *)

Notation methodMap := (methodMap p engine w cwall cadjusted mwall o reports).
Notation routes := (routes p engine w cwall cadjusted mwall o reports).

Lemma methods_safe : Forall (λ nh, ∀ params, safe (nh.2 params)) methodMap.
Proof using Hw.
  unfold RpcServer.methodMap. repeat first [apply Forall_nil_2|apply Forall_cons_2]; cbn [snd]; intros params.
  all: try apply rpcSetTxFee_safe.
  all: safe_walk.
Qed.

Lemma routes_safe : Forall (λ nh, ∀ r, safe (nh.2 r)) routes.
Proof using Hw.
  unfold RpcServer.routes. repeat first [apply Forall_nil_2|apply Forall_cons_2]; cbn [snd]; intros r.
  all: try apply handleSetTxFee_safe.
  all: safe_walk.
Qed.

Lemma find_Forall {A} (P : A → Prop) f (l : list A) x : Forall P l → List.find f l = Some x → P x.
Proof. intros Hl Hx%find_some. apply (proj1 (List.Forall_forall P l) Hl), Hx. Qed.

Lemma find_method_safe name h params :
  find_method p engine w cwall cadjusted mwall o reports name = Some h → safe (h params).
Proof using Hw.
  unfold find_method. destruct (List.find _ methodMap) as [nh|] eqn:Hf; [|done]. intros [= <-].
  exact (find_Forall _ _ _ _ methods_safe Hf params).
Qed.

Notation DispatchRPC := (DispatchRPC p engine w cwall cadjusted mwall o reports).
Notation dispatchJSONRPC := (dispatchJSONRPC p engine w cwall cadjusted mwall o reports).
Notation handleJSONRPC := (handleJSONRPC p engine w cwall cadjusted mwall o reports).
Notation mux := (mux p engine w cwall cadjusted mwall o reports).
Notation serve := (serve p engine w cwall cadjusted mwall o auth reports).

Lemma DispatchRPC_safe method params : safe (DispatchRPC method params).
Proof using Hw.
  unfold RpcServer.DispatchRPC. destruct (find_method _ _ _ _ _ _ _ _ method) as [h|] eqn:Hf; [|by intros s].
  by eapply find_method_safe.
Qed.

Lemma dispatchJSONRPC_safe req : safe (dispatchJSONRPC req).
Proof using Hw.
  unfold RpcServer.dispatchJSONRPC. case_bool_decide; [by intros s|].
  destruct (find_method _ _ _ _ _ _ _ _ _) as [h|] eqn:Hf; [|by intros s].
  apply steps_bind; [apply _|by eapply find_method_safe|by intros a s].
Qed.

Lemma handleBatchJSONRPC_safe body : safe (handleBatchJSONRPC p engine w cwall cadjusted mwall o reports body).
Proof using Hw.
  unfold handleBatchJSONRPC, writeJSONRPCError. repeat case_match; try by intros s.
  apply steps_bind; [apply _| |intros ?; by intros s]. apply steps_foldP; [apply _|intros acc req].
  apply steps_bind; [apply _|apply dispatchJSONRPC_safe|intros ?; by intros s].
Qed.

Lemma handleJSONRPC_safe r : safe (handleJSONRPC r).
Proof using Hw.
  unfold RpcServer.handleJSONRPC, writeJSONRPCError. case_match; [by intros s|]. cbv zeta.
  destruct (TrimSpace _) as [|b rest]; [by intros s|].
  enough (safe (match os_request o (b :: rest) with
    | Panic => pure Panic
    | Err e => mret (WriteJSON (rpc_response JNull (RpcErr rpcErrParse (Wrapf "parse JSON" e))))
    | Ok req => resp ← dispatchJSONRPC req; mret (WriteJSON resp) end)) as Hone.
  { destruct b; try exact Hone. apply handleBatchJSONRPC_safe. }
  case_match; [|by intros s..]. apply steps_bind; [apply _|apply dispatchJSONRPC_safe|intros ?; by intros s].
Qed.

Lemma mux_safe r : safe (mux r).
Proof using Hw.
  unfold RpcServer.mux. destruct (List.find _ routes) as [ph|] eqn:Hf; [|apply handleJSONRPC_safe].
  exact (find_Forall _ _ _ _ routes_safe Hf r).
Qed.

Lemma serve_safe r : safe (serve r).
Proof using Hw.
  enough (safe (rateLimitMiddleware w (if bool_decide (au_User auth = []) then mux else authMiddleware auth mux) r)) as Hr.
  { intros s. specialize (Hr s). unfold RpcServer.serve, recoveryMiddleware. by destruct (rateLimitMiddleware _ _ _ _) as [[] ?]. }
  unfold rateLimitMiddleware. apply steps_bind; [apply _|apply on_p2p_now_safe|intros now].
  apply steps_bind; [apply _|apply steps_gets; apply _|intros allowed].
  apply steps_bind; [apply _|apply set_rateLimiter_safe|intros _].
  destruct allowed.1; [|by intros s]. unfold authMiddleware. repeat case_match; try apply mux_safe. by intros s.
Qed.
End node_inv.
