(* ===== verification/Node.v ===== *)
(** * internal/node: the life of a node

    The genesis block, the opening and closing of what a node holds, its start with
    the checks on the RPC server, the miner that is switched on and off, and blocks
    of the miner.  System calls that fail are parameters. *)
From S2P Require Import Prelude Types Sha256 Target Merkle Params Utxo Keys Script TxValidation.
From S2P Require Import Algorithms Validation Difficulty Pow TimeAdjust BlockFiles Store Chain Heap Mempool.
From S2P Require Import Base58 Protocol Headers Scheduler Miner Net Peer ManagerState Manager Aes Wallet WalletTx.
From S2P Require Import RpcBase RpcQuery RpcWallet RpcMining RpcServer Conf Discovery.

(** ** The genesis block (genesis.go) *)

Definition genesis_text (p : ChainParams) : list byte := str ("fairchain " ++ p_Name p ++ " genesis").

Definition genesis_config (p : ChainParams) : GenesisConfig :=
  mkGenesisConfig (p_Name p) (genesis_text p) 1773212462 (p_InitialBits p) 1 (p_InitialSubsidy p) [x00] [].

Definition initNetworkGenesis (p : ChainParams) (hasher : Hasher) : res ChainParams :=
  if negb (bool_decide (p_GenesisHash p = ZeroHash)) then
    let computed := HashBlockHeader (blk_Header (p_GenesisBlock p)) in
    if negb (bool_decide (computed = p_GenesisHash p))
    then Err (Errorf "genesis hash verification failed for %s: expected %s, computed %s") else Ok p
  else if bool_decide (p_Name p = "mainnet")
  then Err (Errorf "mainnet requires a hardcoded genesis block in params") else
  block ← wrap "mine genesis" (pow_MineGenesis hasher (BuildGenesisBlock (genesis_config p)));
  Ok (InitGenesis p block (HashBlockHeader (blk_Header block))).

(** ** Addresses of the RPC server *)

(** [node.SplitHostPort]: the last colon, whatever brackets there are. *)
Definition node_SplitHostPort (addr : list byte) : list byte * list byte * option error :=
  match LastIndexByte x3a addr with
  | None => (addr, [], Some (Errorf "no port in %q"))
  | Some idx => (take idx addr, drop (S idx) addr, None)
  end.

Definition local_name (host : list byte) : bool :=
  bool_decide (host = []) || bool_decide (host = str "localhost") || bool_decide (host = str "127.0.0.1") ||
  bool_decide (host = str "::1").

Definition isLoopback (addr : list byte) : bool :=
  let host := match SplitHostPort addr with Ok (host, _) => host | _ => addr end in
  local_name host || match ParseIP host with Some ip => IsLoopback ip | None => false end.

(** ** Credentials (server.go) *)

Definition generateCookiePassword (rand_Read : res (list byte)) : res (list byte) :=
  b ← rand_Read; Ok (hex_EncodeToString b).

(** The credentials, and what is written to the cookie file; [rand_Read] are the 32
    bytes of the random source, [write] the outcome of the write. *)
Definition initAuth (user password : list byte) (rand_Read : res (list byte)) (write : res ())
    : res (AuthConfig * option (list byte)) :=
  if negb (bool_decide (user = [])) && negb (bool_decide (password = [])) then Ok (mkAuth user password, None) else
  let user := str "__cookie__" in
  password ← wrap "generate cookie password" (generateCookiePassword rand_Read);
  _ ← wrap "write cookie file %s" write;
  Ok (mkAuth user password, Some (user ++ [x3a] ++ password)).

(** ** Options and start *)

Record Options : Type := mkOptions {
  op_MiningEnabled : bool;
  op_NoRPCAuth : bool;
  op_NoSeedNodes : bool;
  op_ConnectOnly : list (list byte);
  op_RPCTLSCert : list byte;
  op_RPCTLSKey : list byte
}.

(** The part of [Start] that makes the RPC server, [rpc.New] and its [Start]: the
    credentials, which are empty when there is no authentication, and whether TLS is
    used. *)
Definition start_rpc (cfg : config_Config) (opts : Options) (rand_Read : res (list byte)) (write : res ())
    : res (AuthConfig * bool) :=
  auth ← (if negb (op_NoRPCAuth opts)
          then wrap "create RPC server" (fst <$> initAuth (cfg_RPCUser cfg) (cfg_RPCPassword cfg) rand_Read write)
          else
            let host := (node_SplitHostPort (cfg_RPCAddr cfg)).1.1 in
            if negb (local_name host)
            then Err (Errorf "--norpcauth is only allowed when RPC is bound to loopback, got %q")
            else Ok (mkAuth [] []));
  let useTLS := negb (bool_decide (op_RPCTLSCert opts = [])) && negb (bool_decide (op_RPCTLSKey opts = [])) in
  _ ← fail_if (negb (isLoopback (cfg_RPCAddr cfg)) && negb useTLS)
        (Wrapf "start RPC" (Errorf "RPC bound to non-loopback address %s without TLS"));
  Ok (auth, useTLS).

(** ** What a node holds *)

Record Opened : Type := mkOpened { od_lock : bool; od_blocks : bool; od_peers : bool }.
Definition nothing_open : Opened := mkOpened false false false.
Definition all_open : Opened := mkOpened true true true.

Definition ReleaseLock (od : Opened) : Opened := mkOpened false (od_blocks od) (od_peers od).
Definition close_blocks (od : Opened) : Opened := mkOpened (od_lock od) false (od_peers od).
Definition close_peers (od : Opened) : Opened := mkOpened (od_lock od) (od_blocks od) false.

(** [x, err := open(); if err == nil { ... it is held }]. *)
Definition open_with {A} (r : res A) (hold : Opened → Opened) : proc Opened A := λ od,
  match r with Ok a => (Ok a, hold od) | Err e => (Err e, od) | Panic => (Panic, od) end.
Definition AcquireLock {A} (r : res A) : proc Opened A := open_with r (λ od, mkOpened true (od_blocks od) (od_peers od)).
Definition NewFileStore {A} (r : res A) : proc Opened A := open_with r (λ od, mkOpened (od_lock od) true (od_peers od)).
Definition NewBoltStore {A} (r : res A) : proc Opened A := open_with r (λ od, mkOpened (od_lock od) (od_blocks od) true).

(** [if err != nil { cleanup; return err }]. *)
Definition or_close {A} (m : proc Opened A) (cleanup : Opened → Opened) : proc Opened A :=
  catch m (λ e, _ ← modify cleanup; throw e).

Record Node {St PS : Type} `{CryptoLib, !HDLib} : Type := mkNode {
  n_params : ChainParams;
  n_engine : Engine;
  n_chain : Chain St;
  n_mempool : Mempool;
  n_peerStore : PS;
  n_adjClock : AdjustedClock;
  n_wallet : HDWallet
}.
Arguments Node : clear implicits.
Arguments Node St PS {_ _}.

Section node.
Context {St : Type} `{BlockStore St} `{C : CryptoLib, !HDLib, !HashLib} {PS : Type} `{PeerStore PS}.

(** [coinparams.Algorithm] and [coinparams.DifficultyAlgorithm]. *)
Definition Algorithm : string := "sha256mem".
Definition DifficultyAlgorithm : string := "bitcoin".

(** [node.New]: [buf] is the buffer of the hasher's pool, [mkdir], [lock], [blocks]
    and [peers] are the outcomes of the creation of the directories and of opening
    the lock file and the stores, [mempoolDat] what the file of the pool holds. *)
Definition node_New (mwall : nat → Z) (faults : nat → io_fault) (random : nat → list byte)
    (buf : list (list byte)) (mkdir lock : res ()) (blocks : list byte → res St) (peers : res PS)
    (mempoolDat : res (list byte)) (walletHost : host) (cfg : config_Config) : proc Opened (Node St PS) :=
  p ← pure (match NetworkByName (String.string_of_list_byte (cfg_Network cfg)) with
            | None => Err (Errorf "unknown network %q") | Some p => Ok p end);
  hasher ← pure (wrap "unsupported PoW algorithm %q" (GetHasher buf Algorithm));
  retargeter ← pure (wrap "unsupported difficulty algorithm %q" (GetRetargeter DifficultyAlgorithm));
  p ← pure (wrap "genesis init" (initNetworkGenesis p hasher));
  _ ← pure (wrap "create data dir" mkdir);
  _ ← pwrap "acquire lock file" (AcquireLock lock);
  blockStore ← or_close (pwrap "open block store" (NewFileStore (blocks (p_NetworkMagic p)))) ReleaseLock;
  peerStore ← or_close (pwrap "open peer store" (NewBoltStore peers)) (λ od, ReleaseLock (close_blocks od));
  let engine := pow_Engine hasher retargeter in
  let '(inited, bc) := Init p engine (Chain.New blockStore) in
  let close_all od := ReleaseLock (close_blocks (close_peers od)) in
  _ ← or_close (pure (wrap "initialize chain" inited)) close_all;
  mp ← pure (match mempoolDat with
             | Ok (b :: data) =>
                 let '(r, mp) := LoadFromBytes p mwall (c_utxoSet bc) (Tip bc).2 (b :: data) Mempool.New in
                 match r with Panic => Panic | _ => Ok mp end
             | _ => Ok Mempool.New
             end);
  let '(opened, wl) := NewHDWallet faults random walletHost (p_AddressPrefix p) in
  _ ← or_close (pure (wrap "initialize wallet" opened)) close_all;
  mret (mkNode St PS _ _ p engine bc mp peerStore AdjustedClock_New wl).

(** [Start] up to the miner: the manager of the peers, with the addresses of
    peers.dat, and the RPC server with the wallet; [listen] is the outcome of
    [p2p.Start]. *)
Definition node_Start (n : Node St PS) (cfg : config_Config) (opts : Options) (peersDat : option (list byte))
    (listen : res ()) (rand_Read : res (list byte)) (write : res ()) : res (Server St PS * AuthConfig * bool) :=
  m ← NewManager (n_params n) (n_chain n) (n_mempool n) (n_peerStore n) (n_adjClock n);
  let m := set_m_peerStore (LoadPeersDat peersDat (m_peerStore m)) m in
  _ ← wrap "start P2P" listen;
  authTLS ← start_rpc cfg opts rand_Read write;
  Ok (rpc_New m (Some (n_wallet n)), authTLS.1, authTLS.2).

(** The callback of the miner for a block it found. *)
Definition mined_block (p : ChainParams) (engine : Engine) (w : World) (cwall cadjusted : nat → Z) (block : Block)
    : proc (Manager St PS) () :=
  result ← on_chain (ProcessBlock p engine cwall cadjusted block);
  match result.2 with
  | Some _ => mret ()
  | None =>
      _ ← NotifyBlockAccepted (blk_Header block);
      _ ← confirm_transactions block;
      BroadcastBlock w (HashBlockHeader (blk_Header block)) block
  end.

(** What [Stop] leaves in the file of the pool: nothing is written for an empty
    dump. *)
Definition Stop_mempoolDat (it : list (Hash * nat)) (mp : Mempool) (file : option (list byte)) : option (list byte) :=
  match DumpToBytes it mp with [] => file | data => Some data end.
End node.

(** ** The miner *)

(** A miner is a number, and so is a context; 0 is the context of [Start].
    [mi_running] are the goroutines in [m.Run], each with its context. *)
Record Mining : Type := mkMining {
  mi_miner : option nat;
  mi_minerCancel : option nat;
  mi_running : list (nat * nat);
  mi_next : nat
}.
Definition not_mining : Mining := mkMining None None [] 1.

Definition cancel (ctx : nat) (mi : Mining) : Mining :=
  mkMining (mi_miner mi) (mi_minerCancel mi) (filter (λ mc, mc.2 ≠ ctx) (mi_running mi)) (mi_next mi).

Section mining.
Context `{C : CryptoLib, !HDLib}.

Definition startMiner (wl : HDWallet) (ctx : nat) (mi : Mining) : res () * Mining :=
  match GetDefaultP2PKHScript wl with
  | None => (Err (Errorf "wallet has no keys for mining reward"), mi)
  | Some _ =>
      let m := mi_next mi in
      (Ok (), mkMining (Some m) (mi_minerCancel mi) (mi_running mi ++ [(m, ctx)]) (S m))
  end.

Definition start_mining (opts : Options) (wl : HDWallet) (mi : Mining) : res () * Mining :=
  if op_MiningEnabled opts then startMiner wl 0 mi else (Ok (), mi).

Definition SetMining (wl : HDWallet) (enabled : bool) (mi : Mining) : Mining :=
  if enabled then
    match mi_miner mi with
    | Some _ => mi
    | None =>
        let ctx := mi_next mi in
        let mi := mkMining None (Some ctx) (mi_running mi) (S ctx) in
        match startMiner wl ctx mi with
        | (Ok _, mi) => mi
        | (_, mi) => mkMining (mi_miner mi) None (mi_running (cancel ctx mi)) (mi_next mi)
        end
    end
  else
    let mi := match mi_minerCancel mi with
              | Some ctx => mkMining (mi_miner mi) None (mi_running (cancel ctx mi)) (mi_next mi)
              | None => mi
              end in
    mkMining None (mi_minerCancel mi) (mi_running mi) (mi_next mi).

Definition IsMining (mi : Mining) : bool :=
  bool_decide (is_Some (mi_miner mi)) && bool_decide (is_Some (mi_minerCancel mi)).

(** The part of [Stop] that ends the miners. *)
Definition stop_mining (mi : Mining) : Mining :=
  let mi := match mi_minerCancel mi with
            | Some ctx => mkMining (mi_miner mi) None (mi_running (cancel ctx mi)) (mi_next mi)
            | None => mi
            end in
  cancel 0 mi.
End mining.
