(* ===== verification/RpcLimits.v ===== *)
(** * The limit on the rate of requests

    Every client gets at most twice the limit within any window, and is refused
    only when it made as many requests as the limit within the window before. *)
From Stdlib Require Import Sorting.Sorted.
From S2P Require Import Prelude Types Mempool Net Peer RpcBase.

(** What happens to the limiter: a request of a client, or a turn of the loop that
    drops old buckets, at a time. *)
Inductive limiter_event : Type :=
| LRequest (ip : list byte) (t : Z)
| LCollect (t : Z).
Definition event_time (ev : limiter_event) : Z := match ev with LRequest _ t | LCollect t => t end.

Section limiter.
Context (ip : list byte).

(** The requests of one client: their times, and whether they were allowed. *)
Fixpoint limiter_run (evs : list limiter_event) (rl : ipRateLimiter) : list (Z * bool) :=
  match evs with
  | [] => []
  | LRequest ip' t :: evs' =>
      let '(ok, rl') := Allow ip' t rl in
      (if bool_decide (ip' = ip) then [(t, ok)] else []) ++ limiter_run evs' rl'
  | LCollect t :: evs' => limiter_run evs' (gc_buckets t rl)
  end.

Definition allowed_in (a : Z) (l : list (Z * bool)) : nat :=
  length (filter (λ tb, tb.2 = true ∧ a ≤ tb.1 ≤ a + rpcRateWindow) l).
Definition requests_since (a : Z) (l : list (Z * bool)) : nat := length (filter (λ tb, a ≤ tb.1) l).

(** ** One bucket after the other *)

(** The requests of one bucket: the first ones are allowed, up to the limit, and
    all of them are within a window after its start. *)
Record bucket_run (start : Z) (l : list (Z * bool)) : Prop := {
  bu_window : Forall (λ tb, start ≤ tb.1 ≤ start + rpcRateWindow) l;
  bu_allowed : ∀ i tb, l !! i = Some tb → tb.2 = (Z.of_nat i + 1 <=? rpcRateLimit)
}.

(** The requests so far are those of a sequence of buckets, each starting more than
    a window after the one before; the current bucket is the last one. *)
Inductive buckets : list (Z * list (Z * bool)) → Prop :=
| buckets_nil : buckets []
| buckets_one b : bucket_run b.1 b.2 → buckets [b]
| buckets_cons b b' bs : bucket_run b.1 b.2 → b.1 + rpcRateWindow < b'.1 → buckets (b' :: bs) →
    buckets (b :: b' :: bs).

Lemma Time_Sub_window now start d :
  0 < d < 2 ^ 62 → (d <? Time_Sub now start) = bool_decide (start + d < now).
Proof.
  intros Hd. unfold Time_Sub. apply eq_true_iff_eq. rewrite Z.ltb_lt, bool_decide_eq_true. lia.
Qed.

Lemma filter_none {A} (P : A → Prop) `{!∀ x, Decision (P x)} l : Forall (λ x, ¬ P x) l → filter P l = [].
Proof. induction 1 as [|x l Hx _ IH]; [done|]. by rewrite filter_cons_False. Qed.

Lemma filter_all {A} (P : A → Prop) `{!∀ x, Decision (P x)} l : Forall P l → filter P l = l.
Proof. induction 1 as [|x l Hx _ IH]; [done|]. by rewrite filter_cons_True, IH. Qed.

Lemma filter_length_mono {A} (P Q : A → Prop) `{!∀ x, Decision (P x), !∀ x, Decision (Q x)} l :
  (∀ x, P x → Q x) → (length (filter P l) ≤ length (filter Q l))%nat.
Proof.
  intros HPQ. induction l as [|x l IH]; [done|]. rewrite !filter_cons.
  destruct (decide (P x)) as [Hp|]; [rewrite decide_True by auto; simpl; lia|].
  destruct (decide (Q x)); simpl; lia.
Qed.

Lemma bucket_allowed start l a :
  bucket_run start l → (allowed_in a l ≤ Z.to_nat rpcRateLimit)%nat.
Proof.
  intros [_ Hal]. unfold allowed_in.
  etrans; [apply (filter_length_mono _ (λ tb : Z * bool, tb.2 = true)); tauto|].
  rewrite <- (take_drop (Z.to_nat rpcRateLimit) l), filter_app, length_app.
  rewrite (filter_none _ (drop _ l)).
  - pose proof (length_filter (λ tb : Z * bool, tb.2 = true) (take (Z.to_nat rpcRateLimit) l)) as Hl.
    rewrite length_take in Hl. simpl. lia.
  - apply Forall_forall. intros tb [i Hi]%list_elem_of_lookup. rewrite lookup_drop in Hi.
    rewrite (Hal _ _ Hi), Z.leb_le. lia.
Qed.

Lemma allowed_app a l1 l2 : allowed_in a (l1 ++ l2) = (allowed_in a l1 + allowed_in a l2)%nat.
Proof. unfold allowed_in. by rewrite filter_app, length_app. Qed.

Lemma entries_cons (b : Z * list (Z * bool)) bs : mjoin (b :: bs).*2 = b.2 ++ mjoin bs.*2.
Proof. done. Qed.

(** The buckets after one that starts late are all late. *)
Lemma buckets_late b bs a :
  buckets (b :: bs) → a + rpcRateWindow < b.1 → allowed_in a (mjoin (b :: bs).*2) = 0%nat.
Proof.
  revert b. induction bs as [|b' bs IH]; intros b Hb Ha.
  all: assert (Hr : bucket_run b.1 b.2) by (inversion Hb; done).
  all: assert (Hz : allowed_in a b.2 = 0%nat)
    by (unfold allowed_in; rewrite filter_none; [done|]; eapply Forall_impl; [apply Hr|]; simpl; lia).
  - simpl. by rewrite app_nil_r.
  - rewrite entries_cons, allowed_app, Hz. inversion Hb; subst. apply (IH b'); [done|].
    unfold rpcRateWindow, second in *. lia.
Qed.

Lemma buckets_allowed bs a :
  buckets bs → (allowed_in a (mjoin bs.*2) ≤ 2 * Z.to_nat rpcRateLimit)%nat.
Proof.
  induction 1 as [|b Hr|b b' bs Hr Hgap Hbs IH].
  - cbn. lia.
  - cbn [fmap list_fmap mjoin list_join]. rewrite app_nil_r. pose proof (bucket_allowed _ _ a Hr). lia.
  - rewrite entries_cons, allowed_app.
    pose proof (bucket_allowed _ _ a Hr) as H1.
    destruct (decide (b.1 + rpcRateWindow < a)) as [Hlate|Hin].
    + assert (Hz : allowed_in a b.2 = 0%nat); [|rewrite Hz; exact IH].
      unfold allowed_in. rewrite filter_none; [done|]. eapply Forall_impl; [apply Hr|]. simpl. lia.
    + assert (H2 : (allowed_in a (mjoin (b' :: bs).*2) ≤ Z.to_nat rpcRateLimit)%nat); [|lia].
      rewrite entries_cons, allowed_app.
      assert (Hr' : bucket_run b'.1 b'.2) by (inversion Hbs; done).
      pose proof (bucket_allowed _ _ a Hr') as H3.
      destruct bs as [|b2 bs]; [change (allowed_in a (mjoin [].*2)) with 0%nat; lia|].
      inversion Hbs as [| |? ? ? _ Hgap' Hbs']; subst.
      rewrite (buckets_late b2 bs a Hbs') by lia. lia.
Qed.

(** ** The limiter keeps to the buckets *)

Lemma buckets_last bs b l : buckets (bs ++ [b]) → bucket_run b.1 l → buckets (bs ++ [(b.1, l)]).
Proof.
  induction bs as [|b0 bs IH]; intros Hb Hl; [by apply buckets_one|].
  destruct bs as [|b1 bs]; inversion Hb; subst; apply buckets_cons; auto.
Qed.

Lemma buckets_snoc bs b b' :
  buckets (bs ++ [b]) → b.1 + rpcRateWindow < b'.1 → bucket_run b'.1 b'.2 → buckets ((bs ++ [b]) ++ [b']).
Proof.
  induction bs as [|b0 bs IH]; intros Hb Hgap Hl.
  - apply buckets_cons; [by inversion Hb|done|by apply buckets_one].
  - destruct bs as [|b1 bs]; inversion Hb; subst; apply buckets_cons; auto; by apply IH.
Qed.

Lemma bucket_fresh t : bucket_run t [(t, true)].
Proof.
  split; [constructor; [cbn; unfold rpcRateWindow, second; lia|done]|].
  intros [|i] tb Hi; by inversion Hi.
Qed.

Lemma bucket_snoc start l t :
  bucket_run start l → start ≤ t ≤ start + rpcRateWindow →
  bucket_run start (l ++ [(t, Z.of_nat (length l) + 1 <=? rpcRateLimit)]).
Proof.
  intros [Hw Hal] Ht. split; [apply Forall_app; auto|].
  intros i tb [Hi|[Hlen Hi]]%lookup_app_Some; [eauto|].
  apply list_lookup_singleton_Some in Hi as [Hi <-]. by replace (length l) with i by lia.
Qed.

(** The bucket of the client is the last one of its requests, unless the client
    made none or it is old enough to have been dropped. *)
Definition limiter_at (now : Z) (rl : ipRateLimiter) (bs : list (Z * list (Z * bool))) : Prop :=
  match rl !! ip with
  | Some b => ∃ bs0 l, bs = bs0 ++ [(ib_windowStart b, l)] ∧ ib_count b = len l ∧ ib_windowStart b ≤ now
  | None => ∀ bs0 b, bs = bs0 ++ [b] → b.1 + rpcRateWindow < now
  end.

Lemma limiter_at_later now t rl bs : limiter_at now rl bs → now ≤ t → limiter_at t rl bs.
Proof.
  unfold limiter_at. destruct (rl !! ip) as [b|]; [intros (bs0 & l & ? & ? & ?) ?; exists bs0, l; split_and!; auto; lia|].
  intros H Ht bs0 b Hbs. specialize (H bs0 b Hbs). lia.
Qed.

Lemma limiter_at_collect now rl bs : limiter_at now rl bs → limiter_at now (gc_buckets now rl) bs.
Proof.
  unfold limiter_at, gc_buckets, ipRateLimiter in *. intros H. destruct (rl !! ip) as [b|] eqn:Hb.
  - destruct (rpcRateWindow * 2 <? Time_Sub now (ib_windowStart b)) eqn:Hold.
    + rewrite map_lookup_filter_None_2 by (right; intros x Hx; simplify_eq; simpl; congruence).
      rewrite Time_Sub_window, bool_decide_eq_true in Hold by (unfold rpcRateWindow, second; lia).
      destruct H as (bs0 & l & -> & _ & _). intros bs1 b1 [_ [= <-]]%app_inj_tail.
      cbn. unfold rpcRateWindow, second in *. lia.
    + by rewrite (map_lookup_filter_Some_2 _ _ _ b).
  - by rewrite map_lookup_filter_None_2 by auto.
Qed.

Lemma limiter_at_fresh t rl bs :
  buckets bs → (∀ bs0 b, bs = bs0 ++ [b] → b.1 + rpcRateWindow < t) →
  let bs' := bs ++ [(t, [(t, true)])] in
  buckets bs' ∧ limiter_at t (<[ip := mkIpBucket 1 t]> rl) bs' ∧ mjoin bs'.*2 = mjoin bs.*2 ++ [(t, true)].
Proof.
  intros Hbs Hgap. split_and!.
  - destruct bs as [|b bs _] using rev_ind; [apply buckets_one, bucket_fresh|].
    apply buckets_snoc; [done|by eapply Hgap|apply bucket_fresh].
  - unfold limiter_at, ipRateLimiter. rewrite lookup_insert_eq. eexists _, _. split_and!; [done..|cbn; lia].
  - by rewrite fmap_app, join_app.
Qed.

Lemma buckets_last_run bs b : buckets (bs ++ [b]) → bucket_run b.1 b.2.
Proof. by induction bs as [|? [|]]; inversion 1; auto. Qed.

(** A request of the client goes to its bucket or starts a new one. *)
Lemma limiter_at_request t rl bs :
  buckets bs → limiter_at t rl bs →
  ∃ bs', buckets bs' ∧ limiter_at t (Allow ip t rl).2 bs' ∧
         mjoin bs'.*2 = mjoin bs.*2 ++ [(t, (Allow ip t rl).1)].
Proof.
  intros Hbs H. unfold limiter_at in H. unfold Allow. destruct (rl !! ip) as [b|] eqn:Hb.
  - destruct H as (bs0 & l & -> & Hc & Hn). rewrite Time_Sub_window by (unfold rpcRateWindow, second; lia).
    case_bool_decide as Hw.
    + eexists. apply limiter_at_fresh; [done|]. by intros bs1 b1 [_ <-]%app_inj_tail.
    + pose proof (buckets_last_run _ _ Hbs) as Hl.
      pose proof (bucket_snoc _ _ t Hl ltac:(cbn; lia)) as Hl'.
      eexists. split; [apply (buckets_last _ _ _ Hbs Hl')|]. split.
      * unfold limiter_at, ipRateLimiter. cbn. rewrite lookup_insert_eq. eexists _, _.
        split; [done|]. cbn [ib_count ib_windowStart snd]. split; [|done].
        rewrite Hc, length_app. cbn [length]. lia.
      * rewrite !fmap_app, !join_app. cbn. rewrite !app_nil_r, Hc. by rewrite app_assoc.
  - eexists. by apply limiter_at_fresh.
Qed.

Lemma limiter_at_other ip' t rl bs : ip' ≠ ip → limiter_at t rl bs → limiter_at t (Allow ip' t rl).2 bs.
Proof.
  intros Hne. assert (Hl : (Allow ip' t rl).2 !! ip = rl !! ip); [|unfold limiter_at; by rewrite Hl].
  unfold Allow, ipRateLimiter in *. destruct (rl !! ip') as [b|]; [destruct (_ <? _)|]; cbn [snd].
  all: by rewrite lookup_insert_ne.
Qed.

Lemma limiter_run_buckets evs : ∀ now rl bs,
  buckets bs → limiter_at now rl bs → Sorted Z.le (now :: (event_time <$> evs)) →
  ∃ bs', buckets bs' ∧ mjoin bs'.*2 = mjoin bs.*2 ++ limiter_run evs rl.
Proof.
  induction evs as [|ev evs IH]; intros now rl bs Hbs Hat Hs.
  - exists bs. by rewrite app_nil_r.
  - apply Sorted_inv in Hs as [Hs Hle]. inversion Hle as [|? ? Hnow]; subst. clear Hle.
    apply (limiter_at_later _ _ _ _ Hat) in Hnow. clear Hat.
    destruct ev as [ip' t|t]; cbn [limiter_run event_time] in *.
    + destruct (Allow ip' t rl) as [ok rl'] eqn:Hal. case_bool_decide as Hip; [subst ip'|].
      * destruct (limiter_at_request _ _ _ Hbs Hnow) as (bs1 & Hbs1 & Hat1 & Hj). rewrite Hal in Hat1, Hj.
        destruct (IH t rl' bs1 Hbs1 Hat1 Hs) as (bs2 & Hbs2 & Hj2).
        exists bs2. split; [done|]. by rewrite Hj2, Hj, <- app_assoc.
      * apply (limiter_at_other _ _ _ _ Hip) in Hnow. rewrite Hal in Hnow. by apply (IH t rl' bs).
    + by apply (IH t (gc_buckets t rl) bs), Hs; [|apply limiter_at_collect].
Qed.

(** A refused request comes after as many requests as the limit in its bucket. *)
Lemma buckets_refused bs i t :
  buckets bs → mjoin bs.*2 !! i = Some (t, false) →
  (Z.to_nat rpcRateLimit ≤ requests_since (t - rpcRateWindow) (take i (mjoin bs.*2)))%nat.
Proof.
  intros Hbs. revert i. assert (Hall : Forall (λ b, bucket_run b.1 b.2) bs) by (induction Hbs; auto).
  clear Hbs. induction Hall as [|b bs [Hw Hal] _ IH]; intros i Hi; [done|].
  rewrite entries_cons in *. unfold requests_since in *.
  apply lookup_app_Some in Hi as [Hi|[Hlen Hi]].
  - rewrite take_app_le by (apply lookup_lt_Some in Hi; lia).
    rewrite filter_all.
    + rewrite length_take_le by (apply lookup_lt_Some in Hi; lia).
      specialize (Hal _ _ Hi). cbn in Hal. symmetry in Hal. apply Z.leb_gt in Hal. lia.
    + rewrite Forall_lookup in Hw. specialize (Hw _ _ Hi) as Hwi. cbn in Hwi. apply Forall_take, Forall_lookup.
      intros j tb Hj. specialize (Hw _ _ Hj). lia.
  - rewrite take_app_ge, filter_app, length_app by done. specialize (IH _ Hi). lia.
Qed.
End limiter.

(** C39: The limit on the rate of requests is kept: from the start of the server, within
    any window a client has at most twice the limit of its requests allowed (one
    bucket can end and the next begin in it), and a request is refused only when
    the client made as many requests as the limit within the window before it. The
    other clients, and the loop that drops old buckets, have no part in this. *)
Theorem rate_limit_enforced (evs : list limiter_event) (ip : list byte) :
  Sorted Z.le (event_time <$> evs) →
  let l := limiter_run ip evs ∅ in
  (∀ a, allowed_in a l ≤ 2 * Z.to_nat rpcRateLimit)%nat ∧
  (∀ i t, l !! i = Some (t, false) →
     Z.to_nat rpcRateLimit ≤ requests_since (t - rpcRateWindow) (take i l))%nat.
Proof.
  intros Hs. destruct (limiter_run_buckets ip evs (default 0 (head (event_time <$> evs))) ∅ []) as (bs & Hbs & Hj).
  - constructor.
  - unfold limiter_at, ipRateLimiter. rewrite lookup_empty. by intros [] ? ?.
  - destruct evs; [repeat constructor|]. constructor; [done|]. constructor. cbn. lia.
  - cbn in Hj. rewrite <- Hj. split; [intros a; by apply buckets_allowed|intros i t; by apply buckets_refused].
Qed.

(** Sixty-five requests in a second and four after the window; another client and a
    turn of the loop come between them. *)
Definition limiter_sample : list limiter_event :=
  ((λ i, LRequest [x31] (Z.of_nat i * 1000000)) <$> seq 0 65) ++
  [LRequest [x32] second; LCollect (11 * second)] ++
  ((λ i, LRequest [x31] (12 * second + Z.of_nat i)) <$> seq 0 4).

Lemma rate_limit_enforced_witness :
  let l := limiter_run [x31] limiter_sample ∅ in
  l.*2 = replicate 60 true ++ replicate 5 false ++ replicate 4 true ∧
  (allowed_in 0 l ≤ 120)%nat ∧
  (60 ≤ requests_since (64000000 - rpcRateWindow) (take 64 l))%nat.
Proof.
  assert (Hs : Sorted Z.le (event_time <$> limiter_sample)).
  { apply Sorted_LocallySorted_iff. vm_compute. repeat (constructor; [|discriminate]). constructor. }
  destruct (rate_limit_enforced limiter_sample [x31] Hs) as [Ha Hr].
  split; [vm_compute; reflexivity|]. split; [apply Ha|apply (Hr 64%nat 64000000)].
  vm_compute. reflexivity.
Defined.
