(* ===== verification/RpcProps.v ===== *)
(** * Properties of the RPC server

    Who may change the node over HTTP, what a payment and a submitted block do to
    the pool, the chain and the peers. *)
From S2P Require Import Prelude Types Sha256 Target Merkle Params Utxo Keys Script TxValidation.
From S2P Require Import Algorithms Validation Difficulty Pow TimeAdjust BlockFiles Store Chain ChainProps Heap Mempool.
From S2P Require Import MempoolProps Base58 Protocol Headers Scheduler Miner Net Peer ManagerState Manager Sync ManagerInv.
From S2P Require Import ManagerProps Relay Aes Wallet WalletTx WalletInv WalletProps RpcBase RpcQuery RpcWallet RpcMining RpcServer.

Section access.
Context {St : Type} `{BlockStore St} `{C : CryptoLib, !HDLib, !HashLib} {PS : Type} `{PeerStore PS}.
Context (p : ChainParams) (engine : Engine) (w : World) (cwall cadjusted mwall : nat → Z).
Context (o : Outside) (auth : AuthConfig) (reports : Reports (Server St PS)).
Implicit Types s : Server St PS.
Notation R := (proc (Server St PS)).
Notation mux := (mux p engine w cwall cadjusted mwall o reports).
Notation serve := (serve p engine w cwall cadjusted mwall o auth reports).

(** ** Reading *)

(** What is not for the bookkeeping of requests: the chain, the pool, the header
    index, the peers and the rest of the manager, the wallet, the fee. *)
Definition node s : Manager St PS * option HDWallet * Z * bool :=
  (set_m_n 0 (s_p2p s), s_wallet s, s_feePerByte s, s_stopping s).
Notation reads := (steps (same_field node)).

Lemma reads_try {A B} (m : R A) (h : error → B) (k : A → R B) :
  reads m → (∀ a, reads (k a)) → reads (or_return m h k).
Proof.
  intros Hm Hk s. specialize (Hm s). unfold or_return. destruct (m s) as [[a|e|] s']; cbn in *; [|done..].
  etrans; [exact Hm|apply Hk].
Qed.
Lemma reads_p2p {A} (f : proc (Manager St PS) A) : steps (same_field (set_m_n 0)) f → reads (on_p2p f).
Proof.
  intros Hf s. specialize (Hf (s_p2p s)). unfold on_p2p, on. destruct (f (s_p2p s)) as [r m'].
  unfold same_field, node in *. cbn in *. by rewrite Hf.
Qed.
Lemma reads_now : reads (on_p2p (now w)).
Proof. by apply reads_p2p. Qed.
Lemma reads_range {A} (l : list A) : reads (on_p2p (range_map w l)).
Proof. by apply reads_p2p. Qed.
Lemma reads_wallet_get {A} (f : HDWallet → A) : reads (wallet_get f).
Proof. intros s. unfold wallet_get, on_wallet, same_field, node. destruct s as [m [wl|] ? ? ? ?]; done. Qed.

(** Walks through a handler, and through those that it calls. *)
Ltac reads_walk :=
  repeat first
    [ progress intros
    | progress cbv zeta
    | match goal with
      | |- steps _ (or_return _ _ _) => apply reads_try; [|intros ?]
      | |- steps _ (on_p2p (now _)) => apply reads_now
      | |- steps _ (on_p2p (range_map _ _)) => apply reads_range
      | |- steps _ (wallet_get _) => apply reads_wallet_get
      | |- steps _ (mret _) => apply steps_ret; apply _
      | |- steps _ (pure _) => apply steps_pure; apply _
      | |- steps _ (gets _) => apply steps_gets; apply _
      | |- steps _ (asks _) => apply steps_asks; apply _
      | |- steps _ (modify _) => apply same_modify; same_assign
      | |- steps _ (mbind _ _) => apply steps_bind; [apply _| |intros ?]
      | |- steps _ (foldP _ _ _) => apply steps_foldP; [apply _|intros ? ?]
      | |- steps _ (match ?x with _ => _ end) => destruct x
      | |- steps _ ?t => let h := head_of t in progress unfold h
      end ].

(** The paths whose handlers change the node without asking for a POST. *)
Definition unguarded : list string := ["/addnode"; "/disconnectnode"].

Lemma requirePOST_reads r (k : R Response) : rq_Method r ≠ "POST" → reads (requirePOST r k).
Proof. intros Hr. unfold requirePOST. rewrite bool_decide_false by done. apply steps_ret, _. Qed.

Lemma routes_read r : rq_Method r ≠ "POST" →
  Forall (λ ph, ph.1 ∉ unguarded → reads (ph.2 r)) (routes p engine w cwall cadjusted mwall o reports).
Proof.
  intros Hr. unfold routes. repeat first [apply Forall_nil_2|apply Forall_cons_2]; cbn [fst snd]; intros Hu.
  all: try (exfalso; apply Hu; solve [left|right; left]).
  all: clear Hu.
  all: try (apply requirePOST_reads; exact Hr).
  all: try (unfold handleSubmitBlock, handleStop; rewrite bool_decide_false by done; apply steps_ret, _).
  all: by reads_walk.
Qed.

Lemma mux_reads r : rq_Method r ≠ "POST" → rq_Path r ∉ unguarded → reads (mux r).
Proof.
  intros Hr Hp. unfold RpcServer.mux. destruct (List.find _ _) as [ph|] eqn:Hf.
  - apply find_some in Hf as [Hin Hpath%bool_decide_eq_true].
    apply (proj1 (Forall_forall _ _) (routes_read r Hr) ph); [by apply list_elem_of_In|congruence].
  - unfold handleJSONRPC. rewrite bool_decide_false by done. apply steps_ret, _.
Qed.

Lemma Allow_run next r s :
  rateLimitMiddleware w next r s =
  let now := w_now w (m_n (s_p2p s)) in
  let '(ok, rl) := Allow (client_ip r) now (s_rateLimiter s) in
  let s' := set_s_rateLimiter rl (set_s_p2p (set_m_n (S (m_n (s_p2p s))) (s_p2p s)) s) in
  if ok then next r s' else (Ok (WriteError StatusTooManyRequests (Errorf "rate limit exceeded")), s').
Proof.
  change (rateLimitMiddleware w next r s) with
    (let s1 := set_s_p2p (set_m_n (S (m_n (s_p2p s))) (s_p2p s)) s in
     let a := Allow (client_ip r) (w_now w (m_n (s_p2p s))) (s_rateLimiter s) in
     (if a.1 then next r else mret (WriteError StatusTooManyRequests (Errorf "rate limit exceeded")))
       (set_s_rateLimiter a.2 s1)).
  cbv zeta. by destruct (Allow _ _ _) as [[] rl].
Qed.

(** A request without the credentials. *)
Lemma unauthorized_refused r s : au_User auth ≠ [] → authorized auth r = false →
  let '(resp, s') := serve r s in
  (∃ code msg, resp = Ok (WriteError code msg) ∧ (code = StatusUnauthorized ∨ code = StatusTooManyRequests)) ∧
  node s' = node s ∧ s_longPoll s' = s_longPoll s.
Proof.
  intros Hu Ha. unfold RpcServer.serve, recoveryMiddleware. rewrite Allow_run. cbv zeta.
  destruct (Allow _ _ _) as [ok rl]. rewrite bool_decide_false by done. unfold authMiddleware. rewrite Ha.
  destruct ok; split_and!; try done; by eexists _, _; auto.
Qed.

End access.

(** ** Payments *)

Section sending.
Context {St : Type} `{BlockStore St} `{C : CryptoLib, !CryptoLaws C, !HDLib, !HashLib} {PS : Type} `{PeerStore PS}.
Context (p : ChainParams) (w : World) (mwall : nat → Z).
Context (faults : nat → io_fault) (clock : nat → Z) (sorted : list UnspentOutput → list UnspentOutput).
Implicit Types s : Server St PS.
Notation utxos s := (c_utxoSet (s_chain s)).
Notation tip s := (c_tipHeight (s_chain s)).

(** A transaction is in the pool with its fee, and every registered peer that does
    not know it is told. *)
Record submitted s s' (tx : Transaction) (fee : Z) : Prop := {
  sb_chain : s_chain s' = s_chain s;
  sb_pool : ∃ e, pool (s_mempool s') !! HashTransaction tx = Some e ∧ te_Tx e = tx ∧ te_Fee e = fee;
  sb_peers q : m_objs (s_p2p s') !! q =
    if decide (q ∈ registered (s_p2p s)) then inv_sent (HashTransaction tx) <$> m_objs (s_p2p s) !! q
    else m_objs (s_p2p s) !! q
}.

(** A node whose pool and peers are as their invariants say. *)
Record node_ok s : Prop := {
  no_pool : mempool_ok p (s_mempool s);
  no_peers : peers_valid (s_p2p s)
}.

Definition admitted s tx : res Z :=
  admit_tx p (pool (s_mempool s)) (utxos s) (tip s) (mwall (mp_clock (s_mempool s))) tx.

Lemma inv_sent_addr hash pr : pr_addr (inv_sent hash pr) = pr_addr pr.
Proof. unfold inv_sent, SendMessage, TrySendMessage. by repeat case_match. Qed.

Lemma submit_spec tx s :
  is_u32 (p_MaxMempoolSize p) → world_ok w → node_ok s →
  match admitted s tx with
  | Ok fee => ∃ s', submitTxToMempool p w mwall tx s = (Ok (HashTransaction tx), s') ∧
      submitted s s' tx fee ∧ node_ok s' ∧ s_wallet s' = s_wallet s
  | Err e => ∃ s', submitTxToMempool p w mwall tx s = (Err e, s') ∧ s_chain s' = s_chain s ∧
      m_objs (s_p2p s') = m_objs (s_p2p s) ∧ pool (s_mempool s') = pool (s_mempool s) ∧
      node_ok s' ∧ s_wallet s' = s_wallet s
  | Panic => ∃ s', submitTxToMempool p w mwall tx s = (Panic, s')
  end.
Proof.
  intros Hmax Hw [Hmp Hpv]. unfold admitted.
  pose proof (AddTx_spec p mwall (s_mempool s) (utxos s) (tip s) tx Hmax Hmp) as Hspec. cbv zeta in Hspec.
  unfold submitTxToMempool. rewrite gets_bind, proc_bind_eq. unfold on_p2p, on_mempool, on.
  change (m_mempool (s_p2p s)) with (s_mempool s). destruct (AddTx p mwall (utxos s) (tip s) tx (s_mempool s)) as [r mp'].
  destruct Hspec as (-> & Hmp' & Hpool).
  destruct (admit_tx _ _ _ _ _ _) as [fee|e|]; cbn [fmap res_fmap]; [|eexists; split_and!; done || by split|by eexists].
  rewrite proc_bind_eq. cbn [s_p2p set_s_p2p].
  destruct (BroadcastTx_spec w (HashTransaction tx) (set_m_mempool mp' (s_p2p s)) Hw Hpv) as (objs & n & Hrun & Hobjs).
  rewrite Hrun. eexists. split; [done|]. split; [|split; [|done]].
  - split; [done| |done]. cbn. rewrite Hpool, lookup_insert_eq. by eexists.
  - split; [done|]. intros addr q Hq. destruct (Hpv addr q Hq) as (pr & Hpr & Ha). cbn in *.
    rewrite Hobjs. cbn. rewrite Hpr. destruct (decide _); [|by exists pr]. exists (inv_sent (HashTransaction tx) pr).
    split; [done|]. by rewrite inv_sent_addr.
Qed.

(** What the handlers do between their parameters and their answer. *)
Notation pay := (pay p w faults clock sorted).
Lemma pay_run address amount s wl :
  s_wallet s = Some wl →
  pay address amount s =
    let items := w_iter w _ (m_n (s_p2p s)) (makeUtxoIterator (utxos s)) in
    let '(r, wl') := BuildTransaction faults clock sorted (mkSendRequest address amount) (s_feePerByte s)
      (FindUnspent wl items (tip s)) (p_CoinbaseMaturity p) (tip s) wl in
    (r, set_s_wallet (Some wl') (set_s_p2p (set_m_n (S (m_n (s_p2p s))) (s_p2p s)) s)).
Proof. destruct s as [m ? fee lp rl st]. cbn. intros ->. reflexivity. Qed.

(** The outputs begin with the payment, and fit their type. *)
Lemma make_outputs_first n t amount f dest wl outs wl' :
  is_u64 (out_Value dest) → make_outputs faults n t amount f dest wl = (Ok outs, wl') →
  u64_outputs outs ∧ ∃ rest, outs = dest :: rest.
Proof.
  intros Hd Hr. unfold make_outputs in Hr. run_inv. unfold u64_outputs.
  destruct (DustThreshold <? _) in Hr; run_inv; [destruct (DustThreshold <? _) in Hr; run_inv|].
  all: split; [|by eexists]; repeat apply Forall_cons_2; try apply Forall_nil_2; try done.
  apply u64_range.
Qed.

(** A payment that validates is within the money there is. *)
Lemma validated_payment tx set h sup now fee :
  u64_outputs (tx_Outputs tx) → ValidateSingleTransaction tx set h p sup now = Ok fee →
  Transaction_SerializeSize tx ≤ MaxTxSize ∧ out_total (tx_Outputs tx) ≤ MaxMoneyValue.
Proof.
  intros Ho Hv. unfold ValidateSingleTransaction in Hv. res_inv. rewrite Z.ltb_ge in *.
  match goal with H : check_outputs _ _ = Ok _ |- _ => apply check_outputs_Ok in H as (-> & _ & Hm & _); [|done] end.
  done.
Qed.

(** The first output of a built payment is the amount. *)
Lemma built_outputs s wl items address amount tx wl' :
  keys_ok wl → is_u64 amount →
  BuildTransaction faults clock sorted (mkSendRequest address amount) (s_feePerByte s)
    (FindUnspent wl items (tip s)) (p_CoinbaseMaturity p) (tip s) wl = (Ok tx, wl') →
  u64_outputs (tx_Outputs tx) ∧ amount ≤ out_total (tx_Outputs tx).
Proof.
  intros Hk Ha Hb. apply BuildTransaction_inv in Hb
    as (w1 & pkh & sel & t & outs & Hg1 & _ & _ & _ & Hmk & Hsign). cbn [sr_Amount sr_ToAddress] in *.
  assert (Hg2 : wallet_grows w1 wl') by (pose proof (make_outputs_grows faults (len sel) t amount (s_feePerByte s)
    (mkTxOutput amount (MakeP2PKHScript pkh)) w1) as Hg; by rewrite Hmk in Hg).
  destruct (signed_inputs wl' sel outs (tip s) tx) as (_ & -> & _); [by apply Hg2, Hg1|done|].
  destruct (make_outputs_first (len sel) t amount (s_feePerByte s) (mkTxOutput amount (MakeP2PKHScript pkh)) w1 outs wl'
    Ha Hmk) as [Hou [rest ->]]. split; [done|].
  apply Forall_cons in Hou as [_ Hou]. pose proof (out_total_nonneg _ Hou).
  change (amount ≤ amount + out_total rest). lia.
Qed.

Lemma no_supplement s wl tx :
  Forall (λ i, ∃ e, utxos s !! input_key i = Some e ∧ IsOurScript wl (ue_PkScript e) = true) (tx_Inputs tx) →
  foldl (spec_supplement (pool (s_mempool s)) (utxos s)) None (tx_Inputs tx) = None.
Proof.
  induction 1 as [|i ins (e & He & _) _ IH]; [done|]. cbn [foldl]. unfold spec_supplement at 2, Set_Has, Set_Get.
  rewrite bool_decide_true; [done|]. by exists e.
Qed.

(** A payment of the wallet: the amount to the address, the change to the wallet,
    from outputs of the wallet, at the price set. *)
Definition pays s (wl : HDWallet) (address : list byte) (amount fee : Z) (tx : Transaction) : Prop :=
  ∃ h change,
    AddressToPubKeyHash address = Ok (w_addrVersion wl, h) ∧
    tx_Outputs tx = mkTxOutput amount (MakeP2PKHScript h) :: option_list change ∧
    (∀ o, change = Some o → DustThreshold < out_Value o ∧ IsOurScript wl (out_PkScript o) = true) ∧
    Forall (λ i, ∃ e, utxos s !! input_key i = Some e ∧ IsOurScript wl (ue_PkScript e) = true) (tx_Inputs tx) ∧
    (let estimate := fee_exact (len (tx_Inputs tx)) 2 (s_feePerByte s) in estimate ≤ fee ≤ estimate + DustThreshold).

(** A chain, a wallet and a fee as their invariants say. *)
Record funds_ok s wl : Prop := {
  fo_keys : keys_ok wl;
  fo_set : wf_utxo_set (utxos s);
  fo_few : few (Z.of_nat (size (utxos s)));
  fo_tip : 0 ≤ tip s;
  fo_next : is_u32 (tip s + 1);
  fo_fee : 0 ≤ s_feePerByte s ≤ maxFeePerByte
}.

Lemma payment_admitted s wl items address amount tx wl' fee :
  funds_ok s wl → items ≡ₚ makeUtxoIterator (utxos s) → (∀ l, sorted l ≡ₚ l) → is_u64 amount →
  BuildTransaction faults clock sorted (mkSendRequest address amount) (s_feePerByte s)
    (FindUnspent wl items (tip s)) (p_CoinbaseMaturity p) (tip s) wl = (Ok tx, wl') →
  admitted s tx = Ok fee → wallet_grows wl wl' ∧ pays s wl' address amount fee tx.
Proof.
  intros [Hk Hs Hfew Htip Hu32 Hf] Hit Hsort Ha Hb Hadm.
  destruct (built_outputs _ _ _ _ _ _ _ Hk Ha Hb) as [Hou Hle].
  unfold admitted, admit_tx in Hadm. res_inv.
  match goal with H : ValidateSingleTransaction _ _ _ _ _ ?n = Ok _ |- _ => rename H into Hval; set (now := n) in Hval end.
  destruct (validated_payment _ _ _ _ _ _ Hou Hval) as [Hsz Hmoney].
  destruct (payment_checks faults clock wl (utxos s) items sorted (mkSendRequest address amount) (s_feePerByte s) p (tip s)
    now tx wl') as (fee' & h & change & Hv & Hfee & Haddr & Ho & Hc & Hown); try done.
  { unfold is_u64, MaxMoneyValue in *. cbn. lia. }
  rewrite (no_supplement _ _ _ Hown), Hv in Hval. injection Hval as ->.
  assert (Hg : wallet_grows wl wl') by (pose proof (BuildTransaction_grows faults clock sorted (mkSendRequest address amount)
    (s_feePerByte s) (FindUnspent wl items (tip s)) (p_CoinbaseMaturity p) (tip s) wl) as Hg; by rewrite Hb in Hg).
  split; [done|]. exists h, change. split_and!; try done; [by rewrite (wg_version _ _ Hg)|].
  eapply Forall_impl; [exact Hown|]. intros i (e & He & Hours). exists e. split; [done|]. by apply (grows_our_script wl).
Qed.

(** ** Sending *)

(** Nothing that others see is changed. *)
Definition unsent s s' : Prop :=
  s_chain s' = s_chain s ∧ pool (s_mempool s') = pool (s_mempool s) ∧ m_objs (s_p2p s') = m_objs (s_p2p s).
Definition sent s s' (address : list byte) (amount : Z) (hash : Hash) : Prop :=
  ∃ tx fee wl, s_wallet s' = Some wl ∧ hash = HashTransaction tx ∧ submitted s s' tx fee ∧ pays s wl address amount fee tx.

Lemma sent_wallet wl s s' address amount hash :
  sent (set_s_wallet wl s) s' address amount hash → sent s s' address amount hash.
Proof.
  intros (tx & fee & wl' & Hwl & Hh & [Hc Hp Hq] & Hpays). exists tx, fee, wl'. split_and!; [done|done|by split|done].
Qed.

(** The common end of the handlers: [refused] and [rejected] make an answer of an
    error, [done] of a hash. *)
Definition send {B} (address : list byte) (amount : Z) (refused rejected : error → B) (answer : Hash → B)
    : proc (Server St PS) B :=
  try tx := pay address amount else refused in
  try txHash := submitTxToMempool p w mwall tx else rejected in
  mret (answer txHash).

Lemma send_spec {B} address amount (refused rejected : error → B) answer s wl b s' :
  is_u32 (p_MaxMempoolSize p) → world_ok w → (∀ l, sorted l ≡ₚ l) → is_u64 amount →
  node_ok s → s_wallet s = Some wl → funds_ok s wl →
  send address amount refused rejected answer s = (Ok b, s') →
  (∃ hash, b = answer hash ∧ sent s s' address amount hash) ∨
  (∃ e, (b = refused e ∨ b = rejected e) ∧ unsent s s').
Proof.
  intros Hmax Hw Hsort Ha Hno Hwl Hfunds. unfold send, or_return. rewrite (pay_run _ _ _ _ Hwl). cbv zeta.
  destruct (BuildTransaction _ _ _ _ _ _ _ _ _) as [[tx|e|] wl'] eqn:Hb.
  2: { intros [= <- <-]. right. exists e. by split; [left|]. }
  2: done.
  set (s1 := set_s_wallet _ _). assert (Hno1 : node_ok s1) by (by destruct Hno).
  pose proof (submit_spec tx s1 Hmax Hw Hno1) as Hsub. destruct (admitted s1 tx) as [fee|e|] eqn:Hadm.
  - destruct Hsub as (s2 & -> & [Hc Hp Hq] & _ & Hwl2). intros [= <- <-]. left. eexists. split; [done|].
    destruct (payment_admitted s wl _ address amount tx wl' fee Hfunds (Hw _ _ _) Hsort Ha Hb Hadm) as [_ Hpays].
    exists tx, fee, wl'. split_and!; [done|done|by split|done].
  - destruct Hsub as (s2 & -> & Hc & Ho & Hp & _). intros [= <- <-]. right. exists e. split; [by right|]. by split_and!.
  - by destruct Hsub as [s2 ->].
Qed.

(** The test for a locked wallet comes first. *)
Lemma unlocked_first {B} (h : error → B) (k : () → proc (Server St PS) B) s wl b s' :
  s_wallet s = Some wl → funds_ok s wl → node_ok s →
  or_return (on_wallet (RequireUnlocked clock)) h k s = (Ok b, s') →
  (∃ e, b = h e ∧ unsent s s') ∨
  ∃ wl1, let s1 := set_s_wallet (Some wl1) s in funds_ok s1 wl1 ∧ node_ok s1 ∧ k () s1 = (Ok b, s').
Proof.
  intros Hwl [] [] Hr. unfold or_return, on_wallet in Hr. rewrite Hwl in Hr.
  pose proof (RequireUnlocked_grows clock wl) as Hg. destruct (RequireUnlocked clock wl) as [[[]|e|] wl1]; [| |done].
  - right. exists wl1. split; [|split; [by split|done]]. split; try done. by apply Hg.
  - injection Hr as <- <-. left. by exists e.
Qed.

Notation handleSendToAddress := (handleSendToAddress p w mwall faults clock sorted).
Notation rpcSendToAddress := (rpcSendToAddress p w mwall faults clock sorted).

(** C13: A payment over HTTP or JSON-RPC that is answered with a transaction hash is
    made: the transaction with that hash spends outputs of the wallet, pays
    exactly the amount to the address and the change, if any, to the wallet, at
    the fee rate that was set; it is in the pool, and every peer that did not know
    it is told. When the answer is an error, whatever it is, the pool, the peers
    and the chain are as before. This is so for every amount, also for those that
    wrap around in the wallet's sums. *)
Theorem payment_submitted s wl :
  is_u32 (p_MaxMempoolSize p) → world_ok w → (∀ l, sorted l ≡ₚ l) →
  node_ok s → s_wallet s = Some wl → funds_ok s wl →
  (∀ r resp s', handleSendToAddress r s = (Ok resp, s') →
     match resp with
     | WriteJSON j => ∃ hash, j = hash_json hash ∧
         sent s s' (PostFormValue r "address") (ParseUint (PostFormValue r "amount") 64).1 hash
     | WriteError _ _ => unsent s s'
     end) ∧
  (∀ address lit rest resp s', rpcSendToAddress (JStr address :: JNum lit :: rest) s = (Ok resp, s') →
     match resp with
     | RpcOk j => ∃ hash, j = hash_json hash ∧ sent s s' address (ParseUint lit 64).1 hash
     | RpcErr _ _ => unsent s s'
     end).
Proof.
  intros Hmax Hw Hsort Hno Hwl Hfunds. split.
  - intros r resp s' Hr. unfold RpcWallet.handleSendToAddress, requirePOST, requireWallet, has_wallet in Hr.
    case_bool_decide; [|by injection Hr as <- <-]. rewrite gets_bind, Hwl in Hr. rewrite bool_decide_true in Hr by by eexists.
    destruct (unlocked_first _ _ _ _ _ _ Hwl Hfunds Hno Hr) as [(e & -> & Hun)|(wl1 & Hf1 & Hn1 & Hr1)]; [done|].
    destruct (_ || _); [by injection Hr1 as <- <-|].
    pose proof (ParseUint_u64 (PostFormValue r "amount")) as Hu.
    destruct (ParseUint _ 64) as [amount ok]. destruct ok; [|by injection Hr1 as <- <-].
    apply (send_spec _ _ _ _ (λ h, WriteJSON (hash_json h)) _ _ _ _ Hmax Hw Hsort Hu Hn1 eq_refl Hf1) in Hr1
      as [(hash & -> & Hsent%sent_wallet)|(e & [-> | ->] & Hun)]; [by exists hash|done..].
  - intros address lit rest resp s' Hr. unfold RpcWallet.rpcSendToAddress, rpc_wallet, has_wallet in Hr.
    rewrite gets_bind, Hwl in Hr. rewrite bool_decide_true in Hr by by eexists.
    destruct (unlocked_first _ _ _ _ _ _ Hwl Hfunds Hno Hr) as [(e & -> & Hun)|(wl1 & Hf1 & Hn1 & Hr1)]; [done|].
    pose proof (ParseUint_u64 lit) as Hu. unfold or_return at 1 2, pure, Unmarshal_string, Unmarshal_uint in Hr1.
    destruct (ParseUint lit 64) as [amount ok]. destruct ok; [|by injection Hr1 as <- <-].
    apply (send_spec _ _ _ _ (λ h, RpcOk (hash_json h)) _ _ _ _ Hmax Hw Hsort Hu Hn1 eq_refl Hf1) in Hr1
      as [(hash & -> & Hsent%sent_wallet)|(e & [-> | ->] & Hun)]; [by exists hash|done..].
Qed.
End sending.

(** ** Blocks *)

Section submission.
Context {St : Type} `{BlockStore St} `{C : CryptoLib, !HDLib, !HashLib} {PS : Type} `{PeerStore PS}.
Context (p : ChainParams) (engine : Engine) (w : World) (cwall cadjusted : nat → Z).
Implicit Types s : Server St PS.

(** The submission of a block whose encoding is right: what the chain does with it. *)
Lemma rpcSubmitBlock_run b params s : wf_block b →
  rpcSubmitBlock p engine w cwall cadjusted (hex_json (Block_SerializeToBytes b) :: params) s =
  let '(r, c') := ProcessBlock p engine cwall cadjusted b (s_chain s) in
  let s1 := set_s_p2p (set_m_chain c' (s_p2p s)) s in
  match r with
  | Ok (_, Some e) => (Ok (RpcOk (text (mapBlockErrorToRejection (Error_text e)))), s1)
  | Ok (_, None) => (_ ← postBlockAccept w b; mret (RpcOk JNull)) s1
  | Err e => (Err e, s1)
  | Panic => (Panic, s1)
  end.
Proof.
  intros Hb. unfold rpcSubmitBlock, or_return, pure, hex_json, Unmarshal_string. rewrite hex_decode_encode.
  pose proof (Block_decodes b [] Hb) as Hd. rewrite app_nil_r in Hd. unfold Block_SerializeToBytes. rewrite Hd.
  cbn [fmap res_fmap fst]. rewrite proc_bind_eq. unfold submit_block, on_p2p, on_chain, on.
  change (m_chain (s_p2p s)) with (s_chain s).
  by destruct (ProcessBlock _ _ _ _ _ _) as [[[n [e|]]|e|] c'].
Qed.

(** The waiting requests are woken when the template is new. *)
Lemma longPoll_update_spec id lp :
  lp_current (longPoll_update id lp) = id ∧
  (lp_current lp ≠ id → lp_waiters (longPoll_update id lp) = [] ∧
     ∀ ch, ch ∈ lp_waiters lp → ch ∈ lp_closed (longPoll_update id lp)).
Proof.
  unfold longPoll_update. case_bool_decide as Hid; [done|]. split; [done|]. intros _. split; [done|].
  intros ch Hch. cbn. set_solver.
Qed.

Lemma postBlockAccept_run b s m' :
  BroadcastBlock w (HashBlockHeader (blk_Header b)) b
    (set_m_mempool (RemoveTxs (HashTransaction <$> blk_Transactions b) (s_mempool s)) (s_p2p s)) = (Ok (), m') →
  postBlockAccept w b s =
    let s' := set_s_p2p m' s in (Ok (), set_s_longPoll (longPoll_update (longpoll_id s') (s_longPoll s)) s').
Proof.
  intros Hm. unfold postBlockAccept. rewrite modify_bind, proc_bind_eq. unfold on_p2p, on. cbn [s_p2p set_s_p2p].
  by rewrite Hm.
Qed.

Lemma delete_all {A} (hs : list Hash) (pl : gmap Hash A) :
  foldl (λ pl h, delete h pl) pl hs ⊆ pl ∧ ∀ h, h ∈ hs → foldl (λ pl h, delete h pl) pl hs !! h = None.
Proof.
  revert pl. induction hs as [|h hs IH]; intros pl; cbn [foldl]; [split; [done|set_solver]|].
  destruct (IH (delete h pl)) as [Hsub Hnone]. split; [etrans; [exact Hsub|apply delete_subseteq]|].
  intros h' [->|Hh']%elem_of_cons; [|by apply Hnone].
  eapply lookup_weaken_None; [|exact Hsub]. apply lookup_delete_eq.
Qed.

(** C14: A block submitted over JSON-RPC goes to the chain exactly as one from a peer.
    When the chain refuses it, the answer is the reason and nothing else changes.
    When the chain takes it, its transactions leave the pool, the peers that do
    not know it are told, and every request that waits for another template is
    woken. The header index is not told of the block. *)
Theorem block_submitted b params s height err c' :
  wf_block b → world_ok w → peers_valid (s_p2p s) → mempool_ok p (s_mempool s) →
  ProcessBlock p engine cwall cadjusted b (s_chain s) = (Ok (height, err), c') →
  let '(resp, s') := rpcSubmitBlock p engine w cwall cadjusted (hex_json (Block_SerializeToBytes b) :: params) s in
  s_chain s' = c' ∧ s_wallet s' = s_wallet s ∧ m_headerIndex (s_p2p s') = m_headerIndex (s_p2p s) ∧
  match err with
  | Some e => resp = Ok (RpcOk (text (mapBlockErrorToRejection (Error_text e)))) ∧
      s' = set_s_p2p (set_m_chain c' (s_p2p s)) s
  | None => resp = Ok (RpcOk JNull) ∧
      (∀ tx, tx ∈ blk_Transactions b → pool (s_mempool s') !! HashTransaction tx = None) ∧
      pool (s_mempool s') ⊆ pool (s_mempool s) ∧
      (∃ order, told (HashBlockHeader (blk_Header b)) b (s_p2p s) (m_objs (s_p2p s')) order) ∧
      lp_current (s_longPoll s') = longpoll_id s' ∧
      (lp_current (s_longPoll s) ≠ longpoll_id s' →
         ∀ ch, ch ∈ lp_waiters (s_longPoll s) → ch ∈ lp_closed (s_longPoll s'))
  end.
Proof.
  intros Hb Hw Hpv Hmp Hpb. rewrite rpcSubmitBlock_run, Hpb by done. destruct err as [e|]; [done|].
  set (s1 := set_s_p2p (set_m_chain c' (s_p2p s)) s). rewrite proc_bind_eq.
  destruct (BroadcastBlock_spec w (HashBlockHeader (blk_Header b)) b
    (set_m_mempool (RemoveTxs (HashTransaction <$> blk_Transactions b) (s_mempool s1)) (s_p2p s1)) Hw Hpv)
    as (objs & n & order & Hrun & [H1' H2' H3' H4']).
  rewrite (postBlockAccept_run _ _ _ Hrun). cbv zeta.
  destruct (RemoveTxs_ok p (HashTransaction <$> blk_Transactions b) (s_mempool s) Hmp) as [_ Hpool].
  destruct (delete_all (HashTransaction <$> blk_Transactions b) (pool (s_mempool s))) as [Hsub Hnone]. rewrite <- Hpool in *.
  split_and!; [done..| | | | |].
  - intros tx Htx. apply Hnone. by apply list_elem_of_fmap_2.
  - exact Hsub.
  - exists order. by split.
  - apply longPoll_update_spec.
  - intros Hne. apply longPoll_update_spec. exact Hne.
Qed.
End submission.

(** ** Templates *)

Section templates.
Context {St : Type} `{BlockStore St} `{C : CryptoLib, !HDLib, !HashLib} {PS : Type} `{PeerStore PS}.
Context (p : ChainParams) (w : World).
Implicit Types s : Server St PS.

Lemma p2p_now_bind {B} (g : Z → proc (Server St PS) B) s :
  (on_p2p (now w) ≫= g) s = g (w_now w (m_n (s_p2p s))) (set_s_p2p (set_m_n (S (m_n (s_p2p s))) (s_p2p s)) s).
Proof. done. Qed.
Lemma range_pool_bind {B} (g : list (Hash * nat) → proc (Server St PS) B) s :
  (range_pool w ≫= g) s = g (w_iter w _ (m_n (s_p2p s)) (map_to_list (mp_txs (s_mempool s))))
    (set_s_p2p (set_m_n (S (m_n (s_p2p s))) (s_p2p s)) s).
Proof. done. Qed.
Lemma asks_bind_Ok {A B} (f : Server St PS → res A) (g : A → proc (Server St PS) B) s b s' :
  (asks f ≫= g) s = (Ok b, s') → ∃ a, f s = Ok a ∧ g a s = (Ok b, s').
Proof. rewrite proc_bind_eq. unfold asks. destruct (f s) as [a|e|]; [by eauto|done..]. Qed.

Lemma get_template_inv engine s t s' tipHeader :
  get_template p engine w s = (Ok (inl t), s') → TipHeader (s_chain s) = Ok tipHeader →
  e_CalcNextBits engine tipHeader (c_tipHeight (s_chain s)) (GetAncestor (s_chain s)) p = Ok (tm_Bits t) ∧
  tm_PreviousBlockHash t = c_tipHash (s_chain s) ∧ tm_Height t = u32 (c_tipHeight (s_chain s) + 1) ∧
  tm_CoinbaseValue t = u64 (CalcSubsidy p (tm_Height t) + tm_TotalFees t) ∧
  (is_u32 (hdr_Timestamp tipHeader + 1) → hdr_Timestamp tipHeader < tm_CurTime t).
Proof.
  intros Ht Htip. unfold get_template in Ht. rewrite gets_bind in Ht. cbn [Tip] in Ht.
  unfold or_return in Ht. unfold asks at 1 in Ht. rewrite Htip in Ht.
  rewrite range_pool_bind, gets_bind in Ht. apply asks_bind_Ok in Ht as (bits & Hbits & Ht).
  rewrite p2p_now_bind in Ht. unfold chain_info in Ht. apply asks_bind_Ok in Ht as (info & _ & Ht).
  rewrite gets_bind in Ht. unfold update_longpoll in Ht. rewrite modify_bind in Ht. injection Ht as <- _. cbn.
  split_and!; [exact Hbits|done..|]. intros Hu. destruct (Z.leb_spec (u32 (w_now w (S (m_n (s_p2p s))) / second)) (hdr_Timestamp tipHeader)); [|done].
  rewrite u32_id by done. lia.
Qed.

Notation pow hasher := (pow_Engine hasher bitcoin_Retargeter).
Definition min_difficulty_on (height : Z) : Prop :=
  p_AllowMinDifficultyBlocks p = true ∧ ∃ a, p_ActivationHeights p !! "mindiffblocks" = Some a ∧ a ≤ height.
Definition bits_error : error := Errorf "incorrect difficulty bits at height %d: got 0x%08x, expected 0x%08x".

(** The bits of a template, with the retargeting of Bitcoin.  Where blocks of
    minimum difficulty are not allowed, the engine expects exactly these bits of
    the next block, whatever its time. Where they are allowed, and the tip is such
    a block, the template has the minimum bits, and the engine rejects every block
    made of it, unless its time is late enough for another block of minimum
    difficulty, for as long as the last other block has other bits. *)
Theorem template_bits hasher s t s' tipHeader header :
  get_template p (pow hasher) w s = (Ok (inl t), s') → TipHeader (s_chain s) = Ok tipHeader →
  0 ≤ c_tipHeight (s_chain s) → is_u32 (c_tipHeight (s_chain s) + 1) →
  hdr_PrevBlock header = HashBlockHeader tipHeader → hdr_Bits header = tm_Bits t →
  let anc := GetAncestor (s_chain s) in
  (¬ min_difficulty_on (tm_Height t) →
     calcExpectedBits bitcoin_Retargeter header tipHeader (tm_Height t) anc p = Ok (hdr_Bits header)) ∧
  (∀ scan, min_difficulty_on (tm_Height t) → p_NoRetarget p = false → p_RetargetInterval p ≠ 0 →
     tm_Height t mod p_RetargetInterval p ≠ 0 → hdr_Bits tipHeader = p_MinBits p →
     hdr_Timestamp header - hdr_Timestamp tipHeader ≤ i64 (seconds (p_TargetBlockSpacing p) * 2) →
     scan_loop (Z.to_nat (tm_Height t - 1)) tipHeader (tm_Height t - 1) anc p = Some scan →
     hdr_Bits scan ≠ p_MinBits p →
     tm_Bits t = p_MinBits p ∧ pow_ValidateHeader hasher bitcoin_Retargeter header tipHeader (tm_Height t) anc p = Err bits_error).
Proof.
  intros Ht Htip H0' Hu Hprev Hbits anc. destruct (get_template_inv _ _ _ _ _ Ht Htip) as (Hb & _ & Hh & _).
  cbn [pow_Engine e_CalcNextBits r_CalcNextBits bitcoin_Retargeter] in Hb. rewrite u32_id in Hh by done.
  assert (Hm : u32 (tm_Height t - 1) = c_tipHeight (s_chain s)).
  { rewrite Hh, u32_id; [lia|]. unfold is_u32 in *. lia. }
  unfold pow_ValidateHeader, calcExpectedBits, min_difficulty_on. rewrite Hm, Hbits. fold anc in Hb.
  cbn [r_CalcNextBits bitcoin_Retargeter]. rewrite Hb. split.
  - intros Hoff. destruct (_ !! "mindiffblocks") as [a|]; [|done].
    destruct (p_AllowMinDifficultyBlocks p); [|done]. destruct (Z.ltb_spec (tm_Height t) a); [done|].
    exfalso. apply Hoff. eauto.
  - intros scan (-> & a & -> & Ha) Hnr Hi Hmod Hmin Hgap Hscan Hne.
    assert (Htb : tm_Bits t = p_MinBits p).
    { unfold bitcoin_CalcNextBits in Hb. rewrite Hnr, (proj2 (Z.eqb_neq _ _) Hi) in Hb.
      rewrite (u32_id (c_tipHeight (s_chain s) + 1)), <- Hh, (proj2 (Z.eqb_neq _ _) Hmod) in Hb by done.
      cbn [negb] in Hb. by injection Hb as <-. }
    split; [done|]. rewrite Hprev, bool_decide_true by done. cbn [negb fail_if mbind res_bind orb].
    rewrite (proj2 (Z.ltb_ge (tm_Height t) a)) by done. rewrite (proj2 (Z.ltb_ge _ _)) by done.
    rewrite (proj2 (Z.eqb_neq _ _) Hi), (proj2 (Z.eqb_neq _ _) Hmod).
    replace (c_tipHeight (s_chain s)) with (tm_Height t - 1) by lia. rewrite Hscan. cbn [mbind res_bind].
    rewrite Htb, (proj2 (Z.eqb_neq _ _)) by done. done.
Qed.
End templates.

(** ** Witnesses *)

#[local] Existing Instance mem_db.
#[local] Existing Instance toy_lib.
#[local] Existing Instance toy_hd.
#[local] Existing Instance toy_hashlib.
Notation sv_type := (Server FileStore (list (list byte))).

(** A node with two peers, the wallet, and an output of the wallet. *)
Definition sv_set : UtxoSet := {[ OutpointKey (replicate 32 x11) 0 := mkUtxoEntry 100000 pw_script 1 false ]}.
Definition sv_manager : Manager FileStore (list (list byte)) := set_m_chain (set_utxoSet sv_set w_chain3) mg_two.
Definition sv_server : sv_type := rpc_New sv_manager (Some toy_wallet).

Definition sv_outside : Outside :=
  mkOutside (λ _, Err (Errorf "EOF")) (λ _, Err (Errorf "EOF")) (λ _, Ok no_request) (λ _, JNull) (λ _, Ok [])
    toy_faults toy_clock toy_random pw_sorted.
Definition sv_reports : Reports sv_type := mkReports (λ _, JNull) (λ _, JNull) (λ _, WriteJSON JNull) (λ _ _, WriteJSON JNull).
Definition sv_auth : AuthConfig := mkAuth (str "user") (str "secret").
Definition sv_request (method path : string) (form : gmap string (list byte)) : Request :=
  mkRequest method path ∅ form [] (Some (str "user", str "guess")) (str "10.0.0.7:51000").


Lemma rpc_New_ok q c (m : Manager FileStore (list (list byte))) wl :
  mempool_ok q (m_mempool m) → peers_valid m → node_ok q (rpc_New (set_m_chain c m) wl).
Proof. intros Hmp Hpv. split; [exact Hmp|exact Hpv]. Qed.
Lemma mg_two_pool : mempool_ok w_params (m_mempool mg_two).
Proof.
  pose proof (manager_reachable_ok _ _ _ _ _ _ _ _ mg_world_ok mg_two mg_two_reachable) as [Hr _ _ _ _ _ _ _ _ _].
  exact (MempoolProps.reachable_ok w_params mg_wall ltac:(by_decide) _ Hr).
Qed.
Lemma sv_ok : node_ok w_params sv_server.
Proof. exact (rpc_New_ok _ _ mg_two _ mg_two_pool mg_two_valid). Qed.
Lemma sv_set_wf : wf_utxo_set sv_set.
Proof.
  assert (H : map_Forall (λ k e, (length k = 36%nat ∧ k ≠ outpoint_key CoinbaseOutPoint) ∧
    is_u64 (ue_Value e) ∧ is_u32 (ue_Height e)) sv_set) by by_decide.
  split; [intros k e Hk; apply (H k e Hk)..|]. by_decide.
Qed.
Lemma sv_funds : funds_ok sv_server toy_wallet.
Proof. split; [exact pw_keys_ok|exact sv_set_wf|by_decide..]. Qed.

Definition sv_payment : Request :=
  sv_request "POST" "/sendtoaddress" {[ "address"%string := pw_dest; "amount"%string := str "40000" ]}.
Notation sv_send := (handleSendToAddress w_params mg_world mg_wall toy_faults toy_clock pw_sorted sv_payment sv_server).

Lemma payment_submitted_witness :
  ∃ j hash, sv_send.1 = Ok (WriteJSON j) ∧ j = hash_json hash ∧ sent sv_server sv_send.2 pw_dest 40000 hash.
Proof.
  destruct (payment_submitted w_params mg_world mg_wall toy_faults toy_clock pw_sorted (CryptoLaws0 := toy_laws)
    sv_server toy_wallet ltac:(by_decide) mg_world_ok pw_sorted_perm sv_ok eq_refl sv_funds) as [Hh _].
  assert (Hok : match sv_send.1 with Ok (WriteJSON _) => true | _ => false end = true) by (vm_compute; reflexivity).
  specialize (Hh sv_payment).
  assert (Ha : (ParseUint (PostFormValue sv_payment "amount") 64).1 = 40000) by (vm_compute; reflexivity).
  assert (Hd : PostFormValue sv_payment "address" = pw_dest) by (vm_compute; reflexivity).
  rewrite Ha, Hd in Hh. revert Hh Hok. generalize sv_send. intros [[[j|code e]|e|] s'] Hh Hok; try discriminate Hok.
  destruct (Hh _ _ eq_refl) as (hash & Hj & Hs). exists j, hash. split; [reflexivity|]. split; [exact Hj|exact Hs].
Defined.

(** A block on the tip of that chain; and the same block again. *)
Definition sv_block : Block := w_next (HashBlockHeader (blk_Header w_b2)) 1800000002 4 [x01; x03].
Notation sv_process := (ProcessBlock w_params w_engine w_clock w_clock sv_block (s_chain sv_server)).
Notation sv_submit :=
  (rpcSubmitBlock w_params w_engine mg_world w_clock w_clock [hex_json (Block_SerializeToBytes sv_block)] sv_server).

Lemma block_submitted_witness :
  sv_submit.1 = Ok (RpcOk JNull) ∧ s_chain sv_submit.2 = sv_process.2 ∧
  lp_current (s_longPoll sv_submit.2) = longpoll_id sv_submit.2.
Proof.
  assert (Hp : match sv_process.1 with Ok (_, None) => true | _ => false end = true) by (vm_compute; reflexivity).
  assert (Hw : wf_block sv_block) by by_decide.
  pose proof (block_submitted w_params w_engine mg_world w_clock w_clock sv_block [] sv_server) as Hb.
  destruct sv_ok as [Hmp Hpv]. revert Hb Hp.
  generalize sv_process. intros [[[h [e|]]|e|] c'] Hb Hp; try discriminate Hp.
  specialize (Hb h None c' Hw mg_world_ok Hpv Hmp eq_refl). revert Hb. generalize sv_submit. intros [resp s'] Hb.
  destruct Hb as (Hc & _ & _ & Hr & _ & _ & _ & Hl & _). exact (conj Hr (conj Hc Hl)).
Defined.

(** A test network after the activation of blocks of minimum difficulty: the tip,
    at height 15001, is one, the block before it is not. *)
Definition tb_tip : Hash := HashBlockHeader (blk_Header w_b2).
Definition tb_chain : Chain FileStore :=
  mkChain (c_store w_chain3) tb_tip 15001 0 {[ tb_tip := 15001 ]} {[ 15000 := w_genesis; 15001 := tb_tip ]} ∅ ∅ [] false 0 0.
Definition tb_server : sv_type := rpc_New (set_m_chain tb_chain mg_two) None.
Notation tb_hasher := (e_Hasher w_engine).
Notation tb_run := (get_template Testnet (pow_Engine tb_hasher bitcoin_Retargeter) mg_world tb_server).
Definition tb_template : Template :=
  Eval vm_compute in match tb_run.1 with Ok (inl t) => t | _ => mkTemplate [] 0 [] 0 0 0 0 0 0 [] end.
Definition tb_header : BlockHeader :=
  mkBlockHeader 1 tb_tip (replicate 32 x00) (hdr_Timestamp (blk_Header w_b2) + 5) 0x207fffff 0.

Lemma template_bits_witness :
  pow_ValidateHeader tb_hasher bitcoin_Retargeter tb_header (blk_Header w_b2) 15002 (GetAncestor tb_chain) Testnet
  = Err bits_error.
Proof.
  assert (Hok : tb_run.1 = Ok (inl tb_template)) by (vm_compute; reflexivity).
  assert (Ht : TipHeader tb_chain = Ok (blk_Header w_b2)) by (vm_compute; reflexivity).
  destruct (template_bits Testnet mg_world tb_hasher tb_server tb_template tb_run.2 (blk_Header w_b2) tb_header) as [_ Hrej].
  - revert Hok. generalize tb_run. intros r. apply run_outcome.
  - exact Ht.
  - by_decide.
  - by_decide.
  - vm_compute. reflexivity.
  - reflexivity.
  - refine (proj2 (Hrej (blk_Header (p_GenesisBlock Mainnet)) _ _ _ _ _ _ _ _)).
    + split; [reflexivity|]. exists 15000. split; [vm_compute; reflexivity|vm_compute; discriminate].
    + reflexivity.
    + discriminate.
    + discriminate.
    + reflexivity.
    + vm_compute. discriminate.
    + vm_compute. reflexivity.
    + discriminate.
Defined.
