(* ===== verification/NodeProps.v ===== *)
(** * Properties of the node

    The genesis block a network starts from, what a node holds when it cannot be
    opened, who can reach its RPC server, how many miners run, and the invariant of
    the running node under every request, message, timer and block. *)
From S2P Require Import Prelude Types Sha256 Target Merkle Params Utxo Keys Script TxValidation.
From S2P Require Import Algorithms Validation Difficulty Pow TimeAdjust BlockFiles Store Chain ChainProps Heap Mempool.
From S2P Require Import MempoolProps Base58 Protocol Headers Scheduler Miner Net Peer ManagerState Manager Sync ManagerInv.
From S2P Require Import ManagerProps Aes Wallet WalletTx WalletInv RpcBase RpcQuery RpcWallet RpcMining RpcServer.
From S2P Require Import Conf Discovery RpcInv Node RpcProps.

(** ** The genesis block *)

(** The genesis block of a network: a hash that is given is checked, and a network
    without one, but for mainnet, gets the block with the first nonce that meets the
    initial target.  What is returned has a genesis hash that is the hash of its
    genesis header, and differs from the network in the genesis block alone; an error
    means a wrong hash, mainnet without a block, or no nonce; there is no panic. *)
Theorem initNetworkGenesis_correct p hasher : hasher_ok hasher →
  match initNetworkGenesis p hasher with
  | Ok p' =>
      p_GenesisHash p' = HashBlockHeader (blk_Header (p_GenesisBlock p')) ∧
      p' = InitGenesis p (p_GenesisBlock p') (p_GenesisHash p') ∧
      (p_GenesisHash p ≠ ZeroHash → p' = p) ∧
      (p_GenesisHash p = ZeroHash → let header := blk_Header (p_GenesisBlock p') in
         p_Name p ≠ "mainnet" ∧ hdr_Bits header = p_InitialBits p ∧
         hdr_MerkleRoot header = ComputeMerkleRoot (blk_Transactions (p_GenesisBlock p')) ∧
         pow_meets hasher (CompactToHash (p_InitialBits p)) header)
  | Err _ =>
      (p_GenesisHash p ≠ ZeroHash ∧ HashBlockHeader (blk_Header (p_GenesisBlock p)) ≠ p_GenesisHash p) ∨
      (p_GenesisHash p = ZeroHash ∧
         (p_Name p = "mainnet" ∨ let block := BuildGenesisBlock (genesis_config p) in
            let header := set_merkle (blk_Header block) (ComputeMerkleRoot (blk_Transactions block)) in
            ∀ n, 0 ≤ n < 2 ^ 32 → ¬ pow_meets hasher (CompactToHash (p_InitialBits p)) (set_nonce header n)))
  | Panic => False
  end.
Proof.
  intros Hok. unfold initNetworkGenesis. destruct (decide (p_GenesisHash p = ZeroHash)) as [Hz|Hz].
  2: { rewrite (bool_decide_false _ Hz). cbn [negb]. cbv zeta. case_bool_decide as Hc; cbn [negb]; [|by left].
       split_and!; [done| |done|done]. by destruct p. }
  rewrite (bool_decide_true _ Hz). cbn [negb]. case_bool_decide as Hm; [right; auto|]. cbv zeta.
  set (block := BuildGenesisBlock (genesis_config p)).
  destruct (MineGenesis_exact hasher block Hok ltac:(by_decide)) as [(n & Hn & Hmeet & -> & _)|[Herr Hnone]].
  - cbn [wrap mbind res_bind]. split_and!; [done|done|done|]. intros _. by split_and!.
  - destruct (pow_MineGenesis hasher block); cbn in Herr; [done| |done]. cbn [wrap mbind res_bind].
    right. split; [done|]. right. exact Hnone.
Qed.

(** ** Opening a node *)

Section opening.
Context {St : Type} `{BlockStore St} `{C : CryptoLib, !HDLib, !HashLib} {PS : Type} `{PeerStore PS}.
Context (mwall : nat → Z) (faults : nat → io_fault) (random : nat → list byte).

(** A step of [New] that has failed leaves nothing open, and one that has not
    leaves [held]. *)
Definition leaves {A} (held : Opened) (Q : A → Prop) (r : res A * Opened) : Prop :=
  match r.1 with
  | Ok a => Q a ∧ r.2 = held
  | Err _ => r.2 = nothing_open
  | Panic => True
  end.

Lemma leaves_bind {A B} held held' (P : A → Prop) (Q : B → Prop) (m : proc Opened A) (k : A → proc Opened B) od :
  leaves held P (m od) → (∀ a, P a → leaves held' Q (k a held)) → leaves held' Q ((m ≫= k) od).
Proof.
  unfold leaves, mbind, proc_bind. destruct (m od) as [[a|e|] od']; cbn; [|done..]. intros [Ha ->] Hk. by apply Hk.
Qed.

(** A call that opens nothing, with the cleanup after an error. *)
Lemma leaves_pure {A} (r : res A) msg od cleanup : cleanup od = nothing_open →
  leaves od (λ a, r = Ok a) (or_close (pure (wrap msg r)) cleanup od).
Proof. intros Hc. by destruct r. Qed.
Lemma leaves_open {A} (r : res A) msg hold od cleanup : cleanup od = nothing_open →
  leaves (hold od) (λ a, r = Ok a) (or_close (pwrap msg (open_with r hold)) cleanup od).
Proof. intros Hc. by destruct r. Qed.
Lemma leaves_early {A} (r : res A) : leaves nothing_open (λ a, r = Ok a) (pure r nothing_open).
Proof. by destruct r. Qed.

(** What a node that was opened consists of. *)
Record opened_node (buf : list (list byte)) (h : host) (blocks : list byte → res St) (peers : res PS)
    (cfg : config_Config) (n : Node St PS) : Prop := {
  ow_params : ∃ p, NetworkByName (String.string_of_list_byte (cfg_Network cfg)) = Some p ∧
    initNetworkGenesis p (sha256mem_Hasher buf) = Ok (n_params n);
  ow_engine : n_engine n = pow_Engine (sha256mem_Hasher buf) bitcoin_Retargeter;
  ow_chain : ∃ st, blocks (p_NetworkMagic (n_params n)) = Ok st ∧
    Init (n_params n) (n_engine n) (Chain.New st) = (Ok (), n_chain n);
  ow_pool : MempoolProps.reachable (n_params n) mwall (n_mempool n);
  ow_peers : peers = Ok (n_peerStore n);
  ow_wallet : NewHDWallet faults random h (p_AddressPrefix (n_params n)) = (Ok (), n_wallet n)
}.

Lemma node_New_spec buf mkdir lock blocks peers mempoolDat h cfg :
  leaves all_open (opened_node buf h blocks peers cfg)
    (node_New mwall faults random buf mkdir lock blocks peers mempoolDat h cfg nothing_open).
Proof.
  unfold node_New. eapply leaves_bind; [apply leaves_early|]. intros p0 Hp0.
  eapply leaves_bind; [apply leaves_early|]. intros hasher [= <-].
  eapply leaves_bind; [apply leaves_early|]. intros retargeter [= <-].
  eapply leaves_bind; [apply leaves_early|]. intros p Hp.
  eapply leaves_bind; [apply leaves_early|]. intros u _.
  eapply (leaves_bind (mkOpened true false false) _ (λ _, True)).
  { by destruct lock. }
  intros _ _. eapply leaves_bind; [by apply leaves_open|]. intros st Hst.
  eapply leaves_bind; [by apply leaves_open|]. intros ps Hps. cbv zeta.
  destruct (Init p _ (Chain.New st)) as [inited bc] eqn:Hinit.
  eapply leaves_bind; [by apply leaves_pure|]. intros [] ->.
  eapply (leaves_bind all_open _ (λ mp, MempoolProps.reachable p mwall mp)).
  { destruct mempoolDat as [[|b data]|e|]; try (split; [apply reach_New|done]).
    pose proof (reach_Load p mwall _ (c_utxoSet bc) (Tip bc).2 (b :: data) (reach_New p mwall)) as Hr.
    destruct (LoadFromBytes _ _ _ _ _ _) as [[] mp]; by try split. }
  intros mp Hmp. destruct (NewHDWallet _ _ _ _) as [opened wl] eqn:Hwl.
  eapply leaves_bind; [by apply leaves_pure|]. intros [] ->. split; [|done].
  assert (initNetworkGenesis p0 (sha256mem_Hasher buf) = Ok p) as Hg.
  { by destruct (initNetworkGenesis p0 (sha256mem_Hasher buf)); cbn in Hp; simplify_eq. }
  split; cbn; try done; [|by exists st]. exists p0. split; [|done].
  by destruct (NetworkByName _); simplify_eq.
Qed.
End opening.

(** ** The running node *)

Section running.
Context {St : Type} `{BlockStore St} `{C : CryptoLib, !HDLib, !HashLib} {PS : Type} `{PeerStore PS}.
Context (p : ChainParams) (engine : Engine) (cf : ManagerState.Config) (w : World) (cwall cadjusted mwall swall : nat → Z).
Context (o : Outside) (auth : AuthConfig) (reports : Reports (Server St PS)).
Implicit Types s : Server St PS.

(** What happens to a running node: events of the network and timers, requests over
    HTTP, calls of methods by the graphical interface, which also uses the wallet
    directly, blocks that the miner finds, and the cleaning of the rate limiter. *)
Inductive node_step s : Server St PS → Prop :=
| step_network m' :
    manager_step p engine cf w cwall cadjusted mwall swall (s_p2p s) m' → node_step s (set_s_p2p m' s)
| step_request r : node_step s (serve p engine w cwall cadjusted mwall o auth reports r s).2
| step_call method params : node_step s (DispatchRPC p engine w cwall cadjusted mwall o reports method params s).2
| step_wallet ev : node_step s (on_wallet (wallet_run (os_faults o) (os_clock o) (os_random o) ev) s).2
| step_mined block : node_step s (on_p2p (mined_block p engine w cwall cadjusted block) s).2
| step_gc now : node_step s (set_s_rateLimiter (gc_buckets now (s_rateLimiter s)) s).

(** A node of the network [p] that was opened and started, and what it becomes. *)
Inductive node_reachable : Server St PS → Prop :=
| node_started buf mkdir lock blocks peers mempoolDat h cfg n od opts peersDat listen rand_Read write s tls :
    node_New mwall (os_faults o) (os_random o) buf mkdir lock blocks peers mempoolDat h cfg nothing_open = (Ok n, od) →
    n_params n = p → n_engine n = engine →
    node_Start n cfg opts peersDat listen rand_Read write = Ok (s, auth, tls) → node_reachable s
| node_next s s' : node_reachable s → node_step s s' → node_reachable s'.

Hypothesis Hw : world_ok w.
Notation server_ok := (server_ok p engine mwall swall).

Lemma mined_block_safe block : keeps (manager_ok p engine mwall swall) (λ _, True)
  (mined_block (PS := PS) p engine w cwall cadjusted block).
Proof using Hw.
  unfold mined_block. eapply keeps_bind; [apply on_chain_safe|]. intros [h [e|]] _; [by intros m|].
  eapply keeps_bind; [apply NotifyBlockAccepted_safe|intros _ _].
  eapply keeps_bind; [apply confirm_transactions_safe|intros _ _]. by apply BroadcastBlock_safe.
Qed.

Lemma node_started_ok buf mkdir lock blocks peers mempoolDat h cfg n od opts peersDat listen rand_Read write s tls :
  node_New mwall (os_faults o) (os_random o) buf mkdir lock blocks peers mempoolDat h cfg nothing_open = (Ok n, od) →
  n_params n = p → n_engine n = engine →
  node_Start n cfg opts peersDat listen rand_Read write = Ok (s, auth, tls) → server_ok s.
Proof.
  intros Hnew <- <- Hstart.
  pose proof (node_New_spec mwall (os_faults o) (os_random o) buf mkdir lock blocks peers mempoolDat h cfg) as Hn.
  rewrite Hnew in Hn. destruct Hn as [[_ _ _ Hpool _ Hwl] _].
  apply bind_Ok in Hstart as (m & Hm & Hstart). cbv zeta in Hstart. apply bind_Ok in Hstart as ([] & _ & Hstart).
  apply bind_Ok in Hstart as (at' & _ & [= <- _ _]).
  pose proof (NewManager_ok _ (n_engine n) mwall swall _ _ _ _ _ Hpool Hm) as [].
  split; [by split| |by_decide|].
  - exists (n_wallet n). split; [done|]. apply (reachable_keys_ok (os_faults o) (os_clock o) (os_random o)). by eapply reach_open.
  - split; cbn; [by_decide|constructor|intros ch Hc; by apply elem_of_nil in Hc|set_solver].
Qed.

Lemma node_step_ok s s' : node_step s s' → server_ok s → server_ok s'.
Proof using Hw.
  intros Hstep Hs. destruct Hstep as [m' Hm|r|method params|ev|block|now].
  - destruct Hs as [Hm0 Hwl Hfee Hlp]. split; try done. cbn. by eapply manager_step_ok.
  - by apply serve_safe.
  - by apply DispatchRPC_safe.
  - by apply on_wallet_safe; [apply wallet_run_grows|].
  - apply (on_p2p_safe p engine mwall swall _ (mined_block_safe block)), Hs.
  - by destruct Hs.
Qed.

(** C12: The invariant of the node: from the start on, whatever requests, messages,
    connections, timers, calls of the interface and mined blocks come in whatever
    order, and whether they succeed or not, the peers and their queues, the header
    index and the download are consistent ([manager_ok]), the pool is a pool within
    its limits, the node has a wallet whose maps and keys agree, the fee rate is
    within its maximum, and every long poll that waits, of which there are at most
    a hundred, waits on a channel of its own that is not closed. *)
Theorem node_invariant s : is_u32 (p_MaxMempoolSize p) → node_reachable s →
  manager_ok p engine mwall swall (s_p2p s) ∧ mempool_ok p (s_mempool s) ∧
  (∃ wl, s_wallet s = Some wl ∧ keys_ok wl) ∧ 0 ≤ s_feePerByte s ≤ maxFeePerByte ∧ longPoll_ok (s_longPoll s).
Proof using Hw.
  intros Hmax Hr. assert (server_ok s) as [Hm Hwl Hfee Hlp].
  { induction Hr; eauto using node_started_ok, node_step_ok. }
  split_and!; try done; try apply Hfee. by eapply MempoolProps.reachable_ok, Hm.
Qed.
End running.

(** ** Who can reach the RPC server *)

Section exposure.
Context {St : Type} `{BlockStore St} `{C : CryptoLib, !HDLib, !HashLib} {PS : Type} `{PeerStore PS}.
Context (p : ChainParams) (engine : Engine) (w : World) (cwall cadjusted mwall : nat → Z).
Context (o : Outside) (reports : Reports (Server St PS)).

Lemma initAuth_user user password rand_Read write auth cookie :
  initAuth user password rand_Read write = Ok (auth, cookie) → au_User auth ≠ [].
Proof.
  unfold initAuth. destruct (decide (user = [])) as [->|Hu]; [|rewrite (bool_decide_false _ Hu)].
  all: cbn [negb andb]; rewrite ?bool_decide_true by done; cbn [negb andb]; try case_bool_decide; cbn [negb];
    try (by intros [= <- _]); intros (pw & _ & (u & _ & [= <- _])%bind_Ok)%bind_Ok; done.
Qed.

Lemma start_rpc_checks cfg opts rand_Read write auth tls : start_rpc cfg opts rand_Read write = Ok (auth, tls) →
  (if op_NoRPCAuth opts then local_name (node_SplitHostPort (cfg_RPCAddr cfg)).1.1 = true else au_User auth ≠ []) ∧
  (isLoopback (cfg_RPCAddr cfg) = true ∨ tls = true).
Proof.
  unfold start_rpc. intros (auth' & Ha & Hs)%bind_Ok. cbv zeta in Hs. apply bind_Ok in Hs as (u & Hf & [= <- <-]). split.
  - destruct (op_NoRPCAuth opts); cbn [negb] in Ha.
    + cbv zeta in Ha. by destruct (local_name _).
    + destruct (initAuth _ _ _ _) as [[a c]|e|] eqn:Hi; cbn in Ha; simplify_eq. by eapply initAuth_user.
  - unfold fail_if in Hf. destruct (isLoopback _); [by left|right]. by destruct (negb (bool_decide _) && _).
Qed.

(** A host that is not the machine's own, by its name or its number. *)
Definition remote_host (host : list byte) : Prop :=
  local_name host = false ∧ ∀ ip, ParseIP host = Some ip → IsLoopback ip = false.

Lemma node_SplitHostPort_host addr host port : SplitHostPort addr = Ok (host, port) →
  (node_SplitHostPort addr).1.1 = host ∨ addr !! 0%nat = Some x5b.
Proof.
  unfold SplitHostPort, node_SplitHostPort. destruct (LastIndexByte x3a addr) as [i|]; [|done].
  case_bool_decide as Hb; [by right|]. cbv zeta. destruct (contains_byte x3a (take i addr)); [done|].
  unfold split_finish. intros (u1 & _ & (u2 & _ & [= <- _])%bind_Ok)%bind_Ok. by left.
Qed.

Lemma bracket_not_local addr : addr !! 0%nat = Some x5b → local_name (node_SplitHostPort addr).1.1 = false.
Proof.
  destruct addr as [|c addr]; [done|]. intros [= ->]. unfold node_SplitHostPort. cbn [LastIndexByte].
  destruct (LastIndexByte x3a addr) as [i|]; [done|]. by destruct addr.
Qed.

(** C21: Who the node answers.  A node whose RPC server was started on a host that is not
    the machine's own uses TLS, and a request without its credentials is answered
    with the status 401 or 429 and changes nothing.  An address without a host, on
    which the server listens to every interface, passes both checks all the same:
    with [--norpcauth] it is started without credentials and without TLS. *)
Theorem server_exposure cfg opts rand_Read write host port :
  SplitHostPort (cfg_RPCAddr cfg) = Ok (host, port) →
  (remote_host host → ∀ auth tls, start_rpc cfg opts rand_Read write = Ok (auth, tls) →
     tls = true ∧ ∀ r s, authorized auth r = false →
       let '(resp, s') := serve p engine w cwall cadjusted mwall o auth reports r s in
       (∃ code msg, resp = Ok (WriteError code msg) ∧ (code = StatusUnauthorized ∨ code = StatusTooManyRequests)) ∧
       RpcProps.node s' = RpcProps.node s ∧ s_longPoll s' = s_longPoll s) ∧
  (host = [] → head (cfg_RPCAddr cfg) = Some x3a → op_NoRPCAuth opts = true → op_RPCTLSCert opts = [] →
     start_rpc cfg opts rand_Read write = Ok (mkAuth [] [], false)).
Proof.
  intros Hsplit. split.
  - intros [Hname Hip] auth tls Hstart. apply start_rpc_checks in Hstart as [Hauth Htls]. split.
    + destruct Htls as [Hl|]; [|done]. exfalso. unfold isLoopback in Hl. rewrite Hsplit, Hname in Hl.
      destruct (ParseIP host) as [ip|]; [|done]. by rewrite (Hip ip) in Hl.
    + intros r s Ha. apply unauthorized_refused; [|done]. destruct (op_NoRPCAuth opts); [|done].
      destruct (node_SplitHostPort_host _ _ _ Hsplit) as [Hh|Hb]; [congruence|].
      by rewrite bracket_not_local in Hauth.
  - intros -> Hhead Hno Hcert. unfold start_rpc. rewrite Hno, Hcert. cbn [negb].
    destruct (node_SplitHostPort_host _ _ _ Hsplit) as [-> |Hb]; [|by destruct (cfg_RPCAddr cfg); simplify_eq/=].
    cbn. unfold isLoopback. by rewrite Hsplit.
Qed.
End exposure.

(** ** The miner *)

Section mining_props.
Context `{C : CryptoLib, !HDLib}.
Implicit Types mi : Mining.

(** The miner of [Start], when there is one, and the one that was switched on. *)
Record mining_ok (first : bool) (mi : Mining) : Prop := {
  mk_next : (1 ≤ mi_next mi)%nat;
  mk_running : mi_running mi = (if first then [(1%nat, 0%nat)] else []) ++
    match mi_miner mi, mi_minerCancel mi with Some m, Some ctx => [(m, ctx)] | _, _ => [] end;
  mk_ctx ctx : mi_minerCancel mi = Some ctx → ctx ≠ 0%nat ∧ is_Some (mi_miner mi);
  mk_first : is_Some (mi_miner mi) → mi_minerCancel mi = None → first = true
}.

Lemma cancel_first (first : bool) ctx : ctx ≠ 0%nat →
  filter (λ mc, mc.2 ≠ ctx) (if first then [(1, 0)] else [])%nat = (if first then [(1, 0)] else [])%nat.
Proof. intros Hne. destruct first; [|done]. by rewrite filter_cons_True. Qed.

Lemma cancel_running first mi ctx : mining_ok first mi → mi_minerCancel mi = Some ctx →
  mi_running (cancel ctx mi) = if first then [(1%nat, 0%nat)] else [].
Proof.
  intros [_ Hr Hc _] Hctx. destruct (Hc ctx Hctx) as [Hne [m Hm]]. unfold cancel. cbn. rewrite Hr, Hctx, Hm, filter_app.
  rewrite cancel_first by done. rewrite filter_cons_False by (cbn; tauto). by rewrite filter_nil, app_nil_r.
Qed.

Lemma SetMining_ok first wl b mi : mining_ok first mi → mining_ok first (SetMining wl b mi).
Proof.
  intros Hok. pose proof (cancel_running first mi) as Hcan. destruct b; cbn [SetMining].
  - destruct (mi_miner mi) as [m|] eqn:Hm; [done|]. destruct Hok as [Hn Hr Hc Hf].
    assert (mi_minerCancel mi = None) as Hnone.
    { destruct (mi_minerCancel mi) as [ctx|] eqn:Hx; [|done]. destruct (Hc ctx eq_refl) as [_ [? ?]]. congruence. }
    rewrite Hm, app_nil_r in Hr. unfold startMiner. destruct (GetDefaultP2PKHScript wl).
    + split; cbn; [lia| |intros ctx [= <-]; split; [lia|done]|done]. by rewrite Hr.
    + split; cbn; [lia| |done|intros [? [=]]]. rewrite Hr, app_nil_r. apply cancel_first. lia.
  - destruct (mi_minerCancel mi) as [ctx|] eqn:Hx.
    + split; cbn; [apply Hok| |done|intros [? [=]]]. rewrite app_nil_r. exact (Hcan ctx Hok eq_refl).
    + destruct Hok as [Hn Hr Hc Hf]. split; cbn; rewrite ?Hx; try done; try by intros [? [=]].
      rewrite Hr, Hx. by destruct (mi_miner mi).
Qed.

(** Whether [Start] started a miner. *)
Definition starts_miner (opts : Options) (wl : HDWallet) : bool :=
  op_MiningEnabled opts && bool_decide (is_Some (GetDefaultP2PKHScript wl)).

Lemma start_mining_ok opts wl : mining_ok (starts_miner opts wl) (start_mining opts wl not_mining).2.
Proof.
  unfold start_mining, starts_miner, startMiner. destruct (op_MiningEnabled opts); [|by split; cbn; [lia| | |intros []]].
  destruct (GetDefaultP2PKHScript wl); cbn; (split; cbn; [lia|done|done|]); [done|intros []; done].
Qed.

Lemma SetMining_off wl mi : mi_miner (SetMining wl false mi) = None.
Proof. done. Qed.
Lemma SetMining_on wl mi : is_Some (GetDefaultP2PKHScript wl) → mi_miner mi = None → IsMining (SetMining wl true mi) = true.
Proof. intros [script Hs] Hm. cbn [SetMining]. rewrite Hm. unfold startMiner. by rewrite Hs. Qed.
Lemma SetMining_on_only wl mi : is_Some (GetDefaultP2PKHScript wl) → mining_ok false mi → IsMining (SetMining wl true mi) = true.
Proof.
  intros Hs [_ _ _ Hf]. destruct (mi_miner mi) as [m|] eqn:Hm; [|by apply SetMining_on].
  cbn [SetMining]. rewrite Hm. unfold IsMining. rewrite Hm. destruct (mi_minerCancel mi); [done|]. by discriminate (Hf ltac:(done) eq_refl).
Qed.

(** C40: The switch of the miner.  After a start and any sequence of switches there is one
    miner when [IsMining] says so and none otherwise, but for the miner that [Start]
    started: that one is not seen by [IsMining] and not stopped by the switch, so that
    switching off and on leaves two.  Without it, a switch does what it says, given a
    wallet with a key.  [Stop] ends them all. *)
Theorem mining_switch opts wl switches :
  let mi := foldl (λ mi b, SetMining wl b mi) (start_mining opts wl not_mining).2 switches in
  len (mi_running mi) = (if starts_miner opts wl then 1 else 0) + (if IsMining mi then 1 else 0) ∧
  mi_running (stop_mining mi) = [] ∧
  (∀ b, last switches = Some b → IsMining mi = true → b = true) ∧
  (∀ b, last switches = Some b → op_MiningEnabled opts = false → is_Some (GetDefaultP2PKHScript wl) → IsMining mi = b) ∧
  (∀ before, switches = before ++ [false; true] → is_Some (GetDefaultP2PKHScript wl) →
     len (mi_running mi) = if op_MiningEnabled opts then 2 else 1).
Proof.
  cbv zeta.
  assert (∀ switches, mining_ok (starts_miner opts wl)
    (foldl (λ mi b, SetMining wl b mi) (start_mining opts wl not_mining).2 switches)) as Hall.
  { intros sw. generalize (start_mining_ok opts wl). generalize (start_mining opts wl not_mining).2.
    induction sw as [|b sw IH]; intros mi Hmi; [done|]. cbn. by apply IH, SetMining_ok. }
  assert (∀ switches, let mi := foldl (λ mi b, SetMining wl b mi) (start_mining opts wl not_mining).2 switches in
    len (mi_running mi) = (if starts_miner opts wl then 1 else 0) + (if IsMining mi then 1 else 0)) as Hlen.
  { intros sw. cbv zeta. destruct (Hall sw) as [_ -> Hc _]. rewrite length_app. unfold IsMining.
    by destruct (starts_miner opts wl), (mi_miner _), (mi_minerCancel _). }
  split_and!; [apply Hlen| | | |].
  - pose proof (Hall switches) as Hok. revert Hok. generalize (foldl (λ mi b, SetMining wl b mi) (start_mining opts wl not_mining).2 switches).
    intros mi Hok. pose proof (cancel_running (starts_miner opts wl) mi) as Hcan. unfold cancel in Hcan. cbn in Hcan. unfold stop_mining. destruct (mi_minerCancel mi) as [ctx|] eqn:Hx; cbn.
    + rewrite (Hcan ctx Hok eq_refl). by destruct (starts_miner opts wl).
    + destruct Hok as [_ -> _ _]. rewrite Hx. by destruct (mi_miner mi), (starts_miner opts wl).
  - intros b [before ->]%last_Some. rewrite foldl_app. cbn [foldl]. by destruct b.
  - intros b [before ->]%last_Some Hoff Hs. rewrite foldl_app. cbn [foldl]. destruct b; [|done].
    apply SetMining_on_only; [done|]. pose proof (Hall before) as Hok. unfold starts_miner in Hok. by rewrite Hoff in Hok.
  - intros before -> Hs. rewrite Hlen. unfold starts_miner. rewrite (bool_decide_true _ Hs), andb_true_r.
    rewrite foldl_app. cbn [foldl]. rewrite SetMining_on by done. by destruct (op_MiningEnabled opts).
Qed.
End mining_props.

(** ** Witnesses *)

#[local] Existing Instance mem_db.
#[local] Existing Instance toy_lib.
#[local] Existing Instance toy_hd.
#[local] Existing Instance toy_hashlib.

Lemma initNetworkGenesis_correct_witness :
  initNetworkGenesis Mainnet sha256d_Hasher = Ok Mainnet ∧
  p_GenesisHash Mainnet = HashBlockHeader (blk_Header (p_GenesisBlock Mainnet)) ∧
  initNetworkGenesis Regtest sha256d_Hasher ≠ Panic.
Proof.
  assert (Hr : bool_decide (HashBlockHeader (blk_Header (p_GenesisBlock Mainnet)) = p_GenesisHash Mainnet) = true)
    by (vm_compute; reflexivity).
  assert (Hm : initNetworkGenesis Mainnet sha256d_Hasher = Ok Mainnet) by (unfold initNetworkGenesis; rewrite Hr; reflexivity).
  pose proof (initNetworkGenesis_correct Mainnet sha256d_Hasher sha256d_ok) as H1.
  pose proof (initNetworkGenesis_correct Regtest sha256d_Hasher sha256d_ok) as H2.
  rewrite Hm in H1. split; [exact Hm|]. split; [apply H1|].
  destruct (initNetworkGenesis Regtest sha256d_Hasher); [discriminate|discriminate|destruct H2].
Defined.

(** A node of mainnet with empty stores, whose RPC server listens to the machine
    itself. *)
Definition nd_config (rpc : string) : config_Config :=
  mkNodeConfig (str "mainnet") [] [] (str "0.0.0.0:19333") (str rpc) [] 25 8 false [] (str "info") (str "user") (str "secret").
Definition nd_options (mining noAuth : bool) (cert key : string) : Options := mkOptions mining noAuth false [] (str cert) (str key).
Notation nd_open := (node_New (PS := list (list byte)) mg_wall toy_faults toy_random [] (Ok ()) (Ok ()) (λ _, Ok w_store) (Ok [])
  (Err (Errorf "no file")) (mkHost None 0) (nd_config "127.0.0.1:19445") nothing_open).
Notation nd_start n := (node_Start n (nd_config "127.0.0.1:19445") (nd_options false false "" "") None (Ok ()) (Ok []) (Ok ())).
Definition nd_runs (r : res (Node FileStore (list (list byte))) * Opened) : bool :=
  match r.1 with
  | Ok n => is_ok (nd_start n) && bool_decide (is_u32 (p_MaxMempoolSize (n_params n)))
  | _ => false
  end.
Lemma nd_ran : nd_runs nd_open = true.
Proof. vm_compute. reflexivity. Qed.
Lemma nd_started : ∃ n od s auth tls, nd_open = (Ok n, od) ∧ nd_start n = Ok (s, auth, tls) ∧ is_u32 (p_MaxMempoolSize (n_params n)).
Proof.
  pose proof nd_ran as Hr. revert Hr. generalize nd_open. intros [r od]. unfold nd_runs. cbn [fst].
  destruct r as [n|e|]; [|done..]. intros [Hs Hm%bool_decide_eq_true]%andb_true_iff.
  destruct (nd_start n) as [[[s auth] tls]| |] eqn:Hn; [|done..]. by exists n, od, s, auth, tls.
Qed.

Lemma node_invariant_witness : ∃ p engine auth (s : Server FileStore (list (list byte))),
  let s' := (serve p engine mg_world w_clock w_clock mg_wall sv_outside auth sv_reports
               (sv_request "POST" "/settxfee" {["amount" := str "70"]}) s).2 in
  (∃ wl, s_wallet s' = Some wl ∧ keys_ok wl) ∧ 0 ≤ s_feePerByte s' ≤ maxFeePerByte.
Proof.
  destruct nd_started as (n & od & s & auth & tls & Hnew & Hstart & Hmax).
  exists (n_params n), (n_engine n), auth, s. intros s'.
  destruct (node_invariant (n_params n) (n_engine n) (mg_config 25) mg_world w_clock w_clock mg_wall mg_wall sv_outside auth
    sv_reports mg_world_ok s' Hmax) as (_ & _ & Hwl & Hfee & _); [|exact (conj Hwl Hfee)].
  eapply node_next; [|apply step_request]. eapply node_started; [exact Hnew|reflexivity|reflexivity|exact Hstart].
Defined.

Lemma server_exposure_witness :
  let cfg := nd_config "10.0.0.5:19445" in
  let r := sv_request "POST" "/stop" ∅ in
  start_rpc cfg (nd_options false false "cert" "key") (Ok []) (Ok ()) = Ok (sv_auth, true) ∧
  RpcProps.node (serve w_params w_engine mg_world w_clock w_clock mg_wall sv_outside sv_auth sv_reports r sv_server).2
    = RpcProps.node sv_server ∧
  start_rpc (nd_config ":19445") (nd_options false true "" "") (Ok []) (Ok ()) = Ok (mkAuth [] [], false).
Proof.
  intros cfg r.
  pose proof (server_exposure w_params w_engine mg_world w_clock w_clock mg_wall sv_outside sv_reports cfg
    (nd_options false false "cert" "key") (Ok []) (Ok ()) (str "10.0.0.5") (str "19445") ltac:(vm_compute; reflexivity)) as [H1 _].
  pose proof (server_exposure w_params w_engine mg_world w_clock w_clock mg_wall sv_outside sv_reports (nd_config ":19445")
    (nd_options false true "" "") (Ok []) (Ok ()) [] (str "19445") ltac:(vm_compute; reflexivity)) as [_ H2].
  assert (Hs : start_rpc cfg (nd_options false false "cert" "key") (Ok []) (Ok ()) = Ok (sv_auth, true)) by (vm_compute; reflexivity).
  assert (Ha : authorized sv_auth r = false) by (vm_compute; reflexivity).
  assert (Hremote : remote_host (str "10.0.0.5")).
  { split; [vm_compute; reflexivity|]. intros ip Hip. vm_compute in Hip. injection Hip as <-. vm_compute. reflexivity. }
  destruct (H1 Hremote sv_auth true Hs) as [_ H3]. specialize (H3 r sv_server Ha).
  split; [exact Hs|]. split; [|apply H2; reflexivity].
  destruct (serve _ _ _ _ _ _ _ _ _ r sv_server) as [resp s']. apply H3.
Defined.

Lemma mining_switch_witness :
  let mi := foldl (λ mi b, SetMining toy_wallet b mi)
    (start_mining (nd_options true false "" "") toy_wallet not_mining).2 [false; true] in
  len (mi_running mi) = 2 ∧ mi_running (stop_mining mi) = [].
Proof.
  pose proof (mining_switch (nd_options true false "" "") toy_wallet [false; true]) as (_ & Hstop & _ & _ & Htwo).
  assert (Hk : bool_decide (is_Some (GetDefaultP2PKHScript toy_wallet)) = true) by (vm_compute; reflexivity).
  apply bool_decide_eq_true in Hk. split; [|exact Hstop]. exact (Htwo [] eq_refl Hk).
Defined.
